(* ===== verification/_CoqProject ===== *)
-Q . S2P
Prelude.v
Wire.v
Cursor.v
Validator.v
Heap.v
Reliability.v
Contracts.v
InboundState.v
ActiveRequests.v
PushBarrier.v
Framing.v
Negotiation.v
Session.v
MsgId.v
Crypto.v
Tl.v
AuthKeys.v
WriterLoop.v
Inbound.v
Registry.v
Gzip.v
InitConnection.v
Normalize.v
Routing.v
KeyExchange.v
Handshake.v
SessionActor.v
Connection.v
PushRegistry.v
Admission.v
Application.v
FrameSink.v
TemporaryKeys.v
SchemaAst.v
Lexer.v
SchemaParser.v
SchemaFormat.v
SchemaLayers.v
SchemaValidate.v
Directives.v
LayeredSchema.v
BareLayouts.v
Naming.v
Metadata.v
WebSocket.v
