(* ===== verification/Prelude.v ===== *)
(** * tlrpc: an MTProto server runtime, verified

    tlrpc serves TL remote procedure calls over MTProto 2.0.  A connection carries frames
    of one of four packet codecs, possibly obfuscated; frames are plaintext (the
    authorization handshake) or encrypted with an authorization key; an encrypted frame
    names a session, whose messages are validated, unwrapped and routed to the protocol
    controls or to the application; answers and pushes go back through one writer per
    session, which retains them until they are acknowledged.  A separate toolchain parses
    TL schemas, resolves them to layers and generates the codecs.

    ** Files and the sources they model (paths under src/)

    Vocabulary
    - Prelude: fixed-width integers, bytes, results, the state-and-error monad.
    - Heap: container/heap, as the standard library defines it.

    Wire format
    - Wire: mtproto/deserialize.go, serialize.go, encode_budget.go: readers and writers
      under the decode budget.  Cursor: mtproto/cursor.go, with PrependReader of
      deserialize.go, proved to agree with them.
    - Tl: the service objects of mtproto/tl.  InitConnection: mtproto/tl/init_options.go.
    - Gzip: mtproto/gzip.go.

    Transport
    - Framing: transport/mtproto_codec.  Negotiation: transport/negotiator.go,
      obfuscated2.go, mtproto_conn.go.  FrameSink: internal/runtime/frame_sink.go and
      controlledConn of resource_controls.go.  WebSocket: origin policy, upgrade admission
      and message stream of websocket.go, ws_stream.go.

    Keys and the handshake
    - Crypto: crypto/aes.go, mtproto/message.go, internal/runtime/envelope.go.
    - KeyExchange: crypto/dh.go, rsa.go, rsa_pad.go.  Handshake: internal/handshake.
    - AuthKeys: crypto/authkey_memory.go, temporary_authkey.go.  TemporaryKeys:
      internal/runtime/temporary_key.go, temporary_authkey.go of package tlrpc.

    Sessions
    - Session: session/ (snapshot, store, coordinator).  Validator:
      mtproto/protocol/validator.go.  Reliability: mtproto/reliability/store.go.
      InboundState, ActiveRequests, PushBarrier, Registry: the files of those names in
      internal/runtime.  MsgId: mtproto/msgid.go, seqno.go.

    The runtime (internal/runtime)
    - Contracts: contracts.go.  Inbound: inbound.go.  Normalize: wrappers.go.  Routing:
      control.go, router.go.  WriterLoop: writer.go.  SessionActor:
      connection_session.go.  Connection: connection.go, connection_handshake_ack.go.

    The server (package tlrpc)
    - PushRegistry: runtime_push.go.  Admission: resource_controls.go and the lifecycle
      of server.go.  Application: RegisterService, runtime_application.go, error.go,
      interceptor.go, method_layers.go, session_binding.go.  Metadata: metadata.go.

    Schemas (internal/parser)
    - SchemaAst: ast.go.  Lexer: token.go, lexer.go.  SchemaParser: parser.go.
      SchemaFormat: printing and parsing again.  SchemaLayers: one layer, from layers.go
      with the intervals of layered.go and the selection of baseline.go.  Directives: the
      directive comments of layers.go and baseline.go.  SchemaValidate: validate.go.
      LayeredSchema: all layers in one schema, from layered.go.  BareLayouts: theorems on
      its bare references.  Naming: internal/naming.

    ** How the code is represented

    A w-bit integer is the Z it denotes, with wrap-around written out ([wrapU], [wrapS]);
    time is nanoseconds, and every reading of a clock is an argument.  A method is a
    function on its receiver's record in the monad [ST], which threads the receiver also
    through errors; errors are constructors of one type per component.  Objects Go holds
    by pointer from several places (registry entries, push registrations, decode budgets,
    handshake sessions) live in a heap and are named by their index, so that aliasing is
    visible.  Concurrent components are step relations or threads whose steps are the
    regions the code runs under a mutex, the calls to a store and the channel operations;
    their theorems are about every interleaving.  Iteration over a Go map is either proved
    independent of the order or takes the order as an argument.

    ** What the theorems show

    - Wire: the cursor codec agrees with the stream codec, in its buffer form and over any
      stream, but for replayed bytes that the budget no longer covers; objects, frames, packets and
      wrappers survive being written and read; decompression and decoding stay within
      their budgets.
    - Replay protection: no message is accepted twice, across restarts and containers
      ([Validator], [Inbound]); what is marked a retransmission was remembered or carried
      by an envelope before; a rejected envelope changes nothing; an envelope starts
      only fresh requests, each once ([SessionActor]).
    - Durability and order: the writer saves and retains before it sends, as far as the
      reliability store has room; the sink writes each frame whole and in turn; frames open
      with the session's key, answers are served in order, held pushes keep their order.
    - Exclusive ownership: a lease superseded by another never writes again; registry
      handles stay valid and bounded; a connection holds a bounded number of sessions of
      one key and never reopens one that another connection took.
    - Authorization: a key is stored only for an answer that proves the key exchange, also
      when the handshake then fails; the handshake table is bounded.
    - The server: quotas and session counts are exact under every interleaving, handlers
      are bounded, publications reach exactly the sessions of the user, projected pushes
      never reach a changed binding, dispatch selects the registered method and answers
      exactly once.
    - Schemas: parsing terminates on every input with enough fuel, printed functions
      parse back but for generic parameters and bare conditional types, a resolved layer is
      the one its differences denote, the validator decides a declarative well-formedness
      but for the elements of conditional vectors, the combined schema holds exactly the
      declarations of every layer and the accepted historical functions, its ids are
      unambiguous at each layer, bare layouts are finite.
    - Where the code does not do what it means to, a theorem shows it: concurrent saves of
      a session lose updates, an announcement that is late re-registers an ended session,
      an application error without a text ends its session; examples show a batch
      that evicts its own messages from the reliability store, a replayed constructor that a
      cursor refuses, a directive that marks another declaration, a conditional vector that is not resolved, a bare
      reference that names no constructor, metadata that cannot be found and an opaque
      origin that the default policy accepts.

    ** Fuel

    Loops that are not structural take fuel, and the entry points give enough:
    the validator's batch loop and the normalizer run at most the length of the batch and
    the wrapper limit plus one; the JSON union at most its depth limit plus two; the stream
    reader the length of what is left; the schema parser the length of the input plus two
    (each step consumes a token, proved in [parse_terminates]); the searches over bare
    references the number of families (proved to suffice in [bare_layouts_decided] and
    [ResolveLayers_ends]); factorization up to the square root; the private exponent is
    drawn at most 32 times, as in the code.

    ** Parameters

    Code outside the repository is a parameter with the documented behaviour as named
    hypotheses, instantiated in the witnesses: block cipher and hashes, AES-CTR key
    streams, the random source, the primality test and PKCS#1 decryption, compress/gzip,
    clocks, the transport's reads and writes, and the application with its generated
    codecs.  Between components the interfaces are classes with laws: the session store,
    the lease, the outbound controls, the session writer, the environment of a connection
    and the key store.

    ** Not modelled

    - Generated code (examples/gen, examples/echo/gen, internal/testdata/gen) and its
      generator (internal/generator, cmd/tlrpc-gen): the generator emits Go text, whose
      meaning is that of the Go compiler; its input and its names are in LayeredSchema and
      Naming, the primitives it emits calls to in Wire and Cursor.
    - The TCP transport, dialling, deadlines and the HTTP server of the WebSocket transport:
      adapters of net, net/http and gorilla/websocket, no state beyond the library's.
    - The observer sink of observer.go: event records and a channel that drops when full,
      on which nothing depends.
    - Commands, examples, the compatibility client and harness, test helpers, and the
      core TL types of types/, each of which calls one reader and one writer of Wire. *)

(** Shared vocabulary: Go's fixed-width integers, bytes, results and the
    state-and-error monad the components are written in. *)

From stdpp Require Import base numbers list gmap fin_maps strings.
From Stdlib.Strings Require Export Byte.

#[export] Set Default Goal Selector "!".
Declare Scope go_scope.
Delimit Scope go_scope with go.
Open Scope Z_scope.

Create HintDb tlrpc.
Create Rewrite HintDb tlrpc_len.

(** * Machine integers: a [w]-bit Go integer is the [Z] it denotes *)

Definition wrapU (w z : Z) : Z := z mod 2 ^ w.

Definition wrapS (w z : Z) : Z := (z + 2 ^ (w - 1)) mod 2 ^ w - 2 ^ (w - 1).

Definition inU (w z : Z) : Prop := 0 <= z < 2 ^ w.

Definition inS (w z : Z) : Prop := - 2 ^ (w - 1) <= z < 2 ^ (w - 1).

Abbreviation uint32 := (wrapU 32).
Abbreviation uint64 := (wrapU 64).
Abbreviation int32 := (wrapS 32).
Abbreviation int64 := (wrapS 64).

Definition MaxInt32 : Z := 2 ^ 31 - 1.
Definition MaxInt64 : Z := 2 ^ 63 - 1.

(** * Results *)

Inductive result (E A : Type) : Type :=
| Ok (a : A)
| Err (e : E).
Arguments Ok {E A} a.
Arguments Err {E A} e.

Definition is_ok {E A} (r : result E A) : bool :=
  match r with Ok _ => true | Err _ => false end.

#[export] Instance result_ret (E : Type) : MRet (result E) := fun A a => Ok a.
#[export] Instance result_bind (E : Type) : MBind (result E) :=
  fun A B f m => match m with Ok a => f a | Err e => Err e end.

Definition map_err {E F A} (f : E -> F) (r : result E A) : result F A :=
  match r with Ok a => Ok a | Err e => Err (f e) end.

(** The effect of a Go call on a mutable receiver: the receiver is threaded
    through, also when the call returns an error. *)
Definition ST (S E A : Type) : Type := S -> result E A * S.

Definition st_ret {S E A} (a : A) : ST S E A := fun s => (Ok a, s).
Definition st_err {S E A} (e : E) : ST S E A := fun s => (Err e, s).
Definition st_bind {S E A B} (f : A -> ST S E B) (m : ST S E A) : ST S E B :=
  fun s => match m s with
           | (Ok a, s') => f a s'
           | (Err e, s') => (Err e, s')
           end.

#[export] Instance ST_ret (S E : Type) : MRet (ST S E) := fun A => st_ret.
#[export] Instance ST_bind (S E : Type) : MBind (ST S E) := fun A B => st_bind.

(** [if cond { return err }] *)
Definition st_guard {S E} (ok : bool) (e : E) : ST S E unit :=
  if ok then st_ret tt else st_err e.

(** A Go [for _, x := range xs] whose body may return an error. *)
Fixpoint st_each {S E A} (f : A -> ST S E unit) (xs : list A) : ST S E unit :=
  match xs with
  | [] => st_ret tt
  | x :: xs' => st_bind (fun _ => st_each f xs') (f x)
  end.

(** [n] calls of [f], collecting what they return, stopping at the first error. *)
Fixpoint st_repeat {S E A} (n : nat) (f : ST S E A) : ST S E (list A) :=
  match n with
  | O => st_ret []
  | S n' => st_bind (fun x => st_bind (fun xs => st_ret (x :: xs)) (st_repeat n' f)) f
  end.

(** * Bytes *)

Abbreviation bytes := (list byte).

Definition Zb (b : byte) : Z := Z.of_N (Byte.to_N b).

(** Go's conversion [byte(z)]. *)
Definition bZ (z : Z) : byte :=
  match Byte.of_N (Z.to_N (z mod 256)) with Some b => b | None => x00 end.

(** Go's [len]. *)
Definition len {A} (l : list A) : Z := Z.of_nat (length l).
Arguments len : simpl never.

(** [encoding/binary.LittleEndian]: the low [n] bytes of [z] and their value. *)
Fixpoint le_put (n : nat) (z : Z) : bytes :=
  match n with
  | O => []
  | S n' => bZ z :: le_put n' (z / 256)
  end.

Fixpoint le_get (bs : bytes) : Z :=
  match bs with
  | [] => 0
  | b :: bs' => Zb b + 256 * le_get bs'
  end.

(** [b[i:j]] *)
Definition slice (b : bytes) (i j : nat) : bytes := take (j - i) (drop i b).

Abbreviation zeros n := (replicate n x00).

#[export] Instance byte_eq_dec : EqDecision byte := Byte.byte_eq_dec.

Definition bytes_eqb (a b : bytes) : bool := bool_decide (a = b).

(** ** Facts *)

Lemma Zb_range b : 0 <= Zb b < 256.
Proof.
  unfold Zb. pose proof (Byte.to_N_bounded b). lia.
Qed.

Lemma Zb_inj a b : Zb a = Zb b -> a = b.
Proof.
  unfold Zb. intros H%N2Z.inj.
  pose proof (Byte.of_to_N a) as Ha. rewrite H, Byte.of_to_N in Ha. congruence.
Qed.

Lemma Zb_bZ z : Zb (bZ z) = z mod 256.
Proof.
  unfold bZ, Zb. pose proof (Z.mod_pos_bound z 256 eq_refl) as Hz.
  destruct (Byte.of_N (Z.to_N (z mod 256))) as [b|] eqn:E.
  - apply Byte.to_of_N in E. rewrite E. lia.
  - apply Byte.of_N_None_iff in E. lia.
Qed.

Lemma bZ_Zb b : bZ (Zb b) = b.
Proof.
  apply Zb_inj. rewrite Zb_bZ. apply Z.mod_small, Zb_range.
Qed.

Lemma len_nonneg {A} (l : list A) : 0 <= len l.
Proof. unfold len. lia. Qed.

Lemma len_app {A} (a b : list A) : len (a ++ b) = len a + len b.
Proof. unfold len. rewrite length_app. lia. Qed.

Lemma len_cons {A} (x : A) (l : list A) : len (x :: l) = 1 + len l.
Proof. unfold len. simpl. lia. Qed.

Lemma len_nil {A} : len (@nil A) = 0.
Proof. reflexivity. Qed.

Lemma len_zeros n : len (zeros n) = Z.of_nat n.
Proof. unfold len. by rewrite length_replicate. Qed.

Lemma le_put_length n z : length (le_put n z) = n.
Proof. revert z. induction n as [|n IH]; intros z; simpl; [done|]. by rewrite IH. Qed.

Lemma len_le_put n z : len (le_put n z) = Z.of_nat n.
Proof. unfold len. by rewrite le_put_length. Qed.

Lemma pow256_S n : 256 ^ Z.of_nat (S n) = 256 * 256 ^ Z.of_nat n.
Proof. rewrite Nat2Z.inj_succ, Z.pow_succ_r by lia. done. Qed.

Lemma le_get_put n z : le_get (le_put n z) = z mod 256 ^ Z.of_nat n.
Proof.
  revert z. induction n as [|n IH]; intros z; cbn [le_put le_get].
  - by rewrite Z.mod_1_r.
  - rewrite IH, Zb_bZ, pow256_S.
    assert (0 < 256 ^ Z.of_nat n) by (apply Z.pow_pos_nonneg; lia).
    rewrite Z.rem_mul_r by lia. done.
Qed.

Lemma le_get_range bs : 0 <= le_get bs < 256 ^ len bs.
Proof.
  induction bs as [|b bs IH]; cbn [le_get].
  - by vm_compute.
  - rewrite len_cons. pose proof (Zb_range b). pose proof (len_nonneg bs).
    replace (1 + len bs) with (Z.succ (len bs)) by lia.
    rewrite Z.pow_succ_r by lia. lia.
Qed.

Lemma le_put_get bs : le_put (length bs) (le_get bs) = bs.
Proof.
  induction bs as [|b bs IH]; cbn [le_get length le_put]; [done|].
  pose proof (Zb_range b). f_equal.
  - apply Zb_inj. rewrite Zb_bZ.
    replace (Zb b + 256 * le_get bs) with (Zb b + le_get bs * 256) by lia.
    rewrite Z.mod_add by lia. apply Z.mod_small. lia.
  - replace (Zb b + 256 * le_get bs) with (Zb b + le_get bs * 256) by lia.
    rewrite Z.div_add by lia. rewrite Z.div_small by lia. done.
Qed.

Lemma le_get_inj a b : length a = length b -> le_get a = le_get b -> a = b.
Proof. intros Hl H. rewrite <- (le_put_get a), <- (le_put_get b). congruence. Qed.

Lemma wrapU_range w z : 0 <= w -> inU w (wrapU w z).
Proof. intros. unfold inU, wrapU. apply Z.mod_pos_bound, Z.pow_pos_nonneg; lia. Qed.

Lemma wrapU_id w z : inU w z -> wrapU w z = z.
Proof. intros. unfold wrapU. by apply Z.mod_small. Qed.

Lemma pow2_half w : 0 < w -> 2 ^ w = 2 * 2 ^ (w - 1).
Proof. intros. replace w with (Z.succ (w - 1)) at 1 by lia. rewrite Z.pow_succ_r by lia. done. Qed.

Lemma wrapS_range w z : 0 < w -> inS w (wrapS w z).
Proof.
  intros. unfold inS, wrapS. pose proof (pow2_half w).
  assert (0 < 2 ^ (w - 1)) by (apply Z.pow_pos_nonneg; lia).
  pose proof (Z.mod_pos_bound (z + 2 ^ (w - 1)) (2 ^ w)). lia.
Qed.

Lemma wrapS_id w z : 0 < w -> inS w z -> wrapS w z = z.
Proof.
  intros ? [??]. unfold wrapS. pose proof (pow2_half w).
  rewrite Z.mod_small by lia. lia.
Qed.

Lemma wrapS_wrapU w z : 0 < w -> wrapS w (wrapU w z) = wrapS w z.
Proof.
  intros. unfold wrapS, wrapU.
  assert (0 < 2 ^ w) by (apply Z.pow_pos_nonneg; lia).
  by rewrite Zplus_mod_idemp_l.
Qed.

Lemma wrapU_wrapS w z : 0 < w -> wrapU w (wrapS w z) = wrapU w z.
Proof.
  intros. unfold wrapS, wrapU.
  assert (0 < 2 ^ w) by (apply Z.pow_pos_nonneg; lia).
  rewrite Zminus_mod_idemp_l. f_equal. lia.
Qed.

(** Signed values survive the trip through their unsigned bit pattern. *)
Lemma int32_uint32 z : inS 32 z -> int32 (uint32 z) = z.
Proof. intros. rewrite wrapS_wrapU by lia. by apply wrapS_id. Qed.

Lemma int64_uint64 z : inS 64 z -> int64 (uint64 z) = z.
Proof. intros. rewrite wrapS_wrapU by lia. by apply wrapS_id. Qed.

Lemma le_get_put_u32 z : le_get (le_put 4 z) = uint32 z.
Proof. rewrite le_get_put. reflexivity. Qed.

Lemma le_get_put_u64 z : le_get (le_put 8 z) = uint64 z.
Proof. rewrite le_get_put. reflexivity. Qed.

Lemma take_len_app {A} (n : nat) (a b : list A) : length a = n -> take n (a ++ b) = a.
Proof. intros <-. apply take_app_length. Qed.

Lemma drop_len_app {A} (n : nat) (a b : list A) : length a = n -> drop n (a ++ b) = b.
Proof. intros <-. apply drop_app_length. Qed.

Lemma take_min_length {A} k (l : list A) : take (Nat.min k (length l)) l = take k l.
Proof.
  destruct (Nat.le_ge_cases k (length l)); [by rewrite Nat.min_l|].
  rewrite Nat.min_r by done. by rewrite !take_ge by lia.
Qed.

Lemma drop_min_length {A} k (l : list A) : drop (Nat.min k (length l)) l = drop k l.
Proof.
  destruct (Nat.le_ge_cases k (length l)); [by rewrite Nat.min_l|].
  rewrite Nat.min_r by done. by rewrite !drop_ge by lia.
Qed.

(** ** Lists of ids: sum and minimum helpers *)

Fixpoint sumZ (l : list Z) : Z :=
  match l with [] => 0 | x :: l' => x + sumZ l' end.

Lemma sumZ_app a b : sumZ (a ++ b) = sumZ a + sumZ b.
Proof. induction a; simpl; lia. Qed.

#[export] Hint Rewrite @len_app @len_cons @len_nil len_zeros len_le_put : tlrpc_len.
#[export] Hint Resolve Zb_range len_nonneg : tlrpc.

(** ** Bitwise exclusive or *)

Lemma lxor_range w a b : 0 <= w -> 0 <= a < 2 ^ w -> 0 <= b < 2 ^ w -> 0 <= Z.lxor a b < 2 ^ w.
Proof.
  intros Hw Ha Hb. destruct (Z.eq_dec a 0) as [->|]; [by rewrite Z.lxor_0_l|].
  destruct (Z.eq_dec b 0) as [->|]; [by rewrite Z.lxor_0_r|].
  assert (0 <= Z.lxor a b) by (apply Z.lxor_nonneg; lia). split; [done|].
  destruct (Z.eq_dec (Z.lxor a b) 0) as [->|]; [by apply Z.pow_pos_nonneg|].
  apply Z.log2_lt_pow2; [lia|]. eapply Z.le_lt_trans; [apply Z.log2_lxor; lia|].
  apply Z.max_lub_lt; apply Z.log2_lt_pow2; lia.
Qed.

(** [a ^ b] on bytes. *)
Definition xor_byte (a b : byte) : byte := bZ (Z.lxor (Zb a) (Zb b)).

Lemma xor_byte_invol b k : xor_byte (xor_byte b k) k = b.
Proof.
  apply Zb_inj. unfold xor_byte. pose proof (Zb_range b). pose proof (Zb_range k).
  assert (Hx : forall x y, 0 <= x < 256 -> 0 <= y < 256 -> Z.lxor x y mod 256 = Z.lxor x y).
  { intros x y Hx Hy. apply Z.mod_small. by apply (lxor_range 8). }
  rewrite !Zb_bZ, (Hx (Zb b)) by done. rewrite Hx; [|by apply (lxor_range 8)|done].
  by rewrite Z.lxor_assoc, Z.lxor_nilpotent, Z.lxor_0_r.
Qed.

Lemma filter_keep_all {A} (P : A -> Prop) `{!forall x, Decision (P x)} (l : list A) :
  (forall x, x ∈ l -> P x) -> filter P l = l.
Proof.
  induction l as [|x l IH]; intros Hl; [done|].
  rewrite filter_cons_True by (apply Hl; left). f_equal. apply IH. intros. apply Hl. by right.
Qed.

Lemma filter_drop_all {A} (P : A -> Prop) `{!forall x, Decision (P x)} (l : list A) :
  (forall x, x ∈ l -> ~ P x) -> filter P l = [].
Proof.
  induction l as [|x l IH]; intros Hl; [done|].
  rewrite filter_cons_False by (apply Hl; left). apply IH. intros. apply Hl. by right.
Qed.

(** ** Monad reasoning *)

Lemma st_bind_ok {S E A B} (f : A -> ST S E B) (m : ST S E A) s b s' :
  st_bind f m s = (Ok b, s') <->
  exists a s1, m s = (Ok a, s1) /\ f a s1 = (Ok b, s').
Proof.
  unfold st_bind. destruct (m s) as [[a|e] s1]; split.
  - eauto.
  - by intros (?&?&[= -> ->]&?).
  - done.
  - by intros (?&?&?&?).
Qed.

Lemma st_guard_ok {S E} ok (e : E) (s s' : S) :
  st_guard ok e s = (Ok tt, s') <-> ok = true /\ s' = s.
Proof. unfold st_guard, st_ret, st_err. destruct ok; split; try naive_solver. Qed.

(** Splits a successful bind, guard or return into its parts. *)
Ltac st_inv :=
  repeat match goal with
  | H : mbind _ _ _ = (Ok _, _) |- _ => apply st_bind_ok in H as (?&?&?&?)
  | H : st_bind _ _ _ = (Ok _, _) |- _ => apply st_bind_ok in H as (?&?&?&?)
  | H : st_guard _ _ _ = (Ok _, _) |- _ => apply st_guard_ok in H as (?&?); subst
  | H : st_ret _ _ = (Ok _, _) |- _ => unfold st_ret in H; simplify_eq
  | H : mret _ _ = (Ok _, _) |- _ => unfold mret, ST_ret, st_ret in H; simplify_eq
  | H : st_err _ _ = (Ok _, _) |- _ => discriminate H
  end.

(** Turns boolean tests of the code into the propositions they decide. *)
Ltac bools :=
  repeat match goal with
  | H : (_ <? _) = true |- _ => apply Z.ltb_lt in H
  | H : (_ <? _) = false |- _ => apply Z.ltb_ge in H
  | H : (_ <=? _) = true |- _ => apply Z.leb_le in H
  | H : (_ <=? _) = false |- _ => apply Z.leb_gt in H
  | H : (_ =? _) = true |- _ => apply Z.eqb_eq in H
  | H : (_ =? _) = false |- _ => apply Z.eqb_neq in H
  | H : (_ && _)%bool = true |- _ => apply andb_prop in H as [??]
  | H : (_ || _)%bool = false |- _ => apply orb_false_elim in H as [??]
  | H : negb _ = true |- _ => apply negb_true_iff in H
  | H : negb _ = false |- _ => apply negb_false_iff in H
  | H : bool_decide _ = true |- _ => apply bool_decide_eq_true_1 in H
  | H : bool_decide _ = false |- _ => apply bool_decide_eq_false_1 in H
  end.

(** Decides the comparisons of constants, as in a switch over constructor ids. *)
Ltac switch :=
  repeat match goal with
  | |- context [?a =? ?b] =>
      let v := eval vm_compute in (a =? b) in
      lazymatch v with true => idtac | false => idtac end; change (a =? b) with v
  end; cbv beta iota zeta delta [negb].

(** * Sums over the values of a map *)

Definition total {A} (f : A -> Z) (m : gmap nat A) : Z :=
  map_fold (fun _ st acc => f st + acc) 0 m.

Lemma total_empty {A} (f : A -> Z) : total f ∅ = 0.
Proof. apply map_fold_empty. Qed.

Lemma total_delete {A} (f : A -> Z) m owned st : m !! owned = Some st -> total f m = f st + total f (delete owned m).
Proof.
  intros H. unfold total. apply (map_fold_delete_L (fun _ st acc => f st + acc)); [|done].
  intros. lia.
Qed.

Lemma total_insert {A} (f : A -> Z) m owned st : m !! owned = None -> total f (<[owned := st]> m) = f st + total f m.
Proof.
  intros H. unfold total. apply (map_fold_insert_L (fun _ st acc => f st + acc)); [|done]. intros. lia.
Qed.

Lemma total_replace {A} (f : A -> Z) m owned st st' :
  m !! owned = Some st -> total f (<[owned := st']> m) = total f m - f st + f st'.
Proof.
  intros H. rewrite (total_delete f m owned st H), (total_delete f _ owned st') by apply lookup_insert_eq.
  rewrite delete_insert_eq. lia.
Qed.

Lemma total_nonneg {A} (f : A -> Z) m : (forall st, 0 <= f st) -> 0 <= total f m.
Proof.
  intros Hf. unfold total. apply (map_fold_weak_ind (fun acc _ => 0 <= acc)); [lia|]. intros. specialize (Hf x). lia.
Qed.

Lemma total_mono {A} (f g : A -> Z) m : (forall st, f st <= g st) -> total f m <= total g m.
Proof.
  intros Hf. induction m as [|i x m Hi Hk IH] using map_first_key_ind; [done|].
  rewrite !total_insert by done. specialize (Hf x). lia.
Qed.

Lemma weight_le_total {A} (f : A -> Z) m c st : (forall st, 0 <= f st) -> m !! c = Some st -> f st <= total f m.
Proof. intros Hf H. rewrite (total_delete f m c st H). pose proof (total_nonneg f (delete c m) Hf). lia. Qed.
