(* ===== verification/Wire.v ===== *)
(** The TL wire primitives of package mtproto: the byte-budgeted readers and
    the stream reading functions (deserialize.go), the stream writing functions
    (serialize.go), the object budgets (deserialize.go, encode_budget.go).

    A reader is the pair of the bytes not read yet and, when it is a
    *BudgetReader, the DecodeBudget it charges. A writer is the bytes written
    so far and, when it is the runtime's boundedRuntimeWriter, what it still
    accepts. A float64 is its IEEE 754 bit pattern. *)

From stdpp Require Import base numbers list gmap strings.
From S2P Require Import Prelude.
Open Scope Z_scope.

(** * Errors *)

Inductive wire_error :=
| EOF
| ErrUnexpectedEOF
| ErrInvalidBool
| ErrStringTooLong
| ErrVectorTooLong
| ErrDecodedBytesLimit
| ErrWrapperCountLimit
| ErrContainerCountLimit
| ErrVectorCountLimit
| ErrObjectNodeLimit
| ErrObjectDepthLimit
| ErrNegativeDecodeLimits
| ErrInvalidMessageLength
| ErrInvalidVectorConstructor (ctor : Z)
| ErrInvalidVectorLength (count : Z)
| ErrWrongConstructor (got want : Z)
| ErrNegativeMessageBytes (n : Z)
| ErrFutureSaltsCount (n : Z)
| ErrInitConnectionOptions
| ErrTrailingControlData (n : Z)
| ErrEncodedPayloadTooLarge
| ErrEncodedBytesLimit
| ErrEncodedObjectDepthLimit
| ErrEncodedObjectNodesLimit
| ErrDecodedPayloadTooLarge
| ErrGzipExpansionRatio
| ErrGzipWorkLimit
| ErrGzipData
| ErrNegativeLimit
| OutOfFuel.

#[export] Instance wire_error_eq_dec : EqDecision wire_error.
Proof. solve_decision. Defined.

(** * Decode budgets *)

Definition MaxVectorElements : Z := 2 ^ 20.
Definition DefaultMaxDecodedBytes : Z := 16 * 2 ^ 20.
Definition DefaultMaxWrappers : Z := 16.
Definition DefaultMaxContainers : Z := 64.
Definition DefaultMaxVectorElements : Z := 2 ^ 16.
Definition DefaultMaxObjectNodes : Z := 2 ^ 18.
Definition DefaultMaxObjectDepth : Z := 128.
Definition DefaultMaxGzipExpansionRatio : Z := 128.
Definition DefaultMaxGzipWorkBytes : Z := 32 * 2 ^ 20.
Definition MaxTLBytesLength : Z := 2 ^ 24 - 1.

Record DecodeLimits := {
  MaxDecodedBytes : Z;
  MaxWrappers : Z;
  MaxContainers : Z;
  LimVectorElements : Z;
  MaxObjectNodes : Z;
  MaxObjectDepth : Z;
  MaxGzipRatio : Z;
  MaxGzipWorkBytes : Z
}.

Record DecodeBudget := {
  limits : DecodeLimits;
  decodedBytes : Z;
  wrapperCount : Z;
  containerCount : Z;
  vectorElements : Z;
  objectNodes : Z;
  objectDepth : Z;
  gzipWorkBytes : Z
}.

Definition default_if_zero (v d : Z) : Z := if v =? 0 then d else v.

Definition normalizeDecodeLimits (l : DecodeLimits) : result wire_error DecodeLimits :=
  if (MaxDecodedBytes l <? 0) || (MaxWrappers l <? 0) || (MaxContainers l <? 0) ||
     (LimVectorElements l <? 0) || (MaxObjectNodes l <? 0) || (MaxObjectDepth l <? 0) ||
     (MaxGzipRatio l <? 0) || (MaxGzipWorkBytes l <? 0)
  then Err ErrNegativeDecodeLimits
  else Ok {|
    MaxDecodedBytes := default_if_zero (MaxDecodedBytes l) DefaultMaxDecodedBytes;
    MaxWrappers := default_if_zero (MaxWrappers l) DefaultMaxWrappers;
    MaxContainers := default_if_zero (MaxContainers l) DefaultMaxContainers;
    LimVectorElements := default_if_zero (LimVectorElements l) DefaultMaxVectorElements;
    MaxObjectNodes := default_if_zero (MaxObjectNodes l) DefaultMaxObjectNodes;
    MaxObjectDepth := default_if_zero (MaxObjectDepth l) DefaultMaxObjectDepth;
    MaxGzipRatio := default_if_zero (MaxGzipRatio l) DefaultMaxGzipExpansionRatio;
    MaxGzipWorkBytes := default_if_zero (MaxGzipWorkBytes l) DefaultMaxGzipWorkBytes |}.

Definition NewDecodeBudget (l : DecodeLimits) : result wire_error DecodeBudget :=
  match normalizeDecodeLimits l with
  | Err e => Err e
  | Ok n => Ok {| limits := n; decodedBytes := 0; wrapperCount := 0; containerCount := 0;
                  vectorElements := 0; objectNodes := 0; objectDepth := 0; gzipWorkBytes := 0 |}
  end.

Definition zeroLimits : DecodeLimits := {|
  MaxDecodedBytes := 0; MaxWrappers := 0; MaxContainers := 0; LimVectorElements := 0;
  MaxObjectNodes := 0; MaxObjectDepth := 0; MaxGzipRatio := 0; MaxGzipWorkBytes := 0 |}.

(** Field updates of a budget. *)
Definition charge_bytes (n : Z) (b : DecodeBudget) : DecodeBudget :=
  {| limits := limits b; decodedBytes := decodedBytes b + n; wrapperCount := wrapperCount b;
     containerCount := containerCount b; vectorElements := vectorElements b;
     objectNodes := objectNodes b; objectDepth := objectDepth b; gzipWorkBytes := gzipWorkBytes b |}.
Definition charge_vector (n : Z) (b : DecodeBudget) : DecodeBudget :=
  {| limits := limits b; decodedBytes := decodedBytes b; wrapperCount := wrapperCount b;
     containerCount := containerCount b; vectorElements := vectorElements b + n;
     objectNodes := objectNodes b; objectDepth := objectDepth b; gzipWorkBytes := gzipWorkBytes b |}.
Definition charge_wrapper (b : DecodeBudget) : DecodeBudget :=
  {| limits := limits b; decodedBytes := decodedBytes b; wrapperCount := wrapperCount b + 1;
     containerCount := containerCount b; vectorElements := vectorElements b;
     objectNodes := objectNodes b; objectDepth := objectDepth b; gzipWorkBytes := gzipWorkBytes b |}.
Definition charge_container (b : DecodeBudget) : DecodeBudget :=
  {| limits := limits b; decodedBytes := decodedBytes b; wrapperCount := wrapperCount b;
     containerCount := containerCount b + 1; vectorElements := vectorElements b;
     objectNodes := objectNodes b; objectDepth := objectDepth b; gzipWorkBytes := gzipWorkBytes b |}.
Definition charge_object (nodes depth : Z) (b : DecodeBudget) : DecodeBudget :=
  {| limits := limits b; decodedBytes := decodedBytes b; wrapperCount := wrapperCount b;
     containerCount := containerCount b; vectorElements := vectorElements b;
     objectNodes := objectNodes b + nodes; objectDepth := objectDepth b + depth;
     gzipWorkBytes := gzipWorkBytes b |}.
Definition charge_gzip (n : Z) (b : DecodeBudget) : DecodeBudget :=
  {| limits := limits b; decodedBytes := decodedBytes b; wrapperCount := wrapperCount b;
     containerCount := containerCount b; vectorElements := vectorElements b;
     objectNodes := objectNodes b; objectDepth := objectDepth b;
     gzipWorkBytes := gzipWorkBytes b + n |}.

Definition remaining (b : DecodeBudget) : Z := MaxDecodedBytes (limits b) - decodedBytes b.

(** * Readers *)

Record reader := Reader { rd_data : bytes; rd_budget : option DecodeBudget }.

Abbreviation RD := (ST reader wire_error).

(** [Read(p)] with [len(p) = k]: bytes.Reader.Read, and BudgetReader.Read over one. *)
Definition Read (k : nat) : RD bytes := fun r =>
  match rd_budget r with
  | None =>
      if len (rd_data r) =? 0 then (Err EOF, r)
      else (Ok (take k (rd_data r)), Reader (drop k (rd_data r)) None)
  | Some b =>
      if len (rd_data r) =? 0 then (Err EOF, r)
      else if remaining b <=? 0 then (Err ErrDecodedBytesLimit, r)
      else
        let reserved := Z.min (Z.of_nat k) (remaining b) in
        let b1 := charge_bytes reserved b in
        let p := take (Z.to_nat reserved) (rd_data r) in
        let b2 := charge_bytes (- (reserved - len p)) b1 in
        (Ok p, Reader (drop (Z.to_nat reserved) (rd_data r)) (Some b2))
  end.

(** [Len()] of a bytes.Reader and of a BudgetReader. *)
Definition Len (r : reader) : Z :=
  match rd_budget r with
  | None => len (rd_data r)
  | Some b =>
      let rem := Z.max 0 (remaining b) in
      if len (rd_data r) <? rem then len (rd_data r) else rem
  end.

(** The loop of io.ReadFull; [need] calls suffice because a successful Read of
    a non-empty buffer returns at least one byte. *)
Fixpoint readAtLeast (fuel need : nat) (got : bytes) : RD bytes := fun r =>
  match need with
  | O => (Ok got, r)
  | S _ =>
      match fuel with
      | O => (Err OutOfFuel, r)
      | S fuel' =>
          match Read need r with
          | (Ok p, r') => readAtLeast fuel' (need - length p) (got ++ p) r'
          | (Err EOF, r') => (Err (if len got =? 0 then EOF else ErrUnexpectedEOF), r')
          | (Err e, r') => (Err e, r')
          end
      end
  end.

Definition ReadFull (n : nat) : RD bytes := readAtLeast (S n) n [].

(** io.ReadAll: reads (at least 512 bytes at a time) until EOF. *)
Fixpoint readAllLoop (fuel : nat) (got : bytes) : RD bytes := fun r =>
  match fuel with
  | O => (Err OutOfFuel, r)
  | S fuel' =>
      match Read 512 r with
      | (Ok p, r') => readAllLoop fuel' (got ++ p) r'
      | (Err EOF, r') => (Ok got, r')
      | (Err e, r') => (Err e, r')
      end
  end.

Definition ReadAll : RD bytes := fun r => readAllLoop (S (length (rd_data r))) [] r.

(** ** Object, wrapper, container and vector accounting *)

Definition with_budget (f : DecodeBudget -> result wire_error DecodeBudget) : RD unit := fun r =>
  match rd_budget r with
  | None => (Ok tt, r)
  | Some b => match f b with
              | Ok b' => (Ok tt, Reader (rd_data r) (Some b'))
              | Err e => (Err e, r)
              end
  end.

Definition EnterObject : RD unit := with_budget (fun b =>
  if MaxObjectNodes (limits b) <=? objectNodes b then Err ErrObjectNodeLimit
  else if MaxObjectDepth (limits b) <=? objectDepth b then Err ErrObjectDepthLimit
  else Ok (charge_object 1 1 b)).

(** The function EnterObject returns. *)
Definition LeaveObject : RD unit := with_budget (fun b => Ok (charge_object 0 (-1) b)).

Definition ConsumeWrapper : RD unit := with_budget (fun b =>
  if MaxWrappers (limits b) <=? wrapperCount b then Err ErrWrapperCountLimit
  else Ok (charge_wrapper b)).

Definition ConsumeContainer : RD unit := with_budget (fun b =>
  if MaxContainers (limits b) <=? containerCount b then Err ErrContainerCountLimit
  else Ok (charge_container b)).

Definition consumeVectorElements (count : Z) : RD unit := with_budget (fun b =>
  if LimVectorElements (limits b) - vectorElements b <? count then Err ErrVectorCountLimit
  else Ok (charge_vector count b)).

(** ** Typed reads *)

Definition ReadUint32 : RD Z := p ← ReadFull 4; mret (le_get p).
Definition ReadInt32 : RD Z := v ← ReadUint32; mret (int32 v).
Definition ReadUint64 : RD Z := p ← ReadFull 8; mret (le_get p).
Definition ReadInt64 : RD Z := v ← ReadUint64; mret (int64 v).
Definition ReadInt128 : RD bytes := ReadFull 16.
Definition ReadInt256 : RD bytes := ReadFull 32.
Definition ReadDouble : RD Z := ReadUint64.

Definition ReadSizedBytes (length : Z) : RD bytes := fun r =>
  if length <? 0 then (Err ErrInvalidMessageLength, r)
  else if Len r <? length then (Err ErrUnexpectedEOF, r)
  else ReadFull (Z.to_nat length) r.

Definition padding4 (n : Z) : Z := (4 - n mod 4) mod 4.

Definition ReadBytes : RD bytes :=
  sizeBuf ← ReadFull 1;
  let first := le_get sizeBuf in
  if first =? 255 then st_err ErrInvalidMessageLength
  else
    lh ← (if first <? 254 then mret (first, 1)
          else (ext ← ReadFull 3; mret (le_get ext, 4)));
    let '(length, headerSize) := lh in
    if MaxInt32 <? length then st_err ErrStringTooLong
    else
      data ← ReadSizedBytes length;
      let padding := padding4 (headerSize + length) in
      if 0 <? padding
      then (_ ← ReadFull (Z.to_nat padding); mret data)
      else mret data.

Definition ReadString : RD bytes := ReadBytes.

Definition BoolTrue : Z := 0x997275b5.
Definition BoolFalse : Z := 0xbc799737.
Definition VectorConstructorID : Z := 0x1cb5c415.

Definition ReadBool : RD bool :=
  v ← ReadUint32;
  if v =? BoolTrue then mret true
  else if v =? BoolFalse then mret false
  else st_err ErrInvalidBool.

(** The common tail of the two vector readers: the checked count, then the elements. *)
Definition readElements {A} (maxElements : Z) (fn : RD A) : RD (list A) :=
  count ← ReadInt32;
  if count <? 0 then st_err (ErrInvalidVectorLength count)
  else if maxElements <? count then st_err ErrVectorTooLong
  else
    _ ← consumeVectorElements count;
    st_repeat (Z.to_nat count) fn.

Definition ReadVectorBounded {A} (maxElements : Z) (fn : RD A) : RD (list A) :=
  if maxElements <? 0 then st_err ErrVectorTooLong
  else
    ctor ← ReadUint32;
    if negb (ctor =? VectorConstructorID) then st_err (ErrInvalidVectorConstructor ctor)
    else readElements maxElements fn.

Definition ReadVector {A} (fn : RD A) : RD (list A) := ReadVectorBounded MaxVectorElements fn.

Definition ReadBareVectorBounded {A} (maxElements : Z) (fn : RD A) : RD (list A) :=
  if maxElements <? 0 then st_err ErrVectorTooLong
  else readElements maxElements fn.

(** * Writers *)

Record writer := Writer { w_buf : bytes; w_remaining : option Z }.

Abbreviation WR := (ST writer wire_error).

(** [bytes.Buffer.Write], and boundedRuntimeWriter.Write over one. *)
Definition Write (p : bytes) : WR unit := fun w =>
  match w_remaining w with
  | None => (Ok tt, Writer (w_buf w ++ p) None)
  | Some n =>
      if n <? len p then (Err ErrEncodedPayloadTooLarge, w)
      else (Ok tt, Writer (w_buf w ++ p) (Some (n - len p)))
  end.

Definition WriteUint32 (v : Z) : WR unit := Write (le_put 4 v).
Definition WriteInt32 (v : Z) : WR unit := WriteUint32 (uint32 v).
Definition WriteUint64 (v : Z) : WR unit := Write (le_put 8 v).
Definition WriteInt64 (v : Z) : WR unit := WriteUint64 (uint64 v).
Definition WriteInt128 (v : bytes) : WR unit := Write v.
Definition WriteInt256 (v : bytes) : WR unit := Write v.
Definition WriteDouble (v : Z) : WR unit := WriteUint64 v.

Definition WriteBytes (v : bytes) : WR unit :=
  let length := len v in
  if length <? 254 then
    _ ← Write [bZ length];
    _ ← Write v;
    let padding := padding4 (1 + length) in
    if 0 <? padding then Write (zeros (Z.to_nat padding)) else mret tt
  else if MaxTLBytesLength <? length then st_err ErrStringTooLong
  else
    _ ← Write [xfe; bZ length; bZ (Z.shiftr length 8); bZ (Z.shiftr length 16)];
    _ ← Write v;
    let padding := padding4 (4 + length) in
    if 0 <? padding then Write (zeros (Z.to_nat padding)) else mret tt.

Definition WriteString (v : bytes) : WR unit := WriteBytes v.

Definition WriteBool (v : bool) : WR unit :=
  if v then WriteUint32 BoolTrue else WriteUint32 BoolFalse.

Definition WriteVectorHeader (count : Z) : WR unit :=
  _ ← WriteUint32 VectorConstructorID;
  WriteInt32 (int32 count).

(** ** The encode-side object budget (encode_budget.go) *)

Record encodeState := { enc_depth : Z; enc_nodes : Z }.

Definition EnterEncodeObject (s : encodeState) : result wire_error encodeState :=
  if DefaultMaxObjectDepth <=? enc_depth s then Err ErrEncodedObjectDepthLimit
  else if DefaultMaxObjectNodes <=? enc_nodes s then Err ErrEncodedObjectNodesLimit
  else Ok {| enc_depth := enc_depth s + 1; enc_nodes := enc_nodes s + 1 |}.

Definition LeaveEncodeObject (s : encodeState) : encodeState :=
  {| enc_depth := enc_depth s - 1; enc_nodes := enc_nodes s |}.

(** * What one read costs a budget *)

Record cost := Cost { c_vec : nat; c_nodes : nat; c_depth : nat }.

Definition no_cost : cost := Cost 0 0 0.
Definition cost_seq (a b : cost) : cost :=
  Cost (c_vec a + c_vec b) (c_nodes a + c_nodes b) (Nat.max (c_depth a) (c_depth b)).

Definition affords (bud : option DecodeBudget) (n : Z) (c : cost) : Prop :=
  match bud with
  | None => True
  | Some b => n <= remaining b /\
              Z.of_nat (c_vec c) <= LimVectorElements (limits b) - vectorElements b /\
              Z.of_nat (c_nodes c) <= MaxObjectNodes (limits b) - objectNodes b /\
              Z.of_nat (c_depth c) <= MaxObjectDepth (limits b) - objectDepth b
  end.

Definition charged (n : Z) (c : cost) (bud : option DecodeBudget) : option DecodeBudget :=
  (fun b => charge_object (Z.of_nat (c_nodes c)) 0
              (charge_vector (Z.of_nat (c_vec c)) (charge_bytes n b))) <$> bud.

(** [consumes m bs c a]: in front of any further input, [m] reads exactly [bs],
    returns [a] and charges [len bs] bytes and [c]. *)
Definition consumes {A} (m : RD A) (bs : bytes) (c : cost) (a : A) : Prop :=
  forall rest bud, affords bud (len bs) c ->
    m (Reader (bs ++ rest) bud) = (Ok a, Reader rest (charged (len bs) c bud)).

(** [emits m bs]: [m] writes exactly [bs], or fails on a bounded writer that
    cannot take them. *)
Definition room (w : writer) (n : Z) : bool :=
  match w_remaining w with None => true | Some k => n <=? k end.

Definition written (w : writer) (bs : bytes) : writer :=
  Writer (w_buf w ++ bs) ((fun k => k - len bs) <$> w_remaining w).

Definition w_ok (w : writer) : Prop := default 0 (w_remaining w) >= 0.

Definition emits (m : WR unit) (bs : bytes) : Prop :=
  forall w, w_ok w -> if room w (len bs) then m w = (Ok tt, written w bs)
            else exists w', m w = (Err ErrEncodedPayloadTooLarge, w').

(** [disciplined m]: whatever [m] answers, it removes a prefix of the input,
    charges each removed byte once, and leaves a budget within its limits. *)
Definition rd_ok (r : reader) : Prop :=
  match rd_budget r with
  | None => True
  | Some b => decodedBytes b <= MaxDecodedBytes (limits b) /\
              vectorElements b <= LimVectorElements (limits b) /\
              wrapperCount b <= MaxWrappers (limits b) /\
              containerCount b <= MaxContainers (limits b) /\
              objectNodes b <= MaxObjectNodes (limits b) /\
              objectDepth b <= MaxObjectDepth (limits b)
  end.

Definition budget_le (n : Z) (a b : option DecodeBudget) : Prop :=
  match a, b with
  | None, None => True
  | Some x, Some y => limits y = limits x /\ decodedBytes y = decodedBytes x + n /\
                      vectorElements x <= vectorElements y /\
                      objectNodes x <= objectNodes y /\
                      gzipWorkBytes y = gzipWorkBytes x
  | _, _ => False
  end.

Definition disciplined {A} (m : RD A) : Prop :=
  forall r, rd_ok r ->
    rd_ok (m r).2 /\
    exists eaten, rd_data r = eaten ++ rd_data (m r).2 /\
                  budget_le (len eaten) (rd_budget r) (rd_budget (m r).2).

(** ** ReadFull *)

(** How many of the [n] requested bytes a reader can deliver. *)
Definition deliverable (n : nat) (r : reader) : nat :=
  let k := Nat.min n (length (rd_data r)) in
  match rd_budget r with
  | None => k
  | Some b => Nat.min k (Z.to_nat (Z.max 0 (remaining b)))
  end.

Definition advance (k : nat) (r : reader) : reader :=
  Reader (drop k (rd_data r)) (charge_bytes (Z.of_nat k) <$> rd_budget r).

Definition short_error (k : nat) (r : reader) : wire_error :=
  if (k =? length (rd_data r))%nat then (if (k =? 0)%nat then EOF else ErrUnexpectedEOF)
  else ErrDecodedBytesLimit.

Lemma charge_bytes_0 b : charge_bytes 0 b = b.
Proof. destruct b; unfold charge_bytes; simpl; f_equal; lia. Qed.

Lemma charge_bytes_add m n b : charge_bytes m (charge_bytes n b) = charge_bytes (n + m) b.
Proof. unfold charge_bytes; simpl; f_equal; lia. Qed.

Lemma advance_0 r : advance 0 r = r.
Proof.
  destruct r as [d [b|]]; unfold advance; simpl; by rewrite ?drop_0, ?charge_bytes_0.
Qed.

(** One Read of a non-empty buffer delivers what can be delivered. *)
Lemma Read_deliverable k r :
  k <> 0%nat ->
  Read k r = if (deliverable k r =? 0)%nat
             then (Err (short_error 0 r), r)
             else (Ok (take (deliverable k r) (rd_data r)), advance (deliverable k r) r).
Proof.
  intros Hk. destruct r as [d bud].
  unfold Read, deliverable, short_error, advance; simpl.
  destruct d as [|x d].
  { simpl. destruct bud; rewrite ?Nat.min_0_r; simpl; by rewrite ?drop_nil. }
  assert ((len (x :: d) =? 0) = false) as -> by (rewrite len_cons; pose proof (len_nonneg d); lia).
  change (0 =? length (x :: d))%nat with false.
  remember (x :: d) as l eqn:El. assert (length l <> 0%nat) by (subst; simpl; lia). clear El x d.
  destruct bud as [b|]; simpl.
  - destruct (Z.leb_spec (remaining b) 0) as [Hr|Hr].
    { replace (Nat.min (Nat.min k (length l)) _) with 0%nat by lia. by destruct (length l). }
    destruct (Nat.eqb_spec (Nat.min (Nat.min k (length l)) (Z.to_nat (Z.max 0 (remaining b)))) 0); [lia|].
    set (rs := Z.min (Z.of_nat k) (remaining b)).
    replace (Nat.min (Nat.min k (length l)) (Z.to_nat (Z.max 0 (remaining b))))
      with (Nat.min (Z.to_nat rs) (length l)) by lia.
    rewrite take_min_length, drop_min_length. do 3 f_equal.
    rewrite charge_bytes_add. f_equal. unfold len. rewrite length_take. lia.
  - destruct (Nat.eqb_spec (Nat.min k (length l)) 0); [lia|].
    by rewrite take_min_length, drop_min_length.
Qed.

Lemma deliverable_advance n k r :
  (k <= deliverable n r)%nat ->
  deliverable (n - k) (advance k r) = (deliverable n r - k)%nat.
Proof.
  destruct r as [d [b|]]; unfold deliverable, advance; simpl; rewrite length_drop; intros.
  - unfold remaining, charge_bytes in *; simpl. lia.
  - lia.
Qed.

Lemma deliverable_le n r : (deliverable n r <= n /\ deliverable n r <= length (rd_data r))%nat.
Proof. unfold deliverable. destruct (rd_budget r); lia. Qed.

Lemma readAtLeast_spec fuel need got r :
  (need = 0 \/ 2 <= fuel)%nat ->
  readAtLeast fuel need got r =
    let k := deliverable need r in
    if (k =? need)%nat then (Ok (got ++ take need (rd_data r)), advance need r)
    else (Err (if (k =? length (rd_data r))%nat
               then (if (length got + k =? 0)%nat then EOF else ErrUnexpectedEOF)
               else ErrDecodedBytesLimit), advance k r).
Proof.
  intros Hf. pose proof (deliverable_le need r) as [Hk1 Hk2]. simpl.
  destruct need as [|need'].
  { assert (deliverable 0 r = 0%nat) as -> by lia.
    destruct fuel; simpl; by rewrite app_nil_r, advance_0. }
  destruct fuel as [|[|fuel]]; [lia..|].
  set (need := S need') in *. set (k := deliverable need r) in *.
  change (readAtLeast (S (S fuel)) need got r) with
    (match Read need r with
     | (Ok p, r') => readAtLeast (S fuel) (need - length p) (got ++ p) r'
     | (Err EOF, r') => (Err (if len got =? 0 then EOF else ErrUnexpectedEOF), r')
     | (Err e, r') => (Err e, r')
     end).
  rewrite Read_deliverable by (unfold need; lia). fold k.
  assert (Hl : (len got =? 0) = (length got =? 0)%nat)
    by (unfold len; destruct (Z.eqb_spec (Z.of_nat (length got)) 0), (Nat.eqb_spec (length got) 0); lia).
  destruct (Nat.eqb_spec k 0) as [K0|K0].
  { rewrite K0, advance_0. change (0 =? need)%nat with false. simpl.
    unfold short_error. rewrite Nat.add_0_r.
    destruct (length (rd_data r)); simpl; [by rewrite Hl|done]. }
  rewrite length_take, Nat.min_l by done.
  destruct (Nat.eqb_spec k need) as [Kn|Kn].
  { rewrite Kn, Nat.sub_diag. simpl. done. }
  pose proof (deliverable_advance need k r ltac:(lia)) as Hd. fold k in Hd.
  assert (need - k <> 0)%nat by lia.
  destruct (need - k)%nat as [|m] eqn:Em; [done|].
  cbn [readAtLeast]. rewrite Read_deliverable by lia.
  rewrite Hd, Nat.sub_diag. simpl. unfold short_error. simpl. rewrite length_drop.
  assert (Hl2 : (len (got ++ take k (rd_data r)) =? 0) = false).
  { unfold len. rewrite length_app, length_take. apply Z.eqb_neq. lia. }
  destruct (Nat.eqb_spec k (length (rd_data r))) as [Kl|Kl].
  - rewrite <- Kl, Nat.sub_diag. simpl. rewrite Kl, <- Kl, Hl2. do 2 f_equal.
    by destruct (Nat.eqb_spec (length got + k) 0); [lia|].
  - destruct (length (rd_data r) - k)%nat eqn:El; [lia|done].
Qed.

(** io.ReadFull over both readers, on every branch. *)
Lemma ReadFull_closed n r :
  ReadFull n r =
    let k := deliverable n r in
    if (k =? n)%nat then (Ok (take n (rd_data r)), advance n r)
    else (Err (short_error k r), advance k r).
Proof.
  unfold ReadFull. rewrite readAtLeast_spec by lia. simpl.
  destruct (deliverable n r =? n)%nat; [done|]. unfold short_error. done.
Qed.

(** ** Discipline of the reading functions *)

Lemma budget_le_refl bud : budget_le 0 bud bud.
Proof. destruct bud; simpl; [|done]. repeat split; lia. Qed.

Lemma budget_le_trans m n a b c :
  budget_le m a b -> budget_le n b c -> budget_le (m + n) a c.
Proof.
  destruct a, b, c; simpl; try done. intros (?&?&?&?&?) (?&?&?&?&?).
  repeat split; try congruence; lia.
Qed.

Lemma disciplined_same {A} (m : RD A) :
  (forall r, rd_ok r -> (m r).2 = r) -> disciplined m.
Proof.
  intros H r Hr. rewrite H by done. split; [done|].
  exists []. split; [done|]. apply budget_le_refl.
Qed.

Lemma disciplined_ret {A} (a : A) : disciplined (mret a : RD A).
Proof. by apply disciplined_same. Qed.

Lemma disciplined_err {A} e : disciplined (st_err e : RD A).
Proof. by apply disciplined_same. Qed.

Lemma disciplined_bind {A B} (m : RD A) (f : A -> RD B) :
  disciplined m -> (forall a, disciplined (f a)) -> disciplined (m ≫= f).
Proof.
  intros Hm Hf r Hr. unfold mbind, ST_bind, st_bind.
  destruct (Hm r Hr) as (Hr1 & e1 & He1 & Hb1).
  destruct (m r) as [[a|e] r1] eqn:E; simpl in *; [|eauto].
  destruct (Hf a r1 Hr1) as (Hr2 & e2 & He2 & Hb2). split; [done|].
  exists (e1 ++ e2). split; [by rewrite He1, He2, app_assoc|].
  rewrite len_app. by eapply budget_le_trans.
Qed.

Lemma advance_disciplined k r :
  rd_ok r -> (k <= deliverable k r)%nat ->
  rd_ok (advance k r) /\
  exists eaten, rd_data r = eaten ++ rd_data (advance k r) /\
                budget_le (len eaten) (rd_budget r) (rd_budget (advance k r)).
Proof.
  intros Hr Hk. destruct r as [d bud]. unfold deliverable, advance, rd_ok in *; simpl in *.
  assert (Hl : Z.of_nat k = len (take k d)).
  { unfold len. rewrite length_take. destruct bud; lia. }
  split.
  - destruct bud as [b|]; [|done]. simpl.
    destruct Hr as (?&?&?&?&?&?). unfold remaining in *. repeat split; lia.
  - exists (take k d). rewrite take_drop. split; [done|].
    rewrite <- Hl. destruct bud; simpl; [|done]. repeat split; lia.
Qed.

Lemma deliverable_idem n r : deliverable (deliverable n r) r = deliverable n r.
Proof. unfold deliverable. destruct (rd_budget r); lia. Qed.

Lemma disciplined_ReadFull n : disciplined (ReadFull n).
Proof.
  intros r Hr. rewrite ReadFull_closed. simpl.
  destruct (Nat.eqb_spec (deliverable n r) n) as [E|E]; simpl; apply advance_disciplined; auto.
  - by rewrite E.
  - by rewrite deliverable_idem.
Qed.

Lemma disciplined_Read k : k <> 0%nat -> disciplined (Read k).
Proof.
  intros Hk r Hr. rewrite Read_deliverable by done.
  destruct (Nat.eqb_spec (deliverable k r) 0); simpl.
  - split; [done|]. exists []. split; [done|]. apply budget_le_refl.
  - apply advance_disciplined; [done|]. by rewrite deliverable_idem.
Qed.

Lemma disciplined_readAllLoop fuel got : disciplined (readAllLoop fuel got).
Proof.
  revert got. induction fuel as [|fuel IH]; intros got; [by apply disciplined_same|].
  intros r Hr. cbn [readAllLoop].
  pose proof (disciplined_bind (Read 512) (fun p => readAllLoop fuel (got ++ p))
                (disciplined_Read 512 ltac:(lia)) (fun p => IH _) r Hr) as H.
  pose proof (disciplined_Read 512 ltac:(lia) r Hr) as H'.
  unfold mbind, ST_bind, st_bind in H.
  destruct (Read 512 r) as [[p|e] r'] eqn:E; [done|].
  destruct e; exact H'.
Qed.

Lemma disciplined_ReadAll : disciplined ReadAll.
Proof. intros r. unfold ReadAll. apply disciplined_readAllLoop. Qed.

(** A budget operation is disciplined when it keeps the budget within limits. *)
Lemma disciplined_with_budget f :
  (forall b b', rd_ok (Reader [] (Some b)) -> f b = Ok b' ->
     rd_ok (Reader [] (Some b')) /\ budget_le 0 (Some b) (Some b')) ->
  disciplined (with_budget f).
Proof.
  intros H r Hr. unfold with_budget. destruct r as [d [b|]]; simpl in *.
  - destruct (f b) as [b'|e] eqn:E; simpl.
    + destruct (H b b' Hr E). split; [done|]. by exists [].
    + split; [done|]. exists []. split; [done|]. apply (budget_le_refl (Some b)).
  - split; [done|]. by exists [].
Qed.

Ltac solve_budget :=
  apply disciplined_with_budget; unfold rd_ok; simpl; intros b b' (?&?&?&?&?&?) ?;
  repeat case_match; simplify_eq; bools; simpl; repeat split; lia.

Lemma disciplined_EnterObject : disciplined EnterObject.
Proof. unfold EnterObject. solve_budget. Qed.

Lemma disciplined_LeaveObject : disciplined LeaveObject.
Proof. unfold LeaveObject. solve_budget. Qed.

Lemma disciplined_ConsumeWrapper : disciplined ConsumeWrapper.
Proof. unfold ConsumeWrapper. solve_budget. Qed.

Lemma disciplined_ConsumeContainer : disciplined ConsumeContainer.
Proof. unfold ConsumeContainer. solve_budget. Qed.

Lemma disciplined_consumeVectorElements n : 0 <= n -> disciplined (consumeVectorElements n).
Proof. intros. unfold consumeVectorElements. solve_budget. Qed.

Lemma disciplined_ReadSizedBytes n : disciplined (ReadSizedBytes n).
Proof.
  intros r Hr. unfold ReadSizedBytes.
  repeat case_match; try apply disciplined_ReadFull; try done;
    (split; [done|]; exists []; split; [done|]; apply budget_le_refl).
Qed.

Create HintDb discipline.
#[export] Hint Resolve disciplined_ret disciplined_err disciplined_bind disciplined_ReadFull
  disciplined_ReadAll disciplined_EnterObject disciplined_LeaveObject disciplined_ConsumeWrapper
  disciplined_ConsumeContainer disciplined_consumeVectorElements disciplined_ReadSizedBytes
  : discipline.

(** Walks the body of a reading function. *)
Ltac discipline :=
  repeat first
    [ progress intros
    | solve [eauto with discipline nocore]
    | apply disciplined_bind
    | case_match ].

Lemma disciplined_ReadUint32 : disciplined ReadUint32.
Proof. unfold ReadUint32. discipline. Qed.
#[export] Hint Resolve disciplined_ReadUint32 : discipline.

Lemma disciplined_ReadInt32 : disciplined ReadInt32.
Proof. unfold ReadInt32. discipline. Qed.

Lemma disciplined_ReadUint64 : disciplined ReadUint64.
Proof. unfold ReadUint64. discipline. Qed.
#[export] Hint Resolve disciplined_ReadInt32 disciplined_ReadUint64 : discipline.

Lemma disciplined_ReadInt64 : disciplined ReadInt64.
Proof. unfold ReadInt64. discipline. Qed.

Lemma disciplined_ReadBool : disciplined ReadBool.
Proof. unfold ReadBool. discipline. Qed.

Lemma disciplined_ReadBytes : disciplined ReadBytes.
Proof. unfold ReadBytes. discipline. Qed.
#[export] Hint Resolve disciplined_ReadInt64 disciplined_ReadBool disciplined_ReadBytes : discipline.

Lemma disciplined_ReadString : disciplined ReadString.
Proof. apply disciplined_ReadBytes. Qed.

Lemma disciplined_repeat {A} n (fn : RD A) : disciplined fn -> disciplined (st_repeat n fn).
Proof.
  intros Hfn. induction n as [|n IH]; simpl; [apply disciplined_ret|].
  apply (disciplined_bind fn (fun x => _)); [done|]. intros x.
  apply (disciplined_bind (st_repeat n fn) (fun xs => _)); [done|]. intros. apply disciplined_ret.
Qed.

Lemma disciplined_readElements {A} lim (fn : RD A) :
  disciplined fn -> disciplined (readElements lim fn).
Proof.
  intros Hfn. unfold readElements. apply disciplined_bind; [apply disciplined_ReadInt32|].
  intros count. case_match; [apply disciplined_err|]. case_match; [apply disciplined_err|].
  bools. apply disciplined_bind; [by apply disciplined_consumeVectorElements|].
  intros _. by apply disciplined_repeat.
Qed.

#[export] Hint Resolve disciplined_readElements : discipline.

Lemma disciplined_ReadVectorBounded {A} lim (fn : RD A) :
  disciplined fn -> disciplined (ReadVectorBounded lim fn).
Proof. intros. unfold ReadVectorBounded. discipline. Qed.

Lemma disciplined_ReadBareVectorBounded {A} lim (fn : RD A) :
  disciplined fn -> disciplined (ReadBareVectorBounded lim fn).
Proof. intros. unfold ReadBareVectorBounded. discipline. Qed.
#[export] Hint Resolve disciplined_ReadString disciplined_ReadVectorBounded
  disciplined_ReadBareVectorBounded : discipline.

(** ** Composing reads *)

Lemma charged_0 bud : charged 0 no_cost bud = bud.
Proof.
  destruct bud as [[]|]; [|done]. unfold charged, charge_object, charge_vector, charge_bytes; simpl.
  do 2 f_equal; lia.
Qed.

Lemma charged_seq m n c d bud :
  charged n d (charged m c bud) = charged (m + n) (cost_seq c d) bud.
Proof.
  destruct bud as [b|]; [|done].
  unfold charged, charge_object, charge_vector, charge_bytes, cost_seq; simpl.
  do 2 f_equal; lia.
Qed.

Lemma affords_seq bud m n c d :
  0 <= m -> 0 <= n -> affords bud (m + n) (cost_seq c d) ->
  affords bud m c /\ affords (charged m c bud) n d.
Proof.
  destruct bud as [b|]; [|done]. unfold affords, charged, remaining; simpl.
  intros ?? (?&?&?&?). repeat split; lia.
Qed.

Lemma consumes_ret {A} (a : A) : consumes (mret a) [] no_cost a.
Proof. intros rest bud _. rewrite len_nil, charged_0. done. Qed.

Lemma consumes_bind {A B} (m : RD A) (f : A -> RD B) b1 b2 c1 c2 a x :
  consumes m b1 c1 a -> consumes (f a) b2 c2 x ->
  consumes (m ≫= f) (b1 ++ b2) (cost_seq c1 c2) x.
Proof.
  intros H1 H2 rest bud. rewrite len_app. intros Ha.
  apply affords_seq in Ha as [Ha1 Ha2]; [|apply len_nonneg..].
  unfold mbind, ST_bind, st_bind. rewrite <- app_assoc, H1, H2 by done.
  by rewrite charged_seq.
Qed.

Lemma cost_seq_no c : cost_seq c no_cost = c.
Proof. destruct c. unfold cost_seq; simpl. f_equal; lia. Qed.

Lemma cost_no_seq c : cost_seq no_cost c = c.
Proof. destruct c. unfold cost_seq; simpl. f_equal; lia. Qed.

Lemma consumes_last {A B} (m : RD A) (f : A -> B) bs c a :
  consumes m bs c a -> consumes (x ← m; mret (f x)) bs c (f a).
Proof.
  intros H. rewrite <- (app_nil_r bs), <- (cost_seq_no c).
  eapply consumes_bind; [exact H|apply consumes_ret].
Qed.

(** The first read of a sequence, when it costs only bytes. *)
Lemma consumes_step {A B} (m : RD A) (f : A -> RD B) b1 b2 c a x :
  consumes m b1 no_cost a -> consumes (f a) b2 c x ->
  consumes (m ≫= f) (b1 ++ b2) c x.
Proof. intros. rewrite <- (cost_no_seq c). by eapply consumes_bind. Qed.

Lemma consumes_pure {A B} (a : A) (f : A -> RD B) bs c x :
  consumes (f a) bs c x -> consumes (mret a ≫= f) bs c x.
Proof. intros H. exact H. Qed.

Lemma consumes_ReadFull n bs : length bs = n -> consumes (ReadFull n) bs no_cost bs.
Proof.
  intros <- rest bud Ha. rewrite ReadFull_closed. simpl.
  assert (deliverable (length bs) (Reader (bs ++ rest) bud) = length bs) as ->.
  { unfold deliverable; simpl. rewrite length_app. destruct bud as [b|]; [|lia].
    destruct Ha as [Ha _]. unfold len in Ha. lia. }
  rewrite Nat.eqb_refl. unfold advance; simpl.
  rewrite take_app_length, drop_app_length. do 2 f_equal.
  destruct bud as [b|]; [|done]. unfold charged, len, charge_object, charge_vector; simpl.
  f_equal. unfold charge_bytes; simpl. f_equal; lia.
Qed.

Lemma consumes_ReadUint32 v : inU 32 v -> consumes ReadUint32 (le_put 4 v) no_cost v.
Proof.
  intros Hv. rewrite <- (wrapU_id 32 v) at 2 by done. rewrite <- le_get_put_u32.
  apply (consumes_last (ReadFull 4) le_get), consumes_ReadFull, le_put_length.
Qed.

Lemma consumes_ReadUint64 v : inU 64 v -> consumes ReadUint64 (le_put 8 v) no_cost v.
Proof.
  intros Hv. rewrite <- (wrapU_id 64 v) at 2 by done. rewrite <- le_get_put_u64.
  apply (consumes_last (ReadFull 8) le_get), consumes_ReadFull, le_put_length.
Qed.

Lemma consumes_ReadInt32 v : inS 32 v -> consumes ReadInt32 (le_put 4 (uint32 v)) no_cost v.
Proof.
  intros Hv. rewrite <- (int32_uint32 v) at 2 by done.
  apply (consumes_last ReadUint32 (wrapS 32)), consumes_ReadUint32, wrapU_range. lia.
Qed.

Lemma consumes_ReadInt64 v : inS 64 v -> consumes ReadInt64 (le_put 8 (uint64 v)) no_cost v.
Proof.
  intros Hv. rewrite <- (int64_uint64 v) at 2 by done.
  apply (consumes_last ReadUint64 (wrapS 64)), consumes_ReadUint64, wrapU_range. lia.
Qed.

Lemma consumes_ReadSizedBytes bs : consumes (ReadSizedBytes (len bs)) bs no_cost bs.
Proof.
  intros rest bud Ha. unfold ReadSizedBytes.
  pose proof (len_nonneg bs). pose proof (len_nonneg rest).
  destruct (Z.ltb_spec (len bs) 0); [lia|].
  destruct (Z.ltb_spec (Len (Reader (bs ++ rest) bud)) (len bs)) as [Hl|Hl].
  { exfalso. unfold Len in Hl; simpl in Hl. rewrite len_app in Hl.
    destruct bud as [b|]; [|lia]. destruct Ha as [Ha _]. case_match; lia. }
  apply consumes_ReadFull; [|done]. unfold len. lia.
Qed.

(** *** TL bytes *)

(** The encoding of a TL byte string: its length prefix, itself, zero padding. *)
Definition enc_bytes (v : bytes) : bytes :=
  let header := if len v <? 254 then [bZ (len v)] else xfe :: le_put 3 (len v) in
  header ++ v ++ zeros (Z.to_nat (padding4 (len header + len v))).

Lemma padding4_range n : 0 <= padding4 n < 4.
Proof. unfold padding4. apply Z.mod_pos_bound. lia. Qed.

Lemma padding4_align n : (n + padding4 n) mod 4 = 0.
Proof. unfold padding4. Z.to_euclidean_division_equations. lia. Qed.

Lemma enc_bytes_aligned v : len (enc_bytes v) mod 4 = 0.
Proof.
  unfold enc_bytes. remember (if len v <? 254 then _ else _) as h eqn:E. clear E.
  rewrite !len_app, len_zeros, Z2Nat.id by apply padding4_range.
  rewrite Z.add_assoc. apply padding4_align.
Qed.

Lemma consumes_padding n :
  consumes (A := unit)
    (if 0 <? padding4 n then (_ ← ReadFull (Z.to_nat (padding4 n)); mret tt) else mret tt)
    (zeros (Z.to_nat (padding4 n))) no_cost tt.
Proof.
  pose proof (padding4_range n). destruct (Z.ltb_spec 0 (padding4 n)).
  - apply (consumes_last _ (fun _ => tt) _ _ (zeros (Z.to_nat (padding4 n)))).
    apply consumes_ReadFull. by rewrite length_replicate.
  - assert (padding4 n = 0) as -> by lia. apply consumes_ret.
Qed.

Lemma consumes_payload hs v :
  consumes (A := bytes)
           (data ← ReadSizedBytes (len v);
            if 0 <? padding4 (hs + len v)
            then (_ ← ReadFull (Z.to_nat (padding4 (hs + len v))); mret data)
            else mret data)
    (v ++ zeros (Z.to_nat (padding4 (hs + len v)))) no_cost v.
Proof.
  eapply consumes_step; [apply consumes_ReadSizedBytes|].
  intros rest bud Ha. pose proof (consumes_padding (hs + len v) rest bud Ha) as H.
  unfold mbind, ST_bind, st_bind, mret, ST_ret, st_ret in *.
  destruct (0 <? padding4 (hs + len v)); [|congruence].
  destruct (ReadFull _ _) as [[]]; congruence.
Qed.

Lemma consumes_ReadBytes v : len v <= MaxTLBytesLength -> consumes ReadBytes (enc_bytes v) no_cost v.
Proof.
  intros Hv. unfold MaxTLBytesLength in Hv. pose proof (len_nonneg v).
  unfold ReadBytes, enc_bytes. destruct (Z.ltb_spec (len v) 254).
  - eapply consumes_step; [by apply (consumes_ReadFull 1)|].
    cbn [le_get]. rewrite Zb_bZ, Z.mod_small, Z.mul_0_r, Z.add_0_r by lia.
    destruct (Z.eqb_spec (len v) 255); [lia|].
    destruct (Z.ltb_spec (len v) 254); [|lia].
    apply consumes_pure. cbv beta iota. unfold MaxInt32.
    rewrite (proj2 (Z.ltb_ge (2 ^ 31 - 1) (len v))) by lia.
    apply (consumes_payload 1).
  - change (xfe :: le_put 3 (len v)) with ([xfe] ++ le_put 3 (len v)).
    rewrite <- app_assoc. eapply consumes_step; [by apply (consumes_ReadFull 1)|].
    change (le_get [xfe]) with 254. cbn [Z.eqb Z.ltb Z.compare Pos.compare Pos.compare_cont Pos.eqb].
    eapply consumes_step.
    + apply (consumes_last (ReadFull 3) (fun ext => (le_get ext, 4))), consumes_ReadFull, le_put_length.
    + cbv beta iota. rewrite le_get_put, Z.mod_small by lia. unfold MaxInt32.
      rewrite (proj2 (Z.ltb_ge (2 ^ 31 - 1) (len v))) by lia.
      rewrite len_app, len_le_put. apply (consumes_payload 4).
Qed.

Lemma consumes_ReadBool (v : bool) :
  consumes ReadBool (le_put 4 (if v then BoolTrue else BoolFalse)) no_cost v.
Proof.
  unfold ReadBool. rewrite <- (app_nil_r (le_put 4 (if v then BoolTrue else BoolFalse))).
  eapply consumes_step; [apply consumes_ReadUint32; by destruct v|].
  destruct v; apply consumes_ret.
Qed.

(** *** Vectors *)

Lemma consumes_repeat {A} (fn : RD A) (enc : A -> bytes) (c : A -> cost) (xs : list A) :
  (forall x, x ∈ xs -> consumes fn (enc x) (c x) x) ->
  consumes (st_repeat (length xs) fn) (concat (enc <$> xs)) (foldr cost_seq no_cost (c <$> xs)) xs.
Proof.
  induction xs as [|x xs IH]; intros H; simpl; [apply consumes_ret|].
  apply (consumes_bind fn (fun x => st_bind (fun xs => st_ret (x :: xs)) (st_repeat (length xs) fn))
           _ _ _ _ x).
  - apply H. by left.
  - apply (consumes_last (st_repeat (length xs) fn) (fun ys => x :: ys)), IH.
    intros. apply H. by right.
Qed.

Lemma consumes_vector_count n : 0 <= n -> consumes (consumeVectorElements n) [] (Cost (Z.to_nat n) 0 0) tt.
Proof.
  intros Hn rest bud Ha. unfold consumeVectorElements, with_budget. simpl.
  destruct bud as [b|]; [|done]. destruct Ha as (_&Hv&_&_). simpl in Hv.
  destruct (Z.ltb_spec (LimVectorElements (limits b) - vectorElements b) n); [lia|].
  unfold charged, charge_object, charge_vector, charge_bytes; simpl. do 4 f_equal; unfold len; simpl; lia.
Qed.

Definition vector_cost {A} (c : A -> cost) (xs : list A) : cost :=
  cost_seq (Cost (length xs) 0 0) (foldr cost_seq no_cost (c <$> xs)).

Definition enc_int32 (v : Z) : bytes := le_put 4 (uint32 v).
Definition enc_int64 (v : Z) : bytes := le_put 8 (uint64 v).

Definition enc_bare_vector {A} (enc : A -> bytes) (xs : list A) : bytes :=
  enc_int32 (len xs) ++ concat (enc <$> xs).
Definition enc_vector {A} (enc : A -> bytes) (xs : list A) : bytes :=
  le_put 4 VectorConstructorID ++ enc_bare_vector enc xs.

Lemma consumes_readElements {A} lim (fn : RD A) enc c (xs : list A) :
  len xs <= lim -> lim <= MaxInt32 ->
  (forall x, x ∈ xs -> consumes fn (enc x) (c x) x) ->
  consumes (readElements lim fn) (enc_bare_vector enc xs) (vector_cost c xs) xs.
Proof.
  intros Hl Hm H. unfold readElements, enc_bare_vector. pose proof (len_nonneg xs).
  unfold MaxInt32 in Hm.
  eapply consumes_step; [apply consumes_ReadInt32; unfold inS; lia|].
  rewrite (proj2 (Z.ltb_ge _ _)) by lia. rewrite (proj2 (Z.ltb_ge _ _)) by lia.
  apply (consumes_bind (consumeVectorElements (len xs)) _ [] _ _ _ tt).
  - rewrite <- (Nat2Z.id (length xs)). by apply consumes_vector_count.
  - unfold len. rewrite Nat2Z.id. by apply consumes_repeat.
Qed.

Lemma consumes_ReadVectorBounded {A} lim (fn : RD A) enc c (xs : list A) :
  len xs <= lim -> lim <= MaxInt32 ->
  (forall x, x ∈ xs -> consumes fn (enc x) (c x) x) ->
  consumes (ReadVectorBounded lim fn) (enc_vector enc xs) (vector_cost c xs) xs.
Proof.
  intros Hl Hm H. unfold ReadVectorBounded, enc_vector. pose proof (len_nonneg xs).
  rewrite (proj2 (Z.ltb_ge _ _)) by lia.
  eapply consumes_step; [by apply consumes_ReadUint32|].
  by apply consumes_readElements.
Qed.

Lemma consumes_ReadBareVectorBounded {A} lim (fn : RD A) enc c (xs : list A) :
  len xs <= lim -> lim <= MaxInt32 ->
  (forall x, x ∈ xs -> consumes fn (enc x) (c x) x) ->
  consumes (ReadBareVectorBounded lim fn) (enc_bare_vector enc xs) (vector_cost c xs) xs.
Proof.
  intros Hl Hm H. unfold ReadBareVectorBounded. pose proof (len_nonneg xs).
  rewrite (proj2 (Z.ltb_ge _ _)) by lia. by apply consumes_readElements.
Qed.

(** *** Reading to the end of the input *)

(** [drains m bs c a]: like [consumes], with nothing after [bs]. *)
Definition drains {A} (m : RD A) (bs : bytes) (c : cost) (a : A) : Prop :=
  forall bud, affords bud (len bs) c ->
    m (Reader bs bud) = (Ok a, Reader [] (charged (len bs) c bud)).

Lemma consumes_drains {A} (m : RD A) bs c a : consumes m bs c a -> drains m bs c a.
Proof. intros H bud Ha. specialize (H [] bud Ha). by rewrite app_nil_r in H. Qed.

Lemma drains_bind {A B} (m : RD A) (f : A -> RD B) b1 b2 c1 c2 a x :
  consumes m b1 c1 a -> drains (f a) b2 c2 x ->
  drains (m ≫= f) (b1 ++ b2) (cost_seq c1 c2) x.
Proof.
  intros H1 H2 bud. rewrite len_app. intros Ha.
  apply affords_seq in Ha as [Ha1 Ha2]; [|apply len_nonneg..].
  unfold mbind, ST_bind, st_bind. rewrite H1, H2 by done. by rewrite charged_seq.
Qed.

Lemma drains_step {A B} (m : RD A) (f : A -> RD B) b1 b2 c a x :
  consumes m b1 no_cost a -> drains (f a) b2 c x -> drains (m ≫= f) (b1 ++ b2) c x.
Proof. intros. rewrite <- (cost_no_seq c). by eapply drains_bind. Qed.

Lemma drains_last {A B} (m : RD A) (f : A -> B) bs c a :
  drains m bs c a -> drains (x ← m; mret (f x)) bs c (f a).
Proof. intros H bud Ha. unfold mbind, ST_bind, st_bind. by rewrite H. Qed.

Lemma advance_charged k d bud :
  advance k (Reader d bud) = Reader (drop k d) (charged (Z.of_nat k) no_cost bud).
Proof.
  unfold advance, charged; simpl. f_equal. destruct bud; simpl; [|done]. f_equal.
  unfold charge_object, charge_vector, charge_bytes; simpl. f_equal; lia.
Qed.

Lemma deliverable_affords n d bud :
  affords bud (len d) no_cost -> deliverable n (Reader d bud) = Nat.min n (length d).
Proof.
  intros Ha. unfold deliverable; cbn [rd_data rd_budget]. destruct bud as [b|]; [|done].
  destruct Ha as [Ha _]. unfold len in Ha. lia.
Qed.

Lemma readAllLoop_ok fuel got bs bud :
  (length bs < fuel)%nat -> affords bud (len bs) no_cost ->
  readAllLoop fuel got (Reader bs bud) = (Ok (got ++ bs), Reader [] (charged (len bs) no_cost bud)).
Proof.
  revert got bs bud. induction fuel as [|fuel IH]; intros got bs bud Hf Ha; [lia|].
  cbn [readAllLoop]. rewrite Read_deliverable, deliverable_affords by (done || lia).
  destruct bs as [|x bs].
  { simpl. by rewrite app_nil_r, charged_0. }
  remember (x :: bs) as l eqn:El. assert (length l <> 0%nat) by (subst; simpl; lia).
  remember (Nat.min 512 (length l)) as k eqn:Ek.
  destruct (Nat.eqb_spec k 0) as [E|E]; [lia|].
  assert (Hlen : len l = Z.of_nat k + len (drop k l)).
  { unfold len. rewrite length_drop. lia. }
  cbn [rd_data]. rewrite advance_charged, IH.
  - rewrite <- app_assoc, take_drop, charged_seq. by rewrite <- Hlen.
  - rewrite length_drop. lia.
  - rewrite Hlen in Ha. apply (affords_seq bud (Z.of_nat k) _ no_cost no_cost); auto with tlrpc. lia.
Qed.

Lemma drains_ReadAll bs : drains ReadAll bs no_cost bs.
Proof. intros bud Ha. unfold ReadAll. cbn [rd_data]. rewrite readAllLoop_ok by (done || lia). done. Qed.

(** ** Composing writes *)

Lemma written_app w a b : written (written w a) b = written w (a ++ b).
Proof.
  destruct w as [buf [k|]]; unfold written; simpl; rewrite app_assoc; [|done].
  rewrite len_app. f_equal. f_equal. lia.
Qed.

Lemma room_app w a b :
  room w (len (a ++ b)) = room w (len a) && room (written w a) (len b).
Proof.
  pose proof (len_nonneg a). pose proof (len_nonneg b).
  destruct w as [buf [k|]]; unfold room, written; simpl; [|done]. rewrite len_app.
  destruct (Z.leb_spec (len a + len b) k), (Z.leb_spec (len a) k), (Z.leb_spec (len b) (k - len a)); lia.
Qed.

Lemma written_ok w bs : w_ok w -> room w (len bs) = true -> w_ok (written w bs).
Proof. destruct w as [buf [k|]]; unfold w_ok, room, written; simpl; intros; bools; lia. Qed.

Lemma emits_ret : emits (mret tt) [].
Proof.
  intros [buf [k|]] Hw; unfold w_ok, room, written, mret, ST_ret, st_ret in *; simpl in *;
    rewrite app_nil_r; [|done].
  rewrite (proj2 (Z.leb_le _ _)) by (unfold len; simpl; lia). do 3 f_equal. unfold len; simpl. lia.
Qed.

Lemma emits_Write p : emits (Write p) p.
Proof.
  intros [buf [k|]] Hw; unfold room, Write, written in *; simpl; [|done].
  destruct (Z.leb_spec (len p) k), (Z.ltb_spec k (len p)); try lia; eauto.
Qed.

Lemma emits_bind (m : WR unit) (f : unit -> WR unit) a b :
  emits m a -> emits (f tt) b -> emits (m ≫= f) (a ++ b).
Proof.
  intros H1 H2 w Hw. rewrite room_app. specialize (H1 w Hw).
  unfold mbind, ST_bind, st_bind.
  destruct (room w (len a)) eqn:Ra; simpl.
  - rewrite H1. specialize (H2 _ (written_ok _ _ Hw Ra)). rewrite written_app in H2. exact H2.
  - destruct H1 as [w' ->]. eauto.
Qed.

(** The only way to fail is the bounded writer's limit. *)
Lemma emits_unbounded m bs : emits m bs -> forall buf, m (Writer buf None) = (Ok tt, Writer (buf ++ bs) None).
Proof. intros H buf. apply (H (Writer buf None)). unfold w_ok; simpl. lia. Qed.

Lemma emits_bounded m bs k : 0 <= k -> emits m bs ->
  if len bs <=? k then m (Writer [] (Some k)) = (Ok tt, Writer bs (Some (k - len bs)))
  else exists w', m (Writer [] (Some k)) = (Err ErrEncodedPayloadTooLarge, w').
Proof. intros Hk H. apply (H (Writer [] (Some k))). unfold w_ok; simpl. lia. Qed.

Lemma emits_WriteUint32 v : emits (WriteUint32 v) (le_put 4 v).
Proof. apply emits_Write. Qed.

Lemma emits_WriteInt32 v : emits (WriteInt32 v) (enc_int32 v).
Proof. apply emits_Write. Qed.

Lemma emits_WriteInt64 v : emits (WriteInt64 v) (enc_int64 v).
Proof. apply emits_Write. Qed.

Lemma emits_WriteBool (v : bool) : emits (WriteBool v) (le_put 4 (if v then BoolTrue else BoolFalse)).
Proof. destruct v; apply emits_Write. Qed.

Lemma emits_padding n :
  emits (if 0 <? padding4 n then Write (zeros (Z.to_nat (padding4 n))) else mret tt)
    (zeros (Z.to_nat (padding4 n))).
Proof.
  pose proof (padding4_range n). destruct (Z.ltb_spec 0 (padding4 n)); [apply emits_Write|].
  assert (padding4 n = 0) as -> by lia. apply emits_ret.
Qed.

Lemma bZ_mod z : bZ (z mod 256) = bZ z.
Proof. unfold bZ. by rewrite Zmod_mod. Qed.

Lemma emits_WriteBytes v : len v <= MaxTLBytesLength -> emits (WriteBytes v) (enc_bytes v).
Proof.
  intros Hv. unfold WriteBytes, enc_bytes. destruct (Z.ltb_spec (len v) 254).
  - apply emits_bind; [apply emits_Write|]. apply emits_bind; [apply emits_Write|].
    apply (emits_padding (1 + len v)).
  - rewrite (proj2 (Z.ltb_ge _ _)) by done.
    apply emits_bind.
    + rewrite (Z.shiftr_div_pow2 _ 8), (Z.shiftr_div_pow2 _ 16) by lia.
      change (2 ^ 16) with (256 * 256). rewrite <- Z.div_div by lia. apply emits_Write.
    + apply emits_bind; [apply emits_Write|].
      rewrite len_cons, len_le_put. apply (emits_padding (4 + len v)).
Qed.

Lemma emits_WriteVectorHeader n :
  inS 32 n -> emits (WriteVectorHeader n) (le_put 4 VectorConstructorID ++ enc_int32 n).
Proof.
  intros. unfold WriteVectorHeader. rewrite wrapS_id by (done || lia).
  apply emits_bind; [apply emits_WriteUint32|apply emits_WriteInt32].
Qed.

Lemma emits_det m a b : emits m a -> emits m b -> a = b.
Proof.
  intros Ha Hb. pose proof (emits_unbounded _ _ Ha []) as H1.
  rewrite (emits_unbounded _ _ Hb []) in H1. by simplify_eq.
Qed.

Lemma emits_WriteBytes_short v bs : emits (WriteBytes v) bs -> len v <= MaxTLBytesLength.
Proof.
  intros H. pose proof (emits_unbounded _ _ H []) as H1. unfold WriteBytes in H1.
  repeat case_match; simplify_eq; bools; unfold MaxTLBytesLength in *; lia.
Qed.

Lemma emits_each {A} (f : A -> WR unit) (enc : A -> bytes) (xs : list A) :
  (forall x, x ∈ xs -> emits (f x) (enc x)) -> emits (st_each f xs) (concat (enc <$> xs)).
Proof.
  induction xs as [|x xs IH]; intros H; simpl; [apply emits_ret|].
  apply (emits_bind (f x) (fun _ => st_each f xs)); [apply H; by left|].
  apply IH. intros. apply H. by right.
Qed.

Lemma charged_bytes n bud : charged n no_cost bud = charge_bytes n <$> bud.
Proof.
  destruct bud as [b|]; [|done]. unfold charged, charge_object, charge_vector, charge_bytes; simpl.
  do 2 f_equal; lia.
Qed.

Lemma affords_le bud n n' c : affords bud n c -> n' <= n -> affords bud n' no_cost.
Proof. destruct bud; simpl; [|done]. lia. Qed.

Lemma run_step {A B} (m : RD A) (f : A -> RD B) bs a rest bud :
  consumes m bs no_cost a -> affords bud (len bs) no_cost ->
  (m ≫= f) (Reader (bs ++ rest) bud) = f a (Reader rest (charge_bytes (len bs) <$> bud)).
Proof.
  intros H Ha. unfold mbind, ST_bind, st_bind. by rewrite (H rest bud Ha), charged_bytes.
Qed.

Lemma ReadVectorBounded_too_long {A} lim (fn : RD A) (enc : A -> bytes) c (xs : list A) rest bud :
  0 <= lim <= MaxInt32 -> lim < len xs <= MaxInt32 ->
  affords bud (len (enc_vector enc xs)) c ->
  ReadVectorBounded lim fn (Reader (enc_vector enc xs ++ rest) bud) =
    (Err ErrVectorTooLong, Reader (concat (enc <$> xs) ++ rest) (charge_bytes 8 <$> bud)).
Proof.
  intros Hlim Hxs Ha. unfold enc_vector, enc_bare_vector in *. unfold MaxInt32 in *.
  set (items := concat (enc <$> xs)) in *. rewrite !len_app, len_le_put in Ha.
  rewrite <- !app_assoc. unfold ReadVectorBounded. rewrite (proj2 (Z.ltb_ge _ _)) by lia.
  pose proof (len_nonneg items).
  rewrite (run_step ReadUint32 _ _ VectorConstructorID); [|by apply consumes_ReadUint32|].
  2:{ unfold enc_int32 in Ha. rewrite len_le_put in *. by eapply affords_le; [exact Ha|lia]. }
  unfold readElements. rewrite Z.eqb_refl. unfold negb.
  rewrite (run_step ReadInt32 _ (enc_int32 (len xs)) (len xs)); [|apply consumes_ReadInt32; unfold inS; lia|].
  - rewrite (proj2 (Z.ltb_ge _ _)), (proj2 (Z.ltb_lt _ _)) by lia. unfold st_err.
    rewrite <- option_fmap_compose. do 2 f_equal. apply option_fmap_ext. intros b.
    unfold compose. rewrite charge_bytes_add, len_le_put. unfold enc_int32. by rewrite len_le_put.
  - unfold enc_int32 in *. rewrite len_le_put in *. destruct bud; [|done].
    cbn -[le_put] in *. unfold remaining, items in *; cbn -[le_put] in *. rewrite ?len_le_put. lia.
Qed.

(** * Properties *)

(** TL byte strings: [WriteBytes] refuses a value of more than 2^24 - 1
    bytes and writes nothing; otherwise it appends a 4-aligned encoding, and
    [ReadBytes] in front of any further input, under any budget that affords
    it, returns the value, leaves exactly the further input and charges the
    budget the encoding's bytes once. *)
Lemma WriteBytes_ReadBytes v buf :
  if MaxTLBytesLength <? len v
  then WriteBytes v (Writer buf None) = (Err ErrStringTooLong, Writer buf None)
  else exists bs,
    WriteBytes v (Writer buf None) = (Ok tt, Writer (buf ++ bs) None) /\ len bs mod 4 = 0 /\
    forall rest bud, affords bud (len bs) no_cost ->
      ReadBytes (Reader (bs ++ rest) bud) = (Ok v, Reader rest (charge_bytes (len bs) <$> bud)).
Proof.
  destruct (Z.ltb_spec MaxTLBytesLength (len v)) as [H|H].
  - unfold WriteBytes. unfold MaxTLBytesLength in *.
    rewrite (proj2 (Z.ltb_ge (len v) 254)), (proj2 (Z.ltb_lt _ (len v))) by lia. done.
  - exists (enc_bytes v). split; [by apply emits_unbounded, emits_WriteBytes|].
    split; [apply enc_bytes_aligned|]. intros rest bud Ha.
    rewrite (consumes_ReadBytes v H rest bud Ha), charged_bytes. done.
Qed.

(** [io.ReadFull] on the readers of the package, in closed form: it returns
    [n] bytes exactly when input and byte budget both cover them; otherwise it
    consumes and charges what both cover and reports end of input, truncated
    input or an exhausted budget. *)
Lemma ReadFull_exact n r :
  ReadFull n r =
  let k := deliverable n r in
  (if (k =? n)%nat then Ok (take n (rd_data r)) else Err (short_error k r), advance k r).
Proof. rewrite ReadFull_closed. simpl. destruct (Nat.eqb_spec (deliverable n r) n) as [->|]; done. Qed.

(** Boxed vectors: in front of an encoded vector, [ReadVectorBounded]
    returns its elements and leaves the rest of the input when their number is
    within the caller's bound; a larger declared count is refused right after
    the 8 header bytes, before any element is decoded or charged. *)
Lemma ReadVectorBounded_spec {A} lim (fn : RD A) enc c (xs : list A) rest bud :
  0 <= lim <= MaxInt32 -> len xs <= MaxInt32 ->
  (forall x, x ∈ xs -> consumes fn (enc x) (c x) x) ->
  affords bud (len (enc_vector enc xs)) (vector_cost c xs) ->
  ReadVectorBounded lim fn (Reader (enc_vector enc xs ++ rest) bud) =
    if len xs <=? lim
    then (Ok xs, Reader rest (charged (len (enc_vector enc xs)) (vector_cost c xs) bud))
    else (Err ErrVectorTooLong, Reader (concat (enc <$> xs) ++ rest) (charge_bytes 8 <$> bud)).
Proof.
  intros Hlim Hxs Hfn Ha. destruct (Z.leb_spec (len xs) lim).
  - apply consumes_ReadVectorBounded; try done; lia.
  - eapply ReadVectorBounded_too_long; [lia|lia|exact Ha].
Qed.

Lemma ReadVectorBounded_spec_witness :
  ReadVectorBounded 1 ReadInt32
    (Reader (enc_vector enc_int32 [7; -1] ++ [x01]) None)
  = (Err ErrVectorTooLong, Reader ((enc_int32 7 ++ enc_int32 (-1)) ++ [x01]) None).
Proof.
  rewrite (ReadVectorBounded_spec 1 ReadInt32 enc_int32 (fun _ => no_cost) [7; -1] [x01] None).
  - reflexivity.
  - vm_compute. split; discriminate.
  - vm_compute. discriminate.
  - intros x Hx. apply consumes_ReadInt32. set_unfold in Hx. unfold inS. lia.
  - exact I.
Defined.
