(* ===== verification/Cursor.v ===== *)
(** The cursor codec of mtproto/cursor.go, which generated field codecs use in
    place of the stream functions of Wire.v: the bounded Encoder and the
    Decoder, each in its buffer and in its stream form, and their agreement
    with the stream functions; with PrependReader of mtproto/deserialize.go,
    which a Decoder may read through. *)

From stdpp Require Import base numbers list gmap strings.
From S2P Require Import Prelude Wire.
Open Scope Z_scope.

(** * Encoder *)

(** [enc_writer] is the stream an Encoder adapts; without it the Encoder
    appends to [enc_data], whose Go slice has capacity [enc_cap]. *)
Record Encoder := {
  enc_writer : option writer;
  enc_data : bytes;
  enc_cap : Z;
  enc_limit : Z;
  enc_layer : Z;
  enc_state : encodeState
}.

Abbreviation EN := (ST Encoder wire_error).

Definition set_data (e : Encoder) (d : bytes) (c : Z) : Encoder :=
  {| enc_writer := enc_writer e; enc_data := d; enc_cap := c; enc_limit := enc_limit e;
     enc_layer := enc_layer e; enc_state := enc_state e |}.

Definition set_writer (e : Encoder) (w : writer) : Encoder :=
  {| enc_writer := Some w; enc_data := enc_data e; enc_cap := enc_cap e; enc_limit := enc_limit e;
     enc_layer := enc_layer e; enc_state := enc_state e |}.

Definition NewEncoder (w : writer) (layer : Z) : Encoder :=
  {| enc_writer := Some w; enc_data := []; enc_cap := 0; enc_limit := 0; enc_layer := layer;
     enc_state := {| enc_depth := 0; enc_nodes := 0 |} |}.

Definition NewBufferEncoder (layer maxBytes : Z) : result wire_error Encoder :=
  if maxBytes <? 0 then Err ErrNegativeLimit
  else
    let maxBytes := if maxBytes =? 0 then DefaultMaxDecodedBytes else maxBytes in
    Ok {| enc_writer := None; enc_data := []; enc_cap := 0; enc_limit := maxBytes;
          enc_layer := layer; enc_state := {| enc_depth := 0; enc_nodes := 0 |} |}.

Definition Encoder_EnterObject : EN unit := fun e =>
  match EnterEncodeObject (enc_state e) with
  | Err err => (Err err, e)
  | Ok s => (Ok tt, {| enc_writer := enc_writer e; enc_data := enc_data e; enc_cap := enc_cap e;
                       enc_limit := enc_limit e; enc_layer := enc_layer e; enc_state := s |})
  end.

Definition Encoder_LeaveObject : EN unit := fun e =>
  (Ok tt, {| enc_writer := enc_writer e; enc_data := enc_data e; enc_cap := enc_cap e;
             enc_limit := enc_limit e; enc_layer := enc_layer e;
             enc_state := LeaveEncodeObject (enc_state e) |}).

Definition reserve (n : Z) : EN unit := fun e =>
  if (n <? 0) || (enc_limit e - len (enc_data e) <? n) then (Err ErrEncodedBytesLimit, e)
  else if n <=? enc_cap e - len (enc_data e) then (Ok tt, e)
  else
    let capacity := Z.max 64 (enc_cap e * 2) in
    let capacity := Z.min (enc_limit e) (Z.max capacity (len (enc_data e) + n)) in
    (Ok tt, set_data e (enc_data e) capacity).

(** [e.data = append(e.data, p...)] after the space was reserved. *)
Definition append_data (p : bytes) : EN unit := fun e =>
  (Ok tt, set_data e (enc_data e ++ p) (enc_cap e)).

Definition Encoder_Write (p : bytes) : EN unit := fun e =>
  match enc_writer e with
  | Some w => match Write p w with
              | (Ok _, w') => (Ok tt, set_writer e w')
              | (Err err, w') => (Err err, set_writer e w')
              end
  | None => (_ ← reserve (len p); append_data p) e
  end.

(** [if e.writer == nil { m } else { m' }] *)
Definition if_buffer {A} (m m' : EN A) : EN A := fun e =>
  match enc_writer e with None => m e | Some _ => m' e end.

Definition Encoder_WriteUint32 (v : Z) : EN unit :=
  if_buffer (_ ← reserve 4; append_data (le_put 4 v)) (Encoder_Write (le_put 4 v)).

Definition Encoder_WriteInt32 (v : Z) : EN unit := Encoder_WriteUint32 (uint32 v).

Definition Encoder_WriteUint64 (v : Z) : EN unit :=
  if_buffer (_ ← reserve 8; append_data (le_put 8 v)) (Encoder_Write (le_put 8 v)).

Definition Encoder_WriteInt64 (v : Z) : EN unit := Encoder_WriteUint64 (uint64 v).
Definition Encoder_WriteDouble (v : Z) : EN unit := Encoder_WriteUint64 v.
Definition Encoder_WriteInt128 (v : bytes) : EN unit := Encoder_Write v.
Definition Encoder_WriteInt256 (v : bytes) : EN unit := Encoder_Write v.

Definition Encoder_WriteBool (v : bool) : EN unit :=
  if v then Encoder_WriteUint32 BoolTrue else Encoder_WriteUint32 BoolFalse.

(** Writes the length prefix and returns the padding still due. *)
Definition bytesHeader (n : Z) : EN Z :=
  if (n <? 0) || (MaxTLBytesLength <? n) then st_err ErrStringTooLong
  else
    let scratch := if n <? 254 then [bZ n]
                   else [bZ 254; bZ n; bZ (Z.shiftr n 8); bZ (Z.shiftr n 16)] in
    let header := if n <? 254 then 1 else 4 in
    let padding := padding4 (header + n) in
    _ ← if_buffer (reserve (header + n + padding)) (mret tt);
    _ ← Encoder_Write scratch;
    mret padding.

Definition padding (n : Z) : EN unit := Encoder_Write (zeros (Z.to_nat n)).

Definition Encoder_WriteBytes (v : bytes) : EN unit :=
  pad ← bytesHeader (len v);
  _ ← Encoder_Write v;
  padding pad.

Definition Encoder_WriteString (v : bytes) : EN unit :=
  pad ← bytesHeader (len v);
  _ ← if_buffer (append_data v) (Encoder_Write v);
  padding pad.

Definition Encoder_WriteVectorHeader (count : Z) : EN unit :=
  if (count <? 0) || (MaxInt32 <? count) then st_err ErrVectorTooLong
  else
    _ ← Encoder_WriteUint32 VectorConstructorID;
    Encoder_WriteInt32 (int32 count).

(** * Decoder *)

(** ** PrependReader *)

(** [prefix]: the bytes to replay that are not read yet; [parent]: the reader
    after them, whose budget is also the prepended reader's. *)
Record prependedBudgetReader := { prefix : bytes; parent : reader }.

Definition PrependReader (prefix : bytes) (r : reader) : prependedBudgetReader :=
  {| prefix := prefix; parent := r |}.

(** [Read(p)] with [len(p) = k]: the prefix is read first, without a charge. *)
Definition prepended_Read (k : nat) : ST prependedBudgetReader wire_error bytes := fun p =>
  if (0 <? length (prefix p))%nat
  then (Ok (list.take k (prefix p)), {| prefix := drop k (prefix p); parent := parent p |})
  else match Read k (parent p) with
       | (res, r) => (res, {| prefix := prefix p; parent := r |})
       end.

(** [Len()] over a parent that has one. *)
Definition prepended_Len (p : prependedBudgetReader) : Z := len (prefix p) + Len (parent p).

(** io.ReadFull over it, as [readAtLeast] over a reader. *)
Fixpoint prepended_readAtLeast (fuel need : nat) (got : bytes) :
    ST prependedBudgetReader wire_error bytes := fun p =>
  match need with
  | O => (Ok got, p)
  | S _ =>
      match fuel with
      | O => (Err OutOfFuel, p)
      | S fuel' =>
          match prepended_Read need p with
          | (Ok q, p') => prepended_readAtLeast fuel' (need - length q) (got ++ q) p'
          | (Err EOF, p') => (Err (if len got =? 0 then EOF else ErrUnexpectedEOF), p')
          | (Err e, p') => (Err e, p')
          end
      end
  end.

Definition prepended_ReadFull (n : nat) : ST prependedBudgetReader wire_error bytes :=
  prepended_readAtLeast (S (S n)) n [].

(** The one reader a prepended reader amounts to: its budget is credited with
    the bytes to replay, which are charged again as they are read.
    [prepended_ReadFull_replayed] and [prepended_Len_replayed] show that the
    stream functions, which use nothing else of a reader, cannot tell them apart. *)
Definition replayed (p : prependedBudgetReader) : reader :=
  Reader (prefix p ++ rd_data (parent p)) (charge_bytes (- len (prefix p)) <$> rd_budget (parent p)).

(** ** The cursor *)

(** [dec_stream]: the Decoder adapts a reader of the rest of [dec_data], of
    which the first [dec_uncharged] bytes are replayed by a PrependReader, and
    whose length the Decoder can tell when it is [dec_sized]; otherwise it owns
    the buffer itself. *)
Record Decoder := {
  dec_stream : bool;
  dec_sized : bool;
  dec_data : bytes;
  dec_offset : nat;
  dec_uncharged : nat;
  dec_layer : Z;
  dec_budget : DecodeBudget
}.

Abbreviation DE := (ST Decoder wire_error).

Definition default_budget (b : option DecodeBudget) : result wire_error DecodeBudget :=
  match b with Some b => Ok b | None => NewDecodeBudget zeroLimits end.

(** Over [PrependReader prefix r], which is [r] itself for an empty prefix. A
    reader without a budget is wrapped in a BudgetReader, which charges the
    prefix as well. *)
Definition NewDecoder (sized : bool) (p : prependedBudgetReader) (layer : Z) : result wire_error Decoder :=
  b ← default_budget (rd_budget (parent p));
  mret {| dec_stream := true; dec_sized := sized; dec_data := prefix p ++ rd_data (parent p);
          dec_offset := 0;
          dec_uncharged := match rd_budget (parent p) with Some _ => length (prefix p) | None => 0 end;
          dec_layer := layer; dec_budget := b |}.

Definition NewDecoderBytes (data : bytes) (layer : Z) (b : option DecodeBudget) : result wire_error Decoder :=
  b ← default_budget b;
  mret {| dec_stream := false; dec_sized := true; dec_data := data; dec_offset := 0;
          dec_uncharged := 0; dec_layer := layer; dec_budget := b |}.

(** The reader a stream Decoder reads from, in its [replayed] form. *)
Definition dec_reader (d : Decoder) : reader :=
  Reader (drop (dec_offset d) (dec_data d))
         (Some (charge_bytes (- Z.of_nat (dec_uncharged d)) (dec_budget d))).

Definition move (d : Decoder) (off uncharged : nat) (b : DecodeBudget) : Decoder :=
  {| dec_stream := dec_stream d; dec_sized := dec_sized d; dec_data := dec_data d;
     dec_offset := off; dec_uncharged := uncharged; dec_layer := dec_layer d; dec_budget := b |}.

(** Runs a read of the underlying stream: what it took of the replayed bytes
    is not charged. *)
Definition via_reader {A} (m : RD A) : DE A := fun d =>
  match m (dec_reader d) with
  | (res, r) =>
      let off := (length (dec_data d) - length (rd_data r))%nat in
      let left := (dec_uncharged d - (off - dec_offset d))%nat in
      (res, move d off left (charge_bytes (Z.of_nat left) (default (dec_budget d) (rd_budget r))))
  end.

(** [if d.reader != nil { m } else { m' }] *)
Definition if_stream {A} (m m' : DE A) : DE A := fun d => if dec_stream d then m d else m' d.

Definition unread (d : Decoder) : Z := len (dec_data d) - Z.of_nat (dec_offset d).

(** With readerPhysicalLen for a stream: the prefix and the reader after it. *)
Definition physicalLen (d : Decoder) : option Z :=
  if dec_sized d then Some (unread d) else None.

Definition available (d : Decoder) : Z :=
  let n := Z.max 0 (remaining (dec_budget d)) in
  match physicalLen d with Some physical => Z.min n physical | None => n end.

Definition Decoder_Len (d : Decoder) : Z :=
  match physicalLen d with Some n => n | None => available d end.

Definition requireAvailable (n : Z) : DE unit := fun d =>
  if match physicalLen d with Some physical => physical <? n | None => false end
  then (Err ErrUnexpectedEOF, d)
  else if remaining (dec_budget d) <? n then (Err ErrDecodedBytesLimit, d)
  else (Ok tt, d).

Definition consume (n : Z) : DE unit := fun d =>
  if remaining (dec_budget d) <? n then (Err ErrDecodedBytesLimit, d)
  else (Ok tt, move d (dec_offset d) (dec_uncharged d) (charge_bytes n (dec_budget d))).

Definition take (n : Z) : DE bytes := fun d =>
  if n <? 0 then (Err ErrInvalidMessageLength, d)
  else if dec_stream d then
    (_ ← requireAvailable n; via_reader (ReadFull (Z.to_nat n))) d
  else if len (dec_data d) - Z.of_nat (dec_offset d) <? n then (Err ErrUnexpectedEOF, d)
  else match consume n d with
       | (Err e, d') => (Err e, d')
       | (Ok _, d') =>
           (Ok (list.take (Z.to_nat n) (drop (dec_offset d) (dec_data d))),
            move d' (dec_offset d + Z.to_nat n) (dec_uncharged d') (dec_budget d'))
       end.

(** [Read(p)] with [len(p) = k]. *)
Definition Decoder_Read (k : nat) : DE bytes := fun d =>
  if dec_stream d then
    via_reader (Read (if (0 <? dec_uncharged d)%nat then Nat.min k (dec_uncharged d) else k)) d
  else if (k =? 0)%nat then (Ok [], d)
  else if (dec_offset d =? length (dec_data d))%nat then (Err EOF, d)
  else
    let n := Nat.min k (length (dec_data d) - dec_offset d) in
    match consume (Z.of_nat n) d with
    | (Err e, d') => (Err e, d')
    | (Ok _, d') => (Ok (list.take n (drop (dec_offset d) (dec_data d))),
                     move d' (dec_offset d + n) (dec_uncharged d') (dec_budget d'))
    end.

Definition Decoder_EnterObject : DE unit := via_reader EnterObject.
Definition Decoder_LeaveObject : DE unit := via_reader LeaveObject.

Definition Decoder_ReadUint32 : DE Z := p ← take 4; mret (le_get p).
Definition Decoder_ReadInt32 : DE Z := v ← Decoder_ReadUint32; mret (int32 v).
Definition Decoder_ReadUint64 : DE Z := p ← take 8; mret (le_get p).
Definition Decoder_ReadInt64 : DE Z := v ← Decoder_ReadUint64; mret (int64 v).
Definition Decoder_ReadDouble : DE Z := Decoder_ReadUint64.
Definition Decoder_ReadInt128 : DE bytes := take 16.
Definition Decoder_ReadInt256 : DE bytes := take 32.

Definition Decoder_ReadBool : DE bool :=
  v ← Decoder_ReadUint32;
  if v =? BoolTrue then mret true
  else if v =? BoolFalse then mret false
  else st_err ErrInvalidBool.

Definition byteSpan : DE bytes :=
  prefix ← take 1;
  let first := le_get prefix in
  if first =? 255 then st_err ErrInvalidMessageLength
  else
    nh ← (if first =? 254 then (p ← take 3; mret (le_get p, 4)) else mret (first, 1));
    let '(n, header) := nh in
    let padding := padding4 (header + n) in
    _ ← requireAvailable (n + padding);
    if_stream
      (p ← via_reader (ReadFull (Z.to_nat n));
       _ ← take padding;
       mret p)
      (p ← take (n + padding); mret (list.take (Z.to_nat n) p)).

Definition Decoder_ReadBytes : DE bytes := byteSpan.
Definition Decoder_ReadString : DE bytes := byteSpan.

Definition Decoder_consumeVectorElements (count : Z) : DE unit :=
  via_reader (consumeVectorElements count).

(** The declared elements must fit the bytes that can still be read. *)
Definition checkVectorBytes (count minElementBytes : Z) : DE Z := fun d =>
  if (0 <? minElementBytes) && (Z.quot (available d) minElementBytes <? count)
  then (Err ErrUnexpectedEOF, d)
  else (Ok count, d).

Definition ReadVectorCount (maxElements minElementBytes : Z) : DE Z :=
  if (maxElements <? 0) || (minElementBytes <? 0) then st_err ErrVectorTooLong
  else
    ctor ← Decoder_ReadUint32;
    if negb (ctor =? VectorConstructorID) then st_err (ErrInvalidVectorConstructor ctor)
    else
      count ← Decoder_ReadInt32;
      if (count <? 0) || (maxElements <? count) then st_err ErrVectorTooLong
      else
        _ ← Decoder_consumeVectorElements count;
        checkVectorBytes count minElementBytes.

(** * The Decoder agrees with the stream functions *)

Lemma prepended_readAtLeast_parent fuel need got r :
  prepended_readAtLeast fuel need got {| prefix := []; parent := r |} =
  ((readAtLeast fuel need got r).1, {| prefix := []; parent := (readAtLeast fuel need got r).2 |}).
Proof.
  revert need got r. induction fuel as [|fuel IH]; intros [|need] got r; try done.
  cbn [prepended_readAtLeast readAtLeast]. unfold prepended_Read. simpl length. simpl Nat.ltb.
  cbn [prefix parent]. destruct (Read (S need) r) as [[q|[]] r'] eqn:E; try done. apply IH.
Qed.

Lemma prepended_readAtLeast_prefix fuel need got p :
  need <> 0%nat -> length (prefix p) <> 0%nat ->
  prepended_readAtLeast (S fuel) need got p =
  prepended_readAtLeast fuel (need - length (list.take need (prefix p)))
    (got ++ list.take need (prefix p)) {| prefix := drop need (prefix p); parent := parent p |}.
Proof.
  intros Hn Hp. destruct need as [|need]; [done|].
  change (prepended_readAtLeast (S fuel) (S need) got p) with
    (match prepended_Read (S need) p with
     | (Ok q, p') => prepended_readAtLeast fuel (S need - length q) (got ++ q) p'
     | (Err EOF, p') => (Err (if len got =? 0 then EOF else ErrUnexpectedEOF), p')
     | (Err e, p') => (Err e, p')
     end).
  unfold prepended_Read at 1. by destruct (length (prefix p)) eqn:E.
Qed.

(** io.ReadFull reads the same through a prepended reader and through the one
    reader it amounts to, with the same error, and leaves the same. *)
Lemma prepended_ReadFull_replayed n p :
  match rd_budget (parent p) with Some b => 0 <= remaining b | None => True end ->
  (prepended_ReadFull n p).1 = (ReadFull n (replayed p)).1 /\
  replayed (prepended_ReadFull n p).2 = (ReadFull n (replayed p)).2.
Proof.
  destruct p as [pre [data bud]]. cbn [parent rd_budget]. intros Hb.
  rewrite ReadFull_closed. unfold prepended_ReadFull, replayed. cbn [prefix parent rd_data rd_budget].
  destruct n as [|n].
  { rewrite (proj2 (Nat.eqb_eq (deliverable 0 _) 0)), advance_0; [done|].
    pose proof (deliverable_le 0 (replayed {| prefix := pre; parent := Reader data bud |})) as [H _].
    unfold replayed in H. simpl in H. lia. }
  destruct pre as [|x pre].
  { rewrite prepended_readAtLeast_parent. change (- len []) with 0. cbn [fst snd].
    rewrite readAtLeast_spec by lia. simpl app.
    assert (E : charge_bytes 0 <$> bud = bud) by (destruct bud; simpl; [by rewrite charge_bytes_0|done]).
    unfold replayed. change (- len []) with 0. cbn [prefix parent app]. rewrite E. cbn [app].
    destruct (_ =? _)%nat; unfold advance, short_error; simpl; destruct bud; simpl;
      by rewrite ?charge_bytes_0. }
  remember (x :: pre) as q eqn:Eq. assert (Hq : length q <> 0%nat) by (by subst). clear Eq x pre.
  rewrite prepended_readAtLeast_prefix by done. cbn [prefix parent].
  set (k := S n). assert (Hk : k <> 0%nat) by done. clearbody k. clear n.
  rewrite length_take.
  destruct (decide (k <= length q)%nat) as [Hle|Hgt].
  - rewrite Nat.min_l, Nat.sub_diag by done.
    replace (deliverable k _) with k.
    2:{ unfold deliverable; simpl. rewrite length_app. destruct bud as [b|]; simpl; [|lia].
        unfold remaining, charge_bytes, len in *; simpl. lia. }
    rewrite Nat.eqb_refl. destruct k as [|k]; [done|].
    cbn [prepended_readAtLeast fst snd]. unfold replayed, advance.
    cbn [prefix parent rd_data rd_budget].
    rewrite take_app_le, drop_app_le by done. split; [done|]. f_equal.
    destruct bud as [b|]; [|done]. cbn [fmap option_fmap option_map]. rewrite charge_bytes_add.
    do 2 f_equal. unfold len. rewrite length_drop. lia.
  - rewrite Nat.min_r, (drop_ge q), (take_ge q) by lia. cbn [app].
    rewrite prepended_readAtLeast_parent, readAtLeast_spec by lia. cbn [rd_data].
    replace (deliverable k _) with (length q + deliverable (k - length q) (Reader data bud))%nat.
    2:{ unfold deliverable; simpl. rewrite length_app. destruct bud as [b|]; simpl; [|lia].
        unfold remaining, charge_bytes, len in *; simpl. lia. }
    set (j := deliverable _ _).
    assert (Hr : forall i, replayed {| prefix := []; parent := advance i (Reader data bud) |} =
              advance (length q + i) (Reader (q ++ data) (charge_bytes (- len q) <$> bud))).
    { intros i. unfold replayed, advance. cbn [prefix parent rd_data rd_budget].
      rewrite drop_app_add. simpl. f_equal. destruct bud as [b|]; simpl; [|done].
      rewrite !charge_bytes_add. do 2 f_equal. unfold len. simpl. lia. }
    replace (length q + j =? k)%nat with (j =? k - length q)%nat
      by (destruct (Nat.eqb_spec j (k - length q)), (Nat.eqb_spec (length q + j) k); lia).
    destruct (j =? k - length q)%nat; cbn [fst snd].
    + split; [by rewrite take_app, (take_ge q) by lia|].
      etrans; [exact (Hr (k - length q)%nat)|]. f_equal. lia.
    + split; [|exact (Hr j)]. f_equal. unfold short_error. simpl. rewrite length_app.
      replace (length q + j =? length q + length data)%nat with (j =? length data)%nat
        by (destruct (Nat.eqb_spec j (length data)), (Nat.eqb_spec (length q + j) (length q + length data)); lia).
      done.
Qed.

Lemma prepended_Len_replayed p :
  match rd_budget (parent p) with Some b => 0 <= remaining b | None => True end ->
  prepended_Len p = Len (replayed p).
Proof.
  destruct p as [pre [data [b|]]]; unfold prepended_Len, Len, replayed; simpl; intros H; rewrite len_app;
    [|done].
  unfold remaining, charge_bytes in *; simpl. pose proof (len_nonneg pre). repeat case_match; lia.
Qed.

Definition dec_ok (d : Decoder) : Prop :=
  (dec_offset d + dec_uncharged d <= length (dec_data d))%nat /\ 0 <= remaining (dec_budget d) /\
  (dec_stream d = false -> dec_sized d = true /\ dec_uncharged d = 0%nat).

(** A read of a stream never gives bytes back. *)
Definition shrinking {A} (s : RD A) : Prop :=
  forall r, (length (rd_data (s r).2) <= length (rd_data r))%nat.

(** The cursor [n] bytes further, each of them charged unless it is replayed. *)
Definition skip (d : Decoder) (n : nat) : Decoder :=
  move d (dec_offset d + n) (dec_uncharged d - n)
    (charge_bytes (Z.of_nat (n - dec_uncharged d)) (dec_budget d)).

(** Same value, same bytes left and same budget, or both fail. The Decoder
    alone may fail while bytes of a PrependReader are still to be replayed, when
    the read needs more bytes than the budget has left. *)
Definition agrees {A} (m : DE A) (s : RD A) : Prop :=
  forall d, dec_ok d ->
    match m d, s (dec_reader d) with
    | (Ok a, d'), (Ok b, r') =>
        a = b /\ dec_reader d' = r' /\ dec_ok d' /\ exists n, d' = skip d n
    | (Err _, _), (Err _, _) => True
    | (Err _, _), (Ok _, r') =>
        (0 < dec_uncharged d)%nat /\
        remaining (dec_budget d) < unread d - len (rd_data r')
    | _, _ => False
    end.

(** What the Decoder lets through, and what its stream delivers. *)
Definition fits (d : Decoder) (n : Z) : Prop := n <= unread d /\ n <= remaining (dec_budget d).
Definition delivers (d : Decoder) (n : Z) : Prop :=
  n <= unread d /\ n <= remaining (dec_budget d) + Z.of_nat (dec_uncharged d).

Definition upcoming (d : Decoder) (n : nat) : bytes := list.take n (drop (dec_offset d) (dec_data d)).

Lemma fits_dec d n : Decision (fits d n).
Proof. unfold fits. apply _. Qed.

Lemma delivers_dec d n : Decision (delivers d n).
Proof. unfold delivers. apply _. Qed.

Lemma fits_delivers d n : fits d n -> delivers d n.
Proof. unfold fits, delivers. lia. Qed.

Lemma skip_ok d n : dec_ok d -> delivers d (Z.of_nat n) -> dec_ok (skip d n).
Proof.
  intros (H1 & H2 & H3) [H4 H5].
  unfold dec_ok, skip, move, unread, remaining, charge_bytes, len in *; simpl.
  split_and!; [lia..|]. intros Hs. destruct (H3 Hs) as [? ->]. done.
Qed.

Lemma skip_0 d : skip d 0 = d.
Proof.
  destruct d. unfold skip, move; simpl. rewrite charge_bytes_0.
  by rewrite Nat.add_0_r, Nat.sub_0_r.
Qed.

Lemma skip_skip d m n : skip (skip d m) n = skip d (m + n).
Proof. unfold skip, move; simpl. rewrite charge_bytes_add.
  f_equal; [lia..|]. f_equal. lia.
Qed.

Lemma unread_skip d n : unread (skip d n) = unread d - Z.of_nat n.
Proof. unfold unread, skip, move; simpl. lia. Qed.

Lemma delivers_skip d m n :
  delivers d (Z.of_nat m) -> 0 <= n -> delivers (skip d m) n <-> delivers d (Z.of_nat m + n).
Proof.
  unfold delivers. rewrite unread_skip. unfold skip, move, remaining, charge_bytes. simpl. intros. lia.
Qed.

Lemma fits_skip d m n : fits d (Z.of_nat m + n) -> fits (skip d m) n.
Proof.
  unfold fits. rewrite unread_skip. unfold skip, move, remaining, charge_bytes. simpl. intros. lia.
Qed.

Lemma dec_reader_skip d n : dec_reader (skip d n) = advance n (dec_reader d).
Proof.
  unfold dec_reader, skip, move, advance; simpl. rewrite drop_drop, !charge_bytes_add.
  do 3 f_equal. lia.
Qed.

Lemma dec_reader_unread d : dec_ok d -> len (rd_data (dec_reader d)) = unread d.
Proof. intros [H _]. unfold dec_reader, unread, len; simpl. rewrite length_drop. lia. Qed.

Lemma deliverable_delivers d n :
  dec_ok d -> (deliverable n (dec_reader d) = n <-> delivers d (Z.of_nat n)).
Proof.
  intros (H1 & H2 & _). unfold deliverable, dec_reader, delivers, unread, len; simpl.
  unfold remaining, charge_bytes in *; simpl. rewrite length_drop. lia.
Qed.

Lemma ReadFull_delivers d n :
  dec_ok d -> delivers d (Z.of_nat n) ->
  ReadFull n (dec_reader d) = (Ok (upcoming d n), dec_reader (skip d n)).
Proof.
  intros Hd Hf. rewrite ReadFull_closed. simpl.
  rewrite (proj2 (deliverable_delivers d n Hd)), Nat.eqb_refl by done. by rewrite dec_reader_skip.
Qed.

Lemma ReadFull_short d n :
  dec_ok d -> ~ delivers d (Z.of_nat n) -> exists e r, ReadFull n (dec_reader d) = (Err e, r).
Proof.
  intros Hd Hf. rewrite ReadFull_closed. simpl.
  destruct (Nat.eqb_spec (deliverable n (dec_reader d)) n) as [E|E]; [|eauto].
  by apply deliverable_delivers in E.
Qed.

Lemma via_ReadFull d n :
  dec_ok d -> delivers d (Z.of_nat n) ->
  via_reader (ReadFull n) d = (Ok (upcoming d n), skip d n).
Proof.
  intros Hd Hf. unfold via_reader. rewrite ReadFull_delivers by done.
  destruct Hd as (H1 & H2 & _), Hf as [H3 H4]. unfold unread, len in H3.
  unfold skip, dec_reader, move; simpl. rewrite length_drop, charge_bytes_add.
  do 2 f_equal; [lia..|]. rewrite charge_bytes_add. f_equal. lia.
Qed.

Lemma via_ReadFull_short d n :
  dec_ok d -> ~ delivers d (Z.of_nat n) -> exists e d', via_reader (ReadFull n) d = (Err e, d').
Proof. intros Hd Hf. unfold via_reader. destruct (ReadFull_short d n) as (e & r & ->); eauto. Qed.

Lemma requireAvailable_fits d n : fits d n -> requireAvailable n d = (Ok tt, d).
Proof.
  intros [??]. unfold requireAvailable, physicalLen.
  destruct (dec_sized d); by rewrite ?(proj2 (Z.ltb_ge _ _)) by done.
Qed.

(** What is let through without fitting goes past an unknown end. *)
Lemma requireAvailable_unfit d n :
  ~ fits d n ->
  (exists e, requireAvailable n d = (Err e, d)) \/
  (requireAvailable n d = (Ok tt, d) /\ dec_sized d = false /\ unread d < n).
Proof.
  intros H. unfold requireAvailable, physicalLen, fits in *.
  destruct (dec_sized d); repeat case_match; eauto; bools; [|right; split_and!; try done]; lia.
Qed.

Lemma take_fits d n :
  dec_ok d -> fits d (Z.of_nat n) -> take (Z.of_nat n) d = (Ok (upcoming d n), skip d n).
Proof.
  intros Hd Hf. unfold take. rewrite (proj2 (Z.ltb_ge _ _)) by lia. rewrite Nat2Z.id.
  destruct (dec_stream d) eqn:Es.
  - unfold mbind, ST_bind, st_bind. rewrite requireAvailable_fits by done.
    apply via_ReadFull; [done|by apply fits_delivers].
  - destruct Hf as [H3 H4], Hd as (_ & _ & Hu). destruct (Hu Es) as [_ Hu0]. unfold unread in H3.
    rewrite (proj2 (Z.ltb_ge _ _)) by done. unfold consume.
    rewrite (proj2 (Z.ltb_ge _ _)) by done. unfold skip. cbn. by rewrite Hu0, Nat.sub_0_r.
Qed.

Lemma take_unfit d n :
  dec_ok d -> ~ fits d (Z.of_nat n) -> exists e d', take (Z.of_nat n) d = (Err e, d').
Proof.
  intros Hd Hf. unfold take. rewrite (proj2 (Z.ltb_ge _ _)) by lia. rewrite Nat2Z.id.
  destruct (dec_stream d) eqn:Es.
  - unfold mbind, ST_bind, st_bind.
    destruct (requireAvailable_unfit d _ Hf) as [[e ->]|(-> & _ & Hn)]; [eauto|].
    apply via_ReadFull_short; [done|]. unfold delivers. lia.
  - unfold fits, unread, consume in *. repeat case_match; simplify_eq; eauto; bools; lia.
Qed.

(** The one way in which the Decoder is the stricter of the two. *)
Lemma unfit_delivers d n :
  ~ fits d n -> delivers d n -> (0 < dec_uncharged d)%nat /\ remaining (dec_budget d) < n.
Proof. unfold fits, delivers. lia. Qed.

Lemma agrees_take n : agrees (take (Z.of_nat n)) (ReadFull n).
Proof.
  intros d Hd. destruct (fits_dec d (Z.of_nat n)) as [Hf|Hf].
  - pose proof (fits_delivers _ _ Hf). rewrite take_fits, ReadFull_delivers by done.
    split_and!; eauto. by apply skip_ok.
  - destruct (take_unfit d n Hd Hf) as (e & d' & ->).
    destruct (delivers_dec d (Z.of_nat n)) as [Hv|Hv].
    + rewrite ReadFull_delivers by done. destruct (unfit_delivers _ _ Hf Hv) as [Hu Hr].
      split; [done|]. rewrite dec_reader_unread, unread_skip by by apply skip_ok. lia.
    + by destruct (ReadFull_short d n Hd Hv) as (e' & r & ->).
Qed.

Lemma agrees_ret {A} (a : A) : agrees (mret a) (mret a).
Proof. intros d Hd. cbn. split_and!; try done. exists 0%nat. by rewrite skip_0. Qed.

Lemma agrees_err {A} e e' : agrees (A := A) (st_err e) (st_err e').
Proof. intros d Hd. done. Qed.

Lemma shrinking_ret {A} (a : A) : shrinking (mret a).
Proof. intros r. done. Qed.

Lemma shrinking_err {A} e : shrinking (A := A) (st_err e).
Proof. intros r. done. Qed.

Lemma shrinking_ReadFull n : shrinking (ReadFull n).
Proof.
  intros r. rewrite ReadFull_closed. simpl. destruct (_ =? _)%nat; unfold advance; simpl;
    rewrite length_drop; lia.
Qed.

Lemma shrinking_bind {A B} (s : RD A) (g : A -> RD B) :
  shrinking s -> (forall a, shrinking (g a)) -> shrinking (s ≫= g).
Proof.
  intros H1 H2 r. specialize (H1 r). unfold mbind, ST_bind, st_bind.
  destruct (s r) as [[a|] r1]; [|done]. specialize (H2 a r1). simpl in *. lia.
Qed.

(** Agreement where the values returned also satisfy [P]. *)
Definition agrees_with {A} (P : A -> Prop) (m : DE A) (s : RD A) : Prop :=
  agrees m s /\ forall d a d', dec_ok d -> m d = (Ok a, d') -> P a.

(** Of two reads the second is the one that fails alone only if what the first
    consumed and what it needs together pass the budget. *)
Lemma agrees_bind_with {A B} P (m : DE A) (s : RD A) (f : A -> DE B) (g : A -> RD B) :
  agrees_with P m s -> shrinking s -> (forall a, shrinking (g a)) ->
  (forall a, P a -> agrees (f a) (g a)) -> agrees (m ≫= f) (s ≫= g).
Proof.
  intros [H1 HP] Hs1 Hs2 H2 d Hd. specialize (H1 d Hd). specialize (HP d).
  specialize (Hs1 (dec_reader d)). unfold mbind, ST_bind, st_bind.
  destruct (m d) as [[a|e] d1], (s (dec_reader d)) as [[b|e'] r1]; try done; cbn [snd] in Hs1.
  - destruct H1 as (-> & <- & Hd1 & n & ->). specialize (H2 b (HP _ _ Hd eq_refl) _ Hd1).
    destruct (f b _) as [[x|] d2], (g b _) as [[y|] r2]; try done.
    + destruct H2 as (-> & ? & ? & k & ->). split_and!; try done. exists (n + k)%nat. by rewrite skip_skip.
    + destruct H2 as [Hu Hr]. rewrite unread_skip in Hr.
      unfold skip, move, remaining, charge_bytes in *; simpl in *. lia.
  - specialize (Hs2 b r1). destruct (g b r1) as [[y|] r2]; [|done]. cbn [snd] in Hs2.
    destruct H1 as [Hu Hr]. split; [done|]. unfold len in *. lia.
Qed.

Lemma agrees_bind {A B} (m : DE A) (s : RD A) (f : A -> DE B) (g : A -> RD B) :
  agrees m s -> shrinking s -> (forall a, shrinking (g a)) -> (forall a, agrees (f a) (g a)) ->
  agrees (m ≫= f) (s ≫= g).
Proof. intros H ?? Hf. by eapply (agrees_bind_with (fun _ => True)); [split| | |]. Qed.

Create HintDb agree.
#[export] Hint Resolve agrees_take agrees_ret agrees_err agrees_bind : agree.
#[export] Hint Resolve shrinking_ret shrinking_err shrinking_ReadFull shrinking_bind : agree.

Lemma shrinking_ReadUint32 : shrinking ReadUint32.
Proof. unfold ReadUint32. auto with agree. Qed.

Lemma shrinking_ReadUint64 : shrinking ReadUint64.
Proof. unfold ReadUint64. auto with agree. Qed.
#[export] Hint Resolve shrinking_ReadUint32 shrinking_ReadUint64 : agree.

Lemma agrees_ReadUint32 : agrees Decoder_ReadUint32 ReadUint32.
Proof. apply agrees_bind; [apply (agrees_take 4)|auto with agree..]. Qed.

Lemma agrees_ReadUint64 : agrees Decoder_ReadUint64 ReadUint64.
Proof. apply agrees_bind; [apply (agrees_take 8)|auto with agree..]. Qed.
#[export] Hint Resolve agrees_ReadUint32 agrees_ReadUint64 : agree.

Lemma agrees_ReadInt32 : agrees Decoder_ReadInt32 ReadInt32.
Proof. apply agrees_bind; auto with agree. Qed.

Lemma agrees_ReadInt64 : agrees Decoder_ReadInt64 ReadInt64.
Proof. apply agrees_bind; auto with agree. Qed.

Lemma agrees_ReadBool : agrees Decoder_ReadBool ReadBool.
Proof. apply agrees_bind; auto with agree; intros v; repeat case_match; auto with agree. Qed.

(** Payload and padding: one span of the cursor, two reads of the stream. *)
Definition span_body (n pad : Z) : DE bytes :=
  _ ← requireAvailable (n + pad);
  if_stream
    (p ← via_reader (ReadFull (Z.to_nat n)); _ ← take pad; mret p)
    (p ← take (n + pad); mret (list.take (Z.to_nat n) p)).

Definition stream_body (n pad : Z) : RD bytes :=
  data ← ReadSizedBytes n;
  if 0 <? pad then (_ ← ReadFull (Z.to_nat pad); mret data) else mret data.

Lemma shrinking_ReadSizedBytes n : shrinking (ReadSizedBytes n).
Proof. intros r. unfold ReadSizedBytes. repeat case_match; [done..|apply shrinking_ReadFull]. Qed.

Lemma shrinking_stream_body n pad : shrinking (stream_body n pad).
Proof.
  apply shrinking_bind; [apply shrinking_ReadSizedBytes|]. intros. case_match; auto with agree.
Qed.

Lemma ReadSizedBytes_delivers d n :
  dec_ok d -> delivers d (Z.of_nat n) ->
  ReadSizedBytes (Z.of_nat n) (dec_reader d) = (Ok (upcoming d n), dec_reader (skip d n)).
Proof.
  intros Hd Hf. unfold ReadSizedBytes. rewrite (proj2 (Z.ltb_ge _ _)) by lia.
  rewrite (proj2 (Z.ltb_ge (Len _) _)); [by rewrite Nat2Z.id; apply ReadFull_delivers|].
  pose proof (dec_reader_unread d Hd) as Hu. destruct Hf as [H1 H2]. unfold Len. rewrite Hu.
  unfold dec_reader, remaining, charge_bytes in *; simpl. case_match; lia.
Qed.

Lemma stream_body_delivers d n pad :
  dec_ok d -> delivers d (Z.of_nat n + Z.of_nat pad) ->
  stream_body (Z.of_nat n) (Z.of_nat pad) (dec_reader d)
  = (Ok (upcoming d n), dec_reader (skip d (n + pad))).
Proof.
  intros Hd Hf. assert (Hn : delivers d (Z.of_nat n)) by (destruct Hf; split; lia).
  assert (Hp : delivers (skip d n) (Z.of_nat pad)) by (apply delivers_skip; [done|lia|done]).
  unfold stream_body, mbind, ST_bind, st_bind. rewrite ReadSizedBytes_delivers by done.
  destruct (Z.ltb_spec 0 (Z.of_nat pad)).
  - rewrite Nat2Z.id, ReadFull_delivers by (done || by apply skip_ok). by rewrite skip_skip.
  - assert (pad = 0%nat) as -> by lia. by rewrite Nat.add_0_r.
Qed.

Lemma stream_body_short d n pad :
  dec_ok d -> ~ delivers d (Z.of_nat n + Z.of_nat pad) ->
  exists e r, stream_body (Z.of_nat n) (Z.of_nat pad) (dec_reader d) = (Err e, r).
Proof.
  intros Hd Hf. unfold stream_body, mbind, ST_bind, st_bind.
  destruct (delivers_dec d (Z.of_nat n)) as [Hn|Hn].
  - rewrite ReadSizedBytes_delivers by done.
    assert (Hp : ~ delivers (skip d n) (Z.of_nat pad)) by (rewrite delivers_skip by (done || lia); done).
    destruct (Z.ltb_spec 0 (Z.of_nat pad)).
    + rewrite Nat2Z.id. destruct (ReadFull_short (skip d n) pad) as (e & r & ->); eauto using skip_ok.
    + destruct Hf. replace (Z.of_nat n + Z.of_nat pad) with (Z.of_nat n) by lia. done.
  - unfold ReadSizedBytes. rewrite (proj2 (Z.ltb_ge _ _)) by lia.
    destruct (Len (dec_reader d) <? Z.of_nat n); [eauto|]. rewrite Nat2Z.id.
    destruct (ReadFull_short d n) as (e & r & ->); eauto.
Qed.

Lemma span_body_fits d n pad :
  dec_ok d -> fits d (Z.of_nat n + Z.of_nat pad) ->
  span_body (Z.of_nat n) (Z.of_nat pad) d = (Ok (upcoming d n), skip d (n + pad)).
Proof.
  intros Hd Hf. assert (Hn : delivers d (Z.of_nat n)) by (destruct Hf; split; lia).
  unfold span_body, mbind, ST_bind, st_bind, if_stream. rewrite requireAvailable_fits by done.
  destruct (dec_stream d).
  - rewrite Nat2Z.id, via_ReadFull by done.
    rewrite take_fits by (by apply skip_ok || by apply fits_skip). by rewrite skip_skip.
  - rewrite <- Nat2Z.inj_add in Hf |- *. rewrite take_fits by done.
    rewrite Nat2Z.id. unfold upcoming at 1. by rewrite take_take, Nat.min_l by lia.
Qed.

Lemma span_body_unfit d n pad :
  dec_ok d -> ~ fits d (Z.of_nat n + Z.of_nat pad) ->
  exists e d', span_body (Z.of_nat n) (Z.of_nat pad) d = (Err e, d').
Proof.
  intros Hd Hf. unfold span_body, mbind, ST_bind, st_bind, if_stream.
  destruct (requireAvailable_unfit d _ Hf) as [[e ->]|(-> & Hs & Hu)]; [eauto|].
  destruct (dec_stream d) eqn:Es; [|destruct Hd as (_ & _ & H); by destruct (H Es); congruence].
  rewrite Nat2Z.id. destruct (delivers_dec d (Z.of_nat n)) as [Hn|Hn].
  - rewrite via_ReadFull by done.
    destruct (take_unfit (skip d n) pad) as (e & d' & ->); [by apply skip_ok| |eauto].
    unfold fits. rewrite unread_skip. lia.
  - destruct (via_ReadFull_short d n Hd Hn) as (e & d' & ->). eauto.
Qed.

Lemma agrees_body n pad : 0 <= n -> 0 <= pad -> agrees (span_body n pad) (stream_body n pad).
Proof.
  intros Hn Hp. rewrite <- (Z2Nat.id n), <- (Z2Nat.id pad) by done.
  generalize (Z.to_nat n) (Z.to_nat pad). clear. intros n pad d Hd.
  assert (Hok : delivers d (Z.of_nat n + Z.of_nat pad) -> dec_ok (skip d (n + pad)))
    by (intros; apply skip_ok; [done|by rewrite Nat2Z.inj_add]).
  destruct (fits_dec d (Z.of_nat n + Z.of_nat pad)) as [Hf|Hf].
  - pose proof (fits_delivers _ _ Hf). rewrite span_body_fits, stream_body_delivers by done.
    split_and!; eauto.
  - destruct (span_body_unfit d n pad Hd Hf) as (e & d' & ->).
    destruct (delivers_dec d (Z.of_nat n + Z.of_nat pad)) as [Hv|Hv].
    + rewrite stream_body_delivers by done. destruct (unfit_delivers _ _ Hf Hv).
      split; [done|]. rewrite dec_reader_unread, unread_skip by auto. lia.
    + by destruct (stream_body_short d n pad Hd Hv) as (e' & r & ->).
Qed.

Lemma upcoming_length d n : dec_ok d -> fits d (Z.of_nat n) -> length (upcoming d n) = n.
Proof.
  intros (H1 & H2 & _) [H3 H4]. unfold upcoming, unread, len in *.
  rewrite length_take, length_drop. lia.
Qed.

Lemma agrees_take_with n : agrees_with (fun p => length p = n) (take (Z.of_nat n)) (ReadFull n).
Proof.
  split; [apply agrees_take|]. intros d a d' Hd.
  destruct (fits_dec d (Z.of_nat n)) as [Hf|Hf].
  - rewrite take_fits by done. intros [= <- <-]. by apply upcoming_length.
  - by destruct (take_unfit d n Hd Hf) as (e & d0 & ->).
Qed.

Definition length_ok (nh : Z * Z) : Prop := 0 <= nh.1 < 2 ^ 24.

Lemma le_get_len n p : length p = n -> 0 <= le_get p < 256 ^ Z.of_nat n.
Proof. intros <-. apply le_get_range. Qed.

Lemma agrees_span_length first :
  0 <= first < 255 ->
  agrees_with length_ok
    (if first =? 254 then (p ← take 3; mret (le_get p, 4)) else mret (first, 1))
    (if first <? 254 then mret (first, 1) else (ext ← ReadFull 3; mret (le_get ext, 4))).
Proof.
  intros Hf. destruct (Z.eqb_spec first 254) as [->|E].
  - change (254 <? 254) with false. cbv iota. split.
    + apply agrees_bind; [apply (agrees_take 3)|auto with agree..].
    + intros d a d' Hd H. st_inv. simplify_eq/=.
      eapply (proj2 (agrees_take_with 3)), le_get_len in H; done.
  - rewrite (proj2 (Z.ltb_lt _ _)) by lia. split; [apply agrees_ret|].
    intros d a d' Hd [= <- <-]. unfold length_ok; simpl. lia.
Qed.

Lemma shrinking_span_length first :
  shrinking (if first <? 254 then mret (first, 1) else (ext ← ReadFull 3; mret (le_get ext, 4))).
Proof. case_match; auto with agree. Qed.

Lemma shrinking_ReadBytes_rest nh :
  shrinking (let '(length, headerSize) := nh in
             if MaxInt32 <? length then st_err ErrStringTooLong
             else stream_body length (padding4 (headerSize + length))).
Proof. destruct nh. case_match; [apply shrinking_err|apply shrinking_stream_body]. Qed.

Lemma agrees_byteSpan : agrees byteSpan ReadBytes.
Proof.
  unfold byteSpan, ReadBytes.
  eapply agrees_bind_with; [apply (agrees_take_with 1)|apply shrinking_ReadFull| |].
  { intros p. case_match; [apply shrinking_err|].
    apply shrinking_bind; [apply shrinking_span_length|apply shrinking_ReadBytes_rest]. }
  intros prefix Hr%le_get_len. change (256 ^ Z.of_nat 1) with 256 in Hr.
  destruct (Z.eqb_spec (le_get prefix) 255) as [|Hne]; [apply agrees_err|].
  eapply agrees_bind_with;
    [apply agrees_span_length; lia|apply shrinking_span_length|apply shrinking_ReadBytes_rest|].
  intros [n header] Hn. unfold length_ok in Hn; simpl in Hn. unfold MaxInt32.
  rewrite (proj2 (Z.ltb_ge _ n)) by lia.
  apply (agrees_body n (padding4 (header + n))); [lia|apply padding4_range].
Qed.

(** * The Encoder agrees with the stream functions *)

Definition enc_out (e : Encoder) : bytes :=
  match enc_writer e with None => enc_data e | Some w => w_buf w end.

Definition enc_room (e : Encoder) (n : Z) : bool :=
  match enc_writer e with
  | None => n <=? enc_limit e - len (enc_data e)
  | Some w => room w n
  end.

(** The buffer never holds, nor allocates, more than the limit. *)
Definition enc_ok (e : Encoder) : Prop :=
  match enc_writer e with
  | None => len (enc_data e) <= enc_cap e <= enc_limit e
  | Some w => w_ok w
  end.

(** What an Encoder still takes. *)
Definition enc_left (e : Encoder) : option Z :=
  match enc_writer e with
  | None => Some (enc_limit e - len (enc_data e))
  | Some w => w_remaining w
  end.

Definition enc_wrote (e e' : Encoder) (bs : bytes) : Prop :=
  enc_ok e' /\ enc_out e' = enc_out e ++ bs /\
  enc_left e' = (fun k => k - len bs) <$> enc_left e /\
  enc_state e' = enc_state e /\ enc_layer e' = enc_layer e.

Definition enc_emits {A} (m : EN A) (bs : bytes) (a : A) : Prop :=
  forall e, enc_ok e ->
    if enc_room e (len bs) then exists e', m e = (Ok a, e') /\ enc_wrote e e' bs
    else exists err e', m e = (Err err, e') /\ enc_ok e'.

Lemma enc_room_left e n :
  enc_room e n = match enc_left e with None => true | Some k => n <=? k end.
Proof. unfold enc_room, enc_left, room. by destruct (enc_writer e). Qed.

Lemma enc_room_nil e : enc_ok e -> enc_room e 0 = true.
Proof.
  unfold enc_ok, enc_room, room, w_ok. destruct (enc_writer e) as [w|].
  - destruct (w_remaining w); simpl; intros; [|done]. apply Z.leb_le. lia.
  - intros. apply Z.leb_le. lia.
Qed.

Lemma enc_emits_ret {A} (a : A) : enc_emits (mret a) [] a.
Proof.
  intros e He. change (len []) with 0. rewrite enc_room_nil by done.
  exists e. split; [done|]. unfold enc_wrote. rewrite app_nil_r. change (len []) with 0.
  split_and!; try done. destruct (enc_left e) as [k|]; simpl; [|done]. f_equal. lia.
Qed.

Lemma enc_emits_bind {A B} (m : EN A) (f : A -> EN B) b1 b2 a b :
  enc_emits m b1 a -> enc_emits (f a) b2 b -> enc_emits (m ≫= f) (b1 ++ b2) b.
Proof.
  intros H1 H2 e He. specialize (H1 e He). unfold mbind, ST_bind, st_bind.
  pose proof (len_nonneg b1). pose proof (len_nonneg b2).
  rewrite enc_room_left, len_app in *. destruct (enc_left e) as [k|] eqn:El.
  - destruct (Z.leb_spec (len b1) k).
    + destruct H1 as (e1 & -> & Hok & Ho & Hl & Hs & Hy). specialize (H2 e1 Hok).
      rewrite enc_room_left, Hl, El in H2. simpl in H2.
      destruct (Z.leb_spec (len b1 + len b2) k), (Z.leb_spec (len b2) (k - len b1)); try lia; [|done].
      destruct H2 as (e2 & -> & Hok2 & Ho2 & Hl2 & Hs2 & Hy2). exists e2. split; [done|].
      unfold enc_wrote. rewrite Ho2, Ho, app_assoc, Hl2, Hl, El, len_app. simpl.
      split_and!; try congruence. f_equal. lia.
    + destruct H1 as (err & e1 & -> & Hok).
      destruct (Z.leb_spec (len b1 + len b2) k); [lia|]. eauto.
  - destruct H1 as (e1 & -> & Hok & Ho & Hl & Hs & Hy). specialize (H2 e1 Hok).
    rewrite enc_room_left, Hl, El in H2. simpl in H2.
    destruct H2 as (e2 & -> & Hok2 & Ho2 & Hl2 & Hs2 & Hy2). exists e2. split; [done|].
    unfold enc_wrote. rewrite Ho2, Ho, app_assoc, Hl2, Hl, El. split_and!; try done; congruence.
Qed.

Lemma reserve_ok n e :
  0 <= n -> enc_writer e = None -> enc_ok e -> n <= enc_limit e - len (enc_data e) ->
  exists c, reserve n e = (Ok tt, set_data e (enc_data e) c) /\
            len (enc_data e) + n <= c <= enc_limit e.
Proof.
  intros Hn Hw He Hl. unfold enc_ok in He. rewrite Hw in He. unfold reserve.
  destruct (Z.ltb_spec n 0); [lia|]. destruct (Z.ltb_spec (enc_limit e - len (enc_data e)) n); [lia|].
  simpl. destruct (Z.leb_spec n (enc_cap e - len (enc_data e))).
  - exists (enc_cap e). split; [by destruct e|lia].
  - eexists. split; [done|]. pose proof (len_nonneg (enc_data e)). lia.
Qed.

Lemma reserve_err n e :
  enc_limit e - len (enc_data e) < n -> reserve n e = (Err ErrEncodedBytesLimit, e).
Proof.
  intros H. unfold reserve. rewrite (proj2 (Z.ltb_lt _ n) H). by rewrite orb_true_r.
Qed.

Lemma append_reserved e c p :
  enc_writer e = None -> len (enc_data e) + len p <= c <= enc_limit e ->
  exists e', append_data p (set_data e (enc_data e) c) = (Ok tt, e') /\ enc_wrote e e' p.
Proof.
  intros Hw Hc. eexists. split; [done|]. unfold enc_wrote, enc_ok, enc_out, enc_left; simpl.
  rewrite Hw, len_app. split_and!; try done; try lia. simpl. f_equal. lia.
Qed.

Lemma enc_emits_reserve_append n p :
  n = len p ->
  forall e, enc_ok e -> enc_writer e = None ->
    if enc_room e (len p)
    then exists e', (_ ← reserve n; append_data p) e = (Ok tt, e') /\ enc_wrote e e' p
    else exists err e', (_ ← reserve n; append_data p) e = (Err err, e') /\ enc_ok e'.
Proof.
  intros -> e He Hw. unfold enc_room. rewrite Hw. unfold mbind, ST_bind, st_bind.
  destruct (Z.leb_spec (len p) (enc_limit e - len (enc_data e))).
  - destruct (reserve_ok (len p) e) as (c & -> & Hc); try done; [apply len_nonneg|].
    by apply append_reserved.
  - rewrite reserve_err by done. eauto.
Qed.

Lemma enc_emits_Write p : enc_emits (Encoder_Write p) p tt.
Proof.
  intros e He. unfold Encoder_Write. destruct (enc_writer e) as [w|] eqn:Ew.
  - unfold enc_ok in He. rewrite Ew in He. pose proof (emits_Write p w He) as H.
    unfold enc_room. rewrite Ew. destruct (room w (len p)) eqn:Er.
    + rewrite H. eexists. split; [done|].
      unfold enc_wrote, enc_ok, enc_out, enc_left; simpl. rewrite Ew.
      split_and!; try done. by apply written_ok.
    + destruct w as [buf [k|]]; [|done]. unfold room in Er; simpl in Er.
      unfold Write; simpl. bools. rewrite (proj2 (Z.ltb_lt _ _)) by done. eauto.
  - by apply enc_emits_reserve_append.
Qed.

Lemma enc_emits_fixed n v :
  enc_emits (if_buffer (_ ← reserve (Z.of_nat n); append_data (le_put n v)) (Encoder_Write (le_put n v)))
    (le_put n v) tt.
Proof.
  intros e He. unfold if_buffer. destruct (enc_writer e) eqn:Ew.
  - by apply enc_emits_Write.
  - apply enc_emits_reserve_append; [by rewrite len_le_put|done..].
Qed.

Lemma enc_emits_Uint32 v : enc_emits (Encoder_WriteUint32 v) (le_put 4 v) tt.
Proof. apply (enc_emits_fixed 4). Qed.

Lemma enc_emits_Uint64 v : enc_emits (Encoder_WriteUint64 v) (le_put 8 v) tt.
Proof. apply (enc_emits_fixed 8). Qed.

Lemma enc_emits_ext {A} (m m' : EN A) bs a :
  (forall e, enc_ok e -> m e = m' e) -> enc_emits m' bs a -> enc_emits m bs a.
Proof. intros Heq H e He. rewrite Heq by done. by apply H. Qed.

(** Reserving the space of what follows changes nothing observable. *)
Lemma enc_emits_reserved {A} n (m : EN A) bs a :
  n = len bs -> enc_emits m bs a -> enc_emits (_ ← if_buffer (reserve n) (mret tt); m) bs a.
Proof.
  intros -> H e He. unfold mbind, ST_bind, st_bind, if_buffer.
  destruct (enc_writer e) as [w|] eqn:Ew; [by apply H|].
  pose proof (len_nonneg bs). rewrite enc_room_left. unfold enc_left. rewrite Ew.
  destruct (Z.leb_spec (len bs) (enc_limit e - len (enc_data e))).
  - destruct (reserve_ok (len bs) e) as (c & -> & Hc); try done.
    specialize (H (set_data e (enc_data e) c)).
    unfold enc_wrote, enc_ok, enc_out, enc_left, enc_room, set_data in *; simpl in *.
    rewrite Ew in *. rewrite (proj2 (Z.leb_le _ _)) in H by done. apply H. lia.
  - rewrite reserve_err by done. eauto.
Qed.

Lemma enc_emits_Int32 v : enc_emits (Encoder_WriteInt32 v) (enc_int32 v) tt.
Proof. apply enc_emits_Uint32. Qed.

Lemma enc_emits_Int64 v : enc_emits (Encoder_WriteInt64 v) (enc_int64 v) tt.
Proof. apply enc_emits_Uint64. Qed.

Lemma enc_emits_Bool (v : bool) :
  enc_emits (Encoder_WriteBool v) (le_put 4 (if v then BoolTrue else BoolFalse)) tt.
Proof. destruct v; apply enc_emits_Uint32. Qed.

Definition bytes_prefix (n : Z) : bytes :=
  if n <? 254 then [bZ n] else [bZ 254; bZ n; bZ (Z.shiftr n 8); bZ (Z.shiftr n 16)].

Lemma enc_bytes_split v :
  enc_bytes v = bytes_prefix (len v) ++ v ++ zeros (Z.to_nat (padding4 (len (bytes_prefix (len v)) + len v))).
Proof.
  unfold enc_bytes, bytes_prefix. destruct (Z.ltb_spec (len v) 254); [done|].
  rewrite (Z.shiftr_div_pow2 _ 8), (Z.shiftr_div_pow2 _ 16) by lia.
  change (2 ^ 16) with (256 * 256). rewrite <- Z.div_div by lia. done.
Qed.

Lemma enc_emits_WriteBytes v :
  len v <= MaxTLBytesLength -> enc_emits (Encoder_WriteBytes v) (enc_bytes v) tt.
Proof.
  intros Hv. pose proof (len_nonneg v). rewrite enc_bytes_split.
  remember (padding4 (len (bytes_prefix (len v)) + len v)) as pad eqn:Ep.
  pose proof (padding4_range (len (bytes_prefix (len v)) + len v)) as Hpad. rewrite <- Ep in Hpad.
  assert (Hpre : len (bytes_prefix (len v)) = if len v <? 254 then 1 else 4)
    by (unfold bytes_prefix; by case_match).
  apply (enc_emits_ext _
    (_ ← if_buffer (reserve ((if len v <? 254 then 1 else 4) + len v + pad)) (mret tt);
     _ ← Encoder_Write (bytes_prefix (len v)); _ ← Encoder_Write v; padding pad)).
  - intros e _. unfold Encoder_WriteBytes, bytesHeader.
    rewrite (proj2 (Z.ltb_ge (len v) 0)), (proj2 (Z.ltb_ge _ (len v))) by done.
    rewrite <- Hpre, <- Ep. simpl. fold (bytes_prefix (len v)).
    unfold mbind, ST_bind, st_bind, mret, ST_ret, st_ret.
    by destruct (if_buffer _ _ e) as [[]?]; [destruct (Encoder_Write _ _) as [[]?]|].
  - apply enc_emits_reserved.
    + rewrite !len_app, len_zeros, Hpre. lia.
    + apply enc_emits_bind with tt; [apply enc_emits_Write|].
      apply enc_emits_bind with tt; apply enc_emits_Write.
Qed.

(** The string form skips the reservation its header already made. *)
Lemma WriteString_WriteBytes v e :
  enc_ok e -> len v <= MaxTLBytesLength -> Encoder_WriteString v e = Encoder_WriteBytes v e.
Proof.
  intros He Hv. unfold Encoder_WriteString, Encoder_WriteBytes, bytesHeader.
  pose proof (len_nonneg v).
  rewrite (proj2 (Z.ltb_ge (len v) 0)), (proj2 (Z.ltb_ge _ (len v))) by done.
  simpl. fold (bytes_prefix (len v)).
  assert (Hpre : len (bytes_prefix (len v)) = if len v <? 254 then 1 else 4)
    by (unfold bytes_prefix; by case_match).
  rewrite <- Hpre. remember (padding4 (len (bytes_prefix (len v)) + len v)) as pad eqn:Ep.
  pose proof (padding4_range (len (bytes_prefix (len v)) + len v)) as Hpad. rewrite <- Ep in Hpad.
  unfold mbind, ST_bind, st_bind, mret, ST_ret, st_ret, if_buffer, Encoder_Write, append_data.
  destruct (enc_writer e) as [w|] eqn:Ew; [by rewrite Ew; repeat case_match; simplify_eq|].
  pose proof (len_nonneg (bytes_prefix (len v))).
  destruct (Z.le_gt_cases (len (bytes_prefix (len v)) + len v + pad) (enc_limit e - len (enc_data e))).
  - destruct (reserve_ok (len (bytes_prefix (len v)) + len v + pad) e) as (c & -> & Hc); try done; [lia|].
    cbn. rewrite Ew. unfold mbind, ST_bind, st_bind.
    assert (Hr : forall n d, 0 <= n -> len d + n <= c ->
              reserve n (set_data e d c) = (Ok tt, set_data e d c)).
    { intros n d Hn Hd. unfold reserve. simpl.
      rewrite (proj2 (Z.ltb_ge n 0)), (proj2 (Z.ltb_ge _ n)) by lia. simpl.
      by rewrite (proj2 (Z.leb_le _ _)) by lia. }
    rewrite Hr by lia. cbn. rewrite Ew.
    change (set_data (set_data e (enc_data e) c) ?d c) with (set_data e d c).
    rewrite Hr by (rewrite ?len_app; lia). done.
  - rewrite reserve_err by lia. done.
Qed.

Lemma enc_emits_WriteString v :
  len v <= MaxTLBytesLength -> enc_emits (Encoder_WriteString v) (enc_bytes v) tt.
Proof.
  intros. eapply enc_emits_ext; [|by apply enc_emits_WriteBytes].
  intros. by apply WriteString_WriteBytes.
Qed.

Lemma enc_emits_VectorHeader n :
  0 <= n <= MaxInt32 ->
  enc_emits (Encoder_WriteVectorHeader n) (le_put 4 VectorConstructorID ++ enc_int32 n) tt.
Proof.
  intros Hn. unfold Encoder_WriteVectorHeader.
  rewrite (proj2 (Z.ltb_ge n 0)), (proj2 (Z.ltb_ge _ n)) by lia. cbn [orb].
  unfold MaxInt32 in Hn. rewrite wrapS_id by (unfold inS; lia).
  apply enc_emits_bind with tt; [apply enc_emits_Uint32|apply enc_emits_Int32].
Qed.

Lemma NewBufferEncoder_ok layer k e : NewBufferEncoder layer k = Ok e -> enc_ok e.
Proof.
  unfold NewBufferEncoder. intros H. case_match; [done|]. bools. simplify_eq.
  unfold enc_ok, len, DefaultMaxDecodedBytes; simpl. case_match; lia.
Qed.

Lemma agrees_dec_ok {A} (m : DE A) s d a d' :
  agrees m s -> dec_ok d -> m d = (Ok a, d') -> dec_ok d'.
Proof. intros H Hd E. specialize (H d Hd). rewrite E in H. case_match. case_match; naive_solver. Qed.

Lemma consumeVectorElements_dec_ok n d u d' :
  dec_ok d -> Decoder_consumeVectorElements n d = (Ok u, d') -> dec_ok d'.
Proof.
  unfold Decoder_consumeVectorElements, via_reader, consumeVectorElements, with_budget, dec_ok.
  intros (Ho & Hr & Hs) H. simpl in H.
  destruct (_ <? _) in H; simplify_eq; cbn in *; simplify_eq; cbn.
  rewrite length_drop. unfold remaining, charge_bytes, charge_vector in *; cbn in *.
  split_and!; [lia..|]. intros Hf. destruct (Hs Hf) as [? ->]. split; [done|lia].
Qed.

(** A count that [ReadVectorCount] lets through. *)
Lemma ReadVectorCount_inv mx mn d count d' :
  dec_ok d -> ReadVectorCount mx mn d = (Ok count, d') ->
  0 <= count <= mx /\ (0 < mn -> count <= Z.quot (available d') mn) /\ dec_ok d'.
Proof.
  intros Hd. unfold ReadVectorCount, checkVectorBytes, mbind, ST_bind, st_bind, st_err.
  case_match; [done|]. destruct (Decoder_ReadUint32 d) as [[ctor|] d1] eqn:E1; [|done].
  pose proof (agrees_dec_ok _ _ _ _ _ agrees_ReadUint32 Hd E1) as Hd1. case_match; [done|].
  destruct (Decoder_ReadInt32 d1) as [[n|] d2] eqn:E2; [|done].
  pose proof (agrees_dec_ok _ _ _ _ _ agrees_ReadInt32 Hd1 E2) as Hd2. case_match; [done|].
  destruct (Decoder_consumeVectorElements n d2) as [[[]|] d3] eqn:E3; [|done].
  pose proof (consumeVectorElements_dec_ok _ _ _ _ Hd2 E3) as Hd3.
  intros Hok. case_match; simplify_eq; bools; split_and!; try done; lia.
Qed.

(** * Properties *)

(** C30. Every typed read of the Decoder agrees with the package's stream
    function, in its buffer form and over a stream of known or unknown length,
    also one that replays a prefix: a value the Decoder returns is the value the
    stream function returns, with the same bytes left and the same budget. Both
    succeed on the same inputs, except that while a PrependReader still has
    bytes to replay, which the stream does not charge, the Decoder refuses a
    read of more bytes than the budget has left. *)
Theorem Decoder_agrees_with_stream :
  agrees Decoder_ReadUint32 ReadUint32 /\ agrees Decoder_ReadInt32 ReadInt32 /\
  agrees Decoder_ReadUint64 ReadUint64 /\ agrees Decoder_ReadInt64 ReadInt64 /\
  agrees Decoder_ReadDouble ReadDouble /\ agrees Decoder_ReadBool ReadBool /\
  agrees Decoder_ReadInt128 ReadInt128 /\ agrees Decoder_ReadInt256 ReadInt256 /\
  agrees Decoder_ReadBytes ReadBytes /\ agrees Decoder_ReadString ReadString.
Proof.
  split_and!; auto using agrees_ReadUint32, agrees_ReadInt32, agrees_ReadUint64, agrees_ReadInt64,
    agrees_ReadBool, agrees_byteSpan.
  - apply (agrees_take 16).
  - apply (agrees_take 32).
Qed.

(** The Decoders that the constructors make are among those of the theorem. *)
Lemma NewDecoder_ok sized p layer d :
  match rd_budget (parent p) with Some b => 0 <= remaining b | None => True end ->
  NewDecoder sized p layer = Ok d -> dec_ok d /\
  match rd_budget (parent p) with Some _ => dec_reader d = replayed p | None => True end.
Proof.
  unfold NewDecoder, default_budget. destruct p as [pre [data [b|]]]; cbn; intros Hb [= <-];
    unfold dec_ok; cbn; split_and!; rewrite ?length_app; try done; lia.
Qed.

Lemma NewDecoderBytes_ok data layer b d :
  match b with Some b => 0 <= remaining b | None => True end ->
  NewDecoderBytes data layer b = Ok d -> dec_ok d.
Proof.
  unfold NewDecoderBytes, default_budget. destruct b as [b|]; cbn; intros Hb [= <-];
    unfold dec_ok; cbn; split_and!; done || lia.
Qed.

Definition small_budget (n : Z) : DecodeBudget :=
  {| limits := {| MaxDecodedBytes := n; MaxWrappers := 1; MaxContainers := 1;
                  LimVectorElements := 4; MaxObjectNodes := 4; MaxObjectDepth := 4;
                  MaxGzipRatio := 1; MaxGzipWorkBytes := 64 |};
     decodedBytes := 0; wrapperCount := 0; containerCount := 0;
     vectorElements := 0; objectNodes := 0; objectDepth := 0; gzipWorkBytes := 0 |}.

(** The exception is real: of a replayed constructor that was the whole of the
    budget, the stream function reads the four bytes and a Decoder does not. *)
Lemma replayed_constructor_refused :
  let p := PrependReader (le_put 4 VectorConstructorID) (Reader [] (Some (small_budget 0))) in
  (ReadUint32 (replayed p)).1 = Ok VectorConstructorID /\
  exists d, NewDecoder true p 0 = Ok d /\ (Decoder_ReadUint32 d).1 = Err ErrDecodedBytesLimit.
Proof.
  split; [vm_compute; reflexivity|]. eexists. split; [reflexivity|]. vm_compute; reflexivity.
Qed.

(** A vector count the Decoder accepts is within the caller's bound, and
    that many elements of the declared minimum size fit in the bytes that can
    still be read: allocating for it is bounded by the remaining budget, and by
    the remaining input where its length is known. *)
Lemma ReadVectorCount_bounded mx mn d count d' :
  dec_ok d -> 0 < mn -> ReadVectorCount mx mn d = (Ok count, d') ->
  0 <= count <= mx /\ count * mn <= available d' <= remaining (dec_budget d') /\
  (dec_sized d' = true -> available d' <= unread d').
Proof.
  intros Hd Hmn H. destruct (ReadVectorCount_inv _ _ _ _ _ Hd H) as (Hc & Hq & Ho & Hr & _).
  split; [done|]. specialize (Hq Hmn).
  assert (0 <= available d' <= remaining (dec_budget d'))
    by (unfold available, physicalLen, unread, len; case_match; simplify_eq; repeat case_match; simplify_eq; lia).
  pose proof (Z.mul_quot_le (available d') mn). split; [nia|].
  intros Hs. unfold available, physicalLen. rewrite Hs. lia.
Qed.

Definition sample_decoder : Decoder :=
  {| dec_stream := false; dec_sized := true;
     dec_data := le_put 4 VectorConstructorID ++ enc_int32 2 ++ zeros 9;
     dec_offset := 0; dec_uncharged := 0; dec_layer := 0; dec_budget := small_budget 64 |}.

Lemma ReadVectorCount_bounded_witness :
  ReadVectorCount 8 4 sample_decoder = (Ok 2, (ReadVectorCount 8 4 sample_decoder).2) /\
  2 * 4 <= available (ReadVectorCount 8 4 sample_decoder).2.
Proof.
  assert (E : ReadVectorCount 8 4 sample_decoder = (Ok 2, (ReadVectorCount 8 4 sample_decoder).2))
    by (vm_compute; reflexivity).
  split; [exact E|].
  refine (proj1 (proj1 (proj2 (ReadVectorCount_bounded 8 4 sample_decoder 2 _ _ _ E)))).
  - split; [apply Nat.leb_le; vm_compute; reflexivity|].
    split; [apply Z.leb_le; vm_compute; reflexivity|done].
  - apply Z.ltb_lt. reflexivity.
Defined.

(** In its buffer form as in its stream form, each Encoder write appends
    exactly the bytes the stream function writes when the encoder has room for
    them and fails otherwise, and the buffer's length and allocated capacity
    never pass the encoder's limit, also after a failure. *)
Lemma Encoder_emits_stream_bytes :
  (forall layer k e, NewBufferEncoder layer k = Ok e -> enc_ok e) /\
  (forall v bs, emits (WriteUint32 v) bs -> enc_emits (Encoder_WriteUint32 v) bs tt) /\
  (forall v bs, emits (WriteInt32 v) bs -> enc_emits (Encoder_WriteInt32 v) bs tt) /\
  (forall v bs, emits (WriteInt64 v) bs -> enc_emits (Encoder_WriteInt64 v) bs tt) /\
  (forall v bs, emits (WriteBool v) bs -> enc_emits (Encoder_WriteBool v) bs tt) /\
  (forall v bs, emits (WriteBytes v) bs -> enc_emits (Encoder_WriteBytes v) bs tt) /\
  (forall v bs, emits (WriteString v) bs -> enc_emits (Encoder_WriteString v) bs tt) /\
  (forall n bs, 0 <= n <= MaxInt32 ->
     emits (WriteVectorHeader n) bs -> enc_emits (Encoder_WriteVectorHeader n) bs tt).
Proof.
  split; [exact NewBufferEncoder_ok|].
  split_and!; intros v bs H.
  - rewrite (emits_det _ _ _ H (emits_WriteUint32 v)). apply enc_emits_Uint32.
  - rewrite (emits_det _ _ _ H (emits_WriteInt32 v)). apply enc_emits_Int32.
  - rewrite (emits_det _ _ _ H (emits_WriteInt64 v)). apply enc_emits_Int64.
  - rewrite (emits_det _ _ _ H (emits_WriteBool v)). apply enc_emits_Bool.
  - pose proof (emits_WriteBytes_short _ _ H) as Hv.
    rewrite (emits_det _ _ _ H (emits_WriteBytes v Hv)). by apply enc_emits_WriteBytes.
  - pose proof (emits_WriteBytes_short _ _ H) as Hv.
    rewrite (emits_det _ _ _ H (emits_WriteBytes v Hv)). by apply enc_emits_WriteString.
  - intros H'. rewrite (emits_det _ _ _ H' (emits_WriteVectorHeader v ltac:(unfold inS, MaxInt32 in *; lia))).
    by apply enc_emits_VectorHeader.
Qed.
