(* ===== verification/Validator.v ===== *)
(** The receive-side validator of mtproto/protocol/validator.go: message
    identifiers, client sequence numbers, salts and sessions, with the bounded
    duplicate-detection state and its snapshots.  [time.Time] values are
    nanoseconds since the epoch; every call of the clock is an argument. *)

From stdpp Require Import base numbers list gmap strings.
From S2P Require Import Prelude.
Open Scope Z_scope.

(** * Codes and errors *)

Definition CodeMessageIDTooLow : Z := 16.
Definition CodeMessageIDTooHigh : Z := 17.
Definition CodeMessageIDFormat : Z := 18.
Definition CodeSequenceNoTooLow : Z := 32.
Definition CodeSequenceNoTooHigh : Z := 33.
Definition CodeExpectedEvenSequenceNo : Z := 34.
Definition CodeExpectedOddSequenceNo : Z := 35.
Definition CodeBadServerSalt : Z := 48.
Definition CodeInvalidContainer : Z := 64.
Definition CodeReplayMessageID : Z := CodeSequenceNoTooLow.
Definition CodeSessionIDMismatch : Z := CodeInvalidContainer.

Definition DefaultRecentMessageIDLimit : Z := 64.
Definition MaxRecentMessageIDLimit : Z := 4096.
Definition DefaultContentSequenceLimit : Z := 64.
Definition MaxContentSequenceLimit : Z := 4096.

Definition Second : Z := 10 ^ 9.
Definition clientMessagePastWindow : Z := 300 * Second.
Definition clientMessageFutureWindow : Z := 30 * Second.

Inductive bad_cause :=
| ErrSessionIDMismatch | ErrBadServerSalt
| ErrMessageIDTooLow | ErrMessageIDTooHigh | ErrMessageIDFormat | ErrReplayMessageID
| ErrSequenceNoTooLow | ErrSequenceNoTooHigh
| ErrExpectedNonContentSequence | ErrExpectedContentSequence.

Record BadMessageError := {
  bm_MessageID : Z;
  bm_SequenceNo : Z;
  bm_Code : Z;
  bm_ExpectedServerSalt : Z;
  bm_Cause : bad_cause
}.

Inductive validation_error :=
| BadMessage (e : BadMessageError)
| ErrInvalidMessageKind
| ErrInvalidConfig.

(** * Data *)

(** [MessageKind] is a uint8; only three values are valid. *)
Definition ContentRelated : Z := 1.
Definition NonContentRelated : Z := 2.
Definition Container : Z := 3.

Record ContainerMessage := {
  cm_MessageID : Z;
  cm_SequenceNo : Z;
  cm_Kind : Z
}.

Record Message := {
  m_ServerSalt : Z;
  m_SessionID : Z;
  m_MessageID : Z;
  m_SequenceNo : Z;
  m_Kind : Z;
  m_Children : list ContainerMessage
}.

Record Config := {
  cfg_SessionID : Z;
  cfg_ServerSalt : Z;
  cfg_SequenceNo : Z;
  cfg_HighestMessageID : Z;
  cfg_MessageIDFloor : Z;
  cfg_RecentMessageIDs : list Z;
  cfg_RecentMessageIDLimit : Z;
  cfg_RecentSequenceNos : list Z;
  cfg_ContentSequenceLimit : Z
}.

Record Snapshot := {
  sn_SessionID : Z;
  sn_ServerSalt : Z;
  sn_SequenceNo : Z;
  sn_HighestMessageID : Z;
  sn_MessageIDFloor : Z;
  sn_RecentMessageIDs : list Z;
  sn_RecentSequenceNos : list Z
}.

Record validatorState := {
  sessionID : Z;
  serverSalt : Z;
  sequenceNo : Z;
  highestMessageID : Z;
  messageIDFloor : Z;
  recentIDs : list Z;
  recentSet : gset Z;
  recentSeqNos : list Z;
  recentSeqSet : gset Z
}.

Record Validator := {
  messageIDLimit : Z;
  sequenceLimit : Z;
  state : validatorState
}.

(** Field updates. *)
Definition set_session (i : Z) (s : validatorState) : validatorState :=
  {| sessionID := i; serverSalt := serverSalt s; sequenceNo := sequenceNo s;
     highestMessageID := highestMessageID s; messageIDFloor := messageIDFloor s;
     recentIDs := recentIDs s; recentSet := recentSet s; recentSeqNos := recentSeqNos s;
     recentSeqSet := recentSeqSet s |}.
Definition set_salt (v : Z) (s : validatorState) : validatorState :=
  {| sessionID := sessionID s; serverSalt := v; sequenceNo := sequenceNo s;
     highestMessageID := highestMessageID s; messageIDFloor := messageIDFloor s;
     recentIDs := recentIDs s; recentSet := recentSet s; recentSeqNos := recentSeqNos s;
     recentSeqSet := recentSeqSet s |}.
Definition set_sequence (n : Z) (s : validatorState) : validatorState :=
  {| sessionID := sessionID s; serverSalt := serverSalt s; sequenceNo := n;
     highestMessageID := highestMessageID s; messageIDFloor := messageIDFloor s;
     recentIDs := recentIDs s; recentSet := recentSet s; recentSeqNos := recentSeqNos s;
     recentSeqSet := recentSeqSet s |}.
Definition set_highest (i : Z) (s : validatorState) : validatorState :=
  {| sessionID := sessionID s; serverSalt := serverSalt s; sequenceNo := sequenceNo s;
     highestMessageID := i; messageIDFloor := messageIDFloor s;
     recentIDs := recentIDs s; recentSet := recentSet s; recentSeqNos := recentSeqNos s;
     recentSeqSet := recentSeqSet s |}.
Definition set_ids (floor : Z) (ids : list Z) (idset : gset Z) (s : validatorState) : validatorState :=
  {| sessionID := sessionID s; serverSalt := serverSalt s; sequenceNo := sequenceNo s;
     highestMessageID := highestMessageID s; messageIDFloor := floor;
     recentIDs := ids; recentSet := idset; recentSeqNos := recentSeqNos s;
     recentSeqSet := recentSeqSet s |}.
Definition set_seqs (ns : list Z) (nset : gset Z) (s : validatorState) : validatorState :=
  {| sessionID := sessionID s; serverSalt := serverSalt s; sequenceNo := sequenceNo s;
     highestMessageID := highestMessageID s; messageIDFloor := messageIDFloor s;
     recentIDs := recentIDs s; recentSet := recentSet s; recentSeqNos := ns; recentSeqSet := nset |}.

(** * Operations *)

Definition validKind (kind : Z) : bool :=
  (kind =? ContentRelated) || (kind =? NonContentRelated) || (kind =? Container).

Definition badMessage {A} (messageID seqNo code expectedSalt : Z) (cause : bad_cause)
  : result validation_error A :=
  Err (BadMessage {| bm_MessageID := messageID; bm_SequenceNo := seqNo; bm_Code := code;
                     bm_ExpectedServerSalt := expectedSalt; bm_Cause := cause |}).

Definition clone (s : validatorState) : validatorState :=
  set_seqs (recentSeqNos s) (list_to_set (recentSeqNos s))
    (set_ids (messageIDFloor s) (recentIDs s) (list_to_set (recentIDs s)) s).

(** The scan for the index of the smallest identifier. *)
Fixpoint minimum_scan (ids : list Z) (index minimumIndex : nat) (minimum : Z) : nat :=
  match ids with
  | [] => minimumIndex
  | id :: ids' =>
      if id <? minimum then minimum_scan ids' (S index) index id
      else minimum_scan ids' (S index) minimumIndex minimum
  end.

Definition minimum_index (ids : list Z) : nat :=
  match ids with [] => 0%nat | id :: ids' => minimum_scan ids' 1 0 id end.

(** [copy(s[i:], s[i+1:])] and dropping the last element. *)
Definition remove_at (i : nat) (l : list Z) : list Z := take i l ++ drop (S i) l.

Definition rememberMessageID (messageID limit : Z) (s : validatorState) : validatorState :=
  let s :=
    if len (recentIDs s) =? limit then
      let minimumIndex := minimum_index (recentIDs s) in
      let minimum := default 0 (recentIDs s !! minimumIndex) in
      set_ids (if messageIDFloor s <? minimum then minimum else messageIDFloor s)
        (remove_at minimumIndex (recentIDs s)) (recentSet s ∖ {[minimum]}) s
    else s in
  if messageID <=? messageIDFloor s then s
  else set_ids (messageIDFloor s) (recentIDs s ++ [messageID]) (recentSet s ∪ {[messageID]}) s.

Definition rememberSequenceNo (n limit : Z) (s : validatorState) : validatorState :=
  if bool_decide (n ∈ recentSeqSet s) then s
  else
    let s :=
      if len (recentSeqNos s) =? limit then
        set_seqs (drop 1 (recentSeqNos s)) (recentSeqSet s ∖ {[default 0 (head (recentSeqNos s))]}) s
      else s in
    set_seqs (recentSeqNos s ++ [n]) (recentSeqSet s ∪ {[n]}) s.

(** [minimum] of pruneSequenceNos, an int32. *)
Definition prune_minimum (limit : Z) (s : validatorState) : Z :=
  int32 (int32 (sequenceNo s - int32 (limit * 2)) + 1).

Definition pruneSequenceNos (limit : Z) (s : validatorState) : validatorState :=
  let minimum := prune_minimum limit s in
  set_seqs (filter (fun n => minimum <= n) (recentSeqNos s))
    (recentSeqSet s ∖ list_to_set (filter (fun n => n < minimum) (recentSeqNos s))) s.

Definition validateMessageID (now : Z) (s : validatorState) (messageID seqNo : Z)
  : result validation_error unit :=
  if negb (Z.rem messageID 4 =? 0) || (uint32 messageID =? 0) then
    badMessage messageID seqNo CodeMessageIDFormat (serverSalt s) ErrMessageIDFormat
  else
    let messageTime := Z.shiftr messageID 32 * Second in
    if messageTime <? now - clientMessagePastWindow then
      badMessage messageID seqNo CodeMessageIDTooLow (serverSalt s) ErrMessageIDTooLow
    else if now + clientMessageFutureWindow <? messageTime then
      badMessage messageID seqNo CodeMessageIDTooHigh (serverSalt s) ErrMessageIDTooHigh
    else if (messageID <=? messageIDFloor s) || (messageID =? highestMessageID s) ||
            bool_decide (messageID ∈ recentSet s) then
      badMessage messageID seqNo CodeReplayMessageID (serverSalt s) ErrReplayMessageID
    else Ok tt.

Definition validateSequenceNo (limit : Z) (s : validatorState) (messageID seqNo kind : Z)
  : result validation_error unit :=
  let bad := badMessage messageID seqNo in
  if seqNo <? 0 then bad CodeSequenceNoTooLow (serverSalt s) ErrSequenceNoTooLow
  else if kind =? Container then
    if negb (Z.land seqNo 1 =? 0)
    then bad CodeExpectedEvenSequenceNo (serverSalt s) ErrExpectedNonContentSequence
    else Ok tt
  else
    let contentRelated := kind =? ContentRelated in
    if contentRelated && (seqNo =? MaxInt32) then
      bad CodeSequenceNoTooHigh (serverSalt s) ErrSequenceNoTooHigh
    else
      let expected := if contentRelated then int32 (sequenceNo s + 1) else sequenceNo s in
      if seqNo =? expected then Ok tt
      else if negb contentRelated && (Z.land seqNo 1 =? 0) && (seqNo <? expected) then Ok tt
      else if negb (Z.land seqNo 1 =? 0) && negb contentRelated then
        bad CodeExpectedEvenSequenceNo (serverSalt s) ErrExpectedNonContentSequence
      else if (Z.land seqNo 1 =? 0) && contentRelated then
        bad CodeExpectedOddSequenceNo (serverSalt s) ErrExpectedContentSequence
      else if negb contentRelated then Ok tt
      else if (sequenceNo s =? 0) && (len (recentSeqNos s) =? 0) then Ok tt
      else if bool_decide (seqNo ∈ recentSeqSet s) then
        bad CodeSequenceNoTooLow (serverSalt s) ErrSequenceNoTooLow
      else
        let minimum := sequenceNo s - limit * 2 + 1 in
        let minimum := if minimum <? 1 then 1 else minimum in
        if seqNo <? minimum then bad CodeSequenceNoTooLow (serverSalt s) ErrSequenceNoTooLow
        else
          let maximum := sequenceNo s + limit * 2 + 1 in
          if maximum <? seqNo then bad CodeSequenceNoTooHigh (serverSalt s) ErrSequenceNoTooHigh
          else Ok tt.

(** The state changes of [validateOne] once both checks passed. *)
Definition record_one (v : Validator) (s : validatorState) (messageID seqNo kind : Z) : validatorState :=
  let s := if highestMessageID s <? messageID then set_highest messageID s else s in
  let s := if (kind =? ContentRelated) && (int32 (sequenceNo s + 1) <=? seqNo)
           then set_sequence (int32 (seqNo + 1)) s else s in
  let s := if kind =? ContentRelated
           then rememberSequenceNo seqNo (sequenceLimit v) (pruneSequenceNos (sequenceLimit v) s)
           else s in
  rememberMessageID messageID (messageIDLimit v) s.

Definition validateOne (now : Z) (v : Validator) (s : validatorState) (messageID seqNo kind : Z)
  : result validation_error validatorState :=
  if negb (validKind kind) then Err ErrInvalidMessageKind
  else
    _ ← validateMessageID now s messageID seqNo;
    _ ← validateSequenceNo (sequenceLimit v) s messageID seqNo kind;
    mret (record_one v s messageID seqNo kind).

(** The children in wire order; [clock i] is the clock at child [i]. *)
Fixpoint validateChildren (clock : nat -> Z) (v : Validator) (s : validatorState)
    (children : list ContainerMessage) : result validation_error validatorState :=
  match children with
  | [] => Ok s
  | child :: children' =>
      if (cm_Kind child =? Container) || negb (validKind (cm_Kind child))
      then Err ErrInvalidMessageKind
      else
        s' ← validateOne (clock 0%nat) v s (cm_MessageID child) (cm_SequenceNo child) (cm_Kind child);
        validateChildren (fun i => clock (S i)) v s' children'
  end.

Definition validateEnvelope (clock : nat -> Z) (v : Validator) (s : validatorState) (m : Message)
  : result validation_error validatorState :=
  if (m_SessionID m =? 0) || (negb (sessionID s =? 0) && negb (m_SessionID m =? sessionID s)) then
    badMessage (m_MessageID m) (m_SequenceNo m) CodeSessionIDMismatch (serverSalt s) ErrSessionIDMismatch
  else if negb (m_ServerSalt m =? serverSalt s) then
    badMessage (m_MessageID m) (m_SequenceNo m) CodeBadServerSalt (serverSalt s) ErrBadServerSalt
  else if negb (m_Kind m =? Container) && negb (len (m_Children m) =? 0) then Err ErrInvalidMessageKind
  else
    s ← validateOne (clock 0%nat) v s (m_MessageID m) (m_SequenceNo m) (m_Kind m);
    s ← (if m_Kind m =? Container
         then validateChildren (fun i => clock (S i)) v s (m_Children m) else mret s);
    mret (if sessionID s =? 0 then set_session (m_SessionID m) s else s).

Definition set_state (v : Validator) (s : validatorState) : Validator :=
  {| messageIDLimit := messageIDLimit v; sequenceLimit := sequenceLimit v; state := s |}.

Definition Validate (clock : nat -> Z) (m : Message) : ST Validator validation_error unit := fun v =>
  match validateEnvelope clock v (clone (state v)) m with
  | Err e => (Err e, v)
  | Ok candidate => (Ok tt, set_state v candidate)
  end.

Definition SetServerSalt (salt : Z) (v : Validator) : Validator :=
  set_state v (set_salt salt (state v)).

Definition Snapshot_of (v : Validator) : Snapshot :=
  let s := state v in
  {| sn_SessionID := sessionID s; sn_ServerSalt := serverSalt s; sn_SequenceNo := sequenceNo s;
     sn_HighestMessageID := highestMessageID s; sn_MessageIDFloor := messageIDFloor s;
     sn_RecentMessageIDs := recentIDs s; sn_RecentSequenceNos := recentSeqNos s |}.

(** The two restoring loops of NewValidator. *)
Definition restore_id (limit : Z) (s : validatorState) (id : Z) : validatorState :=
  if id <=? messageIDFloor s then s
  else if bool_decide (id ∈ recentSet s) then s
  else
    let s := rememberMessageID id limit s in
    if highestMessageID s <? id then set_highest id s else s.

Definition restore_seq (limit : Z) (s : validatorState) (n : Z) : validatorState :=
  if (n <? prune_minimum limit s) || (Z.land n 1 =? 0) || (int32 (sequenceNo s + 1) <=? n) then s
  else rememberSequenceNo n limit s.

Definition NewValidator (c : Config) : result validation_error Validator :=
  let limit := if cfg_RecentMessageIDLimit c =? 0 then DefaultRecentMessageIDLimit
               else cfg_RecentMessageIDLimit c in
  if (limit <? 1) || (MaxRecentMessageIDLimit <? limit) then Err ErrInvalidConfig
  else
    let slimit := if cfg_ContentSequenceLimit c =? 0 then DefaultContentSequenceLimit
                  else cfg_ContentSequenceLimit c in
    if (slimit <? 1) || (MaxContentSequenceLimit <? slimit) then Err ErrInvalidConfig
    else if (cfg_SequenceNo c <? 0) || negb (Z.land (cfg_SequenceNo c) 1 =? 0) then Err ErrInvalidConfig
    else
      let s := {| sessionID := cfg_SessionID c; serverSalt := cfg_ServerSalt c;
                  sequenceNo := cfg_SequenceNo c; highestMessageID := cfg_HighestMessageID c;
                  messageIDFloor := cfg_MessageIDFloor c; recentIDs := []; recentSet := ∅;
                  recentSeqNos := []; recentSeqSet := ∅ |} in
      let s := foldl (restore_id limit) s (cfg_RecentMessageIDs c) in
      let s := foldl (restore_seq slimit) s (cfg_RecentSequenceNos c) in
      Ok {| messageIDLimit := limit; sequenceLimit := slimit; state := pruneSequenceNos slimit s |}.

(** The configuration that restores a snapshot under the same limits. *)
Definition restore_config (v : Validator) (sn : Snapshot) : Config :=
  {| cfg_SessionID := sn_SessionID sn; cfg_ServerSalt := sn_ServerSalt sn;
     cfg_SequenceNo := sn_SequenceNo sn; cfg_HighestMessageID := sn_HighestMessageID sn;
     cfg_MessageIDFloor := sn_MessageIDFloor sn; cfg_RecentMessageIDs := sn_RecentMessageIDs sn;
     cfg_RecentMessageIDLimit := messageIDLimit v; cfg_RecentSequenceNos := sn_RecentSequenceNos sn;
     cfg_ContentSequenceLimit := sequenceLimit v |}.

(** * Invariant *)

Record ids_ok (limit : Z) (s : validatorState) : Prop := {
  ids_nodup : NoDup (recentIDs s);
  ids_set : recentSet s = list_to_set (recentIDs s);
  ids_len : len (recentIDs s) <= limit;
  ids_range : forall id, id ∈ recentIDs s -> messageIDFloor s < id <= highestMessageID s
}.

(** The remembered sequence numbers are odd and lie in the window of [limit]
    odd numbers below the even base. *)
Record seqs_ok (limit : Z) (s : validatorState) : Prop := {
  seqs_nodup : NoDup (recentSeqNos s);
  seqs_set : recentSeqSet s = list_to_set (recentSeqNos s);
  seqs_window : forall n, n ∈ recentSeqNos s ->
    n mod 2 = 1 /\ sequenceNo s - 2 * limit < n < sequenceNo s;
  seqs_base : sequenceNo s mod 2 = 0 /\ 0 <= sequenceNo s < 2 ^ 31
}.

Record wf (v : Validator) : Prop := {
  wf_idlimit : 1 <= messageIDLimit v <= MaxRecentMessageIDLimit;
  wf_seqlimit : 1 <= sequenceLimit v <= MaxContentSequenceLimit;
  wf_ids : ids_ok (messageIDLimit v) (state v);
  wf_seqs : seqs_ok (sequenceLimit v) (state v)
}.

(** What the state refuses as already seen. *)
Definition known_id (s : validatorState) (id : Z) : Prop :=
  id <= messageIDFloor s \/ id ∈ recentIDs s.

Definition known_seq (limit : Z) (s : validatorState) (n : Z) : Prop :=
  n <= sequenceNo s - 2 * limit \/ n ∈ recentSeqNos s.

(** ** Lemmas *)

Lemma land1 n : Z.land n 1 = n mod 2.
Proof. change 1 with (Z.ones 1) at 1. by rewrite Z.land_ones. Qed.

Lemma minimum_scan_spec l pre ids mi m :
  l = pre ++ ids -> l !! mi = Some m ->
  exists m', l !! minimum_scan ids (length pre) mi m = Some m' /\ m' <= m /\ forall x, x ∈ ids -> m' <= x.
Proof.
  revert pre mi m. induction ids as [|id ids IH]; intros pre mi m -> Hm; simpl.
  - exists m. split; [done|]. split; [lia|]. intros x Hx. by apply elem_of_nil in Hx.
  - assert (Hl : pre ++ id :: ids = (pre ++ [id]) ++ ids) by by rewrite <- app_assoc.
    assert (Hs : length (pre ++ [id]) = S (length pre)) by (rewrite length_app; simpl; lia).
    destruct (Z.ltb_spec id m).
    + destruct (IH (pre ++ [id]) (length pre) id Hl) as (m' & Hm' & Hle & Hall).
      { by apply list_lookup_middle. }
      rewrite Hs in Hm'. exists m'. split; [done|]. split; [lia|].
      intros x [->|Hx]%elem_of_cons; auto.
    + destruct (IH (pre ++ [id]) mi m Hl Hm) as (m' & Hm' & Hle & Hall).
      rewrite Hs in Hm'. exists m'. split; [done|]. split; [lia|].
      intros x [->|Hx]%elem_of_cons; [lia|auto].
Qed.

Lemma minimum_index_spec ids :
  ids <> [] -> exists m, ids !! minimum_index ids = Some m /\ forall x, x ∈ ids -> m <= x.
Proof.
  destruct ids as [|id ids]; [done|]. intros _. simpl.
  destruct (minimum_scan_spec (id :: ids) [id] ids 0 id) as (m & Hm & Hle & Hall); [done..|].
  exists m. split; [done|]. intros x [->|Hx]%elem_of_cons; auto.
Qed.

Lemma remove_at_perm i l m : l !! i = Some m -> l ≡ₚ m :: remove_at i l.
Proof. intros H. unfold remove_at. rewrite <- delete_take_drop. by apply delete_Permutation. Qed.

Definition evict_min (limit : Z) (s : validatorState) : validatorState :=
  if len (recentIDs s) =? limit then
    let minimumIndex := minimum_index (recentIDs s) in
    let minimum := default 0 (recentIDs s !! minimumIndex) in
    set_ids (if messageIDFloor s <? minimum then minimum else messageIDFloor s)
      (remove_at minimumIndex (recentIDs s)) (recentSet s ∖ {[minimum]}) s
  else s.

(** Only identifier fields differ. *)
Definition same_rest (s s' : validatorState) : Prop :=
  sessionID s' = sessionID s /\ serverSalt s' = serverSalt s /\ sequenceNo s' = sequenceNo s /\
  highestMessageID s' = highestMessageID s /\ recentSeqNos s' = recentSeqNos s /\
  recentSeqSet s' = recentSeqSet s.

Lemma evict_min_spec limit s :
  1 <= limit -> ids_ok limit s ->
  let s' := evict_min limit s in
  ids_ok (limit - 1) s' /\ same_rest s s' /\ messageIDFloor s <= messageIDFloor s' /\
  (forall x, x ∈ recentIDs s' -> x ∈ recentIDs s) /\
  (forall x, known_id s x -> known_id s' x).
Proof.
  intros Hl [Hnd Hset Hlen Hr] s'. unfold s', evict_min, same_rest.
  destruct (Z.eqb_spec (len (recentIDs s)) limit) as [E|E].
  2:{ split_and!; auto; try lia. split; auto. lia. }
  destruct (minimum_index_spec (recentIDs s)) as (m & Hm & Hmin).
  { intros Hnil. rewrite Hnil in E. unfold len in E; simpl in E. lia. }
  rewrite Hm. simpl. pose proof (remove_at_perm _ _ _ Hm) as Hp.
  set (rest := remove_at _ _) in *. pose proof Hnd as Hnd'. rewrite Hp in Hnd'.
  apply NoDup_cons in Hnd' as [Hnotin Hnd'].
  assert (Hin : forall x, x ∈ recentIDs s <-> x = m \/ x ∈ rest)
    by (intros x; rewrite Hp at 1; apply elem_of_cons).
  assert (Hmr : messageIDFloor s < m <= highestMessageID s) by (apply Hr, Hin; auto).
  destruct (Z.ltb_spec (messageIDFloor s) m); [|lia].
  split_and!; try done; [|lia|by intros x Hx; apply Hin; auto|].
  - split; simpl; [done| | |].
    + rewrite Hset. apply set_eq. intros x. rewrite elem_of_difference, elem_of_singleton.
      rewrite !elem_of_list_to_set, Hin. naive_solver.
    + apply Permutation_length in Hp. unfold len in *. simpl in Hp. lia.
    + intros x Hx. assert (x ∈ recentIDs s) as Hx' by (apply Hin; auto).
      split; [|by apply Hr]. specialize (Hmin x Hx'). assert (x <> m) by congruence. lia.
  - unfold known_id. simpl. intros x [Hx|Hx]; [left; lia|]. apply Hin in Hx as [->|Hx]; [left; lia|auto].
Qed.

Lemma rememberMessageID_spec id limit s :
  1 <= limit -> ids_ok limit s -> id ∉ recentIDs s -> id <= highestMessageID s ->
  let s' := rememberMessageID id limit s in
  ids_ok limit s' /\ same_rest s s' /\ messageIDFloor s <= messageIDFloor s' /\ known_id s' id /\
  (forall x, known_id s x -> known_id s' x).
Proof.
  intros Hl Hok Hnew Hhi s'. unfold s', rememberMessageID. fold (evict_min limit s).
  destruct (evict_min_spec limit s Hl Hok) as (Hok1 & Hs & Hfl & Hsub & Hk).
  set (s1 := evict_min limit s) in *. destruct Hok1 as [Hnd Hset Hlen Hr].
  destruct (Z.leb_spec id (messageIDFloor s1)).
  - split_and!; try done; [|by left]. split; auto. lia.
  - destruct Hs as (?&?&?&Hh&?&?). split_and!; try done.
    + split; simpl.
      * apply NoDup_app. split; [done|]. split; [|apply NoDup_singleton].
        intros x Hx ->%list_elem_of_singleton. by apply Hnew, Hsub.
      * rewrite Hset, list_to_set_app_L. simpl. set_solver.
      * rewrite len_app. change (len [id]) with 1. lia.
      * intros x. rewrite elem_of_app, list_elem_of_singleton. intros [Hx| ->]; [by apply Hr|].
        rewrite Hh. lia.
    + right. simpl. set_solver.
    + intros x Hx. destruct (Hk x Hx) as [Hx'|Hx']; [by left|right; simpl; set_solver].
Qed.

(** At most [limit] odd numbers fit the window, so a fresh one always finds a
    free place. *)
Lemma window_length limit base l :
  0 <= limit -> NoDup l -> base mod 2 = 0 ->
  (forall n, n ∈ l -> n mod 2 = 1 /\ base - 2 * limit < n < base) -> len l <= limit.
Proof.
  intros Hl Hnd Hb Hw.
  set (k := (fun i => base - 2 * limit + 1 + 2 * i) <$> seqZ 0 limit).
  assert (Hk : length k = Z.to_nat limit) by (unfold k; by rewrite length_fmap, length_seqZ).
  assert (l ⊆+ k) as Hsub%submseteq_length.
  { apply NoDup_submseteq; [done|]. intros n Hn. destruct (Hw n Hn) as [Ho Hr].
    unfold k. apply list_elem_of_fmap. exists ((n - (base - 2 * limit + 1)) / 2).
    rewrite elem_of_seqZ. Z.to_euclidean_division_equations. lia. }
  unfold len. lia.
Qed.

Lemma seqs_len limit s : 0 <= limit -> seqs_ok limit s -> len (recentSeqNos s) <= limit.
Proof. intros Hl [Hnd _ Hw [Hb _]]. by apply (window_length limit (sequenceNo s)). Qed.

Lemma rememberSequenceNo_ok n limit s :
  1 <= limit -> seqs_ok limit s -> n mod 2 = 1 -> sequenceNo s - 2 * limit < n < sequenceNo s ->
  n ∉ recentSeqNos s ->
  rememberSequenceNo n limit s = set_seqs (recentSeqNos s ++ [n]) (recentSeqSet s ∪ {[n]}) s /\
  seqs_ok limit (rememberSequenceNo n limit s).
Proof.
  intros Hl Hok Ho Hw Hn. pose proof Hok as [Hnd Hset Hwin Hb].
  assert (Hext : NoDup (recentSeqNos s ++ [n])).
  { apply NoDup_app. split; [done|]. split; [|apply NoDup_singleton].
    intros x Hx ->%list_elem_of_singleton. done. }
  assert (Hext' : forall x, x ∈ recentSeqNos s ++ [n] ->
            x mod 2 = 1 /\ sequenceNo s - 2 * limit < x < sequenceNo s).
  { intros x. rewrite elem_of_app, list_elem_of_singleton. intros [Hx| ->]; [by apply Hwin|done]. }
  assert (Hlen : len (recentSeqNos s ++ [n]) <= limit)
    by (apply (window_length limit (sequenceNo s)); try done; [lia|apply Hb]).
  rewrite len_app in Hlen. change (len [n]) with 1 in Hlen.
  assert (Heq : rememberSequenceNo n limit s =
            set_seqs (recentSeqNos s ++ [n]) (recentSeqSet s ∪ {[n]}) s).
  { unfold rememberSequenceNo. rewrite bool_decide_eq_false_2 by (rewrite Hset; set_solver).
    rewrite (proj2 (Z.eqb_neq _ _)) by lia. done. }
  rewrite Heq. split; [done|]. split; simpl; try done.
  rewrite Hset, list_to_set_app_L. simpl. set_solver.
Qed.

(** No int32 computation of the window overflows. *)
Lemma prune_minimum_exact limit s :
  1 <= limit <= MaxContentSequenceLimit -> 0 <= sequenceNo s < 2 ^ 31 ->
  prune_minimum limit s = sequenceNo s - 2 * limit + 1.
Proof.
  unfold MaxContentSequenceLimit, prune_minimum. intros Hl Hs.
  rewrite (wrapS_id 32 (limit * 2)) by (unfold inS; lia).
  rewrite (wrapS_id 32 (sequenceNo s - limit * 2)) by (unfold inS; lia).
  rewrite wrapS_id by (unfold inS; lia). lia.
Qed.

(** What holds between advancing the base and pruning. *)
Lemma prune_ok limit s :
  1 <= limit <= MaxContentSequenceLimit ->
  NoDup (recentSeqNos s) -> recentSeqSet s = list_to_set (recentSeqNos s) ->
  (forall n, n ∈ recentSeqNos s -> n mod 2 = 1 /\ n < sequenceNo s) ->
  sequenceNo s mod 2 = 0 /\ 0 <= sequenceNo s < 2 ^ 31 ->
  seqs_ok limit (pruneSequenceNos limit s) /\
  (forall n, n ∈ recentSeqNos (pruneSequenceNos limit s) <->
             n ∈ recentSeqNos s /\ sequenceNo s - 2 * limit < n).
Proof.
  intros Hl Hnd Hset Hw Hb.
  pose proof (prune_minimum_exact limit s Hl (proj2 Hb)) as Hmin.
  assert (Hin : forall n, n ∈ filter (fun n => sequenceNo s - 2 * limit + 1 <= n) (recentSeqNos s) <->
             n ∈ recentSeqNos s /\ sequenceNo s - 2 * limit < n).
  { intros n. rewrite list_elem_of_filter. intuition lia. }
  unfold pruneSequenceNos. rewrite Hmin. split; [|exact Hin].
  split; simpl.
  - by apply NoDup_filter.
  - rewrite Hset. apply set_eq. intros n.
    rewrite elem_of_difference, !elem_of_list_to_set, !list_elem_of_filter.
    destruct (Z.le_gt_cases (sequenceNo s - 2 * limit + 1) n); intuition lia.
  - intros n Hn. apply Hin in Hn as [Hn Hn']. destruct (Hw n Hn). lia.
  - done.
Qed.

(** Pruning a state that respects its window changes nothing. *)
Lemma prune_id limit s :
  1 <= limit <= MaxContentSequenceLimit -> seqs_ok limit s -> pruneSequenceNos limit s = s.
Proof.
  intros Hl [Hnd Hset Hw Hb]. unfold pruneSequenceNos.
  rewrite (prune_minimum_exact limit s Hl (proj2 Hb)).
  rewrite filter_keep_all, filter_drop_all; [|intros n Hn; destruct (Hw n Hn); lia..].
  simpl. rewrite difference_empty_L. by destruct s.
Qed.

(** The fields identifier bookkeeping does not touch, and conversely. *)
Lemma seqs_ok_same limit s s' : same_rest s s' -> seqs_ok limit s -> seqs_ok limit s'.
Proof. intros (_&_&Hn&_&Hl&Hset) []. split; rewrite ?Hn, ?Hl, ?Hset; auto. Qed.

Lemma known_seq_same limit s s' n : same_rest s s' -> known_seq limit s n -> known_seq limit s' n.
Proof. unfold known_seq. intros (_&_&Hn&_&Hl&_). by rewrite Hn, Hl. Qed.

Lemma validateSequenceNo_content limit s id n :
  1 <= limit <= MaxContentSequenceLimit -> seqs_ok limit s -> inS 32 n ->
  validateSequenceNo limit s id n ContentRelated = Ok tt ->
  n mod 2 = 1 /\ 0 <= n < MaxInt32 /\ ~ known_seq limit s n.
Proof.
  intros Hl [Hnd Hset Hw [He Hb]] Hty H. unfold inS in Hty. unfold validateSequenceNo, badMessage in H. cbv zeta in H.
  rewrite land1 in H. change (ContentRelated =? Container) with false in H.
  rewrite Z.eqb_refl in H. unfold negb, andb in H. rewrite Hset in H.
  rewrite (wrapS_id 32 (sequenceNo s + 1)) in H by (unfold inS; Z.to_euclidean_division_equations; lia).
  assert (Hn : forall m, known_seq limit s m -> m < sequenceNo s).
  { intros m [Hm|Hm]; [lia|]. apply Hw in Hm. lia. }
  unfold MaxInt32 in *.
  destruct (Z.ltb_spec n 0); [done|]. destruct (Z.eqb_spec n (2 ^ 31 - 1)); [done|].
  destruct (Z.eqb_spec n (sequenceNo s + 1)) as [->|].
  { split; [Z.to_euclidean_division_equations; lia|].
    split; [Z.to_euclidean_division_equations; lia|]. intros Hk%Hn. lia. }
  destruct (Z.eqb_spec (n mod 2) 0) as [|Ho]; [done|].
  split; [Z.to_euclidean_division_equations; lia|]. split; [lia|].
  intros [Hk|Hk].
  - destruct (Z.eqb_spec (sequenceNo s) 0), (Z.eqb_spec (len (recentSeqNos s)) 0); try lia;
      (case_bool_decide; [done|]); destruct (Z.ltb_spec (sequenceNo s - limit * 2 + 1) 1);
      destruct (Z.ltb_spec n 1), (Z.ltb_spec n (sequenceNo s - limit * 2 + 1)); try done; lia.
  - assert (len (recentSeqNos s) <> 0).
    { destruct (recentSeqNos s); [by apply elem_of_nil in Hk|]. rewrite len_cons.
      pose proof (len_nonneg l). lia. }
    rewrite (proj2 (Z.eqb_neq (len _) 0)) in H by done.
    rewrite bool_decide_eq_true_2 in H by set_solver. by destruct (_ =? 0).
Qed.

(** Recording a content message. *)
Definition record_seq (limit : Z) (s : validatorState) (n : Z) : validatorState :=
  let s := if int32 (sequenceNo s + 1) <=? n then set_sequence (int32 (n + 1)) s else s in
  rememberSequenceNo n limit (pruneSequenceNos limit s).

Lemma record_seq_spec limit s n :
  1 <= limit <= MaxContentSequenceLimit -> seqs_ok limit s ->
  n mod 2 = 1 -> 0 <= n < MaxInt32 -> ~ known_seq limit s n ->
  let s' := record_seq limit s n in
  seqs_ok limit s' /\ n ∈ recentSeqNos s' /\ sequenceNo s' = Z.max (sequenceNo s) (n + 1) /\
  (forall x, known_seq limit s x -> known_seq limit s' x) /\
  sessionID s' = sessionID s /\ serverSalt s' = serverSalt s /\
  highestMessageID s' = highestMessageID s /\ messageIDFloor s' = messageIDFloor s /\
  recentIDs s' = recentIDs s /\ recentSet s' = recentSet s.
Proof.
  intros Hl Hok Ho Hn Hk s'. unfold s', record_seq, MaxInt32 in *.
  pose proof Hok as [Hnd Hset Hw [He Hb]].
  rewrite (wrapS_id 32 (sequenceNo s + 1)) by (unfold inS; Z.to_euclidean_division_equations; lia).
  rewrite (wrapS_id 32 (n + 1)) by (unfold inS; lia).
  set (s1 := if sequenceNo s + 1 <=? n then set_sequence (n + 1) s else s).
  assert (Hs1 : sequenceNo s1 = Z.max (sequenceNo s) (n + 1) /\ recentSeqNos s1 = recentSeqNos s /\
    recentSeqSet s1 = recentSeqSet s /\ sessionID s1 = sessionID s /\ serverSalt s1 = serverSalt s /\
    highestMessageID s1 = highestMessageID s /\ messageIDFloor s1 = messageIDFloor s /\
    recentIDs s1 = recentIDs s /\ recentSet s1 = recentSet s).
  { unfold s1. destruct (Z.leb_spec (sequenceNo s + 1) n); split_and!; simpl; try done;
      Z.to_euclidean_division_equations; lia. }
  destruct Hs1 as (Hq & Hl1 & Hs1 & Hr1). clearbody s1.
  destruct (prune_ok limit s1 Hl) as [Hok2 Hin].
  { by rewrite Hl1. } { by rewrite Hl1, Hs1. }
  { intros m Hm. rewrite Hl1 in Hm. apply Hw in Hm. lia. }
  { rewrite Hq. Z.to_euclidean_division_equations; lia. }
  assert (Hnew : sequenceNo s1 - 2 * limit < n < sequenceNo s1).
  { rewrite Hq. unfold known_seq in Hk. Z.to_euclidean_division_equations; lia. }
  destruct (rememberSequenceNo_ok n limit (pruneSequenceNos limit s1)) as [Heq Hok3];
    try done; [lia|by rewrite Hin, Hl1; unfold known_seq in Hk; naive_solver|].
  split; [done|]. rewrite Heq. clear Heq Hok3 Hok2.
  split; [simpl; apply elem_of_app; right; by apply list_elem_of_singleton|].
  split; [exact Hq|]. split; [|exact Hr1].
  intros x [Hx|Hx].
  - left. simpl. rewrite Hq. lia.
  - destruct (Z.le_gt_cases x (sequenceNo s1 - 2 * limit)); [by left|]. right. simpl.
    apply elem_of_app. left. apply Hin. rewrite Hl1. split; [done|lia].
Qed.

(** ** Accepting a sequence of records *)

(** [accepting L SL s s' ids seqs]: between [s] and [s'] the identifiers [ids] and
    the content sequence numbers [seqs] were accepted, each unknown before. *)
Record accepting (L SL : Z) (s s' : validatorState) (ids seqs : list Z) : Prop := {
  acc_ids_ok : ids_ok L s';
  acc_seqs_ok : seqs_ok SL s';
  acc_ids : NoDup ids;
  acc_id : forall id, id ∈ ids -> ~ known_id s id /\ known_id s' id;
  acc_id_mono : forall x, known_id s x -> known_id s' x;
  acc_seqs : NoDup seqs;
  acc_seq : forall n, n ∈ seqs -> ~ known_seq SL s n /\ known_seq SL s' n;
  acc_seq_mono : forall x, known_seq SL s x -> known_seq SL s' x;
  acc_salt : serverSalt s' = serverSalt s
}.

Lemma accepting_nil L SL s : ids_ok L s -> seqs_ok SL s -> accepting L SL s s [] [].
Proof.
  split; auto using NoDup_nil_2; intros ? Hin; by apply elem_of_nil in Hin.
Qed.

Lemma NoDup_app_fresh {A} (P : A -> Prop) (a b : list A) :
  NoDup a -> NoDup b -> (forall x, x ∈ a -> P x) -> (forall x, x ∈ b -> ~ P x) -> NoDup (a ++ b).
Proof. intros Ha Hb HP HnP. apply NoDup_app. split_and!; auto. intros x Hx Hx'. by eapply HnP, HP. Qed.

Lemma accepting_app L SL s s1 s2 ids1 ids2 seqs1 seqs2 :
  accepting L SL s s1 ids1 seqs1 -> accepting L SL s1 s2 ids2 seqs2 ->
  accepting L SL s s2 (ids1 ++ ids2) (seqs1 ++ seqs2).
Proof.
  intros [I1 S1 N1 A1 M1 N1' B1 M1' E1] [I2 S2 N2 A2 M2 N2' B2 M2' E2].
  split; try done; auto; try congruence.
  - apply (NoDup_app_fresh (known_id s1)); auto; intros x Hx; [by apply A1|by apply A2].
  - intros x [Hx|Hx]%elem_of_app; [destruct (A1 x Hx)|destruct (A2 x Hx)]; auto.
  - apply (NoDup_app_fresh (known_seq SL s1)); auto; intros x Hx; [by apply B1|by apply B2].
  - intros x [Hx|Hx]%elem_of_app; [destruct (B1 x Hx)|destruct (B2 x Hx)]; auto.
Qed.

Definition content_seq (kind n : Z) : list Z := if kind =? ContentRelated then [n] else [].

Lemma record_one_eq v s id n kind :
  record_one v s id n kind =
  rememberMessageID id (messageIDLimit v)
    (let s1 := if highestMessageID s <? id then set_highest id s else s in
     if kind =? ContentRelated then record_seq (sequenceLimit v) s1 n else s1).
Proof. unfold record_one, record_seq. by destruct (kind =? ContentRelated). Qed.

Lemma validateMessageID_fresh L now s id n :
  ids_ok L s -> validateMessageID now s id n = Ok tt -> ~ known_id s id.
Proof.
  intros [_ Hset _ _]. unfold validateMessageID, badMessage, known_id. rewrite Hset.
  intros H [Hk|Hk]; repeat case_match; simplify_eq; bools; set_solver by lia.
Qed.

Lemma raise_highest_ok L s id :
  let s1 := if highestMessageID s <? id then set_highest id s else s in
  ids_ok L s -> ids_ok L s1 /\ id <= highestMessageID s1 /\ recentIDs s1 = recentIDs s /\
  messageIDFloor s1 = messageIDFloor s /\ serverSalt s1 = serverSalt s /\
  sequenceNo s1 = sequenceNo s /\ recentSeqNos s1 = recentSeqNos s /\ recentSeqSet s1 = recentSeqSet s.
Proof.
  simpl. intros [Hnd Hset Hlen Hr]. destruct (Z.ltb_spec (highestMessageID s) id).
  - split_and!; simpl; try done. split; simpl; auto. intros x Hx. specialize (Hr x Hx). lia.
  - by split_and!.
Qed.

Lemma seqs_ok_fields limit s s' :
  sequenceNo s' = sequenceNo s -> recentSeqNos s' = recentSeqNos s -> recentSeqSet s' = recentSeqSet s ->
  seqs_ok limit s -> seqs_ok limit s'.
Proof. intros Hn Hl Hset []. split; rewrite ?Hn, ?Hl, ?Hset; auto. Qed.

Lemma ids_ok_fields limit s s' :
  highestMessageID s' = highestMessageID s -> messageIDFloor s' = messageIDFloor s ->
  recentIDs s' = recentIDs s -> recentSet s' = recentSet s -> ids_ok limit s -> ids_ok limit s'.
Proof. intros Hh Hf Hl Hset []. split; rewrite ?Hh, ?Hf, ?Hl, ?Hset; auto. Qed.

Definition limits_ok (v : Validator) : Prop :=
  1 <= messageIDLimit v <= MaxRecentMessageIDLimit /\ 1 <= sequenceLimit v <= MaxContentSequenceLimit.

Lemma validateOne_accepting now v s id n kind s' :
  limits_ok v -> ids_ok (messageIDLimit v) s -> seqs_ok (sequenceLimit v) s -> inS 32 n ->
  validateOne now v s id n kind = Ok s' ->
  accepting (messageIDLimit v) (sequenceLimit v) s s' [id] (content_seq kind n).
Proof.
  intros [Hl1 Hl2] Hi Hs Hty H. unfold validateOne in H. destruct (negb (validKind kind)); [done|].
  unfold mbind, result_bind in H.
  destruct (validateMessageID now s id n) as [[]|] eqn:E1; [|done].
  destruct (validateSequenceNo _ s id n kind) as [[]|] eqn:E2; [|done].
  unfold mret, result_ret in H. injection H as <-. rewrite record_one_eq.
  pose proof (validateMessageID_fresh _ _ _ _ _ Hi E1) as Hfresh.
  destruct (raise_highest_ok _ s id Hi) as (Hi1 & Hle & Hr1 & Hf1 & Hsalt1 & Hq1 & Hn1 & Hset1).
  set (s1 := if highestMessageID s <? id then set_highest id s else s) in *. cbv zeta.
  assert (Hs1 : seqs_ok (sequenceLimit v) s1) by by eapply seqs_ok_fields.
  assert (Hks : forall x, known_seq (sequenceLimit v) s1 x <-> known_seq (sequenceLimit v) s x)
    by (intros x; unfold known_seq; by rewrite Hq1, Hn1).
  set (s2 := if kind =? ContentRelated then record_seq (sequenceLimit v) s1 n else s1).
  assert (H2 : ids_ok (messageIDLimit v) s2 /\ seqs_ok (sequenceLimit v) s2 /\
    id <= highestMessageID s2 /\ recentIDs s2 = recentIDs s /\ messageIDFloor s2 = messageIDFloor s /\
    serverSalt s2 = serverSalt s /\
    (forall x, x ∈ content_seq kind n -> ~ known_seq (sequenceLimit v) s x /\ known_seq (sequenceLimit v) s2 x) /\
    (forall x, known_seq (sequenceLimit v) s x -> known_seq (sequenceLimit v) s2 x)).
  { unfold s2, content_seq. destruct (Z.eqb_spec kind ContentRelated) as [->|].
    - destruct (validateSequenceNo_content _ _ _ _ Hl2 Hs Hty E2) as (Ho & Hn & Hk).
      destruct (record_seq_spec (sequenceLimit v) s1 n) as (A & B & C & D & F & G & I & J & K & M);
        try done; [by rewrite Hks|].
      split_and!; try congruence.
      + by eapply ids_ok_fields.
      + intros x ->%list_elem_of_singleton. split; [done|by right].
      + intros x Hx. by apply D, Hks.
    - split_and!; try done; [intros x Hx; by apply elem_of_nil in Hx|intros x; by apply Hks]. }
  clearbody s2. destruct H2 as (Hi2 & Hs2 & Hle2 & Hr2 & Hf2 & Hsalt2 & Hc & Hm).
  assert (Hk2 : forall x, known_id s2 x <-> known_id s x) by (intros x; unfold known_id; by rewrite Hr2, Hf2).
  destruct (rememberMessageID_spec id (messageIDLimit v) s2) as (Hi3 & Hsame & _ & Hk3 & Hk3');
    try done; [lia|intros Hin; apply Hfresh; right; by rewrite <- Hr2|].
  split; try done.
  - by eapply seqs_ok_same.
  - apply NoDup_singleton.
  - intros x ->%list_elem_of_singleton. done.
  - intros x Hx. by apply Hk3', Hk2.
  - unfold content_seq. case_match; [apply NoDup_singleton|apply NoDup_nil_2].
  - intros x Hx. destruct (Hc x Hx). split; [done|]. by eapply known_seq_same.
  - intros x Hx. eapply known_seq_same; eauto.
  - destruct Hsame as (_ & -> & _). done.
Qed.

(** The identifiers and content sequence numbers of a message's records. *)
Definition message_ids (m : Message) : list Z :=
  m_MessageID m :: (if m_Kind m =? Container then cm_MessageID <$> m_Children m else []).

Definition child_seqs (children : list ContainerMessage) : list Z :=
  concat ((fun c => content_seq (cm_Kind c) (cm_SequenceNo c)) <$> children).

Definition message_seqs (m : Message) : list Z :=
  content_seq (m_Kind m) (m_SequenceNo m) ++
  (if m_Kind m =? Container then child_seqs (m_Children m) else []).

(** The sequence numbers are int32 values. *)
Definition message_typed (m : Message) : Prop :=
  inS 32 (m_SequenceNo m) /\ forall c, c ∈ m_Children m -> inS 32 (cm_SequenceNo c).

Lemma validateChildren_accepting clock v children s s' :
  limits_ok v -> ids_ok (messageIDLimit v) s -> seqs_ok (sequenceLimit v) s ->
  (forall c, c ∈ children -> inS 32 (cm_SequenceNo c)) ->
  validateChildren clock v s children = Ok s' ->
  accepting (messageIDLimit v) (sequenceLimit v) s s' (cm_MessageID <$> children) (child_seqs children).
Proof.
  revert clock s. induction children as [|c children IH]; intros clock s Hl Hi Hs Hty H.
  { simpl in H. simplify_eq. by apply accepting_nil. }
  cbn [validateChildren] in H. destruct (_ || _); [done|]. unfold mbind, result_bind in H.
  destruct (validateOne _ _ _ _ _ _) as [s1|] eqn:E; [|done].
  assert (Hc : inS 32 (cm_SequenceNo c)) by (apply Hty; left).
  pose proof (validateOne_accepting _ _ _ _ _ _ _ Hl Hi Hs Hc E) as Ha.
  eapply (accepting_app _ _ _ _ _ [_] _ (content_seq _ _)); [exact Ha|].
  eapply IH; eauto; [apply Ha..|]. intros c' Hc'. apply Hty. by right.
Qed.

Lemma set_session_accepting L SL s s' ids seqs i :
  accepting L SL s s' ids seqs ->
  accepting L SL s (if sessionID s' =? 0 then set_session i s' else s') ids seqs.
Proof. destruct (sessionID s' =? 0); [|done]. intros [[] [] ??????]. split; try done; by split. Qed.

Lemma validateEnvelope_accepting clock v s m s' :
  limits_ok v -> ids_ok (messageIDLimit v) s -> seqs_ok (sequenceLimit v) s -> message_typed m ->
  validateEnvelope clock v s m = Ok s' ->
  accepting (messageIDLimit v) (sequenceLimit v) s s' (message_ids m) (message_seqs m).
Proof.
  intros Hl Hi Hs [Ht Htc] H. unfold validateEnvelope in H.
  destruct (_ || _); [done|]. destruct (negb (_ =? _)); [done|]. destruct (_ && _); [done|].
  unfold mbind, result_bind in H. destruct (validateOne _ _ _ _ _ _) as [s1|] eqn:E; [|done].
  pose proof (validateOne_accepting _ _ _ _ _ _ _ Hl Hi Hs Ht E) as Ha.
  unfold message_ids, message_seqs. destruct (m_Kind m =? Container).
  - destruct (validateChildren _ _ _ _) as [s2|] eqn:E2; [|done].
    injection H as <-. apply set_session_accepting.
    eapply (accepting_app _ _ _ _ _ [_]); [exact Ha|].
    eapply validateChildren_accepting; eauto; apply Ha.
  - injection H as <-. apply set_session_accepting. by rewrite app_nil_r.
Qed.

Lemma clone_id v : wf v -> clone (state v) = state v.
Proof.
  intros [_ _ [_ H1 _ _] [_ H2 _ _]]. unfold clone, set_seqs, set_ids. rewrite <- H1; simpl.
  rewrite <- H2. by destruct (state v).
Qed.

Lemma wf_limits v : wf v -> limits_ok v.
Proof. by intros []. Qed.

(** ** Construction and restoration *)

Lemma remember_raise id limit s h :
  rememberMessageID id limit (set_highest h s) = set_highest h (rememberMessageID id limit s).
Proof.
  unfold rememberMessageID. cbn [recentIDs set_highest].
  destruct (len (recentIDs s) =? limit); cbn; by destruct (id <=? _).
Qed.

Lemma remember_highest id limit s :
  highestMessageID (rememberMessageID id limit s) = highestMessageID s.
Proof. unfold rememberMessageID. destruct (_ =? limit); cbn; by destruct (id <=? _). Qed.

Lemma restore_id_eq limit s id :
  messageIDFloor s < id -> id ∉ recentSet s ->
  restore_id limit s id =
  rememberMessageID id limit (if highestMessageID s <? id then set_highest id s else s).
Proof.
  intros Hf Hn. unfold restore_id. rewrite (proj2 (Z.leb_gt _ _)) by done.
  rewrite bool_decide_eq_false_2 by done. rewrite remember_highest.
  destruct (_ <? id); [by rewrite remember_raise|done].
Qed.

Lemma restore_id_ok limit s id : 1 <= limit -> ids_ok limit s -> ids_ok limit (restore_id limit s id).
Proof.
  intros Hl Hok. destruct (Z.le_gt_cases id (messageIDFloor s)).
  { unfold restore_id. by rewrite (proj2 (Z.leb_le _ _)). }
  destruct (decide (id ∈ recentSet s)).
  { unfold restore_id. rewrite (proj2 (Z.leb_gt _ _)) by done. by rewrite bool_decide_eq_true_2. }
  rewrite restore_id_eq by done. destruct (raise_highest_ok limit s id Hok) as (Hok1 & Hle & Hr & _).
  apply rememberMessageID_spec; try done. rewrite Hr. intros Hin.
  destruct Hok as [_ Hset _ _]. rewrite Hset in *. set_solver.
Qed.

(** Restoring identifiers leaves the sequence part alone. *)
Lemma restore_id_seqs limit s id :
  sequenceNo (restore_id limit s id) = sequenceNo s /\
  recentSeqNos (restore_id limit s id) = recentSeqNos s /\
  recentSeqSet (restore_id limit s id) = recentSeqSet s.
Proof. unfold restore_id, rememberMessageID. by repeat (case_match; simpl). Qed.

Lemma restore_seq_ids limit s n :
  highestMessageID (restore_seq limit s n) = highestMessageID s /\
  messageIDFloor (restore_seq limit s n) = messageIDFloor s /\
  recentIDs (restore_seq limit s n) = recentIDs s /\
  recentSet (restore_seq limit s n) = recentSet s.
Proof. unfold restore_seq, rememberSequenceNo. by repeat (case_match; simpl). Qed.

Lemma restore_seq_ok limit s n :
  1 <= limit <= MaxContentSequenceLimit -> seqs_ok limit s -> seqs_ok limit (restore_seq limit s n).
Proof.
  intros Hl Hok. pose proof Hok as [_ Hset _ [He Hb]]. unfold restore_seq.
  destruct (_ || _) eqn:E; [done|]. apply orb_false_iff in E as [E E3]. apply orb_false_iff in E as [E1 E2].
  rewrite (prune_minimum_exact limit s Hl Hb) in E1. rewrite land1 in E2.
  rewrite (wrapS_id 32 (sequenceNo s + 1)) in E3
    by (unfold inS; Z.to_euclidean_division_equations; lia).
  bools. destruct (decide (n ∈ recentSeqNos s)).
  { unfold rememberSequenceNo. by rewrite bool_decide_eq_true_2 by (rewrite Hset; set_solver). }
  apply rememberSequenceNo_ok; try done; Z.to_euclidean_division_equations; lia.
Qed.

Lemma restore_ids_fold limit ids s :
  1 <= limit -> ids_ok limit s ->
  let s' := foldl (restore_id limit) s ids in
  ids_ok limit s' /\ sequenceNo s' = sequenceNo s /\ recentSeqNos s' = recentSeqNos s /\
  recentSeqSet s' = recentSeqSet s.
Proof.
  intros Hl. revert s. induction ids as [|id ids IH]; intros s Hok; simpl; [done|].
  destruct (IH (restore_id limit s id)) as (Hi & Hq & Hn & Hset); [by apply restore_id_ok|].
  destruct (restore_id_seqs limit s id) as (Hq' & Hn' & Hset'). split_and!; congruence.
Qed.

Lemma restore_seqs_fold limit L ns s :
  1 <= limit <= MaxContentSequenceLimit -> seqs_ok limit s -> ids_ok L s ->
  seqs_ok limit (foldl (restore_seq limit) s ns) /\ ids_ok L (foldl (restore_seq limit) s ns).
Proof.
  intros Hl. revert s. induction ns as [|n ns IH]; intros s Hok Hi; simpl; [done|].
  apply IH; [by apply restore_seq_ok|].
  destruct (restore_seq_ids limit s n) as (?&?&?&?). by eapply ids_ok_fields.
Qed.

Lemma NewValidator_ok c v : inS 32 (cfg_SequenceNo c) -> NewValidator c = Ok v -> wf v.
Proof.
  intros Hty H. unfold NewValidator in H. unfold inS in Hty.
  set (limit := if cfg_RecentMessageIDLimit c =? 0 then _ else _) in H.
  set (slimit := if cfg_ContentSequenceLimit c =? 0 then _ else _) in H. cbv zeta in H.
  destruct (_ || _) eqn:E1 in H; [done|]. destruct (_ || _) eqn:E2 in H; [done|].
  rewrite land1 in H. destruct (_ || _) eqn:E3 in H; [done|]. bools.
  set (s0 := {| sessionID := _ |}) in H.
  destruct (restore_ids_fold limit (cfg_RecentMessageIDs c) s0) as (Hi & Hq & Hn & Hset); [lia| |].
  { split; simpl; try done; [apply NoDup_nil_2|unfold len; simpl; lia|].
    intros x Hx. by apply elem_of_nil in Hx. }
  set (s1 := foldl (restore_id limit) s0 _) in *. simpl in Hq, Hn, Hset.
  assert (Hs1 : seqs_ok slimit s1).
  { split; rewrite ?Hn, ?Hset, ?Hq; [apply NoDup_nil_2|done| |lia].
    intros x Hx. by apply elem_of_nil in Hx. }
  destruct (restore_seqs_fold slimit limit (cfg_RecentSequenceNos c) s1) as [Hs2 Hi2]; try done; try lia.
  injection H as <-. rewrite prune_id by (done || lia). split; simpl; try done; lia.
Qed.

(** Replaying a remembered list into an empty memory rebuilds it. *)
Definition with_ids (l : list Z) (s : validatorState) : validatorState :=
  set_ids (messageIDFloor s) l (list_to_set l) s.

Definition with_seqs (l : list Z) (s : validatorState) : validatorState :=
  set_seqs l (list_to_set l) s.

Lemma restore_ids_replay limit s pre ids :
  NoDup (pre ++ ids) -> len (pre ++ ids) <= limit ->
  (forall id, id ∈ ids -> messageIDFloor s < id <= highestMessageID s) ->
  foldl (restore_id limit) (with_ids pre s) ids = with_ids (pre ++ ids) s.
Proof.
  revert pre. induction ids as [|id ids IH]; intros pre Hnd Hlen Hr.
  { by rewrite app_nil_r. }
  simpl. assert (restore_id limit (with_ids pre s) id = with_ids (pre ++ [id]) s) as ->.
  { rewrite len_app, len_cons in Hlen. pose proof (len_nonneg ids).
    assert (messageIDFloor s < id <= highestMessageID s) by (apply Hr; left).
    apply NoDup_app in Hnd as (_ & Hd & _).
    assert (id ∉ pre) by (intros Hin; apply (Hd id Hin); left).
    rewrite restore_id_eq; simpl; [|lia|set_solver].
    rewrite (proj2 (Z.ltb_ge _ _)) by lia. unfold rememberMessageID. simpl.
    rewrite (proj2 (Z.eqb_neq _ _)) by lia. simpl. rewrite (proj2 (Z.leb_gt _ _)) by lia.
    unfold with_ids, set_ids. simpl. f_equal. rewrite list_to_set_app_L. simpl. set_solver. }
  rewrite (IH (pre ++ [id])); rewrite <- ?app_assoc; try done. intros. apply Hr. by right.
Qed.

Lemma restore_seqs_replay limit s pre ns :
  1 <= limit <= MaxContentSequenceLimit -> seqs_ok limit (with_seqs (pre ++ ns) s) ->
  foldl (restore_seq limit) (with_seqs pre s) ns = with_seqs (pre ++ ns) s.
Proof.
  intros Hl. revert pre. induction ns as [|n ns IH]; intros pre Hok.
  { by rewrite app_nil_r. }
  simpl. assert (restore_seq limit (with_seqs pre s) n = with_seqs (pre ++ [n]) s) as ->.
  { pose proof Hok as [Hnd _ Hw [He Hb]]. simpl in *.
    destruct (Hw n) as [Ho Hn]; [set_solver|].
    apply NoDup_app in Hnd as (Hnd & Hd & _).
    assert (n ∉ pre) by (intros Hin; apply (Hd n Hin); left).
    unfold restore_seq. rewrite prune_minimum_exact by done. simpl.
    rewrite (wrapS_id 32 (sequenceNo s + 1)) by (unfold inS; Z.to_euclidean_division_equations; lia).
    rewrite land1, (proj2 (Z.ltb_ge _ _)), (proj2 (Z.eqb_neq _ _)), (proj2 (Z.leb_gt _ _)) by lia.
    simpl. destruct (rememberSequenceNo_ok n limit (with_seqs pre s)) as [-> _]; simpl; try done; try lia.
    - split; simpl; try done. intros x Hx. apply Hw. set_solver.
    - unfold with_seqs, set_seqs. simpl. f_equal. rewrite list_to_set_app_L. simpl. set_solver. }
  rewrite (IH (pre ++ [n])); rewrite <- ?app_assoc; done.
Qed.

Lemma NewValidator_restore v : wf v -> NewValidator (restore_config v (Snapshot_of v)) = Ok v.
Proof.
  intros Hwf. pose proof Hwf as [Hl1 Hl2 [Hnd Hset Hlen Hr] Hseqs].
  pose proof Hseqs as [Hsnd Hsset Hw [He Hb]].
  unfold NewValidator, restore_config, Snapshot_of; simpl.
  rewrite (proj2 (Z.eqb_neq (messageIDLimit v) 0)), (proj2 (Z.eqb_neq (sequenceLimit v) 0)) by lia.
  rewrite (proj2 (Z.ltb_ge _ 1)), (proj2 (Z.ltb_ge _ (messageIDLimit v))) by lia.
  rewrite (proj2 (Z.ltb_ge _ 1)), (proj2 (Z.ltb_ge _ (sequenceLimit v))) by lia.
  rewrite (proj2 (Z.ltb_ge _ 0)), land1, (proj2 (Z.eqb_eq (_ mod 2) 0)) by lia. simpl.
  set (s0 := {| sessionID := _ |}).
  change s0 with (with_ids [] s0). rewrite restore_ids_replay by done. simpl.
  set (s1 := with_ids _ s0). change s1 with (with_seqs [] s1).
  assert (Hfull : with_seqs (recentSeqNos (state v)) s1 = state v).
  { unfold with_seqs, s1, with_ids, set_seqs, set_ids; simpl. rewrite <- Hset, <- Hsset.
    by destruct (state v). }
  rewrite restore_seqs_replay; simpl; rewrite ?Hfull; try done.
  rewrite prune_id by done. by destruct v.
Qed.

Lemma Validate_accepting clock m v v' :
  wf v -> message_typed m -> Validate clock m v = (Ok tt, v') ->
  wf v' /\ messageIDLimit v' = messageIDLimit v /\ sequenceLimit v' = sequenceLimit v /\
  accepting (messageIDLimit v) (sequenceLimit v) (state v) (state v') (message_ids m) (message_seqs m).
Proof.
  intros Hwf Hty H. unfold Validate in H. rewrite clone_id in H by done.
  destruct (validateEnvelope _ _ _ _) as [s'|] eqn:E; [|done]. injection H as <-.
  pose proof Hwf as [Hl1 Hl2 Hi Hs].
  pose proof (validateEnvelope_accepting _ _ _ _ _ (wf_limits _ Hwf) Hi Hs Hty E) as Ha.
  split_and!; try done. split; simpl; try done; apply Ha.
Qed.

(** ** Runs *)

(** What happens to one session's validator over its life; a restart goes
    through the persisted snapshot. *)
Inductive request :=
| ReqValidate (clock : nat -> Z) (m : Message)
| ReqSetServerSalt (salt : Z)
| ReqRestart.

Definition request_typed (r : request) : Prop :=
  match r with ReqValidate _ m => message_typed m | _ => True end.

(** The validator after a request, and the records it accepted. *)
Definition serve (r : request) (v : Validator) : Validator * (list Z * list Z) :=
  match r with
  | ReqValidate clock m =>
      match Validate clock m v with
      | (Ok _, v') => (v', (message_ids m, message_seqs m))
      | (Err _, v') => (v', ([], []))
      end
  | ReqSetServerSalt salt => (SetServerSalt salt v, ([], []))
  | ReqRestart =>
      match NewValidator (restore_config v (Snapshot_of v)) with
      | Ok v' => (v', ([], []))
      | Err _ => (v, ([], []))
      end
  end.

Fixpoint run (rs : list request) (v : Validator) : Validator * (list Z * list Z) :=
  match rs with
  | [] => (v, ([], []))
  | r :: rs' =>
      let '(v1, (ids1, seqs1)) := serve r v in
      let '(v2, (ids2, seqs2)) := run rs' v1 in
      (v2, (ids1 ++ ids2, seqs1 ++ seqs2))
  end.

(** Everything but the salt, which a session may change at any time. *)
Record progress (v v' : Validator) (ids seqs : list Z) : Prop := {
  pr_wf : wf v';
  pr_seqlimit : sequenceLimit v' = sequenceLimit v;
  pr_ids : NoDup ids;
  pr_id : forall id, id ∈ ids -> ~ known_id (state v) id /\ known_id (state v') id;
  pr_id_mono : forall x, known_id (state v) x -> known_id (state v') x;
  pr_seqs : NoDup seqs;
  pr_seq : forall n, n ∈ seqs ->
    ~ known_seq (sequenceLimit v) (state v) n /\ known_seq (sequenceLimit v) (state v') n;
  pr_seq_mono : forall x, known_seq (sequenceLimit v) (state v) x -> known_seq (sequenceLimit v) (state v') x
}.

Lemma progress_idle v v' :
  wf v' -> sequenceLimit v' = sequenceLimit v -> recentIDs (state v') = recentIDs (state v) ->
  messageIDFloor (state v') = messageIDFloor (state v) -> sequenceNo (state v') = sequenceNo (state v) ->
  recentSeqNos (state v') = recentSeqNos (state v) -> progress v v' [] [].
Proof.
  intros Hwf Hl Hr Hf Hn Hq. unfold known_id, known_seq.
  split; auto using NoDup_nil_2; unfold known_id, known_seq;
    try (intros x Hx; by apply elem_of_nil in Hx); intros x; by rewrite ?Hr, ?Hf, ?Hn, ?Hq.
Qed.

Lemma serve_progress r v :
  wf v -> request_typed r ->
  let '(v', (ids, seqs)) := serve r v in progress v v' ids seqs.
Proof.
  intros Hwf Hty. destruct r as [clock m|salt|]; simpl in *.
  - destruct (Validate clock m v) as [[[]|e] v'] eqn:E.
    + destruct (Validate_accepting _ _ _ _ Hwf Hty E) as (Hwf' & _ & Hl & Ha). by destruct Ha; split.
    + assert (v' = v) as -> by (unfold Validate in E; case_match; by simplify_eq). by apply progress_idle.
  - apply progress_idle; try done. destruct Hwf as [? ? [] []]. split; simpl; try done; by split.
  - rewrite NewValidator_restore by done. by apply progress_idle.
Qed.

Lemma run_progress rs v :
  wf v -> Forall request_typed rs ->
  let '(v', (ids, seqs)) := run rs v in progress v v' ids seqs.
Proof.
  revert v. induction rs as [|r rs IH]; intros v Hwf Hty; simpl; [by apply progress_idle|].
  apply Forall_cons in Hty as [Hr Hrs]. pose proof (serve_progress r v Hwf Hr) as H1.
  destruct (serve r v) as [v1 [ids1 seqs1]]. specialize (IH v1 (pr_wf _ _ _ _ H1) Hrs).
  destruct (run rs v1) as [v2 [ids2 seqs2]].
  destruct H1 as [W1 L1 N1 A1 M1 N1' B1 M1'], IH as [W2 L2 N2 A2 M2 N2' B2 M2'].
  rewrite L1 in *. split; try done; auto; try congruence.
  - apply (NoDup_app_fresh (known_id (state v1))); auto; intros x Hx; [by apply A1|by apply A2].
  - intros x [Hx|Hx]%elem_of_app; [destruct (A1 x Hx)|destruct (A2 x Hx)]; auto.
  - apply (NoDup_app_fresh (known_seq (sequenceLimit v) (state v1))); auto; intros x Hx;
      [by apply B1|by apply B2].
  - intros x [Hx|Hx]%elem_of_app; [destruct (B1 x Hx)|destruct (B2 x Hx)]; auto.
Qed.

(** ** The decision table *)

(** Why a record is refused, by the protocol's rules alone. *)
Definition id_verdict (now : Z) (s : validatorState) (id : Z) : option (Z * bad_cause) :=
  if bool_decide (id mod 4 <> 0 \/ id mod 2 ^ 32 = 0) then Some (CodeMessageIDFormat, ErrMessageIDFormat)
  else if bool_decide (id / 2 ^ 32 * Second < now - 300 * Second)
  then Some (CodeMessageIDTooLow, ErrMessageIDTooLow)
  else if bool_decide (now + 30 * Second < id / 2 ^ 32 * Second)
  then Some (CodeMessageIDTooHigh, ErrMessageIDTooHigh)
  else if bool_decide (id <= messageIDFloor s \/ id = highestMessageID s \/ id ∈ recentIDs s)
  then Some (CodeReplayMessageID, ErrReplayMessageID)
  else None.

Definition seq_verdict (limit : Z) (s : validatorState) (n kind : Z) : option (Z * bad_cause) :=
  if bool_decide (n < 0) then Some (CodeSequenceNoTooLow, ErrSequenceNoTooLow)
  else if bool_decide (kind <> ContentRelated) then
    if bool_decide (n mod 2 = 0) then None
    else Some (CodeExpectedEvenSequenceNo, ErrExpectedNonContentSequence)
  else if bool_decide (n = MaxInt32) then Some (CodeSequenceNoTooHigh, ErrSequenceNoTooHigh)
  else if bool_decide (n mod 2 = 0) then Some (CodeExpectedOddSequenceNo, ErrExpectedContentSequence)
  else if bool_decide (sequenceNo s = 0 /\ recentSeqNos s = []) then None
  else if bool_decide (n ∈ recentSeqNos s \/ n <= sequenceNo s - 2 * limit)
  then Some (CodeSequenceNoTooLow, ErrSequenceNoTooLow)
  else if bool_decide (sequenceNo s + 2 * limit + 1 < n)
  then Some (CodeSequenceNoTooHigh, ErrSequenceNoTooHigh)
  else None.

Definition verdict (now limit : Z) (s : validatorState) (id n kind : Z) : option (Z * bad_cause) :=
  match id_verdict now s id with Some c => Some c | None => seq_verdict limit s n kind end.

Lemma validateMessageID_verdict L now s id n :
  ids_ok L s ->
  validateMessageID now s id n =
  match id_verdict now s id with
  | Some (code, cause) => badMessage id n code (serverSalt s) cause
  | None => Ok tt
  end.
Proof.
  intros [_ Hset _ _]. unfold validateMessageID, id_verdict. rewrite Hset.
  rewrite Z.shiftr_div_pow2 by lia. unfold wrapU, clientMessagePastWindow, clientMessageFutureWindow.
  assert (Z.rem id 4 = 0 <-> id mod 4 = 0) by (Z.to_euclidean_division_equations; lia).
  assert (Hl : id ∈ (list_to_set (recentIDs s) : gset Z) <-> id ∈ recentIDs s) by apply elem_of_list_to_set.
  repeat case_match; repeat case_bool_decide; simplify_eq; bools; try done; exfalso; try tauto; intuition lia.
Qed.

Lemma validateSequenceNo_verdict limit s id n kind :
  1 <= limit <= MaxContentSequenceLimit -> seqs_ok limit s -> validKind kind = true ->
  validateSequenceNo limit s id n kind =
  match seq_verdict limit s n kind with
  | Some (code, cause) => badMessage id n code (serverSalt s) cause
  | None => Ok tt
  end.
Proof.
  intros Hl Hok Hkind. pose proof Hok as [_ Hset Hw [He Hb]].
  unfold validateSequenceNo, seq_verdict. cbv zeta. rewrite land1, Hset.
  rewrite (wrapS_id 32 (sequenceNo s + 1)) by (unfold inS; Z.to_euclidean_division_equations; lia).
  assert (Hin : n ∈ (list_to_set (recentSeqNos s) : gset Z) <-> n ∈ recentSeqNos s)
    by apply elem_of_list_to_set.
  assert (Hnil : len (recentSeqNos s) = 0 <-> recentSeqNos s = []).
  { split; [|by intros ->]. destruct (recentSeqNos s); [done|]. rewrite len_cons.
    pose proof (len_nonneg l). lia. }
  assert (Hm2 : n mod 2 = 0 \/ n mod 2 = 1) by (Z.to_euclidean_division_equations; lia).
  destruct (Z.ltb_spec n 0); [by rewrite bool_decide_eq_true_2|].
  rewrite (bool_decide_eq_false_2 (n < 0)) by lia.
  destruct (Z.eqb_spec kind ContentRelated) as [->|Hk]; cbn [andb negb].
  - change (ContentRelated =? Container) with false.
    rewrite (bool_decide_eq_false_2 (ContentRelated <> ContentRelated)) by (intros Hc; by apply Hc).
    destruct (Z.eqb_spec n MaxInt32) as [->|]; [by rewrite bool_decide_eq_true_2|].
    rewrite (bool_decide_eq_false_2 (n = MaxInt32)) by done.
    destruct (Z.eqb_spec n (sequenceNo s + 1)) as [->|].
    + rewrite bool_decide_eq_false_2 by (Z.to_euclidean_division_equations; lia).
      case_bool_decide; [done|].
      rewrite bool_decide_eq_false_2, bool_decide_eq_false_2; [done|lia|].
      intros [Hx|Hx]; [apply Hw in Hx; lia|lia].
    + rewrite andb_false_r, andb_true_r.
      destruct (Z.eqb_spec (n mod 2) 0) as [|Ho]; [by rewrite bool_decide_eq_true_2|].
      rewrite (bool_decide_eq_false_2 (n mod 2 = 0)) by done.
      assert (Hstart : (sequenceNo s =? 0) && (len (recentSeqNos s) =? 0) =
                bool_decide (sequenceNo s = 0 /\ recentSeqNos s = [])).
      { apply eq_true_iff_eq. rewrite andb_true_iff, !Z.eqb_eq, bool_decide_eq_true. by rewrite Hnil. }
      rewrite Hstart. case_bool_decide; [done|].
      destruct (bool_decide_reflect (n ∈ (list_to_set (recentSeqNos s) : gset Z))) as [Hx|Hx].
      { rewrite bool_decide_eq_true_2; [done|]. left. by apply Hin. }
      assert (Hlow : (n <? (if sequenceNo s - limit * 2 + 1 <? 1 then 1 else sequenceNo s - limit * 2 + 1)) =
                bool_decide (n ∈ recentSeqNos s \/ n <= sequenceNo s - 2 * limit)).
      { apply eq_true_iff_eq. rewrite Z.ltb_lt, bool_decide_eq_true, <- Hin.
        destruct (Z.ltb_spec (sequenceNo s - limit * 2 + 1) 1);
          split; intros Hc; try (destruct Hc as [Hc|Hc]; [done|]); try right;
          Z.to_euclidean_division_equations; lia. }
      rewrite Hlow. case_bool_decide; [done|].
      destruct (Z.ltb_spec (sequenceNo s + limit * 2 + 1) n);
        [by rewrite bool_decide_eq_true_2 by lia|by rewrite bool_decide_eq_false_2 by lia].
  - rewrite (bool_decide_eq_true_2 (kind <> ContentRelated)) by done. rewrite andb_true_r, andb_false_r.
    destruct (Z.eqb_spec (n mod 2) 0) as [Hz|Hz].
    + rewrite bool_decide_eq_true_2 by done. simpl. by repeat case_match.
    + rewrite bool_decide_eq_false_2 by done. simpl. case_match; [done|].
      destruct (Z.eqb_spec n (sequenceNo s)) as [->|]; [by rewrite He in Hz|done].
Qed.

(** A next-in-order message of the session passes every check. *)
Lemma verdict_next now limit s id :
  1 <= limit <= MaxContentSequenceLimit -> seqs_ok limit s -> messageIDFloor s <= highestMessageID s ->
  (forall x, x ∈ recentIDs s -> x <= highestMessageID s) -> highestMessageID s < id ->
  id mod 4 = 0 -> id mod 2 ^ 32 <> 0 ->
  now - 300 * Second <= id / 2 ^ 32 * Second <= now + 30 * Second ->
  sequenceNo s + 1 < MaxInt32 ->
  verdict now limit s id (sequenceNo s + 1) ContentRelated = None.
Proof.
  intros Hl [_ _ Hw [He Hb]] Hf Hh Hid H4 H32 Ht Hm. unfold verdict, id_verdict.
  rewrite !bool_decide_eq_false_2; [|intros [?|[?|Hx%Hh]]; lia|lia|lia|lia].
  unfold seq_verdict. rewrite (bool_decide_eq_false_2 (_ < 0)) by lia.
  rewrite (bool_decide_eq_false_2 (ContentRelated <> ContentRelated)) by (intros Hc; by apply Hc).
  rewrite (bool_decide_eq_false_2 (_ = MaxInt32)) by lia.
  rewrite (bool_decide_eq_false_2 (_ mod 2 = 0)) by (Z.to_euclidean_division_equations; lia).
  case_bool_decide; [done|].
  rewrite !bool_decide_eq_false_2; [done|lia|]. intros [Hx|Hx]; [apply Hw in Hx|]; lia.
Qed.

(** * Properties *)

Definition sample_config : Config :=
  {| cfg_SessionID := 7; cfg_ServerSalt := 5; cfg_SequenceNo := 0; cfg_HighestMessageID := 0;
     cfg_MessageIDFloor := 0; cfg_RecentMessageIDs := []; cfg_RecentMessageIDLimit := 2;
     cfg_RecentSequenceNos := []; cfg_ContentSequenceLimit := 2 |}.

Definition sample_validator : Validator :=
  {| messageIDLimit := 2; sequenceLimit := 2;
     state := {| sessionID := 7; serverSalt := 5; sequenceNo := 0; highestMessageID := 0;
                 messageIDFloor := 0; recentIDs := []; recentSet := ∅; recentSeqNos := [];
                 recentSeqSet := ∅ |} |}.

Definition sample_now : Z := 1000 * Second.

Definition sample_id (k : Z) : Z := 1000 * 2 ^ 32 + 4 * k.

Definition sample_message (k n : Z) : Message :=
  {| m_ServerSalt := 5; m_SessionID := 7; m_MessageID := sample_id k; m_SequenceNo := n;
     m_Kind := ContentRelated; m_Children := [] |}.

Definition sample_container : Message :=
  {| m_ServerSalt := 5; m_SessionID := 7; m_MessageID := sample_id 9; m_SequenceNo := 0;
     m_Kind := Container;
     m_Children := [{| cm_MessageID := sample_id 1; cm_SequenceNo := 1; cm_Kind := ContentRelated |};
                    {| cm_MessageID := sample_id 2; cm_SequenceNo := 2; cm_Kind := NonContentRelated |}] |}.

(** C1. Replay protection over a session's whole life, restarts from the
    persisted snapshot and salt changes included: the identifiers of all
    accepted records are pairwise distinct, so are the sequence numbers of all
    accepted content records, and none of them was already known to the
    restored state, although only a bounded number of each is remembered. *)
Theorem run_no_replay c v rs :
  inS 32 (cfg_SequenceNo c) -> NewValidator c = Ok v -> Forall request_typed rs ->
  let '(v', (ids, seqs)) := run rs v in
  NoDup ids /\ NoDup seqs /\
  (forall id, id ∈ ids -> ~ known_id (state v) id) /\
  (forall n, n ∈ seqs -> ~ known_seq (sequenceLimit v) (state v) n).
Proof.
  intros Hty H Hrs. pose proof (run_progress rs v (NewValidator_ok c v Hty H) Hrs) as Hp.
  destruct (run rs v) as [v' [ids seqs]]. destruct Hp as [_ _ N1 A1 _ N2 A2 _].
  split_and!; try done; intros x Hx; [by apply A1|by apply A2].
Qed.

Lemma run_no_replay_witness :
  (run [ReqValidate (fun _ => sample_now) sample_container; ReqRestart;
        ReqValidate (fun _ => sample_now) (sample_message 1 3);
        ReqValidate (fun _ => sample_now) (sample_message 3 3)] sample_validator).2
  = ([sample_id 9; sample_id 1; sample_id 2; sample_id 3], [1; 3]) /\
  NoDup [sample_id 9; sample_id 1; sample_id 2; sample_id 3].
Proof.
  assert (E : (run [ReqValidate (fun _ => sample_now) sample_container; ReqRestart;
        ReqValidate (fun _ => sample_now) (sample_message 1 3);
        ReqValidate (fun _ => sample_now) (sample_message 3 3)] sample_validator).2
     = ([sample_id 9; sample_id 1; sample_id 2; sample_id 3], [1; 3])) by (vm_compute; reflexivity).
  split; [exact E|].
  pose proof (run_no_replay sample_config sample_validator
    [ReqValidate (fun _ => sample_now) sample_container; ReqRestart;
     ReqValidate (fun _ => sample_now) (sample_message 1 3);
     ReqValidate (fun _ => sample_now) (sample_message 3 3)]) as H.
  destruct (run _ _) as [v' [ids seqs]] in H, E. simpl in E. injection E as -> ->.
  apply H.
  - unfold inS. simpl. lia.
  - vm_compute. reflexivity.
  - repeat apply Forall_cons_2; try apply Forall_nil_2; try exact I;
      (split; [unfold inS; simpl; lia|]); intros c Hc; set_unfold in Hc;
      repeat destruct Hc as [->|Hc]; try done; unfold inS; simpl; lia.
Defined.

(** C3. Every operation of the validator keeps its invariant: the remembered
    identifiers and sequence numbers agree with their lookup sets, respect the
    configured capacities, lie above the floor and in the sequence window, and
    the int32 sequence base stays even and non-negative. *)
Theorem validator_invariant :
  (forall c v, inS 32 (cfg_SequenceNo c) -> NewValidator c = Ok v -> wf v) /\
  (forall r v, wf v -> request_typed r -> wf (serve r v).1) /\
  (forall v, wf v -> len (recentIDs (state v)) <= 4096 /\ len (recentSeqNos (state v)) <= 4096).
Proof.
  split; [exact NewValidator_ok|]. split.
  - intros r v Hwf Hty. pose proof (serve_progress r v Hwf Hty) as Hp.
    destruct (serve r v) as [v' [ids seqs]]. apply Hp.
  - intros v [Hl1 Hl2 Hi Hs]. unfold MaxRecentMessageIDLimit, MaxContentSequenceLimit in *.
    pose proof (ids_len _ _ Hi). pose proof (seqs_len (sequenceLimit v) (state v) ltac:(lia) Hs). lia.
Qed.

(** C2. [Validate] is all or nothing: on an error the validator is unchanged;
    on success every record of the message, children of a container included,
    was unknown before and is known after, and the same message is refused
    from then on, whatever the clock says. *)
Theorem Validate_atomic clock m v :
  wf v -> message_typed m ->
  match Validate clock m v with
  | (Err _, v') => v' = v
  | (Ok _, v') =>
      wf v' /\
      (forall id, id ∈ message_ids m -> ~ known_id (state v) id /\ known_id (state v') id) /\
      (forall n, n ∈ message_seqs m -> ~ known_seq (sequenceLimit v) (state v) n) /\
      forall clock', is_ok (Validate clock' m v').1 = false
  end.
Proof.
  intros Hwf Hty. destruct (Validate clock m v) as [[[]|e] v'] eqn:E.
  - destruct (Validate_accepting _ _ _ _ Hwf Hty E) as (Hwf' & _ & _ & Ha).
    split; [done|]. split; [apply Ha|]. split; [apply Ha|]. intros clock'.
    destruct (Validate clock' m v') as [[[]|e] v2] eqn:E2; [|done]. exfalso.
    destruct (Validate_accepting _ _ _ _ Hwf' Hty E2) as (_ & _ & _ & Ha').
    assert (Hin : m_MessageID m ∈ message_ids m) by (unfold message_ids; left).
    apply (acc_id _ _ _ _ _ _ Ha' _ Hin). apply (acc_id _ _ _ _ _ _ Ha _ Hin).
  - unfold Validate in E. case_match; by simplify_eq.
Qed.

Lemma Validate_atomic_witness :
  is_ok (Validate (fun _ => sample_now) sample_container sample_validator).1 = true /\
  is_ok (Validate (fun _ => sample_now) sample_container
          (Validate (fun _ => sample_now) sample_container sample_validator).2).1 = false.
Proof.
  assert (E : is_ok (Validate (fun _ => sample_now) sample_container sample_validator).1 = true)
    by (vm_compute; reflexivity).
  split; [exact E|].
  pose proof (Validate_atomic (fun _ => sample_now) sample_container sample_validator) as H.
  destruct (Validate (fun _ => sample_now) sample_container sample_validator) as [[u|e] v'];
    [|discriminate E].
  apply H.
  - split; [vm_compute; split; discriminate..| |].
    + split; simpl; [constructor|reflexivity|unfold len; simpl; lia|intros x Hx; inversion Hx].
    + split; simpl; [constructor|reflexivity|intros x Hx; inversion Hx|split; [reflexivity|lia]].
  - split; [unfold inS; simpl; lia|]. intros c Hc. set_unfold in Hc.
    destruct Hc as [->|[->|[]]]; unfold inS; simpl; lia.
Defined.

(** Persisting a validator and restoring it under the same limits gives
    back exactly the same validator, memory order included. *)
Lemma Snapshot_restore v : wf v -> NewValidator (restore_config v (Snapshot_of v)) = Ok v.
Proof. apply NewValidator_restore. Qed.

Lemma Snapshot_restore_witness :
  NewValidator (restore_config sample_validator (Snapshot_of sample_validator)) = Ok sample_validator.
Proof.
  apply Snapshot_restore. split; [vm_compute; split; discriminate..| |].
  - split; simpl; [constructor|reflexivity|unfold len; simpl; lia|intros x Hx; inversion Hx].
  - split; simpl; [constructor|reflexivity|intros x Hx; inversion Hx|split; [reflexivity|lia]].
Defined.

(** The guard chain of one record decides exactly the protocol's table,
    with the code and cause of the first violated rule: identifier format, the
    300 s / 30 s time window, replay, parity by kind, and the window of
    [2 * limit] around the sequence base; no int32 computation in it overflows. *)
Lemma validateOne_decides now v s id n kind :
  limits_ok v -> ids_ok (messageIDLimit v) s -> seqs_ok (sequenceLimit v) s ->
  validateOne now v s id n kind =
  if validKind kind then
    match verdict now (sequenceLimit v) s id n kind with
    | Some (code, cause) => badMessage id n code (serverSalt s) cause
    | None => Ok (record_one v s id n kind)
    end
  else Err ErrInvalidMessageKind.
Proof.
  intros [Hl1 Hl2] Hi Hs. unfold validateOne. destruct (validKind kind) eqn:Hk; [|done]. cbn [negb].
  rewrite (validateMessageID_verdict _ now s id n Hi), validateSequenceNo_verdict by done.
  unfold verdict. destruct (id_verdict now s id) as [[]|]; [done|].
  by destruct (seq_verdict _ s n kind) as [[]|].
Qed.

Lemma validateOne_decides_witness :
  validateOne sample_now sample_validator (state sample_validator) (sample_id 1) 2 ContentRelated =
  badMessage (sample_id 1) 2 CodeExpectedOddSequenceNo 5 ErrExpectedContentSequence.
Proof.
  rewrite validateOne_decides.
  - vm_compute. reflexivity.
  - vm_compute. split; split; discriminate.
  - split; simpl; [constructor|reflexivity|unfold len; simpl; lia|intros x Hx; inversion Hx].
  - split; simpl; [constructor|reflexivity|intros x Hx; inversion Hx|split; [reflexivity|lia]].
Defined.

(** Progress: the next in-order content message of a session, with a fresh
    identifier above all seen ones and within the time window, is accepted
    whenever the identifier floor is not above the highest identifier. *)
Lemma Validate_accepts_next clock m v :
  wf v -> messageIDFloor (state v) <= highestMessageID (state v) ->
  m_Kind m = ContentRelated -> m_Children m = [] ->
  m_ServerSalt m = serverSalt (state v) -> m_SessionID m <> 0 ->
  (sessionID (state v) = 0 \/ m_SessionID m = sessionID (state v)) ->
  highestMessageID (state v) < m_MessageID m -> m_MessageID m mod 4 = 0 -> m_MessageID m mod 2 ^ 32 <> 0 ->
  clock 0%nat - 300 * Second <= m_MessageID m / 2 ^ 32 * Second <= clock 0%nat + 30 * Second ->
  m_SequenceNo m = sequenceNo (state v) + 1 -> m_SequenceNo m < MaxInt32 ->
  is_ok (Validate clock m v).1 = true.
Proof.
  intros Hwf Hf Hk Hc Hsalt Hs0 Hs Hid H4 H32 Ht Hn Hm. pose proof Hwf as [Hl1 Hl2 Hi Hq].
  unfold Validate. rewrite clone_id by done. unfold validateEnvelope.
  rewrite (proj2 (Z.eqb_neq _ 0)) by done. rewrite Hsalt, Z.eqb_refl, Hk, Hc, Hn.
  assert ((negb (sessionID (state v) =? 0) && negb (m_SessionID m =? sessionID (state v)))%bool = false) as ->.
  { destruct Hs as [-> | ->]; [done|]. by rewrite Z.eqb_refl, andb_false_r. }
  simpl. unfold validateOne. simpl. rewrite (validateMessageID_verdict _ _ _ _ _ Hi).
  rewrite validateSequenceNo_verdict by done.
  pose proof (verdict_next (clock 0%nat) (sequenceLimit v) (state v) (m_MessageID m)) as Hv.
  unfold verdict in Hv. specialize (Hv Hl2 Hq Hf).
  rewrite Hn in Hm. destruct (id_verdict _ _ _); [discriminate Hv|rewrite Hv]; try done.
  all: intros x Hx; by apply Hi.
Qed.

Lemma Validate_accepts_next_witness :
  is_ok (Validate (fun _ => sample_now) (sample_message 1 1) sample_validator).1 = true.
Proof.
  apply Validate_accepts_next; try (vm_compute; done); try reflexivity.
  - split; [vm_compute; split; discriminate..| |].
    + split; simpl; [constructor|reflexivity|unfold len; simpl; lia|intros x Hx; inversion Hx].
    + split; simpl; [constructor|reflexivity|intros x Hx; inversion Hx|split; [reflexivity|lia]].
  - right. reflexivity.
Defined.
