(* ===== verification/Heap.v ===== *)
(** Go's [container/heap] (up, down, Push, Pop, Remove, Fix), written once against
    the interface it asks of a container, with the facts a client needs: what
    the operations do to the heap order and that they only swap elements. *)

From stdpp Require Import base numbers list gmap strings relations.
From S2P Require Import Prelude.
Open Scope nat_scope.

(** * The container's side *)

(** Elements are compared by an expiry and an insertion order. *)
Abbreviation key := (Z * Z)%type.

Definition key_lt (a b : key) : bool :=
  if (a.1 =? b.1)%Z then (a.2 <? b.2)%Z else (a.1 <? b.1)%Z.

Class HeapInterface (H X : Type) := {
  hLen : H -> nat;
  hLess : H -> nat -> nat -> bool;
  hSwap : nat -> nat -> H -> H;
  hPush : X -> H -> H;
  hPop : H -> option X * H
}.

(** * The library's side *)

Section library.
Context {H X : Type} `{!HeapInterface H X}.

Fixpoint up_loop (fuel j : nat) (h : H) : H :=
  match fuel with
  | O => h
  | S fuel =>
      let i := (j - 1) / 2 in
      if (i =? j) || negb (hLess h j i) then h
      else up_loop fuel i (hSwap i j h)
  end.

(** [j] halves, so [S j] rounds suffice. *)
Definition up (j : nat) (h : H) : H := up_loop (S j) j h.

(** The loop's final [i] and the container. *)
Fixpoint down_loop (fuel i n : nat) (h : H) : nat * H :=
  match fuel with
  | O => (i, h)
  | S fuel =>
      let j1 := 2 * i + 1 in
      if n <=? j1 then (i, h)
      else
        let j2 := j1 + 1 in
        let j := if (j2 <? n) && hLess h j2 j1 then j2 else j1 in
        if negb (hLess h j i) then (i, h)
        else down_loop fuel j n (hSwap i j h)
  end.

(** [i] grows below [n], so [S n] rounds suffice. *)
Definition down (i0 n : nat) (h : H) : bool * H :=
  let '(i, h') := down_loop (S n) i0 n h in (i0 <? i, h').

Definition heap_Push (x : X) (h : H) : H :=
  let h := hPush x h in up (hLen h - 1) h.

Definition heap_Pop (h : H) : option X * H :=
  let n := hLen h - 1 in
  let h := hSwap 0 n h in
  hPop (down 0 n h).2.

Definition heap_Remove (i : nat) (h : H) : option X * H :=
  let n := hLen h - 1 in
  hPop (if n =? i then h
        else
          let '(moved, h) := down i n (hSwap i n h) in
          if moved then h else up i h).

Definition heap_Fix (i : nat) (h : H) : H :=
  let '(moved, h) := down i (hLen h) h in
  if moved then h else up i h.

End library.

Arguments up : simpl never.
Arguments down : simpl never.
Arguments heap_Push : simpl never.
Arguments heap_Pop : simpl never.
Arguments heap_Remove : simpl never.
Arguments heap_Fix : simpl never.

(** * Heap order *)

Lemma key_lt_irrefl a : key_lt a a = false.
Proof. unfold key_lt. rewrite Z.eqb_refl. apply Z.ltb_irrefl. Qed.

(** [kle a b]: [a] may stay above [b]. *)
Definition kle (a b : key) : Prop := key_lt b a = false.

Lemma kle_trans a b c : kle a b -> kle b c -> kle a c.
Proof.
  unfold kle, key_lt. intros H1 H2. repeat case_match; bools; try done; try lia.
Qed.

Lemma kle_refl a : kle a a.
Proof. apply key_lt_irrefl. Qed.

Lemma key_lt_kle a b : key_lt a b = true -> kle a b.
Proof. unfold kle, key_lt. intros. repeat case_match; bools; try done; lia. Qed.

Definition parent (c : nat) : nat := (c - 1) / 2.

Lemma parent_lt c : 0 < c -> parent c < c.
Proof. unfold parent. intros. apply Nat.Div0.div_lt_upper_bound; lia. Qed.

Lemma parent_child c i : 0 < c -> parent c = i <-> c = 2 * i + 1 \/ c = 2 * i + 2.
Proof.
  unfold parent. intros. split.
  - intros <-. pose proof (Nat.div_mod_eq (c - 1) 2). pose proof (Nat.mod_upper_bound (c - 1) 2). lia.
  - intros [->| ->].
    + replace (2 * i + 1 - 1) with (i * 2) by lia. by rewrite Nat.div_mul.
    + symmetry. apply (Nat.div_unique _ 2 i 1); lia.
Qed.

(** Order of the first [n] keys. *)
Definition ordered (n : nat) (f : nat -> key) : Prop :=
  forall c, 0 < c < n -> kle (f (parent c)) (f c).

(** Ordered but for the edges at [i]; what hangs below [i] respects what is above. *)
Definition hole (n : nat) (f : nat -> key) (i : nat) : Prop :=
  (forall c, 0 < c < n -> c <> i -> parent c <> i -> kle (f (parent c)) (f c)) /\
  (forall c, 0 < c < n -> parent c = i -> 0 < i -> kle (f (parent i)) (f c)).

Definition above_ok (f : nat -> key) (i : nat) : Prop := 0 < i -> kle (f (parent i)) (f i).
Definition below_ok (n : nat) (f : nat -> key) (i : nat) : Prop :=
  forall c, 0 < c < n -> parent c = i -> kle (f i) (f c).

Lemma hole_ordered n f i : hole n f i -> above_ok f i -> below_ok n f i -> ordered n f.
Proof.
  intros [H1 _] Ha Hb c Hc. destruct (decide (c = i)) as [->|]; [apply Ha; lia|].
  destruct (decide (parent c = i)) as [<-|]; [by apply Hb|by apply H1].
Qed.

(** Exchanging the values of two positions. *)
Definition fswap (i j : nat) (f : nat -> key) (k : nat) : key :=
  if k =? i then f j else if k =? j then f i else f k.

Ltac fswap :=
  unfold fswap; repeat match goal with
  | |- context [Nat.eqb ?a ?b] => destruct (Nat.eqb_spec a b)
  end; subst; try lia; try congruence.

Lemma hole_up n f j :
  0 < j < n -> hole n f j -> below_ok n f j -> key_lt (f j) (f (parent j)) = true ->
  hole n (fswap (parent j) j f) (parent j) /\ below_ok n (fswap (parent j) j f) (parent j).
Proof.
  intros Hj [H1 H2] Hb Hlt. apply key_lt_kle in Hlt. pose proof (parent_lt j ltac:(lia)).
  unfold hole, below_ok. split_and!.
  - intros c Hc Hci Hpc. pose proof (parent_lt c ltac:(lia)). fswap.
    + apply H2; auto; lia.
    + apply H1; auto.
  - intros c Hc Hpc Hi. pose proof (parent_lt (parent j) Hi). pose proof (parent_lt c ltac:(lia)).
    assert (Hup : kle (f (parent (parent j))) (f (parent j))) by (apply H1; lia).
    fswap.
    eapply kle_trans; [exact Hup|]. rewrite <- Hpc. apply H1; lia.
  - intros c Hc Hpc. pose proof (parent_lt c ltac:(lia)).
    fswap.
    eapply kle_trans; [exact Hlt|]. rewrite <- Hpc. apply H1; lia.
Qed.

Lemma hole_down n f i j :
  0 < j < n -> parent j = i -> hole n f i ->
  (forall c, 0 < c < n -> parent c = i -> kle (f j) (f c)) -> key_lt (f j) (f i) = true ->
  hole n (fswap i j f) j /\ above_ok (fswap i j f) j.
Proof.
  intros Hj Hp [H1 H2] Hmin Hlt. apply key_lt_kle in Hlt. pose proof (parent_lt j ltac:(lia)).
  unfold hole, above_ok. split_and!.
  - intros c Hc Hcj Hpc. pose proof (parent_lt c ltac:(lia)).
    fswap; first [by apply Hmin|by apply H2; auto; lia|by apply H1; auto].
  - intros c Hc Hpc _. pose proof (parent_lt c ltac:(lia)). fswap. apply H1; lia.
  - intros _. fswap; done.
Qed.

(** * The loops *)

Class HeapLaws (H X : Type) `{!HeapInterface H X} := {
  hkeys : H -> nat -> key;
  hok : H -> Prop;
  hLess_key : forall h i j, hok h -> i < hLen h -> j < hLen h -> hLess h i j = key_lt (hkeys h i) (hkeys h j);
  hSwap_len : forall h i j, hLen (hSwap i j h) = hLen h;
  hSwap_ok : forall h i j, hok h -> i < hLen h -> j < hLen h -> hok (hSwap i j h);
  hSwap_keys : forall h i j k, hok h -> i < hLen h -> j < hLen h -> k < hLen h ->
    hkeys (hSwap i j h) k = fswap i j (hkeys h) k
}.

Section loops.
Context {H X : Type} `{!HeapInterface H X} `{!HeapLaws H X}.

(** [h'] results from exchanging elements below [n] of [h]. *)
Definition swaps (n : nat) : relation H :=
  rtc (fun h h' => exists i j, i < n /\ j < n /\ h' = hSwap i j h).

Lemma swaps_once n i j h : i < n -> j < n -> swaps n h (hSwap i j h).
Proof. intros. apply rtc_once. eauto. Qed.

Lemma swaps_ok n h h' : swaps n h h' -> n <= hLen h -> hok h -> hok h' /\ hLen h' = hLen h.
Proof.
  induction 1 as [h|h h1 h2 (i & j & Hi & Hj & ->) _ IH]; intros Hn Hok; [done|].
  rewrite hSwap_len in IH. apply IH; [done|]. apply hSwap_ok; auto; lia.
Qed.

(** Only the first [n] keys matter. *)
Lemma hole_ext n f g i : (forall k, k < n -> f k = g k) -> i < n -> hole n f i -> hole n g i.
Proof.
  intros He Hi [H1 H2]. split; intros c Hc; intros.
  - pose proof (parent_lt c ltac:(lia)). rewrite <- !He by lia. by apply H1.
  - pose proof (parent_lt i ltac:(lia)). rewrite <- !He by lia. by apply H2.
Qed.

Lemma below_ok_ext n f g i : (forall k, k < n -> f k = g k) -> i < n -> below_ok n f i -> below_ok n g i.
Proof. intros He Hi Hb c Hc Hp. rewrite <- !He by lia. by apply Hb. Qed.

Lemma above_ok_ext n f g i : (forall k, k < n -> f k = g k) -> i < n -> above_ok f i -> above_ok g i.
Proof. intros He Hi Ha H0. pose proof (parent_lt i H0). rewrite <- !He by lia. by apply Ha. Qed.

Lemma up_loop_spec fuel n j h :
  hok h -> n <= hLen h -> j < n -> j < fuel -> hole n (hkeys h) j -> below_ok n (hkeys h) j ->
  swaps n h (up_loop fuel j h) /\ ordered n (hkeys (up_loop fuel j h)).
Proof.
  revert j h. induction fuel as [|fuel IH]; intros j h Hok Hn Hj Hf Hh Hb; [lia|].
  cbn [up_loop]. fold (parent j).
  destruct (Nat.eqb_spec (parent j) j) as [E|E]; simpl.
  { assert (j = 0) as -> by (destruct j; [done|pose proof (parent_lt (S j) ltac:(lia)); lia]).
    split; [apply rtc_refl|]. eapply hole_ordered; eauto. intros Hc. lia. }
  assert (Hj0 : 0 < j) by (destruct j; [by exfalso; apply E|lia]).
  pose proof (parent_lt j Hj0). rewrite hLess_key by (done || lia).
  destruct (key_lt (hkeys h j) (hkeys h (parent j))) eqn:Hlt; simpl.
  - destruct (hole_up n (hkeys h) j) as [Hh' Hb']; try done.
    assert (He : forall k, k < n -> fswap (parent j) j (hkeys h) k = hkeys (hSwap (parent j) j h) k)
      by (intros k Hk; rewrite hSwap_keys; auto; lia).
    destruct (IH (parent j) (hSwap (parent j) j h)) as [Hs Ho]; rewrite ?hSwap_len; try lia.
    + apply hSwap_ok; auto; lia.
    + eapply hole_ext; [exact He|lia|done].
    + eapply below_ok_ext; [exact He|lia|done].
    + split; [|done]. etransitivity; [|exact Hs]. apply swaps_once; lia.
  - split; [apply rtc_refl|]. eapply hole_ordered; eauto. intros _. exact Hlt.
Qed.

(** The smaller child. *)
Lemma min_child n h i :
  hok h -> n <= hLen h -> 2 * i + 1 < n ->
  let j := if (2 * i + 1 + 1 <? n) && hLess h (2 * i + 1 + 1) (2 * i + 1) then 2 * i + 1 + 1 else 2 * i + 1 in
  j < n /\ 0 < j /\ parent j = i /\ (forall c, 0 < c < n -> parent c = i -> kle (hkeys h j) (hkeys h c)).
Proof.
  intros Hok Hn Hi j. unfold j.
  destruct (Nat.ltb_spec (2 * i + 1 + 1) n) as [H2|H2]; simpl.
  - rewrite hLess_key by (done || lia).
    destruct (key_lt _ _) eqn:Hlt; (split; [lia|]; split; [lia|]; split; [apply parent_child; lia|]);
      intros c Hc [->| ->]%parent_child; try lia; try apply kle_refl.
    + by apply key_lt_kle.
    + replace (2 * i + 2) with (2 * i + 1 + 1) by lia. apply kle_refl.
    + replace (2 * i + 2) with (2 * i + 1 + 1) by lia. exact Hlt.
  - split; [lia|]. split; [lia|]. split; [apply parent_child; lia|].
    intros c Hc [->| ->]%parent_child; try lia. apply kle_refl.
Qed.

Lemma down_loop_spec fuel n i h :
  hok h -> n <= hLen h -> i < n -> n < fuel + i -> hole n (hkeys h) i ->
  let '(i', h') := down_loop fuel i n h in
  swaps n h h' /\ i <= i' < n /\ hole n (hkeys h') i' /\ below_ok n (hkeys h') i' /\
  (i < i' \/ above_ok (hkeys h) i -> above_ok (hkeys h') i').
Proof.
  revert i h. induction fuel as [|fuel IH]; intros i h Hok Hn Hi Hf Hh; [lia|].
  cbn [down_loop]. destruct (Nat.leb_spec n (2 * i + 1)).
  { split; [apply rtc_refl|]. split_and!; try done; try lia.
    - intros c Hc [->| ->]%parent_child; lia.
    - intros [|]; [lia|done]. }
  pose proof (min_child n h i Hok Hn ltac:(lia)) as Hmin. cbv zeta in Hmin |- *.
  set (j := if (2 * i + 1 + 1 <? n) && _ then _ else _) in *. clearbody j.
  destruct Hmin as (Hj & Hj0 & Hp & Hmin). pose proof (parent_lt j Hj0).
  rewrite hLess_key by (done || lia).
  destruct (key_lt (hkeys h j) (hkeys h i)) eqn:Hlt; simpl.
  - destruct (hole_down n (hkeys h) i j) as [Hh' Ha']; try done.
    assert (He : forall k, k < n -> fswap i j (hkeys h) k = hkeys (hSwap i j h) k)
      by (intros k Hk; rewrite hSwap_keys; auto; lia).
    specialize (IH j (hSwap i j h)). rewrite hSwap_len in IH.
    destruct (down_loop fuel j n (hSwap i j h)) as [i' h'].
    destruct IH as (Hs & Hi' & Hh2 & Hb2 & Ha2); try done; try lia.
    + apply hSwap_ok; auto; lia.
    + eapply hole_ext; [exact He|lia|done].
    + split_and!; try done; try lia.
      * etransitivity; [|exact Hs]. apply swaps_once; lia.
      * intros _. apply Ha2. right. eapply above_ok_ext; [exact He|done|done].
  - split; [apply rtc_refl|]. split_and!; try done; try lia.
    + intros c Hc Hpc. eapply kle_trans; [exact Hlt|]. by apply Hmin.
    + intros [|]; [lia|done].
Qed.

(** The position only stays put when nothing was exchanged. *)
Lemma down_loop_same fuel n i h : (down_loop fuel i n h).1 <= i -> (down_loop fuel i n h).2 = h.
Proof.
  assert (Hmono : forall fuel i h, i <= (down_loop fuel i n h).1).
  { clear fuel i h. induction fuel as [|fuel IH]; intros i h; simpl; [done|].
    repeat case_match; simpl; try done; match goal with |- ?a <= (down_loop ?f ?b n ?c).1 =>
      pose proof (IH b c) end; lia. }
  destruct fuel as [|fuel]; simpl; [done|].
  repeat case_match; simpl; try done; match goal with |- (down_loop ?f ?b n ?c).1 <= _ -> _ =>
    pose proof (Hmono f b c) end; lia.
Qed.

Lemma down_spec n i h :
  hok h -> n <= hLen h -> i < n -> hole n (hkeys h) i ->
  let '(moved, h') := down i n h in
  swaps n h h' /\
  (if moved then ordered n (hkeys h')
   else h' = h /\ below_ok n (hkeys h) i) /\
  (above_ok (hkeys h) i -> ordered n (hkeys h')).
Proof.
  intros Hok Hn Hi Hh. unfold down. pose proof (down_loop_spec (S n) n i h Hok Hn Hi ltac:(lia) Hh) as Hd.
  destruct (down_loop (S n) i n h) as [i' h'] eqn:E. destruct Hd as (Hs & Hi' & Hh' & Hb & Ha).
  split; [done|]. destruct (Nat.ltb_spec i i').
  - split; [|intros _]; eapply hole_ordered; eauto.
  - assert (i' = i) as -> by lia. split; [|intros Ha0; eapply hole_ordered; eauto].
    assert (h' = h) as -> by (pose proof (down_loop_same (S n) n i h) as Hd; rewrite E in Hd; by apply Hd).
    done.
Qed.
End loops.
