(* ===== verification/Reliability.v ===== *)
(** The outbound message store of mtproto/reliability/store.go: a map of sent
    messages with a container/heap on their expiry.  Map and heap share entry
    objects; an entry is identified by its message id, under which it lives in
    [entries], and the heap is the list of these identities.  Times are
    nanoseconds; the clock of a call is its argument [now]. *)

From stdpp Require Import base numbers list gmap strings relations.
From S2P Require Import Prelude Heap.
Open Scope Z_scope.

(** * Data *)

Inductive store_error := ErrInvalidCapacity | ErrInvalidTTL | ErrExpired.

Record StoreConfig := { sc_Capacity : Z; sc_TTL : Z }.

Record SentMessage := {
  sm_MessageID : Z;
  sm_RequestMessageID : Z;
  sm_SequenceNumber : Z;
  sm_Payload : bytes;
  sm_SentAt : Z;
  sm_Acknowledged : bool
}.

Record entry := {
  e_message : SentMessage;
  e_expiresAt : Z;
  e_order : Z;
  e_index : Z
}.

Record Store := {
  capacity : Z;
  ttl : Z;
  order : Z;
  entries : gmap Z entry;
  expiry : list Z
}.

Definition set_index (i : Z) (e : entry) : entry :=
  {| e_message := e_message e; e_expiresAt := e_expiresAt e; e_order := e_order e; e_index := i |}.

Definition set_heap (es : gmap Z entry) (h : list Z) (s : Store) : Store :=
  {| capacity := capacity s; ttl := ttl s; order := order s; entries := es; expiry := h |}.

(** Go's zero [time.Time]: the first instant of year 1. *)
Definition zeroTime : Z := -62135596800 * 10 ^ 9.

(** * The heap interface of [expiryHeap] *)

(** [h[i]], and its expiry and order. *)
Definition entry_at (s : Store) (i : nat) : option entry := expiry s !! i ≫= (fun k => entries s !! k).

Definition key_at (s : Store) (i : nat) : key :=
  match entry_at s i with Some e => (e_expiresAt e, e_order e) | None => (0, 0) end.

Definition expiryHeap_Less (s : Store) (i j : nat) : bool :=
  let '(ei, oi) := key_at s i in
  let '(ej, oj) := key_at s j in
  if ei =? ej then oi <? oj else ei <? ej.

Definition expiryHeap_Swap (i j : nat) (s : Store) : Store :=
  match expiry s !! i, expiry s !! j with
  | Some a, Some b =>
      set_heap (alter (set_index (Z.of_nat j)) a (alter (set_index (Z.of_nat i)) b (entries s)))
        (<[j := a]> (<[i := b]> (expiry s))) s
  | _, _ => s
  end.

Definition expiryHeap_Push (k : Z) (s : Store) : Store :=
  set_heap (alter (set_index (len (expiry s))) k (entries s)) (expiry s ++ [k]) s.

Definition expiryHeap_Pop (s : Store) : option Z * Store :=
  match last (expiry s) with
  | None => (None, s)
  | Some k => (Some k, set_heap (alter (set_index (-1)) k (entries s))
                         (take (length (expiry s) - 1) (expiry s)) s)
  end.

#[export] Instance expiryHeap : HeapInterface Store Z := {
  hLen s := length (expiry s);
  hLess := expiryHeap_Less;
  hSwap := expiryHeap_Swap;
  hPush := expiryHeap_Push;
  hPop := expiryHeap_Pop
}.

(** * Operations *)

Definition New (c : StoreConfig) : result store_error Store :=
  if sc_Capacity c <=? 0 then Err ErrInvalidCapacity
  else if sc_TTL c <=? 0 then Err ErrInvalidTTL
  else Ok {| capacity := sc_Capacity c; ttl := sc_TTL c; order := 0; entries := ∅; expiry := [] |}.

(** The loop pops one element a round: as many rounds as elements. *)
Fixpoint expireLoop (fuel : nat) (now removed : Z) (s : Store) : Z * Store :=
  match fuel with
  | O => (removed, s)
  | S fuel =>
      match entry_at s 0 with
      | None => (removed, s)
      | Some e =>
          if now <? e_expiresAt e then (removed, s)
          else
            match heap_Pop s with
            | (Some k, s') => expireLoop fuel now (removed + 1) (set_heap (delete k (entries s')) (expiry s') s')
            | (None, s') => (removed, s')
            end
      end
  end.

Definition expireLocked (now : Z) (s : Store) : Z * Store := expireLoop (S (length (expiry s))) now 0 s.

Definition set_order (o : Z) (s : Store) : Store :=
  {| capacity := capacity s; ttl := ttl s; order := o; entries := entries s; expiry := expiry s |}.

Definition set_sent (t : Z) (m : SentMessage) : SentMessage :=
  {| sm_MessageID := sm_MessageID m; sm_RequestMessageID := sm_RequestMessageID m;
     sm_SequenceNumber := sm_SequenceNumber m; sm_Payload := sm_Payload m; sm_SentAt := t;
     sm_Acknowledged := sm_Acknowledged m |}.

Definition Put (now : Z) (message : SentMessage) : ST Store store_error (option SentMessage) := fun s =>
  let s := (expireLocked now s).2 in
  let message := if sm_SentAt message =? zeroTime then set_sent now message else message in
  let expiresAt := sm_SentAt message + ttl s in
  if negb (now <? expiresAt) then (Err ErrExpired, s)
  else
    let s := set_order (uint64 (order s + 1)) s in
    let id := sm_MessageID message in
    match entries s !! id with
    | Some current =>
        let current := {| e_message := message; e_expiresAt := expiresAt; e_order := order s;
                          e_index := e_index current |} in
        let s := set_heap (<[id := current]> (entries s)) (expiry s) s in
        (Ok None, heap_Fix (Z.to_nat (e_index current)) s)
    | None =>
        let '(evicted, s) :=
          if Z.of_nat (size (entries s)) =? capacity s then
            match heap_Pop s with
            | (Some k, s') => (e_message <$> entries s' !! k, set_heap (delete k (entries s')) (expiry s') s')
            | (None, s') => (None, s')
            end
          else (None, s) in
        let item := {| e_message := message; e_expiresAt := expiresAt; e_order := order s; e_index := 0 |} in
        let s := set_heap (<[id := item]> (entries s)) (expiry s) s in
        (Ok evicted, heap_Push id s)
    end.

Definition acknowledged (m : SentMessage) : SentMessage :=
  {| sm_MessageID := sm_MessageID m; sm_RequestMessageID := sm_RequestMessageID m;
     sm_SequenceNumber := sm_SequenceNumber m; sm_Payload := sm_Payload m; sm_SentAt := sm_SentAt m;
     sm_Acknowledged := true |}.

Definition ack_entry (e : entry) : entry :=
  {| e_message := acknowledged (e_message e); e_expiresAt := e_expiresAt e; e_order := e_order e;
     e_index := e_index e |}.

Definition Acknowledge (now id : Z) (s : Store) : bool * Store :=
  let s := (expireLocked now s).2 in
  match entries s !! id with
  | None => (false, s)
  | Some item => (true, set_heap (<[id := ack_entry item]> (entries s)) (expiry s) s)
  end.

Definition Lookup (now id : Z) (s : Store) : option SentMessage * Store :=
  let s := (expireLocked now s).2 in
  (e_message <$> entries s !! id, s).

Definition LookupForResend (now id : Z) (s : Store) : option SentMessage * Store :=
  let s := (expireLocked now s).2 in
  match entries s !! id with
  | None => (None, s)
  | Some item => (if sm_Acknowledged (e_message item) then None else Some (e_message item), s)
  end.

Definition Remove (now id : Z) (s : Store) : option SentMessage * Store :=
  let s := (expireLocked now s).2 in
  match entries s !! id with
  | None => (None, s)
  | Some item =>
      let s := (heap_Remove (Z.to_nat (e_index item)) s).2 in
      (Some (e_message item), set_heap (delete id (entries s)) (expiry s) s)
  end.

Definition Expire (now : Z) (s : Store) : Z * Store := expireLocked now s.

Definition Store_Len (now : Z) (s : Store) : Z * Store :=
  let s := (expireLocked now s).2 in (Z.of_nat (size (entries s)), s).

(** The range over the map, in the order [items] in which Go visits it. *)
Definition newest_response (requestID : Z) (items : list entry) : option entry :=
  foldl (fun found item =>
    if (sm_RequestMessageID (e_message item) =? requestID) && negb (requestID =? 0) &&
       match found with
       | None => true
       | Some f => sm_MessageID (e_message f) <? sm_MessageID (e_message item)
       end
    then Some item else found) None items.

Definition LookupResponse (now requestID : Z) (s : Store) : option SentMessage * Store :=
  let s := (expireLocked now s).2 in
  (e_message <$> newest_response requestID (map_to_list (entries s)).*2, s).

(** * Abstract store: a map of unexpired messages *)

Record retained := { r_message : SentMessage; r_expiresAt : Z; r_order : Z }.

Definition retain (e : entry) : retained :=
  {| r_message := e_message e; r_expiresAt := e_expiresAt e; r_order := e_order e |}.

Definition abs (s : Store) : gmap Z retained := retain <$> entries s.

Definition alive (now : Z) (m : gmap Z retained) : gmap Z retained :=
  filter (fun kv => now < r_expiresAt kv.2) m.

Definition r_key (r : retained) : key := (r_expiresAt r, r_order r).

(** [k] is retained and nothing retained expires before it, ties by insertion. *)
Definition first_to_expire (m : gmap Z retained) (k : Z) : Prop :=
  exists r, m !! k = Some r /\ forall k' r', m !! k' = Some r' -> kle (r_key r) (r_key r').

(** * Invariant *)

(** The heap's index fields are right. *)
Record indexed (s : Store) : Prop := {
  ix_nodup : NoDup (expiry s);
  ix_index : forall i k, expiry s !! i = Some k ->
    exists e, entries s !! k = Some e /\ e_index e = Z.of_nat i
}.

Record store_ok (s : Store) : Prop := {
  so_indexed : indexed s;
  so_dom : forall k, k ∈ expiry s <-> is_Some (entries s !! k);
  so_ordered : ordered (length (expiry s)) (key_at s);
  so_size : Z.of_nat (size (entries s)) <= capacity s;
  so_capacity : 0 < capacity s;
  so_ttl : 0 < ttl s;
  so_entry : forall k e, entries s !! k = Some e ->
    sm_MessageID (e_message e) = k /\ e_expiresAt e = sm_SentAt (e_message e) + ttl s
}.

(** ** The heap instance *)

Lemma abs_alter_index (m : gmap Z entry) i k : retain <$> alter (set_index i) k m = retain <$> m.
Proof.
  apply map_eq. intros x. rewrite !lookup_fmap. destruct (decide (x = k)) as [->|].
  - rewrite lookup_alter_eq. by destruct (m !! k).
  - by rewrite lookup_alter_ne by done.
Qed.

Lemma key_at_abs s i : key_at s i = from_option r_key (0, 0) (expiry s !! i ≫= (fun k => abs s !! k)).
Proof.
  unfold key_at, entry_at, abs. destruct (expiry s !! i) as [k|]; simpl; [|done].
  rewrite lookup_fmap. by destruct (entries s !! k).
Qed.

Lemma swap_abs i j s : abs (expiryHeap_Swap i j s) = abs s.
Proof.
  unfold expiryHeap_Swap, abs. destruct (expiry s !! i), (expiry s !! j); try done. simpl.
  by rewrite !abs_alter_index.
Qed.

Lemma swap_expiry i j s :
  (i < length (expiry s))%nat -> (j < length (expiry s))%nat ->
  exists a b, expiry s !! i = Some a /\ expiry s !! j = Some b /\
    expiryHeap_Swap i j s =
      set_heap (alter (set_index (Z.of_nat j)) a (alter (set_index (Z.of_nat i)) b (entries s)))
        (<[j := a]> (<[i := b]> (expiry s))) s.
Proof.
  intros Hi Hj. apply lookup_lt_is_Some_2 in Hi as [a Ha]. apply lookup_lt_is_Some_2 in Hj as [b Hb].
  exists a, b. unfold expiryHeap_Swap. by rewrite Ha, Hb.
Qed.

(** Position [k] after exchanging positions [i] and [j]. *)
Lemma swap_lookup (l : list Z) i j a b k :
  l !! i = Some a -> l !! j = Some b ->
  <[j := a]> (<[i := b]> l) !! k = if (k =? i)%nat then Some b else if (k =? j)%nat then Some a else l !! k.
Proof.
  intros Ha Hb. pose proof (lookup_lt_Some _ _ _ Ha). pose proof (lookup_lt_Some _ _ _ Hb).
  destruct (Nat.eqb_spec k i) as [->|]; [|destruct (Nat.eqb_spec k j) as [->|]].
  - destruct (decide (i = j)) as [->|].
    + rewrite list_lookup_insert_eq by (rewrite length_insert; lia). congruence.
    + rewrite list_lookup_insert_ne, list_lookup_insert_eq; done.
  - rewrite list_lookup_insert_eq by (rewrite length_insert; lia). done.
  - by rewrite !list_lookup_insert_ne by done.
Qed.

Lemma swap_lookup_key s i j k :
  (i < length (expiry s))%nat -> (j < length (expiry s))%nat -> (k < length (expiry s))%nat ->
  key_at (expiryHeap_Swap i j s) k = fswap i j (key_at s) k.
Proof.
  intros Hi Hj Hk. rewrite key_at_abs, swap_abs.
  destruct (swap_expiry i j s Hi Hj) as (a & b & Ha & Hb & ->). simpl.
  rewrite (swap_lookup _ _ _ _ _ _ Ha Hb). unfold fswap. rewrite !key_at_abs.
  destruct (k =? i)%nat; [by rewrite Hb|]. destruct (k =? j)%nat; [by rewrite Ha|done].
Qed.

Lemma NoDup_lookup_inj {A} (l : list A) i j x :
  NoDup l -> l !! i = Some x -> l !! j = Some x -> i = j.
Proof. intros Hnd Hi Hj. by eapply (proj1 (NoDup_alt l)). Qed.

Lemma swap_indexed s i j :
  indexed s -> (i < length (expiry s))%nat -> (j < length (expiry s))%nat ->
  indexed (expiryHeap_Swap i j s).
Proof.
  intros [Hnd Hix] Hi Hj. destruct (swap_expiry i j s Hi Hj) as (a & b & Ha & Hb & ->).
  split; simpl.
  - apply NoDup_alt. intros x y k. rewrite !(swap_lookup _ _ _ _ _ _ Ha Hb).
    repeat (case_match; bools); intros; simplify_eq; try done;
      repeat match goal with H : (_ =? _)%nat = true |- _ => apply Nat.eqb_eq in H
        | H : (_ =? _)%nat = false |- _ => apply Nat.eqb_neq in H end; subst; try done;
      try (by eapply NoDup_lookup_inj); exfalso;
      match goal with
      | H1 : _ !! ?x = Some ?k, H2 : _ !! ?y = Some ?k |- _ =>
          pose proof (NoDup_lookup_inj _ _ _ _ Hnd H1 H2); congruence
      end.
  - intros k x. rewrite (swap_lookup _ _ _ _ _ _ Ha Hb). intros Hx.
    destruct (Nat.eqb_spec k i) as [->|]; [|destruct (Nat.eqb_spec k j) as [->|]].
    + simplify_eq. destruct (Hix _ _ Hb) as (e & He & _). destruct (decide (a = x)) as [->|].
      * assert (i = j) as -> by by eapply NoDup_lookup_inj. rewrite !lookup_alter_eq, He. eauto.
      * rewrite lookup_alter_ne, lookup_alter_eq, He by done. eauto.
    + simplify_eq. rewrite lookup_alter_eq. destruct (Hix _ _ Ha) as (e & He & _).
      destruct (decide (b = x)) as [->|]; [rewrite lookup_alter_eq|rewrite lookup_alter_ne by done];
        rewrite He; simpl; eauto.
    + assert (x <> a) by (intros ->; by eapply n, NoDup_lookup_inj).
      assert (x <> b) by (intros ->; by eapply n0, NoDup_lookup_inj).
      rewrite !lookup_alter_ne by done. by apply Hix.
Qed.

#[export] Instance expiryHeap_laws : HeapLaws Store Z.
Proof.
  refine {| hkeys := key_at; hok := indexed |}; simpl.
  - intros h i j _ _ _. unfold expiryHeap_Less, key_lt. by destruct (key_at h i), (key_at h j).
  - intros h i j. unfold expiryHeap_Swap. destruct (expiry h !! i), (expiry h !! j); try done.
    simpl. by rewrite !length_insert.
  - intros h i j Hok Hi Hj. by apply swap_indexed.
  - intros h i j k _ Hi Hj Hk. by apply swap_lookup_key.
Defined.

(** What any number of exchanges below [n] leaves alone. *)
Lemma swaps_same n s s' :
  swaps n s s' -> (n <= length (expiry s))%nat ->
  abs s' = abs s /\ expiry s' ≡ₚ expiry s /\ capacity s' = capacity s /\ ttl s' = ttl s /\
  order s' = order s /\ (forall k, (n <= k)%nat -> expiry s' !! k = expiry s !! k).
Proof.
  induction 1 as [s|s s1 s2 (i & j & Hi & Hj & ->) _ IH]; intros Hn; [done|].
  destruct (swap_expiry i j s) as (a & b & Ha & Hb & Heq); [simpl in *; lia..|].
  change (hSwap i j s) with (expiryHeap_Swap i j s) in IH.
  destruct IH as (IH1 & IH2 & IH3 & IH4 & IH5 & IH6).
  { rewrite Heq. simpl. by rewrite !length_insert. }
  rewrite swap_abs in IH1. rewrite Heq in *. simpl in *. split_and!; try done.
  - rewrite IH2. destruct (decide (i = j)) as [->|Hne].
    + simplify_eq. rewrite list_insert_insert_eq. by rewrite list_insert_id.
    + by apply Permutation_insert_swap.
  - intros k Hk. rewrite IH6 by done. rewrite (swap_lookup _ _ _ _ _ _ Ha Hb).
    destruct (Nat.eqb_spec k i); [lia|]. destruct (Nat.eqb_spec k j); [lia|done].
Qed.

(** ** The library calls on this heap *)

Definition same_fields (s s' : Store) : Prop :=
  abs s' = abs s /\ capacity s' = capacity s /\ ttl s' = ttl s /\ order s' = order s.

Lemma same_fields_trans s1 s2 s3 : same_fields s1 s2 -> same_fields s2 s3 -> same_fields s1 s3.
Proof. intros (?&?&?&?) (?&?&?&?). split_and!; congruence. Qed.

Lemma swaps_fields n s s' : swaps n s s' -> (n <= length (expiry s))%nat -> same_fields s s'.
Proof. intros Hs Hn. destruct (swaps_same n s s' Hs Hn) as (?&?&?&?&?&?). split_and!; done. Qed.

Lemma key_at_ext s s' i : abs s' = abs s -> expiry s' !! i = expiry s !! i -> key_at s' i = key_at s i.
Proof. intros Ha He. by rewrite !key_at_abs, Ha, He. Qed.

Lemma ordered_ext n f g : (forall k, (k < n)%nat -> f k = g k) -> ordered n f -> ordered n g.
Proof.
  intros He Ho c Hc. pose proof (parent_lt c ltac:(lia)). rewrite <- !He by lia. by apply Ho.
Qed.

Lemma ordered_le m n f : (m <= n)%nat -> ordered n f -> ordered m f.
Proof. intros Hm Ho c Hc. apply Ho. lia. Qed.

(** One changed key leaves a hole. *)
Lemma hole_change n f g i :
  ordered n f -> (forall k, (k < n)%nat -> k <> i -> g k = f k) -> (i < n)%nat -> hole n g i.
Proof.
  intros Ho He Hi. split; intros c Hc.
  - intros Hci Hpc. pose proof (parent_lt c ltac:(lia)). rewrite !He by (done || lia). by apply Ho.
  - intros Hpc H0. pose proof (parent_lt c ltac:(lia)). pose proof (parent_lt i H0).
    rewrite (He (parent i)), (He c) by lia.
    apply (kle_trans _ (f i)); [apply (Ho i); lia|]. rewrite <- Hpc. apply Ho. lia.
Qed.

Lemma root_minimal n f i : ordered n f -> (i < n)%nat -> kle (f 0%nat) (f i).
Proof.
  intros Ho. induction (lt_wf i) as [i _ IH]. intros Hi.
  destruct (decide (i = 0%nat)) as [->|]; [apply kle_refl|].
  pose proof (parent_lt i ltac:(lia)). apply (kle_trans _ (f (parent i))); [apply IH; lia|].
  apply Ho. lia.
Qed.

Lemma hPop_spec t n k :
  indexed t -> length (expiry t) = S n -> expiry t !! n = Some k -> ordered n (key_at t) ->
  exists t', expiryHeap_Pop t = (Some k, t') /\ expiry t = expiry t' ++ [k] /\ same_fields t t' /\
             indexed t' /\ ordered (length (expiry t')) (key_at t').
Proof.
  intros [Hnd Hix] Hlen Hk Ho.
  assert (Hlast : last (expiry t) = Some k) by (rewrite last_lookup, Hlen; done).
  unfold expiryHeap_Pop. rewrite Hlast. eexists. split; [done|].
  replace (length (expiry t) - 1)%nat with n by lia.
  assert (Hsplit : expiry t = take n (expiry t) ++ [k]).
  { rewrite <- (take_drop n (expiry t)) at 1. f_equal. rewrite (drop_S _ k) by done.
    by rewrite drop_ge by lia. }
  assert (Hn : length (take n (expiry t)) = n) by (rewrite length_take; lia).
  assert (Hnotin : k ∉ take n (expiry t)).
  { rewrite Hsplit in Hnd. apply NoDup_app in Hnd as (_ & Hd & _). intros Hin.
    apply (Hd k Hin). by apply list_elem_of_singleton. }
  assert (Habs : abs (set_heap (alter (set_index (-1)) k (entries t)) (take n (expiry t)) t) = abs t)
    by apply abs_alter_index.
  split; [exact Hsplit|]. split; [by split_and!|]. split.
  - split; simpl.
    + rewrite Hsplit in Hnd. by apply NoDup_app in Hnd as [? _].
    + intros i x Hx. assert (x <> k) by (intros ->; by apply Hnotin, list_elem_of_lookup_2 with i).
      rewrite lookup_alter_ne by done. apply Hix. rewrite Hsplit.
      rewrite lookup_app_l; [done|]. by eapply lookup_lt_Some.
  - simpl. rewrite Hn. eapply ordered_ext; [|exact Ho]. intros i Hi. symmetry.
    apply key_at_ext; [done|]. simpl. by rewrite lookup_take_lt.
Qed.

Lemma heap_Pop_spec s :
  indexed s -> ordered (length (expiry s)) (key_at s) -> expiry s <> [] ->
  exists k s', heap_Pop s = (Some k, s') /\ expiry s !! 0%nat = Some k /\
    expiry s ≡ₚ k :: expiry s' /\ same_fields s s' /\ indexed s' /\
    ordered (length (expiry s')) (key_at s').
Proof.
  intros Hix Ho Hne. destruct (length (expiry s)) as [|n] eqn:Hlen; [by destruct (expiry s)|].
  unfold heap_Pop. simpl. rewrite Hlen. replace (S n - 1)%nat with n by lia.
  destruct (swap_expiry 0 n s) as (k & b & Hk & Hb & Heq); [lia..|].
  set (s1 := expiryHeap_Swap 0 n s) in *.
  assert (Hix1 : indexed s1) by (apply swap_indexed; [done|lia..]).
  assert (Hlen1 : length (expiry s1) = S n) by (rewrite Heq; simpl; by rewrite !length_insert).
  assert (Hk1 : expiry s1 !! n = Some k).
  { rewrite Heq. simpl. rewrite list_lookup_insert_eq; [done|]. rewrite length_insert. lia. }
  assert (Hp1 : expiry s1 ≡ₚ expiry s) by (rewrite Heq; by apply Permutation_insert_swap).
  assert (Hf1 : same_fields s s1) by (split_and!; [apply swap_abs|by rewrite Heq..]).
  destruct (decide (n = 0%nat)) as [->|Hn0].
  { assert (Hd : (down 0 0 s1).2 = s1) by reflexivity. rewrite Hd.
    destruct (hPop_spec s1 0 k) as (t & -> & Hsplit & Hft & Hixt & Hot); try done.
    { intros c Hc. lia. }
    exists k, t. split_and!; try done.
    - rewrite <- Hp1, Hsplit. apply Permutation_app_comm.
    - by eapply same_fields_trans. }
  assert (Hhole : hole n (key_at s1) 0).
  { eapply (hole_change n (key_at s)); [by eapply ordered_le, Ho; lia| |lia].
    intros i Hi Hi0. unfold s1. rewrite swap_lookup_key by lia. unfold fswap.
    rewrite (proj2 (Nat.eqb_neq i 0)), (proj2 (Nat.eqb_neq i n)) by lia. done. }
  pose proof (down_spec (H := Store) (X := Z) n 0 s1 Hix1 ltac:(simpl; lia) ltac:(lia) Hhole) as Hd.
  destruct (down 0 n s1) as [moved s2]. destruct Hd as (Hs & _ & Ho2). simpl.
  destruct (swaps_same n s1 s2 Hs ltac:(lia)) as (Ha2 & Hp2 & ? & ? & ? & Hfix).
  destruct (swaps_ok n s1 s2 Hs ltac:(simpl; lia) Hix1) as [Hix2 Hlen2]. simpl in Hlen2.
  destruct (hPop_spec s2 n k) as (t & -> & Hsplit & Hft & Hixt & Hot); try done; try lia.
  { rewrite Hfix by lia. done. }
  { apply Ho2. intros Hc. lia. }
  exists k, t. split_and!; try done.
  - rewrite <- Hp1, <- Hp2, Hsplit. apply Permutation_app_comm.
  - eapply same_fields_trans; [|exact Hft]. eapply same_fields_trans; [exact Hf1|]. by split_and!.
Qed.

(** Repairing the order at a hole: the common end of Fix and Remove. *)
Lemma repair_spec s n i :
  indexed s -> (n <= length (expiry s))%nat -> (i < n)%nat -> hole n (key_at s) i ->
  let s' := (let '(moved, h) := down (X := Z) i n s in if moved then h else up (X := Z) i h) in
  swaps n s s' /\ indexed s' /\ length (expiry s') = length (expiry s) /\ ordered n (key_at s').
Proof.
  intros Hix Hn Hi Hh. pose proof (down_spec (H := Store) (X := Z) n i s Hix ltac:(simpl; lia) Hi Hh) as Hd.
  destruct (down i n s) as [moved s1]. destruct Hd as (Hs & Hm & _).
  assert (Hend : forall t, swaps n s t -> ordered n (key_at t) ->
    swaps n s t /\ indexed t /\ length (expiry t) = length (expiry s) /\ ordered n (key_at t)).
  { intros t Ht Hot. destruct (swaps_ok n s t Ht ltac:(simpl; lia) Hix) as [? ?]. done. }
  destruct moved; [by apply Hend|]. destruct Hm as [-> Hb].
  destruct (up_loop_spec (H := Store) (X := Z) (S i) n i s) as [Hs' Ho']; try done; try (simpl; lia).
  by apply Hend.
Qed.

Lemma heap_Fix_spec s i :
  indexed s -> (i < length (expiry s))%nat -> hole (length (expiry s)) (key_at s) i ->
  let s' := heap_Fix (X := Z) i s in
  same_fields s s' /\ expiry s' ≡ₚ expiry s /\ indexed s' /\ ordered (length (expiry s')) (key_at s').
Proof.
  intros Hix Hi Hh. destruct (repair_spec s (length (expiry s)) i) as (Hs & Hix' & Hl & Ho); try done.
  unfold heap_Fix. change (hLen s) with (length (expiry s)).
  destruct (down i (length (expiry s)) s) as [moved s1]. simpl in *.
  destruct (swaps_same _ _ _ Hs ltac:(lia)) as (?&?&?&?&?&?). rewrite Hl. by split_and!.
Qed.

Lemma heap_Push_spec s k e :
  indexed s -> ordered (length (expiry s)) (key_at s) -> k ∉ expiry s -> entries s !! k = Some e ->
  let s' := heap_Push k s in
  same_fields s s' /\ expiry s' ≡ₚ k :: expiry s /\ indexed s' /\ ordered (length (expiry s')) (key_at s').
Proof.
  intros [Hnd Hix] Ho Hk He. unfold heap_Push. cbv zeta.
  change (hPush k s) with (expiryHeap_Push k s). set (s1 := expiryHeap_Push k s).
  assert (Habs : abs s1 = abs s) by apply abs_alter_index.
  assert (Hlen : length (expiry s1) = S (length (expiry s)))
    by (unfold s1; simpl; rewrite length_app; simpl; lia).
  assert (Hix1 : indexed s1).
  { split; simpl.
    - apply NoDup_app. split; [done|]. split; [|apply NoDup_singleton].
      intros x Hx ->%list_elem_of_singleton. done.
    - intros i x [Hx|[Hi Hx]]%lookup_app_Some.
      + assert (x <> k) by (intros ->; by apply Hk, list_elem_of_lookup_2 with i).
        rewrite lookup_alter_ne by done. by apply Hix.
      + apply list_lookup_singleton_Some in Hx as [Hi0 <-]. rewrite lookup_alter_eq, He. simpl.
        eexists. split; [done|]. simpl. unfold len. lia. }
  change (hLen s1) with (length (expiry s1)). rewrite Hlen.
  replace (S (length (expiry s)) - 1)%nat with (length (expiry s)) by lia.
  set (n := length (expiry s)) in *.
  assert (Hkey : forall i, (i < n)%nat -> key_at s1 i = key_at s i).
  { intros i Hi. apply key_at_ext; [done|]. unfold s1. simpl. by rewrite lookup_app_l. }
  assert (Hp1 : expiry s1 ≡ₚ k :: expiry s) by apply Permutation_app_comm.
  assert (Hf1 : same_fields s s1) by by split_and!.
  clearbody s1.
  assert (Hnochild : forall c, (0 < c < S n)%nat -> parent c <> n).
  { intros c Hc [Hp|Hp]%parent_child; lia. }
  destruct (up_loop_spec (H := Store) (X := Z) (S n) (S n) n s1) as [Hs Ho']; try done; try (simpl; lia).
  { split; intros c Hc; [|intros Hp; by apply Hnochild in Hp].
    intros Hcn _. pose proof (parent_lt c ltac:(lia)). simpl. rewrite !Hkey by lia. apply Ho. lia. }
  { intros c Hc Hp. by apply Hnochild in Hp. }
  change (up n s1) with (up_loop (H := Store) (X := Z) (S n) n s1).
  set (s2 := up_loop (S n) n s1) in *. clearbody s2.
  destruct (swaps_same _ _ _ Hs ltac:(lia)) as (?&Hp&?&?&?&?).
  destruct (swaps_ok _ _ _ Hs ltac:(simpl; lia) Hix1) as [? Hl']. simpl in Hl'.
  split; [eapply same_fields_trans; [exact Hf1|by split_and!]|].
  split; [by rewrite Hp|]. by rewrite Hl', Hlen.
Qed.

Lemma heap_Remove_spec s i k :
  indexed s -> ordered (length (expiry s)) (key_at s) -> expiry s !! i = Some k ->
  exists s', heap_Remove i s = (Some k, s') /\ expiry s ≡ₚ k :: expiry s' /\ same_fields s s' /\
             indexed s' /\ ordered (length (expiry s')) (key_at s').
Proof.
  intros Hix Ho Hk. pose proof (lookup_lt_Some _ _ _ Hk) as Hi.
  destruct (length (expiry s)) as [|n] eqn:Hlen; [lia|].
  unfold heap_Remove. simpl. rewrite Hlen. replace (S n - 1)%nat with n by lia.
  destruct (Nat.eqb_spec n i) as [->|Hni].
  { destruct (hPop_spec s i k) as (t & -> & Hsplit & Hft & Hixt & Hot); try done.
    { by eapply ordered_le, Ho; lia. }
    exists t. split_and!; try done. rewrite Hsplit. apply Permutation_app_comm. }
  destruct (swap_expiry i n s) as (k' & b & Hk' & Hb & Heq); [lia..|]. simplify_eq.
  set (s1 := expiryHeap_Swap i n s) in *.
  assert (Hix1 : indexed s1) by (apply swap_indexed; [done|lia..]).
  assert (Hlen1 : length (expiry s1) = S n) by (rewrite Heq; simpl; by rewrite !length_insert).
  assert (Hk1 : expiry s1 !! n = Some k).
  { rewrite Heq. simpl. rewrite list_lookup_insert_eq; [done|]. rewrite length_insert. lia. }
  assert (Hp1 : expiry s1 ≡ₚ expiry s) by (rewrite Heq; by apply Permutation_insert_swap).
  assert (Hf1 : same_fields s s1) by (split_and!; [apply swap_abs|by rewrite Heq..]).
  assert (Hhole : hole n (key_at s1) i).
  { eapply (hole_change n (key_at s)); [by eapply ordered_le, Ho; lia| |lia].
    intros c Hc Hci. unfold s1. rewrite swap_lookup_key by lia. unfold fswap.
    rewrite (proj2 (Nat.eqb_neq c i)), (proj2 (Nat.eqb_neq c n)) by lia. done. }
  destruct (repair_spec s1 n i) as (Hs & Hix2 & Hlen2 & Ho2); try done; try lia.
  destruct (down i n s1) as [moved s2]. simpl in *.
  set (s3 := if moved then s2 else up (X := Z) i s2) in *.
  destruct (swaps_same n s1 s3 Hs ltac:(lia)) as (Ha2 & Hp2 & ? & ? & ? & Hfix).
  destruct (hPop_spec s3 n k) as (t & -> & Hsplit & Hft & Hixt & Hot); try done; try lia.
  { rewrite Hfix by lia. done. }
  exists t. split_and!; try done.
  - rewrite <- Hp1, <- Hp2, Hsplit. apply Permutation_app_comm.
  - eapply same_fields_trans; [|exact Hft]. eapply same_fields_trans; [exact Hf1|]. by split_and!.
Qed.

(** ** The store invariant through the abstract map *)

Record map_ok (cap life : Z) (m : gmap Z retained) : Prop := {
  mo_size : Z.of_nat (size m) <= cap;
  mo_entry : forall k r, m !! k = Some r ->
    sm_MessageID (r_message r) = k /\ r_expiresAt r = sm_SentAt (r_message r) + life
}.

Lemma store_ok_abs s :
  store_ok s <->
  indexed s /\ ordered (length (expiry s)) (key_at s) /\ (forall k, k ∈ expiry s <-> is_Some (abs s !! k)) /\
  0 < capacity s /\ 0 < ttl s /\ map_ok (capacity s) (ttl s) (abs s).
Proof.
  assert (Hdom : forall k, is_Some (abs s !! k) <-> is_Some (entries s !! k))
    by (intros k; unfold abs; by rewrite lookup_fmap, fmap_is_Some).
  split.
  - intros [Hi Hd Ho Hs Hc Ht He]. split_and!; try done.
    + intros k. by rewrite Hdom.
    + split; [unfold abs; by rewrite map_size_fmap|]. intros k r. unfold abs. rewrite lookup_fmap.
      intros (e & He' & ->)%fmap_Some. by apply He.
  - intros (Hi & Ho & Hd & Hc & Ht & [Hs He]). unfold abs in Hs. rewrite map_size_fmap in Hs.
    split; try done.
    + intros k. by rewrite Hd, Hdom.
    + intros k e Hk. apply (He k (retain e)). unfold abs. by rewrite lookup_fmap, Hk.
Qed.

Definition forget (k : Z) (s : Store) : Store := set_heap (delete k (entries s)) (expiry s) s.

Lemma abs_forget k s : abs (forget k s) = delete k (abs s).
Proof. unfold abs, forget. simpl. by rewrite fmap_delete. Qed.

Lemma forget_heap k s :
  k ∉ expiry s -> indexed s -> ordered (length (expiry s)) (key_at s) ->
  indexed (forget k s) /\ ordered (length (expiry (forget k s))) (key_at (forget k s)).
Proof.
  intros Hk [Hnd Hix] Ho. split.
  - split; [done|]. simpl. intros i x Hx.
    assert (x <> k) by (intros ->; by apply Hk, list_elem_of_lookup_2 with i).
    rewrite lookup_delete_ne by done. by apply Hix.
  - simpl. eapply ordered_ext; [|exact Ho]. intros i Hi. unfold key_at, entry_at. simpl.
    apply lookup_lt_is_Some_2 in Hi as [x Hx]. rewrite Hx. simpl.
    assert (x <> k) by (intros ->; by apply Hk, list_elem_of_lookup_2 with i).
    by rewrite lookup_delete_ne by done.
Qed.

(** Taking an element out of the heap and out of the map. *)
Lemma forget_ok s s' k :
  store_ok s -> expiry s ≡ₚ k :: expiry s' -> same_fields s s' -> indexed s' ->
  ordered (length (expiry s')) (key_at s') ->
  store_ok (forget k s') /\ abs (forget k s') = delete k (abs s) /\
  capacity (forget k s') = capacity s /\ ttl (forget k s') = ttl s /\ order (forget k s') = order s.
Proof.
  intros Hok Hp (Ha & Hc & Ht & Hord) Hix Ho.
  apply store_ok_abs in Hok as (Hi & _ & Hd & Hc0 & Ht0 & [Hsz He]).
  destruct Hi as [Hnd _]. rewrite Hp in Hnd. apply NoDup_cons in Hnd as [Hk _].
  assert (Habs : abs (forget k s') = delete k (abs s)) by by rewrite abs_forget, Ha.
  destruct (forget_heap k s' Hk Hix Ho) as [Hix' Ho'].
  split; [|by split_and!]. apply store_ok_abs. rewrite Habs.
  change (capacity (forget k s')) with (capacity s'). change (ttl (forget k s')) with (ttl s').
  rewrite Hc, Ht. split_and!; try done.
  - intros x. change (expiry (forget k s')) with (expiry s').
    destruct (decide (x = k)) as [->|Hne].
    + rewrite lookup_delete_eq. split; [done|]. intros [? ?]. done.
    + rewrite lookup_delete_ne by done. rewrite <- Hd, Hp, elem_of_cons. naive_solver.
  - split.
    + rewrite map_size_delete. destruct (abs s !! k); simpl; lia.
    + intros x r [Hne Hx]%lookup_delete_Some. by apply He.
Qed.

Lemma root_first s k :
  store_ok s -> expiry s !! 0%nat = Some k -> first_to_expire (abs s) k.
Proof.
  intros Hok Hk. apply store_ok_abs in Hok as (_ & Ho & Hd & _).
  assert (is_Some (abs s !! k)) as [r Hr] by (apply Hd; by eapply list_elem_of_lookup_2).
  exists r. split; [done|]. intros k' r' Hr'.
  assert (k' ∈ expiry s) as [i Hi]%list_elem_of_lookup by (apply Hd; eauto).
  pose proof (root_minimal _ _ i Ho (lookup_lt_Some _ _ _ Hi)) as Hmin.
  rewrite !key_at_abs, Hk, Hi in Hmin. simpl in Hmin. by rewrite Hr, Hr' in Hmin.
Qed.

(** Popping the root of a well-formed store. *)
Lemma pop_forget s :
  store_ok s -> expiry s <> [] ->
  exists k s', heap_Pop s = (Some k, s') /\ first_to_expire (abs s) k /\ expiry s !! 0%nat = Some k /\
    abs s' = abs s /\ store_ok (forget k s') /\ abs (forget k s') = delete k (abs s) /\
    capacity s' = capacity s /\ ttl s' = ttl s /\ order s' = order s /\
    (length (expiry s') < length (expiry s))%nat.
Proof.
  intros Hok Hne. pose proof Hok as [Hix _ Ho _ _ _ _].
  destruct (heap_Pop_spec s Hix Ho Hne) as (k & s' & Hpop & Hk & Hp & Hf & Hix' & Ho').
  destruct (forget_ok s s' k Hok Hp Hf Hix' Ho') as (Hok' & Habs & _).
  destruct Hf as (?&?&?&?). exists k, s'. split_and!; try done.
  - by apply root_first.
  - rewrite Hp. simpl. lia.
Qed.

Lemma alive_lookup now m k :
  alive now m !! k = match m !! k with Some r => if now <? r_expiresAt r then Some r else None | None => None end.
Proof.
  unfold alive. destruct (m !! k) as [r|] eqn:E.
  - destruct (Z.ltb_spec now (r_expiresAt r)).
    + apply map_lookup_filter_Some. simpl. split; [done|lia].
    + apply map_lookup_filter_None. right. intros x Hx. simplify_eq. simpl. lia.
  - apply map_lookup_filter_None. by left.
Qed.

Lemma expireLoop_spec fuel now n s :
  store_ok s -> (length (expiry s) < fuel)%nat ->
  let '(removed, s') := expireLoop fuel now n s in
  store_ok s' /\ abs s' = alive now (abs s) /\
  removed + Z.of_nat (size (abs s')) = n + Z.of_nat (size (abs s)) /\
  capacity s' = capacity s /\ ttl s' = ttl s /\ order s' = order s.
Proof.
  revert n s. induction fuel as [|fuel IH]; intros n s Hok Hf; [lia|]. cbn [expireLoop].
  assert (Hstop : (forall k r, abs s !! k = Some r -> now < r_expiresAt r) -> abs s = alive now (abs s)).
  { intros Hall. apply map_eq. intros k. rewrite alive_lookup. destruct (abs s !! k) eqn:E; [|done].
    rewrite (proj2 (Z.ltb_lt _ _)); [done|]. by eapply Hall. }
  destruct (entry_at s 0) as [e|] eqn:E0.
  2:{ split_and!; try done. apply Hstop. intros k r Hr. exfalso.
      apply store_ok_abs in Hok as ([_ Hix] & _ & Hd & _).
      assert (k ∈ expiry s) as Hin by (apply Hd; eauto). unfold entry_at in E0.
      destruct (expiry s) as [|x l] eqn:El; [by apply elem_of_nil in Hin|].
      destruct (Hix 0%nat x) as (e & He & _); [done|]. simpl in E0. congruence. }
  unfold entry_at in E0. destruct (expiry s !! 0%nat) as [k0|] eqn:Ek; [|done]. simpl in E0.
  destruct (root_first s k0 Hok Ek) as (r0 & Hr0 & Hmin).
  assert (r0 = retain e) as -> by (unfold abs in Hr0; rewrite lookup_fmap, E0 in Hr0; by injection Hr0).
  destruct (Z.ltb_spec now (e_expiresAt e)).
  { split_and!; try done. apply Hstop. intros k r Hr. specialize (Hmin k r Hr).
    unfold kle, key_lt, r_key, retain in Hmin. simpl in Hmin. repeat case_match; bools; lia. }
  destruct (pop_forget s Hok) as (k & s' & Hpop & _ & Hk & _ & Hok' & Habs & Hc & Ht & Hord & Hlen).
  { intros Hnil. by rewrite Hnil in Ek. }
  assert (k0 = k) as -> by congruence. rewrite Hpop. fold (forget k s').
  specialize (IH (n + 1) (forget k s') Hok' ltac:(simpl; lia)).
  destruct (expireLoop fuel now (n + 1) (forget k s')) as [removed s2].
  destruct IH as (Hok2 & Habs2 & Hsz & Hc2 & Ht2 & Hord2). simpl in *.
  split_and!; try congruence.
  - rewrite Habs2, Habs. apply map_eq. intros x. rewrite !alive_lookup.
    destruct (decide (x = k)) as [->|]; [|by rewrite lookup_delete_ne].
    rewrite lookup_delete_eq, Hr0. simpl. by rewrite (proj2 (Z.ltb_ge _ _)).
  - rewrite Habs, map_size_delete_Some in Hsz by (rewrite Hr0; eauto).
    assert (size (abs s) <> 0%nat); [|lia].
    intros Hz%map_size_empty_inv. rewrite Hz in Hr0. done.
Qed.

Lemma expireLocked_spec now s :
  store_ok s ->
  let '(removed, s') := expireLocked now s in
  store_ok s' /\ abs s' = alive now (abs s) /\
  removed = Z.of_nat (size (abs s)) - Z.of_nat (size (abs s')) /\
  capacity s' = capacity s /\ ttl s' = ttl s /\ order s' = order s.
Proof.
  intros Hok. unfold expireLocked. pose proof (expireLoop_spec (S (length (expiry s))) now 0 s Hok ltac:(lia)).
  destruct (expireLoop _ _ _ _) as [removed s']. naive_solver lia.
Qed.

Definition store_entry (id : Z) (e : entry) (s : Store) : Store :=
  set_heap (<[id := e]> (entries s)) (expiry s) s.

Lemma abs_store_entry id e s : abs (store_entry id e s) = <[id := retain e]> (abs s).
Proof. unfold abs, store_entry. simpl. by rewrite fmap_insert. Qed.

Lemma push_new s id item :
  store_ok s -> abs s !! id = None -> Z.of_nat (size (abs s)) < capacity s ->
  sm_MessageID (e_message item) = id -> e_expiresAt item = sm_SentAt (e_message item) + ttl s ->
  let s' := heap_Push id (store_entry id item s) in
  store_ok s' /\ abs s' = <[id := retain item]> (abs s) /\ capacity s' = capacity s /\ ttl s' = ttl s /\
  order s' = order s.
Proof.
  intros Hok Hnew Hsz Hid Hexp. apply store_ok_abs in Hok as ([Hnd Hix] & Ho & Hd & Hc & Ht & [_ He]).
  assert (Hnotin : id ∉ expiry s) by (intros Hin%Hd; rewrite Hnew in Hin; by destruct Hin).
  assert (Hne : forall i x, expiry s !! i = Some x -> x <> id)
    by (intros i x Hx ->; by apply Hnotin, list_elem_of_lookup_2 with i).
  set (s1 := store_entry id item s).
  assert (Habs : abs s1 = <[id := retain item]> (abs s)) by apply abs_store_entry.
  destruct (heap_Push_spec s1 id item) as ((Ha & Hc' & Ht' & Hord) & Hp & Hix' & Ho').
  { split; [done|]. simpl. intros i x Hx. rewrite lookup_insert_ne by (symmetry; by eapply Hne).
    by apply Hix. }
  { simpl. eapply ordered_ext; [|exact Ho]. intros i Hi. rewrite !key_at_abs, Habs. simpl.
    apply lookup_lt_is_Some_2 in Hi as [x Hx]. rewrite Hx. simpl.
    rewrite lookup_insert_ne by (symmetry; by eapply Hne). done. }
  { done. } { simpl. by rewrite lookup_insert_eq. }
  split; [|split_and!; [congruence|exact Hc'|exact Ht'|exact Hord]]. apply store_ok_abs.
  rewrite Ha, Habs, Hc', Ht'. change (capacity s1) with (capacity s). change (ttl s1) with (ttl s).
  split_and!; try done.
  - intros x. rewrite Hp, elem_of_cons. change (expiry s1) with (expiry s). rewrite Hd.
    destruct (decide (x = id)) as [->|]; [rewrite lookup_insert_eq; naive_solver|].
    rewrite lookup_insert_ne by done. naive_solver.
  - split; [rewrite map_size_insert_None by done; lia|].
    intros k r [[<- <-]|[? Hr]]%lookup_insert_Some; [done|by apply He].
Qed.

Lemma fix_existing s id old item :
  store_ok s -> entries s !! id = Some old -> e_index item = e_index old ->
  sm_MessageID (e_message item) = id -> e_expiresAt item = sm_SentAt (e_message item) + ttl s ->
  let s' := heap_Fix (X := Z) (Z.to_nat (e_index item)) (store_entry id item s) in
  store_ok s' /\ abs s' = <[id := retain item]> (abs s) /\ capacity s' = capacity s /\ ttl s' = ttl s /\
  order s' = order s.
Proof.
  intros Hok Hold Hidx Hid Hexp.
  assert (Hold' : abs s !! id = Some (retain old)) by (unfold abs; by rewrite lookup_fmap, Hold).
  apply store_ok_abs in Hok as ([Hnd Hix] & Ho & Hd & Hc & Ht & [Hsz He]).
  assert (id ∈ expiry s) as [i Hi]%list_elem_of_lookup by (apply Hd; eauto).
  assert (Hi' : e_index old = Z.of_nat i) by (destruct (Hix i id Hi) as (e & ? & ?); congruence).
  rewrite Hidx, Hi', Nat2Z.id.
  set (s1 := store_entry id item s).
  assert (Habs : abs s1 = <[id := retain item]> (abs s)) by apply abs_store_entry.
  destruct (heap_Fix_spec s1 i) as ((Ha & Hc' & Ht' & Hord) & Hp & Hix' & Ho').
  { split; [done|]. simpl. intros j x Hx. destruct (decide (x = id)) as [->|].
    - rewrite lookup_insert_eq. assert (j = i) as -> by by eapply NoDup_lookup_inj.
      exists item. split; [done|congruence].
    - rewrite lookup_insert_ne by done. by apply Hix. }
  { simpl. by eapply lookup_lt_Some. }
  { simpl. eapply hole_change; [exact Ho| |by eapply lookup_lt_Some].
    intros j Hj Hji. rewrite !key_at_abs, Habs. simpl. apply lookup_lt_is_Some_2 in Hj as [x Hx].
    rewrite Hx. simpl. rewrite lookup_insert_ne; [done|]. intros <-. by eapply Hji, NoDup_lookup_inj. }
  split; [|split_and!; [congruence|exact Hc'|exact Ht'|exact Hord]]. apply store_ok_abs.
  rewrite Ha, Habs, Hc', Ht'. change (capacity s1) with (capacity s). change (ttl s1) with (ttl s).
  split_and!; try done.
  - intros x. rewrite Hp. change (expiry s1) with (expiry s). rewrite Hd.
    destruct (decide (x = id)) as [->|]; [rewrite lookup_insert_eq, Hold'; split; eauto|].
    by rewrite lookup_insert_ne by done.
  - split; [rewrite map_size_insert_Some by eauto; lia|].
    intros k r [[<- <-]|[? Hr]]%lookup_insert_Some; [done|by apply He].
Qed.

Lemma set_order_ok o s : store_ok s -> store_ok (set_order o s).
Proof. by intros [[] ? ? ? ? ? ?]. Qed.

(** What [Put] inserts. *)
Definition stamped (now : Z) (m : SentMessage) : SentMessage :=
  if sm_SentAt m =? zeroTime then set_sent now m else m.

Definition fresh_entry (now : Z) (s : Store) (m : SentMessage) : retained :=
  {| r_message := stamped now m; r_expiresAt := sm_SentAt (stamped now m) + ttl s;
     r_order := uint64 (order s + 1) |}.

Definition put_spec (now : Z) (m : SentMessage) (s s' : Store)
    (res : result store_error (option SentMessage)) : Prop :=
  let live := alive now (abs s) in
  let new := fresh_entry now s m in
  let id := sm_MessageID m in
  if now <? r_expiresAt new then
    order s' = uint64 (order s + 1) /\
    match live !! id with
    | Some _ => res = Ok None /\ abs s' = <[id := new]> live
    | None =>
        if Z.of_nat (size live) =? capacity s
        then exists k r, first_to_expire live k /\ live !! k = Some r /\
                         res = Ok (Some (r_message r)) /\ abs s' = <[id := new]> (delete k live)
        else res = Ok None /\ abs s' = <[id := new]> live
    end
  else res = Err ErrExpired /\ abs s' = live /\ order s' = order s.

Lemma stamped_id now m : sm_MessageID (stamped now m) = sm_MessageID m.
Proof. unfold stamped. by case_match. Qed.

Lemma Put_refines now m s :
  store_ok s ->
  let '(res, s') := Put now m s in
  store_ok s' /\ capacity s' = capacity s /\ ttl s' = ttl s /\ put_spec now m s s' res.
Proof.
  intros Hok. unfold Put. fold (stamped now m). pose proof (expireLocked_spec now s Hok) as He.
  destruct (expireLocked now s) as [removed s1]. destruct He as (Hok1 & Habs & _ & Hc & Ht & Hord).
  simpl. unfold put_spec, fresh_entry. simpl. rewrite <- Habs, Hc, Ht, Hord.
  destruct (Z.ltb_spec now (sm_SentAt (stamped now m) + ttl s)) as [Hlive|Hdead]; [|done]. simpl.
  rewrite stamped_id. set (o := uint64 (order s + 1)). set (s2 := set_order o s1).
  pose proof (set_order_ok o s1 Hok1) as Hok2. fold s2 in Hok2.
  assert (Hl : forall k, abs s1 !! k = retain <$> entries s1 !! k) by (intros; apply lookup_fmap).
  rewrite Hl. destruct (entries s1 !! sm_MessageID m) as [old|] eqn:Eold; simpl.
  - set (item := {| e_message := stamped now m |}).
    destruct (fix_existing s2 (sm_MessageID m) old item) as (A & B & C & D & E);
      [done..|apply stamped_id|by simpl; rewrite Ht|].
    split; [exact A|]. split; [by transitivity (capacity s1)|]. split; [by transitivity (ttl s1)|].
    split; [exact E|]. split; [done|exact B].
  - destruct (Z.eqb_spec (Z.of_nat (size (entries s1))) (capacity s)) as [Hfull|Hfree].
    + destruct (pop_forget s2 Hok2) as (k & s3 & Hpop & Hfirst & _ & Ha3 & Hok3 & Habs3 & Hc3 & Ht3 & Ho3 & _).
      { intros Hnil. destruct Hok2 as [_ Hd _ _ Hc0 _ _]. simpl in *. rewrite Hc in Hc0.
        assert (entries s1 = ∅) as Hempty.
        { apply map_eq. intros x. rewrite lookup_empty. apply eq_None_not_Some. rewrite <- Hd, Hnil.
          apply not_elem_of_nil. }
        rewrite Hempty, map_size_empty in Hfull. lia. }
      rewrite Hpop. fold (forget k s3). set (item := {| e_message := stamped now m |}).
      destruct Hfirst as (r & Hr & Hmin). change (abs s2) with (abs s1) in *.
      destruct (push_new (forget k s3) (sm_MessageID m) item) as (A & B & C & D & E).
      * done.
      * rewrite Habs3. apply lookup_delete_None. right. by rewrite Hl, Eold.
      * rewrite Habs3, map_size_delete_Some by eauto. simpl. rewrite Hc3. simpl. rewrite Hc, <- Hfull.
        unfold abs. rewrite map_size_fmap. assert (size (entries s1) <> 0%nat); [|lia].
        intros Hz%map_size_empty_inv. rewrite Hl, Hz, lookup_empty in Hr. done.
      * apply stamped_id.
      * simpl. by rewrite Ht3, <- Ht.
      * assert (Hmsg : e_message <$> entries s3 !! k = Some (r_message r)).
        { assert (Hr3 : abs s3 !! k = Some r) by by rewrite Ha3.
          unfold abs in Hr3. rewrite lookup_fmap in Hr3. destruct (entries s3 !! k); [|done].
          by injection Hr3 as <-. }
        assert (Hnew : retain item = {| r_message := stamped now m;
          r_expiresAt := sm_SentAt (stamped now m) + ttl s; r_order := o |})
          by (unfold retain, item; simpl; by rewrite Ho3).
        split; [exact A|]. split; [transitivity (capacity s3); [exact C|by transitivity (capacity s2)]|].
        split; [transitivity (ttl s3); [exact D|by transitivity (ttl s2)]|].
        split; [transitivity (order s3); [exact E|done]|].
        rewrite (proj2 (Z.eqb_eq _ _)) by (unfold abs; by rewrite map_size_fmap).
        exists k, r. split; [by exists r|]. split; [done|]. split; [by rewrite Hmsg|].
        rewrite <- Hnew, <- Habs3. exact B.
    + set (item := {| e_message := stamped now m |}).
      destruct (push_new s2 (sm_MessageID m) item) as (A & B & C & D & E).
      * done.
      * change (abs s2) with (abs s1). by rewrite Hl, Eold.
      * change (abs s2) with (abs s1). unfold abs. rewrite map_size_fmap. simpl.
        destruct Hok1 as [_ _ _ Hs1 _ _ _]. lia.
      * apply stamped_id.
      * simpl. by rewrite Ht.
      * split; [exact A|]. split; [by transitivity (capacity s1)|]. split; [by transitivity (ttl s1)|].
        split; [exact E|].
        rewrite (proj2 (Z.eqb_neq _ _)) by (unfold abs; by rewrite map_size_fmap).
        split; [done|exact B].
Qed.

Lemma abs_lookup s k : abs s !! k = retain <$> entries s !! k.
Proof. apply lookup_fmap. Qed.

Lemma abs_message s k : e_message <$> entries s !! k = r_message <$> abs s !! k.
Proof. rewrite abs_lookup. by destruct (entries s !! k). Qed.

(** An update of a message that keeps its identity and send time. *)
Lemma update_message_ok s id e e' :
  store_ok s -> entries s !! id = Some e -> e_index e' = e_index e -> e_expiresAt e' = e_expiresAt e ->
  e_order e' = e_order e -> sm_MessageID (e_message e') = sm_MessageID (e_message e) ->
  sm_SentAt (e_message e') = sm_SentAt (e_message e) ->
  store_ok (store_entry id e' s).
Proof.
  intros [[Hnd Hix] Hd Ho Hs Hc Ht He] Hid Hidx Hexp Hord Hmid Hsent. split; simpl; try done.
  - split; [done|]. simpl. intros i k Hk. destruct (Hix i k Hk) as (x & Hx & Hi).
    destruct (decide (k = id)) as [->|]; [|by rewrite lookup_insert_ne; eauto].
    rewrite lookup_insert_eq. exists e'. split; [done|]. congruence.
  - intros k. rewrite Hd. destruct (decide (k = id)) as [->|]; [|by rewrite lookup_insert_ne].
    rewrite lookup_insert_eq, Hid. split; eauto.
  - eapply ordered_ext; [|exact Ho]. intros i Hi. unfold key_at, entry_at. simpl.
    destruct (expiry s !! i) as [k|]; [|done]. simpl.
    destruct (decide (k = id)) as [->|]; [|by rewrite lookup_insert_ne].
    rewrite lookup_insert_eq, Hid. by rewrite Hexp, Hord.
  - rewrite map_size_insert_Some by eauto. done.
  - intros k x [[<- <-]|[? Hx]]%lookup_insert_Some; [|by apply He].
    rewrite Hmid, Hexp, Hsent. by apply He.
Qed.

Definition ack_retained (r : retained) : retained :=
  {| r_message := acknowledged (r_message r); r_expiresAt := r_expiresAt r; r_order := r_order r |}.

Lemma Acknowledge_refines now id s :
  store_ok s ->
  let '(found, s') := Acknowledge now id s in
  store_ok s' /\ found = bool_decide (is_Some (alive now (abs s) !! id)) /\
  abs s' = alter ack_retained id (alive now (abs s)).
Proof.
  intros Hok. unfold Acknowledge. pose proof (expireLocked_spec now s Hok) as He.
  destruct (expireLocked now s) as [removed s1]. destruct He as (Hok1 & Habs & _). simpl.
  rewrite <- Habs, abs_lookup. destruct (entries s1 !! id) as [e|] eqn:E; simpl.
  - fold (store_entry id (ack_entry e) s1). split; [by eapply update_message_ok|].
    split; [done|].
    rewrite abs_store_entry. apply map_eq. intros k. destruct (decide (k = id)) as [->|].
    + rewrite lookup_insert_eq, lookup_alter_eq, abs_lookup, E. done.
    + by rewrite lookup_insert_ne, lookup_alter_ne.
  - split; [done|]. split; [done|].
    apply map_eq. intros k. destruct (decide (k = id)) as [->|].
    + rewrite lookup_alter_eq, abs_lookup, E. done.
    + by rewrite lookup_alter_ne.
Qed.

Lemma Remove_refines now id s :
  store_ok s ->
  let '(found, s') := Remove now id s in
  store_ok s' /\ found = r_message <$> alive now (abs s) !! id /\ abs s' = delete id (alive now (abs s)).
Proof.
  intros Hok. unfold Remove. pose proof (expireLocked_spec now s Hok) as He.
  destruct (expireLocked now s) as [removed s1]. destruct He as (Hok1 & Habs & _). simpl.
  rewrite <- Habs, <- abs_message. destruct (entries s1 !! id) as [e|] eqn:E; simpl.
  - pose proof Hok1 as [Hix Hd Ho _ _ _ _]. pose proof Hix as [Hnd Hidx].
    assert (id ∈ expiry s1) as [i Hi]%list_elem_of_lookup by (apply Hd; eauto).
    destruct (Hidx i id Hi) as (e' & He' & Hi'). simplify_eq. rewrite Hi', Nat2Z.id.
    destruct (heap_Remove_spec s1 i id Hix Ho Hi) as (s2 & -> & Hp & Hf & Hix2 & Ho2). simpl.
    fold (forget id s2). destruct (forget_ok s1 s2 id Hok1 Hp Hf Hix2 Ho2) as (Hok2 & Habs2 & _). done.
  - split; [done|]. split; [done|]. symmetry. apply delete_id. by rewrite abs_lookup, E.
Qed.

(** The newest matching message, whatever order the map is visited in. *)
Definition is_newest (requestID : Z) (m : gmap Z retained) (found : option SentMessage) : Prop :=
  match found with
  | None => requestID = 0 \/ forall k r, m !! k = Some r -> sm_RequestMessageID (r_message r) <> requestID
  | Some msg => requestID <> 0 /\ sm_RequestMessageID msg = requestID /\
      (exists r, m !! sm_MessageID msg = Some r /\ r_message r = msg) /\
      forall k r, m !! k = Some r -> sm_RequestMessageID (r_message r) = requestID -> k <= sm_MessageID msg
  end.

Lemma newest_response_spec requestID items :
  match newest_response requestID items with
  | None => requestID = 0 \/ forall e, e ∈ items -> sm_RequestMessageID (e_message e) <> requestID
  | Some e => requestID <> 0 /\ e ∈ items /\ sm_RequestMessageID (e_message e) = requestID /\
      forall e', e' ∈ items -> sm_RequestMessageID (e_message e') = requestID ->
                 sm_MessageID (e_message e') <= sm_MessageID (e_message e)
  end.
Proof.
  induction items as [|x items IH] using rev_ind.
  { simpl. right. intros e He. by apply elem_of_nil in He. }
  unfold newest_response in *. rewrite foldl_app. simpl.
  set (found := foldl _ None items) in *. clearbody found.
  destruct (Z.eqb_spec (sm_RequestMessageID (e_message x)) requestID) as [Hx|Hx]; simpl.
  2:{ destruct found as [f|].
      - destruct IH as (H0 & Hin & Hf & Hmax). split_and!; try done; [by apply elem_of_app; left|].
        intros e [He|He%list_elem_of_singleton]%elem_of_app; [by apply Hmax|congruence].
      - destruct IH as [IH|IH]; [by left|right]. intros e [He|He%list_elem_of_singleton]%elem_of_app; [by apply IH|congruence]. }
  destruct (Z.eqb_spec requestID 0) as [H0|H0]; simpl.
  { destruct found as [f|]; [by destruct IH|by left]. }
  destruct found as [f|].
  - destruct IH as (_ & Hin & Hf & Hmax).
    destruct (Z.ltb_spec (sm_MessageID (e_message f)) (sm_MessageID (e_message x))).
    + split_and!; try done; [apply elem_of_app; right; by apply list_elem_of_singleton|].
      intros e [He|He%list_elem_of_singleton]%elem_of_app Hr; [specialize (Hmax e He Hr); lia|subst; lia].
    + split_and!; try done; [by apply elem_of_app; left|].
      intros e [He|He%list_elem_of_singleton]%elem_of_app Hr; [by apply Hmax|subst; lia].
  - destruct IH as [IH|IH]; [done|].
    split_and!; try done; [apply elem_of_app; right; by apply list_elem_of_singleton|].
    intros e [He|He%list_elem_of_singleton]%elem_of_app Hr; [by apply IH in He|subst; lia].
Qed.

Lemma newest_response_abs requestID s items :
  store_ok s -> items ≡ₚ (map_to_list (entries s)).*2 ->
  is_newest requestID (abs s) (e_message <$> newest_response requestID items).
Proof.
  intros Hok Hp. pose proof (newest_response_spec requestID items) as H.
  assert (Hin : forall e, e ∈ items <-> exists k, entries s !! k = Some e).
  { intros e. rewrite Hp, list_elem_of_fmap. split.
    - intros ([k e'] & -> & Hk%elem_of_map_to_list). eauto.
    - intros [k Hk%elem_of_map_to_list]. by exists (k, e). }
  destruct Hok as [_ _ _ _ _ _ He].
  assert (Habs : forall k r, abs s !! k = Some r -> exists e, entries s !! k = Some e /\ r = retain e).
  { intros k r. rewrite abs_lookup. intros (e & ? & ?)%fmap_Some. eauto. }
  destruct (newest_response requestID items) as [e|]; simpl.
  - destruct H as (H0 & [k Hk]%Hin & Hr & Hmax). split; [done|]. split; [done|]. split.
    + destruct (He k e Hk) as [-> _]. exists (retain e). by rewrite abs_lookup, Hk.
    + intros k' r (e' & Hk' & ->)%Habs Hr'. destruct (He k' e' Hk') as [<- _].
      apply Hmax; [apply Hin; eauto|done].
  - destruct H as [|H]; [by left|]. right. intros k r (e' & Hk' & ->)%Habs. apply H, Hin. eauto.
Qed.

Lemma New_ok c s : New c = Ok s -> store_ok s.
Proof.
  unfold New. intros Hn. repeat case_match; simplify_eq; bools.
  split; simpl; try lia.
  - split; simpl; [apply NoDup_nil_2|]. intros i k Hk. done.
  - intros k. rewrite lookup_empty. split; [intros Hk; by apply elem_of_nil in Hk|by intros [? ?]].
  - intros i Hi. lia.
  - rewrite map_size_empty. lia.
  - intros k e He. by rewrite lookup_empty in He.
Qed.

Lemma Lookup_refines now id s :
  store_ok s ->
  let '(found, s') := Lookup now id s in
  store_ok s' /\ found = r_message <$> alive now (abs s) !! id /\ abs s' = alive now (abs s).
Proof.
  intros Hok. unfold Lookup. pose proof (expireLocked_spec now s Hok) as He.
  destruct (expireLocked now s) as [removed s1]. destruct He as (Hok1 & Habs & _). simpl.
  by rewrite abs_message, Habs.
Qed.

Lemma LookupForResend_refines now id s :
  store_ok s ->
  let '(found, s') := LookupForResend now id s in
  store_ok s' /\
  found = (alive now (abs s) !! id ≫=
            fun r => if sm_Acknowledged (r_message r) then None else Some (r_message r)) /\
  abs s' = alive now (abs s).
Proof.
  intros Hok. unfold LookupForResend. pose proof (expireLocked_spec now s Hok) as He.
  destruct (expireLocked now s) as [removed s1]. destruct He as (Hok1 & Habs & _). simpl.
  rewrite <- Habs, abs_lookup. by destruct (entries s1 !! id).
Qed.

(** ** Messages stored together stay together *)

(** The messages [N] of one frame, which expire at [E], were inserted after [o];
    nothing else expires later or was inserted later. *)
Definition newest_group (E o : Z) (N : gset Z) (m : gmap Z retained) : Prop :=
  (forall k, k ∈ N -> is_Some (m !! k)) /\
  forall k r, m !! k = Some r ->
    if decide (k ∈ N) then r_expiresAt r = E /\ o < r_order r else r_expiresAt r <= E /\ r_order r <= o.

Lemma newest_group_evicts E o N m k :
  newest_group E o N m -> first_to_expire m k -> Z.of_nat (size N) < Z.of_nat (size m) -> k ∉ N.
Proof.
  intros [_ Hg] (r & Hk & Hmin) Hsize Hin.
  assert (Hsub : dom m ⊆ N).
  { intros k' [r' Hk']%elem_of_dom. pose proof (Hg k r Hk) as Hr. pose proof (Hg k' r' Hk') as Hr'.
    rewrite decide_True in Hr by done. destruct (decide (k' ∈ N)); [done|]. exfalso.
    specialize (Hmin k' r' Hk'). unfold kle, key_lt, r_key in Hmin. cbn in Hmin.
    repeat case_match; bools; lia. }
  apply subseteq_size in Hsub. rewrite size_dom in Hsub. lia.
Qed.

Lemma newest_group_alive now E o N m : now < E -> newest_group E o N m -> newest_group E o N (alive now m).
Proof.
  intros Hnow [Hd Hg]. split.
  - intros k Hk. destruct (Hd k Hk) as [r Hr]. pose proof (Hg k r Hr) as Hgr. rewrite decide_True in Hgr by done.
    rewrite alive_lookup, Hr. rewrite (proj2 (Z.ltb_lt _ _)) by lia. eauto.
  - intros k r Hr. apply Hg. rewrite alive_lookup in Hr. by repeat case_match; simplify_eq.
Qed.

Lemma newest_group_add E o N m id r :
  newest_group E o N m -> r_expiresAt r = E -> o < r_order r -> newest_group E o ({[id]} ∪ N) (<[id := r]> m).
Proof.
  intros [Hd Hg] HE Ho. split.
  - intros k Hk. destruct (decide (k = id)) as [->|]; [rewrite lookup_insert_eq; eauto|].
    rewrite lookup_insert_ne by done. apply Hd. set_solver.
  - intros k r' [[<- <-]|[Hne Hr]]%lookup_insert_Some; [by rewrite decide_True by set_solver|].
    pose proof (Hg k r' Hr) as Hgr. repeat case_decide; try done; set_solver.
Qed.

Lemma newest_group_delete E o N m k : k ∉ N -> newest_group E o N m -> newest_group E o N (delete k m).
Proof.
  intros Hk [Hd Hg]. split.
  - intros k' Hk'. rewrite lookup_delete_ne by set_solver. by apply Hd.
  - intros k' r [? Hr]%lookup_delete_Some. by apply Hg.
Qed.

(** Storing another message of the group evicts none of the group. *)
Lemma Put_group now m s s' res E o N :
  store_ok s -> newest_group E o N (abs s) -> Put now m s = (Ok res, s') ->
  sm_SentAt m <> zeroTime -> E = sm_SentAt m + ttl s -> o <= order s < 2 ^ 64 - 1 -> 0 <= o ->
  Z.of_nat (size N) < capacity s ->
  newest_group E o ({[sm_MessageID m]} ∪ N) (abs s') /\ order s' = order s + 1 /\
  (exists r, abs s' !! sm_MessageID m = Some r /\ r_message r = m) /\
  (forall k, k ∈ N -> k <> sm_MessageID m -> abs s' !! k = abs s !! k).
Proof.
  intros Hok Hg HP Hz HE Ho Ho' Hsize. pose proof (Put_refines now m s Hok) as Hs. rewrite HP in Hs.
  destruct Hs as (_ & _ & _ & Hs). unfold put_spec in Hs.
  assert (Hst : stamped now m = m) by (unfold stamped; by rewrite (proj2 (Z.eqb_neq _ _))).
  cbn [r_expiresAt fresh_entry] in Hs. rewrite Hst, <- HE in Hs.
  destruct (Z.ltb_spec now E) as [Hnow|]; [|by destruct Hs].
  destruct Hs as [Hord Hs]. rewrite wrapU_id in Hord by (unfold inU; lia).
  pose proof (newest_group_alive now E o N _ Hnow Hg) as Hga.
  assert (Hnew : r_expiresAt (fresh_entry now s m) = E /\ o < r_order (fresh_entry now s m) /\ r_message (fresh_entry now s m) = m).
  { cbn. rewrite Hst, wrapU_id by (unfold inU; lia). split_and!; [done|lia|done]. }
  destruct Hnew as (HnE & Hno & Hnm).
  assert (Hkeep : forall k, k ∈ N -> alive now (abs s) !! k = abs s !! k).
  { intros k Hk. destruct Hg as [Hd Hg]. destruct (Hd k Hk) as [r Hr]. rewrite alive_lookup, Hr.
    specialize (Hg k r Hr). rewrite decide_True in Hg by done. by rewrite (proj2 (Z.ltb_lt _ _)) by lia. }
  assert (Hdone : forall live, newest_group E o N live -> (forall k, k ∈ N -> live !! k = abs s !! k) ->
    abs s' = <[sm_MessageID m := fresh_entry now s m]> live ->
    newest_group E o ({[sm_MessageID m]} ∪ N) (abs s') /\ order s' = order s + 1 /\
    (exists r, abs s' !! sm_MessageID m = Some r /\ r_message r = m) /\
    (forall k, k ∈ N -> k <> sm_MessageID m -> abs s' !! k = abs s !! k)).
  { intros live Hl Hk ->. split_and!; [by apply newest_group_add|done| |].
    - rewrite lookup_insert_eq. eauto.
    - intros k Hk' Hne. rewrite lookup_insert_ne by done. by apply Hk. }
  destruct (alive now (abs s) !! sm_MessageID m); [destruct Hs; by eapply Hdone|].
  destruct (Z.eqb_spec (Z.of_nat (size (alive now (abs s)))) (capacity s)) as [Hfull|]; [|destruct Hs; by eapply Hdone].
  destruct Hs as (k & r & Hfirst & Hk & _ & Habs).
  assert (k ∉ N) by (eapply newest_group_evicts; [done..|lia]).
  eapply Hdone; [by eapply newest_group_delete| |done].
  intros k' Hk'. rewrite lookup_delete_ne by set_solver. by apply Hkeep.
Qed.

(** * Properties *)

Definition sample_sent (id : Z) : SentMessage :=
  {| sm_MessageID := id; sm_RequestMessageID := 100 + id; sm_SequenceNumber := 1; sm_Payload := [x01];
     sm_SentAt := 10 * id; sm_Acknowledged := false |}.

Definition sample_store : Store :=
  {| capacity := 1; ttl := 50; order := 1;
     entries := {[ 7 := {| e_message := sample_sent 7; e_expiresAt := 120; e_order := 1; e_index := 0 |} ]};
     expiry := [7] |}.

Lemma sample_store_ok : store_ok sample_store.
Proof.
  split; simpl; try lia.
  - split; [apply NoDup_singleton|]. simpl. intros i k [-> <-]%list_lookup_singleton_Some.
    rewrite lookup_singleton_eq. eauto.
  - intros k. rewrite list_elem_of_singleton. split.
    + intros ->. rewrite lookup_singleton_eq. eauto.
    + intros [e He]. by apply lookup_singleton_Some in He as [<- _].
  - intros c Hc. lia.
  - rewrite map_size_singleton. lia.
  - intros k e [<- <-]%lookup_singleton_Some. done.
Qed.

(** C7. [Put] refines the abstract store, a map of unexpired messages: expired
    messages go first; a message already past its life is refused; a retained
    id is replaced in place; at capacity exactly one message is evicted and
    returned, one that no other retained message expires before, ties by
    insertion order; otherwise nothing is evicted. The heap, its index fields
    and the capacity bound are kept on every branch. *)
Theorem Put_refines_store now m s :
  store_ok s ->
  let '(res, s') := Put now m s in
  store_ok s' /\ capacity s' = capacity s /\ ttl s' = ttl s /\ put_spec now m s s' res.
Proof. apply Put_refines. Qed.

Lemma Put_refines_store_witness :
  (Put 90 (sample_sent 9) sample_store).1 = Ok (Some (sample_sent 7)) /\
  store_ok (Put 90 (sample_sent 9) sample_store).2.
Proof.
  split; [vm_compute; reflexivity|].
  pose proof (Put_refines_store 90 (sample_sent 9) sample_store sample_store_ok) as H.
  destruct (Put 90 (sample_sent 9) sample_store) as [res s']. exact (proj1 H).
Defined.

(** The other operations refine the abstract store: each first drops what
    expired; [Acknowledge] marks and reports exactly the retained message,
    [Lookup] and [LookupForResend] answer from the map, the latter leaving out
    acknowledged messages, [Remove] deletes and returns, [Expire] counts what
    it dropped and [Len] what is left, never above the capacity. *)
Lemma Store_operations_refine now id s :
  store_ok s ->
  let live := alive now (abs s) in
  (let '(found, s') := Acknowledge now id s in
   store_ok s' /\ found = bool_decide (is_Some (live !! id)) /\ abs s' = alter ack_retained id live) /\
  (let '(found, s') := Lookup now id s in
   store_ok s' /\ found = r_message <$> live !! id /\ abs s' = live) /\
  (let '(found, s') := LookupForResend now id s in
   store_ok s' /\ abs s' = live /\
   found = (live !! id ≫= fun r => if sm_Acknowledged (r_message r) then None else Some (r_message r))) /\
  (let '(found, s') := Remove now id s in
   store_ok s' /\ found = r_message <$> live !! id /\ abs s' = delete id live) /\
  (let '(removed, s') := Expire now s in
   store_ok s' /\ abs s' = live /\ removed = Z.of_nat (size (abs s)) - Z.of_nat (size live)) /\
  (let '(n, s') := Store_Len now s in
   store_ok s' /\ abs s' = live /\ n = Z.of_nat (size live) /\ n <= capacity s).
Proof.
  intros Hok live. split; [by apply Acknowledge_refines|]. split; [by apply Lookup_refines|].
  split; [pose proof (LookupForResend_refines now id s Hok); case_match; naive_solver|].
  split; [by apply Remove_refines|]. pose proof (expireLocked_spec now s Hok) as He.
  unfold Expire, Store_Len. destruct (expireLocked now s) as [removed s1].
  destruct He as (Hok1 & Habs & Hr & Hc & _). simpl. fold live in Habs. rewrite <- Habs.
  split; [done|]. pose proof (so_size _ Hok1). unfold abs. rewrite map_size_fmap.
  split_and!; try done. lia.
Qed.

Lemma Store_operations_refine_witness :
  (Remove 90 7 sample_store).1 = Some (sample_sent 7) /\ (Store_Len 90 sample_store).1 = 1 /\
  abs (Remove 90 7 sample_store).2 = delete 7 (alive 90 (abs sample_store)).
Proof.
  split; [vm_compute; reflexivity|]. split; [vm_compute; reflexivity|].
  pose proof (Store_operations_refine 90 7 sample_store sample_store_ok) as (_ & _ & _ & H & _).
  destruct (Remove 90 7 sample_store) as [found s']. exact (proj2 (proj2 H)).
Defined.

(** [LookupResponse] returns the retained, unexpired response to the request
    with the greatest message id, and nothing when there is none or the
    request id is zero, in whatever order the map is visited. *)
Lemma LookupResponse_newest now requestID s items :
  store_ok s -> items ≡ₚ (map_to_list (entries (expireLocked now s).2)).*2 ->
  is_newest requestID (alive now (abs s)) (e_message <$> newest_response requestID items) /\
  (LookupResponse now requestID s).1 = e_message <$> newest_response requestID items.
Proof.
  intros Hok Hp. pose proof (expireLocked_spec now s Hok) as He. unfold LookupResponse.
  destruct (expireLocked now s) as [removed s1]. simpl in *. destruct He as (Hok1 & Habs & _).
  pose proof (newest_response_abs requestID s1 items Hok1 Hp) as H1.
  pose proof (newest_response_abs requestID s1 _ Hok1 (reflexivity _)) as H2. rewrite Habs in H1, H2.
  split; [done|]. clear Habs Hp. revert H1 H2.
  generalize (e_message <$> newest_response requestID items).
  generalize (e_message <$> newest_response requestID (map_to_list (entries s1)).*2).
  intros [a|] [b|]; simpl; try done.
  - intros (_ & Hb & (rb & Hrb & <-) & Hmb) (_ & Ha & (ra & Hra & <-) & Hma).
    specialize (Hmb _ _ Hra Ha). specialize (Hma _ _ Hrb Hb). do 2 f_equal.
    replace (sm_MessageID (r_message ra)) with (sm_MessageID (r_message rb)) in Hra by lia. congruence.
  - intros [?|Hn] (? & Ha & (ra & Hra & <-) & _); [done|by apply Hn in Hra].
  - intros (? & Hb & (rb & Hrb & <-) & _) [?|Hn]; [done|by apply Hn in Hrb].
Qed.

Lemma LookupResponse_newest_witness :
  (LookupResponse 90 107 sample_store).1 = Some (sample_sent 7).
Proof.
  rewrite (proj2 (LookupResponse_newest 90 107 sample_store
    (map_to_list (entries (expireLocked 90 sample_store).2)).*2 sample_store_ok (reflexivity _))).
  vm_compute. reflexivity.
Defined.
