(* ===== verification/Contracts.v ===== *)
(** The contracts between the runtime's stages (internal/runtime/contracts.go):
    inbound messages, outbound intents, session mutations and their checks. *)

From stdpp Require Import base numbers list gmap strings.
From S2P Require Import Prelude Wire.
Open Scope Z_scope.

Inductive contract_error := ErrInvalidInbound | ErrInvalidIntent.

Record InboundMessage := {
  im_MessageID : Z;
  im_SequenceNo : Z;
  im_ConstructorID : Z;
  im_Body : bytes;
  im_Dependencies : list Z;
  im_DecodeBudget : option DecodeBudget;
  im_ContentRelated : bool;
  im_SuppressPush : bool;
  im_Retransmission : bool
}.

Definition InboundMessage_Validate (m : InboundMessage) : result contract_error unit :=
  if (im_MessageID m =? 0) || (im_ConstructorID m =? 0) || (len (im_Body m) <? 4) ||
     negb (le_get (take 4 (im_Body m)) =? im_ConstructorID m)
  then Err ErrInvalidInbound
  else if existsb (fun d => (d =? 0) || (im_MessageID m <=? d)) (im_Dependencies m)
  then Err ErrInvalidInbound
  else Ok tt.

(** A Go [error] held by value: [None] is nil. *)
Abbreviation cause := (option string).

Inductive Intent :=
| RPCResult (RequestMessageID : Z) (Body : bytes)
| RPCError (RequestMessageID Code : Z) (Message : string)
| ProtocolReply (Body : bytes) (ContentRelated Unsolicited : bool)
| Acknowledge (MessageIDs : list Z)
| Push (Body : bytes)
| Batch (Items : list Intent)
| Resend (MessageIDs : list Z)
| Close (Cause : cause).

Inductive SessionMutation :=
| SetLayer (Layer : Z)
| SetClientMetadata (APIID : Z) (DeviceModel SystemVersion AppVersion SystemLangCode LangPack LangCode : string)
| BindUser (UserID : Z)
| UnbindUser
| SetPushSubscription (Enabled : bool)
| MarkNewSessionCreated (FirstMessageID : Z).

Record Outcome := {
  out_Intents : list Intent;
  out_Mutations : list SessionMutation;
  out_DisconnectAfter : option Z
}.

Fixpoint checkMessageIDs (seen : gset Z) (ids : list Z) : result contract_error unit :=
  match ids with
  | [] => Ok tt
  | id :: ids' =>
      if id =? 0 then Err ErrInvalidIntent
      else if bool_decide (id ∈ seen) then Err ErrInvalidIntent
      else checkMessageIDs ({[id]} ∪ seen) ids'
  end.

Definition validateMessageIDs (ids : list Z) : result contract_error unit :=
  if len ids =? 0 then Err ErrInvalidIntent else checkMessageIDs ∅ ids.

Definition batchable (child : Intent) : bool :=
  match child with
  | RPCResult _ _ | RPCError _ _ _ | ProtocolReply _ _ _ | Acknowledge _ | Push _ => true
  | _ => false
  end.

Fixpoint ValidateIntent (intent : Intent) : result contract_error unit :=
  match intent with
  | RPCResult id body => if (id =? 0) || (len body <? 4) then Err ErrInvalidIntent else Ok tt
  | RPCError id _ msg => if (id =? 0) || String.eqb msg "" then Err ErrInvalidIntent else Ok tt
  | ProtocolReply body _ _ => if len body <? 4 then Err ErrInvalidIntent else Ok tt
  | Acknowledge ids => validateMessageIDs ids
  | Push body => if len body <? 4 then Err ErrInvalidIntent else Ok tt
  | Batch items =>
      if len items =? 0 then Err ErrInvalidIntent
      else
        (fix checkItems (items : list Intent) : result contract_error unit :=
           match items with
           | [] => Ok tt
           | child :: items' =>
               if negb (batchable child) then Err ErrInvalidIntent
               else match ValidateIntent child with
                    | Err e => Err e
                    | Ok _ => checkItems items'
                    end
           end) items
  | Resend ids => validateMessageIDs ids
  | Close c => match c with None => Err ErrInvalidIntent | Some _ => Ok tt end
  end.

(** * What the checks establish *)

(** A message a container may carry. *)
Definition valid_message (i : Intent) : Prop :=
  match i with
  | RPCResult id body => id <> 0 /\ 4 <= len body
  | RPCError id _ msg => id <> 0 /\ msg <> ""%string
  | ProtocolReply body _ _ => 4 <= len body
  | Acknowledge ids => ids <> [] /\ NoDup ids /\ (0 ∉ ids)
  | Push body => 4 <= len body
  | _ => False
  end.

(** Batches are one level deep and made of valid messages. *)
Definition valid_intent (i : Intent) : Prop :=
  match i with
  | Batch items => items <> [] /\ Forall valid_message items
  | Resend ids => ids <> [] /\ NoDup ids /\ (0 ∉ ids)
  | Close c => c <> None
  | _ => valid_message i
  end.

Lemma checkMessageIDs_ok seen ids :
  checkMessageIDs seen ids = Ok tt <-> NoDup ids /\ (0 ∉ ids) /\ (forall x, x ∈ ids -> x ∉ seen).
Proof.
  revert seen. induction ids as [|id ids IH]; intros seen; simpl.
  { split; [|done]. intros _. split_and!; [apply NoDup_nil_2|apply not_elem_of_nil|].
    intros x Hx. by apply elem_of_nil in Hx. }
  rewrite NoDup_cons, not_elem_of_cons. setoid_rewrite elem_of_cons.
  destruct (Z.eqb_spec id 0) as [->|Hid]; [naive_solver|].
  case_bool_decide as Hs; [naive_solver|]. rewrite IH.
  setoid_rewrite elem_of_union. setoid_rewrite elem_of_singleton. split.
  - intros (Hnd & H0 & Hd). split_and!; try done; naive_solver.
  - intros ((Hni & Hnd) & [_ H0] & Hd). split_and!; try done. naive_solver.
Qed.

Lemma validateMessageIDs_ok ids :
  validateMessageIDs ids = Ok tt <-> ids <> [] /\ NoDup ids /\ (0 ∉ ids).
Proof.
  unfold validateMessageIDs. destruct ids as [|id ids].
  { split; [done|]. by intros []. }
  rewrite (proj2 (Z.eqb_neq _ 0)).
  - rewrite checkMessageIDs_ok. set_solver.
  - rewrite len_cons. pose proof (len_nonneg ids). lia.
Qed.

Lemma ValidateIntent_message i :
  batchable i = true -> ValidateIntent i = Ok tt <-> valid_message i.
Proof.
  destruct i as [id body|id c msg|body ? ?|ids|body|items|ids|c]; simpl; try done; intros _.
  - destruct (Z.eqb_spec id 0), (Z.ltb_spec (len body) 4); simpl; split; try done; naive_solver lia.
  - destruct (Z.eqb_spec id 0), (String.eqb_spec msg ""); simpl; split; naive_solver.
  - destruct (Z.ltb_spec (len body) 4); split; try done; lia.
  - apply validateMessageIDs_ok.
  - destruct (Z.ltb_spec (len body) 4); split; try done; lia.
Qed.

Lemma batchable_valid i : valid_message i -> batchable i = true.
Proof. by destruct i. Qed.

Fixpoint checkItems (items : list Intent) : result contract_error unit :=
  match items with
  | [] => Ok tt
  | child :: items' =>
      if negb (batchable child) then Err ErrInvalidIntent
      else match ValidateIntent child with
           | Err e => Err e
           | Ok _ => checkItems items'
           end
  end.

Lemma checkItems_ok items : checkItems items = Ok tt <-> Forall valid_message items.
Proof.
  induction items as [|x items IH]; simpl; [by split; [constructor|]|].
  rewrite Forall_cons. destruct (batchable x) eqn:E; simpl.
  - pose proof (ValidateIntent_message x E) as Hx. destruct (ValidateIntent x) as [[]|].
    + rewrite IH. naive_solver.
    + split; [done|]. intros [Hv%Hx _]. done.
  - split; [done|]. intros [Hv%batchable_valid _]. congruence.
Qed.

Lemma ValidateIntent_valid i : ValidateIntent i = Ok tt <-> valid_intent i.
Proof.
  destruct (batchable i) eqn:E.
  { rewrite ValidateIntent_message by done. by destruct i. }
  destruct i as [| | | | |items|ids|[c|]]; try done; simpl.
  - destruct items as [|x items].
    { split; [done|]. by intros []. }
    rewrite (proj2 (Z.eqb_neq _ 0)) by (rewrite len_cons; pose proof (len_nonneg items); lia).
    trans (Forall valid_message (x :: items)); [|split; [by split|by intros []]].
    fold (checkItems (x :: items)). apply checkItems_ok.
  - apply validateMessageIDs_ok.
Qed.

(** * Properties *)

(** An intent passes [ValidateIntent] exactly when it is complete: non-zero
    and pairwise distinct message ids, bodies that can hold a constructor,
    a cause for a close, and batches that are one level deep, non-empty and
    made of complete messages only. *)
Lemma ValidateIntent_correct i : ValidateIntent i = Ok tt <-> valid_intent i.
Proof. apply ValidateIntent_valid. Qed.
