(* ===== verification/InboundState.v ===== *)
(** The ledger of inbound message states (internal/runtime/inbound_state.go),
    which answers msgs_state_req.  Times are nanoseconds; the clock of a call is
    its argument [now]. *)

From stdpp Require Import base numbers list gmap strings.
From S2P Require Import Prelude Contracts.
Open Scope Z_scope.

(** The status byte of mtproto/tl/state.go. *)
Definition MessageStateUnknownTooOld : Z := 1.
Definition MessageStateNotReceived : Z := 2.
Definition MessageStateUnknownTooHigh : Z := 3.
Definition MessageStateReceived : Z := 4.
Definition MessageStateAcknowledged : Z := 8.
Definition MessageStateNoAcknowledgement : Z := 16.
Definition MessageStateProcessing : Z := 32.
Definition MessageStateResponseGenerated : Z := 64.
Definition MessageStateKnown : Z := 128.

Inductive ledger_error :=
| ErrInvalidInboundStateCapacity
| ErrInvalidInboundStateTTL
| ErrInvalidMessage (e : contract_error).

Record inboundStateEntry := {
  is_status : Z;
  is_expiresAt : Z;
  is_order : Z
}.

Record InboundStateLedger := {
  l_capacity : Z;
  l_ttl : Z;
  l_order : Z;
  l_entries : gmap Z inboundStateEntry
}.

Definition set_entries (m : gmap Z inboundStateEntry) (l : InboundStateLedger) : InboundStateLedger :=
  {| l_capacity := l_capacity l; l_ttl := l_ttl l; l_order := l_order l; l_entries := m |}.

Definition NewInboundStateLedger (capacity ttl : Z) : result ledger_error InboundStateLedger :=
  if capacity <=? 0 then Err ErrInvalidInboundStateCapacity
  else if ttl <=? 0 then Err ErrInvalidInboundStateTTL
  else Ok {| l_capacity := capacity; l_ttl := ttl; l_order := 0; l_entries := ∅ |}.

Definition live_entries (now : Z) (m : gmap Z inboundStateEntry) : gmap Z inboundStateEntry :=
  filter (fun kv => now < is_expiresAt kv.2) m.

(** Deleting while ranging visits every entry once: the order is immaterial. *)
Definition ledger_expireLocked (now : Z) (l : InboundStateLedger) : Z * InboundStateLedger :=
  let kept := live_entries now (l_entries l) in
  (Z.of_nat (size (l_entries l)) - Z.of_nat (size kept), set_entries kept l).

(** One pass for the entry that expires first, in the order [items] of the map. *)
Definition older (a b : inboundStateEntry) : bool :=
  (is_expiresAt a <? is_expiresAt b) ||
  ((is_expiresAt a =? is_expiresAt b) && (is_order a <? is_order b)).

Definition oldest (items : list (Z * inboundStateEntry)) : option (Z * inboundStateEntry) :=
  foldl (fun acc item =>
    match acc with
    | None => Some item
    | Some o => if older item.2 o.2 then Some item else acc
    end) None items.

(** Every round deletes one entry. *)
Fixpoint evictLoop (fuel : nat) (capacity : Z) (m : gmap Z inboundStateEntry) : gmap Z inboundStateEntry :=
  match fuel with
  | O => m
  | S fuel =>
      if capacity <? Z.of_nat (size m) then
        match oldest (map_to_list m) with
        | Some (id, _) => evictLoop fuel capacity (delete id m)
        | None => m
        end
      else m
  end.

Definition evictLocked (l : InboundStateLedger) : InboundStateLedger :=
  set_entries (evictLoop (S (size (l_entries l))) (l_capacity l) (l_entries l)) l.

Definition Record_ (now : Z) (message : InboundMessage) : ST InboundStateLedger ledger_error unit := fun l =>
  match InboundMessage_Validate message with
  | Err e => (Err (ErrInvalidMessage e), l)
  | Ok _ =>
      let l := (ledger_expireLocked now l).2 in
      let status := Z.lor MessageStateReceived MessageStateKnown in
      let status := if negb (im_ContentRelated message)
                    then Z.lor status MessageStateNoAcknowledgement else status in
      let order := uint64 (l_order l + 1) in
      let entry := {| is_status := status; is_expiresAt := now + l_ttl l; is_order := order |} in
      let l := {| l_capacity := l_capacity l; l_ttl := l_ttl l; l_order := order;
                  l_entries := <[im_MessageID message := entry]> (l_entries l) |} in
      (Ok tt, evictLocked l)
  end.

Definition complete_status (acknowledged responded : bool) (e : inboundStateEntry) : inboundStateEntry :=
  let s := Z.lor (is_status e) MessageStateProcessing in
  let s := if acknowledged then Z.lor s MessageStateAcknowledged else s in
  let s := if responded then Z.lor s MessageStateResponseGenerated else s in
  {| is_status := s; is_expiresAt := is_expiresAt e; is_order := is_order e |}.

Definition complete_one (acknowledged responded : bool) (m : gmap Z inboundStateEntry) (id : Z)
  : gmap Z inboundStateEntry :=
  match m !! id with
  | None => m
  | Some e => <[id := complete_status acknowledged responded e]> m
  end.

Definition Complete (now : Z) (ids : list Z) (acknowledged responded : bool) (l : InboundStateLedger)
  : InboundStateLedger :=
  let l := (ledger_expireLocked now l).2 in
  set_entries (foldl (complete_one acknowledged responded) (l_entries l) ids) l.

(** [minID, maxID, haveRange] after ranging over the keys in the order [keys]. *)
Definition id_range (keys : list Z) : option (Z * Z) :=
  foldl (fun acc id =>
    match acc with
    | None => Some (id, id)
    | Some (mn, mx) => Some (if id <? mn then id else mn, if mx <? id then id else mx)
    end) None keys.

Definition state_byte (m : gmap Z inboundStateEntry) (range : option (Z * Z)) (id : Z) : Z :=
  match m !! id with
  | Some e => is_status e
  | None =>
      match range with
      | None => MessageStateUnknownTooOld
      | Some (mn, mx) =>
          if id <? mn then MessageStateUnknownTooOld
          else if mx <? id then MessageStateUnknownTooHigh
          else MessageStateNotReceived
      end
  end.

Definition StateInfo (now : Z) (ids : list Z) (l : InboundStateLedger) : list Z * InboundStateLedger :=
  let l := (ledger_expireLocked now l).2 in
  let range := id_range (map_to_list (l_entries l)).*1 in
  (state_byte (l_entries l) range <$> ids, l).

Definition HasResponse (now id : Z) (l : InboundStateLedger) : bool * InboundStateLedger :=
  if id =? 0 then (false, l)
  else
    let l := (ledger_expireLocked now l).2 in
    (match l_entries l !! id with
     | None => false
     | Some e => negb (Z.land (is_status e) MessageStateResponseGenerated =? 0)
     end, l).

Definition ledger_Expire (now : Z) (l : InboundStateLedger) : Z * InboundStateLedger :=
  ledger_expireLocked now l.

Definition ledger_Len (now : Z) (l : InboundStateLedger) : Z * InboundStateLedger :=
  let l := (ledger_expireLocked now l).2 in (Z.of_nat (size (l_entries l)), l).

(** * Invariant *)

(** A status is one of the bits a recorded message may carry. *)
Definition status_ok (s : Z) : Prop :=
  0 <= s < 256 /\ Z.testbit s 2 = true /\ Z.testbit s 7 = true /\
  Z.testbit s 0 = false /\ Z.testbit s 1 = false.

Record ledger_ok (l : InboundStateLedger) : Prop := {
  lo_capacity : 0 < l_capacity l;
  lo_ttl : 0 < l_ttl l;
  lo_size : Z.of_nat (size (l_entries l)) <= l_capacity l;
  lo_status : forall k e, l_entries l !! k = Some e -> status_ok (is_status e)
}.

(** ** Lemmas *)

Lemma live_lookup now m k e :
  live_entries now m !! k = Some e <-> m !! k = Some e /\ now < is_expiresAt e.
Proof. unfold live_entries. by rewrite map_lookup_filter_Some. Qed.

Lemma live_size now m : (size (live_entries now m) <= size m)%nat.
Proof. apply map_subseteq_size, map_filter_subseteq. Qed.

Lemma expire_ok now l : ledger_ok l -> ledger_ok (ledger_expireLocked now l).2.
Proof.
  intros [Hc Ht Hs He]. split; simpl; try done.
  - pose proof (live_size now (l_entries l)). lia.
  - intros k e [Hk _]%live_lookup. by apply (He k).
Qed.

Lemma lor_status s b :
  status_ok s -> b ∈ [8; 16; 32; 64] -> status_ok (Z.lor s b).
Proof.
  intros (Hr & H2 & H7 & H0 & H1) Hb. unfold status_ok. rewrite !Z.lor_spec, H2, H7, H0, H1.
  assert (0 <= b < 256 /\ Z.testbit b 0 = false /\ Z.testbit b 1 = false) as (Hb' & -> & ->).
  { set_unfold in Hb. destruct Hb as [->|[->|[->|[->|[]]]]]; by vm_compute. }
  split_and!; try done; [apply Z.lor_nonneg; lia|].
  destruct (Z.eq_dec (Z.lor s b) 0) as [->|Hnz]; [lia|].
  apply (Z.log2_lt_pow2 _ 8); [pose proof (proj2 (Z.lor_nonneg s b)); lia|].
  rewrite Z.log2_lor by lia. apply Z.max_lub_lt.
  - destruct (Z.eq_dec s 0) as [->|]; [by vm_compute|]. apply Z.log2_lt_pow2; lia.
  - destruct (Z.eq_dec b 0) as [->|]; [by vm_compute|]. apply Z.log2_lt_pow2; lia.
Qed.

Lemma complete_status_ok a r e : status_ok (is_status e) -> status_ok (is_status (complete_status a r e)).
Proof.
  intros He. unfold complete_status. simpl. unfold MessageStateProcessing, MessageStateAcknowledged,
    MessageStateResponseGenerated.
  destruct a, r; repeat apply lor_status; try done; set_solver.
Qed.

(** The chosen entry is in the list and nothing in it is older. *)
Lemma oldest_spec items :
  match oldest items with
  | None => items = []
  | Some o => o ∈ items /\ forall x, x ∈ items -> older x.2 o.2 = false
  end.
Proof.
  induction items as [|x items IH] using rev_ind; [done|].
  unfold oldest in *. rewrite foldl_app. simpl.
  set (acc := foldl _ None items) in *. clearbody acc. destruct acc as [o|].
  - destruct IH as [Hin Hmin]. destruct (older x.2 o.2) eqn:E.
    + split; [apply elem_of_app; right; by apply list_elem_of_singleton|].
      intros y [Hy|Hy%list_elem_of_singleton]%elem_of_app; [specialize (Hmin y Hy)|subst y];
        unfold older in *; repeat match goal with H : _ || _ = _ |- _ => revert H end;
        rewrite ?orb_true_iff, ?orb_false_iff, ?andb_true_iff, ?andb_false_iff,
          ?Z.ltb_lt, ?Z.ltb_ge, ?Z.eqb_eq, ?Z.eqb_neq; lia.
    + split; [by apply elem_of_app; left|].
      intros y [Hy|Hy%list_elem_of_singleton]%elem_of_app; [by apply Hmin|by subst y].
  - subst items. simpl. split; [by apply list_elem_of_singleton|].
    intros y Hy%list_elem_of_singleton. subst y. unfold older.
    rewrite orb_false_iff, andb_false_iff, !Z.ltb_ge. lia.
Qed.

(** Eviction never runs out of rounds, ends within the capacity, and keeps
    everything when it fits. *)
Lemma evictLoop_spec fuel cap m :
  0 <= cap -> (size m < fuel)%nat ->
  let m' := evictLoop fuel cap m in
  Z.of_nat (size m') <= cap /\ m' ⊆ m /\ (Z.of_nat (size m) <= cap -> m' = m).
Proof.
  intros Hc. revert m. induction fuel as [|fuel IH]; intros m Hf; [lia|]. cbv zeta. cbn [evictLoop].
  destruct (Z.ltb_spec cap (Z.of_nat (size m))); [|split; [lia|done]].
  pose proof (oldest_spec (map_to_list m)) as Ho.
  destruct (oldest (map_to_list m)) as [[id e]|].
  - destruct Ho as [Hin%elem_of_map_to_list _].
    destruct (IH (delete id m)) as (H1 & H2 & _).
    { rewrite map_size_delete, Hin. simpl. assert (size m <> 0%nat); [|lia].
      intros ->%map_size_empty_inv. by rewrite lookup_empty in Hin. }
    split; [done|]. split; [etransitivity; [exact H2|apply delete_subseteq]|lia].
  - apply map_to_list_empty_iff in Ho. subst m. rewrite map_size_empty in *. lia.
Qed.

(** One message over capacity: exactly the oldest one goes. *)
Lemma evictLoop_one fuel cap m id e :
  0 <= cap -> Z.of_nat (size m) = cap + 1 -> (1 < fuel)%nat -> oldest (map_to_list m) = Some (id, e) ->
  evictLoop fuel cap m = delete id m.
Proof.
  intros Hc Hs Hf Ho. destruct fuel as [|[|fuel]]; [lia..|]. cbn [evictLoop].
  rewrite (proj2 (Z.ltb_lt _ _)), Ho by lia.
  pose proof (oldest_spec (map_to_list m)) as Hsp. rewrite Ho in Hsp.
  destruct Hsp as [Hin%elem_of_map_to_list _].
  rewrite (proj2 (Z.ltb_ge _ _)); [done|]. rewrite map_size_delete, Hin. simpl. lia.
Qed.

Arguments evictLoop : simpl never.

Lemma Record_ok now m l : ledger_ok l -> ledger_ok (Record_ now m l).2.
Proof.
  intros Hok. unfold Record_. destruct (InboundMessage_Validate m); [|done].
  destruct (expire_ok now l Hok) as [Hc Ht Hs He].
  set (l1 := (ledger_expireLocked now l).2) in *. cbv zeta. unfold evictLocked. simpl.
  set (e := {| is_status := _ |}).
  destruct (evictLoop_spec (S (size (<[im_MessageID m:=e]> (l_entries l1)))) (l_capacity l1)
              (<[im_MessageID m:=e]> (l_entries l1))) as (H1 & H2 & _); [lia..|].
  split; simpl; try done. intros k x Hk. eapply lookup_weaken in Hk; [|exact H2].
  apply lookup_insert_Some in Hk as [[_ <-]|[_ Hk]]; [|by apply (He k)].
  unfold e. simpl. by destruct (im_ContentRelated m).
Qed.

Lemma complete_lookup a r ids m k :
  foldl (complete_one a r) m ids !! k =
  match m !! k with
  | None => None
  | Some e => Some (if bool_decide (k ∈ ids) then complete_status a r e else e)
  end.
Proof.
  assert (Hidem : forall e, complete_status a r (complete_status a r e) = complete_status a r e).
  { intros e. unfold complete_status. simpl. f_equal. apply Z.bits_inj'. intros i Hi.
    destruct a, r; rewrite ?Z.lor_spec; repeat (destruct (Z.testbit _ i); try done). }
  revert m. induction ids as [|id ids IH]; intros m; simpl; [by destruct (m !! k)|].
  rewrite IH. clear IH. unfold complete_one. destruct (m !! id) as [x|] eqn:Ex.
  - destruct (decide (k = id)) as [->|Hne].
    + rewrite lookup_insert_eq, Ex. rewrite (bool_decide_eq_true_2 (id ∈ id :: ids)) by by left.
      case_bool_decide; by rewrite ?Hidem.
    + rewrite lookup_insert_ne by done. destruct (m !! k); [|done].
      by rewrite (bool_decide_ext (k ∈ id :: ids) (k ∈ ids)) by set_solver.
  - destruct (decide (k = id)) as [->|Hne]; [by rewrite Ex|]. destruct (m !! k); [|done].
    by rewrite (bool_decide_ext (k ∈ id :: ids) (k ∈ ids)) by set_solver.
Qed.

Lemma Complete_ok now ids a r l : ledger_ok l -> ledger_ok (Complete now ids a r l).
Proof.
  intros Hok. unfold Complete. destruct (expire_ok now l Hok) as [Hc Ht Hs He].
  set (l1 := (ledger_expireLocked now l).2) in *. split; simpl; try done.
  - replace (size (foldl (complete_one a r) (l_entries l1) ids)) with (size (l_entries l1)); [done|].
    rewrite <- !size_dom. f_equal. apply set_eq. intros k. rewrite !elem_of_dom, complete_lookup.
    destruct (l_entries l1 !! k); split; intros [? ?]; eauto.
  - intros k e Hk. rewrite complete_lookup in Hk. destruct (l_entries l1 !! k) as [x|] eqn:Ex.
    2:{ simpl in *. rewrite Ex in Hk. discriminate Hk. }
    simpl in *. rewrite Ex in Hk. injection Hk as <-. specialize (He k x Ex). case_bool_decide; [by apply complete_status_ok|done].
Qed.

Lemma id_range_spec keys :
  match id_range keys with
  | None => keys = []
  | Some (mn, mx) => mn ∈ keys /\ mx ∈ keys /\ forall k, k ∈ keys -> mn <= k <= mx
  end.
Proof.
  induction keys as [|x keys IH] using rev_ind; [done|].
  unfold id_range in *. rewrite foldl_app. simpl.
  set (acc := foldl _ None keys) in *. clearbody acc. destruct acc as [[mn mx]|].
  - destruct IH as (H1 & H2 & H3). pose proof (H3 _ H1). pose proof (H3 _ H2).
    assert (Hx : x ∈ keys ++ [x]) by (apply elem_of_app; right; by apply list_elem_of_singleton).
    assert (Hl : forall y, y ∈ keys -> y ∈ keys ++ [x]) by (intros; by apply elem_of_app; left).
    split; [by destruct (x <? mn); auto|]. split; [by destruct (mx <? x); auto|].
    intros k [Hk|Hk%list_elem_of_singleton]%elem_of_app; [specialize (H3 k Hk)|subst k];
      destruct (Z.ltb_spec x mn), (Z.ltb_spec mx x); lia.
  - subst keys. simpl. split_and!; try by apply list_elem_of_singleton.
    intros k ->%list_elem_of_singleton. lia.
Qed.

(** The meaning of one answered byte. *)
Definition state_meaning (m : gmap Z inboundStateEntry) (id b : Z) : Prop :=
  match m !! id with
  | Some e => b = is_status e
  | None =>
      (b = MessageStateUnknownTooOld /\ forall k, is_Some (m !! k) -> id < k) \/
      (b = MessageStateUnknownTooHigh /\ m <> ∅ /\ forall k, is_Some (m !! k) -> k < id) \/
      (b = MessageStateNotReceived /\ exists lo hi, is_Some (m !! lo) /\ is_Some (m !! hi) /\ lo < id < hi)
  end.

Lemma state_byte_meaning m keys id :
  keys ≡ₚ (map_to_list m).*1 -> state_meaning m id (state_byte m (id_range keys) id).
Proof.
  intros Hp. unfold state_meaning, state_byte. destruct (m !! id) eqn:Em; [done|].
  assert (Hin : forall k, k ∈ keys <-> is_Some (m !! k)).
  { intros k. rewrite Hp, list_elem_of_fmap. split.
    - intros ([k' e] & -> & Hk%elem_of_map_to_list). simpl. eauto.
    - intros [e He%elem_of_map_to_list]. by exists (k, e). }
  pose proof (id_range_spec keys) as Hr. destruct (id_range keys) as [[mn mx]|].
  - destruct Hr as (H1 & H2 & H3). assert (Hne : forall k, is_Some (m !! k) -> k <> id)
      by (intros k [? ?] ->; congruence).
    destruct (Z.ltb_spec id mn); [|destruct (Z.ltb_spec mx id)].
    + left. split; [done|]. intros k Hk%Hin%H3. lia.
    + right. left. split; [done|]. split.
      * intros ->. apply Hin in H1 as [? ?]. by rewrite lookup_empty in *.
      * intros k Hk. specialize (Hne k Hk). apply Hin, H3 in Hk. lia.
    + right. right. split; [done|]. exists mn, mx. pose proof (Hne mn (proj1 (Hin mn) H1)).
      pose proof (Hne mx (proj1 (Hin mx) H2)). split; [by apply (Hin mn)|].
      split; [by apply (Hin mx)|lia].
  - left. split; [done|]. intros k Hk%Hin. subst keys. by apply elem_of_nil in Hk.
Qed.

(** * Properties *)

Definition sample_ledger : InboundStateLedger :=
  {| l_capacity := 2; l_ttl := 10; l_order := 2;
     l_entries := <[4 := {| is_status := 132; is_expiresAt := 30; is_order := 1 |}]>
                  (<[8 := {| is_status := 148; is_expiresAt := 40; is_order := 2 |}]> ∅) |}.

Definition sample_inbound (id : Z) : InboundMessage :=
  {| im_MessageID := id; im_SequenceNo := 1; im_ConstructorID := 1; im_Body := le_put 4 1;
     im_Dependencies := []; im_DecodeBudget := None; im_ContentRelated := true;
     im_SuppressPush := false; im_Retransmission := false |}.

Lemma sample_ledger_ok : ledger_ok sample_ledger.
Proof.
  split; simpl; try lia.
  - by vm_compute.
  - intros k e [[_ <-]|[_ [[_ <-]|[_ Hk]]%lookup_insert_Some]]%lookup_insert_Some; [by vm_compute..|].
    by rewrite lookup_empty in Hk.
Qed.

(** Recording an inbound message keeps the ledger within its capacity with
    well-formed status bytes. A message the contracts refuse changes nothing;
    an accepted one enters with a fresh life, on top of what is still alive,
    and only when that exceeds the capacity is an entry evicted: one that no
    other entry expires before, ties by recording order. *)
Lemma Record_spec now m l :
  ledger_ok l ->
  let '(res, l') := Record_ now m l in
  ledger_ok l' /\
  match InboundMessage_Validate m with
  | Err e => res = Err (ErrInvalidMessage e) /\ l' = l
  | Ok _ =>
      exists e, is_expiresAt e = now + l_ttl l /\
        is_status e = (if im_ContentRelated m then 132 else 148) /\
        let full := <[im_MessageID m := e]> (live_entries now (l_entries l)) in
        res = Ok tt /\
        (if Z.of_nat (size full) <=? l_capacity l then l_entries l' = full
         else exists k o, full !! k = Some o /\ l_entries l' = delete k full /\
                forall k' e', full !! k' = Some e' -> older e' o = false)
  end.
Proof.
  intros Hok. pose proof (Record_ok now m l Hok) as Hok'. unfold Record_ in *.
  destruct (InboundMessage_Validate m) as [[]|e]; [|done].
  split; [done|]. simpl. set (e := {| is_status := _ |}). exists e. split; [done|].
  split; [unfold e; by destruct (im_ContentRelated m)|].
  set (full := <[im_MessageID m := e]> (live_entries now (l_entries l))). split; [done|].
  destruct Hok as [Hc Ht Hs He].
  assert (Hbound : Z.of_nat (size full) <= l_capacity l + 1).
  { unfold full. rewrite map_size_insert. pose proof (live_size now (l_entries l)).
    destruct (live_entries now (l_entries l) !! im_MessageID m); simpl; lia. }
  destruct (Z.leb_spec (Z.of_nat (size full)) (l_capacity l)).
  - destruct (evictLoop_spec (S (size full)) (l_capacity l) full) as (_ & _ & H3); [lia..|]. by apply H3.
  - pose proof (oldest_spec (map_to_list full)) as Ho.
    destruct (oldest (map_to_list full)) as [[k o]|] eqn:Eo.
    + destruct Ho as [Hin Hmin]. exists k, o. split; [by apply elem_of_map_to_list|]. split.
      * apply (evictLoop_one _ _ _ k o); [lia|lia| |done]. lia.
      * intros k' e' Hk'. apply (Hmin (k', e')). by apply elem_of_map_to_list.
    + apply map_to_list_empty_iff in Ho. rewrite Ho, map_size_empty in *. lia.
Qed.

Lemma Record_spec_witness :
  (Record_ 15 (sample_inbound 6) sample_ledger).1 = Ok tt /\
  ledger_ok (Record_ 15 (sample_inbound 6) sample_ledger).2 /\
  l_entries (Record_ 15 (sample_inbound 6) sample_ledger).2 !! 6 = None.
Proof.
  split; [vm_compute; reflexivity|]. split; [|vm_compute; reflexivity].
  pose proof (Record_spec 15 (sample_inbound 6) sample_ledger sample_ledger_ok) as H.
  destruct (Record_ 15 (sample_inbound 6) sample_ledger) as [res l']. exact (proj1 H).
Defined.

(** [StateInfo] answers one byte per requested id, in order: the recorded
    status of a live entry, else too old, too high or not received by the
    id's place among the live entries, whatever order the map is visited in;
    [Complete] sets its bits on exactly the live ids named, [HasResponse]
    reports the response bit, and both keep the ledger well formed. *)
Lemma StateInfo_spec now ids l keys :
  ledger_ok l -> keys ≡ₚ (map_to_list (live_entries now (l_entries l))).*1 ->
  let live := live_entries now (l_entries l) in
  Forall2 (state_meaning live) ids (state_byte live (id_range keys) <$> ids) /\
  Forall2 (state_meaning live) ids (StateInfo now ids l).1 /\
  ledger_ok (StateInfo now ids l).2 /\
  (forall a r, ledger_ok (Complete now ids a r l) /\
     forall k, l_entries (Complete now ids a r l) !! k =
       (fun e => if bool_decide (k ∈ ids) then complete_status a r e else e) <$> live !! k) /\
  (forall id, id <> 0 -> (HasResponse now id l).1 =
     match live !! id with Some e => Z.testbit (is_status e) 6 | None => false end).
Proof.
  intros Hok Hp live.
  assert (Hmean : forall ks, ks ≡ₚ (map_to_list live).*1 ->
            Forall2 (state_meaning live) ids (state_byte live (id_range ks) <$> ids)).
  { intros ks Hks. apply Forall2_fmap_r. apply Forall_Forall2_diag, Forall_true. intros id.
    by apply state_byte_meaning. }
  split; [by apply Hmean|]. split; [by apply Hmean|]. split; [by apply expire_ok|]. split.
  - intros a r. split; [by apply Complete_ok|]. intros k. simpl. rewrite complete_lookup.
    fold live. by destruct (live !! k).
  - intros id Hid. unfold HasResponse. rewrite (proj2 (Z.eqb_neq _ _)) by done.
    change (l_entries (ledger_expireLocked now l).2) with live. cbn [fst].
    destruct (live !! id) as [e|]; [|done]. unfold MessageStateResponseGenerated.
    change 64 with (2 ^ 6). rewrite Z.land_comm.
    destruct (Z.testbit (is_status e) 6) eqn:Et.
    + apply negb_true_iff, Z.eqb_neq. intros H0.
      assert (Z.testbit (Z.land (2 ^ 6) (is_status e)) 6 = true) as Hb
        by (rewrite Z.land_spec, Et; by vm_compute).
      by rewrite H0 in Hb.
    + apply negb_false_iff, Z.eqb_eq. apply Z.bits_inj'. intros i Hi.
      rewrite Z.land_spec, Z.pow2_bits_eqb, Z.bits_0 by lia.
      destruct (Z.eqb_spec 6 i) as [<-|]; [by rewrite Et|done].
Qed.

Lemma StateInfo_spec_witness :
  (StateInfo 15 [2; 4; 6; 9] sample_ledger).1 = [1; 132; 2; 3] /\
  ledger_ok (StateInfo 15 [2; 4; 6; 9] sample_ledger).2.
Proof.
  split; [vm_compute; reflexivity|].
  exact (proj1 (proj2 (proj2 (StateInfo_spec 15 [2; 4; 6; 9] sample_ledger _ sample_ledger_ok
    (reflexivity (map_to_list (live_entries 15 (l_entries sample_ledger))).*1))))).
Defined.
