(* ===== verification/ActiveRequests.v ===== *)
(** The registry of running inbound requests (internal/runtime/active_requests.go).
    Registrations are Go objects: each has an identity (its number in
    [requests]), an [ended] flag and the completion closure's [sync.Once].
    Contexts are modelled by the cancellations the calls perform, in order. *)

From stdpp Require Import base numbers list gmap strings.
From S2P Require Import Prelude Contracts.
Open Scope Z_scope.

Inductive active_error :=
| InvalidActiveRequestCapacityError (Capacity : Z)
| InvalidActiveRequestIDError (ID : Z)
| DuplicateActiveRequestError (ID : Z)
| ActiveRequestCapacityError (Capacity : Z).

Inductive DropStatus := DropStatusUnknown | DropStatusDroppedRunning.

Record activeRequest := {
  ar_id : Z;
  ar_ended : bool;
  ar_once : bool
}.

Record ActiveRequestRegistry := {
  r_capacity : Z;
  r_active : gmap Z nat;
  r_completed : gmap Z bool;
  r_completedOrder : list Z;
  r_changed : Z;
  r_requests : list activeRequest
}.

(** A cancelled registration and the cause given to its context. *)
Definition cancellation : Type := nat * string.
Definition Canceled : string := "context canceled".

Definition NewActiveRequestRegistry (capacity : Z) : result active_error ActiveRequestRegistry :=
  if capacity <=? 0 then Err (InvalidActiveRequestCapacityError capacity)
  else Ok {| r_capacity := capacity; r_active := ∅; r_completed := ∅; r_completedOrder := [];
             r_changed := 0; r_requests := [] |}.

(** Closing [changed] and making a new channel: the generation moves on. *)
Definition notifyLocked (r : ActiveRequestRegistry) : ActiveRequestRegistry :=
  {| r_capacity := r_capacity r; r_active := r_active r; r_completed := r_completed r;
     r_completedOrder := r_completedOrder r; r_changed := r_changed r + 1; r_requests := r_requests r |}.

(** The removal loop over [completedOrder]: the first occurrence only. *)
Fixpoint remove_first (id : Z) (l : list Z) : list Z :=
  match l with
  | [] => []
  | x :: l' => if x =? id then l' else x :: remove_first id l'
  end.

Definition record_completion (id : Z) (success : bool) (r : ActiveRequestRegistry) : ActiveRequestRegistry :=
  let order := match r_completed r !! id with
               | Some _ => remove_first id (r_completedOrder r)
               | None => r_completedOrder r
               end in
  let completed := <[id := success]> (r_completed r) in
  let order := order ++ [id] in
  let '(order, completed) :=
    if r_capacity r <? len order
    then (drop 1 order, match head order with Some oldest => delete oldest completed | None => completed end)
    else (order, completed) in
  {| r_capacity := r_capacity r; r_active := r_active r; r_completed := completed;
     r_completedOrder := order; r_changed := r_changed r; r_requests := r_requests r |}.

Definition mark_ended (p : nat) (r : ActiveRequestRegistry) : ActiveRequestRegistry :=
  {| r_capacity := r_capacity r; r_active := r_active r; r_completed := r_completed r;
     r_completedOrder := r_completedOrder r; r_changed := r_changed r;
     r_requests := alter (fun q => {| ar_id := ar_id q; ar_ended := true; ar_once := ar_once q |}) p (r_requests r) |}.

Definition set_active (m : gmap Z nat) (r : ActiveRequestRegistry) : ActiveRequestRegistry :=
  {| r_capacity := r_capacity r; r_active := m; r_completed := r_completed r;
     r_completedOrder := r_completedOrder r; r_changed := r_changed r; r_requests := r_requests r |}.

Definition finishLocked (id : Z) (p : nat) (success : bool) (r : ActiveRequestRegistry) : ActiveRequestRegistry :=
  match r_requests r !! p with
  | None => r
  | Some q =>
      if ar_ended q then r
      else
        let r := mark_ended p r in
        let r := if bool_decide (r_active r !! id = Some p)
                 then set_active (delete id (r_active r)) r else r in
        notifyLocked (record_completion id success r)
  end.

(** The first loop of [beginBatch]. *)
Fixpoint checkBatch (seen : gset Z) (ids : list Z) : result active_error unit :=
  match ids with
  | [] => Ok tt
  | id :: ids' =>
      if id =? 0 then Err (InvalidActiveRequestIDError id)
      else if bool_decide (id ∈ seen) then Err (DuplicateActiveRequestError id)
      else checkBatch ({[id]} ∪ seen) ids'
  end.

Fixpoint checkActive (active : gmap Z nat) (ids : list Z) : result active_error unit :=
  match ids with
  | [] => Ok tt
  | id :: ids' =>
      match active !! id with
      | Some _ => Err (DuplicateActiveRequestError id)
      | None => checkActive active ids'
      end
  end.

(** The registering loop; it returns the new registrations. *)
Fixpoint registerAll (ids : list Z) (r : ActiveRequestRegistry) : list nat * ActiveRequestRegistry :=
  match ids with
  | [] => ([], r)
  | id :: ids' =>
      let p := length (r_requests r) in
      let r := {| r_capacity := r_capacity r; r_active := <[id := p]> (r_active r);
                  r_completed := r_completed r; r_completedOrder := r_completedOrder r;
                  r_changed := r_changed r;
                  r_requests := r_requests r ++ [{| ar_id := id; ar_ended := false; ar_once := false |}] |} in
      let '(ps, r) := registerAll ids' r in (p :: ps, r)
  end.

Definition beginBatch (ids : list Z) : ST ActiveRequestRegistry active_error (list nat) := fun r =>
  match checkBatch ∅ ids with
  | Err e => (Err e, r)
  | Ok _ =>
      if r_capacity r <? Z.of_nat (size (r_active r)) + len ids
      then (Err (ActiveRequestCapacityError (r_capacity r)), r)
      else
        match checkActive (r_active r) ids with
        | Err e => (Err e, r)
        | Ok _ => let '(ps, r) := registerAll ids r in (Ok ps, notifyLocked r)
        end
  end.

Definition Begin (id : Z) : ST ActiveRequestRegistry active_error (list nat) := beginBatch [id].

(** The closure returned for registration [p]. *)
Definition complete (p : nat) (success : bool) (r : ActiveRequestRegistry)
  : list cancellation * ActiveRequestRegistry :=
  match r_requests r !! p with
  | None => ([], r)
  | Some q =>
      if ar_once q then ([], r)
      else
        let r := {| r_capacity := r_capacity r; r_active := r_active r; r_completed := r_completed r;
                    r_completedOrder := r_completedOrder r; r_changed := r_changed r;
                    r_requests := alter (fun q => {| ar_id := ar_id q; ar_ended := ar_ended q; ar_once := true |})
                                    p (r_requests r) |} in
        ([(p, Canceled)], finishLocked (ar_id q) p success r)
  end.

(** One poll of the waiting loop, under the lock. *)
Inductive wait_poll := DepsFailed | DepsComplete | DepsWait.

Fixpoint pollLoop (completed : gmap Z bool) (ids : list Z) (allComplete : bool) : wait_poll :=
  match ids with
  | [] => if allComplete then DepsComplete else DepsWait
  | id :: ids' =>
      match completed !! id with
      | Some true => pollLoop completed ids' allComplete
      | Some false => DepsFailed
      | None => pollLoop completed ids' false
      end
  end.

Definition WaitDependencies_poll (ids : list Z) (r : ActiveRequestRegistry) : wait_poll :=
  pollLoop (r_completed r) ids true.

Definition Drop (id : Z) (r : ActiveRequestRegistry) : DropStatus * list cancellation * ActiveRequestRegistry :=
  match r_active r !! id with
  | None => (DropStatusUnknown, [], r)
  | Some p => (DropStatusDroppedRunning, [(p, Canceled)], finishLocked id p false r)
  end.

Definition IsActive (id : Z) (r : ActiveRequestRegistry) : bool :=
  if id =? 0 then false else bool_decide (is_Some (r_active r !! id)).

(** [items] is the map in the order the range visits it. *)
Definition cancelEach (items : list (Z * nat)) (r : ActiveRequestRegistry) : ActiveRequestRegistry :=
  foldl (fun r item => finishLocked item.1 item.2 false r) r items.

Definition CancelAll (why : cause) (r : ActiveRequestRegistry) : list cancellation * ActiveRequestRegistry :=
  let why := default Canceled why in
  let items := map_to_list (r_active r) in
  ((fun item => (item.2, why)) <$> items, cancelEach items r).

(** * Invariant *)

Record reg_ok (r : ActiveRequestRegistry) : Prop := {
  ro_capacity : 0 < r_capacity r;
  ro_size : Z.of_nat (size (r_active r)) <= r_capacity r;
  ro_active : forall id p, r_active r !! id = Some p ->
    id <> 0 /\ exists q, r_requests r !! p = Some q /\ ar_id q = id /\ ar_ended q = false;
  ro_running : forall p q, r_requests r !! p = Some q -> ar_ended q = false ->
    r_active r !! ar_id q = Some p;
  ro_order : NoDup (r_completedOrder r);
  ro_completed : forall id, id ∈ r_completedOrder r <-> is_Some (r_completed r !! id);
  ro_history : len (r_completedOrder r) <= r_capacity r
}.

(** ** Completion history *)

Lemma remove_first_spec id l :
  NoDup l -> id ∈ l -> l ≡ₚ id :: remove_first id l.
Proof.
  induction l as [|x l IH]; intros Hnd Hin; [by apply elem_of_nil in Hin|]. simpl.
  apply NoDup_cons in Hnd as [Hx Hnd]. destruct (Z.eqb_spec x id) as [->|Hne]; [done|].
  apply elem_of_cons in Hin as [->|Hin]; [done|]. rewrite (IH Hnd Hin) at 1. apply Permutation_swap.
Qed.

Definition history_ok (cap : Z) (order : list Z) (completed : gmap Z bool) : Prop :=
  NoDup order /\ (forall id, id ∈ order <-> is_Some (completed !! id)) /\ len order <= cap.

Lemma record_completion_history id success r :
  0 < r_capacity r -> history_ok (r_capacity r) (r_completedOrder r) (r_completed r) ->
  let r' := record_completion id success r in
  history_ok (r_capacity r) (r_completedOrder r') (r_completed r') /\
  r_completed r' !! id = Some success.
Proof.
  intros Hc (Hnd & Hdom & Hlen). unfold record_completion.
  set (order := match r_completed r !! id with Some _ => _ | None => _ end).
  assert (Ho : NoDup order /\ (id ∉ order) /\
    (forall k, k <> id -> (k ∈ order <-> k ∈ r_completedOrder r)) /\
    len order <= r_capacity r).
  { unfold order. destruct (r_completed r !! id) eqn:E.
    - assert (Hin : id ∈ r_completedOrder r) by (apply Hdom; eauto).
      pose proof (remove_first_spec id _ Hnd Hin) as Hp.
      set (rest := remove_first id (r_completedOrder r)) in *. clearbody rest. rewrite Hp in Hnd.
      apply NoDup_cons in Hnd as [Hni Hnd]. split_and!; try done.
      + intros k Hk. rewrite Hp, elem_of_cons. naive_solver.
      + apply Permutation_length in Hp. unfold len in *. simpl in Hp. lia.
    - split_and!; try done. intros Hin%Hdom. rewrite E in Hin. by destruct Hin. }
  clearbody order. destruct Ho as (Hnd' & Hni & Hsame & Hlen').
  assert (Hnd2 : NoDup (order ++ [id])).
  { apply NoDup_app. split_and!; [done| |apply NoDup_singleton]. intros x Hx ->%list_elem_of_singleton. done. }
  assert (Hdom2 : forall k, k ∈ order ++ [id] <-> is_Some (<[id := success]> (r_completed r) !! k)).
  { intros k. rewrite elem_of_app, list_elem_of_singleton. destruct (decide (k = id)) as [->|Hne].
    - rewrite lookup_insert_eq. naive_solver.
    - rewrite lookup_insert_ne by done. rewrite Hsame, <- Hdom by done. naive_solver. }
  assert (Hl2 : len (order ++ [id]) = len order + 1) by (rewrite len_app; done).
  destruct (Z.ltb_spec (r_capacity r) (len (order ++ [id]))); simpl.
  2:{ split; [by split_and!|apply lookup_insert_eq]. }
  destruct order as [|x order]; [rewrite Hl2, len_nil in *; lia|]. simpl in *.
  apply NoDup_cons in Hnd2 as [Hx Hnd2].
  assert (x <> id) by (intros ->; by apply Hni; left). rewrite drop_0. split.
  - split_and!; [done| |rewrite !len_cons in *; lia].
    intros k. destruct (decide (k = x)) as [->|Hne].
    + rewrite lookup_delete_eq. split; [done|by intros [? ?]].
    + rewrite lookup_delete_ne by done. rewrite <- Hdom2, elem_of_cons. naive_solver.
  - by rewrite lookup_delete_ne, lookup_insert_eq by done.
Qed.

(** ** Ending a registration *)

Lemma reg_ok_history r : reg_ok r -> history_ok (r_capacity r) (r_completedOrder r) (r_completed r).
Proof. intros []. by split_and!. Qed.

Lemma record_completion_rest id success r :
  let r' := record_completion id success r in
  r_capacity r' = r_capacity r /\ r_active r' = r_active r /\ r_requests r' = r_requests r /\
  r_changed r' = r_changed r.
Proof. unfold record_completion. by destruct (_ <? _). Qed.

Definition end_request (q : activeRequest) : activeRequest :=
  {| ar_id := ar_id q; ar_ended := true; ar_once := ar_once q |}.

(** The effect of ending a running registration. *)
Lemma finishLocked_running id p q success r :
  reg_ok r -> r_requests r !! p = Some q -> ar_id q = id -> ar_ended q = false ->
  let r' := finishLocked id p success r in
  reg_ok r' /\ r_active r' = delete id (r_active r) /\ r_completed r' !! id = Some success /\
  r_requests r' = alter end_request p (r_requests r) /\ r_changed r' = r_changed r + 1 /\
  r_capacity r' = r_capacity r.
Proof.
  intros Hok Hq Hid Hend. unfold finishLocked. rewrite Hq, Hend.
  pose proof Hok as [Hc Hs Ha Hr _ _ _]. pose proof (Hr p q Hq Hend) as Hp. rewrite Hid in Hp.
  assert (Hact : r_active (mark_ended p r) !! id = Some p) by done.
  rewrite bool_decide_eq_true_2 by done.
  set (r1 := set_active (delete id (r_active (mark_ended p r))) (mark_ended p r)).
  pose proof (record_completion_history id success r1 Hc (reg_ok_history r Hok)) as [Hh Hcomp].
  pose proof (record_completion_rest id success r1) as (E1 & E2 & E3 & E4).
  cbv zeta in *. set (r2 := record_completion id success r1) in *. clearbody r2.
  split; [|split; [exact E2|]; split; [exact Hcomp|]; split; [exact E3|]; split; [simpl; by rewrite E4|exact E1]].
  destruct Hh as (H1 & H2 & H3). split; simpl; rewrite ?E1, ?E2, ?E3; try done.
  - simpl. rewrite map_size_delete. destruct (r_active r !! id); simpl; lia.
  - simpl. intros id' p' [Hne Hp']%lookup_delete_Some. destruct (Ha _ _ Hp') as (H0 & q' & Hq' & Hid' & He').
    split; [done|]. exists q'. split; [|done].
    rewrite list_lookup_alter_ne; [done|]. intros <-. congruence.
  - simpl. intros p' q' Hq' He'. destruct (decide (p' = p)) as [->|Hne].
    + rewrite list_lookup_alter_eq, Hq in Hq'. injection Hq' as <-. done.
    + rewrite list_lookup_alter_ne in Hq' by done. pose proof (Hr p' q' Hq' He') as Hp'.
      rewrite lookup_delete_ne; [done|]. intros Heq. rewrite <- Heq, Hp in Hp'. congruence.
Qed.

Lemma finishLocked_ended id p q success r :
  r_requests r !! p = Some q -> ar_ended q = true -> finishLocked id p success r = r.
Proof. intros Hq He. unfold finishLocked. by rewrite Hq, He. Qed.

(** ** Registering *)

Lemma checkBatch_ok seen ids :
  checkBatch seen ids = Ok tt <-> NoDup ids /\ (0 ∉ ids) /\ (forall x, x ∈ ids -> x ∉ seen).
Proof.
  revert seen. induction ids as [|id ids IH]; intros seen; simpl.
  { split; [|done]. intros _. split_and!; [apply NoDup_nil_2|apply not_elem_of_nil|].
    intros x Hx. by apply elem_of_nil in Hx. }
  rewrite NoDup_cons, not_elem_of_cons. setoid_rewrite elem_of_cons.
  destruct (Z.eqb_spec id 0) as [->|Hid]; [naive_solver|].
  case_bool_decide as Hs; [naive_solver|]. rewrite IH.
  setoid_rewrite elem_of_union. setoid_rewrite elem_of_singleton. split.
  - intros (Hnd & H0 & Hd). split_and!; try done; naive_solver.
  - intros ((Hni & Hnd) & [_ H0] & Hd). split_and!; try done. naive_solver.
Qed.

Lemma checkActive_ok m ids :
  checkActive m ids = Ok tt <-> forall id, id ∈ ids -> m !! id = None.
Proof.
  induction ids as [|x ids IH]; simpl.
  { split; [|done]. intros _ id Hid. by apply elem_of_nil in Hid. }
  setoid_rewrite elem_of_cons. destruct (m !! x) eqn:E; [|rewrite IH]; naive_solver.
Qed.

(** The registering loop adds fresh registrations one after the other. *)
Lemma registerAll_spec ids r :
  reg_ok r -> NoDup ids -> 0 ∉ ids -> (forall id, id ∈ ids -> r_active r !! id = None) ->
  Z.of_nat (size (r_active r)) + len ids <= r_capacity r ->
  let '(ps, r') := registerAll ids r in
  reg_ok r' /\ ps = seq (length (r_requests r)) (length ids) /\
  r_requests r' = r_requests r ++ ((fun id => {| ar_id := id; ar_ended := false; ar_once := false |}) <$> ids) /\
  r_completed r' = r_completed r /\ r_capacity r' = r_capacity r /\ r_changed r' = r_changed r /\
  (forall i id, ids !! i = Some id -> r_active r' !! id = Some (length (r_requests r) + i)%nat) /\
  (forall id, id ∉ ids -> r_active r' !! id = r_active r !! id).
Proof.
  revert r. induction ids as [|id ids IH]; intros r Hok Hnd H0 Hnew Hcap; simpl.
  { rewrite app_nil_r. by split_and!. }
  apply NoDup_cons in Hnd as [Hni Hnd]. apply not_elem_of_cons in H0 as [Hid H0].
  assert (Hn : r_active r !! id = None) by (apply Hnew; left).
  set (r1 := {| r_capacity := r_capacity r |}). rewrite len_cons in Hcap.
  assert (Hok1 : reg_ok r1).
  { destruct Hok as [Hc Hs Ha Hr Ho Hd Hh]. pose proof (len_nonneg ids). split; simpl; try done.
    - rewrite map_size_insert_None by done. lia.
    - intros k p [[<- <-]|[Hne Hp]]%lookup_insert_Some.
      + split; [done|]. eexists. split; [by rewrite lookup_app_r, Nat.sub_diag by lia|done].
      + destruct (Ha k p Hp) as (? & q & Hq & ?). split; [done|]. exists q. split; [|done].
        rewrite lookup_app_l; [done|]. by eapply lookup_lt_Some.
    - intros p q [Hq|[Hp Hq]]%lookup_app_Some He.
      + pose proof (Hr p q Hq He) as Hp. rewrite lookup_insert_ne; [done|]. congruence.
      + apply list_lookup_singleton_Some in Hq as [Hp0 <-]. simpl. rewrite lookup_insert_eq.
        f_equal. lia. }
  specialize (IH r1 Hok1 Hnd H0). destruct (registerAll ids r1) as [ps r'].
  destruct IH as (A & -> & C & D & E & F & G & I).
  { intros k Hk. simpl. rewrite lookup_insert_ne by (intros <-; done). apply Hnew. by right. }
  { simpl. rewrite map_size_insert_None by done. lia. }
  split; [done|]. simpl in *. rewrite length_app in *. simpl in *. rewrite Nat.add_1_r in *.
  split; [done|]. split; [by rewrite C, <- app_assoc|]. split_and!; try done.
  - intros [|i] k Hk; simpl in Hk.
    + simplify_eq. rewrite I by done. rewrite lookup_insert_eq. f_equal. lia.
    + rewrite (G i k Hk). f_equal. lia.
  - intros k [Hne Hk]%not_elem_of_cons. rewrite I by done. by rewrite lookup_insert_ne.
Qed.

Lemma notify_ok r : reg_ok r -> reg_ok (notifyLocked r).
Proof. by intros []. Qed.

Lemma beginBatch_spec ids r :
  reg_ok r ->
  match beginBatch ids r with
  | (Err _, r') => r' = r
  | (Ok ps, r') =>
      reg_ok r' /\ NoDup ids /\ (0 ∉ ids) /\ length ps = length ids /\
      (forall id, id ∈ ids -> r_active r !! id = None) /\
      (forall i id p, ids !! i = Some id -> ps !! i = Some p -> r_active r' !! id = Some p) /\
      (forall id, id ∉ ids -> r_active r' !! id = r_active r !! id) /\
      (forall p, p ∈ ps -> r_requests r !! p = None) /\
      r_completed r' = r_completed r
  end.
Proof.
  intros Hok. unfold beginBatch. destruct (checkBatch ∅ ids) as [[]|] eqn:E1; [|done].
  destruct (Z.ltb_spec (r_capacity r) (Z.of_nat (size (r_active r)) + len ids)); [done|].
  destruct (checkActive (r_active r) ids) as [[]|] eqn:E2; [|done].
  apply checkBatch_ok in E1 as (Hnd & H0 & _). pose proof (proj1 (checkActive_ok _ _) E2) as Hnew.
  pose proof (registerAll_spec ids r Hok Hnd H0 Hnew ltac:(lia)) as Hr.
  destruct (registerAll ids r) as [ps r']. destruct Hr as (A & -> & C & D & E & F & G & I).
  split; [by apply notify_ok|]. rewrite length_seq. split_and!; try done.
  - intros i id p Hi Hp. simpl. rewrite (G i id Hi). apply lookup_seq in Hp as [<- _]. done.
  - intros p Hp%elem_of_seq. apply lookup_ge_None_2. lia.
Qed.

(** ** Completing, dropping, cancelling *)

(** Only the once flag of a registration changes. *)
Lemma once_ok p r :
  reg_ok r ->
  reg_ok {| r_capacity := r_capacity r; r_active := r_active r; r_completed := r_completed r;
            r_completedOrder := r_completedOrder r; r_changed := r_changed r;
            r_requests := alter (fun q => {| ar_id := ar_id q; ar_ended := ar_ended q; ar_once := true |})
                            p (r_requests r) |}.
Proof.
  intros [Hc Hs Ha Hr Ho Hd Hh]. split; simpl; try done.
  - intros id p' Hp. destruct (Ha id p' Hp) as (H0 & q & Hq & Hid & He). split; [done|].
    destruct (decide (p' = p)) as [->|Hne].
    + rewrite list_lookup_alter_eq, Hq. simpl. eauto.
    + rewrite list_lookup_alter_ne by done. eauto.
  - intros p' q' Hq' He. destruct (decide (p' = p)) as [->|Hne].
    + rewrite list_lookup_alter_eq in Hq'. destruct (r_requests r !! p) as [q|] eqn:Eq; [|done].
      injection Hq' as <-. simpl in *. by apply Hr.
    + rewrite list_lookup_alter_ne in Hq' by done. by apply Hr.
Qed.

Lemma finishLocked_ok id p q success r :
  reg_ok r -> r_requests r !! p = Some q -> ar_id q = id -> reg_ok (finishLocked id p success r).
Proof.
  intros Hok Hq Hid. destruct (ar_ended q) eqn:E; [by rewrite (finishLocked_ended id p q)|].
  by apply (finishLocked_running id p q).
Qed.

Lemma complete_ok p success r : reg_ok r -> reg_ok (complete p success r).2.
Proof.
  intros Hok. unfold complete. destruct (r_requests r !! p) as [q|] eqn:Eq; [|done].
  destruct (ar_once q); [done|]. simpl.
  eapply finishLocked_ok; [by apply once_ok|by simpl; rewrite list_lookup_alter_eq, Eq|done].
Qed.

(** The effect of completing a running registration. *)
Lemma complete_running p id success r :
  reg_ok r -> r_requests r !! p = Some {| ar_id := id; ar_ended := false; ar_once := false |} ->
  let r' := (complete p success r).2 in
  reg_ok r' /\ r_active r' = delete id (r_active r) /\ r_capacity r' = r_capacity r /\
  forall p', p' <> p -> r_requests r' !! p' = r_requests r !! p'.
Proof.
  intros Hok Hq. unfold complete. rewrite Hq. cbn [ar_once ar_id snd].
  match goal with |- context [finishLocked id p success ?r1] => set (r1' := r1) end.
  assert (Hq1 : r_requests r1' !! p = Some {| ar_id := id; ar_ended := false; ar_once := true |}) by (unfold r1'; simpl; by rewrite list_lookup_alter_eq, Hq).
  destruct (finishLocked_running id p _ success r1' (once_ok p r Hok) Hq1 eq_refl eq_refl) as (A & B & _ & D & _ & F).
  split_and!; [done..|]. intros p' Hne. rewrite D. unfold r1'. simpl. by rewrite !list_lookup_alter_ne by done.
Qed.

Definition complete_each (ps : list nat) (success : bool) (r : ActiveRequestRegistry) : ActiveRequestRegistry :=
  foldl (fun r p => (complete p success r).2) r ps.

Lemma complete_each_spec ids ps success r :
  reg_ok r -> NoDup ps -> length ids = length ps ->
  (forall i id p, ids !! i = Some id -> ps !! i = Some p -> r_requests r !! p = Some {| ar_id := id; ar_ended := false; ar_once := false |}) ->
  let r' := complete_each ps success r in
  reg_ok r' /\ (forall k, r_active r' !! k = if decide (k ∈ ids) then None else r_active r !! k) /\ r_capacity r' = r_capacity r.
Proof.
  intros Hok Hnd. revert ids r Hok. induction Hnd as [|p ps Hp _ IH]; intros [|id ids] r Hok Hl Hrun; try done. cbn [complete_each foldl].
  destruct (complete_running p id success r Hok (Hrun 0%nat id p eq_refl eq_refl)) as (A & B & C & D).
  destruct (IH ids (complete p success r).2 A ltac:(cbn in Hl; lia)) as (A' & B' & C').
  { intros i id' p' Hi Hp'. rewrite D; [by apply (Hrun (S i))|]. intros ->. apply Hp. by eapply list_elem_of_lookup_2. }
  split_and!; [done| |by rewrite <- C]. intros k. unfold complete_each in B'. rewrite B', B.
  destruct (decide (k ∈ ids)), (decide (k ∈ id :: ids)); try done; [set_solver|..].
  - destruct (decide (k = id)) as [->|]; [apply lookup_delete_eq|set_solver].
  - rewrite lookup_delete_ne; [done|set_solver].
Qed.

(** Requests that all completed can be started again. *)
Lemma beginBatch_again ids ps success r r1 :
  reg_ok r -> beginBatch ids r = (Ok ps, r1) -> exists ps' r2, beginBatch ids (complete_each ps success r1) = (Ok ps', r2).
Proof.
  intros Hok Hb. unfold beginBatch in Hb. destruct (checkBatch ∅ ids) as [[]|] eqn:E1; [|done].
  destruct (Z.ltb_spec (r_capacity r) (Z.of_nat (size (r_active r)) + len ids)) as [|Hcap]; [done|].
  destruct (checkActive (r_active r) ids) as [[]|] eqn:E2; [|done].
  pose proof E1 as (Hnd & H0 & _)%checkBatch_ok. pose proof (proj1 (checkActive_ok _ _) E2) as Hnew.
  pose proof (registerAll_spec ids r Hok Hnd H0 Hnew ltac:(lia)) as Hr.
  destruct (registerAll ids r) as [ps0 r0]. injection Hb as <- <-. destruct Hr as (A & -> & C & _ & E & _ & G & I).
  destruct (complete_each_spec ids (seq (length (r_requests r)) (length ids)) success (notifyLocked r0)) as (A' & B' & C').
  - by apply notify_ok.
  - apply NoDup_seq.
  - by rewrite length_seq.
  - intros i id p Hi Hp. cbn [r_requests notifyLocked]. apply lookup_seq in Hp as [-> Hp].
    rewrite C, lookup_app_r, list_lookup_fmap by lia. by replace (length (r_requests r) + i - length (r_requests r))%nat with i by lia; rewrite Hi.
  - assert (Hact : r_active (complete_each (seq (length (r_requests r)) (length ids)) success (notifyLocked r0)) = r_active r).
    { apply map_eq. intros k. rewrite B'. destruct (decide (k ∈ ids)) as [Hk|Hk]; [symmetry; by apply Hnew|by apply I]. }
    unfold beginBatch. rewrite E1, C', Hact. cbn [r_capacity notifyLocked]. rewrite E, (proj2 (Z.ltb_ge _ _)), E2 by lia.
    destruct (registerAll ids _) as [ps' r2]. by eexists _, _.
Qed.

Lemma Drop_ok id r : reg_ok r -> reg_ok (Drop id r).2.
Proof.
  intros Hok. unfold Drop. destruct (r_active r !! id) as [p|] eqn:E; [|done].
  destruct (ro_active _ Hok id p E) as (_ & q & Hq & Hid & _). by eapply finishLocked_ok.
Qed.

Lemma cancelEach_spec items r :
  reg_ok r -> NoDup items.*1 -> (forall id p, (id, p) ∈ items -> r_active r !! id = Some p) ->
  let r' := cancelEach items r in
  reg_ok r' /\ (forall id, id ∈ items.*1 -> r_active r' !! id = None) /\
  (forall id, id ∉ items.*1 -> r_active r' !! id = r_active r !! id).
Proof.
  revert r. induction items as [|[id p] items IH]; intros r Hok Hnd Hall; simpl.
  { split; [done|]. split; [|done]. intros id Hid. by apply elem_of_nil in Hid. }
  apply NoDup_cons in Hnd as [Hni Hnd]. simpl in *.
  pose proof (Hall id p ltac:(left)) as Hp.
  destruct (ro_active _ Hok id p Hp) as (_ & q & Hq & Hid & He).
  destruct (finishLocked_running id p q false r Hok Hq Hid He) as (Hok1 & Ha & _).
  destruct (IH (finishLocked id p false r) Hok1 Hnd) as (A & B & C).
  { intros id' p' Hin. rewrite Ha, lookup_delete_ne; [apply Hall; by right|].
    intros <-. apply Hni. apply list_elem_of_fmap. by exists (id, p'). }
  split; [done|]. split.
  - intros k [->|Hk]%elem_of_cons; [|by apply B].
    destruct (decide (id ∈ items.*1)); [by apply B|]. rewrite C by done. by rewrite Ha, lookup_delete_eq.
  - intros k [Hne Hk]%not_elem_of_cons. rewrite C by done. by rewrite Ha, lookup_delete_ne.
Qed.

Lemma pollLoop_spec completed ids acc :
  pollLoop completed ids acc =
  if bool_decide (Exists (fun id => completed !! id = Some false) ids) then DepsFailed
  else if acc && bool_decide (Forall (fun id => completed !! id = Some true) ids) then DepsComplete
  else DepsWait.
Proof.
  revert acc. induction ids as [|id ids IH]; intros acc; cbn [pollLoop].
  { rewrite bool_decide_eq_false_2 by (intros Hn; inversion Hn). rewrite bool_decide_eq_true_2 by constructor.
    by destruct acc. }
  destruct (completed !! id) as [[]|] eqn:E; rewrite ?IH.
  - rewrite (bool_decide_ext (Exists _ (id :: ids)) (Exists (fun id => completed !! id = Some false) ids))
      by (rewrite Exists_cons; naive_solver congruence).
    rewrite (bool_decide_ext (Forall _ (id :: ids)) (Forall (fun id => completed !! id = Some true) ids))
      by (rewrite Forall_cons; naive_solver).
    done.
  - rewrite bool_decide_eq_true_2; [done|]. by left.
  - rewrite (bool_decide_ext (Exists _ (id :: ids)) (Exists (fun id => completed !! id = Some false) ids))
      by (rewrite Exists_cons; naive_solver congruence).
    rewrite (bool_decide_eq_false_2 (Forall _ (id :: ids))) by (rewrite Forall_cons; naive_solver congruence).
    by rewrite andb_false_r.
Qed.

(** ** Steps *)

(** Everything that may happen to a registry; completions name a registration,
    so a stale closure may run at any time. *)
Inductive reg_step : ActiveRequestRegistry -> ActiveRequestRegistry -> Prop :=
| step_begin ids r : reg_step r (beginBatch ids r).2
| step_complete p success r : reg_step r (complete p success r).2
| step_drop id r : reg_step r (Drop id r).2
| step_cancel why r : reg_step r (CancelAll why r).2.

Lemma CancelAll_spec why r :
  reg_ok r -> reg_ok (CancelAll why r).2 /\ r_active (CancelAll why r).2 = ∅.
Proof.
  intros Hok. unfold CancelAll. simpl.
  destruct (cancelEach_spec (map_to_list (r_active r)) r) as (A & B & C); [done|apply NoDup_fst_map_to_list| |].
  { intros id p Hp. by apply elem_of_map_to_list in Hp. }
  split; [done|]. apply map_eq. intros k. rewrite lookup_empty.
  destruct (decide (k ∈ (map_to_list (r_active r)).*1)) as [Hk|Hk]; [by apply B|].
  rewrite C by done. apply eq_None_not_Some. intros [p Hp]. apply Hk, list_elem_of_fmap.
  exists (k, p). split; [done|]. by apply elem_of_map_to_list.
Qed.

Lemma reg_step_ok r r' : reg_step r r' -> reg_ok r -> reg_ok r'.
Proof.
  destruct 1; intros Hok.
  - pose proof (beginBatch_spec ids r Hok) as H. destruct (beginBatch ids r) as [[ps|e] r']; simpl in *; [by destruct H|by subst].
  - by apply complete_ok.
  - by apply Drop_ok.
  - by apply CancelAll_spec.
Qed.

(** A completion that is recorded wakes the waiters. *)
Lemma finishLocked_notifies id p success r :
  r_completed (finishLocked id p success r) <> r_completed r ->
  r_changed (finishLocked id p success r) = r_changed r + 1.
Proof.
  unfold finishLocked. destruct (r_requests r !! p) as [q|]; [|done]. destruct (ar_ended q); [done|].
  intros _. simpl. rewrite (proj2 (proj2 (proj2 (record_completion_rest _ _ _)))). by case_bool_decide.
Qed.

Lemma cancelEach_changed items r :
  r_changed r <= r_changed (cancelEach items r) /\
  (r_completed (cancelEach items r) <> r_completed r -> r_changed r < r_changed (cancelEach items r)).
Proof.
  revert r. induction items as [|[id p] items IH]; intros r; simpl; [split; [lia|done]|].
  destruct (IH (finishLocked id p false r)) as [H1 H2].
  pose proof (finishLocked_notifies id p false r) as H3.
  assert (H4 : r_changed r <= r_changed (finishLocked id p false r)).
  { unfold finishLocked. destruct (r_requests r !! p) as [q|]; [|lia]. destruct (ar_ended q); [lia|].
    simpl. rewrite (proj2 (proj2 (proj2 (record_completion_rest _ _ _)))). case_bool_decide; simpl; lia. }
  split; [unfold cancelEach in *; lia|]. intros Hne.
  destruct (decide (r_completed (finishLocked id p false r) = r_completed r)) as [E|E].
  - rewrite <- E in Hne. specialize (H2 Hne). unfold cancelEach in *. lia.
  - specialize (H3 E). unfold cancelEach in *. lia.
Qed.

(** A closure that already ran does nothing. *)
Lemma complete_twice id p success again r :
  (exists q, r_requests r !! p = Some q /\ ar_once q = true) ->
  complete p again (finishLocked id p success r) = ([], finishLocked id p success r).
Proof.
  intros (q & Hq & Ho). unfold complete.
  assert (H : exists q', r_requests (finishLocked id p success r) !! p = Some q' /\ ar_once q' = true).
  { unfold finishLocked. rewrite Hq. destruct (ar_ended q); [eauto|]. simpl.
    rewrite (proj1 (proj2 (proj2 (record_completion_rest _ _ _)))).
    assert (Hm : r_requests (mark_ended p r) !! p = Some (end_request q))
      by (simpl; by rewrite list_lookup_alter_eq, Hq).
    case_bool_decide; eauto. }
  destruct H as (q' & -> & ->). done.
Qed.

(** * Properties *)

Definition sample_registry : ActiveRequestRegistry :=
  {| r_capacity := 2; r_active := ∅; r_completed := ∅; r_completedOrder := []; r_changed := 0;
     r_requests := [] |}.

Lemma New_registry_ok capacity r : NewActiveRequestRegistry capacity = Ok r -> reg_ok r.
Proof.
  unfold NewActiveRequestRegistry. intros H. case_match; [done|]. bools. simplify_eq.
  split; simpl; try done.
  - rewrite map_size_empty. lia.
  - apply NoDup_nil_2.
  - intros id. rewrite lookup_empty. split; [intros Hin; by apply elem_of_nil in Hin|by intros [? ?]].
  - rewrite len_nil. lia.
Qed.

(** Over any interleaving of batches, completions (stale and repeated ones
    included), drops and cancellations, the registry stays within its
    capacity, its map holds exactly the registrations that have not ended,
    each under its own non-zero id, and the completion history is a
    duplicate-free bounded list that agrees with the completion map. *)
Lemma registry_reachable_ok capacity r0 r :
  NewActiveRequestRegistry capacity = Ok r0 -> rtc reg_step r0 r -> reg_ok r.
Proof.
  intros H0 Hs. apply New_registry_ok in H0. induction Hs; [done|]. eauto using reg_step_ok.
Qed.

Lemma registry_reachable_ok_witness :
  reg_ok (beginBatch [5; 7] sample_registry).2.
Proof.
  apply (registry_reachable_ok 2 sample_registry); [reflexivity|].
  apply rtc_once. constructor.
Defined.

(** A container's requests are registered all or nothing: on an error the
    registry is unchanged; otherwise the ids are distinct, non-zero and were
    idle, each now runs under its own fresh registration, and no other
    request is touched. *)
Lemma beginBatch_atomic ids r :
  reg_ok r ->
  match beginBatch ids r with
  | (Err _, r') => r' = r
  | (Ok ps, r') =>
      reg_ok r' /\ NoDup ids /\ (0 ∉ ids) /\ length ps = length ids /\
      (forall id, id ∈ ids -> r_active r !! id = None) /\
      (forall i id p, ids !! i = Some id -> ps !! i = Some p -> r_active r' !! id = Some p) /\
      (forall id, id ∉ ids -> r_active r' !! id = r_active r !! id) /\
      (forall p, p ∈ ps -> r_requests r !! p = None) /\
      r_completed r' = r_completed r
  end.
Proof. apply beginBatch_spec. Qed.

Lemma beginBatch_atomic_witness :
  (beginBatch [5; 7] sample_registry).1 = Ok [0%nat; 1%nat] /\
  (beginBatch [5; 7; 9] sample_registry).2 = sample_registry.
Proof.
  split; [vm_compute; reflexivity|].
  pose proof (beginBatch_atomic [5; 7; 9] sample_registry (New_registry_ok 2 sample_registry eq_refl)) as H.
  change (beginBatch [5; 7; 9] sample_registry) with
    (Err (A := list nat) (ActiveRequestCapacityError 2), sample_registry) in *. exact H.
Defined.

(** Ending requests: dropping a running request cancels its own registration,
    frees its id and records a failure, and dropping it again is unknown; a
    completion closure has an effect once, and one whose request was already
    dropped changes neither the running requests, even when the id runs
    again under a new registration, nor the history; [CancelAll] leaves
    nothing running. *)
Lemma ending_requests r :
  reg_ok r ->
  (forall id p, r_active r !! id = Some p ->
     let '(st, cancelled, r') := Drop id r in
     st = DropStatusDroppedRunning /\ cancelled = [(p, Canceled)] /\ reg_ok r' /\
     r_active r' = delete id (r_active r) /\ r_completed r' !! id = Some false /\
     Drop id r' = (DropStatusUnknown, [], r')) /\
  (forall p success again,
     let r' := (complete p success r).2 in
     complete p again r' = ([], r')) /\
  (forall p q success, r_requests r !! p = Some q -> ar_ended q = true ->
     let r' := (complete p success r).2 in
     r_active r' = r_active r /\ r_completed r' = r_completed r) /\
  (forall why, r_active (CancelAll why r).2 = ∅).
Proof.
  intros Hok. split_and!.
  - intros id p Hp. destruct (ro_active _ Hok id p Hp) as (_ & q & Hq & Hid & He).
    destruct (finishLocked_running id p q false r Hok Hq Hid He) as (A & B & C & D & E & F).
    unfold Drop at 1. rewrite Hp. split_and!; try done.
    unfold Drop. by rewrite B, lookup_delete_eq.
  - intros p success again. destruct (complete p success r) as [c r1] eqn:E. simpl. unfold complete in E.
    destruct (r_requests r !! p) as [q|] eqn:Eq; [destruct (ar_once q) eqn:Eo|]; injection E as <- <-.
    + unfold complete. by rewrite Eq, Eo.
    + apply complete_twice. simpl. rewrite list_lookup_alter_eq, Eq. eauto.
    + unfold complete. by rewrite Eq.
  - intros p q success Hq He. unfold complete. rewrite Hq. destruct (ar_once q); [done|]. simpl.
    rewrite (finishLocked_ended _ p {| ar_id := ar_id q; ar_ended := ar_ended q; ar_once := true |});
      [done| |done].
    simpl. by rewrite list_lookup_alter_eq, Hq.
  - intros why. by apply CancelAll_spec.
Qed.

Lemma ending_requests_witness :
  (Drop 5 (beginBatch [5; 7] sample_registry).2).1 = (DropStatusDroppedRunning, [(0%nat, Canceled)]) /\
  r_active (CancelAll None (beginBatch [5; 7] sample_registry).2).2 = ∅.
Proof.
  split; [vm_compute; reflexivity|].
  refine (proj2 (proj2 (proj2 (ending_requests (beginBatch [5; 7] sample_registry).2 _))) None).
  apply (reg_step_ok sample_registry); [constructor|]. by apply (New_registry_ok 2).
Defined.

(** Waiting on dependencies: a poll reports failure exactly when a named
    request is recorded as failed, completion exactly when all are recorded
    as successful, and otherwise waits; and every step that changes what is
    recorded also renews the channel, so no wake-up is lost. *)
Lemma WaitDependencies_sound ids r :
  (WaitDependencies_poll ids r = DepsFailed <-> exists id, id ∈ ids /\ r_completed r !! id = Some false) /\
  (WaitDependencies_poll ids r = DepsComplete <-> forall id, id ∈ ids -> r_completed r !! id = Some true) /\
  (forall r', reg_step r r' -> r_completed r' <> r_completed r -> r_changed r < r_changed r').
Proof.
  assert (HE : Exists (fun id => r_completed r !! id = Some false) ids <->
            exists id, id ∈ ids /\ r_completed r !! id = Some false) by apply Exists_exists.
  assert (HF : Forall (fun id => r_completed r !! id = Some true) ids <->
            forall id, id ∈ ids -> r_completed r !! id = Some true) by apply Forall_forall.
  unfold WaitDependencies_poll. rewrite pollLoop_spec. simpl. split_and!.
  - rewrite <- HE. repeat case_bool_decide; naive_solver.
  - rewrite <- HF. repeat case_bool_decide; split; try done.
    intros Hall. exfalso. apply HE in H as (id & Hin & Hf). apply HF in Hin; [congruence|done].
  - intros r' Hs Hne. destruct Hs.
    + unfold beginBatch in *. destruct (checkBatch ∅ ids0); [|done]. destruct (_ <? _); [done|].
      destruct (checkActive _ _); [|done]. exfalso. apply Hne. clear.
      assert (H : r_completed (registerAll ids0 r).2 = r_completed r).
      { revert r. induction ids0 as [|id ids0 IH]; intros r; [done|]. cbn [registerAll].
        set (r1 := {| r_capacity := r_capacity r |}). specialize (IH r1).
        by destruct (registerAll ids0 r1). }
      by destruct (registerAll ids0 r).
    + unfold complete in *. destruct (r_requests r !! p) as [q|]; [|done]. destruct (ar_once q); [done|].
      simpl in *. rewrite finishLocked_notifies by done. simpl. lia.
    + unfold Drop in *. destruct (r_active r !! id) as [p|]; [|done]. simpl in *.
      rewrite finishLocked_notifies by done. lia.
    + simpl in *. by apply cancelEach_changed.
Qed.
