(* ===== verification/PushBarrier.v ===== *)
(** The recovery push barrier (internal/runtime/recovery_push_barrier.go): pushes
    are held back while a protected request is being answered and drained in
    order after its reply.

    Two locks order the work.  Every section under [mu] is one function on
    [barrier] and one step.  [orderMu] is explicit: [finisher] is the call that
    holds it for writing, with its place in the code, and a pusher in
    [PushSubmit] holds it for reading.  A call waiting for a lock holds nothing,
    so it is not part of the state. *)

From stdpp Require Import base numbers list gmap strings relations.
From S2P Require Import Prelude.
Open Scope Z_scope.

Inductive barrier_error := ErrRecoveryPushBarrierFull | BarrierCause (cause : string).

Record barrier := {
  b_maxCount : Z;
  b_maxBytes : Z;
  b_active : Z;
  b_draining : bool;
  b_queuedBytes : Z;
  b_queue : list bytes;
  b_closed : bool;
  b_cause : option barrier_error
}.

Definition newRecoveryPushBarrier (maxCount maxBytes : Z) : barrier :=
  {| b_maxCount := maxCount; b_maxBytes := maxBytes; b_active := 0; b_draining := false;
     b_queuedBytes := 0; b_queue := []; b_closed := false; b_cause := None |}.

Definition set_active (n : Z) (b : barrier) : barrier :=
  {| b_maxCount := b_maxCount b; b_maxBytes := b_maxBytes b; b_active := n; b_draining := b_draining b;
     b_queuedBytes := b_queuedBytes b; b_queue := b_queue b; b_closed := b_closed b; b_cause := b_cause b |}.
Definition set_draining (d : bool) (b : barrier) : barrier :=
  {| b_maxCount := b_maxCount b; b_maxBytes := b_maxBytes b; b_active := b_active b; b_draining := d;
     b_queuedBytes := b_queuedBytes b; b_queue := b_queue b; b_closed := b_closed b; b_cause := b_cause b |}.
Definition set_queue (q : list bytes) (n : Z) (b : barrier) : barrier :=
  {| b_maxCount := b_maxCount b; b_maxBytes := b_maxBytes b; b_active := b_active b;
     b_draining := b_draining b; b_queuedBytes := n; b_queue := q; b_closed := b_closed b;
     b_cause := b_cause b |}.

(** [context.Canceled] stands in for a nil cause. *)
Definition Canceled : barrier_error := BarrierCause "context canceled".

Definition closeLocked (cause : option barrier_error) (b : barrier) : barrier :=
  if b_closed b then b
  else
    {| b_maxCount := b_maxCount b; b_maxBytes := b_maxBytes b; b_active := b_active b;
       b_draining := b_draining b; b_queuedBytes := 0; b_queue := []; b_closed := true;
       b_cause := Some (default Canceled cause) |}.

Definition closeCauseLocked (b : barrier) : barrier_error := default Canceled (b_cause b).

Definition enqueueLocked (body : bytes) (b : barrier) : option barrier_error * barrier :=
  if b_closed b then (Some (closeCauseLocked b), b)
  else if (b_maxCount b <=? len (b_queue b)) || (b_maxBytes b - b_queuedBytes b <? len body)
  then (Some ErrRecoveryPushBarrierFull, closeLocked (Some ErrRecoveryPushBarrierFull) b)
  else (None, set_queue (b_queue b ++ [body]) (b_queuedBytes b + len body) b).

Definition releaseLocked (b : barrier) : barrier :=
  if 0 <? b_active b then set_active (b_active b - 1) b else b.

(** The section under both locks of [begin]. *)
Definition begin_section (b : barrier) : barrier :=
  if b_closed b then b else set_active (b_active b + 1) b.

(** The section [push] runs twice: refused, queued, or free to submit. *)
Inductive push_verdict := PushDone (err : option barrier_error) | PushDirect.

Definition push_section (body : bytes) (b : barrier) : push_verdict * barrier :=
  if b_closed b then (PushDone (Some (closeCauseLocked b)), b)
  else if negb (b_active b =? 0) || b_draining b then
    let '(err, b) := enqueueLocked body b in (PushDone err, b)
  else (PushDirect, b).

(** [finish] after [submitReply] returned [replyErr]: whether to drain. *)
Definition reply_section (replyErr : option barrier_error) (b : barrier) : bool * barrier :=
  match replyErr with
  | Some e => (false, closeLocked (Some e) b)
  | None =>
      if b_closed b then (false, b)
      else
        let b := releaseLocked b in
        if (b_active b =? 0) && negb (len (b_queue b) =? 0) then (true, set_draining true b) else (false, b)
  end.

(** The head of the drain loop: the body to submit, if it goes on. *)
Definition drain_section (b : barrier) : option bytes * barrier :=
  if b_closed b then (None, set_draining false b)
  else if negb (b_active b =? 0) || (len (b_queue b) =? 0) then (None, set_draining false b)
  else
    match b_queue b with
    | [] => (None, b)
    | body :: queue => (Some body, set_queue queue (b_queuedBytes b - len body) b)
    end.

(** [abort] and [close], under both locks. *)
Definition abort_section (cause : barrier_error) (b : barrier) : barrier :=
  if b_closed b then b else closeLocked (Some cause) b.

(** * Interleavings *)

Inductive pusher := PushWaitOrder (body : bytes) | PushSubmit (body : bytes).
Inductive finisher_pc := FinishReply | FinishDrain | FinishDrainSubmit (body : bytes).
Inductive event := Replied | Pushed (body : bytes).

(** [log]: what reached the transport. [accepted]: bodies in the order in which
    the barrier took them, at queueing or at direct submission. *)
Record sys := {
  s_barrier : barrier;
  s_pushers : gmap nat pusher;
  s_finisher : option finisher_pc;
  s_log : list event;
  s_accepted : list bytes
}.

Definition no_reader (s : sys) : Prop := forall t body, s_pushers s !! t <> Some (PushSubmit body).

Definition accept_if_queued (v : push_verdict) (body : bytes) (l : list bytes) : list bytes :=
  match v with PushDone None => l ++ [body] | _ => l end.

Inductive step : sys -> sys -> Prop :=
| step_begin s :
    s_finisher s = None -> no_reader s ->
    step s {| s_barrier := begin_section (s_barrier s); s_pushers := s_pushers s; s_finisher := None;
              s_log := s_log s; s_accepted := s_accepted s |}
| step_push_arrives s t body v b :
    s_pushers s !! t = None -> push_section body (s_barrier s) = (v, b) ->
    step s {| s_barrier := b;
              s_pushers := match v with PushDirect => <[t := PushWaitOrder body]> (s_pushers s)
                                      | PushDone _ => s_pushers s end;
              s_finisher := s_finisher s; s_log := s_log s;
              s_accepted := accept_if_queued v body (s_accepted s) |}
| step_push_ordered s t body v b :
    s_pushers s !! t = Some (PushWaitOrder body) -> s_finisher s = None ->
    push_section body (s_barrier s) = (v, b) ->
    step s {| s_barrier := b;
              s_pushers := match v with PushDirect => <[t := PushSubmit body]> (s_pushers s)
                                      | PushDone _ => delete t (s_pushers s) end;
              s_finisher := None; s_log := s_log s;
              s_accepted := accept_if_queued v body (s_accepted s) |}
| step_push_submitted s t body :
    s_pushers s !! t = Some (PushSubmit body) ->
    step s {| s_barrier := s_barrier s; s_pushers := delete t (s_pushers s); s_finisher := s_finisher s;
              s_log := s_log s ++ [Pushed body]; s_accepted := s_accepted s ++ [body] |}
| step_push_failed s t body :
    s_pushers s !! t = Some (PushSubmit body) ->
    step s {| s_barrier := s_barrier s; s_pushers := delete t (s_pushers s); s_finisher := s_finisher s;
              s_log := s_log s; s_accepted := s_accepted s |}
| step_finish s :
    s_finisher s = None -> no_reader s -> b_closed (s_barrier s) = false ->
    step s {| s_barrier := s_barrier s; s_pushers := s_pushers s; s_finisher := Some FinishReply;
              s_log := s_log s; s_accepted := s_accepted s |}
| step_reply s replyErr drains b :
    s_finisher s = Some FinishReply -> reply_section replyErr (s_barrier s) = (drains, b) ->
    step s {| s_barrier := b; s_pushers := s_pushers s;
              s_finisher := if drains then Some FinishDrain else None;
              s_log := s_log s ++ (match replyErr with None => [Replied] | Some _ => [] end);
              s_accepted := s_accepted s |}
| step_drain s body b :
    s_finisher s = Some FinishDrain -> drain_section (s_barrier s) = (body, b) ->
    step s {| s_barrier := b; s_pushers := s_pushers s; s_finisher := FinishDrainSubmit <$> body;
              s_log := s_log s; s_accepted := s_accepted s |}
| step_drain_submitted s body :
    s_finisher s = Some (FinishDrainSubmit body) ->
    step s {| s_barrier := s_barrier s; s_pushers := s_pushers s; s_finisher := Some FinishDrain;
              s_log := s_log s ++ [Pushed body]; s_accepted := s_accepted s |}
| step_drain_failed s body e :
    s_finisher s = Some (FinishDrainSubmit body) ->
    step s {| s_barrier := closeLocked (Some e) (s_barrier s); s_pushers := s_pushers s; s_finisher := None;
              s_log := s_log s; s_accepted := s_accepted s |}
| step_abort s cause :
    s_finisher s = None -> no_reader s ->
    step s {| s_barrier := abort_section cause (s_barrier s); s_pushers := s_pushers s; s_finisher := None;
              s_log := s_log s; s_accepted := s_accepted s |}
| step_close s cause :
    s_finisher s = None -> no_reader s ->
    step s {| s_barrier := closeLocked cause (s_barrier s); s_pushers := s_pushers s; s_finisher := None;
              s_log := s_log s; s_accepted := s_accepted s |}.

Definition initial (maxCount maxBytes : Z) : sys :=
  {| s_barrier := newRecoveryPushBarrier maxCount maxBytes; s_pushers := ∅; s_finisher := None;
     s_log := []; s_accepted := [] |}.

Definition pushed (log : list event) : list bytes :=
  omap (fun e => match e with Pushed body => Some body | Replied => None end) log.

(** The body the drain loop took from the queue and has not submitted yet. *)
Definition in_flight (f : option finisher_pc) : list bytes :=
  match f with Some (FinishDrainSubmit body) => [body] | _ => [] end.

(** * Invariant *)

Record barrier_ok (b : barrier) : Prop := {
  bo_bytes : b_queuedBytes b = sumZ (len <$> b_queue b);
  bo_count : len (b_queue b) <= Z.max 0 (b_maxCount b);
  bo_limit : b_queuedBytes b <= Z.max 0 (b_maxBytes b);
  bo_active : 0 <= b_active b;
  bo_closed : b_closed b = true -> b_queue b = [];
  bo_idle : b_closed b = false -> b_active b = 0 -> b_draining b = false -> b_queue b = []
}.

Record sys_ok (s : sys) : Prop := {
  so_barrier : barrier_ok (s_barrier s);
  (* a reader holds [orderMu]: nobody writes it and the gate is open *)
  so_reader : forall t body, s_pushers s !! t = Some (PushSubmit body) ->
    s_finisher s = None /\ b_closed (s_barrier s) = false /\ b_active (s_barrier s) = 0 /\
    b_draining (s_barrier s) = false;
  so_drain : match s_finisher s with
             | Some FinishDrain | Some (FinishDrainSubmit _) =>
                 b_active (s_barrier s) = 0 /\ b_draining (s_barrier s) = true
             | _ => True
             end;
  so_undrained : b_closed (s_barrier s) = false -> b_draining (s_barrier s) = true ->
    s_finisher s = Some FinishDrain \/ exists body, s_finisher s = Some (FinishDrainSubmit body);
  so_fifo : exists rest, s_accepted s = pushed (s_log s) ++ in_flight (s_finisher s) ++ rest /\
    (b_closed (s_barrier s) = false -> rest = b_queue (s_barrier s))
}.

(** ** Sections keep the barrier well formed *)

Lemma closeLocked_ok c b : barrier_ok b -> barrier_ok (closeLocked c b).
Proof.
  intros Hok. unfold closeLocked. destruct (b_closed b); [done|]. destruct Hok.
  split; simpl; try done; rewrite ?len_nil; lia.
Qed.

Lemma closeLocked_closed c b : b_closed (closeLocked c b) = true.
Proof. unfold closeLocked. by destruct (b_closed b) eqn:E. Qed.

Lemma closeLocked_rest c b :
  b_active (closeLocked c b) = b_active b /\ b_draining (closeLocked c b) = b_draining b.
Proof. unfold closeLocked. by destruct (b_closed b). Qed.

Lemma sum_len_nonneg (q : list bytes) : 0 <= sumZ (len <$> q).
Proof.
  induction q as [|x q IH]; [done|]. rewrite fmap_cons. cbn [sumZ]. pose proof (len_nonneg x). lia.
Qed.

(** Queueing happens only behind a closed gate. *)
Lemma enqueueLocked_spec body b :
  barrier_ok b -> b_closed b = false -> b_active b <> 0 \/ b_draining b = true ->
  let '(err, b') := enqueueLocked body b in
  barrier_ok b' /\ b_active b' = b_active b /\ b_draining b' = b_draining b /\
  match err with
  | None => b_closed b' = false /\ b_queue b' = b_queue b ++ [body]
  | Some _ => b_closed b' = true
  end.
Proof.
  intros Hok Hc Hgate. unfold enqueueLocked. rewrite Hc.
  destruct (_ || _) eqn:E.
  - split; [by apply closeLocked_ok|]. destruct (closeLocked_rest (Some ErrRecoveryPushBarrierFull) b) as [-> ->].
    by rewrite closeLocked_closed.
  - destruct Hok as [H1 H2 H3 H4 H5 H6]. bools. split; [|done]. split; simpl; try done.
    + rewrite fmap_app, sumZ_app. simpl. lia.
    + rewrite len_app. change (len [body]) with 1. lia.
    + lia.
    + congruence.
    + intros _ Ha Hd. naive_solver congruence.
Qed.

Lemma push_section_spec body b :
  barrier_ok b ->
  let '(v, b') := push_section body b in
  barrier_ok b' /\ b_active b' = b_active b /\ b_draining b' = b_draining b /\
  match v with
  | PushDirect => b' = b /\ b_closed b = false /\ b_active b = 0 /\ b_draining b = false
  | PushDone None => b_closed b = false /\ b_closed b' = false /\ b_queue b' = b_queue b ++ [body]
  | PushDone (Some _) => (b' = b /\ b_closed b = true) \/ b_closed b' = true
  end /\
  (b_closed b = false -> b_active b = 0 -> b_draining b = false -> b' = b).
Proof.
  intros Hok. unfold push_section. destruct (b_closed b) eqn:Hc; [naive_solver|].
  destruct (Z.eqb_spec (b_active b) 0) as [Ha|Ha]; simpl; [destruct (b_draining b) eqn:Hd; [|done]|];
    pose proof (enqueueLocked_spec body b Hok Hc) as He; destruct (enqueueLocked body b) as [[e|] b'];
    destruct He as (A & B & C & D); auto; rewrite ?Hd in *; naive_solver.
Qed.

Lemma begin_section_ok b : barrier_ok b -> barrier_ok (begin_section b).
Proof.
  intros Hok. unfold begin_section. destruct (b_closed b) eqn:Hc; [done|]. destruct Hok as [H1 H2 H3 H4 H5 H6].
  split; simpl; try done; try lia; congruence.
Qed.

Lemma reply_section_spec e b :
  barrier_ok b -> (b_closed b = false -> b_draining b = false) ->
  let '(drains, b') := reply_section e b in
  barrier_ok b' /\ (b_closed b' = false -> b_queue b' = b_queue b /\ b_closed b = false) /\
  (if drains then b_active b' = 0 /\ b_draining b' = true /\ b_closed b' = false
   else b_closed b' = false -> b_draining b' = false).
Proof.
  intros Hok Hd. unfold reply_section. destruct e as [e|].
  { pose proof (closeLocked_closed (Some e) b) as Hcl. split; [by apply closeLocked_ok|]. split; congruence. }
  destruct (b_closed b) eqn:Hc; [split; [done|]; split; congruence|]. specialize (Hd eq_refl).
  destruct Hok as [H1 H2 H3 H4 H5 H6].
  assert (Hr : exists n, releaseLocked b = set_active n b /\ 0 <= n).
  { unfold releaseLocked. destruct (Z.ltb_spec 0 (b_active b)); [exists (b_active b - 1)|exists (b_active b)];
      (split; [by destruct b|lia]). }
  destruct Hr as (n & -> & Hn). simpl.
  destruct (Z.eqb_spec n 0) as [->|Hn0]; simpl.
  - destruct (Z.eqb_spec (len (b_queue b)) 0) as [Hq|Hq]; simpl.
    + assert (b_queue b = []) as Hnil.
      { destruct (b_queue b) as [|x q]; [done|]. rewrite len_cons in Hq. pose proof (len_nonneg q). lia. }
      split; [split; simpl; try done; congruence|]. by rewrite Hc.
    + split; [split; simpl; try done; congruence|]. by rewrite Hc.
  - split; [split; simpl; try done; congruence|]. by rewrite Hc.
Qed.

Lemma drain_section_spec b :
  barrier_ok b -> b_active b = 0 ->
  let '(body, b') := drain_section b in
  barrier_ok b' /\ b_active b' = 0 /\ b_closed b' = b_closed b /\
  match body with
  | None => b_draining b' = false /\ (b_closed b = false -> b_queue b = [] /\ b_queue b' = [])
  | Some x => b_draining b' = b_draining b /\ b_closed b = false /\ b_queue b = x :: b_queue b'
  end.
Proof.
  intros Hok Ha. unfold drain_section. destruct Hok as [H1 H2 H3 H4 H5 H6]. destruct (b_closed b) eqn:Hc.
  { split; [split; simpl; rewrite ?Hc; auto; done|]. by split_and!. }
  rewrite Ha, Z.eqb_refl. cbn [negb orb]. destruct (b_queue b) as [|x q] eqn:Eq.
  - rewrite len_nil, Z.eqb_refl. split; [split; simpl; rewrite ?Eq; done|]. simpl. rewrite Eq. by split_and!.
  - rewrite (proj2 (Z.eqb_neq _ 0)) by (rewrite len_cons; pose proof (len_nonneg q); lia).
    rewrite len_cons in H2. rewrite fmap_cons in H1. cbn [sumZ] in H1.
    pose proof (len_nonneg x). pose proof (len_nonneg q). pose proof (sum_len_nonneg q).
    split; [split; simpl; try done; try lia; try congruence|by split_and!].
    intros _ _ Hd. by specialize (H6 eq_refl Ha Hd).
Qed.

(** ** Steps keep the invariant *)

Lemma initial_ok maxCount maxBytes : sys_ok (initial maxCount maxBytes).
Proof.
  split; simpl; try done.
  - split; simpl; try done; try rewrite len_nil; lia.
  - exists []. by split.
Qed.

Lemma pushed_app a b : pushed (a ++ b) = pushed a ++ pushed b.
Proof. apply omap_app. Qed.

(** Closing the barrier only drops what is still queued. *)
Lemma fifo_close log f q acc c b :
  (exists rest, acc = pushed log ++ f ++ rest /\ (b_closed b = false -> rest = q)) ->
  exists rest, acc = pushed log ++ f ++ rest /\
    (b_closed (closeLocked c b) = false -> rest = b_queue (closeLocked c b)).
Proof. intros (rest & H & _). exists rest. rewrite closeLocked_closed. by split. Qed.

(** A push that was queued, refused, or found the gate open. *)
Lemma fifo_push s body v b :
  sys_ok s -> push_section body (s_barrier s) = (v, b) ->
  exists rest, accept_if_queued v body (s_accepted s) = pushed (s_log s) ++ in_flight (s_finisher s) ++ rest /\
    (b_closed b = false -> rest = b_queue b).
Proof.
  intros Hok E. destruct (so_fifo _ Hok) as (rest & Hacc & Hrest).
  pose proof (push_section_spec body _ (so_barrier _ Hok)) as Hp. rewrite E in Hp.
  destruct Hp as (_ & _ & _ & Hv & _). destruct v as [[e|]|]; simpl.
  - exists rest. split; [done|]. destruct Hv as [[-> Hc]|Hc]; congruence.
  - destruct Hv as (Hc & Hc' & Hq). exists (rest ++ [body]). rewrite Hacc, <- !app_assoc. split; [done|].
    intros _. by rewrite Hq, Hrest.
  - destruct Hv as (-> & _). eauto.
Qed.

Lemma begin_section_rest b :
  b_closed (begin_section b) = b_closed b /\ b_draining (begin_section b) = b_draining b /\
  b_queue (begin_section b) = b_queue b.
Proof. unfold begin_section. by destruct (b_closed b) eqn:E. Qed.

(** A step that leaves log and pushers alone while nobody holds [orderMu]. *)
Lemma locked_step_ok s b f :
  sys_ok s -> s_finisher s = None -> no_reader s -> barrier_ok b ->
  (f = None \/ f = Some FinishReply) ->
  (b_closed b = false -> b_closed (s_barrier s) = false /\ b_draining b = b_draining (s_barrier s) /\
     b_queue b = b_queue (s_barrier s)) ->
  sys_ok {| s_barrier := b; s_pushers := s_pushers s; s_finisher := f; s_log := s_log s;
            s_accepted := s_accepted s |}.
Proof.
  intros [Hb Hr Hd Hu Hf] Hn Hnr Hok Hfin Hsame. split; simpl; try done.
  - intros t body Ht. by apply Hnr in Ht.
  - by destruct Hfin as [->| ->].
  - intros Hc Hdr. destruct (Hsame Hc) as (Hc' & Hd' & _). rewrite Hn in Hu.
    destruct (Hu Hc') as [?|[? ?]]; congruence.
  - rewrite Hn in Hf. destruct Hf as (rest & Hacc & Hrest). exists rest.
    split; [by destruct Hfin as [->| ->]|]. intros Hc. destruct (Hsame Hc) as (Hc' & _ & ->). auto.
Qed.

Lemma arrive_ok s t body v b :
  sys_ok s -> push_section body (s_barrier s) = (v, b) ->
  sys_ok {| s_barrier := b;
            s_pushers := match v with PushDirect => <[t := PushWaitOrder body]> (s_pushers s)
                                    | PushDone _ => s_pushers s end;
            s_finisher := s_finisher s; s_log := s_log s;
            s_accepted := accept_if_queued v body (s_accepted s) |}.
Proof.
  intros Hok E. pose proof Hok as [Hb Hr Hd Hu Hf].
  pose proof (push_section_spec body _ Hb) as Hp. rewrite E in Hp. destruct Hp as (A & B & C & D & F).
  pose proof (fifo_push s body v b Hok E) as Hfifo. split; simpl; try done.
  - intros t' body' Ht'. assert (Ht : s_pushers s !! t' = Some (PushSubmit body')).
    { destruct v; [done|]. by apply lookup_insert_Some in Ht' as [[_ ?]|[_ ?]]. }
    destruct (Hr t' body' Ht) as (? & ? & ? & ?). rewrite F by done. done.
  - by rewrite B, C.
  - intros Hc Hdr. apply Hu; [|congruence]. destruct v as [[e|]|]; naive_solver congruence.
Qed.

Lemma ordered_ok s t body v b :
  sys_ok s -> s_finisher s = None -> push_section body (s_barrier s) = (v, b) ->
  sys_ok {| s_barrier := b;
            s_pushers := match v with PushDirect => <[t := PushSubmit body]> (s_pushers s)
                                    | PushDone _ => delete t (s_pushers s) end;
            s_finisher := None; s_log := s_log s;
            s_accepted := accept_if_queued v body (s_accepted s) |}.
Proof.
  intros Hok Hn E. pose proof Hok as [Hb Hr Hd Hu Hf].
  pose proof (push_section_spec body _ Hb) as Hp. rewrite E in Hp. destruct Hp as (A & B & C & D & F).
  pose proof (fifo_push s body v b Hok E) as Hfifo. rewrite Hn in *. split; simpl; try done.
  - intros t' body' Ht'. destruct v as [e|].
    + apply lookup_delete_Some in Ht' as [_ Ht']. destruct (Hr t' body' Ht') as (? & ? & ? & ?).
      rewrite F by done. done.
    + destruct D as (-> & ?). apply lookup_insert_Some in Ht' as [[_ ?]|[_ Ht']]; [done|].
      by apply (Hr t' body').
  - intros Hc Hdr. apply Hu; [|congruence]. destruct v as [[e|]|]; naive_solver congruence.
Qed.

(** Direct submissions happen with nothing queued. *)
Lemma submitted_ok s t body :
  sys_ok s -> s_pushers s !! t = Some (PushSubmit body) ->
  sys_ok {| s_barrier := s_barrier s; s_pushers := delete t (s_pushers s); s_finisher := s_finisher s;
            s_log := s_log s ++ [Pushed body]; s_accepted := s_accepted s ++ [body] |}.
Proof.
  intros [Hb Hr Hd Hu (rest & Hacc & Hrest)] Ht. destruct (Hr t body Ht) as (Hn & Hc & Ha & Hdr).
  assert (Hq : b_queue (s_barrier s) = []) by by apply (bo_idle _ Hb).
  split; simpl; try done.
  - rewrite Hn in *. simpl in *. exists []. rewrite pushed_app, app_nil_r. simpl.
    rewrite Hacc, (Hrest Hc), Hq, app_nil_r. done.
Qed.

Lemma reply_ok s replyErr drains b :
  sys_ok s -> s_finisher s = Some FinishReply -> reply_section replyErr (s_barrier s) = (drains, b) ->
  sys_ok {| s_barrier := b; s_pushers := s_pushers s;
            s_finisher := if drains then Some FinishDrain else None;
            s_log := s_log s ++ (match replyErr with None => [Replied] | Some _ => [] end);
            s_accepted := s_accepted s |}.
Proof.
  intros [Hb Hr Hd Hu (rest & Hacc & Hrest)] Hfin E.
  assert (Hgate : b_closed (s_barrier s) = false -> b_draining (s_barrier s) = false).
  { intros Hc. destruct (b_draining (s_barrier s)) eqn:Ed; [|done].
    destruct (Hu Hc eq_refl) as [?|[? ?]]; congruence. }
  pose proof (reply_section_spec replyErr _ Hb Hgate) as Hp. rewrite E in Hp. destruct Hp as (A & B & C).
  rewrite Hfin in *. split; simpl; try done.
  - intros t body Ht. by destruct (Hr t body Ht).
  - destruct drains; [|done]. naive_solver.
  - intros Hc Hdr. destruct drains; [by left|]. rewrite (C Hc) in Hdr. done.
  - exists rest. rewrite pushed_app.
    replace (pushed match replyErr with None => [Replied] | Some _ => [] end) with (@nil bytes)
      by by destruct replyErr.
    rewrite app_nil_r. simpl in *. split; [by destruct drains|].
    intros Hc. destruct (B Hc) as [-> Hc']. by apply Hrest.
Qed.

Lemma drain_ok s body b :
  sys_ok s -> s_finisher s = Some FinishDrain -> drain_section (s_barrier s) = (body, b) ->
  sys_ok {| s_barrier := b; s_pushers := s_pushers s; s_finisher := FinishDrainSubmit <$> body;
            s_log := s_log s; s_accepted := s_accepted s |}.
Proof.
  intros [Hb Hr Hd Hu (rest & Hacc & Hrest)] Hfin E. rewrite Hfin in *. destruct Hd as [Ha Hdr].
  pose proof (drain_section_spec _ Hb Ha) as Hp. rewrite E in Hp. destruct Hp as (A & B & C & D).
  split; simpl; try done.
  - intros t body' Ht. by destruct (Hr t body' Ht).
  - destruct body; simpl; [|done]. destruct D as [-> _]. done.
  - intros Hc Hdr'. destruct body as [x|]; simpl; [by right; eauto|]. destruct D as [D _]. congruence.
  - simpl in Hacc. destruct body as [x|]; simpl.
    + destruct D as (_ & Hc & Hq). exists (b_queue b). by rewrite Hacc, (Hrest Hc), Hq.
    + exists rest. split; [done|]. rewrite C. intros Hc. destruct D as [_ D]. destruct (D Hc) as [Hq ->].
      by rewrite (Hrest Hc).
Qed.

Lemma drain_submitted_ok s body :
  sys_ok s -> s_finisher s = Some (FinishDrainSubmit body) ->
  sys_ok {| s_barrier := s_barrier s; s_pushers := s_pushers s; s_finisher := Some FinishDrain;
            s_log := s_log s ++ [Pushed body]; s_accepted := s_accepted s |}.
Proof.
  intros [Hb Hr Hd Hu (rest & Hacc & Hrest)] Hfin. rewrite Hfin in *. split; simpl; try done.
  - intros t body' Ht. by destruct (Hr t body' Ht).
  - by left.
  - exists rest. rewrite pushed_app. simpl in *. by rewrite <- app_assoc.
Qed.

Lemma drain_failed_ok s body e :
  sys_ok s -> s_finisher s = Some (FinishDrainSubmit body) ->
  sys_ok {| s_barrier := closeLocked (Some e) (s_barrier s); s_pushers := s_pushers s; s_finisher := None;
            s_log := s_log s; s_accepted := s_accepted s |}.
Proof.
  intros [Hb Hr Hd Hu (rest & Hacc & Hrest)] Hfin. rewrite Hfin in *. split; simpl; try done.
  - by apply closeLocked_ok.
  - intros t body' Ht. by destruct (Hr t body' Ht).
  - by rewrite closeLocked_closed.
  - exists (body :: rest). by rewrite closeLocked_closed.
Qed.

Lemma step_ok s s' : step s s' -> sys_ok s -> sys_ok s'.
Proof.
  intros Hs Hok. destruct Hs.
  - apply locked_step_ok; auto; [by apply begin_section_ok, Hok|].
    by destruct (begin_section_rest (s_barrier s)) as (-> & -> & ->).
  - by apply arrive_ok.
  - by apply ordered_ok.
  - by apply submitted_ok.
  - destruct Hok as [Hb Hr Hd Hu Hf]. split; simpl; try done.
    intros t' body' [_ Ht']%lookup_delete_Some. by apply (Hr t' body').
  - apply locked_step_ok; auto. apply Hok.
  - by apply reply_ok.
  - by apply drain_ok.
  - by apply drain_submitted_ok.
  - by eapply drain_failed_ok.
  - apply locked_step_ok; auto; unfold abort_section; destruct (b_closed (s_barrier s)) eqn:Hc.
    + apply Hok.
    + apply closeLocked_ok, Hok.
    + congruence.
    + by rewrite closeLocked_closed.
  - apply locked_step_ok; auto; [apply closeLocked_ok, Hok|]. by rewrite closeLocked_closed.
Qed.

Lemma reachable_ok maxCount maxBytes s : rtc step (initial maxCount maxBytes) s -> sys_ok s.
Proof.
  intros Hs. assert (H0 : sys_ok (initial maxCount maxBytes)) by apply initial_ok.
  induction Hs; [done|]. eauto using step_ok.
Qed.

(** Without interference a drain submits everything queued and opens the gate. *)
Lemma drain_completes s q :
  sys_ok s -> s_finisher s = Some FinishDrain -> b_closed (s_barrier s) = false ->
  b_queue (s_barrier s) = q ->
  exists s', rtc step s s' /\ s_finisher s' = None /\ b_queue (s_barrier s') = [] /\
    b_draining (s_barrier s') = false /\ b_active (s_barrier s') = 0 /\ b_closed (s_barrier s') = false /\
    s_log s' = s_log s ++ (Pushed <$> q).
Proof.
  revert s. induction q as [|x q IH]; intros s Hok Hfin Hc Hq;
    pose proof (so_drain _ Hok) as Hd; rewrite Hfin in Hd; destruct Hd as [Ha Hdr];
    pose proof (drain_section_spec _ (so_barrier _ Hok) Ha) as Hp;
    destruct (drain_section (s_barrier s)) as [body b] eqn:E; destruct Hp as (A & B & C & D).
  - destruct body as [x|]; [destruct D as (_ & _ & D); congruence|].
    eexists. split; [apply rtc_once; eapply step_drain; done|]. simpl. rewrite app_nil_r.
    destruct D as [D1 D2]. destruct (D2 Hc) as [_ ?]. by rewrite C.
  - destruct body as [y|]; [|destruct D as [_ D]; destruct (D Hc); congruence].
    destruct D as (D1 & _ & D3). rewrite Hq in D3. injection D3 as -> Hq'.
    pose proof (drain_ok s (Some y) b Hok Hfin E) as Hok1.
    pose proof (drain_submitted_ok _ y Hok1 eq_refl) as Hok2. simpl in Hok2.
    destruct (IH _ Hok2 eq_refl) as (s' & Hs & H1 & H2 & H3 & H4 & H5 & H6); [simpl; congruence|done|].
    exists s'. split_and!; try done.
    + eapply rtc_l; [by eapply step_drain|]. simpl. eapply rtc_l; [by eapply step_drain_submitted|done].
    + rewrite H6. simpl. by rewrite <- app_assoc.
Qed.

(** * Properties *)

(** C10. Order under every interleaving of begins, pushes, finishes, aborts and
    closes: what was pushed to the transport, what the drain holds and what
    is queued are together, in this order, exactly the accepted bodies in
    the order of acceptance, until the barrier closes; afterwards what was
    pushed is still a prefix of it. The queue respects both of its limits and
    its byte count is exact. *)
Theorem barrier_fifo maxCount maxBytes s :
  rtc step (initial maxCount maxBytes) s ->
  (exists rest, s_accepted s = pushed (s_log s) ++ in_flight (s_finisher s) ++ rest /\
     (b_closed (s_barrier s) = false -> rest = b_queue (s_barrier s))) /\
  b_queuedBytes (s_barrier s) = sumZ (len <$> b_queue (s_barrier s)) /\
  len (b_queue (s_barrier s)) <= Z.max 0 (b_maxCount (s_barrier s)) /\
  b_queuedBytes (s_barrier s) <= Z.max 0 (b_maxBytes (s_barrier s)).
Proof.
  intros Hs. apply reachable_ok in Hs. split; [apply Hs|]. destruct (so_barrier _ Hs). done.
Qed.

(** A begin, a push that arrives during it, the reply and the drain. *)
Lemma sample_run :
  exists s, rtc step (initial 4 100) s /\ s_log s = [Replied; Pushed [x01]] /\ s_accepted s = [[x01]].
Proof.
  eexists. split; [|split].
  - eapply rtc_l; [apply step_begin; [done|by intros t body]|]. simpl.
    eapply rtc_l; [apply (step_push_arrives _ 0%nat [x01]); [done|reflexivity]|]. simpl.
    eapply rtc_l; [apply step_finish; [done|by intros t body|done]|]. simpl.
    eapply rtc_l; [apply (step_reply _ None); [done|reflexivity]|]. simpl.
    eapply rtc_l; [eapply step_drain; [done|reflexivity]|]. simpl.
    eapply rtc_l; [by eapply step_drain_submitted|]. simpl. apply rtc_refl.
  - done.
  - done.
Qed.

Lemma barrier_fifo_witness :
  exists s, rtc step (initial 4 100) s /\ pushed (s_log s) = [[x01]] /\
    exists rest, s_accepted s = pushed (s_log s) ++ in_flight (s_finisher s) ++ rest.
Proof.
  destruct sample_run as (s & Hs & Hl & _). exists s. split; [exact Hs|].
  split; [rewrite Hl; reflexivity|].
  destruct (barrier_fifo 4 100 s Hs) as [(rest & H & _) _]. exists rest. exact H.
Defined.

(** The gate: no body reaches the transport, neither by a direct push nor by
    the drain, in a state where a protected request is unanswered. *)
Lemma barrier_gate maxCount maxBytes s s' :
  rtc step (initial maxCount maxBytes) s -> step s s' ->
  pushed (s_log s') <> pushed (s_log s) -> b_active (s_barrier s) = 0.
Proof.
  intros Hr Hs. apply reachable_ok in Hr as [_ Hread Hdrain _ _].
  destruct Hs; simpl; rewrite ?pushed_app; try done; intros Hne.
  - by destruct (Hread t body H) as (_ & _ & ? & _).
  - destruct replyErr; simpl in Hne; by rewrite app_nil_r in Hne.
  - rewrite H in Hdrain. apply Hdrain.
Qed.

Lemma barrier_gate_witness :
  b_active (s_barrier (initial 4 100)) = 0.
Proof.
  pose (s := {| s_barrier := newRecoveryPushBarrier 4 100; s_pushers := {[ 0%nat := PushSubmit [x01] ]};
                s_finisher := None; s_log := []; s_accepted := [] |}).
  apply (barrier_gate 4 100 s
    {| s_barrier := newRecoveryPushBarrier 4 100; s_pushers := delete 0%nat {[ 0%nat := PushSubmit [x01] ]};
       s_finisher := None; s_log := [Pushed [x01]]; s_accepted := [[x01]] |}).
  - eapply rtc_l; [apply (step_push_arrives _ 0%nat [x01] PushDirect (newRecoveryPushBarrier 4 100));
      reflexivity|].
    eapply rtc_l; [apply (step_push_ordered _ 0%nat [x01] PushDirect (newRecoveryPushBarrier 4 100));
      reflexivity|].
    apply rtc_refl.
  - apply (step_push_submitted s 0%nat [x01]). reflexivity.
  - discriminate.
Defined.

(** A drain that is not interfered with submits the whole queue in order,
    after the reply, and ends with the gate open. *)
Lemma barrier_drains maxCount maxBytes s :
  rtc step (initial maxCount maxBytes) s -> s_finisher s = Some FinishDrain ->
  b_closed (s_barrier s) = false ->
  exists s', rtc step s s' /\ s_finisher s' = None /\ b_queue (s_barrier s') = [] /\
    b_draining (s_barrier s') = false /\ b_active (s_barrier s') = 0 /\ b_closed (s_barrier s') = false /\
    s_log s' = s_log s ++ (Pushed <$> b_queue (s_barrier s)).
Proof. intros Hs Hf Hc. apply reachable_ok in Hs. by apply drain_completes. Qed.

Lemma barrier_drains_witness :
  exists s s', rtc step (initial 4 100) s /\ rtc step s s' /\ s_log s' = [Replied; Pushed [x01]].
Proof.
  assert (H : exists s, rtc step (initial 4 100) s /\ s_finisher s = Some FinishDrain /\
    b_closed (s_barrier s) = false /\ s_log s = [Replied] /\ b_queue (s_barrier s) = [[x01]]).
  { eexists. split; [|split; [|split; [|split]]].
    - eapply rtc_l; [apply step_begin; [done|by intros t body]|]. simpl.
      eapply rtc_l; [apply (step_push_arrives _ 0%nat [x01]); [done|reflexivity]|]. simpl.
      eapply rtc_l; [apply step_finish; [done|by intros t body|done]|]. simpl.
      eapply rtc_l; [apply (step_reply _ None); [done|reflexivity]|]. simpl. apply rtc_refl.
    - done.
    - done.
    - done.
    - done. }
  destruct H as (s & Hs & Hf & Hc & Hl & Hq).
  destruct (barrier_drains 4 100 s Hs Hf Hc) as (s' & Hs' & _ & _ & _ & _ & _ & Hlog).
  exists s, s'. split; [exact Hs|]. split; [exact Hs'|]. rewrite Hlog, Hl, Hq. reflexivity.
Defined.
