(* ===== verification/Framing.v ===== *)
(** Transport framing: the four packet codecs of transport/mtproto_codec and
    MTProtoConn's read loop over them. *)

From stdpp Require Import base numbers list gmap strings.
From S2P Require Import Prelude Wire.
Open Scope Z_scope.

Inductive codec_error :=
| ErrInvalidLength
| ErrPayloadTooLarge
| ErrQuickAck (token : Z)
| TransportError (Code : Z)
| ErrInvalidObfuscatedHeader
| ErrUnknownTag (tag : Z)
| ErrClientProtocol
| ErrRandom
| ErrRead (e : wire_error).

Abbreviation PR := (ST reader codec_error).

Definition read_full (n : nat) : PR bytes := fun r =>
  match ReadFull n r with
  | (Ok p, r') => (Ok p, r')
  | (Err e, r') => (Err (ErrRead e), r')
  end.

(** * Codecs *)

Definition MaxPacketPayloadBytes : Z := 2 ^ 24.

Definition checkedPayloadLength (declared maxPayloadBytes : Z) : result codec_error Z :=
  let limit := MaxPacketPayloadBytes in
  let limit := if (0 <? maxPayloadBytes) && (maxPayloadBytes <? limit) then maxPayloadBytes else limit in
  if declared =? 0 then Err ErrInvalidLength
  else if limit <? declared then Err ErrPayloadTooLarge
  else Ok declared.

Definition readTransportError (payload : bytes) : option codec_error :=
  if negb (len payload =? 4) then None
  else
    let code := int32 (le_get payload) in
    if 0 <=? code then None else Some (TransportError code).

Definition of_result {S A} (res : result codec_error A) : ST S codec_error A := fun s => (res, s).

(** The common end of the readers. *)
Definition deliver (payload : bytes) : PR bytes :=
  match readTransportError payload with Some e => st_err e | None => mret payload end.

Record Abridged := { ab_AllowQuickAckTokens : bool }.

(** The length in words, in its short or extended form. *)
Definition abridged_length (lengthByte : Z) : PR Z :=
  if lengthByte =? 0x7f then (ext ← read_full 3; mret (le_get ext))
  else mret (Z.land lengthByte 0x7f).

Definition Abridged_ReadPacket (a : Abridged) (maxPayloadBytes : Z) : PR bytes :=
  first ← read_full 1;
  let lengthByte := le_get first in
  if ab_AllowQuickAckTokens a && (lengthByte =? 0x80) then
    rest ← read_full 3;
    st_err (ErrQuickAck (le_get (first ++ rest)))
  else
    length ← abridged_length lengthByte;
    if length =? 0 then st_err ErrInvalidLength
    else
      payloadLen ← of_result (checkedPayloadLength (length * 4) maxPayloadBytes);
      payload ← read_full (Z.to_nat payloadLen);
      deliver payload.

Definition Abridged_WritePacket (payload : bytes) : result codec_error bytes :=
  let length := len payload in
  if negb (Z.rem length 4 =? 0) then Err ErrInvalidLength
  else
    let length := Z.quot length 4 in
    if length <? 0x7f then Ok ([bZ length] ++ payload)
    else Ok ([bZ 0x7f; bZ length; bZ (Z.shiftr length 8); bZ (Z.shiftr length 16)] ++ payload).

Definition AbridgedTag : Z := 0xEFEFEFEF.

Record Intermediate := { in_AllowQuickAckTokens : bool }.

Definition intermediateTag : Z := 0xEEEEEEEE.

Definition Intermediate_ReadPacket (i : Intermediate) (maxPayloadBytes : Z) : PR bytes :=
  header ← read_full 4;
  let length := le_get header in
  if negb (Z.land length 0x80000000 =? 0) && in_AllowQuickAckTokens i
  then st_err (ErrQuickAck (Z.land length 0x7fffffff))
  else
    payloadLen ← of_result (checkedPayloadLength length maxPayloadBytes);
    payload ← read_full (Z.to_nat payloadLen);
    deliver payload.

Definition Intermediate_WritePacket (payload : bytes) : result codec_error bytes :=
  Ok (le_put 4 (uint32 (len payload)) ++ payload).

Record PaddedIntermediate := { pi_AllowQuickAckTokens : bool }.

Definition paddedIntermediateTag : Z := 0xDDDDDDDD.

Definition PaddedIntermediate_ReadPacket (p : PaddedIntermediate) (maxPayloadBytes : Z) : PR bytes :=
  header ← read_full 4;
  let length := le_get header in
  if negb (Z.land length 0x80000000 =? 0) && pi_AllowQuickAckTokens p
  then st_err (ErrQuickAck (Z.land length 0x7fffffff))
  else if (length =? 0) || (MaxPacketPayloadBytes + 3 <? length) then
    if length =? 0 then st_err ErrInvalidLength else st_err ErrPayloadTooLarge
  else
    let effectiveLength := length - length mod 4 in
    _ ← of_result (checkedPayloadLength effectiveLength maxPayloadBytes);
    payload ← read_full (Z.to_nat length);
    let pad := Z.rem (len payload) 4 in
    deliver (if 0 <? pad then take (Z.to_nat (len payload - pad)) payload else payload).

Definition PaddedIntermediate_WritePacket (payload : bytes) : result codec_error bytes :=
  Ok (le_put 4 (uint32 (len payload)) ++ payload).

(** [hash/crc32] with the IEEE polynomial. *)
Fixpoint crc_bits (n : nat) (c : Z) : Z :=
  match n with
  | O => c
  | S n' => crc_bits n' (if Z.odd c then Z.lxor (Z.shiftr c 1) 0xEDB88320 else Z.shiftr c 1)
  end.

Definition crc_byte (c : Z) (b : byte) : Z := crc_bits 8 (Z.lxor c (Zb b)).

Definition crc32 (data : bytes) : Z := Z.lxor (foldl crc_byte 0xFFFFFFFF data) 0xFFFFFFFF.

Record Full := { fu_next : Z }.

Definition fullMinLen : Z := 12.

Definition Full_ReadPacket (maxPayloadBytes : Z) : PR bytes :=
  header ← read_full 8;
  let length := le_get (take 4 header) in
  if length <? fullMinLen then st_err ErrInvalidLength
  else
    payloadLen ← of_result (checkedPayloadLength (length - fullMinLen) maxPayloadBytes);
    payload ← read_full (Z.to_nat payloadLen);
    crcBuf ← read_full 4;
    if negb (crc32 (header ++ payload) =? le_get crcBuf) then st_err ErrInvalidLength
    else deliver payload.

Definition writeFullPacket (seqno : Z) (payload : bytes) : bytes :=
  let header := le_put 4 (uint32 (len payload + 12)) ++ le_put 4 seqno in
  header ++ payload ++ le_put 4 (crc32 (header ++ payload)).

Definition Full_WritePacket (payload : bytes) (f : Full) : result codec_error bytes * Full :=
  (Ok (writeFullPacket (fu_next f) payload), {| fu_next := uint32 (fu_next f + 1) |}).

(** * Codecs as the Codec interface *)

Inductive Codec :=
| CAbridged (a : Abridged)
| CIntermediate (i : Intermediate)
| CPadded (p : PaddedIntermediate)
| CFull (f : Full).

Definition ReadPacket (c : Codec) (maxPayloadBytes : Z) : PR bytes :=
  match c with
  | CAbridged a => Abridged_ReadPacket a maxPayloadBytes
  | CIntermediate i => Intermediate_ReadPacket i maxPayloadBytes
  | CPadded p => PaddedIntermediate_ReadPacket p maxPayloadBytes
  | CFull _ => Full_ReadPacket maxPayloadBytes
  end.

Definition WritePacket (payload : bytes) (c : Codec) : result codec_error bytes * Codec :=
  match c with
  | CAbridged a => (Abridged_WritePacket payload, c)
  | CIntermediate i => (Intermediate_WritePacket payload, c)
  | CPadded p => (PaddedIntermediate_WritePacket payload, c)
  | CFull f => let '(out, f) := Full_WritePacket payload f in (out, CFull f)
  end.

Definition ProtocolTag (c : Codec) : Z :=
  match c with
  | CAbridged _ => AbridgedTag
  | CIntermediate _ => intermediateTag
  | CPadded _ => paddedIntermediateTag
  | CFull _ => 0
  end.

(** MTProtoConn.ReadMessage: quick acks, at least four bytes each, are skipped. *)
Fixpoint readMessageLoop (fuel : nat) (c : Codec) (maxPayloadBytes : Z) : PR bytes := fun r =>
  match fuel with
  | O => (Err (ErrRead EOF), r)
  | S fuel =>
      match ReadPacket c maxPayloadBytes r with
      | (Err (ErrQuickAck _), r') => readMessageLoop fuel c maxPayloadBytes r'
      | res => res
      end
  end.

Definition ReadMessage (c : Codec) (maxPayloadBytes : Z) : PR bytes := fun r =>
  readMessageLoop (S (length (rd_data r))) c maxPayloadBytes r.

(** * Reading what was written *)

Definition takes {A} (m : PR A) (bs : bytes) (a : A) : Prop :=
  forall rest, m (Reader (bs ++ rest) None) = (Ok a, Reader rest None).

Lemma takes_read_full n bs : length bs = n -> takes (read_full n) bs bs.
Proof. intros Hn rest. unfold read_full. by rewrite (consumes_ReadFull n bs Hn rest None). Qed.

Lemma takes_bind {A B} (m : PR A) (f : A -> PR B) b1 b2 a b :
  takes m b1 a -> takes (f a) b2 b -> takes (m ≫= f) (b1 ++ b2) b.
Proof. intros H1 H2 rest. unfold mbind, ST_bind, st_bind. by rewrite <- app_assoc, H1, H2. Qed.

Lemma takes_step {A B} (m : PR A) (f : A -> PR B) bs a b :
  takes m [] a -> takes (f a) bs b -> takes (m ≫= f) bs b.
Proof. apply (takes_bind m f []). Qed.

Lemma takes_ret {A} (a : A) : takes (mret a) [] a.
Proof. by intros rest. Qed.

Definition fits_limit (mx n : Z) : Prop := 0 < n <= MaxPacketPayloadBytes /\ (mx <= 0 \/ n <= mx).

Lemma checked_ok mx n : fits_limit mx n -> checkedPayloadLength n mx = Ok n.
Proof.
  intros [[H0 H1] H2]. unfold checkedPayloadLength. rewrite (proj2 (Z.eqb_neq n 0)) by lia.
  destruct (Z.ltb_spec 0 mx), (Z.ltb_spec mx MaxPacketPayloadBytes); simpl;
    rewrite (proj2 (Z.ltb_ge _ _)) by lia; done.
Qed.

Lemma checked_inv mx n k : 0 <= n -> checkedPayloadLength n mx = Ok k -> k = n /\ fits_limit mx n.
Proof.
  intros Hn. unfold checkedPayloadLength. destruct (Z.eqb_spec n 0); [done|].
  destruct (Z.ltb_spec 0 mx), (Z.ltb_spec mx MaxPacketPayloadBytes); simpl;
    case_match; intros; simplify_eq; bools; unfold fits_limit; lia.
Qed.

Lemma takes_deliver payload : readTransportError payload = None -> takes (deliver payload) [] payload.
Proof. intros H rest. unfold deliver. by rewrite H. Qed.

(** The payload of a checked length, at the end of every reader. *)
Lemma takes_payload mx payload :
  fits_limit mx (len payload) -> readTransportError payload = None ->
  takes (payloadLen ← of_result (checkedPayloadLength (len payload) mx);
         p ← read_full (Z.to_nat payloadLen); deliver p) payload payload.
Proof.
  intros Hl He. apply (takes_step _ _ _ (len payload)).
  - intros rest. unfold of_result. by rewrite checked_ok.
  - rewrite <- (app_nil_r payload) at 2. eapply takes_bind; [|by apply takes_deliver].
    apply takes_read_full. unfold len. by rewrite Nat2Z.id.
Qed.

(** A packet every codec can carry: non-empty, aligned, not a transport error. *)
Definition packet_ok (mx : Z) (payload : bytes) : Prop :=
  fits_limit mx (len payload) /\ len payload mod 4 = 0 /\ readTransportError payload = None.

Lemma le_get_1 b : le_get [b] = Zb b.
Proof. simpl. lia. Qed.

Lemma takes_header n v m bs (p : bytes) :
  0 <= v < 256 ^ Z.of_nat n -> takes (m v) bs p ->
  takes (header ← read_full n; m (le_get header)) (le_put n v ++ bs) p.
Proof.
  intros Hv Hm. eapply takes_bind; [apply takes_read_full, le_put_length|].
  rewrite le_get_put, Z.mod_small by done. exact Hm.
Qed.

Lemma high_bit_clear n : 0 <= n < 2 ^ 31 -> Z.land n 0x80000000 = 0.
Proof.
  intros Hn. change 0x80000000 with (2 ^ 31). apply Z.bits_inj'. intros i Hi.
  rewrite Z.land_spec, Z.bits_0, Z.pow2_bits_eqb by lia. destruct (Z.eqb_spec 31 i) as [<-|]; [|apply andb_false_r].
  assert (Z.testbit n 31 = false) as -> by (apply Z.testbit_false; [lia|]; by rewrite Z.div_small by lia).
  done.
Qed.

Lemma takes_Intermediate i mx payload :
  packet_ok mx payload ->
  takes (Intermediate_ReadPacket i mx) (le_put 4 (uint32 (len payload)) ++ payload) payload.
Proof.
  intros (Hl & Ha & He). pose proof Hl as [[? ?] ?]. unfold MaxPacketPayloadBytes in *.
  rewrite (wrapU_id 32) by (unfold inU; lia).
  apply (takes_header 4 (len payload) (fun length => if negb (Z.land length 0x80000000 =? 0) && in_AllowQuickAckTokens i
    then st_err (ErrQuickAck (Z.land length 0x7fffffff))
    else payloadLen ← of_result (checkedPayloadLength length mx);
         payload ← read_full (Z.to_nat payloadLen); deliver payload)); [lia|].
  rewrite high_bit_clear by lia. simpl. by apply takes_payload.
Qed.

Lemma takes_Padded p mx payload :
  packet_ok mx payload ->
  takes (PaddedIntermediate_ReadPacket p mx) (le_put 4 (uint32 (len payload)) ++ payload) payload.
Proof.
  intros (Hl & Ha & He). pose proof Hl as [[? ?] ?]. unfold MaxPacketPayloadBytes in *.
  rewrite (wrapU_id 32) by (unfold inU; lia). unfold PaddedIntermediate_ReadPacket.
  eapply takes_bind; [apply takes_read_full, le_put_length|].
  rewrite le_get_put, Z.mod_small by lia. cbv zeta. rewrite high_bit_clear by lia. simpl.
  rewrite (proj2 (Z.eqb_neq _ 0)), (proj2 (Z.ltb_ge _ _)) by (unfold MaxPacketPayloadBytes; lia). simpl.
  rewrite Ha, Z.sub_0_r. apply (takes_step _ _ _ (len payload)).
  { intros rest. unfold of_result. by rewrite checked_ok. }
  rewrite <- (app_nil_r payload) at 2. eapply takes_bind.
  { apply takes_read_full. unfold len. by rewrite Nat2Z.id. }
  rewrite Z.rem_mod_nonneg, Ha by lia. simpl. by apply takes_deliver.
Qed.

Lemma takes_Abridged a mx payload bs :
  packet_ok mx payload -> Abridged_WritePacket payload = Ok bs -> takes (Abridged_ReadPacket a mx) bs payload.
Proof.
  intros (Hl & Ha & He). pose proof Hl as [[? ?] ?]. unfold MaxPacketPayloadBytes in *.
  unfold Abridged_WritePacket. rewrite Z.rem_mod_nonneg, Ha, Z.quot_div_nonneg by lia. simpl.
  assert (Hq : len payload / 4 * 4 = len payload) by (Z.to_euclidean_division_equations; lia).
  set (q := len payload / 4) in *. destruct (Z.ltb_spec q 127); intros Heq; simplify_eq;
    unfold Abridged_ReadPacket.
  - eapply (takes_bind _ _ [bZ q]); [by apply takes_read_full|].
    rewrite le_get_1, Zb_bZ, Z.mod_small by lia. cbv zeta.
    rewrite (proj2 (Z.eqb_neq q 0x80)), andb_false_r by lia.
    apply (takes_step _ _ _ q).
    { unfold abridged_length. rewrite (proj2 (Z.eqb_neq q 0x7f)) by lia. replace (Z.land q 127) with q; [apply takes_ret|]. change 127 with (Z.ones 7).
      rewrite Z.land_ones, Z.mod_small by lia. done. }
    rewrite (proj2 (Z.eqb_neq q 0)), Hq by lia. by apply takes_payload.
  - change (?a :: ?b :: ?c :: ?d :: payload) with ([a] ++ [b; c; d] ++ payload).
    eapply takes_bind; [by apply takes_read_full|]. rewrite le_get_1, Zb_bZ. cbv zeta.
    change (127 mod 256 =? 128) with false. rewrite andb_false_r.
    apply (takes_bind _ _ [_; _; _] payload q).
    + unfold abridged_length. change (127 mod 256 =? 127) with true. rewrite (Z.shiftr_div_pow2 _ 8), (Z.shiftr_div_pow2 _ 16) by lia.
      change (2 ^ 16) with (256 * 256). rewrite <- Z.div_div by lia.
      change [bZ q; bZ (q / 2 ^ 8); bZ (q / 256 / 256)] with (le_put 3 q).
      replace q with (le_get (le_put 3 q)) at 2 by (rewrite le_get_put, Z.mod_small by lia; done).
      rewrite <- (app_nil_r (le_put 3 q)) at 1.
      eapply takes_bind; [apply takes_read_full, le_put_length|apply takes_ret].
    + rewrite (proj2 (Z.eqb_neq q 0)), Hq by lia. by apply takes_payload.
Qed.

Lemma crc_bits_range n c : 0 <= c < 2 ^ 32 -> 0 <= crc_bits n c < 2 ^ 32.
Proof.
  revert c. induction n as [|n IH]; intros c Hc; simpl; [done|]. apply IH.
  assert (Hs : 0 <= Z.shiftr c 1 < 2 ^ 31).
  { rewrite Z.shiftr_div_pow2 by lia. change (2 ^ 1) with 2. Z.to_euclidean_division_equations; lia. }
  destruct (Z.odd c); [|lia]. apply lxor_range; lia.
Qed.

Lemma crc32_range data : 0 <= crc32 data < 2 ^ 32.
Proof.
  unfold crc32. apply lxor_range; [lia| |lia].
  assert (H : forall c, 0 <= c < 2 ^ 32 -> 0 <= foldl crc_byte c data < 2 ^ 32); [|apply H; lia].
  induction data as [|b data IH]; intros c Hc; simpl; [done|]. apply IH, crc_bits_range, lxor_range; [lia|done|].
  pose proof (Zb_range b). lia.
Qed.

Lemma takes_Full mx seqno payload :
  packet_ok mx payload -> takes (Full_ReadPacket mx) (writeFullPacket seqno payload) payload.
Proof.
  intros (Hl & Ha & He). pose proof Hl as [[? ?] ?]. unfold MaxPacketPayloadBytes in *.
  unfold writeFullPacket. cbv zeta. rewrite (wrapU_id 32) by (unfold inU; lia).
  set (header := le_put 4 (len payload + 12) ++ le_put 4 seqno). unfold Full_ReadPacket.
  eapply takes_bind; [by apply takes_read_full|]. cbv zeta.
  assert (take 4 header = le_put 4 (len payload + 12)) as -> by by apply take_app_length'.
  rewrite le_get_put, Z.mod_small by lia. unfold fullMinLen. rewrite (proj2 (Z.ltb_ge _ _)) by lia.
  replace (len payload + 12 - 12) with (len payload) by lia.
  apply (takes_step _ _ _ (len payload)).
  { intros rest. unfold of_result. by rewrite checked_ok. }
  eapply takes_bind; [apply takes_read_full; unfold len; by rewrite Nat2Z.id|].
  rewrite <- (app_nil_r (le_put 4 _)). eapply takes_bind; [apply takes_read_full, le_put_length|].
  rewrite le_get_put, Z.mod_small by apply crc32_range. rewrite Z.eqb_refl. simpl. by apply takes_deliver.
Qed.

(** * Bounds on what is read *)

Lemma read_full_inv n r p r' :
  read_full n r = (Ok p, r') -> length p = n /\ rd_data r = p ++ rd_data r'.
Proof.
  unfold read_full. rewrite ReadFull_closed. cbv zeta. intros H.
  destruct (Nat.eqb_spec (deliverable n r) n) as [E|E]; [|done]. injection H as <- <-.
  assert (n <= length (rd_data r))%nat by (unfold deliverable in E; destruct (rd_budget r); lia).
  split; [rewrite length_take; lia|]. simpl. by rewrite take_drop.
Qed.

Lemma deliver_inv p r q r' : deliver p r = (Ok q, r') -> q = p /\ r' = r.
Proof.
  unfold deliver, st_err, mret, ST_ret, st_ret. destruct (readTransportError p); intros H; by simplify_eq.
Qed.

(** The common end of the readers delivers the checked number of bytes. *)
Lemma payload_inv mx n r p r' :
  0 <= n ->
  (payloadLen ← of_result (checkedPayloadLength n mx);
   p ← read_full (Z.to_nat payloadLen); deliver p) r = (Ok p, r') ->
  len p = n /\ fits_limit mx n.
Proof.
  intros Hn. unfold mbind, ST_bind, st_bind, of_result.
  destruct (checkedPayloadLength n mx) as [k|] eqn:E; [|done].
  apply checked_inv in E as [-> Hf]; [|done].
  destruct (read_full (Z.to_nat n) r) as [[q|] r1] eqn:Er; [|done].
  apply read_full_inv in Er as [Hl _]. intros [-> _]%deliver_inv. split; [unfold len; lia|done].
Qed.

Lemma ReadPacket_bounded c mx r p r' :
  ReadPacket c mx r = (Ok p, r') -> fits_limit mx (len p).
Proof.
  assert (Hget : forall h, 0 <= le_get h) by (intros h; pose proof (le_get_range h); lia).
  assert (Hfin : forall n r p r', 0 <= n ->
    (payloadLen ← of_result (checkedPayloadLength n mx);
     p ← read_full (Z.to_nat payloadLen); deliver p) r = (Ok p, r') -> fits_limit mx (len p)).
  { intros n r0 p0 r0' Hn H. by destruct (payload_inv _ _ _ _ _ Hn H) as [-> ?]. }
  destruct c as [a|i|q|f]; simpl; intros H.
  - unfold Abridged_ReadPacket in H. unfold mbind at 1, ST_bind at 1, st_bind at 1 in H.
    destruct (read_full 1 r) as [[h|] r1]; [|done]. cbv zeta in H. destruct (_ && _).
    { unfold mbind, ST_bind, st_bind in H. by destruct (read_full 3 r1) as [[]?]. }
    unfold mbind at 1, ST_bind at 1, st_bind at 1 in H.
    destruct (abridged_length (le_get h) r1) as [[n|] r2] eqn:E; [|done].
    destruct (n =? 0); [done|]. refine (Hfin (n * 4) _ _ _ _ H). apply Z.mul_nonneg_nonneg; [|lia].
    unfold abridged_length in E. destruct (_ =? 127).
    + unfold mbind, ST_bind, st_bind in E. destruct (read_full 3 r1) as [[e|]?]; [|done]. by injection E as <- _.
    + injection E as <- _. by apply Z.land_nonneg; left.
  - unfold Intermediate_ReadPacket in H. unfold mbind at 1, ST_bind at 1, st_bind at 1 in H.
    destruct (read_full 4 r) as [[h|] r1]; [|done]. cbv zeta in H. destruct (_ && _); [done|].
    by refine (Hfin _ _ _ _ _ H).
  - unfold PaddedIntermediate_ReadPacket in H. unfold mbind, ST_bind, st_bind, of_result in H.
    destruct (read_full 4 r) as [[h|] r1]; [|done]. destruct (_ && _); [done|].
    destruct (_ || _); [by destruct (_ =? 0)|].
    assert (Hmod : 0 <= le_get h - le_get h mod 4).
    { specialize (Hget h). Z.to_euclidean_division_equations; lia. }
    destruct (checkedPayloadLength _ mx) as [k|] eqn:E; [|done]. apply checked_inv in E as [_ Hf]; [|done].
    destruct (read_full _ r1) as [[x|] r2] eqn:Er; [|done]. apply read_full_inv in Er as [Hl _].
    apply deliver_inv in H as [-> _]. specialize (Hget h).
    assert (Hx : len x = le_get h) by (unfold len; lia). rewrite Z.rem_mod_nonneg by lia.
    replace (len _) with (le_get h - le_get h mod 4); [done|]. rewrite Hx.
    destruct (Z.ltb_spec 0 (le_get h mod 4)).
    + unfold len in *. rewrite length_take. lia.
    + rewrite Hx. pose proof (Z.mod_pos_bound (le_get h) 4). lia.
  - unfold Full_ReadPacket in H. unfold mbind, ST_bind, st_bind, of_result in H.
    destruct (read_full 8 r) as [[h|] r1]; [|done]. unfold fullMinLen in H. case_match eqn:El; [done|]. bools.
    destruct (checkedPayloadLength _ mx) as [k|] eqn:E; [|done]. apply checked_inv in E as [-> Hf]; [|lia].
    destruct (read_full _ r1) as [[x|] r2] eqn:Er; [|done]. apply read_full_inv in Er as [Hl _].
    destruct (read_full 4 r2) as [[y|] r3]; [|done]. case_match; [done|].
    apply deliver_inv in H as [-> _]. replace (len x) with (le_get (take 4 h) - 12); [done|]. unfold len. lia.
Qed.

(** ** The read loop *)

(** A quick ack is at least four bytes of input. *)
Lemma quick_ack_consumes c mx r tok r' :
  ReadPacket c mx r = (Err (ErrQuickAck tok), r') -> (length (rd_data r') < length (rd_data r))%nat.
Proof.
  assert (Hnot : forall n s q s', read_full n s <> (Err (ErrQuickAck q), s')).
  { intros n s q s'. unfold read_full. by destruct (ReadFull n s) as [[]?]. }
  assert (Hck : forall n q, checkedPayloadLength n mx <> Err (ErrQuickAck q)).
  { intros n q. unfold checkedPayloadLength. by repeat case_match. }
  assert (Hdl : forall p s q s', deliver p s <> (Err (ErrQuickAck q), s')).
  { intros p s q s'. unfold deliver, readTransportError. by repeat case_match; simplify_eq. }
  assert (Hfin : forall n s q s', (payloadLen ← of_result (checkedPayloadLength n mx);
     p ← read_full (Z.to_nat payloadLen); deliver p) s <> (Err (ErrQuickAck q), s')).
  { intros n s q s'. unfold mbind, ST_bind, st_bind, of_result.
    pose proof (Hck n q). destruct (checkedPayloadLength n mx) as [k|]; [|congruence].
    pose proof (Hnot (Z.to_nat k) s q). destruct (read_full (Z.to_nat k) s) as [[p|]?]; [apply Hdl|congruence]. }
  destruct c as [a|i|p|f]; simpl; intros H.
  - unfold Abridged_ReadPacket in H. unfold mbind at 1, ST_bind at 1, st_bind at 1 in H.
    destruct (read_full 1 r) as [[h|] r1] eqn:E1; [|by apply Hnot in E1 || (simplify_eq; by apply Hnot in E1)].
    apply read_full_inv in E1 as [Hl1 Hd1]. cbv zeta in H. destruct (_ && _).
    + unfold mbind, ST_bind, st_bind in H. destruct (read_full 3 r1) as [[x|] r2] eqn:E2.
      * apply read_full_inv in E2 as [Hl2 Hd2]. injection H as _ <-. rewrite Hd1, Hd2, !length_app. lia.
      * injection H as -> <-. by apply Hnot in E2.
    + exfalso. unfold mbind at 1, ST_bind at 1, st_bind at 1 in H.
      destruct (abridged_length (le_get h) r1) as [[n|e] r2] eqn:E.
      * destruct (n =? 0); [done|]. by apply Hfin in H.
      * injection H as -> <-. unfold abridged_length in E. destruct (_ =? 127); [|done]. unfold mbind, ST_bind, st_bind in E.
        destruct (read_full 3 r1) as [[]?] eqn:E2; [done|]. injection E as -> <-. by apply Hnot in E2.
  - unfold Intermediate_ReadPacket in H. unfold mbind at 1, ST_bind at 1, st_bind at 1 in H.
    destruct (read_full 4 r) as [[h|] r1] eqn:E1; [|injection H as -> <-; by apply Hnot in E1].
    apply read_full_inv in E1 as [Hl1 Hd1]. cbv zeta in H. destruct (_ && _); [|by apply Hfin in H].
    injection H as _ <-. rewrite Hd1, length_app. lia.
  - unfold PaddedIntermediate_ReadPacket in H. unfold mbind, ST_bind, st_bind, of_result in H.
    destruct (read_full 4 r) as [[h|] r1] eqn:E1; [|injection H as -> <-; by apply Hnot in E1].
    apply read_full_inv in E1 as [Hl1 Hd1]. destruct (_ && _).
    { injection H as _ <-. rewrite Hd1, length_app. lia. }
    exfalso. destruct (_ || _); [by destruct (_ =? 0)|].
    destruct (checkedPayloadLength _ mx) as [k|] eqn:E; [|injection H as -> _; by apply Hck in E].
    destruct (read_full _ r1) as [[x|] r2] eqn:E2; [by apply Hdl in H|injection H as -> <-; by apply Hnot in E2].
  - exfalso. unfold Full_ReadPacket in H. unfold mbind, ST_bind, st_bind, of_result in H.
    destruct (read_full 8 r) as [[h|] r1] eqn:E1; [|injection H as -> <-; by apply Hnot in E1].
    case_match; [done|]. destruct (checkedPayloadLength _ mx) as [k|] eqn:E; [|injection H as -> _; by apply Hck in E].
    destruct (read_full _ r1) as [[x|] r2] eqn:E2; [|injection H as -> <-; by apply Hnot in E2].
    destruct (read_full 4 r2) as [[y|] r3] eqn:E3; [|injection H as -> <-; by apply Hnot in E3].
    case_match; [done|]. by apply Hdl in H.
Qed.

Lemma readMessageLoop_fuel f1 f2 c mx r :
  (length (rd_data r) < f1)%nat -> (length (rd_data r) < f2)%nat ->
  readMessageLoop f1 c mx r = readMessageLoop f2 c mx r.
Proof.
  revert f2 r. induction f1 as [|f1 IH]; intros [|f2] r H1 H2; try lia. cbn [readMessageLoop].
  destruct (ReadPacket c mx r) as [[p|e] r'] eqn:E; [done|]. destruct e; try done.
  apply quick_ack_consumes in E. apply IH; lia.
Qed.

(** The loop's own equation: no round is cut short. *)
Lemma ReadMessage_unfold c mx r :
  ReadMessage c mx r =
  match ReadPacket c mx r with
  | (Err (ErrQuickAck _), r') => ReadMessage c mx r'
  | res => res
  end.
Proof.
  unfold ReadMessage at 1. cbn [readMessageLoop].
  destruct (ReadPacket c mx r) as [[p|e] r'] eqn:E; [done|]. destruct e; try done.
  apply quick_ack_consumes in E. unfold ReadMessage. apply readMessageLoop_fuel; lia.
Qed.

Lemma ReadMessage_result c mx r : forall res r',
  ReadMessage c mx r = (res, r') ->
  match res with
  | Ok p => fits_limit mx (len p)
  | Err e => forall tok, e <> ErrQuickAck tok
  end.
Proof.
  remember (length (rd_data r)) as n eqn:Hn. revert r Hn.
  induction (lt_wf n) as [n _ IH]. intros r -> res r'. rewrite ReadMessage_unfold.
  destruct (ReadPacket c mx r) as [[p|e] r1] eqn:E.
  - intros [= <- <-]. by eapply ReadPacket_bounded.
  - destruct e; try (by intros [= <- <-]). apply quick_ack_consumes in E. by eapply IH.
Qed.

(** A packet that reads in one round is what the loop returns. *)
Lemma ReadMessage_takes c mx bs p : takes (ReadPacket c mx) bs p -> takes (ReadMessage c mx) bs p.
Proof. intros Ht rest. by rewrite ReadMessage_unfold, Ht. Qed.

Lemma same_tag_takes wc rc mx payload bs c' :
  packet_ok mx payload -> ProtocolTag rc = ProtocolTag wc -> WritePacket payload wc = (Ok bs, c') ->
  takes (ReadPacket rc mx) bs payload.
Proof.
  intros Hok Ht. destruct wc, rc; simpl in *; try discriminate Ht; intros Hw; simplify_eq.
  - by eapply takes_Abridged.
  - injection H as <-. by apply takes_Intermediate.
  - injection H as <-. by apply takes_Padded.
  - by apply takes_Full.
Qed.

Lemma WritePacket_total mx payload c :
  packet_ok mx payload -> exists bs c', WritePacket payload c = (Ok bs, c') /\ ProtocolTag c' = ProtocolTag c.
Proof.
  intros (_ & Ha & _). destruct c; simpl; [|by eauto..].
  unfold Abridged_WritePacket. pose proof (len_nonneg payload).
  rewrite Z.rem_mod_nonneg, Ha by lia. simpl. case_match; eauto.
Qed.

(** * The codecs' contract *)

(** Every codec carries every packet: a non-empty, four-byte aligned payload
    within the reader's limit that is not a transport error code is written
    without error, and a reader of the same protocol reads back exactly that
    payload and leaves whatever follows it in the stream, whatever the writer's
    sequence number and the two sides' quick-ack settings. *)
Lemma codec_roundtrip (wc rc : Codec) (mx : Z) (payload rest : bytes) :
  packet_ok mx payload -> ProtocolTag rc = ProtocolTag wc ->
  exists bs wc',
    WritePacket payload wc = (Ok bs, wc') /\ ProtocolTag wc' = ProtocolTag wc /\
    ReadPacket rc mx (Reader (bs ++ rest) None) = (Ok payload, Reader rest None).
Proof.
  intros Hok Ht. destruct (WritePacket_total mx payload wc Hok) as (bs & wc' & Hw & Ht').
  exists bs, wc'. split_and!; [done..|]. by eapply same_tag_takes.
Qed.

Lemma codec_roundtrip_witness :
  packet_ok 64 (replicate 8 x2a) /\
  exists bs wc',
    WritePacket (replicate 8 x2a) (CFull {| fu_next := 5 |}) = (Ok bs, wc') /\ ProtocolTag wc' = 0 /\
    ReadPacket (CFull {| fu_next := 0 |}) 64 (Reader (bs ++ [x01]) None) = (Ok (replicate 8 x2a), Reader [x01] None).
Proof.
  assert (Hok : packet_ok 64 (replicate 8 x2a)).
  { split_and!; [|reflexivity..]. split; [split; by vm_compute|right; by vm_compute]. }
  split; [exact Hok|].
  exact (codec_roundtrip (CFull {| fu_next := 5 |}) (CFull {| fu_next := 0 |}) 64 (replicate 8 x2a) [x01] Hok eq_refl).
Defined.

(** MTProtoConn.ReadMessage terminates on every input with the loop's own
    meaning: it is the next packet, quick acks skipped; it never returns a quick
    ack, and a payload it returns has between one byte and the smaller of the
    caller's limit and 16 MiB. *)
Lemma ReadMessage_skips_acks (c : Codec) (mx : Z) (r : reader) :
  ReadMessage c mx r =
    match ReadPacket c mx r with
    | (Err (ErrQuickAck _), r') => ReadMessage c mx r'
    | res => res
    end /\
  (forall p r', ReadMessage c mx r = (Ok p, r') -> 0 < len p <= 2 ^ 24 /\ (0 < mx -> len p <= mx)) /\
  (forall tok r', ReadMessage c mx r <> (Err (ErrQuickAck tok), r')).
Proof.
  split_and!.
  - apply ReadMessage_unfold.
  - intros p r' Hr. apply ReadMessage_result in Hr as [H1 H2]. unfold MaxPacketPayloadBytes in H1. lia.
  - intros tok r' Hr. apply ReadMessage_result in Hr. by apply (Hr tok).
Qed.
