(* ===== verification/Negotiation.v ===== *)
(** Transport negotiation: transport/negotiator.go, the obfuscated handshake of
    transport/obfuscated2.go and MTProtoConn (transport/mtproto_conn.go) over them.

    AES-CTR and SHA-256 are code outside the repository: the section
    [obfuscation] takes the key stream (key, IV and position give a byte) and the
    hash as parameters, and the theorems hold for all of them.  The connection's
    buffered reader and writer are the bytes still to read and the bytes flushed. *)

From stdpp Require Import base numbers list gmap strings.
From S2P Require Import Prelude Wire Framing.
Open Scope Z_scope.

Inductive Protocol :=
| ProtocolUnknown | ProtocolAbridged | ProtocolIntermediate | ProtocolPaddedIntermediate | ProtocolFull.

Record NegotiatorConfig := {
  AllowObfuscation : bool;
  RequireObfuscation : bool;
  Secret : bytes;
  ConfigProtocol : Protocol
}.

Definition disallowedPrefixes : list Z :=
  [0x44414548; 0x54534f50; 0x20544547; 0x4954504f; 0xEEEEEEEE; 0xDDDDDDDD; 0x02010316; 0x00000000].

(** [b[i]], with the slice long enough. *)
Definition byte_at (b : bytes) (i : nat) : Z := default 0 (Zb <$> b !! i).

Definition isDisallowedHeader (header : bytes) : bool :=
  if len header <? 4 then true
  else if existsb (fun d => le_get (take 4 header) =? d) disallowedPrefixes then true
  else if byte_at header 0 =? 0xef then true
  else (8 <=? len header) && (byte_at header 4 =? 0) && (byte_at header 5 =? 0) &&
       (byte_at header 6 =? 0) && (byte_at header 7 =? 0).

(** [copy(b[i:], v)] with [b] long enough. *)
Definition splice (b : bytes) (i : nat) (v : bytes) : bytes := take i b ++ v ++ drop (i + length v) b.

(** A CTR stream is its key, IV and position. *)
Record Stream := CTR { str_key : bytes; str_iv : bytes; str_pos : nat }.

Record ObfuscatedStreams := { os_Encrypt : Stream; os_Decrypt : Stream; os_Tag : Z }.

Definition codecFromTag (tag : Z) : result codec_error Codec :=
  if tag =? intermediateTag then Ok (CIntermediate {| in_AllowQuickAckTokens := false |})
  else if tag =? paddedIntermediateTag then Ok (CPadded {| pi_AllowQuickAckTokens := false |})
  else if tag =? AbridgedTag then Ok (CAbridged {| ab_AllowQuickAckTokens := false |})
  else Err (ErrUnknownTag tag).

Definition isPlausibleFullLength (length : Z) : bool := (12 <=? length) && (length <=? 2 ^ 24).

Section obfuscation.
Context (keystream : bytes -> bytes -> nat -> byte) (sha256 : bytes -> bytes).

Fixpoint xor_at (s : Stream) (i : nat) (data : bytes) : bytes :=
  match data with
  | [] => []
  | b :: data' => xor_byte b (keystream (str_key s) (str_iv s) i) :: xor_at s (S i) data'
  end.

Definition XORKeyStream (data : bytes) (s : Stream) : bytes * Stream :=
  (xor_at s (str_pos s) data, CTR (str_key s) (str_iv s) (str_pos s + length data)).

Definition applySecret (key secret : bytes) : bytes :=
  if len secret =? 0 then key else take 32 (sha256 (key ++ secret)).

(** [aes.NewCipher] takes 16, 24 or 32 bytes; every key here has 32. *)
Definition newCTR (key iv : bytes) : Stream := CTR key iv 0.

(** The retry loop over [rand.Read]: the first allowed of the headers drawn;
    running out of draws is [rand.Read] failing. *)
Definition pick_init (draws : list bytes) : option bytes :=
  find (fun init => negb (isDisallowedHeader init)) draws.

Definition NewClientObfuscated (tag : Z) (secret : bytes) (draws : list bytes)
  : result codec_error (bytes * ObfuscatedStreams) :=
  match pick_init draws with
  | None => Err ErrRandom
  | Some init =>
      let init := splice init 56 (le_put 4 tag) in
      let encrypt := newCTR (applySecret (slice init 8 40) secret) (slice init 40 56) in
      let decrypt := newCTR (applySecret (slice (rev init) 8 40) secret) (slice (rev init) 40 56) in
      let '(encryptedInit, encrypt) := XORKeyStream init encrypt in
      Ok (splice init 56 (slice encryptedInit 56 64),
          {| os_Encrypt := encrypt; os_Decrypt := decrypt; os_Tag := tag |})
  end.

Definition NewServerObfuscated (header secret : bytes) : result codec_error ObfuscatedStreams :=
  if negb (len header =? 64) then Err ErrInvalidObfuscatedHeader
  else if isDisallowedHeader header then Err ErrInvalidObfuscatedHeader
  else
    let decrypt := newCTR (applySecret (slice header 8 40) secret) (slice header 40 56) in
    let encrypt := newCTR (applySecret (slice (rev header) 8 40) secret) (slice (rev header) 40 56) in
    let '(plain, decrypt) := XORKeyStream header decrypt in
    Ok {| os_Encrypt := encrypt; os_Decrypt := decrypt; os_Tag := le_get (slice plain 56 60) |}.

(** The stream a negotiation settles on: plain, or obfuscated with its state. *)
Definition acceptObfuscated (secret : bytes) : PR (Codec * option ObfuscatedStreams) :=
  init ← read_full 64;
  streams ← of_result (NewServerObfuscated init secret);
  codec ← of_result (codecFromTag (os_Tag streams));
  mret (codec, Some streams).

Definition tryObfuscated (secret : bytes) : PR (Codec * option ObfuscatedStreams) :=
  init ← read_full 64;
  streams ← of_result (NewServerObfuscated init secret);
  codec ← of_result (codecFromTag (os_Tag streams));
  mret (codec, Some streams).

(** [bufio.Reader.Peek(4)], which consumes nothing. *)
Definition peek4 : PR bytes := fun r =>
  if len (rd_data r) <? 4 then (Err (ErrRead EOF), r) else (Ok (take 4 (rd_data r)), r).

Definition discard (n : nat) : PR unit := fun r => (Ok tt, Reader (drop n (rd_data r)) (rd_budget r)).

Definition Negotiate (config : NegotiatorConfig) : PR (Codec * option ObfuscatedStreams) :=
  if RequireObfuscation config then acceptObfuscated (Secret config)
  else
    peek ← peek4;
    if byte_at peek 0 =? 0xEF then
      _ ← discard 1; mret (CAbridged {| ab_AllowQuickAckTokens := false |}, None)
    else
      let sig := le_get peek in
      if sig =? intermediateTag then
        _ ← discard 4; mret (CIntermediate {| in_AllowQuickAckTokens := false |}, None)
      else if sig =? paddedIntermediateTag then
        _ ← discard 4; mret (CPadded {| pi_AllowQuickAckTokens := false |}, None)
      else if isPlausibleFullLength sig then mret (CFull {| fu_next := 0 |}, None)
      else if AllowObfuscation config then tryObfuscated (Secret config)
      else st_err ErrInvalidObfuscatedHeader.

(** The bytes a client sends first, its codec and streams. *)
Definition ClientNegotiate (config : NegotiatorConfig) (draws : list bytes)
  : result codec_error (bytes * Codec * option ObfuscatedStreams) :=
  let obfuscated tag :=
    hs ← NewClientObfuscated tag (Secret config) draws;
    codec ← codecFromTag tag;
    mret (hs.1, codec, Some hs.2) in
  match ConfigProtocol config with
  | ProtocolUnknown => Err ErrClientProtocol
  | protocol =>
      if RequireObfuscation config || AllowObfuscation config then
        match protocol with
        | ProtocolAbridged => obfuscated AbridgedTag
        | ProtocolIntermediate => obfuscated intermediateTag
        | ProtocolPaddedIntermediate => obfuscated paddedIntermediateTag
        | _ => Err ErrClientProtocol
        end
      else
        match protocol with
        | ProtocolAbridged => Ok ([bZ 0xEF], CAbridged {| ab_AllowQuickAckTokens := false |}, None)
        | ProtocolIntermediate =>
            Ok (replicate 4 (bZ 0xEE), CIntermediate {| in_AllowQuickAckTokens := false |}, None)
        | ProtocolPaddedIntermediate =>
            Ok (replicate 4 (bZ 0xDD), CPadded {| pi_AllowQuickAckTokens := false |}, None)
        | ProtocolFull => Ok ([], CFull {| fu_next := 0 |}, None)
        | ProtocolUnknown => Err ErrClientProtocol
        end
  end.

(** * The connection *)

Record MTProtoConn := {
  c_config : NegotiatorConfig;
  c_isClient : bool;
  c_draws : list bytes;
  c_br : bytes;
  c_flushed : bytes;
  c_codec : option Codec;
  c_streams : option ObfuscatedStreams
}.

Definition NewMTProtoConn (config : NegotiatorConfig) (br : bytes) : MTProtoConn :=
  {| c_config := config; c_isClient := false; c_draws := []; c_br := br; c_flushed := [];
     c_codec := None; c_streams := None |}.

Definition NewClientMTProtoConn (config : NegotiatorConfig) (draws : list bytes) : MTProtoConn :=
  {| c_config := config; c_isClient := true; c_draws := draws; c_br := []; c_flushed := [];
     c_codec := None; c_streams := None |}.

Definition set_br (br : bytes) (c : MTProtoConn) : MTProtoConn :=
  {| c_config := c_config c; c_isClient := c_isClient c; c_draws := c_draws c; c_br := br;
     c_flushed := c_flushed c; c_codec := c_codec c; c_streams := c_streams c |}.

Definition flush (out : bytes) (c : MTProtoConn) : MTProtoConn :=
  {| c_config := c_config c; c_isClient := c_isClient c; c_draws := c_draws c; c_br := c_br c;
     c_flushed := c_flushed c ++ out; c_codec := c_codec c; c_streams := c_streams c |}.

Definition set_codec (codec : Codec) (streams : option ObfuscatedStreams) (c : MTProtoConn) : MTProtoConn :=
  {| c_config := c_config c; c_isClient := c_isClient c; c_draws := c_draws c; c_br := c_br c;
     c_flushed := c_flushed c; c_codec := Some codec; c_streams := streams |}.

(** [ensureNegotiated], returning the codec it leaves in the connection. *)
Definition ensureNegotiated : ST MTProtoConn codec_error Codec := fun c =>
  match c_codec c with
  | Some codec => (Ok codec, c)
  | None =>
      if c_isClient c then
        match ClientNegotiate (c_config c) (c_draws c) with
        | Err e => (Err e, c)
        | Ok (header, codec, streams) => (Ok codec, set_codec codec streams (flush header c))
        end
      else
        match Negotiate (c_config c) (Reader (c_br c) None) with
        | (Err e, r) => (Err e, set_br (rd_data r) c)
        | (Ok (codec, streams), r) => (Ok codec, set_codec codec streams (set_br (rd_data r) c))
        end
  end.

Definition advance (k : nat) (s : Stream) : Stream := CTR (str_key s) (str_iv s) (str_pos s + k).

Definition with_decrypt (d : Stream) (os : ObfuscatedStreams) : ObfuscatedStreams :=
  {| os_Encrypt := os_Encrypt os; os_Decrypt := d; os_Tag := os_Tag os |}.

Definition with_encrypt (e : Stream) (os : ObfuscatedStreams) : ObfuscatedStreams :=
  {| os_Encrypt := e; os_Decrypt := os_Decrypt os; os_Tag := os_Tag os |}.

(** [obfuscatedStream.Read] under a reader [m]: [m] sees the decrypted bytes, and
    the key stream moves on by as many as [m] took. *)
Definition through_stream {A} (m : PR A) (os : ObfuscatedStreams) (br : bytes)
  : result codec_error A * ObfuscatedStreams * bytes :=
  let d := os_Decrypt os in
  let '(res, r) := m (Reader (XORKeyStream br d).1 None) in
  let k := (length br - length (rd_data r))%nat in
  (res, with_decrypt (advance k d) os, drop k br).

Definition Conn_ReadMessage (maxPayloadBytes : Z) : ST MTProtoConn codec_error bytes :=
  st_bind (fun codec c =>
    match c_streams c with
    | None =>
        let '(res, r) := ReadMessage codec maxPayloadBytes (Reader (c_br c) None) in
        (res, set_br (rd_data r) c)
    | Some os =>
        let '(res, os, br) := through_stream (ReadMessage codec maxPayloadBytes) os (c_br c) in
        (res, set_codec codec (Some os) (set_br br c))
    end) ensureNegotiated.

(** [obfuscatedStream.Write]: the codec's writes, encrypted in order. *)
Definition Conn_WriteMessage (payload : bytes) : ST MTProtoConn codec_error unit :=
  st_bind (fun codec c =>
    match WritePacket payload codec with
    | (Err e, codec') => (Err e, set_codec codec' (c_streams c) c)
    | (Ok out, codec') =>
        match c_streams c with
        | None => (Ok tt, set_codec codec' None (flush out c))
        | Some os =>
            let '(out, e) := XORKeyStream out (os_Encrypt os) in
            (Ok tt, set_codec codec' (Some (with_encrypt e os)) (flush out c))
        end
    end) ensureNegotiated.

(** * The key stream *)

Lemma xor_at_length s i data : length (xor_at s i data) = length data.
Proof. revert i. induction data as [|b data IH]; intros i; simpl; [done|]. by rewrite IH. Qed.

Lemma xor_at_app s i a b : xor_at s i (a ++ b) = xor_at s i a ++ xor_at s (i + length a) b.
Proof.
  revert i. induction a as [|x a IH]; intros i; simpl; [by rewrite Nat.add_0_r|].
  rewrite IH. by replace (S i + length a)%nat with (i + S (length a))%nat by lia.
Qed.

Lemma xor_at_invol s i data : xor_at s i (xor_at s i data) = data.
Proof. revert i. induction data as [|b data IH]; intros i; simpl; [done|]. by rewrite IH, xor_byte_invol. Qed.

Lemma xor_at_drop s i n data : drop n (xor_at s i data) = xor_at s (i + n) (drop n data).
Proof.
  revert i n. induction data as [|b data IH]; intros i [|n]; simpl; rewrite ?Nat.add_0_r; try done.
  rewrite IH. by replace (S i + n)%nat with (i + S n)%nat by lia.
Qed.

Lemma xor_at_take s i n data : take n (xor_at s i data) = xor_at s i (take n data).
Proof. revert i n. induction data as [|b data IH]; intros i [|n]; simpl; try done. by rewrite IH. Qed.

Lemma xor_at_slice s i j k data : slice (xor_at s i data) j k = xor_at s (i + j) (slice data j k).
Proof. unfold slice. by rewrite xor_at_drop, xor_at_take. Qed.

Lemma xor_at_stream s s' i data :
  str_key s = str_key s' -> str_iv s = str_iv s' -> xor_at s i data = xor_at s' i data.
Proof. intros Hk Hi. revert i. induction data as [|b data IH]; intros i; simpl; [done|]. by rewrite IH, Hk, Hi. Qed.

(** ** Slices of headers that differ in their last eight bytes *)

Lemma splice_length b i v : (i + length v <= length b)%nat -> length (splice b i v) = length b.
Proof. intros Hl. unfold splice. rewrite !length_app, length_take, length_drop. lia. Qed.

Lemma take_splice b i v : (i <= length b)%nat -> take i (splice b i v) = take i b.
Proof. intros Hl. unfold splice. apply take_app_length'. rewrite length_take. lia. Qed.

Lemma drop_splice b i v : (i <= length b)%nat -> drop i (splice b i v) = v ++ drop (i + length v) b.
Proof. intros Hl. unfold splice. apply drop_app_length'. rewrite length_take. lia. Qed.

Lemma take_take_le {A} (n k : nat) (l : list A) : (n <= k)%nat -> take n l = take n (take k l).
Proof. intros H. by rewrite take_take, Nat.min_l. Qed.

Lemma slice_take b i j k : (j <= k)%nat -> slice b i j = slice (take k b) i j.
Proof.
  intros Hk. unfold slice. destruct (Nat.le_ge_cases i k).
  - rewrite skipn_firstn_comm. apply take_take_le. lia.
  - replace (j - i)%nat with 0%nat by lia. done.
Qed.

Lemma slice_rev_take b j k n m :
  length b = (m + n)%nat -> (n <= j)%nat -> slice (rev b) j k = slice (rev (take m b)) (j - n) (k - n).
Proof.
  intros Hl Hj. unfold slice. rewrite <- (take_drop m b) at 1.
  rewrite rev_app_distr, drop_app_ge by (rewrite length_rev, length_drop; lia).
  rewrite length_rev, length_drop. replace (length b - m)%nat with n by lia.
  f_equal. lia.
Qed.

Lemma isDisallowed_prefix a b :
  take 56 a = take 56 b -> length a = 64%nat -> length b = 64%nat -> isDisallowedHeader a = isDisallowedHeader b.
Proof.
  intros Ht Ha Hb. unfold isDisallowedHeader, len. rewrite Ha, Hb.
  rewrite (take_take_le 4 56 a), (take_take_le 4 56 b), Ht by lia.
  assert (Hat : forall i, (i < 56)%nat -> byte_at a i = byte_at b i).
  { intros i Hi. unfold byte_at. by rewrite <- (lookup_take_lt a 56), <- (lookup_take_lt b 56), Ht by lia. }
  by rewrite !Hat by lia.
Qed.

Lemma pick_init_ok draws init :
  pick_init draws = Some init -> (init ∈ draws) /\ isDisallowedHeader init = false.
Proof. intros Hp. apply find_some in Hp as [Hin Hd]. rewrite list_elem_of_In. by bools. Qed.

(** ** The handshake *)

Lemma NewClientObfuscated_header tag secret draws init :
  pick_init draws = Some init -> length init = 64%nat -> inU 32 tag ->
  exists header cs,
    NewClientObfuscated tag secret draws = Ok (header, cs) /\
    length header = 64%nat /\ take 56 header = take 56 init /\
    NewServerObfuscated header secret =
      Ok {| os_Encrypt := os_Decrypt cs; os_Decrypt := os_Encrypt cs; os_Tag := tag |}.
Proof.
  intros Hp Hl Ht. unfold NewClientObfuscated. rewrite Hp. unfold XORKeyStream, newCTR.
  set (i1 := splice init 56 (le_put 4 tag)). set (k := applySecret (slice i1 8 40) secret).
  set (s := CTR k (slice i1 40 56) 0). cbn [str_key str_iv str_pos].
  set (header := splice i1 56 (slice (xor_at s 0 i1) 56 64)).
  assert (L1 : length i1 = 64%nat) by (unfold i1; by rewrite splice_length, Hl by (rewrite le_put_length, Hl; lia)).
  assert (Le : length (slice (xor_at s 0 i1) 56 64) = 8%nat).
  { unfold slice. rewrite length_take, length_drop, xor_at_length, L1. done. }
  assert (Lh : length header = 64%nat) by (unfold header; by rewrite splice_length, L1 by (rewrite Le, L1; lia)).
  assert (T1 : take 56 header = take 56 i1) by (apply take_splice; rewrite L1; lia).
  assert (T0 : take 56 header = take 56 init).
  { rewrite T1. apply take_splice. rewrite Hl. lia. }
  eexists header, _. split_and!; [reflexivity|done..|].
  unfold NewServerObfuscated, len. rewrite Lh. simpl. destruct (pick_init_ok _ _ Hp) as [_ Hd].
  rewrite (isDisallowed_prefix header init), Hd by done.
  assert (S1 : forall i j, (j <= 56)%nat -> slice header i j = slice i1 i j).
  { intros i j Hj. by rewrite (slice_take header i j 56), (slice_take i1 i j 56), T1. }
  assert (S2 : forall i j, (8 <= i)%nat -> slice (rev header) i j = slice (rev i1) i j).
  { intros i j Hi. by rewrite (slice_rev_take header i j 8 56), (slice_rev_take i1 i j 8 56), T1. }
  rewrite !S1, !S2 by lia. fold k. unfold newCTR, XORKeyStream. fold s. cbn [str_key str_iv str_pos].
  rewrite Lh, L1. do 2 f_equal.
  rewrite xor_at_slice. unfold header at 1. unfold slice at 1. rewrite drop_splice by (rewrite L1; lia).
  rewrite take_app_le by (rewrite Le; lia). rewrite xor_at_slice. unfold slice. rewrite xor_at_take, xor_at_invol.
  unfold i1. rewrite drop_splice by (rewrite Hl; lia). rewrite take_take. simpl Nat.min.
  rewrite take_app_length' by (symmetry; apply le_put_length). rewrite le_get_put_u32. by apply wrapU_id.
Qed.

(** ** What each side settles on *)

Definition obfuscates (config : NegotiatorConfig) : bool :=
  RequireObfuscation config || AllowObfuscation config.

Definition plain_codec (p : Protocol) : Codec :=
  match p with
  | ProtocolAbridged => CAbridged {| ab_AllowQuickAckTokens := false |}
  | ProtocolIntermediate => CIntermediate {| in_AllowQuickAckTokens := false |}
  | ProtocolPaddedIntermediate => CPadded {| pi_AllowQuickAckTokens := false |}
  | _ => CFull {| fu_next := 0 |}
  end.

(** The configurations under which the two ends understand each other. *)
Definition compatible (server client : NegotiatorConfig) (draws : list bytes) : Prop :=
  Secret server = Secret client /\
  if obfuscates client then
    (ConfigProtocol client ∈ [ProtocolAbridged; ProtocolIntermediate; ProtocolPaddedIntermediate]) /\
    exists init,
      pick_init draws = Some init /\ length init = 64%nat /\
      (RequireObfuscation server = true \/
       AllowObfuscation server = true /\ isPlausibleFullLength (le_get (take 4 init)) = false)
  else RequireObfuscation server = false /\ ConfigProtocol client <> ProtocolUnknown.

(** A first packet from which a plain protocol is recognised. *)
Definition first_ok (p : Protocol) (rest : bytes) : Prop :=
  match p with
  | ProtocolFull =>
      4 <= len rest /\ isPlausibleFullLength (le_get (take 4 rest)) = true /\ byte_at rest 0 <> 0xEF
  | _ => 3 <= len rest
  end.

Lemma Negotiate_obfuscated server header rest codec ss init :
  length header = 64%nat -> take 56 header = take 56 init -> length init = 64%nat ->
  isDisallowedHeader init = false ->
  NewServerObfuscated header (Secret server) = Ok ss -> codecFromTag (os_Tag ss) = Ok codec ->
  (RequireObfuscation server = true \/
   AllowObfuscation server = true /\ isPlausibleFullLength (le_get (take 4 init)) = false) ->
  Negotiate server (Reader (header ++ rest) None) = (Ok (codec, Some ss), Reader rest None).
Proof.
  intros Hl Ht Hli Hd Hs Hc Hmode.
  assert (Hacc : acceptObfuscated (Secret server) (Reader (header ++ rest) None) = (Ok (codec, Some ss), Reader rest None)).
  { unfold acceptObfuscated, mbind, ST_bind, st_bind, of_result.
    rewrite (takes_read_full 64 header Hl rest), Hs, Hc. done. }
  unfold Negotiate. destruct (RequireObfuscation server); [done|].
  destruct Hmode as [|[Ha Hp]]; [done|].
  unfold mbind at 1, ST_bind at 1, st_bind at 1, peek4. cbn [rd_data].
  rewrite (proj2 (Z.ltb_ge _ _)) by (unfold len; rewrite length_app, Hl; lia).
  rewrite take_app_le by (rewrite Hl; lia).
  rewrite (take_take_le 4 56 header), Ht, <- (take_take_le 4 56 init) by lia.
  unfold isDisallowedHeader, len in Hd. rewrite Hli in Hd. simpl in Hd.
  repeat match type of Hd with (if ?b then _ else _) = _ => destruct b eqn:?; [done|] end.
  unfold disallowedPrefixes in *. cbn [existsb] in *. bools.
  assert ((byte_at (take 4 init) 0 =? 0xEF) = false) as ->.
  { apply Z.eqb_neq. unfold byte_at in *. by rewrite lookup_take_lt by lia. }
  rewrite (proj2 (Z.eqb_neq _ intermediateTag)), (proj2 (Z.eqb_neq _ paddedIntermediateTag)), Hp, Ha by done.
  done.
Qed.

Lemma Negotiate_plain server p rest :
  RequireObfuscation server = false -> p <> ProtocolUnknown -> first_ok p rest ->
  Negotiate server (Reader
    (match p with
     | ProtocolAbridged => [bZ 0xEF]
     | ProtocolIntermediate => replicate 4 (bZ 0xEE)
     | ProtocolPaddedIntermediate => replicate 4 (bZ 0xDD)
     | _ => []
     end ++ rest) None) = (Ok (plain_codec p, None), Reader rest None).
Proof.
  intros Hr Hp Hf. unfold Negotiate. rewrite Hr. unfold mbind, ST_bind, st_bind, peek4, discard. cbn [rd_data].
  rewrite (proj2 (Z.ltb_ge _ _)) by (destruct p; simpl in *; rewrite ?len_cons; pose proof (len_nonneg rest); lia || (try (destruct Hf as [Hf _]; lia)) || done).
  destruct p; [done|by destruct rest as [|? [|? [|]]]..|].
  destruct Hf as (Hl & Hp1 & Hb). change ([] ++ rest) with rest.
  assert ((byte_at (take 4 rest) 0 =? 0xEF) = false) as ->.
  { apply Z.eqb_neq. unfold byte_at in *. by rewrite lookup_take_lt by lia. }
  pose proof Hp1 as Hb1. unfold isPlausibleFullLength in Hb1. bools.
  rewrite (proj2 (Z.eqb_neq _ intermediateTag)), (proj2 (Z.eqb_neq _ paddedIntermediateTag)), Hp1
    by (unfold intermediateTag, paddedIntermediateTag; lia).
  done.
Qed.

(** * Two connections in step *)

(** What [a] writes next, [b] reads. *)
Definition synced (a b : MTProtoConn) : Prop :=
  exists ca cb, c_codec a = Some ca /\ c_codec b = Some cb /\ ProtocolTag cb = ProtocolTag ca /\
  match c_streams a, c_streams b with
  | None, None => True
  | Some oa, Some ob => os_Decrypt ob = os_Encrypt oa
  | _, _ => False
  end.

Lemma through_stream_takes {A} (m : PR A) os out (a : A) rest :
  takes m out a ->
  through_stream m os ((XORKeyStream out (os_Decrypt os)).1 ++ rest) =
  (Ok a, with_decrypt (advance (length out) (os_Decrypt os)) os, rest).
Proof.
  intros Ht. unfold through_stream, XORKeyStream. cbn [fst].
  rewrite xor_at_app, xor_at_invol, Ht. cbn [rd_data].
  rewrite !length_app, !xor_at_length. replace (_ + _ - _)%nat with (length out) by lia.
  by rewrite drop_app_length' by (by rewrite xor_at_length).
Qed.

Lemma ensureNegotiated_done c codec : c_codec c = Some codec -> ensureNegotiated c = (Ok codec, c).
Proof. intros Hc. unfold ensureNegotiated. by rewrite Hc. Qed.

Lemma synced_step mx a b payload :
  synced a b -> packet_ok mx payload ->
  exists bs a' b',
    Conn_WriteMessage payload a = (Ok tt, a') /\ c_flushed a' = c_flushed a ++ bs /\
    (forall rest, Conn_ReadMessage mx (set_br (bs ++ rest) b) = (Ok payload, set_br rest b')) /\
    c_flushed b' = c_flushed b /\ synced a' b' /\ (synced b a -> synced b' a').
Proof.
  intros (ca & cb & Ha & Hb & Htag & Hs) Hok.
  destruct (WritePacket_total mx payload ca Hok) as (out & ca' & Hw & Htag').
  pose proof (ReadMessage_takes cb mx out payload (same_tag_takes ca cb mx payload out ca' Hok Htag Hw)) as Ht.
  unfold Conn_WriteMessage, Conn_ReadMessage, st_bind.
  rewrite (ensureNegotiated_done a ca Ha), Hw.
  destruct (c_streams a) as [oa|] eqn:Ea, (c_streams b) as [ob|] eqn:Eb; try done.
  - rewrite <- Hs. set (x := XORKeyStream out (os_Decrypt ob)).
    exists x.1, (set_codec ca' (Some (with_encrypt x.2 oa)) (flush x.1 a)),
      (set_codec cb (Some (with_decrypt x.2 ob)) b).
    split_and!; [done|done| |done| |].
    + intros rest. rewrite (ensureNegotiated_done (set_br (x.1 ++ rest) b) cb Hb). cbn [c_streams c_br set_br]. rewrite Eb. unfold x.
      by rewrite (through_stream_takes _ ob _ _ rest Ht).
    + exists ca', cb. by rewrite Htag'.
    + intros (? & ? & ? & ? & ? & Hback). exists cb, ca'. rewrite Htag', Htag.
      rewrite Ea, Eb in Hback. done.
  - exists out, (set_codec ca' None (flush out a)), b. split_and!; [done|done| |done| |].
    + intros rest. rewrite (ensureNegotiated_done (set_br (out ++ rest) b) cb Hb). cbn [c_streams c_br set_br].
      by rewrite Eb, Ht.
    + exists ca', cb. rewrite Htag'. cbn. by rewrite Eb.
    + intros _. exists cb, ca'. rewrite Htag', Htag. cbn. by rewrite Eb.
Qed.

Lemma synced_run mx ps a b :
  synced a b -> Forall (packet_ok mx) ps ->
  exists bs a' b',
    st_each Conn_WriteMessage ps a = (Ok tt, a') /\ c_flushed a' = c_flushed a ++ bs /\
    (forall rest, st_repeat (length ps) (Conn_ReadMessage mx) (set_br (bs ++ rest) b) = (Ok ps, set_br rest b')) /\
    c_flushed b' = c_flushed b /\ synced a' b' /\ (synced b a -> synced b' a').
Proof.
  intros Hs Hok. revert a b Hs. induction Hok as [|p ps Hp _ IH]; intros a b Hs.
  - exists [], a, b. rewrite app_nil_r. split_and!; done.
  - destruct (synced_step mx a b p Hs Hp) as (o1 & a1 & b1 & Hw & Hf & Hr & Hfb & Hs1 & Hback).
    destruct (IH a1 b1 Hs1) as (o2 & a2 & b2 & Hw2 & Hf2 & Hr2 & Hfb2 & Hs2 & Hback2).
    exists (o1 ++ o2), a2, b2. split_and!; [| | |by rewrite Hfb2|done|auto].
    + cbn. unfold st_bind at 1. by rewrite Hw.
    + by rewrite Hf2, Hf, app_assoc.
    + intros rest. cbn. unfold st_bind. by rewrite <- app_assoc, Hr, Hr2.
Qed.

Lemma first_packet mx p payload out c' rest :
  packet_ok mx payload -> len payload + 12 <= 2 ^ 24 -> WritePacket payload (plain_codec p) = (Ok out, c') ->
  p <> ProtocolUnknown -> first_ok p (out ++ rest).
Proof.
  intros ([[H0 H1] _] & Hal & _) Hfull Hw Hp. pose proof (len_nonneg rest).
  assert (H4 : 4 <= len payload) by (Z.to_euclidean_division_equations; lia).
  destruct p; simpl in *; try done.
  - unfold Abridged_WritePacket in Hw. rewrite Z.rem_mod_nonneg, Hal in Hw by lia. simpl in Hw.
    case_match; simplify_eq; autorewrite with tlrpc_len; lia.
  - injection Hw as <- _. autorewrite with tlrpc_len. lia.
  - injection Hw as <- _. autorewrite with tlrpc_len. lia.
  - injection Hw as <- _. unfold writeFullPacket. cbv zeta. rewrite <- !app_assoc.
    rewrite (wrapU_id 32) by (unfold inU; lia). split_and!.
    + autorewrite with tlrpc_len. lia.
    + rewrite (take_len_app 4) by apply le_put_length. rewrite le_get_put, Z.mod_small by lia.
      unfold isPlausibleFullLength. apply andb_true_intro. split; apply Z.leb_le; lia.
    + unfold byte_at. simpl. rewrite Zb_bZ. intros Heq.
      assert ((len payload + 12) mod 256 mod 4 = 239 mod 4) by congruence.
      Z.to_euclidean_division_equations; lia.
Qed.

Lemma codecFromTag_plain p :
  (p ∈ [ProtocolAbridged; ProtocolIntermediate; ProtocolPaddedIntermediate]) ->
  codecFromTag (ProtocolTag (plain_codec p)) = Ok (plain_codec p) /\ inU 32 (ProtocolTag (plain_codec p)).
Proof. rewrite !elem_of_cons, elem_of_nil. by intros [-> | [-> | [-> | []]]]. Qed.

Lemma ClientNegotiate_obfuscated client draws header cs :
  obfuscates client = true ->
  (ConfigProtocol client ∈ [ProtocolAbridged; ProtocolIntermediate; ProtocolPaddedIntermediate]) ->
  NewClientObfuscated (ProtocolTag (plain_codec (ConfigProtocol client))) (Secret client) draws = Ok (header, cs) ->
  ClientNegotiate client draws = Ok (header, plain_codec (ConfigProtocol client), Some cs).
Proof.
  unfold obfuscates, ClientNegotiate. intros -> Hin%codecFromTag_plain Hn.
  destruct (ConfigProtocol client); simpl in *; try (by destruct Hin); by rewrite Hn.
Qed.

(** Negotiating leaves two compatible ends in step, in both directions. *)
Lemma negotiate_sync server client draws :
  compatible server client draws ->
  exists c1 s1,
    ensureNegotiated (NewClientMTProtoConn client draws) = (Ok (plain_codec (ConfigProtocol client)), c1) /\
    c_codec c1 = Some (plain_codec (ConfigProtocol client)) /\
    (c_streams c1 = None -> obfuscates client = false) /\
    (forall rest, (obfuscates client = false -> first_ok (ConfigProtocol client) rest) ->
      ensureNegotiated (NewMTProtoConn server (c_flushed c1 ++ rest)) =
      (Ok (plain_codec (ConfigProtocol client)), set_br rest s1)) /\
    c_codec s1 = Some (plain_codec (ConfigProtocol client)) /\ c_flushed s1 = [] /\ synced c1 s1 /\ synced s1 c1.
Proof.
  intros [Hsec Hc]. set (p := ConfigProtocol client) in *. set (codec := plain_codec p).
  unfold ensureNegotiated, NewClientMTProtoConn, NewMTProtoConn. cbn [c_codec c_isClient c_config c_draws c_br].
  destruct (obfuscates client) eqn:Ho.
  - destruct Hc as (Hin & init & Hp & Hl & Hmode). destruct (codecFromTag_plain p Hin) as [Hcodec Hrange].
    destruct (NewClientObfuscated_header (ProtocolTag codec) (Secret client) draws init Hp Hl Hrange)
      as (header & cs & Hcs & Hlh & Ht & Hss).
    rewrite (ClientNegotiate_obfuscated client draws header cs) by done.
    set (ss := {| os_Encrypt := os_Decrypt cs; os_Decrypt := os_Encrypt cs; os_Tag := ProtocolTag codec |}) in *.
    eexists _, (set_codec codec (Some ss) (NewMTProtoConn server [])). split_and!; try done.
    + intros rest _. cbn [c_flushed flush set_codec]. rewrite app_nil_l.
      destruct (pick_init_ok _ _ Hp) as [_ Hd]. rewrite <- Hsec in Hss.
      by rewrite (Negotiate_obfuscated server header rest codec ss init Hlh Ht Hl Hd Hss Hcodec Hmode).
    + exists codec, codec. done.
    + exists codec, codec. done.
  - destruct Hc as [Hr Hu].
    assert (Hcn : ClientNegotiate client draws = Ok (match p with
        | ProtocolAbridged => [bZ 0xEF]
        | ProtocolIntermediate => replicate 4 (bZ 0xEE)
        | ProtocolPaddedIntermediate => replicate 4 (bZ 0xDD)
        | _ => []
        end, codec, None)).
    { unfold ClientNegotiate. fold p. unfold obfuscates in Ho. rewrite Ho. by destruct p. }
    rewrite Hcn. eexists _, (set_codec codec None (NewMTProtoConn server [])). split_and!; try done.
    + intros rest Hf. cbn [c_flushed flush set_codec]. rewrite app_nil_l.
      by rewrite (Negotiate_plain server p rest Hr Hu (Hf eq_refl)).
    + exists codec, codec. done.
    + exists codec, codec. done.
Qed.

(** The first use of a connection negotiates and goes on. *)
Lemma negotiated_first {A} (f : Codec -> ST MTProtoConn codec_error A) c c1 codec :
  ensureNegotiated c = (Ok codec, c1) -> c_codec c1 = Some codec ->
  st_bind f ensureNegotiated c = st_bind f ensureNegotiated c1.
Proof. intros Hn Hc. unfold st_bind. by rewrite Hn, (ensureNegotiated_done c1 codec Hc). Qed.

Lemma first_flushed mx p a codec payload bs a' rest :
  packet_ok mx payload -> len payload + 12 <= 2 ^ 24 -> p <> ProtocolUnknown ->
  c_codec a = Some codec -> codec = plain_codec p -> c_streams a = None ->
  Conn_WriteMessage payload a = (Ok tt, a') -> c_flushed a' = c_flushed a ++ bs -> first_ok p (bs ++ rest).
Proof.
  intros Hok Hlen Hp Hc -> Hs. unfold Conn_WriteMessage, st_bind. rewrite (ensureNegotiated_done a _ Hc), Hs.
  destruct (WritePacket payload (plain_codec p)) as [[out|] c'] eqn:Hw; [|done]. intros [= <-]. cbn.
  intros <-%app_inv_head. by eapply first_packet.
Qed.

(** C23. Two MTProtoConn ends with compatible configurations exchange messages
    intact: whatever key stream and hash the cipher library provides, everything
    a client writes (its negotiation header, its framing and, when it obfuscates,
    its key stream) is read by the server message by message, in order and with
    nothing left over, and then everything the server writes back is read by the
    client, for plain and obfuscated transports alike.  The messages are those
    every codec carries, and the client's first one fits the full codec's
    detection window. *)
Theorem conn_exchange (server client : NegotiatorConfig) (draws : list bytes) (mx : Z) p ps qs :
  compatible server client draws ->
  Forall (packet_ok mx) (p :: ps) -> Forall (packet_ok mx) qs -> len p + 12 <= 2 ^ 24 ->
  exists c1 s1 s2 c2,
    st_each Conn_WriteMessage (p :: ps) (NewClientMTProtoConn client draws) = (Ok tt, c1) /\
    st_repeat (S (length ps)) (Conn_ReadMessage mx) (NewMTProtoConn server (c_flushed c1)) = (Ok (p :: ps), s1) /\
    c_br s1 = [] /\
    st_each Conn_WriteMessage qs s1 = (Ok tt, s2) /\
    st_repeat (length qs) (Conn_ReadMessage mx) (set_br (c_flushed s2) c1) = (Ok qs, c2) /\
    c_br c2 = [].
Proof.
  intros Hcomp Hps Hqs Hlen. apply Forall_cons in Hps as [Hp Hps].
  destruct (negotiate_sync server client draws Hcomp)
    as (c0 & s0 & Hcn & Hcc & Hplain & Hsn & Hsc & Hsf & Hcs & Hscs).
  destruct (synced_step mx c0 s0 p Hcs Hp) as (o1 & c1 & s1 & Hw1 & Hf1 & Hr1 & Hfs1 & Hs1 & Hb1).
  destruct (synced_run mx ps c1 s1 Hs1 Hps) as (o2 & c2 & s2 & Hw2 & Hf2 & Hr2 & Hfs2 & Hs2 & Hb2).
  assert (Hsync : synced (set_br [] s2) c2) by (apply Hb2, Hb1, Hscs).
  destruct (synced_run mx qs (set_br [] s2) c2 Hsync Hqs) as (o3 & s3 & c3 & Hw3 & Hf3 & Hr3 & _).
  exists c2, (set_br [] s2), s3, (set_br [] c3). split_and!; [| |done|done| |done].
  - cbn [st_each]. unfold Conn_WriteMessage at 2. unfold st_bind at 1.
    rewrite (negotiated_first _ _ c0 (plain_codec (ConfigProtocol client)) Hcn Hcc).
    fold (Conn_WriteMessage p). by rewrite Hw1.
  - rewrite Hf2, Hf1, <- app_assoc. cbn [st_repeat]. unfold st_bind at 1. unfold Conn_ReadMessage at 1.
    assert (Hfirst : obfuscates client = false -> first_ok (ConfigProtocol client) (o1 ++ o2)).
    { intros Ho. destruct Hcomp as [_ Hc]. rewrite Ho in Hc. destruct Hc as [_ Hu].
      eapply (first_flushed mx _ c0); try done.
      unfold ensureNegotiated, NewClientMTProtoConn in Hcn. cbn in Hcn.
      unfold ClientNegotiate in Hcn. unfold obfuscates in Ho. rewrite Ho in Hcn.
      by destruct (ConfigProtocol client); simplify_eq/=. }
    rewrite (negotiated_first _ _ (set_br (o1 ++ o2) s0) _ (Hsn _ Hfirst) Hsc).
    fold (Conn_ReadMessage mx). rewrite Hr1. unfold st_bind. rewrite <- (app_nil_r o2), Hr2. done.
  - rewrite Hf3. cbn [c_flushed set_br]. rewrite Hfs2, Hfs1, Hsf, app_nil_l, <- (app_nil_r o3). by rewrite Hr3.
Qed.

(** The obfuscated handshake agrees: from an allowed random header a client
    derives a 64-byte header from which the server, with the same secret, recovers
    the client's protocol tag, and the two ends hold the same streams at the same
    positions, each one's encryption being the other's decryption; what one end
    encrypts in any number of pieces the other decrypts to the same bytes. *)
Lemma obfuscated_handshake (tag : Z) (secret : bytes) (draws : list bytes) (init : bytes) :
  pick_init draws = Some init -> length init = 64%nat -> inU 32 tag ->
  exists header cs ss,
    NewClientObfuscated tag secret draws = Ok (header, cs) /\
    NewServerObfuscated header secret = Ok ss /\
    os_Tag ss = tag /\ os_Decrypt ss = os_Encrypt cs /\ os_Encrypt ss = os_Decrypt cs /\
    forall (s : Stream) (a b : bytes),
      let '(x, s1) := XORKeyStream a s in let '(y, s2) := XORKeyStream b s1 in
      XORKeyStream (x ++ y) s = (a ++ b, s2).
Proof.
  intros Hp Hl Ht. destruct (NewClientObfuscated_header tag secret draws init Hp Hl Ht) as (header & cs & Hc & _ & _ & Hs).
  eexists header, cs, _. split_and!; [done..|]. intros s a b. unfold XORKeyStream. cbn [str_key str_iv str_pos].
  rewrite xor_at_app, !xor_at_length, length_app, !xor_at_length, xor_at_invol. f_equal; [|f_equal; lia].
  f_equal. rewrite (xor_at_stream (CTR (str_key s) (str_iv s) _) s) by done. apply xor_at_invol.
Qed.

(** A client may draw a header the server cannot recognise: the client accepts
    every random header whose first word is a plausible length of the full
    protocol (12 to 2^24, the other exclusions apart), and a server that allows but
    does not require obfuscation then takes the stream for the plain full protocol
    and hands the obfuscated header on as packet bytes. *)
Lemma obfuscated_header_misdetected (server client : NegotiatorConfig) (draws : list bytes) (init rest : bytes) :
  obfuscates client = true ->
  (ConfigProtocol client ∈ [ProtocolAbridged; ProtocolIntermediate; ProtocolPaddedIntermediate]) ->
  pick_init draws = Some init -> length init = 64%nat ->
  isPlausibleFullLength (le_get (take 4 init)) = true -> RequireObfuscation server = false ->
  exists header cs,
    ClientNegotiate client draws = Ok (header, plain_codec (ConfigProtocol client), Some cs) /\
    Negotiate server (Reader (header ++ rest) None) = (Ok (CFull {| fu_next := 0 |}, None), Reader (header ++ rest) None).
Proof.
  intros Ho Hin Hp Hl Hfull Hreq. destruct (codecFromTag_plain _ Hin) as [_ Hr].
  destruct (NewClientObfuscated_header _ (Secret client) draws init Hp Hl Hr) as (header & cs & Hc & Hlh & Ht & _).
  exists header, cs. split; [by apply ClientNegotiate_obfuscated|].
  destruct (pick_init_ok _ _ Hp) as [_ Hd].
  assert (H4 : take 4 header = take 4 init) by (by rewrite (take_take_le 4 56 header), Ht, <- take_take_le by lia).
  rewrite <- H4 in Hfull.
  refine (Negotiate_plain server ProtocolFull (header ++ rest) Hreq _ _); [done|]. split_and!.
  - rewrite len_app. pose proof (len_nonneg rest). unfold len. lia.
  - by rewrite take_app_le by lia.
  - unfold byte_at. rewrite lookup_app_l by lia.
    rewrite <- (lookup_take_lt header 4 0), H4, lookup_take_lt by lia.
    unfold isDisallowedHeader in Hd. fold (byte_at init 0). repeat (case_match; [done|]). by bools.
Qed.

End obfuscation.

(** * Witnesses: a toy key stream and hash *)

Definition toy_keystream (key iv : bytes) (i : nat) : byte := bZ (le_get (take 4 key) + le_get (take 4 iv) + Z.of_nat i).
Definition toy_hash (data : bytes) : bytes := take 32 (rev data ++ zeros 32).

Definition toy_config (p : Protocol) (obf : bool) : NegotiatorConfig :=
  {| AllowObfuscation := obf; RequireObfuscation := false; Secret := [x01; x02]; ConfigProtocol := p |}.

Lemma conn_exchange_witness :
  exists c1 s1 s2 c2,
    let write := st_each (Conn_WriteMessage toy_keystream toy_hash) in
    let read n := st_repeat n (Conn_ReadMessage toy_keystream toy_hash 0) in
    write [replicate 8 x05; replicate 4 x06]
      (NewClientMTProtoConn (toy_config ProtocolIntermediate true) [zeros 64; replicate 64 x31]) = (Ok tt, c1) /\
    read 2%nat (NewMTProtoConn (toy_config ProtocolUnknown true) (c_flushed c1)) =
      (Ok [replicate 8 x05; replicate 4 x06], s1) /\
    c_br s1 = [] /\ write [replicate 12 x07] s1 = (Ok tt, s2) /\
    read 1%nat (set_br (c_flushed s2) c1) = (Ok [replicate 12 x07], c2) /\ c_br c2 = [].
Proof.
  apply (conn_exchange toy_keystream toy_hash (toy_config ProtocolUnknown true) (toy_config ProtocolIntermediate true)
           [zeros 64; replicate 64 x31] 0 (replicate 8 x05) [replicate 4 x06] [replicate 12 x07]).
  - split; [done|]. split; [right; left|]. exists (replicate 64 x31). split_and!; [by vm_compute|done|right; by vm_compute].
  - repeat apply Forall_cons_2; [..|done]; (split_and!; [split; [split; by vm_compute|left; done]|done..]).
  - repeat apply Forall_cons_2; [..|done]; (split_and!; [split; [split; by vm_compute|left; done]|done..]).
  - by vm_compute.
Defined.

Lemma obfuscated_handshake_witness :
  exists header cs ss,
    NewClientObfuscated toy_keystream toy_hash 0xEEEEEEEE [x09] [replicate 64 x31] = Ok (header, cs) /\
    NewServerObfuscated toy_keystream toy_hash header [x09] = Ok ss /\ os_Tag ss = 0xEEEEEEEE.
Proof.
  destruct (obfuscated_handshake toy_keystream toy_hash 0xEEEEEEEE [x09] [replicate 64 x31] (replicate 64 x31))
    as (header & cs & ss & Hc & Hs & Ht & _).
  - by vm_compute.
  - done.
  - split; by vm_compute.
  - by exists header, cs, ss.
Defined.

(** A header starting with the word 0x00413131. *)
Definition misread_init : bytes := [x31; x31; x41; x00] ++ replicate 60 x31.

Lemma obfuscated_header_misdetected_witness :
  exists header cs,
    ClientNegotiate toy_keystream toy_hash (toy_config ProtocolAbridged true) [misread_init] =
      Ok (header, plain_codec ProtocolAbridged, Some cs) /\
    Negotiate toy_keystream toy_hash (toy_config ProtocolUnknown true) (Reader (header ++ []) None) =
      (Ok (CFull {| fu_next := 0 |}, None), Reader (header ++ []) None).
Proof.
  apply (obfuscated_header_misdetected toy_keystream toy_hash (toy_config ProtocolUnknown true)
           (toy_config ProtocolAbridged true) [misread_init] misread_init []); try (by vm_compute).
  left.
Defined.
