(* ===== verification/Session.v ===== *)
(** Durable sessions: the snapshot and its store (session/snapshot.go,
    session/store.go) and the coordination of exclusive leases over it
    (session/coordinator.go).

    The coordinator is concurrent: each region the code runs under one of its
    mutexes, each store call and each channel close is one atomic event, and
    [step] interleaves the events of all goroutines.  The handlers of the source
    are the compositions of their events.  A context is the error its [Err]
    returns. *)

From stdpp Require Import base numbers list gmap strings.
From S2P Require Import Prelude.
Open Scope Z_scope.

Inductive session_error :=
| ErrSessionNotFound
| ErrSessionKeyMismatch
| ErrLeaseLost
| ErrLeaseReleased
| ErrLeaseInactive
| ErrLeaseGenerationExhausted
| ErrContext.

#[export] Instance session_error_eq_dec : EqDecision session_error.
Proof. solve_decision. Defined.

Abbreviation Ctx := (option session_error).

(** * Snapshots *)

Record SessionKey := { AuthKeyID : Z; SessionID : Z }.

#[export] Instance SessionKey_eq_dec : EqDecision SessionKey.
Proof. solve_decision. Defined.

#[export] Instance SessionKey_countable : Countable SessionKey.
Proof.
  refine (inj_countable' (fun k => (AuthKeyID k, SessionID k))
    (fun p => {| AuthKeyID := p.1; SessionID := p.2 |}) _). by intros [].
Defined.

Record ClientMetadata := {
  cm_APIID : Z;
  cm_DeviceModel : string;
  cm_SystemVersion : string;
  cm_AppVersion : string;
  cm_SystemLangCode : string;
  cm_LangPack : string;
  cm_LangCode : string
}.

Record Snapshot := {
  sn_AuthKeyID : Z;
  sn_SessionID : Z;
  sn_Layer : Z;
  sn_UserID : Z;
  sn_PushSubscription : bool;
  sn_ServerSalt : Z;
  sn_SeqNo : Z;
  sn_ServerSeqNo : Z;
  sn_LastClientMsgID : Z;
  sn_ClientMsgIDFloor : Z;
  sn_RecentClientMsgIDs : list Z;
  sn_RecentClientSeqNos : list Z;
  sn_Client : ClientMetadata;
  sn_NewSessionCreated : bool;
  sn_FirstClientMsgID : Z;
  sn_CreatedAt : Z;
  sn_LastActivity : Z
}.

Definition Snapshot_Key (s : Snapshot) : SessionKey :=
  {| AuthKeyID := sn_AuthKeyID s; SessionID := sn_SessionID s |}.

(** [Clone] copies the two slices, [append(nil, xs...)], and shares nothing. *)
Definition Snapshot_Clone (s : Snapshot) : Snapshot :=
  {| sn_AuthKeyID := sn_AuthKeyID s; sn_SessionID := sn_SessionID s; sn_Layer := sn_Layer s;
     sn_UserID := sn_UserID s; sn_PushSubscription := sn_PushSubscription s;
     sn_ServerSalt := sn_ServerSalt s; sn_SeqNo := sn_SeqNo s; sn_ServerSeqNo := sn_ServerSeqNo s;
     sn_LastClientMsgID := sn_LastClientMsgID s; sn_ClientMsgIDFloor := sn_ClientMsgIDFloor s;
     sn_RecentClientMsgIDs := [] ++ sn_RecentClientMsgIDs s;
     sn_RecentClientSeqNos := [] ++ sn_RecentClientSeqNos s;
     sn_Client := sn_Client s; sn_NewSessionCreated := sn_NewSessionCreated s;
     sn_FirstClientMsgID := sn_FirstClientMsgID s; sn_CreatedAt := sn_CreatedAt s;
     sn_LastActivity := sn_LastActivity s |}.

(** [Snapshot{}] *)
Definition zero_Snapshot : Snapshot :=
  {| sn_AuthKeyID := 0; sn_SessionID := 0; sn_Layer := 0; sn_UserID := 0; sn_PushSubscription := false;
     sn_ServerSalt := 0; sn_SeqNo := 0; sn_ServerSeqNo := 0; sn_LastClientMsgID := 0;
     sn_ClientMsgIDFloor := 0; sn_RecentClientMsgIDs := []; sn_RecentClientSeqNos := [];
     sn_Client := {| cm_APIID := 0; cm_DeviceModel := ""; cm_SystemVersion := ""; cm_AppVersion := "";
                     cm_SystemLangCode := ""; cm_LangPack := ""; cm_LangCode := "" |};
     sn_NewSessionCreated := false; sn_FirstClientMsgID := 0; sn_CreatedAt := 0; sn_LastActivity := 0 |}.

Lemma Snapshot_Clone_id s : Snapshot_Clone s = s.
Proof. by destruct s. Qed.

(** * The store interface *)

Class Store (S : Type) := {
  store_Load : Ctx -> SessionKey -> S -> result session_error Snapshot;
  store_LoadOrCreate : Ctx -> SessionKey -> Snapshot -> ST S session_error (Snapshot * bool);
  store_Save : Ctx -> SessionKey -> Snapshot -> ST S session_error unit;
  store_Delete : Ctx -> SessionKey -> ST S session_error unit;
  contents : S -> gmap SessionKey Snapshot
}.

(** What the coordinator relies on. *)
Class StoreLaws (S : Type) `{Store S} := {
  law_load k s :
    store_Load None k s =
    match contents s !! k with Some sn => Ok sn | None => Err ErrSessionNotFound end;
  law_load_or_create ctx k i s :
    match store_LoadOrCreate ctx k i s with
    | (Ok (sn, created), s') =>
        (created = false /\ contents s !! k = Some sn /\ contents s' = contents s) \/
        (created = true /\ sn = i /\ contents s !! k = None /\ contents s' = <[k := i]> (contents s))
    | (Err _, s') => contents s' = contents s
    end;
  law_save ctx k sn s :
    match store_Save ctx k sn s with
    | (Ok _, s') => contents s' = <[k := sn]> (contents s)
    | (Err _, s') => contents s' = contents s
    end;
  law_delete ctx k s :
    match store_Delete ctx k s with
    | (Ok _, s') => contents s' = delete k (contents s)
    | (Err _, s') => contents s' = contents s
    end
}.

(** * MemoryStore *)

Record MemoryStore := { snapshots : gmap SessionKey Snapshot }.

Definition NewMemoryStore : MemoryStore := {| snapshots := ∅ |}.

Definition MemoryStore_Load (ctx : Ctx) (key : SessionKey) (s : MemoryStore) : result session_error Snapshot :=
  match ctx with
  | Some e => Err e
  | None => match snapshots s !! key with
            | None => Err ErrSessionNotFound
            | Some snapshot => Ok (Snapshot_Clone snapshot)
            end
  end.

Definition MemoryStore_LoadOrCreate (ctx : Ctx) (key : SessionKey) (initial : Snapshot)
  : ST MemoryStore session_error (Snapshot * bool) := fun s =>
  match ctx with
  | Some e => (Err e, s)
  | None =>
      if negb (bool_decide (Snapshot_Key initial = key)) then (Err ErrSessionKeyMismatch, s)
      else
        match snapshots s !! key with
        | Some snapshot => (Ok (Snapshot_Clone snapshot, false), s)
        | None =>
            let stored := Snapshot_Clone initial in
            (Ok (Snapshot_Clone stored, true), {| snapshots := <[key := stored]> (snapshots s) |})
        end
  end.

Definition MemoryStore_Save (ctx : Ctx) (key : SessionKey) (snapshot : Snapshot)
  : ST MemoryStore session_error unit := fun s =>
  match ctx with
  | Some e => (Err e, s)
  | None =>
      if negb (bool_decide (Snapshot_Key snapshot = key)) then (Err ErrSessionKeyMismatch, s)
      else (Ok tt, {| snapshots := <[key := Snapshot_Clone snapshot]> (snapshots s) |})
  end.

Definition MemoryStore_Delete (ctx : Ctx) (key : SessionKey) : ST MemoryStore session_error unit := fun s =>
  match ctx with
  | Some e => (Err e, s)
  | None => (Ok tt, {| snapshots := delete key (snapshots s) |})
  end.

#[export] Instance MemoryStore_store : Store MemoryStore := {
  store_Load := MemoryStore_Load;
  store_LoadOrCreate := MemoryStore_LoadOrCreate;
  store_Save := MemoryStore_Save;
  store_Delete := MemoryStore_Delete;
  contents := snapshots
}.

#[export] Instance MemoryStore_laws : StoreLaws MemoryStore.
Proof.
  split; cbn [store_Load store_LoadOrCreate store_Save store_Delete contents MemoryStore_store].
  - intros k s. unfold MemoryStore_Load. destruct (snapshots s !! k); by rewrite ?Snapshot_Clone_id.
  - intros ctx k i s. unfold MemoryStore_LoadOrCreate. destruct ctx; [done|]. destruct (negb _); [done|].
    rewrite !Snapshot_Clone_id. destruct (snapshots s !! k) as [sn|] eqn:E; [left|right]; by rewrite ?Snapshot_Clone_id.
  - intros ctx k sn s. unfold MemoryStore_Save. destruct ctx; [done|]. destruct (negb _); [done|].
    by rewrite Snapshot_Clone_id.
  - intros ctx k s. unfold MemoryStore_Delete. by destruct ctx.
Qed.

(** * Leases *)

(** [sync.Once] around Release: its three regions. *)
Inductive release_state := NotReleased | Releasing | Unregistered | Closed.

#[export] Instance release_state_eq_dec : EqDecision release_state.
Proof. solve_decision. Defined.

(** Where the goroutine in Acquire is with a lease it registered. *)
Inductive acquire_phase :=
| Loading (initial : Snapshot)
| Loaded (snapshot : Snapshot) (created : bool)
| Returned
| Failed (e : session_error).

(** What holds [opMu]. *)
Inductive lease_op := Saving (next : Snapshot) | Deleting.

Record localLease := {
  l_key : SessionKey;
  l_generation : Z;
  l_cause : option session_error;
  l_once : release_state;
  l_opMu : option lease_op;
  l_snapshot : Snapshot;
  l_created : bool;
  l_ready : bool;
  l_released : bool;
  l_phase : acquire_phase
}.

(** [cancel(cause)]: the first cause stays. *)
Definition cancel (cause : session_error) (l : localLease) : localLease :=
  {| l_key := l_key l; l_generation := l_generation l;
     l_cause := match l_cause l with Some c => Some c | None => Some cause end;
     l_once := l_once l; l_opMu := l_opMu l; l_snapshot := l_snapshot l; l_created := l_created l;
     l_ready := l_ready l; l_released := l_released l; l_phase := l_phase l |}.

Definition with_op (op : option lease_op) (l : localLease) : localLease :=
  {| l_key := l_key l; l_generation := l_generation l; l_cause := l_cause l; l_once := l_once l;
     l_opMu := op; l_snapshot := l_snapshot l; l_created := l_created l; l_ready := l_ready l;
     l_released := l_released l; l_phase := l_phase l |}.

Definition with_phase (ph : acquire_phase) (l : localLease) : localLease :=
  {| l_key := l_key l; l_generation := l_generation l; l_cause := l_cause l; l_once := l_once l;
     l_opMu := l_opMu l; l_snapshot := l_snapshot l; l_created := l_created l; l_ready := l_ready l;
     l_released := l_released l; l_phase := ph |}.

Definition with_snapshot (sn : Snapshot) (l : localLease) : localLease :=
  {| l_key := l_key l; l_generation := l_generation l; l_cause := l_cause l; l_once := l_once l;
     l_opMu := l_opMu l; l_snapshot := sn; l_created := l_created l; l_ready := l_ready l;
     l_released := l_released l; l_phase := l_phase l |}.

Definition with_ready (r : bool) (l : localLease) : localLease :=
  {| l_key := l_key l; l_generation := l_generation l; l_cause := l_cause l; l_once := l_once l;
     l_opMu := l_opMu l; l_snapshot := l_snapshot l; l_created := l_created l; l_ready := r;
     l_released := l_released l; l_phase := l_phase l |}.

Definition with_created (cr : bool) (l : localLease) : localLease :=
  {| l_key := l_key l; l_generation := l_generation l; l_cause := l_cause l; l_once := l_once l;
     l_opMu := l_opMu l; l_snapshot := l_snapshot l; l_created := cr; l_ready := l_ready l;
     l_released := l_released l; l_phase := l_phase l |}.

Definition with_once (o : release_state) (rel : bool) (l : localLease) : localLease :=
  {| l_key := l_key l; l_generation := l_generation l; l_cause := l_cause l; l_once := o;
     l_opMu := l_opMu l; l_snapshot := l_snapshot l; l_created := l_created l; l_ready := l_ready l;
     l_released := rel; l_phase := l_phase l |}.

(** * The coordinator *)

Section coordinator.
Context {S : Type} `{Hstore : Store S}.

(** A lease pointer is its index in [objects]. *)
Record LocalCoordinator := {
  store : S;
  leases : gmap SessionKey nat;
  generations : gmap SessionKey Z;
  objects : list localLease
}.

Definition NewLocalCoordinator (st : S) : LocalCoordinator :=
  {| store := st; leases := ∅; generations := ∅; objects := [] |}.

Abbreviation Coord := (ST LocalCoordinator session_error).

Definition upd (id : nat) (f : localLease -> localLease) (c : LocalCoordinator) : LocalCoordinator :=
  {| store := store c; leases := leases c; generations := generations c; objects := alter f id (objects c) |}.

Definition set_store (st : S) (c : LocalCoordinator) : LocalCoordinator :=
  {| store := st; leases := leases c; generations := generations c; objects := objects c |}.

Definition generation_of (c : LocalCoordinator) (key : SessionKey) : Z := default 0 (generations c !! key).

(** ** Acquire *)

(** The region under [c.mu]: a new lease, or the previous one to wait for. *)
Inductive registration := Registered (id : nat) | Previous (id : nat).

Definition acquire_register (ctx : Ctx) (key : SessionKey) (initial : Snapshot) : Coord registration := fun c =>
  if negb (bool_decide (Snapshot_Key initial = key)) then (Err ErrSessionKeyMismatch, c)
  else
    match ctx with
    | Some e => (Err e, c)
    | None =>
        match leases c !! key with
        | Some previous => (Ok (Previous previous), c)
        | None =>
            let generation := int64 (generation_of c key + 1) in
            if generation <=? generation_of c key then (Err ErrLeaseGenerationExhausted, c)
            else
              let lease :=
                {| l_key := key; l_generation := generation; l_cause := None; l_once := NotReleased;
                   l_opMu := None; l_snapshot := zero_Snapshot; l_created := false; l_ready := false;
                   l_released := false; l_phase := Loading initial |} in
              (Ok (Registered (length (objects c))),
               {| store := store c;
                  leases := <[key := length (objects c)]> (leases c);
                  generations := <[key := generation]> (generations c);
                  objects := objects c ++ [lease] |})
        end
    end.

(** [c.store.LoadOrCreate(ctx, key, initial)] *)
Definition acquire_load (ctx : Ctx) (id : nat) : Coord unit := fun c =>
  match objects c !! id with
  | Some l =>
      match l_phase l with
      | Loading initial =>
          match store_LoadOrCreate ctx (l_key l) initial (store c) with
          | (Err e, st) => (Err e, upd id (with_phase (Failed e)) (set_store st c))
          | (Ok (snapshot, created), st) => (Ok tt, upd id (with_phase (Loaded snapshot created)) (set_store st c))
          end
      | _ => (Ok tt, c)
      end
  | None => (Ok tt, c)
  end.

(** The check of the lease's context and the region under [opMu] that publishes it. *)
Definition acquire_publish (id : nat) : Coord unit := fun c =>
  match objects c !! id with
  | Some l =>
      match l_phase l with
      | Loaded snapshot created =>
          match l_cause l with
          | Some e => (Err e, upd id (with_phase (Failed e)) c)
          | None =>
              (Ok tt, upd id (with_phase Returned ∘ with_ready true ∘ with_created created ∘
                              with_snapshot (Snapshot_Clone snapshot)) c)
          end
      | _ => (Ok tt, c)
      end
  | None => (Ok tt, c)
  end.

(** ** Retire and Release *)

Definition localLease_Retire (cause : option session_error) (id : nat) (c : LocalCoordinator) : LocalCoordinator :=
  upd id (cancel (default ErrLeaseInactive cause)) c.

(** Release's region under [opMu]. *)
Definition release_mark (id : nat) (c : LocalCoordinator) : LocalCoordinator :=
  match objects c !! id with
  | Some l => match l_once l with
              | NotReleased => upd id (cancel ErrLeaseReleased ∘ with_once Releasing true) c
              | _ => c
              end
  | None => c
  end.

(** Release's region under [coordinator.mu]. *)
Definition release_unregister (id : nat) (c : LocalCoordinator) : LocalCoordinator :=
  match objects c !! id with
  | Some l => match l_once l with
              | Releasing =>
                  let c' := upd id (with_once Unregistered true) c in
                  if bool_decide (leases c !! l_key l = Some id) then
                    {| store := store c'; leases := delete (l_key l) (leases c');
                       generations := generations c'; objects := objects c' |}
                  else c'
              | _ => c
              end
  | None => c
  end.

Definition release_close (id : nat) (c : LocalCoordinator) : LocalCoordinator :=
  match objects c !! id with
  | Some l => match l_once l with Unregistered => upd id (with_once Closed true) c | _ => c end
  | None => c
  end.

Definition localLease_Release (id : nat) (c : LocalCoordinator) : LocalCoordinator :=
  release_close id (release_unregister id (release_mark id c)).

(** ** Operations of a lease *)

Definition ensureActiveLocked (l : localLease) (id : nat) (c : LocalCoordinator) : result session_error unit :=
  if negb (l_ready l) || l_released l then Err ErrLeaseInactive
  else
    match l_cause l with
    | Some e => Err e
    | None => if bool_decide (leases c !! l_key l = Some id) then Ok tt else Err ErrLeaseLost
    end.

Definition localLease_Created (id : nat) (c : LocalCoordinator) : bool :=
  match objects c !! id with
  | Some l => l_ready l && negb (l_released l) && l_created l
  | None => false
  end.

Definition localLease_Snapshot (id : nat) (c : LocalCoordinator) : result session_error Snapshot :=
  match objects c !! id with
  | Some l => _ ← ensureActiveLocked l id c; mret (Snapshot_Clone (l_snapshot l))
  | None => Err ErrLeaseInactive
  end.

(** Save and Delete up to the store call: [opMu] is taken and stays held. *)
Definition op_begin (ctx : Ctx) (id : nat) (op : lease_op) : Coord unit := fun c =>
  match objects c !! id with
  | Some l =>
      match ensureActiveLocked l id c with
      | Err e => (Err e, c)
      | Ok _ => match ctx with
                | Some e => (Err e, c)
                | None => (Ok tt, upd id (with_op (Some op)) c)
                end
      end
  | None => (Err ErrLeaseInactive, c)
  end.

Definition save_begin (ctx : Ctx) (id : nat) (next : Snapshot) : Coord unit := fun c =>
  match objects c !! id with
  | Some l => if negb (bool_decide (Snapshot_Key next = l_key l)) then (Err ErrSessionKeyMismatch, c)
              else op_begin ctx id (Saving next) c
  | None => (Err ErrLeaseInactive, c)
  end.

(** [saveCtx] is done when the lease's context or the caller's is. *)
Definition op_ctx (l : localLease) (ctx : Ctx) : Ctx :=
  match l_cause l with Some _ => Some ErrContext | None => ctx end.

(** The store call under [opMu], and the rest of Save or Delete. *)
Definition op_end (ctx : Ctx) (id : nat) : Coord unit := fun c =>
  match objects c !! id with
  | Some l =>
      match l_opMu l with
      | Some (Saving next) =>
          match store_Save (op_ctx l ctx) (l_key l) next (store c) with
          | (Err e, st) => (Err e, upd id (with_op None) (set_store st c))
          | (Ok _, st) => (Ok tt, upd id (with_op None ∘ with_snapshot (Snapshot_Clone next)) (set_store st c))
          end
      | Some Deleting =>
          match store_Delete (op_ctx l ctx) (l_key l) (store c) with
          | (Err e, st) => (Err e, upd id (with_op None) (set_store st c))
          | (Ok _, st) => (Ok tt, upd id (with_op None ∘ cancel ErrLeaseReleased ∘ with_ready false) (set_store st c))
          end
      | None => (Ok tt, c)
      end
  | None => (Ok tt, c)
  end.

Definition localLease_Save (ctx : Ctx) (id : nat) (next : Snapshot) : Coord unit :=
  _ ← save_begin ctx id next; op_end ctx id.

Definition localLease_Delete (ctx : Ctx) (id : nat) : Coord unit :=
  _ ← op_begin ctx id Deleting; op_end ctx id.

(** One round of Acquire's loop run without interference: a lease, or the
    previous one, retired, whose [Done] the loop waits for. *)
Definition Acquire (ctx : Ctx) (key : SessionKey) (initial : Snapshot) : Coord registration := fun c =>
  match acquire_register ctx key initial c with
  | (Ok (Registered id), c) =>
      match (_ ← acquire_load ctx id; acquire_publish id) c with
      | (Ok _, c) => (Ok (Registered id), c)
      | (Err e, c) => (Err e, localLease_Release id c)
      end
  | (Ok (Previous id), c) => (Ok (Previous id), localLease_Retire (Some ErrLeaseLost) id c)
  | res => res
  end.

(** * Interleaving *)

Inductive event :=
| EvRegister (ctx : Ctx) (key : SessionKey) (initial : Snapshot)
| EvLoad (ctx : Ctx) (id : nat)
| EvPublish (id : nat)
| EvCancel (id : nat)
| EvRetire (cause : option session_error) (id : nat)
| EvSaveBegin (ctx : Ctx) (id : nat) (next : Snapshot)
| EvDeleteBegin (ctx : Ctx) (id : nat)
| EvOpEnd (ctx : Ctx) (id : nat)
| EvReleaseMark (id : nat)
| EvUnregister (id : nat)
| EvClose (id : nat).

(** The lease an event belongs to. *)
Definition actor (ev : event) : option nat :=
  match ev with
  | EvRegister _ _ _ => None
  | EvLoad _ id | EvPublish id | EvCancel id | EvRetire _ id | EvSaveBegin _ id _ | EvDeleteBegin _ id
  | EvOpEnd _ id | EvReleaseMark id | EvUnregister id | EvClose id => Some id
  end.

Definition opMu_free (id : nat) (c : LocalCoordinator) : bool :=
  match objects c !! id with Some l => bool_decide (l_opMu l = None) | None => false end.

(** Only Acquire's own goroutine has the lease until it returns it. *)
Definition may_release (id : nat) (c : LocalCoordinator) : bool :=
  match objects c !! id with
  | Some l => match l_phase l with Returned | Failed _ => true | _ => false end
  | None => false
  end.

Definition step (ev : event) (c : LocalCoordinator) : option LocalCoordinator :=
  match ev with
  | EvRegister ctx key initial => Some (acquire_register ctx key initial c).2
  | EvLoad ctx id => Some (acquire_load ctx id c).2
  | EvPublish id => if opMu_free id c then Some (acquire_publish id c).2 else None
  | EvCancel id => Some (upd id (cancel ErrContext) c)
  | EvRetire cause id => if opMu_free id c then Some (localLease_Retire cause id c) else None
  | EvSaveBegin ctx id next => if opMu_free id c then Some (save_begin ctx id next c).2 else None
  | EvDeleteBegin ctx id => if opMu_free id c then Some (op_begin ctx id Deleting c).2 else None
  | EvOpEnd ctx id => Some (op_end ctx id c).2
  | EvReleaseMark id => if opMu_free id c && may_release id c then Some (release_mark id c) else None
  | EvUnregister id => Some (release_unregister id c)
  | EvClose id => Some (release_close id c)
  end.

Inductive reachable : LocalCoordinator -> Prop :=
| reach_new st : reachable (NewLocalCoordinator st)
| reach_step ev c c' : reachable c -> step ev c = Some c' -> reachable c'.

(** * The invariant *)

Context {Hlaws : StoreLaws S}.

Definition registered (l : localLease) : bool :=
  match l_once l with NotReleased | Releasing => true | _ => false end.

(** What holds of every lease ever created, [id] its pointer. *)
Definition lease_ok (c : LocalCoordinator) (id : nat) (l : localLease) : Prop :=
  1 <= l_generation l <= generation_of c (l_key l) /\
  l_released l = bool_decide (l_once l <> NotReleased) /\
  (registered l = true -> leases c !! l_key l = Some id /\ l_generation l = generation_of c (l_key l)) /\
  (registered l = false -> leases c !! l_key l <> Some id) /\
  (is_Some (l_opMu l) -> l_ready l = true /\ l_once l = NotReleased) /\
  match l_phase l with
  | Loading _ => l_once l = NotReleased /\ l_ready l = false
  | Loaded sn _ => l_once l = NotReleased /\ l_ready l = false /\ contents (store c) !! l_key l = Some sn
  | Returned =>
      l_once l = NotReleased -> l_ready l = true -> contents (store c) !! l_key l = Some (l_snapshot l)
  | Failed _ => l_ready l = false
  end.

Definition coordinator_ok (c : LocalCoordinator) : Prop :=
  (forall id l, objects c !! id = Some l -> lease_ok c id l) /\
  (forall k id, leases c !! k = Some id -> exists l, objects c !! id = Some l /\ l_key l = k) /\
  (forall i j li lj, (i < j)%nat -> objects c !! i = Some li -> objects c !! j = Some lj ->
     l_key li = l_key lj -> l_generation li < l_generation lj) /\
  (forall k, 0 <= generation_of c k).

(** Two registered leases of one key are the same lease. *)
Lemma registered_unique c i j li lj :
  lease_ok c i li -> lease_ok c j lj -> l_key li = l_key lj ->
  registered li = true -> registered lj = true -> i = j.
Proof. intros (_ & _ & Hi & _) (_ & _ & Hj & _) Hk Ri Rj. destruct (Hi Ri), (Hj Rj). rewrite Hk in *. congruence. Qed.

Lemma alter_back (ls : list localLease) id f l :
  ls !! id = Some l -> l_key (f l) = l_key l -> l_generation (f l) = l_generation l ->
  forall i li, alter f id ls !! i = Some li ->
  exists li0, ls !! i = Some li0 /\ l_key li0 = l_key li /\ l_generation li0 = l_generation li.
Proof.
  intros Hid Hk Hg i li Hi. destruct (decide (i = id)) as [->|Hne].
  - rewrite list_lookup_alter_eq, Hid in Hi. cbn in Hi. simplify_eq. by exists l.
  - rewrite list_lookup_alter_ne in Hi by done. by exists li.
Qed.

(** An event that changes one lease, keeps its key and generation, and leaves the
    key's registration alone. *)
Lemma upd_ok c st id l f :
  coordinator_ok c -> objects c !! id = Some l ->
  l_key (f l) = l_key l -> l_generation (f l) = l_generation l ->
  (forall k, k <> l_key l -> contents st !! k = contents (store c) !! k) ->
  (registered l = false -> contents st = contents (store c)) ->
  lease_ok (set_store st c) id (f l) ->
  coordinator_ok (upd id f (set_store st c)).
Proof.
  intros (Hl & Hm & Hg & H0) Hid Hkey Hgen Hother Hst Hok. split_and!; cbn [objects leases upd set_store].
  - intros j lj Hj. destruct (decide (j = id)) as [->|Hne].
    { rewrite list_lookup_alter_eq, Hid in Hj. cbn in Hj. by simplify_eq. }
    rewrite list_lookup_alter_ne in Hj by done. specialize (Hl _ _ Hj) as Hlj.
    destruct Hlj as (A & B & C & D & E & F). do 5 (split; [assumption|]).
    cbn [store set_store upd]. assert (Hsame : registered lj = true -> contents st !! l_key lj = contents (store c) !! l_key lj).
    { intros Hr. destruct (decide (l_key lj = l_key l)) as [Hk|Hk]; [|by apply Hother].
      destruct (registered l) eqn:Hrl; [|by rewrite Hst]. destruct Hne.
      exact (registered_unique c j id lj l (Hl _ _ Hj) (Hl _ _ Hid) Hk Hr Hrl). }
    unfold registered in Hsame. destruct (l_phase lj); try done.
    + destruct F as (F1 & F2 & F3). rewrite F1 in Hsame. by rewrite Hsame.
    + intros F1 F2. rewrite F1 in Hsame. rewrite Hsame by done. by apply F.
  - intros k j Hk. destruct (Hm k j Hk) as (lj & Hj & Hkj). destruct (decide (j = id)) as [->|Hne].
    + exists (f l). rewrite list_lookup_alter_eq, Hid. simplify_eq. done.
    + exists lj. by rewrite list_lookup_alter_ne.
  - intros i j li lj Hij Hi Hj Hk.
    destruct (alter_back _ _ _ _ Hid Hkey Hgen _ _ Hi) as (li0 & Hi0 & Ki & <-), (alter_back _ _ _ _ Hid Hkey Hgen _ _ Hj) as (lj0 & Hj0 & Kj & <-).
    apply (Hg i j); congruence.
  - exact H0.
Qed.

Lemma set_store_same c : set_store (store c) c = c.
Proof. by destruct c. Qed.

(** The store untouched. *)
Lemma upd_ok_same c id l f :
  coordinator_ok c -> objects c !! id = Some l ->
  l_key (f l) = l_key l -> l_generation (f l) = l_generation l ->
  lease_ok c id (f l) -> coordinator_ok (upd id f c).
Proof.
  intros Hc Hid Hk Hg Hok. rewrite <- (set_store_same c). by eapply upd_ok.
Qed.

Lemma cancel_ok c id cause : coordinator_ok c -> coordinator_ok (upd id (cancel cause) c).
Proof.
  intros Hc. destruct (objects c !! id) as [l|] eqn:Hid.
  - eapply upd_ok_same; try done. exact (proj1 Hc _ _ Hid).
  - replace (upd id (cancel cause) c) with c; [done|]. destruct c as [st L G O]. unfold upd. cbn in *. f_equal.
    symmetry. apply list_eq. intros j. destruct (decide (j = id)) as [->|].
    + by rewrite list_lookup_alter_eq, Hid.
    + by rewrite list_lookup_alter_ne.
Qed.

Lemma register_ok ctx key initial c : coordinator_ok c -> coordinator_ok (acquire_register ctx key initial c).2.
Proof.
  intros Hc. unfold acquire_register. destruct (negb _); [done|]. destruct ctx; [done|].
  destruct (leases c !! key) as [prev|] eqn:Hl; [done|].
  destruct (Z.leb_spec (int64 (generation_of c key + 1)) (generation_of c key)) as [|Hgt]; [done|].
  set (g := int64 _) in *. cbn [snd]. destruct Hc as (Hok & Hm & Hg & H0). specialize (H0 key) as H0k.
  set (c' := {| store := _ |}).
  assert (Hgk : generation_of c' key = g) by (unfold generation_of; cbn; by rewrite lookup_insert_eq).
  assert (Hgo : forall k, k <> key -> generation_of c' k = generation_of c k).
  { intros k Hk. unfold generation_of. cbn. by rewrite lookup_insert_ne. }
  assert (Hge : forall k, generation_of c k <= generation_of c' k).
  { intros k. destruct (decide (k = key)) as [->|]; [lia|]. by rewrite Hgo. }
  assert (Hnew : forall j l, objects c' !! j = Some l ->
    objects c !! j = Some l \/ j = length (objects c) /\ l_key l = key /\ l_generation l = g /\ lease_ok c' j l).
  { intros j l. cbn [objects c']. intros [Hj|[Hj Hj1]]%lookup_app_Some; [by left|right].
    apply list_lookup_singleton_Some in Hj1 as [? <-]. split_and!; [lia|done..|]. unfold lease_ok, registered. cbn [l_key l_generation l_once l_released l_opMu l_phase l_ready].
    rewrite Hgk. cbn [leases c']. replace j with (length (objects c)) by lia. rewrite lookup_insert_eq.
    repeat split; try done; try lia. }
  split_and!.
  - intros j l [Hj|(_ & _ & _ & ?)]%Hnew; [|done]. destruct (Hok j l Hj) as (A & B & C & D & E & F).
    specialize (Hge (l_key l)). unfold lease_ok. cbn [leases c' store]. split; [lia|]. split; [done|].
    destruct (decide (l_key l = key)) as [Hk|Hk].
    + assert (Hr : registered l = false).
      { destruct (registered l); [|done]. destruct (C eq_refl) as [C1 _]. congruence. }
      rewrite Hr, Hk, lookup_insert_eq. split_and!; try done.
      * intros _ [= <-]. apply lookup_lt_Some in Hj. lia.
      * by rewrite <- Hk.
    + rewrite lookup_insert_ne, Hgo by done. done.
  - intros k j Hk. cbn [leases c' objects] in *. apply lookup_insert_Some in Hk as [[<- <-]|[_ Hk]].
    + eexists. by rewrite lookup_app_r, Nat.sub_diag by lia.
    + destruct (Hm _ _ Hk) as (l & Hj & ?). exists l. by rewrite (lookup_app_l_Some _ _ _ _ Hj).
  - intros i j li lj Hij Hi Hj Hk.
    destruct (Hnew _ _ Hj) as [Hj'|(-> & Kj & -> & _)]; destruct (Hnew _ _ Hi) as [Hi'|(-> & Ki & Gi & _)]; try lia.
    + by apply (Hg i j).
    + apply lookup_lt_Some in Hj'. lia.
    + destruct (Hok _ _ Hi') as [[_ HA] _]. rewrite Hk, Kj in HA. lia.
  - intros k. specialize (H0 k). specialize (Hge k). lia.
Qed.

Lemma load_ok ctx id c : coordinator_ok c -> coordinator_ok (acquire_load ctx id c).2.
Proof.
  intros Hc. unfold acquire_load. destruct (objects c !! id) as [l|] eqn:Hid; [|done].
  destruct (l_phase l) as [initial| | |] eqn:Hph; try done.
  destruct (proj1 Hc _ _ Hid) as (A & B & C & D & E & F). rewrite Hph in F. destruct F as [F1 F2].
  pose proof (law_load_or_create ctx (l_key l) initial (store c)) as Hlaw.
  assert (Hr : registered l = true) by (unfold registered; by rewrite F1).
  destruct (store_LoadOrCreate ctx (l_key l) initial (store c)) as [[[sn created]|e] st]; cbn [snd].
  - eapply upd_ok; try done; [| |].
    + intros k Hk. destruct Hlaw as [(_ & _ & ->)|(_ & _ & _ & ->)]; [done|by rewrite lookup_insert_ne].
    + by rewrite Hr.
    + do 5 (split; [done|]). cbn. split_and!; [done..|].
      destruct Hlaw as [(_ & Hsn & ->)|(_ & -> & _ & ->)]; [done|by rewrite lookup_insert_eq].
  - eapply upd_ok; try done. by rewrite Hlaw.
Qed.

Lemma publish_ok id c : coordinator_ok c -> coordinator_ok (acquire_publish id c).2.
Proof.
  intros Hc. unfold acquire_publish. destruct (objects c !! id) as [l|] eqn:Hid; [|done].
  destruct (l_phase l) as [|sn created| |] eqn:Hph; try done.
  destruct (proj1 Hc _ _ Hid) as (A & B & C & D & E & F). rewrite Hph in F. destruct F as (F1 & F2 & F3).
  destruct (l_cause l) as [e|]; cbn [snd]; eapply upd_ok_same; try done.
  do 4 (split; [done|]). split; [by intros ?%E|]. cbn. intros _ _. by rewrite Snapshot_Clone_id.
Qed.

Lemma op_begin_ok ctx id op c : coordinator_ok c -> coordinator_ok (op_begin ctx id op c).2.
Proof.
  intros Hc. unfold op_begin. destruct (objects c !! id) as [l|] eqn:Hid; [|done].
  destruct (ensureActiveLocked l id c) eqn:Ha; [|done]. destruct ctx; [done|]. cbn [snd].
  destruct (proj1 Hc _ _ Hid) as (A & B & C & D & E & F). eapply upd_ok_same; try done.
  do 4 (split; [done|]). split; [|done]. intros _. unfold ensureActiveLocked in Ha. cbn.
  destruct (l_ready l); [|done]. destruct (l_released l); [done|]. split; [done|].
  symmetry in B. apply bool_decide_eq_false_1 in B. by apply dec_stable.
Qed.

Lemma op_end_ok ctx id c : coordinator_ok c -> coordinator_ok (op_end ctx id c).2.
Proof.
  intros Hc. unfold op_end. destruct (objects c !! id) as [l|] eqn:Hid; [|done].
  destruct (proj1 Hc _ _ Hid) as (A & B & C & D & E & F).
  destruct (l_opMu l) as [[next|]|] eqn:Hop; [| |done].
  all: destruct (E (mk_is_Some _ _ eq_refl)) as [E1 E2]; rewrite E1, E2 in F.
  all: assert (Hph : l_phase l = Returned) by (destruct (l_phase l); naive_solver); rewrite Hph in F.
  - pose proof (law_save (op_ctx l ctx) (l_key l) next (store c)) as Hlaw.
    destruct (store_Save _ _ _ _) as [[?|e] st]; cbn [snd]; eapply upd_ok; try done.
    + intros k Hk. by rewrite Hlaw, lookup_insert_ne.
    + unfold registered. by rewrite E2.
    + do 4 (split; [done|]). split; [by intros []|]. cbn. rewrite Hph. intros _ _.
      by rewrite Snapshot_Clone_id, Hlaw, lookup_insert_eq.
    + by rewrite Hlaw.
    + do 4 (split; [done|]). split; [by intros []|]. cbn. rewrite Hph, Hlaw. auto.
  - pose proof (law_delete (op_ctx l ctx) (l_key l) (store c)) as Hlaw.
    destruct (store_Delete _ _ _) as [[?|e] st]; cbn [snd]; eapply upd_ok; try done.
    + intros k Hk. by rewrite Hlaw, lookup_delete_ne.
    + unfold registered. by rewrite E2.
    + do 4 (split; [done|]). split; [by intros []|]. cbn. by rewrite Hph.
    + by rewrite Hlaw.
    + do 4 (split; [done|]). split; [by intros []|]. cbn. rewrite Hph, Hlaw. auto.
Qed.

Lemma release_mark_ok id c :
  opMu_free id c = true -> may_release id c = true -> coordinator_ok c -> coordinator_ok (release_mark id c).
Proof.
  unfold opMu_free, may_release, release_mark. destruct (objects c !! id) as [l|] eqn:Hid; [|done].
  intros Hmu Hph Hc. bools. destruct (l_once l) eqn:Ho; [|done..].
  destruct (proj1 Hc _ _ Hid) as (A & B & C & D & E & F). unfold registered in C, D. rewrite Ho in C, D.
  eapply upd_ok_same; try done. split; [done|]. split; [done|].
  split; [done|]. split; [done|]. cbn. rewrite Hmu. split; [by intros []|]. by destruct (l_phase l).
Qed.

Lemma unregister_ok id c : coordinator_ok c -> coordinator_ok (release_unregister id c).
Proof.
  intros Hc. unfold release_unregister. destruct (objects c !! id) as [l|] eqn:Hid; [|done].
  destruct (l_once l) eqn:Ho; try done.
  destruct (proj1 Hc _ _ Hid) as (A & B & C & D & E & F). unfold registered in C. rewrite Ho in C.
  destruct (C eq_refl) as [C1 C2]. rewrite bool_decide_eq_true_2 by done.
  destruct Hc as (Hok & Hm & Hg & H0). split_and!; cbn [objects leases upd].
  - intros j lj Hj. destruct (decide (j = id)) as [->|Hne].
    + rewrite list_lookup_alter_eq, Hid in Hj. cbn in Hj. simplify_eq. split; [done|]. split; [done|].
      unfold registered. cbn. rewrite lookup_delete_eq. split; [done|]. split; [done|].
      rewrite Ho in *. split; [naive_solver|]. destruct (l_phase l); naive_solver.
    + rewrite list_lookup_alter_ne in Hj by done. specialize (Hok _ _ Hj) as Hj'.
      destruct (Hj') as (A' & B' & C' & D' & E' & F'). split; [done|]. split; [done|]. cbn [leases].
      destruct (decide (l_key lj = l_key l)) as [Hk|Hk].
      * assert (delete (l_key l) (leases c) !! l_key lj = None) as -> by (rewrite Hk; apply lookup_delete_eq).
        split; [|done]. intros Hr. destruct (C' Hr). congruence.
      * rewrite lookup_delete_ne by done. done.
  - intros k j [Hk Hj]%lookup_delete_Some. destruct (Hm k j Hj) as (lj & Hlj & Kj). exists lj.
    split; [|done]. rewrite list_lookup_alter_ne; [done|]. intros <-. congruence.
  - intros i j li lj Hij Hi Hj Hk.
    destruct (alter_back _ _ (with_once Unregistered true) l Hid eq_refl eq_refl _ _ Hi) as (li0 & Hi0 & Ki & <-).
    destruct (alter_back _ _ (with_once Unregistered true) l Hid eq_refl eq_refl _ _ Hj) as (lj0 & Hj0 & Kj & <-).
    apply (Hg i j); congruence.
  - exact H0.
Qed.

Lemma close_ok id c : coordinator_ok c -> coordinator_ok (release_close id c).
Proof.
  intros Hc. unfold release_close. destruct (objects c !! id) as [l|] eqn:Hid; [|done].
  destruct (l_once l) eqn:Ho; try done.
  destruct (proj1 Hc _ _ Hid) as (A & B & C & D & E & F). unfold registered in C, D. rewrite Ho in *.
  eapply upd_ok_same; try done. split; [done|]. split; [done|]. split; [done|]. split; [done|]. cbn.
  split; [naive_solver|]. destruct (l_phase l); naive_solver.
Qed.

Lemma coordinator_step_ok ev c c' : step ev c = Some c' -> coordinator_ok c -> coordinator_ok c'.
Proof.
  intros Hs Hc. destruct ev; cbn in Hs; repeat case_match; simplify_eq; bools.
  - by apply register_ok.
  - by apply load_ok.
  - by apply publish_ok.
  - by apply cancel_ok.
  - by apply cancel_ok.
  - unfold save_begin. destruct (objects c !! id); [|done]. destruct (negb _); [done|]. by apply op_begin_ok.
  - by apply op_begin_ok.
  - by apply op_end_ok.
  - by apply release_mark_ok.
  - by apply unregister_ok.
  - by apply close_ok.
Qed.

Lemma coordinator_reachable_ok c : reachable c -> coordinator_ok c.
Proof.
  induction 1 as [st|ev c c' _ IH Hs]; [|by eapply coordinator_step_ok].
  by split_and!.
Qed.

(** ** What the invariant gives *)

Lemma top_generation c id l j lj :
  coordinator_ok c -> objects c !! id = Some l -> registered l = true ->
  objects c !! j = Some lj -> l_key lj = l_key l -> j <> id -> l_generation lj < l_generation l.
Proof.
  intros (Hok & _ & Hg & _) Hid Hr Hj Hk Hne. destruct (Hok _ _ Hid) as (_ & _ & C & _).
  destruct (C Hr) as [_ Htop]. destruct (Hok _ _ Hj) as [[_ Hle] _]. rewrite Hk in Hle.
  destruct (Nat.lt_total j id) as [Hlt|[->|Hlt]]; [by apply (Hg j id)|done|].
  pose proof (Hg id j l lj Hlt Hid Hj (eq_sym Hk)). lia.
Qed.

(** The events that reach the store. *)
Lemma step_store ev c c' k :
  coordinator_ok c -> step ev c = Some c' -> contents (store c') !! k <> contents (store c) !! k ->
  exists id l, actor ev = Some id /\ objects c !! id = Some l /\ l_key l = k /\ l_once l = NotReleased.
Proof.
  intros (Hok & _) Hs Hne. destruct ev; cbn in Hs; repeat case_match; simplify_eq; try done.
  - unfold acquire_register in Hne. repeat case_match; done.
  - unfold acquire_load in Hne. destruct (objects c !! id) as [l|] eqn:Hid; [|done].
    destruct (l_phase l) as [i| | |] eqn:Hph; try done. exists id, l. destruct (Hok _ _ Hid) as (_ & _ & _ & _ & _ & F).
    rewrite Hph in F. split_and!; [done..| |by destruct F]. pose proof (law_load_or_create ctx (l_key l) i (store c)) as Hlaw.
    destruct (decide (l_key l = k)) as [|Hk]; [done|]. destruct Hne.
    destruct (store_LoadOrCreate _ _ _ _) as [[[sn cr]|e] st]; cbn; [|by rewrite Hlaw].
    destruct Hlaw as [(_ & _ & ->)|(_ & _ & _ & ->)]; [done|by rewrite lookup_insert_ne].
  - unfold acquire_publish in Hne. repeat case_match; done.
  - unfold save_begin, op_begin in Hne. repeat case_match; done.
  - unfold op_begin in Hne. repeat case_match; done.
  - unfold op_end in Hne. destruct (objects c !! id) as [l|] eqn:Hid; [|done].
    destruct (l_opMu l) as [op|] eqn:Hop; [|done]. exists id, l. destruct (Hok _ _ Hid) as (_ & _ & _ & _ & E & _).
    rewrite Hop in E. destruct (E (mk_is_Some _ _ eq_refl)) as [_ E2]. split_and!; [done..| |done].
    destruct (decide (l_key l = k)) as [|Hk]; [done|]. destruct Hne.
    pose proof (law_delete (op_ctx l ctx) (l_key l) (store c)) as Hd. destruct op as [next|].
    + pose proof (law_save (op_ctx l ctx) (l_key l) next (store c)) as Hsv.
      destruct (store_Save _ _ _ _) as [[]?]; cbn; rewrite Hsv; [by rewrite lookup_insert_ne|done].
    + destruct (store_Delete _ _ _) as [[]?]; cbn; rewrite Hd; [by rewrite lookup_delete_ne|done].
  - unfold release_mark in Hne. repeat case_match; done.
  - unfold release_unregister in Hne. repeat case_match; done.
  - unfold release_close in Hne. repeat case_match; done.
Qed.

Lemma Snapshot_durable id c sn :
  coordinator_ok c -> localLease_Snapshot id c = Ok sn ->
  exists l, objects c !! id = Some l /\ l_snapshot l = sn /\ contents (store c) !! l_key l = Some sn.
Proof.
  intros Hc Hsn. unfold localLease_Snapshot in Hsn. destruct (objects c !! id) as [l|] eqn:Hid; [|done].
  destruct (proj1 Hc _ _ Hid) as (_ & B & _ & _ & _ & F).
  unfold mbind, result_bind, ensureActiveLocked in Hsn.
  destruct (l_ready l) eqn:Hr; [|done]. destruct (l_released l) eqn:Hrel; [done|]. simpl in Hsn.
  destruct (l_cause l); [done|]. destruct (bool_decide _); [|done]. injection Hsn as <-. rewrite Snapshot_Clone_id.
  assert (Ho : l_once l = NotReleased).
  { symmetry in B. apply bool_decide_eq_false_1 in B. by apply dec_stable. }
  exists l. split_and!; [done..|]. destruct (l_phase l); naive_solver.
Qed.

(** * Properties *)

(** C4. Fencing: in every interleaving of acquisitions, saves, deletes, retirements
    and releases, the durable state of a key only ever changes in a step of the
    lease that currently owns the key, which is not released and whose generation
    is greater than that of every other lease ever given out for the key; a stale
    owner cannot write, also not with an operation it started before the takeover. *)
Theorem lease_fencing (c c' : LocalCoordinator) (ev : event) (k : SessionKey) :
  reachable c -> step ev c = Some c' -> contents (store c') !! k <> contents (store c) !! k ->
  exists id l,
    actor ev = Some id /\ objects c !! id = Some l /\ l_key l = k /\ l_released l = false /\
    leases c !! k = Some id /\
    forall j lj, objects c !! j = Some lj -> l_key lj = k -> j <> id -> l_generation lj < l_generation l.
Proof.
  intros Hc%coordinator_reachable_ok Hs Hne. destruct (step_store ev c c' k Hc Hs Hne) as (id & l & Ha & Hid & Hk & Ho).
  assert (Hr : registered l = true) by (unfold registered; by rewrite Ho).
  destruct (proj1 Hc _ _ Hid) as (_ & B & C & _). destruct (C Hr) as [Hl _]. rewrite Hk in Hl.
  exists id, l. split_and!; try done.
  - rewrite B, Ho. done.
  - intros j lj Hj Hkj. apply (top_generation c id l j lj); congruence.
Qed.

(** An active lease always reports the durable state: in every reachable state,
    a snapshot a lease hands out is what the store holds for its key, so a cached
    snapshot can neither lag behind the store nor run ahead of it. *)
Lemma lease_snapshot_is_durable (c : LocalCoordinator) (id : nat) (sn : Snapshot) :
  reachable c -> localLease_Snapshot id c = Ok sn ->
  exists l, objects c !! id = Some l /\ store_Load None (l_key l) (store c) = Ok sn.
Proof.
  intros Hc%coordinator_reachable_ok Hsn. destruct (Snapshot_durable id c sn Hc Hsn) as (l & Hid & _ & Hst).
  exists l. by rewrite law_load, Hst.
Qed.

End coordinator.

Lemma last_lookup {A} (l : list A) (x : A) : (l ++ [x]) !! length l = Some x.
Proof. by rewrite lookup_app_r, Nat.sub_diag by lia. Qed.

Lemma upd_last {S} (st : S) L G os l f :
  upd (length os) f {| store := st; leases := L; generations := G; objects := os ++ [l] |} =
  {| store := st; leases := L; generations := G; objects := os ++ [f l] |}.
Proof. unfold upd. cbn. f_equal. rewrite <- (Nat.add_0_r (length os)). by rewrite alter_app_r. Qed.

Lemma last_active {S} (st : S) L G os l :
  L !! l_key l = Some (length os) -> l_ready l = true -> l_released l = false -> l_cause l = None ->
  ensureActiveLocked l (length os) {| store := st; leases := L; generations := G; objects := os ++ [l] |} = Ok tt.
Proof.
  intros Hk Hr Hrel Hca. unfold ensureActiveLocked. rewrite Hr, Hrel, Hca. cbn [leases].
  by rewrite bool_decide_eq_true_2.
Qed.

Lemma last_snapshot {S} (st : S) L G os l :
  L !! l_key l = Some (length os) -> l_ready l = true -> l_released l = false -> l_cause l = None ->
  localLease_Snapshot (length os) {| store := st; leases := L; generations := G; objects := os ++ [l] |} = Ok (l_snapshot l).
Proof.
  intros Hk Hr Hrel Hca. unfold localLease_Snapshot. cbn [objects]. rewrite last_lookup, last_active by done.
  cbn. by rewrite Snapshot_Clone_id.
Qed.

(** Hand-over: when the key has no owner and its generations are not
    exhausted, Acquire over the in-memory store succeeds at once with the next
    generation; its lease is active, holds the stored snapshot if there is one and
    otherwise stores the initial one, and Created tells which; a Save through it
    is then what it reports and what the store returns. *)
Lemma Acquire_hands_over (c : LocalCoordinator) (key : SessionKey) (initial next : Snapshot) :
  reachable c -> leases c !! key = None -> generation_of c key < MaxInt64 ->
  Snapshot_Key initial = key -> Snapshot_Key next = key ->
  exists id c1 c2 l,
    Acquire None key initial c = (Ok (Registered id), c1) /\
    objects c1 !! id = Some l /\ l_generation l = generation_of c key + 1 /\
    localLease_Snapshot id c1 = Ok (default initial (snapshots (store c) !! key)) /\
    localLease_Created id c1 = bool_decide (snapshots (store c) !! key = None) /\
    localLease_Save None id next c1 = (Ok tt, c2) /\
    localLease_Snapshot id c2 = Ok next /\ MemoryStore_Load None key (store c2) = Ok next.
Proof.
  intros Hc%coordinator_reachable_ok Hfree Hgen Hki Hkn. destruct Hc as (_ & _ & _ & H0). specialize (H0 key).
  assert (Hg : int64 (generation_of c key + 1) = generation_of c key + 1).
  { apply wrapS_id; [lia|]. unfold inS, MaxInt64 in *. lia. }
  unfold Acquire, acquire_register. rewrite bool_decide_eq_true_2, Hfree, Hg by done.
  rewrite (proj2 (Z.leb_gt _ _)) by lia. cbn [negb].
  set (l0 := {| l_key := key |}). set (L := <[key := _]> (leases c)). set (G := <[key := _]> (generations c)).
  unfold mbind, ST_bind, st_bind, acquire_load. cbn [objects]. rewrite last_lookup. cbn [l_phase l0 l_key store].
  set (sn := default initial (snapshots (store c) !! key)).
  set (created := bool_decide (snapshots (store c) !! key = None)).
  assert (Hlc : store_LoadOrCreate None key initial (store c) =
    (Ok (sn, created), {| snapshots := <[key := sn]> (snapshots (store c)) |})).
  { cbn. unfold MemoryStore_LoadOrCreate, sn, created. rewrite bool_decide_eq_true_2 by done. cbn [negb].
    destruct (store c) as [m]. cbn [snapshots]. destruct (m !! key) as [x|] eqn:E; rewrite !Snapshot_Clone_id; cbn.
    - by rewrite insert_id.
    - done. }
  rewrite Hlc. unfold set_store at 1. cbn [store leases generations objects]. rewrite upd_last.
  unfold acquire_publish. cbn [objects]. rewrite last_lookup. cbn [l_phase with_phase l_cause]. rewrite upd_last, Snapshot_Clone_id.
  set (l1 := (with_phase Returned ∘ _ ∘ _ ∘ _) _).
  set (c1 := {| store := _; leases := _; generations := _; objects := objects c ++ [l1] |}).
  eexists (length (objects c)), c1, _, l1. split_and!; [done| |done| | | | |].
  - apply last_lookup.
  - by apply last_snapshot; [apply lookup_insert_eq|..].
  - unfold localLease_Created. cbn [objects c1]. rewrite last_lookup. done.
  - unfold localLease_Save, mbind, ST_bind, st_bind, save_begin. cbn [objects c1]. rewrite last_lookup.
    cbn [l_key l1 compose with_phase with_ready with_created with_snapshot]. rewrite bool_decide_eq_true_2 by done. cbn [negb].
    unfold op_begin. cbn [objects c1]. rewrite last_lookup. unfold c1. rewrite last_active; [|apply lookup_insert_eq|done..]. rewrite upd_last.
    unfold op_end. cbn [objects]. rewrite last_lookup. cbn [l_opMu with_op].
    unfold op_ctx. cbn [l_cause with_op l1 compose with_phase with_ready with_created with_snapshot l0].
    cbn [store_Save MemoryStore_store store l_key]. unfold MemoryStore_Save.
    rewrite bool_decide_eq_true_2 by done. cbn [negb]. unfold set_store. cbn [store leases generations objects].
    rewrite upd_last. reflexivity.
  - rewrite last_snapshot; [|apply lookup_insert_eq|done..]. cbn. by rewrite Snapshot_Clone_id.
  - cbn. by rewrite lookup_insert_eq, !Snapshot_Clone_id.
Qed.

(** * Witnesses *)

Definition sample_key : SessionKey := {| AuthKeyID := 0; SessionID := 0 |}.

(** A lease registered, loaded and published. *)
Definition sample_run : list event :=
  [EvRegister None sample_key zero_Snapshot; EvLoad None 0; EvPublish 0].

Definition run (evs : list event) (c : LocalCoordinator (S := MemoryStore)) : option LocalCoordinator :=
  foldl (fun oc ev => c ← oc; step ev c) (Some c) evs.

Lemma run_reachable evs c c' : reachable c -> run evs c = Some c' -> reachable c'.
Proof.
  revert c. induction evs as [|ev evs IH]; intros c Hc; cbn; [by intros [= <-]|].
  destruct (step ev c) as [c1|] eqn:E.
  - apply IH. by eapply reach_step.
  - replace (foldl _ None evs) with (@None (LocalCoordinator (S := MemoryStore))); [done|]. by clear; induction evs.
Qed.

Definition sample_coordinator : LocalCoordinator :=
  default (NewLocalCoordinator NewMemoryStore) (run sample_run (NewLocalCoordinator NewMemoryStore)).

Lemma sample_reachable : reachable sample_coordinator.
Proof. by apply (run_reachable sample_run (NewLocalCoordinator NewMemoryStore)); [constructor|]. Qed.

Lemma lease_fencing_witness :
  exists id l, actor (EvLoad None 0) = Some id /\ l_key l = sample_key /\ l_generation l = 1.
Proof.
  set (c := NewLocalCoordinator NewMemoryStore). set (c1 := (acquire_register None sample_key zero_Snapshot c).2).
  destruct (lease_fencing c1 (acquire_load None 0 c1).2 (EvLoad None 0) sample_key) as (id & l & Ha & Hid & Hk & _).
  - by apply (run_reachable [EvRegister None sample_key zero_Snapshot] c); [constructor|].
  - reflexivity.
  - by vm_compute.
  - exists id, l. split_and!; [done..|]. injection Ha as <-. vm_compute in Hid. by injection Hid as <-.
Defined.

Lemma lease_snapshot_is_durable_witness :
  localLease_Snapshot 0 sample_coordinator = Ok zero_Snapshot /\
  exists l, objects sample_coordinator !! 0%nat = Some l /\
    store_Load None (l_key l) (store sample_coordinator) = Ok zero_Snapshot.
Proof.
  split; [by vm_compute|].
  apply (lease_snapshot_is_durable sample_coordinator 0 zero_Snapshot sample_reachable). by vm_compute.
Defined.

Lemma Acquire_hands_over_witness :
  exists id c1, Acquire None sample_key zero_Snapshot (localLease_Release 0 sample_coordinator) = (Ok (Registered id), c1) /\
    localLease_Created id c1 = false.
Proof.
  destruct (Acquire_hands_over (localLease_Release 0 sample_coordinator) sample_key zero_Snapshot zero_Snapshot)
    as (id & c1 & c2 & l & Ha & _ & _ & _ & Hc & _).
  - refine (run_reachable [EvReleaseMark 0; EvUnregister 0; EvClose 0] sample_coordinator _ sample_reachable _). vm_compute. reflexivity.
  - by vm_compute.
  - by vm_compute.
  - done.
  - done.
  - exists id, c1. split; [done|]. rewrite Hc. by vm_compute.
Defined.
