(* ===== verification/MsgId.v ===== *)
(** Message ids and sequence numbers: mtproto/msgid.go and mtproto/seqno.go.
    A clock reading is its Unix seconds and nanoseconds; the theorems assume
    nothing of the clock's progress, only that it is a date MTProto can write. *)

From stdpp Require Import base numbers list.
From S2P Require Import Prelude.
Open Scope Z_scope.

(** * Message ids *)

Inductive msgIDKind := msgIDResponse | msgIDPush.

Record clock := { Unix : Z; Nanosecond : Z }.

Record MsgIDGenerator := { last : Z }.

Definition NewMsgIDGenerator : MsgIDGenerator := {| last := 0 |}.

(** [z &^ 3] *)
Definition clear3 (z : Z) : Z := Z.ldiff z 3.

Definition MsgIDGenerator_Next (now : clock) (g : MsgIDGenerator) : Z * MsgIDGenerator :=
  let intPart := Unix now in
  let fracPart := clear3 (Nanosecond now) in
  let msgID := Z.lor (int64 (Z.shiftl intPart 32)) fracPart in
  let msgID := if msgID <=? last g then int64 (last g + 4) else msgID in
  (msgID, {| last := msgID |}).

Definition nextServerMsgID (kind : msgIDKind) (now : clock) (g : MsgIDGenerator) : Z * MsgIDGenerator :=
  let '(id, g) := MsgIDGenerator_Next now g in
  let base := clear3 id in
  (match kind with msgIDResponse => Z.lor base 1 | msgIDPush => Z.lor base 3 end, g).

(** The ids of a run of calls. *)
Fixpoint server_ids (calls : list (msgIDKind * clock)) (g : MsgIDGenerator) : list Z :=
  match calls with
  | [] => []
  | (kind, now) :: calls' =>
      let '(id, g) := nextServerMsgID kind now g in id :: server_ids calls' g
  end.

(** * Sequence numbers *)

Record SeqNoGenerator := { seq : Z }.

Definition NewSeqNoGenerator (initial : Z) : SeqNoGenerator := {| seq := initial |}.

Definition SeqNoGenerator_Next (contentRelated : bool) (g : SeqNoGenerator) : Z * SeqNoGenerator :=
  if contentRelated then (int32 (int32 (seq g * 2) + 1), {| seq := int32 (seq g + 1) |})
  else (int32 (seq g * 2), g).

Definition SeqNoGenerator_Value (g : SeqNoGenerator) : Z := seq g.

Fixpoint seqnos (flags : list bool) (g : SeqNoGenerator) : list Z * SeqNoGenerator :=
  match flags with
  | [] => ([], g)
  | f :: flags' =>
      let '(n, g) := SeqNoGenerator_Next f g in
      let '(ns, g) := seqnos flags' g in (n :: ns, g)
  end.

(** * Facts *)

(** A date MTProto can write: the seconds are a positive 31-bit number. *)
Definition clock_ok (now : clock) : Prop := 0 <= Unix now < 2 ^ 31 /\ 0 <= Nanosecond now < 10 ^ 9.

Lemma clear3_spec z : clear3 z = z - z mod 4.
Proof.
  unfold clear3. change 3 with (Z.ones 2). rewrite Z.ldiff_ones_r by lia.
  rewrite Z.shiftl_mul_pow2, Z.shiftr_div_pow2 by lia. change (2 ^ 2) with 4.
  pose proof (Z.div_mod z 4). lia.
Qed.

Lemma lor_add_low z k n : 0 <= n -> 0 <= k < 2 ^ n -> z mod 2 ^ n = 0 -> Z.lor z k = z + k.
Proof.
  intros Hn Hk Hz. symmetry. rewrite <- Z.lxor_lor, <- Z.add_nocarry_lxor; [done|..].
  all: apply Z.bits_inj'; intros i Hi; rewrite Z.land_spec, Z.bits_0.
  all: destruct (Z.lt_ge_cases i n).
  1,3: apply andb_false_intro1; rewrite <- (Z.mod_pow2_bits_low z n) by lia; by rewrite Hz, Z.bits_0.
  all: apply andb_false_intro2; destruct (Z.eq_dec k 0) as [->|]; [apply Z.bits_0|];
    apply Z.bits_above_log2; [lia|]; apply (Z.lt_le_trans _ n); [|done]; apply Z.log2_lt_pow2; lia.
Qed.

(** The id the clock asks for. *)
Definition clock_id (now : clock) : Z := Unix now * 2 ^ 32 + clear3 (Nanosecond now).

Lemma clock_id_range now : clock_ok now -> 0 <= clock_id now < 2 ^ 63 /\ clock_id now mod 4 = 0.
Proof.
  intros [Hu Hn]. unfold clock_id. rewrite clear3_spec.
  pose proof (Z.mod_pos_bound (Nanosecond now) 4). pose proof (Z.div_mod (Nanosecond now) 4).
  split; [lia|]. replace (Unix now * 2 ^ 32 + (Nanosecond now - Nanosecond now mod 4))
    with (0 + (Unix now * 2 ^ 30 + Nanosecond now / 4) * 4) by lia. by rewrite Z.mod_add.
Qed.

Lemma Next_eq now g :
  clock_ok now ->
  MsgIDGenerator_Next now g =
  (let id := if clock_id now <=? last g then int64 (last g + 4) else clock_id now in (id, {| last := id |})).
Proof.
  intros Hok. pose proof (clock_id_range now Hok) as [Hr _]. destruct Hok as [Hu Hn].
  unfold MsgIDGenerator_Next. rewrite Z.shiftl_mul_pow2 by lia.
  rewrite wrapS_id by (unfold inS; lia).
  assert (Hc : Z.lor (Unix now * 2 ^ 32) (clear3 (Nanosecond now)) = clock_id now).
  { unfold clock_id. apply (lor_add_low _ _ 32); [lia| |by rewrite Z.mod_mul by lia].
    rewrite clear3_spec. pose proof (Z.mod_pos_bound (Nanosecond now) 4). pose proof (Z.mod_le (Nanosecond now) 4). lia. }
  by rewrite Hc.
Qed.

(** The generator's last id is a multiple of four. *)
Definition gen_ok (g : MsgIDGenerator) : Prop := 0 <= last g /\ last g mod 4 = 0.

Lemma Next_ok now g :
  clock_ok now -> gen_ok g -> last g + 4 < 2 ^ 63 ->
  let '(id, g') := MsgIDGenerator_Next now g in
  id = last g' /\ last g + 4 <= id /\ clock_id now <= id /\ id mod 4 = 0 /\ gen_ok g' /\ id <= Z.max (clock_id now) (last g + 4).
Proof.
  intros Hok [Hg Hm] Hroom. rewrite Next_eq by done. cbv zeta. pose proof (clock_id_range now Hok) as [Hr Hcm].
  unfold gen_ok. cbn [last].
  destruct (Z.leb_spec (clock_id now) (last g)).
  - rewrite wrapS_id by (unfold inS; lia).
    assert ((last g + 4) mod 4 = 0) by (rewrite <- Hm, <- (Z.mod_add (last g) 1 4) by lia; f_equal; lia).
    lia.
  - split_and!; try lia. Z.to_euclidean_division_equations; lia.
Qed.

Definition kind_bits (kind : msgIDKind) : Z := match kind with msgIDResponse => 1 | msgIDPush => 3 end.

Lemma nextServerMsgID_ok kind now g :
  clock_ok now -> gen_ok g -> last g + 4 < 2 ^ 63 ->
  let '(id, g') := nextServerMsgID kind now g in
  id = last g' + kind_bits kind /\ last g + 4 <= last g' /\ clock_id now <= last g' /\ gen_ok g' /\
  last g' <= Z.max (clock_id now) (last g + 4).
Proof.
  intros Hok Hg Hroom. unfold nextServerMsgID. pose proof (Next_ok now g Hok Hg Hroom) as Hn.
  destruct (MsgIDGenerator_Next now g) as [id g']. destruct Hn as (-> & Hlt & Hc & Hm & Hg' & Hmax).
  assert (clear3 (last g') = last g') as -> by (rewrite clear3_spec; lia).
  split_and!; try done; try apply Hg'.
  destruct kind; (apply (lor_add_low _ _ 2); [lia|simpl; lia|done]).
Qed.

Lemma server_ids_ordered (calls : list (msgIDKind * clock)) (g : MsgIDGenerator) :
  gen_ok g -> (forall kind now, (kind, now) ∈ calls -> clock_ok now /\ clock_id now + 4 * len calls < 2 ^ 63) ->
  last g + 4 * len calls < 2 ^ 63 ->
  Forall2 (fun call id => id mod 4 = kind_bits call.1 /\ clock_id call.2 < id /\ last g + 4 < id < 2 ^ 63) calls (server_ids calls g) /\
  forall i j a b, (i < j)%nat -> server_ids calls g !! i = Some a -> server_ids calls g !! j = Some b -> a < b.
Proof.
  revert g. induction calls as [|[kind now] calls IH]; intros g Hg Hclk Hroom; cbn [server_ids].
  { split; [constructor|]. intros i j a b _ Ha. by rewrite lookup_nil in Ha. }
  rewrite len_cons in *. pose proof (len_nonneg calls).
  destruct (Hclk kind now) as [Hok Hfar]; [left|].
  pose proof (nextServerMsgID_ok kind now g Hok Hg ltac:(lia)) as Hn.
  destruct (nextServerMsgID kind now g) as [id g']. destruct Hn as (-> & Hlt & Hc & Hg' & Hmax).
  destruct (IH g' Hg') as [IH1 IH2]; [|lia|].
  { intros k n Hin. destruct (Hclk k n) as [? ?]; [by right|]. split; [done|lia]. }
  split.
  - constructor.
    + destruct Hg' as [_ Hm]. cbn [fst snd].
      assert (last g' + 3 < 2 ^ 63) by (clear IH IH1 IH2 Hclk; Z.to_euclidean_division_equations; lia). split_and!; [|destruct kind; cbn [kind_bits]; lia..].
      rewrite Z.add_mod, Hm by lia. by destruct kind.
    + eapply Forall2_impl; [exact IH1|]. cbn. intros x y ?. lia.
  - intros i j a b Hij Ha Hb. destruct j as [|j]; [lia|]. cbn in Hb. destruct i as [|i]; cbn in Ha.
    + injection Ha as <-. pose proof (Forall2_lookup_r _ _ _ _ _ IH1 Hb) as (x & _ & Hx & _ & Hlast).
      destruct kind; cbn in *; lia.
    + by apply (IH2 i j); [lia|..].
Qed.

(** * Properties *)

(** Server message ids are strictly increasing and carry their kind in the low
    bits, whatever the clock does: over any run of calls on one generator, with a
    clock that may stand still or go back, every id is greater than all before
    it, is 1 modulo 4 for a response and 3 modulo 4 for a push, and is not below
    the id of its own clock reading, and never wraps around.  The run is assumed to stay 4 * length ids
    away from the end of the 63-bit range. *)
Lemma server_ids_increase (calls : list (msgIDKind * clock)) (g : MsgIDGenerator) :
  gen_ok g -> (forall kind now, (kind, now) ∈ calls -> clock_ok now /\ clock_id now + 4 * len calls < 2 ^ 63) ->
  last g + 4 * len calls < 2 ^ 63 ->
  Forall2 (fun call id => id mod 4 = kind_bits call.1 /\ clock_id call.2 < id /\ last g + 4 < id < 2 ^ 63) calls (server_ids calls g) /\
  forall i j a b, (i < j)%nat -> server_ids calls g !! i = Some a -> server_ids calls g !! j = Some b -> a < b.
Proof. apply server_ids_ordered. Qed.

Lemma server_ids_increase_witness :
  Forall2 (fun call id => id mod 4 = kind_bits call.1 /\ clock_id call.2 < id /\ 0 + 4 < id < 2 ^ 63)
    [(msgIDPush, {| Unix := 5; Nanosecond := 7 |}); (msgIDResponse, {| Unix := 3; Nanosecond := 0 |})]
    [5 * 2 ^ 32 + 7; 5 * 2 ^ 32 + 9].
Proof.
  apply (server_ids_increase
    [(msgIDPush, {| Unix := 5; Nanosecond := 7 |}); (msgIDResponse, {| Unix := 3; Nanosecond := 0 |})] NewMsgIDGenerator).
  - by split.
  - intros kind now. rewrite !elem_of_cons, elem_of_nil. intros [[= -> ->]|[[= -> ->]|[]]];
      (split; [split; (split; by vm_compute)|by vm_compute]).
  - by vm_compute.
Defined.

Lemma seqnos_app flags flags' g ns g' :
  seqnos flags g = (ns, g') ->
  seqnos (flags ++ flags') g = (ns ++ (seqnos flags' g').1, (seqnos flags' g').2).
Proof.
  revert g ns. induction flags as [|f flags IH]; intros g ns; cbn [seqnos app].
  - intros [= <- <-]. by destruct (seqnos flags' g).
  - destruct (SeqNoGenerator_Next f g) as [n g1]. destruct (seqnos flags g1) as [ns1 g2] eqn:E.
    intros [= <- <-]. by rewrite (IH _ _ E).
Qed.

(** Sequence numbers follow the MTProto rule over every history: the number of
    a message is twice the number of content-related messages before it (counted
    from the generator's start), plus one when it is content-related itself, and
    the generator ends at the count, as long as the counts fit. *)
Lemma seqnos_count_content (flags : list bool) (initial : Z) :
  0 <= initial -> 2 * (initial + len flags) < 2 ^ 31 ->
  seqnos flags (NewSeqNoGenerator initial) =
  (imap (fun i f => 2 * (initial + len (filter (fun b : bool => b) (take i flags))) + Z.b2z f) flags,
   {| seq := initial + len (filter (fun b : bool => b) flags) |}).
Proof.
  unfold NewSeqNoGenerator. revert initial. induction flags as [|f flags IH]; intros n Hn Hroom; cbn [seqnos].
  { cbn. by rewrite len_nil, Z.add_0_r. }
  rewrite len_cons in Hroom. pose proof (len_nonneg flags). unfold SeqNoGenerator_Next. cbn [seq].
  rewrite (wrapS_id 32 (n * 2)) by (unfold inS; lia).
  destruct f; rewrite ?(wrapS_id 32) by (unfold inS; lia); rewrite IH by lia; cbn [imap].
  - f_equal; [f_equal|].
    + cbn. rewrite len_nil. lia.
    + apply imap_ext. intros i x _. unfold compose. cbn [take]. rewrite filter_cons_True by done. rewrite len_cons. lia.
    + f_equal. rewrite filter_cons_True by done. rewrite len_cons. lia.
  - f_equal. f_equal. cbn. rewrite len_nil. lia.
Qed.
