(* ===== verification/Crypto.v ===== *)
(** Message encryption: AES-IGE (crypto/aes.go), the MTProto 2.0 key derivation
    (crypto/dh.go), the message envelopes (mtproto/message.go) and the frames the
    runtime decodes and the writer produces (internal/runtime/envelope.go,
    serializeEncryptedFrame of internal/runtime/writer.go).

    The block cipher, the hashes and the random source are code outside the
    repository: they are parameters, with what is relied on as hypotheses of the
    sections.  A Go panic is an error value. *)

From stdpp Require Import base numbers list gmap strings.
From S2P Require Import Prelude Wire.
Open Scope Z_scope.

Inductive crypto_error :=
| PanicKeySize
| PanicIVSize
| PanicFullBlocks
| ErrMsgKeyMismatch
| ErrMessageLength
| ErrFrameTooShort
| ErrAuthKeyMismatch
| ErrAuthKeySource
| ErrAuthKeyNotFound
| ErrInvalidKeyBinding
| ErrTemporaryKeyAlreadyBound
| ErrTemporaryKeyExpiry
| ErrRead (e : wire_error).

Abbreviation CR := (result crypto_error).

Definition aesBlockSize : nat := 16.
Definition aes256KeySize : Z := 32.
Definition igeIVSize : Z := 32.

Definition xorBlock (a b : bytes) : bytes := zip_with xor_byte a b.

(** The platform's block cipher and hashes. *)
Class Platform := {
  aes_Encrypt : bytes -> bytes -> bytes;
  aes_Decrypt : bytes -> bytes -> bytes;
  sha256 : bytes -> bytes;
  sha1 : bytes -> bytes
}.

(** What the code relies on: AES permutes 16-byte blocks under a 32-byte key,
    the digests have their sizes. *)
Class PlatformLaws `{Platform} := {
  aes_inverse key b : length key = 32%nat -> length b = 16%nat -> aes_Decrypt key (aes_Encrypt key b) = b;
  aes_size key b : length key = 32%nat -> length b = 16%nat -> length (aes_Encrypt key b) = 16%nat;
  aes_dec_size key b : length key = 32%nat -> length b = 16%nat -> length (aes_Decrypt key b) = 16%nat;
  sha256_size data : length (sha256 data) = 32%nat;
  sha1_size data : length (sha1 data) = 20%nat
}.

Section crypto.
Context `{Hplatform : Platform}.

(** * AES-IGE *)

Record ige := { ige_key : bytes; ige_iv : bytes; ige_decrypt : bool }.

(** One block of the loop: the output and the next (prevCipher, prevPlain). *)
Definition igeBlock (decrypt : bool) (key prevCipher prevPlain srcBlock : bytes) : bytes * bytes * bytes :=
  if decrypt then
    let tmp := aes_Decrypt key (xorBlock srcBlock prevPlain) in
    let out := xorBlock tmp prevCipher in
    (out, srcBlock, out)
  else
    let tmp := aes_Encrypt key (xorBlock srcBlock prevCipher) in
    let out := xorBlock tmp prevPlain in
    (out, out, srcBlock).

(** [n] blocks of [src]. *)
Fixpoint igeLoop (n : nat) (decrypt : bool) (key prevCipher prevPlain src : bytes) : bytes * bytes :=
  match n with
  | O => ([], prevCipher ++ prevPlain)
  | S n' =>
      let '(out, prevCipher, prevPlain) := igeBlock decrypt key prevCipher prevPlain (take aesBlockSize src) in
      let '(rest, iv) := igeLoop n' decrypt key prevCipher prevPlain (drop aesBlockSize src) in
      (out ++ rest, iv)
  end.

Definition cryptIGEState (src key iv : bytes) (decrypt : bool) : CR (bytes * bytes) :=
  if negb (Z.rem (len src) 16 =? 0) then Err PanicFullBlocks
  else Ok (igeLoop (Nat.div (length src) 16) decrypt key (take 16 iv) (drop 16 iv) src).

Definition NewAESIGE (key iv : bytes) : CR ige :=
  if negb (len key =? aes256KeySize) then Err PanicKeySize
  else if negb (len iv =? igeIVSize) then Err PanicIVSize
  else Ok {| ige_key := key; ige_iv := iv; ige_decrypt := false |}.

Definition NewAESIGEDecrypt (key iv : bytes) : CR ige :=
  if negb (len key =? aes256KeySize) then Err PanicKeySize
  else if negb (len iv =? igeIVSize) then Err PanicIVSize
  else Ok {| ige_key := key; ige_iv := iv; ige_decrypt := true |}.

Definition CryptBlocks (m : ige) (src : bytes) : CR (bytes * ige) :=
  r ← cryptIGEState src (ige_key m) (ige_iv m) (ige_decrypt m);
  mret (r.1, {| ige_key := ige_key m; ige_iv := r.2; ige_decrypt := ige_decrypt m |}).

(** [EncryptIGE], [DecryptIGE] on a copy of the IV. *)
Definition cryptIGE (src key iv : bytes) (decrypt : bool) : CR bytes :=
  if negb (len iv =? igeIVSize) then Err PanicIVSize
  else r ← cryptIGEState src key iv decrypt; mret r.1.

(** * Key derivation *)

Definition ComputeMsgKey (authKey data : bytes) (fromClient : bool) : bytes :=
  let x := (if fromClient then 0 else 8)%nat in
  let start := (88 + x)%nat in
  slice (sha256 (slice authKey start (start + 32) ++ data)) 8 24.

Definition ComputeKDF (authKey msgKey : bytes) (fromClient : bool) : bytes * bytes :=
  let x := (if fromClient then 0 else 8)%nat in
  let h1 := sha256 (msgKey ++ slice authKey x (x + 36)) in
  let h2 := sha256 (slice authKey (40 + x) (40 + x + 36) ++ msgKey) in
  (take 8 h1 ++ slice h2 8 24 ++ slice h1 24 32,
   take 8 h2 ++ slice h1 8 24 ++ slice h2 24 32).

Definition ComputeAuthKeyID (authKey : bytes) : Z :=
  let sum := sha1 authKey in int64 (le_get (drop (length sum - 8) sum)).

(** [AuthKey.ID]: the same bits, unsigned. *)
Definition AuthKey_ID (k : bytes) : Z := uint64 (ComputeAuthKeyID k).

(** * Envelopes *)

Record UnencryptedMessage := { um_AuthKeyID : bytes; um_MsgID : Z; um_Data : bytes }.

Record EncryptedMessage := { em_AuthKeyID : Z; em_MsgKey : bytes; em_EncryptedData : bytes }.

Record InnerData := { Salt : Z; SessionID : Z; MsgID : Z; SeqNo : Z; Data : bytes }.

(** bytes.Buffer never fails. *)
Definition UnencryptedMessage_Serialize (m : UnencryptedMessage) : bytes :=
  um_AuthKeyID m ++ le_put 8 (uint64 (um_MsgID m)) ++ le_put 4 (uint32 (int32 (len (um_Data m)))) ++ um_Data m.

Definition run_reader {A} (m : RD A) (data : bytes) : CR A :=
  match (m (Reader data None)).1 with Ok a => Ok a | Err e => Err (ErrRead e) end.

Definition readUnencrypted : RD (option UnencryptedMessage) :=
  authKeyID ← ReadFull 8;
  msgID ← ReadInt64;
  length ← ReadInt32;
  if length <? 0 then mret None
  else msgData ← ReadSizedBytes length; mret (Some {| um_AuthKeyID := authKeyID; um_MsgID := msgID; um_Data := msgData |}).

Definition UnencryptedMessage_Deserialize (data : bytes) : CR UnencryptedMessage :=
  m ← run_reader readUnencrypted data;
  match m with Some m => mret m | None => Err ErrMessageLength end.

Definition readInner : RD (option InnerData) :=
  salt ← ReadInt64;
  sessionID ← ReadInt64;
  msgID ← ReadInt64;
  seqNo ← ReadInt32;
  dataLen ← ReadInt32;
  if dataLen <? 0 then mret None
  else
    data ← ReadSizedBytes dataLen;
    mret (Some {| Salt := salt; SessionID := sessionID; MsgID := msgID; SeqNo := seqNo; Data := data |}).

Definition decryptWithDirection (m : EncryptedMessage) (key : bytes) (fromClient : bool) : CR InnerData :=
  if (len (em_EncryptedData m) =? 0) || negb (Z.rem (len (em_EncryptedData m)) 16 =? 0) then Err ErrMessageLength
  else
    let '(aesKey, aesIV) := ComputeKDF key (em_MsgKey m) fromClient in
    block ← NewAESIGEDecrypt aesKey aesIV;
    r ← CryptBlocks block (em_EncryptedData m);
    let plaintext := r.1 in
    if negb (bytes_eqb (ComputeMsgKey key plaintext fromClient) (em_MsgKey m)) then Err ErrMsgKeyMismatch
    else
      inner ← run_reader readInner plaintext;
      match inner with Some inner => mret inner | None => Err ErrMessageLength end.

(** The number of padding bytes [serialize] appends after [currentLen] bytes. *)
Definition totalPadding (currentLen : Z) : Z :=
  let alignmentPadding := Z.rem (16 - Z.rem currentLen 16) 16 in
  let minPadding := 12 in
  let maxPadding := 1024 in
  let totalPadding :=
    if alignmentPadding <? minPadding
    then alignmentPadding + Z.quot (minPadding - alignmentPadding + 15) 16 * 16
    else alignmentPadding in
  if maxPadding <? totalPadding then Z.quot maxPadding 16 * 16 else totalPadding.

Definition inner_header (m : InnerData) : bytes :=
  le_put 8 (uint64 (Salt m)) ++ le_put 8 (uint64 (SessionID m)) ++ le_put 8 (uint64 (MsgID m)) ++
  le_put 4 (uint32 (SeqNo m)) ++ le_put 4 (uint32 (int32 (len (Data m)))).

(** [random n] is what [rand.Read] puts in [n] bytes. *)
Definition serialize (random : nat -> bytes) (m : InnerData) : bytes :=
  let buf := inner_header m ++ Data m in
  let pad := totalPadding (len buf) in
  if 0 <? pad then buf ++ random (Z.to_nat pad) else buf.

Definition encryptWithDirection (random : nat -> bytes) (m : InnerData) (key : bytes) (authKeyID : Z) (fromClient : bool)
  : CR EncryptedMessage :=
  let plaintext := serialize random m in
  let msgKey := ComputeMsgKey key plaintext fromClient in
  let '(aesKey, aesIV) := ComputeKDF key msgKey fromClient in
  block ← NewAESIGE aesKey aesIV;
  r ← CryptBlocks block plaintext;
  mret {| em_AuthKeyID := authKeyID; em_MsgKey := msgKey; em_EncryptedData := r.1 |}.

(** * Frames *)

Definition serializeEncryptedFrame (m : EncryptedMessage) : bytes :=
  le_put 8 (em_AuthKeyID m) ++ em_MsgKey m ++ em_EncryptedData m.

Inductive DecodedFrame :=
| Unencrypted (m : UnencryptedMessage)
| Encrypted (inner : InnerData) (keyID : Z) (authKey : bytes).

Definition DecodeFrame (frame : bytes) (authKeys : option (Z -> CR bytes)) : CR DecodedFrame :=
  if len frame <? 8 then Err ErrFrameTooShort
  else
    let keyID := le_get (take 8 frame) in
    if keyID =? 0 then m ← UnencryptedMessage_Deserialize frame; mret (Unencrypted m)
    else if len frame <? 24 then Err ErrFrameTooShort
    else
      match authKeys with
      | None => Err ErrAuthKeySource
      | Some get =>
          authKey ← get keyID;
          if negb (AuthKey_ID authKey =? keyID) then Err ErrAuthKeyMismatch
          else
            let message := {| em_AuthKeyID := keyID; em_MsgKey := slice frame 8 24; em_EncryptedData := drop 24 frame |} in
            inner ← decryptWithDirection message authKey true;
            mret (Encrypted inner keyID authKey)
      end.

(** * Facts *)

Context {Hlaws : PlatformLaws}.

Arguments cryptIGEState : simpl never.
Arguments serialize : simpl never.
Arguments decryptWithDirection : simpl never.

Lemma xorBlock_length a b : length a = length b -> length (xorBlock a b) = length a.
Proof. intros Hl. unfold xorBlock. rewrite length_zip_with. lia. Qed.

Lemma xorBlock_invol a b : length a = length b -> xorBlock (xorBlock a b) b = a.
Proof.
  revert b. induction a as [|x a IH]; intros [|y b] Hl; try done. cbn. rewrite xor_byte_invol. f_equal.
  apply IH. simpl in Hl. lia.
Qed.

Lemma igeBlock_inverse key pc pp p :
  length key = 32%nat -> length pc = 16%nat -> length pp = 16%nat -> length p = 16%nat ->
  exists c, igeBlock false key pc pp p = (c, c, p) /\ igeBlock true key pc pp c = (p, c, p) /\ length c = 16%nat.
Proof.
  intros Hk Hc Hp Hl. unfold igeBlock. set (t := aes_Encrypt key (xorBlock p pc)).
  assert (Hx : length (xorBlock p pc) = 16%nat) by (rewrite xorBlock_length; lia).
  assert (Ht : length t = 16%nat) by (by apply aes_size).
  exists (xorBlock t pp). split_and!; [done| |rewrite xorBlock_length; lia].
  rewrite xorBlock_invol by lia. unfold t. rewrite aes_inverse by done. by rewrite xorBlock_invol by lia.
Qed.

Lemma igeLoop_inverse n key pc pp src :
  length key = 32%nat -> length pc = 16%nat -> length pp = 16%nat -> length src = (16 * n)%nat ->
  exists out iv,
    igeLoop n false key pc pp src = (out, iv) /\ igeLoop n true key pc pp out = (src, iv) /\
    length out = (16 * n)%nat /\ length iv = 32%nat.
Proof.
  intros Hk. revert pc pp src. induction n as [|n IH]; intros pc pp src Hc Hp Hl.
  { destruct src; [|done]. exists [], (pc ++ pp). split_and!; [done..|]. rewrite length_app. lia. }
  cbn [igeLoop]. destruct (igeBlock_inverse key pc pp (take 16 src)) as (c & He & Hd & Hlc);
    [done..|rewrite length_take; lia|].
  destruct (IH c (take 16 src) (drop 16 src)) as (out & iv & He' & Hd' & Hlo & Hiv);
    [done|rewrite length_take; lia|rewrite length_drop; lia|].
  change aesBlockSize with 16%nat. rewrite He, He'. exists (c ++ out), iv. split_and!; [done| |rewrite length_app; lia|done].
  rewrite (take_len_app 16), (drop_len_app 16) by done. rewrite Hd, Hd'. by rewrite take_drop.
Qed.

Lemma igeBlock_sizes d key pc pp b out pc' pp' :
  length key = 32%nat -> length pc = 16%nat -> length pp = 16%nat -> length b = 16%nat ->
  igeBlock d key pc pp b = (out, pc', pp') -> length pc' = 16%nat /\ length pp' = 16%nat.
Proof.
  intros Hk Hc Hp Hb. unfold igeBlock. destruct d; intros [= <- <- <-].
  - split; [done|]. rewrite xorBlock_length; rewrite aes_dec_size; rewrite ?xorBlock_length; lia.
  - split; [|done]. rewrite xorBlock_length; rewrite aes_size; rewrite ?xorBlock_length; lia.
Qed.

(** The chaining state carries over from one call to the next. *)
Lemma igeLoop_app n m d key pc pp a b :
  length key = 32%nat -> length pc = 16%nat -> length pp = 16%nat -> length a = (16 * n)%nat ->
  igeLoop (n + m) d key pc pp (a ++ b) =
  (let '(x, iv1) := igeLoop n d key pc pp a in
   let '(y, iv2) := igeLoop m d key (take 16 iv1) (drop 16 iv1) b in (x ++ y, iv2)).
Proof.
  intros Hk. revert pc pp a. induction n as [|n IH]; intros pc pp a Hc Hp Ha.
  { destruct a; [|done]. cbn [igeLoop Nat.add app]. rewrite (take_len_app 16), (drop_len_app 16) by done. by destruct (igeLoop m _ _ _ _ _). }
  cbn [Nat.add igeLoop]. change aesBlockSize with 16%nat. rewrite take_app_le, drop_app_le by lia.
  destruct (igeBlock d key pc pp (take 16 a)) as [[out pc'] pp'] eqn:E.
  apply igeBlock_sizes in E as [??]; [|done..|rewrite length_take; lia].
  rewrite IH; [|done..|rewrite length_drop; lia].
  destruct (igeLoop n d key pc' pp' (drop 16 a)) as [x iv1]. destruct (igeLoop m _ _ _ _ _) as [y iv2].
  by rewrite app_assoc.
Qed.

Lemma slice_length (b : bytes) i j : (i <= j <= length b)%nat -> length (slice b i j) = (j - i)%nat.
Proof. intros H. unfold slice. rewrite length_take, length_drop. lia. Qed.

Lemma ComputeKDF_sizes authKey msgKey fc :
  length (ComputeKDF authKey msgKey fc).1 = 32%nat /\ length (ComputeKDF authKey msgKey fc).2 = 32%nat.
Proof.
  unfold ComputeKDF. cbn [fst snd]. rewrite !length_app, !length_take, !slice_length by (rewrite sha256_size; lia).
  rewrite !sha256_size. lia.
Qed.

Lemma ComputeMsgKey_size authKey data fc : length (ComputeMsgKey authKey data fc) = 16%nat.
Proof. unfold ComputeMsgKey. by rewrite slice_length by (rewrite sha256_size; lia). Qed.

(** ** The padding *)

Lemma totalPadding_range n : 0 <= n -> 12 <= totalPadding n <= 27 /\ (n + totalPadding n) mod 16 = 0.
Proof.
  intros Hn. unfold totalPadding. rewrite (Z.rem_mod_nonneg n) by lia.
  pose proof (Z.mod_pos_bound n 16 eq_refl). rewrite Z.rem_mod_nonneg by lia. cbv zeta.
  set (a := (16 - n mod 16) mod 16). assert (Ha : 0 <= a < 16) by (by apply Z.mod_pos_bound).
  assert (Hal : (n + a) mod 16 = 0).
  { unfold a. Z.to_euclidean_division_equations; lia. }
  destruct (Z.ltb_spec a 12).
  - rewrite Z.quot_div_nonneg by lia. assert ((12 - a + 15) / 16 = 1) as -> by (Z.to_euclidean_division_equations; lia).
    rewrite (proj2 (Z.ltb_ge _ _)) by lia. split; [lia|].
    replace (n + (a + 1 * 16)) with (n + a + 1 * 16) by lia. by rewrite Z.mod_add.
  - rewrite (proj2 (Z.ltb_ge _ _)) by lia. split; [lia|done].
Qed.

Lemma serialize_eq random m :
  serialize random m = inner_header m ++ Data m ++ random (Z.to_nat (totalPadding (len (inner_header m ++ Data m)))).
Proof.
  unfold serialize. pose proof (totalPadding_range _ (len_nonneg (inner_header m ++ Data m))).
  rewrite (proj2 (Z.ltb_lt _ _)) by lia. by rewrite app_assoc.
Qed.

Definition random_ok (random : nat -> bytes) : Prop := forall n, length (random n) = n.

Lemma serialize_blocks random m :
  random_ok random -> exists n, length (serialize random m) = (16 * n)%nat /\ (0 < n)%nat.
Proof.
  intros Hr. rewrite serialize_eq, app_assoc, length_app, Hr. set (buf := inner_header m ++ Data m).
  pose proof (totalPadding_range _ (len_nonneg buf)) as [Hp Hm]. unfold len in *.
  exists (Z.to_nat ((Z.of_nat (length buf) + totalPadding (Z.of_nat (length buf))) / 16)).
  Z.to_euclidean_division_equations; lia.
Qed.

Definition inner_ok (m : InnerData) : Prop :=
  inS 64 (Salt m) /\ inS 64 (SessionID m) /\ inS 64 (MsgID m) /\ inS 32 (SeqNo m) /\ len (Data m) < 2 ^ 31.

Lemma readInner_header m rest :
  inner_ok m -> (readInner (Reader (inner_header m ++ Data m ++ rest) None)).1 = Ok (Some m).
Proof.
  intros (H1 & H2 & H3 & H4 & H5). pose proof (len_nonneg (Data m)).
  assert (Hc : consumes readInner (inner_header m ++ Data m) no_cost (Some m)).
  { unfold inner_header. rewrite <- !app_assoc. unfold readInner.
    eapply consumes_step; [by apply consumes_ReadInt64|].
    eapply consumes_step; [by apply consumes_ReadInt64|].
    eapply consumes_step; [by apply consumes_ReadInt64|].
    eapply consumes_step; [by apply consumes_ReadInt32|].
    rewrite wrapS_id by (unfold inS; lia).
    eapply consumes_step; [apply consumes_ReadInt32; unfold inS; lia|].
    rewrite (proj2 (Z.ltb_ge _ _)) by lia.
    rewrite <- (app_nil_r (Data m)) at 2.
    eapply consumes_step; [apply consumes_ReadSizedBytes|]. destruct m. apply consumes_ret. }
  rewrite app_assoc, (Hc rest None); done.
Qed.

Lemma whole_blocks (b : bytes) n : length b = (16 * n)%nat -> Z.rem (len b) 16 = 0 /\ Nat.div (length b) 16 = n.
Proof.
  intros Hb. unfold len. rewrite Hb, Z.rem_mod_nonneg by lia. split; [|by rewrite Nat.mul_comm, Nat.div_mul].
  rewrite Nat2Z.inj_mul, Z.mul_comm. by apply Z.mod_mul.
Qed.

Lemma crypt_inverse key iv src n :
  length key = 32%nat -> length iv = 32%nat -> length src = (16 * n)%nat ->
  exists out iv', cryptIGEState src key iv false = Ok (out, iv') /\ cryptIGEState out key iv true = Ok (src, iv') /\
    length out = length src.
Proof.
  intros Hk Hi Hl. destruct (igeLoop_inverse n key (take 16 iv) (drop 16 iv) src) as (out & iv' & He & Hd & Hlo & _);
    [done|rewrite length_take; lia|rewrite length_drop; lia|done|].
  destruct (whole_blocks src n Hl) as [R1 D1], (whole_blocks out n Hlo) as [R2 D2].
  exists out, iv'. unfold cryptIGEState. rewrite R1, R2, D1, D2, He, Hd. cbn. split_and!; [done..|lia].
Qed.

Lemma NewAESIGE_ok key iv :
  length key = 32%nat -> length iv = 32%nat ->
  NewAESIGE key iv = Ok {| ige_key := key; ige_iv := iv; ige_decrypt := false |} /\
  NewAESIGEDecrypt key iv = Ok {| ige_key := key; ige_iv := iv; ige_decrypt := true |}.
Proof. intros Hk Hi. unfold NewAESIGE, NewAESIGEDecrypt, len. by rewrite Hk, Hi. Qed.

Lemma CryptBlocks_eq m src out iv' :
  cryptIGEState src (ige_key m) (ige_iv m) (ige_decrypt m) = Ok (out, iv') ->
  CryptBlocks m src = Ok (out, {| ige_key := ige_key m; ige_iv := iv'; ige_decrypt := ige_decrypt m |}).
Proof. intros He. unfold CryptBlocks. by rewrite He. Qed.

Lemma CryptBlocks_new key iv src n :
  length key = 32%nat -> length iv = 32%nat -> length src = (16 * n)%nat ->
  exists out m m',
    (block ← NewAESIGE key iv; CryptBlocks block src) = Ok (out, m) /\
    (block ← NewAESIGEDecrypt key iv; CryptBlocks block out) = Ok (src, m') /\ length out = length src.
Proof.
  intros Hk Hi Hl. destruct (crypt_inverse key iv src n Hk Hi Hl) as (out & iv' & He & Hd & Hlo).
  destruct (NewAESIGE_ok key iv Hk Hi) as [-> ->]. eexists out, _, _.
  split_and!; [by apply (CryptBlocks_eq {| ige_key := key; ige_iv := iv; ige_decrypt := false |})
              |by apply (CryptBlocks_eq {| ige_key := key; ige_iv := iv; ige_decrypt := true |})|done].
Qed.

Lemma encrypt_decrypt random m key id fc :
  random_ok random -> inner_ok m ->
  exists em,
    encryptWithDirection random m key id fc = Ok em /\ em_AuthKeyID em = id /\ length (em_MsgKey em) = 16%nat /\
    decryptWithDirection em key fc = Ok m.
Proof.
  intros Hr Hm. destruct (serialize_blocks random m Hr) as (n & Hl & Hn).
  unfold encryptWithDirection. set (pt := serialize random m) in *. set (mk := ComputeMsgKey key pt fc).
  destruct (ComputeKDF_sizes key mk fc) as [Hk Hi]. destruct (ComputeKDF key mk fc) as [k iv] eqn:Ekdf. cbn in Hk, Hi.
  destruct (CryptBlocks_new k iv pt n Hk Hi Hl) as (ct & b & b' & He & Hd & Hlc).
  unfold mbind, result_bind in *. destruct (NewAESIGE k iv) as [blk|]; [|done]. rewrite He. cbn [fst].
  eexists. split_and!; [done|done|apply ComputeMsgKey_size|].
  unfold decryptWithDirection. cbn [em_MsgKey em_EncryptedData].
  assert (Hz : (len ct =? 0) || negb (Z.rem (len ct) 16 =? 0) = false).
  { unfold len. rewrite Hlc, Hl, Z.rem_mod_nonneg by lia. apply orb_false_intro; [apply Z.eqb_neq; lia|].
    apply negb_false_iff, Z.eqb_eq. rewrite Nat2Z.inj_mul, Z.mul_comm. by apply Z.mod_mul. }
  rewrite Hz, Ekdf. unfold mbind, result_bind. destruct (NewAESIGEDecrypt k iv) as [blk'|]; [|done]. rewrite Hd. cbn [fst].
  unfold bytes_eqb, mk. rewrite bool_decide_eq_true_2 by done. cbn [negb].
  unfold run_reader, pt. by rewrite serialize_eq, readInner_header.
Qed.

(** * Properties *)

(** AES-IGE decryption inverts encryption, and the mode streams: for any key and
    IV of 32 bytes and any whole number of blocks, decrypting what was encrypted
    gives the plaintext back, and encrypting in two calls on one cipher object is
    encrypting in one. *)
Lemma IGE_inverse_and_streams (key iv a b : bytes) (n m : nat) :
  length key = 32%nat -> length iv = 32%nat -> length a = (16 * n)%nat -> length b = (16 * m)%nat ->
  exists enc dec out e1,
    NewAESIGE key iv = Ok enc /\ NewAESIGEDecrypt key iv = Ok dec /\
    CryptBlocks enc (a ++ b) = Ok (out, e1) /\ length out = length (a ++ b) /\
    (exists d1, CryptBlocks dec out = Ok (a ++ b, d1)) /\
    (x ← CryptBlocks enc a; y ← CryptBlocks x.2 b; mret (x.1 ++ y.1, y.2)) = Ok (out, e1).
Proof.
  intros Hk Hi Ha Hb.
  assert (Hl : length (a ++ b) = (16 * (n + m))%nat) by (rewrite length_app; lia).
  destruct (crypt_inverse key iv (a ++ b) (n + m) Hk Hi Hl) as (out & iv' & He & Hd & Hlo).
  destruct (NewAESIGE_ok key iv Hk Hi) as [-> ->]. eexists _, _, out, _. split_and!; [done|done| |done| |].
  - by apply CryptBlocks_eq.
  - eexists. by apply CryptBlocks_eq.
  - unfold cryptIGEState in He. destruct (whole_blocks _ _ Hl) as [R D]. rewrite R, D in He. cbn [negb Z.eqb ige_key ige_iv ige_decrypt] in He.
    injection He as He. rewrite igeLoop_app in He; [|done|rewrite length_take; lia|rewrite length_drop; lia|done].
    destruct (igeLoop n _ _ _ _ _) as [x iv1] eqn:Ex. destruct (igeLoop m _ _ _ _ _) as [y iv2] eqn:Ey.
    destruct (whole_blocks a n Ha) as [Ra Da], (whole_blocks b m Hb) as [Rb Db].
    erewrite CryptBlocks_eq by (unfold cryptIGEState; cbn [ige_key ige_iv ige_decrypt]; rewrite Ra, Da, Ex; reflexivity).
    cbn [mbind result_bind snd fst].
    erewrite CryptBlocks_eq by (unfold cryptIGEState; cbn [ige_key ige_iv ige_decrypt]; rewrite Rb, Db, Ey; reflexivity).
    cbn. by simplify_eq.
Qed.

(** C28. Encrypted envelopes round trip: a message whose fields fit their widths,
    encrypted under any auth key in either direction with any random padding, is
    decrypted to exactly that message; its plaintext is a whole number of cipher
    blocks with 12 to 27 bytes of padding; and as a client frame DecodeFrame
    returns it with the key that the key source holds under its id. *)
Theorem encrypted_frame_roundtrip (random : nat -> bytes) (m : InnerData) (key : bytes) (get : Z -> CR bytes) (fc : bool) :
  random_ok random -> inner_ok m ->
  exists em,
    encryptWithDirection random m key (AuthKey_ID key) fc = Ok em /\ decryptWithDirection em key fc = Ok m /\
    (len (serialize random m) mod 16 = 0 /\ 12 <= len (serialize random m) - (32 + len (Data m)) <= 27) /\
    (fc = true -> AuthKey_ID key <> 0 -> get (AuthKey_ID key) = Ok key ->
     DecodeFrame (serializeEncryptedFrame em) (Some get) = Ok (Encrypted m (AuthKey_ID key) key)).
Proof.
  intros Hr Hm. destruct (encrypt_decrypt random m key (AuthKey_ID key) fc Hr Hm) as (em & He & Hid & Hmk & Hd).
  exists em. split_and!; [done..| | | |].
  - destruct (serialize_blocks random m Hr) as (n & Hl & _). unfold len. rewrite Hl, Nat2Z.inj_mul, Z.mul_comm.
    by apply Z.mod_mul.
  - rewrite serialize_eq. pose proof (totalPadding_range _ (len_nonneg (inner_header m ++ Data m))) as [Hp _].
    unfold inner_header, len in *. rewrite !length_app, Hr, !le_put_length in *. lia.
  - rewrite serialize_eq. pose proof (totalPadding_range _ (len_nonneg (inner_header m ++ Data m))) as [Hp _].
    unfold inner_header, len in *. rewrite !length_app, Hr, !le_put_length in *. lia.
  - intros -> Hnz Hget. unfold DecodeFrame, serializeEncryptedFrame. rewrite Hid.
    set (id := AuthKey_ID key) in *. assert (Hu : inU 64 id) by (by apply wrapU_range).
    rewrite !len_app, len_le_put. unfold len at 1 3. rewrite Hmk. pose proof (len_nonneg (em_EncryptedData em)).
    rewrite !(proj2 (Z.ltb_ge _ _)) by lia. rewrite (take_len_app 8) by apply le_put_length.
    rewrite le_get_put_u64, wrapU_id by done. rewrite (proj2 (Z.eqb_neq _ 0)) by done. rewrite Hget. cbn [mbind result_bind].
    rewrite Z.eqb_refl. cbn [negb]. unfold slice. rewrite (drop_len_app 8) by apply le_put_length. cbn [Nat.sub].
    rewrite (take_len_app 16) by done. rewrite app_assoc, drop_len_app by (rewrite length_app, le_put_length, Hmk; lia).
    destruct em; cbn in *. subst. rewrite Hd. done.
Qed.

End crypto.

(** * Witnesses: a toy cipher and hashes *)

#[export] Instance toy_platform : Platform := {
  aes_Encrypt key b := xorBlock b (take 16 key);
  aes_Decrypt key b := xorBlock b (take 16 key);
  sha256 data := take 32 (rev data ++ zeros 32);
  sha1 data := take 20 (rev data ++ zeros 20)
}.

#[export] Instance toy_laws : @PlatformLaws toy_platform.
Proof.
  split; cbn [aes_Encrypt aes_Decrypt sha256 sha1 toy_platform].
  - intros key b Hk Hb. apply xorBlock_invol. rewrite length_take. lia.
  - intros key b Hk Hb. rewrite xorBlock_length; [done|rewrite length_take; lia].
  - intros key b Hk Hb. rewrite xorBlock_length; [done|rewrite length_take; lia].
  - intros data. rewrite length_take, length_app, length_replicate. lia.
  - intros data. rewrite length_take, length_app, length_replicate. lia.
Qed.

Lemma IGE_inverse_and_streams_witness :
  exists enc dec out e1,
    NewAESIGE (replicate 32 x11) (replicate 32 x22) = Ok enc /\
    NewAESIGEDecrypt (replicate 32 x11) (replicate 32 x22) = Ok dec /\
    CryptBlocks enc (replicate 16 x33 ++ replicate 32 x44) = Ok (out, e1) /\ length out = 48%nat.
Proof.
  destruct (IGE_inverse_and_streams (replicate 32 x11) (replicate 32 x22) (replicate 16 x33) (replicate 32 x44) 1 2)
    as (enc & dec & out & e1 & He & Hd & Hc & Hl & _); try done.
  by exists enc, dec, out, e1.
Defined.

Definition toy_inner : InnerData := {| Salt := -1; SessionID := 2; MsgID := 3; SeqNo := 4; Data := replicate 5 x07 |}.
Definition toy_key : bytes := replicate 256 x01.

Lemma encrypted_frame_roundtrip_witness :
  exists em,
    encryptWithDirection (fun n => replicate n x55) toy_inner toy_key (AuthKey_ID toy_key) true = Ok em /\
    DecodeFrame (serializeEncryptedFrame em) (Some (fun _ => Ok toy_key)) = Ok (Encrypted toy_inner (AuthKey_ID toy_key) toy_key).
Proof.
  destruct (encrypted_frame_roundtrip (fun n => replicate n x55) toy_inner toy_key (fun _ => Ok toy_key) true)
    as (em & He & _ & _ & Hd).
  - intros n. apply length_replicate.
  - repeat split; by vm_compute.
  - exists em. split; [done|]. apply Hd; [done|by vm_compute|done].
Defined.
