(* ===== verification/Tl.v ===== *)
(** The service objects of MTProto (mtproto/tl): their constructors, fields,
    SerializeTL and DeserializeTL methods.

    A Go string is its bytes.  The two fields that hold another object for
    serialization (RPCResult.Result, Message.Body) are interface values, of which
    only SerializeTL is used: they are that method. *)

From stdpp Require Import base numbers list gmap strings.
From S2P Require Import Prelude Wire.
Open Scope Z_scope.

(** * Constructors *)

Definition MsgContainerID : Z := 0x73f1f8dc.
Definition MsgsAckID : Z := 0x62d6b459.
Definition GzipPackedID : Z := 0x3072cfa1.
Definition RPCResultID : Z := 0xf35c6d01.
Definition RPCErrorID : Z := 0x2144ca19.
Definition RPCDropAnswerID : Z := 0x58e4a740.
Definition RPCAnswerUnknownID : Z := 0x5e2ad36e.
Definition RPCAnswerDroppedRunningID : Z := 0xcd78e586.
Definition RPCAnswerDroppedID : Z := 0xa43ad8b7.
Definition NewSessionCreatedID : Z := 0x9ec20908.
Definition FutureSaltID : Z := 0x0949d9dc.
Definition FutureSaltsID : Z := 0xae500895.
Definition GetFutureSaltsID : Z := 0xb921bd04.
Definition PingID : Z := 0x7abe77ec.
Definition PingDelayDisconnectID : Z := 0xf3427b8c.
Definition PongID : Z := 0x347773c5.
Definition BadMsgNotificationID : Z := 0xa7eff811.
Definition BadServerSaltID : Z := 0xedab447b.
Definition MsgResendReqID : Z := 0x7d861a08.
Definition MsgsStateReqID : Z := 0xda69fb52.
Definition MsgsStateInfoID : Z := 0x04deb57d.
Definition InvokeAfterMsgID : Z := 0xcb9f372d.
Definition InvokeAfterMsgsID : Z := 0x3dc4b4f0.
Definition InvokeWithLayerID : Z := 0xda9b0d0d.
Definition InvokeWithoutUpdatesID : Z := 0xbf9459b7.

Definition MaxContainerMessages : Z := 8192.
Definition MaxMessageStateIDs : Z := 8192.
Definition MaxFutureSalts : Z := 64.

(** The check every DeserializeTL starts with, and [readEmptyConstructor]. *)
Definition readConstructor (want : Z) : RD unit :=
  ctor ← ReadUint32;
  if negb (ctor =? want) then st_err (ErrWrongConstructor ctor want) else mret tt.

(** A vector of long, as the objects read and write it. *)
Definition writeIDs (ids : list Z) : WR unit :=
  _ ← WriteVectorHeader (len ids); st_each WriteInt64 ids.

Definition readIDs : RD (list Z) := ReadVectorBounded MaxMessageStateIDs ReadInt64.

(** * Containers (container.go) *)

Record Message := {
  m_MsgID : Z;
  m_SeqNo : Z;
  m_Bytes : Z;
  m_Body : option (WR unit);
  m_BodyRaw : bytes
}.

(** [serializeObject]: SerializeTL into a fresh buffer. *)
Definition serializeObject (obj : WR unit) : result wire_error bytes :=
  match obj (Writer [] None) with
  | (Ok _, w) => Ok (w_buf w)
  | (Err e, _) => Err e
  end.

Definition Message_SerializeTL (m : Message) : WR unit :=
  _ ← WriteInt64 (m_MsgID m);
  _ ← WriteInt32 (m_SeqNo m);
  match (match m_Body m with Some obj => serializeObject obj | None => Ok (m_BodyRaw m) end) with
  | Err e => st_err e
  | Ok body => _ ← WriteInt32 (int32 (len body)); Write body
  end.

Definition Message_DeserializeTL : RD Message :=
  msgID ← ReadInt64;
  seqNo ← ReadInt32;
  bytes ← ReadInt32;
  if bytes <? 0 then st_err (ErrNegativeMessageBytes bytes)
  else
    raw ← ReadSizedBytes bytes;
    mret {| m_MsgID := msgID; m_SeqNo := seqNo; m_Bytes := bytes; m_Body := None; m_BodyRaw := raw |}.

Definition MsgContainer_SerializeTL (messages : list Message) : WR unit :=
  _ ← WriteUint32 MsgContainerID;
  _ ← WriteInt32 (int32 (len messages));
  st_each Message_SerializeTL messages.

Definition MsgContainer_DeserializeTL : RD (list Message) :=
  _ ← readConstructor MsgContainerID;
  ReadBareVectorBounded MaxContainerMessages Message_DeserializeTL.

(** * Acknowledgements and recovery (ack.go, state.go) *)

Definition MsgsAck_SerializeTL (ids : list Z) : WR unit := _ ← WriteUint32 MsgsAckID; writeIDs ids.
Definition MsgsAck_DeserializeTL : RD (list Z) := _ ← readConstructor MsgsAckID; readIDs.

Definition MsgResendReq_SerializeTL (ids : list Z) : WR unit := _ ← WriteUint32 MsgResendReqID; writeIDs ids.
Definition MsgResendReq_DeserializeTL : RD (list Z) := _ ← readConstructor MsgResendReqID; readIDs.

Definition MsgsStateReq_SerializeTL (ids : list Z) : WR unit := _ ← WriteUint32 MsgsStateReqID; writeIDs ids.
Definition MsgsStateReq_DeserializeTL : RD (list Z) := _ ← readConstructor MsgsStateReqID; readIDs.

Record MsgsStateInfo := { si_ReqMsgID : Z; si_Info : bytes }.

Definition MsgsStateInfo_SerializeTL (m : MsgsStateInfo) : WR unit :=
  _ ← WriteUint32 MsgsStateInfoID; _ ← WriteInt64 (si_ReqMsgID m); WriteBytes (si_Info m).

Definition MsgsStateInfo_DeserializeTL : RD MsgsStateInfo :=
  _ ← readConstructor MsgsStateInfoID;
  id ← ReadInt64; info ← ReadBytes; mret {| si_ReqMsgID := id; si_Info := info |}.

(** * RPC results (rpc.go, rpc_drop.go) *)

Record RPCError := { re_ErrorCode : Z; re_ErrorMessage : bytes }.

Definition RPCError_SerializeTL (e : RPCError) : WR unit :=
  _ ← WriteUint32 RPCErrorID; _ ← WriteInt32 (re_ErrorCode e); WriteString (re_ErrorMessage e).

Definition RPCError_DeserializeTL : RD RPCError :=
  _ ← readConstructor RPCErrorID;
  code ← ReadInt32; msg ← ReadString; mret {| re_ErrorCode := code; re_ErrorMessage := msg |}.

Record RPCResult := { rr_ReqMsgID : Z; rr_Result : option (WR unit); rr_ResultRaw : bytes }.

Definition RPCResult_SerializeTL (r : RPCResult) : WR unit :=
  _ ← WriteUint32 RPCResultID;
  _ ← WriteInt64 (rr_ReqMsgID r);
  match rr_Result r with Some obj => obj | None => Write (rr_ResultRaw r) end.

Definition RPCResult_DeserializeTL : RD RPCResult :=
  _ ← readConstructor RPCResultID;
  id ← ReadInt64; raw ← ReadAll;
  mret {| rr_ReqMsgID := id; rr_Result := None; rr_ResultRaw := raw |}.

Definition RPCDropAnswer_SerializeTL (id : Z) : WR unit := _ ← WriteUint32 RPCDropAnswerID; WriteInt64 id.
Definition RPCDropAnswer_DeserializeTL : RD Z := _ ← readConstructor RPCDropAnswerID; ReadInt64.

Definition RPCAnswerUnknown_SerializeTL : WR unit := WriteUint32 RPCAnswerUnknownID.
Definition RPCAnswerUnknown_DeserializeTL : RD unit := readConstructor RPCAnswerUnknownID.

Definition RPCAnswerDroppedRunning_SerializeTL : WR unit := WriteUint32 RPCAnswerDroppedRunningID.
Definition RPCAnswerDroppedRunning_DeserializeTL : RD unit := readConstructor RPCAnswerDroppedRunningID.

Record RPCAnswerDropped := { ad_MsgID : Z; ad_SeqNo : Z; ad_Bytes : Z }.

Definition RPCAnswerDropped_SerializeTL (m : RPCAnswerDropped) : WR unit :=
  _ ← WriteUint32 RPCAnswerDroppedID; _ ← WriteInt64 (ad_MsgID m); _ ← WriteInt32 (ad_SeqNo m); WriteInt32 (ad_Bytes m).

Definition RPCAnswerDropped_DeserializeTL : RD RPCAnswerDropped :=
  _ ← readConstructor RPCAnswerDroppedID;
  id ← ReadInt64; seq ← ReadInt32; n ← ReadInt32; mret {| ad_MsgID := id; ad_SeqNo := seq; ad_Bytes := n |}.

(** * Sessions and salts (session_created.go, salts.go, badmsg.go) *)

Record NewSessionCreated := { ns_FirstMsgID : Z; ns_UniqueID : Z; ns_ServerSalt : Z }.

Definition NewSessionCreated_SerializeTL (m : NewSessionCreated) : WR unit :=
  _ ← WriteUint32 NewSessionCreatedID;
  _ ← WriteInt64 (ns_FirstMsgID m); _ ← WriteInt64 (ns_UniqueID m); WriteInt64 (ns_ServerSalt m).

Definition NewSessionCreated_DeserializeTL : RD NewSessionCreated :=
  _ ← readConstructor NewSessionCreatedID;
  a ← ReadInt64; b ← ReadInt64; c ← ReadInt64; mret {| ns_FirstMsgID := a; ns_UniqueID := b; ns_ServerSalt := c |}.

Definition GetFutureSaltsRequest_SerializeTL (num : Z) : WR unit := _ ← WriteUint32 GetFutureSaltsID; WriteInt32 num.
Definition GetFutureSaltsRequest_DeserializeTL : RD Z := _ ← readConstructor GetFutureSaltsID; ReadInt32.

Record FutureSalt := { fs_ValidSince : Z; fs_ValidUntil : Z; fs_Salt : Z }.

Definition FutureSalt_serializeBare (m : FutureSalt) : WR unit :=
  _ ← WriteInt32 (fs_ValidSince m); _ ← WriteInt32 (fs_ValidUntil m); WriteInt64 (fs_Salt m).

Definition FutureSalt_deserializeBare : RD FutureSalt :=
  a ← ReadInt32; b ← ReadInt32; c ← ReadInt64; mret {| fs_ValidSince := a; fs_ValidUntil := b; fs_Salt := c |}.

Definition FutureSalt_SerializeTL (m : FutureSalt) : WR unit :=
  _ ← WriteUint32 FutureSaltID; FutureSalt_serializeBare m.

Definition FutureSalt_DeserializeTL : RD FutureSalt := _ ← readConstructor FutureSaltID; FutureSalt_deserializeBare.

Record FutureSalts := { fss_ReqMsgID : Z; fss_Now : Z; fss_Salts : list FutureSalt }.

Definition FutureSalts_SerializeTL (m : FutureSalts) : WR unit :=
  if MaxFutureSalts <? len (fss_Salts m) then st_err (ErrFutureSaltsCount (len (fss_Salts m)))
  else
    _ ← WriteUint32 FutureSaltsID;
    _ ← WriteInt64 (fss_ReqMsgID m);
    _ ← WriteInt32 (fss_Now m);
    _ ← WriteInt32 (int32 (len (fss_Salts m)));
    st_each FutureSalt_serializeBare (fss_Salts m).

Definition FutureSalts_DeserializeTL : RD FutureSalts :=
  _ ← readConstructor FutureSaltsID;
  id ← ReadInt64;
  now ← ReadInt32;
  count ← ReadInt32;
  if count <? 0 then st_err (ErrFutureSaltsCount count)
  else if MaxFutureSalts <? count then st_err (ErrFutureSaltsCount count)
  else
    salts ← st_repeat (Z.to_nat count) FutureSalt_deserializeBare;
    mret {| fss_ReqMsgID := id; fss_Now := now; fss_Salts := salts |}.

Record BadMsgNotification := { bm_BadMsgID : Z; bm_BadMsgSeq : Z; bm_ErrorCode : Z }.

Definition BadMsgNotification_SerializeTL (m : BadMsgNotification) : WR unit :=
  _ ← WriteUint32 BadMsgNotificationID;
  _ ← WriteInt64 (bm_BadMsgID m); _ ← WriteInt32 (bm_BadMsgSeq m); WriteInt32 (bm_ErrorCode m).

Definition BadMsgNotification_DeserializeTL : RD BadMsgNotification :=
  _ ← readConstructor BadMsgNotificationID;
  a ← ReadInt64; b ← ReadInt32; c ← ReadInt32; mret {| bm_BadMsgID := a; bm_BadMsgSeq := b; bm_ErrorCode := c |}.

Record BadServerSalt := { bs_BadMsgID : Z; bs_BadMsgSeq : Z; bs_ErrorCode : Z; bs_NewSalt : Z }.

Definition BadServerSalt_SerializeTL (m : BadServerSalt) : WR unit :=
  _ ← WriteUint32 BadServerSaltID;
  _ ← WriteInt64 (bs_BadMsgID m); _ ← WriteInt32 (bs_BadMsgSeq m); _ ← WriteInt32 (bs_ErrorCode m);
  WriteInt64 (bs_NewSalt m).

Definition BadServerSalt_DeserializeTL : RD BadServerSalt :=
  _ ← readConstructor BadServerSaltID;
  a ← ReadInt64; b ← ReadInt32; c ← ReadInt32; d ← ReadInt64;
  mret {| bs_BadMsgID := a; bs_BadMsgSeq := b; bs_ErrorCode := c; bs_NewSalt := d |}.

(** * Pings (ping.go) *)

Definition Ping_SerializeTL (id : Z) : WR unit := _ ← WriteUint32 PingID; WriteInt64 id.
Definition Ping_DeserializeTL : RD Z := _ ← readConstructor PingID; ReadInt64.

Record PingDelayDisconnect := { pd_PingID : Z; pd_DisconnectDelay : Z }.

Definition PingDelayDisconnect_SerializeTL (m : PingDelayDisconnect) : WR unit :=
  _ ← WriteUint32 PingDelayDisconnectID; _ ← WriteInt64 (pd_PingID m); WriteInt32 (pd_DisconnectDelay m).

Definition PingDelayDisconnect_DeserializeTL : RD PingDelayDisconnect :=
  _ ← readConstructor PingDelayDisconnectID;
  a ← ReadInt64; b ← ReadInt32; mret {| pd_PingID := a; pd_DisconnectDelay := b |}.

Record Pong := { po_MsgID : Z; po_PingID : Z }.

Definition Pong_SerializeTL (m : Pong) : WR unit :=
  _ ← WriteUint32 PongID; _ ← WriteInt64 (po_MsgID m); WriteInt64 (po_PingID m).

Definition Pong_DeserializeTL : RD Pong :=
  _ ← readConstructor PongID; a ← ReadInt64; b ← ReadInt64; mret {| po_MsgID := a; po_PingID := b |}.

(** * Wrappers (wrappers.go, gzip.go) *)

Definition GzipPacked_SerializeTL (data : bytes) : WR unit := _ ← WriteUint32 GzipPackedID; WriteBytes data.
Definition GzipPacked_DeserializeTL : RD bytes := _ ← readConstructor GzipPackedID; ReadBytes.

Record InvokeWithLayer := { il_Layer : Z; il_QueryRaw : bytes }.

Definition InvokeWithLayer_SerializeTL (m : InvokeWithLayer) : WR unit :=
  _ ← WriteUint32 InvokeWithLayerID; _ ← WriteInt32 (il_Layer m); Write (il_QueryRaw m).

Definition InvokeWithLayer_DeserializeTL : RD InvokeWithLayer :=
  _ ← readConstructor InvokeWithLayerID;
  layer ← ReadInt32; q ← ReadAll; mret {| il_Layer := layer; il_QueryRaw := q |}.

Record InvokeAfterMsg := { ia_MsgID : Z; ia_QueryRaw : bytes }.

Definition InvokeAfterMsg_SerializeTL (m : InvokeAfterMsg) : WR unit :=
  _ ← WriteUint32 InvokeAfterMsgID; _ ← WriteInt64 (ia_MsgID m); Write (ia_QueryRaw m).

Definition InvokeAfterMsg_DeserializeTL : RD InvokeAfterMsg :=
  _ ← readConstructor InvokeAfterMsgID;
  id ← ReadInt64; q ← ReadAll; mret {| ia_MsgID := id; ia_QueryRaw := q |}.

Record InvokeAfterMsgs := { ias_MsgIDs : list Z; ias_QueryRaw : bytes }.

Definition InvokeAfterMsgs_SerializeTL (m : InvokeAfterMsgs) : WR unit :=
  _ ← WriteUint32 InvokeAfterMsgsID; _ ← writeIDs (ias_MsgIDs m); Write (ias_QueryRaw m).

Definition InvokeAfterMsgs_DeserializeTL : RD InvokeAfterMsgs :=
  _ ← readConstructor InvokeAfterMsgsID;
  ids ← readIDs; q ← ReadAll; mret {| ias_MsgIDs := ids; ias_QueryRaw := q |}.

Definition InvokeWithoutUpdates_SerializeTL (q : bytes) : WR unit := _ ← WriteUint32 InvokeWithoutUpdatesID; Write q.
Definition InvokeWithoutUpdates_DeserializeTL : RD bytes := _ ← readConstructor InvokeWithoutUpdatesID; ReadAll.

(** * The objects together *)

Inductive Object :=
| OMsgContainer (messages : list Message)
| OMsgsAck (ids : list Z)
| OMsgResendReq (ids : list Z)
| OMsgsStateReq (ids : list Z)
| OMsgsStateInfo (m : MsgsStateInfo)
| ORPCError (e : RPCError)
| ORPCResult (r : RPCResult)
| ORPCDropAnswer (id : Z)
| ORPCAnswerUnknown
| ORPCAnswerDroppedRunning
| ORPCAnswerDropped (m : RPCAnswerDropped)
| ONewSessionCreated (m : NewSessionCreated)
| OGetFutureSaltsRequest (num : Z)
| OFutureSalt (m : FutureSalt)
| OFutureSalts (m : FutureSalts)
| OBadMsgNotification (m : BadMsgNotification)
| OBadServerSalt (m : BadServerSalt)
| OPing (id : Z)
| OPingDelayDisconnect (m : PingDelayDisconnect)
| OPong (m : Pong)
| OGzipPacked (data : bytes)
| OInvokeWithLayer (m : InvokeWithLayer)
| OInvokeAfterMsg (m : InvokeAfterMsg)
| OInvokeAfterMsgs (m : InvokeAfterMsgs)
| OInvokeWithoutUpdates (q : bytes).

Definition ConstructorID (o : Object) : Z :=
  match o with
  | OMsgContainer _ => MsgContainerID
  | OMsgsAck _ => MsgsAckID
  | OMsgResendReq _ => MsgResendReqID
  | OMsgsStateReq _ => MsgsStateReqID
  | OMsgsStateInfo _ => MsgsStateInfoID
  | ORPCError _ => RPCErrorID
  | ORPCResult _ => RPCResultID
  | ORPCDropAnswer _ => RPCDropAnswerID
  | ORPCAnswerUnknown => RPCAnswerUnknownID
  | ORPCAnswerDroppedRunning => RPCAnswerDroppedRunningID
  | ORPCAnswerDropped _ => RPCAnswerDroppedID
  | ONewSessionCreated _ => NewSessionCreatedID
  | OGetFutureSaltsRequest _ => GetFutureSaltsID
  | OFutureSalt _ => FutureSaltID
  | OFutureSalts _ => FutureSaltsID
  | OBadMsgNotification _ => BadMsgNotificationID
  | OBadServerSalt _ => BadServerSaltID
  | OPing _ => PingID
  | OPingDelayDisconnect _ => PingDelayDisconnectID
  | OPong _ => PongID
  | OGzipPacked _ => GzipPackedID
  | OInvokeWithLayer _ => InvokeWithLayerID
  | OInvokeAfterMsg _ => InvokeAfterMsgID
  | OInvokeAfterMsgs _ => InvokeAfterMsgsID
  | OInvokeWithoutUpdates _ => InvokeWithoutUpdatesID
  end.

Definition SerializeTL (o : Object) : WR unit :=
  match o with
  | OMsgContainer ms => MsgContainer_SerializeTL ms
  | OMsgsAck ids => MsgsAck_SerializeTL ids
  | OMsgResendReq ids => MsgResendReq_SerializeTL ids
  | OMsgsStateReq ids => MsgsStateReq_SerializeTL ids
  | OMsgsStateInfo m => MsgsStateInfo_SerializeTL m
  | ORPCError e => RPCError_SerializeTL e
  | ORPCResult r => RPCResult_SerializeTL r
  | ORPCDropAnswer id => RPCDropAnswer_SerializeTL id
  | ORPCAnswerUnknown => RPCAnswerUnknown_SerializeTL
  | ORPCAnswerDroppedRunning => RPCAnswerDroppedRunning_SerializeTL
  | ORPCAnswerDropped m => RPCAnswerDropped_SerializeTL m
  | ONewSessionCreated m => NewSessionCreated_SerializeTL m
  | OGetFutureSaltsRequest n => GetFutureSaltsRequest_SerializeTL n
  | OFutureSalt m => FutureSalt_SerializeTL m
  | OFutureSalts m => FutureSalts_SerializeTL m
  | OBadMsgNotification m => BadMsgNotification_SerializeTL m
  | OBadServerSalt m => BadServerSalt_SerializeTL m
  | OPing id => Ping_SerializeTL id
  | OPingDelayDisconnect m => PingDelayDisconnect_SerializeTL m
  | OPong m => Pong_SerializeTL m
  | OGzipPacked d => GzipPacked_SerializeTL d
  | OInvokeWithLayer m => InvokeWithLayer_SerializeTL m
  | OInvokeAfterMsg m => InvokeAfterMsg_SerializeTL m
  | OInvokeAfterMsgs m => InvokeAfterMsgs_SerializeTL m
  | OInvokeWithoutUpdates q => InvokeWithoutUpdates_SerializeTL q
  end.

Definition into {A} (K : A -> Object) (m : RD A) : RD Object := x ← m; mret (K x).

(** The DeserializeTL method of [o]'s type. *)
Definition DeserializeTL (o : Object) : RD Object :=
  match o with
  | OMsgContainer _ => into OMsgContainer MsgContainer_DeserializeTL
  | OMsgsAck _ => into OMsgsAck MsgsAck_DeserializeTL
  | OMsgResendReq _ => into OMsgResendReq MsgResendReq_DeserializeTL
  | OMsgsStateReq _ => into OMsgsStateReq MsgsStateReq_DeserializeTL
  | OMsgsStateInfo _ => into OMsgsStateInfo MsgsStateInfo_DeserializeTL
  | ORPCError _ => into ORPCError RPCError_DeserializeTL
  | ORPCResult _ => into ORPCResult RPCResult_DeserializeTL
  | ORPCDropAnswer _ => into ORPCDropAnswer RPCDropAnswer_DeserializeTL
  | ORPCAnswerUnknown => into (fun _ => ORPCAnswerUnknown) RPCAnswerUnknown_DeserializeTL
  | ORPCAnswerDroppedRunning => into (fun _ => ORPCAnswerDroppedRunning) RPCAnswerDroppedRunning_DeserializeTL
  | ORPCAnswerDropped _ => into ORPCAnswerDropped RPCAnswerDropped_DeserializeTL
  | ONewSessionCreated _ => into ONewSessionCreated NewSessionCreated_DeserializeTL
  | OGetFutureSaltsRequest _ => into OGetFutureSaltsRequest GetFutureSaltsRequest_DeserializeTL
  | OFutureSalt _ => into OFutureSalt FutureSalt_DeserializeTL
  | OFutureSalts _ => into OFutureSalts FutureSalts_DeserializeTL
  | OBadMsgNotification _ => into OBadMsgNotification BadMsgNotification_DeserializeTL
  | OBadServerSalt _ => into OBadServerSalt BadServerSalt_DeserializeTL
  | OPing _ => into OPing Ping_DeserializeTL
  | OPingDelayDisconnect _ => into OPingDelayDisconnect PingDelayDisconnect_DeserializeTL
  | OPong _ => into OPong Pong_DeserializeTL
  | OGzipPacked _ => into OGzipPacked GzipPacked_DeserializeTL
  | OInvokeWithLayer _ => into OInvokeWithLayer InvokeWithLayer_DeserializeTL
  | OInvokeAfterMsg _ => into OInvokeAfterMsg InvokeAfterMsg_DeserializeTL
  | OInvokeAfterMsgs _ => into OInvokeAfterMsgs InvokeAfterMsgs_DeserializeTL
  | OInvokeWithoutUpdates _ => into OInvokeWithoutUpdates InvokeWithoutUpdates_DeserializeTL
  end.

(** * Encodings *)

Definition enc_ids (ids : list Z) : bytes := enc_vector enc_int64 ids.

Definition enc_message (m : Message) : bytes :=
  enc_int64 (m_MsgID m) ++ enc_int32 (m_SeqNo m) ++ enc_int32 (len (m_BodyRaw m)) ++ m_BodyRaw m.

Definition enc_salt (m : FutureSalt) : bytes :=
  enc_int32 (fs_ValidSince m) ++ enc_int32 (fs_ValidUntil m) ++ enc_int64 (fs_Salt m).

(** The bytes after the constructor. *)
Definition enc_fields (o : Object) : bytes :=
  match o with
  | OMsgContainer ms => enc_bare_vector enc_message ms
  | OMsgsAck ids | OMsgResendReq ids | OMsgsStateReq ids => enc_ids ids
  | OMsgsStateInfo m => enc_int64 (si_ReqMsgID m) ++ enc_bytes (si_Info m)
  | ORPCError e => enc_int32 (re_ErrorCode e) ++ enc_bytes (re_ErrorMessage e)
  | ORPCResult r => enc_int64 (rr_ReqMsgID r) ++ rr_ResultRaw r
  | ORPCDropAnswer id | OPing id => enc_int64 id
  | ORPCAnswerUnknown | ORPCAnswerDroppedRunning => []
  | ORPCAnswerDropped m => enc_int64 (ad_MsgID m) ++ enc_int32 (ad_SeqNo m) ++ enc_int32 (ad_Bytes m)
  | ONewSessionCreated m => enc_int64 (ns_FirstMsgID m) ++ enc_int64 (ns_UniqueID m) ++ enc_int64 (ns_ServerSalt m)
  | OGetFutureSaltsRequest n => enc_int32 n
  | OFutureSalt m => enc_salt m
  | OFutureSalts m =>
      enc_int64 (fss_ReqMsgID m) ++ enc_int32 (fss_Now m) ++ enc_bare_vector enc_salt (fss_Salts m)
  | OBadMsgNotification m => enc_int64 (bm_BadMsgID m) ++ enc_int32 (bm_BadMsgSeq m) ++ enc_int32 (bm_ErrorCode m)
  | OBadServerSalt m =>
      enc_int64 (bs_BadMsgID m) ++ enc_int32 (bs_BadMsgSeq m) ++ enc_int32 (bs_ErrorCode m) ++ enc_int64 (bs_NewSalt m)
  | OPingDelayDisconnect m => enc_int64 (pd_PingID m) ++ enc_int32 (pd_DisconnectDelay m)
  | OPong m => enc_int64 (po_MsgID m) ++ enc_int64 (po_PingID m)
  | OGzipPacked d => enc_bytes d
  | OInvokeWithLayer m => enc_int32 (il_Layer m) ++ il_QueryRaw m
  | OInvokeAfterMsg m => enc_int64 (ia_MsgID m) ++ ia_QueryRaw m
  | OInvokeAfterMsgs m => enc_ids (ias_MsgIDs m) ++ ias_QueryRaw m
  | OInvokeWithoutUpdates q => q
  end.

Definition encode (o : Object) : bytes := le_put 4 (ConstructorID o) ++ enc_fields o.

(** The vector elements an object's decoding is charged. *)
Definition cost_of (o : Object) : cost :=
  match o with
  | OMsgContainer ms => vector_cost (fun _ => no_cost) ms
  | OMsgsAck ids | OMsgResendReq ids | OMsgsStateReq ids => vector_cost (fun _ => no_cost) ids
  | OInvokeAfterMsgs m => vector_cost (fun _ => no_cost) (ias_MsgIDs m)
  | _ => no_cost
  end.

Definition ids_valid (ids : list Z) : Prop := len ids <= MaxMessageStateIDs /\ Forall (inS 64) ids.

Definition message_valid (m : Message) : Prop :=
  inS 64 (m_MsgID m) /\ inS 32 (m_SeqNo m) /\ m_Body m = None /\ m_Bytes m = len (m_BodyRaw m) /\ len (m_BodyRaw m) < 2 ^ 31.

Definition salt_valid (m : FutureSalt) : Prop :=
  inS 32 (fs_ValidSince m) /\ inS 32 (fs_ValidUntil m) /\ inS 64 (fs_Salt m).

(** Objects whose fields fit their widths and the package's limits, in the form
    decoding produces. *)
Definition valid (o : Object) : Prop :=
  match o with
  | OMsgContainer ms => len ms <= MaxContainerMessages /\ Forall message_valid ms
  | OMsgsAck ids | OMsgResendReq ids | OMsgsStateReq ids => ids_valid ids
  | OMsgsStateInfo m => inS 64 (si_ReqMsgID m) /\ len (si_Info m) <= MaxTLBytesLength
  | ORPCError e => inS 32 (re_ErrorCode e) /\ len (re_ErrorMessage e) <= MaxTLBytesLength
  | ORPCResult r => inS 64 (rr_ReqMsgID r) /\ rr_Result r = None
  | ORPCDropAnswer id | OPing id => inS 64 id
  | ORPCAnswerUnknown | ORPCAnswerDroppedRunning => True
  | ORPCAnswerDropped m => inS 64 (ad_MsgID m) /\ inS 32 (ad_SeqNo m) /\ inS 32 (ad_Bytes m)
  | ONewSessionCreated m => inS 64 (ns_FirstMsgID m) /\ inS 64 (ns_UniqueID m) /\ inS 64 (ns_ServerSalt m)
  | OGetFutureSaltsRequest n => inS 32 n
  | OFutureSalt m => salt_valid m
  | OFutureSalts m =>
      inS 64 (fss_ReqMsgID m) /\ inS 32 (fss_Now m) /\ len (fss_Salts m) <= MaxFutureSalts /\ Forall salt_valid (fss_Salts m)
  | OBadMsgNotification m => inS 64 (bm_BadMsgID m) /\ inS 32 (bm_BadMsgSeq m) /\ inS 32 (bm_ErrorCode m)
  | OBadServerSalt m =>
      inS 64 (bs_BadMsgID m) /\ inS 32 (bs_BadMsgSeq m) /\ inS 32 (bs_ErrorCode m) /\ inS 64 (bs_NewSalt m)
  | OPingDelayDisconnect m => inS 64 (pd_PingID m) /\ inS 32 (pd_DisconnectDelay m)
  | OPong m => inS 64 (po_MsgID m) /\ inS 64 (po_PingID m)
  | OGzipPacked d => len d <= MaxTLBytesLength
  | OInvokeWithLayer m => inS 32 (il_Layer m)
  | OInvokeAfterMsg m => inS 64 (ia_MsgID m)
  | OInvokeAfterMsgs m => ids_valid (ias_MsgIDs m)
  | OInvokeWithoutUpdates _ => True
  end.

(** * Writing *)

Lemma emits_ids ids : ids_valid ids -> emits (writeIDs ids) (enc_ids ids).
Proof.
  intros [Hl _]. pose proof (len_nonneg ids). unfold MaxMessageStateIDs in Hl.
  unfold writeIDs, enc_ids, enc_vector, enc_bare_vector. rewrite app_assoc.
  apply emits_bind; [apply emits_WriteVectorHeader; unfold inS; lia|].
  apply emits_each. intros x _. apply emits_WriteInt64.
Qed.

Lemma emits_message m : message_valid m -> emits (Message_SerializeTL m) (enc_message m).
Proof.
  intros (_ & _ & Hb & _ & Hl). unfold Message_SerializeTL, enc_message. rewrite Hb. pose proof (len_nonneg (m_BodyRaw m)).
  apply emits_bind; [apply emits_WriteInt64|]. apply emits_bind; [apply emits_WriteInt32|].
  rewrite wrapS_id by (unfold inS; lia).
  apply emits_bind; [apply emits_WriteInt32|apply emits_Write].
Qed.

Lemma emits_salt m : emits (FutureSalt_serializeBare m) (enc_salt m).
Proof.
  unfold FutureSalt_serializeBare, enc_salt.
  repeat (apply emits_bind; [apply emits_WriteInt32|]). apply emits_WriteInt64.
Qed.

Lemma emits_string v : len v <= MaxTLBytesLength -> emits (WriteString v) (enc_bytes v).
Proof. apply emits_WriteBytes. Qed.

#[export] Hint Resolve emits_bind emits_WriteUint32 emits_WriteInt32 emits_WriteInt64 emits_Write
  emits_WriteBytes emits_string emits_ids emits_salt : tlrpc.

Lemma emits_object o : valid o -> emits (SerializeTL o) (encode o).
Proof.
  intros Hv. unfold encode. destruct o; cbn [SerializeTL ConstructorID enc_fields]; cbn [valid] in Hv;
    try (destruct_and?; solve [eauto 10 with tlrpc]).
  - destruct Hv as [Hl Hm]. pose proof (len_nonneg messages). unfold MaxContainerMessages in Hl.
    unfold MsgContainer_SerializeTL, enc_bare_vector. apply emits_bind; [apply emits_WriteUint32|].
    rewrite wrapS_id by (unfold inS; lia). apply emits_bind; [apply emits_WriteInt32|].
    apply emits_each. intros m Hin. apply emits_message. by eapply Forall_forall.
  - destruct Hv as [_ Hr]. unfold RPCResult_SerializeTL. rewrite Hr. eauto with tlrpc.
  - destruct Hv as (_ & _ & Hl & _). pose proof (len_nonneg (fss_Salts m)). unfold MaxFutureSalts in Hl.
    unfold FutureSalts_SerializeTL, enc_bare_vector. rewrite (proj2 (Z.ltb_ge _ _)) by (unfold MaxFutureSalts; lia).
    apply emits_bind; [apply emits_WriteUint32|]. apply emits_bind; [apply emits_WriteInt64|].
    apply emits_bind; [apply emits_WriteInt32|]. rewrite wrapS_id by (unfold inS; lia).
    apply emits_bind; [apply emits_WriteInt32|]. apply emits_each. intros x _. apply emits_salt.
Qed.

(** * Reading *)

Lemma consumes_constructor id : inU 32 id -> consumes (readConstructor id) (le_put 4 id) no_cost tt.
Proof.
  intros Hid. unfold readConstructor. rewrite <- (app_nil_r (le_put 4 id)).
  eapply consumes_step; [by apply consumes_ReadUint32|]. rewrite Z.eqb_refl. apply consumes_ret.
Qed.

Lemma drains_constructor {A} (f : unit -> RD A) id bs c a :
  inU 32 id -> drains (f tt) bs c a -> drains (readConstructor id ≫= f) (le_put 4 id ++ bs) c a.
Proof. intros Hid Hf. eapply drains_step; [by apply consumes_constructor|done]. Qed.

Lemma consumes_ids ids : ids_valid ids -> consumes readIDs (enc_ids ids) (vector_cost (fun _ => no_cost) ids) ids.
Proof.
  intros [Hl Hf]. apply consumes_ReadVectorBounded; [done|by vm_compute|].
  intros x Hx. apply consumes_ReadInt64. rewrite Forall_forall in Hf. by apply Hf.
Qed.

Lemma consumes_message m : message_valid m -> consumes Message_DeserializeTL (enc_message m) no_cost m.
Proof.
  intros (H1 & H2 & H3 & H4 & H5). pose proof (len_nonneg (m_BodyRaw m)). unfold Message_DeserializeTL, enc_message.
  eapply consumes_step; [by apply consumes_ReadInt64|]. eapply consumes_step; [by apply consumes_ReadInt32|].
  eapply consumes_step; [apply consumes_ReadInt32; unfold inS; lia|]. rewrite (proj2 (Z.ltb_ge _ _)) by lia.
  destruct m as [id seq n body raw]; cbn in *. subst. apply (consumes_last (ReadSizedBytes (len raw))), consumes_ReadSizedBytes.
Qed.

Lemma consumes_salt m : salt_valid m -> consumes FutureSalt_deserializeBare (enc_salt m) no_cost m.
Proof.
  intros (H1 & H2 & H3). unfold FutureSalt_deserializeBare, enc_salt.
  do 2 (eapply consumes_step; [by apply consumes_ReadInt32|]).
  destruct m. by apply (consumes_last ReadInt64), consumes_ReadInt64.
Qed.

Lemma no_cost_each {A} (xs : list A) : foldr cost_seq no_cost ((fun _ => no_cost) <$> xs) = no_cost.
Proof. induction xs as [|x xs IH]; cbn; [done|]. by rewrite IH. Qed.

Lemma ConstructorID_range o : inU 32 (ConstructorID o).
Proof. by destruct o. Qed.

Lemma drains_FutureSalts m :
  valid (OFutureSalts m) -> drains FutureSalts_DeserializeTL (encode (OFutureSalts m)) no_cost m.
Proof.
  intros (H1 & H2 & H3 & H4). pose proof (len_nonneg (fss_Salts m)). unfold MaxFutureSalts in H3.
  apply drains_constructor; [by vm_compute|]. cbn [enc_fields]. unfold enc_bare_vector.
  eapply drains_step; [by apply consumes_ReadInt64|]. eapply drains_step; [by apply consumes_ReadInt32|].
  eapply drains_step; [apply consumes_ReadInt32; unfold inS; lia|].
  rewrite !(proj2 (Z.ltb_ge _ _)) by (unfold MaxFutureSalts; lia). unfold len. rewrite Nat2Z.id.
  destruct m as [id now salts]; cbn in *.
  apply (drains_last (st_repeat (length salts) FutureSalt_deserializeBare)), consumes_drains.
  rewrite <- (no_cost_each salts) at 1. apply consumes_repeat. intros x Hx. apply consumes_salt.
  rewrite Forall_forall in H4. by apply H4.
Qed.

#[export] Hint Resolve consumes_ReadInt64 consumes_ReadInt32 consumes_ReadBytes drains_ReadAll : tlrpc.

Lemma consumes_ReadString v : len v <= MaxTLBytesLength -> consumes ReadString (enc_bytes v) no_cost v.
Proof. apply consumes_ReadBytes. Qed.

#[export] Hint Resolve consumes_ReadString consumes_ids : tlrpc.

Lemma drains_field {A B} (m : RD A) (f : A -> B) bs c a : consumes m bs c a -> drains (x ← m; mret (f x)) bs c (f a).
Proof. intros Hm. apply (drains_last m). by apply consumes_drains. Qed.

Lemma drains_rest {B} (f : bytes -> B) bs : drains (x ← ReadAll; mret (f x)) bs no_cost (f bs).
Proof. apply (drains_last ReadAll), drains_ReadAll. Qed.

Lemma drains_into {A} (K : A -> Object) m bs c a o : drains m bs c a -> K a = o -> drains (into K m) bs c o.
Proof. intros Hm <-. by apply (drains_last m). Qed.

(** An object's fields in order, the last one returned or put in the record. *)
Ltac read_object :=
  apply drains_constructor; [by vm_compute|]; cbn [enc_fields];
  repeat (eapply drains_step; [solve [eauto with tlrpc]|]);
  solve [ apply consumes_drains; eauto with tlrpc
        | apply drains_ReadAll
        | apply drains_rest
        | apply drains_field; eauto with tlrpc ].

Lemma drains_MsgContainer ms :
  valid (OMsgContainer ms) ->
  drains MsgContainer_DeserializeTL (encode (OMsgContainer ms)) (cost_of (OMsgContainer ms)) ms.
Proof.
  intros [Hl Hf]. apply drains_constructor; [by vm_compute|]. apply consumes_drains.
  apply consumes_ReadBareVectorBounded; [done|by vm_compute|]. rewrite Forall_forall in Hf.
  intros m Hm. by apply consumes_message, Hf.
Qed.

Lemma drains_empty id : inU 32 id -> drains (readConstructor id) (le_put 4 id ++ []) no_cost tt.
Proof. intros Hid. rewrite app_nil_r. by apply consumes_drains, consumes_constructor. Qed.

Lemma drains_InvokeAfterMsgs m :
  ids_valid (ias_MsgIDs m) ->
  drains InvokeAfterMsgs_DeserializeTL (encode (OInvokeAfterMsgs m)) (cost_of (OInvokeAfterMsgs m)) m.
Proof.
  intros Hv. apply drains_constructor; [by vm_compute|]. cbn [enc_fields cost_of].
  rewrite <- (cost_seq_no (vector_cost _ _)). eapply drains_bind; [by apply consumes_ids|].
  destruct m. apply drains_rest.
Qed.

#[export] Hint Resolve consumes_salt : tlrpc.

Lemma drains_object o : valid o -> drains (DeserializeTL o) (encode o) (cost_of o) o.
Proof.
  intros Hv. destruct o; cbn [DeserializeTL]; lazymatch goal with
    | |- drains (into OMsgContainer _) _ _ _ => eapply drains_into; [by apply drains_MsgContainer|done]
    | |- drains (into OFutureSalts _) _ _ _ => eapply drains_into; [by apply drains_FutureSalts|done]
    | |- drains (into OInvokeAfterMsgs _) _ _ _ => eapply drains_into; [by apply drains_InvokeAfterMsgs|done]
    | |- drains (into (fun _ => _) _) _ _ _ => eapply drains_into; [apply drains_empty; by vm_compute|done]
    | |- _ => unfold encode; cbn [ConstructorID cost_of]; cbn [valid] in Hv; destruct_and?;
              eapply drains_into; [read_object|]
    end.
  all: first [destruct m; reflexivity | destruct e; reflexivity | destruct r; cbn in *; subst; reflexivity | reflexivity].
Qed.

Lemma ConstructorID_type o o' : ConstructorID o = ConstructorID o' -> DeserializeTL o = DeserializeTL o'.
Proof. by destruct o, o'. Qed.

(** * Properties *)

(** C40. Every service object round trips: SerializeTL writes an object whose fields
    fit their widths and the package's limits as its constructor and fields, or
    fails for lack of room without partial success, and DeserializeTL of its type
    reads exactly that object back, under any decode budget that affords its bytes
    and vector elements, consuming all of them; and the constructor in front
    determines the type. *)
Theorem service_object_roundtrip (o : Object) :
  valid o ->
  (forall w, w_ok w ->
     if room w (len (encode o)) then SerializeTL o w = (Ok tt, written w (encode o))
     else exists w', SerializeTL o w = (Err ErrEncodedPayloadTooLarge, w')) /\
  (forall bud, affords bud (len (encode o)) (cost_of o) ->
     DeserializeTL o (Reader (encode o) bud) =
     (Ok o, Reader [] (charged (len (encode o)) (cost_of o) bud))) /\
  (forall o', take 4 (encode o') = take 4 (encode o) -> DeserializeTL o' = DeserializeTL o).
Proof.
  intros Hv. split_and!; [by apply emits_object|by apply drains_object|].
  intros o'. unfold encode. rewrite !(take_len_app 4) by apply le_put_length.
  intros Heq. apply (f_equal le_get) in Heq. rewrite !le_get_put_u32 in Heq.
  rewrite !wrapU_id in Heq by apply ConstructorID_range. by apply ConstructorID_type.
Qed.

Lemma service_object_roundtrip_witness :
  DeserializeTL (OMsgsAck [1; -5; 2 ^ 40]) (Reader (encode (OMsgsAck [1; -5; 2 ^ 40])) None) =
  (Ok (OMsgsAck [1; -5; 2 ^ 40]), Reader [] None).
Proof.
  apply (service_object_roundtrip (OMsgsAck [1; -5; 2 ^ 40])); [|done].
  split; [by vm_compute|]. repeat constructor; by vm_compute.
Defined.
