(* ===== verification/AuthKeys.v ===== *)
(** Authorization keys: MemoryAuthKeyManager (crypto/authkey_memory.go) with
    temporary keys and their bindings, and the validation of a binding message
    (crypto/temporary_authkey.go).

    A call reads the clock once, [now], in nanoseconds; the timers that
    [expireTemporary] arms are [Expire] events that may come at any time.  A map
    range with deletions is the filtered map. *)

From stdpp Require Import base numbers list gmap strings.
From S2P Require Import Prelude Wire Crypto.
Open Scope Z_scope.

Definition MaxTemporaryAuthKeyLifetime : Z := 24 * 3600 * 10 ^ 9.

Record TemporaryAuthKeyInfo := { ExpiresAt : Z; PermanentKeyID : Z }.

Record MemoryAuthKeyManager := {
  keys : gmap Z bytes;
  temporary : gmap Z TemporaryAuthKeyInfo
}.

Definition NewMemoryAuthKeyManager : MemoryAuthKeyManager := {| keys := ∅; temporary := ∅ |}.

Section manager.
Context `{Hplatform : Platform}.

Abbreviation MGR := (ST MemoryAuthKeyManager crypto_error).

Definition Get (now : Z) (keyID : Z) (m : MemoryAuthKeyManager) : CR bytes :=
  let ok :=
    match temporary m !! keyID with
    | None => true
    | Some info =>
        (now <? ExpiresAt info) &&
        (if negb (PermanentKeyID info =? 0) then bool_decide (is_Some (keys m !! PermanentKeyID info)) else true)
    end in
  match keys m !! keyID with
  | Some key => if ok then Ok key else Err ErrAuthKeyNotFound
  | None => Err ErrAuthKeyNotFound
  end.

Definition Put (keyID : Z) (key : bytes) (m : MemoryAuthKeyManager) : MemoryAuthKeyManager :=
  {| keys := <[keyID := key]> (keys m); temporary := temporary m |}.

(** Removing from both maps the temporary keys that satisfy [gone]. *)
Definition drop_temporary (gone : TemporaryAuthKeyInfo -> bool) (m : MemoryAuthKeyManager) : MemoryAuthKeyManager :=
  {| keys := filter (fun kv => from_option gone false (temporary m !! kv.1) = false) (keys m);
     temporary := filter (fun kv => gone kv.2 = false) (temporary m) |}.

Definition Delete (keyID : Z) (m : MemoryAuthKeyManager) : MemoryAuthKeyManager :=
  drop_temporary (fun info => PermanentKeyID info =? keyID)
    {| keys := delete keyID (keys m); temporary := delete keyID (temporary m) |}.

Definition PutTemporary (now id : Z) (key : bytes) (expires : Z) : MGR unit := fun m =>
  if negb (now <? expires) || (now + MaxTemporaryAuthKeyLifetime <? expires) || negb (AuthKey_ID key =? id)
  then (Err ErrTemporaryKeyExpiry, m)
  else
    let m := drop_temporary (fun info => negb (now <? ExpiresAt info)) m in
    if 4096 <=? Z.of_nat (size (temporary m)) then (Err ErrTemporaryKeyExpiry, m)
    else if bool_decide (is_Some (keys m !! id)) then (Err ErrInvalidKeyBinding, m)
    else (Ok tt, {| keys := <[id := key]> (keys m);
                    temporary := <[id := {| ExpiresAt := expires; PermanentKeyID := 0 |}]> (temporary m) |}).

(** The function the timer of [expireTemporary] runs. *)
Definition expireTemporary (now id : Z) (m : MemoryAuthKeyManager) : MemoryAuthKeyManager :=
  match temporary m !! id with
  | Some info => if negb (now <? ExpiresAt info)
                 then {| keys := delete id (keys m); temporary := delete id (temporary m) |}
                 else m
  | None => m
  end.

Definition TemporaryInfo (now id : Z) (m : MemoryAuthKeyManager) : option TemporaryAuthKeyInfo * option crypto_error :=
  match temporary m !! id with
  | Some info => if negb (now <? ExpiresAt info) then (Some info, Some ErrAuthKeyNotFound) else (Some info, None)
  | None => (None, None)
  end.

Definition BindTemporary (now id parent expires : Z) : MGR unit := fun m =>
  match temporary m !! id with
  | None => (Err ErrAuthKeyNotFound, m)
  | Some info =>
      if negb (bool_decide (is_Some (keys m !! parent))) then (Err ErrAuthKeyNotFound, m)
      else if bool_decide (is_Some (temporary m !! parent)) || (parent =? id) then (Err ErrInvalidKeyBinding, m)
      else if negb (PermanentKeyID info =? 0) && negb (PermanentKeyID info =? parent)
      then (Err ErrTemporaryKeyAlreadyBound, m)
      else if negb (now <? expires) || (ExpiresAt info <? expires) then (Err ErrTemporaryKeyExpiry, m)
      else (Ok tt, {| keys := keys m;
                      temporary := <[id := {| ExpiresAt := expires; PermanentKeyID := parent |}]> (temporary m) |})
  end.

(** * Any sequence of calls *)

Inductive event :=
| EvPut (keyID : Z) (key : bytes)
| EvDelete (keyID : Z)
| EvPutTemporary (now id : Z) (key : bytes) (expires : Z)
| EvBind (now id parent expires : Z)
| EvExpire (now id : Z).

Definition apply_event (ev : event) (m : MemoryAuthKeyManager) : MemoryAuthKeyManager :=
  match ev with
  | EvPut keyID key => Put keyID key m
  | EvDelete keyID => Delete keyID m
  | EvPutTemporary now id key expires => (PutTemporary now id key expires m).2
  | EvBind now id parent expires => (BindTemporary now id parent expires m).2
  | EvExpire now id => expireTemporary now id m
  end.

Definition run_events (evs : list event) (m : MemoryAuthKeyManager) : MemoryAuthKeyManager :=
  foldl (fun m ev => apply_event ev m) m evs.

(** * The invariant *)

(** Every temporary key is stored, the permanent key a bound one hangs on is
    stored and permanent, and there are at most 4096 of them. *)
Record manager_ok (m : MemoryAuthKeyManager) : Prop := {
  ok_stored : forall id info, temporary m !! id = Some info -> is_Some (keys m !! id);
  ok_parent : forall id info, temporary m !! id = Some info -> PermanentKeyID info <> 0 ->
                is_Some (keys m !! PermanentKeyID info) /\ temporary m !! PermanentKeyID info = None;
  ok_size : (size (temporary m) <= 4096)%nat
}.

Lemma drop_temporary_key gone m id :
  keys (drop_temporary gone m) !! id =
  match temporary m !! id with
  | Some info => if gone info then None else keys m !! id
  | None => keys m !! id
  end.
Proof.
  cbn. destruct (temporary m !! id) as [info|] eqn:E; [destruct (gone info) eqn:Eg|].
  - apply map_lookup_filter_None. right. intros x _. cbn. rewrite E. cbn. congruence.
  - destruct (keys m !! id) as [k|] eqn:Ek.
    + apply map_lookup_filter_Some. split; [done|]. cbn. by rewrite E.
    + apply map_lookup_filter_None. by left.
  - destruct (keys m !! id) as [k|] eqn:Ek.
    + apply map_lookup_filter_Some. split; [done|]. cbn. by rewrite E.
    + apply map_lookup_filter_None. by left.
Qed.

Lemma drop_temporary_info gone m id info :
  temporary (drop_temporary gone m) !! id = Some info <-> temporary m !! id = Some info /\ gone info = false.
Proof. cbn. apply map_lookup_filter_Some. Qed.

Lemma drop_temporary_none gone m id :
  temporary m !! id = None -> temporary (drop_temporary gone m) !! id = None.
Proof. intros H. cbn. apply map_lookup_filter_None. by left. Qed.

Lemma drop_temporary_size gone m : (size (temporary (drop_temporary gone m)) <= size (temporary m))%nat.
Proof. apply map_size_filter. Qed.

Lemma drop_temporary_ok gone m : manager_ok m -> manager_ok (drop_temporary gone m).
Proof.
  intros [Hs Hp Hz]. split.
  - intros id info [Ht Hg]%drop_temporary_info. rewrite drop_temporary_key, Ht, Hg. by eapply Hs.
  - intros id info [Ht Hg]%drop_temporary_info Hne. destruct (Hp id info Ht Hne) as [Hk Hn].
    split; [by rewrite drop_temporary_key, Hn|by apply drop_temporary_none].
  - pose proof (drop_temporary_size gone m). lia.
Qed.

Lemma Put_ok keyID key m : manager_ok m -> manager_ok (Put keyID key m).
Proof.
  intros [Hs Hp Hz].
  assert (Hup : forall k, is_Some (keys m !! k) -> is_Some (keys (Put keyID key m) !! k)).
  { intros k Hk. cbn. destruct (decide (k = keyID)) as [->|]; [by rewrite lookup_insert_eq|by rewrite lookup_insert_ne]. }
  split; [|intros id info Ht Hne; destruct (Hp id info Ht Hne); split; [by apply Hup|done]|done].
  intros id info Ht. eapply Hup, Hs, Ht.
Qed.

Lemma Delete_key keyID m id :
  keys (Delete keyID m) !! id =
  if decide (id = keyID) then None
  else match temporary m !! id with
       | Some info => if PermanentKeyID info =? keyID then None else keys m !! id
       | None => keys m !! id
       end.
Proof.
  unfold Delete. rewrite drop_temporary_key. cbn. case_decide as Hd; [subst|].
  - by rewrite !lookup_delete_eq.
  - by rewrite !lookup_delete_ne.
Qed.

Lemma Delete_info keyID m id info :
  temporary (Delete keyID m) !! id = Some info <->
  id <> keyID /\ temporary m !! id = Some info /\ PermanentKeyID info <> keyID.
Proof.
  unfold Delete. rewrite drop_temporary_info. cbn. rewrite lookup_delete_Some, Z.eqb_neq. naive_solver.
Qed.

Lemma Delete_ok keyID m : manager_ok m -> manager_ok (Delete keyID m).
Proof.
  intros [Hs Hp Hz]. split.
  - intros id info (Hne & Ht & Hg)%Delete_info. rewrite Delete_key, decide_False, Ht by done.
    rewrite (proj2 (Z.eqb_neq _ _)) by done. by eapply Hs.
  - intros id info (Hne & Ht & Hg)%Delete_info Hb. destruct (Hp id info Ht Hb) as [Hk Hn].
    rewrite Delete_key, decide_False, Hn by done. split; [done|].
    destruct (temporary (Delete keyID m) !! PermanentKeyID info) eqn:E; [|done]. apply Delete_info in E. naive_solver.
  - unfold Delete. etrans; [apply drop_temporary_size|]. cbn. etrans; [|exact Hz].
    apply map_subseteq_size, delete_subseteq.
Qed.

Lemma PutTemporary_ok now id key expires m : manager_ok m -> manager_ok (PutTemporary now id key expires m).2.
Proof.
  intros Hm. unfold PutTemporary. destruct (_ || _); [done|]. cbv zeta.
  set (m1 := drop_temporary _ m). assert (H1 : manager_ok m1) by (by apply drop_temporary_ok). destruct H1 as [Hs Hp Hz].
  destruct (Z.leb_spec 4096 (Z.of_nat (size (temporary m1)))); [done|].
  case_bool_decide as Hfree; [done|]. cbn [snd]. split.
  - intros k info. cbn. intros [[<- _]|[Hne Ht]]%lookup_insert_Some; [by rewrite lookup_insert_eq|].
    rewrite lookup_insert_ne by done. by eapply Hs.
  - intros k info. cbn. intros [[<- <-]|[Hne Ht]]%lookup_insert_Some Hb; [done|].
    destruct (Hp k info Ht Hb) as [Hk Hn]. rewrite !lookup_insert_ne; [done|..]; intros Heq; apply Hfree; by rewrite Heq.
  - cbn [temporary]. rewrite map_size_insert. destruct (temporary m1 !! id); unfold Datatypes.id; lia.
Qed.

Lemma Bind_ok now id parent expires m : manager_ok m -> manager_ok (BindTemporary now id parent expires m).2.
Proof.
  intros Hm. pose proof Hm as [Hs Hp Hz]. unfold BindTemporary. destruct (temporary m !! id) as [info|] eqn:Hid; [|done].
  case_bool_decide as Hpar; [|done]. cbn [negb].
  case_bool_decide as Htmp; [done|]. cbn [orb]. destruct (Z.eqb_spec parent id) as [|Hne]; [done|].
  destruct (_ && _); [done|]. destruct (_ || _); [done|]. cbn [snd].
  apply eq_None_not_Some in Htmp. split.
  - intros k i. cbn. intros [[<- _]|[Hk Ht]]%lookup_insert_Some; [by eapply Hs|by eapply Hs].
  - intros k i. cbn. intros [[<- <-]|[Hk Ht]]%lookup_insert_Some Hb; cbn in *.
    + split; [done|]. by rewrite lookup_insert_ne.
    + destruct (Hp k i Ht Hb) as [? Hn]. split; [done|]. rewrite lookup_insert_ne; [done|]. intros Heq. congruence.
  - cbn. rewrite map_size_insert_Some; [done|by rewrite Hid].
Qed.

Lemma expireTemporary_ok now id m : manager_ok m -> manager_ok (expireTemporary now id m).
Proof.
  intros Hm. unfold expireTemporary. destruct (temporary m !! id) as [info|] eqn:Hid; [|done].
  destruct (negb _); [|done]. destruct Hm as [Hs Hp Hz]. split.
  - intros k i. cbn. intros [Hk Ht]%lookup_delete_Some. rewrite lookup_delete_ne by done. by eapply Hs.
  - intros k i. cbn. intros [Hk Ht]%lookup_delete_Some Hb. destruct (Hp k i Ht Hb) as [Hkey Hn].
    rewrite !lookup_delete_ne; [done|..]; intros Heq; congruence.
  - cbn. etrans; [apply map_subseteq_size, delete_subseteq|done].
Qed.

Lemma apply_event_ok ev m : manager_ok m -> manager_ok (apply_event ev m).
Proof.
  destruct ev; cbn; eauto using Put_ok, Delete_ok, PutTemporary_ok, Bind_ok, expireTemporary_ok.
Qed.

Lemma run_events_ok evs m : manager_ok m -> manager_ok (run_events evs m).
Proof. revert m. induction evs as [|ev evs IH]; intros m Hm; cbn; [done|]. by apply IH, apply_event_ok. Qed.

Lemma New_manager_ok : manager_ok NewMemoryAuthKeyManager.
Proof. split; cbn; try done. rewrite map_size_empty. lia. Qed.

(** ** What becomes of one key *)

(** [ev] stores a key under [id]. *)
Definition stores (id : Z) (ev : event) : Prop :=
  match ev with
  | EvPut k _ | EvPutTemporary _ k _ _ => k = id
  | _ => False
  end.

Lemma drop_temporary_gone gone m id : keys m !! id = None -> keys (drop_temporary gone m) !! id = None.
Proof. intros Hk. rewrite drop_temporary_key, Hk. repeat case_match; done. Qed.

Lemma event_keeps_absent ev m id :
  ~ stores id ev -> keys m !! id = None -> keys (apply_event ev m) !! id = None.
Proof.
  intros Hst Hk. destruct ev as [k key|k|now k key e|now k p e|now k]; cbn [stores apply_event] in *.
  - cbn. by rewrite lookup_insert_ne.
  - rewrite Delete_key, Hk. repeat case_match; done.
  - unfold PutTemporary. destruct (_ || _); [done|]. cbv zeta.
    set (m1 := drop_temporary _ m). assert (H1 : keys m1 !! id = None) by (by apply drop_temporary_gone).
    repeat case_match; try done. cbn [snd keys]. by rewrite lookup_insert_ne.
  - unfold BindTemporary. repeat case_match; done.
  - unfold expireTemporary. repeat case_match; try done. cbn. apply lookup_delete_None. by right.
Qed.

Lemma run_keeps_absent evs m id :
  Forall (fun ev => ~ stores id ev) evs -> keys m !! id = None -> keys (run_events evs m) !! id = None.
Proof.
  intros Hst. revert m. induction Hst as [|ev evs Hev _ IH]; intros m Hk; cbn; [done|].
  by apply IH, event_keeps_absent.
Qed.

(** [i] may become [i']: the lifetime shrinks, a binding stays. *)
Definition shrinks (i i' : TemporaryAuthKeyInfo) : Prop :=
  ExpiresAt i' <= ExpiresAt i /\ (PermanentKeyID i <> 0 -> PermanentKeyID i' = PermanentKeyID i).

Lemma shrinks_refl i : shrinks i i.
Proof. by split. Qed.

Lemma shrinks_trans i j k : shrinks i j -> shrinks j k -> shrinks i k.
Proof. intros [H1 H2] [H3 H4]. split; [lia|]. intros Hi. rewrite H4; [auto|]. by rewrite H2. Qed.

Lemma event_shrinks ev m id i' :
  ~ stores id ev -> temporary (apply_event ev m) !! id = Some i' ->
  exists i, temporary m !! id = Some i /\ shrinks i i'.
Proof.
  intros Hst. destruct ev as [k key|k|now k key e|now k p e|now k]; cbn [stores apply_event] in *.
  - cbn. intros Ht. eauto using shrinks_refl.
  - intros (_ & Ht & _)%Delete_info. eauto using shrinks_refl.
  - unfold PutTemporary. destruct (_ || _); [eauto using shrinks_refl|]. cbv zeta.
    set (m1 := drop_temporary _ m).
    assert (H1 : temporary m1 !! id = Some i' -> exists i, temporary m !! id = Some i /\ shrinks i i').
    { intros [Ht _]%drop_temporary_info. eauto using shrinks_refl. }
    repeat case_match; try done. cbn [snd temporary]. by rewrite lookup_insert_ne.
  - unfold BindTemporary. destruct (temporary m !! k) as [info|] eqn:Hk; [|eauto using shrinks_refl].
    case_bool_decide; [|intros; eauto using shrinks_refl]. cbn [negb].
    case_bool_decide; [intros; eauto using shrinks_refl|]. cbn [orb].
    destruct (p =? k); [intros; eauto using shrinks_refl|].
    destruct (negb (PermanentKeyID info =? 0) && negb (PermanentKeyID info =? p)) eqn:Hb; [intros; eauto using shrinks_refl|].
    destruct (negb (now <? e) || (ExpiresAt info <? e)) eqn:He; [intros; eauto using shrinks_refl|].
    cbn. intros [[-> <-]|[Hne Ht]]%lookup_insert_Some; [|eauto using shrinks_refl].
    exists info. split; [done|]. bools. split; cbn; [done|]. intros Hi.
    destruct (Z.eqb_spec (PermanentKeyID info) 0); [done|]. cbn in Hb. apply negb_false_iff, Z.eqb_eq in Hb. done.
  - unfold expireTemporary. destruct (temporary m !! k); [|eauto using shrinks_refl].
    destruct (negb _); [|eauto using shrinks_refl]. cbn. intros [_ Ht]%lookup_delete_Some. eauto using shrinks_refl.
Qed.

Lemma run_shrinks evs m id i' :
  Forall (fun ev => ~ stores id ev) evs -> temporary (run_events evs m) !! id = Some i' ->
  exists i, temporary m !! id = Some i /\ shrinks i i'.
Proof.
  intros Hst. revert m. induction Hst as [|ev evs Hev _ IH]; intros m Ht; cbn in Ht; [eauto using shrinks_refl|].
  destruct (IH _ Ht) as (j & Hj & Hs). destruct (event_shrinks ev m id j Hev Hj) as (i & Hi & Hs').
  eauto using shrinks_trans.
Qed.

(** * Properties of the manager *)

(** In every state the manager can get into, Get returns a key exactly when it
    is stored and, if it is temporary, has not expired: a bound temporary key's
    permanent key is always present and is never itself temporary, and at most
    4096 temporary keys are held. *)
Lemma Get_characterized (evs : list event) (now id : Z) (key : bytes) :
  let m := run_events evs NewMemoryAuthKeyManager in
  (Get now id m = Ok key <->
   keys m !! id = Some key /\ forall info, temporary m !! id = Some info -> now < ExpiresAt info) /\
  (size (temporary m) <= 4096)%nat /\
  (forall info, temporary m !! id = Some info -> PermanentKeyID info <> 0 ->
     is_Some (keys m !! PermanentKeyID info) /\ temporary m !! PermanentKeyID info = None).
Proof.
  cbv zeta. pose proof (run_events_ok evs _ New_manager_ok) as Hm. set (m := run_events evs _) in *.
  destruct Hm as [Hs Hp Hz]. split_and!; [|done|by apply Hp].
  unfold Get. destruct (keys m !! id) as [k|] eqn:Hk; [|naive_solver].
  destruct (temporary m !! id) as [info|] eqn:Ht; [|naive_solver].
  assert (Hpar : (if negb (PermanentKeyID info =? 0) then bool_decide (is_Some (keys m !! PermanentKeyID info)) else true) = true).
  { destruct (Z.eqb_spec (PermanentKeyID info) 0) as [|Hne]; [done|]. cbn. apply bool_decide_eq_true_2. by eapply Hp. }
  rewrite Hpar, andb_true_r. destruct (Z.ltb_spec now (ExpiresAt info)).
  - split; [intros [= ->]; split; [done|]; by intros ? [= <-]|]. by intros [[= ->] _].
  - split; [done|]. intros [_ Hinfo]. specialize (Hinfo info eq_refl). lia.
Qed.

(** Revocation is final and bindings are permanent: once a key is deleted,
    neither it nor any temporary key bound to it is returned again, at any time and
    after any further calls that do not store a key under that very id; and a
    temporary key's lifetime never grows nor does its binding move to another
    permanent key, whatever is called in between. *)
Lemma revocation_and_binding (evs : list event) (m : MemoryAuthKeyManager) (p id now : Z) :
  Forall (fun ev => ~ stores id ev) evs ->
  (id = p \/ (exists info, temporary m !! id = Some info /\ PermanentKeyID info = p) ->
   Get now id (run_events evs (Delete p m)) = Err ErrAuthKeyNotFound) /\
  (forall i', temporary (run_events evs m) !! id = Some i' ->
   exists i, temporary m !! id = Some i /\ ExpiresAt i' <= ExpiresAt i /\
     (PermanentKeyID i <> 0 -> PermanentKeyID i' = PermanentKeyID i)).
Proof.
  intros Hst. split.
  - intros Hid. unfold Get. rewrite (run_keeps_absent evs (Delete p m) id Hst); [done|].
    rewrite Delete_key. case_decide; [done|]. destruct Hid as [|(info & -> & ->)]; [done|]. by rewrite Z.eqb_refl.
  - intros i' Hi'. exact (run_shrinks evs m id i' Hst Hi').
Qed.

End manager.

(** * Binding messages *)

Section binding.
Context `{Hplatform : Platform}.

Definition temporaryBindingKDF (authKey msgKey : bytes) : bytes * bytes :=
  let a := sha1 (msgKey ++ take 32 authKey) in
  let b := sha1 (slice authKey 32 48 ++ msgKey ++ slice authKey 48 64) in
  let c := sha1 (slice authKey 64 96 ++ msgKey) in
  let d := sha1 (msgKey ++ slice authKey 96 128) in
  (take 8 a ++ slice b 8 20 ++ slice c 4 16,
   slice a 8 20 ++ take 8 b ++ slice c 16 20 ++ take 8 d).

(** [binary.LittleEndian.Uint64(b[i:])] and Uint32. *)
Definition u64_at (b : bytes) (i : nat) : Z := le_get (slice b i (i + 8)).
Definition u32_at (b : bytes) (i : nat) : Z := le_get (slice b i (i + 4)).

Definition ValidateTemporaryKeyBinding
  (permanent : bytes) (temp sessionID messageID nonce expiresAt : Z) (encrypted : bytes) : CR unit :=
  if negb (len encrypted =? 24 + 80) || negb (u64_at encrypted 0 =? AuthKey_ID permanent) then Err ErrInvalidKeyBinding
  else
    let msgKey := slice encrypted 8 24 in
    let '(key, iv) := temporaryBindingKDF permanent msgKey in
    block ← NewAESIGEDecrypt key iv;
    r ← CryptBlocks block (drop 24 encrypted);
    let plain := r.1 in
    let hash := sha1 (take 72 plain) in
    if negb (bytes_eqb (slice hash 4 20) msgKey) then Err ErrInvalidKeyBinding
    else if negb (int64 (u64_at plain 16) =? messageID) || negb (u32_at plain 24 =? 0) ||
            negb (u32_at plain 28 =? 40) || negb (u32_at plain 32 =? 0x75a3f765) then Err ErrInvalidKeyBinding
    else if negb (int64 (u64_at plain 36) =? nonce) || negb (u64_at plain 44 =? temp) ||
            negb (u64_at plain 52 =? AuthKey_ID permanent) || negb (int64 (u64_at plain 60) =? sessionID) ||
            negb (int32 (u32_at plain 68) =? expiresAt) then Err ErrInvalidKeyBinding
    else Ok tt.

(** ** The message a client builds *)

Record Binding := { bi_temp : Z; bi_session : Z; bi_message : Z; bi_nonce : Z; bi_expires : Z }.

Definition binding_ok (b : Binding) : Prop :=
  inU 64 (bi_temp b) /\ inS 64 (bi_session b) /\ inS 64 (bi_message b) /\ inS 64 (bi_nonce b) /\ inS 32 (bi_expires b).

(** bind_auth_key_inner in the MTProto 1.0 envelope, after 16 random bytes and
    before 8 bytes of padding. *)
Definition binding_fields (b : Binding) (permID : Z) : list bytes :=
  [le_put 8 (uint64 (bi_message b)); le_put 4 0; le_put 4 40; le_put 4 0x75a3f765;
   le_put 8 (uint64 (bi_nonce b)); le_put 8 (bi_temp b); le_put 8 permID;
   le_put 8 (uint64 (bi_session b)); le_put 4 (uint32 (bi_expires b))].

Definition binding_plain (b : Binding) (permID : Z) (random pad : bytes) : bytes :=
  random ++ concat (binding_fields b permID) ++ pad.

Definition binding_message (b : Binding) (permanent random pad : bytes) : CR bytes :=
  let plain := binding_plain b (AuthKey_ID permanent) random pad in
  let msgKey := slice (sha1 (take 72 plain)) 4 20 in
  let '(key, iv) := temporaryBindingKDF permanent msgKey in
  block ← NewAESIGE key iv;
  r ← CryptBlocks block plain;
  mret (le_put 8 (AuthKey_ID permanent) ++ msgKey ++ r.1).

Context {Hlaws : PlatformLaws}.

Lemma temporaryBindingKDF_sizes authKey msgKey :
  length (temporaryBindingKDF authKey msgKey).1 = 32%nat /\ length (temporaryBindingKDF authKey msgKey).2 = 32%nat.
Proof.
  unfold temporaryBindingKDF. cbn [fst snd].
  rewrite !length_app, !length_take, !slice_length by (rewrite sha1_size; lia). rewrite !sha1_size. lia.
Qed.

Lemma field_at (pre f post : bytes) i k :
  length pre = i -> length f = k -> slice (pre ++ f ++ post) i (i + k) = f.
Proof.
  intros Hi Hk. unfold slice. rewrite drop_len_app by done. replace (i + k - i)%nat with k by lia.
  by apply take_len_app.
Qed.

(** The bytes before field [n]. *)
Lemma binding_field b permID random pad n f :
  binding_fields b permID !! n = Some f ->
  slice (binding_plain b permID random pad)
    (length random + length (concat (take n (binding_fields b permID))))
    (length random + length (concat (take n (binding_fields b permID))) + length f) = f.
Proof.
  intros Hn. unfold binding_plain. rewrite <- (take_drop_middle _ _ _ Hn) at 1.
  rewrite concat_app. cbn [concat]. rewrite <- !app_assoc, app_assoc. apply field_at; [apply length_app|done].
Qed.

Lemma binding_plain_length b permID random pad :
  length random = 16%nat -> length pad = 8%nat -> length (binding_plain b permID random pad) = 80%nat.
Proof. intros Hr Hp. unfold binding_plain. rewrite !length_app, Hr, Hp. reflexivity. Qed.

Section fields.
Context (b : Binding) (permID : Z) (random pad : bytes) (Hr : length random = 16%nat).
Let plain := binding_plain b permID random pad.

Lemma binding_slice n f i j :
  binding_fields b permID !! n = Some f -> i = (16 + length (concat (take n (binding_fields b permID))))%nat ->
  j = (i + length f)%nat -> slice plain i j = f.
Proof. intros Hn -> ->. rewrite <- Hr. by apply binding_field. Qed.

Lemma binding_values :
  binding_ok b -> inU 64 permID ->
  int64 (u64_at plain 16) = bi_message b /\ u32_at plain 24 = 0 /\ u32_at plain 28 = 40 /\
  u32_at plain 32 = 0x75a3f765 /\ int64 (u64_at plain 36) = bi_nonce b /\ u64_at plain 44 = bi_temp b /\
  u64_at plain 52 = permID /\ int64 (u64_at plain 60) = bi_session b /\ int32 (u32_at plain 68) = bi_expires b.
Proof.
  intros (H1 & H2 & H3 & H4 & H5) Hp. unfold u64_at, u32_at. cbn [Nat.add].
  rewrite (binding_slice 0 _ 16 24 eq_refl eq_refl eq_refl), (binding_slice 1 _ 24 28 eq_refl eq_refl eq_refl),
    (binding_slice 2 _ 28 32 eq_refl eq_refl eq_refl), (binding_slice 3 _ 32 36 eq_refl eq_refl eq_refl),
    (binding_slice 4 _ 36 44 eq_refl eq_refl eq_refl), (binding_slice 5 _ 44 52 eq_refl eq_refl eq_refl),
    (binding_slice 6 _ 52 60 eq_refl eq_refl eq_refl), (binding_slice 7 _ 60 68 eq_refl eq_refl eq_refl),
    (binding_slice 8 _ 68 72 eq_refl eq_refl eq_refl).
  rewrite !le_get_put_u64, !le_get_put_u32.
  rewrite !(wrapU_id 64 (uint64 _)), (wrapU_id 32 (uint32 (bi_expires b))) by (by apply wrapU_range).
  rewrite !int64_uint64, int32_uint32, !wrapU_id by done. done.
Qed.

End fields.

(** A binding message binds exactly what it says: the message a client builds
    under the permanent key for a temporary key, session, message id, nonce and
    expiry is accepted for those values and for no others. *)
Lemma binding_accepted_iff (b b' : Binding) (permanent random pad : bytes) :
  binding_ok b -> length random = 16%nat -> length pad = 8%nat ->
  exists msg,
    binding_message b permanent random pad = Ok msg /\
    (ValidateTemporaryKeyBinding permanent (bi_temp b') (bi_session b') (bi_message b') (bi_nonce b') (bi_expires b') msg = Ok tt
     <-> b' = b).
Proof.
  intros Hb Hr Hp. unfold binding_message. set (pid := AuthKey_ID permanent).
  assert (Hpid : inU 64 pid) by (by apply wrapU_range). set (plain := binding_plain b pid random pad).
  set (mk := slice (sha1 (take 72 plain)) 4 20).
  assert (Hmk : length mk = 16%nat) by (unfold mk; by rewrite slice_length by (rewrite sha1_size; lia)).
  destruct (temporaryBindingKDF_sizes permanent mk) as [Hk Hi].
  destruct (temporaryBindingKDF permanent mk) as [key iv] eqn:Ekdf. cbn in Hk, Hi.
  destruct (CryptBlocks_new key iv plain 5 Hk Hi (binding_plain_length b pid random pad Hr Hp)) as (ct & x & y & He & Hd & Hlc).
  unfold plain in Hlc. rewrite binding_plain_length in Hlc by done. fold plain in Hlc.
  unfold mbind, result_bind in *. destruct (NewAESIGE key iv) as [blk|]; [|done]. rewrite He. cbn [fst].
  eexists. split; [reflexivity|]. unfold ValidateTemporaryKeyBinding. fold pid.
  set (msg := le_put 8 pid ++ mk ++ ct).
  assert (Hlen : len msg = 104) by (unfold msg, len; rewrite !length_app, le_put_length, Hmk, Hlc; done).
  assert (Hid : u64_at msg 0 = pid).
  { unfold u64_at, slice. rewrite drop_0. change (0 + 8 - 0)%nat with 8%nat. unfold msg. rewrite (take_len_app 8) by apply le_put_length.
    by rewrite le_get_put_u64, wrapU_id. }
  assert (Hsl : slice msg 8 24 = mk) by (apply (field_at (le_put 8 pid) mk ct 8 16); [apply le_put_length|done]).
  assert (Hdr : drop 24 msg = ct).
  { unfold msg. rewrite app_assoc. apply drop_len_app. by rewrite length_app, le_put_length, Hmk. }
  rewrite Hlen, Hid, Hsl, Hdr, Ekdf, Z.eqb_refl. cbn [negb orb Z.eqb Z.add Pos.add Pos.eqb].
  unfold mbind, result_bind. destruct (NewAESIGEDecrypt key iv) as [blk'|]; [|done]. rewrite Hd. cbn [fst].
  unfold bytes_eqb, mk. rewrite bool_decide_eq_true_2 by done. cbn [negb].
  destruct (binding_values b pid random pad Hr Hb Hpid) as (V1 & V2 & V3 & V4 & V5 & V6 & V7 & V8 & V9). fold plain in V1, V2, V3, V4, V5, V6, V7, V8, V9.
  rewrite V1, V2, V3, V4, V5, V6, V7, V8, V9, !Z.eqb_refl. cbn [negb].
  rewrite !orb_false_r.
  destruct b as [t s m n e], b' as [t' s' m' n' e']; cbn.
  destruct (Z.eqb_spec m m'), (Z.eqb_spec n n'), (Z.eqb_spec t t'), (Z.eqb_spec s s'), (Z.eqb_spec e e');
    cbn; split; intros; simplify_eq; done.
Qed.

End binding.

Lemma revocation_and_binding_witness :
  let m := {| keys := <[7 := [x01]]> (<[9 := [x02]]> ∅); temporary := {[9 := {| ExpiresAt := 50; PermanentKeyID := 7 |}]} |} in
  Get 10 9 m = Ok [x02] /\ Get 10 9 (run_events [EvExpire 20 9; EvPut 7 [x03]] (Delete 7 m)) = Err ErrAuthKeyNotFound.
Proof.
  split; [by vm_compute|].
  apply (revocation_and_binding [EvExpire 20 9; EvPut 7 [x03]] _ 7 9 10).
  - repeat constructor; cbn; lia.
  - right. by eexists.
Defined.

Lemma binding_accepted_iff_witness :
  let b := {| bi_temp := 5; bi_session := -6; bi_message := 7; bi_nonce := 8; bi_expires := 9 |} in
  exists msg,
    binding_message b toy_key (replicate 16 x0a) (replicate 8 x0b) = Ok msg /\
    (ValidateTemporaryKeyBinding toy_key 5 (-6) 7 8 9 msg = Ok tt <-> b = b).
Proof.
  cbv zeta.
  apply (binding_accepted_iff {| bi_temp := 5; bi_session := -6; bi_message := 7; bi_nonce := 8; bi_expires := 9 |}
           {| bi_temp := 5; bi_session := -6; bi_message := 7; bi_nonce := 8; bi_expires := 9 |}
           toy_key (replicate 16 x0a) (replicate 8 x0b)); [|done..].
  repeat split; by vm_compute.
Defined.
