(* ===== verification/WriterLoop.v ===== *)
(** The session writer of internal/runtime/writer.go: the only place where
    outbound message ids and sequence numbers are allocated, frames are encrypted,
    retained for resending and sent.

    The writer's goroutine handles one request at a time, so a handler is a state
    transformer.  The parts it drives are models of this development: the message
    id generator, the reliability store, the service objects, the encryption.
    Its lease is an interface ([LeaseOps]), implemented by the coordinator's
    leases.  What it takes from outside are parameters: the clock readings
    ([now], by the number of readings so far), the random padding, and whether the
    n-th physical write succeeds. *)

From stdpp Require Import base numbers list gmap strings.
From S2P Require Import Prelude Wire Session Reliability MsgId Crypto Tl Contracts.
Open Scope Z_scope.

(** * The lease as the writer uses it *)

Class LeaseOps (L : Type) := {
  lease_Snapshot : L -> result session_error Session.Snapshot;
  lease_Save : Ctx -> Session.Snapshot -> ST L session_error unit;
  lease_Retire : L -> L
}.

(** What the lease promises: after a successful save it reports the saved snapshot,
    as long as it is active; a failed save leaves the snapshot it reports; a retired
    lease reports and saves nothing any more. *)
Class LeaseLaws (L : Type) `{LeaseOps L} := {
  law_save_ok ctx s l l' s' : lease_Save ctx s l = (Ok tt, l') -> lease_Snapshot l' = Ok s' -> s' = s;
  law_save_err ctx s l e l' s' : lease_Save ctx s l = (Err e, l') -> lease_Snapshot l' = Ok s' -> lease_Snapshot l = Ok s';
  law_retire l : is_ok (lease_Snapshot (lease_Retire l)) = false;
  law_retired ctx s l : is_ok (lease_Save ctx s (lease_Retire l)).1 = false
}.

(** * Errors and data *)

Inductive writer_error :=
| ErrLease (e : session_error)
| ErrEncode (e : wire_error)
| ErrWriterPayloadTooLarge
| ErrWriterIntent
| ErrEncrypt (e : crypto_error)
| ErrRetain (e : store_error)
| ErrRetainedMessageNotFound (id : Z)
| ErrSink.

Definition DefaultMaxEncodedPayloadBytes : Z := 16 * 2 ^ 20.
Definition maxOpportunisticPushBatch : nat := 64.
Definition messageContainerHeaderBytes : Z := 8.
Definition messageContainerChildBytes : Z := 16.

(** A context: its identity, whether its dynamic type is comparable, its Err. *)
Record context := { ctx_id : Z; ctx_comparable : bool; ctx_Err : Ctx }.

Inductive writerOperation :=
| OpSubmit (intent : Intent)
| OpAcknowledge (messageIDs : list Z)
| OpInspect (messageID : Z)
| OpReplayResponse (requestID : Z).

Record writerRequest := { rq_ctx : context; rq_operation : writerOperation }.

Record OutboundReliabilityState := { Known : bool; Acknowledged : bool; ResendEligible : bool }.

Definition no_state : OutboundReliabilityState := {| Known := false; Acknowledged := false; ResendEligible := false |}.

Record writerResponse := { rs_state : OutboundReliabilityState; rs_err : option writer_error }.

Record retainedFrameMessage := { rt_messageID : Z; rt_requestMessageID : Z; rt_sequenceNo : Z }.

Record preparedFrame := {
  pf_messageID : Z;
  pf_requestMessageID : Z;
  pf_sequenceNo : Z;
  pf_frame : bytes;
  pf_retained : list retainedFrameMessage
}.

Definition normalizeMaxEncodedBytes (maxBytes : Z) : Z :=
  if maxBytes <=? 0 then DefaultMaxEncodedPayloadBytes else maxBytes.

(** serializeRuntimeTLBounded: SerializeTL through a boundedRuntimeWriter. *)
Definition serializeRuntimeTLBounded (value : WR unit) (maxBytes : Z) : result writer_error bytes :=
  match value (Writer [] (Some (normalizeMaxEncodedBytes maxBytes))) with
  | (Ok _, w) => Ok (w_buf w)
  | (Err e, _) => Err (ErrEncode e)
  end.

Definition responseRequestID (intent : Intent) : Z :=
  match intent with
  | Contracts.RPCResult id _ => id
  | Contracts.RPCError id _ _ => id
  | _ => 0
  end.

(** A body, whether it is content-related, whether it is a push. *)
Definition encodeIntentBodyBounded (intent : Intent) (maxBytes : Z) : result writer_error (bytes * bool * bool) :=
  match intent with
  | Contracts.RPCResult id body =>
      if maxBytes <? len body then Err ErrWriterPayloadTooLarge
      else
        body ← serializeRuntimeTLBounded
          (RPCResult_SerializeTL {| rr_ReqMsgID := id; rr_Result := None; rr_ResultRaw := body |}) maxBytes;
        mret (body, true, false)
  | Contracts.RPCError id code message =>
      errorBody ← serializeRuntimeTLBounded
        (RPCError_SerializeTL {| re_ErrorCode := code; re_ErrorMessage := String.list_byte_of_string message |}) maxBytes;
      body ← serializeRuntimeTLBounded
        (RPCResult_SerializeTL {| rr_ReqMsgID := id; rr_Result := None; rr_ResultRaw := errorBody |}) maxBytes;
      mret (body, true, false)
  | Contracts.ProtocolReply body contentRelated unsolicited =>
      if maxBytes <? len body then Err ErrWriterPayloadTooLarge else mret (body, contentRelated, unsolicited)
  | Contracts.Acknowledge ids =>
      body ← serializeRuntimeTLBounded (MsgsAck_SerializeTL ids) maxBytes;
      mret (body, false, false)
  | Contracts.Push body =>
      if maxBytes <? len body then Err ErrWriterPayloadTooLarge else mret (body, true, true)
  | _ => Err ErrWriterIntent
  end.

(** ** The snapshot's outbound counter *)

Definition set_ServerSeqNo (n : Z) (s : Session.Snapshot) : Session.Snapshot :=
  {| sn_AuthKeyID := sn_AuthKeyID s; sn_SessionID := sn_SessionID s; sn_Layer := sn_Layer s;
     sn_UserID := sn_UserID s; sn_PushSubscription := sn_PushSubscription s;
     sn_ServerSalt := sn_ServerSalt s; sn_SeqNo := sn_SeqNo s; sn_ServerSeqNo := n;
     sn_LastClientMsgID := sn_LastClientMsgID s; sn_ClientMsgIDFloor := sn_ClientMsgIDFloor s;
     sn_RecentClientMsgIDs := sn_RecentClientMsgIDs s; sn_RecentClientSeqNos := sn_RecentClientSeqNos s;
     sn_Client := sn_Client s; sn_NewSessionCreated := sn_NewSessionCreated s;
     sn_FirstClientMsgID := sn_FirstClientMsgID s; sn_CreatedAt := sn_CreatedAt s;
     sn_LastActivity := sn_LastActivity s |}.

Definition set_LastActivity (t : Z) (s : Session.Snapshot) : Session.Snapshot :=
  {| sn_AuthKeyID := sn_AuthKeyID s; sn_SessionID := sn_SessionID s; sn_Layer := sn_Layer s;
     sn_UserID := sn_UserID s; sn_PushSubscription := sn_PushSubscription s;
     sn_ServerSalt := sn_ServerSalt s; sn_SeqNo := sn_SeqNo s; sn_ServerSeqNo := sn_ServerSeqNo s;
     sn_LastClientMsgID := sn_LastClientMsgID s; sn_ClientMsgIDFloor := sn_ClientMsgIDFloor s;
     sn_RecentClientMsgIDs := sn_RecentClientMsgIDs s; sn_RecentClientSeqNos := sn_RecentClientSeqNos s;
     sn_Client := sn_Client s; sn_NewSessionCreated := sn_NewSessionCreated s;
     sn_FirstClientMsgID := sn_FirstClientMsgID s; sn_CreatedAt := sn_CreatedAt s;
     sn_LastActivity := t |}.

Definition nextSequenceNo (snapshot : Session.Snapshot) (contentRelated : bool) : Z * Session.Snapshot :=
  if contentRelated then
    (int32 (int32 (sn_ServerSeqNo snapshot * 2) + 1), set_ServerSeqNo (int32 (sn_ServerSeqNo snapshot + 1)) snapshot)
  else (int32 (sn_ServerSeqNo snapshot * 2), snapshot).

(** ** What the encoders produce *)

(** A writer program accounts for every byte it writes. *)
Definition accounts (m : WR unit) : Prop :=
  forall buf n, 0 <= n ->
    exists n', w_remaining (m (Writer buf (Some n))).2 = Some n' /\ 0 <= n' /\
               len (w_buf (m (Writer buf (Some n))).2) + n' = len buf + n.

Lemma accounts_Write p : accounts (Write p).
Proof.
  intros buf n Hn. unfold Write. cbn [w_remaining w_buf].
  destruct (Z.ltb_spec n (len p)); cbn [snd w_remaining w_buf]; eexists; (split; [done|]);
    rewrite ?len_app; lia.
Qed.

Lemma accounts_ret : accounts (mret tt).
Proof. intros buf n Hn. exists n. done. Qed.

Lemma accounts_err e : accounts (st_err e).
Proof. intros buf n Hn. exists n. done. Qed.

Lemma accounts_bind (m : WR unit) (f : unit -> WR unit) : accounts m -> accounts (f tt) -> accounts (m ≫= f).
Proof.
  intros Hm Hf buf n Hn. destruct (Hm buf n Hn) as (n1 & Hr & Hn1 & Hl).
  unfold mbind, ST_bind, st_bind. destruct (m (Writer buf (Some n))) as [[[]|e] [buf1 r1]]; cbn in *; subst.
  - destruct (Hf buf1 n1 Hn1) as (n2 & ? & ? & ?). exists n2. split_and!; [done..|lia].
  - by exists n1.
Qed.

Lemma accounts_each {A} (f : A -> WR unit) xs : (forall x, accounts (f x)) -> accounts (st_each f xs).
Proof.
  intros Hf. induction xs as [|x xs IH]; [apply accounts_ret|]. by apply (accounts_bind (f x) (fun _ => st_each f xs)).
Qed.

#[local] Hint Resolve accounts_Write accounts_ret accounts_err accounts_bind accounts_each : tlrpc.

Lemma accounts_WriteBytes v : accounts (WriteBytes v).
Proof.
  unfold WriteBytes. repeat case_match; repeat apply accounts_bind; eauto with tlrpc.
Qed.

Lemma bounded_size m maxBytes body :
  accounts m -> serializeRuntimeTLBounded m maxBytes = Ok body -> len body <= normalizeMaxEncodedBytes maxBytes.
Proof.
  intros Hm. unfold serializeRuntimeTLBounded.
  assert (0 <= normalizeMaxEncodedBytes maxBytes).
  { unfold normalizeMaxEncodedBytes, DefaultMaxEncodedPayloadBytes. destruct (Z.leb_spec maxBytes 0); lia. }
  destruct (Hm [] (normalizeMaxEncodedBytes maxBytes)) as (n' & _ & ? & Hl); [done|].
  destruct (m _) as [[[]|e] w]; intros [= <-]. cbn [snd] in Hl. rewrite len_nil in Hl. lia.
Qed.

Lemma accounts_RPCResult id body :
  accounts (RPCResult_SerializeTL {| rr_ReqMsgID := id; rr_Result := None; rr_ResultRaw := body |}).
Proof. unfold RPCResult_SerializeTL. cbn. repeat apply accounts_bind; apply accounts_Write. Qed.

Lemma accounts_Acks ids : accounts (MsgsAck_SerializeTL ids).
Proof.
  unfold MsgsAck_SerializeTL, writeIDs, WriteVectorHeader. repeat apply accounts_bind; try apply accounts_Write.
  apply accounts_each. intros. apply accounts_Write.
Qed.

Lemma encode_size intent maxBytes body contentRelated push :
  0 < maxBytes -> encodeIntentBodyBounded intent maxBytes = Ok (body, contentRelated, push) -> len body <= maxBytes.
Proof.
  intros Hm. assert (Hn : normalizeMaxEncodedBytes maxBytes = maxBytes).
  { unfold normalizeMaxEncodedBytes. by rewrite (proj2 (Z.leb_gt _ _)). }
  destruct intent; cbn [encodeIntentBodyBounded]; try done; try (case_match; bools; [done|]).
  all: unfold mbind, result_bind, mret, result_ret; repeat case_match; intros; simplify_eq; bools; try done.
  all: rewrite <- Hn; eapply bounded_size; [|eassumption]; eauto using accounts_RPCResult, accounts_Acks.
Qed.

(** The writer's numbering of messages is the sequence number generator's. *)
Lemma nextSequenceNo_generator snapshot contentRelated :
  let '(n, snapshot') := nextSequenceNo snapshot contentRelated in
  SeqNoGenerator_Next contentRelated {| seq := sn_ServerSeqNo snapshot |} = (n, {| seq := sn_ServerSeqNo snapshot' |}) /\
  snapshot' = set_ServerSeqNo (sn_ServerSeqNo snapshot') snapshot.
Proof. destruct snapshot, contentRelated; done. Qed.

Lemma bounded_emits m bs maxBytes body :
  emits m bs -> serializeRuntimeTLBounded m maxBytes = Ok body -> body = bs.
Proof.
  intros Hm. unfold serializeRuntimeTLBounded.
  assert (0 <= normalizeMaxEncodedBytes maxBytes).
  { unfold normalizeMaxEncodedBytes, DefaultMaxEncodedPayloadBytes. destruct (Z.leb_spec maxBytes 0); lia. }
  pose proof (emits_bounded m bs (normalizeMaxEncodedBytes maxBytes) ltac:(done) Hm) as He.
  case_match; [rewrite He|destruct He as [w' ->]]; by intros [= <-].
Qed.

Lemma fmap_zip_with_snd {A B C D} (f : A -> B -> C) (g : C -> D) (h : B -> D) l k :
  (forall x y, g (f x y) = h y) -> length l = length k -> g <$> zip_with f l k = h <$> k.
Proof.
  intros Hg. revert k. induction l as [|x l IH]; intros [|y k] Hl; try done. injection Hl as Hl. cbn.
  by rewrite Hg, IH.
Qed.

Lemma fmap_zip_with_fst {A B C D} (f : A -> B -> C) (g : C -> D) (h : A -> D) l k :
  (forall x y, g (f x y) = h x) -> length l = length k -> g <$> zip_with f l k = h <$> l.
Proof.
  intros Hg. revert k. induction l as [|x l IH]; intros [|y k] Hl; try done. injection Hl as Hl. cbn.
  by rewrite Hg, IH.
Qed.

Lemma seqnos_range flags g : Forall (inS 32) (seqnos flags g).1.
Proof.
  revert g. induction flags as [|f flags IH]; intros g; cbn [seqnos]; [constructor|].
  assert (Hn : inS 32 (SeqNoGenerator_Next f g).1) by (unfold SeqNoGenerator_Next; case_match; apply wrapS_range; lia).
  destruct (SeqNoGenerator_Next f g) as [n g']. specialize (IH g'). destruct (seqnos flags g'). by constructor.
Qed.

(** Each element is greater than all before it. *)
Definition increasing (ids : list Z) : Prop :=
  forall i j a b, (i < j)%nat -> ids !! i = Some a -> ids !! j = Some b -> a < b.

Lemma increasing_NoDup ids : increasing ids -> NoDup ids.
Proof.
  intros Hi. apply NoDup_alt. intros i j x Hx Hy. destruct (Nat.lt_trichotomy i j) as [H|[->|H]]; [|done|].
  - pose proof (Hi i j x x H Hx Hy). lia.
  - pose proof (Hi j i x x H Hy Hx). lia.
Qed.

(** Nanoseconds since the epoch. *)
Definition nanos (c : clock) : Z := Unix c * 10 ^ 9 + Nanosecond c.

(** * The writer *)

Section writer.
Context {L : Type} `{Hlease : LeaseOps L} `{Hplatform : Platform}.
Context (now : nat -> clock) (random : nat -> nat -> bytes) (write_ok : nat -> bool).

Record Writer := {
  wr_lease : L;
  wr_authKey : bytes;
  wr_ids : MsgIDGenerator;
  wr_reliability : Reliability.Store;
  wr_maxEncodedBytes : Z;
  wr_ticks : nat;
  wr_attempts : nat;
  wr_sent : list bytes
}.

Abbreviation WM := (ST Writer writer_error).

Definition lift {A} (res : result writer_error A) : WM A := fun w => (res, w).

(** Reads the clock. *)
Definition tick : WM clock := fun w =>
  (Ok (now (wr_ticks w)),
   {| wr_lease := wr_lease w; wr_authKey := wr_authKey w; wr_ids := wr_ids w; wr_reliability := wr_reliability w;
      wr_maxEncodedBytes := wr_maxEncodedBytes w; wr_ticks := S (wr_ticks w); wr_attempts := wr_attempts w;
      wr_sent := wr_sent w |}).

Definition with_now {A} (f : clock -> WM A) : WM A := st_bind f tick.

Definition set_ids (g : MsgIDGenerator) (w : Writer) : Writer :=
  {| wr_lease := wr_lease w; wr_authKey := wr_authKey w; wr_ids := g; wr_reliability := wr_reliability w;
     wr_maxEncodedBytes := wr_maxEncodedBytes w; wr_ticks := wr_ticks w; wr_attempts := wr_attempts w;
     wr_sent := wr_sent w |}.

Definition set_reliability (s : Reliability.Store) (w : Writer) : Writer :=
  {| wr_lease := wr_lease w; wr_authKey := wr_authKey w; wr_ids := wr_ids w; wr_reliability := s;
     wr_maxEncodedBytes := wr_maxEncodedBytes w; wr_ticks := wr_ticks w; wr_attempts := wr_attempts w;
     wr_sent := wr_sent w |}.

Definition set_lease (l : L) (w : Writer) : Writer :=
  {| wr_lease := l; wr_authKey := wr_authKey w; wr_ids := wr_ids w; wr_reliability := wr_reliability w;
     wr_maxEncodedBytes := wr_maxEncodedBytes w; wr_ticks := wr_ticks w; wr_attempts := wr_attempts w;
     wr_sent := wr_sent w |}.

(** [sink.WriteFrame]: the frame is on the wire, or the write failed. *)
Definition sink_WriteFrame (frame : bytes) : WM unit := fun w =>
  let ok := write_ok (wr_attempts w) in
  (if ok then Ok tt else Err ErrSink,
   {| wr_lease := wr_lease w; wr_authKey := wr_authKey w; wr_ids := wr_ids w; wr_reliability := wr_reliability w;
      wr_maxEncodedBytes := wr_maxEncodedBytes w; wr_ticks := wr_ticks w; wr_attempts := S (wr_attempts w);
      wr_sent := if ok then wr_sent w ++ [frame] else wr_sent w |}).

Definition nextMessageID (push : bool) : WM Z :=
  with_now (fun t w =>
    let '(id, g) := MsgIDGenerator_Next t (wr_ids w) in
    let base := clear3 id in
    (Ok (if push then Z.lor base 3 else Z.lor base 1), set_ids g w)).

(** The children of a batch: their container messages, what is retained of them,
    and the snapshot with their sequence numbers taken. *)
Fixpoint encodeChildren (items : list Intent) (maxBytes : Z) (snapshot : Session.Snapshot)
  : WM (list Tl.Message * list retainedFrameMessage * Session.Snapshot) :=
  match items with
  | [] => mret ([], [], snapshot)
  | child :: items' =>
      body ← lift (encodeIntentBodyBounded child maxBytes);
      let '(childBody, contentRelated, push) := body in
      childMessageID ← nextMessageID push;
      let '(childSequenceNo, snapshot) := nextSequenceNo snapshot contentRelated in
      rest ← encodeChildren items' maxBytes snapshot;
      let '(messages, retained, snapshot) := rest in
      mret ({| m_MsgID := childMessageID; m_SeqNo := childSequenceNo; m_Bytes := int32 (len childBody);
               m_Body := None; m_BodyRaw := childBody |} :: messages,
            {| rt_messageID := childMessageID; rt_requestMessageID := responseRequestID child;
               rt_sequenceNo := childSequenceNo |} :: retained,
            snapshot)
  end.

Definition encodeSingle (intent : Intent) (maxBytes : Z) (snapshot : Session.Snapshot)
  : WM (bytes * Z * Z * list retainedFrameMessage * Session.Snapshot) :=
  encoded ← lift (encodeIntentBodyBounded intent maxBytes);
  let '(body, contentRelated, push) := encoded in
  messageID ← nextMessageID push;
  let '(sequenceNo, snapshot) := nextSequenceNo snapshot contentRelated in
  mret (body, messageID, sequenceNo, [], snapshot).

(** The body of [prepare]: encoded body, id, sequence number, retained children. *)
Definition encodeBody (intent : Intent) (maxBytes : Z) (snapshot : Session.Snapshot)
  : WM (bytes * Z * Z * list retainedFrameMessage * Session.Snapshot) :=
  match intent with
  | Contracts.Batch items =>
      if DefaultMaxVectorElements <? len items then st_err ErrWriterPayloadTooLarge
      else
        children ← encodeChildren items maxBytes snapshot;
        let '(messages, retained, snapshot) := children in
        body ← lift (serializeRuntimeTLBounded (MsgContainer_SerializeTL messages) maxBytes);
        messageID ← nextMessageID false;
        let '(sequenceNo, snapshot) := nextSequenceNo snapshot false in
        mret (body, messageID, sequenceNo, retained, snapshot)
  | _ => encodeSingle intent maxBytes snapshot
  end.

(** [inner.Encrypt(w.authKey, snapshot.AuthKeyID)] *)
Definition encrypt_step (inner : InnerData) (authKeyID : Z) : WM EncryptedMessage := fun w =>
  (map_err ErrEncrypt (encryptWithDirection (random (wr_ticks w)) inner (wr_authKey w) authKeyID false), w).

Definition prepare (intent : Intent) : WM (preparedFrame * Session.Snapshot) := fun w =>
  match lease_Snapshot (wr_lease w) with
  | Err e => (Err (ErrLease e), w)
  | Ok snapshot =>
      (encoded ← encodeBody intent (wr_maxEncodedBytes w) snapshot;
       let '(body, messageID, sequenceNo, retained, snapshot) := encoded in
       let inner := {| Crypto.Salt := sn_ServerSalt snapshot; Crypto.SessionID := sn_SessionID snapshot;
                       Crypto.MsgID := messageID; Crypto.SeqNo := sequenceNo; Crypto.Data := body |} in
       encrypted ← encrypt_step inner (sn_AuthKeyID snapshot);
       t ← tick;
       mret ({| pf_messageID := messageID; pf_requestMessageID := responseRequestID intent;
                pf_sequenceNo := sequenceNo; pf_frame := serializeEncryptedFrame encrypted;
                pf_retained := retained |}, set_LastActivity (nanos t) snapshot)) w
  end.

(** [w.lease.Save(ctx, next)] *)
Definition lease_step (ctx : Ctx) (next : Session.Snapshot) : WM unit := fun w =>
  match lease_Save ctx next (wr_lease w) with
  | (Ok _, l) => (Ok tt, set_lease l w)
  | (Err e, l) => (Err (ErrLease e), set_lease l w)
  end.

Definition retain_message (frame : bytes) (sentAt : Z) (m : retainedFrameMessage) : WM unit :=
  with_now (fun t w =>
    match Reliability.Put (nanos t)
            {| sm_MessageID := rt_messageID m; sm_RequestMessageID := rt_requestMessageID m;
               sm_SequenceNumber := rt_sequenceNo m; sm_Payload := frame; sm_SentAt := sentAt;
               sm_Acknowledged := false |} (wr_reliability w) with
    | (Ok _, s) => (Ok tt, set_reliability s w)
    | (Err e, s) => (Err (ErrRetain e), set_reliability s w)
    end).

Definition resend_one (id : Z) : WM unit :=
  with_now (fun t w =>
    let '(found, s) := Reliability.LookupForResend (nanos t) id (wr_reliability w) in
    match found with
    | None => (Err (ErrRetainedMessageNotFound id), set_reliability s w)
    | Some m => sink_WriteFrame (sm_Payload m) (set_reliability s w)
    end).

Definition all_retained (p : preparedFrame) : list retainedFrameMessage :=
  pf_retained p ++ [{| rt_messageID := pf_messageID p; rt_requestMessageID := pf_requestMessageID p;
                       rt_sequenceNo := pf_sequenceNo p |}].

(** [true]: the writer stops. *)
Definition process (ctx : Ctx) (intent : Intent) : WM bool :=
  match intent with
  | Contracts.Close _ => mret true
  | Contracts.Resend ids => _ ← st_each resend_one ids; mret false
  | _ =>
      pn ← prepare intent;
      let '(prepared, next) := pn in
      _ ← lease_step ctx next;
      t ← tick;
      _ ← st_each (retain_message (pf_frame prepared) (nanos t)) (all_retained prepared);
      _ ← sink_WriteFrame (pf_frame prepared);
      mret false
  end.

(** ** Requests *)

Definition reply_err (e : writer_error) : writerResponse := {| rs_state := no_state; rs_err := Some e |}.

Definition acknowledge_one (id : Z) : WM unit :=
  with_now (fun t w => (Ok tt, set_reliability (Reliability.Acknowledge (nanos t) id (wr_reliability w)).2 w)).

(** The response, whether to stop, and the fatal error. *)
Definition processRequest (rq : writerRequest) (w : Writer) : writerResponse * bool * option writer_error * Writer :=
  match ctx_Err (rq_ctx rq), rq_operation rq with
  | ctx, OpSubmit intent =>
      match process ctx intent w with
      | (Ok stop, w) => ({| rs_state := no_state; rs_err := None |}, stop, None, w)
      | (Err e, w) => (reply_err e, false, Some e, w)
      end
  | Some e, _ => (reply_err (ErrLease e), false, None, w)
  | None, OpAcknowledge ids => ({| rs_state := no_state; rs_err := None |}, false, None, (st_each acknowledge_one ids w).2)
  | None, OpInspect id =>
      let '(message, s) := Reliability.Lookup (nanos (now (wr_ticks w))) id (wr_reliability w) in
      let known := bool_decide (is_Some message) in
      let acked := default false (sm_Acknowledged <$> message) in
      ({| rs_state := {| Known := known; Acknowledged := known && acked; ResendEligible := known && negb acked |};
          rs_err := None |}, false, None, set_reliability s (tick w).2)
  | None, OpReplayResponse id =>
      let '(message, s) := Reliability.LookupResponse (nanos (now (wr_ticks w))) id (wr_reliability w) in
      let w := set_reliability s (tick w).2 in
      let known := {| Known := bool_decide (is_Some message); Acknowledged := false; ResendEligible := false |} in
      match message with
      | Some m =>
          if sm_Acknowledged m then ({| rs_state := known; rs_err := None |}, false, None, w)
          else match sink_WriteFrame (sm_Payload m) w with
               | (Ok _, w) => ({| rs_state := known; rs_err := None |}, false, None, w)
               | (Err e, w) => (reply_err e, false, Some e, w)
               end
      | None => ({| rs_state := known; rs_err := None |}, false, None, w)
      end
  end.

(** ** Opportunistic batches of pushes *)

Definition pushRequest (rq : writerRequest) : option bytes :=
  match rq_operation rq with OpSubmit (Contracts.Push body) => Some body | _ => None end.

Definition sameWriterContext (a b : context) : bool :=
  ctx_comparable a && ctx_comparable b && (ctx_id a =? ctx_id b).

(** The loop of collectPushRequests over the requests that are ready, in the order
    the channel delivers them: those taken (after [taken] of them), the one taken
    but not compatible, and those left in the channel. *)
Fixpoint collectLoop (room : nat) (max encodedBytes : Z) (first : context) (ready : list writerRequest)
  : list writerRequest * option writerRequest * list writerRequest :=
  match room, ready with
  | O, _ => ([], None, ready)
  | _, [] => ([], None, [])
  | S room, next :: ready' =>
      let remaining := max - encodedBytes in
      match pushRequest next with
      | Some body =>
          if negb (sameWriterContext first (rq_ctx next)) || (remaining <? messageContainerChildBytes) ||
             (remaining - messageContainerChildBytes <? len body)
          then ([], Some next, ready')
          else
            let '(taken, pending, rest) :=
              collectLoop room max (encodedBytes + messageContainerChildBytes + len body) first ready' in
            (next :: taken, pending, rest)
      | None => ([], Some next, ready')
      end
  end.

Definition collectPushRequests (max : Z) (first : writerRequest) (ready : list writerRequest)
  : list writerRequest * option writerRequest * list writerRequest :=
  match pushRequest first with
  | Some body =>
      let firstOverhead := messageContainerHeaderBytes + messageContainerChildBytes in
      if negb (ctx_comparable (rq_ctx first)) then ([first], None, ready)
      else if (max <? firstOverhead) || (max - firstOverhead <? len body) then ([first], None, ready)
      else
        let '(taken, pending, rest) :=
          collectLoop (maxOpportunisticPushBatch - 1) max (firstOverhead + len body) (rq_ctx first) ready in
        (first :: taken, pending, rest)
  | None => ([first], None, ready)
  end.

Definition request_intent (rq : writerRequest) : Intent :=
  match rq_operation rq with OpSubmit intent => intent | _ => Contracts.Close None end.

Definition processRequests (rqs : list writerRequest) (w : Writer) : writerResponse * bool * option writer_error * Writer :=
  match rqs with
  | [rq] => processRequest rq w
  | [] => ({| rs_state := no_state; rs_err := None |}, false, None, w)
  | rq :: _ =>
      match process (ctx_Err (rq_ctx rq)) (Contracts.Batch (request_intent <$> rqs)) w with
      | (Ok stop, w) => ({| rs_state := no_state; rs_err := None |}, stop, None, w)
      | (Err e, w) => (reply_err e, false, Some e, w)
      end
  end.

(** ** The loop *)

(** Why the loop ended; a failed assertion of the request's type is a panic. *)
Inductive loop_end :=
| LoopCancelled
| LoopFailed (e : writer_error)
| LoopClosed (c : Contracts.cause)
| LoopPanic.

(** [lp_queue]: the requests blocked on the channel, in the order it delivers them. *)
Record loop := {
  lp_writer : Writer;
  lp_pending : option writerRequest;
  lp_queue : list writerRequest;
  lp_replied : list (writerRequest * writerResponse);
  lp_end : option loop_end
}.

(** The rest of an iteration of [run] once it has its request. *)
Definition serve (request : writerRequest) (queue : list writerRequest) (lp : loop) : loop :=
  let '(requests, pending, rest) := collectPushRequests (wr_maxEncodedBytes (lp_writer lp)) request queue in
  let '(response, stop, fatal, w) := processRequests requests (lp_writer lp) in
  let ended := match fatal with
               | Some e => Some (LoopFailed e)
               | None => if stop then Some (match rq_operation request with
                                            | OpSubmit (Contracts.Close c) => LoopClosed c
                                            | _ => LoopPanic
                                            end)
                         else None
               end in
  {| lp_writer := match ended with Some _ => set_lease (lease_Retire (wr_lease w)) w | None => w end;
     lp_pending := pending; lp_queue := rest;
     lp_replied := lp_replied lp ++ ((fun r => (r, response)) <$> requests); lp_end := ended |}.

(** One iteration of [run]; [cancelled]: a Done branch of its select was taken. *)
Definition run_iteration (cancelled : bool) (lp : loop) : loop :=
  match lp_end lp with
  | Some _ => lp
  | None =>
      if cancelled
      then {| lp_writer := lp_writer lp; lp_pending := lp_pending lp; lp_queue := lp_queue lp;
              lp_replied := lp_replied lp; lp_end := Some LoopCancelled |}
      else match lp_pending lp, lp_queue lp with
           | Some request, queue => serve request queue lp
           | None, request :: queue => serve request queue lp
           | None, [] => lp
           end
  end.

(** * Facts *)

(** Everything but the id generator and the clock is as before. *)
Definition only_ids (w w' : Writer) : Prop :=
  wr_lease w' = wr_lease w /\ wr_authKey w' = wr_authKey w /\ wr_reliability w' = wr_reliability w /\
  wr_maxEncodedBytes w' = wr_maxEncodedBytes w /\ wr_attempts w' = wr_attempts w /\ wr_sent w' = wr_sent w.

Lemma only_ids_refl w : only_ids w w.
Proof. done. Qed.

Lemma only_ids_trans w1 w2 w3 : only_ids w1 w2 -> only_ids w2 w3 -> only_ids w1 w3.
Proof. unfold only_ids. intros (?&?&?&?&?&?) (?&?&?&?&?&?). split_and!; congruence. Qed.

Definition kind_of (push : bool) : msgIDKind := if push then msgIDPush else msgIDResponse.

(** An id of the writer is the generator's server id of its kind. *)
Lemma nextMessageID_server push w res w' :
  nextMessageID push w = (res, w') ->
  exists id, res = Ok id /\ nextServerMsgID (kind_of push) (now (wr_ticks w)) (wr_ids w) = (id, wr_ids w') /\
    wr_ticks w' = S (wr_ticks w) /\ only_ids w w'.
Proof.
  unfold nextMessageID, with_now, st_bind, nextServerMsgID. cbn.
  destruct (MsgIDGenerator_Next (now (wr_ticks w)) (wr_ids w)) as [id g]. intros [= <- <-].
  eexists. split; [reflexivity|]. by destruct push.
Qed.

(** The ids of a frame: one call of the generator per message, in order. *)
Definition id_calls (pushes : list bool) (ticks : nat) : list (msgIDKind * clock) :=
  imap (fun i push => (kind_of push, now (ticks + i)%nat)) pushes.

Lemma id_calls_cons push pushes ticks :
  id_calls (push :: pushes) ticks = (kind_of push, now ticks) :: id_calls pushes (S ticks).
Proof.
  unfold id_calls. cbn [imap]. rewrite Nat.add_0_r. f_equal. apply imap_ext. intros i x _. unfold compose.
  by rewrite Nat.add_succ_r.
Qed.

Abbreviation encoded := (bytes * bool * bool)%type.
Definition enc_body (e : encoded) : bytes := e.1.1.
Definition enc_content (e : encoded) : bool := e.1.2.
Definition enc_push (e : encoded) : bool := e.2.

Definition container_message (e : encoded) (id n : Z) : Tl.Message :=
  {| m_MsgID := id; m_SeqNo := n; m_Bytes := int32 (len (enc_body e)); m_Body := None; m_BodyRaw := enc_body e |}.

Lemma encodeChildren_spec items maxBytes snapshot w ms rt snapshot' w' :
  encodeChildren items maxBytes snapshot w = (Ok (ms, rt, snapshot'), w') ->
  exists encs ids ns,
    Forall2 (fun i e => encodeIntentBodyBounded i maxBytes = Ok e) items encs /\
    length ids = length items /\ length ns = length items /\
    ms = zip_with (fun e p => container_message e p.1 p.2) encs (zip ids ns) /\
    rt = zip_with (fun i p => {| rt_messageID := p.1; rt_requestMessageID := responseRequestID i; rt_sequenceNo := p.2 |})
           items (zip ids ns) /\
    (forall push, server_ids (id_calls (enc_push <$> encs ++ [([], false, push)]) (wr_ticks w)) (wr_ids w) =
       ids ++ [(nextServerMsgID (kind_of push) (now (wr_ticks w')) (wr_ids w')).1]) /\
    seqnos (enc_content <$> encs) {| seq := sn_ServerSeqNo snapshot |} = (ns, {| seq := sn_ServerSeqNo snapshot' |}) /\
    snapshot' = set_ServerSeqNo (sn_ServerSeqNo snapshot') snapshot /\ only_ids w w'.
Proof.
  revert snapshot w ms rt w'. induction items as [|i items IH]; intros snapshot w ms rt w'; cbn [encodeChildren].
  - unfold mret, ST_ret, st_ret. intros [= <- <- <- <-]. exists [], [], []. split_and!; try done.
    + intros push. cbn [fmap list_fmap app]. rewrite id_calls_cons. cbn. by destruct (nextServerMsgID (kind_of push) (now (wr_ticks w)) (wr_ids w)).
    + by destruct snapshot.
  - intros H. st_inv. destruct x as [[body cr] push]. unfold lift in *. simplify_eq. st_inv.
    apply nextMessageID_server in H0 as (id' & [= ->] & Hg & Ht & Hw).
    pose proof (nextSequenceNo_generator snapshot cr) as Hs. destruct (nextSequenceNo snapshot cr) as [n sn1] eqn:En.
    destruct Hs as [Hn Hsn1]. st_inv. destruct x as [[ms1 rt1] sn2]. st_inv. rename x0 into w.
    match goal with H : encodeChildren _ _ _ _ = _ |- _ => apply IH in H as (encs & ids & ns & He & Hi & Hl & -> & -> & Hids & Hseq & Hsn2 & Hw') end.
    exists ((body, cr, push) :: encs), (id' :: ids), (n :: ns).
    cbn [length zip_with zip fmap list_fmap seqnos]. split_and!; try done; try lia.
    + by constructor.
    + intros p. specialize (Hids p). rewrite Ht in Hids. cbn [app fmap list_fmap]. rewrite id_calls_cons. cbn [server_ids].
      change (enc_push (body, cr, push)) with push.
      rewrite Hg. cbn [app]. f_equal. exact Hids.
    + unfold enc_content at 1. cbn [fst snd]. rewrite Hn. by rewrite Hseq.
    + rewrite Hsn2, Hsn1. by destruct snapshot.
    + by eapply only_ids_trans.
Qed.

(** A container and the messages in it; the last id and number are its own. *)
Definition body_spec (intent : Intent) (w : Writer) (sn : Session.Snapshot)
    (body : bytes) (id n : Z) (retained : list retainedFrameMessage) (next : Session.Snapshot) : Prop :=
  match intent with
  | Contracts.Batch items =>
      exists encs ids ns,
        let ms := zip_with (fun e p => container_message e p.1 p.2) encs (zip ids ns) in
        Forall2 (fun i e => encodeIntentBodyBounded i (wr_maxEncodedBytes w) = Ok e) items encs /\
        length ids = length items /\ length ns = length items /\
        serializeRuntimeTLBounded (MsgContainer_SerializeTL ms) (wr_maxEncodedBytes w) = Ok body /\
        retained = zip_with (fun i p => {| rt_messageID := p.1; rt_requestMessageID := responseRequestID i;
                                           rt_sequenceNo := p.2 |}) items (zip ids ns) /\
        server_ids (id_calls ((enc_push <$> encs) ++ [false]) (wr_ticks w)) (wr_ids w) = ids ++ [id] /\
        seqnos ((enc_content <$> encs) ++ [false]) {| seq := sn_ServerSeqNo sn |} = (ns ++ [n], {| seq := sn_ServerSeqNo next |})
  | _ =>
      exists e,
        encodeIntentBodyBounded intent (wr_maxEncodedBytes w) = Ok e /\ body = enc_body e /\ retained = [] /\
        server_ids (id_calls [enc_push e] (wr_ticks w)) (wr_ids w) = [id] /\
        seqnos [enc_content e] {| seq := sn_ServerSeqNo sn |} = ([n], {| seq := sn_ServerSeqNo next |})
  end.

Lemma single_spec intent sn w body id n retained next w' :
  encodeSingle intent (wr_maxEncodedBytes w) sn w = (Ok (body, id, n, retained, next), w') ->
  (exists e,
     encodeIntentBodyBounded intent (wr_maxEncodedBytes w) = Ok e /\ body = enc_body e /\ retained = [] /\
     server_ids (id_calls [enc_push e] (wr_ticks w)) (wr_ids w) = [id] /\
     seqnos [enc_content e] {| seq := sn_ServerSeqNo sn |} = ([n], {| seq := sn_ServerSeqNo next |})) /\
  next = set_ServerSeqNo (sn_ServerSeqNo next) sn /\ only_ids w w'.
Proof.
  unfold encodeSingle. intros H. st_inv. destruct x as [[b cr] push]. unfold lift in *. simplify_eq. st_inv.
  apply nextMessageID_server in H0 as (id' & [= ->] & Hg & Ht & Hw).
  pose proof (nextSequenceNo_generator sn cr) as Hs. destruct (nextSequenceNo sn cr) as [m sn1].
  destruct Hs as [Hn Hsn1]. st_inv. split_and!; [|done..]. eexists. split_and!; [done..| |].
  - rewrite id_calls_cons. cbn [server_ids]. change (enc_push (body, cr, push)) with push.
    by rewrite Hg.
  - cbn [seqnos]. change (enc_content (body, cr, push)) with cr. by rewrite Hn.
Qed.

Lemma encodeBody_spec intent sn w body id n retained next w' :
  encodeBody intent (wr_maxEncodedBytes w) sn w = (Ok (body, id, n, retained, next), w') ->
  body_spec intent w sn body id n retained next /\ next = set_ServerSeqNo (sn_ServerSeqNo next) sn /\ only_ids w w'.
Proof.
  destruct intent; cbn [encodeBody]; try apply single_spec.
  case_match; [done|]. intros Hb. st_inv. destruct x as [[ms rt] sn1]. st_inv.
  match goal with H : encodeChildren _ _ _ _ = _ |- _ =>
    apply encodeChildren_spec in H as (encs & ids & ns & He & Hi & Hl & -> & -> & Hids & Hseq & Hsn1 & Hw) end.
  unfold lift in *. simplify_eq.
  match goal with H : nextMessageID _ _ = _ |- _ => apply nextMessageID_server in H as (id' & [= ->] & Hg & Ht & Hw') end.
  cbn [nextSequenceNo] in *. st_inv. split_and!; [|done|by eapply only_ids_trans].
  exists encs, ids, ns. split_and!; try done.
  - specialize (Hids false). rewrite Hg, fmap_app in Hids. exact Hids.
  - by rewrite (seqnos_app _ _ _ _ _ Hseq).
Qed.

Definition inner_of (sn : Session.Snapshot) (p : preparedFrame) (body : bytes) : InnerData :=
  {| Crypto.Salt := sn_ServerSalt sn; Crypto.SessionID := sn_SessionID sn; Crypto.MsgID := pf_messageID p;
     Crypto.SeqNo := pf_sequenceNo p; Crypto.Data := body |}.

Lemma prepare_spec intent w p next w' :
  prepare intent w = (Ok (p, next), w') ->
  exists sn body k em,
    lease_Snapshot (wr_lease w) = Ok sn /\
    body_spec intent w sn body (pf_messageID p) (pf_sequenceNo p) (pf_retained p) next /\
    next = set_LastActivity (sn_LastActivity next) (set_ServerSeqNo (sn_ServerSeqNo next) sn) /\
    encryptWithDirection (random k) (inner_of sn p body) (wr_authKey w) (sn_AuthKeyID sn) false = Ok em /\
    pf_frame p = serializeEncryptedFrame em /\ pf_requestMessageID p = responseRequestID intent /\ only_ids w w'.
Proof.
  unfold prepare. destruct (lease_Snapshot (wr_lease w)) as [sn|e]; [|done]. intros H. st_inv.
  destruct x as [[[[body id] n] rt] sn']. apply encodeBody_spec in H as (Hb & Hsn & Hw). st_inv.
  unfold encrypt_step in *. destruct (encryptWithDirection (random (wr_ticks x0))) as [em|] eqn:Eem; [|done]. cbn [map_err] in *. simplify_eq.
  unfold tick in *. st_inv. simplify_eq. rewrite Hsn in Eem. destruct Hw as (?&Hk&?&?&?&?). rewrite Hk in Eem.
  exists sn, body. eexists _, _. split_and!; [done| | |exact Eem|done..].
  - unfold body_spec in *. by destruct intent.
  - cbn [sn_LastActivity set_LastActivity sn_ServerSeqNo]. congruence.
Qed.

(** ** Retention *)

(** Everything but the reliability store and the clock is as before. *)
Definition only_retained (w w' : Writer) : Prop :=
  wr_lease w' = wr_lease w /\ wr_authKey w' = wr_authKey w /\ wr_ids w' = wr_ids w /\
  wr_maxEncodedBytes w' = wr_maxEncodedBytes w /\ wr_attempts w' = wr_attempts w /\ wr_sent w' = wr_sent w.

Definition sent_message (frame : bytes) (sentAt : Z) (m : retainedFrameMessage) : SentMessage :=
  {| sm_MessageID := rt_messageID m; sm_RequestMessageID := rt_requestMessageID m;
     sm_SequenceNumber := rt_sequenceNo m; sm_Payload := frame; sm_SentAt := sentAt; sm_Acknowledged := false |}.

Lemma retain_message_spec frame sentAt m w res w' :
  store_ok (wr_reliability w) -> retain_message frame sentAt m w = (res, w') ->
  exists res', Reliability.Put (nanos (now (wr_ticks w))) (sent_message frame sentAt m) (wr_reliability w) = (res', wr_reliability w') /\
    is_ok res = is_ok res' /\ only_retained w w' /\ store_ok (wr_reliability w') /\
    capacity (wr_reliability w') = capacity (wr_reliability w) /\ ttl (wr_reliability w') = ttl (wr_reliability w).
Proof.
  intros Hok. unfold retain_message, with_now, st_bind, tick. cbn [wr_reliability]. fold (sent_message frame sentAt m).
  pose proof (Put_refines (nanos (now (wr_ticks w))) (sent_message frame sentAt m) _ Hok) as Hp.
  destruct (Reliability.Put _ _ _) as [r s]. destruct Hp as (? & ? & ? & _).
  destruct r; intros [= <- <-]; eexists; split_and!; try done.
Qed.

Lemma retain_each_keeps frame sentAt ms w res w' :
  store_ok (wr_reliability w) -> st_each (retain_message frame sentAt) ms w = (res, w') ->
  store_ok (wr_reliability w') /\ only_retained w w'.
Proof.
  revert w. induction ms as [|m ms IH]; intros w Hok; cbn [st_each].
  { unfold st_ret. by intros [= <- <-]. }
  unfold st_bind. destruct (retain_message frame sentAt m w) as [[[]|e] w1] eqn:E;
    apply retain_message_spec in E as (r & _ & _ & Hw & Hok1 & _); try done.
  - intros H. apply IH in H as [? Hw']; [|done]. split; [done|].
    destruct Hw as (?&?&?&?&?&?), Hw' as (?&?&?&?&?&?). split_and!; congruence.
  - by intros [= <- <-].
Qed.

(** All messages of a frame are retained together, each with the whole frame. *)
Lemma retain_each_all frame sentAt ms w w' E o N :
  store_ok (wr_reliability w) -> st_each (retain_message frame sentAt) ms w = (Ok tt, w') ->
  newest_group E o N (abs (wr_reliability w)) -> sentAt <> zeroTime -> E = sentAt + ttl (wr_reliability w) ->
  0 <= o <= order (wr_reliability w) -> order (wr_reliability w) + len ms < 2 ^ 64 ->
  Z.of_nat (size N) + len ms <= capacity (wr_reliability w) ->
  NoDup (rt_messageID <$> ms) ->
  (forall k, k ∈ N -> k ∉ (rt_messageID <$> ms) -> abs (wr_reliability w') !! k = abs (wr_reliability w) !! k) /\
  (forall m, m ∈ ms -> r_message <$> abs (wr_reliability w') !! rt_messageID m = Some (sent_message frame sentAt m)).
Proof.
  revert w N. induction ms as [|m ms IH]; intros w N Hok; cbn [st_each fmap list_fmap].
  { unfold st_ret. intros [= <-] *. intros. split; [done|]. by intros m ?%elem_of_nil. }
  intros H Hg Hz HE Ho Hroom Hsize [Hm Hnd]%NoDup_cons. rewrite len_cons in *. pose proof (len_nonneg ms). st_inv.
  match goal with H : retain_message _ _ _ _ = _ |- _ =>
    destruct x; apply retain_message_spec in H as (r & Hp & Hr & Hw & Hok1 & Hc & Ht); [|done] end.
  destruct r as [r|]; [|done]. cbn in Hr.
  destruct (Put_group _ _ _ _ _ E o N Hok Hg Hp) as (Hg' & Hord & (r' & Hr' & Hmsg) & Hkeep); cbn [sm_SentAt sent_message]; try done; try lia.
  cbn [sm_MessageID sent_message] in *.
  assert (Hs : Z.of_nat (size ({[rt_messageID m]} ∪ N)) <= 1 + Z.of_nat (size N)).
  { rewrite size_union_alt, size_singleton. pose proof (subseteq_size (N ∖ {[rt_messageID m]}) N ltac:(set_solver)). lia. }
  match goal with H : st_each _ _ _ = _ |- _ => apply IH with (N := {[rt_messageID m]} ∪ N) in H as [Hk Ha] end;
    rewrite ?Hord, ?Hc, ?Ht; try done; try lia.
  split.
  - intros k Hk1 Hk2. rewrite not_elem_of_cons in Hk2. destruct Hk2. rewrite Hk by set_solver. by apply Hkeep.
  - intros m' [->|Hm']%elem_of_cons; [|by apply Ha]. rewrite Hk by set_solver. rewrite Hr'. cbn. by rewrite Hmsg.
Qed.

(** * Opening a frame *)

Definition frame_size (intent : Intent) : Z :=
  match intent with Contracts.Batch items => 1 + len items | _ => 1 end.

(** A writer with a live lease, sane clock and room for the ids of the frame. *)
Record ready (intent : Intent) (w : Writer) (sn : Session.Snapshot) : Prop := {
  rd_snapshot : lease_Snapshot (wr_lease w) = Ok sn;
  rd_widths : inS 64 (sn_ServerSalt sn) /\ inS 64 (sn_SessionID sn);
  rd_random : forall k, random_ok (random k);
  rd_gen : gen_ok (wr_ids w);
  rd_clock : forall k, clock_ok (now k) /\ clock_id (now k) + 4 * frame_size intent < 2 ^ 63;
  rd_last : last (wr_ids w) + 4 * frame_size intent < 2 ^ 63;
  rd_max : 0 < wr_maxEncodedBytes w < 2 ^ 31;
  rd_batch : match intent with Contracts.Batch items => len items <= MaxContainerMessages | _ => True end
}.

Definition low_bits (push : bool) : Z := if push then 3 else 1.

Lemma len_id_calls pushes ticks : len (id_calls pushes ticks) = len pushes.
Proof. unfold len, id_calls. by rewrite length_imap. Qed.

Lemma frame_ids pushes w sn intent ids :
  ready intent w sn -> len pushes = frame_size intent ->
  server_ids (id_calls pushes (wr_ticks w)) (wr_ids w) = ids ->
  Forall2 (fun push id => id mod 4 = low_bits push /\ last (wr_ids w) < id < 2 ^ 63) pushes ids /\ increasing ids.
Proof.
  intros Hr Hl <-. destruct (server_ids_ordered (id_calls pushes (wr_ticks w)) (wr_ids w)) as [Hf Hi].
  - apply Hr.
  - rewrite len_id_calls, Hl. intros kind t Hin. unfold id_calls in Hin.
    apply list_elem_of_lookup in Hin as [i Hin]. rewrite list_lookup_imap in Hin.
    apply fmap_Some in Hin as (push & _ & [= -> ->]). apply Hr.
  - rewrite len_id_calls, Hl. apply Hr.
  - split; [|exact Hi]. apply Forall2_same_length_lookup. split.
    + apply Forall2_length in Hf. rewrite <- Hf. unfold id_calls. by rewrite length_imap.
    + intros i push id Hp Hid. eapply Forall2_lookup_r in Hf as (call & Hc & Hm & _ & Hrange); [|exact Hid].
      unfold id_calls in Hc. rewrite list_lookup_imap, Hp in Hc. injection Hc as <-. cbn in Hm.
      split; [by destruct push|lia].
Qed.

(** What a client finds in a frame prepared for an intent: for a batch, a container
    of the children's bodies in order under increasing ids, with the sequence
    numbers the counter gives them; otherwise the body itself. *)
Definition carries (intent : Intent) (w : Writer) (sn : Session.Snapshot) (p : preparedFrame)
    (next : Session.Snapshot) (body : bytes) : Prop :=
  match intent with
  | Contracts.Batch items =>
      exists encs ms,
        let ids := (m_MsgID <$> ms) ++ [pf_messageID p] in
        Forall2 (fun i e => encodeIntentBodyBounded i (wr_maxEncodedBytes w) = Ok e) items encs /\
        DeserializeTL (OMsgContainer []) (Reader body None) = (Ok (OMsgContainer ms), Reader [] None) /\
        m_BodyRaw <$> ms = enc_body <$> encs /\ increasing ids /\
        Forall2 (fun push id => id mod 4 = low_bits push /\ last (wr_ids w) < id) ((enc_push <$> encs) ++ [false]) ids /\
        seqnos ((enc_content <$> encs) ++ [false]) {| seq := sn_ServerSeqNo sn |} =
          ((m_SeqNo <$> ms) ++ [pf_sequenceNo p], {| seq := sn_ServerSeqNo next |}) /\
        rt_messageID <$> all_retained p = ids
  | _ =>
      exists e,
        encodeIntentBodyBounded intent (wr_maxEncodedBytes w) = Ok e /\ body = enc_body e /\
        pf_messageID p mod 4 = low_bits (enc_push e) /\ last (wr_ids w) < pf_messageID p /\
        seqnos [enc_content e] {| seq := sn_ServerSeqNo sn |} = ([pf_sequenceNo p], {| seq := sn_ServerSeqNo next |}) /\
        rt_messageID <$> all_retained p = [pf_messageID p]
  end.

Definition container_messages (encs : list encoded) (ids ns : list Z) : list Tl.Message :=
  zip_with (fun e p => container_message e p.1 p.2) encs (zip ids ns).

(** The encoded size of a container of these bodies. *)
Definition container_size (encs : list encoded) : Z :=
  messageContainerHeaderBytes + sumZ ((fun e => messageContainerChildBytes + len (enc_body e)) <$> encs).

Lemma container_valid encs ids ns :
  length ids = length encs -> length ns = length encs -> len encs <= MaxContainerMessages ->
  Forall (fun e => len (enc_body e) < 2 ^ 31) encs -> Forall (inS 64) ids -> Forall (inS 32) ns ->
  valid (OMsgContainer (container_messages encs ids ns)) /\
  len (encode (OMsgContainer (container_messages encs ids ns))) = container_size encs.
Proof.
  intros Hi Hn Hl He Hids Hns.
  assert (Hz : length encs = length (zip ids ns)) by (rewrite length_zip_with; lia). unfold container_messages. split.
  - split; [unfold len in *; rewrite length_zip_with; lia|]. apply Forall_lookup. intros i m Hm.
    apply lookup_zip_with_Some in Hm as (e & [id n] & -> & Hle & Hp).
    apply lookup_zip_with_Some in Hp as (? & ? & [= -> ->] & Hid & Hns').
    rewrite Forall_lookup in He; rewrite Forall_lookup in Hids; rewrite Forall_lookup in Hns.
    specialize (He _ _ Hle). pose proof (len_nonneg (enc_body e)).
    unfold message_valid, container_message. cbn. rewrite wrapS_id by (unfold inS; lia). by split_and!; eauto.
  - unfold encode, container_size. cbn [enc_fields]. unfold enc_bare_vector, enc_int32. rewrite !len_app, !len_le_put.
    unfold messageContainerHeaderBytes. rewrite Z.add_assoc. f_equal.
    clear Hi Hn Hl He Hids Hns. revert Hz. generalize (zip ids ns) as ps. induction encs as [|e encs IH]; intros [|p ps] Hz; try done.
    injection Hz as Hz. cbn [zip_with fmap list_fmap concat sumZ]. rewrite len_app, (IH ps Hz). f_equal.
    unfold enc_message, enc_int64, enc_int32, messageContainerChildBytes. rewrite !len_app, !len_le_put. cbn. lia.
Qed.

Lemma container_carried encs ids ns maxBytes body :
  length ids = length encs -> length ns = length encs -> len encs <= MaxContainerMessages ->
  Forall (fun e => len (enc_body e) < 2 ^ 31) encs -> Forall (inS 64) ids -> Forall (inS 32) ns ->
  let ms := container_messages encs ids ns in
  serializeRuntimeTLBounded (MsgContainer_SerializeTL ms) maxBytes = Ok body ->
  DeserializeTL (OMsgContainer []) (Reader body None) = (Ok (OMsgContainer ms), Reader [] None) /\
  m_MsgID <$> ms = ids /\ m_SeqNo <$> ms = ns /\ m_BodyRaw <$> ms = enc_body <$> encs.
Proof.
  intros Hi Hn Hl He Hids Hns ms Hs. destruct (container_valid encs ids ns) as [Hv _]; try done. fold ms in Hv.
  assert (Hz : length encs = length (zip ids ns)) by (rewrite length_zip_with; lia).
  apply (bounded_emits _ _ _ _ (emits_object (OMsgContainer ms) Hv)) in Hs. subst body.
  split; [|split_and!].
  - apply (drains_object (OMsgContainer ms) Hv None). done.
  - unfold ms, container_messages. rewrite (fmap_zip_with_snd _ _ fst) by done. apply fst_zip. lia.
  - unfold ms, container_messages. rewrite (fmap_zip_with_snd _ _ snd) by done. apply snd_zip. lia.
  - unfold ms, container_messages. by rewrite (fmap_zip_with_fst _ _ enc_body).
Qed.

(** The ids, numbers and bodies of a batch are within their widths. *)
Lemma batch_widths items encs ids ns id n w sn g :
  ready (Contracts.Batch items) w sn ->
  Forall2 (fun i e => encodeIntentBodyBounded i (wr_maxEncodedBytes w) = Ok e) items encs ->
  server_ids (id_calls ((enc_push <$> encs) ++ [false]) (wr_ticks w)) (wr_ids w) = ids ++ [id] ->
  seqnos ((enc_content <$> encs) ++ [false]) {| seq := sn_ServerSeqNo sn |} = (ns ++ [n], g) ->
  len encs <= MaxContainerMessages /\ Forall (fun e => len (enc_body e) < 2 ^ 31) encs /\
  Forall (inS 64) (ids ++ [id]) /\ Forall (inS 32) (ns ++ [n]) /\
  Forall2 (fun push id => id mod 4 = low_bits push /\ last (wr_ids w) < id) ((enc_push <$> encs) ++ [false]) (ids ++ [id]) /\
  increasing (ids ++ [id]).
Proof.
  intros Hr He Hids Hseq. pose proof (Forall2_length _ _ _ He) as Hle.
  assert (Hfs : len ((enc_push <$> encs) ++ [false]) = frame_size (Contracts.Batch items)).
  { unfold frame_size, len. rewrite length_app, length_fmap. cbn. lia. }
  destruct (frame_ids _ w sn (Contracts.Batch items) _ Hr Hfs Hids) as [Hf Hinc].
  destruct (rd_max _ _ _ Hr) as [Hm0 Hm]. split_and!; try done.
  - pose proof (rd_batch _ _ _ Hr) as Hb. unfold len in *. by rewrite <- Hle.
  - apply Forall_lookup. intros i e Hie. eapply Forall2_lookup_r in He as (x & _ & Hx); [|exact Hie].
    destruct e as [[b c] q]. apply encode_size in Hx; [|done]. cbn. lia.
  - apply Forall_lookup. intros i x Hx. eapply Forall2_lookup_r in Hf as (? & _ & _ & ?); [|exact Hx].
    destruct (rd_gen _ _ _ Hr). unfold inS. lia.
  - pose proof (seqnos_range ((enc_content <$> encs) ++ [false]) {| seq := sn_ServerSeqNo sn |}) as H. by rewrite Hseq in H.
  - eapply Forall2_impl; [exact Hf|]. cbn. intros ?? [? ?]. split; [done|lia].
Qed.

Lemma seqnos_last flags g ns n g' : seqnos flags g = (ns ++ [n], g') -> inS 32 n /\ Forall (inS 32) ns.
Proof.
  intros Hs. pose proof (seqnos_range flags g) as Hf. rewrite Hs in Hf. cbn [fst] in Hf.
  apply Forall_app in Hf as [? Hf]. by inv Hf.
Qed.

Lemma batch_carried items w sn body p next :
  ready (Contracts.Batch items) w sn ->
  body_spec (Contracts.Batch items) w sn body (pf_messageID p) (pf_sequenceNo p) (pf_retained p) next ->
  carries (Contracts.Batch items) w sn p next body /\
  len body < 2 ^ 31 /\ inS 64 (pf_messageID p) /\ inS 32 (pf_sequenceNo p).
Proof.
  intros Hr (encs & ids & ns & He & Hi & Hn & Hs & Hrt & Hids & Hseq). pose proof (Forall2_length _ _ _ He) as Hle.
  destruct (batch_widths _ _ _ _ _ _ _ _ _ Hr He Hids Hseq) as (Hlen & Hbody & [Hi64 Hlast]%Forall_app & [Hn32 Hnlast]%Forall_app & Hf & Hinc).
  destruct (container_carried encs ids ns (wr_maxEncodedBytes w) body) as (Hd & Hid & Hsn & Hraw); try done; try lia.
  split_and!; [|eapply Z.le_lt_trans; [eapply bounded_size; [|exact Hs]|]|by inv Hlast|by inv Hnlast].
  - exists encs. eexists. rewrite Hid, Hsn. split_and!; try done.
    unfold all_retained. rewrite fmap_app, Hrt. rewrite (fmap_zip_with_snd _ _ fst), fst_zip; try done; [lia|].
    rewrite length_zip_with. lia.
  - unfold MsgContainer_SerializeTL, Message_SerializeTL. repeat apply accounts_bind; try apply accounts_Write.
    apply accounts_each. intros m. repeat apply accounts_bind; try apply accounts_Write.
    case_match; [|apply accounts_err]. repeat apply accounts_bind; apply accounts_Write.
  - unfold normalizeMaxEncodedBytes. pose proof (rd_max _ _ _ Hr). rewrite (proj2 (Z.leb_gt _ _)) by lia. lia.
Qed.

Lemma single_carried intent w sn e id n next :
  ready intent w sn -> frame_size intent = 1 -> encodeIntentBodyBounded intent (wr_maxEncodedBytes w) = Ok e ->
  server_ids (id_calls [enc_push e] (wr_ticks w)) (wr_ids w) = [id] ->
  seqnos [enc_content e] {| seq := sn_ServerSeqNo sn |} = ([n], {| seq := sn_ServerSeqNo next |}) ->
  (id mod 4 = low_bits (enc_push e) /\ last (wr_ids w) < id) /\ len (enc_body e) < 2 ^ 31 /\ inS 64 id /\ inS 32 n.
Proof.
  intros Hr Hfs He Hids Hseq. destruct (frame_ids [enc_push e] w sn intent _ Hr ltac:(done) Hids) as [Hf _]. inv Hf.
  pose proof (rd_gen _ _ _ Hr) as [? _]. pose proof (rd_max _ _ _ Hr).
  pose proof (seqnos_last _ _ [] _ _ Hseq) as [? _].
  assert (len (enc_body e) <= wr_maxEncodedBytes w) by (destruct e as [[]]; eapply encode_size; [lia|exact He]).
  split_and!; try done; try lia. unfold inS. lia.
Qed.

Lemma body_carried intent w sn body p next :
  ready intent w sn ->
  body_spec intent w sn body (pf_messageID p) (pf_sequenceNo p) (pf_retained p) next ->
  carries intent w sn p next body /\ len body < 2 ^ 31 /\ inS 64 (pf_messageID p) /\ inS 32 (pf_sequenceNo p).
Proof.
  intros Hr. destruct intent; try apply batch_carried; try done; intros (e & He & -> & Hrt & Hids & Hseq);
    (destruct (single_carried _ _ _ _ _ _ _ Hr eq_refl He Hids Hseq) as [[? ?] ?]; split; [|done];
     exists e; unfold all_retained; rewrite Hrt; by split_and!).
Qed.

Lemma prepared_opens `{Hlaws : !PlatformLaws} (intent : Intent) (w : Writer) (sn next : Session.Snapshot)
    (p : preparedFrame) (w' : Writer) :
  ready intent w sn -> prepare intent w = (Ok (p, next), w') ->
  exists em body,
    pf_frame p = serializeEncryptedFrame em /\ em_AuthKeyID em = sn_AuthKeyID sn /\
    decryptWithDirection em (wr_authKey w) false = Ok (inner_of sn p body) /\
    carries intent w sn p next body /\
    next = set_LastActivity (sn_LastActivity next) (set_ServerSeqNo (sn_ServerSeqNo next) sn).
Proof.
  intros Hr Hp. apply prepare_spec in Hp as (sn' & body & k & em & Hsn & Hb & Hnext & Hem & Hf & _ & _).
  rewrite (rd_snapshot _ _ _ Hr) in Hsn. injection Hsn as <-.
  destruct (body_carried _ _ _ _ _ _ Hr Hb) as (Hc & Hl & Hid & Hn). destruct (rd_widths _ _ _ Hr) as [? ?].
  destruct (encrypt_decrypt (random k) (inner_of sn p body) (wr_authKey w) (sn_AuthKeyID sn) false) as (em' & Hem' & ? & _ & Hd);
    [apply Hr|by split_and!|].
  rewrite Hem in Hem'. injection Hem' as <-. by exists em, body.
Qed.

(** * Progress *)

Lemma nextMessageID_total push w : exists id w', nextMessageID push w = (Ok id, w').
Proof.
  unfold nextMessageID, with_now, st_bind. cbn.
  destruct (MsgIDGenerator_Next (now (wr_ticks w)) (wr_ids w)). eauto.
Qed.

Lemma encodeChildren_total items encs maxBytes sn w :
  Forall2 (fun i e => encodeIntentBodyBounded i maxBytes = Ok e) items encs ->
  exists r w', encodeChildren items maxBytes sn w = (Ok r, w').
Proof.
  intros Hf. revert sn w. induction Hf as [|i [[b c] q] items encs He Hf IH]; intros sn w; cbn [encodeChildren].
  { by eexists _, _. }
  unfold lift, mbind, ST_bind, st_bind. rewrite He. destruct (nextMessageID_total q w) as (id & w1 & ->).
  destruct (nextSequenceNo sn c) as [n sn1]. destruct (IH sn1 w1) as ([[ms rt] sn2] & w2 & ->). by eexists _, _.
Qed.

(** The intent's encoding fits the writer's bound. *)
Definition encodable (intent : Intent) (w : Writer) : Prop :=
  match intent with
  | Contracts.Batch items =>
      exists encs, Forall2 (fun i e => encodeIntentBodyBounded i (wr_maxEncodedBytes w) = Ok e) items encs /\
                   container_size encs <= wr_maxEncodedBytes w
  | _ => exists e, encodeIntentBodyBounded intent (wr_maxEncodedBytes w) = Ok e
  end.

Lemma encodings_unique maxBytes items (a b : list encoded) :
  Forall2 (fun i e => encodeIntentBodyBounded i maxBytes = Ok e) items a ->
  Forall2 (fun i e => encodeIntentBodyBounded i maxBytes = Ok e) items b -> a = b.
Proof. intros Ha. revert b. induction Ha; intros b Hb; inv Hb; [done|]. f_equal; [congruence|auto]. Qed.

Lemma bounded_fits (m : WR unit) bs maxBytes :
  0 < maxBytes -> emits m bs -> len bs <= maxBytes -> serializeRuntimeTLBounded m maxBytes = Ok bs.
Proof.
  intros Hm He Hl. unfold serializeRuntimeTLBounded, normalizeMaxEncodedBytes. rewrite (proj2 (Z.leb_gt _ _)) by lia.
  pose proof (emits_bounded m bs maxBytes ltac:(lia) He) as H. rewrite (proj2 (Z.leb_le _ _)) in H by lia. by rewrite H.
Qed.

Lemma encodeBody_total intent w sn :
  ready intent w sn -> encodable intent w ->
  exists r w', encodeBody intent (wr_maxEncodedBytes w) sn w = (Ok r, w').
Proof.
  intros Hr He.
  assert (Hsingle : forall e, encodeIntentBodyBounded intent (wr_maxEncodedBytes w) = Ok e ->
            exists r w', encodeSingle intent (wr_maxEncodedBytes w) sn w = (Ok r, w')).
  { intros [[b c] q] Heq. unfold encodeSingle, lift, mbind, ST_bind, st_bind. rewrite Heq.
    destruct (nextMessageID_total q w) as (id & w1 & ->). destruct (nextSequenceNo sn c). by eexists _, _. }
  destruct intent as [| | | | |items| |]; cbn [encodeBody]; try (destruct He as [e He]; by eapply Hsingle).
  destruct He as (encs & He & Hsize). pose proof (rd_batch _ _ _ Hr) as Hb. unfold MaxContainerMessages in Hb.
  rewrite (proj2 (Z.ltb_ge _ _)) by (unfold DefaultMaxVectorElements; lia).
  unfold mbind, ST_bind, st_bind. destruct (encodeChildren_total items encs (wr_maxEncodedBytes w) sn w He) as ([[ms rt] sn1] & w1 & Hc).
  rewrite Hc. apply encodeChildren_spec in Hc as (encs' & ids & ns & He' & Hi & Hn & -> & -> & Hids & Hseq & _ & _).
  pose proof (encodings_unique _ _ _ _ He' He) as ->.
  pose proof (Forall2_length _ _ _ He) as Hle. specialize (Hids false). rewrite fmap_app in Hids.
  destruct (batch_widths items encs ids ns _ (int32 (sn_ServerSeqNo sn1 * 2)) w sn {| seq := sn_ServerSeqNo sn1 |} Hr He Hids)
    as (Hlen & Hbody & [Hi64 _]%Forall_app & [Hn32 _]%Forall_app & _).
  { by rewrite (seqnos_app _ _ _ _ _ Hseq). }
  destruct (container_valid encs ids ns) as [Hv Hsz]; try done; try lia.
  unfold lift. unfold container_messages in *.
  pose proof (bounded_fits _ _ _ (proj1 (rd_max _ _ _ Hr)) (emits_object _ Hv) ltac:(rewrite Hsz; lia)) as Hfit.
  cbn [SerializeTL] in Hfit. rewrite Hfit.
  destruct (nextMessageID_total false w1) as (id & w2 & ->). by eexists _, _.
Qed.

Lemma prepare_total `{Hlaws : !PlatformLaws} intent w sn :
  ready intent w sn -> encodable intent w ->
  exists p next w', prepare intent w = (Ok (p, next), w').
Proof.
  intros Hr He. destruct (encodeBody_total intent w sn Hr He) as ([[[[body id] n] rt] sn'] & w1 & Hb).
  unfold prepare. rewrite (rd_snapshot _ _ _ Hr). unfold mbind, ST_bind, st_bind. rewrite Hb.
  apply encodeBody_spec in Hb as (Hspec & Hsn & Hw).
  set (p := {| pf_messageID := id; pf_requestMessageID := 0; pf_sequenceNo := n; pf_frame := []; pf_retained := rt |}).
  destruct (body_carried intent w sn body p sn' Hr Hspec) as (_ & Hl & Hid & Hn). destruct (rd_widths _ _ _ Hr) as [? ?].
  unfold encrypt_step. destruct (encrypt_decrypt (random (wr_ticks w1))
    {| Salt := sn_ServerSalt sn'; SessionID := sn_SessionID sn'; MsgID := id; SeqNo := n; Data := body |}
    (wr_authKey w1) (sn_AuthKeyID sn') false) as (em & -> & _); [apply Hr|rewrite Hsn; by split_and!|].
  by eexists _, _, _.
Qed.

(** ** Preparing changes nothing but ids, whatever it answers *)

Definition quiet {A} (m : WM A) : Prop := forall w, only_ids w (m w).2.

Lemma quiet_bind {A B} (m : WM A) (f : A -> WM B) : quiet m -> (forall a, quiet (f a)) -> quiet (m ≫= f).
Proof.
  intros Hm Hf w. specialize (Hm w). unfold mbind, ST_bind, st_bind. destruct (m w) as [[a|e] w1]; [|done].
  eapply only_ids_trans; [exact Hm|apply Hf].
Qed.

Lemma quiet_pure {A} (res : result writer_error A) : quiet (fun w => (res, w)).
Proof. intros w. apply only_ids_refl. Qed.

Lemma quiet_nextMessageID push : quiet (nextMessageID push).
Proof.
  intros w. destruct (nextMessageID push w) as [res w'] eqn:E.
  by apply nextMessageID_server in E as (id & _ & _ & _ & Hw).
Qed.

Lemma quiet_encodeChildren items maxBytes sn : quiet (encodeChildren items maxBytes sn).
Proof.
  revert sn. induction items as [|i items IH]; intros sn; cbn [encodeChildren]; [apply quiet_pure|].
  apply quiet_bind; [apply quiet_pure|]. intros [[b c] q]. apply quiet_bind; [apply quiet_nextMessageID|]. intros id.
  destruct (nextSequenceNo sn c). apply quiet_bind; [apply IH|]. intros [[ms rt] sn']. apply quiet_pure.
Qed.

Lemma quiet_encodeBody intent maxBytes sn : quiet (encodeBody intent maxBytes sn).
Proof.
  assert (Hs : quiet (encodeSingle intent maxBytes sn)).
  { apply quiet_bind; [apply quiet_pure|]. intros [[b c] q]. apply quiet_bind; [apply quiet_nextMessageID|]. intros id.
    destruct (nextSequenceNo sn c). apply quiet_pure. }
  destruct intent; cbn [encodeBody]; try exact Hs. case_match; [apply quiet_pure|].
  apply quiet_bind; [apply quiet_encodeChildren|]. intros [[ms rt] sn']. apply quiet_bind; [apply quiet_pure|].
  intros body. apply quiet_bind; [apply quiet_nextMessageID|]. intros id. apply quiet_pure.
Qed.

Lemma quiet_prepare intent : quiet (prepare intent).
Proof.
  intros w. unfold prepare. destruct (lease_Snapshot (wr_lease w)) as [sn|e]; [|apply only_ids_refl].
  apply quiet_bind; [apply quiet_encodeBody|]. intros [[[[body id] n] rt] sn'].
  apply quiet_bind; [intros w1; apply only_ids_refl|]. intros em.
  apply quiet_bind; [by intros w1|]. intros t. apply quiet_pure.
Qed.

(** * Committing and sending *)

Definition sends (intent : Intent) : bool :=
  match intent with Contracts.Close _ | Contracts.Resend _ => false | _ => true end.

(** The store can take the messages of the frame: they fit, nothing retained
    expires after them, and the order counter does not wrap. *)
Record retention_room (intent : Intent) (w : Writer) : Prop := {
  rr_ok : store_ok (wr_reliability w);
  rr_capacity : frame_size intent <= capacity (wr_reliability w);
  rr_order : 0 <= order (wr_reliability w) /\ order (wr_reliability w) + frame_size intent < 2 ^ 64;
  rr_older : forall k r, abs (wr_reliability w) !! k = Some r ->
    r_order r <= order (wr_reliability w) /\ forall j, r_expiresAt r <= nanos (now j) + ttl (wr_reliability w)
}.

(** The frame's messages are retained, each with the whole frame to resend. *)
Definition frame_retained (p : preparedFrame) (w : Writer) : Prop :=
  exists sentAt, forall m, m ∈ all_retained p ->
    r_message <$> abs (wr_reliability w) !! rt_messageID m = Some (sent_message (pf_frame p) sentAt m).

(** [process] after [prepare]. *)
Definition commit_and_send (ctx : Ctx) (p : preparedFrame) (next : Session.Snapshot) : WM bool :=
  _ ← lease_step ctx next;
  t ← tick;
  _ ← st_each (retain_message (pf_frame p) (nanos t)) (all_retained p);
  _ ← sink_WriteFrame (pf_frame p);
  mret false.

Lemma process_sends ctx intent w :
  sends intent = true ->
  process ctx intent w = match prepare intent w with
                         | (Ok (p, next), w1) => commit_and_send ctx p next w1
                         | (Err e, w1) => (Err e, w1)
                         end.
Proof.
  intros Hs. assert (process ctx intent w = (pn ← prepare intent; let '(p, next) := pn in commit_and_send ctx p next) w)
    as -> by (by destruct intent).
  unfold mbind at 1, ST_bind, st_bind at 1. by destruct (prepare intent w) as [[[p next]|e] w1].
Qed.

Lemma retained_ids intent w sn p next w' :
  ready intent w sn -> prepare intent w = (Ok (p, next), w') ->
  NoDup (rt_messageID <$> all_retained p) /\ len (all_retained p) = frame_size intent.
Proof.
  intros Hr Hp. apply prepare_spec in Hp as (sn' & body & k & em & Hsn & Hb & _).
  rewrite (rd_snapshot _ _ _ Hr) in Hsn. injection Hsn as <-.
  destruct (body_carried _ _ _ _ _ _ Hr Hb) as [Hc _]. split.
  - apply increasing_NoDup. destruct intent; try (destruct Hc as (e & _ & _ & _ & _ & _ & ->);
      intros i j a b Hij Ha Hb'; apply list_lookup_singleton_Some in Ha as [-> _], Hb' as [-> _]; lia).
    by destruct Hc as (encs & ms & _ & _ & _ & Hi & _ & _ & ->).
  - assert (Hl : len (all_retained p) = len (pf_retained p) + 1) by (unfold all_retained; by rewrite len_app).
    rewrite Hl. destruct intent as [| | | | |items| |]; try (destruct Hb as (e & _ & _ & -> & _); done).
    destruct Hb as (encs & ids & ns & _ & Hi & Hn & _ & -> & _). unfold len, frame_size.
    rewrite !length_zip_with. unfold len. lia.
Qed.

Lemma commit_spec ctx p next intent w w1 sn res w' :
  ready intent w sn -> retention_room intent w -> prepare intent w = (Ok (p, next), w1) ->
  commit_and_send ctx p next w1 = (res, w') ->
  (is_ok res = false /\ wr_attempts w' = wr_attempts w /\ wr_sent w' = wr_sent w /\
   (wr_reliability w' = wr_reliability w \/ lease_Save ctx next (wr_lease w) = (Ok tt, wr_lease w'))) \/
  (lease_Save ctx next (wr_lease w) = (Ok tt, wr_lease w') /\ frame_retained p w' /\
   wr_attempts w' = S (wr_attempts w) /\ is_ok res = write_ok (wr_attempts w) /\
   wr_sent w' = wr_sent w ++ (if write_ok (wr_attempts w) then [pf_frame p] else [])).
Proof.
  intros Hr Hroom Hp. destruct (retained_ids _ _ _ _ _ _ Hr Hp) as [Hnd Hlen].
  apply prepare_spec in Hp as (sn' & body & k & em & _ & _ & _ & _ & _ & _ & (Hl & Hk & Hrel & Hmax & Hat & Hsent)).
  unfold commit_and_send, mbind, ST_bind. unfold st_bind at 1. unfold lease_step at 1. rewrite Hl.
  destruct (lease_Save ctx next (wr_lease w)) as [[[]|e] l] eqn:Esave; [|intros [= <- <-]; left; by split_and!; auto].
  unfold st_bind at 1. unfold tick at 1. cbn [wr_lease set_lease wr_ticks]. set (sentAt := nanos (now (wr_ticks w1))).
  match goal with |- st_bind _ _ ?w2 = _ -> _ => set (wr2 := w2) end.
  unfold st_bind at 1. destruct (st_each _ _ _) as [r w3] eqn:Eret.
  assert (Hrel2 : wr_reliability wr2 = wr_reliability w) by exact Hrel.
  assert (Hok2 : store_ok (wr_reliability wr2)) by (rewrite Hrel2; apply Hroom).
  destruct (retain_each_keeps _ _ _ _ _ _ Hok2 Eret) as [_ (Hl3 & _ & _ & _ & Hat3 & Hs3)]. cbn in Hl3, Hat3, Hs3.
  destruct r as [[]|e]; [|intros [= <- <-]; left; split_and!; [done|congruence..|right; congruence]].
  unfold st_bind, sink_WriteFrame, mret, ST_ret, st_ret. rewrite Hat3, Hat, Hs3, Hsent.
  intros H. right. assert (frame_retained p w3) as Hfr.
  { exists sentAt. eapply (retain_each_all _ _ _ _ _ (sentAt + ttl (wr_reliability w)) (order (wr_reliability w)) ∅); try done.
    all: rewrite ?Hrel2, ?Hlen, ?size_empty; try done; try apply Hroom; try lia.
    - split; [set_solver|]. intros k' r Hr'. rewrite decide_False by set_solver.
      destruct (rr_older _ _ Hroom _ _ Hr') as [? Hx]. split; [apply Hx|done].
    - destruct (rd_clock _ _ _ Hr (wr_ticks w1)) as [[Hu Hn] _]. unfold sentAt, nanos, zeroTime. lia.
    - pose proof (rr_order _ _ Hroom). lia. }
  destruct (write_ok (wr_attempts w)); simplify_eq; cbn; split_and!; rewrite ?app_nil_r; try done; congruence.
Qed.

(** Every message was put into the store, with the whole frame, one after the other, and no
    put was refused. *)
Fixpoint put_each (frame : bytes) (sentAt : Z) (ms : list retainedFrameMessage) (s s' : Reliability.Store) : Prop :=
  match ms with
  | [] => s' = s
  | m :: ms => exists i evicted s1,
      Reliability.Put (nanos (now i)) (sent_message frame sentAt m) s = (Ok evicted, s1) /\ put_each frame sentAt ms s1 s'
  end.

Lemma retain_each_puts frame sentAt ms w res w' :
  st_each (retain_message frame sentAt) ms w = (res, w') ->
  only_retained w w' /\ (is_ok res = true -> put_each frame sentAt ms (wr_reliability w) (wr_reliability w')).
Proof.
  revert w. induction ms as [|m ms IH]; intros w; cbn [st_each put_each].
  { unfold st_ret. by intros [= <- <-]. }
  unfold st_bind. destruct (retain_message frame sentAt m w) as [r w1] eqn:E.
  unfold retain_message, with_now, st_bind, tick in E. fold (sent_message frame sentAt m) in E. cbn [wr_reliability] in E.
  destruct (Reliability.Put _ _ _) as [[evicted|e] s1] eqn:Ep; injection E as <- <-; [|by intros [= <- <-]].
  intros H. apply IH in H as [(?&?&?&?&?&?) Hput]. split; [by split_and!|]. intros Hok. by exists (wr_ticks w), evicted, s1; auto.
Qed.

(** The order of a commit, whatever state the store is in. *)
Lemma commit_order ctx p next w res w' :
  commit_and_send ctx p next w = (res, w') ->
  (is_ok res = false /\ wr_attempts w' = wr_attempts w /\ wr_sent w' = wr_sent w /\
   (wr_reliability w' = wr_reliability w \/ lease_Save ctx next (wr_lease w) = (Ok tt, wr_lease w'))) \/
  (lease_Save ctx next (wr_lease w) = (Ok tt, wr_lease w') /\
   (exists i, put_each (pf_frame p) (nanos (now i)) (all_retained p) (wr_reliability w) (wr_reliability w')) /\
   wr_attempts w' = S (wr_attempts w) /\ is_ok res = write_ok (wr_attempts w) /\
   wr_sent w' = wr_sent w ++ (if write_ok (wr_attempts w) then [pf_frame p] else [])).
Proof.
  unfold commit_and_send, mbind, ST_bind. unfold st_bind at 1. unfold lease_step at 1.
  destruct (lease_Save ctx next (wr_lease w)) as [[[]|e] l]; [|intros [= <- <-]; left; by auto].
  unfold st_bind at 1. unfold tick at 1. cbn [wr_lease set_lease wr_ticks]. match goal with |- st_bind _ _ ?w2 = _ -> _ => set (wr2 := w2) end.
  unfold st_bind at 1. destruct (st_each _ _ _) as [r w3] eqn:Eret. apply retain_each_puts in Eret as [(Hl & _ & _ & _ & Hat & Hs) Hput].
  cbn in Hl, Hat, Hs. destruct r as [[]|e]; [|intros [= <- <-]; left; split_and!; [done..|right; congruence]].
  unfold st_bind, sink_WriteFrame, mret, ST_ret, st_ret. rewrite Hat, Hs. intros H. right.
  destruct (write_ok (wr_attempts w)); simplify_eq; cbn; split_and!; rewrite ?app_nil_r; try done; try congruence; exists (wr_ticks w); by apply Hput.
Qed.

(** * Batches of pushes *)

Definition push_body (rq : writerRequest) : bytes := default [] (pushRequest rq).

(** The bytes the pushes add to a container. *)
Definition pushes_size (rqs : list writerRequest) : Z :=
  sumZ ((fun rq => messageContainerChildBytes + len (push_body rq)) <$> rqs).

Definition batched (first : context) (rq : writerRequest) : Prop :=
  is_Some (pushRequest rq) /\ sameWriterContext first (rq_ctx rq) = true.

Lemma collectLoop_spec room max size first queue taken pending rest :
  collectLoop room max size first queue = (taken, pending, rest) -> size <= max ->
  taken ++ option_list pending ++ rest = queue /\ (length taken <= room)%nat /\
  Forall (batched first) taken /\ size + pushes_size taken <= max.
Proof.
  revert size queue taken. induction room as [|room IH]; intros size queue taken; cbn [collectLoop].
  { intros [= <- <- <-] ?. split_and!; try done. unfold pushes_size. cbn. lia. }
  destruct queue as [|rq queue].
  { intros [= <- <- <-] ?. split_and!; try done; [cbn; lia|]. unfold pushes_size. cbn. lia. }
  destruct (pushRequest rq) as [body|] eqn:Ep; [|intros [= <- <- <-] ?; split_and!; try done; [cbn; lia|unfold pushes_size; cbn; lia]].
  case_match eqn:Ec; [intros [= <- <- <-] ?; split_and!; try done; [cbn; lia|unfold pushes_size; cbn; lia]|].
  destruct (collectLoop room _ _ _ _) as [[taken' p'] r'] eqn:E. intros [= <- <- <-] Hle. bools.
  apply IH in E as (Hq & Hl & Hf & Hs); [|lia]. split_and!.
  - cbn. by rewrite Hq.
  - cbn. lia.
  - constructor; [|done]. split; [by rewrite Ep|done].
  - unfold pushes_size in *. cbn [fmap list_fmap sumZ]. unfold push_body at 1. rewrite Ep. cbn. lia.
Qed.

Lemma collect_spec max first queue taken pending rest :
  collectPushRequests max first queue = (taken, pending, rest) ->
  taken ++ option_list pending ++ rest = first :: queue /\
  exists more, taken = first :: more /\ (length more < 64)%nat /\
    (more <> [] -> is_Some (pushRequest first) /\ Forall (batched (rq_ctx first)) more /\
                   messageContainerHeaderBytes + pushes_size taken <= max).
Proof.
  unfold collectPushRequests. assert (Halone : ([first] ++ option_list None ++ queue = first :: queue) /\
    exists more, [first] = first :: more /\ (length more < 64)%nat /\
      (more <> [] -> is_Some (pushRequest first) /\ Forall (batched (rq_ctx first)) more /\
                   messageContainerHeaderBytes + pushes_size [first] <= max)).
  { split; [done|]. exists []. split_and!; [done|cbn; lia|done]. }
  destruct (pushRequest first) as [body|] eqn:Ep; [|by intros [= <- <- <-]].
  case_match; [by intros [= <- <- <-]|]. case_match; [by intros [= <- <- <-]|]. clear Halone. bools.
  destruct (collectLoop _ _ _ _ _) as [[more p] r] eqn:E. intros [= <- <- <-].
  apply collectLoop_spec in E as (<- & Hl & Hf & Hs); [|unfold messageContainerHeaderBytes, messageContainerChildBytes in *; lia].
  split; [done|]. exists more. split_and!; [done|unfold maxOpportunisticPushBatch in Hl; lia|]. intros _.
  split_and!; [by eauto|done|]. unfold pushes_size in *. cbn [fmap list_fmap sumZ]. unfold push_body at 1. rewrite Ep. cbn. lia.
Qed.

Lemma pushes_encode rqs maxBytes :
  Forall (fun rq => is_Some (pushRequest rq)) rqs -> messageContainerHeaderBytes + pushes_size rqs <= maxBytes ->
  exists encs,
    Forall2 (fun i e => encodeIntentBodyBounded i maxBytes = Ok e) (request_intent <$> rqs) encs /\
    container_size encs = messageContainerHeaderBytes + pushes_size rqs /\ enc_body <$> encs = push_body <$> rqs.
Proof.
  intros Hf Hs. exists ((fun rq => (push_body rq, true, true)) <$> rqs). split_and!.
  - assert (Hsum : forall rq, rq ∈ rqs -> len (push_body rq) <= pushes_size rqs).
    { unfold pushes_size. clear. induction rqs as [|r rqs IH]; intros rq; [by intros ?%elem_of_nil|].
      cbn [fmap list_fmap sumZ]. pose proof (len_nonneg (push_body r)).
      assert (0 <= sumZ ((fun rq => messageContainerChildBytes + len (push_body rq)) <$> rqs)).
      { clear. induction rqs as [|r rqs IH]; cbn [fmap list_fmap sumZ]; [done|].
        pose proof (len_nonneg (push_body r)). unfold messageContainerChildBytes in *. lia. }
      intros [->|Hin]%elem_of_cons; [|specialize (IH rq Hin)]; unfold messageContainerChildBytes in *; lia. }
    rewrite Forall2_fmap. apply Forall2_same_length_lookup. split; [done|]. intros i x y Hx Hy.
    rewrite Hx in Hy. injection Hy as <-. pose proof (list_elem_of_lookup_2 _ _ _ Hx) as Hin.
    rewrite Forall_forall in Hf. destruct (Hf x Hin) as [body Hb]. specialize (Hsum x Hin).
    unfold push_body, pushRequest, request_intent in *. destruct (rq_operation x) as [intent| | |]; try done.
    destruct intent; try done. cbn in *. rewrite (proj2 (Z.ltb_ge _ _)); [done|]. unfold messageContainerHeaderBytes in Hs. lia.
  - unfold container_size, pushes_size. by rewrite <- list_fmap_compose.
  - by rewrite <- list_fmap_compose.
Qed.

Lemma retain_each_total frame sentAt ms w :
  store_ok (wr_reliability w) -> sentAt <> zeroTime ->
  (forall i, nanos (now i) < sentAt + ttl (wr_reliability w)) ->
  exists w', st_each (retain_message frame sentAt) ms w = (Ok tt, w').
Proof.
  revert w. induction ms as [|m ms IH]; intros w Hok Hz Hnow; cbn [st_each]; [by eexists|].
  unfold st_bind. destruct (retain_message frame sentAt m w) as [res w1] eqn:E.
  pose proof E as Hspec. apply retain_message_spec in Hspec as (r & Hp & Hr & _ & Hok1 & _ & Ht); [|done].
  assert (is_ok res = true) as Hres.
  { rewrite Hr. pose proof (Put_refines (nanos (now (wr_ticks w))) (sent_message frame sentAt m) _ Hok) as Hs.
    rewrite Hp in Hs. destruct Hs as (_ & _ & _ & Hs). unfold put_spec, fresh_entry, stamped in Hs. cbn in Hs.
    rewrite (proj2 (Z.eqb_neq _ _)) in Hs by done. cbn in Hs. rewrite (proj2 (Z.ltb_lt _ _)) in Hs by apply Hnow.
    destruct Hs as [_ Hs]. clear -Hs. repeat case_match; naive_solver. }
  destruct res as [[]|]; [|done]. apply IH; [done|done|]. intros i. rewrite Ht. apply Hnow.
Qed.

(** The lease saves and the connection writes. *)
Record delivering (ctx : Ctx) (w : Writer) (sn : Session.Snapshot) : Prop := {
  dl_save : forall next, Snapshot_Key next = Snapshot_Key sn -> is_ok (lease_Save ctx next (wr_lease w)).1 = true;
  dl_write : write_ok (wr_attempts w) = true;
  dl_prompt : forall i j, nanos (now i) < nanos (now j) + ttl (wr_reliability w)
}.

Lemma process_total `{Hlaws : !PlatformLaws} ctx intent w sn :
  sends intent = true -> ready intent w sn -> retention_room intent w -> encodable intent w -> delivering ctx w sn ->
  exists p next w1 w', prepare intent w = (Ok (p, next), w1) /\ process ctx intent w = (Ok false, w') /\
    wr_sent w' = wr_sent w ++ [pf_frame p].
Proof.
  intros Hs Hr Hroom He Hd. destruct (prepare_total intent w sn Hr He) as (p & next & w1 & Hp).
  pose proof (process_sends ctx intent w Hs) as Hproc. rewrite Hp in Hproc.
  pose proof (commit_spec ctx p next intent w w1 sn) as Hc.
  assert (exists w', commit_and_send ctx p next w1 = (Ok false, w')) as [w' Hw'].
  { apply prepare_spec in Hp as (sn' & _ & _ & _ & Hsn & _ & Hnext & _ & _ & _ & (Hl & _ & Hrel & _ & Hat & _)).
    rewrite (rd_snapshot _ _ _ Hr) in Hsn. injection Hsn as <-.
    unfold commit_and_send, mbind, ST_bind. unfold st_bind at 1. unfold lease_step at 1. rewrite Hl.
    pose proof (dl_save _ _ _ Hd next ltac:(by rewrite Hnext)) as Hsave. destruct (lease_Save ctx next (wr_lease w)) as [[[]|e] l]; [|done].
    unfold st_bind at 1. unfold tick at 1. match goal with |- context [st_bind _ _ ?w2] => set (wr2 := w2) end.
    unfold st_bind at 1.
    destruct (retain_each_total (pf_frame p) (nanos (now (wr_ticks (set_lease l w1)))) (all_retained p) wr2) as [w3 Hw3].
    - cbn. rewrite Hrel. apply Hroom.
    - destruct (rd_clock _ _ _ Hr (wr_ticks (set_lease l w1))) as [[Hu Hn] _]. unfold nanos, zeroTime. lia.
    - intros i. cbn. rewrite Hrel. apply Hd.
    - rewrite Hw3. apply retain_each_keeps in Hw3 as [_ (_ & _ & _ & _ & Hat3 & _)]; [|cbn; rewrite Hrel; apply Hroom].
      unfold st_bind, sink_WriteFrame. rewrite Hat3. cbn. rewrite Hat, (dl_write _ _ _ Hd). by eexists. }
  destruct (Hc _ _ Hr Hroom Hp Hw') as [(? & _)|(_ & _ & _ & _ & Hsent)]; [done|].
  rewrite (dl_write _ _ _ Hd) in Hsent. exists p, next, w1, w'. by rewrite Hproc.
Qed.

Lemma processRequests_batch rqs w : (2 <= length rqs)%nat ->
  processRequests rqs w =
  match process (from_option (ctx_Err ∘ rq_ctx) None (head rqs)) (Contracts.Batch (request_intent <$> rqs)) w with
  | (Ok stop, w) => ({| rs_state := no_state; rs_err := None |}, stop, None, w)
  | (Err e, w) => (reply_err e, false, Some e, w)
  end.
Proof. destruct rqs as [|r1 [|r2 rqs]]; cbn [length]; intros; [lia..|done]. Qed.

(** * Properties *)

(** C17. The writer commits before it sends. Whatever fails and whatever state the store
    is in, a frame reaches the connection (or is attempted) only after the lease
    durably saved the snapshot with the message's sequence numbers consumed, and
    after every message of the frame, each child and then the container, was put
    into the reliability store with the whole frame; exactly one write is attempted
    and the result reports it. When anything before the write fails the error is
    returned, nothing is sent, and the store is untouched unless the save had
    succeeded. If the frame's messages fit the store's capacity, the clock is sane and
    nothing in the store expires after them, all of them are there to be resent when
    the frame is written; a batch of more messages than the capacity evicts its own. *)
Theorem writer_commits_before_sending (ctx : Ctx) (intent : Intent) (w : Writer) (res : result writer_error bool) (w' : Writer) :
  sends intent = true -> process ctx intent w = (res, w') ->
  (is_ok res = false /\ wr_attempts w' = wr_attempts w /\ wr_sent w' = wr_sent w /\
   (wr_reliability w' = wr_reliability w \/ exists next, lease_Save ctx next (wr_lease w) = (Ok tt, wr_lease w'))) \/
  exists p next w1,
    prepare intent w = (Ok (p, next), w1) /\ lease_Save ctx next (wr_lease w) = (Ok tt, wr_lease w') /\
    (exists i, put_each (pf_frame p) (nanos (now i)) (all_retained p) (wr_reliability w) (wr_reliability w')) /\
    wr_attempts w' = S (wr_attempts w) /\ is_ok res = write_ok (wr_attempts w) /\
    wr_sent w' = wr_sent w ++ (if write_ok (wr_attempts w) then [pf_frame p] else []) /\
    (forall sn, ready intent w sn -> retention_room intent w -> frame_retained p w').
Proof.
  intros Hs. rewrite process_sends by done. pose proof (quiet_prepare intent w) as Hw. destruct (prepare intent w) as [[[p next]|e] w1] eqn:Ep; cbn in Hw.
  - intros H. destruct Hw as (Hl & _ & Hrel & _ & Hat & Hsent). pose proof H as Ho. apply commit_order in Ho. rewrite Hl, Hrel, Hat, Hsent in Ho.
    destruct Ho as [(?&?&?&Hrel')|(Hsave & Hput & Hat' & Hres & Hsent')]; [left; split_and!; try done; destruct Hrel'; eauto|right].
    exists p, next, w1. split_and!; try done. intros sn Hr Hroom.
    destruct (commit_spec _ _ _ _ _ _ _ _ _ Hr Hroom Ep H) as [(_ & Hbad & _)|(_ & Hfr & _)]; [|done]. exfalso. rewrite Hat' in Hbad. lia.
  - intros [= <- <-]. left. destruct Hw as (?&?&?&?&?&?). split_and!; auto.
Qed.

(** C22. A frame the writer prepares opens for the client: under the session's auth
    key it decrypts to the session's salt and id and the message's id and number,
    and its body carries exactly the intent. A batch is a container that the
    package's own decoder reads back as the children's encodings in order, with
    strictly increasing ids above all earlier ones (3 modulo 4 for pushes, 1
    otherwise), the container's last, and the sequence numbers of the session's
    counter, which the snapshot to save continues; nothing else of the snapshot
    changes but the activity time. *)
Theorem prepared_frame_opens `{Hlaws : !PlatformLaws} (intent : Intent) (w : Writer) (sn next : Session.Snapshot)
    (p : preparedFrame) (w' : Writer) :
  ready intent w sn -> prepare intent w = (Ok (p, next), w') ->
  exists em body,
    pf_frame p = serializeEncryptedFrame em /\ em_AuthKeyID em = sn_AuthKeyID sn /\
    decryptWithDirection em (wr_authKey w) false = Ok (inner_of sn p body) /\
    carries intent w sn p next body /\
    next = set_LastActivity (sn_LastActivity next) (set_ServerSeqNo (sn_ServerSeqNo next) sn).
Proof. apply prepared_opens. Qed.

(** C27. Batching loses nothing and never spoils a push. When the writer gathers
    several waiting requests behind the first, all of them are pushes of the same
    context, at most 64, whose container fits the size bound, so that with a
    working lease and connection one frame is sent for all, every requester is
    told it succeeded, and the client finds the bodies in the order they were
    requested. *)
Theorem batched_pushes_are_delivered `{Hlaws : !PlatformLaws} (first : writerRequest) (queue taken rest : list writerRequest)
    (pending : option writerRequest) (w : Writer) (sn : Session.Snapshot) :
  collectPushRequests (wr_maxEncodedBytes w) first queue = (taken, pending, rest) -> (2 <= length taken)%nat ->
  ready (Contracts.Batch (request_intent <$> taken)) w sn ->
  retention_room (Contracts.Batch (request_intent <$> taken)) w -> delivering (ctx_Err (rq_ctx first)) w sn ->
  (length taken <= 64)%nat /\ Forall (fun rq => rq_ctx rq = rq_ctx first \/ batched (rq_ctx first) rq) taken /\
  exists w' em body ms,
    processRequests taken w = ({| rs_state := no_state; rs_err := None |}, false, None, w') /\
    wr_sent w' = wr_sent w ++ [serializeEncryptedFrame em] /\
    decryptWithDirection em (wr_authKey w) false = Ok body /\
    DeserializeTL (OMsgContainer []) (Reader (Crypto.Data body) None) = (Ok (OMsgContainer ms), Reader [] None) /\
    Some <$> (m_BodyRaw <$> ms) = pushRequest <$> taken.
Proof.
  intros Hc Htwo Hr Hroom Hd. destruct (collect_spec _ _ _ _ _ _ Hc) as [_ (more & -> & Hl & Hmore)].
  destruct Hmore as (Hfirst & Hf & Hsize); [by destruct more; cbn in Htwo; [lia|]|].
  assert (Hpush : Forall (fun rq => is_Some (pushRequest rq)) (first :: more)).
  { constructor; [done|]. eapply Forall_impl; [exact Hf|]. by intros ? [? _]. }
  destruct (pushes_encode _ _ Hpush Hsize) as (encs & Henc & Hcs & Hbody).
  split; [cbn; lia|]. split; [constructor; [by left|]; eapply Forall_impl; [exact Hf|]; auto|].
  destruct (process_total (ctx_Err (rq_ctx first)) (Contracts.Batch (request_intent <$> first :: more)) w sn)
    as (p & next & w1 & w' & Hp & Hproc & Hsent); try done.
  { exists encs. split; [done|]. lia. }
  destruct (prepared_opens _ _ _ _ _ _ Hr Hp) as (em & body & Hframe & _ & Hdec & Hcar & _).
  destruct Hcar as (encs' & ms & Henc' & Hdes & Hraw & _).
  pose proof (encodings_unique _ _ _ _ Henc' Henc) as ->.
  exists w', em, (inner_of sn p body), ms. rewrite processRequests_batch by done. cbn [head from_option compose].
  rewrite Hproc, <- Hframe. split_and!; try done. rewrite Hraw, Hbody. clear -Hpush.
  induction Hpush as [|rq rqs [b Hb] _ IH]; [done|]. cbn. f_equal; [by unfold push_body; rewrite Hb|exact IH].
Qed.

(** ** The loop *)

Lemma process_stop ctx intent w w' : process ctx intent w = (Ok true, w') -> exists c, intent = Contracts.Close c.
Proof.
  destruct intent as [| | | | | | |c]; cbn [process]; try (by eauto).
  all: intros H; st_inv; try (match goal with x : preparedFrame * _ |- _ => destruct x; st_inv end).
Qed.

Definition accounted (lp : loop) : list writerRequest :=
  (fst <$> lp_replied lp) ++ option_list (lp_pending lp) ++ lp_queue lp.

Lemma serve_accounted request queue lp :
  accounted (serve request queue lp) = (fst <$> lp_replied lp) ++ request :: queue.
Proof.
  unfold serve, accounted. destruct (collectPushRequests _ _ _) as [[taken pending] rest] eqn:E.
  destruct (processRequests _ _) as [[[response stop] fatal] w']. cbn [lp_replied lp_pending lp_queue].
  apply collect_spec in E as [<- _]. rewrite fmap_app, <- !app_assoc. f_equal. f_equal.
  rewrite <- list_fmap_compose. by rewrite list_fmap_id.
Qed.

Lemma serve_end request queue lp :
  match lp_end (serve request queue lp) with
  | Some LoopPanic | Some LoopCancelled => False
  | Some (LoopClosed c) => rq_operation request = OpSubmit (Contracts.Close c)
  | _ => True
  end.
Proof.
  unfold serve. destruct (collectPushRequests _ _ _) as [[taken pending] rest] eqn:E.
  apply collect_spec in E as [_ (more & -> & _ & Hmore)].
  destruct (processRequests _ _) as [[[response stop] fatal] w'] eqn:Ep. cbn [lp_end].
  destruct fatal; [done|]. destruct stop; [|done].
  assert (exists c, rq_operation request = OpSubmit (Contracts.Close c)) as [c ->]; [|done].
  destruct more as [|r more].
  - unfold processRequests, processRequest in Ep. destruct (ctx_Err (rq_ctx request)), (rq_operation request) as [i| | |]; try done.
    all: repeat case_match; simplify_eq. all: match goal with H : process _ _ _ = _ |- _ => apply process_stop in H as [c ->] end; eauto.
  - rewrite processRequests_batch in Ep by (cbn; lia). case_match eqn:Eb. case_match; simplify_eq.
    by apply process_stop in Eb as [c ?].
Qed.


Definition start (w : Writer) (queue : list writerRequest) : loop :=
  {| lp_writer := w; lp_pending := None; lp_queue := queue; lp_replied := []; lp_end := None |}.

Definition run (signals : list bool) (lp : loop) : loop := foldl (fun lp c => run_iteration c lp) lp signals.

Lemma serve_more request queue lp : (length (lp_replied lp) < length (lp_replied (serve request queue lp)))%nat.
Proof.
  unfold serve. destruct (collectPushRequests _ _ _) as [[taken pending] rest] eqn:E.
  apply collect_spec in E as [_ (more & -> & _)]. destruct (processRequests _ _) as [[[? ?] ?] ?]. cbn [lp_replied].
  rewrite length_app, length_fmap. cbn. lia.
Qed.

(** What stays true of a running loop over the queue it started with. *)
Record loop_ok `{!LeaseLaws L} (queue : list writerRequest) (lp : loop) : Prop := {
  lo_accounted : accounted lp = queue;
  lo_no_panic : lp_end lp <> Some LoopPanic;
  lo_retired : match lp_end lp with
               | Some (LoopFailed _) | Some (LoopClosed _) => is_ok (lease_Snapshot (wr_lease (lp_writer lp))) = false
               | _ => True
               end
}.

Lemma serve_ok `{!LeaseLaws L} request q lp queue :
  (fst <$> lp_replied lp) ++ request :: q = queue -> loop_ok queue (serve request q lp).
Proof.
  intros Hq. split; [by rewrite serve_accounted| |].
  - pose proof (serve_end request q lp). by destruct (lp_end _) as [[]|].
  - unfold serve. destruct (collectPushRequests _ _ _) as [[taken pending] rest].
    destruct (processRequests _ _) as [[[? stop] fatal] ?]. cbn [lp_end lp_writer].
    destruct fatal; [apply law_retire|]. destruct stop; [|done]. repeat case_match; try done; apply law_retire.
Qed.

Lemma run_iteration_ok `{!LeaseLaws L} c queue lp : loop_ok queue lp -> loop_ok queue (run_iteration c lp).
Proof.
  intros Hok. unfold run_iteration. destruct (lp_end lp); [done|].
  destruct c; [by destruct Hok; split|]. pose proof (lo_accounted _ _ Hok) as Ha. unfold accounted in Ha.
  destruct (lp_pending lp) as [rq|]; [by apply serve_ok|].
  destruct (lp_queue lp) as [|rq q]; [done|by apply serve_ok].
Qed.

Lemma run_ended signals lp e : lp_end lp = Some e -> run signals lp = lp.
Proof.
  intros He. induction signals as [|c signals IH]; [done|]. cbn [run foldl]. unfold run_iteration at 2. by rewrite He.
Qed.

(** Each iteration of a loop with work answers at least one request. *)
Lemma writer_run_progress signals lp :
  Forall (eq false) signals -> lp_end (run signals lp) = None ->
  (Nat.min (length (lp_replied lp) + length signals) (length (accounted lp)) <= length (lp_replied (run signals lp)))%nat.
Proof.
  revert lp. induction signals as [|c signals IH]; intros lp Hs Hend; cbn [run foldl length].
  { cbn. lia. }
  inv Hs. change (foldl _ _ signals) with (run signals (run_iteration false lp)) in *.
  specialize (IH (run_iteration false lp) ltac:(done) Hend).
  assert (Hacc : forall rq q, (lp_pending lp = Some rq /\ q = lp_queue lp) \/ (lp_pending lp = None /\ lp_queue lp = rq :: q) ->
    accounted (serve rq q lp) = accounted lp).
  { intros rq q Hq. rewrite serve_accounted. unfold accounted. destruct Hq as [[-> ->]|[-> ->]]; done. }
  unfold run_iteration in *. destruct (lp_end lp) as [e|] eqn:Ee; [by rewrite (run_ended _ _ e Ee), Ee in Hend|].
  destruct (lp_pending lp) as [rq|] eqn:Ep; [|destruct (lp_queue lp) as [|rq q] eqn:Eq].
  - pose proof (serve_more rq (lp_queue lp) lp). rewrite Hacc in IH by auto. lia.
  - unfold accounted in *. rewrite Ep, Eq in *. cbn in *. rewrite app_nil_r, length_fmap in *. lia.
  - pose proof (serve_more rq q lp). rewrite Hacc in IH by auto. lia.
Qed.

(** The writer's loop serves every request once and in order. At any point of any
    run, with cancellation at any moment, the requests answered so far, the one
    taken but not yet served and those still waiting are exactly the requests that
    came, in their order; the loop never panics on its Close assertion; and once it
    has closed or failed the lease is retired, so no later snapshot is handed out.
    Uncancelled and without failure, it has answered all of them after as many
    iterations as there were requests. *)
Lemma writer_loop_serves_in_order `{!LeaseLaws L} (signals : list bool) (w : Writer) (queue : list writerRequest) :
  let lp := run signals (start w queue) in
  (fst <$> lp_replied lp) ++ option_list (lp_pending lp) ++ lp_queue lp = queue /\
  lp_end lp <> Some LoopPanic /\
  match lp_end lp with
  | Some (LoopFailed _) | Some (LoopClosed _) => is_ok (lease_Snapshot (wr_lease (lp_writer lp))) = false
  | Some _ => True
  | None => Forall (eq false) signals -> (length queue <= length signals)%nat -> fst <$> lp_replied lp = queue
  end.
Proof.
  assert (Hok : loop_ok queue (run signals (start w queue))).
  { unfold run. assert (loop_ok queue (start w queue)) as H by done. revert H. generalize (start w queue).
    induction signals as [|c signals IH]; intros lp H; [done|]. cbn. by apply IH, run_iteration_ok. }
  pose proof (writer_run_progress signals (start w queue)) as Hp. destruct Hok as [Ha Hn Hr]. cbv zeta.
  split; [exact Ha|]. split; [done|]. destruct (lp_end _) as [[]|]; try done. intros Hs Hl. specialize (Hp Hs eq_refl).
  change (accounted (start w queue)) with queue in Hp. change (length (lp_replied (start w queue))) with O in Hp.
  unfold accounted in *.
  assert (Hlen := f_equal length Ha). rewrite !length_app, length_fmap in Hlen.
  assert (option_list (lp_pending (run signals (start w queue))) ++ lp_queue (run signals (start w queue)) = []) as Hnil
    by (apply length_zero_iff_nil; rewrite length_app; lia).
  by rewrite Hnil, app_nil_r in Ha.
Qed.



End writer.

(** * The coordinator's leases are leases of the writer *)

Section local_lease.
Context {S : Type} `{Hstore : Session.Store S}.

#[export] Instance localLease_ops : LeaseOps (LocalCoordinator (S := S) * nat) := {
  lease_Snapshot l := localLease_Snapshot l.2 l.1;
  lease_Save ctx next l := let '(res, c) := localLease_Save ctx l.2 next l.1 in (res, (c, l.2));
  lease_Retire l := (localLease_Retire (Some ErrContext) l.2 l.1, l.2)
}.

Lemma upd_lookup id f (c : LocalCoordinator (S := S)) :
  objects (upd id f c) !! id = f <$> objects c !! id.
Proof. unfold upd. cbn. by rewrite list_lookup_alter_eq. Qed.

(** What a save leaves behind in the lease. *)
Lemma localLease_Save_snapshot ctx id next (c c' : LocalCoordinator (S := S)) res :
  localLease_Save ctx id next c = (res, c') ->
  localLease_Snapshot id c' = (if is_ok res then Ok next else localLease_Snapshot id c).
Proof.
  unfold localLease_Save, mbind, ST_bind, st_bind, save_begin, op_begin, localLease_Snapshot.
  destruct (objects c !! id) as [l|] eqn:El; [|intros [= <- <-]; by rewrite El].
  destruct (bool_decide (Snapshot_Key next = l_key l)); cbn [negb]; [|intros [= <- <-]; by rewrite El].
  destruct (ensureActiveLocked l id c) as [[]|e] eqn:Ea; [|intros [= <- <-]; by rewrite El, Ea].
  destruct ctx as [e|]; [intros [= <- <-]; by rewrite El, Ea|].
  unfold op_end. rewrite upd_lookup, El. cbn [fmap option_fmap option_map with_op l_opMu l_key].
  assert (Hact : forall f st, (forall x, l_ready (f x) = l_ready x /\ l_released (f x) = l_released x /\ l_cause (f x) = l_cause x /\ l_key (f x) = l_key x) ->
    match objects (upd id f (set_store st (upd id (with_op (Some (Saving next))) c))) !! id with
    | Some l' => ensureActiveLocked l' id (upd id f (set_store st (upd id (with_op (Some (Saving next))) c))) ≫= (fun _ => mret (Snapshot_Clone (l_snapshot l')))
    | None => Err ErrLeaseInactive
    end = Ok (Snapshot_Clone (l_snapshot (f (with_op (Some (Saving next)) l))))).
  { intros f st Hf. rewrite upd_lookup. change (objects (set_store st ?x)) with (objects x). rewrite upd_lookup, El. cbn [fmap option_fmap option_map].
    destruct (Hf (with_op (Some (Saving next)) l)) as (H1 & H2 & H3 & H4). unfold ensureActiveLocked in *. rewrite H1, H2, H3, H4. cbn in *.
    repeat case_match; by simplify_eq. }
  destruct (store_Save _ _ _ _) as [[[]|e] st]; intros [= <- <-]; cbn [is_ok].
  - rewrite Hact by done. cbn. by rewrite !Snapshot_Clone_id.
  - rewrite Hact by done. by cbn.
Qed.

#[export] Instance localLease_laws : LeaseLaws (LocalCoordinator (S := S) * nat).
Proof.
  split.
  - intros ctx s [c id] [c' id'] s'. cbn. destruct (localLease_Save ctx id s c) as [res c1] eqn:E.
    intros [= -> -> ->]. rewrite (localLease_Save_snapshot _ _ _ _ _ _ E). cbn. congruence.
  - intros ctx s [c id] e [c' id'] s'. cbn. destruct (localLease_Save ctx id s c) as [res c1] eqn:E.
    intros [= -> -> ->]. by rewrite (localLease_Save_snapshot _ _ _ _ _ _ E).
  - intros [c id]. cbn. unfold localLease_Snapshot, localLease_Retire. rewrite upd_lookup.
    destruct (objects c !! id) as [l|]; [|done]. cbn. unfold ensureActiveLocked. cbn. by destruct (l_ready l), (l_released l), (l_cause l).
  - intros ctx s [c id]. cbn. unfold localLease_Save, mbind, ST_bind, st_bind, save_begin, op_begin, localLease_Retire.
    rewrite upd_lookup. destruct (objects c !! id) as [l|]; [|done]. cbn [fmap option_fmap option_map].
    destruct (bool_decide _); [|done]. unfold ensureActiveLocked. cbn. by destruct (l_ready l), (l_released l), (l_cause l).
Qed.

End local_lease.

(** * Witnesses *)

Definition sample_now (k : nat) : clock := {| Unix := 1000; Nanosecond := 0 |}.
Definition sample_random (k n : nat) : bytes := zeros n.
Definition sample_write (k : nat) : bool := true.

Definition empty_store : Reliability.Store :=
  {| capacity := 100; ttl := 10 ^ 9; order := 0; entries := ∅; expiry := [] |}.

Lemma empty_store_ok : store_ok empty_store.
Proof. by apply (New_ok {| sc_Capacity := 100; sc_TTL := 10 ^ 9 |}). Qed.

Definition sample_writer : Writer (L := LocalCoordinator (S := MemoryStore) * nat) :=
  {| wr_lease := (sample_coordinator, 0%nat); wr_authKey := toy_key; wr_ids := NewMsgIDGenerator;
     wr_reliability := empty_store; wr_maxEncodedBytes := 1024; wr_ticks := 0; wr_attempts := 0; wr_sent := [] |}.

Definition sample_push : Intent := Contracts.Push [x01; x02; x03; x04].

Definition push_request : writerRequest :=
  {| rq_ctx := {| ctx_id := 1; ctx_comparable := true; ctx_Err := None |}; rq_operation := OpSubmit sample_push |}.

Definition close_request : writerRequest :=
  {| rq_ctx := {| ctx_id := 2; ctx_comparable := true; ctx_Err := None |}; rq_operation := OpSubmit (Contracts.Close None) |}.

Lemma sample_ready intent :
  frame_size intent <= 100 -> ready sample_now sample_random intent sample_writer zero_Snapshot.
Proof.
  intros Hf. split.
  - vm_compute. reflexivity.
  - by vm_compute.
  - intros k n. apply length_replicate.
  - by vm_compute.
  - intros k. split; [by vm_compute|]. change (clock_id (sample_now k)) with (1000 * 2 ^ 32). lia.
  - change (last (wr_ids sample_writer)) with 0. lia.
  - by vm_compute.
  - destruct intent; try done. unfold frame_size, MaxContainerMessages in *. lia.
Qed.

Lemma sample_room intent : 1 <= frame_size intent <= 100 -> retention_room sample_now intent sample_writer.
Proof.
  intros Hf. split; [exact empty_store_ok|by cbn; lia|cbn; lia|]. intros k r. cbn. unfold abs. cbn. by rewrite fmap_empty, lookup_empty.
Qed.

Lemma writer_commits_before_sending_witness :
  exists p next w1, prepare sample_now sample_random sample_push sample_writer = (Ok (p, next), w1) /\
    wr_sent (process sample_now sample_random sample_write None sample_push sample_writer).2 = [pf_frame p] /\
    frame_retained p (process sample_now sample_random sample_write None sample_push sample_writer).2.
Proof.
  destruct (process sample_now sample_random sample_write None sample_push sample_writer) as [res w'] eqn:E.
  destruct (writer_commits_before_sending sample_now sample_random sample_write None sample_push sample_writer res w')
    as [(Hr & _)|(p & next & w1 & Hp & _ & _ & _ & _ & Hs & Hret)].
  - reflexivity.
  - exact E.
  - exfalso. assert (is_ok (process sample_now sample_random sample_write None sample_push sample_writer).1 = true) as H
      by (by vm_compute). rewrite E in H. cbn in H. congruence.
  - exists p, next, w1. split; [exact Hp|]. split; [exact Hs|]. apply (Hret zero_Snapshot); [apply sample_ready|apply sample_room]; clear; by vm_compute.
Defined.

(** A store of two messages and a batch of two pushes, three messages with its container: the
    frame is sent and its first child cannot be resent. *)
Definition small_writer : Writer (L := LocalCoordinator (S := MemoryStore) * nat) :=
  {| wr_lease := wr_lease sample_writer; wr_authKey := toy_key; wr_ids := NewMsgIDGenerator;
     wr_reliability := {| capacity := 2; ttl := 10 ^ 9; order := 0; entries := ∅; expiry := [] |};
     wr_maxEncodedBytes := 1024; wr_ticks := 0; wr_attempts := 0; wr_sent := [] |}.

Example large_batch_evicts_its_own :
  let x := process sample_now sample_random sample_write None (Contracts.Batch [sample_push; sample_push]) small_writer in
  is_ok x.1 = true /\ length (wr_sent x.2) = 1%nat /\
  match prepare sample_now sample_random (Contracts.Batch [sample_push; sample_push]) small_writer with
  | (Ok (p, _), _) => (fun m => bool_decide (is_Some (entries (wr_reliability x.2) !! rt_messageID m))) <$> all_retained p
  | _ => []
  end = [false; true; true].
Proof. by vm_compute. Qed.

Lemma prepared_frame_opens_witness :
  exists p next w1 em body,
    prepare sample_now sample_random sample_push sample_writer = (Ok (p, next), w1) /\
    decryptWithDirection em toy_key false = Ok (inner_of zero_Snapshot p body).
Proof.
  destruct (prepare sample_now sample_random sample_push sample_writer) as [[[p next]|e] w1] eqn:E.
  - destruct (prepared_frame_opens sample_now sample_random sample_push sample_writer zero_Snapshot next p w1)
      as (em & body & _ & _ & Hd & _).
    + by apply sample_ready.
    + exact E.
    + exists p, next, w1, em, body. split; [done|exact Hd].
  - exfalso. assert (is_ok (prepare sample_now sample_random sample_push sample_writer).1 = true) as H by (by vm_compute).
    rewrite E in H. discriminate H.
Defined.

Lemma sample_saves next :
  Snapshot_Key next = Snapshot_Key zero_Snapshot -> is_ok (lease_Save None next (wr_lease sample_writer)).1 = true.
Proof.
  destruct next as [k i]. unfold Snapshot_Key. cbn. intros [= -> ->]. vm_compute. reflexivity.
Qed.

Lemma batched_pushes_are_delivered_witness :
  exists w', processRequests sample_now sample_random sample_write [push_request; push_request] sample_writer =
    ({| rs_state := no_state; rs_err := None |}, false, None, w').
Proof.
  destruct (batched_pushes_are_delivered sample_now sample_random sample_write push_request [push_request; close_request]
    [push_request; push_request] [] (Some close_request) sample_writer zero_Snapshot) as (_ & _ & w' & em & body & ms & H & _).
  - by vm_compute.
  - cbn. lia.
  - apply sample_ready. clear. by vm_compute.
  - apply sample_room. clear. by vm_compute.
  - split; [exact sample_saves|done|done].
  - exists w'. exact H.
Defined.

Lemma writer_loop_serves_in_order_witness :
  let lp := run sample_now sample_random sample_write [false; false; false] (start sample_writer [push_request; close_request]) in
  fst <$> lp_replied lp = [push_request; close_request] /\
  is_ok (lease_Snapshot (wr_lease (lp_writer lp))) = false.
Proof.
  pose proof (writer_loop_serves_in_order sample_now sample_random sample_write [false; false; false]
    sample_writer [push_request; close_request]) as (Ha & _ & He). cbv zeta in *.
  assert (Hend : lp_end (run sample_now sample_random sample_write [false; false; false]
    (start sample_writer [push_request; close_request])) = Some (LoopClosed None)) by (vm_compute; reflexivity).
  rewrite Hend in He. split; [|exact He]. vm_compute. reflexivity.
Defined.
