(* ===== verification/Inbound.v ===== *)
(** The session validator of internal/runtime/inbound.go: it classifies a decrypted
    message, decodes containers, validates the whole envelope against the durable
    snapshot, separates fresh messages from retransmissions of remembered ones, and
    produces the snapshot to save.

    The decode budget is the one object all messages of an envelope share: what is
    handed on is its state after classification.  The [decoded] slice the loop also
    trims is never read afterwards and is left out. *)

From stdpp Require Import base numbers list gmap.
From S2P Require Import Prelude Wire Validator Session Contracts Crypto Tl.
Open Scope Z_scope.

Inductive inbound_error :=
| ErrInboundBodyTooShort
| ErrTrailingContainerData
| InbDecode (e : wire_error)
| InbValidate (e : validation_error)
| InbFuel.

Record ValidatedInbound := {
  vi_OuterMessageID : Z;
  vi_Envelope : InboundMessage;
  vi_Messages : list InboundMessage;
  vi_Snapshot : Session.Snapshot
}.

(** * Classification *)

Definition classifyMessageKind (constructorID seqNo : Z) : Z :=
  if constructorID =? MsgContainerID then Container
  else if (constructorID =? PingID) || (constructorID =? PingDelayDisconnectID) then
    if negb (Z.land seqNo 1 =? 0) then ContentRelated else NonContentRelated
  else if (constructorID =? MsgsAckID) || (constructorID =? NewSessionCreatedID) || (constructorID =? GetFutureSaltsID) ||
          (constructorID =? MsgsStateReqID) || (constructorID =? MsgResendReqID) || (constructorID =? MsgsStateInfoID)
  then NonContentRelated
  else ContentRelated.

Definition requiresAcknowledgement (constructorID kind : Z) : bool :=
  if (constructorID =? PingID) || (constructorID =? PingDelayDisconnectID) then false
  else kind =? ContentRelated.

(** [binary.LittleEndian.Uint32(body[:4])] *)
Definition constructor_of (body : bytes) : Z := le_get (take 4 body).

Definition inbound_message (id seqNo : Z) (body : bytes) (kind : Z) (budget : DecodeBudget) : InboundMessage :=
  {| im_MessageID := id; im_SequenceNo := seqNo; im_ConstructorID := constructor_of body; im_Body := body;
     im_Dependencies := []; im_DecodeBudget := Some budget;
     im_ContentRelated := requiresAcknowledgement (constructor_of body) kind;
     im_SuppressPush := false; im_Retransmission := false |}.

(** The loop over a container's messages. *)
Fixpoint classifyChildren (messages : list Tl.Message) (budget : DecodeBudget)
  : result inbound_error (list ContainerMessage * list InboundMessage) :=
  match messages with
  | [] => mret ([], [])
  | child :: messages' =>
      if len (m_BodyRaw child) <? 4 then Err ErrInboundBodyTooShort
      else
        let kind := classifyMessageKind (constructor_of (m_BodyRaw child)) (m_SeqNo child) in
        rest ← classifyChildren messages' budget;
        mret ({| cm_MessageID := m_MsgID child; cm_SequenceNo := m_SeqNo child; cm_Kind := kind |} :: rest.1,
              inbound_message (m_MsgID child) (m_SeqNo child) (m_BodyRaw child) kind budget :: rest.2)
  end.

Definition outer_message (inner : InnerData) (children : list ContainerMessage) : Validator.Message :=
  {| m_ServerSalt := Salt inner; m_SessionID := Crypto.SessionID inner; m_MessageID := MsgID inner;
     m_SequenceNo := SeqNo inner; m_Kind := classifyMessageKind (constructor_of (Data inner)) (SeqNo inner);
     m_Children := children |}.

Definition read_container : RD (list Tl.Message) := _ ← ConsumeContainer; MsgContainer_DeserializeTL.

Definition classifyProtocolMessage (inner : InnerData) (budget : DecodeBudget)
  : result inbound_error (Validator.Message * list InboundMessage * DecodeBudget) :=
  let constructorID := constructor_of (Data inner) in
  if negb (constructorID =? MsgContainerID) then
    mret (outer_message inner [],
          [inbound_message (MsgID inner) (SeqNo inner) (Data inner) (classifyMessageKind constructorID (SeqNo inner)) budget],
          budget)
  else
    match read_container (Reader (Data inner) (Some budget)) with
    | (Err e, _) => Err (InbDecode e)
    | (Ok messages, reader) =>
        if negb (Len reader =? 0) then Err ErrTrailingContainerData
        else
          let budget := default budget (rd_budget reader) in
          children ← classifyChildren messages budget;
          mret (outer_message inner children.1, children.2, budget)
    end.

(** * Validation *)

#[export] Instance bad_cause_eq_dec : EqDecision bad_cause.
Proof. solve_decision. Defined.

Definition protocol_config (snapshot : Session.Snapshot) : Config :=
  {| cfg_SessionID := Session.sn_SessionID snapshot; cfg_ServerSalt := Session.sn_ServerSalt snapshot;
     cfg_SequenceNo := sn_SeqNo snapshot; cfg_HighestMessageID := sn_LastClientMsgID snapshot;
     cfg_MessageIDFloor := sn_ClientMsgIDFloor snapshot; cfg_RecentMessageIDs := sn_RecentClientMsgIDs snapshot;
     cfg_RecentMessageIDLimit := 0; cfg_RecentSequenceNos := sn_RecentClientSeqNos snapshot;
     cfg_ContentSequenceLimit := 0 |}.

Definition newProtocolValidator (snapshot : Session.Snapshot) : result inbound_error Validator :=
  map_err InbValidate (NewValidator (protocol_config snapshot)).

Definition with_children (children : list ContainerMessage) (m : Validator.Message) : Validator.Message :=
  {| m_ServerSalt := m_ServerSalt m; m_SessionID := m_SessionID m; m_MessageID := m_MessageID m;
     m_SequenceNo := m_SequenceNo m; m_Kind := m_Kind m; m_Children := children |}.

(** [append(s[:index], s[index+1:]...)] at the first child with the id. *)
Fixpoint remove_child (id : Z) (children : list ContainerMessage) : option (list ContainerMessage) :=
  match children with
  | [] => None
  | c :: children' => if cm_MessageID c =? id then Some children' else (fun l => c :: l) <$> remove_child id children'
  end.

(** The loop; [clock k] are the clock's readings in the [k]-th attempt. *)
Fixpoint validateLoop (fuel : nat) (clock : nat -> nat -> Z) (recent : gset Z) (v : Validator)
    (message : Validator.Message) (replayed : gset Z) : result inbound_error (Validator * gset Z) :=
  match fuel with
  | O => Err InbFuel
  | S fuel =>
      match Validate (clock O) message v with
      | (Ok _, v) => mret (v, replayed)
      | (Err e, v) =>
          match e with
          | BadMessage bad =>
              if negb (m_Kind message =? Container) || negb (bool_decide (bm_Cause bad = ErrReplayMessageID)) ||
                 (bm_MessageID bad =? m_MessageID message) || negb (bool_decide (bm_MessageID bad ∈ recent))
              then Err (InbValidate e)
              else
                match remove_child (bm_MessageID bad) (m_Children message) with
                | None => Err (InbValidate e)
                | Some children =>
                    validateLoop fuel (fun k => clock (S k)) recent v (with_children children message)
                      ({[bm_MessageID bad]} ∪ replayed)
                end
          | _ => Err (InbValidate e)
          end
      end
  end.

Definition set_Retransmission (r : bool) (m : InboundMessage) : InboundMessage :=
  {| im_MessageID := im_MessageID m; im_SequenceNo := im_SequenceNo m; im_ConstructorID := im_ConstructorID m;
     im_Body := im_Body m; im_Dependencies := im_Dependencies m; im_DecodeBudget := im_DecodeBudget m;
     im_ContentRelated := im_ContentRelated m; im_SuppressPush := im_SuppressPush m; im_Retransmission := r |}.

(** [next]: the snapshot with the validator's state. *)
Definition validated_snapshot (snapshot : Session.Snapshot) (state : Validator.Snapshot) : Session.Snapshot :=
  {| sn_AuthKeyID := sn_AuthKeyID snapshot; Session.sn_SessionID := Validator.sn_SessionID state;
     sn_Layer := sn_Layer snapshot; sn_UserID := sn_UserID snapshot; sn_PushSubscription := sn_PushSubscription snapshot;
     Session.sn_ServerSalt := Validator.sn_ServerSalt state; sn_SeqNo := sn_SequenceNo state;
     sn_ServerSeqNo := sn_ServerSeqNo snapshot; sn_LastClientMsgID := sn_HighestMessageID state;
     sn_ClientMsgIDFloor := sn_MessageIDFloor state; sn_RecentClientMsgIDs := sn_RecentMessageIDs state;
     sn_RecentClientSeqNos := sn_RecentSequenceNos state; sn_Client := sn_Client snapshot;
     sn_NewSessionCreated := sn_NewSessionCreated snapshot; sn_FirstClientMsgID := sn_FirstClientMsgID snapshot;
     sn_CreatedAt := sn_CreatedAt snapshot; sn_LastActivity := sn_LastActivity snapshot |}.

Definition SessionValidator_Validate (limits : DecodeLimits) (clock : nat -> nat -> Z)
    (snapshot : Session.Snapshot) (inner : InnerData) : result inbound_error ValidatedInbound :=
  if len (Data inner) <? 4 then Err ErrInboundBodyTooShort
  else
    budget ← map_err InbDecode (NewDecodeBudget limits);
    classified ← classifyProtocolMessage inner budget;
    let '(message, original, budget) := classified in
    validator ← newProtocolValidator snapshot;
    done ← validateLoop (S (length (m_Children message))) clock (list_to_set (sn_RecentClientMsgIDs snapshot))
             validator message ∅;
    let '(validator, replayed) := done in
    mret {| vi_OuterMessageID := MsgID inner;
            vi_Envelope := inbound_message (MsgID inner) (SeqNo inner) (Data inner) (m_Kind message) budget;
            vi_Messages := (fun m => set_Retransmission (bool_decide (im_MessageID m ∈ replayed)) m) <$> original;
            vi_Snapshot := validated_snapshot snapshot (Snapshot_of validator) |}.

(** * Facts *)

(** ** What a restored validator knows *)

Lemma restore_id_known limit s id :
  1 <= limit -> ids_ok limit s ->
  known_id (restore_id limit s id) id /\ forall x, known_id s x -> known_id (restore_id limit s id) x.
Proof.
  intros Hl Hok. destruct (Z.le_gt_cases id (messageIDFloor s)).
  { unfold restore_id. rewrite (proj2 (Z.leb_le _ _)) by done. split; [by left|done]. }
  destruct (decide (id ∈ recentSet s)) as [Hin|].
  { unfold restore_id. rewrite (proj2 (Z.leb_gt _ _)), bool_decide_eq_true_2 by done.
    split; [|done]. right. destruct Hok as [_ Hset _ _]. rewrite Hset in Hin. by apply elem_of_list_to_set in Hin. }
  rewrite restore_id_eq by done. destruct (raise_highest_ok limit s id Hok) as (Hok1 & Hle & Hr & Hf & _).
  edestruct (rememberMessageID_spec id limit) as (_ & _ & _ & Hk & Hm); [done|exact Hok1| |done|].
  { rewrite Hr. intros Hin. destruct Hok as [_ Hset _ _]. rewrite Hset in *. set_solver. }
  split; [exact Hk|]. intros x Hx. apply Hm. unfold known_id in *. by rewrite Hr, Hf.
Qed.

Lemma restore_ids_known limit ids s :
  1 <= limit -> ids_ok limit s ->
  (forall id, id ∈ ids -> known_id (foldl (restore_id limit) s ids) id) /\
  forall x, known_id s x -> known_id (foldl (restore_id limit) s ids) x.
Proof.
  intros Hl. revert s. induction ids as [|i ids IH]; intros s Hok; cbn [foldl].
  { split; [|done]. by intros id ?%elem_of_nil. }
  destruct (restore_id_known limit s i Hl Hok) as [Hk Hm].
  destruct (IH (restore_id limit s i)) as [Hk' Hm']; [by apply restore_id_ok|].
  split; [|auto]. intros id [->|Hin]%elem_of_cons; auto.
Qed.

Lemma restore_seqs_known limit ns s x :
  known_id s x -> known_id (foldl (restore_seq limit) s ns) x.
Proof.
  revert s. induction ns as [|n ns IH]; intros s Hs; cbn [foldl]; [done|]. apply IH.
  destruct (restore_seq_ids limit s n) as (_ & Hf & Hr & _). unfold known_id in *. by rewrite Hf, Hr.
Qed.

Lemma NewValidator_known c v id : NewValidator c = Ok v -> id ∈ cfg_RecentMessageIDs c -> known_id (state v) id.
Proof.
  intros H Hid. unfold NewValidator in H.
  set (limit := if cfg_RecentMessageIDLimit c =? 0 then _ else _) in H.
  set (slimit := if cfg_ContentSequenceLimit c =? 0 then _ else _) in H. cbv zeta in H.
  destruct (_ || _) eqn:E1 in H; [done|]. destruct (_ || _) in H; [done|].
  destruct (_ || _) in H; [done|]. bools. injection H as <-. cbn [state].
  apply (restore_seqs_known slimit). edestruct (restore_ids_known limit) as [Hk _]; [lia| |by apply Hk].
  split; cbn; [constructor|done|unfold len; cbn; lia|by intros x ?%elem_of_nil].
Qed.

(** Restoring the snapshot a validation leaves gives its validator back. *)
Lemma validated_restores sn v :
  wf v -> messageIDLimit v = 64 -> sequenceLimit v = 64 ->
  newProtocolValidator (validated_snapshot sn (Snapshot_of v)) = Ok v.
Proof.
  intros Hwf Hl Hs. unfold newProtocolValidator.
  assert (NewValidator (protocol_config (validated_snapshot sn (Snapshot_of v))) =
          NewValidator (restore_config v (Snapshot_of v))) as ->.
  { unfold NewValidator, protocol_config, restore_config. cbn. by rewrite Hl, Hs. }
  by rewrite NewValidator_restore.
Qed.

(** ** The loop *)

Lemma Validate_err clock m v e v' : Validate clock m v = (Err e, v') -> v' = v.
Proof. unfold Validate. destruct (validateEnvelope _ _ _ _); by intros [=]. Qed.

Lemma remove_child_spec id cs cs' :
  remove_child id cs = Some cs' ->
  length cs = S (length cs') /\ (forall c, c ∈ cs' -> c ∈ cs) /\
  forall R : gset Z, id ∈ R ->
    filter (fun c => cm_MessageID c ∉ R) cs' = filter (fun c => cm_MessageID c ∉ R) cs.
Proof.
  revert cs'. induction cs as [|c cs IH]; intros cs'; cbn [remove_child]; [done|].
  destruct (Z.eqb_spec (cm_MessageID c) id) as [<-|Hne].
  - intros [= <-]. split_and!; [done|by right|]. intros R HR. by rewrite filter_cons_False by auto.
  - destruct (remove_child id cs) as [l|] eqn:E; [|done]. intros [= <-]. destruct (IH l eq_refl) as (Hl & Hin & Hf).
    split_and!; [cbn; lia| |].
    + intros x [->|Hx]%elem_of_cons; [left|right; auto].
    + intros R HR. rewrite !filter_cons. case_decide; by rewrite Hf.
Qed.

Lemma validateLoop_fuel fuel clock recent v m R :
  (length (m_Children m) < fuel)%nat -> validateLoop fuel clock recent v m R <> Err InbFuel.
Proof.
  revert clock v m R. induction fuel as [|fuel IH]; intros clock v m R Hf; [lia|]. cbn [validateLoop].
  destruct (Validate _ _ _) as [[[]|e] v1]; [done|]. destruct e; [|done..]. case_match; [done|].
  destruct (remove_child _ _) as [cs|] eqn:E; [|done]. apply remove_child_spec in E as (Hl & _ & _).
  apply IH. cbn. lia.
Qed.

Definition envelope_after (m m' : Validator.Message) (R : gset Z) : Prop :=
  m' = with_children (m_Children m') m /\ (m_Kind m <> Container -> m' = m) /\
  (forall c, c ∈ m_Children m' -> c ∈ m_Children m) /\
  forall R', R ⊆ R' -> filter (fun c => cm_MessageID c ∉ R') (m_Children m') =
                       filter (fun c => cm_MessageID c ∉ R') (m_Children m).

Lemma validateLoop_spec fuel clock recent v m R0 v' R :
  validateLoop fuel clock recent v m R0 = Ok (v', R) ->
  R0 ⊆ R /\ R ⊆ R0 ∪ recent /\ (m_Kind m <> Container -> R = R0) /\
  exists m' clock', Validate clock' m' v = (Ok tt, v') /\ envelope_after m m' R.
Proof.
  revert clock v m R0. induction fuel as [|fuel IH]; intros clock v m R0; cbn [validateLoop]; [done|].
  destruct (Validate (clock O) m v) as [[[]|e] v1] eqn:Ev.
  { intros [= -> ->]. split_and!; [done|apply union_subseteq_l|done|]. exists m, (clock O). split; [done|].
    split_and!; try done. by destruct m. }
  apply Validate_err in Ev as ->. destruct e as [bad| |]; [|done..].
  case_match eqn:Ec; [done|]. bools. destruct (remove_child _ _) as [cs|] eqn:Er; [|done].
  apply remove_child_spec in Er as (_ & Hin & Hf). intros Hloop.
  apply IH in Hloop as (Hsub & Hsup & _ & m' & clock' & Hv & (Heq & _ & Hin' & Hf')).
  split_and!; [|by clear -Hsup H1 H0 H; set_solver|done|]; [by clear -Hsub; set_solver|]. exists m', clock'. split; [done|]. split_and!.
  - rewrite Heq. by destruct m.
  - done.
  - intros c Hc. apply Hin. apply (Hin' c Hc).
  - intros R' HR'. rewrite Hf' by done. cbn. apply Hf. set_solver.
Qed.

(** ** Classification *)

Lemma st_repeat_each {S E A} (P : A -> Prop) (f : ST S E A) n r xs r' :
  (forall r x r', f r = (Ok x, r') -> P x) -> st_repeat n f r = (Ok xs, r') -> Forall P xs.
Proof.
  intros Hf. revert r xs. induction n as [|n IH]; intros r xs; cbn [st_repeat].
  - unfold st_ret. intros [= <- <-]. constructor.
  - intros H. st_inv. constructor; eauto.
Qed.

Lemma container_typed r ms r' : MsgContainer_DeserializeTL r = (Ok ms, r') -> Forall (fun m => inS 32 (m_SeqNo m)) ms.
Proof.
  unfold MsgContainer_DeserializeTL, ReadBareVectorBounded. intros H. st_inv.
  change (MaxContainerMessages <? 0) with false in *. cbn [negb] in *. unfold readElements in *. st_inv.
  repeat case_match; try done. st_inv. eapply st_repeat_each; [|eassumption].
  clear. intros r x r' H. unfold Message_DeserializeTL in H. st_inv. case_match; [done|]. st_inv. cbn.
  match goal with H : ReadInt32 _ = (Ok ?z, _) |- inS 32 ?z => unfold ReadInt32 in H; st_inv end.
  by apply wrapS_range.
Qed.

Lemma classifyChildren_spec ms budget cs os :
  classifyChildren ms budget = Ok (cs, os) ->
  im_MessageID <$> os = cm_MessageID <$> cs /\ Forall (fun m => im_Retransmission m = false) os /\
  (Forall (fun m => inS 32 (m_SeqNo m)) ms -> forall c, c ∈ cs -> inS 32 (cm_SequenceNo c)).
Proof.
  revert cs os. induction ms as [|m ms IH]; intros cs os; cbn [classifyChildren].
  { intros [= <- <-]. split_and!; [done|constructor|]. by intros _ c ?%elem_of_nil. }
  case_match; [done|]. unfold mbind, result_bind. destruct (classifyChildren ms budget) as [[cs1 os1]|]; [|done].
  intros [= <- <-]. destruct (IH _ _ eq_refl) as (Hi & Hr & Ht). split_and!.
  - cbn. by rewrite Hi.
  - by constructor.
  - intros Hf. inv Hf. intros c [->|Hc]%elem_of_cons; [done|auto].
Qed.

Lemma kind_container id n : classifyMessageKind id n = Container <-> id = MsgContainerID.
Proof.
  unfold classifyMessageKind. destruct (Z.eqb_spec id MsgContainerID) as [->|Hne]; [done|].
  split; [|done]. repeat case_match; by intros.
Qed.

Lemma classify_spec inner budget m os budget' :
  inS 32 (SeqNo inner) -> classifyProtocolMessage inner budget = Ok (m, os, budget') ->
  message_typed m /\ m = outer_message inner (m_Children m) /\ Forall (fun m => im_Retransmission m = false) os /\
  im_MessageID <$> os = (if m_Kind m =? Container then cm_MessageID <$> m_Children m else [m_MessageID m]).
Proof.
  intros Ht. unfold classifyProtocolMessage. destruct (Z.eqb_spec (constructor_of (Data inner)) MsgContainerID) as [Hc|Hc]; cbn [negb].
  - destruct (read_container _) as [[ms|e] r] eqn:Er; [|done]. case_match; [done|].
    unfold mbind at 1, result_bind. destruct (classifyChildren _ _) as [[cs os1]|] eqn:Ecs; [|done].
    intros [= <- <- <-]. cbn [fst snd] in *. apply classifyChildren_spec in Ecs as (Hi & Hr & Hty).
    assert (Hk : m_Kind (outer_message inner cs) = Container) by by apply kind_container.
    split_and!; [split; [exact Ht|]|done|done|].
    + apply Hty. apply st_bind_ok in Er as (? & ? & _ & Er). by eapply container_typed.
    + by rewrite Hk.
  - intros [= <- <- <-]. assert (Hk : m_Kind (outer_message inner []) <> Container) by (intros Hk%kind_container; done).
    split_and!; [split; [exact Ht|]; by intros c ?%elem_of_nil|done|by repeat constructor|].
    by rewrite (proj2 (Z.eqb_neq _ _)).
Qed.

(** ** One envelope *)

(** The ids handed to dispatch for the first time, and those sent again. *)
Definition fresh_ids (vi : ValidatedInbound) : list Z :=
  im_MessageID <$> filter (fun m => im_Retransmission m = false) (vi_Messages vi).

Definition repeated_ids (vi : ValidatedInbound) : list Z :=
  im_MessageID <$> filter (fun m => im_Retransmission m = true) (vi_Messages vi).

Lemma filter_flagged (R : gset Z) (os : list InboundMessage) :
  im_MessageID <$> filter (fun m => im_Retransmission m = false)
    ((fun m => set_Retransmission (bool_decide (im_MessageID m ∈ R)) m) <$> os) =
  filter (fun id => id ∉ R) (im_MessageID <$> os).
Proof.
  induction os as [|m os IH]; [done|]. cbn [fmap list_fmap]. rewrite !filter_cons. cbn [im_Retransmission set_Retransmission].
  destruct (decide (im_MessageID m ∈ R)).
  - rewrite bool_decide_eq_true_2 by done. rewrite decide_False by done. rewrite decide_False by auto. exact IH.
  - rewrite bool_decide_eq_false_2 by done. rewrite !decide_True by done. cbn. by rewrite IH.
Qed.

Lemma filter_ids (R : gset Z) (cs : list ContainerMessage) :
  filter (fun id => id ∉ R) (cm_MessageID <$> cs) = cm_MessageID <$> filter (fun c => cm_MessageID c ∉ R) cs.
Proof. induction cs as [|c cs IH]; [done|]. cbn [fmap list_fmap]. rewrite !filter_cons. case_decide; cbn; by rewrite IH. Qed.

(** The validators before and after an accepted envelope. *)
Record step_ok (sn : Session.Snapshot) (vi : ValidatedInbound) (v v' : Validator) : Prop := {
  st_before : newProtocolValidator sn = Ok v;
  st_after : newProtocolValidator (vi_Snapshot vi) = Ok v';
  st_nodup : NoDup (fresh_ids vi);
  st_fresh : forall id, id ∈ fresh_ids vi -> ~ known_id (state v) id /\ known_id (state v') id;
  st_mono : forall id, known_id (state v) id -> known_id (state v') id;
  st_repeated : forall id, id ∈ repeated_ids vi -> id ∈ sn_RecentClientMsgIDs sn;
  st_typed : inS 32 (sn_SeqNo (vi_Snapshot vi))
}.

Lemma Validate_step limits clock sn inner vi :
  inS 32 (sn_SeqNo sn) -> inS 32 (SeqNo inner) ->
  SessionValidator_Validate limits clock sn inner = Ok vi -> exists v v', step_ok sn vi v v'.
Proof.
  intros Hsn Ht. unfold SessionValidator_Validate. case_match; [done|]. unfold mbind, result_bind.
  destruct (map_err InbDecode (NewDecodeBudget limits)) as [b|]; [|done].
  destruct (classifyProtocolMessage inner b) as [[[m os] b']|] eqn:Ec; [|done].
  apply classify_spec in Ec as (Hty & Hm & Hos & Hids); [|done].
  destruct (newProtocolValidator sn) as [v|] eqn:Ev; [|done].
  destruct (validateLoop _ _ _ _ _ _) as [[v' R]|] eqn:El; [|done]. intros [= <-].
  apply validateLoop_spec in El as (_ & Hsup & Hnc & m' & clock' & Hval & (Hm' & Hsame & Hin & Hf)).
  assert (Hv : NewValidator (protocol_config sn) = Ok v)
    by (unfold newProtocolValidator in Ev; destruct (NewValidator _); cbn in Ev; congruence).
  pose proof (NewValidator_ok (protocol_config sn) v Hsn Hv) as Hwf.
  assert (Hlim : messageIDLimit v = 64 /\ sequenceLimit v = 64).
  { clear -Hv. unfold NewValidator in Hv. cbn in Hv. destruct (_ || _) in Hv; [done|]. by injection Hv as <-. }
  assert (Hty' : message_typed m').
  { split; [rewrite Hm'; apply Hty|]. intros c Hc. by apply Hty, Hin. }
  destruct (Validate_accepting _ _ _ _ Hwf Hty' Hval) as (Hwf' & Hl1 & Hl2 & Ha).
  assert (Hfresh : fresh_ids
    {| vi_OuterMessageID := MsgID inner; vi_Envelope := inbound_message (MsgID inner) (SeqNo inner) (Data inner) (m_Kind m) b';
       vi_Messages := (fun m => set_Retransmission (bool_decide (im_MessageID m ∈ R)) m) <$> os;
       vi_Snapshot := validated_snapshot sn (Snapshot_of v') |} `sublist_of` message_ids m').
  { unfold fresh_ids. cbn [vi_Messages]. rewrite filter_flagged, Hids. unfold message_ids.
    assert (m_Kind m' = m_Kind m) as -> by by rewrite Hm'.
    destruct (Z.eqb_spec (m_Kind m) Container) as [Hk|Hk].
    - rewrite filter_ids, <- Hf by done. apply sublist_cons. apply (fmap_sublist cm_MessageID), sublist_filter.
    - rewrite (Hsame Hk). rewrite (Hnc Hk). rewrite filter_cons_True, filter_nil by set_solver. done. }
  exists v, v'. split; cbn [vi_Snapshot vi_Messages]; try done.
  - apply validated_restores; [done|lia..].
  - eapply sublist_NoDup; [|exact Hfresh]. apply Ha.
  - intros id Hid. eapply (acc_id _ _ _ _ _ _ Ha). by eapply elem_of_sublist.
  - apply Ha.
  - intros id. unfold repeated_ids. cbn [vi_Messages]. rewrite list_elem_of_fmap. intros (x & -> & Hx).
    rewrite list_elem_of_filter, list_elem_of_fmap in Hx. destruct Hx as [Hr (y & -> & _)]. cbn in *.
    apply bool_decide_eq_true_1 in Hr. apply Hsup in Hr. rewrite elem_of_union, elem_of_list_to_set in Hr. set_solver.
  - destruct Hwf' as [_ _ _ [_ _ _ [_ ?]]]. cbn. unfold inS. lia.
Qed.

(** ** Containers that mix retransmissions with fresh messages *)

(** A message sent again that passes everything but the replay check. *)
Definition resendable (now : Z) (c : ContainerMessage) : Prop :=
  validKind (cm_Kind c) = true /\ cm_Kind c <> Container /\
  cm_MessageID c mod 4 = 0 /\ cm_MessageID c mod 2 ^ 32 <> 0 /\
  now - 300 * Second <= cm_MessageID c / 2 ^ 32 * Second <= now + 30 * Second.

Lemma resendable_verdict L now s c n :
  ids_ok L s -> resendable now c -> known_id s (cm_MessageID c) ->
  validateMessageID now s (cm_MessageID c) n =
  badMessage (cm_MessageID c) n CodeReplayMessageID (serverSalt s) ErrReplayMessageID.
Proof.
  intros Hok (_ & _ & H4 & H32 & Ht) Hk. rewrite (validateMessageID_verdict L) by done. unfold id_verdict.
  rewrite !bool_decide_eq_false_2 by lia. rewrite bool_decide_eq_true_2; [done|]. destruct Hk; auto.
Qed.

Lemma validateChildren_app now v s a b :
  validateChildren (fun _ => now) v s (a ++ b) =
  (s' ← validateChildren (fun _ => now) v s a; validateChildren (fun _ => now) v s' b).
Proof.
  revert s. induction a as [|c a IH]; intros s; [done|]. cbn [app validateChildren]. case_match; [done|].
  unfold mbind, result_bind in *. destruct (validateOne _ _ _ _ _ _); [|done]. apply IH.
Qed.

(** The first remembered child of a container is reported as the replay. *)
Lemma first_replay now v m a c b (recent : gset Z) :
  wf v -> message_typed m -> m_Kind m = Container -> m_Children m = a ++ c :: b ->
  known_id (state v) (cm_MessageID c) -> resendable now c ->
  is_ok (Validate (fun _ => now) (with_children (a ++ filter (fun c => cm_MessageID c ∉ recent) b) m) v).1 = true ->
  exists e, Validate (fun _ => now) m v = (Err (BadMessage e), v) /\ bm_MessageID e = cm_MessageID c /\
    bm_Cause e = ErrReplayMessageID /\ bm_MessageID e <> m_MessageID m.
Proof.
  intros Hwf [Hto Htc] Hk Hcs Hknown Hres. unfold Validate. rewrite clone_id by done. unfold validateEnvelope.
  cbn [with_children m_SessionID m_ServerSalt m_Kind m_Children m_MessageID m_SequenceNo]. rewrite Hk, Hcs.
  destruct (_ || _); [done|]. destruct (negb (_ =? _)); [done|]. change (Container =? Container) with true. cbn [negb andb].
  unfold mbind, result_bind. destruct (validateOne _ _ _ _ _ _) as [s1|] eqn:E1; [|done].
  pose proof Hwf as [Hl1 Hl2 Hi Hs]. pose proof (wf_limits _ Hwf) as Hlim.
  pose proof (validateOne_accepting _ _ _ _ _ _ _ Hlim Hi Hs Hto E1) as Ha.
  rewrite !validateChildren_app. unfold mbind, result_bind.
  destruct (validateChildren _ _ s1 a) as [s2|] eqn:E2; [|done]. intros _.
  assert (Ha2 : accepting (messageIDLimit v) (sequenceLimit v) s1 s2 (cm_MessageID <$> a) (child_seqs a)).
  { eapply validateChildren_accepting; [done|apply Ha|apply Ha| |exact E2].
    intros x Hx. apply Htc. rewrite Hcs. set_solver. }
  cbn [validateChildren]. pose proof Hres as (Hvk & Hnc & _). rewrite (proj2 (Z.eqb_neq _ Container)) by done. rewrite Hvk. cbn [orb negb].
  unfold validateOne. rewrite Hvk. cbn [negb]. unfold mbind, result_bind.
  rewrite (resendable_verdict (messageIDLimit v)); [|apply Ha2|done|by apply (acc_id_mono _ _ _ _ _ _ Ha2), (acc_id_mono _ _ _ _ _ _ Ha)].
  eexists. split_and!; [done|done|done|]. cbn. intros Heq.
  apply (acc_id _ _ _ _ _ _ Ha (m_MessageID m)); [by left|]. by rewrite <- Heq.
Qed.

Lemma split_first (recent : gset Z) (cs : list ContainerMessage) :
  filter (fun c => cm_MessageID c ∉ recent) cs = cs \/
  exists a c b, cs = a ++ c :: b /\ cm_MessageID c ∈ recent /\ Forall (fun c => cm_MessageID c ∉ recent) a.
Proof.
  induction cs as [|c cs IH]; [by left|]. destruct (decide (cm_MessageID c ∈ recent)) as [Hc|Hc].
  - right. by exists [], c, cs.
  - rewrite filter_cons_True by done. destruct IH as [->|(a & x & b & -> & Hx & Ha)]; [by left|].
    right. exists (c :: a), x, b. split_and!; [done..|]. by constructor.
Qed.

Lemma remove_first a c b (recent : gset Z) :
  cm_MessageID c ∈ recent -> Forall (fun c => cm_MessageID c ∉ recent) a ->
  remove_child (cm_MessageID c) (a ++ c :: b) = Some (a ++ b).
Proof.
  intros Hc Ha. induction Ha as [|x a Hx Ha IH]; cbn [app remove_child].
  - by rewrite Z.eqb_refl.
  - rewrite (proj2 (Z.eqb_neq _ _)) by congruence. by rewrite IH.
Qed.

Lemma loop_separates fuel now v (recent : gset Z) m R :
  (length (m_Children m) < fuel)%nat -> wf v -> message_typed m -> m_Kind m = Container ->
  (forall id, id ∈ recent -> known_id (state v) id) ->
  (forall c, c ∈ m_Children m -> cm_MessageID c ∈ recent -> resendable now c) ->
  is_ok (Validate (fun _ => now) (with_children (filter (fun c => cm_MessageID c ∉ recent) (m_Children m)) m) v).1 = true ->
  exists v' R', validateLoop fuel (fun _ _ => now) recent v m R = Ok (v', R') /\
    forall c, c ∈ m_Children m -> cm_MessageID c ∈ R' <-> cm_MessageID c ∈ R \/ cm_MessageID c ∈ recent.
Proof.
  intros Hf Hwf. revert m R Hf. induction fuel as [|fuel IH]; intros m R Hf Hty Hk Hkn Hres Hok; [lia|].
  destruct (split_first recent (m_Children m)) as [Hall|(a & c & b & Hcs & Hc & Ha)].
  - rewrite Hall in Hok. assert (with_children (m_Children m) m = m) as Hm by by destruct m. rewrite Hm in Hok.
    cbn [validateLoop]. destruct (Validate _ m v) as [[[]|] v']; [|done]. exists v', R. split; [done|].
    intros c Hc. rewrite <- Hall in Hc. apply list_elem_of_filter in Hc as [Hc _]. naive_solver.
  - assert (Hfil : filter (fun c => cm_MessageID c ∉ recent) (m_Children m) = a ++ filter (fun c => cm_MessageID c ∉ recent) b).
    { rewrite Hcs, filter_app, filter_cons_False by auto. f_equal. apply filter_keep_all. by apply Forall_forall. }
    rewrite Hfil in Hok.
    destruct (first_replay now v m a c b recent) as (e & Hv & Hid & Hcause & Hne); try done.
    { by apply Hkn. } { apply Hres; [rewrite Hcs; set_solver|done]. }
    cbn [validateLoop]. rewrite Hv, Hk, Hcause, Hid. change (Container =? Container) with true.
    rewrite !bool_decide_eq_true_2 by done. rewrite (proj2 (Z.eqb_neq _ _)) by congruence. cbn [negb orb].
    rewrite Hcs, (remove_first a c b recent) by done.
    destruct (IH (with_children (a ++ b) m) ({[cm_MessageID c]} ∪ R)) as (v' & R' & Hl & Hin); cbn [m_Children with_children m_Kind]; try done.
    + rewrite Hcs, length_app in Hf. cbn in Hf. rewrite length_app. lia.
    + split; [apply Hty|]. cbn. intros x Hx. apply Hty. rewrite Hcs. set_solver.
    + intros x Hx. apply Hres. rewrite Hcs. set_solver.
    + rewrite filter_app, (filter_keep_all _ a) by (by apply Forall_forall). exact Hok.
    + exists v', R'. split; [exact Hl|]. intros x Hx. apply validateLoop_spec in Hl as (Hsub & _).
      assert (x = c \/ x ∈ a ++ b) as [->|Hab] by (clear -Hx; set_solver).
      * split; [by right|]. intros _. apply Hsub. clear. set_solver.
      * rewrite (Hin x Hab), elem_of_union, elem_of_singleton. clear -Hc.
        split; [intros [[->|]|]; auto|intros [?|?]; auto].
Qed.

Lemma filter_agree (P Q : Z -> Prop) `{!forall x, Decision (P x)} `{!forall x, Decision (Q x)} (l : list Z) :
  (forall x, x ∈ l -> P x <-> Q x) -> filter P l = filter Q l.
Proof.
  induction l as [|x l IH]; intros Hpq; [done|]. rewrite !filter_cons, IH by (intros; apply Hpq; by right).
  pose proof (Hpq x ltac:(left)). by repeat case_decide; try tauto.
Qed.

Lemma filter_repeated (R : gset Z) (os : list InboundMessage) :
  im_MessageID <$> filter (fun m => im_Retransmission m = true)
    ((fun m => set_Retransmission (bool_decide (im_MessageID m ∈ R)) m) <$> os) =
  filter (fun id => id ∈ R) (im_MessageID <$> os).
Proof.
  induction os as [|m os IH]; [done|]. cbn [fmap list_fmap]. rewrite !filter_cons. cbn [im_Retransmission set_Retransmission].
  destruct (decide (im_MessageID m ∈ R)).
  - rewrite bool_decide_eq_true_2 by done. rewrite decide_True by done. cbn. by rewrite IH.
  - rewrite bool_decide_eq_false_2 by done. by rewrite decide_False.
Qed.

Lemma validate_has_fuel limits clock sn inner : SessionValidator_Validate limits clock sn inner <> Err InbFuel.
Proof.
  unfold SessionValidator_Validate. case_match; [done|]. unfold mbind, result_bind.
  destruct (NewDecodeBudget limits) as [b|]; cbn [map_err]; [|done].
  destruct (classifyProtocolMessage inner b) as [[[m os] b']|e] eqn:Ec.
  - unfold newProtocolValidator. destruct (NewValidator _) as [v|]; cbn [map_err]; [|done].
    pose proof (validateLoop_fuel (S (length (m_Children m))) clock (list_to_set (sn_RecentClientMsgIDs sn)) v m ∅ ltac:(lia)) as Hl.
    destruct (validateLoop _ _ _ _ _ _) as [[v' R]|e]; [done|]. congruence.
  - unfold classifyProtocolMessage in Ec. case_match; [done|]. destruct (read_container _) as [[ms|] r]; [|congruence].
    case_match; [congruence|]. unfold mbind, result_bind in Ec.
    assert (Hc : forall b, classifyChildren ms b <> Err InbFuel).
    { clear. intros b. induction ms as [|c ms IH]; [done|]. cbn [classifyChildren]. case_match; [done|].
      unfold mbind, result_bind. destruct (classifyChildren ms b); [done|]. congruence. }
    specialize (Hc (default b (rd_budget r))). destruct (classifyChildren _ _); [done|]. congruence.
Qed.

(** ** What a snapshot remembers *)

(** Nothing enters the memory of ids but what it held and the ids it is given. *)
Lemma remember_recent id limit s x : x ∈ recentIDs (rememberMessageID id limit s) -> x ∈ recentIDs s \/ x = id.
Proof.
  unfold rememberMessageID. set (s1 := if len (recentIDs s) =? limit then _ else _).
  assert (H1 : x ∈ recentIDs s1 -> x ∈ recentIDs s).
  { unfold s1. destruct (_ =? limit); [|done]. cbn [recentIDs set_ids]. unfold remove_at. rewrite elem_of_app.
    intros [H|H]; (eapply elem_of_sublist; [exact H|]); [apply sublist_take|apply sublist_drop]. }
  destruct (id <=? _); [auto|]. cbn [recentIDs set_ids]. rewrite elem_of_app, list_elem_of_singleton. intros [H|H]; auto.
Qed.

Lemma restore_recent limit ids s x : x ∈ recentIDs (foldl (restore_id limit) s ids) -> x ∈ recentIDs s \/ x ∈ ids.
Proof.
  revert s. induction ids as [|i ids IH]; intros s; cbn [foldl]; [by left|]. intros [H|H]%IH; [|by right; right].
  revert H. unfold restore_id. destruct (_ <=? _); [by left|]. case_bool_decide; [by left|].
  assert (H1 : x ∈ recentIDs (rememberMessageID i limit s) -> x ∈ recentIDs s \/ x ∈ i :: ids).
  { intros [H1| ->]%remember_recent; [by left|right; left]. }
  destruct (_ <? i); exact H1.
Qed.

Lemma NewValidator_recent c v x : NewValidator c = Ok v -> x ∈ recentIDs (state v) -> x ∈ cfg_RecentMessageIDs c.
Proof.
  intros H. unfold NewValidator in H. set (limit := if cfg_RecentMessageIDLimit c =? 0 then _ else _) in H.
  set (slimit := if cfg_ContentSequenceLimit c =? 0 then _ else _) in H. cbv zeta in H.
  destruct (_ || _) in H; [done|]. destruct (_ || _) in H; [done|]. destruct (_ || _) in H; [done|]. injection H as <-. cbn [state].
  assert (Hs : forall ns s, recentIDs (foldl (restore_seq slimit) s ns) = recentIDs s).
  { intros ns. induction ns as [|n ns IH]; intros s; [done|]. cbn [foldl]. rewrite IH. apply restore_seq_ids. }
  unfold pruneSequenceNos. cbn [recentIDs set_seqs]. rewrite Hs. intros [H|H]%restore_recent; [|done]. by apply elem_of_nil in H.
Qed.

Lemma validateOne_recent now v s id n kind s' x :
  validateOne now v s id n kind = Ok s' -> x ∈ recentIDs s' -> x ∈ recentIDs s \/ x = id.
Proof.
  unfold validateOne. destruct (negb _); [done|]. unfold mbind, result_bind. destruct (validateMessageID _ _ _ _); [|done].
  destruct (validateSequenceNo _ _ _ _ _); [|done]. intros [= <-]. rewrite record_one_eq. intros [H|H]%remember_recent; [|by right].
  left. revert H. unfold record_seq, pruneSequenceNos, rememberSequenceNo. by repeat (case_match; cbn).
Qed.

Lemma validateChildren_recent clock v children s s' x :
  validateChildren clock v s children = Ok s' -> x ∈ recentIDs s' -> x ∈ recentIDs s \/ x ∈ cm_MessageID <$> children.
Proof.
  revert clock s. induction children as [|c children IH]; intros clock s; cbn [validateChildren]; [intros [= <-]; by left|].
  destruct (_ || _); [done|]. unfold mbind, result_bind. destruct (validateOne _ _ _ _ _ _) as [s1|] eqn:E; [|done].
  intros H Hx. destruct (IH _ _ H Hx) as [H1|H1]; [|by right; right].
  destruct (validateOne_recent _ _ _ _ _ _ _ _ E H1) as [H2| ->]; [by left|right; left].
Qed.

Lemma Validate_recent clock m v v' x :
  wf v -> Validate clock m v = (Ok tt, v') -> x ∈ recentIDs (state v') -> x ∈ recentIDs (state v) \/ x ∈ message_ids m.
Proof.
  intros Hwf. unfold Validate. rewrite clone_id by done. destruct (validateEnvelope _ _ _ _) as [s|] eqn:E; [|done]. intros [= <-]. cbn [state set_state].
  unfold validateEnvelope in E. destruct (_ || _); [done|]. destruct (negb (_ =? _)); [done|]. destruct (_ && _); [done|].
  unfold mbind, result_bind in E. destruct (validateOne _ _ _ _ _ _) as [s1|] eqn:E1; [|done]. unfold message_ids.
  assert (Hset : forall s0, x ∈ recentIDs (if sessionID s0 =? 0 then set_session (m_SessionID m) s0 else s0) -> x ∈ recentIDs s0)
    by (intros s0; by destruct (_ =? 0)).
  destruct (m_Kind m =? Container).
  - destruct (validateChildren _ _ _ _) as [s2|] eqn:E2; [|done]. injection E as <-. intros Hx%Hset.
    destruct (validateChildren_recent _ _ _ _ _ _ E2 Hx) as [H|H]; [|by right; right].
    destruct (validateOne_recent _ _ _ _ _ _ _ _ E1 H) as [H1| ->]; [by left|right; left].
  - injection E as <-. intros Hx%Hset. destruct (validateOne_recent _ _ _ _ _ _ _ _ E1 Hx) as [H1| ->]; [by left|right; left].
Qed.

(** The ids an accepted envelope carried for the first time: its own and those of its fresh messages. *)
Definition carried_ids (vi : ValidatedInbound) : list Z := vi_OuterMessageID vi :: fresh_ids vi.

Lemma validated_recent limits clock sn inner vi x :
  inS 32 (sn_SeqNo sn) -> inS 32 (SeqNo inner) -> SessionValidator_Validate limits clock sn inner = Ok vi ->
  x ∈ sn_RecentClientMsgIDs (vi_Snapshot vi) -> x ∈ sn_RecentClientMsgIDs sn \/ x ∈ carried_ids vi.
Proof.
  intros Hsn Ht. unfold SessionValidator_Validate. case_match; [done|]. unfold mbind, result_bind.
  destruct (map_err InbDecode (NewDecodeBudget limits)) as [b|]; [|done].
  destruct (classifyProtocolMessage inner b) as [[[m os] b']|] eqn:Ec; [|done].
  apply classify_spec in Ec as (_ & Hm & _ & Hids); [|done].
  destruct (newProtocolValidator sn) as [v|] eqn:Ev; [|done].
  destruct (validateLoop _ _ _ _ _ _) as [[v' R]|] eqn:El; [|done]. intros [= <-]. cbn [vi_Snapshot sn_RecentClientMsgIDs validated_snapshot Snapshot_of sn_RecentMessageIDs].
  apply validateLoop_spec in El as (_ & Hsup & _ & m' & clock' & Hval & (Hm' & _ & Hin & _)).
  assert (Hv : NewValidator (protocol_config sn) = Ok v)
    by (unfold newProtocolValidator in Ev; destruct (NewValidator _); cbn in Ev; congruence).
  intros Hx. destruct (Validate_recent _ _ _ _ _ (NewValidator_ok (protocol_config sn) v Hsn Hv) Hval Hx) as [H1|H1].
  { left. by apply (NewValidator_recent _ _ _ Hv) in H1. }
  unfold message_ids in H1. unfold carried_ids. cbn [vi_OuterMessageID]. rewrite elem_of_cons in H1. destruct H1 as [->|H1].
  { right. apply elem_of_cons. left. by rewrite Hm', Hm. }
  unfold fresh_ids. cbn [vi_Messages]. rewrite filter_flagged, Hids. assert (Hk : m_Kind m' = m_Kind m) by by rewrite Hm'. rewrite Hk in H1.
  destruct (m_Kind m =? Container); [|by apply elem_of_nil in H1]. apply list_elem_of_fmap in H1 as (c & -> & Hc).
  destruct (decide (cm_MessageID c ∈ R)) as [HR|HR].
  - left. apply Hsup in HR. rewrite elem_of_union, elem_of_list_to_set in HR. destruct HR as [HR|HR]; [set_solver|done].
  - right. right. apply list_elem_of_filter. split; [done|]. apply list_elem_of_fmap_2. by apply Hin.
Qed.

(** ** Sessions *)

(** A session's life: each accepted envelope's snapshot is saved before the next.  The
    accepted envelopes and the snapshot at the end. *)
Fixpoint session_run (limits : DecodeLimits) (inputs : list ((nat -> nat -> Z) * InnerData)) (sn : Session.Snapshot)
  : list ValidatedInbound * Session.Snapshot :=
  match inputs with
  | [] => ([], sn)
  | (clock, inner) :: inputs' =>
      match SessionValidator_Validate limits clock sn inner with
      | Err _ => session_run limits inputs' sn
      | Ok vi => let '(vis, sn') := session_run limits inputs' (vi_Snapshot vi) in (vi :: vis, sn')
      end
  end.

(** The message ids handed to dispatch as new, in order. *)
Definition dispatched (vis : list ValidatedInbound) : list Z := concat (map fresh_ids vis).

Lemma session_run_fresh limits inputs sn v :
  inS 32 (sn_SeqNo sn) -> newProtocolValidator sn = Ok v -> Forall (fun i => inS 32 (SeqNo i.2)) inputs ->
  NoDup (dispatched (session_run limits inputs sn).1) /\
  (forall id, id ∈ dispatched (session_run limits inputs sn).1 -> ~ known_id (state v) id).
Proof.
  intros Hsn Hv Hin. revert sn v Hsn Hv.
  induction Hin as [|[clock inner] inputs Ht Hin IH]; intros sn v Hsn Hv; cbn [session_run].
  { split; [constructor|]. by intros id ?%elem_of_nil. }
  destruct (SessionValidator_Validate limits clock sn inner) as [vi|] eqn:E; [|by apply IH].
  destruct (Validate_step _ _ _ _ _ Hsn Ht E) as (v0 & v1 & [Hb Ha Hnd Hfr Hmono _ Hty]).
  rewrite Hv in Hb. injection Hb as <-. destruct (IH _ v1 Hty Ha) as [Hnd' Hfr'].
  destruct (session_run limits inputs (vi_Snapshot vi)) as [vis sn']. unfold dispatched. cbn [fst map concat] in *. split.
  - apply (NoDup_app_fresh (known_id (state v1))); try done. intros x Hx. by apply Hfr.
  - intros id [Hid|Hid]%elem_of_app; [by apply Hfr|]. intros Hk. by apply (Hfr' id Hid), Hmono.
Qed.

Lemma session_run_repeated limits inputs sn before vi after id :
  inS 32 (sn_SeqNo sn) -> Forall (fun i => inS 32 (SeqNo i.2)) inputs ->
  (session_run limits inputs sn).1 = before ++ vi :: after -> id ∈ repeated_ids vi ->
  id ∈ sn_RecentClientMsgIDs sn \/ exists w, w ∈ before /\ id ∈ carried_ids w.
Proof.
  intros Hsn Hin. revert sn before Hsn. induction Hin as [|[clock inner] inputs Ht Hin IH]; intros sn before Hsn; cbn [session_run].
  { by destruct before. }
  destruct (SessionValidator_Validate limits clock sn inner) as [w|] eqn:E; [|by apply IH].
  destruct (Validate_step _ _ _ _ _ Hsn Ht E) as (v0 & v1 & [_ _ _ _ _ Hr Hty]).
  specialize (IH (vi_Snapshot w)). destruct (session_run limits inputs (vi_Snapshot w)) as [vis sn']. cbn [fst] in *.
  destruct before as [|w' before]; cbn [app]; intros [= -> ->] Hid; [by left; apply Hr|].
  destruct (IH before Hty eq_refl Hid) as [H|(u & Hu & Hid')]; [|right; exists u; split; [by right|done]].
  destruct (validated_recent _ _ _ _ _ _ Hsn Ht E H) as [H1|H1]; [by left|]. right. exists w'. split; [by left|done].
Qed.

(** * Properties *)

(** C5. Exactly-once dispatch over a session's life: however the frames of a client
    arrive, repeated, reordered or repacked in containers, and whatever the clock
    says, the message ids handed to dispatch as new are pairwise distinct and none
    of them was known to the snapshot the session started from, although the
    snapshots remember a bounded number of ids; the id of a message marked as a
    retransmission was remembered by that snapshot, or an envelope accepted before carried
    it, as its own id or as that of a message it dispatched; and the validation loop
    always ends with its own answer. *)
Theorem dispatch_exactly_once (limits : DecodeLimits) (inputs : list ((nat -> nat -> Z) * InnerData))
    (sn : Session.Snapshot) (v : Validator) :
  inS 32 (sn_SeqNo sn) -> newProtocolValidator sn = Ok v -> Forall (fun i => inS 32 (SeqNo i.2)) inputs ->
  NoDup (dispatched (session_run limits inputs sn).1) /\
  (forall id, id ∈ dispatched (session_run limits inputs sn).1 -> ~ known_id (state v) id) /\
  (forall before vi after, (session_run limits inputs sn).1 = before ++ vi :: after ->
     forall id, id ∈ repeated_ids vi ->
     id ∈ sn_RecentClientMsgIDs sn \/ exists w, w ∈ before /\ (id = vi_OuterMessageID w \/ id ∈ fresh_ids w)) /\
  (forall clock sn' inner, SessionValidator_Validate limits clock sn' inner <> Err InbFuel).
Proof.
  intros Hsn Hv Hin. destruct (session_run_fresh limits inputs sn v Hsn Hv Hin) as [Hnd Hfr]. split_and!; [done..| |intros; apply validate_has_fuel].
  intros before vi after Heq id Hid. destruct (session_run_repeated _ _ _ _ _ _ _ Hsn Hin Heq Hid) as [H|(w & Hw & Hc)]; [by left|].
  right. exists w. split; [done|]. by apply elem_of_cons.
Qed.

(** Retransmissions do not hold up fresh messages: a container whose remembered
    children are well-formed and recent, and whose other children would be accepted
    on their own, is accepted; exactly the remembered children are marked as
    retransmissions and exactly the others are fresh, all in their order. *)
Lemma container_replays_separated (limits : DecodeLimits) (now : Z) (sn : Session.Snapshot) (inner : InnerData)
    (b b' : DecodeBudget) (m : Validator.Message) (os : list InboundMessage) (v : Validator) :
  let recent : gset Z := list_to_set (sn_RecentClientMsgIDs sn) in
  let ids := cm_MessageID <$> m_Children m in
  4 <= len (Data inner) -> NewDecodeBudget limits = Ok b -> classifyProtocolMessage inner b = Ok (m, os, b') ->
  inS 32 (sn_SeqNo sn) -> inS 32 (SeqNo inner) -> m_Kind m = Container -> newProtocolValidator sn = Ok v ->
  (forall c, c ∈ m_Children m -> cm_MessageID c ∈ recent -> resendable now c) ->
  is_ok (Validate (fun _ => now) (with_children (filter (fun c => cm_MessageID c ∉ recent) (m_Children m)) m) v).1 = true ->
  exists vi, SessionValidator_Validate limits (fun _ _ => now) sn inner = Ok vi /\
    im_MessageID <$> vi_Messages vi = ids /\
    fresh_ids vi = filter (fun id => id ∉ recent) ids /\ repeated_ids vi = filter (fun id => id ∈ recent) ids.
Proof.
  intros recent ids Hlen Hb Hc Hsn Ht Hk Hv Hres Hok. destruct (classify_spec _ _ _ _ _ Ht Hc) as (Hty & _ & _ & Hids).
  rewrite Hk in Hids. change (Container =? Container) with true in Hids. cbn [negb] in Hids. fold ids in Hids.
  assert (Hv' : NewValidator (protocol_config sn) = Ok v)
    by (unfold newProtocolValidator in Hv; destruct (NewValidator _); cbn in Hv; congruence).
  destruct (loop_separates (S (length (m_Children m))) now v recent m ∅) as (v' & R & Hl & HR); try done; [lia|..].
  { by apply (NewValidator_ok (protocol_config sn)). }
  { intros id Hid. apply (NewValidator_known (protocol_config sn)); [done|]. by apply elem_of_list_to_set in Hid. }
  assert (HR' : forall id, id ∈ ids -> id ∈ R <-> id ∈ recent).
  { intros id (c & -> & Hcin)%list_elem_of_fmap. rewrite (HR c Hcin). set_solver. }
  eexists. split.
  { unfold SessionValidator_Validate. rewrite (proj2 (Z.ltb_ge _ _)) by done. rewrite Hb. cbn [map_err mbind result_bind].
    rewrite Hc. cbn [mbind result_bind]. rewrite Hv. cbn [mbind result_bind]. fold recent. rewrite Hl. done. }
  unfold fresh_ids, repeated_ids. cbn [vi_Messages]. rewrite filter_flagged, filter_repeated, Hids. split_and!.
  - rewrite <- list_fmap_compose. exact Hids.
  - apply filter_agree. intros id Hid. by rewrite HR'.
  - apply filter_agree. intros id Hid. by rewrite HR'.
Qed.

(** * Witnesses *)

Definition query : bytes := [x01; x02; x03; x04].

Definition single (k n : Z) : InnerData :=
  {| Salt := 0; Crypto.SessionID := 7; MsgID := sample_id k; SeqNo := n; Data := query |}.

Definition container (k n : Z) (children : list (Z * Z)) : InnerData :=
  {| Salt := 0; Crypto.SessionID := 7; MsgID := sample_id k; SeqNo := n;
     Data := encode (OMsgContainer ((fun c => {| m_MsgID := sample_id c.1; m_SeqNo := c.2; m_Bytes := 4;
                                                  m_Body := None; m_BodyRaw := query |}) <$> children)) |}.

Definition started : Session.Snapshot :=
  (session_run zeroLimits [(fun _ _ => sample_now, single 1 1)] zero_Snapshot).2.

Lemma dispatch_exactly_once_witness :
  dispatched (session_run zeroLimits [(fun _ _ => sample_now, single 1 1); (fun _ _ => sample_now, single 1 1);
     (fun _ _ => sample_now, container 4 4 [(1, 1); (3, 3)])] zero_Snapshot).1 = [sample_id 1; sample_id 3] /\
  NoDup [sample_id 1; sample_id 3].
Proof.
  assert (E : dispatched (session_run zeroLimits [(fun _ _ => sample_now, single 1 1); (fun _ _ => sample_now, single 1 1);
     (fun _ _ => sample_now, container 4 4 [(1, 1); (3, 3)])] zero_Snapshot).1 = [sample_id 1; sample_id 3])
    by (vm_compute; reflexivity).
  split; [exact E|]. rewrite <- E.
  destruct (newProtocolValidator zero_Snapshot) as [v|] eqn:Ev; [|vm_compute in Ev; discriminate Ev].
  apply (dispatch_exactly_once zeroLimits [(fun _ _ => sample_now, single 1 1); (fun _ _ => sample_now, single 1 1);
     (fun _ _ => sample_now, container 4 4 [(1, 1); (3, 3)])] zero_Snapshot v).
  - clear. by vm_compute.
  - exact Ev.
  - clear. repeat constructor; by vm_compute.
Defined.

Lemma container_replays_separated_witness :
  exists vi, SessionValidator_Validate zeroLimits (fun _ _ => sample_now) started (container 4 4 [(1, 1); (3, 3)]) = Ok vi /\
    fresh_ids vi = [sample_id 3] /\ repeated_ids vi = [sample_id 1].
Proof.
  destruct (NewDecodeBudget zeroLimits) as [b|] eqn:Eb; [|vm_compute in Eb; discriminate Eb].
  destruct (classifyProtocolMessage (container 4 4 [(1, 1); (3, 3)]) b) as [[[m os] b']|] eqn:Ec;
    [|injection Eb as <-; vm_compute in Ec; discriminate Ec].
  destruct (newProtocolValidator started) as [v|] eqn:Ev; [|vm_compute in Ev; discriminate Ev].
  assert (Hm : m_Children m = [{| cm_MessageID := sample_id 1; cm_SequenceNo := 1; cm_Kind := ContentRelated |};
                               {| cm_MessageID := sample_id 3; cm_SequenceNo := 3; cm_Kind := ContentRelated |}] /\
               m_Kind m = Container /\ is_ok (Validate (fun _ => sample_now) (with_children
                 (filter (fun c => cm_MessageID c ∉ (list_to_set (sn_RecentClientMsgIDs started) : gset Z)) (m_Children m)) m) v).1 = true).
  { injection Eb as <-. vm_compute in Ec. injection Ec as <- <- <-. vm_compute in Ev. injection Ev as <-. by vm_compute. }
  destruct Hm as (Hcs & Hk & Hok).
  destruct (container_replays_separated zeroLimits sample_now started (container 4 4 [(1, 1); (3, 3)]) b b' m os v)
    as (vi & Hv & _ & Hf & Hr).
  - clear. by vm_compute.
  - exact Eb.
  - exact Ec.
  - clear. by vm_compute.
  - clear. by vm_compute.
  - exact Hk.
  - exact Ev.
  - intros c Hc _. rewrite Hcs in Hc. clear -Hc. repeat (apply elem_of_cons in Hc as [->|Hc]; [by vm_compute|]). by apply elem_of_nil in Hc.
  - exact Hok.
  - exists vi. split; [exact Hv|]. rewrite Hf, Hr, Hcs. clear. split; by vm_compute.
Defined.
