(* ===== verification/Registry.v ===== *)
(** The registry of session reliability state (internal/runtime/reliability_registry.go):
    one outbound store and one inbound ledger per session, shared by every connection
    of the session through reference-counted handles, kept while idle for the
    retention period and evicted oldest first.

    Entries are Go objects held by pointer, also by handles of entries that left the
    map: the heap [rg_heap] holds them and a pointer is an index into it.  Each method
    runs under the registry's mutex, so an event is one method call. *)

From stdpp Require Import base numbers list gmap strings.
From S2P Require Import Prelude Session Reliability Contracts InboundState.
Open Scope Z_scope.

Inductive registry_error :=
| ErrInvalidReliabilitySessionCapacity
| ErrInvalidReliabilityMessageCapacity
| ErrInvalidReliabilityTTL
| ReliabilityCapacityError (MaxSessions : Z)
| RegStore (e : store_error)
| RegLedger (e : ledger_error).

Record reliabilityRegistryEntry := {
  en_outbound : Reliability.Store;
  en_inbound : InboundStateLedger;
  en_refs : Z;
  en_idleAt : Z;
  en_idleOrder : Z
}.

Record ReliabilityRegistry := {
  rg_maxSessions : Z;
  rg_messageCapacity : Z;
  rg_ttl : Z;
  rg_order : Z;
  rg_entries : gmap SessionKey nat;
  rg_heap : list reliabilityRegistryEntry
}.

Record ReliabilityHandle := { hd_key : SessionKey; hd_entry : nat; hd_released : bool }.

Definition NewReliabilityRegistry (maxSessions messageCapacity ttl : Z) : result registry_error ReliabilityRegistry :=
  if maxSessions <=? 0 then Err ErrInvalidReliabilitySessionCapacity
  else if messageCapacity <=? 0 then Err ErrInvalidReliabilityMessageCapacity
  else if ttl <=? 0 then Err ErrInvalidReliabilityTTL
  else Ok {| rg_maxSessions := maxSessions; rg_messageCapacity := messageCapacity; rg_ttl := ttl; rg_order := 0;
             rg_entries := ∅; rg_heap := [] |}.

Definition set_rg_entries (m : gmap SessionKey nat) (r : ReliabilityRegistry) : ReliabilityRegistry :=
  {| rg_maxSessions := rg_maxSessions r; rg_messageCapacity := rg_messageCapacity r; rg_ttl := rg_ttl r;
     rg_order := rg_order r; rg_entries := m; rg_heap := rg_heap r |}.

Definition set_rg_heap (h : list reliabilityRegistryEntry) (r : ReliabilityRegistry) : ReliabilityRegistry :=
  {| rg_maxSessions := rg_maxSessions r; rg_messageCapacity := rg_messageCapacity r; rg_ttl := rg_ttl r;
     rg_order := rg_order r; rg_entries := rg_entries r; rg_heap := h |}.

Definition set_rg_order (o : Z) (r : ReliabilityRegistry) : ReliabilityRegistry :=
  {| rg_maxSessions := rg_maxSessions r; rg_messageCapacity := rg_messageCapacity r; rg_ttl := rg_ttl r;
     rg_order := o; rg_entries := rg_entries r; rg_heap := rg_heap r |}.

Definition set_refs (n : Z) (e : reliabilityRegistryEntry) : reliabilityRegistryEntry :=
  {| en_outbound := en_outbound e; en_inbound := en_inbound e; en_refs := n; en_idleAt := en_idleAt e;
     en_idleOrder := en_idleOrder e |}.

Definition set_idle (at_ order : Z) (e : reliabilityRegistryEntry) : reliabilityRegistryEntry :=
  {| en_outbound := en_outbound e; en_inbound := en_inbound e; en_refs := en_refs e; en_idleAt := at_;
     en_idleOrder := order |}.

(** * Operations *)

(** Whether the entry survives [expireIdleLocked] at [now]. *)
Definition stays (r : ReliabilityRegistry) (now : Z) (p : nat) : bool :=
  match rg_heap r !! p with
  | Some e => negb ((en_refs e =? 0) && negb (now <? en_idleAt e + rg_ttl r))
  | None => true
  end.

(** Deleting while ranging visits every entry once: the order is immaterial. *)
Definition expireIdleLocked (now : Z) (r : ReliabilityRegistry) : ReliabilityRegistry :=
  set_rg_entries (filter (fun kp => stays r now kp.2 = true) (rg_entries r)) r.

Definition idler (a b : reliabilityRegistryEntry) : bool :=
  (en_idleAt a <? en_idleAt b) || ((en_idleAt a =? en_idleAt b) && (en_idleOrder a <? en_idleOrder b)).

(** The pass for the candidate, in the order [items] in which Go visits the map. *)
Definition oldest_idle (h : list reliabilityRegistryEntry) (items : list (SessionKey * nat))
  : option (SessionKey * reliabilityRegistryEntry) :=
  foldl (fun candidate item =>
    match h !! item.2 with
    | None => candidate
    | Some e =>
        if negb (en_refs e =? 0) then candidate
        else match candidate with
             | None => Some (item.1, e)
             | Some c => if idler e c.2 then Some (item.1, e) else candidate
             end
    end) None items.

Definition evictOldestIdleLocked (r : ReliabilityRegistry) : bool * ReliabilityRegistry :=
  match oldest_idle (rg_heap r) (map_to_list (rg_entries r)) with
  | None => (false, r)
  | Some (k, _) => (true, set_rg_entries (delete k (rg_entries r)) r)
  end.

(** The pointer of the handle Acquire returns. *)
Definition Acquire (now : Z) (key : SessionKey) : ST ReliabilityRegistry registry_error nat := fun r =>
  let r := expireIdleLocked now r in
  match rg_entries r !! key with
  | Some p => (Ok p, set_rg_heap (alter (fun e => set_refs (en_refs e + 1) e) p (rg_heap r)) r)
  | None =>
      let full := Z.of_nat (size (rg_entries r)) =? rg_maxSessions r in
      let '(room, r) := if full then evictOldestIdleLocked r else (true, r) in
      if negb room then (Err (ReliabilityCapacityError (rg_maxSessions r)), r)
      else
        match Reliability.New {| sc_Capacity := rg_messageCapacity r; sc_TTL := rg_ttl r |} with
        | Err e => (Err (RegStore e), r)
        | Ok outbound =>
            match NewInboundStateLedger (rg_messageCapacity r) (rg_ttl r) with
            | Err e => (Err (RegLedger e), r)
            | Ok inbound =>
                let entry := {| en_outbound := outbound; en_inbound := inbound; en_refs := 1; en_idleAt := zeroTime;
                                en_idleOrder := 0 |} in
                let p := length (rg_heap r) in
                (Ok p, set_rg_entries (<[key := p]> (rg_entries r)) (set_rg_heap (rg_heap r ++ [entry]) r))
            end
        end
  end.

Definition release (now : Z) (key : SessionKey) (acquired : nat) (r : ReliabilityRegistry) : ReliabilityRegistry :=
  match rg_entries r !! key with
  | None => r
  | Some p =>
      match rg_heap r !! p with
      | None => r
      | Some e =>
          if negb (Nat.eqb p acquired) || (en_refs e =? 0) then r
          else
            let r := set_rg_heap (alter (set_refs (en_refs e - 1)) p (rg_heap r)) r in
            if negb (en_refs e - 1 =? 0) then r
            else
              let r := set_rg_order (uint64 (rg_order r + 1)) r in
              set_rg_heap (alter (set_idle now (rg_order r)) p (rg_heap r)) r
      end
  end.

(** * Runs *)

Record world := { wd_registry : ReliabilityRegistry; wd_handles : list ReliabilityHandle }.

(** Using a handle's stores changes them in place. *)
Inductive event :=
| EvAcquire (now : Z) (key : SessionKey)
| EvRelease (now : Z) (handle : nat)
| EvUse (handle : nat) (outbound : Reliability.Store -> Reliability.Store)
        (inbound : InboundStateLedger -> InboundStateLedger).

Definition use_entry (f : Reliability.Store -> Reliability.Store) (g : InboundStateLedger -> InboundStateLedger)
    (e : reliabilityRegistryEntry) : reliabilityRegistryEntry :=
  {| en_outbound := f (en_outbound e); en_inbound := g (en_inbound e); en_refs := en_refs e;
     en_idleAt := en_idleAt e; en_idleOrder := en_idleOrder e |}.

Definition set_released (h : ReliabilityHandle) : ReliabilityHandle :=
  {| hd_key := hd_key h; hd_entry := hd_entry h; hd_released := true |}.

(** ReliabilityHandle.Release with its Once. *)
Definition step (ev : event) (w : world) : world :=
  match ev with
  | EvAcquire now key =>
      match Acquire now key (wd_registry w) with
      | (Ok p, r) => {| wd_registry := r;
                        wd_handles := wd_handles w ++ [{| hd_key := key; hd_entry := p; hd_released := false |}] |}
      | (Err _, r) => {| wd_registry := r; wd_handles := wd_handles w |}
      end
  | EvRelease now i =>
      match wd_handles w !! i with
      | Some h => if hd_released h then w
                  else {| wd_registry := release now (hd_key h) (hd_entry h) (wd_registry w);
                          wd_handles := alter set_released i (wd_handles w) |}
      | None => w
      end
  | EvUse i f g =>
      match wd_handles w !! i with
      | Some h => {| wd_registry := set_rg_heap (alter (use_entry f g) (hd_entry h) (rg_heap (wd_registry w))) (wd_registry w);
                     wd_handles := wd_handles w |}
      | None => w
      end
  end.

Definition run (evs : list event) (w : world) : world := foldl (fun w ev => step ev w) w evs.

(** * Invariant *)

Definition holds (k : SessionKey) (p : nat) (h : ReliabilityHandle) : Prop :=
  hd_released h = false /\ hd_key h = k /\ hd_entry h = p.

#[export] Instance holds_dec k p h : Decision (holds k p h) := _.

(** The live handles of an entry. *)
Definition count (k : SessionKey) (p : nat) (hs : list ReliabilityHandle) : Z := len (filter (holds k p) hs).

Record world_ok (w : world) : Prop := {
  wo_config : 0 < rg_maxSessions (wd_registry w) /\ 0 < rg_messageCapacity (wd_registry w) /\ 0 < rg_ttl (wd_registry w);
  wo_size : Z.of_nat (size (rg_entries (wd_registry w))) <= rg_maxSessions (wd_registry w);
  wo_inj : forall k k' p, rg_entries (wd_registry w) !! k = Some p -> rg_entries (wd_registry w) !! k' = Some p -> k = k';
  wo_refs : forall k p, rg_entries (wd_registry w) !! k = Some p ->
    exists e, rg_heap (wd_registry w) !! p = Some e /\ en_refs e = count k p (wd_handles w);
  wo_held : forall h, h ∈ wd_handles w -> hd_released h = false ->
    rg_entries (wd_registry w) !! hd_key h = Some (hd_entry h)
}.

Lemma count_nonneg k p hs : 0 <= count k p hs.
Proof. apply len_nonneg. Qed.

Lemma count_zero k p hs : count k p hs = 0 -> forall h, h ∈ hs -> ~ holds k p h.
Proof.
  unfold count, len. intros Hc h Hh Hk. assert (h ∈ filter (holds k p) hs) as Hin by by apply list_elem_of_filter.
  destruct (filter (holds k p) hs); [by apply elem_of_nil in Hin|]. cbn in Hc. lia.
Qed.

Lemma count_app k p hs h : count k p (hs ++ [h]) = count k p hs + (if decide (holds k p h) then 1 else 0).
Proof. unfold count. rewrite filter_app, len_app, filter_cons. by case_decide. Qed.

Lemma count_release k p hs i h :
  hs !! i = Some h -> hd_released h = false ->
  count k p (alter set_released i hs) = count k p hs - (if decide (holds k p h) then 1 else 0).
Proof.
  intros Hi Hr. pose proof (take_drop_middle hs i h Hi) as Hs.
  assert (alter set_released i hs = take i hs ++ set_released h :: drop (S i) hs) as ->.
  { rewrite <- Hs at 1. rewrite alter_app_r_alt by (rewrite length_take; pose proof (lookup_lt_Some _ _ _ Hi); lia).
    rewrite length_take, Nat.min_l by (pose proof (lookup_lt_Some _ _ _ Hi); lia). by rewrite Nat.sub_diag. }
  assert (count k p hs = count k p (take i hs ++ h :: drop (S i) hs)) as -> by by rewrite Hs. unfold count. rewrite !filter_app, !len_app, !filter_cons.
  rewrite (decide_False (P := holds k p (set_released h))) by (intros [? _]; done).
  case_decide; rewrite ?len_cons; lia.
Qed.

(** Removing entries without handles. *)
Lemma drop_entries_ok w m :
  world_ok w -> m ⊆ rg_entries (wd_registry w) ->
  (forall k p, rg_entries (wd_registry w) !! k = Some p -> m !! k = None ->
     exists e, rg_heap (wd_registry w) !! p = Some e /\ en_refs e = 0) ->
  world_ok {| wd_registry := set_rg_entries m (wd_registry w); wd_handles := wd_handles w |}.
Proof.
  intros [Hcf Hs Hi Hr Hh] Hsub Hgone. split; cbn; try done.
  - apply map_subseteq_size in Hsub. lia.
  - intros k k' p H1 H2. eapply Hi; eapply lookup_weaken; eauto.
  - intros k p Hk. apply Hr. by eapply lookup_weaken.
  - intros h Hin Hrel. pose proof (Hh h Hin Hrel) as Hk. destruct (m !! hd_key h) as [q|] eqn:Em.
    + eapply lookup_weaken in Em; [|exact Hsub]. congruence.
    + destruct (Hgone _ _ Hk Em) as (e & He & H0). destruct (Hr _ _ Hk) as (e' & He' & Hc). simplify_eq.
      exfalso. eapply (count_zero (hd_key h) (hd_entry h)); [by rewrite <- Hc|exact Hin|done].
Qed.

Lemma expire_lookup now r k p :
  rg_entries (expireIdleLocked now r) !! k = Some p <-> rg_entries r !! k = Some p /\ stays r now p = true.
Proof. cbn. by rewrite map_lookup_filter_Some. Qed.

Lemma expire_world now w :
  world_ok w -> world_ok {| wd_registry := expireIdleLocked now (wd_registry w); wd_handles := wd_handles w |}.
Proof.
  intros Hok. apply drop_entries_ok; [done|apply map_filter_subseteq|]. intros k p Hk Hm.
  destruct (wo_refs _ Hok _ _ Hk) as (e & He & _). exists e. split; [done|].
  apply map_lookup_filter_None in Hm as [Hm|Hm]; [congruence|]. specialize (Hm p Hk). cbn in Hm.
  unfold stays in Hm. rewrite He in Hm. destruct (Z.eqb_spec (en_refs e) 0); [done|]. by destruct Hm.
Qed.

Definition idle_key (e : reliabilityRegistryEntry) : Z * Z := (en_idleAt e, en_idleOrder e).

Lemma idler_cut a b c : idler b c = true -> idler a c = false -> idler a b = false.
Proof.
  unfold idler. rewrite orb_true_iff, andb_true_iff, !orb_false_iff, !andb_false_iff, !Z.ltb_lt, !Z.ltb_ge, !Z.eqb_eq, !Z.eqb_neq.
  lia.
Qed.

Lemma idler_irrefl a : idler a a = false.
Proof. unfold idler. rewrite !Z.ltb_irrefl. by rewrite andb_false_r. Qed.

Lemma oldest_idle_spec h items :
  match oldest_idle h items with
  | None => forall k p e, (k, p) ∈ items -> h !! p = Some e -> en_refs e <> 0
  | Some (k, c) => en_refs c = 0 /\ (exists p, ((k, p) ∈ items) /\ h !! p = Some c) /\
      forall k' p' e, (k', p') ∈ items -> h !! p' = Some e -> en_refs e = 0 -> idler e c = false
  end.
Proof.
  induction items as [|[k p] items IH] using rev_ind.
  { cbn. by intros k p e ?%elem_of_nil. }
  unfold oldest_idle in *. rewrite foldl_app. cbn [foldl fst snd]. set (c := foldl _ None items) in *. clearbody c.
  assert (Hsplit : forall k' p', ((k', p') ∈ items ++ [(k, p)]) <-> ((k', p') ∈ items) \/ (k', p') = (k, p)) by (intros; set_solver).
  destruct (h !! p) as [e|] eqn:Ep.
  2:{ destruct c as [[kc c]|].
      - destruct IH as (H0 & (q & Hq & Hc) & Hmin). split_and!; [done|exists q; split; [apply Hsplit; auto|done]|].
        intros k' p' e' [Hin|[= -> ->]]%Hsplit; [by eapply Hmin|congruence].
      - intros k' p' e' [Hin|[= -> ->]]%Hsplit; [by eapply IH|congruence]. }
  destruct (Z.eqb_spec (en_refs e) 0) as [He|He]; cbn [negb].
  - destruct c as [[kc c]|].
    + destruct IH as (H0 & (q & Hq & Hc) & Hmin). cbn [snd]. destruct (idler e c) eqn:Ei.
      * split_and!; [done|exists p; split; [apply Hsplit; auto|done]|].
        intros k' p' e' [Hin|[= -> ->]]%Hsplit Hl Hz.
        -- eapply idler_cut; [exact Ei|by eapply Hmin].
        -- simplify_eq. apply idler_irrefl.
      * split_and!; [done|exists q; split; [apply Hsplit; auto|done]|].
        intros k' p' e' [Hin|[= -> ->]]%Hsplit Hl Hz; [by eapply Hmin|congruence].
    + split_and!; [done|exists p; split; [apply Hsplit; auto|done]|].
      intros k' p' e' [Hin|[= -> ->]]%Hsplit Hl Hz; [by destruct (IH _ _ _ Hin Hl)|].
      simplify_eq. apply idler_irrefl.
  - destruct c as [[kc c]|].
    + destruct IH as (H0 & (q & Hq & Hc) & Hmin). split_and!; [done|exists q; split; [apply Hsplit; auto|done]|].
      intros k' p' e' [Hin|[= -> ->]]%Hsplit Hl Hz; [by eapply Hmin|congruence].
    + intros k' p' e' [Hin|[= -> ->]]%Hsplit Hl; [by eapply IH|congruence].
Qed.

Lemma evict_spec r r' room :
  evictOldestIdleLocked r = (room, r') ->
  if room then exists k p c, rg_entries r !! k = Some p /\ rg_heap r !! p = Some c /\ en_refs c = 0 /\
                 r' = set_rg_entries (delete k (rg_entries r)) r /\
                 forall k' p' e, rg_entries r !! k' = Some p' -> rg_heap r !! p' = Some e -> en_refs e = 0 -> idler e c = false
  else r' = r /\ forall k p e, rg_entries r !! k = Some p -> rg_heap r !! p = Some e -> en_refs e <> 0.
Proof.
  unfold evictOldestIdleLocked. pose proof (oldest_idle_spec (rg_heap r) (map_to_list (rg_entries r))) as Hs.
  destruct (oldest_idle _ _) as [[k c]|]; intros [= <- <-].
  - destruct Hs as (H0 & (p & Hp & Hc) & Hmin). apply elem_of_map_to_list in Hp. exists k, p, c. split_and!; try done.
    intros k' p' e Hk'. apply (Hmin k'). by apply elem_of_map_to_list.
  - split; [done|]. intros k p e Hk. apply (Hs k). by apply elem_of_map_to_list.
Qed.

(** ** Every event keeps the invariant *)

Lemma alter_heap_ok w f p :
  world_ok w -> (forall e, en_refs (f e) = en_refs e) ->
  world_ok {| wd_registry := set_rg_heap (alter f p (rg_heap (wd_registry w))) (wd_registry w); wd_handles := wd_handles w |}.
Proof.
  intros [Hcf Hs Hi Hr Hh] Hf. split; cbn; try done. intros k q Hk. destruct (Hr k q Hk) as (e & He & Hc).
  destruct (decide (p = q)) as [->|Hne].
  - rewrite list_lookup_alter_eq, He. exists (f e). split; [done|]. by rewrite Hf.
  - rewrite list_lookup_alter_ne by done. eauto.
Qed.

Lemma share_ok w key p :
  world_ok w -> rg_entries (wd_registry w) !! key = Some p ->
  world_ok {| wd_registry := set_rg_heap (alter (fun e => set_refs (en_refs e + 1) e) p (rg_heap (wd_registry w))) (wd_registry w);
              wd_handles := wd_handles w ++ [{| hd_key := key; hd_entry := p; hd_released := false |}] |}.
Proof.
  intros [Hcf Hs Hi Hr Hh] Hkey. split; cbn; try done.
  - intros k q Hk. destruct (Hr k q Hk) as (e & He & Hc). rewrite count_app. destruct (decide (p = q)) as [->|Hne].
    + rewrite list_lookup_alter_eq, He. eexists. split; [done|]. cbn. rewrite Hc.
      rewrite decide_True; [done|]. split_and!; try done. cbn. by eapply Hi.
    + rewrite list_lookup_alter_ne by done. rewrite decide_False by (intros (_ & _ & ?); done). rewrite Z.add_0_r. eauto.
  - intros h [Hin|Hin]%elem_of_app Hrel; [by apply Hh|]. apply list_elem_of_singleton in Hin as ->. done.
Qed.

Lemma create_ok w key e :
  world_ok w -> rg_entries (wd_registry w) !! key = None -> en_refs e = 1 ->
  Z.of_nat (size (rg_entries (wd_registry w))) < rg_maxSessions (wd_registry w) ->
  let p := length (rg_heap (wd_registry w)) in
  world_ok {| wd_registry := set_rg_entries (<[key := p]> (rg_entries (wd_registry w)))
                               (set_rg_heap (rg_heap (wd_registry w) ++ [e]) (wd_registry w));
              wd_handles := wd_handles w ++ [{| hd_key := key; hd_entry := p; hd_released := false |}] |}.
Proof.
  intros [Hcf Hs Hi Hr Hh] Hnew He Hsz p.
  assert (Hlt : forall k q, rg_entries (wd_registry w) !! k = Some q -> (q < p)%nat).
  { intros k q Hk. destruct (Hr k q Hk) as (e' & He' & _). by apply lookup_lt_Some in He'. }
  split; cbn; try done.
  - rewrite map_size_insert, Hnew. cbn. lia.
  - intros k k' q H1 H2. apply lookup_insert_Some in H1, H2.
    destruct H1 as [[<- <-]|[? H1]], H2 as [[<- Hq]|[? H2]]; try done.
    + apply Hlt in H2. lia.
    + subst q. apply Hlt in H1. lia.
    + by eapply Hi.
  - intros k q [[<- <-]|[Hne Hk]]%lookup_insert_Some; rewrite count_app.
    + exists e. rewrite lookup_app_r by done. rewrite Nat.sub_diag. split; [done|]. rewrite decide_True by done.
      assert (count key p (wd_handles w) = 0) as ->; [|done]. unfold count.
      rewrite filter_drop_all; [done|]. intros h Hin (Hrel & Hk & Hp). apply Hh in Hrel; [|done].
      apply Hlt in Hrel. lia.
    + destruct (Hr k q Hk) as (e' & He' & Hc). exists e'. rewrite lookup_app_l by (by eapply Hlt).
      split; [done|]. rewrite decide_False by (intros (_ & ? & _); done). lia.
  - intros h [Hin|Hin]%elem_of_app Hrel.
    + rewrite lookup_insert_ne; [by apply Hh|]. intros ->. apply Hh in Hrel; [|done]. congruence.
    + apply list_elem_of_singleton in Hin as ->. cbn. by rewrite lookup_insert_eq.
Qed.

Lemma release_ok now i h w :
  world_ok w -> wd_handles w !! i = Some h -> hd_released h = false ->
  world_ok {| wd_registry := release now (hd_key h) (hd_entry h) (wd_registry w);
              wd_handles := alter set_released i (wd_handles w) |}.
Proof.
  intros Hok Hi Hrel. pose proof Hok as [Hcf Hs Hinj Hr Hh].
  pose proof (Hh h (list_elem_of_lookup_2 _ _ _ Hi) Hrel) as Hk. destruct (Hr _ _ Hk) as (e & He & Hc).
  assert (Hpos : 1 <= en_refs e).
  { rewrite Hc. pose proof (count_nonneg (hd_key h) (hd_entry h) (wd_handles w)).
    destruct (Z.eq_dec (count (hd_key h) (hd_entry h) (wd_handles w)) 0) as [H0|]; [|lia].
    exfalso. apply (count_zero _ _ _ H0 h); [by eapply list_elem_of_lookup_2|done]. }
  assert (Hheap : exists f, (forall x, en_refs (f x) = en_refs e - 1) /\ exists o,
    release now (hd_key h) (hd_entry h) (wd_registry w) =
    set_rg_order o (set_rg_heap (alter f (hd_entry h) (rg_heap (wd_registry w))) (wd_registry w))).
  { unfold release. rewrite Hk, He, Nat.eqb_refl. rewrite (proj2 (Z.eqb_neq (en_refs e) 0)) by lia. cbn [negb orb].
    destruct (Z.eqb_spec (en_refs e - 1) 0); cbn [negb].
    - exists (fun x => set_idle now (uint64 (rg_order (wd_registry w) + 1)) (set_refs (en_refs e - 1) x)). split; [done|].
      eexists. cbn. unfold set_rg_heap, set_rg_order. cbn. by rewrite list_alter_alter_eq.
    - exists (set_refs (en_refs e - 1)). split; [done|]. exists (rg_order (wd_registry w)). done. }
  destruct Hheap as (f & Hf & o & ->). split; cbn; try done.
  - intros k q Hkq. rewrite (count_release k q _ i h) by done. destruct (Hr k q Hkq) as (e' & He' & Hc').
    destruct (decide (hd_entry h = q)) as [<-|Hne].
    + assert (k = hd_key h) as -> by by eapply Hinj. rewrite list_lookup_alter_eq, He. eexists. split; [done|].
      rewrite Hf, Hc. by rewrite decide_True.
    + rewrite list_lookup_alter_ne by done. exists e'. split; [done|]. rewrite decide_False by (intros (_ & _ & ?); done). lia.
  - intros h' Hin Hrel'. apply Hh; [|done]. apply list_elem_of_lookup in Hin as [j Hj].
    destruct (decide (i = j)) as [->|Hne].
    + rewrite list_lookup_alter_eq, Hi in Hj. injection Hj as <-. done.
    + rewrite list_lookup_alter_ne in Hj by done. by eapply list_elem_of_lookup_2.
Qed.

(** What Acquire does to the state, and that it keeps the invariant. *)
Lemma Acquire_ok now key w :
  world_ok w ->
  let '(res, r) := Acquire now key (wd_registry w) in
  world_ok {| wd_registry := r;
              wd_handles := wd_handles w ++ match res with
                                            | Ok p => [{| hd_key := key; hd_entry := p; hd_released := false |}]
                                            | Err _ => [] end |}.
Proof.
  intros Hok. unfold Acquire. pose proof (expire_world now w Hok) as Hok1. set (r1 := expireIdleLocked now (wd_registry w)) in *.
  destruct (rg_entries r1 !! key) as [p|] eqn:Ek; [by apply (share_ok _ _ _ Hok1)|].
  pose proof (wo_size _ Hok1) as Hsz1. cbn [wd_registry] in Hsz1. cbv zeta.
  destruct (if _ =? _ then _ else _) as [room r2] eqn:Er.
  assert (Hr2 : world_ok {| wd_registry := r2; wd_handles := wd_handles w |} /\ rg_entries r2 !! key = None /\
                (room = true -> Z.of_nat (size (rg_entries r2)) < rg_maxSessions r2)).
  { destruct (Z.eqb_spec (Z.of_nat (size (rg_entries r1))) (rg_maxSessions r1));
      [|injection Er as <- <-; split_and!; [done..|]; intros _; lia].
    apply evict_spec in Er. destruct room.
    - destruct Er as (k & p & c & Hk & Hc & H0 & -> & _). split_and!.
      + apply (drop_entries_ok _ _ Hok1); cbn [wd_registry]; [apply delete_subseteq|]. intros k' p' Hk' Hd.
        destruct (decide (k = k')) as [->|Hne]; [|rewrite lookup_delete_ne in Hd by done; congruence].
        rewrite Hk in Hk'. injection Hk' as <-. eauto.
      + cbn. destruct (decide (k = key)) as [->|]; [by rewrite lookup_delete_eq|by rewrite lookup_delete_ne].
      + intros _. cbn [rg_entries set_rg_entries rg_maxSessions]. rewrite map_size_delete, Hk. cbn [pred].
        pose proof (wo_config _ Hok1) as (? & _). cbn [wd_registry] in *. change (rg_maxSessions (wd_registry w)) with (rg_maxSessions r1). lia.
    - destruct Er as [-> _]. by split_and!. }
  destruct Hr2 as (Hok2 & Hnone & Hsz). destruct room; cbn [negb]; [|by rewrite app_nil_r].
  pose proof (wo_config _ Hok2) as (_ & Hcap & Httl). cbn in Hcap, Httl.
  unfold New, NewInboundStateLedger. cbn. rewrite !(proj2 (Z.leb_gt _ _)) by done.
  apply (create_ok {| wd_registry := r2; wd_handles := wd_handles w |}); cbn; auto.
Qed.

Lemma step_world_ok ev w : world_ok w -> world_ok (step ev w).
Proof.
  intros Hok. destruct ev as [now key|now i|i f g]; cbn [step].
  - pose proof (Acquire_ok now key w Hok) as H. destruct (Acquire _ _ _) as [[p|e] r]; [done|by rewrite app_nil_r in H].
  - destruct (wd_handles w !! i) as [h|] eqn:Ei; [|done]. destruct (hd_released h) eqn:Er; [done|]. by apply release_ok.
  - destruct (wd_handles w !! i); [|done]. by apply alter_heap_ok.
Qed.

Lemma run_ok evs w : world_ok w -> world_ok (run evs w).
Proof. unfold run. revert w. induction evs as [|ev evs IH]; intros w Hok; [done|]. cbn. by apply IH, step_world_ok. Qed.

Lemma new_ok maxSessions messageCapacity ttl r :
  NewReliabilityRegistry maxSessions messageCapacity ttl = Ok r -> world_ok {| wd_registry := r; wd_handles := [] |}.
Proof.
  unfold NewReliabilityRegistry. repeat case_match; try done. bools. intros [= <-]. split; cbn.
  - lia.
  - rewrite map_size_empty. lia.
  - intros k k' p Hk. by rewrite lookup_empty in Hk.
  - intros k p Hk. by rewrite lookup_empty in Hk.
  - by intros h ?%elem_of_nil.
Qed.

(** * Properties *)

(** C29. A session's reliability state lives as long as anyone holds it: in every
    history of acquisitions, releases (also repeated ones) and uses, the registry
    stays within its session bound, an entry's reference count is the number of its
    handles not yet released, and every such handle's entry is still the one
    registered for its session; so all connections of a session share one store and
    one ledger, and a release always finds the entry it acquired. *)
Theorem registry_handles_safe (maxSessions messageCapacity ttl : Z) (r : ReliabilityRegistry) (evs : list event) :
  NewReliabilityRegistry maxSessions messageCapacity ttl = Ok r ->
  let w := run evs {| wd_registry := r; wd_handles := [] |} in
  Z.of_nat (size (rg_entries (wd_registry w))) <= rg_maxSessions (wd_registry w) /\
  (forall k p, rg_entries (wd_registry w) !! k = Some p ->
     exists e, rg_heap (wd_registry w) !! p = Some e /\ en_refs e = count k p (wd_handles w)) /\
  (forall h, h ∈ wd_handles w -> hd_released h = false ->
     rg_entries (wd_registry w) !! hd_key h = Some (hd_entry h) /\ 1 <= count (hd_key h) (hd_entry h) (wd_handles w)) /\
  (forall h h', h ∈ wd_handles w -> h' ∈ wd_handles w -> hd_released h = false -> hd_released h' = false ->
     hd_key h = hd_key h' <-> hd_entry h = hd_entry h').
Proof.
  intros Hnew w. assert (Hok : world_ok w) by by apply run_ok, (new_ok maxSessions messageCapacity ttl).
  destruct Hok as [_ Hs Hi Hr Hh]. split_and!; try done.
  - intros h Hin Hrel. split; [by apply Hh|]. unfold count.
    assert (h ∈ filter (holds (hd_key h) (hd_entry h)) (wd_handles w)) as Hf by by apply list_elem_of_filter.
    destruct (filter _ _) as [|x l]; [by apply elem_of_nil in Hf|]. rewrite len_cons. pose proof (len_nonneg l). lia.
  - intros h h' Hin Hin' Hrel Hrel'. pose proof (Hh h Hin Hrel) as H1. pose proof (Hh h' Hin' Hrel') as H2.
    split; intros Heq; [rewrite Heq in H1; congruence|]. rewrite Heq in H1. by eapply Hi.
Qed.

(** Acquire returns the session's existing state while it is in use or has been
    idle for less than the retention period, untouched; otherwise it creates an empty
    store and ledger, at the session bound after evicting the entry that has been
    idle longest (ties by release order) and never one in use; it fails exactly when
    the bound is reached and every entry is in use. *)
Lemma Acquire_shares_or_creates (now : Z) (key : SessionKey) (w : world) :
  world_ok w ->
  let r := wd_registry w in
  let live := filter (fun kp => stays r now kp.2 = true) (rg_entries r) in
  let idle k p c := live !! k = Some p /\ rg_heap r !! p = Some c /\ en_refs c = 0 in
  match Acquire now key r with
  | (Ok p, r') =>
      match live !! key with
      | Some q => p = q /\ rg_entries r' = live /\
          (en_outbound <$> rg_heap r' !! p) = (en_outbound <$> rg_heap r !! p) /\
          (en_inbound <$> rg_heap r' !! p) = (en_inbound <$> rg_heap r !! p)
      | None =>
          rg_heap r !! p = None /\
          (exists e, rg_heap r' !! p = Some e /\ entries (en_outbound e) = ∅ /\ l_entries (en_inbound e) = ∅ /\ en_refs e = 1) /\
          if Z.of_nat (size live) =? rg_maxSessions r
          then exists k q c, idle k q c /\ rg_entries r' = <[key := p]> (delete k live) /\
                 forall k' q' c', idle k' q' c' -> idler c' c = false
          else rg_entries r' = <[key := p]> live
      end
  | (Err e, r') =>
      e = ReliabilityCapacityError (rg_maxSessions r) /\ live !! key = None /\
      Z.of_nat (size live) = rg_maxSessions r /\ rg_entries r' = live /\
      forall k p c, live !! k = Some p -> rg_heap r !! p = Some c -> en_refs c <> 0
  end.
Proof.
  intros Hok r live idle. unfold Acquire. set (r1 := expireIdleLocked now r).
  change (rg_entries r1) with live. change (rg_maxSessions r1) with (rg_maxSessions r). change (rg_heap r1) with (rg_heap r).
  destruct (live !! key) as [q|] eqn:Ek.
  { cbn [rg_entries set_rg_heap rg_heap]. split_and!; [done|done|..]; rewrite list_lookup_alter_eq; by destruct (rg_heap r !! q). }
  cbv zeta. pose proof (wo_config _ Hok) as (_ & Hcap & Httl). fold r in Hcap, Httl.
  destruct (if _ =? _ then _ else _) as [room r2] eqn:Er.
  destruct (Z.eqb_spec (Z.of_nat (size live)) (rg_maxSessions r)) as [Hfull|Hfree].
  - apply evict_spec in Er. destruct room; cbn [negb].
    + destruct Er as (k & p & c & Hk & Hc & H0 & -> & Hmin).
      unfold New, NewInboundStateLedger. cbn. rewrite !(proj2 (Z.leb_gt _ _)) by done. cbn. split_and!.
      * apply lookup_ge_None. done.
      * eexists. split; [rewrite lookup_app_r by done; by rewrite Nat.sub_diag|done].
      * exists k, p, c. split_and!; try done.
        intros k' q' c' (Hl & Hq & Hz). by eapply Hmin.
    + destruct Er as [-> Hact]. cbn. by split_and!.
  - injection Er as <- <-. cbn [negb]. unfold New, NewInboundStateLedger. cbn. rewrite !(proj2 (Z.leb_gt _ _)) by done. cbn. split_and!.
    + apply lookup_ge_None. done.
    + eexists. split; [rewrite lookup_app_r by done; by rewrite Nat.sub_diag|done].
    + done.
Qed.

(** * Witnesses *)

Definition key_a : SessionKey := {| AuthKeyID := 1; SessionID := 1 |}.
Definition key_b : SessionKey := {| AuthKeyID := 1; SessionID := 2 |}.

Definition sample_registry : ReliabilityRegistry :=
  {| rg_maxSessions := 1; rg_messageCapacity := 4; rg_ttl := 100; rg_order := 0; rg_entries := ∅; rg_heap := [] |}.

Definition sample_history : list event := [EvAcquire 0 key_a; EvAcquire 1 key_a; EvRelease 2 0; EvRelease 3 0; EvAcquire 4 key_b].

Lemma registry_handles_safe_witness :
  wd_handles (run sample_history {| wd_registry := sample_registry; wd_handles := [] |}) =
    [{| hd_key := key_a; hd_entry := 0; hd_released := true |}; {| hd_key := key_a; hd_entry := 0; hd_released := false |}] /\
  rg_entries (wd_registry (run sample_history {| wd_registry := sample_registry; wd_handles := [] |})) !! key_a = Some 0%nat.
Proof.
  split; [vm_compute; reflexivity|].
  destruct (registry_handles_safe 1 4 100 sample_registry sample_history) as (_ & _ & Hh & _); [vm_compute; reflexivity|].
  apply (Hh {| hd_key := key_a; hd_entry := 0; hd_released := false |}); [vm_compute; right; left|reflexivity].
Defined.

Lemma Acquire_shares_or_creates_witness :
  (Acquire 4 key_b (wd_registry (run sample_history {| wd_registry := sample_registry; wd_handles := [] |}))).1 =
  Err (ReliabilityCapacityError 1).
Proof.
  set (w := run sample_history {| wd_registry := sample_registry; wd_handles := [] |}).
  pose proof (Acquire_shares_or_creates 4 key_b w) as H.
  assert (Hok : world_ok w) by (apply run_ok, (new_ok 1 4 100); vm_compute; reflexivity).
  specialize (H Hok). cbv zeta in H.
  assert (E : is_ok (Acquire 4 key_b (wd_registry w)).1 = false) by (vm_compute; reflexivity).
  destruct (Acquire 4 key_b (wd_registry w)) as [[p|e] r']; [discriminate E|]. destruct H as [-> _].
  vm_compute. reflexivity.
Defined.
