(* ===== verification/Gzip.v ===== *)
(** Decompression under a decode budget (mtproto/gzip.go).

    compress/gzip is a parameter: what its reader yields and how it fails.  The two
    critical sections of [DecompressGzipWithBudget] read the shared budget at two
    moments, [reserved] and [committed], between which other decoders of the same
    message may have charged it. *)

From stdpp Require Import base numbers list sets.
From S2P Require Import Prelude Wire.
Open Scope Z_scope.

Definition MaxDecodedPayloadBytes : Z := 2 ^ 24.

Definition minInt64 (first : Z) (rest : list Z) : Z :=
  foldl (fun minimum value => if value <? minimum then value else minimum) first rest.

Definition saturatingMultiply (left right : Z) : Z :=
  if (left =? 0) || (right =? 0) then 0
  else if MaxInt64 / right <? left then MaxInt64
  else int64 (left * right).

(** gzip.NewReader over the packed bytes, and io.ReadAll(io.LimitReader(gr, n)). *)
Class GzipReader := {
  gz_header : bytes -> bool;
  gz_read : bytes -> Z -> result wire_error bytes
}.

(** The content of a valid stream; a reader yields its content up to the limit, and
    an invalid stream can only go unnoticed when the limit is reached first. *)
Class GzipLaws (G : GzipReader) := {
  gz_content : bytes -> option bytes;
  gz_valid packed c n : gz_content packed = Some c -> 0 <= n ->
    gz_header packed = true /\ gz_read packed n = Ok (take (Z.to_nat n) c);
  gz_invalid packed n d : gz_content packed = None -> gz_read packed n = Ok d -> len d = Z.max 0 n;
  gz_nonempty packed : gz_header packed = true -> packed <> []
}.

Section Decompress.
Context {G : GzipReader}.

(** What the first critical section computes: the remaining output, work and ratio. *)
Definition gzip_allowances (packed : bytes) (budget : DecodeBudget) : Z * Z * Z :=
  (MaxDecodedBytes (limits budget) - decodedBytes budget,
   MaxGzipWorkBytes (limits budget) - gzipWorkBytes budget,
   saturatingMultiply (len packed) (MaxGzipRatio (limits budget))).

(** From NewReader up to the second critical section: the decoded bytes. *)
Definition gzip_decode (packed : bytes) (reserved : DecodeBudget) : result wire_error bytes :=
  if negb (gz_header packed) then Err ErrGzipData
  else
    let packedBytes := len packed in
    let '(decodedRemaining, workRemaining, ratioLimit) := gzip_allowances packed reserved in
    if workRemaining <? packedBytes then Err ErrGzipWorkLimit
    else
      let outputWorkRemaining := workRemaining - packedBytes in
      let limit := minInt64 decodedRemaining [outputWorkRemaining; ratioLimit] in
      let limit := if limit <? 0 then 0 else limit in
      decoded ← gz_read packed (int64 (limit + 1));
      if ratioLimit <? len decoded then Err ErrGzipExpansionRatio
      else if decodedRemaining <? len decoded then Err ErrDecodedPayloadTooLarge
      else if workRemaining <? packedBytes + len decoded then Err ErrGzipWorkLimit
      else Ok decoded.

(** The second critical section. *)
Definition gzip_commit (packed decoded : bytes) (committed : DecodeBudget) : result wire_error DecodeBudget :=
  let workCharge := len packed + len decoded in
  if MaxDecodedBytes (limits committed) - decodedBytes committed <? len decoded then Err ErrDecodedPayloadTooLarge
  else if MaxGzipWorkBytes (limits committed) - gzipWorkBytes committed <? workCharge then Err ErrGzipWorkLimit
  else Ok (charge_gzip workCharge (charge_bytes (len decoded) committed)).

Definition DecompressGzipWithBudget (packed : bytes) (reserved committed : DecodeBudget)
  : result wire_error (bytes * DecodeBudget) :=
  decoded ← gzip_decode packed reserved;
  budget ← gzip_commit packed decoded committed;
  mret (decoded, budget).

(** Without a budget it works under one of the default limits, which nobody shares. *)
Definition DecompressGzipWithoutBudget (packed : bytes) : result wire_error bytes :=
  budget ← NewDecodeBudget zeroLimits;
  done ← DecompressGzipWithBudget packed budget budget;
  mret done.1.

Definition DecompressGzip (packed : bytes) (maxOutputBytes : Z) : result wire_error bytes :=
  if maxOutputBytes <? 0 then Err ErrNegativeLimit
  else
    let limit := if (0 <? maxOutputBytes) && (maxOutputBytes <? MaxDecodedPayloadBytes)
                 then maxOutputBytes else MaxDecodedPayloadBytes in
    budget ← NewDecodeBudget
      {| MaxDecodedBytes := limit; MaxWrappers := 0; MaxContainers := 0; LimVectorElements := 0; MaxObjectNodes := 0;
         MaxObjectDepth := 0; MaxGzipRatio := 0; MaxGzipWorkBytes := limit + len packed |};
    done ← DecompressGzipWithBudget packed budget budget;
    mret done.1.

(** * Facts *)

Definition gzip_budget_ok (b : DecodeBudget) : Prop :=
  0 <= decodedBytes b <= MaxDecodedBytes (limits b) /\ MaxDecodedBytes (limits b) <= MaxInt64 /\
  0 <= gzipWorkBytes b <= MaxGzipWorkBytes (limits b) /\ MaxGzipWorkBytes (limits b) <= MaxInt64 /\
  0 <= MaxGzipRatio (limits b) <= MaxInt64.

(** The default limits are such a budget. *)
Lemma default_budget_ok b : NewDecodeBudget zeroLimits = Ok b -> gzip_budget_ok b.
Proof. intros [= <-]. unfold gzip_budget_ok. vm_compute. repeat split; discriminate. Qed.

Lemma saturatingMultiply_min a b : 0 <= a -> 0 <= b -> saturatingMultiply a b = Z.min (a * b) MaxInt64.
Proof.
  intros Ha Hb. assert (0 <= MaxInt64) by by vm_compute. unfold saturatingMultiply.
  destruct (Z.eqb_spec a 0) as [->|Ha0]; [simpl; lia|]. destruct (Z.eqb_spec b 0) as [->|Hb0]; [simpl; lia|].
  cbn [orb]. destruct (Z.ltb_spec (MaxInt64 / b) a) as [Hlt|Hge].
  - assert (MaxInt64 < a * b) by (apply Z.nle_gt; intros Hle; assert (a <= MaxInt64 / b) by (apply Z.div_le_lower_bound; lia); lia).
    lia.
  - assert (a * b <= MaxInt64) by (pose proof (Z.mul_div_le MaxInt64 b); nia).
    rewrite wrapS_id; [lia|lia|]. unfold inS, MaxInt64 in *. split; nia.
Qed.

Lemma minInt64_three a b c : minInt64 a [b; c] = Z.min a (Z.min b c).
Proof.
  unfold minInt64. cbn. destruct (Z.ltb_spec b a); [destruct (Z.ltb_spec c b)|destruct (Z.ltb_spec c a)]; lia.
Qed.

(** The output limit the allowances amount to. *)
Definition output_limit (packed : bytes) (b : DecodeBudget) : Z :=
  Z.min (MaxDecodedBytes (limits b) - decodedBytes b)
    (Z.min (MaxGzipWorkBytes (limits b) - gzipWorkBytes b - len packed) (len packed * MaxGzipRatio (limits b))).

Lemma gzip_decode_eq packed b :
  gzip_budget_ok b ->
  gzip_decode packed b =
    if negb (gz_header packed) then Err ErrGzipData
    else if MaxGzipWorkBytes (limits b) - gzipWorkBytes b <? len packed then Err ErrGzipWorkLimit
    else
      let ratio := Z.min (len packed * MaxGzipRatio (limits b)) MaxInt64 in
      decoded ← gz_read packed (int64 (Z.min (output_limit packed b) MaxInt64 + 1));
      if ratio <? len decoded then Err ErrGzipExpansionRatio
      else if MaxDecodedBytes (limits b) - decodedBytes b <? len decoded then Err ErrDecodedPayloadTooLarge
      else if MaxGzipWorkBytes (limits b) - gzipWorkBytes b <? len packed + len decoded then Err ErrGzipWorkLimit
      else Ok decoded.
Proof.
  intros (H1 & H2 & H3 & H4 & H5). pose proof (len_nonneg packed). unfold gzip_decode, gzip_allowances.
  destruct (gz_header packed); cbn [negb]; [|done]. destruct (Z.ltb_spec (MaxGzipWorkBytes (limits b) - gzipWorkBytes b) (len packed)) as [|Hw]; [done|].
  rewrite minInt64_three, saturatingMultiply_min by lia. cbv zeta.
  rewrite (proj2 (Z.ltb_ge _ 0)) by (assert (0 <= MaxInt64) by (by vm_compute); lia).
  replace (Z.min (MaxDecodedBytes (limits b) - decodedBytes b) _) with (Z.min (output_limit packed b) MaxInt64); [done|].
  unfold output_limit. lia.
Qed.

Context {L : GzipLaws G}.

Lemma charge_ok packed decoded b b' :
  gzip_budget_ok b -> gzip_commit packed decoded b = Ok b' ->
  b' = charge_gzip (len packed + len decoded) (charge_bytes (len decoded) b) /\ gzip_budget_ok b'.
Proof.
  intros (H1 & H2 & H3 & H4 & H5). pose proof (len_nonneg packed). pose proof (len_nonneg decoded). unfold gzip_commit.
  repeat (case_match; [done|]). rewrite Z.ltb_ge in *. intros [= <-]. split; [done|].
  unfold gzip_budget_ok, charge_gzip, charge_bytes; cbn. lia.
Qed.

(** What is decoded when the whole content fits, and the error otherwise. *)
Lemma gzip_decode_spec packed b :
  gzip_budget_ok b ->
  match gzip_decode packed b with
  | Ok d => gz_content packed = Some d /\ len d <= output_limit packed b
  | Err e =>
      match gz_content packed with
      | Some c => output_limit packed b < len c /\ e ∈ [ErrGzipExpansionRatio; ErrDecodedPayloadTooLarge; ErrGzipWorkLimit]
      | None => True
      end
  end.
Proof.
  intros Hok. rewrite gzip_decode_eq by done. destruct Hok as (H1 & H2 & H3 & H4 & H5). pose proof (len_nonneg packed).
  destruct (gz_header packed) eqn:Eh; cbn [negb].
  2: { destruct (gz_content packed) as [c|] eqn:Ec; [|done]. destruct (gz_valid packed c 0 Ec ltac:(lia)). congruence. }
  destruct (Z.ltb_spec (MaxGzipWorkBytes (limits b) - gzipWorkBytes b) (len packed)) as [Hw|Hw].
  { destruct (gz_content packed) as [c|] eqn:Ec; [|done]. pose proof (len_nonneg c).
    split; [unfold output_limit; lia|set_solver]. }
  assert (Hp : 1 <= len packed).
  { pose proof (gz_nonempty packed Eh). destruct packed; [done|]. rewrite len_cons. pose proof (len_nonneg packed). lia. }
  assert (Hlim : 0 <= output_limit packed b < MaxInt64) by (unfold output_limit; nia).
  rewrite (Z.min_l (output_limit packed b)) by lia. rewrite wrapS_id by (unfold inS, MaxInt64 in *; lia). cbv zeta.
  set (ratio := len packed * MaxGzipRatio (limits b)) in *. set (lim := output_limit packed b) in *.
  assert (Hdef : lim = Z.min (MaxDecodedBytes (limits b) - decodedBytes b)
    (Z.min (MaxGzipWorkBytes (limits b) - gzipWorkBytes b - len packed) ratio)) by done. clearbody lim.
  assert (Hread : match gz_read packed (lim + 1) with
    | Err e => gz_content packed = None
    | Ok d => (len d = lim + 1 /\ forall c, gz_content packed = Some c -> lim < len c) \/
              (gz_content packed = Some d /\ len d <= lim) end).
  { destruct (gz_content packed) as [c|] eqn:Ec.
    - destruct (gz_valid packed c (lim + 1) Ec ltac:(lia)) as [_ ->]. unfold len in *.
      rewrite length_take. destruct (Z.le_gt_cases (Z.of_nat (length c)) lim).
      + right. rewrite take_ge by lia. split; [done|lia].
      + left. split; [lia|]. intros ? [= <-]. lia.
    - destruct (gz_read packed (lim + 1)) as [d|] eqn:Er; [|done]. left. split; [|done].
      rewrite (gz_invalid _ _ _ Ec Er). lia. }
  destruct (gz_read packed (lim + 1)) as [d|e]; cbn [mbind result_bind]; [|by rewrite Hread].
  destruct Hread as [[Hd Hc]|[Hc Hd]].
  - assert (Herr : forall e, e ∈ [ErrGzipExpansionRatio; ErrDecodedPayloadTooLarge; ErrGzipWorkLimit] ->
      match gz_content packed with
      | Some c => lim < len c /\ e ∈ [ErrGzipExpansionRatio; ErrDecodedPayloadTooLarge; ErrGzipWorkLimit]
      | None => True end).
    { intros e He. destruct (gz_content packed) as [c|]; [|done]. by split; [apply Hc|]. }
    do 3 (case Z.ltb_spec; intros ?; [apply Herr; set_solver|]). lia.
  - rewrite !(proj2 (Z.ltb_ge _ _)) by lia. done.
Qed.

(** The stand-alone form: its own ceiling and the default expansion. *)
Lemma DecompressGzip_iff packed max d :
  0 <= max -> len packed < 2 ^ 32 ->
  DecompressGzip packed max = Ok d <->
  gz_content packed = Some d /\ len d <= 128 * len packed /\
  len d <= if max =? 0 then MaxDecodedPayloadBytes else Z.min max MaxDecodedPayloadBytes.
Proof.
  intros Hm Hp. pose proof (len_nonneg packed). unfold DecompressGzip. rewrite (proj2 (Z.ltb_ge max 0)) by lia. cbv zeta.
  set (limit := if (0 <? max) && (max <? MaxDecodedPayloadBytes) then max else MaxDecodedPayloadBytes).
  assert (Hlim : limit = if max =? 0 then MaxDecodedPayloadBytes else Z.min max MaxDecodedPayloadBytes).
  { unfold limit. destruct (Z.ltb_spec 0 max), (Z.ltb_spec max MaxDecodedPayloadBytes), (Z.eqb_spec max 0); cbn; lia. }
  assert (Hr : 0 < limit <= 2 ^ 24) by (rewrite Hlim; unfold MaxDecodedPayloadBytes; destruct (Z.eqb_spec max 0); lia).
  clearbody limit. rewrite <- Hlim. clear Hlim.
  unfold NewDecodeBudget, normalizeDecodeLimits. cbn [MaxDecodedBytes MaxWrappers MaxContainers LimVectorElements MaxObjectNodes MaxObjectDepth MaxGzipRatio MaxGzipWorkBytes].
  rewrite !(proj2 (Z.ltb_ge _ 0)) by lia. cbn [orb]. unfold default_if_zero. rewrite (proj2 (Z.eqb_neq limit 0)), (proj2 (Z.eqb_neq (limit + len packed) 0)) by lia.
  cbn [mbind result_bind Z.eqb].
  lazymatch goal with |- context [DecompressGzipWithBudget packed ?b1 ?b1] => set (b1' := b1) end.
  assert (Hb1 : gzip_budget_ok b1').
  { unfold gzip_budget_ok, b1', MaxInt64, DefaultMaxGzipExpansionRatio; cbn. lia. }
  assert (Ho : output_limit packed b1' = Z.min limit (128 * len packed)).
  { unfold output_limit, b1', DefaultMaxGzipExpansionRatio; cbn. lia. }
  unfold DecompressGzipWithBudget. pose proof (gzip_decode_spec packed b1' Hb1) as Hd. rewrite Ho in Hd.
  destruct (gzip_decode packed b1') as [d'|e]; cbn [mbind result_bind].
  - destruct Hd as [Hc Hl]. unfold gzip_commit.
    rewrite !(proj2 (Z.ltb_ge _ _)) by (unfold b1'; cbn; lia). cbn [mbind result_bind mret result_ret fst].
    split; [intros [= <-]; split_and!; try done; lia|]. intros (Hc' & _ & _). rewrite Hc in Hc'. by injection Hc' as ->.
  - split; [done|]. intros (Hc & ? & ?). rewrite Hc in Hd. lia.
Qed.

(** * Properties *)

(** C31. Decompression is bounded by the shared budget whatever the stream claims.  A
    result is the stream's whole content, no longer than the remaining output, the
    remaining work after the packed bytes and the permitted expansion allow, and its
    output and work are charged exactly; content that fits is always produced and
    longer content always refused with a limit error; a budget charged by others
    between the two critical sections still never exceeds its limits; and the
    stand-alone form is bounded by its own ceiling and the default expansion. *)
Theorem decompression_bounded (packed : bytes) (b : DecodeBudget) :
  gzip_budget_ok b ->
  match DecompressGzipWithBudget packed b b with
  | Ok (d, b') =>
      gz_content packed = Some d /\ len d <= output_limit packed b /\
      b' = charge_gzip (len packed + len d) (charge_bytes (len d) b) /\ gzip_budget_ok b'
  | Err e => forall c, gz_content packed = Some c -> output_limit packed b < len c /\
      e ∈ [ErrGzipExpansionRatio; ErrDecodedPayloadTooLarge; ErrGzipWorkLimit]
  end /\
  (forall committed d b', gzip_budget_ok committed -> DecompressGzipWithBudget packed b committed = Ok (d, b') ->
     gz_content packed = Some d /\ b' = charge_gzip (len packed + len d) (charge_bytes (len d) committed) /\
     gzip_budget_ok b') /\
  (forall max d, 0 <= max -> len packed < 2 ^ 32 ->
     DecompressGzip packed max = Ok d <->
     gz_content packed = Some d /\ len d <= 128 * len packed /\
     len d <= if max =? 0 then MaxDecodedPayloadBytes else Z.min max MaxDecodedPayloadBytes).
Proof.
  intros Hok. split_and!.
  - unfold DecompressGzipWithBudget. pose proof (gzip_decode_spec packed b Hok) as Hd.
    destruct (gzip_decode packed b) as [d|e]; cbn [mbind result_bind].
    + destruct Hd as [Hc Hl]. destruct (gzip_commit packed d b) as [b'|e] eqn:Eb; cbn [mbind result_bind].
      * destruct (charge_ok _ _ _ _ Hok Eb) as [-> ?]. done.
      * exfalso. unfold gzip_commit in Eb. unfold output_limit in Hl.
        rewrite !(proj2 (Z.ltb_ge _ _)) in Eb by lia. done.
    + intros c Hc. by rewrite Hc in Hd.
  - intros committed d b' Hc. unfold DecompressGzipWithBudget. pose proof (gzip_decode_spec packed b Hok) as Hd.
    destruct (gzip_decode packed b) as [d'|e]; cbn [mbind result_bind]; [|done].
    destruct (gzip_commit packed d' committed) as [b''|e] eqn:Eb; cbn [mbind result_bind]; [|done].
    intros [= <- <-]. destruct (charge_ok _ _ _ _ Hc Eb) as [-> ?]. by destruct Hd.
  - intros max d. by apply DecompressGzip_iff.
Qed.

End Decompress.

(** * Witness *)

(** A format with a one-byte header and stored content. *)
Definition stored : GzipReader := {|
  gz_header p := match p with x1f :: _ => true | _ => false end;
  gz_read p n := match p with x1f :: c => Ok (take (Z.to_nat n) c) | _ => Err ErrGzipData end |}.

Definition stored_laws : GzipLaws stored.
Proof.
  refine {| gz_content p := match p with x1f :: c => Some c | _ => None end |}.
  - intros p c n Hp _. destruct p as [|[] p]; try done. by injection Hp as ->.
  - intros p n d Hp Hd. by destruct p as [|[] p].
  - intros p. by destruct p.
Defined.

Definition sample_budget : DecodeBudget :=
  {| limits := match normalizeDecodeLimits zeroLimits with Ok l => l | Err _ => zeroLimits end; decodedBytes := 0; wrapperCount := 0;
     containerCount := 0; vectorElements := 0; objectNodes := 0; objectDepth := 0; gzipWorkBytes := 0 |}.

Lemma decompression_bounded_witness :
  let packed := x1f :: replicate 40 x41 in
  @gz_content _ stored_laws packed = Some (replicate 40 x41) /\
  exists d b', @DecompressGzipWithBudget stored packed sample_budget sample_budget = Ok (d, b') /\
    len d <= output_limit packed sample_budget /\ gzip_budget_ok b'.
Proof.
  intros packed. split; [by vm_compute|].
  assert (Hok : gzip_budget_ok sample_budget) by (clear; unfold gzip_budget_ok; vm_compute; by repeat split).
  destruct (@decompression_bounded stored stored_laws packed sample_budget Hok) as [H _].
  destruct (@DecompressGzipWithBudget stored packed sample_budget sample_budget) as [[d b']|e] eqn:E.
  - exists d, b'. destruct H as (_ & Hl & _ & Hb). by split_and!.
  - exfalso. clear H. revert E. by vm_compute.
Defined.
