(* ===== verification/InitConnection.v ===== *)
(** initConnection with its options (mtproto/tl/init_options.go, and InitConnection of
    mtproto/tl/wrappers.go): the proxy and the JSONValue union, read and written under
    a depth and a node limit.

    The node counter is the int the recursive calls share by pointer: the state of the
    two recursions is the reader or writer together with it.  A float64 is its IEEE 754
    bit pattern. *)

From stdpp Require Import base numbers list.
From S2P Require Import Prelude Wire Tl.
Open Scope Z_scope.

Definition InitConnectionID : Z := 0xc1cd5ea9.
Definition JSONNullID : Z := 0x3f6d7b68.
Definition JSONBoolID : Z := 0xc7345e6a.
Definition JSONNumberID : Z := 0x2be0dfa4.
Definition JSONStringID : Z := 0xb71e767a.
Definition JSONArrayID : Z := 0xf7444763.
Definition JSONObjectID : Z := 0x99c1d49d.
Definition jsonObjectValueID : Z := 0xc0de1bd9.
Definition inputClientProxyID : Z := 0x75588b3f.
Definition initConnectionKnownFlags : Z := Z.lor 3 (Z.shiftl 1 10).

Record InputClientProxy := { px_Address : bytes; px_Port : Z }.

(** An entry of [Object] is a JSONObjectValue, the pair of its key and value. *)
Inductive JSONValue :=
| JSON (Kind : Z) (Bool : bool) (Number : Z) (String : bytes) (Array : list JSONValue) (Object : list (bytes * JSONValue)).

Record InitConnection := {
  ic_Flags : Z;
  ic_APIID : Z;
  ic_DeviceModel : bytes;
  ic_SystemVersion : bytes;
  ic_AppVersion : bytes;
  ic_SystemLangCode : bytes;
  ic_LangPack : bytes;
  ic_LangCode : bytes;
  ic_Proxy : option InputClientProxy;
  ic_Params : option JSONValue;
  ic_QueryRaw : bytes
}.

(** [math.IsNaN(x) || math.IsInf(x, 0)]: all exponent bits set. *)
Definition not_finite (x : Z) : bool := Z.land (Z.shiftr x 52) 0x7ff =? 0x7ff.

(** * The shared node counter *)

Abbreviation Counted S := (ST (S * Z) wire_error).

Definition lift {S A} (m : ST S wire_error A) : Counted S A := fun s =>
  let '(x, s1) := m s.1 in (x, (s1, s.2)).

Definition jsonLimit {S} (depth : Z) : Counted S unit := fun s =>
  let nodes := s.2 + 1 in
  if (16 <? depth) || (1024 <? nodes) then (Err ErrInitConnectionOptions, (s.1, nodes))
  else (Ok tt, (s.1, nodes)).

(** [leave, err := EnterObject(r)], [defer leave()] and the rest of the function. *)
Definition scoped {A} (m : Counted reader A) : Counted reader A := fun s =>
  match lift EnterObject s with
  | (Err e, s) => (Err e, s)
  | (Ok _, s) => let '(x, s) := m s in (x, (lift LeaveObject s).2)
  end.

(** ReadVectorBounded up to its loop, and with elements that count nodes. *)
Definition readVectorLength (maxElements : Z) : RD nat :=
  if maxElements <? 0 then st_err ErrVectorTooLong
  else
    ctor ← ReadUint32;
    if negb (ctor =? VectorConstructorID) then st_err (ErrInvalidVectorConstructor ctor)
    else
      count ← ReadInt32;
      if count <? 0 then st_err (ErrInvalidVectorLength count)
      else if maxElements <? count then st_err ErrVectorTooLong
      else (_ ← consumeVectorElements count; mret (Z.to_nat count)).

Definition readCounted {A} (maxElements : Z) (fn : Counted reader A) : Counted reader (list A) :=
  n ← lift (readVectorLength maxElements); st_repeat n fn.

(** * Reading *)

Definition readEntry (read : Counted reader JSONValue) (depth : Z) : Counted reader (bytes * JSONValue) :=
  _ ← jsonLimit (depth + 1);
  scoped (
    ctor ← lift ReadUint32;
    if negb (ctor =? jsonObjectValueID) then st_err ErrInitConnectionOptions
    else
      key ← lift ReadString;
      value ← read;
      mret (key, value)).

Definition readKind (read : Counted reader JSONValue) (depth kind : Z) : Counted reader JSONValue :=
  if kind =? JSONNullID then mret (JSON kind false 0 [] [] [])
  else if kind =? JSONBoolID then
    b ← lift ReadBool; mret (JSON kind b 0 [] [] [])
  else if kind =? JSONNumberID then
    x ← lift ReadDouble;
    if not_finite x then st_err ErrInitConnectionOptions else mret (JSON kind false x [] [] [])
  else if kind =? JSONStringID then
    s ← lift ReadString; mret (JSON kind false 0 s [] [])
  else if kind =? JSONArrayID then
    l ← readCounted 1024 read; mret (JSON kind false 0 [] l [])
  else if kind =? JSONObjectID then
    l ← readCounted 1024 (readEntry read depth); mret (JSON kind false 0 [] [] l)
  else st_err ErrInitConnectionOptions.

Fixpoint JSON_read (fuel : nat) (depth : Z) : Counted reader JSONValue :=
  match fuel with
  | O => st_err OutOfFuel
  | S fuel =>
      _ ← jsonLimit depth;
      scoped (kind ← lift ReadUint32; readKind (JSON_read fuel (depth + 1)) depth kind)
  end.

(** Depths above 16 are refused, so 18 levels of calls are enough. *)
Definition json_fuel : nat := 18.

Definition read_proxy : RD InputClientProxy :=
  ctor ← ReadUint32;
  if negb (ctor =? inputClientProxyID) then st_err ErrInitConnectionOptions
  else
    address ← ReadString;
    port ← ReadInt32;
    if (port <? 1) || (65535 <? port) then st_err ErrInitConnectionOptions
    else mret {| px_Address := address; px_Port := port |}.

Definition read_params : RD JSONValue := fun r =>
  let '(x, s) := JSON_read json_fuel 0 (r, 0) in (x, s.1).

Definition optional {A} (present : bool) (m : RD A) : RD (option A) :=
  if present then (x ← m; mret (Some x)) else mret None.

Definition readOptions (flags : Z) : RD (option InputClientProxy * option JSONValue) :=
  if negb (Z.land flags (uint32 (Z.lnot initConnectionKnownFlags)) =? 0) then st_err ErrInitConnectionOptions
  else
    proxy ← optional (negb (Z.land flags 1 =? 0)) read_proxy;
    params ← optional (negb (Z.land flags 2 =? 0)) read_params;
    mret (proxy, params).

Definition InitConnection_DeserializeTL : RD InitConnection :=
  _ ← readConstructor InitConnectionID;
  flags ← ReadUint32;
  apiID ← ReadInt32;
  deviceModel ← ReadString;
  systemVersion ← ReadString;
  appVersion ← ReadString;
  systemLangCode ← ReadString;
  langPack ← ReadString;
  langCode ← ReadString;
  options ← readOptions flags;
  query ← ReadAll;
  mret {| ic_Flags := flags; ic_APIID := apiID; ic_DeviceModel := deviceModel; ic_SystemVersion := systemVersion;
          ic_AppVersion := appVersion; ic_SystemLangCode := systemLangCode; ic_LangPack := langPack;
          ic_LangCode := langCode; ic_Proxy := options.1; ic_Params := options.2; ic_QueryRaw := query |}.

(** * Writing *)

Fixpoint JSON_write (v : JSONValue) (depth : Z) {struct v} : Counted writer unit :=
  _ ← jsonLimit depth;
  match v with
  | JSON kind b x s array object =>
      _ ← lift (WriteUint32 kind);
      if kind =? JSONNullID then mret tt
      else if kind =? JSONBoolID then lift (WriteBool b)
      else if kind =? JSONNumberID then
        if not_finite x then st_err ErrInitConnectionOptions else lift (WriteDouble x)
      else if kind =? JSONStringID then lift (WriteString s)
      else if kind =? JSONArrayID then
        if 1024 <? len array then st_err ErrInitConnectionOptions
        else
          _ ← lift (WriteVectorHeader (len array));
          (fix each (l : list JSONValue) : Counted writer unit :=
             match l with
             | [] => mret tt
             | v :: l => _ ← JSON_write v (depth + 1); each l
             end) array
      else if kind =? JSONObjectID then
        if 1024 <? len object then st_err ErrInitConnectionOptions
        else
          _ ← lift (WriteVectorHeader (len object));
          (fix each (l : list (bytes * JSONValue)) : Counted writer unit :=
             match l with
             | [] => mret tt
             | (key, v) :: l =>
                 _ ← jsonLimit (depth + 1);
                 _ ← lift (WriteUint32 jsonObjectValueID);
                 _ ← lift (WriteString key);
                 _ ← JSON_write v (depth + 1);
                 each l
             end) object
      else st_err ErrInitConnectionOptions
  end.

Definition write_proxy (p : InputClientProxy) : WR unit :=
  if (px_Port p <? 1) || (65535 <? px_Port p) then st_err ErrInitConnectionOptions
  else
    _ ← WriteUint32 inputClientProxyID;
    _ ← WriteString (px_Address p);
    WriteInt32 (px_Port p).

Definition write_params (v : JSONValue) : WR unit := fun w =>
  let '(x, s) := JSON_write v 0 (w, 0) in (x, s.1).

Definition is_some {A} (o : option A) : bool := match o with Some _ => true | None => false end.

Definition writeOptions (m : InitConnection) : WR unit :=
  if negb (Z.land (ic_Flags m) (uint32 (Z.lnot initConnectionKnownFlags)) =? 0) ||
     negb (Bool.eqb (negb (Z.land (ic_Flags m) 1 =? 0)) (is_some (ic_Proxy m))) ||
     negb (Bool.eqb (negb (Z.land (ic_Flags m) 2 =? 0)) (is_some (ic_Params m)))
  then st_err ErrInitConnectionOptions
  else
    _ ← match ic_Proxy m with Some p => write_proxy p | None => mret tt end;
    match ic_Params m with Some v => write_params v | None => mret tt end.

Definition InitConnection_SerializeTL (m : InitConnection) : WR unit :=
  _ ← WriteUint32 InitConnectionID;
  _ ← WriteUint32 (ic_Flags m);
  _ ← WriteInt32 (ic_APIID m);
  _ ← WriteString (ic_DeviceModel m);
  _ ← WriteString (ic_SystemVersion m);
  _ ← WriteString (ic_AppVersion m);
  _ ← WriteString (ic_SystemLangCode m);
  _ ← WriteString (ic_LangPack m);
  _ ← WriteString (ic_LangCode m);
  _ ← writeOptions m;
  Write (ic_QueryRaw m).

(** * The union the values stand for *)

Inductive json :=
| JNull
| JBool (b : bool)
| JNumber (x : Z)
| JString (s : bytes)
| JArray (items : list json)
| JObject (entries : list (bytes * json)).

Fixpoint to_value (j : json) : JSONValue :=
  match j with
  | JNull => JSON JSONNullID false 0 [] [] []
  | JBool b => JSON JSONBoolID b 0 [] [] []
  | JNumber x => JSON JSONNumberID false x [] [] []
  | JString s => JSON JSONStringID false 0 s [] []
  | JArray items => JSON JSONArrayID false 0 [] (to_value <$> items) []
  | JObject entries => JSON JSONObjectID false 0 [] [] ((fun e => (e.1, to_value e.2)) <$> entries)
  end.

Fixpoint json_ok (j : json) : Prop :=
  match j with
  | JNull | JBool _ => True
  | JNumber x => inU 64 x /\ not_finite x = false
  | JString s => len s <= MaxTLBytesLength
  | JArray items => len items <= 1024 /\ foldr (fun x P => json_ok x /\ P) True items
  | JObject entries =>
      len entries <= 1024 /\ foldr (fun e P => (len e.1 <= MaxTLBytesLength /\ json_ok e.2) /\ P) True entries
  end.

(** The number of nodes, entries included, and the depth below the value. *)
Fixpoint json_nodes (j : json) : nat :=
  match j with
  | JArray items => S (foldr (fun x n => json_nodes x + n) 0 items)
  | JObject entries => S (foldr (fun e n => S (json_nodes e.2) + n) 0 entries)
  | _ => 1
  end%nat.

Fixpoint json_depth (j : json) : nat :=
  match j with
  | JArray items => foldr (fun x n => Nat.max (S (json_depth x)) n) 0 items
  | JObject entries => foldr (fun e n => Nat.max (S (json_depth e.2)) n) 0 entries
  | _ => 0
  end%nat.

Fixpoint enc_json (j : json) : bytes :=
  match j with
  | JNull => le_put 4 JSONNullID
  | JBool b => le_put 4 JSONBoolID ++ le_put 4 (if b then BoolTrue else BoolFalse)
  | JNumber x => le_put 4 JSONNumberID ++ le_put 8 x
  | JString s => le_put 4 JSONStringID ++ enc_bytes s
  | JArray items => le_put 4 JSONArrayID ++ enc_vector enc_json items
  | JObject entries =>
      le_put 4 JSONObjectID ++ enc_vector (fun e => le_put 4 jsonObjectValueID ++ enc_bytes e.1 ++ enc_json e.2) entries
  end.

Definition in_scope (c : cost) : cost := Cost (c_vec c) (S (c_nodes c)) (S (c_depth c)).

(** What reading it costs a decode budget. *)
Fixpoint json_cost (j : json) : cost :=
  match j with
  | JArray items => in_scope (vector_cost json_cost items)
  | JObject entries => in_scope (vector_cost (fun e => in_scope (json_cost e.2)) entries)
  | _ => in_scope no_cost
  end.

Section json_ind.
Variable P : json -> Prop.
Hypothesis Hnull : P JNull.
Hypothesis Hbool : forall b, P (JBool b).
Hypothesis Hnumber : forall x, P (JNumber x).
Hypothesis Hstring : forall s, P (JString s).
Hypothesis Harray : forall items, Forall P items -> P (JArray items).
Hypothesis Hobject : forall entries, Forall (fun e => P e.2) entries -> P (JObject entries).

Fixpoint json_nested_ind (j : json) : P j :=
  match j with
  | JNull => Hnull
  | JBool b => Hbool b
  | JNumber x => Hnumber x
  | JString s => Hstring s
  | JArray items => Harray items ((fix go l := match l return Forall P l with
      | [] => Forall_nil_2 P | x :: l => Forall_cons_2 P x l (json_nested_ind x) (go l) end) items)
  | JObject entries => Hobject entries ((fix go l := match l return Forall (fun e => P e.2) l with
      | [] => Forall_nil_2 _ | e :: l => Forall_cons_2 _ e l (json_nested_ind e.2) (go l) end) entries)
  end.
End json_ind.

Lemma foldr_and {A} (P : A -> Prop) l : foldr (fun x Q => P x /\ Q) True l <-> Forall P l.
Proof. induction l as [|x l IH]; cbn; [done|]. by rewrite Forall_cons, IH. Qed.

Lemma foldr_max {A} (f : A -> nat) l k : (foldr (fun x n => Nat.max (f x) n) 0 l <= k)%nat <-> Forall (fun x => f x <= k)%nat l.
Proof. induction l as [|x l IH]; cbn; [split; [done|lia]|]. rewrite Forall_cons, <- IH. lia. Qed.

Lemma json_nodes_pos j : (1 <= json_nodes j)%nat.
Proof. destruct j; cbn; lia. Qed.

(** * Counted reads and writes *)

(** [consumes] and [emits] with the nodes counted. *)
Definition consumesC {A} (m : Counted reader A) (bs : bytes) (c : cost) (n : nat) (a : A) : Prop :=
  forall rest bud nodes, affords bud (len bs) c -> nodes + Z.of_nat n <= 1024 ->
    m (Reader (bs ++ rest) bud, nodes) = (Ok a, (Reader rest (charged (len bs) c bud), nodes + Z.of_nat n)).

Definition emitsC (m : Counted writer unit) (bs : bytes) (n : nat) : Prop :=
  forall w nodes, w_ok w -> nodes + Z.of_nat n <= 1024 ->
    if room w (len bs) then m (w, nodes) = (Ok tt, (written w bs, nodes + Z.of_nat n))
    else exists s, m (w, nodes) = (Err ErrEncodedPayloadTooLarge, s).

Lemma consumesC_ret {A} (a : A) : consumesC (mret a) [] no_cost 0 a.
Proof. intros rest bud nodes _ _. rewrite len_nil, charged_0, Z.add_0_r. done. Qed.

Lemma consumesC_lift {A} (m : RD A) bs c a : consumes m bs c a -> consumesC (lift m) bs c 0 a.
Proof. intros Hm rest bud nodes Ha _. unfold lift. cbn [fst snd]. by rewrite (Hm rest bud Ha), Z.add_0_r. Qed.

Lemma consumesC_bind {A B} (m : Counted reader A) (f : A -> Counted reader B) b1 b2 c1 c2 n1 n2 a x :
  consumesC m b1 c1 n1 a -> consumesC (f a) b2 c2 n2 x ->
  consumesC (m ≫= f) (b1 ++ b2) (cost_seq c1 c2) (n1 + n2) x.
Proof.
  intros H1 H2 rest bud nodes. rewrite len_app. intros Ha Hn.
  destruct (affords_seq bud _ _ _ _ (len_nonneg b1) (len_nonneg b2) Ha) as [Ha1 Ha2].
  unfold mbind, ST_bind, st_bind. rewrite <- app_assoc, (H1 _ _ _ Ha1) by lia. rewrite (H2 _ _ _ Ha2) by lia.
  by rewrite charged_seq, Nat2Z.inj_add, Z.add_assoc.
Qed.

Lemma consumesC_step {A B} (m : RD A) (f : A -> Counted reader B) b1 b2 c n a x :
  consumes m b1 no_cost a -> consumesC (f a) b2 c n x -> consumesC (lift m ≫= f) (b1 ++ b2) c n x.
Proof.
  intros H1 H2. rewrite <- (cost_no_seq c). apply (consumesC_bind _ _ _ _ _ _ 0 n a); [by apply consumesC_lift|done].
Qed.

Lemma consumesC_last {A B} (m : Counted reader A) (f : A -> B) bs c n a :
  consumesC m bs c n a -> consumesC (x ← m; mret (f x)) bs c n (f a).
Proof.
  intros Hm. rewrite <- (app_nil_r bs), <- (cost_seq_no c), <- (Nat.add_0_r n).
  eapply consumesC_bind; [exact Hm|apply consumesC_ret].
Qed.

Lemma consumesC_limit {B} depth (f : unit -> Counted reader B) bs c n x :
  depth <= 16 -> consumesC (f tt) bs c n x -> consumesC (jsonLimit depth ≫= f) bs c (S n) x.
Proof.
  intros Hd Hf rest bud nodes Ha Hn. unfold mbind, ST_bind, st_bind, jsonLimit. cbn [fst snd].
  rewrite (proj2 (Z.ltb_ge 16 depth)), (proj2 (Z.ltb_ge 1024 (nodes + 1))) by lia. cbn [orb].
  rewrite Hf; [|done|lia]. do 2 f_equal. lia.
Qed.

Lemma consumesC_scoped {A} (m : Counted reader A) bs c n a :
  consumesC m bs c n a -> consumesC (scoped m) bs (in_scope c) n a.
Proof.
  intros Hm rest bud nodes Ha Hn. unfold scoped, lift, EnterObject, LeaveObject, with_budget. cbn [fst snd rd_budget rd_data].
  destruct bud as [b|].
  2: { rewrite (Hm rest None nodes) by done. done. }
  destruct Ha as (Hb & Hv & Hno & Hde). cbn [in_scope c_vec c_nodes c_depth] in *.
  rewrite (proj2 (Z.leb_gt _ _)), (proj2 (Z.leb_gt _ _)) by lia.
  rewrite (Hm rest (Some (charge_object 1 1 b)) nodes); [|unfold affords, remaining, charge_object in *; cbn; lia|done].
  cbn. unfold charge_object, charge_vector, charge_bytes; cbn. do 5 f_equal; lia.
Qed.

Lemma consumesC_repeat {A B} (fn : Counted reader A) (enc : B -> bytes) (c : B -> cost) (n : B -> nat) (g : B -> A) (xs : list B) :
  Forall (fun x => consumesC fn (enc x) (c x) (n x) (g x)) xs ->
  consumesC (st_repeat (length xs) fn) (concat (enc <$> xs)) (foldr cost_seq no_cost (c <$> xs))
    (foldr (fun x k => n x + k)%nat 0%nat xs) (g <$> xs).
Proof.
  induction 1 as [|x xs Hx _ IH]; cbn; [apply consumesC_ret|].
  apply (consumesC_bind fn (fun y => st_bind (fun ys => st_ret (y :: ys)) (st_repeat (length xs) fn)) _ _ _ _ _ _ (g x)); [done|].
  apply (consumesC_last (st_repeat (length xs) fn) (cons (g x))), IH.
Qed.

Lemma consumes_vectorLength k :
  Z.of_nat k <= 1024 ->
  consumes (readVectorLength 1024) (le_put 4 VectorConstructorID ++ enc_int32 (Z.of_nat k)) (Cost k 0 0) k.
Proof.
  intros Hk. unfold readVectorLength. change (1024 <? 0) with false. cbn [negb].
  eapply consumes_step; [apply consumes_ReadUint32; by vm_compute|]. rewrite Z.eqb_refl. cbn [negb].
  rewrite <- (app_nil_r (enc_int32 _)). eapply consumes_step; [apply consumes_ReadInt32; unfold inS; lia|].
  rewrite !(proj2 (Z.ltb_ge _ _)) by lia.
  pose proof (consumes_last (consumeVectorElements (Z.of_nat k)) (fun _ => Z.to_nat (Z.of_nat k)) [] (Cost k 0 0) tt) as H.
  rewrite Nat2Z.id in *. apply H. rewrite <- (Nat2Z.id k) at 2. apply consumes_vector_count. lia.
Qed.

Lemma consumesC_vector {A B} (fn : Counted reader A) (enc : B -> bytes) c n (g : B -> A) (xs : list B) :
  len xs <= 1024 -> Forall (fun x => consumesC fn (enc x) (c x) (n x) (g x)) xs ->
  consumesC (readCounted 1024 fn) (enc_vector enc xs) (vector_cost c xs) (foldr (fun x k => n x + k)%nat 0%nat xs) (g <$> xs).
Proof.
  intros Hl Hx. unfold readCounted, enc_vector, enc_bare_vector, vector_cost. rewrite app_assoc.
  apply (consumesC_bind _ _ _ _ (Cost (length xs) 0 0) _ 0%nat _ (length xs)).
  - by apply consumesC_lift, consumes_vectorLength.
  - by apply (consumesC_repeat fn enc c n g).
Qed.

Lemma ReadVectorBounded_split {A} max (fn : RD A) r :
  ReadVectorBounded max fn r = (n ← readVectorLength max; st_repeat n fn) r.
Proof.
  unfold ReadVectorBounded, readVectorLength, readElements, mbind, ST_bind, st_bind, mret, ST_ret, st_ret.
  destruct (max <? 0); [done|]. destruct (ReadUint32 r) as [[c|e] r1]; [|done].
  destruct (negb (c =? VectorConstructorID)); [done|]. destruct (ReadInt32 r1) as [[k|e] r2]; [|done].
  destruct (k <? 0); [done|]. destruct (max <? k); [done|]. by destruct (consumeVectorElements k r2) as [[?|e] r3].
Qed.

(** * Reading back what was written *)

Lemma readKind_eqs (read : Counted reader JSONValue) depth :
  readKind read depth JSONNullID = mret (to_value JNull) /\
  readKind read depth JSONBoolID = (b ← lift ReadBool; mret (to_value (JBool b))) /\
  readKind read depth JSONNumberID =
    (x ← lift ReadDouble; if not_finite x then st_err ErrInitConnectionOptions else mret (to_value (JNumber x))) /\
  readKind read depth JSONStringID = (s ← lift ReadString; mret (to_value (JString s))) /\
  readKind read depth JSONArrayID = (l ← readCounted 1024 read; mret (JSON JSONArrayID false 0 [] l [])) /\
  readKind read depth JSONObjectID =
    (l ← readCounted 1024 (readEntry read depth); mret (JSON JSONObjectID false 0 [] [] l)).
Proof. by split_and!. Qed.

Lemma consumes_entry read depth key v bs c n :
  len key <= MaxTLBytesLength -> depth + 1 <= 16 -> consumesC read bs c n v ->
  consumesC (readEntry read depth) (le_put 4 jsonObjectValueID ++ enc_bytes key ++ bs) (in_scope c) (S n) (key, v).
Proof.
  intros Hk Hd Hv. unfold readEntry. apply consumesC_limit; [done|]. apply consumesC_scoped.
  eapply consumesC_step; [apply consumes_ReadUint32; by vm_compute|]. rewrite Z.eqb_refl. cbn [negb].
  eapply consumesC_step; [by apply consumes_ReadString|]. by apply (consumesC_last read (pair key)).
Qed.

Lemma consumes_json j fuel depth :
  json_ok j -> 0 <= depth -> depth + Z.of_nat (json_depth j) <= 16 -> (json_depth j < fuel)%nat ->
  consumesC (JSON_read fuel depth) (enc_json j) (json_cost j) (json_nodes j) (to_value j).
Proof.
  revert fuel depth. induction j as [|b|x|s|items IH|entries IH] using json_nested_ind; intros [|fuel] depth Hok Hd Hdep Hf;
    try (cbn [json_depth] in Hf; lia); cbn [JSON_read];
    pose proof (readKind_eqs (JSON_read fuel (depth + 1)) depth) as (En & Eb & Ex & Es & Ea & Eo).
  - rewrite <- (app_nil_r (enc_json JNull)). apply consumesC_limit; [cbn in *; lia|]. apply consumesC_scoped.
    eapply consumesC_step; [apply consumes_ReadUint32; by vm_compute|]. rewrite En. apply consumesC_ret.
  - apply consumesC_limit; [cbn in *; lia|]. apply consumesC_scoped.
    eapply consumesC_step; [apply consumes_ReadUint32; by vm_compute|]. rewrite Eb.
    apply (consumesC_last (lift ReadBool) (fun b => to_value (JBool b))), consumesC_lift, consumes_ReadBool.
  - destruct Hok as [Hx Hfin]. apply consumesC_limit; [cbn in *; lia|]. apply consumesC_scoped.
    eapply consumesC_step; [apply consumes_ReadUint32; by vm_compute|]. rewrite Ex. rewrite <- (app_nil_r (le_put 8 x)).
    eapply consumesC_step; [by apply consumes_ReadUint64|]. rewrite Hfin. apply consumesC_ret.
  - apply consumesC_limit; [cbn in *; lia|]. apply consumesC_scoped.
    eapply consumesC_step; [apply consumes_ReadUint32; by vm_compute|]. rewrite Es.
    by apply (consumesC_last (lift ReadString) (fun s => to_value (JString s))), consumesC_lift, consumes_ReadString.
  - destruct Hok as [Hl Hok%foldr_and]. cbn [json_depth] in *. apply consumesC_limit; [lia|]. apply consumesC_scoped.
    eapply consumesC_step; [apply consumes_ReadUint32; by vm_compute|]. rewrite Ea.
    apply (consumesC_last (readCounted 1024 _) (fun l => JSON JSONArrayID false 0 [] l [])), consumesC_vector; [done|].
    assert (Hm : Forall (fun x => S (json_depth x) <= foldr (fun x n => Nat.max (S (json_depth x)) n) 0 items)%nat items) by by apply (foldr_max (fun x => S (json_depth x))).
    rewrite !Forall_forall in *. intros x Hx. specialize (Hm x Hx). cbn beta in Hm. apply IH; [done|by apply Hok|lia..].
  - destruct Hok as [Hl Hok%foldr_and]. cbn [json_depth] in *. apply consumesC_limit; [lia|]. apply consumesC_scoped.
    eapply consumesC_step; [apply consumes_ReadUint32; by vm_compute|]. rewrite Eo.
    apply (consumesC_last (readCounted 1024 _) (fun l => JSON JSONObjectID false 0 [] [] l)).
    apply (consumesC_vector _ _ _ (fun e => S (json_nodes e.2)) (fun e => (e.1, to_value e.2))); [done|].
    assert (Hm : Forall (fun e => S (json_depth e.2) <= foldr (fun e n => Nat.max (S (json_depth e.2)) n) 0 entries)%nat entries) by by apply (foldr_max (fun e : bytes * json => S (json_depth e.2))).
    rewrite !Forall_forall in *. intros e He. specialize (Hm e He). destruct (Hok e He) as [Hkey Hval]. cbn beta in Hm.
    apply consumes_entry; [done|lia|]. apply IH; [done|done|lia..].
Qed.

(** * Writing *)

Lemma emitsC_ret : emitsC (mret tt) [] 0.
Proof.
  intros w nodes Hw _. rewrite len_nil, Z.add_0_r. unfold room, written, w_ok in *. rewrite app_nil_r. destruct w as [buf [k|]]; cbn in *.
  - rewrite (proj2 (Z.leb_le 0 k)) by lia. unfold mret, ST_ret, st_ret. do 4 f_equal. rewrite len_nil. lia.
  - done.
Qed.

Lemma emitsC_lift m bs : emits m bs -> emitsC (lift m) bs 0.
Proof.
  intros Hm w nodes Hw _. specialize (Hm w Hw). unfold lift. cbn [fst snd]. destruct (room w (len bs)).
  - by rewrite Hm, Z.add_0_r.
  - destruct Hm as [w' ->]. by eexists.
Qed.

Lemma emitsC_bind (m : Counted writer unit) (f : unit -> Counted writer unit) b1 b2 n1 n2 :
  emitsC m b1 n1 -> emitsC (f tt) b2 n2 -> emitsC (m ≫= f) (b1 ++ b2) (n1 + n2).
Proof.
  intros H1 H2 w nodes Hw Hn. specialize (H1 w nodes Hw ltac:(lia)). pose proof (len_nonneg b1). pose proof (len_nonneg b2).
  unfold mbind, ST_bind, st_bind. rewrite len_app. destruct (room w (len b1)) eqn:E1.
  - rewrite H1. assert (Hw1 : w_ok (written w b1)).
    { unfold w_ok, written, room in *. destruct (w_remaining w); cbn in *; bools; lia. }
    specialize (H2 (written w b1) (nodes + Z.of_nat n1) Hw1 ltac:(lia)).
    replace (room (written w b1) (len b2)) with (room w (len b1 + len b2)) in H2.
    2: { unfold room, written. destruct (w_remaining w) as [k|]; cbn; [|done]. apply eq_true_iff_eq. rewrite !Z.leb_le. lia. }
    destruct (room w (len b1 + len b2)); [|done]. rewrite H2. f_equal. f_equal; [|lia].
    unfold written; cbn. rewrite app_assoc. f_equal. destruct (w_remaining w); cbn; [|done]. f_equal. rewrite len_app. lia.
  - destruct H1 as [s ->]. replace (room w (len b1 + len b2)) with false; [by eexists|].
    unfold room in *. destruct (w_remaining w); [|done]. bools. symmetry. apply Z.leb_gt. lia.
Qed.

Lemma emitsC_step m (f : unit -> Counted writer unit) b1 b2 n :
  emits m b1 -> emitsC (f tt) b2 n -> emitsC (lift m ≫= f) (b1 ++ b2) n.
Proof. intros H1 H2. apply (emitsC_bind _ _ _ _ 0 n); [by apply emitsC_lift|done]. Qed.

Lemma emitsC_limit depth (f : unit -> Counted writer unit) bs n :
  depth <= 16 -> emitsC (f tt) bs n -> emitsC (jsonLimit depth ≫= f) bs (S n).
Proof.
  intros Hd Hf w nodes Hw Hn. unfold mbind, ST_bind, st_bind, jsonLimit. cbn [fst snd].
  rewrite (proj2 (Z.ltb_ge 16 depth)), (proj2 (Z.ltb_ge 1024 (nodes + 1))) by lia. cbn [orb].
  specialize (Hf w (nodes + 1) Hw ltac:(lia)). destruct (room w (len bs)); [|done]. rewrite Hf. do 2 f_equal. lia.
Qed.

(** The two loops of [JSON_write]. *)
Definition write_items (depth : Z) : list JSONValue -> Counted writer unit := fix each l :=
  match l with
  | [] => mret tt
  | v :: l => _ ← JSON_write v (depth + 1); each l
  end.

Definition write_entries (depth : Z) : list (bytes * JSONValue) -> Counted writer unit := fix each l :=
  match l with
  | [] => mret tt
  | (key, v) :: l =>
      _ ← jsonLimit (depth + 1);
      _ ← lift (WriteUint32 jsonObjectValueID);
      _ ← lift (WriteString key);
      _ ← JSON_write v (depth + 1);
      each l
  end.

Lemma JSON_write_array depth l :
  JSON_write (JSON JSONArrayID false 0 [] l []) depth =
  (_ ← jsonLimit depth; _ ← lift (WriteUint32 JSONArrayID);
   if 1024 <? len l then st_err ErrInitConnectionOptions
   else (_ ← lift (WriteVectorHeader (len l)); write_items depth l)).
Proof. reflexivity. Qed.

Lemma JSON_write_object depth l :
  JSON_write (JSON JSONObjectID false 0 [] [] l) depth =
  (_ ← jsonLimit depth; _ ← lift (WriteUint32 JSONObjectID);
   if 1024 <? len l then st_err ErrInitConnectionOptions
   else (_ ← lift (WriteVectorHeader (len l)); write_entries depth l)).
Proof. reflexivity. Qed.

Lemma emits_items depth items :
  Forall (fun x => emitsC (JSON_write (to_value x) (depth + 1)) (enc_json x) (json_nodes x)) items ->
  emitsC (write_items depth (to_value <$> items)) (concat (enc_json <$> items)) (foldr (fun x n => json_nodes x + n)%nat 0%nat items).
Proof.
  induction 1 as [|x items Hx _ IH]; [apply emitsC_ret|].
  exact (emitsC_bind _ (fun _ => write_items depth (to_value <$> items)) _ _ _ _ Hx IH).
Qed.

Lemma emits_entries depth (entries : list (bytes * json)) :
  depth + 1 <= 16 \/ entries = [] ->
  Forall (fun e => len e.1 <= MaxTLBytesLength /\
     emitsC (JSON_write (to_value e.2) (depth + 1)) (enc_json e.2) (json_nodes e.2)) entries ->
  emitsC (write_entries depth ((fun e => (e.1, to_value e.2)) <$> entries))
    (concat ((fun e => le_put 4 jsonObjectValueID ++ enc_bytes e.1 ++ enc_json e.2) <$> entries))
    (foldr (fun e n => S (json_nodes e.2) + n)%nat 0%nat entries).
Proof.
  induction entries as [|e entries IH]; intros Hd Hf; [apply emitsC_ret|]. inv Hf.
  rewrite !fmap_cons. cbn [concat foldr]. destruct Hd as [Hd|]; [|done].
  destruct_and?. apply (emitsC_limit (depth + 1)); [done|]. rewrite <- !app_assoc.
  apply emitsC_step; [apply emits_WriteUint32|]. apply emitsC_step; [by apply emits_string|].
  apply emitsC_bind; [done|]. apply IH; [by left|done].
Qed.

Lemma emits_header n : 0 <= n <= 1024 -> emits (WriteVectorHeader n) (le_put 4 VectorConstructorID ++ enc_int32 n).
Proof. intros Hn. apply emits_WriteVectorHeader. unfold inS. lia. Qed.

Lemma emits_json j depth :
  json_ok j -> depth + Z.of_nat (json_depth j) <= 16 ->
  emitsC (JSON_write (to_value j) depth) (enc_json j) (json_nodes j).
Proof.
  revert depth. induction j as [|b|x|s|items IH|entries IH] using json_nested_ind; intros depth Hok Hdep.
  - rewrite <- (app_nil_r (enc_json JNull)). apply emitsC_limit; [cbn in *; lia|].
    apply emitsC_step; [apply emits_WriteUint32|apply emitsC_ret].
  - apply emitsC_limit; [cbn in *; lia|]. apply emitsC_step; [apply emits_WriteUint32|].
    apply (emitsC_lift (WriteBool b)). destruct b; apply emits_WriteUint32.
  - destruct Hok as [Hx Hfin]. apply emitsC_limit; [cbn in *; lia|]. apply emitsC_step; [apply emits_WriteUint32|].
    change (emitsC (if not_finite x then st_err ErrInitConnectionOptions else lift (WriteDouble x)) (le_put 8 x) 0).
    rewrite Hfin. apply emitsC_lift, emits_Write.
  - apply emitsC_limit; [cbn in *; lia|]. apply emitsC_step; [apply emits_WriteUint32|].
    by apply (emitsC_lift (WriteString s)), emits_string.
  - destruct Hok as [Hl Hok%foldr_and]. cbn [json_depth to_value] in *. rewrite JSON_write_array.
    apply emitsC_limit; [lia|]. apply emitsC_step; [apply emits_WriteUint32|].
    pose proof (len_nonneg items). unfold len in *. rewrite length_fmap, (proj2 (Z.ltb_ge _ _)) by lia.
    unfold enc_vector, enc_bare_vector. rewrite app_assoc. apply emitsC_step; [by apply emits_header|].
    assert (Hm : Forall (fun x => S (json_depth x) <= foldr (fun x n => Nat.max (S (json_depth x)) n) 0 items)%nat items) by by apply (foldr_max (fun x => S (json_depth x))).
    apply emits_items. rewrite !Forall_forall in *. intros x Hx. specialize (Hm x Hx). cbn beta in Hm. apply IH; [done|by apply Hok|lia].
  - destruct Hok as [Hl Hok%foldr_and]. cbn [json_depth to_value] in *. rewrite JSON_write_object.
    apply emitsC_limit; [lia|]. apply emitsC_step; [apply emits_WriteUint32|].
    pose proof (len_nonneg entries). unfold len in *. rewrite length_fmap, (proj2 (Z.ltb_ge _ _)) by lia.
    unfold enc_vector, enc_bare_vector. rewrite app_assoc. apply emitsC_step; [by apply emits_header|].
    assert (Hm : Forall (fun e => S (json_depth e.2) <= foldr (fun e n => Nat.max (S (json_depth e.2)) n) 0 entries)%nat entries) by by apply (foldr_max (fun e : bytes * json => S (json_depth e.2))).
    apply emits_entries.
    + destruct entries as [|e entries]; [by right|left]. cbn [foldr] in Hdep. lia.
    + rewrite !Forall_forall in *. intros e He. specialize (Hm e He). destruct (Hok e He) as [Hkey Hval]. cbn beta in Hm.
      split; [done|]. apply IH; [done|done|lia].
Qed.

(** * What reading produces *)

Lemma ReadFull_length n r bs r' : ReadFull n r = (Ok bs, r') -> length bs = n.
Proof.
  rewrite ReadFull_closed. cbn zeta. pose proof (deliverable_le n r) as [_ Hd].
  destruct (Nat.eqb_spec (deliverable n r) n) as [Heq|]; [|done]. intros [= <- <-]. rewrite length_take. lia.
Qed.

Lemma ReadFull_value n r bs r' : ReadFull n r = (Ok bs, r') -> 0 <= le_get bs < 256 ^ Z.of_nat n.
Proof. intros H%ReadFull_length. pose proof (le_get_range bs). unfold len in *. by rewrite H in *. Qed.

Lemma ReadUint32_typed r v r' : ReadUint32 r = (Ok v, r') -> inU 32 v.
Proof. unfold ReadUint32. intros H. st_inv. by eapply (ReadFull_value 4). Qed.

Lemma ReadUint64_typed r v r' : ReadUint64 r = (Ok v, r') -> inU 64 v.
Proof. unfold ReadUint64. intros H. st_inv. by eapply (ReadFull_value 8). Qed.

Lemma ReadInt32_typed r v r' : ReadInt32 r = (Ok v, r') -> inS 32 v.
Proof. unfold ReadInt32. intros H. st_inv. by apply wrapS_range. Qed.

Lemma ReadSizedBytes_length n r bs r' : ReadSizedBytes n r = (Ok bs, r') -> len bs = n.
Proof.
  unfold ReadSizedBytes. destruct (Z.ltb_spec n 0); [done|]. destruct (_ <? _); [done|].
  intros Hb%ReadFull_length. unfold len. lia.
Qed.

Lemma ReadString_typed r v r' : ReadString r = (Ok v, r') -> len v <= MaxTLBytesLength.
Proof.
  unfold ReadString, ReadBytes, MaxTLBytesLength. intros H. st_inv.
  match goal with H : ReadFull 1 _ = (Ok ?x, _) |- _ => apply (ReadFull_value 1) in H; set (first := le_get x) in * end.
  destruct (first =? 255); [done|]. st_inv.
  match goal with H : (if first <? 254 then _ else _) _ = (Ok ?x, _) |- _ => rename H into Hlh; destruct x as [l hs] end.
  assert (Hl : l < 2 ^ 24).
  { destruct (first <? 254); st_inv; [change (256 ^ Z.of_nat 1) with 256 in *; lia|].
    match goal with H : ReadFull 3 _ = _ |- _ => apply (ReadFull_value 3) in H; change (256 ^ Z.of_nat 3) with (2 ^ 24) in H end. lia. }
  destruct (MaxInt32 <? l); [done|]. st_inv.
  match goal with H : ReadSizedBytes _ _ = _ |- _ => apply ReadSizedBytes_length in H end.
  destruct (0 <? _); st_inv; lia.
Qed.

Lemma vectorLength_typed r k r' : readVectorLength 1024 r = (Ok k, r') -> Z.of_nat k <= 1024.
Proof.
  unfold readVectorLength. change (1024 <? 0) with false. cbn [negb]. intros H. st_inv.
  case_match; [done|]. st_inv. do 2 (case_match; [done|]). st_inv. bools. lia.
Qed.

Lemma lift_inv {S A} (m : ST S wire_error A) s a s' : lift m s = (Ok a, s') -> m s.1 = (Ok a, s'.1) /\ s'.2 = s.2.
Proof. unfold lift. destruct (m s.1) as [x s1] eqn:E. intros [= -> <-]. done. Qed.

Lemma scoped_inv {A} (m : Counted reader A) s a s' :
  scoped m s = (Ok a, s') -> exists r r', m (r, s.2) = (Ok a, (r', s'.2)).
Proof.
  unfold scoped. destruct (lift EnterObject s) as [[u|e] s1] eqn:E1; [|done]. apply lift_inv in E1 as [_ E1].
  destruct (m s1) as [x [r' n']] eqn:Em. intros [= -> <-]. exists s1.1, r'. rewrite <- E1. destruct s1. cbn [fst snd] in *. rewrite Em.
  unfold lift. by destruct (LeaveObject _).
Qed.

Lemma limit_inv {S} depth (s s' : S * Z) u : jsonLimit depth s = (Ok u, s') -> depth <= 16 /\ s'.2 = s.2 + 1 /\ s'.2 <= 1024.
Proof.
  unfold jsonLimit. destruct (Z.ltb_spec 16 depth); [done|]. destruct (Z.ltb_spec 1024 (s.2 + 1)); [done|].
  intros [= _ <-]. cbn. lia.
Qed.

(** A counted read whose results stand for [B]-values. *)
Definition reads {A B} (fn : Counted reader A) (g : B -> A) (ok : B -> Prop) (n : B -> nat) : Prop :=
  forall s a s', fn s = (Ok a, s') -> exists x, a = g x /\ ok x /\ s'.2 = s.2 + Z.of_nat (n x) /\ s'.2 <= 1024.

Lemma reads_repeat {A B} (fn : Counted reader A) (g : B -> A) ok n k s l s' :
  reads fn g ok n -> st_repeat k fn s = (Ok l, s') ->
  exists xs, l = g <$> xs /\ length xs = k /\ Forall ok xs /\ s'.2 = s.2 + Z.of_nat (foldr (fun x m => n x + m)%nat 0%nat xs) /\
    (s.2 <= 1024 -> s'.2 <= 1024).
Proof.
  intros Hfn. revert s l. induction k as [|k IH]; intros s l; cbn [st_repeat].
  - unfold st_ret. intros [= <- <-]. exists []. cbn. split_and!; try done. lia.
  - intros H. st_inv. match goal with H : fn _ = _ |- _ => apply Hfn in H as (y & -> & Hx & Hn & Hle) end.
    match goal with H : st_repeat _ _ _ = _ |- _ => apply IH in H as (xs & -> & Hl & Hok & Hs & Hb) end.
    exists (y :: xs). cbn [fmap list_fmap length foldr]. split_and!; [done|lia|by constructor|lia|auto].
Qed.

Lemma reads_vector {A B} (fn : Counted reader A) (g : B -> A) ok n s l s' :
  reads fn g ok n -> s.2 <= 1024 -> readCounted 1024 fn s = (Ok l, s') ->
  exists xs, l = g <$> xs /\ len xs <= 1024 /\ Forall ok xs /\
    s'.2 = s.2 + Z.of_nat (foldr (fun x m => n x + m)%nat 0%nat xs) /\ s'.2 <= 1024.
Proof.
  intros Hfn Hs H. unfold readCounted in H. st_inv.
  match goal with H : lift _ _ = _ |- _ => apply lift_inv in H as [Hk%vectorLength_typed Hn] end.
  match goal with H : st_repeat _ _ _ = _ |- _ => apply (reads_repeat _ _ _ _ _ _ _ _ Hfn) in H as (xs & -> & Hl & Hok & Hs' & Hb) end.
  exists xs. rewrite Hn in *. unfold len. split_and!; auto; lia.
Qed.

Lemma reads_entry (read : Counted reader JSONValue) depth d :
  reads read to_value (fun j => json_ok j /\ d + Z.of_nat (json_depth j) <= 16) json_nodes ->
  reads (readEntry read depth) (fun e => (e.1, to_value e.2))
    (fun e => (len e.1 <= MaxTLBytesLength /\ json_ok e.2) /\ d + Z.of_nat (json_depth e.2) <= 16)
    (fun e => S (json_nodes e.2)).
Proof.
  intros Hr s a s' H. unfold readEntry in H. st_inv.
  match goal with H : jsonLimit _ _ = _ |- _ => apply limit_inv in H as (Hd & Hn & Hle) end.
  match goal with H : scoped _ _ = _ |- _ => apply scoped_inv in H as (r & r' & H) end. st_inv.
  match goal with H : lift ReadUint32 _ = _ |- _ => apply lift_inv in H as [_ En1] end.
  case_match; [done|]. st_inv.
  match goal with H : lift ReadString _ = _ |- _ => apply lift_inv in H as [Hk%ReadString_typed En2] end.
  match goal with H : read _ = _ |- _ => apply Hr in H as (j & -> & [Hok Hdj] & Hs & Hb) end.
  eexists (_, j). cbn [fst snd] in *. split_and!; try done. lia.
Qed.

Lemma readKind_cases (read : Counted reader JSONValue) depth kind s v s' :
  readKind read depth kind s = (Ok v, s') ->
  (exists j, json_depth j = 0%nat /\ v = to_value j /\ json_ok j /\ json_nodes j = 1%nat /\ s'.2 = s.2) \/
  (exists l, v = JSON JSONArrayID false 0 [] l [] /\ readCounted 1024 read s = (Ok l, s')) \/
  (exists l, v = JSON JSONObjectID false 0 [] [] l /\ readCounted 1024 (readEntry read depth) s = (Ok l, s')).
Proof.
  unfold readKind.
  destruct (Z.eqb_spec kind JSONNullID) as [->|_]; [intros H; st_inv; left; by exists JNull|].
  destruct (Z.eqb_spec kind JSONBoolID) as [->|_].
  { intros H. st_inv. apply lift_inv in H as [_ Hs]. left. by eexists (JBool _). }
  destruct (Z.eqb_spec kind JSONNumberID) as [->|_].
  { intros H. st_inv. apply lift_inv in H as [Hx%ReadUint64_typed Hs]. destruct (not_finite x) eqn:Ef; [done|]. st_inv.
    left. eexists (JNumber _). by split_and!. }
  destruct (Z.eqb_spec kind JSONStringID) as [->|_].
  { intros H. st_inv. apply lift_inv in H as [Hx%ReadString_typed Hs]. left. eexists (JString _). by split_and!. }
  destruct (Z.eqb_spec kind JSONArrayID) as [->|_]; [intros H; st_inv; right; left; by eexists|].
  destruct (Z.eqb_spec kind JSONObjectID) as [->|_]; [intros H; st_inv; right; right; by eexists|done].
Qed.

(** Whatever is read stands for a value of the union within both limits. *)
Lemma reads_json fuel depth :
  0 <= depth -> reads (JSON_read fuel depth) to_value
    (fun j => json_ok j /\ depth + Z.of_nat (json_depth j) <= 16) json_nodes.
Proof.
  revert depth. induction fuel as [|fuel IH]; intros depth Hd s v s'; [done|]. cbn [JSON_read]. intros H. st_inv.
  apply limit_inv in H as (Hlim & Hn & Hle). apply scoped_inv in H0 as (r & r' & H0). st_inv.
  apply lift_inv in H as [_ Hn']. cbn [snd] in Hn'. specialize (IH (depth + 1) ltac:(lia)).
  apply readKind_cases in H0 as [(j & Hdj & -> & Hok & Hnj & Hs)|[(l & -> & Hl)|(l & -> & Hl)]].
  - exists j. cbn [snd] in Hs. rewrite Hdj, Hnj. split_and!; try done; lia.
  - apply (reads_vector _ _ _ _ _ _ _ IH) in Hl as (xs & -> & Hlen & Hok & Hs & Hb); [|lia]. cbn [snd] in *.
    exists (JArray xs). cbn [to_value json_ok json_depth json_nodes]. rewrite foldr_and. split_and!; try done; [|  |lia].
    + eapply Forall_impl; [exact Hok|]. by intros ? [? _].
    + assert (foldr (fun x n => Nat.max (S (json_depth x)) n) 0 xs <= Z.to_nat (16 - depth))%nat; [|lia].
      apply (foldr_max (fun x => S (json_depth x))). eapply Forall_impl; [exact Hok|]. intros ? [_ ?]. cbn beta. lia.
  - apply (reads_vector _ _ _ _ _ _ _ (reads_entry _ depth _ IH)) in Hl as (xs & -> & Hlen & Hok & Hs & Hb); [|lia]. cbn [snd] in *.
    exists (JObject xs). cbn [to_value json_ok json_depth json_nodes]. rewrite foldr_and. split_and!; try done; [|  |lia].
    + eapply Forall_impl; [exact Hok|]. by intros ? [? _].
    + assert (foldr (fun e n => Nat.max (S (json_depth e.2)) n) 0 xs <= Z.to_nat (16 - depth))%nat; [|lia].
      apply (foldr_max (fun e : bytes * json => S (json_depth e.2))). eapply Forall_impl; [exact Hok|]. intros ? [_ ?]. cbn beta. lia.
Qed.

(** More levels of calls than the depth limit leaves change nothing. *)
Lemma st_repeat_ext {S E A} (f g : ST S E A) n : (forall s, f s = g s) -> forall s, st_repeat n f s = st_repeat n g s.
Proof.
  intros Hfg. induction n as [|n IH]; intros s; [done|]. cbn [st_repeat]. unfold st_bind. rewrite Hfg.
  destruct (g s) as [[x|] s1]; [|done]. by rewrite IH.
Qed.

Lemma readKind_ext (f g : Counted reader JSONValue) depth kind :
  (forall s, f s = g s) -> forall s, readKind f depth kind s = readKind g depth kind s.
Proof.
  intros Hfg s. unfold readKind. repeat (destruct (_ =? _); [try done|]); [..|done].
  - unfold readCounted, mbind, ST_bind, st_bind. destruct (lift _ s) as [[k|] s1]; [|done]. by rewrite (st_repeat_ext f g).
  - unfold readCounted, mbind, ST_bind, st_bind. destruct (lift _ s) as [[k|] s1]; [|done].
    rewrite (st_repeat_ext (readEntry f depth) (readEntry g depth)); [done|].
    intros s2. unfold readEntry, mbind, ST_bind, st_bind, scoped. destruct (jsonLimit _ s2) as [[?|] s3]; [|done].
    destruct (lift EnterObject s3) as [[?|] s4]; [|done]. destruct (lift ReadUint32 s4) as [[c|] s5]; [|done].
    destruct (negb _); [done|]. destruct (lift ReadString s5) as [[key|] s6]; [|done]. by rewrite Hfg.
Qed.

Lemma JSON_read_fuel fuel depth s :
  0 <= depth -> (1 <= fuel)%nat -> 18 <= depth + Z.of_nat fuel -> JSON_read fuel depth s = JSON_read (S fuel) depth s.
Proof.
  revert depth s. induction fuel as [|fuel IH]; intros depth s Hd H1 Hf; [lia|].
  change (JSON_read (S (S fuel)) depth) with
    (_ ← jsonLimit depth; scoped (kind ← lift ReadUint32; readKind (JSON_read (S fuel) (depth + 1)) depth kind)).
  change (JSON_read (S fuel) depth) with
    (_ ← jsonLimit depth; scoped (kind ← lift ReadUint32; readKind (JSON_read fuel (depth + 1)) depth kind)).
  unfold mbind, ST_bind, st_bind. destruct (jsonLimit depth s) as [[u|] s1] eqn:El; [|done].
  apply limit_inv in El as (Hlim & _). unfold scoped. destruct (lift EnterObject s1) as [[?|] s2]; [|done].
  destruct (lift ReadUint32 s2) as [[kind|] s3]; [|done].
  rewrite (readKind_ext (JSON_read fuel (depth + 1)) (JSON_read (S fuel) (depth + 1))); [done|].
  intros s4. apply IH; lia.
Qed.

(** * initConnection *)

Definition enc_proxy (p : InputClientProxy) : bytes :=
  le_put 4 inputClientProxyID ++ enc_bytes (px_Address p) ++ enc_int32 (px_Port p).

(** A value within the limits, with what it stands for. *)
Definition params_ok (v : JSONValue) (j : json) : Prop :=
  v = to_value j /\ json_ok j /\ Z.of_nat (json_depth j) <= 16 /\ Z.of_nat (json_nodes j) <= 1024.

Definition proxy_ok (p : InputClientProxy) : Prop := len (px_Address p) <= MaxTLBytesLength /\ 1 <= px_Port p <= 65535.

Record init_ok (m : InitConnection) (j : option json) : Prop := {
  io_flags : inU 32 (ic_Flags m) /\ Z.land (ic_Flags m) (uint32 (Z.lnot initConnectionKnownFlags)) = 0;
  io_api : inS 32 (ic_APIID m);
  io_strings : Forall (fun s => len s <= MaxTLBytesLength)
    [ic_DeviceModel m; ic_SystemVersion m; ic_AppVersion m; ic_SystemLangCode m; ic_LangPack m; ic_LangCode m];
  io_proxy : is_some (ic_Proxy m) = negb (Z.land (ic_Flags m) 1 =? 0) /\ from_option proxy_ok True (ic_Proxy m);
  io_params : is_some (ic_Params m) = negb (Z.land (ic_Flags m) 2 =? 0);
  io_value : match ic_Params m, j with Some v, Some j => params_ok v j | None, None => True | _, _ => False end
}.

Definition enc_init (m : InitConnection) (j : option json) : bytes :=
  le_put 4 InitConnectionID ++ le_put 4 (ic_Flags m) ++ enc_int32 (ic_APIID m) ++ enc_bytes (ic_DeviceModel m) ++
  enc_bytes (ic_SystemVersion m) ++ enc_bytes (ic_AppVersion m) ++ enc_bytes (ic_SystemLangCode m) ++
  enc_bytes (ic_LangPack m) ++ enc_bytes (ic_LangCode m) ++
  (from_option enc_proxy [] (ic_Proxy m) ++ from_option enc_json [] j) ++ ic_QueryRaw m.

Definition init_cost (j : option json) : cost := from_option json_cost no_cost j.

Lemma emits_proxy p : proxy_ok p -> emits (write_proxy p) (enc_proxy p).
Proof.
  intros [Ha Hp]. unfold write_proxy. rewrite !(proj2 (Z.ltb_ge _ _)) by lia. cbn [orb]. unfold enc_proxy. eauto with tlrpc.
Qed.

Lemma emits_params v j : params_ok v j -> emits (write_params v) (enc_json j).
Proof.
  intros (-> & Hok & Hd & Hn) w Hw. pose proof (emits_json j 0 Hok ltac:(lia) w 0 Hw ltac:(lia)) as H. unfold write_params.
  destruct (room w _); [by rewrite H|]. destruct H as [s ->]. by eexists.
Qed.

Lemma emits_options m j : init_ok m j -> emits (writeOptions m) (from_option enc_proxy [] (ic_Proxy m) ++ from_option enc_json [] j).
Proof.
  intros [[_ Hf] _ _ [Hp Hpo] Hv Hj]. unfold writeOptions. rewrite Hf, Hp, Hv, !Bool.eqb_reflx. cbn [Z.eqb negb orb].
  apply emits_bind.
  - destruct (ic_Proxy m); [by apply emits_proxy|apply emits_ret].
  - destruct (ic_Params m), j; try done; [by apply emits_params|apply emits_ret].
Qed.

Lemma consumes_proxy p : proxy_ok p -> consumes read_proxy (enc_proxy p) no_cost p.
Proof.
  intros [Ha Hp]. unfold read_proxy, enc_proxy. eapply consumes_step; [apply consumes_ReadUint32; by vm_compute|].
  rewrite Z.eqb_refl. cbn [negb]. eapply consumes_step; [by apply consumes_ReadString|]. rewrite <- (app_nil_r (enc_int32 _)).
  eapply consumes_step; [apply consumes_ReadInt32; unfold inS; lia|]. rewrite !(proj2 (Z.ltb_ge _ _)) by lia. cbn [orb].
  destruct p. apply consumes_ret.
Qed.

Lemma consumes_params v j : params_ok v j -> consumes read_params (enc_json j) (json_cost j) v.
Proof.
  intros (-> & Hok & Hd & Hn) rest bud Ha. unfold read_params.
  rewrite (consumes_json j json_fuel 0); try done; unfold json_fuel; lia.
Qed.

Lemma consumes_optional {A} (b : bool) (m : RD A) (o : option A) bs c :
  is_some o = b -> match o with Some a => consumes m bs c a | None => bs = [] /\ c = no_cost end ->
  consumes (optional b m) bs c o.
Proof.
  intros <- H. destruct o as [a|]; cbn [is_some optional].
  - by apply (consumes_last m Some).
  - destruct H as [-> ->]. apply consumes_ret.
Qed.

Lemma consumes_options m j :
  init_ok m j -> consumes (readOptions (ic_Flags m)) (from_option enc_proxy [] (ic_Proxy m) ++ from_option enc_json [] j)
    (init_cost j) (ic_Proxy m, ic_Params m).
Proof.
  intros [[_ Hf] _ _ [Hp Hpo] Hv Hj]. unfold readOptions. rewrite Hf. cbn [Z.eqb negb].
  eapply consumes_step; [apply consumes_optional; [done|]|].
  { destruct (ic_Proxy m); [by apply consumes_proxy|done]. }
  apply (consumes_last (optional _ _) (pair (ic_Proxy m))), consumes_optional; [done|].
  unfold init_cost. destruct (ic_Params m), j; try done. by apply consumes_params.
Qed.

Lemma emits_init m j : init_ok m j -> emits (InitConnection_SerializeTL m) (enc_init m j).
Proof.
  intros Hok. pose proof (io_strings _ _ Hok) as Hs. rewrite !Forall_cons in Hs. destruct_and!.
  unfold InitConnection_SerializeTL, enc_init.
  repeat (apply emits_bind; [first [apply emits_WriteUint32|apply emits_WriteInt32|by apply emits_string|by apply emits_options]|]).
  apply emits_Write.
Qed.

Lemma drains_init m j : init_ok m j -> drains InitConnection_DeserializeTL (enc_init m j) (init_cost j) m.
Proof.
  intros Hok. pose proof (io_strings _ _ Hok) as Hs. rewrite !Forall_cons in Hs. destruct_and!.
  unfold InitConnection_DeserializeTL, enc_init. apply drains_constructor; [by vm_compute|].
  eapply drains_step; [apply consumes_ReadUint32; apply (io_flags _ _ Hok)|].
  eapply drains_step; [apply consumes_ReadInt32, (io_api _ _ Hok)|].
  do 6 (eapply drains_step; [by apply consumes_ReadString|]).
  rewrite <- (cost_seq_no (init_cost j)). eapply drains_bind; [by apply consumes_options|].
  destruct m; cbn. apply drains_rest.
Qed.

(** * Decoded objects are valid *)

Lemma optional_inv {A} b (m : RD A) r o r' :
  optional b m r = (Ok o, r') -> is_some o = b /\ match o with Some a => exists r1 r2, m r1 = (Ok a, r2) | None => True end.
Proof. unfold optional. destruct b; intros H; st_inv; cbn; eauto. Qed.

Lemma read_proxy_ok r p r' : read_proxy r = (Ok p, r') -> proxy_ok p.
Proof.
  unfold read_proxy. intros H. st_inv. case_match; [done|]. st_inv. case_match; [done|]. st_inv. bools.
  split; [by eapply ReadString_typed|cbn; lia].
Qed.

Lemma read_params_ok r v r' : read_params r = (Ok v, r') -> exists j, params_ok v j.
Proof.
  unfold read_params. destruct (JSON_read json_fuel 0 (r, 0)) as [x s] eqn:E. intros [= -> <-].
  apply (reads_json json_fuel 0 ltac:(lia)) in E as (j & -> & [Hok Hd] & Hn & Hb). exists j. cbn [snd] in *. split_and!; try done; lia.
Qed.

Lemma readOptions_ok flags r o r' :
  readOptions flags r = (Ok o, r') ->
  Z.land flags (uint32 (Z.lnot initConnectionKnownFlags)) = 0 /\
  (is_some o.1 = negb (Z.land flags 1 =? 0) /\ from_option proxy_ok True o.1) /\
  is_some o.2 = negb (Z.land flags 2 =? 0) /\ exists j,
    match o.2, j with Some v, Some j => params_ok v j | None, None => True | _, _ => False end.
Proof.
  unfold readOptions. intros H. case_match; [done|]. st_inv. bools.
  match goal with H : optional _ read_proxy _ = (Ok ?o, _) |- _ => rename o into proxy; apply optional_inv in H as [Hp Hpo] end.
  match goal with H : optional _ read_params _ = (Ok ?o, _) |- _ => rename o into params; apply optional_inv in H as [Hv Hvo] end.
  cbn [fst snd]. split_and!; try done.
  - destruct proxy as [p|]; [|done]. destruct Hpo as (r1 & r2 & Hr). by eapply read_proxy_ok.
  - destruct params as [v|]; [|by exists None]. destruct Hvo as (r1 & r2 & Hr). destruct (read_params_ok _ _ _ Hr) as [j Hj].
    by exists (Some j).
Qed.

Lemma decoded_init_ok r m r' : InitConnection_DeserializeTL r = (Ok m, r') -> exists j, init_ok m j.
Proof.
  unfold InitConnection_DeserializeTL. intros H. st_inv.
  match goal with H : readOptions _ _ = _ |- _ => apply readOptions_ok in H as (Hf & Hp & Hv & j & Hj) end.
  exists j. split; cbn; try done.
  - split; [by eapply ReadUint32_typed|done].
  - by eapply ReadInt32_typed.
  - repeat (apply Forall_cons; split; [by eapply ReadString_typed|]). constructor.
Qed.

(** * Properties *)

(** initConnection round trips with its options: an object whose fields fit, whose
    flags match the options present and whose parameters are a JSON value of at most
    16 levels and 1024 nodes is written as its encoding, or refused for lack of room,
    and read back exactly under any budget that affords its bytes, vector elements,
    nodes and nesting; conversely whatever is decoded from any input is such an
    object, so it can be written again; and the recursion needs no more levels than
    the depth limit leaves. *)
Lemma init_connection_roundtrip (m : InitConnection) (j : option json) :
  init_ok m j ->
  (forall w, w_ok w ->
     if room w (len (enc_init m j)) then InitConnection_SerializeTL m w = (Ok tt, written w (enc_init m j))
     else exists w', InitConnection_SerializeTL m w = (Err ErrEncodedPayloadTooLarge, w')) /\
  (forall bud, affords bud (len (enc_init m j)) (init_cost j) ->
     InitConnection_DeserializeTL (Reader (enc_init m j) bud) =
     (Ok m, Reader [] (charged (len (enc_init m j)) (init_cost j) bud))) /\
  (forall r m' r', InitConnection_DeserializeTL r = (Ok m', r') -> exists j', init_ok m' j') /\
  (forall fuel s, (json_fuel <= fuel)%nat -> JSON_read fuel 0 s = JSON_read json_fuel 0 s).
Proof.
  intros Hok. split_and!; [by apply emits_init|by apply drains_init|by apply decoded_init_ok|].
  intros fuel s Hf. induction Hf as [|fuel Hf IH]; [done|]. rewrite <- IH. symmetry. apply JSON_read_fuel; unfold json_fuel in *; lia.
Qed.

Definition sample_params : json :=
  JObject [([x61], JArray [JNumber 0x3ff0000000000000; JNull]); ([x62], JString [x63; x64])].

Definition sample_init : InitConnection :=
  {| ic_Flags := 3; ic_APIID := 7; ic_DeviceModel := [x64]; ic_SystemVersion := [x73]; ic_AppVersion := [x61];
     ic_SystemLangCode := [x65]; ic_LangPack := []; ic_LangCode := [x66];
     ic_Proxy := Some {| px_Address := [x31]; px_Port := 443 |}; ic_Params := Some (to_value sample_params);
     ic_QueryRaw := [x01; x02; x03; x04] |}.

Lemma init_connection_roundtrip_witness :
  InitConnection_DeserializeTL (Reader (enc_init sample_init (Some sample_params)) None) = (Ok sample_init, Reader [] None).
Proof.
  apply (init_connection_roundtrip sample_init (Some sample_params)); [|done]. split; cbn.
  - split; [split; by vm_compute|by vm_compute].
  - split; by vm_compute.
  - repeat constructor; by vm_compute.
  - split; [done|]. split; [by vm_compute|cbn; lia].
  - done.
  - unfold params_ok. split_and!; try done; by vm_compute.
Defined.
