(* ===== verification/Normalize.v ===== *)
(** Request normalization (internal/runtime/wrappers.go, and decodeControlBudget of
    control.go): the runtime-owned wrappers around a query are removed, outermost
    first, under the envelope's decode budget, and turned into session mutations,
    dependencies and the push suppression mark.

    The budget is shared by pointer with the other messages of the envelope, so it is
    the state of the computation and changes also when normalization fails. *)

From stdpp Require Import base numbers list gmap sets strings.
From S2P Require Import Prelude Wire Tl Contracts Gzip InitConnection.
Open Scope Z_scope.

Definition DefaultWrapperDepth : Z := 16.
Definition MaxInvokeAfterDependencies : Z := 64.

Inductive request_error :=
| ReqDecode (e : wire_error)
| ErrWrapperDepth
| ErrInvalidNestedQuery
| ErrInvalidLayer
| ErrInvalidInvokeAfter.

Record WrapperConfig := { wc_SchemaLayer : Z; wc_MaxDecodedPayload : Z; wc_MaxDepth : Z }.

Abbreviation NR := (ST (option DecodeBudget) request_error).

(** One object that must fill the body. *)
Definition decodeControlBudget {A} (body : bytes) (value : RD A) : NR A := fun budget =>
  match value (Reader body budget) with
  | (Err e, reader) => (Err (ReqDecode e), rd_budget reader)
  | (Ok a, reader) =>
      if negb (Len reader =? 0) then (Err (ReqDecode (ErrTrailingControlData (Len reader))), rd_budget reader)
      else (Ok a, rd_budget reader)
  end.

Definition runtimeWrapperConstructor (constructorID : Z) : bool :=
  (constructorID =? GzipPackedID) || (constructorID =? InvokeWithLayerID) || (constructorID =? InitConnectionID) ||
  (constructorID =? InvokeAfterMsgID) || (constructorID =? InvokeAfterMsgsID) || (constructorID =? InvokeWithoutUpdatesID).

(** The loop over the dependencies: the ones kept so far, in order, and seen. *)
Fixpoint keepDependencies (messageID : Z) (seen : gset Z) (dependencies kept : list Z) : result request_error (list Z) :=
  match dependencies with
  | [] => Ok kept
  | d :: rest =>
      if (d =? 0) || (messageID <=? d) then Err ErrInvalidInvokeAfter
      else if bool_decide (d ∈ seen) then keepDependencies messageID seen rest kept
      else keepDependencies messageID ({[d]} ∪ seen) rest (kept ++ [d])
  end.

Definition setInvokeAfterDependencies (messageID : Z) (dependencies : list Z) : result request_error (list Z) :=
  if (len dependencies =? 0) || (MaxInvokeAfterDependencies <? len dependencies) then Err ErrInvalidInvokeAfter
  else
    kept ← keepDependencies messageID ∅ dependencies [];
    if len kept =? 0 then Err ErrInvalidInvokeAfter else mret kept.

(** Field updates of a message. *)
Definition with_body (body : bytes) (m : InboundMessage) : InboundMessage :=
  {| im_MessageID := im_MessageID m; im_SequenceNo := im_SequenceNo m; im_ConstructorID := le_get (take 4 body);
     im_Body := body; im_Dependencies := im_Dependencies m; im_DecodeBudget := im_DecodeBudget m;
     im_ContentRelated := im_ContentRelated m; im_SuppressPush := im_SuppressPush m; im_Retransmission := im_Retransmission m |}.
Definition with_dependencies (ds : list Z) (m : InboundMessage) : InboundMessage :=
  {| im_MessageID := im_MessageID m; im_SequenceNo := im_SequenceNo m; im_ConstructorID := im_ConstructorID m;
     im_Body := im_Body m; im_Dependencies := ds; im_DecodeBudget := im_DecodeBudget m;
     im_ContentRelated := im_ContentRelated m; im_SuppressPush := im_SuppressPush m; im_Retransmission := im_Retransmission m |}.
Definition suppressing (m : InboundMessage) : InboundMessage :=
  {| im_MessageID := im_MessageID m; im_SequenceNo := im_SequenceNo m; im_ConstructorID := im_ConstructorID m;
     im_Body := im_Body m; im_Dependencies := im_Dependencies m; im_DecodeBudget := im_DecodeBudget m;
     im_ContentRelated := im_ContentRelated m; im_SuppressPush := true; im_Retransmission := im_Retransmission m |}.

(** A Go string made of bytes. *)
Abbreviation text := String.string_of_list_byte.

Definition client_metadata (m : InitConnection) : SessionMutation :=
  SetClientMetadata (ic_APIID m) (text (ic_DeviceModel m)) (text (ic_SystemVersion m)) (text (ic_AppVersion m))
    (text (ic_SystemLangCode m)) (text (ic_LangPack m)) (text (ic_LangCode m)).

Definition raise {A} (e : request_error) : NR A := st_err e.
Definition of_result {A} (r : result request_error A) : NR A := fun s => (r, s).

Section Normalize.
Context {G : GzipReader}.

(** [decoded] of the gzip_packed case. *)
Definition decompress (config : WrapperConfig) (packed : bytes) : NR bytes := fun budget =>
  match budget with
  | Some b =>
      match DecompressGzipWithBudget packed b b with
      | Ok (decoded, b') => (Ok decoded, Some b')
      | Err e => (Err (ReqDecode e), budget)
      end
  | None => (map_err ReqDecode (DecompressGzip packed (wc_MaxDecodedPayload config)), budget)
  end.

(** The switch of the loop: [None] for the default case, else what is nested, the
    message as changed and the mutations appended. *)
Definition unwrap (config : WrapperConfig) (depth : Z) (m : InboundMessage)
  : NR (option (bytes * InboundMessage * list SessionMutation)) :=
  let body := im_Body m in
  let constructorID := le_get (take 4 body) in
  if constructorID =? GzipPackedID then
    packed ← decodeControlBudget body GzipPacked_DeserializeTL;
    decoded ← decompress config packed;
    mret (Some (decoded, m, []))
  else if constructorID =? InvokeWithLayerID then
    wrapper ← decodeControlBudget body InvokeWithLayer_DeserializeTL;
    let layer := il_Layer wrapper in
    if layer <=? 0 then raise ErrInvalidLayer
    else
      let layer := if (0 <? wc_SchemaLayer config) && (wc_SchemaLayer config <? layer) then wc_SchemaLayer config else layer in
      mret (Some (il_QueryRaw wrapper, m, [SetLayer layer]))
  else if constructorID =? InitConnectionID then
    wrapper ← decodeControlBudget body InitConnection_DeserializeTL;
    mret (Some (ic_QueryRaw wrapper, m, [client_metadata wrapper]))
  else if constructorID =? InvokeAfterMsgID then
    if negb (depth =? 0) then raise ErrInvalidInvokeAfter
    else
      wrapper ← decodeControlBudget body InvokeAfterMsg_DeserializeTL;
      ds ← of_result (setInvokeAfterDependencies (im_MessageID m) [ia_MsgID wrapper]);
      mret (Some (ia_QueryRaw wrapper, with_dependencies ds m, []))
  else if constructorID =? InvokeAfterMsgsID then
    if negb (depth =? 0) then raise ErrInvalidInvokeAfter
    else
      wrapper ← decodeControlBudget body InvokeAfterMsgs_DeserializeTL;
      ds ← of_result (setInvokeAfterDependencies (im_MessageID m) (ias_MsgIDs wrapper));
      mret (Some (ias_QueryRaw wrapper, with_dependencies ds m, []))
  else if constructorID =? InvokeWithoutUpdatesID then
    query ← decodeControlBudget body InvokeWithoutUpdates_DeserializeTL;
    mret (Some (query, suppressing m, []))
  else mret None.

(** [mtproto.ConsumeWrapper] on a reader of the budget. *)
Definition consumeWrapper : NR unit := fun budget =>
  match ConsumeWrapper (Reader [] budget) with
  | (Ok _, r) => (Ok tt, rd_budget r)
  | (Err e, r) => (Err (ReqDecode e), rd_budget r)
  end.

(** The loop with [n] iterations left. *)
Fixpoint normalizeLoop (n : nat) (config : WrapperConfig) (maxDepth depth : Z) (m : InboundMessage)
    (mutations : list SessionMutation) : NR (InboundMessage * list SessionMutation) :=
  match n with
  | O => raise ErrWrapperDepth
  | S n =>
      if len (im_Body m) <? 4 then raise ErrInvalidNestedQuery
      else
        let wrapper := runtimeWrapperConstructor (le_get (take 4 (im_Body m))) in
        if (depth =? maxDepth) && wrapper then raise ErrWrapperDepth
        else
          _ ← (if wrapper then consumeWrapper else mret tt);
          layer ← unwrap config depth m;
          match layer with
          | None => mret (with_body (im_Body m) m, mutations)
          | Some (nested, m, more) =>
              if len nested <? 4 then raise ErrInvalidNestedQuery
              else normalizeLoop n config maxDepth (depth + 1) (with_body nested m) (mutations ++ more)
          end
  end.

Definition NormalizeRequest (m : InboundMessage) (config : WrapperConfig) : NR (InboundMessage * list SessionMutation) :=
  let maxDepth := default_if_zero (wc_MaxDepth config) DefaultWrapperDepth in
  if maxDepth <? 0 then raise ErrWrapperDepth
  else normalizeLoop (S (Z.to_nat maxDepth)) config maxDepth 0 m [].

End Normalize.

(** What one intent of a request made without updates contributes. *)
Fixpoint suppressIntent (intent : Intent) : list Intent :=
  match intent with
  | Push _ => []
  | Batch items =>
      let children := concat (suppressIntent <$> items) in
      if len children =? 0 then [] else [Batch children]
  | _ => [intent]
  end.

Definition suppressPushIntents (intents : list Intent) : list Intent := concat (suppressIntent <$> intents).

(** * Dependencies *)

(** First occurrences, in order. *)
Fixpoint first_occurrences (seen : gset Z) (l : list Z) : list Z :=
  match l with
  | [] => []
  | x :: l => if bool_decide (x ∈ seen) then first_occurrences seen l else x :: first_occurrences ({[x]} ∪ seen) l
  end.

Lemma keepDependencies_spec id seen ds kept :
  keepDependencies id seen ds kept =
    if forallb (fun d => negb (d =? 0) && (d <? id)) ds then Ok (kept ++ first_occurrences seen ds) else Err ErrInvalidInvokeAfter.
Proof.
  revert seen kept. induction ds as [|d ds IH]; intros seen kept; cbn; [by rewrite app_nil_r|].
  destruct (Z.eqb_spec d 0); [done|]. destruct (Z.leb_spec id d) as [Hle|Hlt]; cbn.
  { by rewrite (proj2 (Z.ltb_ge d id)) by lia. }
  rewrite (proj2 (Z.ltb_lt d id)) by lia. cbn. rewrite !IH. case_bool_decide; [done|].
  destruct (forallb _ _); [|done]. by rewrite <- app_assoc.
Qed.

Lemma first_occurrences_spec seen l :
  NoDup (first_occurrences seen l) /\ forall x, x ∈ first_occurrences seen l <-> x ∈ l /\ x ∉ seen.
Proof.
  revert seen. induction l as [|y l IH]; intros seen; cbn.
  { split; [constructor|]. intros x. set_solver. }
  case_bool_decide as Hy.
  - destruct (IH seen) as [Hn Hm]. split; [done|]. intros x. rewrite Hm. set_solver.
  - destruct (IH ({[y]} ∪ seen)) as [Hn Hm]. split.
    + constructor; [|done]. rewrite Hm. set_solver.
    + intros x. rewrite elem_of_cons, Hm, elem_of_cons. destruct (decide (x = y)); set_solver.
Qed.

Definition dependencies_ok (id : Z) (ds : list Z) : Prop :=
  ds <> [] /\ len ds <= MaxInvokeAfterDependencies /\ Forall (fun d => d <> 0 /\ d < id) ds.

Lemma setInvokeAfterDependencies_ok id ds :
  dependencies_ok id ds -> setInvokeAfterDependencies id ds = Ok (first_occurrences ∅ ds).
Proof.
  intros (Hne & Hl & Hf). unfold setInvokeAfterDependencies. destruct ds as [|d ds]; [done|].
  rewrite (proj2 (Z.eqb_neq _ 0)) by (rewrite len_cons; pose proof (len_nonneg ds); lia).
  rewrite (proj2 (Z.ltb_ge _ _)) by done. cbn [orb]. rewrite keepDependencies_spec.
  assert (forallb (fun d => negb (d =? 0) && (d <? id)) (d :: ds) = true) as ->.
  { apply Is_true_true, forallb_True, Forall_forall. rewrite Forall_forall in Hf. intros x Hx. specialize (Hf x Hx).
    rewrite (proj2 (Z.eqb_neq x 0)), (proj2 (Z.ltb_lt x id)) by lia. exact I. }
  cbn [mbind result_bind app first_occurrences]. rewrite bool_decide_false by set_solver.
  rewrite (proj2 (Z.eqb_neq _ 0)); [done|]. rewrite len_cons. pose proof (len_nonneg (first_occurrences ({[d]} ∪ ∅) ds)). lia.
Qed.

Lemma setInvokeAfterDependencies_sound id ds kept :
  setInvokeAfterDependencies id ds = Ok kept ->
  kept = first_occurrences ∅ ds /\ NoDup kept /\ len kept <= MaxInvokeAfterDependencies /\
  Forall (fun d => d <> 0 /\ d < id) kept /\ forall d, d ∈ kept <-> d ∈ ds.
Proof.
  unfold setInvokeAfterDependencies. case_match eqn:El; [done|]. rewrite keepDependencies_spec.
  destruct (forallb _ _) eqn:Ef; [|done]. cbn [mbind result_bind app]. case_match; [done|]. intros [= <-]. bools.
  destruct (first_occurrences_spec ∅ ds) as [Hn Hm]. assert (Hmem : forall d, d ∈ first_occurrences ∅ ds <-> d ∈ ds) by (intros d; rewrite Hm; set_solver).
  split_and!; try done.
  - etrans; [|eassumption]. unfold len. apply inj_le. by apply submseteq_length, NoDup_submseteq; [|intros x; rewrite Hmem].
  - rewrite Forall_forall. intros d Hd%Hmem. apply Is_true_true, forallb_True in Ef. rewrite Forall_forall in Ef. specialize (Ef d Hd).
    apply Is_true_true in Ef. bools. done.
Qed.

(** * Wrapped queries *)

(** One wrapper, without the query it carries. *)
Inductive layer :=
| LGzip (packed : bytes)
| LWithLayer (n : Z)
| LInit (m : InitConnection) (j : option json)
| LAfterMsg (id : Z)
| LAfterMsgs (ids : list Z)
| LWithoutUpdates.

(** The wrapper around a query; compressed content is the wrapper's own. *)
Definition frame (l : layer) (nested : bytes) : bytes :=
  match l with
  | LGzip packed => encode (OGzipPacked packed)
  | LWithLayer n => encode (OInvokeWithLayer {| il_Layer := n; il_QueryRaw := nested |})
  | LInit m j => enc_init m j
  | LAfterMsg id => encode (OInvokeAfterMsg {| ia_MsgID := id; ia_QueryRaw := nested |})
  | LAfterMsgs ids => encode (OInvokeAfterMsgs {| ias_MsgIDs := ids; ias_QueryRaw := nested |})
  | LWithoutUpdates => encode (OInvokeWithoutUpdates nested)
  end.

Definition layer_cost (l : layer) : cost :=
  match l with
  | LInit _ j => init_cost j
  | LAfterMsgs ids => vector_cost (fun _ => no_cost) ids
  | _ => no_cost
  end.

(** A well-formed wrapper of the query in the message with this id, at this depth. *)
Definition layer_ok (id depth : Z) (l : layer) (nested : bytes) : Prop :=
  match l with
  | LGzip packed => len packed <= MaxTLBytesLength
  | LWithLayer n => 0 < n < 2 ^ 31
  | LInit m j => init_ok m j /\ ic_QueryRaw m = nested
  | LAfterMsg d => depth = 0 /\ inS 64 d /\ dependencies_ok id [d]
  | LAfterMsgs ds => depth = 0 /\ Forall (inS 64) ds /\ dependencies_ok id ds
  | LWithoutUpdates => True
  end.

(** What a wrapper does to the message and which mutations it asks for. *)
Definition layer_message (l : layer) (m : InboundMessage) : InboundMessage :=
  match l with
  | LAfterMsg d => with_dependencies [d] m
  | LAfterMsgs ds => with_dependencies (first_occurrences ∅ ds) m
  | LWithoutUpdates => suppressing m
  | _ => m
  end.

Definition layer_mutations (config : WrapperConfig) (l : layer) : list SessionMutation :=
  match l with
  | LWithLayer n => [SetLayer (if 0 <? wc_SchemaLayer config then Z.min n (wc_SchemaLayer config) else n)]
  | LInit m _ => [client_metadata m]
  | _ => []
  end.

Section Wrapped.
Context {G : GzipReader} {L : GzipLaws G}.

(** The budget after the wrapper was counted and decoded. *)
Definition decoded_budget (l : layer) (outer : bytes) (budget : option DecodeBudget) : option DecodeBudget :=
  charged (len outer) (layer_cost l) (charge_wrapper <$> budget).

(** Compressed content that fits what remains. *)
Definition inflates (config : WrapperConfig) (packed nested : bytes) (budget budget' : option DecodeBudget) : Prop :=
  gz_content packed = Some nested /\
  match budget with
  | Some b => gzip_budget_ok b /\ len nested <= output_limit packed b /\
      budget' = Some (charge_gzip (len packed + len nested) (charge_bytes (len nested) b))
  | None => budget' = None /\ 0 <= wc_MaxDecodedPayload config /\ len nested <= 128 * len packed /\
      len nested <= (if wc_MaxDecodedPayload config =? 0 then MaxDecodedPayloadBytes
                     else Z.min (wc_MaxDecodedPayload config) MaxDecodedPayloadBytes)
  end.

Definition opens (config : WrapperConfig) (id depth : Z) (l : layer) (nested outer : bytes)
    (budget budget' : option DecodeBudget) : Prop :=
  layer_ok id depth l nested /\ outer = frame l nested /\ 4 <= len nested /\
  from_option (fun b => wrapperCount b < MaxWrappers (limits b)) True budget /\
  affords (charge_wrapper <$> budget) (len outer) (layer_cost l) /\
  match l with
  | LGzip packed => inflates config packed nested (decoded_budget l outer budget) budget'
  | _ => budget' = decoded_budget l outer budget
  end.

(** [wrapped ls body inner]: the body is the inner query in the wrappers [ls],
    outermost first, and the budget affords opening them all. *)
Inductive wrapped (config : WrapperConfig) (id : Z) :
  Z -> list layer -> bytes -> bytes -> option DecodeBudget -> option DecodeBudget -> Prop :=
| wrapped_query depth inner budget :
    4 <= len inner -> runtimeWrapperConstructor (le_get (take 4 inner)) = false ->
    wrapped config id depth [] inner inner budget budget
| wrapped_layer depth l ls outer nested inner budget budget1 budget2 :
    opens config id depth l nested outer budget budget1 ->
    wrapped config id (depth + 1) ls nested inner budget1 budget2 ->
    wrapped config id depth (l :: ls) outer inner budget budget2.

Definition layer_id (l : layer) : Z :=
  match l with
  | LGzip _ => GzipPackedID | LWithLayer _ => InvokeWithLayerID | LInit _ _ => InitConnectionID
  | LAfterMsg _ => InvokeAfterMsgID | LAfterMsgs _ => InvokeAfterMsgsID | LWithoutUpdates => InvokeWithoutUpdatesID
  end.

Lemma frame_constructor l nested : exists rest, frame l nested = le_put 4 (layer_id l) ++ rest.
Proof. destruct l; cbn [frame layer_id]; unfold encode, enc_init; by eexists. Qed.

Lemma frame_id l nested : le_get (take 4 (frame l nested)) = layer_id l /\ 4 <= len (frame l nested).
Proof.
  destruct (frame_constructor l nested) as [rest ->]. rewrite take_len_app by apply le_put_length. rewrite le_get_put_u32, len_app, len_le_put.
  pose proof (len_nonneg rest). split; [|lia]. apply wrapU_id. by destruct l.
Qed.

Lemma decodeControl_drains {A} (d : RD A) body c a budget :
  drains d body c a -> affords budget (len body) c ->
  decodeControlBudget body d budget = (Ok a, charged (len body) c budget).
Proof.
  intros Hd Ha. unfold decodeControlBudget. rewrite (Hd _ Ha). cbn [rd_budget].
  assert (Len (Reader [] (charged (len body) c budget)) = 0) as ->; [|done].
  unfold Len. cbn [rd_budget rd_data]. rewrite len_nil. destruct (charged _ _ _) as [b|]; [|done].
  cbv zeta. destruct (Z.ltb_spec 0 (Z.max 0 (remaining b))); lia.
Qed.

(** Decoding one wrapper, by its constructor. *)
Definition decodes (l : layer) (nested : bytes) : Prop :=
  match l with
  | LGzip packed => drains GzipPacked_DeserializeTL (frame l nested) no_cost packed
  | LWithLayer n => drains InvokeWithLayer_DeserializeTL (frame l nested) no_cost {| il_Layer := n; il_QueryRaw := nested |}
  | LInit m j => drains InitConnection_DeserializeTL (frame l nested) (init_cost j) m
  | LAfterMsg d => drains InvokeAfterMsg_DeserializeTL (frame l nested) no_cost {| ia_MsgID := d; ia_QueryRaw := nested |}
  | LAfterMsgs ds => drains InvokeAfterMsgs_DeserializeTL (frame l nested) (vector_cost (fun _ => no_cost) ds)
                       {| ias_MsgIDs := ds; ias_QueryRaw := nested |}
  | LWithoutUpdates => drains InvokeWithoutUpdates_DeserializeTL (frame l nested) no_cost nested
  end.

Lemma layer_decodes id depth l nested : layer_ok id depth l nested -> decodes l nested.
Proof.
  destruct l; cbn [layer_ok decodes frame]; intros Hok.
  - unfold encode; cbn [ConstructorID]. read_object.
  - unfold encode; cbn [ConstructorID]. apply drains_constructor; [by vm_compute|]. cbn [enc_fields il_Layer il_QueryRaw].
    eapply drains_step; [apply consumes_ReadInt32; unfold inS; lia|]. apply (drains_rest (fun q => {| il_Layer := n; il_QueryRaw := q |})).
  - destruct Hok as [Hok _]. by apply drains_init.
  - destruct Hok as (_ & Hd & _). unfold encode; cbn [ConstructorID]. apply drains_constructor; [by vm_compute|]. cbn [enc_fields].
    eapply drains_step; [by apply consumes_ReadInt64|]. apply (drains_rest (fun q => {| ia_MsgID := id0; ia_QueryRaw := q |})).
  - destruct Hok as (_ & Hd & _ & Hl & _). apply (drains_InvokeAfterMsgs {| ias_MsgIDs := ids; ias_QueryRaw := nested |}).
    split; [|done]. cbn. unfold MaxInvokeAfterDependencies, MaxMessageStateIDs in *. lia.
  - unfold encode; cbn [ConstructorID]. apply drains_constructor; [by vm_compute|]. apply drains_ReadAll.
Qed.

Lemma decompress_inflates config packed nested budget budget' :
  len packed <= MaxTLBytesLength -> inflates config packed nested budget budget' ->
  decompress config packed budget = (Ok nested, budget').
Proof.
  intros Hp [Hc Hb]. unfold decompress. destruct budget as [b|].
  - destruct Hb as (Hok & Hl & ->). unfold DecompressGzipWithBudget. pose proof (gzip_decode_spec packed b Hok) as Hd.
    destruct (gzip_decode packed b) as [d|e]; cbn [mbind result_bind].
    + destruct Hd as [Hd _]. rewrite Hc in Hd. injection Hd as <-. unfold gzip_commit. unfold output_limit in Hl.
      by rewrite !(proj2 (Z.ltb_ge _ _)) by lia.
    + rewrite Hc in Hd. lia.
  - destruct Hb as (-> & Hm & Hr & Hl). unfold MaxTLBytesLength in Hp.
    rewrite (proj2 (DecompressGzip_iff packed (wc_MaxDecodedPayload config) nested Hm ltac:(lia))); done.
Qed.

Lemma consumeWrapper_ok budget :
  from_option (fun b => wrapperCount b < MaxWrappers (limits b)) True budget ->
  consumeWrapper budget = (Ok tt, charge_wrapper <$> budget).
Proof.
  intros Hb. unfold consumeWrapper, ConsumeWrapper, with_budget. cbn [rd_budget rd_data]. destruct budget as [b|]; cbn; [|done].
  cbn in Hb. by rewrite (proj2 (Z.leb_gt _ _)) by lia.
Qed.

Lemma unwrap_opens config depth l nested outer m budget budget' :
  opens config (im_MessageID m) depth l nested outer budget budget' -> im_Body m = outer ->
  unwrap config depth m (charge_wrapper <$> budget) = (Ok (Some (nested, layer_message l m, layer_mutations config l)), budget').
Proof.
  intros (Hok & -> & _ & _ & Ha & Hb) Hbody. unfold unwrap. rewrite Hbody, (proj1 (frame_id l nested)).
  pose proof (layer_decodes _ _ _ _ Hok) as Hd. unfold mbind, ST_bind, st_bind. unfold decoded_budget in Hb.
  destruct l as [packed|n|im j|d|ds|]; cbn [decodes layer_id layer_cost layer_ok] in *; unfold decoded_budget in *.
  - switch.
    rewrite (decodeControl_drains _ _ _ _ _ Hd Ha). by rewrite (decompress_inflates config packed nested _ budget').
  - switch.
    rewrite (decodeControl_drains _ _ _ _ _ Hd Ha). cbn [il_Layer il_QueryRaw]. rewrite (proj2 (Z.leb_gt n 0)), Hb by lia.
    cbn [layer_mutations layer_message]. destruct (0 <? wc_SchemaLayer config); cbn [andb]; [|done].
    destruct (Z.ltb_spec (wc_SchemaLayer config) n); [by rewrite Z.min_r by lia|by rewrite Z.min_l by lia].
  - switch.
    rewrite (decodeControl_drains _ _ _ _ _ Hd Ha), Hb. by destruct Hok as [_ ->].
  - destruct Hok as (-> & _ & Hdep). switch.
    rewrite (decodeControl_drains _ _ _ _ _ Hd Ha), Hb. cbn [ia_MsgID ia_QueryRaw]. unfold of_result.
    rewrite (setInvokeAfterDependencies_ok _ _ Hdep). cbn [first_occurrences]. by rewrite bool_decide_false by set_solver.
  - destruct Hok as (-> & _ & Hdep). switch.
    rewrite (decodeControl_drains _ _ _ _ _ Hd Ha), Hb. cbn [ias_MsgIDs ias_QueryRaw]. unfold of_result.
    by rewrite (setInvokeAfterDependencies_ok _ _ Hdep).
  - switch.
    by rewrite (decodeControl_drains _ _ _ _ _ Hd Ha), Hb.
Qed.
Definition apply_layers (ls : list layer) (m : InboundMessage) : InboundMessage := foldl (fun m l => layer_message l m) m ls.

Lemma apply_with_body ls b inner m :
  with_body inner (apply_layers ls (with_body b m)) = with_body inner (apply_layers ls m).
Proof.
  revert m. induction ls as [|l ls IH]; intros m; [done|]. unfold apply_layers in *. cbn [foldl].
  rewrite <- (IH (layer_message l m)). by destruct l.
Qed.

Lemma layer_id_wrapper l : runtimeWrapperConstructor (layer_id l) = true.
Proof. by destruct l. Qed.

Lemma unwrap_query config depth m budget :
  runtimeWrapperConstructor (le_get (take 4 (im_Body m))) = false -> unwrap config depth m budget = (Ok None, budget).
Proof.
  unfold runtimeWrapperConstructor, unwrap. intros H. bools. by rewrite !(proj2 (Z.eqb_neq _ _)) by done.
Qed.

Lemma loop_unwraps config maxDepth ls n depth m muts outer inner budget budget' :
  wrapped config (im_MessageID m) depth ls outer inner budget budget' -> im_Body m = outer ->
  depth + len ls <= maxDepth -> (length ls < n)%nat ->
  normalizeLoop n config maxDepth depth m muts budget =
    (Ok (with_body inner (apply_layers ls m), muts ++ concat (layer_mutations config <$> ls)), budget').
Proof.
  revert n depth m muts outer budget. induction ls as [|l ls IH]; intros [|n] depth m muts outer budget Hw Hbody Hd Hn; try (cbn in Hn; lia).
  - inv Hw. cbn [normalizeLoop]. rewrite (proj2 (Z.ltb_ge _ _)) by done.
    match goal with H : runtimeWrapperConstructor _ = false |- _ => rewrite H; pose proof (unwrap_query config depth m budget' H) as Hu end.
    rewrite Bool.andb_false_r. unfold mbind, ST_bind, st_bind, mret, ST_ret, st_ret. rewrite Hu. cbn. by rewrite app_nil_r.
  - inversion Hw as [|? ? ? ? nested ? ? budget1 ? Ho Hrest]; subst; clear Hw.
    pose proof (unwrap_opens _ _ _ _ _ m _ _ Ho eq_refl) as Hu. destruct Ho as (Hok & Hf & Hl & Hc & Ha & _).
    rewrite len_cons in Hd. pose proof (len_nonneg ls). cbn [normalizeLoop]. destruct (frame_id l nested) as [Hid Hlen].
    rewrite Hf, Hid, layer_id_wrapper, (proj2 (Z.ltb_ge _ _)), (proj2 (Z.eqb_neq depth maxDepth)) by lia. cbn [andb].
    unfold mbind, ST_bind, st_bind. rewrite (consumeWrapper_ok _ Hc), Hu. rewrite (proj2 (Z.ltb_ge (len nested) 4)) by done.
    rewrite (IH n (depth + 1) (with_body nested (layer_message l m)) _ nested budget1).
    + rewrite apply_with_body. cbn [apply_layers foldl fmap list_fmap concat]. by rewrite <- app_assoc.
    + by destruct l.
    + done.
    + lia.
    + cbn in Hn. lia.
Qed.
End Wrapped.

(** * What normalization can answer *)

Definition mutation_requested (config : WrapperConfig) (mu : SessionMutation) : Prop :=
  match mu with
  | SetLayer n => 0 < n /\ (0 < wc_SchemaLayer config -> n <= wc_SchemaLayer config)
  | SetClientMetadata _ _ _ _ _ _ _ => True
  | _ => False
  end.

(** A message that differs from the one received only in what wrappers say. *)
Definition same_request (m m' : InboundMessage) : Prop :=
  im_MessageID m' = im_MessageID m /\ im_SequenceNo m' = im_SequenceNo m /\
  im_ContentRelated m' = im_ContentRelated m /\ im_Retransmission m' = im_Retransmission m /\
  (im_Dependencies m' = im_Dependencies m \/
   im_Dependencies m' <> [] /\ NoDup (im_Dependencies m') /\ len (im_Dependencies m') <= MaxInvokeAfterDependencies /\
   Forall (fun d => d <> 0 /\ d < im_MessageID m) (im_Dependencies m')) /\
  (im_SuppressPush m = true -> im_SuppressPush m' = true).

Lemma same_request_refl m : same_request m m.
Proof. by repeat split; try left. Qed.

Lemma same_request_trans a b c : same_request a b -> same_request b c -> same_request a c.
Proof.
  intros (H1 & H2 & H3 & H4 & H5 & H6) (K1 & K2 & K3 & K4 & K5 & K6). split_and!; try congruence; [|auto].
  rewrite <- H1. destruct K5 as [K5|K5]; [rewrite K5|by right]. by rewrite H1.
Qed.

Lemma same_request_body b m : same_request m (with_body b m).
Proof. by repeat split; try left. Qed.

Section Sound.
Context {G : GzipReader}.

Lemma dependencies_set m ds kept :
  setInvokeAfterDependencies (im_MessageID m) ds = Ok kept -> same_request m (with_dependencies kept m).
Proof.
  intros H. pose proof H as (Hk & Hn & Hl & Hf & _)%setInvokeAfterDependencies_sound. split_and!; try done. right. split_and!; try done.
  cbn. intros ->. unfold setInvokeAfterDependencies in H. case_match; [done|]. destruct (keepDependencies _ _ _ _); [|done].
  cbn in H. case_match eqn:E; [done|]. injection H as ->. done.
Qed.

Lemma unwrap_sound config depth m nested m' muts budget budget' :
  unwrap config depth m budget = (Ok (Some (nested, m', muts)), budget') ->
  same_request m m' /\ Forall (mutation_requested config) muts /\ len muts <= 1.
Proof.
  unfold unwrap, raise. intros H. cbv zeta in H.
  destruct (_ =? GzipPackedID).
  { st_inv. split_and!; [apply same_request_refl|by constructor|done]. }
  destruct (_ =? InvokeWithLayerID).
  { st_inv. case_match; [done|]. st_inv. bools. split_and!; [apply same_request_refl| |done]. apply Forall_singleton. cbn.
    destruct (Z.ltb_spec 0 (wc_SchemaLayer config)); cbn [andb]; [|lia].
    destruct (Z.ltb_spec (wc_SchemaLayer config) (il_Layer x)); lia. }
  destruct (_ =? InitConnectionID).
  { st_inv. split_and!; [apply same_request_refl|by apply Forall_singleton|done]. }
  destruct (_ =? InvokeAfterMsgID).
  { case_match; [done|]. st_inv. unfold of_result in *. simplify_eq. split_and!; [by eapply dependencies_set|by constructor|done]. }
  destruct (_ =? InvokeAfterMsgsID).
  { case_match; [done|]. st_inv. unfold of_result in *. simplify_eq. split_and!; [by eapply dependencies_set|by constructor|done]. }
  destruct (_ =? InvokeWithoutUpdatesID); st_inv. split_and!; [|by constructor|done].
  by repeat split; try left.
Qed.

Lemma unwrap_none config depth m budget budget' :
  unwrap config depth m budget = (Ok None, budget') -> runtimeWrapperConstructor (le_get (take 4 (im_Body m))) = false.
Proof.
  unfold unwrap, raise, runtimeWrapperConstructor. intros H. cbv zeta in H.
  destruct (_ =? GzipPackedID); [st_inv; done|].
  destruct (_ =? InvokeWithLayerID); [st_inv; case_match; [done|]; st_inv; done|].
  destruct (_ =? InitConnectionID); [st_inv; done|].
  destruct (_ =? InvokeAfterMsgID); [case_match; [done|]; st_inv; done|].
  destruct (_ =? InvokeAfterMsgsID); [case_match; [done|]; st_inv; done|].
  destruct (_ =? InvokeWithoutUpdatesID); [st_inv; done|done].
Qed.

Lemma loop_sound n config maxDepth depth m muts m' muts' budget budget' :
  normalizeLoop n config maxDepth depth m muts budget = (Ok (m', muts'), budget') ->
  same_request m m' /\
  (im_ConstructorID m' = le_get (take 4 (im_Body m')) /\ 4 <= len (im_Body m') /\
   runtimeWrapperConstructor (im_ConstructorID m') = false) /\
  exists more, muts' = muts ++ more /\ Forall (mutation_requested config) more /\ len more <= Z.of_nat n.
Proof.
  revert depth m muts budget. induction n as [|n IH]; intros depth m muts budget; [done|]. cbn [normalizeLoop]. intros H.
  destruct (Z.ltb_spec (len (im_Body m)) 4) as [|Hl]; [done|]. cbv zeta in H. case_match; [done|]. st_inv.
  match goal with H : unwrap _ _ _ _ = (Ok ?o, _) |- _ => rename H into Hu; rename o into layer0 end.
  destruct layer0 as [[[nested m1] more]|].
  - destruct (len nested <? 4); [done|]. match goal with H : normalizeLoop _ _ _ _ _ _ _ = _ |- _ => apply IH in H as (Hs & Hb & more' & -> & Hf & Hle) end.
    apply unwrap_sound in Hu as (Hs1 & Hf1 & Hl1). split_and!; try done.
    + eapply same_request_trans; [exact Hs1|]. eapply same_request_trans; [apply same_request_body|exact Hs].
    + by destruct Hb.
    + by destruct Hb as (_ & ? & _).
    + by destruct Hb as (_ & _ & ?).
    + exists (more ++ more'). rewrite app_assoc. split_and!; [done|by apply Forall_app|]. rewrite len_app. lia.
  - st_inv. apply unwrap_none in Hu. split_and!; try done; [apply same_request_body|].
    exists []. rewrite app_nil_r. split_and!; [done|by constructor|unfold len; cbn; lia].
Qed.
End Sound.

(** * Suppression *)

Fixpoint has_push (i : Intent) : bool :=
  match i with
  | Push _ => true
  | Batch items => existsb has_push items
  | _ => false
  end.

(** The messages of an intent, batches opened. *)
Fixpoint flatten (i : Intent) : list Intent :=
  match i with
  | Batch items => concat (flatten <$> items)
  | _ => [i]
  end.

Definition not_push (i : Intent) : Prop := match i with Push _ => False | _ => True end.
#[export] Instance not_push_dec i : Decision (not_push i).
Proof. destruct i; cbn; apply _. Defined.

Section intent_ind.
Variable P : Intent -> Prop.
Hypothesis Hbatch : forall items, Forall P items -> P (Batch items).
Hypothesis Hrest : forall i, (forall items, i <> Batch items) -> P i.

Fixpoint intent_nested_ind (i : Intent) : P i :=
  match i as i return P i with
  | Batch items => Hbatch items ((fix go l := match l return Forall P l with
      | [] => Forall_nil_2 P | x :: l => Forall_cons_2 P x l (intent_nested_ind x) (go l) end) items)
  | RPCResult a b => Hrest (RPCResult a b) ltac:(done)
  | RPCError a b c => Hrest (RPCError a b c) ltac:(done)
  | ProtocolReply a b c => Hrest (ProtocolReply a b c) ltac:(done)
  | Acknowledge a => Hrest (Acknowledge a) ltac:(done)
  | Push a => Hrest (Push a) ltac:(done)
  | Resend a => Hrest (Resend a) ltac:(done)
  | Close a => Hrest (Close a) ltac:(done)
  end.
End intent_ind.

Lemma filter_concat {A} (P : A -> Prop) `{!forall x, Decision (P x)} (ls : list (list A)) :
  filter P (concat ls) = concat (filter P <$> ls).
Proof. induction ls as [|l ls IH]; cbn; [done|]. by rewrite filter_app, IH. Qed.

Lemma concat_fmap_concat {A B} (f : A -> list B) (ls : list (list A)) :
  concat (f <$> concat ls) = concat ((fun l => concat (f <$> l)) <$> ls).
Proof. induction ls as [|l ls IH]; cbn; [done|]. by rewrite fmap_app, concat_app, IH. Qed.

Lemma concat_fmap_ext {A B} (f g : A -> list B) l : Forall (fun x => f x = g x) l -> concat (f <$> l) = concat (g <$> l).
Proof. induction 1 as [|x l Hx _ IH]; cbn; [done|]. by rewrite Hx, IH. Qed.

Lemma suppressIntent_messages i : concat (flatten <$> suppressIntent i) = filter not_push (flatten i).
Proof.
  induction i as [items IH|i Hi] using intent_nested_ind.
  - cbn [suppressIntent flatten]. rewrite filter_concat, <- list_fmap_compose. unfold compose.
    rewrite <- (concat_fmap_ext (fun x => concat (flatten <$> suppressIntent x)) _ _ IH).
    replace (concat ((fun x => concat (flatten <$> suppressIntent x)) <$> items)) with (concat (flatten <$> concat (suppressIntent <$> items)))
      by (by rewrite concat_fmap_concat, <- list_fmap_compose).
    cbv zeta. generalize (concat (suppressIntent <$> items)). intros children.
    destruct (Z.eqb_spec (len children) 0) as [H0|H0]; [|cbn; by rewrite app_nil_r].
    destruct children; [done|]. rewrite len_cons in H0. pose proof (len_nonneg children). lia.
  - destruct i; try done. by destruct (Hi Items).
Qed.

Lemma suppressIntent_clean i : Forall (fun x => has_push x = false) (suppressIntent i).
Proof.
  induction i as [items IH|i Hi] using intent_nested_ind.
  - cbn [suppressIntent]. cbv zeta. case_match; [constructor|]. apply Forall_singleton. cbn.
    assert (Hf : Forall (fun x => has_push x = false) (concat (suppressIntent <$> items))).
    { clear -IH. induction IH as [|x items Hx _ IH]; cbn; [constructor|]. by apply Forall_app. }
    clear -Hf. induction Hf as [|x l Hx _ IH]; cbn; [done|]. by rewrite Hx, IH.
  - destruct i; try (by apply Forall_singleton); [constructor|by destruct (Hi Items)].
Qed.

Lemma suppressIntent_valid i : valid_intent i -> Forall valid_intent (suppressIntent i).
Proof.
  destruct i as [| | | |b|items| |]; intros Hv; cbn [suppressIntent]; try (by apply Forall_singleton); [constructor|].
  destruct Hv as [_ Hv]. cbv zeta. case_match eqn:E; [constructor|]. apply Forall_singleton. bools. split.
  - intros Hc. apply E. by rewrite Hc.
  - clear E. induction Hv as [|x items Hx _ IH]; cbn; [constructor|]. apply Forall_app. split; [|done].
    destruct x; try done; first [by apply Forall_singleton|constructor].
Qed.

(** * Properties *)

Section Properties.
Context {G : GzipReader} {L : GzipLaws G}.

(** C25. Wrappers are removed exactly: a query in well-formed wrappers, no more than
    the depth limit, affordable for the budget, with dependencies only outermost, is
    normalized to the query itself, its dependencies without repetitions, marked when
    any wrapper asked to suppress updates, with the mutations of the wrappers in
    order, and the budget is charged for each wrapper, its bytes and what it inflates
    to.  Conversely, whatever is accepted is no wrapper, keeps the message's identity,
    depends only on earlier messages, and asks for at most one mutation per level,
    layers within the schema and client metadata only. *)
Theorem normalization_unwraps (m : InboundMessage) (config : WrapperConfig) (ls : list layer) (inner : bytes)
    (budget budget' : option DecodeBudget) :
  let maxDepth := default_if_zero (wc_MaxDepth config) DefaultWrapperDepth in
  wrapped config (im_MessageID m) 0 ls (im_Body m) inner budget budget' -> len ls <= maxDepth ->
  NormalizeRequest m config budget =
    (Ok (with_body inner (apply_layers ls m), concat (layer_mutations config <$> ls)), budget') /\
  forall m0 b0 m' muts b', NormalizeRequest m0 config b0 = (Ok (m', muts), b') ->
    same_request m0 m' /\ im_ConstructorID m' = le_get (take 4 (im_Body m')) /\ 4 <= len (im_Body m') /\
    runtimeWrapperConstructor (im_ConstructorID m') = false /\
    Forall (mutation_requested config) muts /\ len muts <= maxDepth + 1.
Proof.
  intros maxDepth Hw Hl. pose proof (len_nonneg ls). split.
  - unfold NormalizeRequest. fold maxDepth. rewrite (proj2 (Z.ltb_ge _ _)) by lia.
    rewrite (loop_unwraps _ _ _ _ _ _ _ _ _ _ _ Hw eq_refl); [done|lia|unfold len in *; lia].
  - intros m0 b0 m' muts b' Hn. unfold NormalizeRequest in Hn. fold maxDepth in Hn. case_match eqn:E; [done|].
    apply loop_sound in Hn as (Hs & (Hc & Hb & Hr) & more & -> & Hf & Hle). bools. split_and!; try done. cbn [app]. lia.
Qed.
End Properties.

(** A request made without updates sends every message of its outcome except the
    pushes, in order, without empty batches, and what is sent is still valid. *)
Lemma suppressed_outcome (intents : list Intent) :
  concat (flatten <$> suppressPushIntents intents) = filter not_push (concat (flatten <$> intents)) /\
  Forall (fun i => has_push i = false) (suppressPushIntents intents) /\
  (Forall valid_intent intents -> Forall valid_intent (suppressPushIntents intents)).
Proof.
  unfold suppressPushIntents. split_and!.
  - rewrite concat_fmap_concat, filter_concat, <- !list_fmap_compose. apply concat_fmap_ext, Forall_forall.
    intros i _. apply suppressIntent_messages.
  - induction intents as [|i l IH]; cbn; [constructor|]. apply Forall_app. split; [apply suppressIntent_clean|done].
  - induction 1 as [|i l Hi _ IH]; cbn; [constructor|]. apply Forall_app. split; [by apply suppressIntent_valid|done].
Qed.

(** * Witness *)

Definition sample_query : bytes := [x01; x02; x03; x04; x05].
Definition sample_config : WrapperConfig := {| wc_SchemaLayer := 150; wc_MaxDecodedPayload := 0; wc_MaxDepth := 0 |}.

Definition sample_connection (query : bytes) : InitConnection :=
  {| ic_Flags := 3; ic_APIID := 7; ic_DeviceModel := [x64]; ic_SystemVersion := [x73]; ic_AppVersion := [x61];
     ic_SystemLangCode := [x65]; ic_LangPack := []; ic_LangCode := [x66];
     ic_Proxy := Some {| px_Address := [x31]; px_Port := 443 |}; ic_Params := Some (to_value sample_params);
     ic_QueryRaw := query |}.

Definition layer_query : bytes := frame LWithoutUpdates sample_query.
Definition init_query : bytes := frame (LInit (sample_connection layer_query) (Some sample_params)) layer_query.
Definition plain_query : bytes := frame (LWithLayer 200) init_query.
Definition gzip_query : bytes := frame (LGzip (x1f :: plain_query)) plain_query.
Definition sample_body : bytes := frame (LAfterMsgs [8; 4; 8]) gzip_query.

Definition sample_layers : list layer :=
  [LAfterMsgs [8; 4; 8]; LGzip (x1f :: plain_query); LWithLayer 200;
   LInit (sample_connection layer_query) (Some sample_params); LWithoutUpdates].

Definition sample_message : InboundMessage :=
  {| im_MessageID := 12; im_SequenceNo := 1; im_ConstructorID := InvokeAfterMsgsID; im_Body := sample_body;
     im_Dependencies := []; im_DecodeBudget := Some sample_budget; im_ContentRelated := true; im_SuppressPush := false;
     im_Retransmission := false |}.

Lemma sample_connection_ok query : init_ok (sample_connection query) (Some sample_params).
Proof.
  split; cbn.
  - split; [split; by vm_compute|by vm_compute].
  - split; by vm_compute.
  - repeat constructor; by vm_compute.
  - split; [done|]. split; [by vm_compute|cbn; lia].
  - done.
  - unfold params_ok. split_and!; try done; by vm_compute.
Qed.

Ltac evaluate := vm_compute; repeat split; done.

Lemma normalization_unwraps_witness :
  exists m' budget',
    @NormalizeRequest stored sample_message sample_config (Some sample_budget) =
      (Ok (m', [SetLayer 150; client_metadata (sample_connection layer_query)]), budget') /\
    im_Body m' = sample_query /\ im_Dependencies m' = [8; 4] /\ im_SuppressPush m' = true.
Proof.
  assert (Hw : exists budget', @wrapped stored stored_laws sample_config 12 0 sample_layers sample_body sample_query
    (Some sample_budget) budget').
  { eexists. unfold sample_layers. eapply wrapped_layer.
    { split_and!; [|reflexivity|evaluate..|reflexivity]. split_and!; [done|repeat constructor; by vm_compute|].
      split_and!; [done|by vm_compute|]. repeat constructor; by vm_compute. }
    eapply (wrapped_layer _ _ _ _ _ _ plain_query).
    { split_and!; [by vm_compute|reflexivity|evaluate..|]. split; [reflexivity|]. split_and!; [|by vm_compute|reflexivity].
      unfold gzip_budget_ok. vm_compute. by repeat split. }
    eapply wrapped_layer.
    { split_and!; [by vm_compute|reflexivity|evaluate..|reflexivity]. }
    eapply wrapped_layer.
    { split_and!; [split; [apply sample_connection_ok|done]|reflexivity|evaluate..|reflexivity]. }
    eapply wrapped_layer.
    { split_and!; [done|reflexivity|evaluate..|reflexivity]. }
    apply wrapped_query; by vm_compute. }
  destruct Hw as [budget' Hw]. eexists _, budget'.
  destruct (@normalization_unwraps stored stored_laws sample_message sample_config sample_layers sample_query
    (Some sample_budget) budget' Hw) as [H _]; [by vm_compute|].
  split; [exact H|]. clear. by vm_compute.
Defined.
