(* ===== verification/Routing.v ===== *)
(** Protocol controls and routing (internal/runtime/control.go, router.go): MTProto
    controls are answered from the session's own state before anything reaches the
    application, outcomes are checked before they take effect, and session mutations
    are applied to a detached snapshot.

    The three stores a control touches are the control router's state, with the
    decode budget of the message and the contexts cancelled so far.  The outbound side
    is the interface [OutboundReliability], implemented by the session writer. *)

From stdpp Require Import base numbers list gmap strings.
From S2P Require Import Prelude Wire Validator Session Reliability MsgId Crypto Tl Contracts InboundState ActiveRequests WriterLoop Gzip InitConnection Normalize.
Open Scope Z_scope.

(** * The outbound interface *)

Class OutboundOps (O E : Type) := {
  AcknowledgeOutbound : list Z -> ST O E unit;
  InspectOutbound : Z -> ST O E OutboundReliabilityState
}.

(** The writer's side: a request of its loop and the response to it. *)
Section WriterOutbound.
Context {L : Type} `{Hlease : LeaseOps L} `{Hplatform : Platform}.
Context (now : nat -> clock) (random : nat -> nat -> bytes) (write_ok : nat -> bool) (ctx : context).

Definition writer_request (op : writerOperation) : ST (Writer (L := L)) writer_error OutboundReliabilityState := fun w =>
  let '(response, _, _, w) := processRequest now random write_ok {| rq_ctx := ctx; rq_operation := op |} w in
  (match rs_err response with None => Ok (rs_state response) | Some e => Err e end, w).

Definition writer_outbound : OutboundOps (Writer (L := L)) writer_error := {|
  AcknowledgeOutbound ids := _ ← writer_request (OpAcknowledge ids); mret tt;
  InspectOutbound id := writer_request (OpInspect id) |}.
End WriterOutbound.

Inductive control_error (E : Type) :=
| CtlRequest (e : request_error)
| CtlEncode (e : writer_error)
| CtlOutbound (e : E)
| ErrInvalidDisconnectDelay
| CtlContract (e : contract_error)
| ErrInvalidSessionMutation.
Arguments CtlRequest {E} e.
Arguments CtlEncode {E} e.
Arguments CtlOutbound {E} e.
Arguments ErrInvalidDisconnectDelay {E}.
Arguments CtlContract {E} e.
Arguments ErrInvalidSessionMutation {E}.

(** * The control router *)

Section Control.
Context {O E : Type} `{OutboundOps O E}.

Record controls := {
  ct_outbound : O;
  ct_inbound : InboundStateLedger;
  ct_active : ActiveRequestRegistry;
  ct_cancelled : list cancellation;
  ct_budget : option DecodeBudget
}.

Abbreviation CM := (ST controls (control_error E)).

Definition set_outbound (o : O) (c : controls) : controls :=
  {| ct_outbound := o; ct_inbound := ct_inbound c; ct_active := ct_active c; ct_cancelled := ct_cancelled c; ct_budget := ct_budget c |}.
Definition set_inbound (l : InboundStateLedger) (c : controls) : controls :=
  {| ct_outbound := ct_outbound c; ct_inbound := l; ct_active := ct_active c; ct_cancelled := ct_cancelled c; ct_budget := ct_budget c |}.
Definition set_active (r : ActiveRequestRegistry) (cs : list cancellation) (c : controls) : controls :=
  {| ct_outbound := ct_outbound c; ct_inbound := ct_inbound c; ct_active := r; ct_cancelled := ct_cancelled c ++ cs; ct_budget := ct_budget c |}.
Definition set_budget (b : option DecodeBudget) (c : controls) : controls :=
  {| ct_outbound := ct_outbound c; ct_inbound := ct_inbound c; ct_active := ct_active c; ct_cancelled := ct_cancelled c; ct_budget := b |}.

(** decodeControlBudget(request.Message.Body, message, request.Message.DecodeBudget) *)
Definition decode_body {A} (m : InboundMessage) (value : RD A) : CM A := fun c =>
  let '(x, b) := decodeControlBudget (im_Body m) value (ct_budget c) in
  (map_err CtlRequest x, set_budget b c).

Definition serializeRuntimeTL (value : WR unit) : CM bytes := fun c =>
  (map_err CtlEncode (serializeRuntimeTLBounded value DefaultMaxEncodedPayloadBytes), c).

Definition outbound {A} (op : ST O E A) : CM A := fun c =>
  let '(x, o) := op (ct_outbound c) in (map_err CtlOutbound x, set_outbound o c).

Definition state_info (now : Z) (ids : list Z) : CM bytes := fun c =>
  let '(info, l) := StateInfo now ids (ct_inbound c) in (Ok (bZ <$> info), set_inbound l c).

Definition drop_request (id : Z) : CM DropStatus := fun c =>
  let '(status, cancelled, r) := Drop id (ct_active c) in (Ok status, set_active r cancelled c).

Definition intents (l : list Intent) : Outcome := {| out_Intents := l; out_Mutations := []; out_DisconnectAfter := None |}.

Definition reply (value : WR unit) : CM Outcome :=
  body ← serializeRuntimeTL value; mret (intents [ProtocolReply body false false]).

(** The states of the requested ids, in order. *)
Fixpoint inspectAll (ids : list Z) : CM (list OutboundReliabilityState) :=
  match ids with
  | [] => mret []
  | id :: ids => state ← outbound (InspectOutbound id); states ← inspectAll ids; mret (state :: states)
  end.

Definition resend_info (s : OutboundReliabilityState) : byte :=
  if negb (Known s) then bZ MessageStateUnknownTooOld
  else
    let info := Z.lor MessageStateReceived MessageStateKnown in
    bZ (if Acknowledged s then Z.lor info MessageStateAcknowledged else info).

(** [now] in seconds as an int32, and the salt at [index]. *)
Definition unix32 (now : Z) : Z := int32 (now / 10 ^ 9).

Definition future_salt (now salt index : Z) : FutureSalt :=
  {| fs_ValidSince := int32 (now + int32 (index * 1800)); fs_ValidUntil := int32 (now + int32 ((index + 1) * 1800)); fs_Salt := salt |}.

Definition salt_count (num : Z) : Z :=
  let count := if num <=? 0 then 1 else num in if MaxFutureSalts <? count then MaxFutureSalts else count.

(** [None]: not a control. *)
Definition RouteControl (now serverSalt : Z) (m : InboundMessage) : CM (option Outcome) :=
  let constructorID := im_ConstructorID m in
  if constructorID =? PingID then
    pingID ← decode_body m Ping_DeserializeTL;
    o ← reply (Pong_SerializeTL {| po_MsgID := im_MessageID m; po_PingID := pingID |});
    mret (Some o)
  else if constructorID =? PingDelayDisconnectID then
    message ← decode_body m PingDelayDisconnect_DeserializeTL;
    if pd_DisconnectDelay message <? 0 then st_err ErrInvalidDisconnectDelay
    else
      o ← reply (Pong_SerializeTL {| po_MsgID := im_MessageID m; po_PingID := pd_PingID message |});
      mret (Some {| out_Intents := out_Intents o; out_Mutations := [];
                    out_DisconnectAfter := Some (int64 (pd_DisconnectDelay message * 10 ^ 9)) |})
  else if constructorID =? MsgsAckID then
    ids ← decode_body m MsgsAck_DeserializeTL;
    _ ← outbound (AcknowledgeOutbound ids);
    mret (Some (intents []))
  else if constructorID =? MsgsStateReqID then
    ids ← decode_body m MsgsStateReq_DeserializeTL;
    info ← state_info now ids;
    o ← reply (MsgsStateInfo_SerializeTL {| si_ReqMsgID := im_MessageID m; si_Info := info |});
    mret (Some o)
  else if constructorID =? MsgResendReqID then
    ids ← decode_body m MsgResendReq_DeserializeTL;
    if len ids =? 0 then mret (Some (intents []))
    else
      states ← inspectAll ids;
      if forallb ResendEligible states then mret (Some (intents [Resend ids]))
      else
        o ← reply (MsgsStateInfo_SerializeTL {| si_ReqMsgID := im_MessageID m; si_Info := resend_info <$> states |});
        mret (Some o)
  else if constructorID =? RPCDropAnswerID then
    id ← decode_body m RPCDropAnswer_DeserializeTL;
    status ← drop_request id;
    body ← serializeRuntimeTL (match status with
                               | DropStatusDroppedRunning => RPCAnswerDroppedRunning_SerializeTL
                               | _ => RPCAnswerUnknown_SerializeTL
                               end);
    mret (Some (intents [Contracts.RPCResult (im_MessageID m) body]))
  else if constructorID =? GetFutureSaltsID then
    num ← decode_body m GetFutureSaltsRequest_DeserializeTL;
    let now := unix32 now in
    let salts := future_salt now serverSalt <$> seqZ 0 (salt_count num) in
    o ← reply (FutureSalts_SerializeTL {| fss_ReqMsgID := im_MessageID m; fss_Now := now; fss_Salts := salts |});
    mret (Some o)
  else mret None.

End Control.

(** * Outcomes and mutations (router.go) *)

Section Outcomes.
Context {E : Type}.

Definition validateSessionMutation (mutation : SessionMutation) : result (control_error E) unit :=
  match mutation with
  | SetLayer layer => if layer <=? 0 then Err ErrInvalidSessionMutation else Ok tt
  | SetClientMetadata apiID deviceModel systemVersion appVersion _ _ langCode =>
      if (apiID <=? 0) || String.eqb deviceModel "" || String.eqb systemVersion "" || String.eqb appVersion "" ||
         String.eqb langCode ""
      then Err ErrInvalidSessionMutation else Ok tt
  | BindUser userID => if userID <=? 0 then Err ErrInvalidSessionMutation else Ok tt
  | UnbindUser => Ok tt
  | SetPushSubscription _ => Ok tt
  | MarkNewSessionCreated first => if first =? 0 then Err ErrInvalidSessionMutation else Ok tt
  end.

Fixpoint validateAll {A} (check : A -> result (control_error E) unit) (l : list A) : result (control_error E) unit :=
  match l with
  | [] => Ok tt
  | x :: l => _ ← check x; validateAll check l
  end.

Definition ValidateOutcome (o : Outcome) : result (control_error E) unit :=
  if match out_DisconnectAfter o with Some d => d <? 0 | None => false end then Err (CtlContract ErrInvalidIntent)
  else
    _ ← validateAll (fun i => map_err CtlContract (ValidateIntent i)) (out_Intents o);
    validateAll validateSessionMutation (out_Mutations o).

(** One case of the switch. *)
Definition apply_mutation (next : Session.Snapshot) (mutation : SessionMutation) : Session.Snapshot :=
  let set layer user push client created first :=
    {| sn_AuthKeyID := sn_AuthKeyID next; Session.sn_SessionID := Session.sn_SessionID next; sn_Layer := layer;
       sn_UserID := user; sn_PushSubscription := push; Session.sn_ServerSalt := Session.sn_ServerSalt next;
       sn_SeqNo := sn_SeqNo next; sn_ServerSeqNo := sn_ServerSeqNo next; sn_LastClientMsgID := sn_LastClientMsgID next;
       sn_ClientMsgIDFloor := sn_ClientMsgIDFloor next; sn_RecentClientMsgIDs := sn_RecentClientMsgIDs next;
       sn_RecentClientSeqNos := sn_RecentClientSeqNos next; sn_Client := client; sn_NewSessionCreated := created;
       sn_FirstClientMsgID := first; sn_CreatedAt := sn_CreatedAt next; sn_LastActivity := sn_LastActivity next |} in
  let layer := sn_Layer next in let user := sn_UserID next in let push := sn_PushSubscription next in
  let client := sn_Client next in let created := sn_NewSessionCreated next in let first := sn_FirstClientMsgID next in
  match mutation with
  | SetLayer l => set l user push client created first
  | SetClientMetadata apiID deviceModel systemVersion appVersion systemLangCode langPack langCode =>
      set layer user push
        {| cm_APIID := apiID; cm_DeviceModel := deviceModel; cm_SystemVersion := systemVersion; cm_AppVersion := appVersion;
           cm_SystemLangCode := systemLangCode; cm_LangPack := langPack; cm_LangCode := langCode |} created first
  | BindUser u => set layer u push client created first
  | UnbindUser => set layer 0 push client created first
  | SetPushSubscription b => set layer user b client created first
  | MarkNewSessionCreated id => set layer user push client true id
  end.

Fixpoint ApplySessionMutations (current : Session.Snapshot) (mutations : list SessionMutation) : result (control_error E) Session.Snapshot :=
  match mutations with
  | [] => mret current
  | mutation :: mutations => _ ← validateSessionMutation mutation; ApplySessionMutations (apply_mutation current mutation) mutations
  end.

(** ** The router, over its two dispatchers *)

Section Router.
Context {S : Type} (controls : InboundMessage -> ST S (control_error E) (option Outcome))
        (application : InboundMessage -> ST S (control_error E) Outcome).

Definition checked {A} (r : result (control_error E) A) : ST S (control_error E) A := fun s => (r, s).

Definition Router_RouteControl (m : InboundMessage) : ST S (control_error E) (option Outcome) :=
  _ ← checked (map_err CtlContract (InboundMessage_Validate m));
  outcome ← controls m;
  match outcome with
  | None => mret None
  | Some o => _ ← checked (ValidateOutcome o); mret (Some o)
  end.

Definition Router_DispatchApplication (m : InboundMessage) : ST S (control_error E) Outcome :=
  _ ← checked (map_err CtlContract (InboundMessage_Validate m));
  outcome ← application m;
  _ ← checked (ValidateOutcome outcome);
  mret outcome.

Definition Route (m : InboundMessage) : ST S (control_error E) Outcome :=
  handled ← Router_RouteControl m;
  match handled with
  | Some outcome => mret outcome
  | None => Router_DispatchApplication m
  end.
End Router.

End Outcomes.

(** * What controls mean *)

Definition charge_body (m : InboundMessage) (o : Object) (b : option DecodeBudget) : option DecodeBudget :=
  charged (len (im_Body m)) (cost_of o) b.

Section Answers.
Context {O E : Type} `{OutboundOps O E}.

Definition protocol_reply (o : Object) : Outcome := intents [ProtocolReply (encode o) false false].

(** The answer to a decoded control, in terms of the stores and of objects. *)
Definition answer (now serverSalt : Z) (m : InboundMessage) (o : Object) (c : controls (O := O))
  : result (control_error E) (option Outcome) * controls (O := O) :=
  let id := im_MessageID m in
  match o with
  | OPing ping => (Ok (Some (protocol_reply (OPong {| po_MsgID := id; po_PingID := ping |}))), c)
  | OPingDelayDisconnect p =>
      if pd_DisconnectDelay p <? 0 then (Err ErrInvalidDisconnectDelay, c)
      else (Ok (Some {| out_Intents := [ProtocolReply (encode (OPong {| po_MsgID := id; po_PingID := pd_PingID p |})) false false];
                        out_Mutations := []; out_DisconnectAfter := Some (pd_DisconnectDelay p * 10 ^ 9) |}), c)
  | OMsgsAck ids =>
      match AcknowledgeOutbound ids (ct_outbound c) with
      | (Ok _, out) => (Ok (Some (intents [])), set_outbound out c)
      | (Err e, out) => (Err (CtlOutbound e), set_outbound out c)
      end
  | OMsgsStateReq ids =>
      let '(info, l) := StateInfo now ids (ct_inbound c) in
      (Ok (Some (protocol_reply (OMsgsStateInfo {| si_ReqMsgID := id; si_Info := bZ <$> info |}))), set_inbound l c)
  | OMsgResendReq ids =>
      if decide (ids = []) then (Ok (Some (intents [])), c)
      else
        match inspectAll ids c with
        | (Err e, c) => (Err e, c)
        | (Ok states, c) =>
            (Ok (Some (if decide (Forall (fun s => ResendEligible s = true) states) then intents [Resend ids]
                       else protocol_reply (OMsgsStateInfo {| si_ReqMsgID := id; si_Info := resend_info <$> states |}))), c)
        end
  | ORPCDropAnswer dropped =>
      let '(status, cancelled, r) := Drop dropped (ct_active c) in
      let result := match status with DropStatusDroppedRunning => ORPCAnswerDroppedRunning | DropStatusUnknown => ORPCAnswerUnknown end in
      (Ok (Some (intents [Contracts.RPCResult id (encode result)])), set_active r cancelled c)
  | OGetFutureSaltsRequest num =>
      (Ok (Some (protocol_reply (OFutureSalts
         {| fss_ReqMsgID := id; fss_Now := unix32 now;
            fss_Salts := future_salt (unix32 now) serverSalt <$> seqZ 0 (Z.min 64 (Z.max 1 num)) |}))), c)
  | _ => (Ok None, c)
  end.

(** The controls among the objects. *)
Definition is_control (o : Object) : bool :=
  match o with
  | OPing _ | OPingDelayDisconnect _ | OMsgsAck _ | OMsgsStateReq _ | OMsgResendReq _ | ORPCDropAnswer _ | OGetFutureSaltsRequest _ => true
  | _ => false
  end.
End Answers.

(** * Facts *)

Lemma drains_from_into {A} (K : A -> Object) (d : RD A) bs c a :
  (forall x y, K x = K y -> x = y) -> drains (into K d) bs c (K a) -> drains d bs c a.
Proof.
  intros Hinj Hd bud Ha. specialize (Hd bud Ha). unfold into, mbind, ST_bind, st_bind in Hd.
  destruct (d (Reader bs bud)) as [[x|] r]; [|done]. unfold mret, ST_ret, st_ret in Hd. injection Hd as Hk ->. by rewrite (Hinj _ _ Hk).
Qed.

Lemma len_enc_bytes v : len (enc_bytes v) <= len v + 8.
Proof.
  unfold enc_bytes. cbv zeta. set (h := if len v <? 254 then _ else _).
  assert (len h <= 4) by (unfold h; destruct (len v <? 254); [by vm_compute|rewrite len_cons, len_le_put; lia]).
  rewrite !len_app, len_zeros, Z2Nat.id by apply padding4_range. pose proof (padding4_range (len h + len v)). lia.
Qed.

Lemma len_concat_const {A} (f : A -> bytes) k l : (forall x, len (f x) = k) -> len (concat (f <$> l)) = k * len l.
Proof.
  intros Hf. induction l as [|x l IH]; cbn [fmap list_fmap concat]; [unfold len; cbn; lia|]. rewrite len_app, len_cons, Hf, IH, Z.mul_add_distr_l. lia.
Qed.

Section Facts.
Context {O E : Type} `{OutboundOps O E}.
Implicit Types c : controls (O := O).

Lemma decode_body_ok {A} (K : A -> Object) (d : RD A) (m : InboundMessage) a c :
  (forall x y, K x = K y -> x = y) -> DeserializeTL (K a) = into K d -> valid (K a) -> im_Body m = encode (K a) ->
  affords (ct_budget c) (len (im_Body m)) (cost_of (K a)) ->
  decode_body (E := E) m d c = (Ok a, set_budget (charge_body m (K a) (ct_budget c)) c).
Proof.
  intros Hinj Hk Hv Hb Ha. unfold decode_body, charge_body.
  assert (Hd : drains d (im_Body m) (cost_of (K a)) a).
  { rewrite Hb. apply (drains_from_into K); [done|]. rewrite <- Hk. by apply drains_object. }
  by rewrite (decodeControl_drains d _ _ a _ Hd Ha).
Qed.

Lemma serialize_object o c :
  valid o -> len (encode o) <= DefaultMaxEncodedPayloadBytes ->
  serializeRuntimeTL (E := E) (SerializeTL o) c = (Ok (encode o), c).
Proof.
  intros Hv Hl. unfold serializeRuntimeTL, serializeRuntimeTLBounded.
  change (normalizeMaxEncodedBytes DefaultMaxEncodedPayloadBytes) with DefaultMaxEncodedPayloadBytes.
  pose proof (emits_object o Hv (Wire.Writer [] (Some DefaultMaxEncodedPayloadBytes))) as He.
  unfold room, w_ok in He. cbn [w_remaining default] in He. rewrite (proj2 (Z.leb_le _ _)) in He by done.
  rewrite He by (by vm_compute). done.
Qed.

Lemma reply_object o c :
  valid o -> len (encode o) <= DefaultMaxEncodedPayloadBytes -> reply (E := E) (SerializeTL o) c = (Ok (protocol_reply o), c).
Proof. intros Hv Hl. unfold reply, mbind, ST_bind, st_bind. by rewrite serialize_object. Qed.

Lemma inspectAll_length ids c states c' : inspectAll (E := E) ids c = (Ok states, c') -> length states = length ids.
Proof.
  revert c states. induction ids as [|id ids IH]; intros c states Hi; cbn [inspectAll] in Hi; st_inv; [done|]. cbn. by erewrite IH.
Qed.

Lemma valid_state_info id info : inS 64 id -> len info <= MaxMessageStateIDs ->
  valid (OMsgsStateInfo {| si_ReqMsgID := id; si_Info := info |}) /\
  len (encode (OMsgsStateInfo {| si_ReqMsgID := id; si_Info := info |})) <= DefaultMaxEncodedPayloadBytes.
Proof.
  intros Hid Hl. unfold MaxMessageStateIDs in Hl. split.
  - split; [done|]. cbn. unfold MaxTLBytesLength. lia.
  - unfold encode. cbn [enc_fields si_ReqMsgID si_Info]. rewrite !len_app, len_le_put. unfold enc_int64. rewrite len_le_put.
    pose proof (len_enc_bytes info). unfold DefaultMaxEncodedPayloadBytes. lia.
Qed.

Lemma valid_salts id now salt n :
  inS 64 id -> inS 64 salt -> 0 <= n <= 64 ->
  let o := OFutureSalts {| fss_ReqMsgID := id; fss_Now := unix32 now; fss_Salts := future_salt (unix32 now) salt <$> seqZ 0 n |} in
  valid o /\ len (encode o) <= DefaultMaxEncodedPayloadBytes.
Proof.
  intros Hid Hs Hn o. assert (Hl : len (future_salt (unix32 now) salt <$> seqZ 0 n) = n).
  { unfold len. rewrite length_fmap, length_seqZ. lia. }
  split.
  - split_and!; cbn; [done|by apply wrapS_range|unfold MaxFutureSalts; lia|]. apply Forall_forall.
    intros x (i & -> & _)%list_elem_of_fmap. split_and!; cbn; [by apply wrapS_range..|done].
  - unfold o, encode. cbn [enc_fields fss_ReqMsgID fss_Now fss_Salts]. unfold enc_bare_vector.
    rewrite !len_app, (len_concat_const enc_salt 16), Hl; [unfold enc_int32, enc_int64; rewrite !len_le_put; unfold DefaultMaxEncodedPayloadBytes; lia|].
    intros x. unfold enc_salt, enc_int32, enc_int64. rewrite !len_app, !len_le_put. lia.
Qed.

Lemma salt_count_clamp n : salt_count n = Z.min 64 (Z.max 1 n).
Proof. unfold salt_count, MaxFutureSalts. destruct (Z.leb_spec n 0); case_match; bools; lia. Qed.

Lemma forallb_eligible states :
  forallb ResendEligible states = bool_decide (Forall (fun s => ResendEligible s = true) states).
Proof.
  apply eq_true_iff_eq. rewrite bool_decide_eq_true. split.
  - intros Hf%Is_true_true%forallb_True. eapply Forall_impl; [exact Hf|]. by intros ? ?%Is_true_true.
  - intros Hf. apply Is_true_true, forallb_True. eapply Forall_impl; [exact Hf|]. by intros ? ->.
Qed.

Lemma RouteControl_answers now salt m o c :
  valid o -> im_ConstructorID m = ConstructorID o -> im_Body m = encode o -> inS 64 (im_MessageID m) -> inS 64 salt ->
  affords (ct_budget c) (len (im_Body m)) (cost_of o) ->
  RouteControl now salt m c = answer now salt m o (if is_control o then set_budget (charge_body m o (ct_budget c)) c else c).
Proof.
  intros Hv Hc Hb Hid Hs Ha. unfold RouteControl. rewrite Hc.
  destruct o; cbn [ConstructorID is_control]; switch; try reflexivity; unfold mbind at 1, ST_bind at 1, st_bind at 1.
  - (* msgs_ack *)
    rewrite (decode_body_ok OMsgsAck _ m ids c) by (by intros ? ? [=] || done).
    cbn [answer]. unfold mbind, ST_bind, st_bind, outbound. destruct (AcknowledgeOutbound ids _) as [[?|e] out]; done.
  - (* msg_resend_req *)
    rewrite (decode_body_ok OMsgResendReq _ m ids c) by (by intros ? ? [=] || done).
    set (c1 := set_budget _ c). cbn [answer]. destruct (decide (ids = [])) as [->|Hne]; [done|].
    rewrite (proj2 (Z.eqb_neq _ 0)) by (destruct ids; [done|rewrite len_cons; pose proof (len_nonneg ids); lia]).
    unfold mbind at 1, ST_bind at 1, st_bind at 1. destruct (inspectAll ids c1) as [[states|e] c2] eqn:Ei; [|done].
    rewrite forallb_eligible. destruct (decide _) as [Hall|Hall]; [by rewrite bool_decide_true by done|].
    rewrite bool_decide_false by done. unfold mbind, ST_bind, st_bind.
    destruct (valid_state_info (im_MessageID m) (resend_info <$> states) Hid) as [Hvi Hli].
    { unfold len. rewrite length_fmap, (inspectAll_length _ _ _ _ Ei). apply Hv. }
    pose proof (reply_object _ c2 Hvi Hli) as Hr. cbn [SerializeTL] in Hr. by rewrite Hr.
  - (* msgs_state_req *)
    rewrite (decode_body_ok OMsgsStateReq _ m ids c) by (by intros ? ? [=] || done).
    set (c1 := set_budget _ c). cbn [answer]. unfold mbind, ST_bind, st_bind, state_info.
    destruct (StateInfo now ids (ct_inbound c1)) as [info l] eqn:Ei.
    destruct (valid_state_info (im_MessageID m) (bZ <$> info) Hid) as [Hvi Hli].
    { unfold StateInfo in Ei. injection Ei as <- _. unfold len. rewrite !length_fmap. apply Hv. }
    pose proof (fun c => reply_object _ c Hvi Hli) as Hr. cbn [SerializeTL] in Hr. by rewrite Hr.
  - (* rpc_drop_answer *)
    rewrite (decode_body_ok ORPCDropAnswer _ m id c) by (by intros ? ? [=] || done).
    set (c1 := set_budget _ c). cbn [answer]. unfold mbind, ST_bind, st_bind, drop_request.
    destruct (Drop id (ct_active c1)) as [[[] cancelled] r].
    + pose proof (fun c => serialize_object ORPCAnswerUnknown c I) as Hr. cbn [SerializeTL] in Hr. by rewrite Hr by (by vm_compute).
    + pose proof (fun c => serialize_object ORPCAnswerDroppedRunning c I) as Hr. cbn [SerializeTL] in Hr. by rewrite Hr by (by vm_compute).
  - (* get_future_salts *)
    rewrite (decode_body_ok OGetFutureSaltsRequest _ m num c) by (by intros ? ? [=] || done).
    set (c1 := set_budget _ c). cbn [answer]. rewrite salt_count_clamp. unfold mbind, ST_bind, st_bind.
    destruct (valid_salts (im_MessageID m) now salt (Z.min 64 (Z.max 1 num)) Hid Hs ltac:(lia)) as [Hvi Hli].
    pose proof (fun c => reply_object _ c Hvi Hli) as Hr. cbn [SerializeTL] in Hr. by rewrite Hr.
  - (* ping *)
    rewrite (decode_body_ok OPing _ m id c) by (by intros ? ? [=] || done).
    cbn [answer]. unfold mbind, ST_bind, st_bind.
    pose proof (fun c => reply_object (OPong {| po_MsgID := im_MessageID m; po_PingID := id |}) c (conj Hid Hv)) as Hr.
    cbn [SerializeTL] in Hr. by rewrite Hr by (by vm_compute).
  - (* ping_delay_disconnect *)
    rewrite (decode_body_ok OPingDelayDisconnect _ m m0 c) by (by intros ? ? [=] || done).
    cbn [answer]. destruct Hv as [Hp Hd]. destruct (Z.ltb_spec (pd_DisconnectDelay m0) 0) as [|Hge]; [done|].
    unfold mbind, ST_bind, st_bind.
    pose proof (fun c => reply_object (OPong {| po_MsgID := im_MessageID m; po_PingID := pd_PingID m0 |}) c (conj Hid Hp)) as Hr.
    cbn [SerializeTL] in Hr. rewrite Hr by (by vm_compute).
    unfold inS in *. rewrite wrapS_id by (unfold inS; lia). done.
Qed.

End Facts.

(** ** Outcomes *)

Section OutcomeFacts.
Context {E : Type}.

Lemma validateAll_ok {A} (check : A -> result (control_error E) unit) (P : A -> Prop) l :
  (forall x, check x = Ok tt <-> P x) -> validateAll check l = Ok tt <-> Forall P l.
Proof.
  intros Hc. induction l as [|x l IH]; cbn [validateAll]; [split; [by constructor|done]|].
  rewrite Forall_cons, <- IH, <- Hc. unfold mbind, result_bind. destruct (check x) as [[]|]; naive_solver.
Qed.

Definition mutation_ok (mu : SessionMutation) : Prop :=
  match mu with
  | SetLayer l => 0 < l
  | SetClientMetadata api dm sv av _ _ lc => 0 < api /\ dm <> ""%string /\ sv <> ""%string /\ av <> ""%string /\ lc <> ""%string
  | BindUser u => 0 < u
  | MarkNewSessionCreated f => f <> 0
  | _ => True
  end.

Lemma validateSessionMutation_ok mu : validateSessionMutation (E := E) mu = Ok tt <-> mutation_ok mu.
Proof.
  destruct mu as [l|api dm sv av slc lp lc|u| |b|f]; cbn; try done.
  - destruct (Z.leb_spec l 0); split; try done; lia.
  - destruct (Z.leb_spec api 0), (String.eqb_spec dm ""), (String.eqb_spec sv ""), (String.eqb_spec av ""), (String.eqb_spec lc "");
      cbn; split; try done; intros; destruct_and?; try done; try lia.
  - destruct (Z.leb_spec u 0); split; try done; lia.
  - destruct (Z.eqb_spec f 0); split; done.
Qed.

Lemma ValidateOutcome_ok o :
  ValidateOutcome (E := E) o = Ok tt <->
  from_option (fun d => 0 <= d) True (out_DisconnectAfter o) /\ Forall valid_intent (out_Intents o) /\ Forall mutation_ok (out_Mutations o).
Proof.
  unfold ValidateOutcome. rewrite <- (validateAll_ok validateSessionMutation mutation_ok) by apply validateSessionMutation_ok.
  rewrite <- (validateAll_ok (fun i => map_err CtlContract (ValidateIntent i)) valid_intent).
  2: { intros i. rewrite <- ValidateIntent_valid. destruct (ValidateIntent i) as [[]|]; by split; intros [=]. }
  destruct (out_DisconnectAfter o) as [d|]; cbn [from_option]; [destruct (Z.ltb_spec d 0)|]; [split; [done|lia]|..];
    unfold mbind, result_bind; destruct (validateAll _ (out_Intents o)) as [[]|]; naive_solver.
Qed.

Lemma ApplySessionMutations_eq current mus :
  ApplySessionMutations (E := E) current mus =
    match validateAll validateSessionMutation mus with Ok _ => Ok (foldl apply_mutation current mus) | Err e => Err e end.
Proof.
  revert current. induction mus as [|mu mus IH]; intros current; cbn [ApplySessionMutations validateAll]; [done|].
  unfold mbind, result_bind. destruct (validateSessionMutation mu) as [[]|e]; [|done]. rewrite IH. by destruct (validateAll _ mus).
Qed.

(** What mutations never touch: identity, salt, counters and replay state. *)
Definition same_protocol_state (s s' : Session.Snapshot) : Prop :=
  sn_AuthKeyID s' = sn_AuthKeyID s /\ Session.sn_SessionID s' = Session.sn_SessionID s /\
  Session.sn_ServerSalt s' = Session.sn_ServerSalt s /\ sn_SeqNo s' = sn_SeqNo s /\ sn_ServerSeqNo s' = sn_ServerSeqNo s /\
  sn_LastClientMsgID s' = sn_LastClientMsgID s /\ sn_ClientMsgIDFloor s' = sn_ClientMsgIDFloor s /\
  sn_RecentClientMsgIDs s' = sn_RecentClientMsgIDs s /\ sn_RecentClientSeqNos s' = sn_RecentClientSeqNos s.

Lemma mutations_same_protocol mus s : same_protocol_state s (foldl apply_mutation s mus).
Proof.
  revert s. induction mus as [|mu mus IH]; intros s; [by repeat split|]. cbn [foldl].
  destruct (IH (apply_mutation s mu)) as (H1 & H2 & H3 & H4 & H5 & H6 & H7 & H8 & H9).
  unfold same_protocol_state. rewrite H1, H2, H3, H4, H5, H6, H7, H8, H9. by destruct mu.
Qed.

(** The user after the mutations: what the last one about the user said. *)
Definition user_of (mu : SessionMutation) : option Z :=
  match mu with BindUser u => Some u | UnbindUser => Some 0 | _ => None end.
Definition layer_of (mu : SessionMutation) : option Z := match mu with SetLayer l => Some l | _ => None end.
Definition push_of (mu : SessionMutation) : option bool := match mu with SetPushSubscription b => Some b | _ => None end.
Definition first_of (mu : SessionMutation) : option Z := match mu with MarkNewSessionCreated f => Some f | _ => None end.
Definition client_of (mu : SessionMutation) : option ClientMetadata :=
  match mu with
  | SetClientMetadata api dm sv av slc lp lc =>
      Some {| cm_APIID := api; cm_DeviceModel := dm; cm_SystemVersion := sv; cm_AppVersion := av;
              cm_SystemLangCode := slc; cm_LangPack := lp; cm_LangCode := lc |}
  | _ => None
  end.

Definition last_word {A} (about : SessionMutation -> option A) (mus : list SessionMutation) (before : A) : A :=
  default before (list.last (omap about mus)).

Lemma last_word_cons {A} (about : SessionMutation -> option A) mu mus before :
  last_word about (mu :: mus) before = last_word about mus (default before (about mu)).
Proof.
  unfold last_word. cbn [omap list_omap]. destruct (about mu) as [a|]; [|done]. cbn [default].
  rewrite last_cons. by destruct (list.last (omap about mus)).
Qed.

Lemma mutations_last_word mus s :
  let s' := foldl apply_mutation s mus in
  sn_UserID s' = last_word user_of mus (sn_UserID s) /\ sn_Layer s' = last_word layer_of mus (sn_Layer s) /\
  sn_PushSubscription s' = last_word push_of mus (sn_PushSubscription s) /\
  sn_Client s' = last_word client_of mus (sn_Client s) /\
  sn_FirstClientMsgID s' = last_word first_of mus (sn_FirstClientMsgID s) /\
  sn_NewSessionCreated s' = (sn_NewSessionCreated s || existsb (fun mu => is_some (first_of mu)) mus)%bool.
Proof.
  revert s. induction mus as [|mu mus IH]; intros s; cbn zeta; [cbn; by rewrite Bool.orb_false_r|]. cbn [foldl].
  destruct (IH (apply_mutation s mu)) as (H1 & H2 & H3 & H4 & H5 & H6). rewrite H1, H2, H3, H4, H5, H6, !last_word_cons.
  destruct mu; split_and!; try done; cbn; by rewrite ?Bool.orb_true_r.
Qed.
End OutcomeFacts.

(** * Properties *)

(** The one outcome of a control the router refuses. *)
Definition repeated_resend (o : Outcome) : Prop :=
  exists ids, o = intents [Resend ids] /\ ~ (NoDup ids /\ (0 ∉ ids)).

Lemma encode_long o : 4 <= len (encode o).
Proof. unfold encode. rewrite len_app, len_le_put. pose proof (len_nonneg (enc_fields o)). lia. Qed.

Lemma validated_id m : InboundMessage_Validate m = Ok tt -> im_MessageID m <> 0.
Proof. unfold InboundMessage_Validate. by destruct (Z.eqb_spec (im_MessageID m) 0). Qed.

Lemma Resend_refused ids : ~ (NoDup ids /\ (0 ∉ ids)) -> ValidateIntent (Resend ids) = Err ErrInvalidIntent \/ ids = [].
Proof.
  intros Hd. destruct ids as [|i ids]; [by right|left]. destruct (ValidateIntent (Resend (i :: ids))) as [[]|e] eqn:Ev.
  - apply ValidateIntent_valid in Ev as (_ & ? & ?). by destruct Hd.
  - cbn in Ev. unfold validateMessageIDs in Ev. case_match; [by rewrite Ev|]. clear -Ev. revert Ev. generalize (∅ : gset Z).
    generalize (i :: ids). induction l as [|x l IH]; intros seen; cbn; [done|]. case_match; [congruence|]. case_match; [congruence|]. apply IH.
Qed.

Section Routed.
Context {O E : Type} `{OutboundOps O E}.

Lemma protocol_reply_valid (o : Object) : ValidateOutcome (E := E) (protocol_reply o) = Ok tt.
Proof. apply ValidateOutcome_ok. split_and!; cbn; [done| |by constructor]. apply Forall_singleton. apply encode_long. Qed.

Lemma answer_valid now salt m o (c c' : controls (O := O)) out :
  valid o -> im_MessageID m <> 0 -> answer now salt m o c = (Ok (Some out), c') ->
  ValidateOutcome (E := E) out = Ok tt \/ repeated_resend out.
Proof.
  intros Hv Hid Ha. destruct o; cbn [answer] in Ha; try done.
  - left. destruct (AcknowledgeOutbound ids _) as [[]]; [|done]. by injection Ha as <- _.
  - destruct (decide (ids = [])) as [->|Hne]; [left; by injection Ha as <- _|].
    destruct (inspectAll ids c) as [[states|]]; [|done]. injection Ha as <- _. destruct (decide _).
    + destruct (decide (NoDup ids /\ (0 ∉ ids))) as [[Hn Hz]|Hd]; [left|right; by exists ids].
      apply ValidateOutcome_ok. split_and!; cbn [out_Intents out_Mutations out_DisconnectAfter from_option intents]; [done| |by constructor]. by apply Forall_singleton.
    + left. apply protocol_reply_valid.
  - left. injection Ha as <- _. apply protocol_reply_valid.
  - left. destruct (Drop id (ct_active c)) as [[st cs] r]. injection Ha as <- _. apply ValidateOutcome_ok.
    split_and!; cbn [out_Intents out_Mutations out_DisconnectAfter from_option intents]; [done| |by constructor]. apply Forall_singleton. split; [done|]. apply encode_long.
  - left. injection Ha as <- _. apply protocol_reply_valid.
  - left. injection Ha as <- _. apply protocol_reply_valid.
  - left. destruct (Z.ltb_spec (pd_DisconnectDelay m0) 0); [done|]. injection Ha as <- _. apply ValidateOutcome_ok.
    split_and!; cbn [out_Intents out_Mutations out_DisconnectAfter from_option intents]; [lia| |by constructor]. apply Forall_singleton. apply encode_long.
Qed.

(** The constructors the runtime answers itself. *)
Definition control_constructors : list Z :=
  [PingID; PingDelayDisconnectID; MsgsAckID; MsgsStateReqID; MsgResendReqID; RPCDropAnswerID; GetFutureSaltsID].

Lemma RouteControl_other now salt m c : im_ConstructorID m ∉ control_constructors -> RouteControl now salt m c = (Ok None, c).
Proof.
  unfold control_constructors. rewrite !not_elem_of_cons. intros (?&?&?&?&?&?&?&_). unfold RouteControl. cbv zeta.
  by rewrite !(proj2 (Z.eqb_neq _ _)) by done.
Qed.

(** Operations that never answer "not a control". *)
Definition handles (op : ST (controls (O := O)) (control_error E) (option Outcome)) : Prop := forall c c', op c <> (Ok None, c').

Lemma handles_bind {A} (op : ST (controls (O := O)) (control_error E) A) k : (forall x, handles (k x)) -> handles (op ≫= k).
Proof. intros Hk c c'. unfold mbind, ST_bind, st_bind. destruct (op c) as [[x|e] c1]; [apply Hk|done]. Qed.

Lemma RouteControl_handles now salt m : im_ConstructorID m ∈ control_constructors -> handles (RouteControl now salt m).
Proof.
  intros Hin. unfold RouteControl. cbv zeta.
  repeat match goal with |- handles (if im_ConstructorID m =? ?id then _ else _) =>
    destruct (Z.eqb_spec (im_ConstructorID m) id); [repeat first [done | apply handles_bind; intros ? | progress cbv zeta | case_match]|] end.
  exfalso. unfold control_constructors in Hin. rewrite !elem_of_cons, elem_of_nil in Hin. tauto.
Qed.

(** C26. Every MTProto control is answered by its meaning: a message that carries one,
    decodable within its budget, is charged to the budget and gets the reply its object
    asks for (pong, disconnect delay, state of received messages, resend or state of sent
    ones, dropped answer, between 1 and 64 future salts), with exactly the changes to the
    three stores that answer makes; the router passes that outcome on, unless it resends
    an id twice, which it refuses.  A message with the constructor of a control, decodable
    or not, never reaches the application, and any message with another constructor, known
    or not, goes to the application with nothing changed before, and the application's
    outcome is returned only if it is valid. *)
Theorem controls_answered (now salt : Z) (m : InboundMessage) (c : controls (O := O))
    (application : InboundMessage -> ST (controls (O := O)) (control_error E) Outcome) :
  inS 64 (im_MessageID m) -> inS 64 salt -> InboundMessage_Validate m = Ok tt ->
  (forall o, is_control o = true -> valid o -> im_ConstructorID m = ConstructorID o -> im_Body m = encode o ->
     affords (ct_budget c) (len (im_Body m)) (cost_of o) ->
     let charged_c := set_budget (charge_body m o (ct_budget c)) c in
     RouteControl now salt m c = answer now salt m o charged_c /\
     match answer now salt m o charged_c with
     | (Ok (Some out), c') =>
         (~ repeated_resend out -> Route (RouteControl now salt) application m c = (Ok out, c')) /\
         (repeated_resend out -> Route (RouteControl now salt) application m c = (Err (CtlContract ErrInvalidIntent), c'))
     | (Ok None, _) => False
     | (Err e, c') => Route (RouteControl now salt) application m c = (Err e, c')
     end) /\
  (im_ConstructorID m ∈ control_constructors -> forall application',
     Route (RouteControl now salt) application' m c = Route (RouteControl now salt) application m c) /\
  (im_ConstructorID m ∉ control_constructors ->
     match application m c with
     | (Ok out, c') => Route (RouteControl now salt) application m c =
         (match ValidateOutcome out with Ok _ => Ok out | Err e => Err e end, c')
     | (Err e, c') => Route (RouteControl now salt) application m c = (Err e, c')
     end).
Proof.
  intros Hid Hs Hm. pose proof (validated_id m Hm) as Hnz.
  unfold Route, Router_RouteControl, Router_DispatchApplication, checked. unfold mbind, ST_bind, st_bind. rewrite Hm. cbn [map_err]. split; [|split].
  - intros o Ec Hv Hc Hb Ha. set (charged_c := set_budget (charge_body m o (ct_budget c)) c). pose proof (RouteControl_answers now salt m o c Hv Hc Hb Hid Hs Ha) as Hr. rewrite Ec in Hr.
    fold charged_c in Hr. split; [done|]. rewrite Hr. destruct (answer now salt m o charged_c) as [[[out|]|e] c'] eqn:Ea; [| |done].
    + destruct (answer_valid _ _ _ _ _ _ _ Hv Hnz Ea) as [Hok|Hrep].
      * split; [by rewrite Hok|]. intros (ids & -> & Hd). exfalso. apply ValidateOutcome_ok in Hok as (_ & Hf & _).
        apply Forall_singleton in Hf as (_ & Hn & Hz). by apply Hd.
      * split; [done|]. intros _. destruct Hrep as (ids & -> & Hd). unfold ValidateOutcome. cbn -[ValidateIntent].
        destruct (Resend_refused ids Hd) as [->| ->]; [done|]. exfalso. apply Hd. split; [constructor|apply not_elem_of_nil].
    + exfalso. destruct o; cbn in Ec, Ea; try done; repeat case_match; done.
  - intros Hin application'. pose proof (RouteControl_handles now salt m Hin c (RouteControl now salt m c).2) as Hr.
    destruct (RouteControl now salt m c) as [[[out|]|e] c']; [|done|done]. by destruct (ValidateOutcome out) as [[]|].
  - intros Hout. rewrite (RouteControl_other now salt m c Hout). unfold mret, ST_ret, st_ret.
    destruct (application m c) as [[out|e] c']; [|done]. by destruct (ValidateOutcome out) as [[]|].
Qed.
End Routed.

(** Outcomes take effect only as checked: an outcome passes exactly when its delay
    is not negative, its intents are complete and its mutations carry values; valid
    mutations always apply, leave the session's identity, salt, counters and replay
    memory as they were, and set each other field to the last value asked for; an
    invalid one is refused and applies nothing. *)
Lemma outcomes_checked_and_applied {E : Type} (o : Outcome) (s : Session.Snapshot) :
  (ValidateOutcome (E := E) o = Ok tt <->
     from_option (fun d => 0 <= d) True (out_DisconnectAfter o) /\ Forall valid_intent (out_Intents o) /\
     Forall mutation_ok (out_Mutations o)) /\
  (forall mus, is_ok (ApplySessionMutations (E := E) s mus) = true <-> Forall mutation_ok mus) /\
  (forall mus s', ApplySessionMutations (E := E) s mus = Ok s' ->
     same_protocol_state s s' /\
     sn_UserID s' = last_word user_of mus (sn_UserID s) /\ sn_Layer s' = last_word layer_of mus (sn_Layer s) /\
     sn_PushSubscription s' = last_word push_of mus (sn_PushSubscription s) /\
     sn_Client s' = last_word client_of mus (sn_Client s) /\
     sn_FirstClientMsgID s' = last_word first_of mus (sn_FirstClientMsgID s) /\
     sn_NewSessionCreated s' = (sn_NewSessionCreated s || existsb (fun mu => is_some (first_of mu)) mus)%bool).
Proof.
  split_and!; [apply ValidateOutcome_ok|..]; intros mus; rewrite ApplySessionMutations_eq.
  - rewrite <- (validateAll_ok (validateSessionMutation (E := E))) by apply validateSessionMutation_ok.
    by destruct (validateAll _ mus) as [[]|].
  - intros s'. destruct (validateAll _ mus); [|done]. intros [= <-]. split; [apply mutations_same_protocol|apply mutations_last_word].
Qed.

(** * Witnesses: the controls of the sample writer's session *)

Definition live_context : context := {| ctx_id := 1; ctx_comparable := true; ctx_Err := None |}.

Definition sample_outbound : OutboundOps (Writer (L := LocalCoordinator (S := MemoryStore) * nat)) writer_error :=
  writer_outbound sample_now sample_random sample_write live_context.

(** The writer after it sent a push. *)
Definition sent_writer : Writer (L := LocalCoordinator (S := MemoryStore) * nat) :=
  (process sample_now sample_random sample_write None sample_push sample_writer).2.

Definition sample_controls : controls (O := Writer (L := LocalCoordinator (S := MemoryStore) * nat)) :=
  {| ct_outbound := sent_writer;
     ct_inbound := {| l_capacity := 4; l_ttl := 100; l_order := 0; l_entries := ∅ |};
     ct_active := {| r_capacity := 4; r_active := ∅; r_completed := ∅; r_completedOrder := []; r_changed := 0; r_requests := [] |};
     ct_cancelled := []; ct_budget := None |}.

Definition control_message (o : Object) : InboundMessage :=
  {| im_MessageID := 40; im_SequenceNo := 0; im_ConstructorID := ConstructorID o; im_Body := encode o; im_Dependencies := [];
     im_DecodeBudget := None; im_ContentRelated := false; im_SuppressPush := false; im_Retransmission := false |}.

(** The id of the message sent. *)
Definition sent_id : Z := default 0 (head (map_to_list (entries (wr_reliability sent_writer))).*1).

Lemma controls_answered_witness :
  exists c', @Route writer_error _ (@RouteControl _ _ sample_outbound 0 7) (fun _ => st_err ErrInvalidDisconnectDelay)
    (control_message (OMsgResendReq [sent_id])) sample_controls = (Ok (intents [Resend [sent_id]]), c').
Proof.
  destruct (@controls_answered _ _ sample_outbound 0 7 (control_message (OMsgResendReq [sent_id]))
    sample_controls (fun _ => st_err ErrInvalidDisconnectDelay)) as [H _].
  - split; by vm_compute.
  - split; by vm_compute.
  - by vm_compute.
  - destruct (H (OMsgResendReq [sent_id])) as [_ H'].
    + done.
    + split; [by vm_compute|]. apply Forall_singleton. split; by vm_compute.
    + done.
    + done.
    + done.
    + revert H'. lazymatch goal with |- match ?a with _ => _ end -> _ =>
        assert (Ha : exists c', a = (Ok (Some (intents [Resend [sent_id]])), c')) by (eexists; vm_compute; reflexivity) end.
      destruct Ha as [c' ->]. intros [H' _]. exists c'. apply H'. intros (ids & [= <-] & Hd). apply Hd. clear. split; [apply NoDup_singleton|].
      intros H0%list_elem_of_singleton. revert H0. by vm_compute.
Defined.

(** A resend request that names an unacknowledged message twice is answered for
    neither: the router refuses the resend it is turned into. *)
Lemma duplicate_resend_refused :
  exists c', @Route writer_error _ (@RouteControl _ _ sample_outbound 0 7) (fun _ => st_err ErrInvalidDisconnectDelay)
    (control_message (OMsgResendReq [sent_id; sent_id])) sample_controls = (Err (CtlContract ErrInvalidIntent), c').
Proof. eexists. vm_compute. reflexivity. Qed.
