(* ===== verification/KeyExchange.v ===== *)
(** The cryptographic helpers of the authorization handshake: big integers,
    Diffie-Hellman and nonce hashes (crypto/dh.go), RSA decryption with RSA_PAD
    (crypto/rsa_pad.go) and the server key manager (crypto/rsa.go).

    A *big.Int is its value.  PKCS#1 v1.5 decryption and the primality test are the
    standard library's, parameters with what their documentation promises. *)

From stdpp Require Import base numbers list gmap strings.
From Stdlib Require Import Znumtheory Zpow_facts.
From S2P Require Import Prelude Wire Crypto.
Open Scope Z_scope.

(** * Big integers *)

(** [new(big.Int).SetBytes(b)] *)
Definition SetBytes (b : bytes) : Z := le_get (rev b).

(** The number of bytes of the absolute value. *)
Definition byte_length (z : Z) : nat := if z =? 0 then 0 else Z.to_nat (Z.log2 z / 8 + 1).

(** [z.Bytes()] *)
Definition Bytes (z : Z) : bytes := rev (le_put (byte_length z) z).

(** [z.BitLen()] *)
Definition BitLen (z : Z) : Z := if z =? 0 then 0 else Z.log2 z + 1.

(** [new(big.Int).Exp(x, y, m)] for m > 0 *)
Definition Exp (x y m : Z) : Z := Zpow_mod x y m.

(** big-endian, padded or cut to the low [size] bytes *)
Definition BigEndianToBytes (n : Z) (size : nat) : bytes :=
  let data := Bytes n in
  if (length data <? size)%nat then zeros (size - length data) ++ data else drop (length data - size) data.

Definition padTo256 (n : Z) : bytes := BigEndianToBytes n 256.

Definition BytesToBigEndian (data : bytes) : Z := SetBytes data.

Definition ReadBigInt (size : nat) : RD Z := buf ← ReadFull size; mret (SetBytes buf).
Definition WriteBigInt (n : Z) (size : nat) : WR unit := Write (BigEndianToBytes n size).

(** * Diffie-Hellman *)

Definition DHPrime : Z := 0xc71caeb9c6b1c9048e6c522f70f13f73980d40238e3e21c14934d037563d930f48198a0aa7c14058229493d22530f4dbfa336f6e0ac925139543aed44cce7c3720fd51f69458705ac68cd4fe6b6b13abdc9746512969328454f18faf8c595f642477fe96bb2a941d5bcd1d4ac8cc49880708fa9b378e3c4f3a9060bee67cf9a4a4a695811051907e162753b56b0f6b410dba74d8a84b2a14b3144e0ef1284754fd17ed950d5965b4b9dd46582db1178d169c6bc465b0d6ff9ca3928fef5b9ae4e418fc15e83ebea0f87fa9ff5eed70050ded2849f47bf959d956850ce929851f0d8115f635b105ee2e4e15d04b2454bf6f4fadf034b10403119cd8e3b92fcc5b.
Definition DHGenerator : Z := 3.

(** The loop [for i := int64(2); i*i <= nInt; i++]: [None] when the fuel runs out,
    [Some None] for [return false]. *)
Fixpoint factorLoop (fuel : nat) (i nInt : Z) : option (option (Z * Z)) :=
  match fuel with
  | O => None
  | S fuel =>
      if negb (int64 (i * i) <=? nInt) then Some None
      else if Z.rem nInt i =? 0 then Some (Some (i, Z.quot nInt i))
      else factorLoop fuel (int64 (i + 1)) nInt
  end.

Definition factorize (fuel : nat) (n : Z) : option (option (Z * Z)) :=
  if 64 <? BitLen n then Some None else factorLoop fuel 2 (int64 n).

(** [None] for the pointer that is nil. *)
Definition FactorizePQ (fuel : nat) (pq : option Z) : option (result unit (Z * Z)) :=
  match pq with
  | None => Some (Err tt)
  | Some pq => match factorize fuel pq with
               | None => None
               | Some None => Some (Err tt)
               | Some (Some f) => Some (Ok f)
               end
  end.

(** The package's own byte strings. *)
Definition ReadTLBytes : RD bytes :=
  lenByte ← ReadFull 1;
  length ← (if le_get lenByte <? 254 then mret (le_get lenByte) else lenBytes ← ReadFull 3; mret (le_get lenBytes));
  data ← ReadFull (Z.to_nat length);
  let padding := (4 - (length + 1) mod 4) mod 4 in
  _ ← (if 0 <? padding then ReadFull (Z.to_nat padding) else mret []);
  mret data.

Definition WriteTLBytes (data : bytes) : WR unit :=
  let length := len data in
  if length <? 254 then
    _ ← Write [bZ length];
    let padding := (4 - (length + 1) mod 4) mod 4 in
    _ ← Write data;
    if 0 <? padding then Write (zeros (Z.to_nat padding)) else mret tt
  else
    _ ← Write [xfe];
    _ ← Write [bZ length; bZ (Z.shiftr length 8); bZ (Z.shiftr length 16)];
    let padding := (4 - length mod 4) mod 4 in
    _ ← Write data;
    if 0 <? padding then Write (zeros (Z.to_nat padding)) else mret tt.

Section hashes.
Context `{Hplatform : Platform}.

Definition DeriveTempKeyIV (newNonce serverNonce : bytes) : bytes * bytes :=
  let hash1 := sha1 (newNonce ++ serverNonce) in
  let hash2 := sha1 (serverNonce ++ newNonce) in
  let hash3 := sha1 (newNonce ++ newNonce) in
  (hash1 ++ take 12 hash2, slice hash2 12 20 ++ hash3 ++ take 4 newNonce).

Definition ComputeNonceHash (newNonce serverNonce : bytes) : bytes := take 16 (sha1 (newNonce ++ serverNonce)).
Definition ComputeCheckSHA (newNonce authKey : bytes) : bytes := sha1 (newNonce ++ authKey).

Definition computeNewNonceHashAuth (newNonce authKey : bytes) (marker : Z) : bytes :=
  slice (sha1 (newNonce ++ [bZ marker] ++ take 8 (sha1 authKey))) 4 20.

Definition ComputeNewNonceHash1Auth (newNonce authKey : bytes) : bytes := computeNewNonceHashAuth newNonce authKey 1.
Definition ComputeNewNonceHash2Auth (newNonce authKey : bytes) : bytes := computeNewNonceHashAuth newNonce authKey 2.

(** * RSA *)

Record PrivateKey := { rsa_N : Z; rsa_E : Z; rsa_D : Z }.

Definition rsaLen : Z := 256.
Definition tempKeySize : nat := 32.
Definition dataWithPaddingLength : nat := 192.

(** The number as exactly [size] big-endian bytes, if it fits. *)
Definition fillBytes (b : Z) (size : nat) : option bytes :=
  if Z.of_nat size <? (BitLen b + 7) / 8 then None else Some (BigEndianToBytes b size).

Definition rsaRawDecrypt (data : bytes) (key : PrivateKey) (size : nat) : option bytes :=
  fillBytes (Exp (SetBytes data) (rsa_D key) (rsa_N key)) size.

Definition decodeRSAPad (data : bytes) (key : PrivateKey) : option bytes :=
  if negb (len data =? rsaLen) then None
  else
    match rsaRawDecrypt data key 256 with
    | None => None
    | Some encryptedData =>
        let tempKeyXor := take tempKeySize encryptedData in
        let aesEncrypted := drop tempKeySize encryptedData in
        let tempKey := xorBlock tempKeyXor (sha256 aesEncrypted) in
        match cryptIGE aesEncrypted tempKey (zeros 32) true with
        | Err _ => None
        | Ok dataWithHash =>
            let dataWithPadding := rev (take dataWithPaddingLength dataWithHash) in
            let hash := drop dataWithPaddingLength dataWithHash in
            if negb (bytes_eqb hash (sha256 (tempKey ++ dataWithPadding))) then None else Some dataWithPadding
        end
    end.

(** [rsa.DecryptPKCS1v15] and [big.Int.ProbablyPrime(32)] *)
Class Numbers := {
  DecryptPKCS1v15 : PrivateKey -> bytes -> option bytes;
  ProbablyPrime : Z -> bool
}.

Context `{Hnumbers : Numbers}.

Definition DecryptRSA (key : PrivateKey) (data : bytes) : option bytes :=
  match decodeRSAPad data key with
  | Some decoded => Some decoded
  | None => DecryptPKCS1v15 key data
  end.
End hashes.

(** ProbablyPrime is exact below 2^64. *)
Class NumberLaws `{Numbers} := {
  law_prime z : 0 <= z < 2 ^ 64 -> ProbablyPrime z = true <-> prime z
}.

(** * Server keys *)

Record ServerKey := { sk_ID : Z; sk_Key : PrivateKey; sk_Fingerprint : bytes }.

Section fingerprints.
Context `{Hplatform : Platform}.

Definition writeFingerprintTLBytes (value : bytes) : bytes :=
  let header := if len value <? 254 then [bZ (len value)]
                else [xfe; bZ (len value); bZ (Z.shiftr (len value) 8); bZ (Z.shiftr (len value) 16)] in
  header ++ value ++ zeros (Z.to_nat ((4 - (len header + len value) mod 4) mod 4)).

Definition PublicKeyFingerprint (key : PrivateKey) : Z :=
  let sum := sha1 (writeFingerprintTLBytes (Bytes (rsa_N key)) ++ writeFingerprintTLBytes (Bytes (rsa_E key))) in
  int64 (le_get (slice sum 12 20)).

(** The key as GenerateServerKey and LoadPEMPrivateKey make it. *)
Definition server_key (key : PrivateKey) : ServerKey :=
  {| sk_ID := PublicKeyFingerprint key; sk_Key := key; sk_Fingerprint := le_put 8 (uint64 (PublicKeyFingerprint key)) |}.
End fingerprints.

(** The map, in the order a range over it visits the keys. *)
Record MemoryServerKeyManager := { sm_keys : list ServerKey }.

Definition AddKey (key : ServerKey) (m : MemoryServerKeyManager) : MemoryServerKeyManager :=
  {| sm_keys := key :: filter (fun k => sk_ID k <> sk_ID key) (sm_keys m) |}.

Definition GetKey (fingerprint : bytes) (m : MemoryServerKeyManager) : option ServerKey :=
  list_find (fun k => sk_Fingerprint k = fingerprint) (sm_keys m) ≫= fun p => Some p.2.

Definition GetAllKeys (m : MemoryServerKeyManager) : list ServerKey := sm_keys m.

(** * Facts on big integers *)

Lemma byte_length_range z : 0 <= z -> 0 <= z < 256 ^ Z.of_nat (byte_length z).
Proof.
  intros Hz. unfold byte_length. destruct (Z.eqb_spec z 0) as [->|Hne]; [by vm_compute|]. split; [done|].
  pose proof (Z.log2_nonneg z). pose proof (Z.div_pos (Z.log2 z) 8 ltac:(lia) ltac:(lia)).
  rewrite Z2Nat.id by lia. destruct (Z.log2_spec z ltac:(lia)) as [_ Hlt]. eapply Z.lt_le_trans; [exact Hlt|].
  change 256 with (2 ^ 8). rewrite <- Z.pow_mul_r by lia. apply Z.pow_le_mono_r; [lia|].
  pose proof (Z.mod_pos_bound (Z.log2 z) 8 ltac:(lia)). pose proof (Z.div_mod (Z.log2 z) 8 ltac:(lia)). lia.
Qed.

Lemma byte_length_le z n : 0 <= z < 256 ^ Z.of_nat n -> (byte_length z <= n)%nat.
Proof.
  intros [Hz Hlt]. unfold byte_length. destruct (Z.eqb_spec z 0); [lia|].
  change 256 with (2 ^ 8) in Hlt. rewrite <- Z.pow_mul_r in Hlt by lia. apply Z.log2_lt_pow2 in Hlt; [|lia].
  pose proof (Z.log2_nonneg z). pose proof (Z.div_lt_upper_bound (Z.log2 z) 8 (Z.of_nat n) ltac:(lia) ltac:(lia)).
  pose proof (Z.div_pos (Z.log2 z) 8 ltac:(lia) ltac:(lia)). lia.
Qed.

Lemma byte_length_ge z n : 256 ^ Z.of_nat n <= z -> (n < byte_length z)%nat.
Proof.
  intros Hle. assert (0 < 256 ^ Z.of_nat n) by (apply Z.pow_pos_nonneg; lia).
  destruct (byte_length_range z ltac:(lia)) as [_ Hlt].
  apply Nat2Z.inj_lt. apply (Z.pow_lt_mono_r_iff 256); lia.
Qed.

Lemma length_Bytes z : length (Bytes z) = byte_length z.
Proof. unfold Bytes. by rewrite length_rev, le_put_length. Qed.

Lemma SetBytes_Bytes z : 0 <= z -> SetBytes (Bytes z) = z.
Proof.
  intros Hz. unfold SetBytes, Bytes. rewrite rev_involutive, le_get_put. apply Z.mod_small. by apply byte_length_range.
Qed.

Lemma SetBytes_range b : 0 <= SetBytes b < 256 ^ len b.
Proof. unfold SetBytes. pose proof (le_get_range (rev b)) as H. unfold len in *. by rewrite length_rev in H. Qed.

Lemma Exp_spec x y m : 0 < m -> Exp x y m = x ^ y mod m.
Proof. intros Hm. unfold Exp. apply Zpow_mod_correct. lia. Qed.

(** The two sides compute the same secret. *)
Lemma Exp_agree g a b m : 0 < m -> 0 <= a -> 0 <= b -> Exp (Exp g b m) a m = Exp (Exp g a m) b m.
Proof.
  intros Hm Ha Hb. rewrite !Exp_spec by done. rewrite <- !Zpower_mod by lia.
  rewrite <- !Z.pow_mul_r by done. by rewrite Z.mul_comm.
Qed.

Lemma Exp_range x y m : 0 < m -> 0 <= Exp x y m < m.
Proof. intros Hm. rewrite Exp_spec by done. by apply Z.mod_pos_bound. Qed.

(** * Primes *)

(** No divisor among [fuel] numbers from [d] on. *)
Fixpoint no_divisor (fuel : nat) (d p : Z) : bool :=
  match fuel with
  | O => true
  | S fuel => negb (p mod d =? 0) && no_divisor fuel (d + 1) p
  end.

Lemma no_divisor_spec fuel d p x :
  0 < d -> no_divisor fuel d p = true -> d <= x < d + Z.of_nat fuel -> ~ (x | p).
Proof.
  revert d. induction fuel as [|fuel IH]; intros d Hd Hn Hx; [lia|]. cbn [no_divisor] in Hn. bools.
  destruct (Z.eq_dec x d) as [->|Hne]; [intros Hdiv; apply Z.mod_divide in Hdiv; lia|]. apply (IH (d + 1)); [lia|done|lia].
Qed.

(** Trial division up to the square root. *)
Definition trial_prime (p : Z) : bool := (2 <=? p) && no_divisor (Z.to_nat (Z.sqrt p - 1)) 2 p.

Lemma no_divisor_prime fuel d p : 1 < d -> prime p -> d + Z.of_nat fuel <= p -> no_divisor fuel d p = true.
Proof.
  revert d. induction fuel as [|fuel IH]; intros d Hd Hp Hle; [done|]. cbn [no_divisor]. apply andb_true_iff. split; [|apply IH; [lia|done|lia]].
  apply negb_true_iff, Z.eqb_neq. intros Hdiv%Z.mod_divide; [|lia].
  destruct (prime_divisors p Hp d Hdiv) as [?|[?|[?|?]]]; lia.
Qed.

Lemma prime_by_trial p : trial_prime p = true <-> prime p.
Proof.
  unfold trial_prime. rewrite andb_true_iff, Z.leb_le. split.
  - intros [H2 Hd]. destruct (prime_dec p) as [|Hp]; [done|]. exfalso. apply not_prime_divide in Hp as (x & Hx & y & Hy); [|lia].
    destruct (Z.le_gt_cases x y).
    + assert (x <= Z.sqrt p) by (apply Z.sqrt_le_square; nia). apply (no_divisor_spec _ 2 _ x) in Hd; [|lia|lia]. apply Hd. by exists y.
    + assert (1 < y) by nia. assert (y <= Z.sqrt p) by (apply Z.sqrt_le_square; nia). apply (no_divisor_spec _ 2 _ y) in Hd; [|lia|lia]. apply Hd. exists x. lia.
  - intros Hp. assert (2 <= p) by (destruct Hp; lia). split; [done|]. apply no_divisor_prime; [lia|done|].
    pose proof (Z.sqrt_lt_lin p ltac:(lia)) as Hs. destruct (Z.eq_dec p 2) as [->|]; [by vm_compute|].
    pose proof (Z.sqrt_nonneg p). lia.
Qed.

Lemma two_primes_unique p q p' q' :
  prime p -> prime q -> prime p' -> prime q' -> p * q = p' * q' -> (p = p' /\ q = q') \/ (p = q' /\ q = p').
Proof.
  intros Hp Hq Hp' Hq' Heq. assert (Hdiv : (p | p' * q')) by (rewrite <- Heq; apply Z.divide_factor_l).
  destruct (prime_mult p Hp _ _ Hdiv) as [Hd|Hd].
  - pose proof (prime_div_prime _ _ Hp Hp' Hd) as ->. left. split; [done|]. destruct Hp'. nia.
  - pose proof (prime_div_prime _ _ Hp Hq' Hd) as ->. right. split; [done|]. destruct Hq'. nia.
Qed.

(** ** Key sizes *)

Section sizes.
Context `{Hlaws : PlatformLaws}.

Lemma DeriveTempKeyIV_sizes newNonce serverNonce :
  length newNonce = 32%nat ->
  length (DeriveTempKeyIV newNonce serverNonce).1 = 32%nat /\ length (DeriveTempKeyIV newNonce serverNonce).2 = 32%nat.
Proof.
  intros Hn. unfold DeriveTempKeyIV, slice. cbn [fst snd]. rewrite !length_app, !length_take, length_drop, !sha1_size, Hn. done.
Qed.

Lemma nonce_hash_size newNonce authKey marker : length (computeNewNonceHashAuth newNonce authKey marker) = 16%nat.
Proof. unfold computeNewNonceHashAuth, slice. rewrite length_take, length_drop, sha1_size. done. Qed.
End sizes.

Definition PQ : Z := 0x17ED48941A08F981.
Definition PQ_p : Z := 0x494c553b.
Definition PQ_q : Z := 0x53911073.

Lemma PQ_prime_p : prime PQ_p.
Proof. apply prime_by_trial. by vm_compute. Qed.

Lemma PQ_prime_q : prime PQ_q.
Proof. apply prime_by_trial. by vm_compute. Qed.

Lemma PQ_product : PQ_p * PQ_q = PQ.
Proof. by vm_compute. Qed.

(** * Factorization *)

Lemma least_divisor_prime i n : 1 < i -> 0 < n -> (i | n) -> (forall d, 1 < d < i -> ~ (d | n)) -> prime i.
Proof.
  intros Hi Hn Hd Hleast. destruct (prime_dec i) as [|Hp]; [done|]. exfalso. apply not_prime_divide in Hp as (x & Hx & Hxi); [|done].
  apply (Hleast x Hx). by apply (Z.divide_trans _ i).
Qed.

(** What the loop means: the least prime factor and its cofactor, or none below the root. *)
Definition factored (n : Z) (r : option (Z * Z)) : Prop :=
  match r with
  | Some (p, q) => prime p /\ p * q = n /\ 1 < q /\ forall d, prime d -> (d | n) -> p <= d
  | None => n <= 1 \/ prime n
  end.

Lemma factorLoop_spec fuel i n :
  1 < i -> 0 <= n < 2 ^ 62 -> i <= Z.sqrt n + 1 \/ i = 2 -> (Z.sqrt n - i + 1 < Z.of_nat fuel) -> (0 < fuel)%nat ->
  (forall d, 1 < d < i -> ~ (d | n)) -> exists r, factorLoop fuel i n = Some r /\ factored n r.
Proof.
  revert i. induction fuel as [|fuel IH]; intros i Hi Hn Hle Hf H0 Hleast; [lia|]. cbn [factorLoop].
  assert (Hroot : Z.sqrt n < 2 ^ 31) by (apply Z.sqrt_lt_square; lia).
  rewrite !(wrapS_id 64) by (unfold inS; nia). destruct (Z.leb_spec (i * i) n) as [Hsq|Hsq]; cbn [negb]; cycle 1.
  { eexists. split; [done|]. cbn. destruct (Z.le_gt_cases n 1) as [|Hn1]; [by left|right].
    destruct (prime_dec n) as [|Hp]; [done|]. exfalso. apply not_prime_divide in Hp as (x & Hx & y & Hy); [|done].
    assert (1 < y) by nia. destruct (Z.lt_ge_cases x i); [apply (Hleast x); [lia|by exists y]|].
    apply (Hleast y); [nia|exists x; lia]. }
  assert (i <= Z.sqrt n) by (apply Z.sqrt_le_square; lia). rewrite Z.rem_mod_nonneg by lia.
  destruct (Z.eqb_spec (n mod i) 0) as [Hmod|Hmod].
  - apply Z.mod_divide in Hmod as [q Hq]; [|lia]. eexists. split; [done|]. cbn.
    rewrite Z.quot_div_nonneg, Hq, Z.div_mul by lia. split_and!; [|lia|nia|].
    + apply (least_divisor_prime i n); [done|nia|by exists q|done].
    + intros d Hd Hdn. rewrite <- Hq in Hdn. destruct (Z.le_gt_cases i d); [done|]. exfalso. apply (Hleast d); [destruct Hd; lia|done].
  - apply IH; [lia|done|lia|lia|lia|]. intros d Hd. destruct (Z.eq_dec d i) as [->|]; [|apply Hleast; lia].
    intros Hdiv%Z.mod_divide; [done|lia].
Qed.

(** Factorization of a number below 2^62 ends after at most as many steps as its
    square root: it returns the least prime factor with its cofactor, and refuses exactly
    the numbers that have none of their own, 0, 1 and the primes. *)
Lemma factorization_terminates n :
  0 <= n < 2 ^ 62 ->
  exists r, FactorizePQ (S (Z.to_nat (Z.sqrt n))) (Some n) = Some r /\
    match r with
    | Ok (p, q) => prime p /\ p * q = n /\ 1 < q /\ (forall d, prime d -> (d | n) -> p <= d) /\ ~ prime n
    | Err _ => n <= 1 \/ prime n
    end.
Proof.
  intros Hn. pose proof (Z.sqrt_nonneg n). destruct (factorLoop_spec (S (Z.to_nat (Z.sqrt n))) 2 n) as (r & Hr & Hf);
    [lia|done|by right|lia|lia|lia|].
  assert (Hbits : BitLen n <= 64).
  { unfold BitLen. destruct (Z.eqb_spec n 0); [lia|]. pose proof (proj1 (Z.log2_lt_pow2 n 62 ltac:(lia)) ltac:(lia)). lia. }
  unfold FactorizePQ, factorize. rewrite (proj2 (Z.ltb_ge _ _)) by done. rewrite wrapS_id by (unfold inS; lia). rewrite Hr.
  destruct r as [[p q]|]; eexists; (split; [reflexivity|]); [|done]. destruct Hf as (Hp & Hpq & Hq & Hl).
  split_and!; [done..|]. intros Hprime. assert (1 < p) by (destruct Hp; lia).
  destruct (prime_divisors n Hprime p ltac:(exists q; lia)) as [?|[?|[?|?]]]; nia.
Qed.

Example factorization_of_15 :
  exists r, FactorizePQ 4 (Some 15) = Some r /\ match r with Ok (p, q) => prime p /\ p * q = 15 | Err _ => False end.
Proof.
  destruct (factorization_terminates 15 ltac:(lia)) as (r & Hr & Hf). change (S (Z.to_nat (Z.sqrt 15))) with 4%nat in Hr.
  exists r. split; [exact Hr|]. cbv in Hr. injection Hr as <-. split; [apply Hf|reflexivity].
Qed.

(** The reader pads the long form of a byte string by its short form's rule: the 256 bytes
    that are written are not read back. *)
Lemma long_bytes_unread :
  let '(x, w) := WriteTLBytes (replicate 256 x07) (Writer [] None) in
  is_ok x = true /\ (ReadTLBytes (Reader (w_buf w) None)).1 = Err EOF.
Proof. by vm_compute. Qed.
