(* ===== verification/Handshake.v ===== *)
(** The server side of the authorization handshake (internal/handshake): the engine
    that admits a bounded number of handshakes for a bounded time, and the session
    state machine from req_pq to dh_gen_ok.

    Sessions are objects: an engine knows them by identity, the index into the heap of
    sessions.  A Handle call runs under the session's mutex and takes the engine's only
    for single map operations; a call is run here as a whole, so an expiry that another
    session's NewSession triggers falls before it or after it.  The clock and the random source are parameters, read by
    the number of readings so far.  The server's keys and their RSA keys are never nil. *)

From stdpp Require Import base numbers list gmap strings.
From Stdlib Require Import Znumtheory.
From S2P Require Import Prelude Wire Crypto Tl AuthKeys KeyExchange.
Open Scope Z_scope.

Definition reqPQID : Z := 0x60469778.
Definition reqPQMultiID : Z := 0xbe7e8ef1.
Definition resPQID : Z := 0x05162463.
Definition reqDHParamsID : Z := 0xd712e4be.
Definition serverDHParamsOKID : Z := 0xd0e8075c.
Definition setClientDHParamsID : Z := 0xf5045f1f.
Definition dhGenOKID : Z := 0x3bcbf734.
Definition dhGenRetryID : Z := 0x46dc1fb9.
Definition pqInnerDataID : Z := 0x83c95aec.
Definition pqInnerDataDCID : Z := 0xa9f55f95.
Definition pqInnerDataTempDCID : Z := 0x56fddf88.
Definition serverDHInnerDataID : Z := 0xb5890dba.
Definition clientDHInnerDataID : Z := 0x6643b654.
Definition handshakeGenerator : Z := 3.
Definition maxHandshakePayloadBytes : Z := 4096.
Definition advertisedPQ : bytes := [x17; xed; x48; x94; x1a; x08; xf9; x81].

(** A failed read of the random source: io.EOF and io.ErrUnexpectedEOF, or another error. *)
Inductive random_error := RandomEOF | RandomFailed.

Inductive handshake_error :=
| ErrInvalidConfig
| ErrCapacity
| ErrExpired
| ErrClosed
| ErrInvalidHandshake
| ErrUnsupportedMessage
| ErrTemporaryKeyUnsupported
| HsContext
| HsRandom (e : random_error)
| HsDecode (e : wire_error)
| HsCrypto (e : crypto_error)
| HsKeyNotFound
| HsDecrypt.

Inductive stage := stageFresh | stagePQIssued | stageDHIssued | stageClosed.
#[export] Instance stage_eq_dec : EqDecision stage.
Proof. solve_decision. Defined.

Record Result := { re_AuthKeyID : Z; re_InitialServerSalt : Z }.
Record Output := { ou_Response : bytes; ou_Result : option Result }.

Record dhState := { dh_newNonce : bytes; dh_privateA : Z; dh_tempKey : bytes; dh_tempIV : bytes; dh_retryID : Z }.

(** time.Time{}: the zero time is no expiry. *)
Record Session := {
  hs_stage : stage;
  hs_nonce : bytes;
  hs_serverNonce : bytes;
  hs_dh : option dhState;
  hs_temporaryExpiresAt : option Z
}.

Definition fresh_session : Session :=
  {| hs_stage := stageFresh; hs_nonce := zeros 16; hs_serverNonce := zeros 16; hs_dh := None; hs_temporaryExpiresAt := None |}.

Record Engine := { en_capacity : Z; en_ttl : Z; en_sessions : gmap nat Z }.

Definition DefaultCapacity : Z := 4096.
Definition DefaultTTL : Z := 120 * 10 ^ 9.

(** The crypto.AuthKeyManager of the engine, and whether it is a TemporaryAuthKeyManager. *)
Class AuthKeyStore (K : Type) := {
  ks_Put : Z -> bytes -> ST K crypto_error unit;
  ks_temporary : bool;
  ks_PutTemporary : Z -> Z -> bytes -> Z -> ST K crypto_error unit
}.

#[export] Instance memory_keys `{Platform} : AuthKeyStore MemoryAuthKeyManager := {
  ks_Put id key := fun m => (Ok tt, Put id key m);
  ks_temporary := true;
  ks_PutTemporary now id key expires := PutTemporary now id key expires
}.

(** The random source: the bytes of the n-th read, the n-th draw of crypto/rand.Int. *)
Class Random := {
  rnd_bytes : nat -> nat -> result random_error bytes;
  rnd_Int : nat -> Z -> result random_error Z
}.

Class RandomLaws `{Random} := {
  law_bytes n k b : rnd_bytes n k = Ok b -> length b = k;
  law_Int n max z : rnd_Int n max = Ok z -> 0 <= z < max
}.

Section handshake.
Context {K : Type} `{Hkeys : AuthKeyStore K} `{Hplatform : Platform} `{Hnumbers : Numbers} `{Hrandom : Random}.
Context (clock : nat -> Z) (serverKeys : MemoryServerKeyManager).

Record world := {
  w_engine : Engine;
  w_heap : list Session;
  w_keys : K;
  w_ticks : nat;
  w_draws : nat
}.

Definition set_engine (e : Engine) (w : world) : world :=
  {| w_engine := e; w_heap := w_heap w; w_keys := w_keys w; w_ticks := w_ticks w; w_draws := w_draws w |}.
Definition set_sessions (m : gmap nat Z) (w : world) : world :=
  set_engine {| en_capacity := en_capacity (w_engine w); en_ttl := en_ttl (w_engine w); en_sessions := m |} w.
Definition set_heap (h : list Session) (w : world) : world :=
  {| w_engine := w_engine w; w_heap := h; w_keys := w_keys w; w_ticks := w_ticks w; w_draws := w_draws w |}.
Definition set_keys (k : K) (w : world) : world :=
  {| w_engine := w_engine w; w_heap := w_heap w; w_keys := k; w_ticks := w_ticks w; w_draws := w_draws w |}.

Abbreviation HM := (ST world handshake_error).

(** The clock was read, the random source was. *)
Definition ticked (w : world) : world :=
  {| w_engine := w_engine w; w_heap := w_heap w; w_keys := w_keys w; w_ticks := S (w_ticks w); w_draws := w_draws w |}.
Definition drew (w : world) : world :=
  {| w_engine := w_engine w; w_heap := w_heap w; w_keys := w_keys w; w_ticks := w_ticks w; w_draws := S (w_draws w) |}.

(** [e.now()] *)
Definition now : HM Z := fun w => (Ok (clock (w_ticks w)), ticked w).

Definition drawn {A} (x : result random_error A) : HM A := fun w => (map_err HsRandom x, drew w).

Definition readRandom (n : nat) : HM bytes := fun w => drawn (rnd_bytes (w_draws w) n) w.

(** * Engine (engine.go) *)

Definition New (capacity ttl : Z) : result handshake_error Engine :=
  if (capacity <? 0) || (ttl <? 0) then Err ErrInvalidConfig
  else Ok {| en_capacity := default_if_zero capacity DefaultCapacity; en_ttl := default_if_zero ttl DefaultTTL; en_sessions := ∅ |}.

Definition removeExpiredLocked (t : Z) (m : gmap nat Z) : gmap nat Z := filter (fun kv => t < kv.2) m.

(** NewSession at time [t]. *)
Definition new_session_at (t : Z) : HM nat := fun w =>
  let w := set_sessions (removeExpiredLocked t (en_sessions (w_engine w))) w in
  if en_capacity (w_engine w) <=? Z.of_nat (size (en_sessions (w_engine w))) then (Err ErrCapacity, w)
  else
    let id := length (w_heap w) in
    (Ok id, set_sessions (<[id := t + en_ttl (w_engine w)]> (en_sessions (w_engine w)))
              (set_heap (w_heap w ++ [fresh_session]) w)).

Definition NewSession : HM nat := t ← now; new_session_at t.

Definition remove (id : nat) : HM unit := fun w => (Ok tt, set_sessions (delete id (en_sessions (w_engine w))) w).

Definition check (id : nat) : HM unit := fun w =>
  match en_sessions (w_engine w) !! id with
  | None => (Err ErrExpired, w)
  | Some expiresAt =>
      let '(t, w) := (clock (w_ticks w), ticked w) in
      if negb (t <? expiresAt) then (Err ErrExpired, ((remove id) w).2) else (Ok tt, w)
  end.

Definition refresh (id : nat) : HM unit := fun w =>
  match en_sessions (w_engine w) !! id with
  | None => (Ok tt, w)
  | Some _ =>
      let '(t, w) := (clock (w_ticks w), ticked w) in
      (Ok tt, set_sessions (<[id := t + en_ttl (w_engine w)]> (en_sessions (w_engine w))) w)
  end.

(** * Parsing *)

(** The response buffer: bytes.Buffer writes. *)
Definition buffer (m : WR unit) : HM bytes := fun w =>
  (match serializeObject m with Ok b => Ok b | Err e => Err (HsDecode e) end, w).

(** A read that must succeed and use up the body, else ErrInvalidHandshake. *)
Definition read_last {A} (m : RD A) : RD (option A) := fun r =>
  match m r with
  | (Ok a, r) => (Ok (if negb (Len r =? 0) then None else Some a), r)
  | (Err _, r) => (Ok None, r)
  end.

Definition parse {A} (m : RD A) (data : bytes) : HM A := fun w =>
  (match (m (Reader data None)).1 with Ok a => Ok a | Err e => Err (HsDecode e) end, w).

Definition ensure {A} (o : option A) : HM A := fun w =>
  (match o with Some a => Ok a | None => Err ErrInvalidHandshake end, w).

Definition guard (b : bool) (e : handshake_error) : HM unit := st_guard b e.

Record pqInnerData := {
  pi_expiresIn : Z; pi_pq : bytes; pi_p : bytes; pi_q : bytes; pi_nonce : bytes; pi_serverNonce : bytes; pi_newNonce : bytes
}.

(** The fields of one attempt; [None]: a condition the loop continues on. *)
Definition readPQInner : RD (option pqInnerData) :=
  ctor ← ReadUint32;
  if negb ((ctor =? pqInnerDataID) || (ctor =? pqInnerDataDCID) || (ctor =? pqInnerDataTempDCID)) then mret None
  else
    pq ← ReadBytes; p ← ReadBytes; q ← ReadBytes;
    nonce ← ReadInt128; serverNonce ← ReadInt128; newNonce ← ReadInt256;
    _ ← (if (ctor =? pqInnerDataDCID) || (ctor =? pqInnerDataTempDCID) then ReadInt32 else mret 0);
    expiresIn ← (if ctor =? pqInnerDataTempDCID then ReadInt32 else mret 0);
    if (ctor =? pqInnerDataTempDCID) && ((expiresIn <=? 0) || (MaxTemporaryAuthKeyLifetime <? expiresIn * 10 ^ 9)) then mret None
    else mret (Some {| pi_expiresIn := expiresIn; pi_pq := pq; pi_p := p; pi_q := q; pi_nonce := nonce;
                       pi_serverNonce := serverNonce; pi_newNonce := newNonce |}).

Record clientDHInnerData := { ci_nonce : bytes; ci_serverNonce : bytes; ci_retryID : Z; ci_gb : bytes }.

Definition readClientInner : RD (option clientDHInnerData) :=
  ctor ← ReadUint32;
  if negb (ctor =? clientDHInnerDataID) then mret None
  else
    nonce ← ReadInt128; serverNonce ← ReadInt128; retryID ← ReadInt64; gb ← ReadBytes;
    mret (Some {| ci_nonce := nonce; ci_serverNonce := serverNonce; ci_retryID := retryID; ci_gb := gb |}).

(** One iteration: the attempt at the offset, with the digest checked at 20. *)
Definition parse_at {A} (m : RD (option A)) (data : bytes) (offset : nat) : option A :=
  if (length data <? offset + 4)%nat then None
  else
    match m (Reader (drop offset data) None) with
    | (Ok (Some inner), r) =>
        let consumed := (length (drop offset data) - length (rd_data r))%nat in
        if (offset =? 20)%nat && negb (bytes_eqb (take 20 data) (sha1 (take consumed (drop offset data)))) then None
        else Some inner
    | _ => None
    end.

Definition parsePQInnerData (data : bytes) : option pqInnerData :=
  match parse_at readPQInner data 0 with Some inner => Some inner | None => parse_at readPQInner data 20 end.

Definition parseClientDHInnerData (data : bytes) : option clientDHInnerData :=
  match parse_at readClientInner data 20 with Some inner => Some inner | None => parse_at readClientInner data 0 end.

(** * Checks *)

Definition validatePQFactors (pBytes qBytes pqBytes : bytes) : bool :=
  let p := SetBytes pBytes in let q := SetBytes qBytes in let pq := SetBytes pqBytes in
  negb ((p <? 2) || (q <? 2) || negb (ProbablyPrime p) || negb (ProbablyPrime q)) && (p * q =? pq).

Definition dh_margin : Z := Z.shiftl 1 (2048 - 64).

Definition validateDHPublicValue (value prime : Z) : bool :=
  negb ((value <=? dh_margin) || (prime - dh_margin <=? value)).

Definition equalBigEndian (a b : bytes) : bool := SetBytes a =? SetBytes b.

Definition computeServerSalt (newNonce serverNonce : bytes) : Z :=
  int64 (Z.lxor (le_get (take 8 newNonce)) (le_get (take 8 serverNonce))).

Definition normalizeError (e : handshake_error) : handshake_error :=
  match e with
  | HsDecode EOF | HsDecode ErrUnexpectedEOF | HsDecode ErrInvalidMessageLength
  | HsRandom RandomEOF => ErrInvalidHandshake
  | _ => e
  end.

(** * The session (session.go) *)

(** Reading and writing the session's fields. *)
Definition session_of (id : nat) (w : world) : Session := default fresh_session (w_heap w !! id).
Definition update (id : nat) (f : Session -> Session) : HM unit := fun w => (Ok tt, set_heap (alter f id (w_heap w)) w).
Definition this (id : nat) : HM Session := fun w => (Ok (session_of id w), w).

Definition close_session (s : Session) : Session :=
  {| hs_stage := stageClosed; hs_nonce := hs_nonce s; hs_serverNonce := hs_serverNonce s; hs_dh := None;
     hs_temporaryExpiresAt := hs_temporaryExpiresAt s |}.
Definition restart (s : Session) : Session :=
  {| hs_stage := hs_stage s; hs_nonce := hs_nonce s; hs_serverNonce := hs_serverNonce s; hs_dh := None;
     hs_temporaryExpiresAt := None |}.
Definition issue_pq (nonce serverNonce : bytes) (s : Session) : Session :=
  {| hs_stage := stagePQIssued; hs_nonce := nonce; hs_serverNonce := serverNonce; hs_dh := hs_dh s;
     hs_temporaryExpiresAt := hs_temporaryExpiresAt s |}.
Definition set_expiry (t : Z) (s : Session) : Session :=
  {| hs_stage := hs_stage s; hs_nonce := hs_nonce s; hs_serverNonce := hs_serverNonce s; hs_dh := hs_dh s;
     hs_temporaryExpiresAt := Some t |}.
Definition issue_dh (dh : dhState) (s : Session) : Session :=
  {| hs_stage := stageDHIssued; hs_nonce := hs_nonce s; hs_serverNonce := hs_serverNonce s; hs_dh := Some dh;
     hs_temporaryExpiresAt := hs_temporaryExpiresAt s |}.

Definition write_keys (keys : list ServerKey) : WR unit :=
  _ ← WriteVectorHeader (len keys); st_each (fun k => WriteInt64 (sk_ID k)) keys.

Definition handleReqPQ (id : nat) (data : bytes) : HM bytes :=
  nonce ← parse (read_last ReadInt128) (drop 4 data);
  nonce ← ensure nonce;
  serverNonce ← readRandom 16;
  let keys := GetAllKeys serverKeys in
  _ ← guard (negb (len keys =? 0)) ErrInvalidConfig;
  response ← buffer (_ ← WriteUint32 resPQID; _ ← WriteInt128 nonce; _ ← WriteInt128 serverNonce;
                     _ ← WriteBytes advertisedPQ; write_keys keys);
  _ ← update id (issue_pq nonce serverNonce);
  mret response.

(** The loop of generatePrivateExponent: at most 32 draws. *)
Fixpoint generatePrivateExponent (n : nat) : HM Z :=
  match n with
  | O => st_err (HsRandom RandomFailed)
  | S n =>
      (fun w => (a ← drawn (rnd_Int (w_draws w) DHPrime); if 2 <=? a then mret a else generatePrivateExponent n) w)
  end.

Definition cipher (m : CR ige) (src : bytes) : HM bytes := fun w =>
  (match (m ≫= fun m => CryptBlocks m src) with Ok r => Ok r.1 | Err e => Err (HsCrypto e) end, w).

Definition encryptServerDH (newNonce serverNonce plain : bytes) : HM (bytes * bytes * bytes) :=
  let padded := sha1 plain ++ plain in
  let remainder := Z.rem (len padded) 16 in
  padding ← (if negb (remainder =? 0) then readRandom (Z.to_nat (16 - remainder)) else mret []);
  let '(tempKey, tempIV) := DeriveTempKeyIV newNonce serverNonce in
  encrypted ← cipher (NewAESIGE tempKey tempIV) (padded ++ padding);
  mret (encrypted, tempKey, tempIV).

Definition readReqDH : RD (bytes * bytes * bytes * bytes * Z * option bytes) :=
  nonce ← ReadInt128; serverNonce ← ReadInt128; p ← ReadBytes; q ← ReadBytes; fingerprint ← ReadInt64;
  encrypted ← read_last ReadBytes;
  mret (nonce, serverNonce, p, q, fingerprint, encrypted).

(** [serverKeys.GetKey] with the fingerprint's bytes. *)
Definition key_of (fingerprint : Z) : HM ServerKey := fun w =>
  (match GetKey (le_put 8 (uint64 fingerprint)) serverKeys with Some k => Ok k | None => Err HsKeyNotFound end, w).

Definition decrypt_rsa (key : PrivateKey) (data : bytes) : HM bytes := fun w =>
  (match DecryptRSA key data with Some d => Ok d | None => Err HsDecrypt end, w).

Definition server_inner (nonce serverNonce : bytes) (ga t : Z) : WR unit :=
  _ ← WriteUint32 serverDHInnerDataID; _ ← WriteInt128 nonce; _ ← WriteInt128 serverNonce;
  _ ← WriteUint32 handshakeGenerator; _ ← WriteBytes (Bytes DHPrime); _ ← WriteBytes (Bytes ga);
  WriteUint32 (uint32 (t / 10 ^ 9)).

(** The temporary key's expiry, when the client asked for one. *)
Definition note_expiry (id : nat) (expiresIn : Z) : HM unit :=
  if negb (expiresIn =? 0) then
    _ ← guard ks_temporary ErrTemporaryKeyUnsupported;
    t ← now;
    update id (set_expiry (t + expiresIn * 10 ^ 9))
  else mret tt.

Definition handleReqDHParams (id : nat) (data : bytes) : HM bytes :=
  fields ← parse readReqDH (drop 4 data);
  let '(nonce, serverNonce, p, q, fingerprint, encrypted) := fields in
  encrypted ← ensure encrypted;
  s ← this id;
  _ ← guard (bytes_eqb nonce (hs_nonce s) && bytes_eqb serverNonce (hs_serverNonce s)) ErrInvalidHandshake;
  _ ← guard (validatePQFactors p q advertisedPQ) ErrInvalidHandshake;
  serverKey ← key_of fingerprint;
  decrypted ← decrypt_rsa (sk_Key serverKey) encrypted;
  inner ← ensure (parsePQInnerData decrypted);
  _ ← guard (bytes_eqb (pi_nonce inner) nonce && bytes_eqb (pi_serverNonce inner) serverNonce &&
             equalBigEndian (pi_p inner) p && equalBigEndian (pi_q inner) q && equalBigEndian (pi_pq inner) advertisedPQ)
        ErrInvalidHandshake;
  _ ← guard (validatePQFactors (pi_p inner) (pi_q inner) (pi_pq inner)) ErrInvalidHandshake;
  _ ← note_expiry id (pi_expiresIn inner);
  privateA ← generatePrivateExponent 32;
  let ga := Exp DHGenerator privateA DHPrime in
  _ ← guard (validateDHPublicValue ga DHPrime) ErrInvalidHandshake;
  t ← now;
  plain ← buffer (server_inner nonce serverNonce ga t);
  enc ← encryptServerDH (pi_newNonce inner) serverNonce plain;
  let '(encryptedDH, tempKey, tempIV) := enc in
  response ← buffer (_ ← WriteUint32 serverDHParamsOKID; _ ← WriteInt128 nonce; _ ← WriteInt128 serverNonce; WriteBytes encryptedDH);
  _ ← update id (issue_dh {| dh_newNonce := pi_newNonce inner; dh_privateA := privateA; dh_tempKey := tempKey;
                             dh_tempIV := tempIV; dh_retryID := 0 |});
  mret response.

Definition encodeDHGenResponse (constructor : Z) (nonce serverNonce nonceHash : bytes) : WR unit :=
  _ ← WriteUint32 constructor; _ ← WriteInt128 nonce; _ ← WriteInt128 serverNonce; WriteInt128 nonceHash.

Definition readSetDH : RD (bytes * bytes * option bytes) :=
  nonce ← ReadInt128; serverNonce ← ReadInt128; encrypted ← read_last ReadBytes;
  mret (nonce, serverNonce, encrypted).

Definition store (op : ST K crypto_error unit) : HM unit := fun w =>
  let '(x, k) := op (w_keys w) in (map_err HsCrypto x, set_keys k w).

(** Put or PutTemporary of the new key; the store reads the clock itself. *)
Definition store_key (expiry : option Z) (keyID : Z) (key : bytes) : HM unit :=
  match expiry with
  | Some expires =>
      t ← now;
      _ ← guard (t <? expires) (HsCrypto ErrTemporaryKeyExpiry);
      t ← now;
      store (ks_PutTemporary t keyID key expires)
  | None => store (ks_Put keyID key)
  end.

Definition handleSetClientDHParams (id : nat) (data : bytes) (dh : option dhState) : HM Output :=
  dh ← ensure dh;
  fields ← parse readSetDH (drop 4 data);
  let '(nonce, serverNonce, encrypted) := fields in
  encrypted ← ensure encrypted;
  _ ← guard (negb (len encrypted =? 0) && (Z.rem (len encrypted) 16 =? 0)) ErrInvalidHandshake;
  s ← this id;
  _ ← guard (bytes_eqb nonce (hs_nonce s) && bytes_eqb serverNonce (hs_serverNonce s)) ErrInvalidHandshake;
  decrypted ← cipher (NewAESIGEDecrypt (dh_tempKey dh) (dh_tempIV dh)) encrypted;
  inner ← ensure (parseClientDHInnerData decrypted);
  _ ← guard (bytes_eqb (ci_nonce inner) nonce && bytes_eqb (ci_serverNonce inner) serverNonce) ErrInvalidHandshake;
  _ ← guard (ci_retryID inner =? dh_retryID dh) ErrInvalidHandshake;
  let gb := SetBytes (ci_gb inner) in
  _ ← guard (validateDHPublicValue gb DHPrime) ErrInvalidHandshake;
  let authKeyBytes := Bytes (Exp gb (dh_privateA dh) DHPrime) in
  if negb (len authKeyBytes =? 256) then
    let dh' := {| dh_newNonce := dh_newNonce dh; dh_privateA := dh_privateA dh; dh_tempKey := dh_tempKey dh;
                  dh_tempIV := dh_tempIV dh; dh_retryID := int64 (le_get (take 8 (sha1 authKeyBytes))) |} in
    response ← buffer (encodeDHGenResponse dhGenRetryID nonce serverNonce (ComputeNewNonceHash2Auth (dh_newNonce dh) authKeyBytes));
    _ ← update id (issue_dh dh');
    mret {| ou_Response := response; ou_Result := None |}
  else
    let authKeyID := AuthKey_ID authKeyBytes in
    _ ← store_key (hs_temporaryExpiresAt s) authKeyID authKeyBytes;
    response ← buffer (encodeDHGenResponse dhGenOKID nonce serverNonce (ComputeNewNonceHash1Auth (dh_newNonce dh) authKeyBytes));
    mret {| ou_Response := response;
            ou_Result := Some {| re_AuthKeyID := authKeyID;
                                 re_InitialServerSalt := computeServerSalt (dh_newNonce dh) serverNonce |} |}.

(** The switch of Handle. *)
Definition dispatch (id : nat) (data : bytes) : HM Output := fun w =>
  let constructorID := le_get (take 4 data) in
  let s := session_of id w in
  if (constructorID =? reqPQID) || (constructorID =? reqPQMultiID) then
    (_ ← update id restart; response ← handleReqPQ id data; mret {| ou_Response := response; ou_Result := None |}) w
  else if constructorID =? reqDHParamsID then
    if negb (bool_decide (hs_stage s = stagePQIssued)) then (Err ErrInvalidHandshake, w)
    else (response ← handleReqDHParams id data; mret {| ou_Response := response; ou_Result := None |}) w
  else if constructorID =? setClientDHParamsID then
    if negb (bool_decide (hs_stage s = stageDHIssued)) then (Err ErrInvalidHandshake, w)
    else (_ ← update id close_session; handleSetClientDHParams id data (hs_dh s)) w
  else (Err ErrUnsupportedMessage, w).

Definition Handle (cancelled : bool) (id : nat) (data : bytes) : HM Output := fun w =>
  if cancelled then (Err HsContext, w)
  else if (len data <? 4) || (maxHandshakePayloadBytes <? len data) then (Err ErrInvalidHandshake, w)
  else if bool_decide (hs_stage (session_of id w) = stageClosed) then (Err ErrClosed, w)
  else
    match check id w with
    | (Err e, w) => (Err e, (update id close_session w).2)
    | (Ok _, w) =>
        match dispatch id data w with
        | (Err e, w) =>
            if bool_decide (hs_stage (session_of id w) = stageFresh) then (Err (normalizeError e), w)
            else (Err (normalizeError e), (remove id (update id close_session w).2).2)
        | (Ok output, w) =>
            if match ou_Result output with Some _ => true | None => false end ||
               bool_decide (hs_stage (session_of id w) = stageClosed)
            then (Ok output, (remove id w).2)
            else (Ok output, (refresh id w).2)
        end
    end.

Definition Close (id : nat) : HM unit := fun w =>
  remove id (if bool_decide (hs_stage (session_of id w) = stageClosed) then w else (update id close_session w).2).


(** * What a handler may change *)

(** Another session and the engine are as before; this one moved along [R]. *)
Record moved (id : nat) (R : Session -> Session -> Prop) (w w' : world) : Prop := {
  mv_engine : w_engine w' = w_engine w;
  mv_length : length (w_heap w') = length (w_heap w);
  mv_others j : j <> id -> w_heap w' !! j = w_heap w !! j;
  mv_this : R (session_of id w) (session_of id w')
}.

Definition moves {A} (id : nat) (R : Session -> Session -> Prop) (m : HM A) : Prop :=
  forall w, (id < length (w_heap w))%nat -> moved id R w (m w).2.

Section moving.
Context (id : nat) (R : Session -> Session -> Prop) `{HR : !PreOrder R}.

Lemma moves_same {A} (m : HM A) :
  (forall w, w_engine (m w).2 = w_engine w /\ w_heap (m w).2 = w_heap w) -> moves id R m.
Proof.
  intros Hm w Hid. destruct (Hm w) as [He Hh]. split; [done|by rewrite Hh|by rewrite Hh|].
  unfold session_of. rewrite Hh. reflexivity.
Qed.

Lemma moves_bind {A B} (m : HM A) (f : A -> HM B) : moves id R m -> (forall a, moves id R (f a)) -> moves id R (m ≫= f).
Proof.
  intros Hm Hf w Hid. specialize (Hm w Hid). unfold mbind, ST_bind, st_bind. destruct (m w) as [[a|e] w1]; [|done].
  cbn [snd] in Hm. destruct Hm as [He Hl Ho Ht]. destruct (Hf a w1 ltac:(lia)) as [He' Hl' Ho' Ht'].
  split; [congruence|lia|intros j Hj; by rewrite Ho', Ho|etrans; eauto].
Qed.

Lemma moves_update f : (forall s, R s (f s)) -> moves id R (update id f).
Proof.
  intros Hf w Hid. unfold update. cbn [snd]. split; cbn; [done|by rewrite length_alter|intros j Hj; by rewrite list_lookup_alter_ne|].
  unfold session_of. cbn. rewrite list_lookup_alter_eq. destruct (lookup_lt_is_Some_2 (w_heap w) id Hid) as [s ->]. apply Hf.
Qed.
End moving.

Lemma moves_pure {A} id R `{!PreOrder R} (x : world -> result handshake_error A) : moves id R (fun w => (x w, w)).
Proof. by apply moves_same. Qed.

Lemma moves_draws id R `{!PreOrder R} n : moves id R (generatePrivateExponent n).
Proof.
  induction n as [|n IH]; [by apply moves_same|]. intros w Hid. cbn [generatePrivateExponent].
  apply (moves_bind id R (drawn (rnd_Int (w_draws w) DHPrime)) (fun a => if 2 <=? a then mret a else generatePrivateExponent n)); [by apply moves_same| |done].
  intros a. destruct (2 <=? a); [by apply moves_same|done].
Qed.

(** Everything but [update] leaves the session alone. *)
Ltac moving :=
  repeat first
    [ apply moves_bind; [typeclasses eauto| |intros ?]
    | progress cbv zeta
    | match goal with
      | |- moves _ _ (let '(_, _) := ?x in _) => destruct x
      | |- moves _ _ (if ?b then _ else _) => destruct b
      | |- moves _ _ (match ?o with _ => _ end) => destruct o
      | |- moves _ _ (generatePrivateExponent _) => apply moves_draws; typeclasses eauto
      end
    | solve [apply moves_same; [typeclasses eauto|done]]
    | solve [apply moves_same; [typeclasses eauto|]; intros; unfold store, guard, st_guard; repeat case_match; done] ].

(** ** The three handlers *)

Definition kept (s s' : Session) : Prop := hs_stage s' = hs_stage s /\ hs_dh s' = hs_dh s.

Definition move_pq (s s' : Session) : Prop := kept s s' \/ (hs_stage s' = stagePQIssued /\ hs_dh s' = hs_dh s).
Definition move_dh (s s' : Session) : Prop :=
  hs_nonce s' = hs_nonce s /\ hs_serverNonce s' = hs_serverNonce s /\
  (kept s s' \/ (hs_stage s' = stageDHIssued /\ is_Some (hs_dh s'))).

#[local] Instance move_pq_preorder : PreOrder move_pq.
Proof.
  split; [intros s; by left; split|]. intros a b c [[H1 H2]|[H1 H2]] [[K1 K2]|[K1 K2]]; unfold move_pq, kept; intuition congruence.
Qed.

#[local] Instance move_dh_preorder : PreOrder move_dh.
Proof.
  split; [intros s; split_and!; [done..|by left; split]|].
  intros a b c (Hn & Hs & [[H1 H2]|[H1 H2]]) (Kn & Ks & [[K1 K2]|[K1 K2]]); unfold move_dh, kept;
    (split_and!; [congruence..|]); rewrite ?K1, ?K2; auto.
Qed.

Lemma handleReqPQ_moves id data : moves id move_pq (handleReqPQ id data).
Proof. unfold handleReqPQ, readRandom. moving. apply moves_update; intros s. by right. Qed.

Lemma handleReqDHParams_moves id data : moves id move_dh (handleReqDHParams id data).
Proof.
  unfold handleReqDHParams, note_expiry, encryptServerDH, readRandom. moving; apply moves_update; intros s; repeat split; [by left|by right].
Qed.

Lemma handleSetClientDHParams_moves id data dh : moves id move_dh (handleSetClientDHParams id data dh).
Proof.
  unfold handleSetClientDHParams, store_key. moving; apply moves_update; intros s; repeat split; by right.
Qed.

(** ** What a successful handler did *)

Lemma parse_ok {A} (m : RD A) data w a w' : parse m data w = (Ok a, w') -> w' = w /\ (m (Reader data None)).1 = Ok a.
Proof. unfold parse. destruct (m _).1; by intros [= -> ->]. Qed.

Lemma ensure_ok {A} (o : option A) w a w' : ensure o w = (Ok a, w') -> w' = w /\ o = Some a.
Proof. unfold ensure. destruct o; by intros [= -> ->]. Qed.

Lemma buffer_ok (m : WR unit) w b w' : buffer m w = (Ok b, w') -> w' = w /\ serializeObject m = Ok b.
Proof. unfold buffer. destruct (serializeObject m); by intros [= -> ->]. Qed.

Lemma guard_ok b e w u w' : guard b e w = (Ok u, w') -> w' = w /\ b = true.
Proof. destruct u. unfold guard. intros [-> ->]%st_guard_ok. done. Qed.

Lemma this_ok id w s w' : this id w = (Ok s, w') -> w' = w /\ s = session_of id w.
Proof. by intros [= <- <-]. Qed.

Lemma cipher_ok m src w b w' : cipher m src w = (Ok b, w') -> w' = w /\ exists c, (m ≫= fun m => CryptBlocks m src) = Ok (b, c).
Proof.
  unfold cipher. destruct (m ≫= _) as [[x c]|e]; [|done]. intros [= <- <-]. eauto.
Qed.

Lemma update_ok id f w u w' : update id f w = (Ok u, w') -> w' = (update id f w).2.
Proof. by intros [= <- <-]. Qed.

Lemma drawn_ok {A} (x : result random_error A) w a w' : drawn x w = (Ok a, w') -> w' = drew w /\ x = Ok a.
Proof. unfold drawn. destruct x; by intros [= <- <-]. Qed.

Lemma now_ok w t w' : now w = (Ok t, w') -> w' = ticked w /\ t = clock (w_ticks w).
Proof. by intros [= <- <-]. Qed.

Ltac steps :=
  st_inv;
  repeat (match goal with
  | H : parse _ _ _ = (Ok _, _) |- _ => apply parse_ok in H as [-> H]
  | H : ensure _ _ = (Ok _, _) |- _ => apply ensure_ok in H as [-> H]
  | H : buffer _ _ = (Ok _, _) |- _ => apply buffer_ok in H as [-> H]
  | H : guard _ _ _ = (Ok _, _) |- _ => apply guard_ok in H as [-> H]
  | H : this _ _ = (Ok _, _) |- _ => apply this_ok in H as [-> ->]
  | H : cipher _ _ _ = (Ok _, _) |- _ => apply cipher_ok in H as [-> H]
  | H : drawn _ _ = (Ok _, _) |- _ => apply drawn_ok in H as [-> H]
  | H : now _ = (Ok _, _) |- _ => apply now_ok in H as [-> ->]
  | H : update _ _ _ = (Ok _, _) |- _ => apply update_ok in H as ->
  | H : context [let '(_, _) := ?x in _] |- _ => is_var x; destruct x
  end; st_inv).

(** The checked contents of set_client_DH_params, and the key they give. *)
Record client_answer (s : Session) (dh : dhState) (data nonce serverNonce gb : bytes) : Prop := {
  ca_nonces : nonce = hs_nonce s /\ serverNonce = hs_serverNonce s;
  ca_inner : exists encrypted decrypted c inner,
    (readSetDH (Reader (drop 4 data) None)).1 = Ok (nonce, serverNonce, Some encrypted) /\
    (NewAESIGEDecrypt (dh_tempKey dh) (dh_tempIV dh) ≫= fun m => CryptBlocks m encrypted) = Ok (decrypted, c) /\
    parseClientDHInnerData decrypted = Some inner /\
    ci_nonce inner = nonce /\ ci_serverNonce inner = serverNonce /\ ci_retryID inner = dh_retryID dh /\ ci_gb inner = gb;
  ca_range : 2 ^ 1984 < SetBytes gb < DHPrime - 2 ^ 1984
}.

(** g_b ^ a mod p, as bytes *)
Definition shared_key (gb : bytes) (dh : dhState) : bytes := Bytes (Exp (SetBytes gb) (dh_privateA dh) DHPrime).

Lemma handleSet_inv id data dh w out w' :
  handleSetClientDHParams id data dh w = (Ok out, w') ->
  exists d nonce serverNonce gb, dh = Some d /\ client_answer (session_of id w) d data nonce serverNonce gb /\
    match ou_Result out with
    | None => len (shared_key gb d) <> 256 /\ w_keys w' = w_keys w /\
        w' = (update id (issue_dh {| dh_newNonce := dh_newNonce d; dh_privateA := dh_privateA d; dh_tempKey := dh_tempKey d;
                dh_tempIV := dh_tempIV d; dh_retryID := int64 (le_get (take 8 (sha1 (shared_key gb d)))) |}) w).2 /\
        serializeObject (encodeDHGenResponse dhGenRetryID nonce serverNonce (ComputeNewNonceHash2Auth (dh_newNonce d) (shared_key gb d)))
          = Ok (ou_Response out)
    | Some r => len (shared_key gb d) = 256 /\
        store_key (hs_temporaryExpiresAt (session_of id w)) (AuthKey_ID (shared_key gb d)) (shared_key gb d) w = (Ok tt, w') /\
        r = {| re_AuthKeyID := AuthKey_ID (shared_key gb d); re_InitialServerSalt := computeServerSalt (dh_newNonce d) serverNonce |} /\
        serializeObject (encodeDHGenResponse dhGenOKID nonce serverNonce (ComputeNewNonceHash1Auth (dh_newNonce d) (shared_key gb d)))
          = Ok (ou_Response out)
    end.
Proof.
  intros H. unfold handleSetClientDHParams in H. steps. cbv zeta in *. unfold bytes_eqb, validateDHPublicValue in *.
  destruct (negb (len (Bytes _) =? 256)) eqn:Hlen; steps; bools.
  all: match goal with Hi : parseClientDHInnerData _ = Some ?inner, Hd : exists c, _ = Ok _ |- _ =>
         destruct Hd as [c Hd]; eexists _, _, _, (ci_gb inner) end.
  all: split; [done|]; split; [split; [done| |unfold dh_margin in *; rewrite Z.shiftl_1_l in *; lia]; subst; eauto 12|].
  all: cbn [ou_Result ou_Response]; repeat match goal with u : unit |- _ => destruct u end; subst; by split_and!.
Qed.

(** ** Handle *)

Lemma update_this id f w : (id < length (w_heap w))%nat -> session_of id (update id f w).2 = f (session_of id w).
Proof.
  intros Hid. unfold update, session_of. cbn. rewrite list_lookup_alter_eq. by destruct (lookup_lt_is_Some_2 (w_heap w) id Hid) as [s ->].
Qed.

(** The DH state is there exactly in the stage that uses it. *)
Definition coherent (s : Session) : Prop := hs_stage s = stageDHIssued <-> is_Some (hs_dh s).

Definition has_result (x : result handshake_error Output) : bool :=
  match x with Ok {| ou_Result := Some _ |} => true | _ => false end.

Definition anyhow (s s' : Session) : Prop := True.
#[local] Instance anyhow_preorder : PreOrder anyhow.
Proof. by split. Qed.

Lemma moved_weaken id (R R' : Session -> Session -> Prop) w w' : (forall s s', R s s' -> R' s s') -> moved id R w w' -> moved id R' w w'.
Proof. intros HR [???]. split; auto. Qed.

Lemma moved_after_update id f w w' : (id < length (w_heap w))%nat -> moved id anyhow (update id f w).2 w' -> moved id anyhow w w'.
Proof.
  intros Hid [He Hl Ho _]. destruct (moves_update id anyhow f ltac:(done) w Hid) as [He' Hl' Ho' _].
  split; [congruence|congruence|intros j Hj; by rewrite Ho, Ho'|done].
Qed.

(** What the switch leaves: the session moved on with the response, or it failed. *)
Definition dispatched (s : Session) (x : result handshake_error Output) (s' : Session) : Prop :=
  match x with
  | Ok out =>
      coherent s' /\ hs_stage s' <> stageFresh /\
      (hs_stage s' = stageClosed <-> is_Some (ou_Result out)) /\ (is_Some (ou_Result out) -> hs_stage s = stageDHIssued)
  | Err _ => hs_stage s' = stageFresh -> hs_dh s' = None
  end.

Lemma Ok_result (m : HM bytes) w x w' :
  (response ← m; mret {| ou_Response := response; ou_Result := None |}) w = (x, w') ->
  (m w).2 = w' /\ match x with Ok out => ou_Result out = None /\ (m w).1 = Ok (ou_Response out) | Err e => (m w).1 = Err e end.
Proof. unfold mbind, ST_bind, st_bind. destruct (m w) as [[b|e] w1]; intros [= <- <-]; done. Qed.

Lemma handleReqPQ_issues id data w b w' :
  (id < length (w_heap w))%nat -> handleReqPQ id data w = (Ok b, w') -> exists nonce serverNonce, session_of id w' = issue_pq nonce serverNonce (session_of id w).
Proof.
  intros Hid H. unfold handleReqPQ, readRandom in H. steps. subst. eexists _, _. by apply (update_this id _ (drew w)).
Qed.

(** Only the clock and the random source were read. *)
Definition untouched (w w' : world) : Prop := w_engine w' = w_engine w /\ w_heap w' = w_heap w /\ w_keys w' = w_keys w.

Lemma key_of_ok fingerprint w key w' : key_of fingerprint w = (Ok key, w') -> w' = w /\ GetKey (le_put 8 (uint64 fingerprint)) serverKeys = Some key.
Proof. unfold key_of. destruct (GetKey _ _); by intros [= <- <-]. Qed.

Lemma decrypt_rsa_ok key data w d w' : decrypt_rsa key data w = (Ok d, w') -> w' = w /\ DecryptRSA key data = Some d.
Proof. unfold decrypt_rsa. destruct (DecryptRSA _ _); by intros [= <- <-]. Qed.

Lemma exponent_ok n w a w' : generatePrivateExponent n w = (Ok a, w') -> 2 <= a /\ untouched w w'.
Proof.
  revert w. induction n as [|n IH]; intros w H; [done|]. cbn [generatePrivateExponent] in H. steps.
  destruct (Z.leb_spec 2 x); [by steps|]. by apply IH in H0.
Qed.

Lemma note_expiry_ok id expiresIn w u w' :
  note_expiry id expiresIn w = (Ok u, w') ->
  w_keys w' = w_keys w /\
  w_heap w' = if expiresIn =? 0 then w_heap w else alter (set_expiry (clock (w_ticks w) + expiresIn * 10 ^ 9)) id (w_heap w).
Proof. unfold note_expiry. destruct (expiresIn =? 0); intros H; cbn [negb] in H; by steps. Qed.

Lemma encryptServerDH_ok newNonce serverNonce plain w enc tempKey tempIV w' :
  encryptServerDH newNonce serverNonce plain w = (Ok (enc, tempKey, tempIV), w') ->
  untouched w w' /\ (tempKey, tempIV) = DeriveTempKeyIV newNonce serverNonce.
Proof.
  unfold encryptServerDH, readRandom. destruct (DeriveTempKeyIV newNonce serverNonce) as [k v].
  case_match; intros H1; steps; by simplify_eq.
Qed.

(** The checked contents of req_DH_params. *)
Record client_request (s : Session) (data nonce serverNonce : bytes) (key : ServerKey) (inner : pqInnerData) : Prop := {
  cq_nonces : nonce = hs_nonce s /\ serverNonce = hs_serverNonce s;
  cq_inner : exists p q fingerprint encrypted decrypted,
    (readReqDH (Reader (drop 4 data) None)).1 = Ok (nonce, serverNonce, p, q, fingerprint, Some encrypted) /\
    GetKey (le_put 8 (uint64 fingerprint)) serverKeys = Some key /\ DecryptRSA (sk_Key key) encrypted = Some decrypted /\
    parsePQInnerData decrypted = Some inner /\ pi_nonce inner = nonce /\ pi_serverNonce inner = serverNonce /\
    SetBytes (pi_p inner) = SetBytes p /\ SetBytes (pi_q inner) = SetBytes q /\ validatePQFactors p q advertisedPQ = true
}.

Definition dh_issued (inner : pqInnerData) (serverNonce : bytes) (a : Z) : dhState :=
  {| dh_newNonce := pi_newNonce inner; dh_privateA := a; dh_tempKey := (DeriveTempKeyIV (pi_newNonce inner) serverNonce).1;
     dh_tempIV := (DeriveTempKeyIV (pi_newNonce inner) serverNonce).2; dh_retryID := 0 |}.

Lemma handleReqDH_inv id data w b w' :
  (id < length (w_heap w))%nat -> handleReqDHParams id data w = (Ok b, w') ->
  exists nonce serverNonce key inner a,
    client_request (session_of id w) data nonce serverNonce key inner /\
    2 <= a /\ 2 ^ 1984 < Exp DHGenerator a DHPrime < DHPrime - 2 ^ 1984 /\
    session_of id w' = issue_dh (dh_issued inner serverNonce a)
      (if pi_expiresIn inner =? 0 then session_of id w else set_expiry (clock (w_ticks w) + pi_expiresIn inner * 10 ^ 9) (session_of id w)) /\
    w_keys w' = w_keys w.
Proof.
  intros Hid H. pose proof (mv_length _ _ _ _ (handleReqDHParams_moves id data w Hid)) as Hlen. rewrite H in Hlen. cbn [snd] in Hlen.
  unfold handleReqDHParams in H. steps. subst. cbn in Hlen. rewrite length_alter in Hlen.
  repeat match goal with
  | Hx : key_of _ _ = _ |- _ => apply key_of_ok in Hx as [-> Hx]
  | Hx : decrypt_rsa _ _ _ = _ |- _ => apply decrypt_rsa_ok in Hx as [-> Hx]
  | Hx : note_expiry _ _ _ = _ |- _ => apply note_expiry_ok in Hx as [? ?]
  | Hx : generatePrivateExponent _ _ = _ |- _ => apply exponent_ok in Hx as (? & ? & ? & ?)
  | Hx : encryptServerDH _ _ _ _ = _ |- _ => apply encryptServerDH_ok in Hx as ((? & ? & ?) & ?)
  end.
  unfold bytes_eqb, equalBigEndian, validateDHPublicValue, dh_margin in *. rewrite Z.shiftl_1_l in *. bools.
  eexists _, _, _, _, _. split_and!; [split; [by split|]|..].
  - by do 5 eexists; split_and!.
  - eassumption.
  - eassumption.
  - eassumption.
  - rewrite update_this by lia. unfold dh_issued. match goal with Hk : (_, _) = DeriveTempKeyIV _ _ |- _ => rewrite <- Hk end. cbn [fst snd].
    f_equal. match goal with Hh : w_heap ?w2 = w_heap (ticked ?w1), Hh' : w_heap ?w1 = w_heap ?w0, He : w_heap ?w0 = if _ then _ else _ |- _ =>
      unfold session_of at 1; rewrite Hh; cbn; rewrite Hh', He end.
    case_match; [done|]. rewrite list_lookup_alter_eq. unfold session_of. by destruct (lookup_lt_is_Some_2 (w_heap w) id Hid) as [s ->].
  - cbn in *. congruence.
Qed.

Lemma dispatch_pq id data w x w' :
  (id < length (w_heap w))%nat ->
  (_ ← update id restart; response ← handleReqPQ id data; mret {| ou_Response := response; ou_Result := None |}) w = (x, w') ->
  moved id anyhow w w' /\ dispatched (session_of id w) x (session_of id w').
Proof.
  intros Hid H. set (w1 := (update id restart w).2) in *.
  change ((response ← handleReqPQ id data; mret {| ou_Response := response; ou_Result := None |}) w1 = (x, w')) in H.
  assert (Hid1 : (id < length (w_heap w1))%nat) by (unfold w1; cbn; by rewrite length_alter).
  assert (Hs1 : session_of id w1 = restart (session_of id w)) by (by apply update_this).
  apply Ok_result in H as [Hw H]. pose proof (handleReqPQ_moves id data w1 Hid1) as Hm. rewrite Hw in Hm.
  split; [eapply moved_after_update, moved_weaken, Hm; done|].
  destruct x as [out|e]; cbn [dispatched].
  - destruct H as [Hr Hok]. destruct (handleReqPQ_issues id data w1 (ou_Response out) w' Hid1) as (n & sn & Hs).
    { rewrite <- Hok, <- Hw. by destruct (handleReqPQ id data w1). }
    rewrite Hs, Hs1, Hr. unfold coherent. cbn. split_and!; [split; [done|by intros []]|done|split; [done|by intros []]|by intros []].
  - destruct (mv_this _ _ _ _ Hm) as [[_ Hd]|[Hst _]]; [|congruence]. by rewrite Hd, Hs1.
Qed.

Lemma dispatch_dh id data w x w' :
  (id < length (w_heap w))%nat -> hs_stage (session_of id w) = stagePQIssued ->
  (response ← handleReqDHParams id data; mret {| ou_Response := response; ou_Result := None |}) w = (x, w') ->
  moved id anyhow w w' /\ dispatched (session_of id w) x (session_of id w').
Proof.
  intros Hid Hst H. apply Ok_result in H as [Hw H]. pose proof (handleReqDHParams_moves id data w Hid) as Hm. rewrite Hw in Hm.
  split; [eapply moved_weaken, Hm; done|]. destruct x as [out|e]; cbn [dispatched].
  - destruct H as [Hr Hok]. destruct (handleReqDH_inv id data w (ou_Response out) w' Hid) as (? & ? & ? & ? & ? & _ & _ & _ & Hs & _).
    { rewrite <- Hok, <- Hw. by destruct (handleReqDHParams id data w). }
    rewrite Hs, Hr. unfold coherent. cbn. split_and!; [by eauto|done|split; [done|by intros []]|by intros []].
  - destruct (mv_this _ _ _ _ Hm) as (_ & _ & [[Hs _]|[Hs _]]); congruence.
Qed.

Lemma store_key_heap expiry keyID key w : w_heap (store_key expiry keyID key w).2 = w_heap w.
Proof.
  unfold store_key, store, mbind, ST_bind, st_bind, now, guard, st_guard, st_ret, st_err.
  destruct expiry; cbn -[ticked]; repeat case_match; by simplify_eq/=.
Qed.

Lemma dispatch_set id data w x w' :
  (id < length (w_heap w))%nat -> hs_stage (session_of id w) = stageDHIssued ->
  (_ ← update id close_session; handleSetClientDHParams id data (hs_dh (session_of id w))) w = (x, w') ->
  moved id anyhow w w' /\ dispatched (session_of id w) x (session_of id w').
Proof.
  intros Hid Hst H. set (dh := hs_dh (session_of id w)) in *. set (w1 := (update id close_session w).2) in *.
  change (handleSetClientDHParams id data dh w1 = (x, w')) in H.
  assert (Hid1 : (id < length (w_heap w1))%nat) by (unfold w1; cbn; by rewrite length_alter).
  assert (Hs1 : session_of id w1 = close_session (session_of id w)) by (by apply update_this).
  pose proof (handleSetClientDHParams_moves id data dh w1 Hid1) as Hm. rewrite H in Hm. cbn [snd] in Hm.
  split; [eapply moved_after_update, moved_weaken, Hm; done|].
  destruct x as [out|e]; cbn [dispatched].
  - apply handleSet_inv in H as (d & nonce & serverNonce & gb & _ & _ & H). destruct (ou_Result out) as [r|].
    + destruct H as (_ & Hst' & _). assert (Hs' : session_of id w' = close_session (session_of id w)).
      { rewrite <- Hs1. unfold session_of. pose proof (store_key_heap (hs_temporaryExpiresAt (session_of id w1)) (AuthKey_ID (shared_key gb d)) (shared_key gb d) w1) as Hk.
        rewrite Hst' in Hk. cbn [snd] in Hk. by rewrite Hk. }
      rewrite Hs'. unfold coherent. cbn. split_and!; [split; [done|by intros []]|done|done|done].
    + destruct H as (_ & _ & -> & _). rewrite update_this by done. unfold coherent. cbn.
      split_and!; [done|done|split; [done|by intros []]|by intros []].
  - destruct (mv_this _ _ _ _ Hm) as (_ & _ & [[Hs _]|[Hs _]]); [|congruence]. rewrite Hs, Hs1. done.
Qed.

Lemma dispatch_spec id data w x w' :
  (id < length (w_heap w))%nat -> coherent (session_of id w) -> dispatch id data w = (x, w') ->
  moved id anyhow w w' /\ dispatched (session_of id w) x (session_of id w').
Proof.
  intros Hid Hc H. unfold dispatch in H.
  assert (Herr : forall e, (Err e, w) = (x, w') -> moved id anyhow w w' /\ dispatched (session_of id w) x (session_of id w')).
  { intros e [= <- <-]. split; [by split|]. cbn. intros Hf. destruct (hs_dh _) eqn:Hd; [|done].
    assert (hs_stage (session_of id w) = stageDHIssued) by (apply Hc; rewrite Hd; done). congruence. }
  repeat case_match; bools; eauto using dispatch_pq, dispatch_dh, dispatch_set.
Qed.

(** What one call does to the table of handshakes in progress. *)
Inductive table_step (id : nat) (m : gmap nat Z) : gmap nat Z -> Prop :=
| table_same : table_step id m m
| table_removed : table_step id m (delete id m)
| table_refreshed t : is_Some (m !! id) -> table_step id m (<[id := t]> m).

(** The facts of one call on session [id]. *)
Record called (id : nat) (x : bool) (w w' : world) : Prop := {
  cl_limits : en_capacity (w_engine w') = en_capacity (w_engine w) /\ en_ttl (w_engine w') = en_ttl (w_engine w);
  cl_length : length (w_heap w') = length (w_heap w);
  cl_others j : j <> id -> w_heap w' !! j = w_heap w !! j;
  cl_coherent : coherent (session_of id w');
  cl_table : table_step id (en_sessions (w_engine w)) (en_sessions (w_engine w'));
  cl_open : is_Some (en_sessions (w_engine w') !! id) -> hs_stage (session_of id w') <> stageClosed;
  cl_closed : hs_stage (session_of id w) = stageClosed -> hs_stage (session_of id w') = stageClosed;
  cl_result : x = true -> hs_stage (session_of id w) = stageDHIssued /\ hs_stage (session_of id w') = stageClosed
}.

Definition open_if_registered (id : nat) (w : world) : Prop :=
  is_Some (en_sessions (w_engine w) !! id) -> hs_stage (session_of id w) <> stageClosed.

Lemma called_same id w : coherent (session_of id w) -> open_if_registered id w -> called id false w w.
Proof. intros Hc Ho. split; [done|done|done|exact Hc|constructor|exact Ho|done|done]. Qed.

(** A session is closed, and is or becomes unregistered. *)
Lemma called_close id w w1 :
  (id < length (w_heap w))%nat -> w_engine w1 = w_engine w -> length (w_heap w1) = length (w_heap w) ->
  (forall j, j <> id -> w_heap w1 !! j = w_heap w !! j) -> called id false w (remove id (update id close_session w1).2).2.
Proof.
  intros Hid He Hl Ho. assert (Hs : session_of id (update id close_session w1).2 = close_session (session_of id w1)) by (apply update_this; lia).
  split; cbn; rewrite ?He, ?length_alter; [done|done|intros j Hj; by rewrite list_lookup_alter_ne; auto| | | | |done].
  all: try change (session_of id (set_sessions _ _)) with (session_of id (update id close_session w1).2); rewrite ?Hs.
  - split; [done|by intros []].
  - apply table_removed.
  - rewrite lookup_delete_eq. by intros [].
  - done.
Qed.

Lemma called_world id x w w1 w2 : called id x w w1 -> w_engine w2 = w_engine w1 -> w_heap w2 = w_heap w1 -> called id x w w2.
Proof. intros [] He Hh. split; unfold session_of in *; rewrite ?He, ?Hh; done. Qed.

Lemma check_spec id w :
  match check id w with
  | (Ok _, w') => w' = ticked w /\ is_Some (en_sessions (w_engine w) !! id)
  | (Err _, w') => w_heap w' = w_heap w /\ w_engine w' = w_engine (remove id w).2
  end.
Proof.
  unfold check. destruct (en_sessions (w_engine w) !! id) eqn:E; [destruct (negb _); by eauto|].
  split; [done|]. cbn. rewrite delete_id by done. by destruct (w_engine w).
Qed.

Lemma Handle_called cancelled id data w :
  (id < length (w_heap w))%nat -> coherent (session_of id w) -> open_if_registered id w ->
  called id (has_result (Handle cancelled id data w).1) w (Handle cancelled id data w).2.
Proof.
  intros Hid Hc Ho. unfold Handle. destruct cancelled; [by apply called_same|]. case_match; [by apply called_same|].
  case_bool_decide; [by apply called_same|]. pose proof (check_spec id w) as Hk. destruct (check id w) as [[[]|e] w1]; cycle 1.
  { destruct Hk as [Hh He]. cbn [fst snd has_result]. 
    eapply called_world; [by apply (called_close id w w)|cbn; by rewrite He|cbn; by rewrite Hh]. }
  destruct Hk as [-> Hreg]. destruct (dispatch id data (ticked w)) as [x w1] eqn:Hd.
  apply dispatch_spec in Hd as [Hm Hx]; [|done|done]. 
  assert (Hmv : w_engine w1 = w_engine w /\ length (w_heap w1) = length (w_heap w) /\ (forall j, j <> id -> w_heap w1 !! j = w_heap w !! j)) by (by destruct Hm).
  destruct Hmv as (He & Hl & Hj). destruct x as [out|e]; cbn [dispatched] in Hx.
  - destruct Hx as (Hc' & Hf & Hcl & Hres). assert (Hr : has_result (Ok out) = true <-> is_Some (ou_Result out)).
    { destruct out as [b [r|]]; cbn; split; eauto; [done|by intros []]. }
    destruct (_ || bool_decide (hs_stage (session_of id w1) = stageClosed)) eqn:Hdone; cbn [fst snd].
    + assert (Hst : hs_stage (session_of id w1) = stageClosed).
      { apply orb_true_iff in Hdone as [Hdone|Hdone]; [|by bools]. apply Hcl. by destruct (ou_Result out). }
      split; cbn; rewrite ?He; try done; [apply table_removed|rewrite lookup_delete_eq; by intros []|].
      intros Hx%Hr. split; [by apply Hres|done].
    + bools. assert (hs_stage (session_of id w1) <> stageClosed) by done.
      unfold refresh. rewrite He. destruct Hreg as [t Ht]. rewrite Ht. cbn [snd].
      split; cbn; rewrite ?He; try done; [by apply table_refreshed|].
      intros Hx%Hr%Hcl. done.
  - case_bool_decide; cbn [fst snd has_result]; [|by apply called_close]. split; rewrite ?He; try done; [|constructor|congruence].
    split; [congruence|]. rewrite Hx by done. by intros [].
Qed.


Lemma Close_called id w :
  (id < length (w_heap w))%nat -> coherent (session_of id w) -> called id false w (Close id w).2.
Proof.
  intros Hid Hc. unfold Close. case_bool_decide; [|by apply called_close].
  split; cbn; try done; [apply table_removed|rewrite lookup_delete_eq; by intros []].
Qed.

(** ** Histories *)

(** The calls the connections make on one engine, and the results they were given. *)
Inductive reached (capacity ttl : Z) : world -> list (nat * Result) -> Prop :=
| reached_new e keys ticks draws :
    New capacity ttl = Ok e ->
    reached capacity ttl {| w_engine := e; w_heap := []; w_keys := keys; w_ticks := ticks; w_draws := draws |} []
| reached_session w rs : reached capacity ttl w rs -> reached capacity ttl (NewSession w).2 rs
| reached_close id w rs : reached capacity ttl w rs -> (id < length (w_heap w))%nat -> reached capacity ttl (Close id w).2 rs
| reached_handle cancelled id data w rs x w' :
    reached capacity ttl w rs -> (id < length (w_heap w))%nat -> Handle cancelled id data w = (x, w') ->
    reached capacity ttl w' (match x with Ok {| ou_Result := Some r |} => (id, r) :: rs | _ => rs end).

Record engine_inv (w : world) (rs : list (nat * Result)) : Prop := {
  ei_capacity : Z.of_nat (size (en_sessions (w_engine w))) <= en_capacity (w_engine w);
  ei_registered id t : en_sessions (w_engine w) !! id = Some t -> (id < length (w_heap w))%nat;
  ei_open id : open_if_registered id w;
  ei_coherent id : (id < length (w_heap w))%nat -> coherent (session_of id w);
  ei_once : NoDup rs.*1;
  ei_finished id : id ∈ rs.*1 -> (id < length (w_heap w))%nat /\ hs_stage (session_of id w) = stageClosed
}.

Lemma table_step_size id m m' : table_step id m m' -> (size m' <= size m)%nat.
Proof.
  intros []; [done| |].
  - destruct (m !! id) eqn:E; [rewrite map_size_delete_Some by eauto; lia|by rewrite delete_id].
  - by rewrite map_size_insert_Some.
Qed.

Lemma table_step_lookup id m m' j : table_step id m m' -> is_Some (m' !! j) -> is_Some (m !! j).
Proof.
  intros [] Hj; [done|rewrite lookup_delete_is_Some in Hj; tauto|]. destruct (decide (j = id)) as [->|Hne]; [done|].
  by rewrite lookup_insert_ne in Hj.
Qed.

Lemma table_step_other id m m' j : table_step id m m' -> j <> id -> m' !! j = m !! j.
Proof. intros [] Hj; [done|by rewrite lookup_delete_ne|by rewrite lookup_insert_ne]. Qed.

Lemma called_inv id (x : option Result) w w' rs :
  (id < length (w_heap w))%nat -> called id (bool_decide (is_Some x)) w w' -> engine_inv w rs ->
  engine_inv w' (match x with Some r => (id, r) :: rs | None => rs end).
Proof.
  intros Hid [[Hcap _] Hlen Hoth Hcoh Htab Hop Hcl Hres] [Icap Ireg Iop Icoh Ionce Ifin].
  assert (Hsame : forall j, j <> id -> session_of j w' = session_of j w) by (intros j Hj; unfold session_of; by rewrite Hoth).
  assert (Hfin : forall j, j ∈ rs.*1 -> (j < length (w_heap w'))%nat /\ hs_stage (session_of j w') = stageClosed).
  { intros j Hj. destruct (Ifin j Hj) as [Hl Hst]. split; [lia|]. destruct (decide (j = id)) as [->|Hne]; [auto|by rewrite Hsame]. }
  split.
  - pose proof (table_step_size _ _ _ Htab). lia.
  - intros j t Hj. rewrite Hlen. destruct (table_step_lookup _ _ _ j Htab) as [t' Ht]; [eauto|]. eauto.
  - intros j Hj. destruct (decide (j = id)) as [->|Hne]; [auto|]. rewrite Hsame by done. apply Iop. by rewrite <- (table_step_other _ _ _ _ Htab).
  - intros j Hj. destruct (decide (j = id)) as [->|Hne]; [auto|]. rewrite Hsame by done. apply Icoh. lia.
  - destruct x as [r|]; [|done]. constructor; [|done]. intros Hin. destruct (Ifin id Hin) as [_ Hst].
    destruct (Hres ltac:(by apply bool_decide_eq_true_2)) as [? _]. congruence.
  - destruct x as [r|]; [|done]. intros j [->|Hj]%elem_of_cons; [|auto]. split; [cbn; lia|].
    by destruct (Hres ltac:(by apply bool_decide_eq_true_2)).
Qed.

Lemma new_session_inv w rs : engine_inv w rs -> engine_inv (NewSession w).2 rs.
Proof.
  intros [Icap Ireg Iop Icoh Ionce Ifin].
  change (NewSession w) with (new_session_at (clock (w_ticks w)) (ticked w)). unfold new_session_at.
  set (t := clock _). set (m := removeExpiredLocked t (en_sessions (w_engine w))). cbn -[removeExpiredLocked]. fold m.
  assert (Hsub : m ⊆ en_sessions (w_engine w)) by apply map_filter_subseteq.
  assert (Hm : forall id u, m !! id = Some u -> (id < length (w_heap w))%nat /\ hs_stage (session_of id w) <> stageClosed).
  { intros id u Hu. pose proof (lookup_weaken _ _ _ _ Hu Hsub) as Hu'. split; [eauto|apply Iop; eauto]. }
  assert (Hsize : Z.of_nat (size m) <= en_capacity (w_engine w)) by (pose proof (map_subseteq_size _ _ Hsub); lia).
  destruct (Z.leb_spec (en_capacity (w_engine w)) (Z.of_nat (size m))).
  { split; cbn; try done; [intros id u Hu; by eapply Hm|].
    intros id. unfold open_if_registered. cbn. intros [u Hu]. by eapply Hm. }
  set (id := length (w_heap w)). assert (Hold : forall j, (j < id)%nat -> session_of j (set_heap (w_heap w ++ [fresh_session]) w) = session_of j w).
  { intros j Hj. unfold session_of. cbn. by rewrite lookup_app_l by done. }
  assert (Hnew : session_of id (set_heap (w_heap w ++ [fresh_session]) w) = fresh_session).
  { unfold session_of. cbn. unfold id. rewrite lookup_app_r, Nat.sub_diag by done. done. }
  assert (Hlt : forall j, (j < length (w_heap w ++ [fresh_session]))%nat -> (j < id)%nat \/ j = id).
  { intros j Hj. rewrite length_app in Hj. cbn in Hj. unfold id. lia. }
  split; cbn.
  - destruct (m !! id) eqn:E; [rewrite map_size_insert_Some by eauto|rewrite map_size_insert_None by done]; lia.
  - intros j u. rewrite lookup_insert_Some, length_app. intros [[<- _]|[_ [Hj _]%Hm]]; cbn; unfold id; lia.
  - intros j. unfold open_if_registered. cbn.
    change (session_of j _) with (session_of j (set_heap (w_heap w ++ [fresh_session]) w)).
    rewrite lookup_insert_is_Some. intros [<-|[_ [u [Hj Hst]%Hm]]]; [by rewrite Hnew|by rewrite Hold].
  - intros j [Hj| ->]%Hlt; change (session_of ?k _) with (session_of k (set_heap (w_heap w ++ [fresh_session]) w)).
    + rewrite Hold by done. by apply Icoh.
    + rewrite Hnew. split; [done|by intros []].
  - done.
  - intros j [Hj Hst]%Ifin. split; [rewrite length_app; lia|].
    change (session_of ?k _) with (session_of k (set_heap (w_heap w ++ [fresh_session]) w)). by rewrite Hold.
Qed.

Lemma reached_inv capacity ttl w rs : reached capacity ttl w rs -> engine_inv w rs.
Proof.
  induction 1 as [e keys ticks draws He| |id w rs _ IH Hid|cancelled id data w rs x w' _ IH Hid Hw].
  - unfold New in He. destruct (_ || _) eqn:Hneg; [done|]. injection He as <-. bools. split; cbn.
    + rewrite map_size_empty. unfold default_if_zero. case_match; [done|lia].
    + by intros id t.
    + intros id [t Ht]. done.
    + lia.
    + constructor.
    + by intros id ?%elem_of_nil.
  - by apply new_session_inv.
  - apply (called_inv id None w); [done| |done]. apply Close_called; [done|by apply IH].
  - pose proof (Handle_called cancelled id data w Hid (ei_coherent _ _ IH id Hid) (ei_open _ _ IH id)) as Hc. rewrite Hw in Hc.
    destruct x as [[b [r|]]|e]; [apply (called_inv id (Some r) w)|apply (called_inv id None w)..]; done.
Qed.

(** C9. Whatever calls the connections make on one engine, in any order and for any
    messages, clock and randomness: no more handshakes are in progress than the capacity,
    each of them belongs to a session that is not closed, the DH secret exists exactly in
    the stage that waits for the client's answer, and a session yields at most one
    authorization, after which it is closed and takes no more room. *)
Theorem handshake_engine_invariant capacity ttl w rs :
  reached capacity ttl w rs ->
  Z.of_nat (size (en_sessions (w_engine w))) <= en_capacity (w_engine w) /\
  (forall id t, en_sessions (w_engine w) !! id = Some t -> exists s, w_heap w !! id = Some s /\ hs_stage s <> stageClosed) /\
  (forall id s, w_heap w !! id = Some s -> hs_stage s = stageDHIssued <-> is_Some (hs_dh s)) /\
  NoDup rs.*1 /\
  (forall id, id ∈ rs.*1 -> en_sessions (w_engine w) !! id = None /\ exists s, w_heap w !! id = Some s /\ hs_stage s = stageClosed).
Proof.
  intros Hr. destruct (reached_inv _ _ _ _ Hr) as [Icap Ireg Iop Icoh Ionce Ifin].
  assert (Hs : forall id, (id < length (w_heap w))%nat -> w_heap w !! id = Some (session_of id w)).
  { intros id Hid. unfold session_of. by destruct (lookup_lt_is_Some_2 (w_heap w) id Hid) as [s ->]. }
  split_and!; [done| | |done|].
  - intros id t Ht. eexists. split; [by eapply Hs, Ireg|apply Iop; eauto].
  - intros id s Hl. pose proof (lookup_lt_Some _ _ _ Hl) as Hid. rewrite (Hs id Hid) in Hl. injection Hl as <-. by apply Icoh.
  - intros id Hin. destruct (Ifin id Hin) as [Hid Hst]. split; [|by eauto].
    destruct (en_sessions (w_engine w) !! id) eqn:E; [|done]. exfalso. apply (Iop id); [rewrite E; eauto|done].
Qed.

(** ** What a successful call proves *)

Lemma Handle_ok cancelled id data w out w' :
  Handle cancelled id data w = (Ok out, w') ->
  hs_stage (session_of id w) <> stageClosed /\
  exists w1, dispatch id data (ticked w) = (Ok out, w1) /\ w_heap w' = w_heap w1 /\ w_keys w' = w_keys w1.
Proof.
  unfold Handle. intros H. destruct cancelled; [done|]. case_match; [done|]. case_bool_decide as Hst; [done|].
  pose proof (check_spec id w) as Hk. destruct (check id w) as [[[]|e] w0]; [|done]. destruct Hk as [-> _].
  destruct (dispatch id data (ticked w)) as [[out'|e] w1]; [|by case_match].
  split; [done|]. exists w1. destruct (_ || bool_decide (hs_stage (session_of id w1) = stageClosed)); simplify_eq; [done|].
  unfold refresh. by case_match.
Qed.

Lemma dispatch_ok id data w out w' :
  dispatch id data w = (Ok out, w') ->
  match ou_Result out with
  | Some _ =>
      hs_stage (session_of id w) = stageDHIssued /\
      handleSetClientDHParams id data (hs_dh (session_of id w)) (update id close_session w).2 = (Ok out, w')
  | None =>
      (exists b, handleReqPQ id data (update id restart w).2 = (Ok b, w')) \/
      (hs_stage (session_of id w) = stagePQIssued /\ handleReqDHParams id data w = (Ok (ou_Response out), w')) \/
      (hs_stage (session_of id w) = stageDHIssued /\
       handleSetClientDHParams id data (hs_dh (session_of id w)) (update id close_session w).2 = (Ok out, w'))
  end.
Proof.
  unfold dispatch. intros H. destruct (_ || _).
  { change ((response ← handleReqPQ id data; mret {| ou_Response := response; ou_Result := None |}) (update id restart w).2 = (Ok out, w')) in H.
    apply Ok_result in H as [Hw [-> Hb]]. left. exists (ou_Response out). by destruct (handleReqPQ id data _); cbn in *; subst. }
  destruct (_ =? reqDHParamsID).
  { case_bool_decide; [|done]. apply Ok_result in H as [Hw [-> Hb]]. right; left. split; [done|].
    by destruct (handleReqDHParams id data w); cbn in *; subst. }
  destruct (_ =? setClientDHParamsID); [|done]. case_bool_decide; [|done].
  change (handleSetClientDHParams id data (hs_dh (session_of id w)) (update id close_session w).2 = (Ok out, w')) in H.
  destruct (ou_Result out); auto.
Qed.

Lemma handleReqPQ_keys id data w b w' : handleReqPQ id data w = (Ok b, w') -> w_keys w' = w_keys w.
Proof. intros H. unfold handleReqPQ, readRandom in H. steps. by subst. Qed.

(** The key was stored: for good, or until its expiry, which is still ahead. *)
Definition stored (expiry : option Z) (keyID : Z) (key : bytes) (k k' : K) : Prop :=
  match expiry with
  | None => ks_Put keyID key k = (Ok tt, k')
  | Some expires => exists n, clock n < expires /\ ks_PutTemporary (clock (S n)) keyID key expires k = (Ok tt, k')
  end.

Lemma store_ok op w u w' : store op w = (Ok u, w') -> op (w_keys w) = (Ok tt, w_keys w').
Proof. unfold store. destruct (op (w_keys w)) as [[[]|e] k]; cbn; intros [=]; by subst. Qed.

Lemma store_key_ok expiry keyID key w u w' : store_key expiry keyID key w = (Ok u, w') -> stored expiry keyID key (w_keys w) (w_keys w').
Proof.
  unfold store_key, stored. destruct expiry as [e|]; intros H; steps; [|by apply store_ok in H].
  match goal with Hs : store _ _ = _ |- _ => apply store_ok in Hs end. bools. by exists (w_ticks w).
Qed.

(** The store was asked for it and refused: what it holds then is what that call left. *)
Definition store_refused (expiry : option Z) (keyID : Z) (key : bytes) (k k' : K) : Prop :=
  match expiry with
  | None => exists e, ks_Put keyID key k = (Err e, k')
  | Some expires => exists n e, clock n < expires /\ ks_PutTemporary (clock (S n)) keyID key expires k = (Err e, k')
  end.

(** ** Calls that do not touch the store *)

Definition keeps_keys {A} (m : HM A) : Prop := forall w, w_keys (m w).2 = w_keys w.

Lemma keeps_bind {A B} (m : HM A) (k : A -> HM B) : keeps_keys m -> (forall a, keeps_keys (k a)) -> keeps_keys (m ≫= k).
Proof.
  intros Hm Hk w. unfold mbind, ST_bind, st_bind. specialize (Hm w). destruct (m w) as [[a|e] w1]; cbn in Hm; [|done]. by rewrite Hk.
Qed.
Lemma keeps_guard b e : keeps_keys (guard b e).
Proof. by destruct b. Qed.
Lemma keeps_exponent n : keeps_keys (generatePrivateExponent n).
Proof.
  induction n as [|n IH]; intros w; [done|]. cbn [generatePrivateExponent]. apply keeps_bind; [done|]. intros a. by destruct (2 <=? a).
Qed.
Lemma keeps_expiry id expiresIn : keeps_keys (note_expiry id expiresIn).
Proof. unfold note_expiry. destruct (negb _); [|done]. apply keeps_bind; [apply keeps_guard|]. intros _. by apply keeps_bind. Qed.
Lemma keeps_encrypt newNonce serverNonce plain : keeps_keys (encryptServerDH newNonce serverNonce plain).
Proof.
  unfold encryptServerDH. cbv zeta. apply keeps_bind; [by destruct (negb _)|]. intros padding. destruct (DeriveTempKeyIV _ _). by apply keeps_bind.
Qed.

Ltac keeps := repeat first
  [ done | apply keeps_guard | apply keeps_exponent | apply keeps_expiry | apply keeps_encrypt | apply keeps_bind
  | progress intros | progress cbv zeta | match goal with |- context [let '(_, _) := ?x in _] => destruct x end ].

Lemma keeps_ReqPQ id data : keeps_keys (handleReqPQ id data).
Proof. unfold handleReqPQ. keeps. Qed.
Lemma keeps_ReqDHParams id data : keeps_keys (handleReqDHParams id data).
Proof. unfold handleReqDHParams. keeps. Qed.

Lemma keeps_err {A B} (m : HM A) (k : A -> HM B) w e w' :
  keeps_keys m -> (m ≫= k) w = (Err e, w') -> w_keys w' = w_keys w \/ exists a w1, m w = (Ok a, w1) /\ k a w1 = (Err e, w').
Proof.
  intros Hm. specialize (Hm w). unfold mbind, ST_bind, st_bind. destruct (m w) as [[a|e1] w1]; cbn in Hm; [|intros [= <- <-]; by left]. right. by exists a, w1.
Qed.

Lemma encodeDHGenResponse_ok c nonce serverNonce h : exists b, serializeObject (encodeDHGenResponse c nonce serverNonce h) = Ok b.
Proof. by eexists. Qed.

Lemma store_key_err expiry keyID key w e w' :
  store_key expiry keyID key w = (Err e, w') -> w_keys w' = w_keys w \/ store_refused expiry keyID key (w_keys w) (w_keys w').
Proof.
  assert (Hstore : forall op w e w', store op w = (Err e, w') -> exists e1, op (w_keys w) = (Err e1, w_keys w')).
  { intros op w0 e0 w0'. unfold store. destruct (op (w_keys w0)) as [[[]|e1] k]; cbn; intros [= <- <-]. eauto. }
  unfold store_key, store_refused. destruct expiry as [expires|]; [|by intros H%Hstore; right].
  intros H. apply keeps_err in H as [H|(t & w1 & Ht & H)]; [by left| |done]. apply now_ok in Ht as [-> ->].
  apply keeps_err in H as [H|([] & w1 & Hg & H)]; [by left| |apply keeps_guard]. apply guard_ok in Hg as [-> Hg].
  apply keeps_err in H as [H|(t & w1 & Ht & H)]; [by left| |done]. apply now_ok in Ht as [-> ->]. apply Hstore in H as [e1 H].
  right. exists (w_ticks w), e1. split; [by apply Z.ltb_lt|done].
Qed.

Ltac next_err H := apply keeps_err in H as [H|(? & ? & ? & H)]; [by left| |by keeps]; steps.

(** A refused answer changes the store only when it passed every check and the store itself refused the key. *)
Lemma handleSet_err id data dh w e w' :
  handleSetClientDHParams id data dh w = (Err e, w') ->
  w_keys w' = w_keys w \/
  exists d nonce serverNonce gb, dh = Some d /\ client_answer (session_of id w) d data nonce serverNonce gb /\ len (shared_key gb d) = 256 /\
    store_refused (hs_temporaryExpiresAt (session_of id w)) (AuthKey_ID (shared_key gb d)) (shared_key gb d) (w_keys w) (w_keys w').
Proof.
  intros H. unfold handleSetClientDHParams in H. do 10 next_err H. cbv zeta in H. next_err H. unfold bytes_eqb, validateDHPublicValue in *.
  destruct (negb (len (Bytes _) =? 256)) eqn:Hlen.
  { left. revert H. match goal with |- ?m ?w = _ -> _ => assert (Hk : keeps_keys m) by keeps; specialize (Hk w); by intros Heq; rewrite Heq in Hk end. }
  unfold mbind, ST_bind, st_bind in H. match type of H with context [store_key ?a ?b ?c ?d] => destruct (store_key a b c d) as [[[]|e1] w1] eqn:Es end.
  { exfalso. destruct (encodeDHGenResponse_ok dhGenOKID (hs_nonce (session_of id w)) (hs_serverNonce (session_of id w)) []) as [b Hb]. by unfold buffer in H. }
  injection H as <- <-. apply store_key_err in Es as [Hs|Hs]; [by left|right]. bools.
  match goal with Hi : parseClientDHInnerData _ = Some ?inner, Hd : exists c, _ = Ok _ |- _ =>
    destruct Hd as [c Hd]; eexists _, _, _, (ci_gb inner) end.
  split; [done|]. split; [split; [done| |unfold dh_margin in *; rewrite Z.shiftl_1_l in *; lia]; subst; eauto 12|]. subst. by split.
Qed.

Lemma Handle_err cancelled id data w e w' :
  Handle cancelled id data w = (Err e, w') ->
  w_keys w' = w_keys w \/
  hs_stage (session_of id w) = stageDHIssued /\ exists e1 w1,
    handleSetClientDHParams id data (hs_dh (session_of id w)) (update id close_session (ticked w)).2 = (Err e1, w1) /\ w_keys w' = w_keys w1.
Proof.
  unfold Handle. intros H. destruct cancelled; [by simplify_eq; left|]. case_match; [by simplify_eq; left|]. case_bool_decide; [by simplify_eq; left|].
  unfold check in H. destruct (en_sessions (w_engine w) !! id); [|by simplify_eq; left]. destruct (negb _); [by simplify_eq; left|].
  destruct (dispatch id data (ticked w)) as [[out|e1] w1] eqn:Hd; [by case_match|].
  assert (Hk : w_keys w' = w_keys w1) by (case_bool_decide; by simplify_eq). rewrite Hk. clear H Hk. revert Hd. unfold dispatch. cbv zeta.
  change (session_of id (ticked w)) with (session_of id w).
  destruct ((_ =? reqPQID) || _); [|destruct (_ =? reqDHParamsID); [|destruct (_ =? setClientDHParamsID); [|by intros Hd; simplify_eq; left]]].
  - intros Hd. left. match type of Hd with ?m ?w0 = _ => assert (Hk : keeps_keys m) by (apply keeps_bind; [done|]; intros; apply keeps_bind; [apply keeps_ReqPQ|done]);
      specialize (Hk w0); by rewrite Hd in Hk end.
  - case_bool_decide; cbn [negb]; [|by intros Hd; simplify_eq; left]. intros Hd. left.
    match type of Hd with ?m ?w0 = _ => assert (Hk : keeps_keys m) by (apply keeps_bind; [apply keeps_ReqDHParams|done]); specialize (Hk w0); by rewrite Hd in Hk end.
  - case_bool_decide; cbn [negb]; [|by intros Hd; simplify_eq; left]. intros Hd. right. split; [done|]. by exists e1, w1.
Qed.

(** C8. A call of Handle returns an authorization only to a session that issued DH
    parameters, for an answer that carries the session's two nonces in the clear and
    encrypted, the expected retry id and a g_b in the safe range; the key is g_b^a mod p,
    exactly 256 bytes long, it is stored under its id (temporarily, when the client asked
    for it and it has not expired), and the response is dh_gen_ok with the first nonce hash.
    A call that returns no authorization, an error included, leaves the key store alone,
    unless such an answer was complete and the store itself refused its key. *)
Theorem authorization_sound cancelled id data w x w' :
  (id < length (w_heap w))%nat -> Handle cancelled id data w = (x, w') ->
  let s := session_of id w in
  match x with
  | Err _ =>
      w_keys w' = w_keys w \/
      exists dh nonce serverNonce gb,
        hs_stage s = stageDHIssued /\ hs_dh s = Some dh /\ client_answer s dh data nonce serverNonce gb /\
        length (shared_key gb dh) = 256%nat /\
        store_refused (hs_temporaryExpiresAt s) (AuthKey_ID (shared_key gb dh)) (shared_key gb dh) (w_keys w) (w_keys w')
  | Ok out =>
      match ou_Result out with
      | None => w_keys w' = w_keys w
      | Some r =>
          exists dh nonce serverNonce gb,
            hs_stage s = stageDHIssued /\ hs_dh s = Some dh /\ client_answer s dh data nonce serverNonce gb /\
            let key := shared_key gb dh in
            length key = 256%nat /\ SetBytes key = SetBytes gb ^ dh_privateA dh mod DHPrime /\
            stored (hs_temporaryExpiresAt s) (AuthKey_ID key) key (w_keys w) (w_keys w') /\
            r = {| re_AuthKeyID := AuthKey_ID key; re_InitialServerSalt := computeServerSalt (dh_newNonce dh) serverNonce |} /\
            serializeObject (encodeDHGenResponse dhGenOKID nonce serverNonce (ComputeNewNonceHash1Auth (dh_newNonce dh) key)) = Ok (ou_Response out)
      end
  end.
Proof.
  intros Hid Hh. cbv zeta. set (s := session_of id w).
  assert (Hs1 : session_of id (update id close_session (ticked w)).2 = close_session s) by (by apply (update_this id _ (ticked w))).
  destruct x as [out|e].
  - apply Handle_ok in Hh as (_ & w1 & Hd & _ & Hk). rewrite Hk. apply dispatch_ok in Hd. change (session_of id (ticked w)) with s in Hd.
    destruct (ou_Result out) as [r|] eqn:Hr.
    + destruct Hd as [Hst Hd]. apply handleSet_inv in Hd as (d & nonce & serverNonce & gb & Hdh & Hans & Hres).
      rewrite Hr, Hs1 in *. destruct Hres as (Hlen & Hstore & -> & Hresp). exists d, nonce, serverNonce, gb. cbv zeta.
      split_and!; [done|done|by destruct Hans as [? ? ?]; split|unfold len in Hlen; lia| |by apply store_key_ok in Hstore|done|done].
      unfold shared_key. rewrite SetBytes_Bytes by (by apply Exp_range). by apply Exp_spec.
    + destruct Hd as [[b Hd]|[[_ Hd]|[_ Hd]]].
      * by apply handleReqPQ_keys in Hd.
      * by apply handleReqDH_inv in Hd as (? & ? & ? & ? & ? & _ & _ & _ & _ & Hd).
      * apply handleSet_inv in Hd as (? & ? & ? & ? & _ & _ & Hres). rewrite Hr in Hres. by destruct Hres as (_ & Hd & _).
  - apply Handle_err in Hh as [Hh|(Hst & e1 & w1 & Hd & Hk)]; [by left|]. rewrite Hk.
    apply handleSet_err in Hd as [Hd|(d & nonce & serverNonce & gb & Hdh & Hans & Hlen & Href)]; [by left|]. right. rewrite Hs1 in *.
    exists d, nonce, serverNonce, gb. split_and!; [done|done|by destruct Hans as [? ? ?]; split|unfold len in Hlen; lia|done].
Qed.

Lemma validatePQFactors_spec `{!NumberLaws} p q :
  validatePQFactors p q advertisedPQ = true ->
  (SetBytes p = PQ_p /\ SetBytes q = PQ_q) \/ (SetBytes p = PQ_q /\ SetBytes q = PQ_p).
Proof.
  unfold validatePQFactors. intros Hv. bools. change (SetBytes advertisedPQ) with PQ in *. rewrite <- PQ_product in *.
  assert (Hb : PQ_p * PQ_q < 2 ^ 64) by (by vm_compute).
  assert (Hx : 0 <= SetBytes p < 2 ^ 64 /\ 0 <= SetBytes q < 2 ^ 64).
  { nia. }
  destruct Hx as [Hp Hq]. apply two_primes_unique; [by apply (law_prime _ Hp)|by apply (law_prime _ Hq)|apply PQ_prime_p|apply PQ_prime_q|done].
Qed.

(** A session passes from the issued pq to the issued DH parameters only for a request
    that repeats its two nonces in the clear and under the RSA key it names, which is one of
    the server's, and that carries the two prime factors of the advertised number, in either
    order; then the DH secret is at least 2, g^a is in the safe range, the temporary key and
    vector are derived from the client's new nonce, and a temporary key's expiry counts from
    now. *)
Lemma dh_params_need_the_factors `{!NumberLaws} cancelled id data w out w' :
  (id < length (w_heap w))%nat -> hs_stage (session_of id w) = stagePQIssued ->
  Handle cancelled id data w = (Ok out, w') -> hs_stage (session_of id w') = stageDHIssued ->
  exists nonce serverNonce key inner a,
    client_request (session_of id w) data nonce serverNonce key inner /\
    ((SetBytes (pi_p inner) = PQ_p /\ SetBytes (pi_q inner) = PQ_q) \/ (SetBytes (pi_p inner) = PQ_q /\ SetBytes (pi_q inner) = PQ_p)) /\
    2 <= a /\ 2 ^ 1984 < DHGenerator ^ a mod DHPrime < DHPrime - 2 ^ 1984 /\
    hs_dh (session_of id w') = Some (dh_issued inner serverNonce a) /\
    hs_temporaryExpiresAt (session_of id w') =
      (if pi_expiresIn inner =? 0 then hs_temporaryExpiresAt (session_of id w) else Some (clock (S (w_ticks w)) + pi_expiresIn inner * 10 ^ 9)).
Proof.
  intros Hid Hst (_ & w1 & Hd & Hh & _)%Handle_ok Hst'. unfold session_of in Hst'. rewrite Hh in Hst'.
  unfold session_of. rewrite Hh. fold (session_of id w1) in *. fold (session_of id w) in *.
  apply dispatch_ok in Hd. change (session_of id (ticked w)) with (session_of id w) in Hd. rewrite Hst in Hd.
  destruct (ou_Result out); [by destruct Hd|]. destruct Hd as [[b Hd]|[[_ Hd]|[? _]]]; [|clear Hst'|done].
  - apply handleReqPQ_issues in Hd as (? & ? & Hs); [by rewrite Hs in Hst'|cbn; by rewrite length_alter].
  - apply handleReqDH_inv in Hd as (nonce & serverNonce & key & inner & a & Hreq & Ha & Hrange & Hs & _); [|done].
    change (session_of id (ticked w)) with (session_of id w) in *. rewrite Exp_spec in Hrange by done.
    exists nonce, serverNonce, key, inner, a. rewrite Hs. split_and!; [done| |done|apply Hrange|apply Hrange|done|by cbn; case_match].
    destruct Hreq as [_ (p & q & f & enc & dec & _ & _ & _ & _ & _ & _ & -> & -> & Hv)]. by apply validatePQFactors_spec.
Qed.
End handshake.

(** * Witnesses: a toy random source, and primality by trial division *)

#[export] Instance toy_numbers : Numbers := {
  DecryptPKCS1v15 key data := Some data;
  ProbablyPrime z := if z =? PQ_p then true else if z =? PQ_q then true else trial_prime z
}.

#[export] Instance toy_number_laws : NumberLaws.
Proof.
  split. intros z Hz. unfold ProbablyPrime, toy_numbers. destruct (Z.eqb_spec z PQ_p) as [->|]; [split; [intros _; apply PQ_prime_p|done]|].
  destruct (Z.eqb_spec z PQ_q) as [->|]; [split; [intros _; apply PQ_prime_q|done]|]. apply prime_by_trial.
Qed.

#[export] Instance toy_random : Random := {
  rnd_bytes n k := Ok (replicate k (bZ (Z.of_nat n + 1)));
  rnd_Int n max := Ok 1270
}.

Definition toy_clock (n : nat) : Z := Z.of_nat n.
Definition toy_serverKey : ServerKey := server_key {| rsa_N := 3233; rsa_E := 17; rsa_D := 413 |}.
Definition toy_serverKeys : MemoryServerKeyManager := AddKey toy_serverKey {| sm_keys := [] |}.

(** The bytes of a message. *)
Definition message (m : WR unit) : bytes := match serializeObject m with Ok b => b | Err _ => [] end.

(** The output of a call that succeeds. *)
Definition output {W} (x : result handshake_error Output * W) : Output :=
  match x.1 with Ok o => o | Err _ => {| ou_Response := []; ou_Result := None |} end.

Lemma output_eq {W} (x : result handshake_error Output * W) : is_ok x.1 = true -> x = (Ok (output x), x.2).
Proof. destruct x as [[o|e] w]; [done|discriminate]. Qed.

Definition toy_nonce : bytes := replicate 16 xa1.
Definition toy_newNonce : bytes := replicate 32 xb2.
Definition toy_req_pq : bytes := message (_ ← WriteUint32 reqPQMultiID; WriteInt128 toy_nonce).

Definition toy_w0 : world :=
  {| w_engine := {| en_capacity := 1; en_ttl := 100; en_sessions := ∅ |}; w_heap := []; w_keys := NewMemoryAuthKeyManager; w_ticks := 0; w_draws := 0 |}.
Definition toy_w1 : world := (NewSession toy_clock toy_w0).2.
Definition toy_handle := Handle toy_clock toy_serverKeys false 0.
Definition toy_w2 : world := (toy_handle toy_req_pq toy_w1).2.

Definition toy_serverNonce : bytes := hs_serverNonce (session_of 0 toy_w2).

Definition toy_pq_inner : bytes :=
  message (_ ← WriteUint32 pqInnerDataID; _ ← WriteBytes advertisedPQ; _ ← WriteBytes (Bytes PQ_p); _ ← WriteBytes (Bytes PQ_q);
           _ ← WriteInt128 toy_nonce; _ ← WriteInt128 toy_serverNonce; WriteInt256 toy_newNonce).
Definition toy_req_dh : bytes :=
  message (_ ← WriteUint32 reqDHParamsID; _ ← WriteInt128 toy_nonce; _ ← WriteInt128 toy_serverNonce; _ ← WriteBytes (Bytes PQ_p);
           _ ← WriteBytes (Bytes PQ_q); _ ← WriteInt64 (sk_ID toy_serverKey); WriteBytes toy_pq_inner).
Definition toy_w3 : world := (toy_handle toy_req_dh toy_w2).2.

Lemma handshake_engine_invariant_witness :
  Z.of_nat (size (en_sessions (w_engine toy_w2))) <= 1 /\ hs_stage (session_of 0 toy_w2) = stagePQIssued.
Proof.
  split; [|by vm_compute].
  assert (H0 : reached toy_clock toy_serverKeys 1 100 toy_w0 []) by (by apply reached_new).
  pose proof (reached_handle _ _ _ _ false 0 toy_req_pq toy_w1 [] _ _ (reached_session _ _ _ _ _ _ H0) ltac:(vm_compute; lia)
    (output_eq (toy_handle toy_req_pq toy_w1) eq_refl)) as Hr.
  by destruct (handshake_engine_invariant _ _ _ _ _ _ Hr) as [Hcap _].
Defined.

Lemma dh_params_need_the_factors_witness :
  exists nonce serverNonce key inner a,
    client_request toy_serverKeys (session_of 0 toy_w2) toy_req_dh nonce serverNonce key inner /\ 2 <= a /\
    hs_dh (session_of 0 toy_w3) = Some (dh_issued inner serverNonce a).
Proof.
  destruct (dh_params_need_the_factors toy_clock toy_serverKeys false 0 toy_req_dh toy_w2 (output (toy_handle toy_req_dh toy_w2)) toy_w3)
    as (nonce & serverNonce & key & inner & a & Hreq & _ & Ha & _ & Hdh & _).
  - vm_compute. lia.
  - by vm_compute.
  - exact (output_eq (toy_handle toy_req_dh toy_w2) ltac:(by vm_compute)).
  - by vm_compute.
  - exists nonce, serverNonce, key, inner, a. exact (conj Hreq (conj Ha Hdh)).
Defined.

(** A world where the parameters were issued with the exponent 1, and the answer to it. *)
Definition toy_dh : dhState :=
  {| dh_newNonce := toy_newNonce; dh_privateA := 1; dh_tempKey := replicate 32 x05; dh_tempIV := replicate 32 x06; dh_retryID := 0 |}.
Definition toy_w4 : world := (update 0 (issue_dh toy_dh) toy_w2).2.

Definition toy_client_inner : bytes :=
  message (_ ← WriteUint32 clientDHInnerDataID; _ ← WriteInt128 toy_nonce; _ ← WriteInt128 toy_serverNonce; _ ← WriteInt64 0;
           WriteBytes (replicate 256 x55)).
Definition toy_encrypted : bytes :=
  match (NewAESIGE (dh_tempKey toy_dh) (dh_tempIV toy_dh) ≫= fun m => CryptBlocks m toy_client_inner) with Ok r => r.1 | Err _ => [] end.
Definition toy_set_dh : bytes :=
  message (_ ← WriteUint32 setClientDHParamsID; _ ← WriteInt128 toy_nonce; _ ← WriteInt128 toy_serverNonce; WriteBytes toy_encrypted).

Definition toy_result : Result := {| re_AuthKeyID := AuthKey_ID (replicate 256 x55); re_InitialServerSalt := computeServerSalt toy_newNonce toy_serverNonce |}.

Lemma authorization_sound_witness :
  exists dh nonce serverNonce gb,
    hs_dh (session_of 0 toy_w4) = Some dh /\ client_answer (session_of 0 toy_w4) dh toy_set_dh nonce serverNonce gb /\
    re_AuthKeyID toy_result = AuthKey_ID (shared_key gb dh).
Proof.
  assert (Hr : ou_Result (output (toy_handle toy_set_dh toy_w4)) = Some toy_result) by (by vm_compute).
  pose proof (authorization_sound toy_clock toy_serverKeys false 0 toy_set_dh toy_w4 (Ok (output (toy_handle toy_set_dh toy_w4))) _
    ltac:(vm_compute; lia) (output_eq (toy_handle toy_set_dh toy_w4) ltac:(by vm_compute))) as H.
  cbv beta iota zeta in H. rewrite Hr in H. destruct H as (dh & nonce & serverNonce & gb & _ & Hdh & Hans & _ & _ & _ & Hres & _).
  exists dh, nonce, serverNonce, gb. exact (conj Hdh (conj Hans (f_equal re_AuthKeyID Hres))).
Defined.
