(* ===== verification/SessionActor.v ===== *)
(** A session on a connection (internal/runtime/connection_session.go): from a decrypted
    envelope to replays, control replies, session mutations and running requests.

    The writer, with the lease it shares with the session, is an interface
    ([SessionWriter]) that the session writer implements.  A handler of the actor is a
    state transformer; the goroutine a request runs in is [run_request].  Go maps are
    ranged in insertion order.  The recovery push barrier around an answer is
    the component PushBarrier. *)

From stdpp Require Import base numbers list gmap strings.
From S2P Require Import Prelude Wire Validator Session Reliability MsgId Crypto Tl Contracts InboundState ActiveRequests WriterLoop Inbound Gzip InitConnection Normalize Routing.
Open Scope Z_scope.

(** * The writer and its lease *)

Class SessionWriter (W E : Type) := {
  sw_outbound :: OutboundOps W E;
  sw_Submit : Intent -> ST W E unit;
  sw_ReplayResponse : Z -> ST W E bool;
  sw_Snapshot : W -> result session_error Session.Snapshot;
  sw_Save : Session.Snapshot -> ST W session_error unit;
  sw_Retire : W -> W
}.

(** The session writer's requests; a fatal error ends its loop, which retires the lease. *)
Section WriterSession.
Context {L : Type} `{Hlease : LeaseOps L} `{Hplatform : Platform}.
Context (now : nat -> clock) (random : nat -> nat -> bytes) (write_ok : nat -> bool) (ctx : context).

Definition set_lease (l : L) (w : Writer (L := L)) : Writer (L := L) :=
  {| wr_lease := l; wr_authKey := wr_authKey w; wr_ids := wr_ids w; wr_reliability := wr_reliability w;
     wr_maxEncodedBytes := wr_maxEncodedBytes w; wr_ticks := wr_ticks w; wr_attempts := wr_attempts w; wr_sent := wr_sent w |}.

Definition retire_writer (w : Writer (L := L)) : Writer (L := L) := set_lease (lease_Retire (wr_lease w)) w.

Definition served (op : writerOperation) : ST (Writer (L := L)) writer_error OutboundReliabilityState := fun w =>
  let '(response, _, fatal, w) := processRequest now random write_ok {| rq_ctx := ctx; rq_operation := op |} w in
  (match rs_err response with None => Ok (rs_state response) | Some e => Err e end,
   match fatal with Some _ => retire_writer w | None => w end).

Definition writer_session : SessionWriter (Writer (L := L)) writer_error := {|
  sw_outbound := writer_outbound now random write_ok ctx;
  sw_Submit intent := _ ← served (OpSubmit intent); mret tt;
  sw_ReplayResponse id := state ← served (OpReplayResponse id); mret (Known state);
  sw_Snapshot w := lease_Snapshot (wr_lease w);
  sw_Save s w := let '(r, l) := lease_Save (ctx_Err ctx) s (wr_lease w) in (r, set_lease l w);
  sw_Retire := retire_writer |}.
End WriterSession.

(** * Answers *)

Definition isRuntimeControlConstructor (constructorID : Z) : bool :=
  (constructorID =? MsgsAckID) || (constructorID =? MsgsStateReqID) || (constructorID =? MsgResendReqID) ||
  (constructorID =? RPCDropAnswerID) || (constructorID =? GetFutureSaltsID) || (constructorID =? PingID) ||
  (constructorID =? PingDelayDisconnectID).

Definition outcomeWriteIntents (intents : list Intent) (m : InboundMessage) : list Intent :=
  if negb (im_ContentRelated m) then intents
  else
    let ack := Acknowledge [im_MessageID m] in
    match list.last intents with
    | None => [ack]
    | Some value =>
        let init := take (length intents - 1) intents in
        match value with
        | Contracts.RPCResult _ _ | Contracts.RPCError _ _ _ => init ++ [Batch [value; ack]]
        | Batch items => if len items <? DefaultMaxVectorElements then init ++ [Batch (items ++ [ack])] else intents ++ [ack]
        | _ => intents ++ [ack]
        end
    end.

(** What [inspect] has seen: a result and an error for the request. *)
Fixpoint inspect (request : Z) (seen : bool * bool) (intent : Intent) : bool * bool :=
  match intent with
  | Contracts.RPCResult id _ => (seen.1 || (id =? request), seen.2)
  | Contracts.RPCError id _ _ => (seen.1, seen.2 || (id =? request))
  | Batch items => foldl (inspect request) seen items
  | _ => seen
  end.

Definition requestOutcomeSucceeded (o : Outcome) (request : Z) : bool :=
  let '(result, failed) := foldl (inspect request) (false, false) (out_Intents o) in result && negb failed.

Definition badMessageIntent (bad : BadMessageError) : result writer_error Intent :=
  body ← (if bm_Code bad =? CodeBadServerSalt
          then serializeRuntimeTLBounded (BadServerSalt_SerializeTL
                 {| bs_BadMsgID := bm_MessageID bad; bs_BadMsgSeq := bm_SequenceNo bad; bs_ErrorCode := bm_Code bad; bs_NewSalt := bm_ExpectedServerSalt bad |})
                 DefaultMaxEncodedPayloadBytes
          else serializeRuntimeTLBounded (BadMsgNotification_SerializeTL
                 {| bm_BadMsgID := bm_MessageID bad; bm_BadMsgSeq := bm_SequenceNo bad; bm_ErrorCode := bm_Code bad |})
                 DefaultMaxEncodedPayloadBytes);
  mret (ProtocolReply body false false).

Definition interruptedRequestRetryMessage : string := "REQUEST_RETRY".

(** * The actor *)

Inductive actor_error (E : Type) :=
| ActSession (e : session_error)
| ActInbound (e : inbound_error)
| ActActive (e : active_error)
| ActLedger (e : ledger_error)
| ActControl (e : control_error E)
| ActWriter (e : E)
| ActEncode (e : writer_error)
| ErrConnectionProtocol
| ActPanic.
Arguments ActSession {E} e.
Arguments ActInbound {E} e.
Arguments ActActive {E} e.
Arguments ActLedger {E} e.
Arguments ActControl {E} e.
Arguments ActWriter {E} e.
Arguments ActEncode {E} e.
Arguments ErrConnectionProtocol {E}.
Arguments ActPanic {E}.

(** What an actor takes from its connection's configuration. *)
Record actor_config := {
  cf_DecodeLimits : DecodeLimits;
  cf_Wrappers : WrapperConfig;
  cf_NonSubscribingMethods : gset Z;
  cf_ActiveRequests : Z
}.

Section Actor.
Context {W E : Type} `{HW : SessionWriter W E} {G : GzipReader}.
Context (config : actor_config) (clock : nat -> Z).

(** [ac_inUse] is the admission counter the connection's sessions share; [ac_running] is
    requestWG; [ac_presence] and [ac_delays] log the calls on the presence and on the
    connection's disconnect timer; [ac_spawned] the requests handed to goroutines. *)
Record actor := {
  ac_key : SessionKey;
  ac_controls : controls (O := W);
  ac_acceptsPush : bool;
  ac_closing : bool;
  ac_inUse : Z;
  ac_running : Z;
  ac_presence : list (Session.Snapshot * bool);
  ac_delays : list Z;
  ac_spawned : list (nat * InboundMessage);
  ac_ticks : nat
}.

Abbreviation AM := (ST actor (actor_error E)).

Definition set_controls (c : controls) (a : actor) : actor :=
  {| ac_key := ac_key a; ac_controls := c; ac_acceptsPush := ac_acceptsPush a; ac_closing := ac_closing a; ac_inUse := ac_inUse a;
     ac_running := ac_running a; ac_presence := ac_presence a; ac_delays := ac_delays a; ac_spawned := ac_spawned a; ac_ticks := ac_ticks a |}.
Definition set_presence (push : bool) (s : Session.Snapshot) (a : actor) : actor :=
  {| ac_key := ac_key a; ac_controls := ac_controls a; ac_acceptsPush := push; ac_closing := ac_closing a; ac_inUse := ac_inUse a;
     ac_running := ac_running a; ac_presence := ac_presence a ++ [(s, push)]; ac_delays := ac_delays a; ac_spawned := ac_spawned a; ac_ticks := ac_ticks a |}.
Definition set_admission (inUse running : Z) (a : actor) : actor :=
  {| ac_key := ac_key a; ac_controls := ac_controls a; ac_acceptsPush := ac_acceptsPush a; ac_closing := ac_closing a; ac_inUse := inUse;
     ac_running := running; ac_presence := ac_presence a; ac_delays := ac_delays a; ac_spawned := ac_spawned a; ac_ticks := ac_ticks a |}.
Definition add_delay (d : Z) (a : actor) : actor :=
  {| ac_key := ac_key a; ac_controls := ac_controls a; ac_acceptsPush := ac_acceptsPush a; ac_closing := ac_closing a; ac_inUse := ac_inUse a;
     ac_running := ac_running a; ac_presence := ac_presence a; ac_delays := ac_delays a ++ [d]; ac_spawned := ac_spawned a; ac_ticks := ac_ticks a |}.
Definition add_spawned (p : nat) (m : InboundMessage) (a : actor) : actor :=
  {| ac_key := ac_key a; ac_controls := ac_controls a; ac_acceptsPush := ac_acceptsPush a; ac_closing := ac_closing a; ac_inUse := ac_inUse a;
     ac_running := ac_running a; ac_presence := ac_presence a; ac_delays := ac_delays a; ac_spawned := ac_spawned a ++ [(p, m)]; ac_ticks := ac_ticks a |}.
Definition set_closing (a : actor) : actor :=
  {| ac_key := ac_key a; ac_controls := ac_controls a; ac_acceptsPush := ac_acceptsPush a; ac_closing := true; ac_inUse := ac_inUse a;
     ac_running := ac_running a; ac_presence := ac_presence a; ac_delays := ac_delays a; ac_spawned := ac_spawned a; ac_ticks := ac_ticks a |}.

Definition modify (f : actor -> actor) : AM unit := fun a => (Ok tt, f a).
Definition tick : AM Z := fun a =>
  (Ok (clock (ac_ticks a)),
   {| ac_key := ac_key a; ac_controls := ac_controls a; ac_acceptsPush := ac_acceptsPush a; ac_closing := ac_closing a; ac_inUse := ac_inUse a;
      ac_running := ac_running a; ac_presence := ac_presence a; ac_delays := ac_delays a; ac_spawned := ac_spawned a; ac_ticks := S (ac_ticks a) |}).

(** ** Calls on the parts *)

Definition of_result {A} (r : result (actor_error E) A) : AM A := fun a => (r, a).

Definition on_controls {A} (op : ST (controls (O := W)) (control_error E) A) : AM A := fun a =>
  let '(r, c) := op (ac_controls a) in (map_err ActControl r, set_controls c a).

Definition on_writer {A X} (into : X -> actor_error E) (op : ST W X A) : AM A := fun a =>
  let '(r, w) := op (ct_outbound (ac_controls a)) in (map_err into r, set_controls (set_outbound w (ac_controls a)) a).

Definition Submit (i : Intent) : AM unit := on_writer ActWriter (sw_Submit i).
Definition lease_Snapshot_ : AM Session.Snapshot := fun a => (map_err ActSession (sw_Snapshot (ct_outbound (ac_controls a))), a).
Definition lease_Save_ (s : Session.Snapshot) : AM unit := on_writer ActSession (sw_Save s).
Definition Retire : AM unit := modify (fun a => set_controls (set_outbound (sw_Retire (ct_outbound (ac_controls a))) (ac_controls a)) a).

Definition is_active (id : Z) : AM bool := fun a => (Ok (IsActive id (ct_active (ac_controls a))), a).
Definition on_ledger {A} (op : ST InboundStateLedger ledger_error A) : AM A := fun a =>
  let '(r, l) := op (ct_inbound (ac_controls a)) in (map_err ActLedger r, set_controls (set_inbound l (ac_controls a)) a).

Definition has_response (id : Z) : AM bool := now ← tick; on_ledger (fun l => let '(b, l) := HasResponse now id l in (Ok b, l)).
Definition record_message (m : InboundMessage) : AM unit := now ← tick; on_ledger (Record_ now m).

(** ** Admission *)

Definition acquire (count : Z) : AM bool := fun a =>
  if (count <? 0) || (cf_ActiveRequests config <? ac_inUse a + count) then (Ok false, a)
  else (Ok true, set_admission (ac_inUse a + count) (ac_running a) a).

Definition release (count : Z) : AM unit := fun a =>
  let a := set_admission (ac_inUse a - count) (ac_running a) a in
  if ac_inUse a <? 0 then (Err ActPanic, a) else (Ok tt, a).

(** The reservations of an envelope: message id and registration. *)
Abbreviation reservations := (list (Z * nat)).

Definition register (ids : list Z) : AM (list nat) := fun a =>
  let '(r, reg) := beginBatch ids (ct_active (ac_controls a)) in (map_err ActActive r, set_controls (Routing.set_active reg [] (ac_controls a)) a).

Definition beginRequests (ids : list Z) : AM reservations := fun a =>
  if ac_closing a then (Err (ActSession ErrLeaseInactive), a)
  else
    match acquire (len ids) a with
    | (Ok true, a) =>
        match register ids a with
        | (Err e, a) => (_ ← release (len ids); st_err e) a
        | (Ok ps, a) => (Ok (zip ids ps), set_admission (ac_inUse a) (ac_running a + len ps) a)
        end
    | (_, a) => (Err (ActActive (ActiveRequestCapacityError (cf_ActiveRequests config))), a)
    end.

(** The closure [complete] of a reservation, run once. *)
Definition complete_reservation (p : nat) (success : bool) : AM unit := fun a =>
  match r_requests (ct_active (ac_controls a)) !! p with
  | None => (Ok tt, a)
  | Some q =>
      if ar_once q then (Ok tt, a)
      else
        let '(cancelled, reg) := complete p success (ct_active (ac_controls a)) in
        let a := set_controls (Routing.set_active reg cancelled (ac_controls a)) a in
        (_ ← release 1; modify (fun a => set_admission (ac_inUse a) (ac_running a - 1) a)) a
  end.

Fixpoint releaseReservations (rs : reservations) : AM unit :=
  match rs with [] => mret tt | (_, p) :: rs => _ ← complete_reservation p false; releaseReservations rs end.

(** [if err := ...; err != nil { releaseReservations(); return err }] *)
Definition guarded {A} (rs : reservations) (m : AM A) : AM A := fun a =>
  match m a with
  | (Ok x, a) => (Ok x, a)
  | (Err e, a) => (_ ← releaseReservations rs; st_err e) a
  end.

(** ** Session mutations *)

Definition applyMutationsLocked (mutations : list SessionMutation) : AM unit :=
  snapshot ← lease_Snapshot_;
  next ← of_result (map_err ActControl (ApplySessionMutations snapshot mutations));
  _ ← lease_Save_ next;
  modify (set_presence (sn_PushSubscription next) next).

Definition applyMutations := applyMutationsLocked.

Definition subscribeForPush : AM unit := fun a =>
  if ac_acceptsPush a then (Ok tt, a) else applyMutationsLocked [SetPushSubscription true] a.

Definition ensureNewSessionCreated (firstMessageID : Z) : AM unit :=
  snapshot ← lease_Snapshot_;
  if sn_NewSessionCreated snapshot then mret tt
  else
    next ← of_result (map_err ActControl (ApplySessionMutations snapshot [MarkNewSessionCreated firstMessageID]));
    _ ← lease_Save_ next;
    now ← tick;
    body ← of_result (map_err ActEncode (serializeRuntimeTLBounded (NewSessionCreated_SerializeTL
             {| ns_FirstMsgID := firstMessageID; ns_UniqueID := int64 now; ns_ServerSalt := Session.sn_ServerSalt snapshot |})
             DefaultMaxEncodedPayloadBytes));
    Submit (ProtocolReply body false true).

(** ** Outcomes *)

Fixpoint submitAll (l : list Intent) : AM unit :=
  match l with [] => mret tt | i :: l => _ ← Submit i; submitAll l end.

Definition applyOutcome (m : InboundMessage) (o : Outcome) : AM unit :=
  _ ← of_result (map_err ActControl (ValidateOutcome o));
  let outcome := if im_SuppressPush m then suppressPushIntents (out_Intents o) else out_Intents o in
  _ ← (if len (out_Mutations o) =? 0 then mret tt else applyMutationsLocked (out_Mutations o));
  _ ← submitAll (outcomeWriteIntents outcome m);
  _ ← match out_DisconnectAfter o with Some d => modify (add_delay d) | None => mret tt end;
  now ← tick;
  on_ledger (fun l => (Ok tt, Complete now [im_MessageID m] (im_ContentRelated m) (negb (len outcome =? 0)) l)).

(** ** Replays *)

Definition recoverContainerReplay (m : InboundMessage) : AM unit :=
  if negb (im_ContentRelated m) then mret tt
  else
    let id := im_MessageID m in
    active ← is_active id;
    _ ← (if negb active then
           found ← on_writer ActWriter (sw_ReplayResponse id);
           if negb found && negb (isRuntimeControlConstructor (im_ConstructorID m))
           then Submit (Contracts.RPCError id 500 interruptedRequestRetryMessage) else mret tt
         else mret tt);
    Submit (Acknowledge [id]).

(** The loop: the requests to be retried by the client. *)
Fixpoint interrupted (whole : bool) (id : Z) (ms : list InboundMessage) : AM (list Z) :=
  match ms with
  | [] => mret []
  | m :: ms =>
      if negb whole && negb (im_MessageID m =? id) then interrupted whole id ms
      else if negb (im_ContentRelated m) || isRuntimeControlConstructor (im_ConstructorID m) then interrupted whole id ms
      else
        active ← is_active (im_MessageID m);
        answered ← (if active then mret true else has_response (im_MessageID m));
        rest ← interrupted whole id ms;
        mret (if active || answered then rest else im_MessageID m :: rest)
  end.

Definition recoverInterruptedApplicationReplay (inner : InnerData) (bad : BadMessageError) : AM bool :=
  if negb (bool_decide (bm_Cause bad = ErrReplayMessageID)) then mret false
  else
    active ← is_active (bm_MessageID bad);
    answered ← (if active then mret true else has_response (bm_MessageID bad));
    if active || answered then mret false
    else
      match NewDecodeBudget (cf_DecodeLimits config) with
      | Err _ => mret false
      | Ok budget =>
          match classifyProtocolMessage inner budget with
          | Err _ => mret false
          | Ok (envelope, messages, _) =>
              let replayedContainer := (m_Kind envelope =? Container) && (bm_MessageID bad =? MsgID inner) in
              ids ← interrupted replayedContainer (bm_MessageID bad) messages;
              if len ids =? 0 then mret false
              else
                _ ← Submit (Batch (map (fun id => Contracts.RPCError id 500 interruptedRequestRetryMessage) ids ++ [Acknowledge ids]));
                mret true
          end
      end.

(** ** Routing *)

(** [defer]: a reservation that was not handed to a goroutine is completed. *)
Definition deferred (reservation : option nat) (body : AM bool) : AM unit := fun a =>
  match reservation, body a with
  | Some p, (Ok false, a) => complete_reservation p false a
  | Some p, (Err e, a) => (_ ← complete_reservation p false; st_err e) a
  | _, (Ok _, a) => (Ok tt, a)
  | _, (Err e, a) => (Err e, a)
  end.

Definition normalize (m : InboundMessage) : ST (controls (O := W)) (control_error E) (InboundMessage * list SessionMutation) := fun c =>
  let '(r, b) := NormalizeRequest m (cf_Wrappers config) (ct_budget c) in (map_err CtlRequest r, set_budget b c).

(** The request as normalized, when it is not a control and goes to the application. *)
Definition route_control (m : InboundMessage) : AM (option InboundMessage) :=
  snapshot ← lease_Snapshot_;
  normalized ← on_controls (normalize m);
  let '(current, mutations) := normalized in
  let current := if bool_decide (im_ConstructorID current ∈ cf_NonSubscribingMethods config) then suppressing current else current in
  snapshot ← (if len mutations =? 0 then mret snapshot else _ ← applyMutations mutations; lease_Snapshot_);
  now ← tick;
  handled ← on_controls (Router_RouteControl (RouteControl now (Session.sn_ServerSalt snapshot)) current);
  match handled with
  | Some outcome => _ ← applyOutcome current outcome; mret None
  | None => _ ← (if im_SuppressPush current then mret tt else subscribeForPush); mret (Some current)
  end.

(** Whether the request went to a goroutine. *)
Definition route (m : InboundMessage) (reservation : option nat) : AM bool :=
  pending ← route_control m;
  match pending, reservation with
  | None, _ => mret false
  | Some _, None => st_err ErrConnectionProtocol
  | Some current, Some p => _ ← modify (add_spawned p current); mret true
  end.

Definition routeMessage (m : InboundMessage) (reservation : option nat) : AM unit := deferred reservation (route m reservation).

Definition reservation_of (id : Z) (rs : reservations) : option nat := snd <$> (list_find (fun r => r.1 = id) rs ≫= fun p => Some p.2).
Definition without (id : Z) (rs : reservations) : reservations := filter (fun r => r.1 <> id) rs.

(** The loop over the validated messages. *)
Fixpoint routeAll (rs : reservations) (handledReplays : gset Z) (ms : list InboundMessage) : AM unit :=
  match ms with
  | [] => mret tt
  | m :: ms =>
      let id := im_MessageID m in
      if im_Retransmission m then
        if bool_decide (id ∈ handledReplays) then routeAll rs handledReplays ms
        else _ ← guarded rs (recoverContainerReplay m); routeAll rs ({[id]} ∪ handledReplays) ms
      else
        let reservation := reservation_of id rs in
        let rest := without id rs in
        _ ← guarded (match reservation with Some p => (id, p) :: rest | None => rest end) (routeMessage m reservation);
        routeAll rest handledReplays ms
  end.

Fixpoint record_fresh (ms : list InboundMessage) : AM unit :=
  match ms with
  | [] => mret tt
  | m :: ms => if im_Retransmission m then record_fresh ms else _ ← record_message m; record_fresh ms
  end.

Definition recordValidated (v : ValidatedInbound) : AM unit :=
  _ ← (if im_ConstructorID (vi_Envelope v) =? MsgContainerID then record_message (vi_Envelope v) else mret tt);
  record_fresh (vi_Messages v).

Definition rejectOverloaded (ids : list Z) : AM unit :=
  match map (fun id => Contracts.RPCError id 500 "SERVER_BUSY") ids with
  | [] => mret tt
  | [intent] => Submit intent
  | intents => Submit (Batch intents)
  end.

Definition fresh_content (m : InboundMessage) : bool := negb (im_Retransmission m) && im_ContentRelated m.

Definition content_ids (v : ValidatedInbound) : list Z :=
  map im_MessageID (filter (fun m => fresh_content m && negb (isRuntimeControlConstructor (im_ConstructorID m)) = true) (vi_Messages v)).

Definition accept (v : ValidatedInbound) (rs : reservations) : AM unit :=
  _ ← guarded rs (lease_Save_ (vi_Snapshot v));
  _ ← guarded rs (recordValidated v);
  _ ← match filter (fun m => fresh_content m = true) (vi_Messages v) with
      | m :: _ => guarded rs (ensureNewSessionCreated (im_MessageID m))
      | [] => mret tt
      end;
  routeAll rs ∅ (vi_Messages v).

(** The budget the messages of the envelope share. *)
Definition share_budget (v : ValidatedInbound) : AM unit :=
  modify (fun a => set_controls (set_budget (im_DecodeBudget (vi_Envelope v)) (ac_controls a)) a).

Definition handleEncrypted (vclock : nat -> nat -> Z) (inner : InnerData) : AM unit := fun a =>
  if negb (Crypto.SessionID inner =? Session.SessionID (ac_key a)) then (Err ErrConnectionProtocol, a)
  else
    match lease_Snapshot_ a with
    | (Err e, a) => (Err e, a)
    | (Ok snapshot, a) =>
        match SessionValidator_Validate (cf_DecodeLimits config) vclock snapshot inner with
        | Err (InbValidate (BadMessage bad)) =>
            (handled ← recoverInterruptedApplicationReplay inner bad;
             if (handled : bool) then mret tt
             else intent ← of_result (map_err ActEncode (badMessageIntent bad)); Submit intent) a
        | Err e => (Err (ActInbound e), a)
        | Ok validated =>
            let '(r, a) := (_ ← share_budget validated; beginRequests (content_ids validated)) a in
            match r with
            | Err (ActActive (ActiveRequestCapacityError _)) => rejectOverloaded (content_ids validated) a
            | Err e => (Err e, a)
            | Ok rs => accept validated rs a
            end
        end
    end.

(** ** The request's goroutine *)

Inductive wait_error := WaitCanceled | ErrInvokeAfterTimeout | WaitFailed.

(** Whether an error is context.Canceled, which is not a failure of the session. *)
Context (is_canceled : actor_error E -> bool).

Definition retire_on (e : actor_error E) : AM unit := if is_canceled e then mret tt else Retire.

Definition run_request (p : nat) (m : InboundMessage) (waited : option wait_error) (dispatched : result (actor_error E) Outcome) : AM unit :=
  match waited with
  | Some WaitCanceled => complete_reservation p false
  | Some e =>
      let message := match e with ErrInvokeAfterTimeout => "MSG_WAIT_TIMEOUT"%string | _ => "MSG_WAIT_FAILED"%string end in
      _ ← (fun a => match Submit (Contracts.RPCError (im_MessageID m) 500 message) a with
                    | (Ok _, a) => (Ok tt, a)
                    | (Err e, a) => retire_on e a
                    end);
      complete_reservation p false
  | None =>
      succeeded ← (fun a =>
        match dispatched with
        | Ok outcome =>
            match applyOutcome m outcome a with
            | (Ok _, a) => (Ok (requestOutcomeSucceeded outcome (im_MessageID m)), a)
            | (Err e, a) => (_ ← retire_on e; mret false) a
            end
        | Err e => (_ ← retire_on e; mret false) a
        end);
      complete_reservation p succeeded
  end.

(** ** Shutdown, up to waiting for the goroutines *)

Definition shutdown_begin (why : Contracts.cause) : AM unit :=
  _ ← modify set_closing;
  _ ← modify (fun a => let '(cancelled, reg) := CancelAll why (ct_active (ac_controls a)) in
                       set_controls (Routing.set_active reg cancelled (ac_controls a)) a);
  Retire.

End Actor.

(** * The acknowledgement joins the answer *)

(** The messages a list of intents stands for. *)
Definition messages_of (i : Intent) : list Intent := match i with Batch items => items | _ => [i] end.
Definition flatten (l : list Intent) : list Intent := concat (map messages_of l).

Definition within_vector (i : Intent) : Prop := match i with Batch items => len items <= DefaultMaxVectorElements | _ => True end.

Lemma init_last (l : list Intent) x : list.last l = Some x -> l = take (length l - 1) l ++ [x].
Proof. intros Hl. apply last_Some in Hl as [l' ->]. rewrite length_app. cbn. by rewrite take_app_length' by lia. Qed.

Lemma flatten_app a b : flatten (a ++ b) = flatten a ++ flatten b.
Proof. unfold flatten. by rewrite map_app, concat_app. Qed.

Lemma ack_valid id : id <> 0 -> valid_message (Acknowledge [id]).
Proof. intros Hid. cbn. split_and!; [done|apply NoDup_singleton|set_solver]. Qed.

(** An answer that the acknowledgement can join. *)
Definition joinable (i : Intent) : Prop :=
  match i with
  | Contracts.RPCResult _ _ | Contracts.RPCError _ _ _ => True
  | Batch items => len items < DefaultMaxVectorElements
  | _ => False
  end.

Lemma outcomeWriteIntents_cases intents m :
  im_ContentRelated m = true ->
  (outcomeWriteIntents intents m = intents ++ [Acknowledge [im_MessageID m]] /\ forall i, list.last intents = Some i -> ~ joinable i) \/
  exists init value, intents = init ++ [value] /\ joinable value /\
    outcomeWriteIntents intents m = init ++ [Batch (messages_of value ++ [Acknowledge [im_MessageID m]])].
Proof.
  intros Hc. unfold outcomeWriteIntents. rewrite Hc. cbn [negb]. destruct (list.last intents) as [value|] eqn:Hl.
  2:{ apply last_None in Hl as ->. by left. }
  pose proof (init_last _ _ Hl) as Hi. destruct value; try (left; split; [done|by intros i [= <-] []]); try (right; eexists _, _; split_and!; [exact Hi|done|done]).
  destruct (len Items <? DefaultMaxVectorElements) eqn:E; bools; [right; eexists _, _; split_and!; [exact Hi|done|done]|left; split; [done|]].
  intros i [= <-]. cbn. lia.
Qed.

Lemma joinable_within value ack : joinable value -> within_vector (Batch (messages_of value ++ [ack])).
Proof. destruct value; try done; cbn; rewrite ?len_app; unfold len; cbn; unfold DefaultMaxVectorElements; lia. Qed.

Lemma joinable_valid value ack : joinable value -> valid_intent value -> valid_message ack -> valid_intent (Batch (messages_of value ++ [ack])).
Proof.
  intros Hj Hv Ha. cbn. split; [by destruct (messages_of value)|]. apply Forall_app. split; [|by constructor].
  destruct value; try done; cbn in *; [by constructor..|]. by destruct Hv.
Qed.

(** What a request's outcome writes is the outcome's own messages in their order, followed,
    when the request was content-related, by its acknowledgement, which travels in the frame of
    the final answer: a result, an error or a batch with room.  Valid intents stay valid and
    no batch outgrows a vector. *)
Lemma acknowledgement_joins_answer intents m :
  flatten (outcomeWriteIntents intents m) = flatten intents ++ (if im_ContentRelated m then [Acknowledge [im_MessageID m]] else []) /\
  (Forall valid_intent intents -> im_MessageID m <> 0 -> Forall valid_intent (outcomeWriteIntents intents m)) /\
  (Forall within_vector intents -> Forall within_vector (outcomeWriteIntents intents m)) /\
  (forall i, list.last intents = Some i -> joinable i -> length (outcomeWriteIntents intents m) = length intents).
Proof.
  destruct (im_ContentRelated m) eqn:Hc.
  2:{ unfold outcomeWriteIntents. rewrite Hc. cbn [negb]. by rewrite app_nil_r. }
  pose proof (ack_valid (im_MessageID m)) as Hack.
  destruct (outcomeWriteIntents_cases intents m Hc) as [[-> Hn]|(init & value & -> & Hj & ->)]; rewrite ?flatten_app, ?Forall_app, ?Forall_singleton, ?length_app.
  - split_and!; [done|by intros H Hid; split; [|apply Hack]|done|]. intros i Hi Hji. by destruct (Hn i Hi).
  - split_and!; [|intros [H Hv] Hid; split; [done|by apply joinable_valid; [..|apply Hack]]|intros [H _]; split; [done|by apply joinable_within]|done].
    unfold flatten. cbn. by rewrite !app_nil_r, app_assoc.
Qed.

(** * Admission *)

Section Slots.
Context {W E : Type} `{HW : SessionWriter W E} {G : GzipReader}.
Context (config : actor_config) (clock : nat -> Z).

Abbreviation act := (actor (W := W)).
Abbreviation AM := (ST act (actor_error E)).

(** Which registrations of a registry have been completed, one flag each. *)
Definition once_flags (r : ActiveRequestRegistry) : list bool := map ar_once (r_requests r).
Definition flags (a : act) : list bool := once_flags (ct_active (ac_controls a)).

(** The registrations not completed yet. *)
Definition outstanding (a : act) : Z := len (filter (fun b => b = false) (flags a)).

(** What a call leaves alone: the slots and the requests started. *)
Definition slots (a : act) : list bool * Z * Z * list (nat * InboundMessage) := (flags a, ac_inUse a, ac_running a, ac_spawned a).

Definition keeps_slots {A} (m : AM A) : Prop := forall a, slots (m a).2 = slots a /\ (m a).1 <> Err ActPanic.
Definition keeps_flags {A} (m : ST (controls (O := W)) (control_error E) A) : Prop := forall c, once_flags (ct_active (m c).2) = once_flags (ct_active c).

Lemma ks_ret {A} (x : A) : keeps_slots (mret x).
Proof. done. Qed.
Lemma ks_err {A} e : e <> ActPanic -> keeps_slots (st_err (A := A) e).
Proof. intros He a. split; [done|]. by intros [= ->]. Qed.
Lemma ks_bind {A B} (m : AM A) (f : A -> AM B) : keeps_slots m -> (forall x, keeps_slots (f x)) -> keeps_slots (m ≫= f).
Proof.
  intros Hm Hf a. unfold mbind, ST_bind, st_bind. destruct (Hm a) as [Hs Hp]. destruct (m a) as [[x|e] a1]; cbn in *.
  - destruct (Hf x a1) as [Hs1 Hp1]. by rewrite Hs1.
  - split; [done|]. intros [= ->]. by apply Hp.
Qed.
Lemma ks_controls {A} (m : ST (controls (O := W)) (control_error E) A) : keeps_flags m -> keeps_slots (on_controls m).
Proof.
  intros Hm a. unfold on_controls, slots, flags. specialize (Hm (ac_controls a)). destruct (m (ac_controls a)) as [[x|e] c]; cbn in *; by rewrite Hm.
Qed.
Lemma ks_writer {A X} (into : X -> actor_error E) (op : ST W X A) : (forall x, into x <> ActPanic) -> keeps_slots (on_writer into op).
Proof.
  intros Hi a. unfold on_writer. destruct (op _) as [[x|e] w]; cbn; (split; [done|]); [done|]. intros [= He]. by apply (Hi e).
Qed.
Lemma ks_result {A} (r : result (actor_error E) A) : r <> Err ActPanic -> keeps_slots (of_result r).
Proof. done. Qed.
Lemma ks_modify f : (forall a, slots (f a) = slots a) -> keeps_slots (modify f).
Proof. intros Hf a. cbn. by rewrite Hf. Qed.
Lemma ks_tick : keeps_slots (tick clock).
Proof. done. Qed.
Lemma ks_ledger {A} (op : ST InboundStateLedger ledger_error A) : keeps_slots (on_ledger op).
Proof. intros a. unfold on_ledger. by destruct (op _) as [[x|e] l]. Qed.
Lemma ks_map {A X} (into : X -> actor_error E) (r : result X A) : (forall x, into x <> ActPanic) -> map_err into r <> Err ActPanic.
Proof. intros Hi. destruct r; cbn; [done|]. intros [= He]. by apply (Hi e). Qed.
Lemma ks_submit i : keeps_slots (Submit i).
Proof. by apply ks_writer. Qed.
Lemma ks_snapshot : keeps_slots lease_Snapshot_.
Proof. intros a. unfold lease_Snapshot_. cbn. split; [done|]. by apply ks_map. Qed.
Lemma ks_save s : keeps_slots (lease_Save_ s).
Proof. by apply ks_writer. Qed.

Create HintDb slots.
#[local] Hint Resolve ks_ret ks_bind ks_tick ks_ledger ks_submit ks_snapshot ks_save : slots.
#[local] Hint Extern 2 (keeps_slots (of_result (map_err _ _))) => apply ks_result, ks_map; done : slots.
#[local] Hint Extern 2 (keeps_slots (modify _)) => apply ks_modify; done : slots.
#[local] Hint Extern 2 (keeps_slots (st_err _)) => apply ks_err; done : slots.
#[local] Hint Extern 2 (keeps_slots (on_writer _ _)) => apply ks_writer; done : slots.

(** Walks through a call. *)
Ltac walk :=
  repeat first
    [ progress cbv zeta
    | apply ks_bind; [|intros ?]
    | solve [eauto with slots]
    | match goal with
      | |- keeps_slots (if ?b then _ else _) => destruct b
      | |- keeps_slots (match ?o with _ => _ end) => destruct o
      end ].

Lemma ks_mutations mus : keeps_slots (applyMutationsLocked mus).
Proof. unfold applyMutationsLocked. walk. Qed.
#[local] Hint Resolve ks_mutations : slots.

Lemma ks_subscribe : keeps_slots subscribeForPush.
Proof. intros a. unfold subscribeForPush. destruct (ac_acceptsPush a); [done|apply ks_mutations]. Qed.
Lemma ks_created id : keeps_slots (ensureNewSessionCreated clock id).
Proof. unfold ensureNewSessionCreated. walk. Qed.
Lemma ks_submitAll l : keeps_slots (submitAll l).
Proof. induction l; cbn; walk. Qed.
#[local] Hint Resolve ks_subscribe ks_created ks_submitAll : slots.

Lemma ks_outcome m o : keeps_slots (applyOutcome clock m o).
Proof. unfold applyOutcome. walk. Qed.
#[local] Hint Resolve ks_outcome : slots.

Lemma ks_replay m : keeps_slots (recoverContainerReplay m).
Proof. unfold recoverContainerReplay, is_active. walk; by intros a. Qed.

Lemma ks_active id : keeps_slots (is_active id).
Proof. done. Qed.
Lemma ks_response id : keeps_slots (has_response clock id).
Proof. unfold has_response. walk. Qed.
#[local] Hint Resolve ks_active ks_response : slots.

Lemma ks_interrupted whole id ms : keeps_slots (interrupted clock whole id ms).
Proof. induction ms as [|m ms IH]; cbn; walk. Qed.
#[local] Hint Resolve ks_interrupted : slots.

Lemma ks_recover inner bad : keeps_slots (recoverInterruptedApplicationReplay config clock inner bad).
Proof. unfold recoverInterruptedApplicationReplay. walk. Qed.

Lemma ks_record v : keeps_slots (recordValidated clock v).
Proof.
  unfold recordValidated, record_message. assert (H : forall ms, keeps_slots (record_fresh clock ms)); [|walk].
  intros ms. induction ms as [|m ms IH]; cbn; unfold record_message; walk.
Qed.

(** ** Controls keep the registrations *)

Lemma finish_flags id p s r : once_flags (finishLocked id p s r) = once_flags r.
Proof.
  unfold finishLocked. destruct (r_requests r !! p) as [q|]; [|done]. destruct (ar_ended q); [done|]. unfold once_flags.
  assert (Hm : map ar_once (r_requests (mark_ended p r)) = map ar_once (r_requests r)).
  { unfold mark_ended. cbn. generalize (r_requests r). intros l. revert p. induction l as [|x l IH]; intros [|p]; cbn; [done..|by rewrite IH]. }
  rewrite <- Hm. unfold notifyLocked, record_completion. cbn. by repeat case_match.
Qed.

Lemma kf_ret {A} (x : A) : keeps_flags (mret x).
Proof. done. Qed.
Lemma kf_bind {A B} (m : ST (controls (O := W)) (control_error E) A) (f : A -> ST (controls (O := W)) (control_error E) B) :
  keeps_flags m -> (forall x, keeps_flags (f x)) -> keeps_flags (m ≫= f).
Proof.
  intros Hm Hf c. unfold mbind, ST_bind, st_bind. specialize (Hm c). destruct (m c) as [[x|e] c1]; cbn in *; [|done].
  by rewrite (Hf x c1).
Qed.
Lemma kf_err {A} e : keeps_flags (st_err (A := A) e).
Proof. done. Qed.
Lemma kf_decode {A} m (value : RD A) : keeps_flags (decode_body m value).
Proof. intros c. unfold decode_body. by destruct (decodeControlBudget _ _ _). Qed.
Lemma kf_serialize v : keeps_flags (serializeRuntimeTL v).
Proof. done. Qed.
Lemma kf_outbound {A} (op : ST W E A) : keeps_flags (outbound op).
Proof. intros c. unfold outbound. by destruct (op _) as [[]]. Qed.
Lemma kf_state now ids : keeps_flags (state_info now ids).
Proof. done. Qed.
Lemma kf_drop id : keeps_flags (drop_request id).
Proof.
  intros c. unfold drop_request, Drop. destruct (r_active (ct_active c) !! id); [|done]. cbn. apply finish_flags.
Qed.
Lemma kf_checked {A} (r : result (control_error E) A) : keeps_flags (checked r).
Proof. done. Qed.
#[local] Hint Resolve kf_ret kf_err kf_decode kf_serialize kf_outbound kf_state kf_drop kf_checked : slots.

Ltac walk_controls :=
  repeat first
    [ progress cbv zeta
    | apply kf_bind; [|intros ?]
    | solve [eauto with slots]
    | match goal with
      | |- keeps_flags (if ?b then _ else _) => destruct b
      | |- keeps_flags (match ?o with _ => _ end) => destruct o
      end ].

Lemma kf_reply v : keeps_flags (reply v).
Proof. unfold reply. walk_controls. Qed.
Lemma kf_inspect ids : keeps_flags (inspectAll ids).
Proof. induction ids as [|id ids IH]; cbn; walk_controls. Qed.
#[local] Hint Resolve kf_reply kf_inspect : slots.

Lemma kf_control now salt m : keeps_flags (Router_RouteControl (RouteControl now salt) m).
Proof. unfold Router_RouteControl, RouteControl. walk_controls. Qed.

Lemma kf_normalize m : keeps_flags (normalize config m).
Proof. intros c. unfold normalize. by destruct (NormalizeRequest _ _ _). Qed.

(** ** Reservations *)

Lemma flag_count_app (P : bool -> Prop) `{!forall b, Decision (P b)} (a b : list bool) : len (filter P (a ++ b)) = len (filter P a) + len (filter P b).
Proof. rewrite filter_app. apply len_app. Qed.

Section Held.
Context (K R C B started : Z).

(** The slots while an envelope is routed: those of other sessions ([K], [R]), those of requests
    that ran before ([C]), at most [B] of this one, and one for each reservation and each request started since. *)
Record slots_held (ps : list nat) (a : act) : Prop := {
  sh_inUse : ac_inUse a = K + outstanding a;
  sh_running : ac_running a = R + outstanding a;
  sh_others : 0 <= K;
  sh_count : outstanding a = C + len ps + (len (ac_spawned a) - started);
  sh_bound : outstanding a <= B;
  sh_distinct : NoDup ps;
  sh_open : forall p, p ∈ ps -> flags a !! p = Some false
}.

Lemma slots_held_keep ps a a' : slots a' = slots a -> slots_held ps a -> slots_held ps a'.
Proof. unfold slots. intros [= Hf Hi Hr Hs] []. unfold outstanding in *. split; unfold outstanding; rewrite ?Hf, ?Hi, ?Hr, ?Hs; done. Qed.

Lemma slots_held_perm ps ps' a : ps ≡ₚ ps' -> slots_held ps a -> slots_held ps' a.
Proof. intros Hp []. split; try done; [|by rewrite <- Hp|intros p Hin; apply sh_open0; by rewrite Hp]. rewrite sh_count0. unfold len. by rewrite Hp. Qed.

(** Completing an open registration clears one flag. *)
Lemma outstanding_insert (l : list bool) p : l !! p = Some false -> len (filter (fun b => b = false) (<[p := true]> l)) = len (filter (fun b => b = false) l) - 1.
Proof.
  intros Hp. rewrite <- (take_drop_middle l p false Hp) at 2. rewrite insert_take_drop by (by eapply lookup_lt_Some).
  rewrite !flag_count_app, (filter_cons_False _ true), (filter_cons_True _ false), len_cons by done. lia.
Qed.

Lemma complete_flags p s r q : r_requests r !! p = Some q -> ar_once q = false -> once_flags (complete p s r).2 = <[p := true]> (once_flags r).
Proof.
  intros Hp Ho. unfold complete. rewrite Hp, Ho. cbn [snd]. rewrite finish_flags. unfold once_flags. cbn.
  clear. generalize (r_requests r). intros l. revert p. induction l as [|x l IH]; intros [|p]; cbn; [done..|by rewrite IH].
Qed.

Lemma complete_open p ps a s :
  slots_held (p :: ps) a -> exists a', complete_reservation (E := E) p s a = (Ok tt, a') /\ slots_held ps a' /\ flags a' !! p = Some true /\ ac_spawned a' = ac_spawned a.
Proof.
  intros [Hi Hr HK Hc Hb Hd Ho]. assert (Hp := Ho p ltac:(by left)). unfold complete_reservation. unfold flags, once_flags in Hp.
  rewrite list_lookup_fmap in Hp. destruct (r_requests _ !! p) as [q|] eqn:Eq; [|done]. cbn in Hp. injection Hp as Hq. rewrite Hq.
  destruct (complete p s (ct_active (ac_controls a))) as [cs reg] eqn:Ec.
  assert (Hreg : once_flags reg = <[p := true]> (flags a)) by (unfold flags; rewrite <- (complete_flags p s _ q) by done; by rewrite Ec).
  assert (Hopen := Ho p ltac:(by left)). pose proof (outstanding_insert (flags a) p Hopen) as Hcount.
  set (a1 := set_controls _ a). assert (Hf1 : flags a1 = <[p := true]> (flags a)) by done.
  unfold release, mbind, ST_bind, st_bind. cbn [ac_inUse set_admission]. change (ac_inUse a1) with (ac_inUse a).
  apply NoDup_cons in Hd as [Hpn Hd]. rewrite len_cons in Hc.
  assert (Hpos : 0 <= len (filter (fun b => b = false) (<[p := true]> (flags a)))) by (unfold len; lia).
  unfold outstanding in *. rewrite (proj2 (Z.ltb_ge _ 0)) by lia. eexists. split; [done|].
  match goal with |- slots_held _ ?x /\ _ => assert (Hf2 : flags x = <[p := true]> (flags a)) by exact Hf1 end. split_and!; [| |done].
  - split; unfold outstanding; rewrite ?Hf2, ?Hcount; cbn [ac_inUse ac_running ac_spawned set_admission modify]; try done;
      change (ac_running a1) with (ac_running a); change (ac_spawned a1) with (ac_spawned a); try lia.
    intros p' Hin. rewrite list_lookup_insert_ne by (by intros ->). apply Ho. by right.
  - rewrite Hf2. apply list_lookup_insert_eq. by eapply lookup_lt_Some.
Qed.

Lemma complete_done p s (a : act) : flags a !! p = Some true -> complete_reservation (E := E) p s a = (Ok tt, a).
Proof.
  unfold flags, once_flags, complete_reservation. rewrite list_lookup_fmap. destruct (_ !! p) as [q|]; [|done]. cbn. by intros [= ->].
Qed.

Lemma release_all rs a : slots_held (map snd rs) a -> exists a', releaseReservations (E := E) rs a = (Ok tt, a') /\ slots_held [] a'.
Proof.
  revert a. induction rs as [|[id p] rs IH]; intros a H; [by exists a|]. cbn [map snd] in H. destruct (complete_open _ _ _ false H) as (a1 & E1 & H1 & _).
  destruct (IH a1 H1) as (a2 & E2 & H2). exists a2. split; [|done]. cbn [releaseReservations]. unfold mbind, ST_bind, st_bind. by rewrite E1.
Qed.

(** What a guarded step leaves: the reservations on success, none of them on failure. *)
Definition settled (ps : list nat) {A} (r : result (actor_error E) A * act) : Prop :=
  r.1 <> Err ActPanic /\ match r.1 with Ok _ => slots_held ps r.2 | Err _ => slots_held [] r.2 end.

Lemma guarded_keeps {A} rs (m : AM A) a :
  keeps_slots m -> slots_held (map snd rs) a -> settled (map snd rs) (guarded rs m a).
Proof.
  intros Hm H. destruct (Hm a) as [Hs Hp]. unfold guarded, settled. destruct (m a) as [[x|e] a1]; cbn in *.
  - split; [done|]. by eapply slots_held_keep.
  - destruct (release_all rs a1) as (a2 & E2 & H2); [by eapply slots_held_keep|]. unfold mbind, ST_bind, st_bind. rewrite E2. cbn.
    split; [|done]. intros [= ->]. by apply Hp.
Qed.

(** ** Routing *)

Lemma ks_route m : keeps_slots (route_control config clock m).
Proof.
  unfold route_control. walk; try (apply ks_controls; first [apply kf_normalize|apply kf_control]). all: by apply ks_mutations.
Qed.

(** A started request takes over its reservation. *)
Lemma start_slots p ps m a : slots_held (p :: ps) a -> slots_held ps (add_spawned p m a).
Proof.
  intros [Hi Hr HK Hc Hb Hd Ho]. apply NoDup_cons in Hd as [_ Hd]. split; try done.
  - change (outstanding (add_spawned p m a)) with (outstanding a). cbn [ac_spawned add_spawned]. rewrite len_app, len_cons, len_nil. rewrite len_cons in Hc. lia.
  - intros p' Hp'. apply (Ho p'). by right.
Qed.

Lemma routeMessage_slots m reservation ps a :
  slots_held (match reservation with Some p => p :: ps | None => ps end) a ->
  (routeMessage config clock m reservation a).1 <> Err ActPanic /\
  slots_held ps (routeMessage config clock m reservation a).2 /\
  (forall p e, reservation = Some p -> (routeMessage config clock m reservation a).1 = Err e -> flags (routeMessage config clock m reservation a).2 !! p = Some true).
Proof.
  intros H. unfold routeMessage, deferred, route, mbind, ST_bind, st_bind. destruct (ks_route m a) as [Hs Hp].
  destruct (route_control config clock m a) as [[[current|]|e] a1]; cbn in Hs, Hp; apply (slots_held_keep _ _ _ Hs) in H; destruct reservation as [p|]; cbn.
  - split_and!; [done|by apply start_slots|done].
  - done.
  - destruct (complete_open _ _ _ false H) as (a2 & -> & H2 & _). done.
  - done.
  - destruct (complete_open _ _ _ false H) as (a2 & -> & H2 & Hf & _). cbn. split_and!; [by intros [= ->]|done|by intros ? ? [= <-]].
  - split_and!; [by intros [= ->]|done|done].
Qed.

Lemma guarded_route m id reservation rest a :
  slots_held (match reservation with Some p => p :: map snd rest | None => map snd rest end) a ->
  settled (map snd rest)
    (guarded (match reservation with Some p => (id, p) :: rest | None => rest end) (routeMessage config clock m reservation) a).
Proof.
  intros H. destruct (routeMessage_slots m reservation (map snd rest) a H) as (Hp & H1 & Hf). unfold guarded, settled.
  destruct (routeMessage config clock m reservation a) as [[x|e] a1]; cbn in *; [done|].
  destruct (release_all rest a1 H1) as (a2 & E2 & H2). unfold mbind, ST_bind, st_bind. destruct reservation as [p|]; cbn [releaseReservations].
  - unfold mbind, ST_bind, st_bind. rewrite (complete_done p false a1 (Hf p e eq_refl eq_refl)), E2. cbn. split; [|done]. intros [= ->]. by apply Hp.
  - rewrite E2. cbn. split; [|done]. intros [= ->]. by apply Hp.
Qed.

Lemma reservation_split id (rs : list (Z * nat)) :
  NoDup (map fst rs) ->
  map snd rs ≡ₚ match reservation_of id rs with Some p => p :: map snd (without id rs) | None => map snd (without id rs) end /\
  NoDup (map fst (without id rs)) /\ (forall i, i ∈ map fst (without id rs) <-> i ∈ map fst rs /\ i <> id).
Proof.
  unfold reservation_of, without. induction rs as [|[i p] rs IH]; intros Hnd; [split_and!; [done|constructor|set_solver]|]. cbn [map fst] in Hnd. apply NoDup_cons in Hnd as [Hi Hnd].
  destruct (IH Hnd) as (Hp & Hn & He). cbn [list_find]. destruct (decide ((i, p).1 = id)) as [Heq|Hne]; cbn [fst] in *.
  - subst id. rewrite filter_cons_False by (cbn; tauto). cbn.
    assert (Hall : filter (fun r : Z * nat => r.1 <> i) rs = rs).
    { apply filter_keep_all. intros [j q] Hin. cbn. intros ->. apply Hi. apply (list_elem_of_fmap_2 fst _ _ Hin). }
    rewrite Hall. split_and!; [done|done|]. intros j. rewrite elem_of_cons. split; [|naive_solver]. intros Hj. split; [by right|]. by intros ->.
  - rewrite filter_cons_True by done. cbn [map fst snd]. split_and!.
    + destruct (list_find _ rs) as [[k [j q]]|]; cbn in *; rewrite Hp; [apply Permutation_swap|done].
    + apply NoDup_cons. split; [|done]. rewrite He. tauto.
    + intros j. rewrite !elem_of_cons, He. naive_solver.
Qed.

Lemma routeAll_slots rs replays ms a :
  slots_held (map snd rs) a -> NoDup (map fst rs) ->
  (forall i, i ∈ map fst rs -> exists m, m ∈ ms /\ im_MessageID m = i /\ im_Retransmission m = false) ->
  settled [] (routeAll config clock rs replays ms a).
Proof.
  revert rs replays a. induction ms as [|m ms IH]; intros rs replays a H Hnd Hcov; cbn [routeAll].
  - destruct rs as [|[i p] rs]; [done|]. destruct (Hcov i) as (m & Hm & _); [by left|]. by apply not_elem_of_nil in Hm.
  - assert (Hrest : im_Retransmission m = true -> forall i, i ∈ map fst rs -> exists m', m' ∈ ms /\ im_MessageID m' = i /\ im_Retransmission m' = false).
    { intros Hr i Hi. destruct (Hcov i Hi) as (m' & [->|Hm']%elem_of_cons & Hid & Hf); [congruence|eauto]. }
    destruct (im_Retransmission m) eqn:Hr.
    + case_bool_decide; [by apply IH; auto|]. unfold mbind, ST_bind, st_bind.
      destruct (guarded_keeps rs (recoverContainerReplay m) a (ks_replay m) H) as [Hp Hs]. destruct (guarded _ _ a) as [[x|e] a1]; cbn in *; [by apply IH; auto|done].
    + destruct (reservation_split (im_MessageID m) rs Hnd) as (Hperm & Hnd' & Hel).
      apply (slots_held_perm _ _ _ Hperm) in H. unfold mbind, ST_bind, st_bind.
      destruct (guarded_route m (im_MessageID m) _ _ a H) as [Hp Hs]. destruct (guarded _ _ a) as [[x|e] a1]; cbn in *; [|done].
      apply IH; [done|done|]. intros i Hi. apply Hel in Hi as [Hi Hne]. destruct (Hcov i Hi) as (m' & [->|Hm']%elem_of_cons & Hid & Hf); [congruence|eauto].
Qed.

End Held.

(** ** Reserving *)

Lemma registerAll_flags ids r :
  once_flags (registerAll ids r).2 = once_flags r ++ replicate (length ids) false /\
  (registerAll ids r).1 = List.seq (length (once_flags r)) (length ids).
Proof.
  revert r. induction ids as [|id ids IH]; intros r; cbn [registerAll]; [by rewrite app_nil_r|]. cbv zeta.
  match goal with |- context [registerAll ids ?x] => specialize (IH x); destruct (registerAll ids x) as [ps r'] end.
  cbn [fst snd] in *. destruct IH as [-> ->]. unfold once_flags. cbn [r_requests]. rewrite map_app, length_app, length_map. cbn.
  split; [by rewrite <- app_assoc|]. by rewrite Nat.add_1_r.
Qed.

Lemma beginBatch_flags ids r :
  match beginBatch ids r with
  | (Ok ps, r') => once_flags r' = once_flags r ++ replicate (length ids) false /\ ps = List.seq (length (once_flags r)) (length ids) /\ NoDup ids
  | (Err _, r') => r' = r
  end.
Proof.
  unfold beginBatch. destruct (checkBatch ∅ ids) as [[]|] eqn:Eb; [|done]. apply checkBatch_ok in Eb as [Hnd _].
  destruct (_ <? _); [done|]. destruct (checkActive _ _); [|done].
  pose proof (registerAll_flags ids r). destruct (registerAll ids r) as [ps r']. by destruct H.
Qed.

(** Between envelopes: every slot of the session belongs to a registration. *)
Definition balanced (a : act) : Prop := outstanding a <= ac_inUse a.

Lemma balanced_held a : balanced a ->
  slots_held (ac_inUse a - outstanding a) (ac_running a - outstanding a) (outstanding a) (outstanding a) (len (ac_spawned a)) [] a.
Proof. unfold balanced. intros Hb. split; unfold len; cbn; try lia; [constructor|]. intros p Hp. by apply not_elem_of_nil in Hp. Qed.

Lemma false_count n : len (filter (fun b => b = false) (replicate n false)) = Z.of_nat n.
Proof. induction n as [|n IH]; [done|]. cbn [replicate]. rewrite filter_cons_True, len_cons by done. lia. Qed.

Lemma beginRequests_slots K R C B n ids a :
  slots_held K R C B n [] a ->
  let '(r, a') := beginRequests (E := E) config ids a in
  r <> Err ActPanic /\
  match r with
  | Ok rs => slots_held K R C (outstanding a') n (map snd rs) a' /\ map fst rs = ids /\ NoDup ids /\ ac_inUse a' <= cf_ActiveRequests config
  | Err _ => slots a' = slots a
  end.
Proof.
  intros [Hi Hr HK Hc _ Hd Ho]. rewrite len_nil in Hc. unfold beginRequests, acquire. destruct (ac_closing a); [done|].
  destruct ((len ids <? 0) || _) eqn:Ecap; [done|]. bools.
  set (a1 := set_admission (ac_inUse a + len ids) (ac_running a) a). unfold register.
  pose proof (beginBatch_flags ids (ct_active (ac_controls a1))) as Hb. destruct (beginBatch ids _) as [[ps|e] reg]; cbn.
  - destruct Hb as (Hf & Hps & Hnd). assert (Hlen : length ps = length ids) by (rewrite Hps; apply length_seq).
    match goal with |- context [slots_held _ _ _ _ _ _ ?x] => set (a2 := x) end.
    assert (Hf2 : flags a2 = flags a ++ replicate (length ids) false) by exact Hf.
    assert (Ho2 : outstanding a2 = outstanding a + len ids) by (unfold outstanding; rewrite Hf2, flag_count_app, false_count; done).
    split; [done|]. assert (Hzip : map snd (zip ids ps) = ps) by (apply snd_zip; lia). split_and!; [|by apply fst_zip; lia|done|cbn; lia].
    assert (Hlen' : len ps = len ids) by (unfold len; by rewrite Hlen). rewrite Hzip. split.
    + rewrite Ho2. cbn. lia.
    + rewrite Ho2. cbn. lia.
    + done.
    + rewrite Ho2. cbn. lia.
    + done.
    + subst ps. apply NoDup_seq.
    + intros p Hp. subst ps. apply elem_of_seq in Hp.
      assert (Hin : (length (flags a) <= p < length (flags a) + length ids)%nat) by exact Hp. rewrite Hf2, lookup_app_r by lia. apply lookup_replicate. lia.
  - subst reg. unfold release, mbind, ST_bind, st_bind. cbn. assert (Hnn : 0 <= outstanding a) by (unfold outstanding, len; lia).
    rewrite (proj2 (Z.ltb_ge _ 0)) by lia. cbn. split; [by destruct e|]. unfold slots. cbn. f_equal. f_equal. f_equal. lia.
Qed.

Lemma accept_slots K R C B n v rs a :
  slots_held K R C B n (map snd rs) a -> map fst rs = content_ids v -> NoDup (content_ids v) ->
  settled K R C B n [] (accept config clock v rs a).
Proof.
  intros H Hids Hnd. unfold accept, mbind, ST_bind, st_bind.
  destruct (guarded_keeps K R C B n rs _ a (ks_save (vi_Snapshot v)) H) as [Hp Hs]. destruct (guarded _ _ a) as [[x|e] a1]; cbn in Hp, Hs; [|done].
  destruct (guarded_keeps K R C B n rs _ a1 (ks_record v) Hs) as [Hp1 Hs1]. destruct (guarded _ _ a1) as [[x1|e] a2]; cbn in Hp1, Hs1; [|done].
  assert (Hroute : forall a, slots_held K R C B n (map snd rs) a -> settled K R C B n [] (routeAll config clock rs ∅ (vi_Messages v) a)).
  { intros a3 H3. apply routeAll_slots; [done|by rewrite Hids|]. intros i. rewrite Hids. unfold content_ids. intros (m & -> & Hm)%list_elem_of_fmap.
    apply list_elem_of_filter in Hm as [Hf Hm]. unfold fresh_content in Hf. exists m. split_and!; [done..|]. by destruct (im_Retransmission m). }
  destruct (filter _ _) as [|m l]; [by apply Hroute|].
  destruct (guarded_keeps K R C B n rs _ a2 (ks_created (im_MessageID m)) Hs1) as [Hp2 Hs2]. destruct (guarded _ _ a2) as [[x2|e] a3]; cbn in Hp2, Hs2; [|done].
  by apply Hroute.
Qed.

Lemma reject_slots ids : keeps_slots (rejectOverloaded ids).
Proof. unfold rejectOverloaded. walk. Qed.

(** What handling an envelope, or a step of it, does to the slots. *)
Definition slots_after (a : act) (r : result (actor_error E) unit * act) : Prop :=
  r.1 <> Err ActPanic /\
  ac_inUse r.2 - outstanding r.2 = ac_inUse a - outstanding a /\ ac_running r.2 - outstanding r.2 = ac_running a - outstanding a /\
  outstanding r.2 - outstanding a = len (ac_spawned r.2) - len (ac_spawned a) /\
  ac_inUse r.2 <= Z.max (ac_inUse a) (cf_ActiveRequests config).

Lemma slots_after_keep a (m : AM unit) a1 : keeps_slots m -> slots a1 = slots a -> slots_after a (m a1).
Proof.
  intros Hm He. destruct (Hm a1) as [Hs Hp]. rewrite He in Hs. unfold slots_after, outstanding, slots in *. injection Hs as Hf Hi Hr Hsp.
  rewrite Hf, Hi, Hr, Hsp. split_and!; done || lia.
Qed.

Lemma slots_after_err a a1 e : e <> ActPanic -> slots a1 = slots a -> slots_after a (Err e, a1).
Proof. intros He Hs. by apply (slots_after_keep a (st_err e)); [apply ks_err|]. Qed.

Lemma handleEncrypted_slots vclock inner a : balanced a -> slots_after a (handleEncrypted config clock vclock inner a).
Proof.
  intros Hb. unfold handleEncrypted. destruct (negb _); [by apply slots_after_err|]. destruct (ks_snapshot a) as [Hs Hp].
  destruct (lease_Snapshot_ a) as [[snapshot|e] a1]; cbn in Hs, Hp; [|apply slots_after_err; [by intros ->|done]].
  destruct (SessionValidator_Validate _ _ _ _) as [v|e].
  - unfold share_budget, modify, mbind, ST_bind, st_bind. set (a2 := set_controls _ a1).
    assert (Hs2 : slots a2 = slots a) by exact Hs. pose proof (slots_held_keep _ _ _ _ _ _ _ _ Hs2 (balanced_held a Hb)) as Hheld.
    pose proof (beginRequests_slots _ _ _ _ _ (content_ids v) a2 Hheld) as Hbegin. destruct (beginRequests config (content_ids v) a2) as [[rs|e] a3].
    + destruct Hbegin as (_ & H3 & Hids & Hnd & Hcap). destruct (accept_slots _ _ _ _ _ v rs a3 H3 Hids Hnd) as [Hp4 H4].
      assert (H4' : slots_held (ac_inUse a - outstanding a) (ac_running a - outstanding a) (outstanding a) (outstanding a3) (len (ac_spawned a)) []
        (accept config clock v rs a3).2) by (by destruct ((accept config clock v rs a3).1)).
      destruct H4' as [Hi Hr HK Hc Hbd _ _]. destruct H3 as [Hi3 _ _ _ _ _ _]. rewrite len_nil in Hc. split_and!; [done|lia..].
    + destruct Hbegin as [Hp3 Hs3]. rewrite Hs2 in Hs3. destruct e as [| |e| | | | | |]; try by apply slots_after_err.
      destruct e; try by apply slots_after_err. by apply slots_after_keep; [apply reject_slots|].
  - assert (Hrec : forall bad, slots_after a ((handled ← recoverInterruptedApplicationReplay config clock inner bad;
      if (handled : bool) then mret tt else intent ← of_result (map_err ActEncode (badMessageIntent bad)); Submit intent) a1)).
    { intros bad. apply slots_after_keep; [|done]. apply ks_bind; [apply ks_recover|]. intros []; walk. }
    destruct e; try by apply slots_after_err. destruct e; try by apply slots_after_err. apply Hrec.
Qed.

Lemma ks_retire is_canceled e : keeps_slots (retire_on is_canceled e).
Proof. unfold retire_on, Retire. walk. Qed.

Lemma retire_Ok is_canceled e a : (retire_on is_canceled e a).1 = Ok tt.
Proof. unfold retire_on. by destruct (is_canceled e). Qed.

(** The slot of registration [p] has been given back. *)
Definition slot_returned (p : nat) (a : act) (r : result (actor_error E) unit * act) : Prop :=
  r.1 = Ok tt /\ outstanding r.2 = outstanding a - 1 /\ ac_inUse r.2 = ac_inUse a - 1 /\ ac_running r.2 = ac_running a - 1 /\ flags r.2 !! p = Some true.

(** A goroutine's work before its deferred completion: it ends, and keeps the slots. *)
Lemma end_request {A} (m : AM A) (success : A -> bool) p a :
  balanced a -> flags a !! p = Some false -> keeps_slots m -> (exists x, (m a).1 = Ok x) ->
  slot_returned p a ((x ← m; complete_reservation p (success x)) a).
Proof.
  intros Hb Hp Hm [x Hx]. destruct (Hm a) as [Hs _]. unfold mbind, ST_bind, st_bind. destruct (m a) as [r a1]. cbn in Hx, Hs. subst r.
  assert (Hheld : slots_held (ac_inUse a - outstanding a) (ac_running a - outstanding a) (outstanding a - 1) (outstanding a) (len (ac_spawned a)) [p] a).
  { destruct (balanced_held a Hb) as [Hi Hr HK Hc Hbd _ _]. split; try done; [unfold len at 1; cbn; lia|apply NoDup_singleton|].
    intros q ->%list_elem_of_singleton. done. }
  apply (slots_held_keep _ _ _ _ _ _ _ _ Hs) in Hheld. destruct (complete_open _ _ _ _ _ _ _ _ (success x) Hheld) as (a2 & -> & [Hi Hr HK Hc Hbd _ _] & Hf & Hsp2).
  injection Hs as _ _ _ Hsp. rewrite len_nil, Hsp2, Hsp in Hc. unfold slot_returned. cbn [fst snd]. split_and!; [done|lia..|done].
Qed.

(** C18. The admission counter is exact: whatever an envelope holds and however its handling ends,
    every slot reserved for it is given back or belongs to a request that was started; the slots
    of other sessions are untouched, the limit is respected and no release finds the counter
    empty.  When a started request ends, in any way, its one slot is given back. *)
Theorem admission_is_exact is_canceled a :
  balanced a ->
  (forall vclock inner, slots_after a (handleEncrypted config clock vclock inner a)) /\
  (forall p m waited dispatched, flags a !! p = Some false ->
     slot_returned p a (run_request clock is_canceled p m waited dispatched a)).
Proof.
  intros Hb. split; [intros; by apply handleEncrypted_slots|]. intros p m waited dispatched Hp. unfold run_request.
  destruct waited as [w|].
  - assert (Hw : forall i, slot_returned p a ((_ ← (fun a => match Submit i a with (Ok _, a) => (Ok tt, a) | (Err e, a) => retire_on is_canceled e a end);
      complete_reservation p false) a)).
    { intros i. apply (end_request _ (fun _ => false)); [done..| |].
      - intros a1. destruct (ks_submit i a1) as [Hs _]. destruct (Submit i a1) as [[x|e] a2]; [done|]. destruct (ks_retire is_canceled e a2) as [Hs2 Hp2].
        cbn in Hs. by rewrite Hs2.
      - exists tt. destruct (Submit i a) as [[x|e] a2]; [done|]. apply retire_Ok. }
    destruct w; [|apply Hw..]. exact (end_request (mret tt) (fun _ => false) p a Hb Hp (ks_ret tt) (ex_intro _ tt eq_refl)).
  - apply (end_request _ (fun x => x)); [done..| |].
    + intros a1. destruct dispatched as [o|e]; [|apply ks_bind; [apply ks_retire|intros; apply ks_ret]].
      destruct (ks_outcome m o a1) as [Hs _]. destruct (applyOutcome clock m o a1) as [[x|e] a2]; [done|]. cbn in Hs. rewrite <- Hs.
      apply (ks_bind (retire_on is_canceled e) (fun _ => mret false)); [apply ks_retire|intros; apply ks_ret].
    + assert (Hr : forall e a1, exists x, ((_ ← retire_on is_canceled e; mret false) a1).1 = Ok (E := actor_error E) x).
      { intros e a1. unfold mbind, ST_bind, st_bind. pose proof (retire_Ok is_canceled e a1). destruct (retire_on _ _ _) as [r a2]. cbn in H. subst r. by exists false. }
      destruct dispatched as [o|e]; [|apply Hr]. destruct (applyOutcome clock m o a) as [[x|e] a2]; [by eexists|apply Hr].
Qed.

(** * What is started *)

Definition started_ids (l : list (nat * InboundMessage)) : list Z := map (fun x => im_MessageID x.2) l.

Lemma spawned_keep {A} (m : AM A) a : keeps_slots m -> ac_spawned (m a).2 = ac_spawned a.
Proof. intros Hm. destruct (Hm a) as [Hs _]. by injection Hs. Qed.

Lemma spawned_complete p s (a : act) : ac_spawned (complete_reservation (E := E) p s a).2 = ac_spawned a.
Proof.
  unfold complete_reservation. destruct (_ !! p) as [q|]; [|done]. destruct (ar_once q); [done|]. destruct (complete p s _) as [cs reg].
  unfold release, mbind, ST_bind, st_bind. cbn. by destruct (_ <? 0).
Qed.

Lemma spawned_release rs (a : act) : ac_spawned (releaseReservations (E := E) rs a).2 = ac_spawned a.
Proof.
  revert a. induction rs as [|[id p] rs IH]; intros a; [done|]. cbn [releaseReservations]. unfold mbind, ST_bind, st_bind.
  pose proof (spawned_complete p false a). destruct (complete_reservation p false a) as [[x|e] a1]; cbn in *; [by rewrite IH|done].
Qed.

Lemma spawned_guarded {A} rs (m : AM A) a : ac_spawned (guarded rs m a).2 = ac_spawned (m a).2.
Proof.
  unfold guarded. destruct (m a) as [[x|e] a1]; [done|]. unfold mbind, ST_bind, st_bind. pose proof (spawned_release rs a1).
  by destruct (releaseReservations rs a1) as [[y|e'] a2].
Qed.

Lemma normalize_id m (c : controls (O := W)) r c' : normalize (E := E) config m c = (Ok r, c') -> im_MessageID r.1 = im_MessageID m.
Proof.
  unfold normalize, NormalizeRequest. destruct (_ <? 0); [done|]. destruct (normalizeLoop _ _ _ _ _ _ _) as [[[m' mus]|e] b] eqn:El; [|done].
  intros [= <- <-]. apply loop_sound in El as [Hs _]. apply Hs.
Qed.

Lemma route_control_id m a current a' : route_control config clock m a = (Ok (Some current), a') -> im_MessageID current = im_MessageID m.
Proof.
  unfold route_control. intros H. st_inv.
  match goal with H : on_controls (normalize _ _) _ = _ |- _ => rename H into Hn end.
  unfold on_controls in Hn. destruct (normalize config m _) as [[r|e] c] eqn:En; [|done]. injection Hn as <- <-. apply normalize_id in En. destruct r as [m1 mus].
  cbv zeta in *. st_inv. destruct (bool_decide _); repeat (case_match; st_inv; try done).
Qed.

Lemma routeMessage_started m reservation a :
  exists l, ac_spawned (routeMessage config clock m reservation a).2 = ac_spawned a ++ l /\ started_ids l `sublist_of` [im_MessageID m].
Proof.
  assert (Hr : exists l, ac_spawned (route config clock m reservation a).2 = ac_spawned a ++ l /\ started_ids l `sublist_of` [im_MessageID m]).
  { unfold route, mbind, ST_bind, st_bind. pose proof (spawned_keep _ a (ks_route m)) as Hk. destruct (route_control config clock m a) as [[[current|]|e] a1] eqn:Er; cbn in Hk.
    - destruct reservation as [p|]; cbn; [|exists []; split; [by rewrite app_nil_r|apply sublist_nil_l]].
      exists [(p, current)]. rewrite Hk. split; [done|]. cbn. by rewrite (route_control_id _ _ _ _ Er).
    - exists []. destruct reservation; cbn; (split; [by rewrite app_nil_r|apply sublist_nil_l]).
    - exists []. split; [by rewrite app_nil_r|apply sublist_nil_l]. }
  unfold routeMessage, deferred. destruct (route config clock m reservation a) as [r a1]. cbn in Hr. destruct Hr as (l & Hl & Hs). exists l. split; [|done]. rewrite <- Hl.
  destruct reservation as [p|]; [|by destruct r]. destruct r as [[]|e]; [done|by rewrite spawned_complete|].
  unfold mbind, ST_bind, st_bind. pose proof (spawned_complete p false a1). by destruct (complete_reservation p false a1) as [[]].
Qed.

Lemma routeAll_started rs replays ms a :
  exists l, ac_spawned (routeAll config clock rs replays ms a).2 = ac_spawned a ++ l /\
    started_ids l `sublist_of` map im_MessageID (filter (fun m => im_Retransmission m = false) ms).
Proof.
  revert rs replays a. induction ms as [|m ms IH]; intros rs replays a; cbn [routeAll]; [exists []; by rewrite app_nil_r|].
  rewrite filter_cons. destruct (im_Retransmission m) eqn:Hr; [rewrite decide_False by done|rewrite decide_True by done; cbn [map]].
  - case_bool_decide; [apply IH|]. unfold mbind, ST_bind, st_bind.
    pose proof (spawned_guarded rs (recoverContainerReplay m) a) as Hg. rewrite (spawned_keep _ a (ks_replay m)) in Hg.
    destruct (guarded rs _ a) as [[x|e] a1]; cbn in *; [rewrite <- Hg; apply IH|]. exists []. rewrite app_nil_r. split; [done|apply sublist_nil_l].
  - unfold mbind, ST_bind, st_bind. match goal with |- context [guarded ?rs1 ?m1 a] => pose proof (spawned_guarded rs1 m1 a) as Hg; set (g := guarded rs1 m1 a) in * end.
    destruct (routeMessage_started m (reservation_of (im_MessageID m) rs) a) as (l & Hl & Hs). rewrite Hl in Hg. destruct g as [[x|e] a1]; cbn in Hg.
    + destruct (IH (without (im_MessageID m) rs) replays a1) as (l2 & Hl2 & Hs2). exists (l ++ l2). rewrite Hl2, Hg, <- app_assoc. split; [done|].
      unfold started_ids. rewrite map_app. change (im_MessageID m :: ?t) with ([im_MessageID m] ++ t). by apply sublist_app.
    + exists l. split; [done|]. etrans; [exact Hs|]. cbn. apply sublist_skip, sublist_nil_l.
Qed.
Lemma spawned_begin ids (a : act) : ac_spawned (beginRequests (E := E) config ids a).2 = ac_spawned a.
Proof.
  unfold beginRequests, acquire, register. destruct (ac_closing a); [done|]. destruct (_ || _); [done|]. destruct (beginBatch _ _) as [[ps|e] reg]; [done|].
  cbn. unfold release, mbind, ST_bind, st_bind. by destruct (_ <? 0).
Qed.

Lemma accept_started v rs a :
  exists l, ac_spawned (accept config clock v rs a).2 = ac_spawned a ++ l /\ started_ids l `sublist_of` fresh_ids v.
Proof.
  assert (Hnil : forall a' : act, ac_spawned a' = ac_spawned a -> exists l, ac_spawned a' = ac_spawned a ++ l /\ started_ids l `sublist_of` fresh_ids v).
  { intros a' H. exists []. rewrite app_nil_r. split; [done|apply sublist_nil_l]. }
  unfold accept, mbind, ST_bind, st_bind.
  pose proof (spawned_guarded rs (lease_Save_ (vi_Snapshot v)) a) as H1. rewrite (spawned_keep _ a (ks_save _)) in H1.
  destruct (guarded rs _ a) as [[x|e] a1]; cbn [snd] in H1; [|by apply Hnil].
  pose proof (spawned_guarded rs (recordValidated clock v) a1) as H2. rewrite (spawned_keep _ a1 (ks_record _)), H1 in H2.
  destruct (guarded rs _ a1) as [[x1|e] a2]; cbn [snd] in H2; [|by apply Hnil].
  destruct (filter _ _) as [|m l]; [rewrite <- H2; apply routeAll_started|].
  pose proof (spawned_guarded rs (ensureNewSessionCreated clock (im_MessageID m)) a2) as H3. rewrite (spawned_keep _ a2 (ks_created _)), H2 in H3.
  destruct (guarded rs _ a2) as [[x2|e] a3]; cbn [snd] in H3; [rewrite <- H3; apply routeAll_started|by apply Hnil].
Qed.

(** C6. Only new requests run: what an envelope starts, whatever its handling returns, are requests
    that the validation against the session's durable snapshot marked as fresh, each at most once
    and in the envelope's order; a retransmission is never dispatched. *)
Theorem only_fresh_requests_start vclock inner a :
  exists l, ac_spawned (handleEncrypted config clock vclock inner a).2 = ac_spawned a ++ l /\
  (l = [] \/ exists snapshot v, sw_Snapshot (ct_outbound (ac_controls a)) = Ok snapshot /\
     SessionValidator_Validate (cf_DecodeLimits config) vclock snapshot inner = Ok v /\ started_ids l `sublist_of` fresh_ids v).
Proof.
  assert (Hsame : forall a' : act, ac_spawned a' = ac_spawned a -> exists l, ac_spawned a' = ac_spawned a ++ l /\ (l = [] \/
    exists snapshot v, sw_Snapshot (ct_outbound (ac_controls a)) = Ok snapshot /\
      SessionValidator_Validate (cf_DecodeLimits config) vclock snapshot inner = Ok v /\ started_ids l `sublist_of` fresh_ids v)).
  { intros a' H. exists []. rewrite app_nil_r. auto. }
  unfold handleEncrypted. destruct (negb _); [by apply Hsame|]. unfold lease_Snapshot_. destruct (sw_Snapshot _) as [snapshot|e] eqn:Esn; cbn; [|by apply Hsame].
  destruct (SessionValidator_Validate _ _ _ _) as [v|e] eqn:Ev.
  2:{ apply Hsame. destruct e; try done. destruct e; try done. apply (spawned_keep _ a). apply ks_bind; [apply ks_recover|]. intros []; walk. }
  unfold share_budget, modify, mbind, ST_bind, st_bind. set (a2 := set_controls _ a).
  assert (Hbegin : ac_spawned (beginRequests (E := E) config (content_ids v) a2).2 = ac_spawned a) by exact (spawned_begin (content_ids v) a2).
  destruct (beginRequests config (content_ids v) a2) as [[rs|e] a3]; cbn [snd] in Hbegin.
  - destruct (accept_started v rs a3) as (l & Hl & Hs). exists l. rewrite Hl, Hbegin. split; [done|]. right. eauto.
  - apply Hsame. destruct e as [| |e| | | | | |]; try done. destruct e; try done. by rewrite (spawned_keep _ a3 (reject_slots _)).
Qed.

End Slots.

(** * Saves of concurrent goroutines *)

(** The goroutine that reads frames, the goroutines of requests and the writer each read the
    lease's snapshot, compute and save, with no lock over all of them: handleEncrypted, the
    functions under outcomeMu, and Writer.process.  Each has a step up to its save and a step
    that saves and goes on; the reader's first step includes beginRequests. *)
Record shared := {
  sv_lease : Session.Snapshot;
  sv_active : ActiveRequestRegistry;
  sv_inUse : Z;
  sv_reader : option ValidatedInbound;
  sv_mutator : option Session.Snapshot;
  sv_writer : option (Z * Session.Snapshot);
  sv_dispatched : list Z;
  sv_sent : list Z
}.

Definition with_lease (lease : Session.Snapshot) (s : shared) : shared :=
  {| sv_lease := lease; sv_active := sv_active s; sv_inUse := sv_inUse s; sv_reader := sv_reader s; sv_mutator := sv_mutator s;
     sv_writer := sv_writer s; sv_dispatched := sv_dispatched s; sv_sent := sv_sent s |}.
Definition with_registry (reg : ActiveRequestRegistry) (inUse : Z) (s : shared) : shared :=
  {| sv_lease := sv_lease s; sv_active := reg; sv_inUse := inUse; sv_reader := sv_reader s; sv_mutator := sv_mutator s;
     sv_writer := sv_writer s; sv_dispatched := sv_dispatched s; sv_sent := sv_sent s |}.
Definition with_reader (v : option ValidatedInbound) (started : list Z) (s : shared) : shared :=
  {| sv_lease := sv_lease s; sv_active := sv_active s; sv_inUse := sv_inUse s; sv_reader := v; sv_mutator := sv_mutator s;
     sv_writer := sv_writer s; sv_dispatched := sv_dispatched s ++ started; sv_sent := sv_sent s |}.
Definition with_mutator (next : option Session.Snapshot) (s : shared) : shared :=
  {| sv_lease := sv_lease s; sv_active := sv_active s; sv_inUse := sv_inUse s; sv_reader := sv_reader s; sv_mutator := next;
     sv_writer := sv_writer s; sv_dispatched := sv_dispatched s; sv_sent := sv_sent s |}.
Definition with_writer (next : option (Z * Session.Snapshot)) (sent : list Z) (s : shared) : shared :=
  {| sv_lease := sv_lease s; sv_active := sv_active s; sv_inUse := sv_inUse s; sv_reader := sv_reader s; sv_mutator := sv_mutator s;
     sv_writer := next; sv_dispatched := sv_dispatched s; sv_sent := sv_sent s ++ sent |}.

(** handleEncrypted up to its save: a refused envelope, one over the connection's capacity of
    running requests or with a request that is running, is dropped here. *)
Definition reader_begin (config : actor_config) (clock : nat -> nat -> Z) (inner : InnerData) (s : shared) : shared :=
  match sv_reader s with
  | Some _ => s
  | None =>
      match SessionValidator_Validate (cf_DecodeLimits config) clock (sv_lease s) inner with
      | Err _ => s
      | Ok v =>
          if cf_ActiveRequests config <? sv_inUse s + len (content_ids v) then s
          else
            match beginBatch (content_ids v) (sv_active s) with
            | (Err _, _) => s
            | (Ok ps, reg) => with_reader (Some v) [] (with_registry reg (sv_inUse s + len ps) s)
            end
      end
  end.

(** The save, and the requests routed with their reservations. *)
Definition reader_save (s : shared) : shared :=
  match sv_reader s with
  | None => s
  | Some v => with_lease (vi_Snapshot v) (with_reader None (content_ids v) s)
  end.

Definition mutator_begin (mutations : list SessionMutation) (s : shared) : shared :=
  match sv_mutator s with
  | Some _ => s
  | None => match ApplySessionMutations (E := writer_error) (sv_lease s) mutations with
            | Err _ => s
            | Ok next => with_mutator (Some next) s
            end
  end.

Definition mutator_save (s : shared) : shared :=
  match sv_mutator s with None => s | Some next => with_lease next (with_mutator None s) end.

(** The writer prepares one content-related message, saves and sends it. *)
Definition writer_begin (s : shared) : shared :=
  match sv_writer s with Some _ => s | None => with_writer (Some (nextSequenceNo (sv_lease s) true)) [] s end.

Definition writer_save (s : shared) : shared :=
  match sv_writer s with None => s | Some (n, next) => with_lease next (with_writer None [n] s) end.

(** The closure [complete] of a reservation. *)
Definition request_end (p : nat) (success : bool) (s : shared) : shared :=
  match r_requests (sv_active s) !! p with
  | None => s
  | Some q => if ar_once q then s else with_registry (complete p success (sv_active s)).2 (sv_inUse s - 1) s
  end.

Inductive save_event :=
| EnvelopeRead (clock : nat -> nat -> Z) (inner : InnerData)
| EnvelopeSave
| MutationRead (mutations : list SessionMutation)
| MutationSave
| WriterRead
| WriterSave
| RequestEnds (p : nat) (success : bool).

Definition save_step (config : actor_config) (s : shared) (ev : save_event) : shared :=
  match ev with
  | EnvelopeRead clock inner => reader_begin config clock inner s
  | EnvelopeSave => reader_save s
  | MutationRead mutations => mutator_begin mutations s
  | MutationSave => mutator_save s
  | WriterRead => writer_begin s
  | WriterSave => writer_save s
  | RequestEnds p success => request_end p success s
  end.

Definition interleave (config : actor_config) (evs : list save_event) (s : shared) : shared := foldl (save_step config) s evs.

(** ** Answering *)

(** The validation reads the session's id and salt and its replay memory only. *)
Definition same_inbound_state (s s' : Session.Snapshot) : Prop :=
  Session.sn_SessionID s' = Session.sn_SessionID s /\ Session.sn_ServerSalt s' = Session.sn_ServerSalt s /\ sn_SeqNo s' = sn_SeqNo s /\
  sn_LastClientMsgID s' = sn_LastClientMsgID s /\ sn_ClientMsgIDFloor s' = sn_ClientMsgIDFloor s /\
  sn_RecentClientMsgIDs s' = sn_RecentClientMsgIDs s /\ sn_RecentClientSeqNos s' = sn_RecentClientSeqNos s.

Lemma validate_same_inbound limits clock s s' inner v :
  same_inbound_state s s' -> SessionValidator_Validate limits clock s inner = Ok v ->
  (exists st, vi_Snapshot v = validated_snapshot s st) /\
  exists v', SessionValidator_Validate limits clock s' inner = Ok v' /\ content_ids v' = content_ids v.
Proof.
  intros (H2 & H3 & H4 & H6 & H7 & H8 & H9) Hv. unfold SessionValidator_Validate in *. destruct (len _ <? 4); [done|].
  assert (Hc : newProtocolValidator s' = newProtocolValidator s) by (unfold newProtocolValidator, protocol_config; by rewrite H2, H3, H4, H6, H7, H8, H9).
  rewrite Hc, H8. unfold mbind, result_bind in *. destruct (map_err InbDecode (NewDecodeBudget limits)) as [b0|]; [|done].
  destruct (classifyProtocolMessage _ _) as [[[m os] b]|]; [|done]. destruct (newProtocolValidator s) as [w0|]; [|done].
  destruct (validateLoop _ _ _ _ _ _) as [[w R]|]; [|done]. injection Hv as <-. split; [by eexists|]. by eexists.
Qed.

Lemma ApplySessionMutations_foldl (E : Type) mus s next : ApplySessionMutations (E := E) s mus = Ok next -> next = foldl apply_mutation s mus.
Proof.
  revert s. induction mus as [|mu mus IH]; intros s; cbn [ApplySessionMutations foldl]; [by intros [= ->]|].
  unfold mbind, result_bind. destruct (validateSessionMutation mu); [|done]. apply IH.
Qed.

(** Each request is answered, which takes a save of the writer, and ends. *)
Definition answered_and_ended (ps : list nat) : list save_event := concat (map (fun p => [WriterRead; WriterSave; RequestEnds p true]) ps).

Lemma answers_run config ps s ids :
  sv_writer s = None -> reg_ok (sv_active s) -> NoDup ps -> length ids = length ps ->
  (forall i id p, ids !! i = Some id -> ps !! i = Some p -> r_requests (sv_active s) !! p = Some {| ar_id := id; ar_ended := false; ar_once := false |}) ->
  let s' := interleave config (answered_and_ended ps) s in
  sv_active s' = complete_each ps true (sv_active s) /\ sv_inUse s' = sv_inUse s - len ps /\ same_inbound_state (sv_lease s) (sv_lease s') /\
  sv_reader s' = sv_reader s /\ sv_dispatched s' = sv_dispatched s.
Proof.
  intros Hw Hok Hnd. revert s ids Hw Hok. induction Hnd as [|p ps Hp _ IH]; intros s [|id ids] Hw Hok Hl Hrun; try done.
  { split_and!; [done|change (sv_inUse s = sv_inUse s - 0); lia|by repeat split|done|done]. }
  cbn [answered_and_ended map concat interleave app foldl save_step].
  pose proof (Hrun 0%nat id p eq_refl eq_refl) as Hq. unfold writer_begin. rewrite Hw. cbn [writer_save sv_writer with_writer nextSequenceNo].
  match goal with |- context [request_end p true ?s1] => set (s1' := s1) end.
  assert (He : request_end p true s1' = with_registry (complete p true (sv_active s)).2 (sv_inUse s - 1) s1') by (unfold request_end; change (sv_active s1') with (sv_active s); change (sv_inUse s1') with (sv_inUse s); by rewrite Hq).
  rewrite He. destruct (complete_running p id true (sv_active s) Hok Hq) as (A & _ & _ & D).
  destruct (IH (with_registry (complete p true (sv_active s)).2 (sv_inUse s - 1) s1') ids) as (H1 & H2 & H3 & H4 & H5); [done|done|cbn in Hl; lia| |].
  { intros i id' p' Hi Hp'. cbn [sv_active with_registry]. rewrite D; [by apply (Hrun (S i))|]. intros ->. apply Hp. by eapply list_elem_of_lookup_2. }
  unfold interleave, answered_and_ended in *. rewrite H1, H2, H4, H5. split_and!; [done|rewrite len_cons; cbn [sv_inUse with_registry]; lia| |done|].
  - unfold same_inbound_state in *. cbn in H3. destruct H3 as (?&?&?&?&?&?&?). by split_and!.
  - done.
Qed.

Lemma beginBatch_running ids ps r r1 :
  reg_ok r -> beginBatch ids r = (Ok ps, r1) ->
  reg_ok r1 /\ NoDup ps /\ length ids = length ps /\
  forall i id p, ids !! i = Some id -> ps !! i = Some p -> r_requests r1 !! p = Some {| ar_id := id; ar_ended := false; ar_once := false |}.
Proof.
  intros Hok Hb. pose proof (beginBatch_spec ids r Hok) as Hs. rewrite Hb in Hs. destruct Hs as (Hok1 & _). split; [done|].
  unfold beginBatch in Hb. destruct (checkBatch ∅ ids) as [[]|] eqn:E1; [|done]. destruct (Z.ltb_spec (r_capacity r) (Z.of_nat (size (r_active r)) + len ids)); [done|].
  destruct (checkActive (r_active r) ids) as [[]|] eqn:E2; [|done]. apply checkBatch_ok in E1 as (Hnd & H0 & _).
  pose proof (registerAll_spec ids r Hok Hnd H0 (proj1 (checkActive_ok _ _) E2) ltac:(lia)) as Hr.
  destruct (registerAll ids r) as [ps0 r0]. injection Hb as <- <-. destruct Hr as (_ & -> & C & _). split_and!; [apply NoDup_seq|by rewrite length_seq|].
  intros i id p Hi Hp. cbn [r_requests notifyLocked]. apply lookup_seq in Hp as [-> Hp].
  rewrite C, lookup_app_r, list_lookup_fmap by lia. by replace (length (r_requests r) + i - length (r_requests r))%nat with i by lia; rewrite Hi.
Qed.

(** C20. The saves of a session are not serialized and lose updates.  In every state where the
    three goroutines are idle, for every envelope that is accepted and whose requests may
    start, and for every valid mutation, there are interleavings in which (1) a request's
    mutation, read before the envelope was saved and saved after it, makes the session forget
    the envelope: after its requests were answered and ended, the same envelope is accepted and
    its requests are dispatched again; (2) the envelope's save undoes the mutation, the session
    being left as if it had never been made; (3) the envelope's save undoes the writer's, and
    two outgoing messages carry the same sequence number. *)
Theorem unserialized_saves_lose_updates config clock inner mutations s v ps reg next :
  sv_reader s = None -> sv_mutator s = None -> sv_writer s = None -> reg_ok (sv_active s) ->
  SessionValidator_Validate (cf_DecodeLimits config) clock (sv_lease s) inner = Ok v ->
  sv_inUse s + len (content_ids v) <= cf_ActiveRequests config -> beginBatch (content_ids v) (sv_active s) = (Ok ps, reg) ->
  ApplySessionMutations (E := writer_error) (sv_lease s) mutations = Ok next ->
  sv_dispatched (interleave config ([MutationRead mutations; EnvelopeRead clock inner; EnvelopeSave; MutationSave] ++
                   answered_and_ended ps ++ [EnvelopeRead clock inner; EnvelopeSave]) s) =
    sv_dispatched s ++ content_ids v ++ content_ids v /\
  sv_lease (interleave config [EnvelopeRead clock inner; MutationRead mutations; MutationSave; EnvelopeSave] s) =
    sv_lease (interleave config [EnvelopeRead clock inner; EnvelopeSave] s) /\
  exists n, sv_sent (interleave config [EnvelopeRead clock inner; WriterRead; WriterSave; EnvelopeSave; WriterRead; WriterSave] s) = sv_sent s ++ [n; n].
Proof.
  intros Hr0 Hm0 Hw0 Hok Hv Hcap Hb Hm.
  assert (Hread : forall s1, sv_reader s1 = None -> sv_lease s1 = sv_lease s -> sv_inUse s1 = sv_inUse s -> sv_active s1 = sv_active s ->
    reader_begin config clock inner s1 = with_reader (Some v) [] (with_registry reg (sv_inUse s + len ps) s1)).
  { intros s1 H1 H2 H3 H4. unfold reader_begin. by rewrite H1, H2, H3, H4, Hv, (proj2 (Z.ltb_ge _ _)), Hb by done. }
  pose proof (beginBatch_running _ _ _ _ Hok Hb) as (Hreg & Hnd & Hlen & Hrun).
  split; [|split].
  - set (t1 := mutator_save (reader_save (reader_begin config clock inner (mutator_begin mutations s)))).
    assert (Ht1 : t1 = {| sv_lease := next; sv_active := reg; sv_inUse := sv_inUse s + len ps; sv_reader := None; sv_mutator := None; sv_writer := None;
                          sv_dispatched := sv_dispatched s ++ content_ids v; sv_sent := sv_sent s |}).
    { unfold t1, mutator_begin. rewrite Hm0, Hm, Hread by done. unfold reader_save, mutator_save. unfold with_lease, with_mutator, with_reader, with_registry. cbn. by rewrite app_nil_r, Hw0. }
    unfold interleave. rewrite !foldl_app. cbn [foldl save_step]. fold t1. rewrite Ht1.
    match goal with |- context [foldl (save_step config) ?t (answered_and_ended ps)] => destruct (answers_run config ps t (content_ids v)) as (H1 & H2 & H3 & H4 & H5); try done end.
    unfold interleave in *. cbn [sv_active sv_inUse sv_lease sv_reader sv_dispatched] in *. set (t2 := foldl (save_step config) _ (answered_and_ended ps)) in *.
    assert (Hsame : same_inbound_state (sv_lease s) (sv_lease t2)).
    { rewrite (ApplySessionMutations_foldl _ _ _ _ Hm) in H3. destruct (mutations_same_protocol mutations (sv_lease s)) as (_&?&?&?&_&?&?&?&?).
      destruct H3 as (?&?&?&?&?&?&?). split_and!; congruence. }
    destruct (validate_same_inbound _ _ _ _ _ _ Hsame Hv) as (_ & v' & Hv' & Hids).
    destruct (beginBatch_again _ _ true _ _ Hok Hb) as (ps' & r2 & Hb2).
    unfold reader_begin. rewrite H4, Hv', H2, Hids, H1, (proj2 (Z.ltb_ge _ _)), Hb2 by (unfold len in *; lia).
    unfold reader_save. cbn. by rewrite H5, Hids, app_nil_r, <- app_assoc.
  - unfold interleave. cbn [foldl save_step]. rewrite Hread by done. unfold mutator_begin. cbn [sv_mutator sv_lease with_reader with_registry]. by rewrite Hm0, Hm.
  - destruct (validate_same_inbound _ _ (sv_lease s) (sv_lease s) _ _ ltac:(by repeat split) Hv) as ([st Hst] & _).
    unfold interleave. cbn [foldl save_step]. rewrite Hread by done. unfold writer_begin at 2. cbn [sv_writer with_reader with_registry]. rewrite Hw0.
    unfold writer_save, reader_save, writer_begin. cbn. rewrite Hst. eexists. by rewrite !app_nil_r, <- app_assoc.
Qed.

(** * Witnesses *)

Definition sample_request : InboundMessage :=
  {| im_MessageID := 12; im_SequenceNo := 1; im_ConstructorID := 0x04030201; im_Body := query; im_Dependencies := [];
     im_DecodeBudget := None; im_ContentRelated := true; im_SuppressPush := false; im_Retransmission := false |}.

Lemma acknowledgement_joins_answer_witness :
  outcomeWriteIntents [Push query; Contracts.RPCResult 12 query] sample_request = [Push query; Batch [Contracts.RPCResult 12 query; Acknowledge [12]]] /\
  Forall valid_intent (outcomeWriteIntents [Push query; Contracts.RPCResult 12 query] sample_request).
Proof.
  split; [done|]. apply (acknowledgement_joins_answer [Push query; Contracts.RPCResult 12 query] sample_request).
  - by repeat constructor.
  - done.
Defined.

(** A session of the sample writer with one request running; its connection admits two. *)
Definition sample_actor : actor (W := Writer (L := LocalCoordinator (S := MemoryStore) * nat)) :=
  {| ac_key := {| Session.AuthKeyID := 0; Session.SessionID := 7 |};
     ac_controls :=
       {| ct_outbound := sent_writer; ct_inbound := ct_inbound sample_controls;
          ct_active := (beginBatch [8] (ct_active sample_controls)).2; ct_cancelled := []; ct_budget := None |};
     ac_acceptsPush := true; ac_closing := false; ac_inUse := 1; ac_running := 1; ac_presence := []; ac_delays := []; ac_spawned := []; ac_ticks := 0 |}.

Definition sample_config : actor_config :=
  {| cf_DecodeLimits := zeroLimits; cf_Wrappers := {| wc_SchemaLayer := 1; wc_MaxDecodedPayload := 1024; wc_MaxDepth := 0 |};
     cf_NonSubscribingMethods := ∅; cf_ActiveRequests := 2 |}.

Definition sample_session := writer_session (L := LocalCoordinator (S := MemoryStore) * nat) WriterLoop.sample_now sample_random sample_write live_context.

Lemma admission_is_exact_witness :
  slots_after sample_config sample_actor
    (@handleEncrypted _ _ sample_session stored sample_config (fun _ => 0) (fun _ _ => Validator.sample_now) (single 1 1) sample_actor) /\
  slot_returned 0 sample_actor
    (@run_request _ _ sample_session (fun _ => 0) (fun _ => false) 0 sample_request (Some ErrInvokeAfterTimeout) (Err ActPanic) sample_actor).
Proof.
  destruct (@admission_is_exact _ _ sample_session stored sample_config (fun _ => 0) (fun _ => false) sample_actor) as [H1 H2].
  - by vm_compute.
  - split; [apply H1|]. apply H2. by vm_compute.
Defined.

Definition sample_shared : shared :=
  {| sv_lease := zero_Snapshot; sv_active := ct_active sample_controls; sv_inUse := 0; sv_reader := None; sv_mutator := None; sv_writer := None;
     sv_dispatched := []; sv_sent := [] |}.

Definition sample_validated : ValidatedInbound :=
  match SessionValidator_Validate zeroLimits (fun _ _ => Validator.sample_now) zero_Snapshot (single 1 1) with
  | Ok v => v
  | Err _ => {| vi_OuterMessageID := 0; vi_Envelope := sample_request; vi_Messages := []; vi_Snapshot := zero_Snapshot |}
  end.

Lemma unserialized_saves_lose_updates_witness :
  sv_dispatched (interleave sample_config ([MutationRead [BindUser 5]; EnvelopeRead (fun _ _ => Validator.sample_now) (single 1 1); EnvelopeSave; MutationSave] ++
    answered_and_ended [0%nat] ++ [EnvelopeRead (fun _ _ => Validator.sample_now) (single 1 1); EnvelopeSave]) sample_shared) = [sample_id 1; sample_id 1].
Proof.
  assert (Hids : content_ids sample_validated = [sample_id 1]) by (by vm_compute).
  destruct (unserialized_saves_lose_updates sample_config (fun _ _ => Validator.sample_now) (single 1 1) [BindUser 5] sample_shared sample_validated
    [0%nat] (beginBatch (content_ids sample_validated) (ct_active sample_controls)).2 (apply_mutation zero_Snapshot (BindUser 5))) as [H _].
  - reflexivity.
  - reflexivity.
  - reflexivity.
  - apply (New_registry_ok 4). reflexivity.
  - by vm_compute.
  - rewrite Hids. by vm_compute.
  - rewrite Hids. by vm_compute.
  - by vm_compute.
  - rewrite Hids in H. exact H.
Defined.
