(* ===== verification/Connection.v ===== *)
(** A connection (internal/runtime/connection.go, connection_handshake_ack.go): frames are
    decoded, plaintext goes to the handshake, encrypted messages to the session they name.

    The rest of the runtime is the environment of a connection, an interface: the key
    store, the handshake engine, the opening and the handling of sessions, the message
    ids and the transport's writes.  A frame, a session that ended, a timer that fired
    and the end of the connection are its events. *)

From stdpp Require Import base numbers list gmap strings.
From S2P Require Import Prelude Wire Session Crypto KeyExchange Tl Contracts Gzip InitConnection Normalize Handshake.
Open Scope Z_scope.

Inductive conn_error :=
| ErrConnectionConfig
| CnProtocol (reason : string)
| ErrHandshakeAuthKeyMismatch
| ConnectionSessionCapacityError (capacity : Z)
| CnLeaseLost
| CnCrypto (e : crypto_error)
| CnHandshake (e : handshake_error)
| CnRequest (e : request_error)
| CnSession
| CnWrite.

(** * The environment *)

Class Environment (V : Type) := {
  ev_Get : Z -> V -> result crypto_error bytes;
  ev_cacheable : Z -> V -> bool;
  ev_NewSession : ST V handshake_error nat;
  ev_Handle : nat -> Z -> bytes -> ST V handshake_error Output;
  ev_CloseHandshake : nat -> V -> V;
  ev_NextMessageID : V -> Z * V;
  ev_Open : SessionKey -> InnerData -> bytes -> option Result -> ST V conn_error nat;
  ev_HandleEncrypted : nat -> InnerData -> ST V conn_error unit;
  ev_Write : bytes -> ST V conn_error unit
}.

Section connection.
Context {V : Type} `{Henv : Environment V} `{Hplatform : Platform}.

Definition DefaultConnectionSessionCapacity : Z := 16.
Definition transportErrorAuthKeyNotFound : Z := -404.

(** [cn_timer] is the generation the disconnect timer was armed with; [cn_closed] whether the
    transport was closed, [cn_ended] what Run returned. *)
Record Connection := {
  cn_capacity : Z;
  cn_sessions : gmap SessionKey nat;
  cn_poisoned : gset SessionKey;
  cn_authKeyID : Z;
  cn_authKey : bytes;
  cn_pinned : bool;
  cn_cached : bool;
  cn_handshake : option nat;
  cn_authorization : option Result;
  cn_timer : option Z;
  cn_generation : Z;
  cn_disconnectClosed : bool;
  cn_closed : bool;
  cn_ended : option conn_error
}.

(** SessionCapacity: 0 selects the default. *)
Definition NewConnection (sessionCapacity : Z) : result conn_error Connection :=
  let capacity := default_if_zero sessionCapacity DefaultConnectionSessionCapacity in
  if capacity <? 0 then Err ErrConnectionConfig
  else Ok {| cn_capacity := capacity; cn_sessions := ∅; cn_poisoned := ∅; cn_authKeyID := 0; cn_authKey := []; cn_pinned := false;
             cn_cached := false; cn_handshake := None; cn_authorization := None; cn_timer := None; cn_generation := 0;
             cn_disconnectClosed := false; cn_closed := false; cn_ended := None |}.

Definition set_table (m : gmap SessionKey nat) (p : gset SessionKey) (c : Connection) : Connection :=
  {| cn_capacity := cn_capacity c; cn_sessions := m; cn_poisoned := p; cn_authKeyID := cn_authKeyID c; cn_authKey := cn_authKey c;
     cn_pinned := cn_pinned c; cn_cached := cn_cached c; cn_handshake := cn_handshake c; cn_authorization := cn_authorization c;
     cn_timer := cn_timer c; cn_generation := cn_generation c; cn_disconnectClosed := cn_disconnectClosed c; cn_closed := cn_closed c; cn_ended := cn_ended c |}.
Definition set_pin (id : Z) (key : option bytes) (c : Connection) : Connection :=
  {| cn_capacity := cn_capacity c; cn_sessions := cn_sessions c; cn_poisoned := cn_poisoned c; cn_authKeyID := id;
     cn_authKey := default (cn_authKey c) key; cn_pinned := true; cn_cached := match key with Some _ => true | None => cn_cached c end;
     cn_handshake := cn_handshake c; cn_authorization := cn_authorization c;
     cn_timer := cn_timer c; cn_generation := cn_generation c; cn_disconnectClosed := cn_disconnectClosed c; cn_closed := cn_closed c; cn_ended := cn_ended c |}.
Definition set_handshake (h : option nat) (a : option Result) (c : Connection) : Connection :=
  {| cn_capacity := cn_capacity c; cn_sessions := cn_sessions c; cn_poisoned := cn_poisoned c; cn_authKeyID := cn_authKeyID c; cn_authKey := cn_authKey c;
     cn_pinned := cn_pinned c; cn_cached := cn_cached c; cn_handshake := h; cn_authorization := a;
     cn_timer := cn_timer c; cn_generation := cn_generation c; cn_disconnectClosed := cn_disconnectClosed c; cn_closed := cn_closed c; cn_ended := cn_ended c |}.
Definition set_timer (t : option Z) (g : Z) (d cl : bool) (c : Connection) : Connection :=
  {| cn_capacity := cn_capacity c; cn_sessions := cn_sessions c; cn_poisoned := cn_poisoned c; cn_authKeyID := cn_authKeyID c; cn_authKey := cn_authKey c;
     cn_pinned := cn_pinned c; cn_cached := cn_cached c; cn_handshake := cn_handshake c; cn_authorization := cn_authorization c;
     cn_timer := t; cn_generation := g; cn_disconnectClosed := d; cn_closed := cl; cn_ended := cn_ended c |}.
Definition set_ended (e : conn_error) (c : Connection) : Connection :=
  {| cn_capacity := cn_capacity c; cn_sessions := cn_sessions c; cn_poisoned := cn_poisoned c; cn_authKeyID := cn_authKeyID c; cn_authKey := cn_authKey c;
     cn_pinned := cn_pinned c; cn_cached := cn_cached c; cn_handshake := cn_handshake c; cn_authorization := cn_authorization c;
     cn_timer := cn_timer c; cn_generation := cn_generation c; cn_disconnectClosed := cn_disconnectClosed c; cn_closed := true; cn_ended := Some e |}.

Abbreviation CN := (ST (Connection * V) conn_error).

Definition on_env {A E} (into : E -> conn_error) (op : ST V E A) : CN A := fun '(c, v) =>
  let '(r, v) := op v in (map_err into r, (c, v)).
Definition change (f : Connection -> Connection) : CN unit := fun '(c, v) => (Ok tt, (f c, v)).
Definition state : CN Connection := fun '(c, v) => (Ok c, (c, v)).

(** * Keys *)

(** connectionAuthKeySource.Get, for the pinned key or before one is pinned. *)
Definition source_Get (c : Connection) (v : V) (keyID : Z) : result crypto_error bytes :=
  if cn_pinned c && cn_cached c then Ok (cn_authKey c) else ev_Get keyID v.

(** DecodeFrame through that source, which refuses every key but the pinned one. *)
Definition decode (frame : bytes) : CN DecodedFrame := fun '(c, v) =>
  let keyID := le_get (take 8 frame) in
  if (24 <=? len frame) && negb (keyID =? 0) && cn_pinned c && negb (cn_authKeyID c =? keyID)
  then (Err (CnProtocol "different_auth_key"), (c, v))
  else (map_err CnCrypto (DecodeFrame frame (Some (source_Get c v))), (c, v)).

(** * Plaintext *)

Definition nextResponseMessageID : CN Z := fun '(c, v) => let '(id, v) := ev_NextMessageID v in (Ok (Z.lor (Z.ldiff id 3) 1), (c, v)).

(** Whether the message was an acknowledgement. *)
Definition handleHandshakeAcknowledgement (body : bytes) : CN bool :=
  c ← state;
  if (len body <? 4) || negb (le_get (take 4 body) =? MsgsAckID) then mret false
  else
    match cn_handshake c with
    | None => st_err (CnProtocol "")
    | Some _ =>
        match (decodeControlBudget body MsgsAck_DeserializeTL None).1 with
        | Ok _ => mret true
        | Err e => st_err (CnRequest e)
        end
    end.

(** A second key may be negotiated by starting over with req_pq. *)
Definition restart_handshake (data : bytes) : CN unit := fun '(c, v) =>
  match cn_authorization c with
  | None => (Ok tt, (c, v))
  | Some _ =>
      let constructor := le_get (take 4 data) in
      if negb (len data =? 20) || (negb (constructor =? reqPQMultiID) && negb (constructor =? reqPQID))
      then (Err (CnProtocol "unexpected_plaintext_after_handshake"), (c, v))
      else (Ok tt, (set_handshake None None c, match cn_handshake c with Some h => ev_CloseHandshake h v | None => v end))
  end.

Definition handshake_session : CN nat :=
  c ← state;
  match cn_handshake c with
  | Some h => mret h
  | None => h ← on_env CnHandshake ev_NewSession; _ ← change (set_handshake (Some h) (cn_authorization c)); mret h
  end.

Definition handleUnencrypted (m : UnencryptedMessage) : CN unit :=
  c ← state;
  if negb (bool_decide (cn_sessions c = ∅)) || cn_pinned c then st_err (CnProtocol "plaintext_after_encrypted")
  else
    acknowledged ← handleHandshakeAcknowledgement (um_Data m);
    if (acknowledged : bool) then mret tt
    else
      _ ← restart_handshake (um_Data m);
      h ← handshake_session;
      output ← on_env CnHandshake (ev_Handle h (um_MsgID m) (um_Data m));
      id ← nextResponseMessageID;
      _ ← on_env (fun e => e) (ev_Write (UnencryptedMessage_Serialize {| um_AuthKeyID := zeros 8; um_MsgID := id; um_Data := ou_Response output |}));
      match ou_Result output with
      | Some result => change (fun c => set_handshake (cn_handshake c) (Some result) c)
      | None => mret tt
      end.

(** * Sessions *)

Definition sessionFor (inner : InnerData) (keyID : Z) (authKey : bytes) : CN nat :=
  let key := {| Session.AuthKeyID := keyID; Session.SessionID := Crypto.SessionID inner |} in
  c ← state;
  if cn_pinned c && negb (cn_authKeyID c =? keyID) then st_err (CnProtocol "different_auth_key")
  else if bool_decide (key ∈ cn_poisoned c) then st_err CnLeaseLost
  else
    match cn_sessions c !! key with
    | Some actor => mret actor
    | None =>
        if cn_capacity c <=? Z.of_nat (size (cn_sessions c)) then st_err (ConnectionSessionCapacityError (cn_capacity c))
        else
          actor ← on_env (fun e => e) (ev_Open key inner authKey (cn_authorization c));
          _ ← (fun '(c, v) => (Ok tt, (set_pin keyID (if ev_cacheable keyID v then Some authKey else None) c, v)));
          _ ← change (fun c => set_table (<[key := actor]> (cn_sessions c)) (cn_poisoned c) c);
          mret actor
    end.

Definition handleEncrypted (inner : InnerData) (keyID : Z) (authKey : bytes) : CN unit :=
  c ← state;
  if match cn_authorization c with Some r => negb (re_AuthKeyID r =? keyID) | None => false end then st_err ErrHandshakeAuthKeyMismatch
  else actor ← sessionFor inner keyID authKey; on_env (fun e => e) (ev_HandleEncrypted actor inner).

(** A session ended, [lost] to another connection. *)
Definition removeSession (key : SessionKey) (actor : nat) (lost : bool) (c : Connection) : Connection :=
  if bool_decide (cn_sessions c !! key = Some actor) then
    let sessions := delete key (cn_sessions c) in
    if lost then
      let poisoned := {[key]} ∪ cn_poisoned c in
      let close := (Z.of_nat (size sessions) =? 0) || (cn_capacity c <=? Z.of_nat (size poisoned)) in
      let c := set_table sessions poisoned c in
      set_timer (cn_timer c) (cn_generation c) (cn_disconnectClosed c) (cn_closed c || close) c
    else set_table sessions (cn_poisoned c) c
  else c.

(** * The disconnect timer *)

Definition resetDisconnectDelay (c : Connection) : Connection :=
  if cn_disconnectClosed c then c
  else let g := uint64 (cn_generation c + 1) in set_timer (Some g) g false (cn_closed c) c.

(** The callback of the timer armed for [generation]: Stop may come too late for it. *)
Definition expireDisconnectDelay (generation : Z) (c : Connection) : Connection :=
  if cn_disconnectClosed c || negb (cn_generation c =? generation) then c
  else set_timer None (cn_generation c) true true c.

Definition stopDisconnectDelay (c : Connection) : Connection := set_timer None (uint64 (cn_generation c + 1)) true (cn_closed c) c.

(** Run returned [e]; the sessions end by themselves. *)
Definition shutdown (e : conn_error) : CN unit := fun '(c, v) =>
  (Ok tt, (set_ended e (stopDisconnectDelay c), match cn_handshake c with Some h => ev_CloseHandshake h v | None => v end)).

(** * Events *)

Inductive conn_event :=
| Received (frame : bytes)
| SessionEnded (key : SessionKey) (actor : nat) (lost : bool)
| DelayReset
| DelayExpired (generation : Z)
| ReadFailed (e : conn_error).

Definition writeTransportError (code : Z) : CN unit := on_env (fun e => e) (ev_Write (le_put 4 (uint32 code))).

(** One turn of the loop of Run. *)
Definition handle_frame (frame : bytes) : CN unit := fun cv =>
  match decode frame cv with
  | (Err e, cv) =>
      match e with
      | CnCrypto ErrAuthKeyNotFound => (_ ← writeTransportError transportErrorAuthKeyNotFound; st_err e) cv
      | _ => (Err e, cv)
      end
  | (Ok (Unencrypted m), cv) => handleUnencrypted m cv
  | (Ok (Encrypted inner keyID authKey), cv) => handleEncrypted inner keyID authKey cv
  end.

Definition conn_step (cv : Connection * V) (ev : conn_event) : Connection * V :=
  match ev with
  | Received frame =>
      match cn_ended cv.1 with
      | Some _ => cv
      | None => match handle_frame frame cv with (Ok _, cv) => cv | (Err e, cv) => (shutdown e cv).2 end
      end
  | ReadFailed e => match cn_ended cv.1 with Some _ => cv | None => (shutdown e cv).2 end
  | SessionEnded key actor lost => (removeSession key actor lost cv.1, cv.2)
  | DelayReset => (resetDisconnectDelay cv.1, cv.2)
  | DelayExpired g => (expireDisconnectDelay g cv.1, cv.2)
  end.

Definition conn_run (evs : list conn_event) (cv : Connection * V) : Connection * V := foldl conn_step cv evs.

(** * What a connection is confined to *)

(** The table of sessions with the pinned key. *)
Definition table (c : Connection) : Z * gmap SessionKey nat * gset SessionKey * Z * bool * bool :=
  (cn_capacity c, cn_sessions c, cn_poisoned c, cn_authKeyID c, cn_pinned c, cn_closed c).

Definition keeps_table {A} (m : CN A) : Prop := forall cv, table (m cv).2.1 = table cv.1.

Lemma kt_ret {A} (x : A) : keeps_table (mret x).
Proof. done. Qed.
Lemma kt_err {A} e : keeps_table (st_err (A := A) e).
Proof. done. Qed.
Lemma kt_bind {A B} (m : CN A) (f : A -> CN B) : keeps_table m -> (forall x, keeps_table (f x)) -> keeps_table (m ≫= f).
Proof.
  intros Hm Hf cv. unfold mbind, ST_bind, st_bind. specialize (Hm cv). destruct (m cv) as [[x|e] cv1]; cbn in *; [by rewrite (Hf x cv1)|done].
Qed.
Lemma kt_env {A E} (into : E -> conn_error) (op : ST V E A) : keeps_table (on_env into op).
Proof. intros [c v]. unfold on_env. by destruct (op v). Qed.
Lemma kt_change f : (forall c, table (f c) = table c) -> keeps_table (change f).
Proof. intros Hf [c v]. apply Hf. Qed.
Lemma kt_state : keeps_table state.
Proof. by intros []. Qed.
Lemma kt_next : keeps_table nextResponseMessageID.
Proof. intros [c v]. unfold nextResponseMessageID. by destruct (ev_NextMessageID v). Qed.
Lemma kt_restart data : keeps_table (restart_handshake data).
Proof. intros [c v]. unfold restart_handshake. destruct (cn_authorization c); [|done]. by destruct (_ || _). Qed.
Lemma kt_decode frame : keeps_table (decode frame).
Proof. intros [c v]. unfold decode. by destruct (_ && _). Qed.

Create HintDb table.
#[local] Hint Resolve kt_ret kt_err kt_env kt_state kt_next kt_restart kt_decode : table.
#[local] Hint Extern 2 (keeps_table (change _)) => apply kt_change; done : table.

Ltac walk :=
  repeat first
    [ progress cbv zeta
    | apply kt_bind; [|intros ?]
    | solve [eauto with table]
    | match goal with
      | |- keeps_table (if ?b then _ else _) => destruct b
      | |- keeps_table (match ?o with _ => _ end) => destruct o
      end ].

Lemma kt_unencrypted m : keeps_table (handleUnencrypted m).
Proof. unfold handleUnencrypted, handleHandshakeAcknowledgement, handshake_session. walk. Qed.

Record conn_ok (c : Connection) : Prop := {
  co_capacity : 0 < cn_capacity c;
  co_bound : Z.of_nat (size (cn_sessions c)) <= cn_capacity c;
  co_live k : is_Some (cn_sessions c !! k) -> cn_pinned c = true /\ AuthKeyID k = cn_authKeyID c;
  co_lost k : k ∈ cn_poisoned c -> cn_sessions c !! k = None /\ cn_pinned c = true /\ AuthKeyID k = cn_authKeyID c;
  co_tombs : cn_capacity c <= Z.of_nat (size (cn_poisoned c)) -> cn_closed c = true
}.

(** What no event takes back. *)
Record grows (c c' : Connection) : Prop := {
  gr_capacity : cn_capacity c' = cn_capacity c;
  gr_lost : cn_poisoned c ⊆ cn_poisoned c';
  gr_pin : cn_pinned c = true -> cn_pinned c' = true /\ cn_authKeyID c' = cn_authKeyID c;
  gr_closed : cn_closed c = true -> cn_closed c' = true
}.

#[local] Instance grows_preorder : PreOrder grows.
Proof.
  split; [by intros c; split|]. intros a b c [H1 H2 H3 H4] [H5 H6 H7 H8]. split; [congruence|set_solver| |auto].
  intros Hp. destruct (H3 Hp) as [Hp' He]. destruct (H7 Hp'). by split; [|congruence].
Qed.

(** The table and the transport after the same change. *)
Lemma ok_table c c' b : table c' = table (set_timer (cn_timer c) (cn_generation c) (cn_disconnectClosed c) (cn_closed c || b) c) -> conn_ok c -> conn_ok c' /\ grows c c'.
Proof.
  intros [= Hc Hs Hp Hk Hb Hcl] [H1 H2 H3 H4 H5]. split.
  - split; rewrite ?Hc, ?Hs, ?Hp, ?Hk, ?Hb, ?Hcl; try done. intros Ht. by rewrite H5.
  - split; rewrite ?Hc, ?Hp, ?Hk, ?Hb, ?Hcl; try done. by intros ->.
Qed.

Lemma ok_same c c' : table c' = table c -> conn_ok c -> conn_ok c' /\ grows c c'.
Proof. intros Ht. apply (ok_table c c' false). rewrite Ht. unfold table. cbn. by rewrite orb_false_r. Qed.

Lemma ok_keep {A} (m : CN A) cv : keeps_table m -> conn_ok cv.1 -> conn_ok (m cv).2.1 /\ grows cv.1 (m cv).2.1.
Proof. intros Hm. by apply ok_same. Qed.

(** Opening a session keeps the connection to one key. *)
Lemma ok_open key actor keyID cached (c : Connection) :
  conn_ok c -> AuthKeyID key = keyID -> (cn_pinned c = true -> cn_authKeyID c = keyID) -> key ∉ cn_poisoned c ->
  cn_sessions c !! key = None -> Z.of_nat (size (cn_sessions c)) < cn_capacity c ->
  let c' := set_table (<[key := actor]> (cn_sessions (set_pin keyID cached c))) (cn_poisoned (set_pin keyID cached c)) (set_pin keyID cached c) in
  conn_ok c' /\ grows c c'.
Proof.
  intros [H1 H2 H3 H4 H5] Hk Hpin Hnp Hno Hcap. cbn. split.
  - split; cbn; try done.
    + rewrite map_size_insert_None by done. lia.
    + intros k [a Ha]. split; [done|]. apply lookup_insert_Some in Ha as [[<- _]|[_ Ha]]; [done|]. destruct (H3 k) as [Hp He]; [by eexists|]. rewrite He. by apply Hpin.
    + intros k Hin. destruct (H4 k Hin) as (Hn & Hp & He). split_and!; [|done|rewrite He; by apply Hpin]. rewrite lookup_insert_ne by (by intros ->). done.
  - split; cbn; try done. intros Hp. split; [done|]. symmetry. by apply Hpin.
Qed.

Lemma ok_sessionFor inner keyID authKey cv : conn_ok cv.1 -> conn_ok (sessionFor inner keyID authKey cv).2.1 /\ grows cv.1 (sessionFor inner keyID authKey cv).2.1.
Proof.
  destruct cv as [c v]. intros Hok. unfold sessionFor, state, mbind, ST_bind, st_bind. cbv zeta. set (key := Build_SessionKey _ _).
  destruct (cn_pinned c && _) eqn:Ep; [by apply ok_same|]. case_bool_decide as Hpois; [by apply ok_same|].
  destruct (cn_sessions c !! key) as [actor|] eqn:Es; [by apply ok_same|]. destruct (_ <=? _) eqn:Ecap; [by apply ok_same|]. apply Z.leb_gt in Ecap.
  unfold on_env. destruct (ev_Open _ _ _ _ v) as [[actor|e] v1]; cbn [map_err]; [|by apply ok_same].
  apply ok_open; try done. intros Hp. cbn in Hp. rewrite Hp in Ep. cbn in Ep. apply negb_false_iff, Z.eqb_eq in Ep. done.
Qed.

Lemma ok_handle frame cv : conn_ok cv.1 -> conn_ok (handle_frame frame cv).2.1 /\ grows cv.1 (handle_frame frame cv).2.1.
Proof.
  intros Hok. unfold handle_frame. pose proof (kt_decode frame cv) as Hd. destruct (decode frame cv) as [r cv1]. cbn in Hd.
  destruct (ok_same _ _ Hd Hok) as [Hok1 Hg1]. destruct r as [[m|inner keyID authKey]|e].
  - destruct (ok_keep _ cv1 (kt_unencrypted m) Hok1). split; [done|]. by etrans.
  - unfold handleEncrypted, mbind, ST_bind, st_bind. destruct cv1 as [c v]. cbn [state]. destruct (match cn_authorization c with Some _ => _ | None => _ end); [done|].
    destruct (ok_sessionFor inner keyID authKey (c, v) Hok1) as [Hok2 Hg2]. destruct (sessionFor inner keyID authKey (c, v)) as [[actor|e] cv2]; cbn in *; [|split; [done|by etrans]].
    destruct (ok_keep _ cv2 (kt_env (fun e => e) (ev_HandleEncrypted actor inner)) Hok2). split; [done|]. by etrans; [exact Hg1|etrans].
  - assert (Hw : keeps_table (_ ← writeTransportError transportErrorAuthKeyNotFound; st_err (A := unit) e)) by (unfold writeTransportError; walk).
    assert (Hsame : conn_ok cv1.1 /\ grows cv.1 cv1.1) by done.
    destruct e; try exact Hsame. destruct e; try exact Hsame. destruct (ok_keep _ cv1 Hw Hok1). split; [done|]. by etrans.
Qed.

Lemma ok_remove key actor lost c : conn_ok c -> conn_ok (removeSession key actor lost c) /\ grows c (removeSession key actor lost c).
Proof.
  intros Hok. unfold removeSession. case_bool_decide as Hs; [|done]. destruct Hok as [H1 H2 H3 H4 H5]. destruct (H3 key) as [Hp He]; [by eexists|].
  assert (Hsize : (size (delete key (cn_sessions c)) <= size (cn_sessions c))%nat) by (rewrite map_size_delete, Hs; lia).
  destruct lost; (split; [split|split]); cbn; try done; try lia.
  - intros k [a Ha]. apply lookup_delete_Some in Ha as [_ Ha]. apply H3. by eexists.
  - intros k [->%elem_of_singleton|Hk]%elem_of_union; [by rewrite lookup_delete_eq|]. destruct (H4 k Hk) as (Hn & Hp' & He'). split_and!; [|done..]. apply lookup_delete_None. by right.
  - set_solver.
  - by intros ->.
  - intros k [a Ha]. apply lookup_delete_Some in Ha as [_ Ha]. apply H3. by eexists.
  - intros k Hk. destruct (H4 k Hk) as (Hn & Hp' & He'). split_and!; [|done..]. apply lookup_delete_None. by right.
Qed.

Lemma ok_shutdown e cv : conn_ok cv.1 -> conn_ok (shutdown e cv).2.1 /\ grows cv.1 (shutdown e cv).2.1.
Proof. destruct cv as [c v]. cbn. intros Hok. apply (ok_table c _ true); [|done]. unfold table. cbn. by rewrite orb_true_r. Qed.

Lemma ok_step cv ev : conn_ok cv.1 -> conn_ok (conn_step cv ev).1 /\ grows cv.1 (conn_step cv ev).1.
Proof.
  intros Hok. destruct ev as [frame|key actor lost| |g|e]; cbn [conn_step fst].
  - destruct (cn_ended cv.1); [done|]. destruct (ok_handle frame cv Hok) as [H1 H2]. destruct (handle_frame frame cv) as [[[]|e] cv1]; [done|].
    destruct (ok_shutdown e cv1 H1). split; [done|]. by etrans.
  - by apply ok_remove.
  - unfold resetDisconnectDelay. destruct (cn_disconnectClosed cv.1); [done|]. by apply ok_same.
  - unfold expireDisconnectDelay. destruct (_ || _); [done|]. apply (ok_table cv.1 _ true); [|done]. unfold table. cbn. by rewrite orb_true_r.
  - destruct (cn_ended cv.1); [done|]. by apply ok_shutdown.
Qed.

Lemma ok_run evs cv : conn_ok cv.1 -> conn_ok (conn_run evs cv).1 /\ grows cv.1 (conn_run evs cv).1.
Proof.
  revert cv. induction evs as [|ev evs IH]; intros cv Hok; [done|]. destruct (ok_step cv ev Hok) as [H1 H2]. destruct (IH _ H1) as [H3 H4].
  split; [exact H3|]. etrans; [exact H2|exact H4].
Qed.

(** The keys of the sessions that were lost to another connection while they were open. *)
Definition lost_by (c : Connection) (ev : conn_event) : gset SessionKey :=
  match ev with
  | SessionEnded key actor true => if bool_decide (cn_sessions c !! key = Some actor) then {[key]} else ∅
  | _ => ∅
  end.
Fixpoint lost_keys (evs : list conn_event) (cv : Connection * V) : gset SessionKey :=
  match evs with [] => ∅ | ev :: evs => lost_by cv.1 ev ∪ lost_keys evs (conn_step cv ev) end.

Lemma table_poisoned c c' : table c' = table c -> cn_poisoned c' = cn_poisoned c.
Proof. by intros [=]. Qed.

Lemma poisoned_sessionFor inner keyID authKey cv : cn_poisoned (sessionFor inner keyID authKey cv).2.1 = cn_poisoned cv.1.
Proof.
  destruct cv as [c v]. unfold sessionFor, state, mbind, ST_bind, st_bind. cbv zeta. destruct (_ && _); [done|]. case_bool_decide; [done|].
  destruct (cn_sessions c !! _); [done|]. destruct (_ <=? _); [done|]. unfold on_env. by destruct (ev_Open _ _ _ _ v) as [[actor|e] v1].
Qed.

Lemma poisoned_handle frame cv : cn_poisoned (handle_frame frame cv).2.1 = cn_poisoned cv.1.
Proof.
  unfold handle_frame. pose proof (table_poisoned _ _ (kt_decode frame cv)) as Hd. destruct (decode frame cv) as [r cv1]. cbn in Hd. rewrite <- Hd.
  destruct r as [[m|inner keyID authKey]|e].
  - apply table_poisoned, kt_unencrypted.
  - unfold handleEncrypted, mbind, ST_bind, st_bind. destruct cv1 as [c v]. cbn [state]. destruct (match cn_authorization c with Some _ => _ | None => _ end); [done|].
    pose proof (poisoned_sessionFor inner keyID authKey (c, v)) as Hs. destruct (sessionFor inner keyID authKey (c, v)) as [[actor|e] cv2]; cbn in *; [|done].
    rewrite <- Hs. apply table_poisoned, kt_env.
  - destruct e; try done. destruct e; try done. apply table_poisoned. unfold writeTransportError.
    assert (Hw : keeps_table (_ ← on_env (fun e => e) (ev_Write (le_put 4 (uint32 transportErrorAuthKeyNotFound))); st_err (A := unit) (CnCrypto ErrAuthKeyNotFound))) by walk.
    apply Hw.
Qed.

(** The tombstones are exactly the lost sessions. *)
Lemma poisoned_step ev cv : cn_poisoned (conn_step cv ev).1 = lost_by cv.1 ev ∪ cn_poisoned cv.1.
Proof.
  destruct ev as [frame|key actor lost| |g|e]; cbn [conn_step lost_by]; rewrite ?union_empty_l_L.
  - destruct (cn_ended cv.1); [done|]. pose proof (poisoned_handle frame cv) as Hh. destruct (handle_frame frame cv) as [[[]|e] [c v]]; exact Hh.
  - cbn [fst]. unfold removeSession. destruct lost; case_bool_decide; cbn; rewrite ?union_empty_l_L; done.
  - cbn [fst]. unfold resetDisconnectDelay. by destruct (cn_disconnectClosed _).
  - cbn [fst]. unfold expireDisconnectDelay. by destruct (_ || _).
  - destruct (cn_ended cv.1); [done|]. by destruct cv.
Qed.

Lemma poisoned_run evs cv : cn_poisoned (conn_run evs cv).1 = lost_keys evs cv ∪ cn_poisoned cv.1.
Proof.
  revert cv. induction evs as [|ev evs IH]; intros cv; cbn; [by rewrite union_empty_l_L|].
  change (foldl conn_step (conn_step cv ev) evs) with (conn_run evs (conn_step cv ev)). rewrite IH, poisoned_step. set_solver.
Qed.

(** C19. Whatever arrives and however its sessions end, a connection holds at most its capacity of
    sessions, all of one authorization key, the one of its first session; a session that was open
    and was lost to another connection is never opened on it again, when the lost ones reach the
    capacity or the last open session is lost the transport is closed, and sessions that ended
    otherwise leave no tombstone; once a session was opened, plaintext ends the connection. *)
Theorem connection_confined sessionCapacity c0 v evs evs' :
  NewConnection sessionCapacity = Ok c0 ->
  let s := conn_run evs (c0, v) in
  let s' := conn_run evs' s in
  Z.of_nat (size (cn_sessions s.1)) <= cn_capacity c0 /\
  (forall k k', is_Some (cn_sessions s.1 !! k) -> is_Some (cn_sessions s'.1 !! k') -> Session.AuthKeyID k' = Session.AuthKeyID k) /\
  cn_poisoned s.1 = lost_keys evs (c0, v) /\
  (forall k, k ∈ lost_keys evs (c0, v) -> cn_sessions s'.1 !! k = None) /\
  (cn_capacity c0 <= Z.of_nat (size (lost_keys evs (c0, v))) -> cn_closed s'.1 = true) /\
  (forall k actor, cn_sessions s.1 = {[k := actor]} -> cn_closed (conn_run (SessionEnded k actor true :: evs') s).1 = true) /\
  (forall k frame m, is_Some (cn_sessions s.1 !! k) -> cn_ended s'.1 = None -> (decode frame s').1 = Ok (Unencrypted m) ->
     cn_ended (conn_step s' (Received frame)).1 = Some (CnProtocol "plaintext_after_encrypted")).
Proof.
  intros Hnew s s'. assert (Hok0 : conn_ok c0 /\ cn_poisoned c0 = ∅).
  { unfold NewConnection, default_if_zero, DefaultConnectionSessionCapacity in Hnew. cbv zeta in Hnew. destruct (_ <? 0) eqn:E; [done|]. injection Hnew as <-. apply Z.ltb_ge in E.
    assert (0 < (if sessionCapacity =? 0 then 16 else sessionCapacity)) by (destruct (sessionCapacity =? 0) eqn:E0; bools; lia).
    split; [|done]. split; cbn; try done; try (rewrite ?map_size_empty, ?size_empty; lia). by intros k []. }
  destruct Hok0 as [Hok0 Hp0].
  destruct (ok_run evs (c0, v) Hok0) as [Hok Hg0]. fold s in Hok, Hg0. pose proof (gr_capacity _ _ Hg0) as Hcap. cbn [fst] in Hcap. destruct (ok_run evs' s Hok) as [Hok' Hg]. fold s' in Hok', Hg.
  assert (Hpin : forall k, is_Some (cn_sessions s.1 !! k) -> cn_pinned s'.1 = true /\ Session.AuthKeyID k = cn_authKeyID s'.1).
  { intros k Hk. destruct (co_live _ Hok k Hk) as [Hp He]. destruct (gr_pin _ _ Hg Hp) as [Hp' He']. by rewrite He, He'. }
  assert (Hlost : cn_poisoned s.1 = lost_keys evs (c0, v)) by (unfold s; rewrite poisoned_run; cbn [fst]; by rewrite Hp0, union_empty_r_L).
  rewrite <- Hlost. split_and!.
  - rewrite <- Hcap. apply (co_bound _ Hok).
  - intros k k' Hk Hk'. destruct (Hpin k Hk) as [_ He]. destruct (co_live _ Hok' k' Hk') as [_ He']. congruence.
  - done.
  - intros k Hk. apply (co_lost _ Hok'). by apply (gr_lost _ _ Hg).
  - intros Ht. apply (gr_closed _ _ Hg), (co_tombs _ Hok). by rewrite Hcap.
  - intros k actor Hone. cbn [conn_run foldl]. assert (Hok1 : conn_ok (conn_step s (SessionEnded k actor true)).1) by (cbn [conn_step fst]; by apply ok_remove).
    apply (gr_closed _ _ (proj2 (ok_run evs' _ Hok1))). cbn [conn_step fst]. unfold removeSession.
    rewrite Hone, lookup_singleton_eq, bool_decide_true by done. rewrite delete_singleton_eq, map_size_empty. cbn. by rewrite orb_true_r.
  - intros k frame m Hk Hend Hd. destruct (Hpin k Hk) as [Hp _]. cbn [conn_step]. rewrite Hend. unfold handle_frame.
    pose proof (kt_decode frame s') as Ht. destruct (decode frame s') as [r [c v1]]. cbn in Hd, Ht. subst r.
    unfold handleUnencrypted, state, mbind, ST_bind, st_bind. assert (Hp1 : cn_pinned c = true) by (by injection Ht as _ _ _ _ -> _). by rewrite Hp1, orb_true_r.
Qed.

End connection.

(** * Witness: an environment that opens every session under the toy key *)

Definition open_environment : Environment nat := {|
  ev_Get _ _ := Ok toy_key;
  ev_cacheable _ _ := true;
  ev_NewSession v := (Ok v, S v);
  ev_Handle _ _ _ v := (Ok {| ou_Response := []; ou_Result := None |}, v);
  ev_CloseHandshake _ v := v;
  ev_NextMessageID v := (Z.of_nat v, S v);
  ev_Open _ _ _ _ v := (Ok v, S v);
  ev_HandleEncrypted _ _ v := (Ok tt, v);
  ev_Write _ v := (Ok tt, v)
|}.

Definition toy_frame : bytes :=
  match encryptWithDirection (fun n => replicate n x55) toy_inner toy_key (AuthKey_ID toy_key) true with
  | Ok em => serializeEncryptedFrame em
  | Err _ => []
  end.

Definition toy_connection : Connection := match NewConnection 2 with Ok c => c | Err _ => set_ended CnSession (set_timer None 0 true true (Build_Connection 0 ∅ ∅ 0 [] false false None None None 0 true true None)) end.

(** Its session is opened, lost to another connection and not opened again. *)
Lemma connection_confined_witness :
  let s := @conn_run nat open_environment toy_platform [Received toy_frame; SessionEnded {| Session.AuthKeyID := AuthKey_ID toy_key; Session.SessionID := 2 |} 0 true] (toy_connection, O) in
  let s' := @conn_run nat open_environment toy_platform [Received toy_frame] s in
  cn_poisoned s.1 = {[ {| Session.AuthKeyID := AuthKey_ID toy_key; Session.SessionID := 2 |} ]} /\ cn_ended s'.1 = Some CnLeaseLost /\
  Z.of_nat (size (cn_sessions s.1)) <= 2.
Proof.
  assert (Hnew : NewConnection 2 = Ok toy_connection) by (by vm_compute).
  pose proof (@connection_confined nat open_environment toy_platform 2 toy_connection O
    [Received toy_frame; SessionEnded {| Session.AuthKeyID := AuthKey_ID toy_key; Session.SessionID := 2 |} 0 true] [Received toy_frame] Hnew) as [H _].
  change (cn_capacity toy_connection) with 2 in H. intros s s'. split; [vm_compute; reflexivity|]. split; [vm_compute; reflexivity|exact H].
Defined.
