(* ===== verification/PushRegistry.v ===== *)
(** Server push (runtime_push.go): the registry of the sessions a user can be reached
    on, kept by two indexes, and the publishing that reads it.

    Registrations are Go objects held by pointer from both indexes and from the
    publishers: the heap [pr_heap] holds them and a pointer is an index into it.  A
    call is a thread that alternates between critical sections of the registry's and
    the registration's mutex; [advance] runs one of them, and a history interleaves the
    steps of any number of threads. *)

From stdpp Require Import base numbers list gmap sorting strings.
From S2P Require Import Prelude Session.
Open Scope Z_scope.

(** * Data *)

Record Binding := {
  bd_ConnectionID : Z;
  bd_AuthKeyID : Z;
  bd_SessionID : Z;
  bd_LeaseGeneration : Z;
  bd_ServerSalt : Z;
  bd_UserID : Z;
  bd_Layer : Z
}.

#[export] Instance Binding_eq_dec : EqDecision Binding.
Proof. solve_decision. Defined.

(** Senders are compared by identity: a sender is the number of its object. *)
Record runtimePushBinding := {
  rb_binding : Binding;
  rb_sender : Z;
  rb_reachable : bool;
  rb_acceptsPush : bool
}.

(** [pr_server] is the schema layer of the server the registry reports to, if any. *)
Record runtimePushRegistry := {
  byKey : gmap SessionKey (list nat);
  byUser : gmap Z (gmap SessionKey (list nat));
  pr_server : option Z;
  pr_heap : list runtimePushBinding
}.

Inductive push_error :=
| ErrPushProjectorRequired
| ErrPushBindingChanged (b : Binding)
| ErrInvalidAuthKeyID
| ErrInvalidUserID
| ErrPushContext (e : Z)
| ErrProject (e : Z)
| ErrEncode (e : Z)
| ErrPush (e : Z).

#[export] Instance push_error_eq_dec : EqDecision push_error.
Proof. solve_decision. Defined.

Definition newRuntimePushRegistry (server : option Z) : runtimePushRegistry :=
  {| byKey := ∅; byUser := ∅; pr_server := server; pr_heap := [] |}.

Definition set_byKey (m : gmap SessionKey (list nat)) (r : runtimePushRegistry) : runtimePushRegistry :=
  {| byKey := m; byUser := byUser r; pr_server := pr_server r; pr_heap := pr_heap r |}.

Definition set_byUser (m : gmap Z (gmap SessionKey (list nat))) (r : runtimePushRegistry) : runtimePushRegistry :=
  {| byKey := byKey r; byUser := m; pr_server := pr_server r; pr_heap := pr_heap r |}.

Definition set_pr_heap (h : list runtimePushBinding) (r : runtimePushRegistry) : runtimePushRegistry :=
  {| byKey := byKey r; byUser := byUser r; pr_server := pr_server r; pr_heap := h |}.

Definition sessionKeyFromBinding (b : Binding) : SessionKey :=
  {| AuthKeyID := uint64 (bd_AuthKeyID b); SessionID := bd_SessionID b |}.

(** [r.byKey[key]] and [r.byUser[userID][key]]: absent entries read as empty slices. *)
Definition listed (r : runtimePushRegistry) (k : SessionKey) : list nat := default [] (byKey r !! k).

Definition bindings_of (r : runtimePushRegistry) (u : Z) : gmap SessionKey (list nat) := default ∅ (byUser r !! u).

Definition indexed (r : runtimePushRegistry) (u : Z) (k : SessionKey) : list nat :=
  default [] (bindings_of r u !! k).

(** * Helpers of the registry *)

Definition findRuntimePushBinding (r : runtimePushRegistry) (bindings : list nat) (sender : Z) : option nat :=
  snd <$> list_find (fun p => (rb_sender <$> pr_heap r !! p) = Some sender) bindings.

Definition runtimePushBindingRegistered (bindings : list nat) (target : nat) : bool :=
  bool_decide (target ∈ bindings).

(** [append(xs[:i], xs[i+1:]...)] at the first position of [target]. *)
Fixpoint remove_target (target : nat) (xs : list nat) : list nat :=
  match xs with
  | [] => []
  | x :: xs' => if Nat.eqb x target then xs' else x :: remove_target target xs'
  end.

Definition addUserLocked (key : SessionKey) (target : nat) (userID : Z) (r : runtimePushRegistry) : runtimePushRegistry :=
  set_byUser (<[userID := <[key := indexed r userID key ++ [target]]> (bindings_of r userID)]> (byUser r)) r.

Definition removeUserLocked (key : SessionKey) (target : nat) (userID : Z) (r : runtimePushRegistry) : runtimePushRegistry :=
  if userID =? 0 then r
  else
    let bindings := bindings_of r userID in
    let targets := remove_target target (indexed r userID key) in
    let bindings := if len targets =? 0 then delete key bindings else <[key := targets]> bindings in
    set_byUser (if Nat.eqb (size bindings) 0 then delete userID (byUser r) else <[userID := bindings]> (byUser r)) r.

(** * Presence: Update and Remove *)

Record update := { up_key : SessionKey; up_binding : Binding; up_sender : Z; up_acceptsPush : bool }.

Inductive notice := Bound (b : Binding) | Unbound (b : Binding).

Section Presence.

(** A sender's [ConnectionID() uint64], where it has one. *)
Variable ConnectionID : Z -> option Z.

Definition connectionIDFromRuntimeSender (sender : Z) : Z := default 0 (ConnectionID sender).

(** The binding [Update] registers for a snapshot. *)
Definition snapshot_binding (r : runtimePushRegistry) (snapshot : Snapshot) (leaseGeneration sender : Z) : Binding :=
  let layer := match pr_server r with
               | Some schemaLayer => if sn_Layer snapshot =? 0 then schemaLayer else sn_Layer snapshot
               | None => sn_Layer snapshot
               end in
  {| bd_ConnectionID := connectionIDFromRuntimeSender sender; bd_AuthKeyID := int64 (sn_AuthKeyID snapshot);
     bd_SessionID := sn_SessionID snapshot; bd_LeaseGeneration := leaseGeneration;
     bd_ServerSalt := sn_ServerSalt snapshot; bd_UserID := sn_UserID snapshot; bd_Layer := layer |}.

Definition new_update (r : runtimePushRegistry) (snapshot : Snapshot) (leaseGeneration sender : Z) (acceptsPush : bool) : update :=
  {| up_key := Snapshot_Key snapshot; up_binding := snapshot_binding r snapshot leaseGeneration sender;
     up_sender := sender; up_acceptsPush := acceptsPush |}.

End Presence.

Definition up_reachable (u : update) : bool := negb (bd_UserID (up_binding u) =? 0) && up_acceptsPush u.

Definition registration (u : update) : runtimePushBinding :=
  {| rb_binding := up_binding u; rb_sender := up_sender u; rb_reachable := up_reachable u;
     rb_acceptsPush := up_acceptsPush u |}.

Definition add_if_reachable (u : update) (target : nat) (r : runtimePushRegistry) : runtimePushRegistry :=
  if up_reachable u then addUserLocked (up_key u) target (bd_UserID (up_binding u)) r else r.

(** The new registration [Update] appends. *)
Definition insert_registration (u : update) (r : runtimePushRegistry) : runtimePushRegistry :=
  let target := length (pr_heap r) in
  let r := set_pr_heap (pr_heap r ++ [registration u]) r in
  let r := set_byKey (<[up_key u := listed r (up_key u) ++ [target]]> (byKey r)) r in
  add_if_reachable u target r.

(** The registration [Update] rewrites; its sender stays. *)
Definition rewrite_registration (u : update) (target : nat) (old : runtimePushBinding) (r : runtimePushRegistry)
  : runtimePushRegistry :=
  let r := removeUserLocked (up_key u) target (bd_UserID (rb_binding old)) r in
  let new := {| rb_binding := up_binding u; rb_sender := rb_sender old; rb_reachable := up_reachable u;
                rb_acceptsPush := up_acceptsPush u |} in
  add_if_reachable u target (set_pr_heap (<[target := new]> (pr_heap r)) r).

(** What [Remove] does with the registration at [target]. *)
Definition drop_registration (key : SessionKey) (target : nat) (old : runtimePushBinding) (r : runtimePushRegistry)
  : runtimePushRegistry :=
  let bindings := remove_target target (listed r key) in
  let r := set_byKey (if len bindings =? 0 then delete key (byKey r) else <[key := bindings]> (byKey r)) r in
  let r := removeUserLocked key target (bd_UserID (rb_binding old)) r in
  let gone := {| rb_binding := rb_binding old; rb_sender := rb_sender old; rb_reachable := false;
                 rb_acceptsPush := false |} in
  set_pr_heap (<[target := gone]> (pr_heap r)) r.

(** * Publishing *)

(** [excludedSession] and [excludedAuthKey]. *)
Record exclusion := { ex_session : option SessionKey; ex_authKey : option Z }.

Definition excluded (ex : exclusion) (key : SessionKey) : bool :=
  match ex_session ex with Some s => bool_decide (key = s) | None => false end ||
  match ex_authKey ex with Some a => AuthKeyID key =? a | None => false end.

(** The registrations of a user outside the excluded sessions, in the order in which
    Go visits the map. *)
Definition collect (r : runtimePushRegistry) (userID : Z) (ex : exclusion) : list nat :=
  mjoin ((fun kts => if excluded ex kts.1 then [] else kts.2) <$> map_to_list (bindings_of r userID)).

Definition collect_key (r : runtimePushRegistry) (authKeyID : Z) : list nat :=
  mjoin ((fun kts => if AuthKeyID kts.1 =? authKeyID then kts.2 else []) <$> map_to_list (byKey r)).

Definition sender_at (r : runtimePushRegistry) (p : nat) : option Z := rb_sender <$> pr_heap r !! p.

(** The senders [publish] pushes to. *)
Definition publish_senders (r : runtimePushRegistry) (userID : Z) (ex : exclusion) : list Z :=
  omap (sender_at r) (collect r userID ex).

Inductive audience :=
| ToUser (userID : Z) (ex : exclusion)
| ToAuthKey (authKeyID : Z).

Definition gather (a : audience) (r : runtimePushRegistry) : list nat :=
  match a with
  | ToUser userID ex => collect r userID ex
  | ToAuthKey authKeyID => collect_key r authKeyID
  end.

(** Whether the registration, as it is now, is one to project for. *)
Definition eligible (a : audience) (b : runtimePushBinding) : bool :=
  match a with
  | ToUser userID ex =>
      rb_reachable b && (bd_UserID (rb_binding b) =? userID) && negb (excluded ex (sessionKeyFromBinding (rb_binding b)))
  | ToAuthKey authKeyID => rb_acceptsPush b && (uint64 (bd_AuthKeyID (rb_binding b)) =? authKeyID)
  end.

Record projectedPushTarget := { pt_registration : nat; pt_binding : Binding }.

Definition still_current (a : audience) (target : projectedPushTarget) (b : runtimePushBinding) : bool :=
  match a with
  | ToUser _ _ => rb_reachable b && bool_decide (rb_binding b = pt_binding target)
  | ToAuthKey authKeyID =>
      rb_acceptsPush b && (uint64 (bd_AuthKeyID (rb_binding b)) =? authKeyID) &&
      bool_decide (rb_binding b = pt_binding target)
  end.

Definition ActiveUserIDs (r : runtimePushRegistry) : list Z :=
  merge_sort Z.le (filter (fun u => 0 < u) (map_to_list (byUser r)).*1).

Definition HasActiveUser (userID : Z) (r : runtimePushRegistry) : bool :=
  if userID <=? 0 then false else negb (Nat.eqb (size (bindings_of r userID)) 0).

Inductive event :=
| Notified (n : notice)
| Pushed (userID : Z) (sender : Z) (body : bytes)
| ProjectedPush (a : audience) (target : projectedPushTarget) (sender : Z) (body : bytes).

Section Publishing.

Variable TLObject : Type.
(** [encodeTLObject] and [encodeTLObjectWithLimitsForLayer object limit layer]. *)
Variable encodeTLObject : TLObject -> result Z bytes.
Variable encodeForLayer : TLObject -> Z -> Z -> result Z bytes.

Definition PushProjector : Type := Binding -> result Z TLObject.

Record job := { jb_audience : audience; jb_projector : PushProjector; jb_maxEncodedBytes : Z }.

(** Where a call stands between two critical sections. *)
Inductive thread :=
| UpdateLook (u : update)
| UpdateInsert (u : update)
| UpdateHold (u : update) (target : nat)
| RemoveLook (key : SessionKey) (sender : Z)
| RemoveHold (key : SessionKey) (sender : Z) (target : nat)
| Notify (n : notice)
| PublishStart (userID : Z) (ex : exclusion) (body : bytes)
| PublishSend (userID : Z) (body : bytes) (todo : list Z) (failures : list push_error)
| ProjectStart (j : job)
| ProjectExamine (j : job) (todo : list nat) (targets : list projectedPushTarget)
| ProjectNext (j : job) (todo : list projectedPushTarget) (failures : list push_error)
| ProjectPush (j : job) (target : projectedPushTarget) (body : bytes) (todo : list projectedPushTarget)
    (failures : list push_error)
| Returned (failures : list push_error).

(** What a step meets outside the registry: the context's error, and the error of the
    sender's [Push]. *)
Record surroundings := { sr_ctx : option Z; sr_push : option Z }.

Definition failed (e : option push_error) (failures : list push_error) : list push_error :=
  match e with Some e => failures ++ [e] | None => failures end.

(** The calls, from their arguments to their first critical section. *)
Definition Update (u : option update) : thread :=
  match u with Some u => UpdateLook u | None => Returned [] end.

Definition Remove (key : SessionKey) (sender : option Z) : thread :=
  match sender with Some s => RemoveLook key s | None => Returned [] end.

Definition publish (userID : Z) (ex : exclusion) (body : bytes) : thread :=
  if userID <=? 0 then Returned [] else PublishStart userID ex body.

Definition publishProjected (userID : Z) (ex : exclusion) (projector : option PushProjector) (maxEncodedBytes : Z) : thread :=
  if userID <=? 0 then Returned []
  else match projector with
       | None => Returned [ErrPushProjectorRequired]
       | Some p => ProjectStart {| jb_audience := ToUser userID ex; jb_projector := p; jb_maxEncodedBytes := maxEncodedBytes |}
       end.

Definition publishProjectedByAuthKey (authKeyID : Z) (projector : option PushProjector) (maxEncodedBytes : Z) : thread :=
  if authKeyID =? 0 then Returned []
  else match projector with
       | None => Returned [ErrPushProjectorRequired]
       | Some p => ProjectStart {| jb_audience := ToAuthKey authKeyID; jb_projector := p; jb_maxEncodedBytes := maxEncodedBytes |}
       end.

(** The server's entry points. *)
Definition publishContext (userID : Z) (ex : exclusion) (update : TLObject) : thread :=
  if userID <=? 0 then Returned [ErrInvalidUserID]
  else match encodeTLObject update with
       | Err e => Returned [ErrEncode e]
       | Ok body =>
           match ex_session ex with
           | Some s => publish userID {| ex_session := Some s; ex_authKey := None |} body
           | None => publish userID {| ex_session := None; ex_authKey := ex_authKey ex |} body
           end
       end.

Definition PublishExceptContext (userID : Z) (except : Binding) (update : TLObject) : thread :=
  publishContext userID {| ex_session := Some (sessionKeyFromBinding except); ex_authKey := None |} update.

Definition PublishExceptAuthKeyContext (userID excludedAuthKeyID : Z) (update : TLObject) : thread :=
  publishContext userID {| ex_session := None; ex_authKey := Some (uint64 excludedAuthKeyID) |} update.

Definition publishProjectedContext (userID : Z) (ex : exclusion) (projector : option PushProjector) (maxEncodedBytes : Z) : thread :=
  if userID <=? 0 then Returned [ErrInvalidUserID]
  else match projector with
       | None => Returned [ErrPushProjectorRequired]
       | Some _ => publishProjected userID ex projector maxEncodedBytes
       end.

Definition PublishProjectedByAuthKeyContext (authKeyID : Z) (projector : option PushProjector) (maxEncodedBytes : Z) : thread :=
  if authKeyID =? 0 then Returned [ErrInvalidAuthKeyID]
  else match projector with
       | None => Returned [ErrPushProjectorRequired]
       | Some _ => publishProjectedByAuthKey authKeyID projector maxEncodedBytes
       end.

(** The observer is told after the locks are released, if there is a server. *)
Definition notify (r : runtimePushRegistry) (changed : bool) (n : notice) : thread :=
  if changed && bool_decide (is_Some (pr_server r)) then Notify n else Returned [].

(** [pushProjectedIfCurrent] and [pushProjectedByAuthKeyIfCurrent]. *)
Definition pushProjectedIfCurrent (env : surroundings) (a : audience) (target : projectedPushTarget) (body : bytes)
    (r : runtimePushRegistry) : option push_error * list event :=
  match pr_heap r !! pt_registration target with
  | None => (None, [])
  | Some b =>
      if still_current a target b
      then (ErrPush <$> sr_push env, [ProjectedPush a target (rb_sender b) body])
      else (Some (ErrPushBindingChanged (pt_binding target)), [])
  end.

(** [Update]: the lookup, and the two ways it continues. *)
Definition update_look (u : update) (r : runtimePushRegistry) : thread * runtimePushRegistry * list event :=
  match findRuntimePushBinding r (listed r (up_key u)) (up_sender u) with
  | None => (UpdateInsert u, r, [])
  | Some target => (UpdateHold u target, r, [])
  end.

Definition update_insert (u : update) (r : runtimePushRegistry) : thread * runtimePushRegistry * list event :=
  match findRuntimePushBinding r (listed r (up_key u)) (up_sender u) with
  | Some _ => (UpdateLook u, r, [])
  | None => (notify r true (Bound (up_binding u)), insert_registration u r, [])
  end.

Definition update_rewrite (u : update) (target : nat) (r : runtimePushRegistry) : thread * runtimePushRegistry * list event :=
  match pr_heap r !! target with
  | Some old =>
      if runtimePushBindingRegistered (listed r (up_key u)) target
      then (notify r (bool_decide (rb_binding old <> up_binding u)) (Bound (up_binding u)),
            rewrite_registration u target old r, [])
      else (UpdateLook u, r, [])
  | None => (UpdateLook u, r, [])
  end.

(** [Remove]: the lookup and the removal. *)
Definition remove_look (key : SessionKey) (sender : Z) (r : runtimePushRegistry) : thread * runtimePushRegistry * list event :=
  match findRuntimePushBinding r (listed r key) sender with
  | None => (Returned [], r, [])
  | Some target => (RemoveHold key sender target, r, [])
  end.

Definition remove_drop (key : SessionKey) (sender : Z) (target : nat) (r : runtimePushRegistry)
  : thread * runtimePushRegistry * list event :=
  match pr_heap r !! target with
  | Some old =>
      if bool_decide (findRuntimePushBinding r (listed r key) sender = Some target)
      then (notify r true (Unbound (rb_binding old)), drop_registration key target old r, [])
      else (RemoveLook key sender, r, [])
  | None => (RemoveLook key sender, r, [])
  end.

(** [publish]: one sender of the loop. *)
Definition publish_send (env : surroundings) (userID : Z) (body : bytes) (todo : list Z) (failures : list push_error)
    (r : runtimePushRegistry) : thread * runtimePushRegistry * list event :=
  match todo with
  | [] => (Returned failures, r, [])
  | sender :: todo =>
      (PublishSend userID body todo (failed (ErrPush <$> sr_push env) failures), r, [Pushed userID sender body])
  end.

(** [publishProjected] and [publishProjectedByAuthKey]: one registration of the first
    loop, read under its mutex. *)
Definition project_examine (j : job) (todo : list nat) (targets : list projectedPushTarget) (r : runtimePushRegistry)
  : thread * runtimePushRegistry * list event :=
  match todo with
  | [] => (ProjectNext j targets [], r, [])
  | p :: todo =>
      match pr_heap r !! p with
      | Some b =>
          (ProjectExamine j todo
             (if eligible (jb_audience j) b
              then targets ++ [{| pt_registration := p; pt_binding := rb_binding b |}] else targets), r, [])
      | None => (ProjectExamine j todo targets, r, [])
      end
  end.

(** One target of the second loop, up to its push. *)
Definition project_next (env : surroundings) (j : job) (todo : list projectedPushTarget) (failures : list push_error)
    (r : runtimePushRegistry) : thread * runtimePushRegistry * list event :=
  match todo with
  | [] => (Returned failures, r, [])
  | target :: todo =>
      match sr_ctx env with
      | Some e => (Returned (failures ++ [ErrPushContext e]), r, [])
      | None =>
          match jb_projector j (pt_binding target) with
          | Err e => (ProjectNext j todo (failures ++ [ErrProject e]), r, [])
          | Ok object =>
              match encodeForLayer object (jb_maxEncodedBytes j) (bd_Layer (pt_binding target)) with
              | Err e => (ProjectNext j todo (failures ++ [ErrEncode e]), r, [])
              | Ok body => (ProjectPush j target body todo failures, r, [])
              end
          end
      end
  end.

(** One critical section of a call. *)
Definition advance (env : surroundings) (th : thread) (r : runtimePushRegistry)
  : thread * runtimePushRegistry * list event :=
  match th with
  | UpdateLook u => update_look u r
  | UpdateInsert u => update_insert u r
  | UpdateHold u target => update_rewrite u target r
  | RemoveLook key sender => remove_look key sender r
  | RemoveHold key sender target => remove_drop key sender target r
  | Notify n => (Returned [], r, [Notified n])
  | PublishStart userID ex body => (PublishSend userID body (publish_senders r userID ex) [], r, [])
  | PublishSend userID body todo failures => publish_send env userID body todo failures r
  | ProjectStart j => (ProjectExamine j (gather (jb_audience j) r) [], r, [])
  | ProjectExamine j todo targets => project_examine j todo targets r
  | ProjectNext j todo failures => project_next env j todo failures r
  | ProjectPush j target body todo failures =>
      let '(e, evs) := pushProjectedIfCurrent env (jb_audience j) target body r in
      (ProjectNext j todo (failed e failures), r, evs)
  | Returned failures => (Returned failures, r, [])
  end.

(** * Histories *)

Variable ConnectionID : Z -> option Z.

(** The calls other components make: a session announces a snapshot or its end, the
    application publishes.  A snapshot's key id is a [uint64]. *)
Inductive started (r : runtimePushRegistry) : thread -> Prop :=
| started_update snapshot generation sender accepts :
    inU 64 (sn_AuthKeyID snapshot) ->
    started r (Update ((fun s => new_update ConnectionID r snapshot generation s accepts) <$> sender))
| started_remove key sender : started r (Remove key sender)
| started_publish userID ex object : started r (publishContext userID ex object)
| started_projected userID ex projector limit : started r (publishProjectedContext userID ex projector limit)
| started_projected_key authKeyID projector limit :
    started r (PublishProjectedByAuthKeyContext authKeyID projector limit).

Record system := { sy_registry : runtimePushRegistry; sy_threads : gmap nat thread }.

Definition initial (server : option Z) : system :=
  {| sy_registry := newRuntimePushRegistry server; sy_threads := ∅ |}.

Inductive history (server : option Z) : system -> Prop :=
| history_init : history server (initial server)
| history_start s t th :
    history server s -> sy_threads s !! t = None -> started (sy_registry s) th ->
    history server {| sy_registry := sy_registry s; sy_threads := <[t := th]> (sy_threads s) |}
| history_step s t th env th' r' evs :
    history server s -> sy_threads s !! t = Some th -> advance env th (sy_registry s) = (th', r', evs) ->
    history server {| sy_registry := r'; sy_threads := <[t := th']> (sy_threads s) |}.

(** * The invariant of the registry *)

Definition key_at (b : runtimePushBinding) : SessionKey := sessionKeyFromBinding (rb_binding b).

Definition user_at (b : runtimePushBinding) : Z := bd_UserID (rb_binding b).

(** The registration [p] is [b] and is registered. *)
Definition registered (r : runtimePushRegistry) (p : nat) (b : runtimePushBinding) : Prop :=
  pr_heap r !! p = Some b /\ p ∈ listed r (key_at b).

(** The index by user holds no empty map and no empty slice. *)
Definition tidy (m : gmap Z (gmap SessionKey (list nat))) : Prop :=
  forall u mk, m !! u = Some mk -> mk <> ∅ /\ forall k, mk !! k <> Some [].

Record wf (r : runtimePushRegistry) : Prop := {
  wf_listed k p : p ∈ listed r k -> exists b, pr_heap r !! p = Some b /\ key_at b = k;
  wf_nodup k : NoDup (listed r k);
  wf_senders k p q : p ∈ listed r k -> q ∈ listed r k -> sender_at r p = sender_at r q -> p = q;
  wf_reachable p b : registered r p b -> rb_reachable b = negb (user_at b =? 0) && rb_acceptsPush b;
  wf_gone p b : pr_heap r !! p = Some b -> p ∉ listed r (key_at b) -> rb_reachable b = false /\ rb_acceptsPush b = false;
  wf_index u k p : p ∈ indexed r u k <->
    exists b, registered r p b /\ key_at b = k /\ user_at b = u /\ rb_reachable b = true;
  wf_index_nodup u k : NoDup (indexed r u k);
  wf_tidy_keys k : byKey r !! k <> Some [];
  wf_tidy_users : tidy (byUser r)
}.

(** What a call in progress knows. *)
Definition fits (a : audience) (b : Binding) : Prop :=
  match a with
  | ToUser userID ex => bd_UserID b = userID /\ excluded ex (sessionKeyFromBinding b) = false
  | ToAuthKey authKeyID => uint64 (bd_AuthKeyID b) = authKeyID
  end.

Definition owned_by (r : runtimePushRegistry) (k : SessionKey) (sender : Z) (p : nat) : Prop :=
  exists b, pr_heap r !! p = Some b /\ key_at b = k /\ rb_sender b = sender.

Definition update_ok (u : update) : Prop := sessionKeyFromBinding (up_binding u) = up_key u.

Definition thread_ok (r : runtimePushRegistry) (th : thread) : Prop :=
  match th with
  | UpdateLook u | UpdateInsert u => update_ok u
  | UpdateHold u p => update_ok u /\ owned_by r (up_key u) (up_sender u) p
  | RemoveHold k s p => owned_by r k s p
  | ProjectExamine j todo targets => Forall (fun p => is_Some (pr_heap r !! p)) todo /\
      Forall (fun t => fits (jb_audience j) (pt_binding t) /\ is_Some (pr_heap r !! pt_registration t)) targets
  | ProjectNext j targets _ =>
      Forall (fun t => fits (jb_audience j) (pt_binding t) /\ is_Some (pr_heap r !! pt_registration t)) targets
  | ProjectPush j target body targets _ =>
      Forall (fun t => fits (jb_audience j) (pt_binding t) /\ is_Some (pr_heap r !! pt_registration t)) (target :: targets) /\
      exists object, jb_projector j (pt_binding target) = Ok object /\
        encodeForLayer object (jb_maxEncodedBytes j) (bd_Layer (pt_binding target)) = Ok body
  | _ => True
  end.

(** ** Indexes *)

Lemma indexed_add r k p u u' k' :
  indexed (addUserLocked k p u r) u' k' =
  if bool_decide (u' = u /\ k' = k) then indexed r u k ++ [p] else indexed r u' k'.
Proof.
  unfold addUserLocked, indexed at 1, bindings_of at 1, set_byUser. cbn [byUser].
  destruct (decide (u' = u)) as [->|Hu].
  - rewrite lookup_insert_eq. simpl. destruct (decide (k' = k)) as [->|Hk].
    + rewrite lookup_insert_eq, bool_decide_true by done. done.
    + rewrite lookup_insert_ne, bool_decide_false by naive_solver. done.
  - rewrite lookup_insert_ne, bool_decide_false by naive_solver. done.
Qed.

Lemma len_zero_nil {A} (xs : list A) : (len xs =? 0) = true -> xs = [].
Proof. by destruct xs. Qed.

Lemma indexed_remove r k p u u' k' :
  u <> 0 ->
  indexed (removeUserLocked k p u r) u' k' =
  if bool_decide (u' = u /\ k' = k) then remove_target p (indexed r u k) else indexed r u' k'.
Proof.
  intros Hu0. unfold removeUserLocked. rewrite (proj2 (Z.eqb_neq _ _) Hu0). cbv zeta.
  set (m := if len _ =? 0 then _ else _).
  assert (Hm : default [] (m !! k') = if bool_decide (k' = k) then remove_target p (indexed r u k)
                                      else default [] (bindings_of r u !! k')).
  { subst m. destruct (len _ =? 0) eqn:El; destruct (decide (k' = k)) as [->|Hk].
    - rewrite lookup_delete_eq, bool_decide_true by done. symmetry. by apply len_zero_nil.
    - by rewrite lookup_delete_ne, bool_decide_false by done.
    - by rewrite lookup_insert_eq, bool_decide_true by done.
    - by rewrite lookup_insert_ne, bool_decide_false by done. }
  unfold indexed at 1, bindings_of at 1, set_byUser. cbn [byUser].
  destruct (decide (u' = u)) as [->|Hu].
  - rewrite (bool_decide_ext (u = u /\ k' = k) (k' = k)) by naive_solver.
    etransitivity; [|exact Hm]. destruct (Nat.eqb (size m) 0) eqn:Es.
    + rewrite lookup_delete_eq. apply Nat.eqb_eq, map_size_empty_iff in Es. rewrite Es.
      cbn. by rewrite !lookup_empty.
    + by rewrite lookup_insert_eq.
  - rewrite bool_decide_false by naive_solver. unfold indexed, bindings_of.
    destruct (Nat.eqb (size m) 0); [rewrite lookup_delete_ne|rewrite lookup_insert_ne]; done.
Qed.

Lemma elem_of_remove_target p q xs :
  NoDup xs -> q ∈ remove_target p xs <-> q ∈ xs /\ q <> p.
Proof.
  induction 1 as [|x xs Hx Hxs IH]; simpl; [set_solver|].
  destruct (Nat.eqb_spec x p) as [->|Hne]; set_solver.
Qed.

Lemma NoDup_remove_target p xs : NoDup xs -> NoDup (remove_target p xs).
Proof.
  induction 1 as [|x xs Hx Hxs IH]; simpl; [constructor|].
  destruct (Nat.eqb_spec x p) as [->|Hne]; [done|]. constructor; [|done].
  rewrite elem_of_remove_target by done. naive_solver.
Qed.

Lemma removeUserLocked_frame k p u r :
  byKey (removeUserLocked k p u r) = byKey r /\ pr_heap (removeUserLocked k p u r) = pr_heap r /\
  pr_server (removeUserLocked k p u r) = pr_server r.
Proof. unfold removeUserLocked. by destruct (u =? 0). Qed.

Lemma tidy_inner m u k : tidy m -> (default ∅ (m !! u) : gmap SessionKey (list nat)) !! k <> Some [].
Proof.
  intros Ht. destruct (m !! u) as [mk|] eqn:E; simpl; [by apply (Ht _ _ E)|by rewrite lookup_empty].
Qed.

Lemma tidy_add k p u r : tidy (byUser r) -> tidy (byUser (addUserLocked k p u r)).
Proof.
  intros Ht u' mk. simpl. rewrite lookup_insert_Some. intros [[<- <-]|[_ E]]; [|by apply (Ht u')].
  split; [apply insert_non_empty|]. intros k'. rewrite lookup_insert_Some.
  intros [[_ E]|[_ E]]; [by destruct (indexed r u k)|]. by apply (tidy_inner _ _ _ Ht) in E.
Qed.

Lemma tidy_remove k p u r : tidy (byUser r) -> tidy (byUser (removeUserLocked k p u r)).
Proof.
  intros Ht. unfold removeUserLocked. destruct (u =? 0); [done|]. intros u' mk. simpl.
  set (m := if len _ =? 0 then _ else _).
  assert (Hm : forall k', m !! k' <> Some []).
  { intros k'. subst m. destruct (len _ =? 0) eqn:El.
    - rewrite lookup_delete_Some. intros [_ E]. by apply (tidy_inner _ _ _ Ht) in E.
    - rewrite lookup_insert_Some. intros [[_ E]|[_ E]]; [by rewrite E in El|by apply (tidy_inner _ _ _ Ht) in E]. }
  destruct (Nat.eqb_spec (size m) 0) as [Es|Es].
  - rewrite lookup_delete_Some. intros [_ E]. by apply (Ht u').
  - rewrite lookup_insert_Some. intros [[<- <-]|[_ E]]; [|by apply (Ht u')].
    split; [|done]. intros ->. by rewrite map_size_empty in Es.
Qed.

Lemma listed_tidy m k xs :
  default [] ((if len xs =? 0 then delete k m else <[k := xs]> m : gmap SessionKey (list nat)) !! k) = xs.
Proof.
  destruct (len xs =? 0) eqn:E; [rewrite lookup_delete_eq|by rewrite lookup_insert_eq].
  symmetry. by apply len_zero_nil.
Qed.

Lemma reachable_user r p b : wf r -> registered r p b -> rb_reachable b = true -> user_at b <> 0.
Proof. intros W H. rewrite (wf_reachable _ W _ _ H). destruct (Z.eqb_spec (user_at b) 0); naive_solver. Qed.

(** Taking a registration out of the index of its user takes it out of every index. *)
Lemma index_without r p old k u' k' :
  wf r -> registered r p old -> key_at old = k ->
  NoDup (indexed (removeUserLocked k p (user_at old) r) u' k') /\
  forall q, q ∈ indexed (removeUserLocked k p (user_at old) r) u' k' <-> q ∈ indexed r u' k' /\ q <> p.
Proof.
  intros W Hp Hk.
  assert (Hin : p ∈ indexed r u' k' -> u' = user_at old /\ k' = k /\ user_at old <> 0).
  { intros (b & Hb & <- & <- & Hr)%(wf_index _ W). destruct Hp as [Hp Hl], Hb as [Hb Hl']. simplify_eq.
    split_and!; [done..|]. by apply (reachable_user r p). }
  destruct (decide (user_at old = 0)) as [E|E].
  { unfold removeUserLocked. rewrite E. simpl. split; [apply W|]. intros q. split; [|by intros []].
    intros Hq. split; [done|]. intros ->. naive_solver. }
  rewrite indexed_remove by done. destruct (decide (u' = user_at old /\ k' = k)) as [[-> ->]|Hne].
  - rewrite bool_decide_true by done. split; [by apply NoDup_remove_target, W|]. intros q.
    apply elem_of_remove_target, W.
  - rewrite bool_decide_false by done. split; [apply W|]. naive_solver.
Qed.

(** ** A registration renewed, in place or new *)

Section Renewed.
Context (r r' : runtimePushRegistry) (p : nat) (new : runtimePushBinding) (W : wf r).
Hypothesis heap_p : pr_heap r' !! p = Some new.
Hypothesis heap_other : forall q, q <> p -> pr_heap r' !! q = pr_heap r !! q.
Hypothesis listed_elem : forall k q, q ∈ listed r' k <-> (q ∈ listed r k /\ q <> p) \/ (q = p /\ k = key_at new).
Hypothesis fresh_sender : forall q, q ∈ listed r (key_at new) -> q <> p -> sender_at r q <> Some (rb_sender new).
Hypothesis listed_nodup : forall k, NoDup (listed r' k).
Hypothesis new_reachable : rb_reachable new = negb (user_at new =? 0) && rb_acceptsPush new.
Hypothesis index_nodup : forall u k, NoDup (indexed r' u k).
Hypothesis index_elem : forall u k q, q ∈ indexed r' u k <->
  (q ∈ indexed r u k /\ q <> p) \/ (q = p /\ rb_reachable new = true /\ u = user_at new /\ k = key_at new).
Hypothesis tidy_keys : forall k, byKey r' !! k <> Some [].
Hypothesis tidy_users : tidy (byUser r').

Lemma registered_other q b : q <> p -> registered r' q b <-> registered r q b.
Proof. intros Hq. unfold registered. rewrite heap_other, listed_elem by done. naive_solver. Qed.

Lemma registered_new b : registered r' p b <-> b = new.
Proof. unfold registered. rewrite heap_p. split; [naive_solver|]. intros ->. split; [done|]. apply listed_elem. auto. Qed.

Lemma sender_other q : q <> p -> sender_at r' q = sender_at r q.
Proof. intros. unfold sender_at. by rewrite heap_other. Qed.

Lemma sender_new : sender_at r' p = Some (rb_sender new).
Proof. unfold sender_at. by rewrite heap_p. Qed.

Lemma wf_renewed : wf r'.
Proof.
  split; [| |intros k q1 q2| | | | | |]; try assumption.
  - intros k q [[Hq Hne]|[-> ->]]%listed_elem; [|eauto].
    rewrite heap_other by done. by apply (wf_listed _ W).
  - rewrite !listed_elem. intros [[H1 N1]|[-> E1]] [[H2 N2]|[-> E2]]; subst; try done.
    + rewrite !sender_other by done. by apply (wf_senders _ W k).
    + rewrite sender_other, sender_new by done. intros E. by destruct (fresh_sender q1 H1 N1).
    + rewrite sender_new, sender_other by done. intros E. symmetry in E. by destruct (fresh_sender q2 H2 N2).
  - intros q b. destruct (decide (q = p)) as [->|Hq]; [by intros ->%registered_new|].
    intros H%registered_other; [|done]. by apply (wf_reachable _ W) in H.
  - intros q b Hb Hl. destruct (decide (q = p)) as [->|Hq].
    { rewrite heap_p in Hb. simplify_eq. destruct Hl. apply listed_elem. auto. }
    rewrite heap_other in Hb by done. apply (wf_gone _ W q); [done|]. contradict Hl. apply listed_elem. auto.
  - intros u k q. rewrite index_elem. destruct (decide (q = p)) as [->|Hq].
    + setoid_rewrite registered_new. naive_solver.
    + rewrite (wf_index _ W). setoid_rewrite registered_other; [naive_solver|done].
Qed.
End Renewed.

Lemma index_with u p r0 r u' k' :
  (NoDup (indexed r0 u' k') /\ forall q, q ∈ indexed r0 u' k' <-> q ∈ indexed r u' k' /\ q <> p) ->
  NoDup (indexed (add_if_reachable u p r0) u' k') /\
  forall q, q ∈ indexed (add_if_reachable u p r0) u' k' <->
    (q ∈ indexed r u' k' /\ q <> p) \/
    (q = p /\ up_reachable u = true /\ u' = bd_UserID (up_binding u) /\ k' = up_key u).
Proof.
  intros [Hn Hq]. unfold add_if_reachable. destruct (up_reachable u); [|naive_solver].
  rewrite indexed_add. case_bool_decide as E; [|naive_solver]. destruct E as [-> ->]. split.
  - apply NoDup_app. split_and!; [done| |apply NoDup_singleton]. intros q H%Hq. set_solver.
  - intros q. rewrite elem_of_app, list_elem_of_singleton, Hq. naive_solver.
Qed.

Lemma add_if_reachable_frame u p r :
  byKey (add_if_reachable u p r) = byKey r /\ pr_heap (add_if_reachable u p r) = pr_heap r /\
  pr_server (add_if_reachable u p r) = pr_server r.
Proof. unfold add_if_reachable. by destruct (up_reachable u). Qed.

Lemma tidy_add_if u p r : tidy (byUser r) -> tidy (byUser (add_if_reachable u p r)).
Proof. intros. unfold add_if_reachable. destruct (up_reachable u); [by apply tidy_add|done]. Qed.

Lemma find_None r ps s q :
  findRuntimePushBinding r ps s = None -> q ∈ ps -> sender_at r q <> Some s.
Proof.
  unfold findRuntimePushBinding. destruct (list_find _ _) as [[i x]|] eqn:E; [done|]. intros _ Hq.
  apply list_find_None in E. rewrite Forall_forall in E. by apply E.
Qed.

Lemma find_Some r ps s q : findRuntimePushBinding r ps s = Some q -> q ∈ ps /\ sender_at r q = Some s.
Proof.
  unfold findRuntimePushBinding. destruct (list_find _ _) as [[i x]|] eqn:E; [|done]. intros [= <-].
  apply list_find_Some in E as (Hl & Hs & _). split; [by eapply list_elem_of_lookup_2|done].
Qed.

Lemma listed_insert r k xs k' :
  listed (set_byKey (<[k := xs]> (byKey r)) r) k' = if bool_decide (k' = k) then xs else listed r k'.
Proof.
  unfold listed. simpl. case_bool_decide as E; [subst; by rewrite lookup_insert_eq|by rewrite lookup_insert_ne].
Qed.

Lemma insert_registration_frame u r :
  pr_heap (insert_registration u r) = pr_heap r ++ [registration u] /\
  forall k, listed (insert_registration u r) k =
    if bool_decide (k = up_key u) then listed r (up_key u) ++ [length (pr_heap r)] else listed r k.
Proof.
  unfold insert_registration. set (r0 := set_byKey _ _).
  destruct (add_if_reachable_frame u (length (pr_heap r)) r0) as (Fk & Fh & _). split; [by rewrite Fh|].
  intros k. unfold listed at 1. rewrite Fk. apply (listed_insert (set_pr_heap (pr_heap r ++ [registration u]) r)).
Qed.

Lemma insert_registration_wf u r :
  wf r -> update_ok u -> findRuntimePushBinding r (listed r (up_key u)) (up_sender u) = None ->
  wf (insert_registration u r).
Proof.
  intros W Hu Hf. destruct (insert_registration_frame u r) as [Fh Hlist].
  set (p := length (pr_heap r)) in Hlist. unfold insert_registration in *. fold p in Fh, Hlist |- *. set (r0 := set_byKey _ _) in *.
  assert (Hfresh : forall k q, q ∈ listed r k -> q <> p).
  { intros k q (b & Hb & _)%(wf_listed _ W) ->. apply lookup_lt_Some in Hb. unfold p in Hb. lia. }
  assert (Hix : forall u' k', NoDup (indexed r0 u' k') /\ forall q, q ∈ indexed r0 u' k' <-> q ∈ indexed r u' k' /\ q <> p).
  { intros u' k'. split; [apply (wf_index_nodup _ W)|]. intros q. change (indexed r0 u' k') with (indexed r u' k').
    split; [|by intros []]. intros Hq. split; [done|]. apply (wf_index _ W) in Hq as (b & [_ Hb] & _). by eapply Hfresh. }
  apply (wf_renewed r _ p (registration u)); [done|..].
  - rewrite Fh. by apply list_lookup_middle.
  - intros q Hq. rewrite Fh. simpl. destruct (decide (q < length (pr_heap r))%nat); [by apply lookup_app_l|].
    unfold p in Hq. rewrite !lookup_ge_None_2; [done|lia|]. rewrite length_app. simpl. lia.
  - intros k q. rewrite Hlist. change (key_at (registration u)) with (sessionKeyFromBinding (up_binding u)). rewrite Hu.
    case_bool_decide; [subst; rewrite elem_of_app, list_elem_of_singleton|]; naive_solver.
  - intros q. change (key_at (registration u)) with (sessionKeyFromBinding (up_binding u)). rewrite Hu.
    intros Hq _. by eapply find_None.
  - intros k. rewrite Hlist. case_bool_decide; [|apply W]. apply NoDup_app.
    split_and!; [apply W| |apply NoDup_singleton]. intros q ?%Hfresh. set_solver.
  - done.
  - intros. by apply (index_with _ _ _ r).
  - intros u' k' q. change (key_at (registration u)) with (sessionKeyFromBinding (up_binding u)). rewrite Hu.
    by apply (index_with _ _ _ r).
  - intros k. rewrite (proj1 (add_if_reachable_frame u p r0)). simpl. rewrite lookup_insert_Some.
    intros [[_ E]|[_ E]]; [by destruct (listed _ _)|by apply (wf_tidy_keys _ W) in E].
  - apply tidy_add_if. apply W.
Qed.

Lemma registered_listed r k p old :
  wf r -> pr_heap r !! p = Some old -> p ∈ listed r k -> key_at old = k /\ registered r p old.
Proof.
  intros W Hp Hl. destruct (wf_listed _ W _ _ Hl) as (b & Hb & Hk). simplify_eq. done.
Qed.

Lemma only_listed_once r p old k q : wf r -> registered r p old -> q ∈ listed r k -> q = p -> k = key_at old.
Proof. intros W [Hp _] Hl ->. destruct (wf_listed _ W _ _ Hl) as (b & Hb & <-). by simplify_eq. Qed.

Lemma rewrite_registration_wf u p old r :
  wf r -> update_ok u -> pr_heap r !! p = Some old -> p ∈ listed r (up_key u) -> rb_sender old = up_sender u ->
  wf (rewrite_registration u p old r).
Proof.
  intros W Hu Hp Hl Hs. destruct (registered_listed _ _ _ _ W Hp Hl) as [Hk Hr].
  unfold rewrite_registration. set (r0 := removeUserLocked _ _ _ r). set (new := Build_runtimePushBinding _ _ _ _).
  set (r1 := set_pr_heap _ r0). destruct (add_if_reachable_frame u p r1) as (Fk & Fh & _).
  destruct (removeUserLocked_frame (up_key u) p (bd_UserID (rb_binding old)) r) as (Gk & Gh & _).
  fold r0 in Gk, Gh. assert (Hkn : key_at new = up_key u) by done.
  assert (Hlist : forall k, listed (add_if_reachable u p r1) k = listed r k).
  { intros k. unfold listed. rewrite Fk. simpl. by rewrite Gk. }
  pose proof (fun u' k' => index_without r p old (up_key u) u' k' W Hr Hk) as Hix.
  apply (wf_renewed r _ p new); [done|..].
  - rewrite Fh. simpl. rewrite Gh. apply list_lookup_insert_eq. by eapply lookup_lt_Some.
  - intros q Hq. rewrite Fh. simpl. rewrite Gh. by apply list_lookup_insert_ne.
  - intros k q. rewrite Hlist, Hkn. split; [|intros [[]|[-> ->]]; done].
    intros Hq. destruct (decide (q = p)) as [E|]; [right|by left]. split; [done|].
    rewrite (only_listed_once r p old k q); auto.
  - intros q Hq Hne E. rewrite Hkn in Hq. destruct Hne. apply (wf_senders _ W (up_key u)); [done..|].
    rewrite E. unfold sender_at. by rewrite Hp.
  - intros k. rewrite Hlist. apply W.
  - done.
  - intros u' k'. apply (index_with u p r1 r). apply Hix.
  - intros u' k' q. rewrite Hkn. apply (index_with u p r1 r). apply Hix.
  - intros k. rewrite Fk. simpl. rewrite Gk. apply (wf_tidy_keys _ W).
  - apply tidy_add_if. simpl. by apply tidy_remove, W.
Qed.

Lemma drop_registration_frame k p old r :
  pr_heap (drop_registration k p old r) =
    <[p := {| rb_binding := rb_binding old; rb_sender := rb_sender old; rb_reachable := false; rb_acceptsPush := false |}]> (pr_heap r) /\
  forall k', listed (drop_registration k p old r) k' =
    if bool_decide (k' = k) then remove_target p (listed r k) else listed r k'.
Proof.
  unfold drop_registration. set (r0 := set_byKey _ r).
  destruct (removeUserLocked_frame k p (bd_UserID (rb_binding old)) r0) as (Gk & Gh & _). simpl. split; [by rewrite Gh|].
  intros k'. unfold listed at 1. simpl. rewrite Gk. simpl. case_bool_decide as E; [subst; apply listed_tidy|].
  unfold listed. destruct (len _ =? 0); [by rewrite lookup_delete_ne|by rewrite lookup_insert_ne].
Qed.

Lemma drop_registration_listed k p old r k' q :
  wf r -> pr_heap r !! p = Some old -> p ∈ listed r k ->
  q ∈ listed (drop_registration k p old r) k' <-> q ∈ listed r k' /\ q <> p.
Proof.
  intros W Hp Hl. destruct (registered_listed _ _ _ _ W Hp Hl) as [Hk Hr].
  rewrite (proj2 (drop_registration_frame k p old r)). case_bool_decide as E; [subst; apply elem_of_remove_target, W|].
  split; [|by intros []]. intros Hq. split; [done|]. intros ->. destruct E.
  rewrite (only_listed_once r p old k' p); auto.
Qed.

Lemma drop_registration_wf k p old r :
  wf r -> pr_heap r !! p = Some old -> p ∈ listed r k -> wf (drop_registration k p old r).
Proof.
  intros W Hp Hl. destruct (registered_listed _ _ _ _ W Hp Hl) as [Hk Hr].
  pose proof (drop_registration_frame k p old r) as [Hh Hlist].
  pose proof (fun k' q => drop_registration_listed k p old r k' q W Hp Hl) as Hel.
  unfold drop_registration in Hh, Hlist, Hel |- *. set (r0 := set_byKey _ r) in *. set (r1 := removeUserLocked _ _ _ r0) in *.
  set (gone := Build_runtimePushBinding _ _ _ _) in *. set (r2 := set_pr_heap _ r1) in *.
  destruct (removeUserLocked_frame k p (bd_UserID (rb_binding old)) r0) as (Gk & Gh & _). fold r1 in Gk, Gh.
  assert (Hheap : forall q, pr_heap r2 !! q = if bool_decide (q = p) then Some gone else pr_heap r !! q).
  { intros q. rewrite Hh. case_bool_decide as E; [subst|by rewrite list_lookup_insert_ne].
    apply list_lookup_insert_eq. by eapply lookup_lt_Some. }
  pose proof (fun u' k' => index_without r p old k u' k' W Hr Hk) as Hix.
  assert (Hreg : forall q b, registered r2 q b <-> registered r q b /\ q <> p).
  { intros q b. unfold registered. rewrite Hheap, Hel. case_bool_decide; naive_solver. }
  assert (Hi : forall u' k', indexed r2 u' k' = indexed (removeUserLocked k p (user_at old) r) u' k').
  { intros. subst r2 r1 r0. unfold removeUserLocked, user_at. destruct (bd_UserID (rb_binding old) =? 0); reflexivity. }
  split.
  - intros k' q [Hq Hne]%Hel. rewrite Hheap, bool_decide_false by done. by apply (wf_listed _ W).
  - intros k'. rewrite Hlist. case_bool_decide; [apply NoDup_remove_target|]; apply W.
  - intros k' q1 q2 [H1 N1]%Hel [H2 N2]%Hel. unfold sender_at. rewrite !Hheap, !bool_decide_false by done.
    by apply (wf_senders _ W k').
  - intros q b [H _]%Hreg. by apply (wf_reachable _ W) in H.
  - intros q b. rewrite Hheap, Hel. case_bool_decide as E; [intros [= <-]; done|].
    intros Hb Hn. apply (wf_gone _ W q); [done|]. naive_solver.
  - intros u' k' q. rewrite Hi, (proj2 (Hix u' k') q), (wf_index _ W). setoid_rewrite Hreg. naive_solver.
  - intros u' k'. rewrite Hi. apply (Hix u' k').
  - intros k'. simpl. rewrite Gk. simpl. destruct (len _ =? 0) eqn:El.
    + rewrite lookup_delete_Some. intros [_ E]. by apply (wf_tidy_keys _ W) in E.
    + rewrite lookup_insert_Some. intros [[_ E]|[_ E]]; [by rewrite E in El|by apply (wf_tidy_keys _ W) in E].
  - apply tidy_remove. apply W.
Qed.

(** ** What publishing reads *)

Lemma elem_of_mjoin_map {A} (f : SessionKey -> list A -> list A) (m : gmap SessionKey (list A)) (x : A) :
  x ∈ mjoin ((fun kv => f kv.1 kv.2) <$> map_to_list m) <-> exists k v, m !! k = Some v /\ x ∈ f k v.
Proof.
  rewrite list_elem_of_join. setoid_rewrite list_elem_of_fmap. split.
  - intros (l & Hx & [k v] & -> & H%elem_of_map_to_list). eauto.
  - intros (k & v & H & Hx). exists (f k v). split; [done|]. exists (k, v). split; [done|]. by apply elem_of_map_to_list.
Qed.

Lemma elem_of_collect r u ex p :
  p ∈ collect r u ex <-> exists k, p ∈ indexed r u k /\ excluded ex k = false.
Proof.
  unfold collect. rewrite (elem_of_mjoin_map (fun k v => if excluded ex k then [] else v)). split.
  - intros (k & v & Hv & Hp). destruct (excluded ex k) eqn:E; [set_solver|]. exists k. unfold indexed. by rewrite Hv.
  - intros (k & Hp & E). unfold indexed in Hp. destruct (bindings_of r u !! k) as [v|] eqn:Ev; [|set_solver].
    exists k, v. by rewrite E.
Qed.

Lemma elem_of_collect_key r a p :
  p ∈ collect_key r a <-> exists k, p ∈ listed r k /\ AuthKeyID k = a.
Proof.
  unfold collect_key. rewrite (elem_of_mjoin_map (fun k v => if AuthKeyID k =? a then v else [])). split.
  - intros (k & v & Hv & Hp). destruct (Z.eqb_spec (AuthKeyID k) a) as [E|]; [|set_solver]. exists k. unfold listed. by rewrite Hv.
  - intros (k & Hp & E). unfold listed in Hp. destruct (byKey r !! k) as [v|] eqn:Ev; [|set_solver].
    exists k, v. by rewrite E, Z.eqb_refl.
Qed.

Lemma NoDup_mjoin {A} (ls : list (list A)) :
  Forall NoDup ls ->
  (forall i j l1 l2 x, ls !! i = Some l1 -> ls !! j = Some l2 -> x ∈ l1 -> x ∈ l2 -> i = j) ->
  NoDup (mjoin ls).
Proof.
  induction 1 as [|l ls Hl Hls IH]; intros Hd; simpl; [constructor|]. apply NoDup_app. split_and!; [done| |].
  - intros x Hx (l2 & Hx2 & (j & Hj)%list_elem_of_lookup)%list_elem_of_join.
    by pose proof (Hd 0%nat (S j) l l2 x eq_refl Hj Hx Hx2).
  - apply IH. intros i j l1 l2 x H1 H2 X1 X2. by pose proof (Hd (S i) (S j) l1 l2 x H1 H2 X1 X2) as [= ?].
Qed.

Lemma NoDup_collect r u ex : wf r -> NoDup (collect r u ex).
Proof.
  intros W. apply NoDup_mjoin.
  - apply Forall_fmap, Forall_forall. intros [k v] H%elem_of_map_to_list. simpl.
    destruct (excluded ex k); [constructor|]. pose proof (wf_index_nodup _ W u k) as Hn. unfold indexed in Hn. by rewrite H in Hn.
  - intros i j l1 l2 x. rewrite !list_lookup_fmap.
    destruct (map_to_list _ !! i) as [[k1 v1]|] eqn:E1; [|done]. destruct (map_to_list _ !! j) as [[k2 v2]|] eqn:E2; [|done].
    simpl. intros [= <-] [= <-] X1 X2.
    destruct (excluded ex k1); [set_solver|]. destruct (excluded ex k2); [set_solver|].
    assert (Hk : forall n k v, map_to_list (bindings_of r u) !! n = Some (k, v) -> x ∈ v -> x ∈ indexed r u k).
    { intros n k v H Hx. apply list_elem_of_lookup_2, elem_of_map_to_list in H. unfold indexed. by rewrite H. }
    apply (Hk _ _ _ E1), (wf_index _ W) in X1 as (b1 & [H1 _] & K1 & _).
    apply (Hk _ _ _ E2), (wf_index _ W) in X2 as (b2 & [H2 _] & K2 & _). simplify_eq.
    eapply (NoDup_lookup (map_to_list (bindings_of r u)).*1); [apply NoDup_fst_map_to_list|..].
    + rewrite list_lookup_fmap, E1. done.
    + rewrite list_lookup_fmap, E2. done.
Qed.

Lemma gather_valid a r p : wf r -> p ∈ gather a r -> is_Some (pr_heap r !! p).
Proof.
  intros W. destruct a; simpl.
  - intros (k & (b & [H _] & _)%(wf_index _ W) & _)%elem_of_collect. eauto.
  - intros (k & (b & H & _)%(wf_listed _ W) & _)%elem_of_collect_key. eauto.
Qed.

(** ** Steps *)

(** Registrations keep their session and their sender, also after they are removed. *)
Definition keeps (r r' : runtimePushRegistry) : Prop :=
  forall p b, pr_heap r !! p = Some b ->
    exists b', pr_heap r' !! p = Some b' /\ key_at b' = key_at b /\ rb_sender b' = rb_sender b.

Lemma keeps_refl r : keeps r r.
Proof. intros p b. eauto. Qed.

Lemma keeps_is_Some r r' p : keeps r r' -> is_Some (pr_heap r !! p) -> is_Some (pr_heap r' !! p).
Proof. intros K [b (b' & H & _)%K]. eauto. Qed.

Lemma keeps_owned r r' k s p : keeps r r' -> owned_by r k s p -> owned_by r' k s p.
Proof. intros K (b & (b' & H & Hk & Hs)%K & <- & <-). exists b'. done. Qed.

Lemma keeps_insert r r' p old new :
  pr_heap r !! p = Some old -> pr_heap r' = <[p := new]> (pr_heap r) -> key_at new = key_at old ->
  rb_sender new = rb_sender old -> keeps r r'.
Proof.
  intros Hp Hh Hk Hs q b Hq. rewrite Hh. destruct (decide (q = p)) as [->|Hne].
  - assert (b = old) as -> by congruence. exists new. split; [|done]. apply list_lookup_insert_eq. by eapply lookup_lt_Some.
  - exists b. by rewrite list_lookup_insert_ne.
Qed.

Lemma thread_ok_keeps r r' th : keeps r r' -> thread_ok r th -> thread_ok r' th.
Proof.
  intros K. pose proof (keeps_is_Some r r') as Ks. pose proof (keeps_owned r r') as Ko.
  assert (Ht : forall a ts, Forall (fun t => fits a (pt_binding t) /\ is_Some (pr_heap r !! pt_registration t)) ts ->
    Forall (fun t => fits a (pt_binding t) /\ is_Some (pr_heap r' !! pt_registration t)) ts).
  { intros a ts H. eapply Forall_impl; [exact H|]. naive_solver. }
  destruct th; simpl; try done; [naive_solver|naive_solver| |apply Ht|naive_solver].
  intros [H1 H2]. split; [|by apply Ht]. eapply Forall_impl; [exact H1|]. naive_solver.
Qed.

Lemma insert_registration_keeps u r : keeps r (insert_registration u r).
Proof.
  intros p b Hp. exists b. split; [|done]. unfold insert_registration.
  rewrite (proj1 (proj2 (add_if_reachable_frame _ _ _))). simpl. by apply lookup_app_l_Some.
Qed.

Lemma rewrite_registration_keeps u p old r :
  pr_heap r !! p = Some old -> key_at old = sessionKeyFromBinding (up_binding u) -> keeps r (rewrite_registration u p old r).
Proof.
  intros Hp Hk. unfold rewrite_registration. eapply (keeps_insert _ _ p old); [done| | |].
  - rewrite (proj1 (proj2 (add_if_reachable_frame _ _ _))). simpl. by rewrite (proj1 (proj2 (removeUserLocked_frame _ _ _ _))).
  - by symmetry.
  - done.
Qed.

Lemma drop_registration_keeps k p old r : pr_heap r !! p = Some old -> keeps r (drop_registration k p old r).
Proof.
  intros Hp. unfold drop_registration. eapply (keeps_insert _ _ p old); [done| | |].
  - simpl. by rewrite (proj1 (proj2 (removeUserLocked_frame _ _ _ _))).
  - done.
  - done.
Qed.

Lemma find_owned r k s p :
  wf r -> findRuntimePushBinding r (listed r k) s = Some p -> p ∈ listed r k /\ owned_by r k s p.
Proof.
  intros W [Hl Hs]%find_Some. split; [done|]. destruct (wf_listed _ W _ _ Hl) as (b & Hb & Hk).
  exists b. unfold sender_at in Hs. rewrite Hb in Hs. naive_solver.
Qed.

Lemma eligible_fits a b : eligible a b = true -> fits a (rb_binding b).
Proof.
  destruct a; simpl; rewrite !andb_true_iff, Z.eqb_eq; [|naive_solver]. rewrite negb_true_iff. naive_solver.
Qed.

Lemma notify_thread_ok r r' c n : thread_ok r' (notify r c n).
Proof. unfold notify. by destruct (c && _). Qed.

Ltac unfold_calls H :=
  unfold update_look, update_insert, update_rewrite, remove_look, remove_drop, publish_send, project_examine, project_next in H.

Ltac unfold_calls_goal := unfold update_look, update_insert, update_rewrite, remove_look, remove_drop.

(** Every critical section keeps the registry well formed. *)
Lemma advance_ok env th r th' r' evs :
  wf r -> thread_ok r th -> advance env th r = (th', r', evs) -> wf r' /\ keeps r r' /\ thread_ok r' th'.
Proof.
  intros W Ht Ha. pose proof (keeps_refl r) as K0.
  destruct th as [u|u|u p|k s|k s p|n|uid ex body|uid body todo fs|j|j todo ts|j todo fs|j t body todo fs|fs]; simpl in Ha, Ht; unfold_calls Ha.
  - destruct (findRuntimePushBinding _ _ _) as [p|] eqn:Ef; simplify_eq; split_and!; try done.
    split; [done|]. by apply find_owned in Ef as [_ ?].
  - destruct (findRuntimePushBinding _ _ _) as [p|] eqn:Ef; simplify_eq; [done|].
    split_and!; [by apply insert_registration_wf|apply insert_registration_keeps|apply notify_thread_ok].
  - destruct Ht as [Hu (b & Hb & Hk & Hs)]. rewrite Hb in Ha. unfold runtimePushBindingRegistered in Ha.
    destruct (bool_decide_reflect (p ∈ listed r (up_key u))) as [Hl|]; simplify_eq; [|done].
    split_and!; [by apply rewrite_registration_wf| |apply notify_thread_ok].
    apply rewrite_registration_keeps; [done|]. by rewrite Hk, Hu.
  - destruct (findRuntimePushBinding _ _ _) as [p|] eqn:Ef; simplify_eq; [|done].
    split_and!; try done. by apply find_owned in Ef as [_ ?].
  - destruct Ht as (b & Hb & Hk & Hs). rewrite Hb in Ha.
    destruct (bool_decide_reflect (findRuntimePushBinding r (listed r k) s = Some p)) as [Hf|]; simplify_eq; [|done].
    apply find_Some in Hf as [Hl _].
    split_and!; [by apply drop_registration_wf|by apply drop_registration_keeps|apply notify_thread_ok].
  - by simplify_eq.
  - by simplify_eq.
  - destruct todo; by simplify_eq.
  - simplify_eq. split_and!; try done. split; [|constructor]. apply Forall_forall. intros p. by apply gather_valid.
  - destruct Ht as [H1 H2]. destruct todo as [|p todo]; [by simplify_eq|]. apply Forall_cons in H1 as [Hp H1].
    destruct (pr_heap r !! p) as [b|] eqn:Eb; simplify_eq; split_and!; try done.
    split; [done|]. destruct (eligible (jb_audience j) b) eqn:Ee; [|done].
    apply Forall_app. split; [done|]. apply Forall_singleton. simpl. split; [by apply eligible_fits|by rewrite Eb].
  - destruct todo as [|t todo]; [by simplify_eq|]. destruct (sr_ctx env); [by simplify_eq|].
    apply Forall_cons in Ht as [H1 H2].
    destruct (jb_projector j _) as [o|] eqn:Ep; [|by simplify_eq].
    destruct (encodeForLayer o _ _) as [bs|] eqn:Ee; simplify_eq; [|done]. split_and!; try done.
    split; [by constructor|]. eauto.
  - destruct (pushProjectedIfCurrent _ _ _ _ _) as [e evs'] eqn:Ep. simplify_eq. split_and!; try done.
    destruct Ht as [[_ ?]%Forall_cons _]. done.
  - by simplify_eq.
Qed.

Lemma started_ok r th : started r th -> thread_ok r th.
Proof.
  intros [snapshot generation [s|] accepts Hk|key [s|]|userID ex object|userID ex [p|] limit|a [p|] limit]; simpl; try done.
  - unfold update_ok, sessionKeyFromBinding, new_update, Snapshot_Key. simpl. f_equal. rewrite wrapU_wrapS by lia. by apply wrapU_id.
  - unfold publishContext, publish. destruct (_ <=? _); [done|]. destruct (encodeTLObject object); [|done].
    by destruct (ex_session ex).
  - unfold publishProjectedContext, publishProjected. by destruct (_ <=? _).
  - unfold publishProjectedContext. by destruct (_ <=? _).
  - unfold PublishProjectedByAuthKeyContext, publishProjectedByAuthKey. by destruct (_ =? _).
  - unfold PublishProjectedByAuthKeyContext. by destruct (_ =? _).
Qed.

Definition threads_ok (s : system) : Prop := map_Forall (fun _ th => thread_ok (sy_registry s) th) (sy_threads s).

Lemma wf_init server : wf (newRuntimePushRegistry server).
Proof.
  assert (forall u k, indexed (newRuntimePushRegistry server) u k = []) as Hi.
  { intros. unfold indexed, bindings_of. simpl. rewrite lookup_empty. simpl. by rewrite lookup_empty. }
  assert (forall k, listed (newRuntimePushRegistry server) k = []) as Hl.
  { intros. unfold listed. simpl. by rewrite lookup_empty. }
  split.
  - intros k p. rewrite Hl. by intros ?%elem_of_nil.
  - intros k. rewrite Hl. constructor.
  - intros k p q. rewrite Hl. by intros ?%elem_of_nil.
  - intros p b [H _]. done.
  - intros p b H. done.
  - intros u k p. rewrite Hi. split; [by intros ?%elem_of_nil|]. intros (b & [H _] & _). done.
  - intros. rewrite Hi. constructor.
  - intros k. simpl. by rewrite lookup_empty.
  - intros u mk. simpl. by rewrite lookup_empty.
Qed.

Theorem history_ok server s : history server s -> wf (sy_registry s) /\ threads_ok s.
Proof.
  induction 1 as [|s t th Hs [W T] Ht Hst|s t th env th' r' evs Hs [W T] Ht Ha].
  - split; [apply wf_init|]. apply map_Forall_empty.
  - split; [done|]. apply map_Forall_insert_2; [by apply started_ok|done].
  - destruct (advance_ok _ _ _ _ _ _ W (T _ _ Ht) Ha) as (W' & K & T'). split; [done|].
    apply map_Forall_insert_2; [done|]. intros t2 th2 H2. simpl. by eapply thread_ok_keeps, T.
Qed.

(** ** Publishing *)

(** A thread's own steps, whatever it meets in between. *)
Fixpoint run_thread (seen : list (surroundings * runtimePushRegistry)) (th : thread) : list event * thread :=
  match seen with
  | [] => ([], th)
  | (env, r) :: seen' =>
      let '(th', _, evs) := advance env th r in
      let '(more, final) := run_thread seen' th' in (evs ++ more, final)
  end.

Lemma publish_send_run userID body seen : forall todo failures,
  length seen = S (length todo) ->
  run_thread seen (PublishSend userID body todo failures) =
  ((fun sender => Pushed userID sender body) <$> todo,
   Returned (failures ++ (ErrPush <$> omap (fun er => sr_push er.1) (take (length todo) seen)))).
Proof.
  induction seen as [|[env r] seen IH]; intros [|sender todo] failures Hl; simpl in *; try lia.
  - destruct seen; [|done]. by rewrite app_nil_r.
  - rewrite (IH todo) by lia. f_equal. f_equal. destruct (sr_push env); simpl; [|done]. by rewrite <- app_assoc.
Qed.

Lemma omap_all {A B} (f : A -> option B) (xs : list A) :
  (forall x, x ∈ xs -> is_Some (f x)) -> Forall2 (fun x y => f x = Some y) xs (omap f xs).
Proof.
  induction xs as [|x xs IH]; intros H; simpl; [constructor|].
  destruct (H x) as [y Hy]; [set_solver|]. rewrite Hy. constructor; [done|]. apply IH. set_solver.
Qed.

(** The registrations a user is reached by: registered, subscribed and bound to it. *)
Definition reaches (r : runtimePushRegistry) (userID : Z) (p : nat) : Prop :=
  exists b, registered r p b /\ user_at b = userID /\ rb_reachable b = true.

Lemma collect_exact r userID ex p :
  wf r -> p ∈ collect r userID ex <->
  exists b, registered r p b /\ user_at b = userID /\ rb_reachable b = true /\ excluded ex (key_at b) = false.
Proof. intros W. rewrite elem_of_collect. setoid_rewrite (wf_index _ W). naive_solver. Qed.

Lemma active_exact r userID : wf r -> HasActiveUser userID r = true <-> 0 < userID /\ exists p, reaches r userID p.
Proof.
  intros W. unfold HasActiveUser. destruct (Z.leb_spec userID 0) as [|Hu]; [split; [done|lia]|].
  rewrite negb_true_iff, Nat.eqb_neq, map_size_non_empty_iff. split.
  - intros Hne. split; [done|]. unfold bindings_of in Hne. destruct (byUser r !! userID) as [m|] eqn:Em; [|done].
    simpl in Hne. destruct (map_choose m Hne) as (k & ts & Hk).
    destruct ts as [|p ts]; [by apply (wf_tidy_users _ W _ _ Em) in Hk|]. exists p.
    destruct (proj1 (wf_index _ W userID k p)) as (b & Hb & _ & Hub & Hr); [|by exists b].
    unfold indexed, bindings_of. rewrite Em. simpl. rewrite Hk. set_solver.
  - intros [_ (p & b & Hb & Hub & Hr)] E. assert (Hp : p ∈ indexed r userID (key_at b)) by (apply (wf_index _ W); eauto).
    unfold indexed in Hp. rewrite E, lookup_empty in Hp. set_solver.
Qed.

(** ** Projected pushes *)

Lemma still_current_accepts r a target b :
  wf r -> pr_heap r !! pt_registration target = Some b -> still_current a target b = true ->
  registered r (pt_registration target) b /\ rb_acceptsPush b = true /\ rb_binding b = pt_binding target.
Proof.
  intros W Hb Hc.
  assert (Hf : (rb_reachable b = true \/ rb_acceptsPush b = true) /\ rb_binding b = pt_binding target).
  { destruct a; simpl in Hc; rewrite !andb_true_iff, bool_decide_eq_true in Hc; naive_solver. }
  destruct Hf as [Hf Hbind]. destruct (decide (pt_registration target ∈ listed r (key_at b))) as [Hl|Hl].
  - assert (Hr : registered r (pt_registration target) b) by done. split_and!; [done| |done].
    destruct Hf as [Hf|]; [|done]. rewrite (wf_reachable _ W _ _ Hr), andb_true_iff in Hf. apply Hf.
  - destruct (wf_gone _ W _ _ Hb Hl), Hf; congruence.
Qed.

Lemma projected_only_by_push env th r th' r' evs a target sender body :
  advance env th r = (th', r', evs) -> ProjectedPush a target sender body ∈ evs ->
  exists j todo failures b, th = ProjectPush j target body todo failures /\ a = jb_audience j /\
    pr_heap r !! pt_registration target = Some b /\ rb_sender b = sender /\ still_current a target b = true.
Proof.
  intros Ha Hin. destruct th as [u|u|u p|k s|k s p|n|uid ex bs|uid bs todo fs|j|j todo ts|j todo fs|j t bs todo fs|fs]; simpl in Ha; unfold_calls Ha;
    try (repeat case_match; simplify_eq; by rewrite ?list_elem_of_singleton, ?elem_of_nil in Hin).
  unfold pushProjectedIfCurrent in Ha. destruct (pr_heap r !! pt_registration t) as [b|] eqn:Eb;
    [|simplify_eq; by apply elem_of_nil in Hin].
  destruct (still_current _ _ _) eqn:Ec; simplify_eq; [|by apply elem_of_nil in Hin].
  apply list_elem_of_singleton in Hin. simplify_eq. exists j, todo, fs, b. done.
Qed.

(** C11. In every history of announcements, removals and publishing by any number of
    threads, a publication picks exactly the registered, subscribed sessions bound to
    the user and not excluded, each once; whatever happens meanwhile it then hands the
    body to the sender of each of them, in that order, also after failures, and returns
    the failures.  The user is reported active exactly when there is such a session. *)
Theorem publish_reaches_exactly server s userID ex body env seen :
  history server s -> 0 < userID ->
  let r := sy_registry s in
  length seen = S (length (collect r userID ex)) ->
  NoDup (collect r userID ex) /\
  (forall p, p ∈ collect r userID ex <->
     exists b, registered r p b /\ user_at b = userID /\ rb_reachable b = true /\ excluded ex (key_at b) = false) /\
  (exists senders, Forall2 (fun p sender => sender_at r p = Some sender) (collect r userID ex) senders /\
     run_thread ((env, r) :: seen) (publish userID ex body) =
     ((fun sender => Pushed userID sender body) <$> senders,
      Returned (ErrPush <$> omap (fun er => sr_push er.1) (take (length senders) seen)))) /\
  (HasActiveUser userID r = true <-> exists p, reaches r userID p).
Proof.
  intros H Hu r Hlen. destruct (history_ok _ _ H) as [W _]. fold r in W. split_and!.
  - by apply NoDup_collect.
  - intros p. by apply collect_exact.
  - exists (publish_senders r userID ex).
    assert (Hf : Forall2 (fun p sender => sender_at r p = Some sender) (collect r userID ex) (publish_senders r userID ex)).
    { apply omap_all. intros p (b & [Hb _] & _)%(collect_exact _ _ _ _ W). unfold sender_at. rewrite Hb. eauto. }
    split; [done|]. unfold publish. destruct (Z.leb_spec userID 0); [lia|]. simpl.
    rewrite publish_send_run by (rewrite <- (Forall2_length _ _ _ Hf); done). done.
  - rewrite active_exact by done. naive_solver.
Qed.

(** C12. However announcements and removals interleave with it, a projected push is
    handed to a sender only while its registration is registered, accepts pushes and has,
    field for field, the binding the body was projected and encoded for; that binding is
    of the audience.  Where the binding changed in between, nothing is pushed and the
    publication reports it. *)
Theorem projected_push_is_current server s t th env th' r' evs a target sender body :
  history server s -> sy_threads s !! t = Some th -> advance env th (sy_registry s) = (th', r', evs) ->
  ProjectedPush a target sender body ∈ evs ->
  exists j todo failures b object,
    th = ProjectPush j target body todo failures /\ a = jb_audience j /\
    registered (sy_registry s) (pt_registration target) b /\ rb_sender b = sender /\
    rb_binding b = pt_binding target /\ rb_acceptsPush b = true /\ fits a (pt_binding target) /\
    jb_projector j (pt_binding target) = Ok object /\
    encodeForLayer object (jb_maxEncodedBytes j) (bd_Layer (pt_binding target)) = Ok body.
Proof.
  intros H Ht Ha Hin. destruct (history_ok _ _ H) as [W T]. specialize (T _ _ Ht). simpl in T.
  destruct (projected_only_by_push _ _ _ _ _ _ _ _ _ _ Ha Hin) as (j & todo & fs & b & -> & -> & Hb & Hs & Hc).
  destruct T as [[[Hfit _] _]%Forall_cons (object & Hp & He)].
  destruct (still_current_accepts _ _ _ _ W Hb Hc) as (Hreg & Hacc & Hbind).
  exists j, todo, fs, b, object. done.
Qed.

(** ** Calls that run undisturbed *)

Lemma rewrite_registration_registered u p old r :
  update_ok u -> pr_heap r !! p = Some old -> p ∈ listed r (up_key u) -> rb_sender old = up_sender u ->
  registered (rewrite_registration u p old r) p (registration u).
Proof.
  intros Hu Hp Hl Hs. unfold rewrite_registration. set (r0 := removeUserLocked _ _ _ r).
  destruct (removeUserLocked_frame (up_key u) p (bd_UserID (rb_binding old)) r) as (Gk & Gh & _). fold r0 in Gk, Gh.
  unfold registered, listed. rewrite !(proj1 (add_if_reachable_frame _ _ _)), !(proj1 (proj2 (add_if_reachable_frame _ _ _))).
  simpl. rewrite Gk, Gh, Hs. split; [apply list_lookup_insert_eq; by eapply lookup_lt_Some|].
  unfold key_at. simpl. by rewrite Hu.
Qed.

Definition quiet : surroundings := {| sr_ctx := None; sr_push := None |}.

Definition put (t : nat) (th : thread) (r : runtimePushRegistry) (s : system) : system :=
  {| sy_registry := r; sy_threads := <[t := th]> (sy_threads s) |}.

Lemma history_put server s t th r th' r' evs :
  history server (put t th r s) -> advance quiet th r = (th', r', evs) -> history server (put t th' r' s).
Proof.
  intros H Ha. unfold put in *. rewrite <- (insert_insert_eq (sy_threads s) t th' th).
  eapply (history_step server _ t th quiet _ _ evs H); [apply lookup_insert_eq|exact Ha].
Qed.

Lemma history_notify server s t r r' c n :
  history server (put t (notify r' c n) r s) -> history server (put t (Returned []) r s).
Proof. unfold notify. destruct (c && _); [|done]. intros H. by eapply history_put; [exact H|]. Qed.

Lemma history_put_id server s t th :
  history server s -> sy_threads s !! t = Some th -> history server (put t th (sy_registry s) s).
Proof. intros H Ht. unfold put. rewrite insert_id by done. by destruct s. Qed.

(** [Remove], run to its end, leaves the session without a registration of the sender. *)
Lemma remove_alone server s t k sender :
  history server s -> sy_threads s !! t = Some (RemoveLook k sender) ->
  exists r', history server (put t (Returned []) r' s) /\ findRuntimePushBinding r' (listed r' k) sender = None.
Proof.
  intros H Ht. pose proof (history_put_id _ _ _ _ H Ht) as H1. destruct (history_ok _ _ H) as [W _].
  set (r := sy_registry s) in *. destruct (findRuntimePushBinding r (listed r k) sender) as [p|] eqn:Ef.
  2: { exists r. split; [|done]. eapply history_put; [exact H1|]. simpl; unfold_calls_goal. by rewrite Ef. }
  destruct (find_owned _ _ _ _ W Ef) as [Hl (b & Hb & Hk & Hs)].
  assert (H2 : history server (put t (RemoveHold k sender p) r s)).
  { eapply history_put; [exact H1|]. simpl; unfold_calls_goal. by rewrite Ef. }
  exists (drop_registration k p b r). split.
  - eapply history_notify, history_put; [exact H2|]. simpl; unfold_calls_goal. rewrite Hb, bool_decide_true by done. done.
  - destruct (findRuntimePushBinding (drop_registration k p b r) _ sender) as [q|] eqn:Eq; [|done].
    apply find_Some in Eq as [Hq Hsq]. apply (drop_registration_listed k p b r k q W Hb Hl) in Hq as [Hq Hne].
    exfalso. apply Hne,  (wf_senders _ W k); [done..|]. unfold sender_at in *.
    rewrite (proj1 (drop_registration_frame k p b r)), list_lookup_insert_ne in Hsq by done. rewrite Hsq, Hb. by rewrite <- Hs.
Qed.

(** [Update], run to its end, leaves the session's sender registered with the binding. *)
Lemma update_alone server s t u :
  history server s -> sy_threads s !! t = Some (UpdateLook u) ->
  exists r' p, history server (put t (Returned []) r' s) /\ registered r' p (registration u).
Proof.
  intros H Ht. pose proof (history_put_id _ _ _ _ H Ht) as H1. destruct (history_ok _ _ H) as [W T].
  pose proof (T _ _ Ht) as Hu. simpl in Hu. set (r := sy_registry s) in *.
  destruct (findRuntimePushBinding r (listed r (up_key u)) (up_sender u)) as [p|] eqn:Ef.
  - destruct (find_owned _ _ _ _ W Ef) as [Hl (b & Hb & Hk & Hs)].
    assert (H2 : history server (put t (UpdateHold u p) r s)).
    { eapply history_put; [exact H1|]. simpl; unfold_calls_goal. by rewrite Ef. }
    exists (rewrite_registration u p b r), p. split.
    + eapply history_notify, history_put; [exact H2|]. simpl; unfold_calls_goal. unfold runtimePushBindingRegistered.
      rewrite Hb, bool_decide_true by done. done.
    + by apply rewrite_registration_registered.
  - assert (H2 : history server (put t (UpdateInsert u) r s)).
    { eapply history_put; [exact H1|]. simpl; unfold_calls_goal. by rewrite Ef. }
    exists (insert_registration u r), (length (pr_heap r)). split.
    + eapply history_notify, history_put; [exact H2|]. simpl; unfold_calls_goal. by rewrite Ef.
    + destruct (insert_registration_frame u r) as [Fh Fl]. split; [rewrite Fh; by apply list_lookup_middle|].
      rewrite Fl. unfold key_at. simpl. rewrite Hu, bool_decide_true by done. set_solver.
Qed.

(** C21. A session that ends is removed before its requests are cancelled, and nothing
    orders a request's announcement behind that removal: from every history in which a
    session's removal and an announcement of the same sender are both under way, both can
    return with the ended session registered for the user, so that publications keep
    choosing its sender and the user stays reported active. *)
Theorem late_announcement_outlives_session server s t1 t2 u :
  history server s -> t1 <> t2 ->
  sy_threads s !! t1 = Some (UpdateLook u) ->
  sy_threads s !! t2 = Some (RemoveLook (up_key u) (up_sender u)) ->
  0 < bd_UserID (up_binding u) -> up_acceptsPush u = true ->
  exists s', history server s' /\
    sy_threads s' = <[t1 := Returned []]> (<[t2 := Returned []]> (sy_threads s)) /\
    up_sender u ∈ publish_senders (sy_registry s') (bd_UserID (up_binding u)) {| ex_session := None; ex_authKey := None |} /\
    HasActiveUser (bd_UserID (up_binding u)) (sy_registry s') = true.
Proof.
  intros H Hne H1 H2 Hpos Hacc.
  destruct (remove_alone _ _ _ _ _ H H2) as (r1 & Hr1 & _).
  destruct (update_alone _ _ t1 u Hr1) as (r2 & p & Hr2 & Hreg).
  { unfold put. simpl. by rewrite lookup_insert_ne. }
  eexists. split; [exact Hr2|]. split; [done|]. destruct (history_ok _ _ Hr2) as [W _]. simpl in W |- *.
  assert (Hreach : rb_reachable (registration u) = true).
  { simpl. unfold up_reachable. rewrite Hacc. destruct (Z.eqb_spec (bd_UserID (up_binding u)) 0); [lia|done]. }
  split.
  - unfold publish_senders. apply list_elem_of_omap. exists p. split.
    + apply (collect_exact _ _ _ _ W). exists (registration u). done.
    + unfold sender_at. by rewrite (proj1 Hreg).
  - apply (active_exact _ _ W). split; [done|]. exists p, (registration u). done.
Qed.

(** * Executable histories *)

Inductive move :=
| MUpdate (t : nat) (snapshot : Snapshot) (generation sender : Z) (accepts : bool)
| MRemove (t : nat) (key : SessionKey) (sender : Z)
| MProject (t : nat) (userID : Z) (projector : PushProjector) (limit : Z)
| MStep (t : nat).

Definition launch (t : nat) (th : thread) (s : system) : option system :=
  match sy_threads s !! t with None => Some (put t th (sy_registry s) s) | Some _ => None end.

Definition play (m : move) (s : system) : option system :=
  match m with
  | MUpdate t snapshot generation sender accepts =>
      if (0 <=? sn_AuthKeyID snapshot) && (sn_AuthKeyID snapshot <? 2 ^ 64)
      then launch t (UpdateLook (new_update ConnectionID (sy_registry s) snapshot generation sender accepts)) s
      else None
  | MRemove t key sender => launch t (RemoveLook key sender) s
  | MProject t userID projector limit =>
      launch t (publishProjectedContext userID {| ex_session := None; ex_authKey := None |} (Some projector) limit) s
  | MStep t =>
      match sy_threads s !! t with
      | None => None
      | Some th => let '(th', r', _) := advance quiet th (sy_registry s) in Some (put t th' r' s)
      end
  end.

Fixpoint playAll (ms : list move) (s : system) : option system :=
  match ms with
  | [] => Some s
  | m :: ms' => match play m s with Some s' => playAll ms' s' | None => None end
  end.

Lemma launch_history server t th s s' :
  history server s -> started (sy_registry s) th -> launch t th s = Some s' -> history server s'.
Proof. unfold launch. intros H Hst. destruct (_ !! t) eqn:E; [done|]. intros [= <-]. by apply history_start. Qed.

Lemma play_history server m s s' : history server s -> play m s = Some s' -> history server s'.
Proof.
  intros H. destruct m as [t snapshot generation sender accepts|t key sender|t userID projector limit|t]; simpl.
  - destruct (Z.leb_spec 0 (sn_AuthKeyID snapshot)); [|done]. destruct (Z.ltb_spec (sn_AuthKeyID snapshot) (2 ^ 64)); [|done].
    apply launch_history; [done|]. by apply (started_update _ snapshot generation (Some sender) accepts).
  - apply launch_history; [done|]. apply (started_remove _ key (Some sender)).
  - apply launch_history; [done|]. apply started_projected.
  - destruct (sy_threads s !! t) as [th|] eqn:Et; [|done].
    destruct (advance quiet th (sy_registry s)) as [[th' r'] evs] eqn:Ea. intros [= <-]. by eapply history_step.
Qed.

Lemma playAll_history server ms : forall s s', history server s -> playAll ms s = Some s' -> history server s'.
Proof.
  induction ms as [|m ms IH]; intros s s' H; simpl; [by intros [= <-]|].
  destruct (play m s) as [s1|] eqn:E; [|done]. apply IH. by eapply play_history.
Qed.

End Publishing.

(** * Concrete histories *)

Definition demo_snapshot (authKeyID sessionID userID : Z) : Snapshot :=
  {| sn_AuthKeyID := authKeyID; sn_SessionID := sessionID; sn_Layer := 0; sn_UserID := userID; sn_PushSubscription := true;
     sn_ServerSalt := 5; sn_SeqNo := 0; sn_ServerSeqNo := 0; sn_LastClientMsgID := 0; sn_ClientMsgIDFloor := 0;
     sn_RecentClientMsgIDs := []; sn_RecentClientSeqNos := []; sn_Client := sn_Client zero_Snapshot;
     sn_NewSessionCreated := true; sn_FirstClientMsgID := 0; sn_CreatedAt := 0; sn_LastActivity := 0 |}.

Definition demo_encode (object : Z) : result Z bytes := Ok [bZ object].

Definition demo_encodeForLayer (object limit layer : Z) : result Z bytes := if limit <? 1 then Err 1 else Ok [bZ (object + layer)].

Definition demo_moves : list (move Z) :=
  [MUpdate Z 1 (demo_snapshot 7 100 42) 1 11 true; MStep Z 1; MStep Z 1; MStep Z 1;
   MUpdate Z 2 (demo_snapshot (2 ^ 63 + 1) 200 42) 1 12 true; MStep Z 2; MStep Z 2; MStep Z 2;
   MUpdate Z 3 (demo_snapshot 9 300 43) 1 13 true; MStep Z 3; MStep Z 3; MStep Z 3].

Abbreviation demo_play ms := (playAll Z demo_encodeForLayer Some ms (initial Z (Some 160))).

Definition demo_system (more : list (move Z)) : system Z :=
  match demo_play (demo_moves ++ more) with Some s => s | None => initial Z None end.

Abbreviation demo_history s := (history Z demo_encode demo_encodeForLayer Some (Some 160) s).

Abbreviation no_exclusion := {| ex_session := None; ex_authKey := None |}.

Lemma demo_system_history more :
  (match demo_play (demo_moves ++ more) with Some _ => true | None => false end) = true -> demo_history (demo_system more).
Proof.
  unfold demo_system. destruct (demo_play (demo_moves ++ more)) as [s|] eqn:E; [|done]. intros _.
  by eapply playAll_history; [apply history_init|].
Qed.

Ltac play_demo := apply demo_system_history; vm_compute; reflexivity.

Lemma publish_reaches_exactly_witness :
  let s := demo_system [] in
  let ex := {| ex_session := Some {| AuthKeyID := 7; SessionID := 100 |}; ex_authKey := None |} in
  demo_history s /\ collect (sy_registry Z s) 42 ex = [1%nat] /\ length (collect (sy_registry Z s) 42 no_exclusion) = 2%nat /\
  exists senders, Forall2 (fun p sender => sender_at (sy_registry Z s) p = Some sender) (collect (sy_registry Z s) 42 ex) senders.
Proof.
  assert (H : demo_history (demo_system [])) by play_demo. intros s ex. split; [exact H|].
  split; [vm_compute; reflexivity|]. split; [vm_compute; reflexivity|].
  destruct (publish_reaches_exactly Z demo_encode demo_encodeForLayer Some (Some 160) s 42 ex [x01] quiet
    (replicate 2 (quiet, sy_registry Z s)) H) as (_ & _ & (senders & Hs & _) & _);
    [lia|vm_compute; reflexivity|]. exists senders. exact Hs.
Defined.

(** A projected publication about to push, and the step that does it. *)
Definition demo_project : list (move Z) :=
  MProject Z 4 43 (fun b => Ok (bd_UserID b)) 100 :: replicate 4 (MStep Z 4).

Definition demo_target : projectedPushTarget :=
  {| pt_registration := 2; pt_binding := snapshot_binding Some (newRuntimePushRegistry (Some 160)) (demo_snapshot 9 300 43) 1 13 |}.

Lemma projected_push_is_current_witness :
  let s := demo_system demo_project in
  demo_history s /\ bd_Layer (pt_binding demo_target) = 160 /\
  exists b, registered (sy_registry Z s) 2 b /\ rb_sender b = 13 /\ rb_binding b = pt_binding demo_target.
Proof.
  assert (H : demo_history (demo_system demo_project)) by play_demo. intros s. split; [exact H|]. split; [reflexivity|].
  destruct (sy_threads Z s !! 4%nat) as [th|] eqn:Et; [|vm_compute in Et; discriminate].
  destruct (advance Z demo_encodeForLayer quiet th (sy_registry Z s)) as [[th' r'] evs] eqn:Ea.
  destruct (projected_push_is_current Z demo_encode demo_encodeForLayer Some (Some 160) s 4 th quiet th' r' evs
    (ToUser 43 no_exclusion) demo_target 13 [bZ 203] H Et Ea) as (j & todo & fs & b & o & _ & _ & Hr & Hs & Hb & _).
  { vm_compute in Et. injection Et as <-. vm_compute in Ea. injection Ea as _ _ <-. vm_compute. left. }
  exists b. split; [exact Hr|]. split; [exact Hs|exact Hb].
Defined.

Definition demo_ending : list (move Z) :=
  [MUpdate Z 5 (demo_snapshot 9 300 43) 1 13 true; MRemove Z 6 {| AuthKeyID := 9; SessionID := 300 |} 13].

Lemma late_announcement_outlives_session_witness :
  demo_history (demo_system demo_ending) /\
  exists s', demo_history s' /\ HasActiveUser 43 (sy_registry Z s') = true.
Proof.
  assert (H : demo_history (demo_system demo_ending)) by play_demo. split; [exact H|].
  destruct (late_announcement_outlives_session Z demo_encode demo_encodeForLayer Some (Some 160) (demo_system demo_ending) 5 6
    (new_update Some (newRuntimePushRegistry (Some 160)) (demo_snapshot 9 300 43) 1 13 true) H) as (s' & Hs & _ & _ & Ha);
    [lia|vm_compute; reflexivity|vm_compute; reflexivity|vm_compute; reflexivity|reflexivity|].
  exists s'. split; [exact Hs|exact Ha].
Defined.
