(* ===== verification/Admission.v ===== *)
(** The server's admission of connections, sessions and handlers (server.go,
    resource_controls.go): the registries of open connections, the quotas per remote
    address and per auth key, the count of active sessions, and the slots of running
    handlers.

    Connections are served concurrently: each goes through the phases of [serveConn],
    and a step of a history is one critical section of the server's [lifecycleMu] in one
    of them, or a session announced or withdrawn by any connection. *)

From stdpp Require Import base numbers list gmap fin_maps strings.
From S2P Require Import Prelude Session PushRegistry.
Open Scope Z_scope.

(** * Data *)

(** The object of an admitted connection; [connectionByID] leads to the same object, so
    it is named there by its owner. *)
Record connectionState := {
  cs_owner : nat;
  cs_id : Z;
  cs_remoteIP : string;
  cs_authKeyID : Z;
  cs_authCounted : bool;
  cs_handshakeObserved : bool;
  cs_closeReason : string;
  cs_activeConnections : Z;
  cs_activeConnectionsForIP : Z;
  cs_activeConnectionsForAuth : Z;
  cs_activeSessionsOnConnection : Z;
  cs_activeSessions : gset SessionKey
}.

(** Where [serveConn] and its goroutine stand with a connection. *)
Inductive phase :=
| Joined (remoteIP : string)
| Numbered (remoteIP : string) (id : Z)
| Rejected
| Serving
| Finished
| Left.

Record Server := {
  maxConnections : Z;
  maxConnectionsPerIP : Z;
  maxConnectionsPerAuthKey : Z;
  sv_stopped : bool;
  connections : gset nat;
  connectionStates : gmap nat connectionState;
  connectionByID : gmap Z nat;
  activeConnectionsByIP : gmap string Z;
  activeConnectionsByAuth : gmap Z Z;
  activeSessions : Z;
  pendingSessionAcquire : gmap SessionKey bool;
  nextConnectionID : Z;
  connectionWG : Z
}.

(** What the server tells its observer, and the transports it closes. *)
Inductive observation :=
| Admission (resource outcome : string) (limit active : Z)
| ConnectionOpened (state : connectionState)
| Handshake (id : Z) (outcome reason : string)
| ConnectionClosed (state : connectionState) (reason : string)
| SessionEvent (action : string) (id authKeyID sessionID : Z) (source : string) (sessions onConnection : Z)
| Closed (owned : nat).

Definition NewServer (maxConnections maxPerIP maxPerAuthKey : Z) : Server :=
  {| maxConnections := maxConnections; maxConnectionsPerIP := maxPerIP; maxConnectionsPerAuthKey := maxPerAuthKey;
     sv_stopped := false; connections := ∅; connectionStates := ∅; connectionByID := ∅; activeConnectionsByIP := ∅;
     activeConnectionsByAuth := ∅; activeSessions := 0; pendingSessionAcquire := ∅; nextConnectionID := 0; connectionWG := 0 |}.

(** ** Field updates *)

Definition set_connections (x : gset nat) (s : Server) : Server :=
  {| maxConnections := maxConnections s; maxConnectionsPerIP := maxConnectionsPerIP s;
     maxConnectionsPerAuthKey := maxConnectionsPerAuthKey s; sv_stopped := sv_stopped s; connections := x;
     connectionStates := connectionStates s; connectionByID := connectionByID s;
     activeConnectionsByIP := activeConnectionsByIP s; activeConnectionsByAuth := activeConnectionsByAuth s;
     activeSessions := activeSessions s; pendingSessionAcquire := pendingSessionAcquire s;
     nextConnectionID := nextConnectionID s; connectionWG := connectionWG s |}.

Definition set_states (st : gmap nat connectionState) (ids : gmap Z nat) (s : Server) : Server :=
  {| maxConnections := maxConnections s; maxConnectionsPerIP := maxConnectionsPerIP s;
     maxConnectionsPerAuthKey := maxConnectionsPerAuthKey s; sv_stopped := sv_stopped s; connections := connections s;
     connectionStates := st; connectionByID := ids;
     activeConnectionsByIP := activeConnectionsByIP s; activeConnectionsByAuth := activeConnectionsByAuth s;
     activeSessions := activeSessions s; pendingSessionAcquire := pendingSessionAcquire s;
     nextConnectionID := nextConnectionID s; connectionWG := connectionWG s |}.

Definition set_counts (ip : gmap string Z) (auth : gmap Z Z) (sessions : Z) (s : Server) : Server :=
  {| maxConnections := maxConnections s; maxConnectionsPerIP := maxConnectionsPerIP s;
     maxConnectionsPerAuthKey := maxConnectionsPerAuthKey s; sv_stopped := sv_stopped s; connections := connections s;
     connectionStates := connectionStates s; connectionByID := connectionByID s;
     activeConnectionsByIP := ip; activeConnectionsByAuth := auth;
     activeSessions := sessions; pendingSessionAcquire := pendingSessionAcquire s;
     nextConnectionID := nextConnectionID s; connectionWG := connectionWG s |}.

Definition set_pending (p : gmap SessionKey bool) (s : Server) : Server :=
  {| maxConnections := maxConnections s; maxConnectionsPerIP := maxConnectionsPerIP s;
     maxConnectionsPerAuthKey := maxConnectionsPerAuthKey s; sv_stopped := sv_stopped s; connections := connections s;
     connectionStates := connectionStates s; connectionByID := connectionByID s;
     activeConnectionsByIP := activeConnectionsByIP s; activeConnectionsByAuth := activeConnectionsByAuth s;
     activeSessions := activeSessions s; pendingSessionAcquire := p;
     nextConnectionID := nextConnectionID s; connectionWG := connectionWG s |}.

(** The stop flag, the next connection id and the wait group. *)
Definition set_lifecycle (stopped : bool) (next wg : Z) (s : Server) : Server :=
  {| maxConnections := maxConnections s; maxConnectionsPerIP := maxConnectionsPerIP s;
     maxConnectionsPerAuthKey := maxConnectionsPerAuthKey s; sv_stopped := stopped; connections := connections s;
     connectionStates := connectionStates s; connectionByID := connectionByID s;
     activeConnectionsByIP := activeConnectionsByIP s; activeConnectionsByAuth := activeConnectionsByAuth s;
     activeSessions := activeSessions s; pendingSessionAcquire := pendingSessionAcquire s;
     nextConnectionID := next; connectionWG := wg |}.

Definition set_reports (forIP : Z) (forAuth onConnection active : Z) (st : connectionState) : connectionState :=
  {| cs_owner := cs_owner st; cs_id := cs_id st; cs_remoteIP := cs_remoteIP st; cs_authKeyID := cs_authKeyID st;
     cs_authCounted := cs_authCounted st; cs_handshakeObserved := cs_handshakeObserved st;
     cs_closeReason := cs_closeReason st; cs_activeConnections := active; cs_activeConnectionsForIP := forIP;
     cs_activeConnectionsForAuth := forAuth; cs_activeSessionsOnConnection := onConnection;
     cs_activeSessions := cs_activeSessions st |}.

Definition set_observed (reason : string) (st : connectionState) : connectionState :=
  {| cs_owner := cs_owner st; cs_id := cs_id st; cs_remoteIP := cs_remoteIP st; cs_authKeyID := cs_authKeyID st;
     cs_authCounted := cs_authCounted st; cs_handshakeObserved := true; cs_closeReason := reason;
     cs_activeConnections := cs_activeConnections st; cs_activeConnectionsForIP := cs_activeConnectionsForIP st;
     cs_activeConnectionsForAuth := cs_activeConnectionsForAuth st;
     cs_activeSessionsOnConnection := cs_activeSessionsOnConnection st; cs_activeSessions := cs_activeSessions st |}.

Definition set_auth (authKeyID forAuth : Z) (st : connectionState) : connectionState :=
  {| cs_owner := cs_owner st; cs_id := cs_id st; cs_remoteIP := cs_remoteIP st; cs_authKeyID := authKeyID;
     cs_authCounted := true; cs_handshakeObserved := cs_handshakeObserved st; cs_closeReason := cs_closeReason st;
     cs_activeConnections := cs_activeConnections st; cs_activeConnectionsForIP := cs_activeConnectionsForIP st;
     cs_activeConnectionsForAuth := forAuth;
     cs_activeSessionsOnConnection := cs_activeSessionsOnConnection st; cs_activeSessions := cs_activeSessions st |}.

Definition set_sessions (x : gset SessionKey) (n : Z) (st : connectionState) : connectionState :=
  {| cs_owner := cs_owner st; cs_id := cs_id st; cs_remoteIP := cs_remoteIP st; cs_authKeyID := cs_authKeyID st;
     cs_authCounted := cs_authCounted st; cs_handshakeObserved := cs_handshakeObserved st;
     cs_closeReason := cs_closeReason st; cs_activeConnections := cs_activeConnections st;
     cs_activeConnectionsForIP := cs_activeConnectionsForIP st;
     cs_activeConnectionsForAuth := cs_activeConnectionsForAuth st; cs_activeSessionsOnConnection := n;
     cs_activeSessions := x |}.

(** * Operations *)

(** A Go counter read from a map, and the decrement that deletes at zero. *)
Definition count_of {K} `{Countable K} (m : gmap K Z) (k : K) : Z := default 0 (m !! k).

Definition decrement {K} `{Countable K} (m : gmap K Z) (k : K) : gmap K Z * Z :=
  let next := count_of m k - 1 in
  if next <=? 0 then (delete k m, 0) else (<[k := next]> m, next).

Definition new_state (owned : nat) (id : Z) (remoteIP : string) : connectionState :=
  {| cs_owner := owned; cs_id := id; cs_remoteIP := remoteIP; cs_authKeyID := 0; cs_authCounted := false;
     cs_handshakeObserved := false; cs_closeReason := ""; cs_activeConnections := 0; cs_activeConnectionsForIP := 0;
     cs_activeConnectionsForAuth := 0; cs_activeSessionsOnConnection := 0; cs_activeSessions := ∅ |}.

(** [serveConn] up to admission: false when the server is stopped, and then the
    connection is closed. *)
Definition serveConn (owned : nat) (s : Server) : bool * Server * list observation :=
  if sv_stopped s then (false, s, [Closed owned])
  else (true, set_lifecycle (sv_stopped s) (nextConnectionID s) (connectionWG s + 1)
                (set_connections ({[owned]} ∪ connections s) s), []).

Definition nextConnID (s : Server) : Z * Server :=
  let next := uint64 (nextConnectionID s + 1) in
  (next, set_lifecycle (sv_stopped s) next (connectionWG s) s).

Definition len_connections (s : Server) : Z := Z.of_nat (size (connections s)).

Definition admitConnection (owned : nat) (id : Z) (remoteIP : string) (s : Server) : bool * Server * list observation :=
  let byIP := count_of (activeConnectionsByIP s) remoteIP in
  if (0 <? maxConnections s) && (maxConnections s <? len_connections s)
  then (false, s, [Admission "connection_global" "rejected" (maxConnections s) (len_connections s - 1)])
  else if negb (String.eqb remoteIP "") && (0 <? maxConnectionsPerIP s) && (maxConnectionsPerIP s <=? byIP)
  then (false, s, [Admission "connection_ip" "rejected" (maxConnectionsPerIP s) byIP])
  else
    let ip := if String.eqb remoteIP "" then activeConnectionsByIP s
              else <[remoteIP := byIP + 1]> (activeConnectionsByIP s) in
    let state := set_reports (count_of ip remoteIP) 0 0 (len_connections s) (new_state owned id remoteIP) in
    let s := set_counts ip (activeConnectionsByAuth s) (activeSessions s) s in
    (true, set_states (<[owned := state]> (connectionStates s)) (<[id := owned]> (connectionByID s)) s,
     [ConnectionOpened state]).

(** The removal of a connection from [connections] that ends every path of [serveConn]; a
    rejected one is removed from [connectionStates] as well. After it, the wait group's [Done]. *)
Definition forget (owned : nat) (s : Server) : Server := set_connections (connections s ∖ {[owned]}) s.

Definition forget_rejected (owned : nat) (s : Server) : Server :=
  let s := forget owned s in
  set_states (delete owned (connectionStates s)) (connectionByID s) s.

Definition wg_Done (s : Server) : Server := set_lifecycle (sv_stopped s) (nextConnectionID s) (connectionWG s - 1) s.

(** [for key := range state.activeSessions]: each visit deletes the key and decrements
    the server's counter while it is positive. *)
Fixpoint drain (keys : list SessionKey) (active : Z) : Z :=
  match keys with
  | [] => active
  | _ :: keys' => drain keys' (if 0 <? active then active - 1 else active)
  end.

Definition finishConnection (owned : nat) (fallbackReason : string) (s : Server) : Server * list observation :=
  match connectionStates s !! owned with
  | None => (s, [])
  | Some state =>
      let s := set_states (delete owned (connectionStates s)) (delete (cs_id state) (connectionByID s)) s in
      let '(ip, forIP) :=
        if String.eqb (cs_remoteIP state) "" then (activeConnectionsByIP s, cs_activeConnectionsForIP state)
        else decrement (activeConnectionsByIP s) (cs_remoteIP state) in
      let '(auth, forAuth) :=
        if cs_authCounted state && negb (cs_authKeyID state =? 0)
        then decrement (activeConnectionsByAuth s) (cs_authKeyID state)
        else (activeConnectionsByAuth s, cs_activeConnectionsForAuth state) in
      let sessions := drain (elements (cs_activeSessions state)) (activeSessions s) in
      let state := set_sessions ∅ 0 (set_reports forIP forAuth 0 (len_connections s - 1) state) in
      let reason := if String.eqb (cs_closeReason state) "" then fallbackReason else cs_closeReason state in
      (set_counts ip auth sessions s,
       (if negb (cs_handshakeObserved state) && negb (String.eqb reason "shutdown")
        then [Handshake (cs_id state) "failed" reason] else []) ++ [ConnectionClosed state reason])
  end.

Definition noteSessionAcquire (key : SessionKey) (created : bool) (s : Server) : Server :=
  set_pending (<[key := created]> (pendingSessionAcquire s)) s.

Definition consumeSessionAcquire (key : SessionKey) (s : Server) : string * Server :=
  match (pendingSessionAcquire s !! key : option bool) with
  | None => ("unknown"%string, s)
  | Some created => ((if created then "created" else "resumed")%string, set_pending (delete key (pendingSessionAcquire s)) s)
  end.

(** The count of the connection towards its auth key: [None] when the limit rejects it. *)
Definition count_auth (binding : Binding) (state : connectionState) (s : Server) : option (connectionState * gmap Z Z) :=
  if negb (cs_authCounted state) && negb (bd_AuthKeyID binding =? 0) then
    let active := count_of (activeConnectionsByAuth s) (bd_AuthKeyID binding) in
    if (0 <? maxConnectionsPerAuthKey s) && (maxConnectionsPerAuthKey s <=? active) then None
    else Some (set_auth (bd_AuthKeyID binding) (active + 1) state,
               <[bd_AuthKeyID binding := active + 1]> (activeConnectionsByAuth s))
  else Some (state, activeConnectionsByAuth s).

Definition put_state (state : connectionState) (s : Server) : Server :=
  set_states (<[cs_owner state := state]> (connectionStates s)) (connectionByID s) s.

Definition state_by_id (id : Z) (s : Server) : option connectionState :=
  connectionByID s !! id ≫= fun owned => connectionStates s !! owned.

Definition handleObservedSessionBound (binding : Binding) (s : Server) : Server * list observation :=
  let key := sessionKeyFromBinding binding in
  let '(source, s) := consumeSessionAcquire key s in
  match state_by_id (bd_ConnectionID binding) s with
  | None => (s, [SessionEvent "bound" (bd_ConnectionID binding) (bd_AuthKeyID binding) (bd_SessionID binding) source 0 0])
  | Some state =>
      let emitHandshake := negb (cs_handshakeObserved state) in
      let state := set_observed (cs_closeReason state) state in
      match count_auth binding state s with
      | None =>
          let active := count_of (activeConnectionsByAuth s) (bd_AuthKeyID binding) in
          (put_state (set_observed "auth_connection_limit" state) s,
           [Admission "connection_auth_key" "rejected" (maxConnectionsPerAuthKey s) active; Closed (cs_owner state)])
      | Some (state, auth) =>
          let known := bool_decide (key ∈ cs_activeSessions state) in
          let state := if known then state
                       else set_sessions ({[key]} ∪ cs_activeSessions state) (cs_activeSessionsOnConnection state + 1) state in
          let sessions := if known then activeSessions s else activeSessions s + 1 in
          (put_state state (set_counts (activeConnectionsByIP s) auth sessions s),
           (if emitHandshake then [Handshake (cs_id state) "succeeded" "session_bound"] else []) ++
           [SessionEvent "bound" (bd_ConnectionID binding) (bd_AuthKeyID binding) (bd_SessionID binding) source
              sessions (cs_activeSessionsOnConnection state)])
      end
  end.

Definition handleObservedSessionUnbound (binding : Binding) (s : Server) : Server * list observation :=
  let key := sessionKeyFromBinding binding in
  let event sessions on :=
    SessionEvent "released" (bd_ConnectionID binding) (bd_AuthKeyID binding) (bd_SessionID binding) "unknown" sessions on in
  match state_by_id (bd_ConnectionID binding) s with
  | Some state =>
      if bool_decide (key ∈ cs_activeSessions state) then
        let on := if 0 <? cs_activeSessionsOnConnection state then cs_activeSessionsOnConnection state - 1
                  else cs_activeSessionsOnConnection state in
        let sessions := if 0 <? activeSessions s then activeSessions s - 1 else activeSessions s in
        (put_state (set_sessions (cs_activeSessions state ∖ {[key]}) on state)
           (set_counts (activeConnectionsByIP s) (activeConnectionsByAuth s) sessions s), [event sessions on])
      else (s, [event (activeSessions s) 0])
  | None => (s, [event (activeSessions s) 0])
  end.

(** [Stop] closes the shutdown channel; unless the connections end within the grace
    period ([drained]) it then closes those it saw. *)
Definition Stop (drained : bool) (s : Server) : Server * list observation :=
  if sv_stopped s then (s, [])
  else (set_lifecycle true (nextConnectionID s) (connectionWG s) s,
        if drained then [] else Closed <$> elements (connections s)).

(** * Histories *)

Record world := { w_server : Server; w_phases : gmap nat phase }.

Inductive step : world -> world -> Prop :=
| step_accept s ph owned remoteIP s' evs :
    ph !! owned = None -> serveConn owned s = (true, s', evs) ->
    step {| w_server := s; w_phases := ph |} {| w_server := s'; w_phases := <[owned := Joined remoteIP]> ph |}
| step_number s ph owned remoteIP :
    ph !! owned = Some (Joined remoteIP) -> nextConnectionID s < 2 ^ 64 - 1 ->
    step {| w_server := s; w_phases := ph |}
      {| w_server := (nextConnID s).2; w_phases := <[owned := Numbered remoteIP (nextConnID s).1]> ph |}
| step_admit s ph owned remoteIP id admitted s' evs :
    ph !! owned = Some (Numbered remoteIP id) -> admitConnection owned id remoteIP s = (admitted, s', evs) ->
    step {| w_server := s; w_phases := ph |}
      {| w_server := s'; w_phases := <[owned := if admitted then Serving else Rejected]> ph |}
| step_finish s ph owned reason :
    ph !! owned = Some Serving ->
    step {| w_server := s; w_phases := ph |}
      {| w_server := (finishConnection owned reason s).1; w_phases := <[owned := Finished]> ph |}
| step_reject s ph owned :
    ph !! owned = Some Rejected ->
    step {| w_server := s; w_phases := ph |} {| w_server := forget_rejected owned s; w_phases := <[owned := Left]> ph |}
| step_leave s ph owned :
    ph !! owned = Some Finished ->
    step {| w_server := s; w_phases := ph |} {| w_server := forget owned s; w_phases := <[owned := Left]> ph |}
| step_done s ph owned :
    ph !! owned = Some Left ->
    step {| w_server := s; w_phases := ph |} {| w_server := wg_Done s; w_phases := delete owned ph |}
| step_acquire s ph key created :
    step {| w_server := s; w_phases := ph |} {| w_server := noteSessionAcquire key created s; w_phases := ph |}
| step_bound s ph binding :
    step {| w_server := s; w_phases := ph |} {| w_server := (handleObservedSessionBound binding s).1; w_phases := ph |}
| step_unbound s ph binding :
    step {| w_server := s; w_phases := ph |} {| w_server := (handleObservedSessionUnbound binding s).1; w_phases := ph |}
| step_stop s ph drained :
    step {| w_server := s; w_phases := ph |} {| w_server := (Stop drained s).1; w_phases := ph |}.

Inductive serving (maxConns maxPerIP maxPerAuth : Z) : world -> Prop :=
| serving_init : serving maxConns maxPerIP maxPerAuth {| w_server := NewServer maxConns maxPerIP maxPerAuth; w_phases := ∅ |}
| serving_step w w' : serving maxConns maxPerIP maxPerAuth w -> step w w' -> serving maxConns maxPerIP maxPerAuth w'.

(** * Counting *)

Definition ip_weight (ip : string) (st : connectionState) : Z := if bool_decide (cs_remoteIP st = ip) then 1 else 0.

Definition auth_weight (k : Z) (st : connectionState) : Z :=
  if bool_decide (cs_authCounted st = true /\ cs_authKeyID st = k) then 1 else 0.

Definition session_weight (st : connectionState) : Z := Z.of_nat (size (cs_activeSessions st)).

(** What a quota's map holds: the count of each key, and no zeroes. *)
Definition counts {K} `{Countable K} (m : gmap K Z) (k : K) (n : Z) : Prop := count_of m k = n /\ m !! k <> Some 0.

(** * The invariant *)

Section Invariant.
Context (maxConns maxPerIP maxPerAuth : Z).

Record inv (s : Server) (ph : gmap nat phase) : Prop := {
  i_max : maxConnections s = maxConns /\ maxConnectionsPerIP s = maxPerIP /\ maxConnectionsPerAuthKey s = maxPerAuth;
  i_states c : is_Some (connectionStates s !! c) <-> ph !! c = Some Serving;
  i_owner c st : connectionStates s !! c = Some st ->
    cs_owner st = c /\ connectionByID s !! cs_id st = Some c /\
    cs_activeSessionsOnConnection st = session_weight st /\ (cs_authCounted st = true -> cs_authKeyID st <> 0);
  i_ids id c : connectionByID s !! id = Some c ->
    0 < id <= nextConnectionID s /\ exists st, connectionStates s !! c = Some st /\ cs_id st = id;
  i_numbered c ip id : ph !! c = Some (Numbered ip id) ->
    0 < id <= nextConnectionID s /\ connectionByID s !! id = None /\
    forall c' ip', ph !! c' = Some (Numbered ip' id) -> c' = c;
  i_next : 0 <= nextConnectionID s < 2 ^ 64;
  i_connections c : c ∈ connections s <-> exists p, ph !! c = Some p /\ p <> Left;
  i_wg : connectionWG s = Z.of_nat (size ph);
  i_ip ip : ip <> ""%string -> counts (activeConnectionsByIP s) ip (total (ip_weight ip) (connectionStates s));
  i_auth k : k <> 0 -> counts (activeConnectionsByAuth s) k (total (auth_weight k) (connectionStates s));
  i_sessions : activeSessions s = total session_weight (connectionStates s);
  i_limit : 0 < maxConns -> Z.of_nat (size (connectionStates s)) <= maxConns;
  i_limit_ip ip : 0 < maxPerIP -> ip <> ""%string -> count_of (activeConnectionsByIP s) ip <= maxPerIP;
  i_limit_auth k : 0 < maxPerAuth -> k <> 0 -> count_of (activeConnectionsByAuth s) k <= maxPerAuth
}.

Lemma inv_init : inv (NewServer maxConns maxPerIP maxPerAuth) ∅.
Proof.
  assert (Hc : forall {K} `{Countable K} (k : K), count_of (∅ : gmap K Z) k = 0) by (intros; unfold count_of; by rewrite lookup_empty).
  split; unfold NewServer; cbn [maxConnections maxConnectionsPerIP maxConnectionsPerAuthKey connections connectionStates
    connectionByID activeConnectionsByIP activeConnectionsByAuth activeSessions nextConnectionID connectionWG].
  - done.
  - intros c. rewrite !lookup_empty. split; [by intros []|done].
  - intros c st. by rewrite lookup_empty.
  - intros id c. by rewrite lookup_empty.
  - intros c ip id. by rewrite lookup_empty.
  - done.
  - intros c. split; [set_solver|]. intros (p & H & _). by rewrite lookup_empty in H.
  - done.
  - intros ip _. split; [by rewrite Hc, total_empty|by rewrite lookup_empty].
  - intros k _. split; [by rewrite Hc, total_empty|by rewrite lookup_empty].
  - by rewrite total_empty.
  - intros. rewrite map_size_empty. lia.
  - intros. rewrite Hc. lia.
  - intros. rewrite Hc. lia.
Qed.

(** ** Counters *)

Lemma counts_up {K} `{Countable K} (m : gmap K Z) k k' n :
  counts m k' n -> 0 <= n -> counts (<[k := count_of m k + 1]> m) k' (n + if bool_decide (k' = k) then 1 else 0).
Proof.
  intros [Hc Hz] Hn. unfold counts, count_of in *. case_bool_decide as E; [subst k'|].
  - rewrite lookup_insert_eq. rewrite Hc. simpl. split; [done|]. intros [= ?]. lia.
  - rewrite lookup_insert_ne by done. split; [lia|done].
Qed.

Lemma counts_down {K} `{Countable K} (m : gmap K Z) k k' n :
  counts m k' n -> (k' = k -> 0 < n) -> counts (decrement m k).1 k' (n - if bool_decide (k' = k) then 1 else 0).
Proof.
  intros [Hc Hz] Hn. unfold counts, decrement, count_of in *.
  case_bool_decide as E; [subst k'; specialize (Hn eq_refl)|].
  - rewrite Hc. destruct (Z.leb_spec (n - 1) 0); simpl.
    + rewrite lookup_delete_eq. simpl. split; [lia|done].
    + rewrite lookup_insert_eq. simpl. split; [lia|]. intros [= ?]. lia.
  - destruct (_ <=? 0); simpl; [rewrite lookup_delete_ne by done|rewrite lookup_insert_ne by done];
      (split; [lia|done]).
Qed.

Lemma count_down_le {K} `{Countable K} (m : gmap K Z) k k' b :
  count_of m k' <= b -> 0 <= b -> count_of (decrement m k).1 k' <= b.
Proof.
  intros Hb Hb0. unfold decrement. destruct (Z.leb_spec (count_of m k - 1) 0) as [Hn|Hn]; simpl; unfold count_of in *;
    (destruct (decide (k' = k)) as [->|]; [rewrite ?lookup_delete_eq, ?lookup_insert_eq|rewrite ?lookup_delete_ne, ?lookup_insert_ne by done]);
    simpl; lia.
Qed.

Lemma drain_spec keys : forall active, Z.of_nat (length keys) <= active -> drain keys active = active - Z.of_nat (length keys).
Proof.
  induction keys as [|k keys IH]; intros active Ha; simpl in *; [lia|].
  destruct (Z.ltb_spec 0 active); [|lia]. rewrite IH; lia.
Qed.

Lemma ip_weight_nonneg ip st : 0 <= ip_weight ip st.
Proof. unfold ip_weight. case_bool_decide; lia. Qed.

Lemma auth_weight_nonneg k st : 0 <= auth_weight k st.
Proof. unfold auth_weight. case_bool_decide; lia. Qed.

Lemma session_weight_nonneg st : 0 <= session_weight st.
Proof. unfold session_weight. lia. Qed.

(** ** Changing the object of a serving connection *)

Lemma inv_replace s ph st st' auth sessions c :
  inv s ph -> connectionStates s !! c = Some st ->
  cs_owner st' = c -> cs_id st' = cs_id st -> cs_remoteIP st' = cs_remoteIP st ->
  cs_activeSessionsOnConnection st' = session_weight st' -> (cs_authCounted st' = true -> cs_authKeyID st' <> 0) ->
  (forall k, k <> 0 -> counts auth k (total (auth_weight k) (connectionStates s) - auth_weight k st + auth_weight k st')) ->
  (forall k, 0 < maxPerAuth -> k <> 0 -> count_of auth k <= maxPerAuth) ->
  sessions = activeSessions s - session_weight st + session_weight st' ->
  inv (put_state st' (set_counts (activeConnectionsByIP s) auth sessions s)) ph.
Proof.
  intros I Hc Ho Hid Hip Hon Hk Hauth Hla Hs. unfold put_state. subst c. pose proof (fun f => total_replace f _ _ _ st' Hc) as Ht.
  split; cbn [set_states set_counts maxConnections maxConnectionsPerIP maxConnectionsPerAuthKey connections connectionStates
    connectionByID activeConnectionsByIP activeConnectionsByAuth activeSessions nextConnectionID connectionWG];
    try apply I.
  - intros c. rewrite lookup_insert_is_Some, <- (i_states _ _ I). destruct (decide (cs_owner st' = c)) as [<-|]; naive_solver.
  - intros c x. rewrite lookup_insert_Some. intros [[<- <-]|[_ Hx]]; [|by apply (i_owner _ _ I)].
    rewrite Hid. split_and!; [done| |done|done]. apply (i_owner _ _ I _ _ Hc).
  - intros id c H. destruct (i_ids _ _ I _ _ H) as (Hr & x & Hx & Hxid). split; [done|].
    destruct (decide (cs_owner st' = c)) as [<-|]; [rewrite lookup_insert_eq|rewrite lookup_insert_ne by done; eauto].
    exists st'. split; [done|]. naive_solver.
  - intros ip Hne. rewrite Ht. replace (ip_weight ip st') with (ip_weight ip st) by (unfold ip_weight; by rewrite Hip).
    replace (_ - _ + _) with (total (ip_weight ip) (connectionStates s)) by lia. by apply I.
  - intros k Hne. rewrite Ht. by apply Hauth.
  - rewrite Ht. rewrite (i_sessions _ _ I) in Hs. done.
  - intros. rewrite map_size_insert_Some by eauto. by apply I.
  - exact Hla.
Qed.

Lemma inv_pending s ph p : inv s ph -> inv (set_pending p s) ph.
Proof. intros []. by split. Qed.

Lemma state_by_id_spec s ph id st :
  inv s ph -> state_by_id id s = Some st -> connectionStates s !! cs_owner st = Some st /\ cs_id st = id.
Proof.
  intros I. unfold state_by_id. destruct (connectionByID s !! id) as [c|] eqn:E; simpl; [|done]. intros H.
  destruct (i_owner _ _ I _ _ H) as [-> _]. split; [done|]. destruct (i_ids _ _ I _ _ E) as (_ & x & Hx & <-). congruence.
Qed.

Lemma session_weight_add st key n :
  key ∉ cs_activeSessions st -> session_weight (set_sessions ({[key]} ∪ cs_activeSessions st) n st) = session_weight st + 1.
Proof. intros. unfold session_weight. simpl. rewrite size_union, size_singleton by set_solver. lia. Qed.

Lemma session_weight_remove st key n :
  key ∈ cs_activeSessions st -> session_weight (set_sessions (cs_activeSessions st ∖ {[key]}) n st) = session_weight st - 1.
Proof.
  intros H. unfold session_weight. simpl. rewrite size_difference, size_singleton by set_solver.
  assert (size (cs_activeSessions st) <> 0)%nat; [|lia]. intros E%size_empty_inv. set_solver.
Qed.

(** Counting a connection towards its key keeps the quota exact and within its limit. *)
Lemma count_auth_spec binding state s ph c st st' auth :
  inv s ph -> connectionStates s !! c = Some st -> state = set_observed (cs_closeReason st) st ->
  count_auth binding state s = Some (st', auth) ->
  (cs_authCounted st' = true -> cs_authKeyID st' <> 0) /\
  (forall k, k <> 0 -> counts auth k (total (auth_weight k) (connectionStates s) - auth_weight k st + auth_weight k st')) /\
  (forall k, 0 < maxPerAuth -> k <> 0 -> count_of auth k <= maxPerAuth) /\
  cs_owner st' = cs_owner st /\ cs_id st' = cs_id st /\ cs_remoteIP st' = cs_remoteIP st /\
  cs_activeSessions st' = cs_activeSessions st /\ cs_activeSessionsOnConnection st' = cs_activeSessionsOnConnection st.
Proof.
  intros I Hc -> Ha. destruct (i_owner _ _ I _ _ Hc) as (_ & _ & _ & Hk'). unfold count_auth in Ha. simpl in Ha.
  assert (Hsame : forall k, k <> 0 -> counts (activeConnectionsByAuth s) k
    (total (auth_weight k) (connectionStates s) - auth_weight k st + auth_weight k (set_observed (cs_closeReason st) st))).
  { intros k Hne. change (auth_weight k (set_observed _ st)) with (auth_weight k st). rewrite Z.sub_add. by apply I. }
  destruct (cs_authCounted st) eqn:Ec in Ha; simpl in Ha; [simplify_eq; split_and!; [exact Hk'|exact Hsame|apply I|done..]|].
  destruct (Z.eqb_spec (bd_AuthKeyID binding) 0) as [E0|E0]; simpl in Ha; [simplify_eq; split_and!; [exact Hk'|exact Hsame|apply I|done..]|].
  destruct (_ && _) eqn:El in Ha; simplify_eq. split_and!; try done.
  - intros k Hne. pose proof (counts_up _ (bd_AuthKeyID binding) k _ (i_auth _ _ I k Hne) (total_nonneg _ _ (auth_weight_nonneg k))) as Hup.
    unfold auth_weight at 2 3. rewrite Ec, bool_decide_false, Z.sub_0_r by naive_solver. simpl.
    rewrite (bool_decide_ext (true = true /\ bd_AuthKeyID binding = k) (k = bd_AuthKeyID binding)) by naive_solver. done.
  - intros k Hpos Hne. destruct (i_max _ _ I) as (_ & _ & Hm). rewrite Hm, andb_false_iff, Z.ltb_ge, Z.leb_gt in El.
    pose proof (i_limit_auth _ _ I k Hpos Hne) as Hle. unfold count_of in *. destruct (decide (k = bd_AuthKeyID binding)) as [->|].
    + rewrite lookup_insert_eq. simpl. lia.
    + by rewrite lookup_insert_ne.
Qed.

Lemma inv_bound s ph binding : inv s ph -> inv (handleObservedSessionBound binding s).1 ph.
Proof.
  intros I0. unfold handleObservedSessionBound.
  destruct (consumeSessionAcquire (sessionKeyFromBinding binding) s) as [source s1] eqn:Ec.
  assert (I : inv s1 ph).
  { unfold consumeSessionAcquire in Ec. destruct (_ !! _) in Ec; simplify_eq; [by apply inv_pending|done]. }
  clear I0 Ec s. rename s1 into s. destruct (state_by_id _ s) as [st|] eqn:Es; [|done].
  destruct (state_by_id_spec _ _ _ _ I Es) as [Hst _]. destruct (i_owner _ _ I _ _ Hst) as (_ & _ & Hon & Hk).
  destruct (count_auth _ _ s) as [[st' auth]|] eqn:Ea; simpl.
  - destruct (count_auth_spec _ _ _ _ _ _ _ _ I Hst eq_refl Ea) as (Hk' & Hauth & Hla & Ho & Hid & Hip & Hss & Hn).
    assert (Hw : session_weight st' = session_weight st) by (unfold session_weight; by rewrite Hss).
    destruct (bool_decide_reflect (sessionKeyFromBinding binding ∈ cs_activeSessions st')) as [Hin|Hin].
    + apply (inv_replace _ _ st _ _ _ (cs_owner st)); try done; [by rewrite Hn, Hon|lia].
    + apply (inv_replace _ _ st _ _ _ (cs_owner st)); try done; rewrite session_weight_add by done; simpl; lia.
  - pose proof (inv_replace s ph st (set_observed "auth_connection_limit" (set_observed (cs_closeReason st) st))
      (activeConnectionsByAuth s) (activeSessions s) (cs_owner st) I Hst) as H. unfold put_state, set_states, set_counts in *. simpl in *.
    apply H; try done.
    + intros k Hne. change (auth_weight k (set_observed _ _)) with (auth_weight k st). rewrite Z.sub_add. by apply I.
    + apply I.
    + change (session_weight (set_observed _ _)) with (session_weight st). lia.
Qed.

Lemma inv_unbound s ph binding : inv s ph -> inv (handleObservedSessionUnbound binding s).1 ph.
Proof.
  intros I. unfold handleObservedSessionUnbound. destruct (state_by_id _ s) as [st|] eqn:Es; [|done].
  destruct (bool_decide_reflect (sessionKeyFromBinding binding ∈ cs_activeSessions st)) as [Hin|]; [|done]. simpl.
  destruct (state_by_id_spec _ _ _ _ I Es) as [Hst _]. destruct (i_owner _ _ I _ _ Hst) as (_ & _ & Hon & Hk).
  assert (Hp : 0 < session_weight st).
  { unfold session_weight. assert (size (cs_activeSessions st) <> 0)%nat; [|lia]. intros E%size_empty_inv. set_solver. }
  pose proof (weight_le_total _ _ _ _ session_weight_nonneg Hst) as Hle. rewrite <- (i_sessions _ _ I) in Hle.
  destruct (Z.ltb_spec 0 (cs_activeSessionsOnConnection st)); [|lia]. destruct (Z.ltb_spec 0 (activeSessions s)); [|lia].
  apply (inv_replace _ _ st _ _ _ (cs_owner st)); try done.
  - rewrite session_weight_remove by done. simpl. lia.
  - intros k Hne. change (auth_weight k (set_sessions _ _ st)) with (auth_weight k st). rewrite Z.sub_add. by apply I.
  - apply I.
  - rewrite session_weight_remove by done. lia.
Qed.

Ltac inv_fields := cbn [set_states set_counts set_connections set_lifecycle maxConnections maxConnectionsPerIP
  maxConnectionsPerAuthKey connections connectionStates connectionByID activeConnectionsByIP activeConnectionsByAuth
  activeSessions nextConnectionID connectionWG].

(** A phase change between phases that are neither numbered nor serving. *)
Lemma connections_size s ph c :
  inv s ph -> connectionStates s !! c = None -> c ∈ connections s ->
  Z.of_nat (size (connectionStates s)) + 1 <= len_connections s.
Proof.
  intros I Hc Hin. unfold len_connections. rewrite <- size_dom.
  assert (Hs : {[c]} ∪ dom (connectionStates s) ⊆ connections s).
  { intros x [->%elem_of_singleton|Hx%elem_of_dom]%elem_of_union; [done|].
    apply (i_connections _ _ I). exists Serving. split; [by apply (i_states _ _ I)|done]. }
  apply subseteq_size in Hs. rewrite size_union, size_singleton in Hs; [lia|].
  apply disjoint_singleton_l. by rewrite not_elem_of_dom.
Qed.

Lemma admitted_within s ph c id ip s' evs :
  inv s ph -> admitConnection c id ip s = (true, s', evs) ->
  (0 < maxConns -> len_connections s <= maxConns) /\
  (0 < maxPerIP -> ip <> ""%string -> count_of (activeConnectionsByIP s) ip < maxPerIP).
Proof.
  intros I. unfold admitConnection. destruct (i_max _ _ I) as (-> & -> & _).
  destruct (_ && (_ <? len_connections s)) eqn:E1; [done|]. destruct (_ && _ && _) eqn:E2; [done|]. intros _.
  rewrite andb_false_iff, Z.ltb_ge, Z.ltb_ge in E1.
  rewrite !andb_false_iff, negb_false_iff, String.eqb_eq, Z.ltb_ge, Z.leb_gt in E2. split; [lia|]. naive_solver lia.
Qed.

Lemma inv_admit s ph c id ip s' evs :
  inv s ph -> ph !! c = Some (Numbered ip id) -> admitConnection c id ip s = (true, s', evs) ->
  inv s' (<[c := Serving]> ph).
Proof.
  intros I Hc Ha. destruct (admitted_within _ _ _ _ _ _ _ I Ha) as [Hl Hlip].
  destruct (i_numbered _ _ I _ _ _ Hc) as (Hid & Hfree & Huniq).
  assert (Hnone : connectionStates s !! c = None).
  { apply eq_None_not_Some. rewrite (i_states _ _ I). congruence. }
  assert (Hin : c ∈ connections s) by (apply (i_connections _ _ I); eauto).
  unfold admitConnection in Ha. destruct (_ && _) in Ha; [done|]. destruct (_ && _ && _) in Ha; [done|]. simplify_eq.
  set (st := set_reports _ _ _ _ _). pose proof (fun f => total_insert f _ _ st Hnone) as Ht.
  split; inv_fields; try apply I.
  - intros c'. destruct (decide (c' = c)) as [->|Hne]; [rewrite !lookup_insert_eq; naive_solver|].
    rewrite !lookup_insert_ne by done. apply I.
  - intros c' x. rewrite lookup_insert_Some. intros [[<- <-]|[Hne Hx]].
    { split_and!; [done|apply lookup_insert_eq|by unfold session_weight|done]. }
    destruct (i_owner _ _ I _ _ Hx) as (H1 & H2 & H3). split; [done|]. split; [|done].
    rewrite lookup_insert_ne; [done|]. intros ->. simpl in Hfree. congruence.
  - intros id' c'. rewrite lookup_insert_Some. intros [[<- <-]|[Hne H]].
    { split; [done|]. exists st. by rewrite lookup_insert_eq. }
    destruct (i_ids _ _ I _ _ H) as (Hr & x & Hx & Hxid). split; [done|]. exists x.
    rewrite lookup_insert_ne; [done|]. intros ->. congruence.
  - intros c' ip' id'. rewrite lookup_insert_Some. intros [[_ ?]|[Hne H]]; [done|].
    destruct (i_numbered _ _ I _ _ _ H) as (Hr & Hf & Hu). split; [done|]. split.
    + rewrite lookup_insert_ne; [done|]. intros ->. by apply Hne, eq_sym, (Huniq _ ip').
    + intros c2 ip2. rewrite lookup_insert_Some. intros [[_ ?]|[_ ?]]; [done|]. by apply (Hu _ ip2).
  - intros c'. rewrite (i_connections _ _ I). destruct (decide (c' = c)) as [->|Hne];
      [rewrite lookup_insert_eq; naive_solver|by rewrite lookup_insert_ne].
  - rewrite map_size_insert_Some by eauto. apply I.
  - intros ip' Hne. rewrite Ht. destruct (String.eqb_spec ip "") as [->|Hip].
    + unfold ip_weight at 1. simpl. rewrite bool_decide_false by done. by apply I.
    + rewrite (Z.add_comm (ip_weight ip' st)). unfold ip_weight at 2. change (cs_remoteIP st) with ip. rewrite (bool_decide_ext (ip = ip') (ip' = ip)) by naive_solver.
      apply counts_up; [by apply I|apply total_nonneg, ip_weight_nonneg].
  - intros k Hne. rewrite Ht. replace (auth_weight k st) with 0; [by apply I|].
    unfold auth_weight. by rewrite bool_decide_false by (by intros [? _]).
  - rewrite Ht. rewrite (i_sessions _ _ I). by unfold session_weight at 2.
  - intros Hpos. rewrite map_size_insert_None by done. pose proof (connections_size _ _ _ I Hnone Hin). specialize (Hl Hpos). lia.
  - intros ip' Hpos Hne. pose proof (i_limit_ip _ _ I ip' Hpos Hne). destruct (String.eqb_spec ip "") as [->|Hip]; [done|].
    specialize (Hlip Hpos Hip). unfold count_of in *. destruct (decide (ip' = ip)) as [->|];
      [rewrite lookup_insert_eq; simpl; lia|by rewrite lookup_insert_ne].
Qed.

(** A connection enters a phase that is neither numbered, serving nor left. *)
Lemma inv_phase s ph c p p' :
  inv s ph -> ph !! c = Some p -> p <> Serving -> p <> Left ->
  p' <> Serving -> p' <> Left -> (forall ip id, p' <> Numbered ip id) -> inv s (<[c := p']> ph).
Proof.
  intros I Hc Hp1 Hp2 Hp'1 Hp'2 Hn. split; try apply I.
  - intros c'. rewrite (i_states _ _ I). destruct (decide (c' = c)) as [->|]; [rewrite lookup_insert_eq|by rewrite lookup_insert_ne].
    naive_solver.
  - intros c' ip id. rewrite lookup_insert_Some. intros [[_ E]|[_ H]]; [by apply Hn in E|].
    destruct (i_numbered _ _ I _ _ _ H) as (Hr & Hf & Hu). split; [done|]. split; [done|].
    intros c2 ip2. rewrite lookup_insert_Some. intros [[_ E]|[_ H2]]; [by apply Hn in E|by apply (Hu _ ip2)].
  - intros c'. rewrite (i_connections _ _ I). destruct (decide (c' = c)) as [->|]; [rewrite lookup_insert_eq|by rewrite lookup_insert_ne].
    naive_solver.
  - rewrite map_size_insert_Some by eauto. apply I.
Qed.

Lemma inv_number s ph c ip :
  inv s ph -> ph !! c = Some (Joined ip) -> nextConnectionID s < 2 ^ 64 - 1 ->
  inv (nextConnID s).2 (<[c := Numbered ip (nextConnID s).1]> ph).
Proof.
  intros I Hc Hlt. pose proof (i_next _ _ I) as Hn. unfold nextConnID. cbn [fst snd].
  rewrite (wrapU_id 64 (nextConnectionID s + 1)) by (unfold inU; lia).
  assert (Hfresh : forall c' ip', ph !! c' <> Some (Numbered ip' (nextConnectionID s + 1))).
  { intros c' ip' (? & _)%(i_numbered _ _ I). lia. }
  split; inv_fields; try apply I.
  - intros c'. rewrite (i_states _ _ I). destruct (decide (c' = c)) as [->|]; [rewrite lookup_insert_eq|by rewrite lookup_insert_ne].
    naive_solver.
  - intros id c' H. destruct (i_ids _ _ I _ _ H). split; [lia|done].
  - intros c' ip' id'. rewrite lookup_insert_Some. intros [[<- E]|[Hne H]].
    + simplify_eq. split; [lia|]. split.
      { apply eq_None_not_Some. intros [c' (? & _)%(i_ids _ _ I)]. lia. }
      intros c2 ip2. rewrite lookup_insert_Some. intros [[-> _]|[_ H2]]; [done|by apply Hfresh in H2].
    + destruct (i_numbered _ _ I _ _ _ H) as (Hr & Hf & Hu). split; [lia|]. split; [done|].
      intros c2 ip2. rewrite lookup_insert_Some. intros [[<- E]|[_ H2]]; [|by apply (Hu _ ip2)]. simplify_eq. lia.
  - lia.
  - intros c'. rewrite (i_connections _ _ I). destruct (decide (c' = c)) as [->|]; [rewrite lookup_insert_eq|by rewrite lookup_insert_ne].
    naive_solver.
  - rewrite map_size_insert_Some by eauto. apply I.
Qed.

Lemma inv_accept s ph c ip s' evs :
  inv s ph -> ph !! c = None -> serveConn c s = (true, s', evs) -> inv s' (<[c := Joined ip]> ph).
Proof.
  intros I Hc. unfold serveConn. destruct (sv_stopped s); [done|]. intros [= <- <-]. split; inv_fields; try apply I.
  - intros c'. rewrite (i_states _ _ I). destruct (decide (c' = c)) as [->|]; [rewrite lookup_insert_eq|by rewrite lookup_insert_ne].
    naive_solver.
  - intros c' ip' id. rewrite lookup_insert_Some. intros [[_ E]|[_ H]]; [done|].
    destruct (i_numbered _ _ I _ _ _ H) as (Hr & Hf & Hu). split; [done|]. split; [done|].
    intros c2 ip2. rewrite lookup_insert_Some. intros [[_ E]|[_ H2]]; [done|by apply (Hu _ ip2)].
  - intros c'. rewrite elem_of_union, elem_of_singleton, (i_connections _ _ I). destruct (decide (c' = c)) as [->|].
    + rewrite lookup_insert_eq. naive_solver.
    + rewrite lookup_insert_ne by done. naive_solver.
  - rewrite map_size_insert_None, (i_wg _ _ I) by done. lia.
Qed.

Lemma inv_leave s ph c p :
  inv s ph -> ph !! c = Some p -> p = Rejected \/ p = Finished -> inv (forget c s) (<[c := Left]> ph).
Proof.
  intros I Hc Hp. unfold forget. split; inv_fields; try apply I.
  - intros c'. rewrite (i_states _ _ I). destruct (decide (c' = c)) as [->|]; [rewrite lookup_insert_eq|by rewrite lookup_insert_ne].
    naive_solver.
  - intros c' ip' id. rewrite lookup_insert_Some. intros [[_ E]|[_ H]]; [done|].
    destruct (i_numbered _ _ I _ _ _ H) as (Hr & Hf & Hu). split; [done|]. split; [done|].
    intros c2 ip2. rewrite lookup_insert_Some. intros [[_ E]|[_ H2]]; [done|by apply (Hu _ ip2)].
  - intros c'. rewrite elem_of_difference, elem_of_singleton, (i_connections _ _ I). destruct (decide (c' = c)) as [->|].
    + rewrite lookup_insert_eq. naive_solver.
    + rewrite lookup_insert_ne by done. naive_solver.
  - rewrite map_size_insert_Some by eauto. apply I.
Qed.

(** A rejected connection never had a state to remove. *)
Lemma forget_rejected_forget s ph c : inv s ph -> ph !! c = Some Rejected -> forget_rejected c s = forget c s.
Proof.
  intros I Hc. unfold forget_rejected. cbn [connectionStates forget set_connections]. rewrite delete_id; [by destruct s|].
  apply eq_None_not_Some. rewrite (i_states _ _ I), Hc. done.
Qed.

Lemma inv_done s ph c : inv s ph -> ph !! c = Some Left -> inv (wg_Done s) (delete c ph).
Proof.
  intros I Hc. unfold wg_Done. split; inv_fields; try apply I.
  - intros c'. rewrite (i_states _ _ I), lookup_delete_Some. naive_solver congruence.
  - intros c' ip' id. rewrite lookup_delete_Some. intros [_ H].
    destruct (i_numbered _ _ I _ _ _ H) as (Hr & Hf & Hu). split; [done|]. split; [done|].
    intros c2 ip2. rewrite lookup_delete_Some. intros [_ H2]. by apply (Hu _ ip2).
  - intros c'. rewrite (i_connections _ _ I). setoid_rewrite lookup_delete_Some. split; [|naive_solver].
    intros (p & Hp & Hl). exists p. split; [|done]. split; [|done]. intros ->. congruence.
  - rewrite map_size_delete_Some, (i_wg _ _ I) by eauto. assert (size ph <> 0)%nat; [|lia].
    intros E%map_size_empty_iff. by rewrite E, lookup_empty in Hc.
Qed.

Lemma finish_counts s ph c st :
  inv s ph -> connectionStates s !! c = Some st ->
  (forall ip, ip <> ""%string ->
     counts (if String.eqb (cs_remoteIP st) "" then (activeConnectionsByIP s, cs_activeConnectionsForIP st)
             else decrement (activeConnectionsByIP s) (cs_remoteIP st)).1 ip
       (total (ip_weight ip) (delete c (connectionStates s)))) /\
  (forall k, k <> 0 ->
     counts (if cs_authCounted st && negb (cs_authKeyID st =? 0) then decrement (activeConnectionsByAuth s) (cs_authKeyID st)
             else (activeConnectionsByAuth s, cs_activeConnectionsForAuth st)).1 k
       (total (auth_weight k) (delete c (connectionStates s)))) /\
  drain (elements (cs_activeSessions st)) (activeSessions s) = total session_weight (delete c (connectionStates s)).
Proof.
  intros I Hc. destruct (i_owner _ _ I _ _ Hc) as (_ & _ & _ & Hk).
  pose proof (fun f => total_delete f _ _ _ Hc) as Ht. split_and!.
  - intros ip Hne. pose proof (i_ip _ _ I ip Hne) as Hi. rewrite Ht in Hi.
    pose proof (total_nonneg _ (delete c (connectionStates s)) (ip_weight_nonneg ip)) as Hnn.
    unfold ip_weight in Hi at 1. rewrite (bool_decide_ext _ (ip = cs_remoteIP st)) in Hi by done.
    destruct (String.eqb_spec (cs_remoteIP st) "") as [E|E]; simpl.
    + rewrite bool_decide_false in Hi by congruence. done.
    + apply counts_down with (k := cs_remoteIP st) in Hi; [|intros ->; rewrite bool_decide_true by done; lia].
      by rewrite Z.add_simpl_l in Hi.
  - intros k Hne. pose proof (i_auth _ _ I k Hne) as Hi. rewrite Ht in Hi.
    pose proof (total_nonneg _ (delete c (connectionStates s)) (auth_weight_nonneg k)) as Hnn. unfold auth_weight in Hi at 1.
    destruct (cs_authCounted st) eqn:Ec; simpl.
    + destruct (Z.eqb_spec (cs_authKeyID st) 0) as [E|E]; [by destruct Hk|]. simpl.
      rewrite (bool_decide_ext _ (k = cs_authKeyID st)) in Hi by naive_solver.
      apply counts_down with (k := cs_authKeyID st) in Hi; [|intros ->; rewrite bool_decide_true by done; lia].
      by rewrite Z.add_simpl_l in Hi.
    + rewrite bool_decide_false in Hi by naive_solver. done.
  - pose proof (total_nonneg _ (delete c (connectionStates s)) session_weight_nonneg) as Hnn.
    pose proof (i_sessions _ _ I) as Hs. rewrite Ht in Hs. unfold session_weight in Hs at 1.
    rewrite drain_spec; unfold size, set_size in Hs; simpl in Hs; lia.
Qed.

Lemma inv_finish s ph c reason :
  inv s ph -> ph !! c = Some Serving -> inv (finishConnection c reason s).1 (<[c := Finished]> ph).
Proof.
  intros I Hc. destruct (proj2 (i_states _ _ I c) Hc) as [st Hst].
  destruct (finish_counts _ _ _ _ I Hst) as (Hip & Hauth & Hs). destruct (i_owner _ _ I _ _ Hst) as (Ho & Hid & _ & Hk).
  unfold finishConnection. rewrite Hst. inv_fields.
  destruct (if String.eqb _ _ then _ else _) as [ip forIP] eqn:Ei.
  destruct (if cs_authCounted st && _ then _ else _) as [auth forAuth] eqn:Ea. cbn [fst] in Hip, Hauth |- *.
  split; inv_fields; try apply I.
  - intros c'. destruct (decide (c' = c)) as [->|Hne].
    + rewrite lookup_delete_eq, lookup_insert_eq. split; [by intros []|done].
    + rewrite lookup_delete_ne, lookup_insert_ne by done. apply I.
  - intros c' x. rewrite lookup_delete_Some. intros [Hne Hx]. destruct (i_owner _ _ I _ _ Hx) as (H1 & H2 & H3).
    split; [done|]. split; [|done]. apply lookup_delete_Some. split; [|done]. intros E. rewrite E in Hid. congruence.
  - intros id' c' [Hne H]%lookup_delete_Some. destruct (i_ids _ _ I _ _ H) as (Hr & x & Hx & Hxid). split; [done|].
    exists x. split; [|done]. apply lookup_delete_Some. split; [|done]. intros ->. congruence.
  - intros c' ip' id'. rewrite lookup_insert_Some. intros [[_ E]|[_ H]]; [done|].
    destruct (i_numbered _ _ I _ _ _ H) as (Hr & Hf & Hu). split; [done|]. split; [by apply lookup_delete_None; right|].
    intros c2 ip2. rewrite lookup_insert_Some. intros [[_ E]|[_ H2]]; [done|by apply (Hu _ ip2)].
  - intros c'. rewrite (i_connections _ _ I). destruct (decide (c' = c)) as [->|]; [rewrite lookup_insert_eq|by rewrite lookup_insert_ne].
    naive_solver.
  - rewrite map_size_insert_Some by eauto. apply I.
  - exact Hip.
  - exact Hauth.
  - exact Hs.
  - intros Hpos. rewrite map_size_delete_Some by eauto. pose proof (i_limit _ _ I Hpos). lia.
  - intros ip' Hpos Hne. pose proof (i_limit_ip _ _ I ip' Hpos Hne). destruct (String.eqb _ _); simplify_eq; [done|].
    replace ip with (decrement (activeConnectionsByIP s) (cs_remoteIP st)).1 by (by rewrite Ei). apply count_down_le; [done|lia].
  - intros k Hpos Hne. pose proof (i_limit_auth _ _ I k Hpos Hne). destruct (cs_authCounted st && _); simplify_eq; [|done].
    replace auth with (decrement (activeConnectionsByAuth s) (cs_authKeyID st)).1 by (by rewrite Ea). apply count_down_le; [done|lia].
Qed.

Lemma inv_step s ph s' ph' :
  inv s ph -> step {| w_server := s; w_phases := ph |} {| w_server := s'; w_phases := ph' |} -> inv s' ph'.
Proof.
  intros I Hs. inversion Hs; subst.
  - by eapply inv_accept.
  - by apply inv_number.
  - destruct admitted; [by eapply inv_admit|].
    match goal with H : admitConnection _ _ _ s = _ |- _ => unfold admitConnection in H end.
    repeat case_match; simplify_eq; by eapply inv_phase.
  - by apply inv_finish.
  - erewrite forget_rejected_forget by done. eapply inv_leave; eauto.
  - eapply inv_leave; eauto.
  - by apply inv_done.
  - by apply inv_pending.
  - by apply inv_bound.
  - by apply inv_unbound.
  - unfold Stop. destruct (sv_stopped s); [done|]. destruct I. by split.
Qed.

Lemma serving_inv w : serving maxConns maxPerIP maxPerAuth w -> inv (w_server w) (w_phases w).
Proof.
  induction 1 as [|[s ph] [s' ph'] _ IH Hs]; [apply inv_init|]. by apply (inv_step s ph).
Qed.

End Invariant.

Lemma counts_zero {K} `{Countable K} (m : gmap K Z) k : counts m k 0 -> m !! k = None.
Proof. intros [Hc Hz]. unfold count_of in Hc. destruct (m !! k); [simpl in Hc; congruence|done]. Qed.

(** C13. However connections are accepted, numbered, admitted, served, limited, finished
    and forgotten, and sessions announced and withdrawn, the server's books are exact and
    its limits hold: it has a state for exactly the connections being served, at most the
    configured number; each remote address and each auth key is charged with exactly the
    served connections of that address or counted for that key, never above its quota;
    the session counters are the numbers of distinct announced sessions, in total and per
    connection; and the wait group waits for exactly the connections in progress.  When
    none is left, every book is empty. *)
Theorem admission_books_exact maxConns maxPerIP maxPerAuth w :
  serving maxConns maxPerIP maxPerAuth w ->
  let s := w_server w in
  (forall c, is_Some (connectionStates s !! c) <-> w_phases w !! c = Some Serving) /\
  (0 < maxConns -> Z.of_nat (size (connectionStates s)) <= maxConns) /\
  (forall ip, ip <> ""%string ->
     count_of (activeConnectionsByIP s) ip = total (ip_weight ip) (connectionStates s) /\
     (0 < maxPerIP -> total (ip_weight ip) (connectionStates s) <= maxPerIP)) /\
  (forall k, k <> 0 ->
     count_of (activeConnectionsByAuth s) k = total (auth_weight k) (connectionStates s) /\
     (0 < maxPerAuth -> total (auth_weight k) (connectionStates s) <= maxPerAuth)) /\
  activeSessions s = total session_weight (connectionStates s) /\
  (forall c st, connectionStates s !! c = Some st -> cs_activeSessionsOnConnection st = session_weight st) /\
  connectionWG s = Z.of_nat (size (w_phases w)) /\
  (w_phases w = ∅ -> connections s = ∅ /\ connectionStates s = ∅ /\ connectionByID s = ∅ /\ activeSessions s = 0 /\
     connectionWG s = 0 /\ (forall ip, ip <> ""%string -> activeConnectionsByIP s !! ip = None) /\
     (forall k, k <> 0 -> activeConnectionsByAuth s !! k = None)).
Proof.
  intros I%serving_inv. destruct w as [s ph]. simpl in *. split_and!.
  - apply I.
  - apply I.
  - intros ip Hne. destruct (i_ip _ _ _ _ _ I ip Hne) as [Hc _]. split; [done|]. rewrite <- Hc. intros. by apply I.
  - intros k Hne. destruct (i_auth _ _ _ _ _ I k Hne) as [Hc _]. split; [done|]. rewrite <- Hc. intros. by apply I.
  - apply I.
  - intros c st H. apply (i_owner _ _ _ _ _ I _ _ H).
  - apply I.
  - intros ->. assert (Hst : connectionStates s = ∅).
    { apply map_eq. intros c. rewrite lookup_empty. apply eq_None_not_Some. rewrite (i_states _ _ _ _ _ I). by rewrite lookup_empty. }
    split_and!; [|done| | | | |].
    + apply set_eq. intros c. rewrite (i_connections _ _ _ _ _ I). split; [|set_solver]. intros (p & H & _). by rewrite lookup_empty in H.
    + apply map_eq. intros id. rewrite lookup_empty. apply eq_None_not_Some.
      intros [c (_ & st & H & _)%(i_ids _ _ _ _ _ I)]. by rewrite Hst, lookup_empty in H.
    + by rewrite (i_sessions _ _ _ _ _ I), Hst.
    + by rewrite (i_wg _ _ _ _ _ I).
    + intros ip Hne. apply counts_zero. rewrite <- (total_empty (ip_weight ip)), <- Hst. by apply I.
    + intros k Hne. apply counts_zero. rewrite <- (total_empty (auth_weight k)), <- Hst. by apply I.
Qed.

(** * Handler slots *)

(** [acquireHandler] and [releaseHandler]: the buffered channel [handlerSlots] and the
    counter behind [lifecycleMu] change in separate steps. *)
Inductive handler :=
| Asking
| Waiting
| Slotted
| Counted
| Running
| Stopping
| Unslotted
| Refused
| Ended.

#[export] Instance handler_eq_dec : EqDecision handler.
Proof. solve_decision. Defined.

Record slots := { hs_cap : Z; hs_len : Z; hs_active : Z; hs_shutdown : bool }.

(** The first select refuses after shutdown. *)
Definition precheck (s : slots) : handler := if hs_shutdown s then Refused else Waiting.

(** The second select takes a slot if there is one, also when the server has stopped
    meanwhile, or gives up when the context has ended or the server has stopped: where
    several are ready Go picks any, here [choice]. *)
Definition acquireHandler (choice cancelled : bool) (s : slots) : option (handler * slots) :=
  if choice && (hs_len s <? hs_cap s)
  then Some (Slotted, {| hs_cap := hs_cap s; hs_len := hs_len s + 1; hs_active := hs_active s; hs_shutdown := hs_shutdown s |})
  else if cancelled || hs_shutdown s then Some (Refused, s) else None.

Definition count_handler (s : slots) : slots :=
  {| hs_cap := hs_cap s; hs_len := hs_len s; hs_active := hs_active s + 1; hs_shutdown := hs_shutdown s |}.

(** The check after counting: a handler that meets the shutdown gives its slot back. *)
Definition recheck (s : slots) : handler := if hs_shutdown s then Stopping else Running.

(** [<-s.handlerSlots] blocks on an empty channel. *)
Definition free_slot (s : slots) : option slots :=
  if 0 <? hs_len s
  then Some {| hs_cap := hs_cap s; hs_len := hs_len s - 1; hs_active := hs_active s; hs_shutdown := hs_shutdown s |}
  else None.

Definition uncount_handler (s : slots) : slots :=
  {| hs_cap := hs_cap s; hs_len := hs_len s; hs_active := if 0 <? hs_active s then hs_active s - 1 else hs_active s;
     hs_shutdown := hs_shutdown s |}.

Record pool := { pl_slots : slots; pl_handlers : gmap nat handler }.

(** One step of the handler [h], or the server's shutdown. *)
Inductive handles : pool -> pool -> Prop :=
| handles_ask s hs h :
    hs !! h = None -> handles {| pl_slots := s; pl_handlers := hs |} {| pl_slots := s; pl_handlers := <[h := Asking]> hs |}
| handles_precheck s hs h :
    hs !! h = Some Asking -> handles {| pl_slots := s; pl_handlers := hs |} {| pl_slots := s; pl_handlers := <[h := precheck s]> hs |}
| handles_acquire s hs h choice cancelled x s' :
    hs !! h = Some Waiting -> acquireHandler choice cancelled s = Some (x, s') ->
    handles {| pl_slots := s; pl_handlers := hs |} {| pl_slots := s'; pl_handlers := <[h := x]> hs |}
| handles_count s hs h :
    hs !! h = Some Slotted ->
    handles {| pl_slots := s; pl_handlers := hs |} {| pl_slots := count_handler s; pl_handlers := <[h := Counted]> hs |}
| handles_recheck s hs h :
    hs !! h = Some Counted ->
    handles {| pl_slots := s; pl_handlers := hs |} {| pl_slots := s; pl_handlers := <[h := recheck s]> hs |}
| handles_release s hs h x s' :
    hs !! h = Some x -> x = Running \/ x = Stopping -> free_slot s = Some s' ->
    handles {| pl_slots := s; pl_handlers := hs |} {| pl_slots := s'; pl_handlers := <[h := Unslotted]> hs |}
| handles_uncount s hs h :
    hs !! h = Some Unslotted ->
    handles {| pl_slots := s; pl_handlers := hs |} {| pl_slots := uncount_handler s; pl_handlers := <[h := Ended]> hs |}
| handles_stop s hs :
    handles {| pl_slots := s; pl_handlers := hs |}
      {| pl_slots := {| hs_cap := hs_cap s; hs_len := hs_len s; hs_active := hs_active s; hs_shutdown := true |};
         pl_handlers := hs |}.

Inductive handling (cap : Z) : pool -> Prop :=
| handling_init :
    handling cap {| pl_slots := {| hs_cap := cap; hs_len := 0; hs_active := 0; hs_shutdown := false |}; pl_handlers := ∅ |}
| handling_step p p' : handling cap p -> handles p p' -> handling cap p'.

Definition holds_slot (x : handler) : Z := match x with Slotted | Counted | Running | Stopping => 1 | _ => 0 end.

Definition is_counted (x : handler) : Z := match x with Counted | Running | Stopping | Unslotted => 1 | _ => 0 end.

Definition is_running (x : handler) : Z := match x with Running => 1 | _ => 0 end.

Record pool_ok (cap : Z) (p : pool) : Prop := {
  po_cap : hs_cap (pl_slots p) = cap;
  po_len : hs_len (pl_slots p) = total holds_slot (pl_handlers p);
  po_active : hs_active (pl_slots p) = total is_counted (pl_handlers p);
  po_bound : hs_len (pl_slots p) <= cap
}.

Lemma pool_ok_move cap s hs h x x' s' :
  pool_ok cap {| pl_slots := s; pl_handlers := hs |} -> hs !! h = Some x -> hs_cap s' = hs_cap s ->
  hs_len s' = hs_len s - holds_slot x + holds_slot x' -> hs_active s' = hs_active s - is_counted x + is_counted x' ->
  hs_len s' <= cap -> pool_ok cap {| pl_slots := s'; pl_handlers := <[h := x']> hs |}.
Proof.
  intros [Hc Hl Ha Hb] Hx Hc' Hl' Ha' Hb'. simpl in *. split; simpl; [congruence| | |done];
    rewrite (total_replace _ _ _ _ x' Hx); lia.
Qed.

Lemma handling_ok cap p : 0 <= cap -> handling cap p -> pool_ok cap p.
Proof.
  intros Hcap. induction 1 as [|p p' _ IH Hs]; [by split|]. pose proof (po_bound _ _ IH) as Hb. pose proof (po_cap _ _ IH) as Hc.
  destruct Hs as [s hs h Hn|s hs h Hx|s hs h choice cancelled x s' Hx Ha|s hs h Hx|s hs h Hx|s hs h x s' Hx Hr Hf|s hs h Hx|s hs]; simpl in *.
  - destruct IH as [? Hl Ha _]. split; simpl in *; [done|..|done]; by rewrite total_insert.
  - apply (pool_ok_move cap s hs h Asking); try done; unfold precheck; destruct (hs_shutdown s); simpl; lia.
  - unfold acquireHandler in Ha. destruct choice; simpl in Ha.
    + destruct (Z.ltb_spec (hs_len s) (hs_cap s)); [|destruct (_ || _); [|done]]; simplify_eq;
        eapply pool_ok_move; try done; simpl; lia.
    + destruct (_ || _); simplify_eq. eapply pool_ok_move; try done; simpl; lia.
  - eapply pool_ok_move; try done; simpl; lia.
  - apply (pool_ok_move cap s hs h Counted); try done; unfold recheck; destruct (hs_shutdown s); simpl; lia.
  - unfold free_slot in Hf. destruct (_ <? _); simplify_eq. destruct Hr as [-> | ->]; eapply pool_ok_move; try done; simpl; lia.
  - pose proof (weight_le_total is_counted hs h _ (fun y => ltac:(destruct y; simpl; lia)) Hx) as Hw. simpl in Hw.
    pose proof (po_active _ _ IH) as Ha. simpl in Ha.
    eapply pool_ok_move; try done; simpl; [lia|]. destruct (Z.ltb_spec 0 (hs_active s)); lia.
  - destruct IH. by split.
Qed.

(** In every interleaving of handlers that ask, are cancelled, run and end with a
    shutdown, at most the configured number of handlers run at once; the channel holds
    exactly one token per handler that took a slot and has not given it back, and the
    counter exactly the handlers counted and not yet discounted, which may briefly exceed
    the limit; a release never blocks and the counter is never clamped. *)
Lemma handler_slots_bounded cap p :
  0 <= cap -> handling cap p ->
  total is_running (pl_handlers p) <= cap /\
  hs_len (pl_slots p) = total holds_slot (pl_handlers p) /\
  hs_active (pl_slots p) = total is_counted (pl_handlers p) /\
  (forall h x, pl_handlers p !! h = Some x -> x = Running \/ x = Stopping -> is_Some (free_slot (pl_slots p))) /\
  (forall h, pl_handlers p !! h = Some Unslotted -> hs_active (uncount_handler (pl_slots p)) = hs_active (pl_slots p) - 1).
Proof.
  intros Hcap H. destruct (handling_ok _ _ Hcap H) as [Hc Hl Ha Hb]. split_and!; [|done|done| |].
  - etransitivity; [|exact Hb]. rewrite Hl. apply total_mono. intros []; simpl; lia.
  - intros h x Hx Hr. pose proof (weight_le_total holds_slot _ h x (fun y => ltac:(destruct y; simpl; lia)) Hx) as Hw.
    unfold free_slot. destruct (Z.ltb_spec 0 (hs_len (pl_slots p))); [by eexists|]. destruct Hr as [-> | ->]; simpl in Hw; lia.
  - intros h Hx. pose proof (weight_le_total is_counted _ h _ (fun y => ltac:(destruct y; simpl; lia)) Hx) as Hw. simpl in Hw.
    unfold uncount_handler. simpl. destruct (Z.ltb_spec 0 (hs_active (pl_slots p))); lia.
Qed.

(** * Concrete histories *)

Definition demo_binding : Binding :=
  {| bd_ConnectionID := 1; bd_AuthKeyID := -7; bd_SessionID := 100; bd_LeaseGeneration := 1; bd_ServerSalt := 5;
     bd_UserID := 42; bd_Layer := 160 |}.

(** One connection accepted, numbered, admitted, and a session bound on it. *)
Definition demo_server : Server :=
  let s0 := (serveConn 0 (NewServer 2 1 1)).1.2 in
  let s1 := (nextConnID s0).2 in
  let s2 := (admitConnection 0 1 "10.0.0.1" s1).1.2 in
  (handleObservedSessionBound demo_binding s2).1.

Definition demo_world : world := {| w_server := demo_server; w_phases := {[0%nat := Serving]} |}.

Lemma demo_serving : serving 2 1 1 demo_world.
Proof.
  set (s0 := (serveConn 0 (NewServer 2 1 1)).1.2). set (s1 := (nextConnID s0).2).
  assert (H1 : serving 2 1 1 {| w_server := s0; w_phases := {[0%nat := Joined "10.0.0.1"]} |}).
  { eapply serving_step; [apply serving_init|]. by apply (step_accept (NewServer 2 1 1) ∅ 0 "10.0.0.1" s0 []). }
  assert (H2 : serving 2 1 1 {| w_server := s1; w_phases := {[0%nat := Numbered "10.0.0.1" 1]} |}).
  { rewrite <- (insert_singleton_eq 0%nat _ (Joined "10.0.0.1")). eapply serving_step; [exact H1|].
    by apply (step_number s0 {[0%nat := Joined "10.0.0.1"]} 0 "10.0.0.1"). }
  assert (H3 : serving 2 1 1 {| w_server := (admitConnection 0 1 "10.0.0.1" s1).1.2; w_phases := {[0%nat := Serving]} |}).
  { rewrite <- (insert_singleton_eq 0%nat _ (Numbered "10.0.0.1" 1)). eapply serving_step; [exact H2|].
    by apply (step_admit s1 {[0%nat := Numbered "10.0.0.1" 1]} 0 "10.0.0.1" 1 true _ (admitConnection 0 1 "10.0.0.1" s1).2). }
  eapply serving_step; [exact H3|]. apply step_bound.
Qed.

Lemma admission_books_exact_witness :
  serving 2 1 1 demo_world /\ activeSessions (w_server demo_world) = 1 /\
  count_of (activeConnectionsByAuth (w_server demo_world)) (-7) = total (auth_weight (-7)) (connectionStates (w_server demo_world)).
Proof.
  split; [exact demo_serving|]. split; [vm_compute; reflexivity|].
  destruct (admission_books_exact 2 1 1 demo_world demo_serving) as (_ & _ & _ & H & _). apply H. discriminate.
Defined.

Lemma handler_slots_bounded_witness :
  exists p, handling 1 p /\ total is_running (pl_handlers p) = 1 /\ total is_running (pl_handlers p) <= 1.
Proof.
  set (free := {| hs_cap := 1; hs_len := 0; hs_active := 0; hs_shutdown := false |}).
  set (taken := {| hs_cap := 1; hs_len := 1; hs_active := 0; hs_shutdown := false |}).
  exists {| pl_slots := count_handler taken; pl_handlers := {[0%nat := Running]} |}.
  assert (H : handling 1 {| pl_slots := count_handler taken; pl_handlers := {[0%nat := Running]} |}).
  { assert (H1 : handling 1 {| pl_slots := free; pl_handlers := {[0%nat := Asking]} |}).
    { eapply handling_step; [apply handling_init|]. by apply (handles_ask free ∅ 0). }
    assert (H2 : handling 1 {| pl_slots := free; pl_handlers := {[0%nat := Waiting]} |}).
    { rewrite <- (insert_singleton_eq 0%nat _ Asking). eapply handling_step; [exact H1|]. by apply (handles_precheck free {[0%nat := Asking]} 0). }
    assert (H3 : handling 1 {| pl_slots := taken; pl_handlers := {[0%nat := Slotted]} |}).
    { rewrite <- (insert_singleton_eq 0%nat _ Waiting). eapply handling_step; [exact H2|]. by apply (handles_acquire free {[0%nat := Waiting]} 0 true false Slotted taken). }
    assert (H4 : handling 1 {| pl_slots := count_handler taken; pl_handlers := {[0%nat := Counted]} |}).
    { rewrite <- (insert_singleton_eq 0%nat _ Slotted). eapply handling_step; [exact H3|]. by apply (handles_count taken {[0%nat := Slotted]} 0). }
    rewrite <- (insert_singleton_eq 0%nat _ Counted). eapply handling_step; [exact H4|]. by apply (handles_recheck (count_handler taken) {[0%nat := Counted]} 0). }
  split; [exact H|]. split; [reflexivity|]. apply (handler_slots_bounded 1 _ ltac:(lia) H).
Defined.
