(* ===== verification/Application.v ===== *)
(** The boundary to the application (server.go: RegisterService; runtime_application.go;
    method_layers.go; error.go; interceptor.go; session_binding.go): the registration of
    generated services, the table of wire methods built from it, and the dispatch of one
    request through decoding, interceptors, the handler and the encoder.

    Generated code and the application are parameters: a method's descriptor carries its
    decoder, handler and encoder as functions.  Go compares functions and types by
    identity: descriptors carry those identities as numbers. *)

From stdpp Require Import base numbers list gmap strings.
From S2P Require Import Prelude Wire Contracts Routing.
Open Scope Z_scope.

(** * Errors *)

(** An error as [errors.As] with a target of [*RPCError] sees it: one that wraps an
    [RPCError], one that wraps a nil pointer of that type, and any other. *)
Inductive app_error :=
| AppRPC (ErrorCode : Z) (ErrorMessage : string)
| AppNilRPC
| AppOther.

Definition genericInternalError : Z * string := (500, "INTERNAL"%string).

Definition FromError (err : option app_error) : Z * string :=
  match err with
  | None => (0, ""%string)
  | Some (AppRPC code message) => (code, message)
  | Some AppNilRPC => genericInternalError
  | Some AppOther => genericInternalError
  end.

Definition NewBadRequestError (message : string) : app_error := AppRPC 400 message.
Definition NewNotFoundError (message : string) : app_error := AppRPC 404 message.
Definition NewInternalError (message : string) : app_error := AppRPC 500 message.

(** A call of generated code: a result, an error or a panic. *)
Inductive attempt (A : Type) := Done (a : A) | Refusal | Crash.
Arguments Done {A} a.
Arguments Refusal {A}.
Arguments Crash {A}.

Section Application.

(** Requests ([TLObject]) and the values handlers return. *)
Context {Object Response : Type}.
Variable ConstructorID : Object -> Z.

(** * Handlers *)

(** How a call of the application ends; a nil response is [Responded None]. *)
Inductive call :=
| Responded (response : option Response)
| Failed (err : app_error)
| Panicked.

(** A call appends to the collector of session mutations. *)
Definition App : Type := list SessionMutation -> call * list SessionMutation.

(** The [interface{}] interceptors pass on: [None] is a value that is not a [TLObject]. *)
Definition UnaryHandler : Type := option Object -> App.
Definition UnaryInterceptor : Type := option Object -> string -> UnaryHandler -> App.

(** The loop of [ChainUnaryInterceptors] runs from the last interceptor to the first. *)
Fixpoint chain_loop (reversed : list UnaryInterceptor) (info : string) (chainedHandler : UnaryHandler) : UnaryHandler :=
  match reversed with
  | [] => chainedHandler
  | currentInterceptor :: rest =>
      chain_loop rest info (fun req => currentInterceptor req info chainedHandler)
  end.

Definition ChainUnaryInterceptors (interceptors : list UnaryInterceptor) : UnaryInterceptor :=
  fun req info handler => chain_loop (rev interceptors) info handler req.

(** [defer func() { if recover() != nil { ... } }()] *)
Definition recovered (m : App) : App := fun collector =>
  match m collector with
  | (Panicked, collector') => (Failed (AppRPC genericInternalError.1 genericInternalError.2), collector')
  | other => other
  end.

Definition RecoveryInterceptor : UnaryInterceptor := fun req info handler => recovered (handler req).

Definition AuthInterceptor (authorizer : option (option Object -> option app_error)) : UnaryInterceptor :=
  fun req info handler =>
    match authorizer with
    | None => handler req
    | Some authorize => match authorize req with
                        | Some err => fun collector => (Failed err, collector)
                        | None => handler req
                        end
    end.

(** [collector.append], as the application calls it through the context. *)
Definition BindSessionUser (userID : Z) (collector : list SessionMutation) : bool * list SessionMutation :=
  if userID <=? 0 then (false, collector) else (true, collector ++ [BindUser userID]).

Definition UnbindSessionUser (collector : list SessionMutation) : list SessionMutation := collector ++ [UnbindUser].

(** * Services *)

Record MethodDesc := {
  MinLayer : Z;
  MaxLayer : Z;
  MethodName : string;
  md_ConstructorID : Z;
  NewRequest : option (option Object);
  md_RequestType : Z;
  (** [NewRequest().DeserializeTL]: the request and the bytes left over *)
  md_Decode : bytes -> option DecodeBudget -> Z -> attempt (Object * Z);
  Handler : option (Z -> Object -> App);
  md_HandlerPointer : Z;
  EncodeResponse : option (Response -> Z -> Z -> attempt bytes);
  md_EncoderPointer : Z
}.

(** [HandlerType]: whether it is a pointer to an interface, and which. *)
Record ServiceDesc := {
  ServiceName : string;
  SchemaLayer : Z;
  HandlerType : option (bool * Z);
  Methods : list MethodDesc
}.

Definition methodSupportsLayer (method : MethodDesc) (layer : Z) : bool :=
  ((MinLayer method =? 0) || (MinLayer method <=? layer)) && ((MaxLayer method =? 0) || (layer <=? MaxLayer method)).

Definition methodLayersOverlap (a b : MethodDesc) : bool :=
  ((MaxLayer a =? 0) || (MinLayer b <=? MaxLayer a)) && ((MaxLayer b =? 0) || (MinLayer a <=? MaxLayer b)).

Record serviceInfo := { si_desc : ServiceDesc; si_impl : Z }.

(** The parts of the server a registration reads and writes; the dispatcher's maps. *)
Record AppServer := {
  as_services : gmap string serviceInfo;
  as_constructors : gmap Z MethodDesc;
  as_methods : gmap Z MethodDesc;
  as_schemaLayer : Z;
  as_schemaLayerSet : bool
}.

Inductive registration_panic :=
| NoServiceName | NoHandlerType | NoMethods | NilImplementation | ServiceRegistered | LayerConflict
| NotPointerToInterface | NotImplemented
| NoMethodName | NoConstructorID | NoRequestConstructor | NoHandler | NoEncoder | InvalidLayers
| DuplicateConstructor | NilRequest | RequestMismatch | DifferentContracts
| MethodTaken | ConstructorTaken.

(** [implType.Implements(handlerType.Elem())] *)
Variable Implements : Z -> Z -> bool.

(** The maps of the loop over a service's methods. *)
Record loop_state := { ls_ids : gmap Z (list MethodDesc); ls_names : gmap string MethodDesc }.

Definition same_contract (previous method : MethodDesc) : bool :=
  (md_ConstructorID previous =? md_ConstructorID method) && (md_RequestType previous =? md_RequestType method) &&
  (md_HandlerPointer previous =? md_HandlerPointer method) && (md_EncoderPointer previous =? md_EncoderPointer method).

Definition check_method (s : AppServer) (method : MethodDesc) (ls : loop_state) : result registration_panic loop_state :=
  if String.eqb (MethodName method) "" then Err NoMethodName
  else if md_ConstructorID method =? 0 then Err NoConstructorID
  else match NewRequest method, Handler method, EncodeResponse method with
  | None, _, _ => Err NoRequestConstructor
  | _, None, _ => Err NoHandler
  | _, _, None => Err NoEncoder
  | Some request, Some _, Some _ =>
    if (MinLayer method <? 0) || (MaxLayer method <? 0) || (negb (MaxLayer method =? 0) && (MaxLayer method <? MinLayer method))
    then Err InvalidLayers
    else
      let previous := default [] (ls_ids ls !! md_ConstructorID method) in
      if existsb (fun p => methodLayersOverlap p method) previous then Err DuplicateConstructor
      else match request with
      | None => Err NilRequest
      | Some object =>
        if negb (ConstructorID object =? md_ConstructorID method) then Err RequestMismatch
        else if match ls_names ls !! MethodName method with
                | Some p => negb (same_contract p method)
                | None => false
                end then Err DifferentContracts
        else match as_methods s !! md_ConstructorID method, as_constructors s !! md_ConstructorID method with
        | Some _, _ => Err MethodTaken
        | None, Some _ => Err ConstructorTaken
        | None, None => Ok {| ls_ids := <[md_ConstructorID method := previous ++ [method]]> (ls_ids ls);
                              ls_names := <[MethodName method := method]> (ls_names ls) |}
        end
      end
  end.

Fixpoint check_methods (s : AppServer) (methods : list MethodDesc) (ls : loop_state) : result registration_panic unit :=
  match methods with
  | [] => Ok tt
  | method :: rest => ls' ← check_method s method ls; check_methods s rest ls'
  end.

(** [RegisterConstructor] and [RegisterMethod] for one checked method. *)
Definition install (method : MethodDesc) (s : AppServer) : AppServer :=
  {| as_services := as_services s; as_constructors := <[md_ConstructorID method := method]> (as_constructors s);
     as_methods := <[md_ConstructorID method := method]> (as_methods s);
     as_schemaLayer := as_schemaLayer s; as_schemaLayerSet := as_schemaLayerSet s |}.

Definition install_service (desc : ServiceDesc) (impl : Z) (s : AppServer) : AppServer :=
  let s := foldl (fun s method => install method s) s (Methods desc) in
  {| as_services := <[ServiceName desc := {| si_desc := desc; si_impl := impl |}]> (as_services s);
     as_constructors := as_constructors s; as_methods := as_methods s;
     as_schemaLayer := SchemaLayer desc; as_schemaLayerSet := true |}.

Definition RegisterService (desc : ServiceDesc) (impl : option Z) (s : AppServer) : result registration_panic AppServer :=
  if String.eqb (ServiceName desc) "" then Err NoServiceName
  else match HandlerType desc with
  | None => Err NoHandlerType
  | Some (interface, handlerType) =>
    if len (Methods desc) =? 0 then Err NoMethods
    else match impl with
    | None => Err NilImplementation
    | Some impl =>
      match as_services s !! ServiceName desc with
      | Some _ => Err ServiceRegistered
      | None =>
        if as_schemaLayerSet s && negb (as_schemaLayer s =? SchemaLayer desc) then Err LayerConflict
        else if negb interface then Err NotPointerToInterface
        else if negb (Implements impl handlerType) then Err NotImplemented
        else _ ← check_methods s (Methods desc) {| ls_ids := ∅; ls_names := ∅ |}; Ok (install_service desc impl s)
      end
    end
  end.

(** * The dispatcher's table *)

Record runtimeApplicationMethod := { am_descriptor : MethodDesc; am_impl : Z; am_fullMethod : string }.

Inductive setup_error := NotFullyRegistered (name : string) | OverlappingConstructor (id : Z).

Definition full_method (service method : string) : string := ("/" ++ service ++ "/" ++ method)%string.

#[local] Abbreviation table := (gmap Z (list runtimeApplicationMethod)).

Definition add_method (s : AppServer) (service : serviceInfo) (method : MethodDesc) (methods : table) : result setup_error table :=
  match as_constructors s !! md_ConstructorID method, as_methods s !! md_ConstructorID method with
  | Some _, Some _ =>
      let previous := default [] (methods !! md_ConstructorID method) in
      if existsb (fun p => methodLayersOverlap (am_descriptor p) method) previous
      then Err (OverlappingConstructor (md_ConstructorID method))
      else Ok (<[md_ConstructorID method := previous ++
                   [{| am_descriptor := method; am_impl := si_impl service;
                       am_fullMethod := full_method (ServiceName (si_desc service)) (MethodName method) |}]]> methods)
  | _, _ => Err (NotFullyRegistered (MethodName method))
  end.

Fixpoint add_methods (s : AppServer) (rows : list (serviceInfo * MethodDesc)) (methods : table) : result setup_error table :=
  match rows with
  | [] => Ok methods
  | (service, method) :: rest => methods' ← add_method s service method methods; add_methods s rest methods'
  end.

(** The rows of the nested loops, services in the order in which Go visits the map. *)
Definition rows_of (services : list serviceInfo) : list (serviceInfo * MethodDesc) :=
  services ≫= fun service => (fun method => (service, method)) <$> Methods (si_desc service).

Definition newRuntimeApplicationDispatcher (order : list serviceInfo) (s : AppServer) : result setup_error table :=
  add_methods s (rows_of order) ∅.

(** * Dispatch *)

Definition runtimeApplicationFailure (requestMessageID : Z) (err : option app_error) : Outcome :=
  let '(code, message) := FromError err in
  {| out_Intents := [RPCError requestMessageID code message]; out_Mutations := []; out_DisconnectAfter := None |}.

(** The first variant that supports the layer. *)
Fixpoint select_variant (variants : list runtimeApplicationMethod) (layer : Z) : option runtimeApplicationMethod :=
  match variants with
  | [] => None
  | variant :: rest => if methodSupportsLayer (am_descriptor variant) layer then Some variant else select_variant rest layer
  end.

(** The decoder of a method knows its own constructor only. *)
Definition decodeTLObjectWithBudgetForLayer (method : MethodDesc) (data : bytes) (budget : option DecodeBudget) (layer : Z)
  : attempt (Object * Z) :=
  if len data <? 4 then Refusal
  else if negb (le_get (take 4 data) =? md_ConstructorID method) then Refusal
  else
    let budget := match budget with
                  | Some b => Some b
                  | None => match NewDecodeBudget zeroLimits with Ok b => Some b | Err _ => None end
                  end in
    md_Decode method data budget layer.

(** The handler behind the interceptors. *)
Definition application_handler (method : runtimeApplicationMethod) : UnaryHandler := fun value =>
  recovered (fun collector =>
    match value, Handler (am_descriptor method) with
    | None, _ => (Failed (NewInternalError "INVALID_INTERCEPTOR_REQUEST"), collector)
    | Some object, Some handler => handler (am_impl method) object collector
    | Some _, None => (Panicked, collector)
    end).

Definition invoke (interceptors : list UnaryInterceptor) (method : runtimeApplicationMethod) (decoded : Object) : App :=
  let handler := application_handler method in
  if len interceptors =? 0 then handler (Some decoded)
  else ChainUnaryInterceptors interceptors (Some decoded) (am_fullMethod method) handler.

Inductive slot_event := SlotTaken | SlotReleased.

(** From the call to the encoded answer; [None] is a panic that leaves the function. *)
Definition answer (interceptors : list UnaryInterceptor) (maxEncodedResponseBytes layer requestMessageID : Z)
    (method : runtimeApplicationMethod) (decoded : Object) : option Outcome :=
  let fail e := Some (runtimeApplicationFailure requestMessageID (Some e)) in
  match invoke interceptors method decoded [] with
  | (Panicked, _) => None
  | (Failed e, _) => fail e
  | (Responded None, _) => fail (NewInternalError "NIL_RESPONSE")
  | (Responded (Some response), collector) =>
      match EncodeResponse (am_descriptor method) with
      | None => None
      | Some encode =>
          match encode response layer maxEncodedResponseBytes with
          | Crash => None
          | Refusal => fail (NewInternalError "RESPONSE_ENCODE_FAILED")
          | Done body =>
              if maxEncodedResponseBytes <? len body then fail (NewInternalError "RESPONSE_ENCODE_FAILED")
              else Some {| out_Intents := [RPCResult requestMessageID body]; out_Mutations := collector; out_DisconnectAfter := None |}
          end
      end
  end.

(** [slot] is the error of [acquireHandler]. *)
Definition DispatchApplication (a : result setup_error table) (interceptors : list UnaryInterceptor)
    (schemaLayer maxEncodedResponseBytes : Z) (slot : option app_error) (message : InboundMessage) (infoLayer : Z)
  : result setup_error Outcome * list slot_event :=
  let id := im_MessageID message in
  let fail e := Ok (runtimeApplicationFailure id (Some e)) in
  let internal := Ok (runtimeApplicationFailure id (Some (AppRPC genericInternalError.1 genericInternalError.2))) in
  match a with
  | Err e => (Err e, [])
  | Ok methods =>
      let variants := default [] (methods !! im_ConstructorID message) in
      let layer := if infoLayer =? 0 then schemaLayer else infoLayer in
      match select_variant variants layer with
      | None => (fail (NewNotFoundError "METHOD_NOT_FOUND"), [])
      | Some method =>
          match decodeTLObjectWithBudgetForLayer (am_descriptor method) (im_Body message) (im_DecodeBudget message) layer with
          | Crash => (internal, [])
          | Refusal => (fail (NewBadRequestError "REQUEST_DECODE_FAILED"), [])
          | Done (decoded, remaining) =>
              if negb (ConstructorID decoded =? im_ConstructorID message)
              then (fail (NewBadRequestError "REQUEST_DECODE_FAILED"), [])
              else if negb (remaining =? 0) then (fail (NewBadRequestError "REQUEST_TRAILING_BYTES"), [])
              else match slot with
              | Some e => (fail e, [])
              | None =>
                  match answer interceptors maxEncodedResponseBytes layer id method decoded with
                  | Some outcome => (Ok outcome, [SlotTaken; SlotReleased])
                  | None => (internal, [SlotTaken; SlotReleased])
                  end
              end
          end
      end
  end.

(** * Layers *)

(** The layer ranges [check_method] accepts. *)
Definition layers_ok (m : MethodDesc) : Prop :=
  0 <= MinLayer m /\ 0 <= MaxLayer m /\ (MaxLayer m <> 0 -> MinLayer m <= MaxLayer m).

Lemma overlap_sym a b : methodLayersOverlap a b = methodLayersOverlap b a.
Proof. unfold methodLayersOverlap. apply andb_comm. Qed.

(** Overlap is having a layer in common, as long as the layer is not negative. *)
Lemma overlap_iff a b :
  layers_ok a -> layers_ok b ->
  methodLayersOverlap a b = true <->
  exists layer, 0 <= layer /\ methodSupportsLayer a layer = true /\ methodSupportsLayer b layer = true.
Proof.
  intros (Ha1 & Ha2 & Ha3) (Hb1 & Hb2 & Hb3). unfold methodLayersOverlap, methodSupportsLayer.
  setoid_rewrite andb_true_iff. setoid_rewrite orb_true_iff. setoid_rewrite Z.eqb_eq. setoid_rewrite Z.leb_le. split.
  - intros [H1 H2]. exists (MinLayer a `max` MinLayer b). lia.
  - intros (layer & H0 & [[H1|H1] [H2|H2]] & [[H3|H3] [H4|H4]]); lia.
Qed.

(** * Registration keeps wire methods apart *)

Definition apart (a b : MethodDesc) : Prop := md_ConstructorID a = md_ConstructorID b -> methodLayersOverlap a b = false.

Fixpoint pairwise_apart (l : list MethodDesc) : Prop :=
  match l with
  | [] => True
  | m :: rest => Forall (apart m) rest /\ pairwise_apart rest
  end.

Lemma pairwise_apart_app l1 l2 :
  pairwise_apart (l1 ++ l2) <-> pairwise_apart l1 /\ pairwise_apart l2 /\ (forall a b, a ∈ l1 -> b ∈ l2 -> apart a b).
Proof.
  induction l1 as [|m l1 IH]; simpl; [set_solver|]. rewrite IH, Forall_app, !Forall_forall.
  setoid_rewrite elem_of_cons. naive_solver.
Qed.

Lemma existsb_false {A} (f : A -> bool) l : existsb f l = false <-> forall x, x ∈ l -> f x = false.
Proof.
  induction l as [|y l IH]; simpl; [set_solver|]. rewrite orb_false_iff, IH. setoid_rewrite elem_of_cons. naive_solver.
Qed.

(** The methods of the same constructor among those already seen. *)
Definition of_constructor (id : Z) (l : list MethodDesc) : list MethodDesc := filter (fun m => md_ConstructorID m = id) l.

Definition seen_by (ls : loop_state) (prior : list MethodDesc) : Prop :=
  forall id, default [] (ls_ids ls !! id) = of_constructor id prior.

Lemma of_constructor_snoc id l m :
  of_constructor id (l ++ [m]) = if bool_decide (md_ConstructorID m = id) then of_constructor id l ++ [m] else of_constructor id l.
Proof.
  unfold of_constructor. rewrite filter_app, filter_cons, filter_nil. case_decide; case_bool_decide; try done.
  by rewrite app_nil_r.
Qed.

Definition fresh_in (s : AppServer) (m : MethodDesc) : Prop :=
  as_methods s !! md_ConstructorID m = None /\ as_constructors s !! md_ConstructorID m = None.

Lemma check_method_ok s m ls ls' prior :
  seen_by ls prior -> check_method s m ls = Ok ls' ->
  seen_by ls' (prior ++ [m]) /\ layers_ok m /\ fresh_in s m /\ (forall p, p ∈ prior -> apart p m).
Proof.
  intros Hs. unfold check_method. destruct (String.eqb _ _); [done|]. destruct (_ =? 0); [done|].
  destruct (NewRequest m) as [request|]; [|done]. destruct (Handler m); [|done]. destruct (EncodeResponse m); [|done].
  destruct (_ || _ || _) eqn:El; [done|]. rewrite (Hs (md_ConstructorID m)).
  destruct (existsb _ _) eqn:Eo; [done|]. destruct request as [o|]; [|done]. destruct (negb (ConstructorID o =? _)); [done|].
  destruct (match ls_names ls !! _ with Some p => negb (same_contract p m) | None => false end); [done|].
  destruct (as_methods s !! _) eqn:Em; [done|]. destruct (as_constructors s !! _) eqn:Ec; [done|]. intros [= <-].
  rewrite !orb_false_iff, andb_false_iff, negb_false_iff, !Z.ltb_ge, Z.eqb_eq in El. split_and!; [|unfold layers_ok; lia|done|].
  - intros id. simpl. rewrite of_constructor_snoc. case_bool_decide as E; [subst; by rewrite lookup_insert_eq|].
    by rewrite lookup_insert_ne.
  - intros p Hp E. apply (proj1 (existsb_false _ _) Eo). unfold of_constructor. by apply list_elem_of_filter.
Qed.

Lemma check_methods_ok s ms : forall ls prior,
  seen_by ls prior -> check_methods s ms ls = Ok tt ->
  Forall layers_ok ms /\ Forall (fresh_in s) ms /\ pairwise_apart ms /\ (forall p m, p ∈ prior -> m ∈ ms -> apart p m).
Proof.
  induction ms as [|m ms IH]; intros ls prior Hs; simpl; [set_solver|].
  destruct (check_method s m ls) as [ls'|] eqn:E; simpl; [|done]. intros Hc.
  destruct (check_method_ok _ _ _ _ _ Hs E) as (Hs' & Hl & Hf & Hp). destruct (IH _ _ Hs' Hc) as (H1 & H2 & H3 & H4).
  split_and!; [by constructor|by constructor| |done|].
  - apply Forall_forall. intros x Hx. apply H4; [set_solver|done].
  - intros p x Hpp [->|Hx]%elem_of_cons; [by apply Hp|]. apply H4; [set_solver|done].
Qed.

(** ** The registered services *)

Definition newAppServer : AppServer :=
  {| as_services := ∅; as_constructors := ∅; as_methods := ∅; as_schemaLayer := 0; as_schemaLayerSet := false |}.

Inductive configured : AppServer -> Prop :=
| configured_new : configured newAppServer
| configured_register s desc impl s' : configured s -> RegisterService desc impl s = Ok s' -> configured s'.

Definition installed (s : AppServer) (m : MethodDesc) : Prop :=
  is_Some (as_constructors s !! md_ConstructorID m) /\ is_Some (as_methods s !! md_ConstructorID m).

Record services_ok (s : AppServer) : Prop := {
  so_service name svc : as_services s !! name = Some svc ->
    ServiceName (si_desc svc) = name /\ pairwise_apart (Methods (si_desc svc)) /\
    Forall layers_ok (Methods (si_desc svc)) /\ Forall (installed s) (Methods (si_desc svc));
  so_apart n1 n2 s1 s2 a b : as_services s !! n1 = Some s1 -> as_services s !! n2 = Some s2 -> n1 <> n2 ->
    a ∈ Methods (si_desc s1) -> b ∈ Methods (si_desc s2) -> md_ConstructorID a <> md_ConstructorID b
}.

Lemma install_all_frame ms : forall s,
  let s' := foldl (fun s method => install method s) s ms in
  as_services s' = as_services s /\ Forall (installed s') ms /\ (forall m, installed s m -> installed s' m).
Proof.
  induction ms as [|m ms IH]; intros s; simpl; [done|]. destruct (IH (install m s)) as (H1 & H2 & H3).
  assert (Hi : forall x, installed s x -> installed (install m s) x).
  { intros x [Hc Hm]. split; simpl; rewrite lookup_insert_is_Some; (destruct (decide (md_ConstructorID m = md_ConstructorID x)); [by left|by right]). }
  split_and!; [by rewrite H1| |auto]. constructor; [|done]. apply H3. split; simpl; rewrite lookup_insert_eq; eauto.
Qed.

Lemma RegisterService_ok desc impl s s' : services_ok s -> RegisterService desc impl s = Ok s' -> services_ok s'.
Proof.
  intros S. unfold RegisterService. destruct (String.eqb _ _); [done|]. destruct (HandlerType desc) as [[i h]|]; [|done].
  destruct (_ =? 0); [done|]. destruct impl as [impl|]; [|done]. destruct (as_services s !! _) eqn:En; [done|].
  destruct (_ && _); [done|]. destruct (negb _); [done|]. destruct (negb _); [done|].
  destruct (check_methods _ _ _) as [[]|] eqn:Ec; simpl; [|done]. intros [= <-].
  destruct (check_methods_ok _ _ _ [] (fun id => eq_trans (f_equal _ (lookup_empty _)) eq_refl) Ec) as (Hl & Hf & Hp & _).
  unfold install_service. destruct (install_all_frame (Methods desc) s) as (Fs & Fi & Fm).
  set (s1 := foldl _ s (Methods desc)) in *. rewrite Forall_forall in Hf.
  assert (Hnew : forall name svc a b, as_services s !! name = Some svc -> a ∈ Methods (si_desc svc) -> b ∈ Methods desc ->
    md_ConstructorID a <> md_ConstructorID b).
  { intros name svc a b H Ha Hb E. destruct (so_service _ S _ _ H) as (_ & _ & _ & Hi). rewrite Forall_forall in Hi.
    destruct (Hi a Ha) as [[x Hx] _]. destruct (Hf b Hb) as [_ Hn]. rewrite E in Hx. congruence. }
  split; simpl; rewrite Fs.
  - intros name svc. rewrite lookup_insert_Some. intros [[<- <-]|[Hne H]]; [done|].
    destruct (so_service _ S _ _ H) as (H1 & H2 & H3 & H4). split_and!; [done..|]. eapply Forall_impl; [exact H4|]. apply Fm.
  - intros n1 n2 x1 x2 a b. rewrite !lookup_insert_Some.
    intros [[<- <-]|[N1 H1]] [[<- <-]|[N2 H2]] Hne Ha Hb; [done| | |by apply (so_apart _ S n1 n2 x1 x2)].
    + intros E. by apply (Hnew n2 x2 b a H2 Hb Ha).
    + by apply (Hnew n1 x1).
Qed.

Lemma configured_ok s : configured s -> services_ok s.
Proof.
  induction 1 as [|s desc impl s' _ IH H]; [|by eapply RegisterService_ok].
  split; simpl; intros *; by rewrite ?lookup_empty.
Qed.

(** ** The table *)

Definition entry (row : serviceInfo * MethodDesc) : runtimeApplicationMethod :=
  {| am_descriptor := row.2; am_impl := si_impl row.1;
     am_fullMethod := full_method (ServiceName (si_desc row.1)) (MethodName row.2) |}.

Definition rows_for (id : Z) (rows : list (serviceInfo * MethodDesc)) : list (serviceInfo * MethodDesc) :=
  filter (fun row => md_ConstructorID row.2 = id) rows.

Definition tabulates (t : table) (rows : list (serviceInfo * MethodDesc)) : Prop :=
  forall id, default [] (t !! id) = entry <$> rows_for id rows.

Lemma add_methods_ok s rows : forall t prior,
  tabulates t prior -> Forall (fun row => installed s row.2) rows -> pairwise_apart ((prior ++ rows).*2) ->
  exists t', add_methods s rows t = Ok t' /\ tabulates t' (prior ++ rows).
Proof.
  induction rows as [|[svc m] rows IH]; intros t prior Ht Hi Hp; simpl.
  { exists t. split; [done|]. by rewrite app_nil_r. }
  apply Forall_cons in Hi as [[[c Hc] [x Hx]] Hi]. simpl in *. unfold add_method. rewrite Hc, Hx, (Ht (md_ConstructorID m)).
  destruct (existsb _ _) eqn:Eo.
  { exfalso. apply not_false_iff_true in Eo. apply Eo, existsb_false. intros e (row & -> & [Hid Hrow]%list_elem_of_filter)%list_elem_of_fmap.
    rewrite fmap_app, pairwise_apart_app in Hp. destruct Hp as (_ & _ & Hp). simpl.
    apply Hp; [apply list_elem_of_fmap; eauto|simpl; set_solver|done]. }
  rewrite (cons_middle (svc, m)), app_assoc in Hp |- *. apply IH; [|done|done].
  intros id. unfold rows_for. rewrite filter_app, filter_cons, filter_nil, fmap_app. simpl.
  case_decide as E; simpl in E; [rewrite <- E, lookup_insert_eq; done|]. rewrite lookup_insert_ne, app_nil_r by done. apply Ht.
Qed.

Lemma rows_apart s order :
  services_ok s -> (forall svc, svc ∈ order -> as_services s !! ServiceName (si_desc svc) = Some svc) ->
  NoDup ((fun svc => ServiceName (si_desc svc)) <$> order) ->
  Forall (fun row => installed s row.2) (rows_of order) /\ pairwise_apart ((rows_of order).*2).
Proof.
  intros S. induction order as [|svc order IH]; intros Ho Hn; [done|]. apply NoDup_cons in Hn as [Hnew Hn].
  destruct IH as [Hi Hp]; [set_solver|done|].
  destruct (so_service _ S _ _ (Ho svc ltac:(set_solver))) as (_ & H2 & _ & H4).
  change (rows_of (svc :: order)) with (((fun m => (svc, m)) <$> Methods (si_desc svc)) ++ rows_of order).
  rewrite fmap_app, pairwise_apart_app, Forall_app, Forall_fmap, <- list_fmap_compose, list_fmap_id. split; [done|].
  split_and!; [done..|]. intros a b Ha ([svc' b'] & -> & Hb)%list_elem_of_fmap E. exfalso.
  apply list_elem_of_bind in Hb as (svc2 & (m2 & Hm & Hm2)%list_elem_of_fmap & Hin). simplify_eq. simpl in E.
  apply (so_apart _ S (ServiceName (si_desc svc)) (ServiceName (si_desc svc2)) svc svc2 a m2); try done;
    [apply Ho; set_solver|apply Ho; set_solver|]. intros En. apply Hnew. rewrite En. apply list_elem_of_fmap. eauto.
Qed.

Lemma select_variant_Some vs layer v :
  v ∈ vs -> methodSupportsLayer (am_descriptor v) layer = true ->
  exists w, select_variant vs layer = Some w /\ w ∈ vs /\ methodSupportsLayer (am_descriptor w) layer = true.
Proof.
  induction vs as [|w vs IH]; [set_solver|]. intros Hv Hs. simpl. destruct (methodSupportsLayer (am_descriptor w) layer) eqn:E.
  { exists w. set_solver. }
  apply elem_of_cons in Hv as [->|Hv]; [congruence|]. destruct (IH Hv Hs) as (x & Hx & Hin & Hsx). exists x. set_solver.
Qed.

Lemma pairwise_same_row (rows : list (serviceInfo * MethodDesc)) a b layer :
  pairwise_apart rows.*2 -> Forall layers_ok rows.*2 -> a ∈ rows -> b ∈ rows ->
  md_ConstructorID a.2 = md_ConstructorID b.2 -> 0 <= layer ->
  methodSupportsLayer a.2 layer = true -> methodSupportsLayer b.2 layer = true -> a = b.
Proof.
  intros Hp Hl Ha Hb E H0 H1 H2. rewrite Forall_forall in Hl.
  assert (Hov : methodLayersOverlap a.2 b.2 = true).
  { apply overlap_iff; [apply Hl, list_elem_of_fmap; eauto..|]. eauto. }
  clear Hl. induction rows as [|x rows IH]; [set_solver|]. simpl in Hp. destruct Hp as [Hx Hp]. rewrite Forall_forall in Hx.
  apply elem_of_cons in Ha as [->|Ha]; apply elem_of_cons in Hb as [->|Hb]; [done| | |by apply IH].
  - rewrite Hx in Hov; [done|apply list_elem_of_fmap; eauto|done].
  - rewrite overlap_sym, Hx in Hov; [done|apply list_elem_of_fmap; eauto|done].
Qed.

Lemma order_rows s order :
  services_ok s -> order ≡ₚ (map_to_list (as_services s)).*2 ->
  (forall name svc m, as_services s !! name = Some svc -> m ∈ Methods (si_desc svc) -> (svc, m) ∈ rows_of order) /\
  Forall (fun row => installed s row.2) (rows_of order) /\ pairwise_apart (rows_of order).*2 /\ Forall layers_ok (rows_of order).*2.
Proof.
  intros S Ho.
  assert (Hmem : forall svc, svc ∈ order <-> as_services s !! ServiceName (si_desc svc) = Some svc).
  { intros svc. rewrite Ho, list_elem_of_fmap. split.
    - intros ([name x] & -> & H%elem_of_map_to_list). simpl. by destruct (so_service _ S _ _ H) as [-> _].
    - intros H. exists (ServiceName (si_desc svc), svc). split; [done|]. by apply elem_of_map_to_list. }
  destruct (rows_apart s order S) as [Hi Hp]; [by intros svc ?%Hmem| |].
  { rewrite Ho, <- list_fmap_compose. erewrite list_fmap_ext; [apply (NoDup_fst_map_to_list (as_services s))|].
    intros i [name svc] H. apply list_elem_of_lookup_2, elem_of_map_to_list in H. simpl. by destruct (so_service _ S _ _ H) as [-> _]. }
  split_and!; [|done|done|].
  - intros name svc m H Hm. apply list_elem_of_bind. exists svc. split; [apply list_elem_of_fmap; eauto|].
    apply Hmem. by destruct (so_service _ S _ _ H) as [-> _].
  - apply Forall_forall. intros m ([svc m'] & -> & Hr)%list_elem_of_fmap. simpl.
    apply list_elem_of_bind in Hr as (svc2 & (m2 & E & Hm2)%list_elem_of_fmap & Hin%Hmem). simplify_eq.
    destruct (so_service _ S _ _ Hin) as (_ & _ & Hl & _). rewrite Forall_forall in Hl. by apply Hl.
Qed.

(** The layers a descriptor names: its bounds, of which zero is none. *)
Definition layer_within (m : MethodDesc) (layer : Z) : Prop :=
  (MinLayer m = 0 \/ MinLayer m <= layer) /\ (MaxLayer m = 0 \/ layer <= MaxLayer m).

Lemma methodSupportsLayer_spec m layer : methodSupportsLayer m layer = true <-> layer_within m layer.
Proof. unfold methodSupportsLayer, layer_within. by rewrite andb_true_iff, !orb_true_iff, !Z.eqb_eq, !Z.leb_le. Qed.

Lemma select_variant_from vs layer w :
  select_variant vs layer = Some w -> w ∈ vs /\ methodSupportsLayer (am_descriptor w) layer = true.
Proof.
  induction vs as [|v vs IH]; [done|]. simpl. destruct (methodSupportsLayer (am_descriptor v) layer) eqn:E; [intros [= <-]; set_solver|].
  intros [Hin Hs]%IH. set_solver.
Qed.

(** C14. After any sequence of successful service registrations the dispatcher is set up
    without error, in whatever order the services are visited, and resolves every wire
    method exactly: for a constructor and a layer the variant it selects is the entry, with
    its service's implementation and name, of a registered method with that constructor
    whose layers contain the layer, and when there is such a method it is the one selected. *)
Theorem registered_methods_resolve s order :
  configured s -> order ≡ₚ (map_to_list (as_services s)).*2 ->
  exists t, newRuntimeApplicationDispatcher order s = Ok t /\
    forall id layer variant, 0 <= layer ->
      select_variant (default [] (t !! id)) layer = Some variant <->
      exists name svc m, as_services s !! name = Some svc /\ m ∈ Methods (si_desc svc) /\ md_ConstructorID m = id /\
        layer_within m layer /\ variant = entry (svc, m).
Proof.
  intros S%configured_ok Ho. destruct (order_rows s order S Ho) as (Hin & Hi & Hp & Hl).
  destruct (add_methods_ok s (rows_of order) ∅ []) as (t & Ht & Htab); [by intros id; rewrite lookup_empty|done|done|].
  change ([] ++ rows_of order) with (rows_of order) in Htab.
  exists t. split; [done|]. intros id layer variant H0. rewrite (Htab id). split.
  - intros [Hv Hs]%select_variant_from. apply list_elem_of_fmap in Hv as ([svc m] & -> & [Hid Hr]%list_elem_of_filter).
    apply list_elem_of_bind in Hr as (svc2 & (m2 & E & Hm2)%list_elem_of_fmap & Hsvc). simplify_eq.
    rewrite Ho in Hsvc. apply list_elem_of_fmap in Hsvc as ([name x] & -> & Hx%elem_of_map_to_list).
    exists name, x, m2. split_and!; [done..|by apply methodSupportsLayer_spec|done].
  - intros (name & svc & m & Hsvc & Hm & Hid & Hs%methodSupportsLayer_spec & ->). assert (Hrow : (svc, m) ∈ rows_of order) by (by eapply Hin).
    destruct (select_variant_Some (entry <$> rows_for id (rows_of order)) layer (entry (svc, m))) as (w & -> & Hw & Hsw).
    { apply list_elem_of_fmap. exists (svc, m). split; [done|]. by apply list_elem_of_filter. } { done. }
    apply list_elem_of_fmap in Hw as (row & -> & [Hrid Hr]%list_elem_of_filter). f_equal. f_equal.
    apply (pairwise_same_row (rows_of order) row (svc, m) layer); try done. by rewrite Hrid.
Qed.

(** * Answers *)

(** The call of the application that makes a request succeed. *)
Definition succeeds (t : table) (interceptors : list UnaryInterceptor) (limit layer : Z) (slot : option app_error)
    (message : InboundMessage) (body : bytes) (mutations : list SessionMutation) : Prop :=
  exists method decoded response encode,
    select_variant (default [] (t !! im_ConstructorID message)) layer = Some method /\
    decodeTLObjectWithBudgetForLayer (am_descriptor method) (im_Body message) (im_DecodeBudget message) layer = Done (decoded, 0) /\
    ConstructorID decoded = im_ConstructorID message /\ slot = None /\
    invoke interceptors method decoded [] = (Responded (Some response), mutations) /\
    EncodeResponse (am_descriptor method) = Some encode /\ encode response layer limit = Done body /\ len body <= limit.

Definition effective_layer (schemaLayer infoLayer : Z) : Z := if infoLayer =? 0 then schemaLayer else infoLayer.

Definition failure (id : Z) (o : Outcome) : Prop :=
  exists code message, out_Intents o = [RPCError id code message] /\ out_Mutations o = [].

Lemma failure_shape id e : failure id (runtimeApplicationFailure id e).
Proof. unfold runtimeApplicationFailure, failure. destruct (FromError e) as [code message]. eauto. Qed.

Lemma answer_shape interceptors limit layer id method decoded :
  match answer interceptors limit layer id method decoded with
  | None => True
  | Some o => failure id o \/
      exists response encode body, invoke interceptors method decoded [] = (Responded (Some response), out_Mutations o) /\
        EncodeResponse (am_descriptor method) = Some encode /\ encode response layer limit = Done body /\ len body <= limit /\
        out_Intents o = [RPCResult id body] /\ out_DisconnectAfter o = None
  end.
Proof.
  unfold answer. destruct (invoke _ _ _ _) as [[[response|]|e|] collector] eqn:Ei; try done; [|left; apply failure_shape..].
  destruct (EncodeResponse _) as [encode|] eqn:Ee; [|done]. destruct (encode _ _ _) as [body| |] eqn:Eb; try done; [|left; apply failure_shape].
  destruct (Z.ltb_spec limit (len body)); [left; apply failure_shape|]. right. exists response, encode, body. done.
Qed.

(** Dispatch ends with an error before the application is called. *)
Ltac refuse :=
  eexists _, _; split; [reflexivity|]; split; [by left|]; split; [left; apply failure_shape|];
  intros ? ? (? & ? & ? & ? & ? & ? & ? & ? & _); simplify_eq; congruence.

(** C15. Whatever the decoder, the interceptors, the handler and the encoder do, panics
    included, dispatch returns exactly one answer to the request: its result, within the
    size limit and with exactly the mutations the call collected, when the request
    decodes completely, gets a handler slot and the call succeeds; otherwise an error
    with no mutation.  A slot taken is given back before dispatch returns. *)
Theorem dispatch_answers_once t interceptors schemaLayer limit slot message infoLayer :
  let layer := effective_layer schemaLayer infoLayer in
  exists o slots, DispatchApplication (Ok t) interceptors schemaLayer limit slot message infoLayer = (Ok o, slots) /\
    (slots = [] \/ slots = [SlotTaken; SlotReleased]) /\
    (failure (im_MessageID message) o \/
     exists body, out_Intents o = [RPCResult (im_MessageID message) body] /\
       succeeds t interceptors limit layer slot message body (out_Mutations o)) /\
    (forall body mutations, succeeds t interceptors limit layer slot message body mutations ->
       out_Intents o = [RPCResult (im_MessageID message) body] /\ out_Mutations o = mutations).
Proof.
  intros layer. unfold DispatchApplication. fold (effective_layer schemaLayer infoLayer). fold layer.
  unfold succeeds.
  destruct (select_variant _ layer) as [method|]; [|refuse].
  destruct (decodeTLObjectWithBudgetForLayer _ _ _ _) as [[decoded remaining]| |] eqn:Ed; [|refuse..].
  destruct (Z.eqb_spec (ConstructorID decoded) (im_ConstructorID message)) as [Hc|Hc]; simpl; [|refuse].
  destruct (Z.eqb_spec remaining 0) as [->|Hr]; simpl; [|refuse].
  destruct slot as [e|]; [refuse|].
  pose proof (answer_shape interceptors limit layer (im_MessageID message) method decoded) as Ha.
  assert (Hs : forall response encode body collector, invoke interceptors method decoded [] = (Responded (Some response), collector) ->
    EncodeResponse (am_descriptor method) = Some encode -> encode response layer limit = Done body -> len body <= limit ->
    answer interceptors limit layer (im_MessageID message) method decoded =
      Some {| out_Intents := [RPCResult (im_MessageID message) body]; out_Mutations := collector; out_DisconnectAfter := None |}).
  { intros response encode body collector Hi He Hb Hl. unfold answer. rewrite Hi, He, Hb.
    destruct (Z.ltb_spec limit (len body)); [lia|done]. }
  destruct (answer _ _ _ _ _ _) as [o|] eqn:Eo.
  - exists o, [SlotTaken; SlotReleased]. split; [done|]. split; [by right|]. split.
    + destruct Ha as [Hf|(response & encode & body & Hi & He & Hb & Hl & Ho & _)]; [by left|]. right. exists body. split; [done|].
      exists method, decoded, response, encode. done.
    + intros body mutations (method' & decoded' & response & encode & [= <-] & Hd & _ & _ & Hi & He & Hb & Hl).
    rewrite Ed in Hd. injection Hd as <-.
      specialize (Hs _ _ _ _ Hi He Hb Hl). by simplify_eq.
  - eexists _, [SlotTaken; SlotReleased]. split; [done|]. split; [by right|]. split; [left; apply failure_shape|].
    intros body mutations (method' & decoded' & response & encode & [= <-] & Hd & _ & _ & Hi & He & Hb & Hl).
    rewrite Ed in Hd. injection Hd as <-.
    by specialize (Hs _ _ _ _ Hi He Hb Hl).
Qed.

(** The router refuses an error without a text, and dispatch passes the text of the
    application's error on unchanged: a handler that fails with an RPC error whose message
    is empty makes dispatch return an error instead of an answer, for every request that
    reaches it, and the session is retired. *)
Lemma empty_error_message_is_refused {E S : Type} t schemaLayer limit message infoLayer method decoded code collector (s : S) :
  let layer := effective_layer schemaLayer infoLayer in
  InboundMessage_Validate message = Ok tt ->
  select_variant (default [] (t !! im_ConstructorID message)) layer = Some method ->
  decodeTLObjectWithBudgetForLayer (am_descriptor method) (im_Body message) (im_DecodeBudget message) layer = Done (decoded, 0) ->
  ConstructorID decoded = im_ConstructorID message ->
  invoke [] method decoded [] = (Failed (AppRPC code ""), collector) ->
  (DispatchApplication (Ok t) [] schemaLayer limit None message infoLayer).1 =
    Ok {| out_Intents := [RPCError (im_MessageID message) code ""]; out_Mutations := []; out_DisconnectAfter := None |} /\
  Router_DispatchApplication (E := E)
    (fun m s => (match (DispatchApplication (Ok t) [] schemaLayer limit None m infoLayer).1 with
                 | Ok o => Ok o
                 | Err _ => Err (CtlContract ErrInvalidInbound)
                 end, s)) message s = (Err (CtlContract ErrInvalidIntent), s).
Proof.
  intros layer Hm Hs Hd Hc Hi.
  assert (Ho : (DispatchApplication (Ok t) [] schemaLayer limit None message infoLayer).1 =
    Ok {| out_Intents := [RPCError (im_MessageID message) code ""]; out_Mutations := []; out_DisconnectAfter := None |}).
  { unfold DispatchApplication. fold (effective_layer schemaLayer infoLayer). fold layer.
    rewrite Hs, Hd, Hc, Z.eqb_refl. simpl. unfold answer. by rewrite Hi. }
  split; [exact Ho|]. unfold Router_DispatchApplication, mbind, ST_bind, st_bind, checked. rewrite Hm. cbn [map_err].
  rewrite Ho. unfold ValidateOutcome. simpl. by rewrite orb_true_r.
Qed.

End Application.

(** * A concrete service *)

(** Requests are their constructor id followed by nothing; the answer is four bytes. *)
Definition demo_method (name : string) (min max id : Z) (reply : call (Response := bytes)) : MethodDesc (Object := Z) (Response := bytes) :=
  {| MinLayer := min; MaxLayer := max; MethodName := name; md_ConstructorID := id; NewRequest := Some (Some id);
     md_RequestType := id; md_Decode := fun data _ _ => if len data =? 4 then Done (le_get data, 0) else Done (le_get (take 4 data), len data - 4);
     Handler := Some (fun _ _ collector => (reply, collector ++ [BindUser 42])); md_HandlerPointer := 1;
     EncodeResponse := Some (fun response _ _ => Done response); md_EncoderPointer := 1 |}.

Definition demo_service (name : string) (methods : list MethodDesc) : ServiceDesc (Object := Z) (Response := bytes) :=
  {| ServiceName := name; SchemaLayer := 160; HandlerType := Some (true, 1); Methods := methods |}.

Definition demo_chat := demo_service "chat"
  [demo_method "send" 0 150 7 (Responded (Some [x01; x02; x03; x04])); demo_method "send" 151 0 7 (Responded (Some [x05; x06; x07; x08]))].

Definition demo_auth := demo_service "auth" [demo_method "login" 0 0 9 (Failed (AppRPC 401 ""))].

Abbreviation demo_register desc s := (RegisterService (fun object => object) (fun _ _ => true) desc (Some 1) s).

Definition demo_services : AppServer :=
  match demo_register demo_chat newAppServer with
  | Ok s => match demo_register demo_auth s with Ok s' => s' | Err _ => newAppServer end
  | Err _ => newAppServer
  end.

Lemma demo_configured : configured (fun object => object) (fun _ _ => true) demo_services.
Proof.
  unfold demo_services. destruct (demo_register demo_chat newAppServer) as [s|] eqn:E1; [|apply configured_new].
  destruct (demo_register demo_auth s) as [s'|] eqn:E2; [|apply configured_new].
  by eapply configured_register; [eapply configured_register; [apply configured_new|exact E1]|exact E2].
Qed.

Lemma registered_methods_resolve_witness :
  exists t, newRuntimeApplicationDispatcher (map_to_list (as_services demo_services)).*2 demo_services = Ok t /\
    (am_fullMethod <$> select_variant (default [] (t !! 7)) 151) = Some "/chat/send"%string.
Proof.
  destruct (registered_methods_resolve (fun object => object) (fun _ _ => true) demo_services _ demo_configured (reflexivity _))
    as (t & Ht & Hres).
  exists t. split; [exact Ht|].
  rewrite (proj2 (Hres 7 151 (entry ({| si_desc := demo_chat; si_impl := 1 |}, demo_method "send" 151 0 7 (Responded (Some [x05; x06; x07; x08])))) ltac:(lia)));
    [reflexivity|].
  exists "chat"%string, {| si_desc := demo_chat; si_impl := 1 |}, (demo_method "send" 151 0 7 (Responded (Some [x05; x06; x07; x08]))).
  split; [vm_compute; reflexivity|]. split; [right; left|]. split; [reflexivity|]. split; [split; [right; vm_compute; discriminate|left; reflexivity]|reflexivity].
Defined.

Definition demo_request (id : Z) : InboundMessage :=
  {| im_MessageID := 1000; im_SequenceNo := 1; im_ConstructorID := id; im_Body := le_put 4 id; im_Dependencies := [];
     im_DecodeBudget := None; im_ContentRelated := true; im_SuppressPush := false; im_Retransmission := false |}.

Lemma empty_error_message_is_refused_witness :
  exists t, newRuntimeApplicationDispatcher (map_to_list (as_services demo_services)).*2 demo_services = Ok t /\
    (DispatchApplication (fun object => object) (Ok t) [] 160 1000 None (demo_request 9) 0).1 =
    Ok {| out_Intents := [RPCError 1000 401 ""]; out_Mutations := []; out_DisconnectAfter := None |}.
Proof.
  destruct (newRuntimeApplicationDispatcher (map_to_list (as_services demo_services)).*2 demo_services) as [t|] eqn:Et;
    [|vm_compute in Et; discriminate]. exists t. split; [reflexivity|].
  assert (Hsel : select_variant (default [] (t !! 9)) 160 =
    Some {| am_descriptor := demo_method "login" 0 0 9 (Failed (AppRPC 401 "")); am_impl := 1; am_fullMethod := "/auth/login" |}).
  { vm_compute in Et. injection Et as <-. vm_compute. reflexivity. }
  apply (empty_error_message_is_refused (E := unit) (fun object : Z => object) t 160 1000 (demo_request 9) 0
    {| am_descriptor := demo_method "login" 0 0 9 (Failed (AppRPC 401 "")); am_impl := 1; am_fullMethod := "/auth/login" |}
    9 401 [BindUser 42] tt); [reflexivity|exact Hsel|reflexivity|reflexivity|reflexivity].
Defined.
