(* ===== verification/FrameSink.v ===== *)
(** The physical write boundary of a connection: connectionFrameSink
    (internal/runtime/frame_sink.go), over the deadlines and size limits of controlledConn
    (resource_controls.go).

    Any number of session writers call [WriteFrame] at once.  A call is a thread whose
    steps are the channel operations and the calls on the transport; the physical write is
    two steps, its beginning and its end, and the context's [AfterFunc], which moves the
    write deadline of the transport, runs on its own. *)

From stdpp Require Import base numbers list gmap fin_maps strings.
From S2P Require Import Prelude.
Open Scope Z_scope.

(** * The sink *)

















(** * WriteFrame, step by step *)














(** * Whole frames, one at a time *)
























(** * controlledConn *)

Record controlledConn := { cc_maxPayloadBytes : Z; cc_readTimeout : Z; cc_writeTimeout : Z }.

Inductive conn_error :=
| ErrMessageTooLarge (size limit : Z)
| ConnPayloadTooLarge
| ConnOther (e : Z).

(** The calls on the base connection, in order. *)
Inductive base_call :=
| BaseSetRead (deadline : option Z)
| BaseRead (limit : Z)
| BaseSetWrite (deadline : option Z)
| BaseWrite (payload : bytes).

(** What the base connection answers: setting and clearing the deadline, reading, writing. *)
Record base_answers := {
  ba_set : option Z;
  ba_clear : option Z;
  ba_read : Z -> result conn_error bytes;
  ba_write : bytes -> option Z
}.

Definition effective_limit (c : controlledConn) (maxPayloadBytes : Z) : Z :=
  if (0 <? cc_maxPayloadBytes c) && ((maxPayloadBytes <=? 0) || (cc_maxPayloadBytes c <? maxPayloadBytes))
  then cc_maxPayloadBytes c else maxPayloadBytes.

Definition ReadMessage (now : Z) (c : controlledConn) (b : base_answers) (maxPayloadBytes : Z)
  : result conn_error bytes * list base_call :=
  let timed := negb (cc_readTimeout c <=? 0) in
  let limit := effective_limit c maxPayloadBytes in
  let before := if timed then [BaseSetRead (Some (now + cc_readTimeout c))] else [] in
  let after := if timed then [BaseSetRead None] else [] in
  match (if timed then ba_set b else None) with
  | Some e => (Err (ConnOther e), before)
  | None =>
      let calls := before ++ [BaseRead limit] ++ after in
      match ba_read b limit with
      | Err ConnPayloadTooLarge => (Err (ErrMessageTooLarge 0 limit), calls)
      | Err e => (Err e, calls)
      | Ok payload => match (if timed then ba_clear b else None) with
                      | Some e => (Err (ConnOther e), calls)
                      | None => (Ok payload, calls)
                      end
      end
  end.

Definition WriteMessage (now : Z) (c : controlledConn) (b : base_answers) (payload : bytes)
  : result conn_error unit * list base_call :=
  if (0 <? cc_maxPayloadBytes c) && (cc_maxPayloadBytes c <? len payload)
  then (Err (ErrMessageTooLarge (len payload) (cc_maxPayloadBytes c)), [])
  else
    let timed := negb (cc_writeTimeout c <=? 0) in
    let before := if timed then [BaseSetWrite (Some (now + cc_writeTimeout c))] else [] in
    let after := if timed then [BaseSetWrite None] else [] in
    match (if timed then ba_set b else None) with
    | Some e => (Err (ConnOther e), before)
    | None =>
        let calls := before ++ [BaseWrite payload] ++ after in
        match ba_write b payload with
        | Some e => (Err (ConnOther e), calls)
        | None => match (if timed then ba_clear b else None) with
                  | Some e => (Err (ConnOther e), calls)
                  | None => (Ok tt, calls)
                  end
        end
    end.

(** A configured limit bounds every read and every write, whatever the caller asks for. *)
Lemma effective_limit_bounds c m : 0 < cc_maxPayloadBytes c -> 0 < effective_limit c m <= cc_maxPayloadBytes c.
Proof.
  intros Hc. unfold effective_limit. destruct (Z.ltb_spec 0 (cc_maxPayloadBytes c)); [|lia].
  destruct (Z.leb_spec m 0); simpl; [lia|]. destruct (Z.ltb_spec (cc_maxPayloadBytes c) m); lia.
Qed.

Lemma write_bounded now c b payload p :
  0 < cc_maxPayloadBytes c -> BaseWrite p ∈ (WriteMessage now c b payload).2 -> p = payload /\ len p <= cc_maxPayloadBytes c.
Proof.
  intros Hc. unfold WriteMessage. destruct (Z.ltb_spec 0 (cc_maxPayloadBytes c)); [|lia]. simpl.
  destruct (Z.ltb_spec (cc_maxPayloadBytes c) (len payload)); simpl; [by intros ?%elem_of_nil|].
  destruct (cc_writeTimeout c <=? 0); simpl; repeat case_match; simpl; rewrite !elem_of_cons, ?elem_of_nil; naive_solver.
Qed.

(** * A concrete run *)


