(* ===== verification/TemporaryKeys.v ===== *)
(** Temporary authorization keys at work: the capability behind auth.bindTempAuthKey
    (temporary_authkey.go of package tlrpc) over the key manager, and the frame sink of a
    connection that uses a temporary key (internal/runtime/temporary_key.go).

    Every call on the key manager takes its own lock: between two calls other goroutines
    may change it, so each call has the moment, clock and manager, at which it runs. *)

From stdpp Require Import base numbers list gmap strings.
From S2P Require Import Prelude Wire Crypto AuthKeys PushRegistry Application.
Open Scope Z_scope.

Section temporary.
Context `{Hplatform : Platform}.

Record moment := { mo_now : Z; mo_manager : MemoryAuthKeyManager }.

(** * Binding *)

Definition second : Z := 10 ^ 9.

(** The answer of a refused binding, by the error of [BindTemporary]. *)
Definition bind_failure (e : crypto_error) : app_error :=
  match e with
  | ErrTemporaryKeyAlreadyBound => NewBadRequestError "TEMP_AUTH_KEY_ALREADY_BOUND"
  | ErrTemporaryKeyExpiry => NewBadRequestError "EXPIRES_AT_INVALID"
  | ErrAuthKeyNotFound => NewBadRequestError "TEMP_AUTH_KEY_EMPTY"
  | _ => NewInternalError "INTERNAL_SERVER_ERROR"
  end.

(** The requested expiry, cut to the lifetime fixed at key generation. *)
Definition bounded_expiry (expiresAt : Z) (info : TemporaryAuthKeyInfo) : Z :=
  let expires := expiresAt * second in if ExpiresAt info <? expires then ExpiresAt info else expires.

(** [context] is the request's binding and message id, where the handler's context has
    them and the manager supports temporary keys. *)
Definition BindTemporaryAuthKey (context : option (PushRegistry.Binding * Z)) (permanentID nonce expiresAt : Z) (encrypted : bytes)
    (temp perm get : moment) (now : Z) (bind : moment) : result app_error unit * MemoryAuthKeyManager :=
  let refuse e := (Err e, mo_manager bind) in
  match context with
  | None => refuse (NewBadRequestError "TEMP_AUTH_KEY_EMPTY")
  | Some (binding, messageID) =>
      let tempID := uint64 (bd_AuthKeyID binding) in
      match TemporaryInfo (mo_now temp) tempID (mo_manager temp) with
      | (Some info, None) =>
          match TemporaryInfo (mo_now perm) (uint64 permanentID) (mo_manager perm) with
          | (None, None) =>
              match Get (mo_now get) (uint64 permanentID) (mo_manager get) with
              | Err _ => refuse (NewBadRequestError "ENCRYPTED_MESSAGE_INVALID")
              | Ok permanent =>
                  match ValidateTemporaryKeyBinding permanent tempID (bd_SessionID binding) messageID nonce expiresAt encrypted with
                  | Err _ => refuse (NewBadRequestError "ENCRYPTED_MESSAGE_INVALID")
                  | Ok _ =>
                      let expires := bounded_expiry expiresAt info in
                      if negb (now <? expires) || (now + MaxTemporaryAuthKeyLifetime <? expires)
                      then refuse (NewBadRequestError "EXPIRES_AT_INVALID")
                      else match BindTemporary (mo_now bind) tempID (uint64 permanentID) expires (mo_manager bind) with
                           | (Ok _, m) => (Ok tt, m)
                           | (Err e, m) => (Err (bind_failure e), m)
                           end
                  end
              end
          | _ => refuse (NewBadRequestError "ENCRYPTED_MESSAGE_INVALID")
          end
      | _ => refuse (NewBadRequestError "TEMP_AUTH_KEY_EMPTY")
      end
  end.

(** ** What a binding changes *)

Lemma BindTemporary_refused now id parent expires m e m' :
  BindTemporary now id parent expires m = (Err e, m') -> m' = m.
Proof. unfold BindTemporary. intros. repeat case_match; by simplify_eq. Qed.

Lemma BindTemporary_bound now id parent expires m m' :
  BindTemporary now id parent expires m = (Ok tt, m') ->
  exists info, temporary m !! id = Some info /\ is_Some (keys m !! parent) /\ temporary m !! parent = None /\ parent <> id /\
    (PermanentKeyID info = 0 \/ PermanentKeyID info = parent) /\ now < expires <= ExpiresAt info /\
    keys m' = keys m /\ temporary m' = <[id := {| ExpiresAt := expires; PermanentKeyID := parent |}]> (temporary m).
Proof.
  unfold BindTemporary. destruct (temporary m !! id) as [info|] eqn:Ei; [|done].
  destruct (bool_decide_reflect (is_Some (keys m !! parent))) as [Hk|]; [|done]. simpl.
  destruct (bool_decide_reflect (is_Some (temporary m !! parent))) as [|Ht]; [done|]. simpl.
  destruct (Z.eqb_spec parent id) as [|Hne]; [done|].
  destruct (_ && _) eqn:Ep; [done|]. destruct (_ || _) eqn:Ee; [done|]. intros [= <-].
  rewrite andb_false_iff, !negb_false_iff, !Z.eqb_eq in Ep. rewrite orb_false_iff, negb_false_iff, Z.ltb_lt, Z.ltb_ge in Ee.
  exists info. split_and!; try done; [by apply eq_None_not_Some|lia|lia].
Qed.

(** C24. Binding a temporary key, with the manager changing arbitrarily between its calls:
    it succeeds only for a temporary key that is live and the session it belongs to, with a
    message that validates, for exactly that session, message id, nonce and expiry, under a
    key the manager held as permanent under the named id; it then changes one entry, the
    temporary key's, which is bound to that permanent key, never moved from another, and
    expires no later than before, than was asked for and than a day from now.  If it is
    refused it changes nothing. *)
Theorem temporary_binding_sound context permanentID nonce expiresAt encrypted temp perm get now bind r m' :
  BindTemporaryAuthKey context permanentID nonce expiresAt encrypted temp perm get now bind = (r, m') ->
  match r with
  | Err _ => m' = mo_manager bind
  | Ok _ => exists binding messageID info permanent expires,
      let id := uint64 (bd_AuthKeyID binding) in
      context = Some (binding, messageID) /\
      TemporaryInfo (mo_now temp) id (mo_manager temp) = (Some info, None) /\
      temporary (mo_manager perm) !! uint64 permanentID = None /\
      Get (mo_now get) (uint64 permanentID) (mo_manager get) = Ok permanent /\
      ValidateTemporaryKeyBinding permanent id (bd_SessionID binding) messageID nonce expiresAt encrypted = Ok tt /\
      expires <= expiresAt * second /\ expires <= ExpiresAt info /\ now < expires <= now + MaxTemporaryAuthKeyLifetime /\
      (exists old, temporary (mo_manager bind) !! id = Some old /\ expires <= ExpiresAt old /\
         (PermanentKeyID old = 0 \/ PermanentKeyID old = uint64 permanentID)) /\
      keys m' = keys (mo_manager bind) /\
      temporary m' = <[id := {| ExpiresAt := expires; PermanentKeyID := uint64 permanentID |}]> (temporary (mo_manager bind))
  end.
Proof.
  unfold BindTemporaryAuthKey. destruct context as [[binding messageID]|]; [|by intros [= <- <-]].
  destruct (TemporaryInfo (mo_now temp) _ _) as [[info|] [e|]] eqn:Et; try (by intros [= <- <-]).
  destruct (TemporaryInfo (mo_now perm) _ _) as [[pinfo|] [e|]] eqn:Ep; try (by intros [= <- <-]).
  destruct (Get _ _ _) as [permanent|] eqn:Eg; [|by intros [= <- <-]].
  destruct (ValidateTemporaryKeyBinding _ _ _ _ _ _ _) as [[]|] eqn:Ev; [|by intros [= <- <-]].
  destruct (_ || _) eqn:Ee; [by intros [= <- <-]|].
  destruct (BindTemporary _ _ _ _ _) as [[[]|e] m] eqn:Eb; intros [= <- <-]; [|by apply BindTemporary_refused in Eb].
  apply BindTemporary_bound in Eb as (old & Hold & _ & _ & _ & Hp & Hx & Hk & Htm).
  exists binding, messageID, info, permanent, (bounded_expiry expiresAt info). cbv zeta.
  rewrite orb_false_iff, negb_false_iff, Z.ltb_lt, Z.ltb_ge in Ee.
  assert (temporary (mo_manager perm) !! uint64 permanentID = None) as Hnone.
  { unfold TemporaryInfo in Ep. by destruct (temporary (mo_manager perm) !! _) as [i|]; [destruct (negb _)|]. }
  unfold bounded_expiry in *. destruct (Z.ltb_spec (ExpiresAt info) (expiresAt * second)); split_and!; try done; try lia;
    exists old; split_and!; try done; lia.
Qed.

(** * The frame sink of a temporary key *)

Inductive frame_error :=
| FrameKey (e : crypto_error)
| FrameCanceled
| FrameSinkError (e : Z).

(** [closed] is set when the connection's context ends. *)
Definition temporary_WriteFrame (id : Z) (lookup : moment) (now : Z) (closed : bool) (sink : bytes -> option Z) (frame : bytes)
  : result frame_error unit * list bytes :=
  match TemporaryInfo (mo_now lookup) id (mo_manager lookup) with
  | (_, Some e) => (Err (FrameKey e), [])
  | (None, None) => (Err (FrameKey ErrAuthKeyNotFound), [])
  | (Some info, None) =>
      if negb (now <? ExpiresAt info) then (Err (FrameKey ErrAuthKeyNotFound), [])
      else if closed then (Err FrameCanceled, [])
      else match sink frame with
           | Some e => (Err (FrameSinkError e), [frame])
           | None => (Ok tt, [frame])
           end
  end.

(** The sink a session gets: the connection's own for a permanent key. *)
Inductive chosen_sink := OwnSink | TemporarySink (id expiresAt : Z).

Definition temporaryKeySink (id : Z) (lookup : moment) : result crypto_error chosen_sink :=
  match TemporaryInfo (mo_now lookup) id (mo_manager lookup) with
  | (_, Some e) => Err e
  | (None, None) => Ok OwnSink
  | (Some info, None) => Ok (TemporarySink id (ExpiresAt info))
  end.

(** A frame reaches the connection only while the key is bound to a live lifetime. *)
Lemma temporary_frames_are_live id lookup now closed sink frame f :
  f ∈ (temporary_WriteFrame id lookup now closed sink frame).2 ->
  f = frame /\ closed = false /\
  exists info, temporary (mo_manager lookup) !! id = Some info /\ mo_now lookup < ExpiresAt info /\ now < ExpiresAt info.
Proof.
  unfold temporary_WriteFrame, TemporaryInfo. destruct (temporary (mo_manager lookup) !! id) as [info|]; simpl; [|by intros ?%elem_of_nil].
  destruct (Z.ltb_spec (mo_now lookup) (ExpiresAt info)); simpl; [|by intros ?%elem_of_nil].
  destruct (Z.ltb_spec now (ExpiresAt info)); simpl; [|by intros ?%elem_of_nil].
  destruct closed; simpl; [by intros ?%elem_of_nil|]. destruct (sink frame); simpl; intros ->%list_elem_of_singleton; eauto 10.
Qed.

End temporary.

(** * A concrete binding *)

Definition demo_manager : MemoryAuthKeyManager :=
  {| keys := <[AuthKey_ID toy_key := toy_key]> {[5 := [x01]]};
     temporary := {[5 := {| ExpiresAt := 3600 * second; PermanentKeyID := 0 |}]} |}.

Definition demo_moment : moment := {| mo_now := second; mo_manager := demo_manager |}.

Definition demo_context : option (PushRegistry.Binding * Z) :=
  Some ({| bd_ConnectionID := 1; bd_AuthKeyID := 5; bd_SessionID := -6; bd_LeaseGeneration := 1; bd_ServerSalt := 0;
           bd_UserID := 0; bd_Layer := 160 |}, 7).

Definition demo_message : bytes :=
  match binding_message {| bi_temp := 5; bi_session := -6; bi_message := 7; bi_nonce := 8; bi_expires := 7200 |}
          toy_key (replicate 16 x0a) (replicate 8 x0b) with
  | Ok msg => msg
  | Err _ => []
  end.

(** The client asks for two hours; the key ends after one. *)
Lemma temporary_binding_sound_witness :
  let out := BindTemporaryAuthKey demo_context (int64 (AuthKey_ID toy_key)) 8 7200 demo_message demo_moment demo_moment demo_moment
    second demo_moment in
  out.1 = Ok tt /\ exists expires, expires <= 3600 * second /\
    temporary out.2 = <[5 := {| ExpiresAt := expires; PermanentKeyID := uint64 (int64 (AuthKey_ID toy_key)) |}]> (temporary demo_manager).
Proof.
  intros out. assert (Hok : out.1 = Ok tt) by (vm_compute; reflexivity). split; [exact Hok|].
  pose proof (temporary_binding_sound demo_context (int64 (AuthKey_ID toy_key)) 8 7200 demo_message demo_moment demo_moment demo_moment
    second demo_moment out.1 out.2 (surjective_pairing out)) as H. rewrite Hok in H.
  destruct H as (binding & messageID & info & permanent & expires & Hc & Ht & _ & _ & _ & _ & Hle & _ & _ & _ & Htm).
  injection Hc as <- _. exists expires. split; [|exact Htm]. vm_compute in Ht. injection Ht as <-. exact Hle.
Defined.
