(* ===== verification/SchemaAst.v ===== *)
(** The abstract syntax of a TL schema (internal/parser/ast.go): type references,
    declarations and the schema that groups constructors by their result type, with the
    canonical printing that implicit constructor ids are hashed from.

    Go strings are byte lists.  Cloning is the identity: no declaration is changed in
    place after it was cloned. *)

From stdpp Require Import base numbers list gmap strings.
From S2P Require Import Prelude.
Open Scope Z_scope.

(** * Byte strings *)

Definition str (s : string) : bytes := String.list_byte_of_string s.
Arguments str s%_string.

#[export] Instance byte_countable : Countable byte.
Proof. apply (inj_countable Byte.to_N Byte.of_N). intros x. apply Byte.of_to_N. Defined.

(** [strings.HasPrefix], [strings.HasSuffix], [strings.TrimSuffix] *)
Definition HasPrefix (s prefix : bytes) : bool := bytes_eqb (take (length prefix) s) prefix.
Definition HasSuffix (s suffix : bytes) : bool :=
  (length suffix <=? length s)%nat && bytes_eqb (drop (length s - length suffix) s) suffix.
Definition TrimSuffix (s suffix : bytes) : bytes := if HasSuffix s suffix then take (length s - length suffix) s else s.
Definition TrimPrefix (s prefix : bytes) : bytes := if HasPrefix s prefix then drop (length prefix) s else s.

(** [strings.Split] and [strings.Join] for a one-byte separator *)
Fixpoint Split (sep : byte) (s : bytes) : list bytes :=
  match s with
  | [] => [[]]
  | c :: s => if bool_decide (c = sep) then [] :: Split sep s
              else match Split sep s with p :: ps => (c :: p) :: ps | [] => [[c]] end
  end.

Fixpoint Join (sep : byte) (parts : list bytes) : bytes :=
  match parts with
  | [] => []
  | [p] => p
  | p :: ps => p ++ sep :: Join sep ps
  end.

(** [fmt.Sprintf("%d", z)] *)
Definition digit (d : Z) : byte := bZ (48 + d).

Fixpoint digits (fuel : nat) (z : Z) : bytes :=
  match fuel with
  | O => []
  | S fuel => if z <? 10 then [digit z] else digits fuel (z / 10) ++ [digit (z mod 10)]
  end.

Definition itoa (z : Z) : bytes :=
  if z <? 0 then x2d :: digits (S (Z.to_nat (Z.log2 (- z)))) (- z) else digits (S (Z.to_nat (Z.log2 z))) z.

(** The order in which [range] visits a Go map. *)
Class MapOrder := {
  in_order {A : Type} : list A -> list A;
  in_order_perm {A} (l : list A) : in_order l ≡ₚ l
}.

Definition insertion_order : MapOrder := {| in_order := fun _ l => l; in_order_perm := fun _ l => Permutation_refl l |}.

(** * Type references *)

Inductive TypeRef := {
  tr_Name : bytes;
  tr_Namespace : bytes;
  tr_IsVector : bool;
  tr_IsBare : bool;
  tr_Generic : option TypeRef;
  tr_GenericArg : bytes;
  tr_Optional : bool;
  tr_FlagName : bytes;
  tr_FlagBit : option Z;
  tr_IsTypeVar : bool;
  tr_VariantLayer : Z
}.

(** Induction on a type and its element type. *)
Lemma TypeRef_element_ind (P : TypeRef -> Prop) :
  (forall t, (forall g, tr_Generic t = Some g -> P g) -> P t) -> forall t, P t.
Proof.
  intros H. fix IH 1. intros t. apply H. destruct t as [? ? ? ? [g|] ? ? ? ? ? ?]; cbn; [intros ? [= <-]; apply IH|intros ? [=]].
Qed.

(** [TypeRef{}] *)
Definition no_type : TypeRef :=
  {| tr_Name := []; tr_Namespace := []; tr_IsVector := false; tr_IsBare := false; tr_Generic := None; tr_GenericArg := [];
     tr_Optional := false; tr_FlagName := []; tr_FlagBit := None; tr_IsTypeVar := false; tr_VariantLayer := 0 |}.

Fixpoint TypeRef_String (t : TypeRef) : bytes :=
  (if tr_IsBare t then str "!" else []) ++
  (match tr_FlagBit t with
   | Some bit => (if bool_decide (tr_FlagName t = []) then str "flags" else tr_FlagName t) ++ str "." ++ itoa bit ++ str "?"
   | None => []
   end) ++
  (if bool_decide (tr_Namespace t = []) then [] else tr_Namespace t ++ str ".") ++
  tr_Name t ++
  (if bool_decide (tr_GenericArg t = []) then [] else str " " ++ tr_GenericArg t) ++
  (if tr_IsVector t then str "<" ++ (match tr_Generic t with Some g => TypeRef_String g | None => [] end) ++ str ">" else []) ++
  (if tr_Optional t && match tr_FlagBit t with None => true | Some _ => false end then str "?" else []).

Definition FullName (t : TypeRef) : bytes :=
  if bool_decide (tr_Namespace t = []) then tr_Name t else tr_Namespace t ++ str "." ++ tr_Name t.

Definition IsBuiltin (t : TypeRef) : bool :=
  bool_decide (tr_Name t ∈ [str "int"; str "long"; str "int128"; str "int256"; str "double"; str "string"; str "bytes";
    str "bool"; str "true"; str "false"; str "Bool"; str "Object"; str "Function"; str "Type"; str "#"]).

Definition isTypeVariable (name : bytes) : bool :=
  match name with
  | [ch] => ((97 <=? Zb ch) && (Zb ch <=? 122)) || ((65 <=? Zb ch) && (Zb ch <=? 90))
  | _ => false
  end.

(** * Declarations *)

Record Position := { po_Line : Z; po_Column : Z }.
Record GenericParam := { gp_Name : bytes; gp_Constraint : bytes; gp_Pos : Position }.
Record LayerInterval := { MinLayer : Z; MaxLayer : Z }.
Record Parameter_ := { pa_Name : bytes; pa_Type : TypeRef; pa_FlagBit : option Z }.

Record Constructor := {
  ct_Name : bytes;
  ct_ID : Z;
  ct_GenericParams : list GenericParam;
  ct_Params : list Parameter_;
  ct_ResultType : TypeRef;
  ct_IsBare : bool;
  ct_VectorCount : option bytes;
  ct_IsBuiltin : bool;
  ct_VariantLayer : Z;
  ct_Intervals : list LayerInterval
}.

Record FuncDecl := {
  fn_Name : bytes;
  fn_ID : Z;
  fn_GenericParams : list GenericParam;
  fn_Params : list Parameter_;
  fn_ResultType : TypeRef;
  fn_IsTemplate : bool;
  fn_IsHelper : bool;
  fn_RequestVariantLayer : Z;
  fn_VariantLayer : Z;
  fn_Intervals : list LayerInterval;
  fn_RequestIntervals : list LayerInterval;
  fn_AcceptIntervals : list LayerInterval
}.

Record TypeDecl := { td_Name : bytes; td_Constructors : list Constructor; td_IsUnion : bool; td_VariantLayer : Z }.

Record Schema := {
  sc_Layer : Z;
  sc_BaseLayer : Z;
  sc_IsLayered : bool;
  sc_Types : list TypeDecl;
  sc_Functions : list FuncDecl;
  sc_Constructors : list Constructor;
  sc_UnionTypes : gset bytes
}.

Definition NewSchema (layer : Z) : Schema :=
  {| sc_Layer := layer; sc_BaseLayer := 0; sc_IsLayered := false; sc_Types := []; sc_Functions := []; sc_Constructors := [];
     sc_UnionTypes := ∅ |}.

Definition with_Types (types : list TypeDecl) (constructors : list Constructor) (s : Schema) : Schema :=
  {| sc_Layer := sc_Layer s; sc_BaseLayer := sc_BaseLayer s; sc_IsLayered := sc_IsLayered s; sc_Types := types;
     sc_Functions := sc_Functions s; sc_Constructors := constructors; sc_UnionTypes := sc_UnionTypes s |}.
Definition with_Functions (functions : list FuncDecl) (s : Schema) : Schema :=
  {| sc_Layer := sc_Layer s; sc_BaseLayer := sc_BaseLayer s; sc_IsLayered := sc_IsLayered s; sc_Types := sc_Types s;
     sc_Functions := functions; sc_Constructors := sc_Constructors s; sc_UnionTypes := sc_UnionTypes s |}.

Definition AddFunction (f : FuncDecl) (s : Schema) : Schema := with_Functions (sc_Functions s ++ [f]) s.

(** The first declaration that satisfies a test, as the loops of Find* return it. *)
Definition first_such {A} (P : A -> bool) (l : list A) : option A := list_find P l ≫= fun p => Some p.2.
Definition FindType (name : bytes) (s : Schema) : option TypeDecl := first_such (fun t => bytes_eqb (td_Name t) name) (sc_Types s).
Definition FindConstructor (id : Z) (s : Schema) : option Constructor := first_such (fun c => ct_ID c =? id) (sc_Constructors s).
Definition FindFunction (id : Z) (s : Schema) : option FuncDecl := first_such (fun f => fn_ID f =? id) (sc_Functions s).

(** * Grouping by result type *)

(** The declaration of the constructor's result type gets it, a new one if need be. *)
Fixpoint group_constructor (c : Constructor) (types : list TypeDecl) : list TypeDecl :=
  match types with
  | [] => [{| td_Name := FullName (ct_ResultType c); td_Constructors := [c]; td_IsUnion := false; td_VariantLayer := 0 |}]
  | t :: types =>
      if bytes_eqb (td_Name t) (FullName (ct_ResultType c)) then
        {| td_Name := td_Name t; td_Constructors := td_Constructors t ++ [c];
           td_IsUnion := 1 <? len (td_Constructors t ++ [c]); td_VariantLayer := td_VariantLayer t |} :: types
      else t :: group_constructor c types
  end.

Definition group_all (cs : list Constructor) : list TypeDecl := foldl (fun types c => group_constructor c types) [] cs.

(** * Implicit ids *)

(** [hash/crc32.ChecksumIEEE] *)
Definition crc_step (crc : Z) : Z := if Z.testbit crc 0 then Z.lxor (Z.shiftr crc 1) 0xEDB88320 else Z.shiftr crc 1.
Definition crc_byte (crc : Z) (b : byte) : Z := Nat.iter 8 crc_step (Z.lxor crc (Zb b)).
Definition ChecksumIEEE (data : bytes) : Z := Z.lxor (foldl crc_byte 0xFFFFFFFF data) 0xFFFFFFFF.

Definition computeCRC32 (format : bytes) : Z := ChecksumIEEE format.

Definition write_param (p : Parameter_) : bytes := str " " ++ pa_Name p ++ str ":" ++ TypeRef_String (pa_Type p).

Definition computeFunctionFormat (name : bytes) (params : list Parameter_) (resultType : TypeRef) : bytes :=
  name ++ concat (map write_param params) ++ str " = " ++ TypeRef_String resultType.

Definition computeConstructorFormat (name : bytes) (params : list Parameter_) (resultType : TypeRef) : bytes :=
  name ++ concat (map write_param params) ++ str " = " ++ TypeRef_String resultType ++ str ";".

Example crc_check : ChecksumIEEE (str "123456789") = 0xCBF43926.
Proof. by vm_compute. Qed.

(** The id Telegram publishes for [boolFalse] is the hash without the semicolon. *)
Example bool_false_id : computeCRC32 (str "boolFalse = Bool") = 0xbc799737.
Proof. by vm_compute. Qed.
