(* ===== verification/Lexer.v ===== *)
(** The tokens of a TL schema (internal/parser/token.go, lexer.go).

    A lexer is the input from its position on, with the line and the column of it. *)

From stdpp Require Import base numbers list strings.
From S2P Require Import Prelude SchemaAst.
Open Scope Z_scope.

Inductive TokenType :=
| TokenEOF | TokenIdent | TokenNumber | TokenColon | TokenSemi | TokenEquals | TokenLParen | TokenRParen
| TokenLBrace | TokenRBrace | TokenLBracket | TokenRBracket | TokenLess | TokenGreater | TokenQuestion
| TokenHash | TokenBang | TokenPercent | TokenDot | TokenComma | TokenUnderscore | TokenNewLine | TokenComment
| TokenTypes | TokenFunctions | TokenHashBracket.

#[export] Instance TokenType_eq_dec : EqDecision TokenType.
Proof. solve_decision. Defined.

Record Token := { tk_Type : TokenType; tk_Literal : bytes; tk_Line : Z; tk_Column : Z }.
Record Lexer := { lx_rest : bytes; lx_line : Z; lx_col : Z }.

Definition NewLexer (input : bytes) : Lexer := {| lx_rest := input; lx_line := 1; lx_col := 1 |}.

(** * Characters *)

Definition between (lo hi : Z) (ch : byte) : bool := (lo <=? Zb ch) && (Zb ch <=? hi).

(** [unicode.IsLetter] and [unicode.IsDigit] of a byte, a Latin-1 code point *)
Definition IsLetter (ch : byte) : bool :=
  between 65 90 ch || between 97 122 ch || bool_decide (ch ∈ [xaa; xb5; xba]) ||
  between 0xC0 0xD6 ch || between 0xD8 0xF6 ch || between 0xF8 0xFF ch.
Definition IsDigit (ch : byte) : bool := between 48 57 ch.

(** [string(ch)]: the code point in UTF-8 *)
Definition string_of_char (ch : byte) : bytes :=
  if Zb ch <? 128 then [ch] else [bZ (Z.lor 0xC0 (Z.shiftr (Zb ch) 6)); bZ (Z.lor 0x80 (Z.land (Zb ch) 0x3F))].

Definition isHexDigit (ch : byte) : bool := IsDigit ch || between 97 102 ch || between 65 70 ch.

Definition isAllHexDigits (s : bytes) : bool :=
  negb (len s =? 0) && forallb isHexDigit (if HasPrefix s (str "0x") then drop 2 s else s).

Definition isAllDigits (s : bytes) : bool := negb (len s =? 0) && forallb IsDigit s.

(** A character that readIdent goes on over. *)
Definition ident_char (ch : byte) : bool := IsLetter ch || IsDigit ch || bool_decide (ch = x5f).

(** * Reading *)

(** The longest prefix that satisfies a test, and what follows. *)
Fixpoint span (P : byte -> bool) (s : bytes) : bytes * bytes :=
  match s with
  | [] => ([], [])
  | c :: s' => if P c then let '(a, b) := span P s' in (c :: a, b) else ([], s)
  end.

Fixpoint advance (n : nat) (l : Lexer) : Lexer :=
  match n, lx_rest l with
  | S n, c :: rest =>
      advance n (if bool_decide (c = x0a) then {| lx_rest := rest; lx_line := lx_line l + 1; lx_col := 1 |}
                 else {| lx_rest := rest; lx_line := lx_line l; lx_col := lx_col l + 1 |})
  | _, _ => l
  end.

Definition whitespace (ch : byte) : bool := bool_decide (ch ∈ [x20; x09; x0d]).

(** One column per blank: there is no newline among them. *)
Definition skipWhitespace (l : Lexer) : Lexer := advance (length (span whitespace (lx_rest l)).1) l.

Definition newToken (tokenType : TokenType) (literal : bytes) (l : Lexer) : Token * Lexer :=
  ({| tk_Type := tokenType; tk_Literal := literal; tk_Line := lx_line l; tk_Column := lx_col l |}, advance (length literal) l).

Definition isSectionMarker (l : Lexer) : bool := negb (length (lx_rest l) <=? 3)%nat && HasPrefix (lx_rest l) (str "---").

Definition readIdent (l : Lexer) : Token * Lexer :=
  let '(literal, rest) := span ident_char (lx_rest l) in
  ({| tk_Type := if isAllHexDigits literal && match literal with c :: _ => IsDigit c | [] => false end then TokenNumber else TokenIdent;
      tk_Literal := literal; tk_Line := lx_line l; tk_Column := lx_col l |},
   {| lx_rest := rest; lx_line := lx_line l; lx_col := lx_col l + len literal |}).

Definition not_newline (ch : byte) : bool := negb (bool_decide (ch = x0a)).

(** The rest of the line as one token, or the column moved and an identifier read from here. *)
Definition readSectionMarker (l : Lexer) : Token * Lexer :=
  let '(literal, rest) := span not_newline (lx_rest l) in
  let token ty := ({| tk_Type := ty; tk_Literal := literal; tk_Line := lx_line l; tk_Column := lx_col l |},
                   {| lx_rest := rest; lx_line := lx_line l; lx_col := lx_col l + len literal |}) in
  if bytes_eqb literal (str "---types---") then token TokenTypes
  else if bytes_eqb literal (str "---functions---") then token TokenFunctions
  else readIdent {| lx_rest := lx_rest l; lx_line := lx_line l; lx_col := lx_col l + len literal |}.

Definition readComment (l : Lexer) : Token * Lexer :=
  let '(literal, rest) := span not_newline (lx_rest l) in
  ({| tk_Type := TokenComment; tk_Literal := literal; tk_Line := lx_line l; tk_Column := lx_col l |},
   {| lx_rest := rest; lx_line := lx_line l; lx_col := lx_col l + len literal |}).

(** The single-character tokens. *)
Definition single (ch : byte) : option TokenType :=
  match ch with
  | x3a => Some TokenColon | x3b => Some TokenSemi | x3d => Some TokenEquals | x28 => Some TokenLParen | x29 => Some TokenRParen
  | x7b => Some TokenLBrace | x7d => Some TokenRBrace | x5b => Some TokenLBracket | x5d => Some TokenRBracket
  | x3c => Some TokenLess | x3e => Some TokenGreater | x3f => Some TokenQuestion | x2c => Some TokenComma
  | x23 => Some TokenHash | x21 => Some TokenBang | x25 => Some TokenPercent | x2e => Some TokenDot | x0a => Some TokenNewLine
  | _ => None
  end.

(** The byte [n] places ahead, 0 beyond the end. *)
Definition peekCharN (n : nat) (l : Lexer) : byte := default x00 (lx_rest l !! n).

Definition NextToken (l : Lexer) : Token * Lexer :=
  let l := skipWhitespace l in
  match lx_rest l with
  | [] => ({| tk_Type := TokenEOF; tk_Literal := []; tk_Line := lx_line l; tk_Column := lx_col l |}, l)
  | ch :: _ =>
      if isSectionMarker l then readSectionMarker l
      else if bool_decide (ch = x2f) && bool_decide (peekCharN 1 l = x2f) then readComment l
      else if bool_decide (ch = x23) && bool_decide (peekCharN 1 l = x20) && bool_decide (peekCharN 2 l = x5b) then newToken TokenHashBracket (str "# [") l
      else match single ch with
           | Some ty => newToken ty [ch] l
           | None =>
               if IsLetter ch || bool_decide (ch = x5f) || IsDigit ch then readIdent l
               else newToken TokenEOF (string_of_char ch) l
           end
  end.

Definition PeekToken (l : Lexer) : Token := (NextToken l).1.
