(* ===== verification/SchemaParser.v ===== *)
(** The recursive descent parser of TL schemas (internal/parser/parser.go).

    A parser holds the lexer and two tokens.  Where the code loops or recurses on the
    tokens the model takes fuel; [Parse] gives it the length of the input. *)

From stdpp Require Import base numbers list gmap strings.
From S2P Require Import Prelude SchemaAst Lexer.
Open Scope Z_scope.

(** The formats of errorf, with their arguments. *)
Inductive parse_message :=
| ExpectedToStartGenerics | ExpectedGenericName | ExpectedGenericColon | ExpectedGenericConstraint | ExpectedCommaOrBrace | ExpectedCloseBrace
| ExpectedHash | ExpectedElementVariable | ExpectedRBracket | ExpectedConstructorEquals | ExpectedFunctionEquals
| ExpectedBuiltinQuestion (name : bytes) | UnexpectedBuiltinQuestion (name : bytes) | ExpectedBuiltinEquals (name : bytes)
| BuiltinMustReturn (name result : bytes)
| ExpectedIdent (got : TokenType) | ExpectedIdentAfterDot (got : TokenType)
| ExpectedHex (got : TokenType) | ExpectedHexLiteral (got : bytes) | InvalidHex (literal : bytes)
| ExpectedParamColon | GenericNotSupported (name : bytes)
| ExpectedFlagBit (got : TokenType) | ExpectedDecimalBit (got : bytes) | InvalidFlagBit (literal : bytes).

Inductive parse_error :=
| ParseError (line col : Z) (message : parse_message) (token : Token)
| OutOfFuel.

Record Parser := { ps_lexer : Lexer; ps_cur : Token; ps_peek : Token }.
Abbreviation PM := (ST Parser parse_error).

(** [Token{}] *)
Definition no_token : Token := {| tk_Type := TokenEOF; tk_Literal := []; tk_Line := 0; tk_Column := 0 |}.

Definition NewParser (input : bytes) : Parser := {| ps_lexer := NewLexer input; ps_cur := no_token; ps_peek := no_token |}.

(** * Tokens *)

Definition step_token (p : Parser) : Parser :=
  let '(t, l) := NextToken (ps_lexer p) in {| ps_lexer := l; ps_cur := ps_peek p; ps_peek := t |}.
Definition nextToken : PM unit := fun p => (Ok tt, step_token p).

Definition cur : PM Token := fun p => (Ok (ps_cur p), p).
Definition curType : PM TokenType := fun p => (Ok (tk_Type (ps_cur p)), p).

Definition expect (ty : TokenType) : PM bool := fun p =>
  if bool_decide (tk_Type (ps_cur p) = ty) then (Ok true, step_token p) else (Ok false, p).

Definition errorf {A} (m : parse_message) : PM A := fun p =>
  (Err (ParseError (tk_Line (ps_cur p)) (tk_Column (ps_cur p)) m (ps_cur p)), p).

(** [if p.cur.Type != ty { return p.errorf(m) }; p.nextToken()] *)
Definition require (ty : TokenType) (m : parse_message) : PM unit :=
  t ← curType; if bool_decide (t = ty) then nextToken else errorf m.

Definition out_of_fuel {A} : PM A := st_err OutOfFuel.

Fixpoint skipNewlines (fuel : nat) : PM unit :=
  match fuel with
  | O => out_of_fuel
  | S fuel => t ← curType; if bool_decide (t = TokenNewLine) then _ ← nextToken; skipNewlines fuel else mret tt
  end.

(** * Identifiers and numbers *)

(** The parts after the first: [for p.cur.Type == TokenDot] *)
Fixpoint identParts (fuel : nat) : PM (list bytes) :=
  match fuel with
  | O => out_of_fuel
  | S fuel =>
      t ← curType;
      if bool_decide (t = TokenDot) then
        _ ← nextToken;
        t ← cur;
        if negb (bool_decide (tk_Type t = TokenIdent)) then errorf (ExpectedIdentAfterDot (tk_Type t))
        else _ ← nextToken; parts ← identParts fuel; mret (tk_Literal t :: parts)
      else mret []
  end.

Definition parseIdent (fuel : nat) : PM bytes :=
  t ← cur;
  if negb (bool_decide (tk_Type t = TokenIdent)) && negb (bool_decide (tk_Type t = TokenHash)) then errorf (ExpectedIdent (tk_Type t))
  else _ ← nextToken; parts ← identParts fuel; mret (Join x2e (tk_Literal t :: parts)).

(** The value of digits in a base, [None] for a character that is no digit of it. *)
Definition hex_value (ch : byte) : option Z :=
  if between 48 57 ch then Some (Zb ch - 48)
  else if between 97 102 ch then Some (Zb ch - 87) else if between 65 70 ch then Some (Zb ch - 55) else None.

Definition number (base : Z) (s : bytes) : option Z :=
  foldl (fun acc ch => v ← acc; d ← hex_value ch; if d <? base then Some (v * base + d) else None) (Some 0) s.

(** [strconv.ParseUint(s, 16, 32)] and [strconv.Atoi(s)] of a string of digits *)
Definition ParseUint16_32 (s : bytes) : option Z :=
  if len s =? 0 then None else v ← number 16 s; if v <? 2 ^ 32 then Some v else None.
Definition Atoi (s : bytes) : option Z :=
  if len s =? 0 then None else v ← number 10 s; if v <? 2 ^ 63 then Some v else None.

Definition parseHexID : PM Z :=
  t ← cur;
  if negb (bool_decide (tk_Type t = TokenNumber)) && negb (bool_decide (tk_Type t = TokenIdent)) then errorf (ExpectedHex (tk_Type t))
  else
    _ ← nextToken;
    if negb (isAllHexDigits (tk_Literal t)) then errorf (ExpectedHexLiteral (tk_Literal t))
    else
      let literal := TrimPrefix (tk_Literal t) (str "0x") in
      match ParseUint16_32 literal with
      | Some value => mret value
      | None => errorf (InvalidHex literal)
      end.

(** * Type references *)

(** [strings.Split(name, ".")]: a namespace and a name, or the whole as the name *)
Definition set_name (name : bytes) (t : TypeRef) : TypeRef :=
  let '(namespace, name) := match Split x2e name with [ns; n] => (ns, n) | _ => ([], name) end in
  {| tr_Name := name; tr_Namespace := namespace; tr_IsVector := tr_IsVector t; tr_IsBare := tr_IsBare t; tr_Generic := tr_Generic t;
     tr_GenericArg := tr_GenericArg t; tr_Optional := tr_Optional t; tr_FlagName := tr_FlagName t; tr_FlagBit := tr_FlagBit t;
     tr_IsTypeVar := isTypeVariable name; tr_VariantLayer := tr_VariantLayer t |}.
Definition set_bare (t : TypeRef) : TypeRef :=
  {| tr_Name := tr_Name t; tr_Namespace := tr_Namespace t; tr_IsVector := tr_IsVector t; tr_IsBare := true; tr_Generic := tr_Generic t;
     tr_GenericArg := tr_GenericArg t; tr_Optional := tr_Optional t; tr_FlagName := tr_FlagName t; tr_FlagBit := tr_FlagBit t;
     tr_IsTypeVar := tr_IsTypeVar t; tr_VariantLayer := tr_VariantLayer t |}.
Definition set_vector (g t : TypeRef) : TypeRef :=
  {| tr_Name := tr_Name t; tr_Namespace := tr_Namespace t; tr_IsVector := true; tr_IsBare := tr_IsBare t; tr_Generic := Some g;
     tr_GenericArg := tr_GenericArg t; tr_Optional := tr_Optional t; tr_FlagName := tr_FlagName t; tr_FlagBit := tr_FlagBit t;
     tr_IsTypeVar := tr_IsTypeVar t; tr_VariantLayer := tr_VariantLayer t |}.
Definition set_optional (t : TypeRef) : TypeRef :=
  {| tr_Name := tr_Name t; tr_Namespace := tr_Namespace t; tr_IsVector := tr_IsVector t; tr_IsBare := tr_IsBare t; tr_Generic := tr_Generic t;
     tr_GenericArg := tr_GenericArg t; tr_Optional := true; tr_FlagName := tr_FlagName t; tr_FlagBit := tr_FlagBit t;
     tr_IsTypeVar := tr_IsTypeVar t; tr_VariantLayer := tr_VariantLayer t |}.
Definition set_flag (flagName : bytes) (bit : Z) (t : TypeRef) : TypeRef :=
  {| tr_Name := tr_Name t; tr_Namespace := tr_Namespace t; tr_IsVector := tr_IsVector t; tr_IsBare := tr_IsBare t; tr_Generic := tr_Generic t;
     tr_GenericArg := tr_GenericArg t; tr_Optional := true; tr_FlagName := flagName; tr_FlagBit := Some bit;
     tr_IsTypeVar := tr_IsTypeVar t; tr_VariantLayer := tr_VariantLayer t |}.
Definition set_generic_arg (arg : bytes) (t : TypeRef) : TypeRef :=
  {| tr_Name := tr_Name t; tr_Namespace := tr_Namespace t; tr_IsVector := tr_IsVector t; tr_IsBare := tr_IsBare t; tr_Generic := tr_Generic t;
     tr_GenericArg := arg; tr_Optional := tr_Optional t; tr_FlagName := tr_FlagName t; tr_FlagBit := tr_FlagBit t;
     tr_IsTypeVar := isTypeVariable arg; tr_VariantLayer := tr_VariantLayer t |}.

(** The flag name and bit of "flags.N?" *)
Definition parseCondition : PM (bytes * Z) :=
  t ← cur;
  let flagName := tk_Literal t in
  _ ← nextToken;
  _ ← expect TokenDot;
  t ← cur;
  if negb (bool_decide (tk_Type t = TokenNumber)) then errorf (ExpectedFlagBit (tk_Type t))
  else
    let literal := tk_Literal t in
    _ ← nextToken;
    if (len literal =? 0) || HasPrefix literal (str "0x") || negb (isAllDigits literal) then errorf (ExpectedDecimalBit literal)
    else
      match Atoi literal with
      | None => errorf (InvalidFlagBit literal)
      | Some bit => _ ← expect TokenQuestion; mret (flagName, bit)
      end.

(** A type name, its generic argument by [inner], and a question mark. *)
Definition parsePlainTypeRef (fuel : nat) (inner : PM TypeRef) (t : TypeRef) : PM TypeRef :=
  name ← parseIdent fuel;
  let t := set_name name t in
  ty ← curType;
  t ← (if bool_decide (ty = TokenLess) then
         _ ← nextToken;
         g ← inner;
         _ ← expect TokenGreater;
         if bytes_eqb (tr_Name t) (str "vector") || bytes_eqb (tr_Name t) (str "Vector") then mret (set_vector g t)
         else errorf (GenericNotSupported (tr_Name t))
       else mret t);
  ty ← curType;
  if bool_decide (ty = TokenQuestion) then _ ← nextToken; mret (set_optional t) else mret t.

Definition is_condition (t : Token) : bool := bool_decide (tk_Type t = TokenIdent) && HasPrefix (tk_Literal t) (str "flags").

(** parseTypeRef, with parseConditionalTypeRef inlined as the branch it is. *)
Fixpoint parseTypeRef (fuel : nat) : PM TypeRef :=
  match fuel with
  | O => out_of_fuel
  | S fuel' =>
      ty ← curType;
      bare ← (if bool_decide (ty = TokenBang) then _ ← nextToken; mret (set_bare no_type) else mret no_type);
      t ← cur;
      if is_condition t then
        condition ← parseCondition;
        actualType ← parseTypeRef fuel';
        mret (set_flag condition.1 condition.2 actualType)
      else parsePlainTypeRef fuel (parseTypeRef fuel') bare
  end.

(** * Declarations *)

Definition parseParam (fuel : nat) : PM Parameter_ :=
  name ← parseIdent fuel;
  _ ← require TokenColon ExpectedParamColon;
  typeRef ← parseTypeRef fuel;
  mret {| pa_Name := name; pa_Type := typeRef; pa_FlagBit := tr_FlagBit typeRef |}.

Fixpoint parseParams (fuel : nat) : PM (list Parameter_) :=
  match fuel with
  | O => out_of_fuel
  | S fuel' =>
      ty ← curType;
      if bool_decide (ty = TokenEquals) || bool_decide (ty = TokenEOF) then mret []
      else param ← parseParam fuel; params ← parseParams fuel'; mret (param :: params)
  end.

Definition parseGenericParam : PM GenericParam :=
  t ← cur;
  if negb (bool_decide (tk_Type t = TokenIdent)) then errorf ExpectedGenericName
  else
    _ ← nextToken;
    _ ← require TokenColon ExpectedGenericColon;
    c ← cur;
    _ ← require TokenIdent ExpectedGenericConstraint;
    mret {| gp_Name := tk_Literal t; gp_Constraint := tk_Literal c; gp_Pos := {| po_Line := tk_Line t; po_Column := tk_Column t |} |}.

(** [for p.cur.Type != TokenRBrace && p.cur.Type != TokenEOF] *)
Fixpoint genericParams (fuel : nat) : PM (list GenericParam) :=
  match fuel with
  | O => out_of_fuel
  | S fuel =>
      ty ← curType;
      if bool_decide (ty = TokenRBrace) || bool_decide (ty = TokenEOF) then mret []
      else
        param ← parseGenericParam;
        ty ← curType;
        _ ← (if bool_decide (ty = TokenComma) then nextToken
             else if bool_decide (ty = TokenRBrace) then mret tt else errorf ExpectedCommaOrBrace);
        params ← genericParams fuel;
        mret (param :: params)
  end.

Definition parseGenericParams (fuel : nat) : PM (list GenericParam) :=
  _ ← require TokenLBrace ExpectedToStartGenerics;
  params ← genericParams fuel;
  _ ← require TokenRBrace ExpectedCloseBrace;
  mret params.

Definition optionalGenerics (fuel : nat) : PM (list GenericParam) :=
  ty ← curType; if bool_decide (ty = TokenLBrace) then parseGenericParams fuel else mret [].

(** A name after the result type: "Vector t" *)
Definition parseResultType (fuel : nat) : PM TypeRef :=
  resultType ← parseTypeRef fuel;
  t ← cur;
  if bool_decide (tk_Type t = TokenIdent) then _ ← nextToken; mret (set_generic_arg (tk_Literal t) resultType) else mret resultType.

(** The declarations of primitive types: their result and whether "?" follows the name. *)
Definition builtinDeclarations (name : bytes) : option (bytes * bool) :=
  if bytes_eqb name (str "int") then Some (str "Int", true)
  else if bytes_eqb name (str "long") then Some (str "Long", true)
  else if bytes_eqb name (str "double") then Some (str "Double", true)
  else if bytes_eqb name (str "string") then Some (str "String", true)
  else if bytes_eqb name (str "bytes") then Some (str "Bytes", false)
  else if bytes_eqb name (str "int256") then Some (str "Int256", false)
  else None.

Definition builtin_format (name result : bytes) (questionMark : bool) : bytes :=
  if questionMark then name ++ str " ? = " ++ result else name ++ str " = " ++ result.

(** [None]: not a builtin name. *)
Definition parseBuiltinConstructor (fuel : nat) (name : bytes) : PM (option Constructor) :=
  match builtinDeclarations name with
  | None => mret None
  | Some (result, questionMark) =>
      ty ← curType;
      _ ← (if questionMark then require TokenQuestion (ExpectedBuiltinQuestion name)
           else if bool_decide (ty = TokenQuestion) then errorf (UnexpectedBuiltinQuestion name) else mret tt);
      _ ← require TokenEquals (ExpectedBuiltinEquals name);
      resultType ← parseTypeRef fuel;
      if negb (bytes_eqb (FullName resultType) result) || tr_Optional resultType || tr_IsVector resultType ||
         negb (bytes_eqb (tr_GenericArg resultType) []) then errorf (BuiltinMustReturn name result)
      else mret (Some {| ct_Name := name; ct_ID := computeCRC32 (builtin_format name result questionMark); ct_GenericParams := [];
                         ct_Params := []; ct_ResultType := resultType; ct_IsBare := false; ct_VectorCount := None; ct_IsBuiltin := true;
                         ct_VariantLayer := 0; ct_Intervals := [] |})
  end.

(** "# [ t ]" *)
Definition parseVectorCount : PM (option bytes) :=
  ty ← curType;
  if bool_decide (ty = TokenHashBracket) then
    _ ← nextToken;
    t ← cur;
    _ ← require TokenIdent ExpectedElementVariable;
    _ ← require TokenRBracket ExpectedRBracket;
    mret (Some (tk_Literal t))
  else mret None.

(** The id when there is one to parse, else 0. *)
Definition optionalID : PM Z :=
  t ← cur;
  if bool_decide (tk_Type t = TokenNumber) || (bool_decide (tk_Type t = TokenIdent) && isAllHexDigits (tk_Literal t)) then parseHexID else mret 0.

(** The declaration after its "#". *)
Definition parseConstructorBody (fuel : nat) (name : bytes) (isBare : bool) : PM Constructor :=
  id ← optionalID;
  generics ← optionalGenerics fuel;
  vectorCount ← parseVectorCount;
  params ← parseParams fuel;
  _ ← require TokenEquals ExpectedConstructorEquals;
  resultType ← parseResultType fuel;
  mret {| ct_Name := name;
          ct_ID := if id =? 0 then computeCRC32 (computeConstructorFormat name params resultType) else id;
          ct_GenericParams := generics; ct_Params := params; ct_ResultType := resultType; ct_IsBare := isBare;
          ct_VectorCount := vectorCount; ct_IsBuiltin := false; ct_VariantLayer := 0; ct_Intervals := [] |}.

Definition parseConstructor (fuel : nat) : PM Constructor :=
  ty ← curType;
  isBare ← (if bool_decide (ty = TokenPercent) then _ ← nextToken; mret true else mret false);
  name ← parseIdent fuel;
  ty ← curType;
  if bool_decide (ty = TokenHash) then _ ← nextToken; parseConstructorBody fuel name isBare
  else
    builtin ← (if negb isBare then parseBuiltinConstructor fuel name else mret None);
    match builtin with
    | Some ctor => mret ctor
    | None => errorf ExpectedHash
    end.

Definition parseFunction (fuel : nat) : PM FuncDecl :=
  name ← parseIdent fuel;
  ty ← curType;
  id ← (if bool_decide (ty = TokenHash) then _ ← nextToken; id ← parseHexID; mret (Some id) else mret None);
  generics ← optionalGenerics fuel;
  params ← parseParams fuel;
  _ ← require TokenEquals ExpectedFunctionEquals;
  resultType ← parseResultType fuel;
  mret {| fn_Name := name;
          fn_ID := match id with Some id => id | None => computeCRC32 (computeFunctionFormat name params resultType) end;
          fn_GenericParams := generics; fn_Params := params; fn_ResultType := resultType;
          fn_IsTemplate := existsb (fun g => bytes_eqb (tr_Name resultType) (gp_Name g)) generics;
          fn_IsHelper := false; fn_RequestVariantLayer := 0; fn_VariantLayer := 0; fn_Intervals := []; fn_RequestIntervals := [];
          fn_AcceptIntervals := [] |}.

(** * The schema *)

Definition add_constructor (c : Constructor) (s : Schema) : Schema :=
  with_Types (group_constructor c (sc_Types s)) (sc_Constructors s ++ [c]) s.

Fixpoint parseConstructors (fuel : nat) (s : Schema) : PM Schema :=
  match fuel with
  | O => out_of_fuel
  | S fuel' =>
      ty ← curType;
      if bool_decide (ty ∈ [TokenEOF; TokenFunctions; TokenTypes]) then mret s
      else
        ctor ← parseConstructor fuel;
        let s := add_constructor ctor s in
        ty ← curType;
        if bool_decide (ty = TokenSemi) then _ ← nextToken; _ ← skipNewlines fuel; parseConstructors fuel' s else mret s
  end.

Definition parseTypesSection (fuel : nat) (s : Schema) : PM Schema :=
  _ ← expect TokenTypes; _ ← skipNewlines fuel; parseConstructors fuel s.

Fixpoint parseFunctions (fuel : nat) (s : Schema) : PM Schema :=
  match fuel with
  | O => out_of_fuel
  | S fuel' =>
      ty ← curType;
      if bool_decide (ty ∈ [TokenEOF; TokenTypes; TokenFunctions]) then mret s
      else
        f ← parseFunction fuel;
        _ ← expect TokenSemi;
        _ ← skipNewlines fuel;
        parseFunctions fuel' (AddFunction f s)
  end.

Definition parseFunctionsSection (fuel : nat) (s : Schema) : PM Schema :=
  _ ← expect TokenFunctions; _ ← skipNewlines fuel; parseFunctions fuel s.

(** [byName] holds the last function of each name. *)
Definition last_named (name : bytes) (functions : list FuncDecl) : option FuncDecl :=
  last (filter (fun f => fn_Name f = name) functions).

Definition mark_helper (f : FuncDecl) : FuncDecl :=
  {| fn_Name := fn_Name f; fn_ID := fn_ID f; fn_GenericParams := fn_GenericParams f; fn_Params := fn_Params f; fn_ResultType := fn_ResultType f;
     fn_IsTemplate := fn_IsTemplate f; fn_IsHelper := true; fn_RequestVariantLayer := fn_RequestVariantLayer f; fn_VariantLayer := fn_VariantLayer f;
     fn_Intervals := fn_Intervals f; fn_RequestIntervals := fn_RequestIntervals f; fn_AcceptIntervals := fn_AcceptIntervals f |}.

Definition is_prefix_helper (functions : list FuncDecl) (helper : FuncDecl) : bool :=
  HasSuffix (fn_Name helper) (str "Prefix") && bytes_eqb (FullName (fn_ResultType helper)) (str "Error") &&
  match last_named (TrimSuffix (fn_Name helper) (str "Prefix")) functions with
  | Some base => (fn_ID base =? fn_ID helper) && fn_IsTemplate base
  | None => false
  end.

Definition markSerializerPrefixHelpers (s : Schema) : Schema :=
  with_Functions (map (fun f => if is_prefix_helper (sc_Functions s) f then mark_helper f else f) (sc_Functions s)) s.

(** The loop of ParseWithLayer. *)
Fixpoint parseSections (fuel : nat) (s : Schema) : PM Schema :=
  match fuel with
  | O => out_of_fuel
  | S fuel' =>
      ty ← curType;
      if bool_decide (ty = TokenEOF) then mret s
      else
        s ← (if bool_decide (ty = TokenTypes) then parseTypesSection fuel s
             else if bool_decide (ty = TokenFunctions) then parseFunctionsSection fuel s
             else parseConstructors fuel s);
        parseSections fuel' s
  end.

Definition ParseWithLayer (fuel : nat) (layer : Z) : PM Schema :=
  _ ← nextToken;
  _ ← nextToken;
  s ← parseSections fuel (NewSchema layer);
  mret (markSerializerPrefixHelpers s).

(** Enough for every loop on this input. *)
Definition parse_fuel (input : bytes) : nat := length input + 2.

Definition ParseAt (layer : Z) (input : bytes) : result parse_error Schema :=
  (ParseWithLayer (parse_fuel input) layer (NewParser input)).1.
Definition Parse (input : bytes) : result parse_error Schema := ParseAt 0 input.

(** * Termination *)

(** Every token but the end and the empty identifier came from input that was consumed. *)
Definition weight (t : Token) : nat :=
  match tk_Type t with
  | TokenEOF => 0
  | TokenIdent => if bool_decide (tk_Literal t = []) then 0 else 1
  | _ => 1
  end.

Definition size (p : Parser) : nat := length (lx_rest (ps_lexer p)) + weight (ps_cur p) + weight (ps_peek p).

Lemma span_length P s : (length (span P s).1 + length (span P s).2 = length s)%nat.
Proof. induction s as [|c s IH]; cbn; [done|]. destruct (P c); [|done]. destruct (span P s). cbn in *. lia. Qed.

Lemma length_advance n l : length (lx_rest (advance n l)) = (length (lx_rest l) - n)%nat.
Proof.
  revert l. induction n as [|n IH]; intros [[|c rest] line col]; cbn; [done|lia|done|].
  by case_bool_decide; rewrite IH.
Qed.

Lemma readIdent_weight l : (weight (readIdent l).1 + length (lx_rest (readIdent l).2) <= length (lx_rest l))%nat.
Proof.
  unfold readIdent. pose proof (span_length ident_char (lx_rest l)) as Hl. destruct (span _ _) as [lit rest]. cbn in *.
  unfold weight. cbn. destruct lit as [|c lit]; cbn in *; [rewrite andb_false_r; cbn; lia|]. destruct (_ && _); cbn; lia.
Qed.

Lemma readSectionMarker_weight l :
  lx_rest l <> [] -> (weight (readSectionMarker l).1 + length (lx_rest (readSectionMarker l).2) <= length (lx_rest l))%nat.
Proof.
  intros Hne. unfold readSectionMarker. pose proof (span_length not_newline (lx_rest l)) as Hl. destruct (span _ _) as [lit rest]. cbn in Hl.
  unfold bytes_eqb. case_bool_decide as H1; [subst; cbn in *; lia|]. case_bool_decide as H2; [subst; cbn in *; lia|].
  pose proof (readIdent_weight {| lx_rest := lx_rest l; lx_line := lx_line l; lx_col := lx_col l + len lit |}). cbn in *. lia.
Qed.

Lemma NextToken_weight l : (weight (NextToken l).1 + length (lx_rest (NextToken l).2) <= length (lx_rest l))%nat.
Proof.
  unfold NextToken. assert (Hskip : (length (lx_rest (skipWhitespace l)) <= length (lx_rest l))%nat).
  { unfold skipWhitespace. rewrite length_advance. lia. }
  set (m := skipWhitespace l) in *. destruct (lx_rest m) as [|ch rest] eqn:Hm; [unfold weight; cbn; rewrite Hm; cbn; lia|].
  assert (Hone : forall ty lit, lit <> [] -> (weight (newToken ty lit m).1 + length (lx_rest (newToken ty lit m).2) <= length (lx_rest l))%nat).
  { intros ty lit Hlit. unfold newToken. cbn [fst snd]. rewrite length_advance, Hm. destruct lit; [done|]. unfold weight. cbn in *. destruct ty; lia. }
  destruct (isSectionMarker m). { pose proof (readSectionMarker_weight m ltac:(by rewrite Hm)). rewrite Hm in *. cbn in *. lia. }
  destruct (bool_decide (ch = x2f) && _) eqn:Hslash.
  { bools. subst ch. unfold readComment. rewrite Hm. cbn [span]. change (not_newline x2f) with true. cbv iota.
    pose proof (span_length not_newline rest). destruct (span not_newline rest). unfold weight. cbn in *. lia. }
  clear Hslash. destruct (bool_decide (ch = x23) && _ && _); [by apply Hone|]. destruct (single ch); [by apply Hone|]. destruct (_ || _).
  - pose proof (readIdent_weight m). rewrite Hm in *. cbn in *. lia.
  - apply Hone. unfold string_of_char. by case_match.
Qed.

Lemma size_step p : (size (step_token p) + weight (ps_cur p) <= size p)%nat.
Proof. unfold size, step_token. pose proof (NextToken_weight (ps_lexer p)). destruct (NextToken (ps_lexer p)). cbn in *. lia. Qed.

(** The call does not run out of fuel here and, when it succeeds, has used [k] tokens. *)
Definition good {A} (k : nat) (m : PM A) (p : Parser) : Prop :=
  match m p with
  | (Ok _, p') => (size p' + k <= size p)%nat
  | (Err e, _) => e <> OutOfFuel
  end.

Lemma good_bind {A B} k1 k2 (m : PM A) (f : A -> PM B) p :
  good k1 m p -> (forall a p', m p = (Ok a, p') -> (size p' + k1 <= size p)%nat -> good k2 (f a) p') -> good (k1 + k2) (m ≫= f) p.
Proof.
  unfold good, mbind, ST_bind, st_bind. intros Hm Hf. destruct (m p) as [[a|e] p'] eqn:E; [|done].
  specialize (Hf a p' eq_refl Hm). destruct (f a p') as [[b|e] p'']; [lia|done].
Qed.

Lemma good_bind0 {A B} k (m : PM A) (f : A -> PM B) p :
  good 0 m p -> (forall a p', m p = (Ok a, p') -> (size p' <= size p)%nat -> good k (f a) p') -> good k (m ≫= f) p.
Proof. intros Hm Hf. apply (good_bind 0 k); [done|]. intros a p' H1 H2. apply Hf; [done|lia]. Qed.

Lemma good_bind1 {A B} (m : PM A) (f : A -> PM B) p :
  good 1 m p -> (forall a p', (size p' < size p)%nat -> good 0 (f a) p') -> good 1 (m ≫= f) p.
Proof. intros Hm Hf. apply (good_bind 1 0); [done|]. intros a p' H1 H2. apply Hf. lia. Qed.

Lemma good_weaken {A} k k' (m : PM A) p : (k' <= k)%nat -> good k m p -> good k' m p.
Proof. unfold good. intros Hk. destruct (m p) as [[a|e] p']; [lia|done]. Qed.

Lemma good_ret {A} (a : A) p : good 0 (mret a) p.
Proof. unfold good. cbn. lia. Qed.

Lemma good_cur {B} k (f : Token -> PM B) p : good k (f (ps_cur p)) p -> good k (cur ≫= f) p.
Proof. done. Qed.
Lemma good_curType {B} k (f : TokenType -> PM B) p : good k (f (tk_Type (ps_cur p))) p -> good k (curType ≫= f) p.
Proof. done. Qed.

Lemma good_errorf {A} k m p : good k (errorf (A := A) m) p.
Proof. done. Qed.

Lemma good_next p : good (weight (ps_cur p)) nextToken p.
Proof. unfold good, nextToken. pose proof (size_step p). lia. Qed.

Lemma good_next0 p : good 0 nextToken p.
Proof. eapply good_weaken, good_next. lia. Qed.

Lemma good_expect ty p : good 0 (expect ty) p.
Proof. unfold good, expect. pose proof (size_step p). case_bool_decide; lia. Qed.

(** Token types that always stand for input. *)
Definition solid (ty : TokenType) : bool := negb (bool_decide (ty ∈ [TokenEOF; TokenIdent])).

Lemma weight_solid t ty : tk_Type t = ty -> solid ty = true -> weight t = 1%nat.
Proof. unfold weight. intros ->. by destruct ty. Qed.

Lemma good_next_solid ty p : tk_Type (ps_cur p) = ty -> solid ty = true -> good 1 nextToken p.
Proof. intros Ht Hs. rewrite <- (weight_solid _ _ Ht Hs). apply good_next. Qed.

Lemma good_require ty m p : good (if solid ty then 1 else 0) (require ty m) p.
Proof.
  unfold require. apply good_curType. case_bool_decide as Ht; [|done].
  destruct (solid ty) eqn:Hs; [by eapply good_next_solid|apply good_next0].
Qed.

Lemma good_require0 ty m p : good 0 (require ty m) p.
Proof. eapply good_weaken, good_require. lia. Qed.

Lemma good_skipNewlines fuel p : (size p < fuel)%nat -> good 0 (skipNewlines fuel) p.
Proof.
  revert p. induction fuel as [|fuel IH]; intros p Hf; [lia|]. cbn [skipNewlines]. apply good_curType. case_bool_decide as Ht; [|apply good_ret].
  apply (good_weaken 1); [lia|]. apply good_bind1; [by eapply good_next_solid|]. intros _ p' Hp. apply IH. lia.
Qed.

Lemma good_identParts fuel p : (size p < fuel)%nat -> good 0 (identParts fuel) p.
Proof.
  revert p. induction fuel as [|fuel IH]; intros p Hf; [lia|]. cbn [identParts]. apply good_curType. case_bool_decide as Ht; [|apply good_ret].
  apply (good_weaken 1); [lia|]. apply good_bind1; [by eapply good_next_solid|]. intros _ p' Hp. apply good_cur. case_match; [done|].
  apply good_bind0; [apply good_next0|]. intros _ p2 _ Hp2. apply good_bind0; [apply IH; lia|]. intros. apply good_ret.
Qed.

Lemma good_parseIdent fuel p : (size p < fuel)%nat -> good 0 (parseIdent fuel) p.
Proof.
  intros Hf. unfold parseIdent. apply good_cur. case_match; [done|]. apply good_bind0; [apply good_next0|]. intros _ p' _ Hp.
  apply good_bind0; [apply good_identParts; lia|]. intros. apply good_ret.
Qed.

Lemma good_parseHexID p : good 0 parseHexID p.
Proof.
  unfold parseHexID. apply good_cur. case_match; [done|]. apply good_bind0; [apply good_next0|]. intros _ p' _ _.
  repeat case_match; done || apply good_ret.
Qed.

Lemma good_parseCondition p : good 1 parseCondition p.
Proof.
  unfold parseCondition. apply good_cur. apply good_bind0; [apply good_next0|]. intros _ p1 _ _.
  apply good_bind0; [apply good_expect|]. intros _ p2 _ _. apply good_cur. case_bool_decide as Hn; [|done]. cbn [negb].
  apply good_bind1; [by eapply good_next_solid|]. intros _ p3 _. repeat case_match; [done|..|done].
  apply good_bind0; [apply good_expect|]. intros. apply good_ret.
Qed.

(** Walks through a call: each part is covered by its lemma. *)
Create HintDb parsing.
#[local] Hint Resolve good_next0 good_expect good_require0 good_ret good_errorf good_parseHexID : parsing.
#[local] Hint Extern 1 (good _ (skipNewlines _) _) => apply good_skipNewlines; lia : parsing.
#[local] Hint Extern 1 (good _ (parseIdent _) _) => apply good_parseIdent; lia : parsing.

Ltac walk :=
  repeat first
    [ progress cbv zeta
    | apply good_cur
    | apply good_curType
    | apply good_bind0; [solve [eauto with parsing]|intros ? ? _ ?]
    | match goal with
      | |- good _ (if bool_decide ?P then _ else _) _ => destruct (decide P); [rewrite bool_decide_true by done|rewrite bool_decide_false by done]
      | |- good _ (if ?b then _ else _) _ => destruct b
      | |- good _ (match ?o with _ => _ end) _ => destruct o
      end
    | solve [eauto with parsing] ].

Lemma good_plain fuel inner t p :
  (size p < fuel)%nat -> (forall p', (size p' < size p)%nat -> good 0 inner p') -> good 0 (parsePlainTypeRef fuel inner t) p.
Proof.
  intros Hf Hin. unfold parsePlainTypeRef. apply good_bind0; [by apply good_parseIdent|]. intros name p1 _ Hp1. cbv zeta. apply good_curType.
  apply good_bind0; [|intros; walk]. case_bool_decide as Hless; [|apply good_ret]. apply (good_weaken 1); [lia|].
  apply good_bind1; [by eapply good_next_solid|]. intros _ p2 Hp2. apply good_bind0; [apply Hin; lia|]. intros. walk.
Qed.

Lemma good_parseTypeRef fuel p : (size p < fuel)%nat -> good 0 (parseTypeRef fuel) p.
Proof.
  revert p. induction fuel as [|fuel IH]; intros p Hf; [lia|]. cbn [parseTypeRef]. apply good_curType.
  apply good_bind0; [walk|]. intros bare p1 _ Hp1. apply good_cur. destruct (is_condition _).
  - apply (good_weaken 1); [lia|]. apply good_bind1; [apply good_parseCondition|]. intros c p2 Hp2.
    apply good_bind0; [apply IH; lia|]. intros. apply good_ret.
  - apply good_plain; [lia|]. intros p2 Hp2. apply IH. lia.
Qed.
#[local] Hint Extern 1 (good _ (parseTypeRef _) _) => apply good_parseTypeRef; lia : parsing.

Lemma good_parseParam fuel p : (size p < fuel)%nat -> good 1 (parseParam fuel) p.
Proof.
  intros Hf. unfold parseParam. apply good_bind0; [auto with parsing|]. intros name p1 _ Hp1.
  apply good_bind1; [apply (good_require TokenColon)|]. intros _ p2 Hp2. walk.
Qed.

Lemma good_parseParams fuel p : (size p < fuel)%nat -> good 0 (parseParams fuel) p.
Proof.
  revert p. induction fuel as [|fuel IH]; intros p Hf; [lia|]. cbn [parseParams]. apply good_curType. case_match; [apply good_ret|].
  apply (good_weaken 1); [lia|]. apply good_bind1; [by apply good_parseParam|]. intros param p1 Hp1.
  apply good_bind0; [apply IH; lia|]. intros. apply good_ret.
Qed.
#[local] Hint Extern 1 (good _ (parseParams _) _) => apply good_parseParams; lia : parsing.

Lemma good_parseGenericParam p : good 1 parseGenericParam p.
Proof.
  unfold parseGenericParam. apply good_cur. case_match; [done|]. apply good_bind0; [apply good_next0|]. intros _ p1 _ _.
  apply good_bind1; [apply (good_require TokenColon)|]. intros. walk.
Qed.

Lemma good_genericParams fuel p : (size p < fuel)%nat -> good 0 (genericParams fuel) p.
Proof.
  revert p. induction fuel as [|fuel IH]; intros p Hf; [lia|]. cbn [genericParams]. apply good_curType. case_match; [apply good_ret|].
  apply (good_weaken 1); [lia|]. apply good_bind1; [apply good_parseGenericParam|]. intros param p1 Hp1. apply good_curType.
  apply good_bind0; [walk|]. intros _ p2 _ Hp2. apply good_bind0; [apply IH; lia|]. intros. apply good_ret.
Qed.
#[local] Hint Extern 1 (good _ (genericParams _) _) => apply good_genericParams; lia : parsing.

Lemma good_optionalGenerics fuel p : (size p < fuel)%nat -> good 0 (optionalGenerics fuel) p.
Proof. intros Hf. unfold optionalGenerics, parseGenericParams. walk. Qed.
#[local] Hint Extern 1 (good _ (optionalGenerics _) _) => apply good_optionalGenerics; lia : parsing.

Lemma good_parseResultType fuel p : (size p < fuel)%nat -> good 0 (parseResultType fuel) p.
Proof. intros Hf. unfold parseResultType. walk. Qed.
#[local] Hint Extern 1 (good _ (parseResultType _) _) => apply good_parseResultType; lia : parsing.

Lemma good_builtin fuel name d p : (size p < fuel)%nat -> builtinDeclarations name = Some d -> good 1 (parseBuiltinConstructor fuel name) p.
Proof.
  intros Hf Hd. unfold parseBuiltinConstructor. rewrite Hd. destruct d as [result q]. apply good_curType.
  apply good_bind0; [walk|]. intros _ p1 _ Hp1. apply good_bind1; [apply (good_require TokenEquals)|]. intros. walk.
Qed.

Lemma good_constructorBody fuel name isBare p : (size p < fuel)%nat -> good 0 (parseConstructorBody fuel name isBare) p.
Proof.
  intros Hf. unfold parseConstructorBody. apply good_bind0; [unfold optionalID; walk|]. intros id p1 _ Hp1.
  apply good_bind0; [auto with parsing|]. intros g p2 _ Hp2. apply good_bind0; [unfold parseVectorCount; walk|]. intros. walk.
Qed.

Lemma good_parseConstructor fuel p : (size p < fuel)%nat -> good 1 (parseConstructor fuel) p.
Proof.
  intros Hf. unfold parseConstructor. apply good_curType. apply good_bind0; [walk|]. intros isBare p1 _ Hp1.
  apply good_bind0; [auto with parsing|]. intros name p2 _ Hp2. apply good_curType. case_bool_decide as Hh.
  - apply good_bind1; [by eapply good_next_solid|]. intros. apply good_constructorBody. lia.
  - destruct isBare; [done|]. cbn [negb]. destruct (builtinDeclarations name) eqn:Hd.
    + apply good_bind1; [eapply good_builtin; [lia|done]|]. intros. walk.
    + unfold parseBuiltinConstructor. by rewrite Hd.
Qed.

Lemma good_parseFunction fuel p : (size p < fuel)%nat -> good 1 (parseFunction fuel) p.
Proof.
  intros Hf. unfold parseFunction. apply good_bind0; [auto with parsing|]. intros name p1 _ Hp1. apply good_curType.
  apply good_bind0; [walk|]. intros id p2 _ Hp2. apply good_bind0; [auto with parsing|]. intros g p3 _ Hp3.
  apply good_bind0; [auto with parsing|]. intros ps p4 _ Hp4. apply good_bind1; [apply (good_require TokenEquals)|]. intros. walk.
Qed.

(** A section uses up at least the token that makes the loop enter it. *)
Lemma good_parseConstructors fuel s p :
  (size p < fuel)%nat -> good (if bool_decide (tk_Type (ps_cur p) ∈ [TokenEOF; TokenFunctions; TokenTypes]) then 0 else 1) (parseConstructors fuel s) p.
Proof.
  revert s p. induction fuel as [|fuel IH]; intros s p Hf; [lia|]. cbn [parseConstructors]. apply good_curType.
  case_bool_decide; [apply good_ret|]. apply good_bind1; [by apply good_parseConstructor|]. intros c p1 Hp1. cbv zeta. apply good_curType.
  case_bool_decide as Hsemi; [|apply good_ret]. apply (good_weaken 1); [lia|]. apply good_bind1; [by eapply good_next_solid|]. intros _ p2 Hp2.
  apply good_bind0; [auto with parsing|]. intros _ p3 _ Hp3. eapply good_weaken, IH; lia.
Qed.

Lemma good_parseFunctions fuel s p : (size p < fuel)%nat -> good 0 (parseFunctions fuel s) p.
Proof.
  revert s p. induction fuel as [|fuel IH]; intros s p Hf; [lia|]. cbn [parseFunctions]. apply good_curType.
  case_bool_decide; [apply good_ret|]. apply (good_weaken 1); [lia|]. apply good_bind1; [by apply good_parseFunction|]. intros f p1 Hp1.
  apply good_bind0; [apply good_expect|]. intros _ p2 _ Hp2. apply good_bind0; [auto with parsing|]. intros _ p3 _ Hp3. apply IH. lia.
Qed.

Lemma good_expect_solid ty p : tk_Type (ps_cur p) = ty -> solid ty = true -> good 1 (expect ty) p.
Proof.
  intros Ht Hs. unfold good, expect. rewrite bool_decide_true by done. pose proof (size_step p). rewrite (weight_solid _ _ Ht Hs) in *. lia.
Qed.

Lemma good_parseSections fuel s p : (size p < fuel)%nat -> good 0 (parseSections fuel s) p.
Proof.
  revert s p. induction fuel as [|fuel IH]; intros s p Hf; [lia|]. cbn [parseSections]. apply good_curType.
  case_bool_decide as Heof; [apply good_ret|]. apply (good_weaken 1); [lia|]. apply good_bind1; [|intros s' p' Hp; apply IH; lia].
  case_bool_decide as Hty; [|case_bool_decide as Hfn].
  - unfold parseTypesSection. apply good_bind1; [by apply good_expect_solid|]. intros _ p1 Hp1. apply good_bind0; [auto with parsing|].
    intros _ p2 _ Hp2. eapply good_weaken, good_parseConstructors; lia.
  - unfold parseFunctionsSection. apply good_bind1; [by apply good_expect_solid|]. intros _ p1 Hp1. apply good_bind0; [auto with parsing|].
    intros _ p2 _ Hp2. apply good_parseFunctions. lia.
  - pose proof (good_parseConstructors (S fuel) s p Hf) as Hg. rewrite bool_decide_false in Hg; [done|].
    rewrite !elem_of_cons, elem_of_nil. tauto.
Qed.

(** C38. Parsing ends on every input, well-formed or not: each of the parser's loops and
    recursive calls uses up input, so fuel of the input's length and two is never
    exhausted, and the result is a schema or a parse error. *)
Theorem parse_terminates layer input : ParseAt layer input <> Err OutOfFuel.
Proof.
  assert (Hg : good 0 (ParseWithLayer (parse_fuel input) layer) (NewParser input)).
  { unfold ParseWithLayer. apply good_bind0; [apply good_next0|]. intros _ p1 _ Hp1. apply good_bind0; [apply good_next0|]. intros _ p2 _ Hp2.
    assert (size (NewParser input) = length input) as Hs by (unfold size; cbn; lia).
    apply good_bind0; [apply good_parseSections; unfold parse_fuel; lia|]. intros. apply good_ret. }
  unfold good in Hg. unfold ParseAt. by destruct (ParseWithLayer _ _ _) as [[s|e] p]; cbn; intros [= ->].
Qed.
