(* ===== verification/SchemaFormat.v ===== *)
(** Printing a declaration and parsing it again: the canonical format that implicit ids
    are hashed from (TypeRef.String, computeFunctionFormat) is read back by the lexer and
    the parser as the declaration it was printed from, but for its generic parameters and
    the "!" of its conditional types, which the format or the parser drops. *)

From stdpp Require Import base numbers list gmap strings.
From S2P Require Import Prelude SchemaAst Lexer SchemaParser.
Open Scope Z_scope.

(** * Tokens without their positions *)

Definition kind (t : Token) : TokenType * bytes := (tk_Type t, tk_Literal t).
Abbreviation kinds := (list (TokenType * bytes)).

(** The next token of [s] is [k] and [s'] follows, wherever it stands. *)
Definition lex (s : bytes) (k : TokenType * bytes) (s' : bytes) : Prop :=
  forall line col, exists t line' col',
    NextToken {| lx_rest := s; lx_line := line; lx_col := col |} = (t, {| lx_rest := s'; lx_line := line'; lx_col := col' |}) /\ kind t = k.

Inductive lexes : bytes -> kinds -> Prop :=
| lexes_nil s : lexes s []
| lexes_cons s k s' ks : lex s k s' -> lexes s' ks -> lexes s (k :: ks).

(** What may follow a name or a "#". *)
Definition stop (s : bytes) : bool :=
  match s with [] => true | c :: _ => negb (ident_char c) end && negb (HasPrefix s (str " [")).

(** * Lexing *)

Lemma ident_char_facts ch :
  ident_char ch = true ->
  single ch = None /\ whitespace ch = false /\ IsLetter ch || bool_decide (ch = x5f) || IsDigit ch = true /\ ch <> x2d /\ ch <> x2f /\ ch <> x23.
Proof.
  intros H. split_and!; [by destruct ch|by destruct ch| |by destruct ch..].
  unfold ident_char in H. rewrite !orb_true_iff in *. tauto.
Qed.

Lemma lex_space c s k s' : whitespace c = true -> lex s k s' -> lex (c :: s) k s'.
Proof.
  intros Hc Hl line col. destruct (Hl line (col + 1)) as (t & line' & col' & Hn & Hk). exists t, line', col'. split; [|done].
  rewrite <- Hn. unfold NextToken. f_equal. unfold skipWhitespace. cbn [lx_rest span]. rewrite Hc. destruct (span whitespace s) as [a b] eqn:E. cbn.
  rewrite bool_decide_false by (by intros ->). done.
Qed.

(** NextToken at a character that is no blank. *)
Lemma skip_none c s line col :
  whitespace c = false -> skipWhitespace {| lx_rest := c :: s; lx_line := line; lx_col := col |} = {| lx_rest := c :: s; lx_line := line; lx_col := col |}.
Proof. intros Hc. unfold skipWhitespace. cbn [lx_rest span]. by rewrite Hc. Qed.

Lemma no_marker c s line col : c <> x2d -> isSectionMarker {| lx_rest := c :: s; lx_line := line; lx_col := col |} = false.
Proof.
  intros Hc. unfold isSectionMarker. cbn [lx_rest]. apply andb_false_iff. right. unfold HasPrefix, bytes_eqb. apply bool_decide_eq_false.
  cbn. congruence.
Qed.

Lemma span_all P a r : forallb P a = true -> match r with [] => true | c :: _ => negb (P c) end = true -> span P (a ++ r) = (a, r).
Proof.
  intros Ha Hr. induction a as [|c a IH]; cbn [app].
  - destruct r as [|c r]; [done|]. cbn. apply negb_true_iff in Hr. by rewrite Hr.
  - cbn in Ha. apply andb_true_iff in Ha as [Hc Ha]. cbn [span]. by rewrite Hc, IH.
Qed.

(** A word: its characters, and the kind of token readIdent makes of it. *)
Definition word (w : bytes) : bool := negb (bytes_eqb w []) && forallb ident_char w.
Definition word_type (w : bytes) : TokenType :=
  if isAllHexDigits w && match w with c :: _ => IsDigit c | [] => false end then TokenNumber else TokenIdent.

Lemma lex_word w r : word w = true -> stop r = true -> lex (w ++ r) (word_type w, w) r.
Proof.
  unfold word, bytes_eqb. intros Hw Hr line col. bools. destruct w as [|c w]; [done|].
  assert (Hc : ident_char c = true) by (cbn in *; bools; done). destruct (ident_char_facts c Hc) as (Hs & Hb & Hl & Hd & Hsl & Hh).
  unfold NextToken. cbn [app]. rewrite skip_none by done. cbn [lx_rest]. rewrite no_marker by done.
  rewrite (bool_decide_false (c = x2f)), (bool_decide_false (c = x23)) by done. cbn [andb]. rewrite Hs, Hl. unfold readIdent. cbn [lx_rest].
  change (c :: w ++ r) with ((c :: w) ++ r). rewrite span_all; [|done|by unfold stop in Hr; bools; destruct r].
  eexists _, _, _. split; [done|]. done.
Qed.

Lemma lex_single c ty r : single c = Some ty -> c <> x23 -> lex (c :: r) (ty, [c]) r.
Proof.
  intros Hs Hc line col. assert (Hb : whitespace c = false /\ c <> x2d /\ c <> x2f) by (by destruct c). destruct Hb as (Hb & Hd & Hsl).
  unfold NextToken. rewrite skip_none by done. cbn [lx_rest]. rewrite no_marker by done.
  rewrite (bool_decide_false (c = x2f)), (bool_decide_false (c = x23)) by done. cbn [andb]. rewrite Hs. unfold newToken. cbn.
  destruct (bool_decide (c = x0a)); eexists _, _, _; done.
Qed.

Lemma lex_hash r : stop r = true -> lex (x23 :: r) (TokenHash, [x23]) r.
Proof.
  intros Hr line col. unfold NextToken. rewrite skip_none by done. cbn [lx_rest]. rewrite no_marker by done.
  set (l := {| lx_rest := x23 :: r; lx_line := line; lx_col := col |}).
  assert (Hb : bool_decide (peekCharN 1 l = x20) && bool_decide (peekCharN 2 l = x5b) = false).
  { unfold l, peekCharN. destruct r as [|a [|b r]]; cbn; [done| |].
    - apply andb_false_r.
    - apply andb_false_iff. unfold stop, HasPrefix, bytes_eqb in Hr. bools.
      destruct (decide (a = x20)) as [->|]; [|left; by apply bool_decide_eq_false]. right. apply bool_decide_eq_false. intros ->.
      match goal with Hn : _ <> str _ |- _ => by apply Hn end. }
  rewrite (bool_decide_false (x23 = x2f)), (bool_decide_true (x23 = x23)) by done. cbn [andb]. rewrite Hb. by eexists _, _, _.
Qed.

Lemma lex_eof : lex [] (TokenEOF, []) [].
Proof. intros line col. by eexists _, _, _. Qed.

Lemma lex_functions r : lex (str "---functions---" ++ x0a :: r) (TokenFunctions, str "---functions---") (x0a :: r).
Proof. intros line col. by eexists _, _, _. Qed.

(** * Text and its tokens *)

(** [a] is read as [ks], whatever follows that stops. *)
Definition prints (a : bytes) (ks : kinds) : Prop := forall r kr, stop r = true -> lexes r kr -> lexes (a ++ r) (ks ++ kr).

(** A text that itself begins with a stop. *)
Definition breaks (a : bytes) : Prop := forall r, stop r = true -> stop (a ++ r) = true.

Lemma prints_nil : prints [] [].
Proof. by intros r kr. Qed.

Lemma prints_app a ka b kb : prints a ka -> prints b kb -> breaks b -> prints (a ++ b) (ka ++ kb).
Proof. intros Ha Hb Hs r kr Hr Hl. rewrite <- !app_assoc. apply Ha; [by apply Hs|by apply Hb]. Qed.

Lemma prints_word w : word w = true -> prints w [(word_type w, w)].
Proof. intros Hw r kr Hr Hl. eapply lexes_cons; [by apply lex_word|done]. Qed.

Lemma prints_hash : prints [x23] [(TokenHash, [x23])].
Proof. intros r kr Hr Hl. eapply lexes_cons; [by apply lex_hash|done]. Qed.

(** Punctuation stands anywhere. *)
Definition mark (c : byte) : option TokenType := if bool_decide (c = x23) then None else single c.

Lemma lexes_mark c ty r kr : mark c = Some ty -> lexes r kr -> lexes (c :: r) ((ty, [c]) :: kr).
Proof. unfold mark. case_bool_decide; [done|]. intros Hm Hl. eapply lexes_cons; [by apply lex_single|done]. Qed.

(** A mark between two texts. *)
Lemma prints_mark a ka c ty b kb : prints a ka -> mark c = Some ty -> prints b kb -> prints (a ++ c :: b) (ka ++ (ty, [c]) :: kb).
Proof.
  intros Ha Hc Hb r kr Hr Hl. rewrite <- !app_assoc. apply Ha; [|cbn; by apply lexes_mark, Hb].
  by destruct c.
Qed.

Lemma prints_space a ka b kb : prints a ka -> prints b kb -> match b with x5b :: _ => false | _ => true end = true -> b <> [] -> prints (a ++ x20 :: b) (ka ++ kb).
Proof.
  intros Ha Hb Hne Hnil r kr Hr Hl. rewrite <- !app_assoc. apply Ha; [by destruct b as [|[] b]|].
  cbn. specialize (Hb r kr Hr Hl). destruct (kb ++ kr) as [|k ks]; [constructor|]. inversion Hb; subst. eapply lexes_cons; [by apply lex_space|done].
Qed.

(** * Well-formed names, types and declarations *)

Definition is_ident (w : bytes) : bool := word w && bool_decide (word_type w = TokenIdent).

(** Identifiers separated by dots; or "#". *)
Definition is_dotted (name : bytes) : bool := forallb is_ident (Split x2e name).
Definition is_name (name : bytes) : bool := bytes_eqb name [x23] || is_dotted name.

Definition is_flag (name : bytes) : bool := HasPrefix name (str "flags").

(** A type whose text is that of one type: a name that can be told from a condition, a vector
    with its element, and a condition on a flag or at most a question mark. Of the types the
    parser makes, those with a generic argument are left to [printable_result]. *)
Fixpoint printable_type (t : TypeRef) : bool :=
  is_name (FullName t) && negb (is_flag (FullName t)) &&
  (if bytes_eqb (tr_Namespace t) [] then negb (length (Split x2e (tr_Name t)) =? 2)%nat
   else is_ident (tr_Namespace t) && is_ident (tr_Name t)) &&
  Bool.eqb (tr_IsTypeVar t) (isTypeVariable (tr_Name t)) && bytes_eqb (tr_GenericArg t) [] && (tr_VariantLayer t =? 0) &&
  (match tr_Generic t with
   | Some g => tr_IsVector t && (bytes_eqb (tr_Name t) (str "vector") || bytes_eqb (tr_Name t) (str "Vector")) && printable_type g
   | None => negb (tr_IsVector t)
   end) &&
  (match tr_FlagBit t with
   | Some bit => (0 <=? bit) && (bit <? 2 ^ 63) && is_ident (tr_FlagName t) && is_flag (tr_FlagName t) && tr_Optional t
   | None => bytes_eqb (tr_FlagName t) []
   end).

Definition printable_param (p : Parameter_) : bool :=
  is_dotted (pa_Name p) && printable_type (pa_Type p) && bool_decide (pa_FlagBit p = tr_FlagBit (pa_Type p)).

(** A result may have a generic argument, as in [Vector X], which is printed after the name:
    then it is neither a vector with its element nor conditional or optional. *)
Definition without_arg (t : TypeRef) : TypeRef :=
  {| tr_Name := tr_Name t; tr_Namespace := tr_Namespace t; tr_IsVector := tr_IsVector t; tr_IsBare := tr_IsBare t; tr_Generic := tr_Generic t;
     tr_GenericArg := []; tr_Optional := tr_Optional t; tr_FlagName := tr_FlagName t; tr_FlagBit := tr_FlagBit t;
     tr_IsTypeVar := isTypeVariable (tr_Name t); tr_VariantLayer := tr_VariantLayer t |}.

Definition printable_result (t : TypeRef) : bool :=
  if bytes_eqb (tr_GenericArg t) [] then printable_type t
  else is_ident (tr_GenericArg t) && negb (tr_IsVector t) && negb (tr_Optional t) && bool_decide (tr_FlagBit t = None) &&
       Bool.eqb (tr_IsTypeVar t) (isTypeVariable (tr_GenericArg t)) && printable_type (without_arg t).

Definition printable (f : FuncDecl) : bool :=
  is_dotted (fn_Name f) && forallb printable_param (fn_Params f) && printable_result (fn_ResultType f).

(** ** What is read back *)

(** The type without the "!" before a condition, in its element as well. *)
Fixpoint reread (t : TypeRef) : TypeRef :=
  {| tr_Name := tr_Name t; tr_Namespace := tr_Namespace t; tr_IsVector := tr_IsVector t;
     tr_IsBare := match tr_FlagBit t with Some _ => false | None => tr_IsBare t end;
     tr_Generic := match tr_Generic t with Some g => Some (reread g) | None => None end;
     tr_GenericArg := tr_GenericArg t; tr_Optional := tr_Optional t; tr_FlagName := tr_FlagName t; tr_FlagBit := tr_FlagBit t;
     tr_IsTypeVar := tr_IsTypeVar t; tr_VariantLayer := tr_VariantLayer t |}.

Definition reread_param (p : Parameter_) : Parameter_ :=
  {| pa_Name := pa_Name p; pa_Type := reread (pa_Type p); pa_FlagBit := pa_FlagBit p |}.

(** A function as it is declared without an id and without generic parameters. *)
Definition declared (name : bytes) (params : list Parameter_) (resultType : TypeRef) : FuncDecl :=
  {| fn_Name := name; fn_ID := computeCRC32 (computeFunctionFormat name params resultType); fn_GenericParams := []; fn_Params := params;
     fn_ResultType := resultType; fn_IsTemplate := false; fn_IsHelper := false; fn_RequestVariantLayer := 0; fn_VariantLayer := 0;
     fn_Intervals := []; fn_RequestIntervals := []; fn_AcceptIntervals := [] |}.

Definition reread_function (f : FuncDecl) : FuncDecl := declared (fn_Name f) (map reread_param (fn_Params f)) (reread (fn_ResultType f)).

(** No conditional type is marked bare. *)
Fixpoint bare_outside (t : TypeRef) : bool :=
  negb (tr_IsBare t && match tr_FlagBit t with Some _ => true | None => false end) &&
  match tr_Generic t with Some g => bare_outside g | None => true end.

(** A function declared without an id, generic parameters and bare conditional types. *)
Definition lossless (f : FuncDecl) : Prop :=
  f = declared (fn_Name f) (fn_Params f) (fn_ResultType f) /\
  Forall (fun p => bare_outside (pa_Type p) = true) (fn_Params f) /\ bare_outside (fn_ResultType f) = true.

Lemma reread_same t : reread t = t <-> bare_outside t = true.
Proof.
  induction t as [[n ns v ba g a o fn fb tv vl] IH] using TypeRef_element_ind. cbn [reread bare_outside tr_IsBare tr_FlagBit tr_Generic] in *.
  rewrite andb_true_iff, negb_true_iff, andb_false_iff. split.
  - intros [= Hb Hg]. split; [destruct fb; [by left|by right]|]. destruct g as [g|]; [|done]. apply IH; [done|congruence].
  - intros [Hb Hg]. f_equal; [destruct fb, ba; naive_solver|]. destruct g as [g|]; [|done]. f_equal. by apply IH.
Qed.

Lemma reread_param_same p : reread_param p = p <-> bare_outside (pa_Type p) = true.
Proof. rewrite <- reread_same. destruct p as [n t b]. unfold reread_param. cbn. split; [by intros [=]|by intros ->]. Qed.

Lemma reread_params_same ps : map reread_param ps = ps <-> Forall (fun p => bare_outside (pa_Type p) = true) ps.
Proof.
  induction ps as [|p ps IH]; [done|]. cbn [map]. rewrite Forall_cons, <- IH, <- reread_param_same. split; [by intros [=]|by intros [-> ->]].
Qed.

Lemma reread_function_same f : reread_function f = f <-> lossless f.
Proof.
  unfold lossless. rewrite <- reread_params_same, <- reread_same. unfold reread_function. split.
  - intros Hf. rewrite <- Hf. cbn. rewrite Hf at 1. assert (Hp : map reread_param (fn_Params f) = fn_Params f) by (rewrite <- Hf at 2; done).
    assert (Hr : reread (fn_ResultType f) = fn_ResultType f) by (rewrite <- Hf at 2; done). rewrite Hp, Hr in *. by split_and!.
  - intros (Hf & -> & ->). done.
Qed.

(** The type without its condition and its question mark. *)
Definition plain (t : TypeRef) : TypeRef :=
  {| tr_Name := tr_Name t; tr_Namespace := tr_Namespace t; tr_IsVector := tr_IsVector t;
     tr_IsBare := match tr_FlagBit t with Some _ => false | None => tr_IsBare t end; tr_Generic := tr_Generic t;
     tr_GenericArg := []; tr_Optional := false; tr_FlagName := []; tr_FlagBit := None;
     tr_IsTypeVar := tr_IsTypeVar t; tr_VariantLayer := 0 |}.

(** ** Their tokens *)

Definition dot_kinds (parts : list bytes) : kinds := concat (map (fun p => [(TokenDot, [x2e]); (TokenIdent, p)]) parts).

Definition name_kinds (name : bytes) : kinds :=
  if bytes_eqb name [x23] then [(TokenHash, [x23])]
  else match Split x2e name with p :: ps => (TokenIdent, p) :: dot_kinds ps | [] => [] end.

Fixpoint type_kinds (t : TypeRef) : kinds :=
  (if tr_IsBare t then [(TokenBang, [x21])] else []) ++
  (match tr_FlagBit t with
   | Some bit => [(TokenIdent, tr_FlagName t); (TokenDot, [x2e]); (TokenNumber, itoa bit); (TokenQuestion, [x3f])]
   | None => []
   end) ++
  name_kinds (FullName t) ++
  (match tr_Generic t with Some g => [(TokenLess, [x3c])] ++ type_kinds g ++ [(TokenGreater, [x3e])] | None => [] end) ++
  (if tr_Optional t && match tr_FlagBit t with None => true | Some _ => false end then [(TokenQuestion, [x3f])] else []).

Definition param_kinds (p : Parameter_) : kinds := name_kinds (pa_Name p) ++ [(TokenColon, [x3a])] ++ type_kinds (pa_Type p).

Definition result_kinds (t : TypeRef) : kinds :=
  if bytes_eqb (tr_GenericArg t) [] then type_kinds t else type_kinds (without_arg t) ++ [(TokenIdent, tr_GenericArg t)].

Definition function_kinds (name : bytes) (params : list Parameter_) (resultType : TypeRef) : kinds :=
  name_kinds name ++ concat (map param_kinds params) ++ [(TokenEquals, [x3d])] ++ result_kinds resultType.

(** ** Facts on strings *)

Lemma Split_nonempty sep s : Split sep s <> [].
Proof. destruct s as [|c s]; [done|]. cbn [Split]. case_bool_decide; [done|]. by destruct (Split sep s). Qed.

Lemma Join_Split sep s : Join sep (Split sep s) = s.
Proof.
  induction s as [|c s IH]; [done|]. cbn [Split]. pose proof (Split_nonempty sep s). destruct (Split sep s) as [|p ps]; [done|].
  case_bool_decide as Hc; [subst c; by rewrite <- IH|]. destruct ps; cbn in *; by rewrite <- IH.
Qed.

Lemma Split_app sep a b : sep ∉ a -> Split sep (a ++ sep :: b) = a :: Split sep b.
Proof.
  intros Ha. induction a as [|c a IH]; cbn [app Split]; [by rewrite bool_decide_true|].
  rewrite bool_decide_false by set_solver. rewrite IH by set_solver. done.
Qed.

Lemma Split_none sep a : sep ∉ a -> Split sep a = [a].
Proof. intros Ha. induction a as [|c a IH]; cbn [Split]; [done|]. rewrite bool_decide_false by set_solver. by rewrite IH by set_solver. Qed.

Lemma ident_no_dot w : is_ident w = true -> x2e ∉ w.
Proof.
  unfold is_ident, word. intros H Hin. bools. apply list_elem_of_In in Hin.
  match goal with Hf : forallb _ _ = true |- _ => rewrite forallb_forall in Hf; by specialize (Hf _ Hin) end.
Qed.

Lemma ident_facts w : is_ident w = true -> word w = true /\ word_type w = TokenIdent.
Proof. unfold is_ident. intros H. by bools. Qed.

(** ** Decimal numbers *)

Lemma digit_facts d : 0 <= d < 10 -> IsDigit (digit d) = true /\ hex_value (digit d) = Some d.
Proof.
  intros Hd. assert (Hcase : d ∈ seqZ 0 10) by (by apply elem_of_seqZ). cbn in Hcase.
  repeat (apply elem_of_cons in Hcase as [->|Hcase]; [done|]). by apply elem_of_nil in Hcase.
Qed.

Lemma number_snoc base s c v d : number base s = Some v -> hex_value c = Some d -> d < base -> number base (s ++ [c]) = Some (v * base + d).
Proof.
  unfold number. intros Hs Hc Hd. rewrite foldl_app, Hs. cbn. rewrite Hc. cbn. by rewrite (proj2 (Z.ltb_lt _ _)).
Qed.

Lemma digits_spec fuel z :
  (0 < fuel)%nat -> 0 <= z < 2 ^ Z.of_nat fuel -> number 10 (digits fuel z) = Some z /\ forallb IsDigit (digits fuel z) = true /\ digits fuel z <> [].
Proof.
  revert z. induction fuel as [|fuel IH]; intros z H0 Hz; [lia|]. cbn [digits]. destruct (Z.ltb_spec z 10) as [Hs|Hs].
  - destruct (digit_facts z ltac:(lia)) as [Hd Hh]. split_and!; [|cbn; by rewrite Hd|done].
    change [digit z] with ([] ++ [digit z]). rewrite (number_snoc _ _ _ 0 z); [f_equal; lia|done|done|lia].
  - assert (Hf : (0 < fuel)%nat) by (destruct fuel; [cbn in Hz; lia|lia]). rewrite Nat2Z.inj_succ, Z.pow_succ_r in Hz by lia.
    pose proof (Z.div_mod z 10 ltac:(lia)). pose proof (Z.mod_pos_bound z 10 ltac:(lia)).
    destruct (IH (z / 10) Hf) as (Hn & Hd & Hne). { split; [apply Z.div_pos; lia|]. apply Z.div_lt_upper_bound; lia. }
    destruct (digit_facts (z mod 10) ltac:(lia)) as [Hd' Hh]. split_and!.
    + rewrite (number_snoc _ _ _ _ _ Hn Hh) by lia. f_equal. lia.
    + rewrite forallb_app, Hd. cbn. by rewrite Hd'.
    + by destruct (digits fuel (z / 10)).
Qed.

Lemma itoa_spec z : 0 <= z -> number 10 (itoa z) = Some z /\ forallb IsDigit (itoa z) = true /\ itoa z <> [].
Proof.
  intros Hz. unfold itoa. rewrite (proj2 (Z.ltb_ge z 0)) by lia. apply digits_spec; [lia|].
  rewrite Nat2Z.inj_succ, Z2Nat.id by apply Z.log2_nonneg. destruct (Z.eq_dec z 0) as [->|]; [done|].
  split; [lia|]. by apply Z.log2_spec; lia.
Qed.

Lemma len_nonempty {A} (l : list A) : l <> [] -> (len l =? 0) = false.
Proof. intros Hl. apply Z.eqb_neq. destruct l as [|x l]; [done|]. rewrite len_cons. pose proof (len_nonneg l). lia. Qed.

Lemma Atoi_itoa z : 0 <= z < 2 ^ 63 -> Atoi (itoa z) = Some z.
Proof.
  intros Hz. destruct (itoa_spec z ltac:(lia)) as (Hn & _ & Hne). unfold Atoi. rewrite Hn, (len_nonempty _ Hne). cbn.
  by rewrite (proj2 (Z.ltb_lt _ _)) by lia.
Qed.

Lemma digits_no_0x s : forallb IsDigit s = true -> HasPrefix s (str "0x") = false.
Proof.
  intros Hs. unfold HasPrefix, bytes_eqb. apply bool_decide_eq_false. intros H. destruct s as [|a [|b s]]; [done|done|].
  cbn in H. injection H as -> ->. done.
Qed.

Lemma itoa_word z : 0 <= z -> word (itoa z) = true /\ word_type (itoa z) = TokenNumber /\ isAllDigits (itoa z) = true.
Proof.
  intros Hz. destruct (itoa_spec z Hz) as (_ & Hd & Hne).
  pose proof (len_nonempty _ Hne) as Hlen.
  assert (Himp : forall P : byte -> bool, (forall c, IsDigit c = true -> P c = true) -> forallb P (itoa z) = true).
  { intros P HP. apply forallb_forall. rewrite forallb_forall in Hd. auto. }
  split_and!.
  - unfold word, bytes_eqb. rewrite bool_decide_false by done. apply Himp. intros c Hc. unfold ident_char. rewrite Hc. by rewrite orb_true_r.
  - unfold word_type, isAllHexDigits. rewrite Hlen, (digits_no_0x _ Hd), Himp by (intros c Hc; unfold isHexDigit; by rewrite Hc).
    destruct (itoa z) as [|c s]; [done|]. cbn in Hd. apply andb_prop in Hd as [Hc _]. cbn. by rewrite Hc.
  - unfold isAllDigits. by rewrite Hlen, Hd.
Qed.

(** ** Printing *)

Lemma prints_ident w : is_ident w = true -> prints w [(TokenIdent, w)].
Proof. intros [Hw Ht]%ident_facts. rewrite <- Ht at 1. by apply prints_word. Qed.

Lemma prints_parts p ps : forallb is_ident (p :: ps) = true -> prints (Join x2e (p :: ps)) ((TokenIdent, p) :: dot_kinds ps).
Proof.
  revert p. induction ps as [|q ps IH]; intros p Hp; cbn in Hp; bools; [by apply prints_ident|].
  change (Join x2e (p :: q :: ps)) with (p ++ x2e :: Join x2e (q :: ps)).
  apply (prints_mark p [(TokenIdent, p)] x2e TokenDot _ _ (prints_ident p ltac:(done)) eq_refl). apply IH. cbn. by apply andb_true_iff.
Qed.

Lemma prints_name name : is_name name = true -> prints name (name_kinds name).
Proof.
  unfold is_name, is_dotted, name_kinds, bytes_eqb. case_bool_decide as Hh; [intros _; subst; apply prints_hash|]. cbn [orb]. intros Hp.
  rewrite <- (Join_Split x2e name) at 1. destruct (Split x2e name) as [|p ps]; [apply prints_nil|]. by apply prints_parts.
Qed.

(** What the checks of a type say. *)
Record type_facts (t : TypeRef) : Prop := {
  tf_name : is_name (FullName t) = true;
  tf_flag : is_flag (FullName t) = false;
  tf_set b : set_name (FullName t) b =
    {| tr_Name := tr_Name t; tr_Namespace := tr_Namespace t; tr_IsVector := tr_IsVector b; tr_IsBare := tr_IsBare b; tr_Generic := tr_Generic b;
       tr_GenericArg := tr_GenericArg b; tr_Optional := tr_Optional b; tr_FlagName := tr_FlagName b; tr_FlagBit := tr_FlagBit b;
       tr_IsTypeVar := tr_IsTypeVar t; tr_VariantLayer := tr_VariantLayer b |};
  tf_arg : tr_GenericArg t = [] /\ tr_VariantLayer t = 0;
  tf_generic : match tr_Generic t with
    | Some g => tr_IsVector t = true /\ (tr_Name t = str "vector" \/ tr_Name t = str "Vector") /\ printable_type g = true
    | None => tr_IsVector t = false
    end;
  tf_condition : match tr_FlagBit t with
    | Some bit => 0 <= bit < 2 ^ 63 /\ is_ident (tr_FlagName t) = true /\ is_flag (tr_FlagName t) = true /\ tr_Optional t = true
    | None => tr_FlagName t = []
    end
}.

Lemma wf_facts t : printable_type t = true -> type_facts t.
Proof.
  intros H.
  destruct t as [name ns vec bare g arg opt fname bit tv vl]. cbn [printable_type] in H. rewrite !andb_true_iff in H.
  destruct H as [[[[[[[Hname Hflag] Hns] Htv] Harg] Hvl] Hg] Hc]. cbn [tr_Name tr_Namespace tr_IsVector tr_IsBare tr_Generic tr_GenericArg tr_Optional tr_FlagName tr_FlagBit tr_IsTypeVar tr_VariantLayer] in *.
  apply Bool.eqb_prop in Htv. unfold bytes_eqb in Harg. bools. split; cbn [tr_Name tr_Namespace tr_IsVector tr_IsBare tr_Generic tr_GenericArg tr_Optional tr_FlagName tr_FlagBit tr_IsTypeVar tr_VariantLayer]; [done|done| |done| |].
  - intros b. unfold set_name, FullName. cbn [tr_Name tr_Namespace]. subst tv. unfold bytes_eqb in Hns.
    destruct (decide (ns = [])) as [Hn|Hn]; [rewrite bool_decide_true in * by done|rewrite bool_decide_false in * by done].
    + subst ns. destruct (Split x2e name) as [|p [|q [|r ps]]]; [done|done|by vm_compute in Hns|done].
    + bools. change (ns ++ str "." ++ name) with (ns ++ x2e :: name). rewrite Split_app by (by apply ident_no_dot).
      by rewrite Split_none by (by apply ident_no_dot).
  - destruct g; unfold bytes_eqb in *; [|by bools]. bools. rewrite orb_true_iff in *. split_and!; [done| |done].
    match goal with Ho : _ \/ _ |- _ => destruct Ho; bools; [by left|by right] end.
  - destruct bit; unfold bytes_eqb in *; bools; done.
Qed.

(** The text of a well-formed type, piece by piece. *)
Lemma TypeRef_String_eq t :
  type_facts t ->
  TypeRef_String t =
  (if tr_IsBare t then [x21] else []) ++
  (match tr_FlagBit t with Some bit => tr_FlagName t ++ [x2e] ++ itoa bit ++ [x3f] | None => [] end) ++
  FullName t ++
  (match tr_Generic t with Some g => [x3c] ++ TypeRef_String g ++ [x3e] | None => [] end) ++
  (if tr_Optional t && match tr_FlagBit t with None => true | Some _ => false end then [x3f] else []).
Proof.
  intros [_ _ _ [Harg _] Hg Hc]. destruct t as [name ns vec bare g arg opt fname bit tv vl]. cbn -[itoa FullName] in *. subst arg.
  assert (Hf : match bit with Some _ => fname <> [] | None => True end).
  { destruct bit; [|done]. destruct Hc as (_ & Hid & _). by intros ->. }
  unfold FullName. cbn [tr_Name tr_Namespace]. f_equal. f_equal; [destruct bit; [by rewrite bool_decide_false|done]|].
  assert (Hv : vec = match g with Some _ => true | None => false end) by (destruct g; naive_solver). subst vec.
  case_bool_decide; rewrite <- ?app_assoc; destruct g; done.
Qed.

Lemma prints_mark_end a ka c ty : prints a ka -> mark c = Some ty -> prints (a ++ [c]) (ka ++ [(ty, [c])]).
Proof. intros Ha Hc. apply (prints_mark a ka c ty [] []); [done|done|apply prints_nil]. Qed.

Lemma type_kinds_eq t :
  type_kinds t =
  (if tr_IsBare t then [(TokenBang, [x21])] else []) ++
  (match tr_FlagBit t with
   | Some bit => [(TokenIdent, tr_FlagName t); (TokenDot, [x2e]); (TokenNumber, itoa bit); (TokenQuestion, [x3f])]
   | None => []
   end) ++
  name_kinds (FullName t) ++
  (match tr_Generic t with Some g => [(TokenLess, [x3c])] ++ type_kinds g ++ [(TokenGreater, [x3e])] | None => [] end) ++
  (if tr_Optional t && match tr_FlagBit t with None => true | Some _ => false end then [(TokenQuestion, [x3f])] else []).
Proof. by destruct t. Qed.

Lemma prints_option (b : bool) a ka c ty : prints a ka -> mark c = Some ty -> prints (a ++ (if b then [c] else [])) (ka ++ (if b then [(ty, [c])] else [])).
Proof. intros Ha Hc. destruct b; [by apply prints_mark_end|by rewrite !app_nil_r]. Qed.

Lemma prints_type t : printable_type t = true -> prints (TypeRef_String t) (type_kinds t).
Proof.
  induction t as [t IH] using TypeRef_element_ind. intros Hwf. pose proof (wf_facts t Hwf) as Hf. rewrite TypeRef_String_eq by done.
  rewrite type_kinds_eq. destruct Hf as [Hname _ _ _ Hg Hc].
  set (opt := tr_Optional t && _). rewrite !(app_assoc (FullName t)), !(app_assoc (name_kinds (FullName t))).
  assert (Hcore : prints ((FullName t ++ match tr_Generic t with Some g => [x3c] ++ TypeRef_String g ++ [x3e] | None => [] end) ++ (if opt then [x3f] else []))
    ((name_kinds (FullName t) ++ match tr_Generic t with Some g => [(TokenLess, [x3c])] ++ type_kinds g ++ [(TokenGreater, [x3e])] | None => [] end) ++
     (if opt then [(TokenQuestion, [x3f])] else []))).
  { apply prints_option; [|done]. destruct (tr_Generic t) as [g|]; [|rewrite !app_nil_r; by apply prints_name]. destruct Hg as (_ & _ & Hg).
    apply (prints_mark (FullName t) _ x3c TokenLess); [by apply prints_name|done|]. apply prints_mark_end; [|done]. by apply IH. }
  set (core := _ ++ if opt then [x3f] else []) in *. set (kcore := _ ++ if opt then [(TokenQuestion, [x3f])] else []) in *.
  clearbody core kcore. assert (Hcond : prints (match tr_FlagBit t with Some bit => tr_FlagName t ++ [x2e] ++ itoa bit ++ [x3f] | None => [] end ++ core)
    (match tr_FlagBit t with Some bit => [(TokenIdent, tr_FlagName t); (TokenDot, [x2e]); (TokenNumber, itoa bit); (TokenQuestion, [x3f])] | None => [] end ++ kcore)).
  { destruct (tr_FlagBit t) as [bit|]; [|done]. destruct Hc as (Hbit & Hid & _). rewrite <- !app_assoc.
    apply (prints_mark (tr_FlagName t) [(TokenIdent, tr_FlagName t)] x2e TokenDot _ ((TokenNumber, itoa bit) :: (TokenQuestion, [x3f]) :: kcore)); [by apply prints_ident|done|].
    destruct (itoa_word bit ltac:(lia)) as (Hw & Ht & _).
    apply (prints_mark (itoa bit) [(TokenNumber, itoa bit)] x3f TokenQuestion core kcore); [rewrite <- Ht at 1; by apply prints_word|done|done]. }
  destruct (tr_IsBare t); [|done]. exact (prints_mark [] [] x21 TokenBang _ _ prints_nil eq_refl Hcond).
Qed.

(** * Parsing *)

(** The parser stands before these tokens. *)
Definition ready (p : Parser) (ks : kinds) : Prop :=
  match ks with
  | [] => True
  | [k] => kind (ps_cur p) = k
  | k :: k' :: ks => kind (ps_cur p) = k /\ kind (ps_peek p) = k' /\ lexes (lx_rest (ps_lexer p)) ks
  end.

Lemma ready_step p k ks : ready p (k :: ks) -> ready (step_token p) ks.
Proof.
  destruct ks as [|k1 [|k2 ks]]; [done| |].
  - intros (_ & Hk & _). unfold step_token. by destruct (NextToken _).
  - intros (_ & Hk & Hl). inversion Hl as [|s k' s' ks' Hlex Hrest]; subst. destruct (ps_lexer p) as [rest line col] eqn:E.
    destruct (Hlex line col) as (t & line' & col' & Hn & Hkt). cbn [lx_rest] in Hn. unfold step_token. rewrite E, Hn. cbn. destruct ks; done.
Qed.

Lemma ready_cur p k ks : ready p (k :: ks) -> kind (ps_cur p) = k.
Proof. destruct ks; cbn; tauto. Qed.

(** The call returns [a] on these tokens and leaves those. *)
Definition runs {A} (m : PM A) (ks : kinds) (a : A) (ks' : kinds) : Prop :=
  forall p, ready p ks -> exists p', m p = (Ok a, p') /\ ready p' ks'.

Lemma runs_bind {A B} (m : PM A) (f : A -> PM B) ks a ks' b ks'' : runs m ks a ks' -> runs (f a) ks' b ks'' -> runs (m ≫= f) ks b ks''.
Proof.
  intros Hm Hf p Hp. destruct (Hm p Hp) as (p' & E & Hp'). destruct (Hf p' Hp') as (p'' & E' & Hp'').
  exists p''. split; [|done]. unfold mbind, ST_bind, st_bind. by rewrite E.
Qed.

Lemma runs_ret {A} (a : A) ks : runs (mret a) ks a ks.
Proof. intros p Hp. by exists p. Qed.

Lemma runs_next k ks : runs nextToken (k :: ks) tt ks.
Proof. intros p Hp. exists (step_token p). split; [done|]. by eapply ready_step. Qed.

Lemma runs_cur {B} (f : Token -> PM B) k ks b ks' : (forall t, kind t = k -> runs (f t) (k :: ks) b ks') -> runs (cur ≫= f) (k :: ks) b ks'.
Proof. intros Hf p Hp. exact (Hf (ps_cur p) (ready_cur _ _ _ Hp) p Hp). Qed.

Lemma runs_curType {B} (f : TokenType -> PM B) ty w ks b ks' : runs (f ty) ((ty, w) :: ks) b ks' -> runs (curType ≫= f) ((ty, w) :: ks) b ks'.
Proof. intros Hf p Hp. pose proof (ready_cur _ _ _ Hp) as [= Ht _]. destruct (Hf p Hp) as (p' & E & Hp'). exists p'. split; [|done]. by rewrite <- E, <- Ht. Qed.

Lemma runs_expect ty w ks : runs (expect ty) ((ty, w) :: ks) true ks.
Proof.
  intros p Hp. pose proof (ready_cur _ _ _ Hp) as [= Ht _]. exists (step_token p). unfold expect. rewrite bool_decide_true by done.
  split; [done|by eapply ready_step].
Qed.

Lemma runs_require ty m w ks : runs (require ty m) ((ty, w) :: ks) tt ks.
Proof. unfold require. apply runs_curType. rewrite bool_decide_true by done. apply runs_next. Qed.

(** No token of these types comes next. *)
Definition ahead (tys : list TokenType) (ks : kinds) : Prop := match ks with (ty, _) :: _ => ty ∉ tys | [] => False end.

Lemma runs_not {B} ty tys (f : PM B) (g : PM B) ks b ks' :
  ahead tys ks -> ty ∈ tys -> runs g ks b ks' -> runs (t ← curType; if bool_decide (t = ty) then f else g) ks b ks'.
Proof.
  intros Ha Hin Hg. destruct ks as [|[ty' w] ks]; [done|]. apply runs_curType. rewrite bool_decide_false; [done|]. intros ->. done.
Qed.

Lemma runs_identParts fuel ps rest : (length ps < fuel)%nat -> ahead [TokenDot] rest -> runs (identParts fuel) (dot_kinds ps ++ rest) ps rest.
Proof.
  revert fuel. induction ps as [|q ps IH]; intros [|fuel] Hf Hr; cbn in Hf; [lia| |lia|].
  - cbn [identParts dot_kinds map concat app]. eapply runs_not; [done|set_solver|apply runs_ret].
  - cbn [identParts]. apply runs_curType. rewrite bool_decide_true by done. eapply runs_bind; [apply runs_next|]. cbn [app].
    apply runs_cur. intros t [= Ht Hw]. rewrite Ht, Hw. rewrite bool_decide_true by done. cbn [negb].
    eapply runs_bind; [apply runs_next|]. eapply runs_bind; [apply IH; [lia|done]|]. apply runs_ret.
Qed.

Lemma length_dot_kinds ps : length (dot_kinds ps) = (2 * length ps)%nat.
Proof. induction ps as [|q ps IH]; [done|]. change (dot_kinds (q :: ps)) with ([(TokenDot, [x2e]); (TokenIdent, q)] ++ dot_kinds ps). rewrite length_app, IH. cbn. lia. Qed.

Lemma runs_parseIdent fuel name rest :
  is_name name = true -> (length (name_kinds name) < fuel)%nat -> ahead [TokenDot] rest -> runs (parseIdent fuel) (name_kinds name ++ rest) name rest.
Proof.
  unfold is_name, is_dotted, name_kinds, bytes_eqb, parseIdent. case_bool_decide as Hh; intros Hn Hf Hr.
  - subst name. cbn [app]. apply runs_cur. intros t [= Ht Hw]. rewrite Ht, Hw. cbn.
    eapply runs_bind; [apply runs_next|]. eapply runs_bind; [apply (runs_identParts fuel []); [cbn in *; lia|done]|]. apply runs_ret.
  - cbn [orb] in Hn. pose proof (Split_nonempty x2e name). pose proof (Join_Split x2e name) as HJ.
    destruct (Split x2e name) as [|p ps]; [done|]. rewrite <- HJ. cbn [app length] in *. rewrite length_dot_kinds in Hf. apply runs_cur. intros t [= Ht Hw]. rewrite Ht, Hw. cbn -[Join].
    eapply runs_bind; [apply runs_next|]. eapply runs_bind; [apply runs_identParts; [lia|done]|]. apply runs_ret.
Qed.

(** The first token of a name is no condition. *)
Lemma name_head name : is_name name = true -> exists ty w ks, name_kinds name = (ty, w) :: ks /\ ty <> TokenBang /\ ty <> TokenEquals /\ ty <> TokenEOF /\ ty <> TokenLBrace /\
  (is_flag name = false -> bool_decide (ty = TokenIdent) && is_flag w = false).
Proof.
  unfold is_name, is_dotted, name_kinds, bytes_eqb. case_bool_decide as Hh; intros Hn; [eexists _, _, _; done|].
  pose proof (Split_nonempty x2e name). pose proof (Join_Split x2e name) as HJ. destruct (Split x2e name) as [|p ps]; [done|]. rewrite <- HJ.
  eexists _, _, _. split_and!; [done..|]. intros Hf. apply andb_false_iff. right. destruct (is_flag p) eqn:Hp; [|done]. exfalso.
  assert (Hpre : is_flag (Join x2e (p :: ps)) = true); [|congruence].
  unfold is_flag, HasPrefix, bytes_eqb in *. bools. apply bool_decide_eq_true. destruct ps as [|q ps]; [done|]. cbn [Join].
  rewrite take_app_le; [done|]. assert (length (take (length (str "flags")) p) = 5%nat) as Hl by (by rewrite Hp). rewrite length_take in Hl.
  change (length (str "flags")) with 5%nat in *. lia.
Qed.

Lemma runs_parseCondition fname bit ks :
  0 <= bit < 2 ^ 63 ->
  runs parseCondition ((TokenIdent, fname) :: (TokenDot, [x2e]) :: (TokenNumber, itoa bit) :: (TokenQuestion, [x3f]) :: ks) (fname, bit) ks.
Proof.
  intros Hb. unfold parseCondition. apply runs_cur. intros t [= Ht Hw]. cbv zeta. rewrite Hw. eapply runs_bind; [apply runs_next|].
  eapply runs_bind; [apply runs_expect|]. apply runs_cur. intros t' [= Ht' Hw']. rewrite Ht', Hw', bool_decide_true by done. cbn [negb].
  eapply runs_bind; [apply runs_next|]. destruct (itoa_spec bit ltac:(lia)) as (_ & Hd & Hne). destruct (itoa_word bit ltac:(lia)) as (_ & _ & Had).
  rewrite (len_nonempty _ Hne), (digits_no_0x _ Hd), Had, Atoi_itoa by done. cbn [orb negb]. eapply runs_bind; [apply runs_expect|]. apply runs_ret.
Qed.

Lemma ahead_weaken tys tys' ks : tys' ⊆ tys -> ahead tys ks -> ahead tys' ks.
Proof. destruct ks as [|[ty w] ks]; [done|]. cbn. set_solver. Qed.

(** A type without condition. *)
Lemma runs_plain fuel inner b t rest :
  type_facts t -> tr_FlagBit t = None -> b = (if tr_IsBare t then set_bare no_type else no_type) ->
  (length (name_kinds (FullName t)) < fuel)%nat -> ahead [TokenDot; TokenLess; TokenQuestion] rest ->
  (forall g ks, tr_Generic t = Some g -> runs inner (type_kinds g ++ (TokenGreater, [x3e]) :: ks) (reread g) ((TokenGreater, [x3e]) :: ks)) ->
  runs (parsePlainTypeRef fuel inner b)
    (name_kinds (FullName t) ++ (match tr_Generic t with Some g => [(TokenLess, [x3c])] ++ type_kinds g ++ [(TokenGreater, [x3e])] | None => [] end) ++
     (if tr_Optional t then [(TokenQuestion, [x3f])] else []) ++ rest) (reread t) rest.
Proof.
  intros [Hname _ Hset [Harg Hvl] Hg Hc] Hbit -> Hf Hr Hin. rewrite Hbit in Hc. unfold parsePlainTypeRef.
  set (opt := if tr_Optional t then _ else _). set (vec := match tr_Generic t with Some _ => _ | None => _ end).
  assert (Hopt : ahead [TokenDot; TokenLess] (opt ++ rest)).
  { unfold opt. destruct (tr_Optional t); [cbn; set_solver|]. eapply ahead_weaken, Hr. set_solver. }
  eapply runs_bind; [apply runs_parseIdent; [done|done|]|]. { unfold vec. destruct (tr_Generic t); [cbn; set_solver|]. eapply ahead_weaken, Hopt. set_solver. }
  rewrite Hset. cbv zeta. set (t0 := {| tr_Name := tr_Name t |}).
  assert (Ht0 : match tr_Generic t with Some g => set_vector (reread g) t0 | None => t0 end = plain (reread t)).
  { unfold t0, plain. destruct t as [n ns v ba g a o fn fb tv vl]. cbn in *. subst fb. destruct ba, g; naive_solver. }
  assert (Htail : runs (t1 ← mret (plain (reread t)); ty0 ← curType; if bool_decide (ty0 = TokenQuestion) then _ ← nextToken; mret (set_optional t1) else mret t1)
    (opt ++ rest) (reread t) rest).
  { eapply runs_bind; [apply runs_ret|]. assert (Hfin : (if tr_Optional t then set_optional (plain (reread t)) else plain (reread t)) = reread t).
    { destruct t as [n ns v ba g a o fn fb tv vl]. cbn in *. subst. by destruct o. }
    unfold opt. destruct (tr_Optional t); cbn [app].
    - apply runs_curType. rewrite bool_decide_true by done. eapply runs_bind; [apply runs_next|]. rewrite Hfin. apply runs_ret.
    - eapply runs_not; [exact Hr|set_solver|]. rewrite Hfin. apply runs_ret. }
  unfold vec in *. destruct (tr_Generic t) as [g|] eqn:Hgen; cbn [app].
  - apply runs_curType. rewrite bool_decide_true by done. destruct Hg as (_ & Hv & _).
    rewrite <- app_assoc. eapply runs_bind; [|exact Htail]. eapply runs_bind; [apply runs_next|]. eapply runs_bind; [by apply Hin|]. eapply runs_bind; [apply runs_expect|].
    replace (bytes_eqb (tr_Name t0) (str "vector") || bytes_eqb (tr_Name t0) (str "Vector")) with true; [rewrite Ht0; apply runs_ret|].
    symmetry. apply orb_true_iff. unfold bytes_eqb. rewrite !bool_decide_eq_true. exact Hv.
  - rewrite Ht0. destruct (opt ++ rest) as [|[ty w] ks]; [done|]. apply runs_curType. rewrite bool_decide_false; [exact Htail|]. intros ->. cbn in Hopt. set_solver.
Qed.

Lemma is_condition_kind t ty w : kind t = (ty, w) -> is_condition t = bool_decide (ty = TokenIdent) && is_flag w.
Proof. unfold is_condition. by intros [= -> ->]. Qed.

Lemma name_kinds_nonempty name : is_name name = true -> (1 <= length (name_kinds name))%nat.
Proof. intros (ty & w & ks & -> & _)%name_head. cbn. lia. Qed.

(** parseTypeRef on a type without condition: the "!" and the name that tells it is none. *)
Lemma runs_unconditional fuel t rest :
  type_facts t -> tr_FlagBit t = None -> (length (type_kinds t) < S fuel)%nat -> ahead [TokenDot; TokenLess; TokenQuestion] rest ->
  (forall g ks, tr_Generic t = Some g -> runs (parseTypeRef fuel) (type_kinds g ++ (TokenGreater, [x3e]) :: ks) (reread g) ((TokenGreater, [x3e]) :: ks)) ->
  runs (parseTypeRef (S fuel)) (type_kinds t ++ rest) (reread t) rest.
Proof.
  intros Hfacts Hbit Hlen Hr Hin. destruct (name_head _ (tf_name _ Hfacts)) as (ty & w & ks & Hk & Hbang & _ & _ & _ & Hcond).
  specialize (Hcond (tf_flag _ Hfacts)). rewrite type_kinds_eq, Hbit, andb_true_r in *. cbn [app] in *. cbn [parseTypeRef].
  rewrite <- !app_assoc. rewrite !length_app in Hlen.
  set (body := name_kinds (FullName t) ++ _). assert (Hbody : exists ks', body = (ty, w) :: ks') by (unfold body; rewrite Hk; by eexists).
  assert (Hplain : forall b, b = (if tr_IsBare t then set_bare no_type else no_type) ->
    runs (t0 ← cur; if is_condition t0 then condition ← parseCondition; actualType ← parseTypeRef fuel; mret (set_flag condition.1 condition.2 actualType)
                    else parsePlainTypeRef (S fuel) (parseTypeRef fuel) b) body (reread t) rest).
  { intros b Hb. destruct Hbody as [ks' Hbody]. rewrite Hbody. apply runs_cur. intros t' Ht'. rewrite (is_condition_kind _ _ _ Ht'), Hcond, <- Hbody.
    apply runs_plain; [done|done|done|lia|done|done]. }
  destruct (tr_IsBare t); cbn [app].
  - apply runs_curType. rewrite bool_decide_true by done. eapply runs_bind; [eapply runs_bind; [apply runs_next|apply runs_ret]|]. by apply Hplain.
  - destruct Hbody as [ks' Hbody]. rewrite Hbody. apply runs_curType. rewrite bool_decide_false by done.
    eapply runs_bind; [apply runs_ret|]. rewrite <- Hbody. by apply Hplain.
Qed.

Lemma plain_facts t : type_facts t -> type_facts (plain t).
Proof.
  intros [Hname Hflag Hset Harg Hg Hc]. split; cbn; [exact Hname|exact Hflag|exact Hset|done|exact Hg|done].
Qed.

Lemma runs_parseTypeRef t fuel rest :
  printable_type t = true -> (length (type_kinds t) < fuel)%nat -> ahead [TokenDot; TokenLess; TokenQuestion] rest ->
  runs (parseTypeRef fuel) (type_kinds t ++ rest) (reread t) rest.
Proof.
  revert fuel rest. induction t as [t IH] using TypeRef_element_ind. intros fuel rest Hwf Hlen Hr. pose proof (wf_facts t Hwf) as Hf.
  pose proof (name_kinds_nonempty _ (tf_name _ Hf)) as Hn. destruct fuel as [|fuel]; [lia|].
  assert (Hel : forall f g ks, (length (type_kinds g) < f)%nat -> tr_Generic t = Some g -> runs (parseTypeRef f) (type_kinds g ++ (TokenGreater, [x3e]) :: ks) (reread g) ((TokenGreater, [x3e]) :: ks)).
  { intros f g ks Hl Hg. pose proof (tf_generic _ Hf) as Hgen. rewrite Hg in Hgen. apply IH; [done|by apply Hgen|done|cbn; set_solver]. }
  assert (Hgl : forall g, tr_Generic t = Some g -> (length (type_kinds g) + 2 + length (name_kinds (FullName t)) <= length (type_kinds t))%nat).
  { intros g Hg. rewrite (type_kinds_eq t), Hg, !length_app. cbn. lia. }
  destruct (tr_FlagBit t) as [bit|] eqn:Hbit; cycle 1.
  { apply runs_unconditional; [done|done|done|done|]. intros g ks Hg. apply Hel; [specialize (Hgl g Hg); lia|done]. }
  pose proof (tf_condition _ Hf) as Hc. rewrite Hbit in Hc. destruct Hc as (Hb & Hid & Hfl & Hopt).
  assert (Hk : type_kinds t = (if tr_IsBare t then [(TokenBang, [x21])] else []) ++
    [(TokenIdent, tr_FlagName t); (TokenDot, [x2e]); (TokenNumber, itoa bit); (TokenQuestion, [x3f])] ++ type_kinds (plain t)).
  { rewrite (type_kinds_eq t), (type_kinds_eq (plain t)), Hbit, Hopt. cbn. by rewrite Hbit. }
  rewrite Hk in *. rewrite !length_app in Hlen. cbn [app length] in *. rewrite <- !app_assoc. cbn [parseTypeRef].
  set (tail := type_kinds (plain t) ++ rest).
  assert (Hcond : forall b, runs (t0 ← cur; if is_condition t0 then condition ← parseCondition; actualType ← parseTypeRef fuel; mret (set_flag condition.1 condition.2 actualType)
                    else parsePlainTypeRef (S fuel) (parseTypeRef fuel) b)
    ([(TokenIdent, tr_FlagName t); (TokenDot, [x2e]); (TokenNumber, itoa bit); (TokenQuestion, [x3f])] ++ tail) (reread t) rest).
  { intros b. cbn [app]. apply runs_cur. intros t' Ht'. rewrite (is_condition_kind _ _ _ Ht'), bool_decide_true, Hfl by done. cbn [andb].
    eapply runs_bind; [by apply runs_parseCondition|]. eapply runs_bind.
    - destruct fuel as [|fuel]; [lia|]. apply runs_unconditional; [by apply plain_facts|done|lia|exact Hr|]. intros g ks Hg. cbn in Hg.
      apply Hel; [|done]. specialize (Hgl g Hg). rewrite !length_app in Hgl. cbn [length] in Hgl. lia.
    - replace (set_flag _ _ _) with (reread t); [apply runs_ret|]. pose proof (tf_arg _ Hf) as [Harg Hvl].
      destruct t as [n ns v ba g a o fn fb tv vl]. cbn in *. by subst. }
  destruct (tr_IsBare t); cbn [app].
  - apply runs_curType. rewrite bool_decide_true by done. eapply runs_bind; [eapply runs_bind; [apply runs_next|apply runs_ret]|]. apply Hcond.
  - apply runs_curType. rewrite bool_decide_false by done. eapply runs_bind; [apply runs_ret|]. apply Hcond.
Qed.

(** ** Declarations *)

Lemma dotted_name name : is_dotted name = true -> is_name name = true.
Proof. unfold is_name. intros ->. by rewrite orb_true_r. Qed.

Lemma dotted_head name : is_dotted name = true -> exists w ks, name_kinds name = (TokenIdent, w) :: ks.
Proof.
  unfold is_dotted, name_kinds, bytes_eqb. intros Hn. pose proof (Split_nonempty x2e name). case_bool_decide; [by subst|].
  destruct (Split x2e name); [done|]. by eexists _, _.
Qed.

Lemma param_facts p : printable_param p = true -> is_dotted (pa_Name p) = true /\ printable_type (pa_Type p) = true /\ pa_FlagBit p = tr_FlagBit (pa_Type p).
Proof. unfold printable_param. intros H. by bools. Qed.

Lemma param_head p : printable_param p = true -> exists w ks, param_kinds p = (TokenIdent, w) :: ks.
Proof. intros (Hn & _)%param_facts. destruct (dotted_head _ Hn) as (w & ks & Hk). unfold param_kinds. rewrite Hk. by eexists _, _. Qed.

Lemma runs_parseParam fuel p rest :
  printable_param p = true -> (length (param_kinds p) < fuel)%nat -> ahead [TokenDot; TokenLess; TokenQuestion] rest -> runs (parseParam fuel) (param_kinds p ++ rest) (reread_param p) rest.
Proof.
  intros (Hn & Ht & Hb)%param_facts Hf Hr. unfold param_kinds in *. rewrite !length_app in Hf. cbn in Hf. unfold parseParam. rewrite <- !app_assoc.
  eapply runs_bind; [apply runs_parseIdent; [by apply dotted_name|lia|cbn; set_solver]|]. cbn [app]. eapply runs_bind; [apply runs_require|].
  eapply runs_bind; [apply runs_parseTypeRef; [done|lia|done]|]. destruct p as [n [] b]. cbn in *. subst. apply runs_ret.
Qed.

Lemma runs_parseParams fuel ps ks :
  forallb printable_param ps = true -> (length (concat (map param_kinds ps)) < fuel)%nat ->
  runs (parseParams fuel) (concat (map param_kinds ps) ++ (TokenEquals, [x3d]) :: ks) (map reread_param ps) ((TokenEquals, [x3d]) :: ks).
Proof.
  revert fuel. induction ps as [|p ps IH]; intros [|fuel] Hwf Hf; cbn in Hf; [lia| |lia|].
  - cbn [map concat app parseParams]. apply runs_curType. rewrite bool_decide_true by done. apply runs_ret.
  - cbn in Hwf. bools. rewrite length_app in Hf. destruct (param_head p) as (w & kp & Hk); [done|]. cbn [map concat parseParams]. rewrite <- app_assoc.
    assert (Hnext : ahead [TokenDot; TokenLess; TokenQuestion] (concat (map param_kinds ps) ++ (TokenEquals, [x3d]) :: ks)).
    { destruct ps as [|q ps]; [cbn; set_solver|]. cbn in *. bools. destruct (param_head q) as (w' & kq & Hq); [done|]. rewrite Hq. cbn. set_solver. }
    rewrite Hk. cbn [app]. apply runs_curType. cbn [bool_decide orb]. rewrite !bool_decide_false by done. cbn [orb].
    change ((TokenIdent, w) :: kp ++ ?x) with (((TokenIdent, w) :: kp) ++ x). rewrite <- Hk.
    eapply runs_bind; [apply runs_parseParam; [done|lia|done]|]. assert (1 <= length (param_kinds p))%nat by (rewrite Hk; cbn; lia).
    eapply runs_bind; [apply IH; [done|lia]|]. apply runs_ret.
Qed.

Lemma runs_parseResultType fuel t ks :
  printable_result t = true -> (length (result_kinds t) < fuel)%nat ->
  runs (parseResultType fuel) (result_kinds t ++ (TokenSemi, [x3b]) :: ks) (reread t) ((TokenSemi, [x3b]) :: ks).
Proof.
  unfold printable_result, result_kinds, parseResultType, bytes_eqb. intros Ht Hf. case_bool_decide as Ha.
  - eapply runs_bind; [apply runs_parseTypeRef; [done|done|cbn; set_solver]|]. apply runs_cur. intros t' [= Htk _].
    rewrite Htk, bool_decide_false by done. apply runs_ret.
  - rewrite !andb_true_iff in Ht. destruct Ht as [[[[[Hid Hv] Ho] Hb] Hv'] Ht]. apply Bool.eqb_prop in Hv'. rewrite length_app in Hf. cbn [length] in Hf.
    rewrite <- app_assoc. cbn [app]. eapply runs_bind; [apply runs_parseTypeRef; [done|lia|cbn; set_solver]|].
    apply runs_cur. intros t' [= Htk Hw]. rewrite Htk, Hw, bool_decide_true by done. eapply runs_bind; [apply runs_next|].
    replace (set_generic_arg _ _) with (reread t); [apply runs_ret|]. destruct t. cbn in *. by subst.
Qed.

Lemma runs_parseFunction fuel name params resultType ks :
  is_dotted name = true -> forallb printable_param params = true -> printable_result resultType = true -> (length (function_kinds name params resultType) < fuel)%nat ->
  runs (parseFunction fuel) (function_kinds name params resultType ++ (TokenSemi, [x3b]) :: ks)
    (declared name (map reread_param params) (reread resultType)) ((TokenSemi, [x3b]) :: ks).
Proof.
  intros Hn Hp Ht Hf. unfold function_kinds in *. rewrite !length_app in Hf. cbn in Hf. rewrite <- !app_assoc. cbn [app]. unfold parseFunction.
  set (tail := (TokenEquals, [x3d]) :: result_kinds resultType ++ (TokenSemi, [x3b]) :: ks).
  assert (Hnext : ahead [TokenDot; TokenHash; TokenLBrace] (concat (map param_kinds params) ++ tail)).
  { destruct params as [|q ps]; [cbn; set_solver|]. cbn in Hp. bools. destruct (param_head q) as (w' & kq & Hq); [done|]. cbn [map concat]. rewrite Hq. cbn. set_solver. }
  eapply runs_bind; [apply runs_parseIdent; [by apply dotted_name|lia|eapply ahead_weaken, Hnext; set_solver]|].
  assert (Hskip : forall B (f : TokenType -> PM B) b k', (forall ty, ty ∉ [TokenDot; TokenHash; TokenLBrace] -> runs (f ty) (concat (map param_kinds params) ++ tail) b k') ->
    runs (curType ≫= f) (concat (map param_kinds params) ++ tail) b k').
  { intros B f b k' Hb. destruct (concat _ ++ _) as [|[ty w] k]; [done|]. apply runs_curType. by apply Hb. }
  apply Hskip. intros ty Hty. rewrite bool_decide_false by set_solver. eapply runs_bind; [apply runs_ret|].
  eapply runs_bind; [unfold optionalGenerics; apply Hskip; intros ty' Hty'; rewrite bool_decide_false by set_solver; apply runs_ret|].
  eapply runs_bind; [apply runs_parseParams; [done|lia]|]. eapply runs_bind; [apply runs_require|].
  eapply runs_bind; [apply runs_parseResultType; [done|lia]|]. apply runs_ret.
Qed.

(** ** The text of a schema *)

Lemma lex_blank_names b : is_name b = true -> forall r, match b ++ r with x5b :: _ => false | _ => true end = true /\ b ++ r <> [].
Proof.
  intros Hb r. unfold is_name, is_dotted, bytes_eqb in Hb. case_bool_decide; [by subst|]. cbn [orb] in Hb. rewrite <- (Join_Split x2e b).
  pose proof (Split_nonempty x2e b). destruct (Split x2e b) as [|p ps]; [done|]. cbn in Hb. bools.
  match goal with Hp : is_ident p = true |- _ => apply ident_facts in Hp as [Hw _] end. unfold word, bytes_eqb in Hw. bools.
  destruct p as [|c p]; [done|]. cbn in *. bools. destruct ps; cbn; (split; [by destruct c|done]).
Qed.

Lemma type_text_head t r : printable_type t = true -> match TypeRef_String t ++ r with x5b :: _ => false | _ => true end = true /\ TypeRef_String t ++ r <> [].
Proof.
  intros Hwf. pose proof (wf_facts t Hwf) as Hf. rewrite TypeRef_String_eq by done. rewrite <- !app_assoc. destruct (tr_IsBare t); [done|]. cbn [app].
  destruct (tr_FlagBit t) as [bit|] eqn:Hb; [|cbn [app]; apply lex_blank_names, Hf].
  pose proof (tf_condition _ Hf) as Hc. rewrite Hb in Hc. destruct Hc as (_ & Hid & _).
  assert (Hn : is_name (tr_FlagName t) = true).
  { apply dotted_name. unfold is_dotted. rewrite Split_none by (by apply ident_no_dot). cbn. by rewrite Hid. }
  rewrite <- !app_assoc. by apply lex_blank_names.
Qed.

Lemma prints_blank b kb : prints b kb -> match b with x5b :: _ => false | _ => true end = true -> b <> [] -> prints (x20 :: b) kb.
Proof. intros Hb H1 H2. exact (prints_space [] [] b kb prints_nil Hb H1 H2). Qed.

Lemma prints_param p : printable_param p = true -> prints (pa_Name p ++ x3a :: TypeRef_String (pa_Type p)) (param_kinds p).
Proof.
  intros (Hn & Ht & _)%param_facts. unfold param_kinds.
  apply (prints_mark _ _ x3a TokenColon); [by apply prints_name, dotted_name|done|by apply prints_type].
Qed.

Lemma prints_params a ka ps :
  prints a ka -> forallb printable_param ps = true -> prints (a ++ concat (map write_param ps)) (ka ++ concat (map param_kinds ps)).
Proof.
  revert a ka. induction ps as [|p ps IH]; intros a ka Ha Hp; cbn [map concat]; [by rewrite !app_nil_r|]. cbn in Hp. bools.
  rewrite !app_assoc. apply IH; [|done]. unfold write_param. destruct (param_facts p) as (Hn & _); [done|].
  apply prints_space; [done|by apply prints_param|..]; by apply lex_blank_names, dotted_name.
Qed.

Lemma result_text t : printable_result t = true -> prints (TypeRef_String t) (result_kinds t) /\
  match TypeRef_String t with x5b :: _ => false | _ => true end = true /\ TypeRef_String t <> [].
Proof.
  unfold printable_result, result_kinds, bytes_eqb. intros Ht. case_bool_decide as Ha.
  - split; [by apply prints_type|]. pose proof (type_text_head t [] Ht) as H. by rewrite app_nil_r in H.
  - rewrite !andb_true_iff in Ht. destruct Ht as [[[[[Hid Hv] Ho] Hb] _] Ht]. apply negb_true_iff in Hv, Ho. bools.
    assert (Es : TypeRef_String t = TypeRef_String (without_arg t) ++ x20 :: tr_GenericArg t).
    { destruct t as [n ns v ba g a o fn fb tv vl]. cbn -[itoa] in *. subst v o fb. rewrite (bool_decide_false (a = [])) by done.
      cbn [andb app]. rewrite !app_nil_r, <- !app_assoc. done. }
    rewrite Es. split; [|by apply type_text_head]. apply ident_facts in Hid as Hw.
    assert (Hn : is_name (tr_GenericArg t) = true).
    { apply dotted_name. unfold is_dotted. rewrite Split_none by (by apply ident_no_dot). cbn. by rewrite Hid. }
    pose proof (lex_blank_names _ Hn []) as [Hh Hne]. rewrite app_nil_r in Hh, Hne.
    apply prints_space; [by apply prints_type|by apply prints_ident|done|done].
Qed.

Lemma prints_function name params resultType :
  is_dotted name = true -> forallb printable_param params = true -> printable_result resultType = true ->
  prints (computeFunctionFormat name params resultType) (function_kinds name params resultType).
Proof.
  intros Hn Hp Ht. unfold computeFunctionFormat, function_kinds. rewrite !(app_assoc name), !(app_assoc (name_kinds name)).
  destruct (result_text resultType Ht) as (Hr & Hh & Hne).
  apply (prints_space _ _ (x3d :: x20 :: TypeRef_String resultType)); [|exact (prints_mark [] [] x3d TokenEquals _ _ prints_nil eq_refl (prints_blank _ _ Hr Hh Hne))|done|done].
  apply prints_params; [by apply prints_name, dotted_name|done].
Qed.

Definition function_format (f : FuncDecl) : bytes := computeFunctionFormat (fn_Name f) (fn_Params f) (fn_ResultType f).
Definition signature_kinds (f : FuncDecl) : kinds := function_kinds (fn_Name f) (fn_Params f) (fn_ResultType f).

(** One declaration a line. *)
Definition declaration (f : FuncDecl) : bytes := function_format f ++ [x3b; x0a].
Definition declaration_kinds (f : FuncDecl) : kinds := signature_kinds f ++ [(TokenSemi, [x3b]); (TokenNewLine, [x0a])].
Definition functions_text (fs : list FuncDecl) : bytes := str "---functions---" ++ [x0a] ++ concat (map declaration fs).

Lemma lexes_functions fs tail ks :
  forallb printable fs = true -> lexes tail ks -> lexes (concat (map declaration fs) ++ tail) (concat (map declaration_kinds fs) ++ ks).
Proof.
  intros Hf Hk. induction fs as [|f fs IH]; [done|]. cbn in Hf. bools. match goal with Hw : printable f = true |- _ => unfold printable in Hw end. bools.
  cbn [map concat]. unfold declaration, declaration_kinds. rewrite <- !app_assoc. apply prints_function; [done|done|done|done|].
  apply (lexes_mark x3b TokenSemi); [done|]. apply (lexes_mark x0a TokenNewLine); [done|]. by apply IH.
Qed.

Lemma lexes_text fs tail ks :
  forallb printable fs = true -> lexes tail ks ->
  lexes (functions_text fs ++ tail) ((TokenFunctions, str "---functions---") :: (TokenNewLine, [x0a]) :: concat (map declaration_kinds fs) ++ ks).
Proof.
  intros Hf Hk. unfold functions_text. rewrite <- !app_assoc. eapply lexes_cons; [apply lex_functions|]. apply (lexes_mark x0a TokenNewLine); [done|].
  by apply lexes_functions.
Qed.

(** ** The fuel *)

Definition heavy (k : TokenType * bytes) : Prop := k.1 <> TokenEOF /\ (k.1 = TokenIdent -> k.2 <> []).

Lemma lexes_length s ks : lexes s ks -> Forall heavy ks -> (length ks <= length s)%nat.
Proof.
  induction 1 as [|s k s' ks Hlex _ IH]; intros Hh; cbn; [lia|]. inversion Hh as [|? ? [Hk Hi] Hks]; subst. specialize (IH Hks).
  destruct (Hlex 0 0) as (t & line & col & Hn & <-). pose proof (NextToken_weight {| lx_rest := s; lx_line := 0; lx_col := 0 |}) as Hw.
  rewrite Hn in Hw. cbn in Hw. assert (weight t = 1%nat); [|lia]. unfold weight. cbn in *.
  destruct (tk_Type t); try done. rewrite bool_decide_false; auto.
Qed.

Lemma heavy_ident w : is_ident w = true -> heavy (TokenIdent, w).
Proof. intros [Hw _]%ident_facts. split; [done|]. intros _ Hnil. cbn in Hnil. by subst w. Qed.

Lemma heavy_name name : is_name name = true -> Forall heavy (name_kinds name).
Proof.
  unfold is_name, is_dotted, name_kinds, bytes_eqb. case_bool_decide as Hh; [intros _; repeat constructor; done|]. cbn [orb]. intros Hp.
  destruct (Split x2e name) as [|p ps]; [constructor|]. cbn in Hp. bools. constructor; [by apply heavy_ident|].
  induction ps as [|q ps IH]; [constructor|]. cbn in *. bools. constructor; [by split|]. constructor; [by apply heavy_ident|by apply IH].
Qed.

Lemma heavy_type t : printable_type t = true -> Forall heavy (type_kinds t).
Proof.
  induction t as [t IH] using TypeRef_element_ind. intros Hwf. pose proof (wf_facts t Hwf) as [Hname _ _ _ Hg Hc]. rewrite type_kinds_eq.
  repeat apply Forall_app_2.
  - destruct (tr_IsBare t); repeat constructor; done.
  - destruct (tr_FlagBit t); [|constructor]. destruct Hc as (_ & Hid & _). constructor; [by apply heavy_ident|]. repeat constructor; done.
  - by apply heavy_name.
  - destruct (tr_Generic t) as [g|]; [|constructor]. repeat apply Forall_app_2; [repeat constructor; done|apply IH; [done|apply Hg]|repeat constructor; done].
  - destruct (_ && _); repeat constructor; done.
Qed.

Lemma heavy_result t : printable_result t = true -> Forall heavy (result_kinds t).
Proof.
  unfold printable_result, result_kinds. case_match; [apply heavy_type|]. rewrite !andb_true_iff. intros [[[[[Hid _] _] _] _] Ht].
  apply Forall_app_2; [by apply heavy_type|]. constructor; [by apply heavy_ident|constructor].
Qed.

Lemma heavy_signature f : printable f = true -> Forall heavy (declaration_kinds f).
Proof.
  unfold printable, declaration_kinds, signature_kinds, function_kinds. intros H. bools. repeat apply Forall_app_2.
  - by apply heavy_name, dotted_name.
  - induction (fn_Params f) as [|p ps IH]; [constructor|]. cbn in *. bools. apply Forall_app_2; [|by apply IH].
    destruct (param_facts p) as (Hn & Ht & _); [done|]. unfold param_kinds. repeat apply Forall_app_2; [by apply heavy_name, dotted_name|repeat constructor; done|by apply heavy_type].
  - repeat constructor; done.
  - by apply heavy_result.
  - repeat constructor; done.
Qed.

(** ** The schema *)

Lemma runs_newline fuel k ks : (1 < fuel)%nat -> k.1 <> TokenNewLine -> runs (skipNewlines fuel) ((TokenNewLine, [x0a]) :: k :: ks) tt (k :: ks).
Proof.
  intros Hf Hk. destruct fuel as [|[|fuel]]; [lia..|]. cbn [skipNewlines]. apply runs_curType. rewrite bool_decide_true by done.
  eapply runs_bind; [apply runs_next|]. destruct k as [ty w]. apply runs_curType. rewrite bool_decide_false by done. apply runs_ret.
Qed.

(** The next line begins a declaration or is the end. *)
Lemma next_line e fs : forallb printable fs = true ->
  exists k ks, concat (map declaration_kinds fs) ++ [(TokenEOF, e)] = k :: ks /\ k.1 <> TokenNewLine /\ match fs with [] => k.1 = TokenEOF | _ => k.1 = TokenIdent end.
Proof.
  intros Hf. destruct fs as [|f fs]; [by eexists _, _|]. cbn in Hf. bools. match goal with Hw : printable f = true |- _ => unfold printable in Hw end. bools.
  destruct (dotted_head (fn_Name f)) as (w & ks & Hk); [done|]. cbn [map concat]. unfold declaration_kinds, signature_kinds, function_kinds. rewrite Hk. by eexists _, _.
Qed.

Lemma runs_parseFunctions e fuel fs s :
  forallb printable fs = true -> (length (concat (map declaration_kinds fs)) + 2 <= fuel)%nat ->
  runs (parseFunctions fuel s) (concat (map declaration_kinds fs) ++ [(TokenEOF, e)]) (foldl (fun s f => AddFunction (reread_function f) s) s fs) [(TokenEOF, e)].
Proof.
  revert fuel s. induction fs as [|f fs IH]; intros [|fuel] s Hf Hfuel; try lia.
  - cbn [map concat app parseFunctions]. apply runs_curType. rewrite bool_decide_true by set_solver. apply runs_ret.
  - pose proof (next_line e (f :: fs) Hf) as ((ty & w) & ks & Hk & _ & Hty). cbn in Hty. subst ty.
    pose proof Hf as Hfs. cbn in Hfs. apply andb_prop in Hfs as [Hwf Hfs]. unfold printable in Hwf. bools.
    destruct (next_line e fs Hfs) as (k' & ks' & Hk' & Hnl & _).
    cbn [parseFunctions]. rewrite Hk. apply runs_curType. rewrite bool_decide_false by set_solver. rewrite <- Hk.
    cbn [map concat] in *. unfold declaration_kinds in Hfuel at 1. unfold declaration_kinds at 1. rewrite !length_app in Hfuel. cbn in Hfuel.
    rewrite <- !app_assoc. cbn [app]. eapply runs_bind; [apply runs_parseFunction; [done|done|done|unfold signature_kinds in Hfuel; lia]|].
    eapply runs_bind; [apply runs_expect|]. rewrite Hk'. eapply runs_bind; [apply runs_newline; [lia|done]|]. rewrite <- Hk'. cbn [foldl]. apply IH; [done|lia].
Qed.

Lemma foldl_AddFunction fs s : foldl (fun s f => AddFunction (reread_function f) s) s fs = with_Functions (sc_Functions s ++ map reread_function fs) s.
Proof.
  revert s. induction fs as [|f fs IH]; intros s; [cbn; rewrite app_nil_r; by destruct s|]. cbn [foldl map]. rewrite IH. unfold AddFunction. cbn.
  by rewrite <- app_assoc.
Qed.

(** Functions, then a token that ends the schema. *)
Lemma parse_functions_then layer fs tail e :
  forallb printable fs = true -> lexes tail [(TokenEOF, e)] ->
  ParseAt layer (functions_text fs ++ tail) = Ok (markSerializerPrefixHelpers (with_Functions (map reread_function fs) (NewSchema layer))).
Proof.
  intros Hf Htail. unfold ParseAt, parse_fuel. set (n := length (functions_text fs ++ tail)). set (kfs := concat (map declaration_kinds fs)).
  assert (Hn : (length kfs + 2 <= n)%nat).
  { pose proof (lexes_length _ _ (lexes_text fs tail [] Hf (lexes_nil _))) as Hl. rewrite app_nil_r in Hl. cbn [length] in Hl. fold kfs n in Hl.
    enough (Forall heavy kfs) by (assert (S (S (length kfs)) <= n)%nat; [apply Hl; repeat constructor; done|lia]).
    unfold kfs. clear -Hf. induction fs as [|f fs IH]; [constructor|]. cbn in *. bools. apply Forall_app_2; [by apply heavy_signature|by apply IH]. }
  set (all := (TokenEOF, []) :: (TokenEOF, []) :: (TokenFunctions, str "---functions---") :: (TokenNewLine, [x0a]) :: kfs ++ [(TokenEOF, e)]).
  assert (Hready : ready (NewParser (functions_text fs ++ tail)) all) by (split; [done|]; split; [done|]; by apply lexes_text).
  destruct (next_line e fs Hf) as (k & ks & Hk & Hnl & _). fold kfs in Hk.
  enough (Hruns : runs (ParseWithLayer (n + 2) layer) all
    (markSerializerPrefixHelpers (with_Functions (map reread_function fs) (NewSchema layer))) [(TokenEOF, e)]).
  { destruct (Hruns _ Hready) as (p' & E & _). by rewrite E. }
  unfold ParseWithLayer. eapply runs_bind; [apply runs_next|]. eapply runs_bind; [apply runs_next|]. eapply runs_bind; [|apply runs_ret].
  replace (n + 2)%nat with (S (S n)) by lia. cbn [parseSections]. apply runs_curType. rewrite bool_decide_false by done.
  eapply runs_bind.
  - rewrite !bool_decide_false, bool_decide_true by done. unfold parseFunctionsSection. eapply runs_bind; [apply runs_expect|]. rewrite Hk.
    eapply runs_bind; [apply runs_newline; [lia|done]|]. rewrite <- Hk. apply runs_parseFunctions; [done|fold kfs; lia].
  - rewrite foldl_AddFunction. cbn [parseSections]. apply runs_curType. rewrite bool_decide_true by done. apply runs_ret.
Qed.

(** No function that is read back is a template, so none is taken for the prefix of one. *)
Lemma no_helpers layer fs :
  markSerializerPrefixHelpers (with_Functions (map reread_function fs) (NewSchema layer)) = with_Functions (map reread_function fs) (NewSchema layer).
Proof.
  unfold markSerializerPrefixHelpers. cbn. unfold with_Functions. cbn. f_equal. rewrite <- (map_id (map reread_function fs)) at 2.
  apply map_ext_in. intros f _. replace (is_prefix_helper _ f) with false; [done|]. symmetry. unfold is_prefix_helper.
  destruct (last_named _ _) as [base|] eqn:El; [|by rewrite andb_false_r]. apply last_Some_elem_of, list_elem_of_filter in El as [_ El].
  apply list_elem_of_fmap in El as (g & -> & _).
  cbn. by rewrite !andb_false_r.
Qed.

(** C37. The canonical format of functions is read back. A section of functions whose names,
    parameters and types have a text of their own, each printed in the format that ids are
    hashed from and ended by a semicolon and a newline, parses to exactly one function for
    each: its name, its parameters and its types, without its generic parameters, which are
    not printed, without the "!" of its conditional types, which the parser drops, and with
    the id hashed from what was read. Those that come back as they were are exactly the
    functions declared without an id, generic parameters and bare conditional types. *)
Theorem function_format_roundtrip layer fs :
  forallb printable fs = true ->
  ParseAt layer (functions_text fs) = Ok (with_Functions (map reread_function fs) (NewSchema layer)) /\
  forall f, f ∈ fs -> reread_function f = f <-> lossless f.
Proof.
  intros Hf. split; [|intros f _; apply reread_function_same].
  rewrite <- no_helpers, <- (app_nil_r (functions_text fs)). apply (parse_functions_then layer fs [] []); [done|].
  eapply lexes_cons; [apply lex_eof|constructor].
Qed.

(** A character that begins no token. *)
Definition unknown_char (c : byte) : bool :=
  negb (ident_char c) && negb (whitespace c) && bool_decide (single c = None) && negb (bool_decide (c ∈ [x2d; x2f])).

Lemma lex_unknown c r : unknown_char c = true -> exists r', lex (c :: r) (TokenEOF, string_of_char c) r'.
Proof.
  unfold unknown_char. intros H. bools. rewrite not_elem_of_cons, list_elem_of_singleton in *. match goal with Hd : _ /\ _ |- _ => destruct Hd as [Hd Hs] end.
  exists (drop (length (string_of_char c)) (c :: r)). intros line col. assert (Hh : c <> x23) by (by intros ->).
  unfold NextToken. rewrite skip_none by done. cbn [lx_rest]. rewrite no_marker by done. rewrite (bool_decide_false (c = x2f)), (bool_decide_false (c = x23)) by done.
  cbn [andb]. match goal with Hsi : single c = None |- _ => rewrite Hsi end.
  replace (IsLetter c || bool_decide (c = x5f) || IsDigit c) with false.
  - unfold newToken. assert (Hadv : forall n l, lx_rest (advance n l) = drop n (lx_rest l)).
    { induction n as [|n IHn]; intros [[|x rest] ln cl]; cbn; [done|done|done|]. case_bool_decide; by rewrite IHn. }
    set (l := {| lx_rest := c :: r; lx_line := line; lx_col := col |}). pose proof (Hadv (length (string_of_char c)) l) as Ha. cbn [lx_rest] in Ha.
    destruct (advance (length (string_of_char c)) l) as [rest ln cl]. cbn [lx_rest] in Ha. subst rest. by eexists _, _, _.
  - match goal with Hi : ident_char c = false |- _ => unfold ident_char in Hi; rewrite !orb_false_iff in Hi; destruct Hi as [[-> ->] ->] end. done.
Qed.

(** A character that is no part of the language ends the schema without an error: the
    functions before it are returned as if nothing followed, whatever the rest says. *)
Lemma unknown_character_ends_schema layer fs c tail :
  forallb printable fs = true -> unknown_char c = true ->
  ParseAt layer (functions_text fs ++ c :: tail) = ParseAt layer (functions_text fs).
Proof.
  intros Hf Hc. destruct (lex_unknown c tail Hc) as [r' Hl].
  rewrite (parse_functions_then layer fs (c :: tail) (string_of_char c) Hf) by (eapply lexes_cons; [exact Hl|constructor]).
  rewrite <- (app_nil_r (functions_text fs)), (parse_functions_then layer fs [] [] Hf); [done|]. eapply lexes_cons; [apply lex_eof|constructor].
Qed.

(** * Witness and observed behaviour *)

Definition toy_type (name : string) : TypeRef := set_name (str name) no_type.
Definition toy_function : FuncDecl := declared (str "auth.sendCode")
  [ {| pa_Name := str "flags"; pa_Type := toy_type "#"; pa_FlagBit := None |};
    {| pa_Name := str "ids"; pa_Type := set_flag (str "flags") 12 (set_vector (set_bare (toy_type "int")) (toy_type "Vector")); pa_FlagBit := Some 12 |} ]
  (set_generic_arg (str "X") (toy_type "auth.SentCode")).

Example toy_format : function_format toy_function = str "auth.sendCode flags:# ids:flags.12?Vector<!int> = auth.SentCode X".
Proof. by vm_compute. Qed.

Lemma function_format_roundtrip_witness :
  ParseAt 7 (functions_text [toy_function]) = Ok (with_Functions [toy_function] (NewSchema 7)).
Proof.
  destruct (function_format_roundtrip 7 [toy_function]) as [-> Hsame]; [by vm_compute|]. cbn [map].
  rewrite (proj2 (Hsame toy_function ltac:(by left))); [done|]. split; [by vm_compute|]. split; [repeat constructor|done].
Defined.

Lemma unknown_character_ends_schema_witness :
  ParseAt 7 (functions_text [toy_function] ++ x40 :: str "f = X;") = Ok (with_Functions [toy_function] (NewSchema 7)).
Proof. rewrite (unknown_character_ends_schema 7 [toy_function] x40 (str "f = X;")) by (by vm_compute). by vm_compute. Defined.

(** The functions of a text, read, printed and read again. *)
Definition functions_of (text : bytes) : list FuncDecl :=
  match ParseAt 1 text with Ok s => sc_Functions s | Err _ => [] end.

(** A generic function comes back without its parameter and is no template any more. *)
Example generic_function_is_lost :
  let f := functions_of (str "---functions---" ++ x0a :: str "invoke {X:Type} query:!X = X;") in
  let g := functions_of (functions_text f) in
  forallb printable f = true /\ map (fun f => (length (fn_GenericParams f), fn_IsTemplate f)) f = [(1%nat, true)] /\
  map (fun f => (length (fn_GenericParams f), fn_IsTemplate f)) g = [(0%nat, false)].
Proof. by vm_compute. Qed.

(** Nor is the parameter hashed: without its id, invokeWithLayer does not get the published da9b0d0d. *)
Example generic_parameters_are_not_hashed :
  map fn_ID (functions_of (str "---functions---" ++ x0a :: str "invokeWithLayer {X:Type} layer:int query:!X = X;")) = [0x6d723ac2] /\
  computeCRC32 (str "invokeWithLayer X:Type layer:int query:!X = X") = 0xda9b0d0d.
Proof. by vm_compute. Qed.

(** A bare conditional type comes back boxed, and the function with another id. *)
Example bare_conditional_is_lost :
  let f := functions_of (str "---functions---" ++ x0a :: str "f flags:# x:flags.0?!int = A;") in
  let g := functions_of (functions_text f) in
  forallb printable f = true /\ map (fun f => map (fun p => tr_IsBare (pa_Type p)) (fn_Params f)) f = [[false; true]] /\
  map (fun f => map (fun p => tr_IsBare (pa_Type p)) (fn_Params f)) g = [[false; false]] /\ map fn_ID f <> map fn_ID g.
Proof. by vm_compute. Qed.

(** A generic argument is printed before the element of a vector: such a result is not [printable], and its text is refused. *)
Example argument_before_element :
  let f := functions_of (str "---functions---" ++ x0a :: str "f = Vector<int> X;") in
  map function_format f = [str "f = Vector X<int>"] /\ forallb printable f = false /\ is_ok (ParseAt 1 (functions_text f)) = false.
Proof. by vm_compute. Qed.

(** An id of eight zeros is taken for a missing one and replaced by a hash. *)
Example zero_id_is_replaced :
  (s ← Parse (str "inputPeerEmpty#00000000 = InputPeer;"); mret (map ct_ID (sc_Constructors s))) = Ok [0x23a936d7].
Proof. by vm_compute. Qed.

(** A blank first line is an error. *)
Example leading_newline_is_refused : is_ok (Parse (x0a :: str "a#1 = A;")) = false.
Proof. by vm_compute. Qed.

(** The mark of a bare type is lost before a condition, and kept after it. *)
Example bare_condition_is_lost :
  (s ← Parse (str "f#1 x:!flags.0?int y:flags.0?!int = A;"); mret (map (fun c => map (fun p => tr_IsBare (pa_Type p)) (ct_Params c)) (sc_Constructors s)))
  = Ok [[false; true]].
Proof. by vm_compute. Qed.
