(* ===== verification/SchemaLayers.v ===== *)
(** Schema layers (internal/parser/layers.go, and the intervals and baseline selection of
    layered.go and baseline.go): a base schema and its ordered differences resolve to the
    schema of one layer.

    The error of a check over a Go map is the one of the first declaration in the schema's
    order; the code returns that of any. *)

From stdpp Require Import base numbers list gmap strings sorting.
From S2P Require Import Prelude SchemaAst Lexer SchemaParser.
Open Scope Z_scope.

Inductive layer_error :=
| NilSchema | LayerNotPositive | BaseLayerMismatch | TargetBelowBase | TargetUnknown
| DifferenceSchemaMismatch (layer : Z) | DifferenceNotAboveBase (layer : Z) | DifferencesNotIncreasing (layer : Z)
| DuplicateConstructor (name : bytes) | ConstructorIDCollision (id : Z)
| DuplicateFunctionID (name : bytes) | FunctionIDCollision (id : Z) | RepeatedVariantLayer (name : bytes) | NoCanonicalFunction (name : bytes)
| EmptyRemoval | DuplicateInDelta (name : bytes) | RemoveMissingConstructor (name : bytes) | RemoveMissingFunction (name : bytes)
| HistoricalOutsideHistory (name : bytes)
| BareNeedsOneConstructor (family : bytes) | RecursiveBareLayout | BareFamilyNeedsOneConstructor (family : bytes) | BareConstructorReplaced (family : bytes)
| MissingType (name : bytes) | HistoricalFamilyUnavailable (name family : bytes) | HistoricalContractChanges (name : bytes)
| DuplicateHistoricalContract (name : bytes) | ConstructorContractsOverlap (id : Z) | FunctionContractsOverlap (id : Z)
| OutOfFuel.

Abbreviation LR := (result layer_error).

Record LayerDifference := {
  ld_Layer : Z;
  ld_Source : bytes;
  ld_Schema : option Schema;
  ld_RemoveConstructors : list bytes;
  ld_RemoveFunctions : list bytes
}.

Fixpoint each {A} (f : A -> LR unit) (l : list A) : LR unit :=
  match l with [] => mret tt | x :: l => _ ← f x; each f l end.

Definition ensure (b : bool) (e : layer_error) : LR unit := if b then mret tt else Err e.

(** * Intervals *)

Definition intervalsSupport (intervals : list LayerInterval) (layer : Z) : bool :=
  existsb (fun i => (MinLayer i <=? layer) && ((MaxLayer i =? 0) || (layer <=? MaxLayer i))) intervals.

Definition layerRangesOverlap (firstMin firstMax secondMin secondMax : Z) : bool :=
  ((firstMax =? 0) || (secondMin <=? firstMax)) && ((secondMax =? 0) || (firstMin <=? secondMax)).

Definition intervalSetsOverlap (first second : list LayerInterval) : bool :=
  existsb (fun l => existsb (fun r => layerRangesOverlap (MinLayer l) (MaxLayer l) (MinLayer r) (MaxLayer r)) second) first.

Definition declarationIntervalSetsOverlap (first second : list LayerInterval) : bool :=
  let all := [{| MinLayer := 0; MaxLayer := 0 |}] in
  intervalSetsOverlap (match first with [] => all | _ => first end) (match second with [] => all | _ => second end).

Definition intersectIntervals (intervals : list LayerInterval) (minLayer maxLayer : Z) : list LayerInterval :=
  omap (fun i =>
    let lo := if MinLayer i <? minLayer then minLayer else MinLayer i in
    let hi := if maxLayer <? MaxLayer i then maxLayer else MaxLayer i in
    if lo <=? hi then Some {| MinLayer := lo; MaxLayer := hi |} else None) intervals.

Definition set_last (intervals : list LayerInterval) (maxLayer : Z) : list LayerInterval :=
  match last intervals with
  | Some i => take (length intervals - 1) intervals ++ [{| MinLayer := MinLayer i; MaxLayer := maxLayer |}]
  | None => []
  end.

Definition openInterval (intervals : list LayerInterval) (layer : Z) : list LayerInterval :=
  match last intervals with
  | None => [{| MinLayer := layer; MaxLayer := 0 |}]
  | Some i => if (MaxLayer i =? 0) || (layer <=? MaxLayer i + 1) then set_last intervals 0
              else intervals ++ [{| MinLayer := layer; MaxLayer := 0 |}]
  end.

Definition closeInterval (intervals : list LayerInterval) (maxLayer : Z) : list LayerInterval := set_last intervals maxLayer.

(** [sort.Slice] by MinLayer; the merge below does not depend on the order of equals. *)
Definition starts_before (a b : LayerInterval) : Prop := MinLayer a <= MinLayer b.
#[export] Instance starts_before_dec a b : Decision (starts_before a b).
Proof. unfold starts_before. apply _. Defined.

(** The loop over the sorted rest, with the last of the merged ones. *)
Fixpoint merge_intervals (prev : LayerInterval) (rest : list LayerInterval) : list LayerInterval :=
  match rest with
  | [] => [prev]
  | i :: rest =>
      if (MaxLayer prev =? 0) || (MinLayer i <=? MaxLayer prev + 1) then
        merge_intervals
          (if negb (MaxLayer prev =? 0) && ((MaxLayer i =? 0) || (MaxLayer prev <? MaxLayer i))
           then {| MinLayer := MinLayer prev; MaxLayer := MaxLayer i |} else prev) rest
      else prev :: merge_intervals i rest
  end.

Definition normalizeIntervals (intervals : list LayerInterval) : list LayerInterval :=
  match merge_sort starts_before intervals with
  | [] => []
  | i :: rest => merge_intervals i rest
  end.

(** * Declarations *)

Definition serializerPrefixPair (first second : FuncDecl) : bool :=
  (fn_IsHelper first && fn_IsTemplate second && bytes_eqb (TrimSuffix (fn_Name first) (str "Prefix")) (fn_Name second)) ||
  (fn_IsHelper second && fn_IsTemplate first && bytes_eqb (TrimSuffix (fn_Name second) (str "Prefix")) (fn_Name first)).

Fixpoint check_constructors (names : gset bytes) (ids : gmap Z bytes) (cs : list Constructor) : LR unit :=
  match cs with
  | [] => mret tt
  | c :: cs =>
      _ ← ensure (negb (bool_decide (ct_Name c ∈ names))) (DuplicateConstructor (ct_Name c));
      _ ← match ids !! ct_ID c with
          | Some existing => ensure (bytes_eqb existing (ct_Name c)) (ConstructorIDCollision (ct_ID c))
          | None => mret tt
          end;
      check_constructors ({[ct_Name c]} ∪ names) (<[ct_ID c := ct_Name c]> ids) cs
  end.

Fixpoint check_function_ids (ids : gmap Z FuncDecl) (fs : list FuncDecl) : LR unit :=
  match fs with
  | [] => mret tt
  | f :: fs =>
      _ ← match ids !! fn_ID f with
          | Some existing =>
              if bytes_eqb (fn_Name existing) (fn_Name f) then Err (DuplicateFunctionID (fn_Name f))
              else ensure (serializerPrefixPair existing f) (FunctionIDCollision (fn_ID f))
          | None => mret tt
          end;
      check_function_ids (<[fn_ID f := f]> ids) fs
  end.

(** The variants of one name: one canonical declaration, distinct layers for the others. *)
Definition check_variants (name : bytes) (variants : list FuncDecl) : LR unit :=
  if len variants =? 1 then mret tt
  else
    let layers := filter (fun l => l <> 0) (map fn_VariantLayer variants) in
    _ ← ensure (bool_decide (NoDup layers)) (RepeatedVariantLayer name);
    ensure (len variants - len layers =? 1) (NoCanonicalFunction name).

Definition named (name : bytes) (fs : list FuncDecl) : list FuncDecl := filter (fun f => fn_Name f = name) fs.

Definition validateDeclarationSet (cs : list Constructor) (fs : list FuncDecl) : LR unit :=
  _ ← check_constructors ∅ ∅ cs;
  _ ← check_function_ids ∅ fs;
  each (fun name => check_variants name (named name fs)) (map fn_Name fs).

(** The removals of a difference are neither declared nor repeated in it. *)
Fixpoint check_removals (names : gset bytes) (removals : list bytes) : LR unit :=
  match removals with
  | [] => mret tt
  | name :: removals =>
      _ ← ensure (negb (bytes_eqb name [])) EmptyRemoval;
      _ ← ensure (negb (bool_decide (name ∈ names))) (DuplicateInDelta name);
      check_removals ({[name]} ∪ names) removals
  end.

Definition validateLayerDifference (d : LayerDifference) : LR unit :=
  match ld_Schema d with
  | None => Err NilSchema
  | Some s =>
      _ ← validateDeclarationSet (sc_Constructors s) (sc_Functions s);
      _ ← check_removals (list_to_set (map ct_Name (sc_Constructors s))) (ld_RemoveConstructors d);
      check_removals (list_to_set (map fn_Name (sc_Functions s))) (ld_RemoveFunctions d)
  end.

(** ** Applying a difference *)

Section declarations.
Context {A : Type} (this_one : bytes -> A -> bool) (name_of : A -> bytes) (missing : bytes -> layer_error).

(** The index of the declaration of a name, as constructorIndex and functionIndex find it. *)
Definition index (l : list A) (name : bytes) : option nat := list_find (fun x => this_one name x) l ≫= fun p => Some p.1.

Fixpoint remove_names (l : list A) (names : list bytes) : LR (list A) :=
  match names with
  | [] => mret l
  | name :: names =>
      match index l name with
      | None => Err (missing name)
      | Some i => remove_names (delete i l) names
      end
  end.

Fixpoint merge_all (l replacements : list A) : list A :=
  match replacements with
  | [] => l
  | r :: replacements =>
      merge_all (match index l (name_of r) with Some i => <[i := r]> l | None => l ++ [r] end) replacements
  end.
End declarations.

Definition is_constructor (name : bytes) (c : Constructor) : bool := bytes_eqb (ct_Name c) name.
Definition is_function (name : bytes) (f : FuncDecl) : bool := bytes_eqb (fn_Name f) name && (fn_VariantLayer f =? 0).

Definition constructorIndex := index is_constructor.
Definition functionIndex := index is_function.
Definition removeConstructors := remove_names is_constructor RemoveMissingConstructor.
Definition removeFunctions := remove_names is_function RemoveMissingFunction.
Definition mergeConstructors := merge_all is_constructor ct_Name.
Definition mergeFunctions := merge_all is_function fn_Name.

Definition rebuildSchema (layer : Z) (cs : list Constructor) (fs : list FuncDecl) : Schema :=
  let types := group_all cs in
  {| sc_Layer := layer; sc_BaseLayer := 0; sc_IsLayered := false; sc_Types := types; sc_Functions := fs; sc_Constructors := cs;
     sc_UnionTypes := list_to_set (map td_Name (filter (fun t => td_IsUnion t = true) types)) |}.

Definition cloneSchema (s : Schema) : Schema :=
  let r := rebuildSchema (sc_Layer s) (sc_Constructors s) (sc_Functions s) in
  {| sc_Layer := sc_Layer r; sc_BaseLayer := sc_BaseLayer s; sc_IsLayered := sc_IsLayered s; sc_Types := sc_Types r;
     sc_Functions := sc_Functions r; sc_Constructors := sc_Constructors r; sc_UnionTypes := sc_UnionTypes r |}.

(** The first loop of ResolveLayer: the layers increase and every difference is valid. *)
Fixpoint check_differences (baseLayer : Z) (previous : option Z) (ds : list LayerDifference) : LR unit :=
  match ds with
  | [] => mret tt
  | d :: ds =>
      _ ← ensure (match ld_Schema d with Some s => sc_Layer s =? ld_Layer d | None => true end) (DifferenceSchemaMismatch (ld_Layer d));
      _ ← ensure (baseLayer <? ld_Layer d) (DifferenceNotAboveBase (ld_Layer d));
      _ ← ensure (match previous with Some p => p <? ld_Layer d | None => true end) (DifferencesNotIncreasing (ld_Layer d));
      _ ← validateLayerDifference d;
      check_differences baseLayer (Some (ld_Layer d)) ds
  end.

(** One difference applied to the declarations. *)
Definition apply_difference (d : LayerDifference) (cs : list Constructor) (fs : list FuncDecl) : LR (list Constructor * list FuncDecl) :=
  cs ← removeConstructors cs (ld_RemoveConstructors d);
  fs ← removeFunctions fs (ld_RemoveFunctions d);
  let cs := mergeConstructors cs (match ld_Schema d with Some s => sc_Constructors s | None => [] end) in
  let fs := mergeFunctions fs (match ld_Schema d with Some s => sc_Functions s | None => [] end) in
  _ ← validateDeclarationSet cs fs;
  mret (cs, fs).

(** The second loop: up to the target, then [break]. *)
Fixpoint apply_differences (targetLayer : Z) (ds : list LayerDifference) (cs : list Constructor) (fs : list FuncDecl) : LR (list Constructor * list FuncDecl) :=
  match ds with
  | [] => mret (cs, fs)
  | d :: ds =>
      if targetLayer <? ld_Layer d then mret (cs, fs)
      else r ← apply_difference d cs fs; apply_differences targetLayer ds r.1 r.2
  end.

Definition ResolveLayer (base : option Schema) (baseLayer targetLayer : Z) (ds : list LayerDifference) : LR Schema :=
  match base with
  | None => Err NilSchema
  | Some base =>
      _ ← ensure (0 <? baseLayer) LayerNotPositive;
      _ ← ensure (0 <? targetLayer) LayerNotPositive;
      _ ← ensure (sc_Layer base =? baseLayer) BaseLayerMismatch;
      _ ← ensure (baseLayer <=? targetLayer) TargetBelowBase;
      _ ← check_differences baseLayer None ds;
      _ ← ensure ((targetLayer =? baseLayer) || existsb (fun d => ld_Layer d =? targetLayer) ds) TargetUnknown;
      _ ← validateDeclarationSet (sc_Constructors base) (sc_Functions base);
      r ← apply_differences targetLayer ds (sc_Constructors base) (sc_Functions base);
      mret (rebuildSchema targetLayer r.1 r.2)
  end.

(** ** Historical functions *)

Definition validateHistoricalAcceptance (base : Schema) (baseLayer maxLayer : Z) : LR unit :=
  each (fun f => each (fun i => ensure (negb ((MinLayer i <? baseLayer) || (maxLayer <? MaxLayer i))) (HistoricalOutsideHistory (fn_Name f)))
                   (fn_AcceptIntervals f))
    (filter (fun f => fn_VariantLayer f <> 0) (sc_Functions base)).

Definition clear_intervals (f : FuncDecl) : FuncDecl :=
  {| fn_Name := fn_Name f; fn_ID := fn_ID f; fn_GenericParams := fn_GenericParams f; fn_Params := fn_Params f; fn_ResultType := fn_ResultType f;
     fn_IsTemplate := fn_IsTemplate f; fn_IsHelper := fn_IsHelper f; fn_RequestVariantLayer := fn_RequestVariantLayer f; fn_VariantLayer := fn_VariantLayer f;
     fn_Intervals := []; fn_RequestIntervals := []; fn_AcceptIntervals := fn_AcceptIntervals f |}.

Definition SelectBaselineLayer (schema : option Schema) (targetLayer : Z) : LR Schema :=
  match schema with
  | None => Err NilSchema
  | Some s =>
      _ ← ensure (0 <? targetLayer) LayerNotPositive;
      let fs := map clear_intervals (filter (fun f => fn_VariantLayer f = 0 \/ intervalsSupport (fn_AcceptIntervals f) targetLayer = true) (sc_Functions s)) in
      let selected := rebuildSchema targetLayer (sc_Constructors s) fs in
      _ ← validateDeclarationSet (sc_Constructors selected) (sc_Functions selected);
      mret selected
  end.

(** * Intervals as sets of layers *)

Definition covers (i : LayerInterval) (l : Z) : Prop := MinLayer i <= l /\ (MaxLayer i = 0 \/ l <= MaxLayer i).

Lemma support_spec ivs l : intervalsSupport ivs l = true <-> exists i, i ∈ ivs /\ covers i l.
Proof.
  unfold intervalsSupport, covers. rewrite existsb_exists.
  split; intros (i & Hi & Hc); exists i; (split; [by apply list_elem_of_In|]); rewrite andb_true_iff, orb_true_iff, !Z.leb_le, Z.eqb_eq in *; tauto.
Qed.

Lemma support_cons i ivs l : intervalsSupport (i :: ivs) l = true <-> covers i l \/ intervalsSupport ivs l = true.
Proof. 
  rewrite !support_spec. split; [intros (j & Hj & Hc); apply elem_of_cons in Hj as [->|Hj]; eauto|].
  intros [Hc|(j & Hj & Hc)]; [exists i|exists j]; (split; [rewrite elem_of_cons; auto|done]).
Qed.

Lemma support_perm a b l : a ≡ₚ b -> intervalsSupport a l = true <-> intervalsSupport b l = true.
Proof. intros Hp. rewrite !support_spec. split; intros (i & Hi & Hc); exists i; (split; [by (rewrite Hp in Hi || rewrite Hp)|done]). Qed.

(** An interval that starts at a layer and does not end before it. *)
Definition proper (i : LayerInterval) : Prop := 0 < MinLayer i /\ (MaxLayer i = 0 \/ MinLayer i <= MaxLayer i).

(** An interval with a layer in it; a missing upper bound is 0. *)
Definition inhabited_interval (i : LayerInterval) : Prop := MaxLayer i = 0 \/ MinLayer i <= MaxLayer i.

Lemma overlap_inhabited first second :
  Forall inhabited_interval first -> Forall inhabited_interval second ->
  intervalSetsOverlap first second = true <-> exists l, intervalsSupport first l = true /\ intervalsSupport second l = true.
Proof.
  intros Hf Hs. rewrite Forall_forall in Hf, Hs. setoid_rewrite support_spec.
  unfold intervalSetsOverlap, layerRangesOverlap. rewrite existsb_exists. setoid_rewrite existsb_exists. split.
  - intros (a & Ha%list_elem_of_In & b & Hb%list_elem_of_In & Ho). specialize (Hf a Ha) as Ha1. specialize (Hs b Hb) as Hb1.
    rewrite andb_true_iff, !orb_true_iff, !Z.eqb_eq, !Z.leb_le in Ho. unfold inhabited_interval in *.
    exists (Z.max (MinLayer a) (MinLayer b)). split; [exists a|exists b]; (split; [done|]); unfold covers; lia.
  - intros (l & (a & Ha & Hca) & (b & Hb & Hcb)). exists a. split; [by apply list_elem_of_In|]. exists b. split; [by apply list_elem_of_In|].
    unfold covers in *. rewrite andb_true_iff, !orb_true_iff, !Z.eqb_eq, !Z.leb_le. lia.
Qed.

Lemma proper_inhabited ivs : Forall proper ivs -> Forall inhabited_interval ivs.
Proof. intros Hp. eapply Forall_impl; [done|]. by intros i [_ Hi]. Qed.

Lemma overlap_spec first second :
  Forall proper first -> Forall proper second ->
  intervalSetsOverlap first second = true <-> exists l, intervalsSupport first l = true /\ intervalsSupport second l = true.
Proof. intros Hf%proper_inhabited Hs%proper_inhabited. by apply overlap_inhabited. Qed.

(** Sorted, with a gap of at least one layer between neighbours. *)
Fixpoint separated (ivs : list LayerInterval) : Prop :=
  match ivs with
  | a :: (b :: _) as rest => MaxLayer a <> 0 /\ MaxLayer a + 1 < MinLayer b /\ separated rest
  | _ => True
  end.

(** The interval the loop keeps when the next one touches it. *)
Definition widen (prev i : LayerInterval) : LayerInterval :=
  if negb (MaxLayer prev =? 0) && ((MaxLayer i =? 0) || (MaxLayer prev <? MaxLayer i))
  then {| MinLayer := MinLayer prev; MaxLayer := MaxLayer i |} else prev.

Lemma merge_intervals_cons prev i rest :
  merge_intervals prev (i :: rest) =
  if (MaxLayer prev =? 0) || (MinLayer i <=? MaxLayer prev + 1) then merge_intervals (widen prev i) rest else prev :: merge_intervals i rest.
Proof. done. Qed.

Lemma widen_spec prev i :
  proper prev -> proper i -> MinLayer prev <= MinLayer i -> MaxLayer prev = 0 \/ MinLayer i <= MaxLayer prev + 1 ->
  proper (widen prev i) /\ MinLayer (widen prev i) = MinLayer prev /\ forall l, covers (widen prev i) l <-> covers prev l \/ covers i l.
Proof.
  unfold proper, covers, widen. intros Hp Hi Hle Ht. destruct (MaxLayer prev =? 0) eqn:E1, (MaxLayer i =? 0) eqn:E2; cbn;
    try destruct (MaxLayer prev <? MaxLayer i) eqn:E3; cbn; bools; repeat split; intros; lia.
Qed.

Lemma merge_intervals_spec prev rest :
  Forall proper (prev :: rest) -> Sorted starts_before (prev :: rest) ->
  Forall proper (merge_intervals prev rest) /\ separated (merge_intervals prev rest) /\
  (exists a, head (merge_intervals prev rest) = Some a /\ MinLayer a = MinLayer prev) /\
  forall l, intervalsSupport (merge_intervals prev rest) l = true <-> intervalsSupport (prev :: rest) l = true.
Proof.
  revert prev. induction rest as [|i rest IH]; intros prev Hp Hs; [split_and!; [done|done|by eexists|done]|].
  apply Forall_cons in Hp as [Hprev Hp]. pose proof Hp as Hi. apply Forall_cons in Hi as [Hi Hrest].
  apply Sorted_inv in Hs as [Hs Hhd]. apply HdRel_inv in Hhd. unfold starts_before in Hhd.
  rewrite merge_intervals_cons. destruct ((MaxLayer prev =? 0) || (MinLayer i <=? MaxLayer prev + 1)) eqn:Ht.
  - rewrite orb_true_iff, Z.eqb_eq, Z.leb_le in Ht. destruct (widen_spec prev i) as (Hw & Hmin & Hcov); [done..|].
    destruct (IH (widen prev i)) as (H1 & H2 & (a & Ha & Hmina) & H3).
    + by constructor.
    + apply Sorted_inv in Hs as [Hs' Hhd']. constructor; [done|]. destruct rest; [constructor|]. apply HdRel_inv in Hhd'. constructor.
      unfold starts_before in *. lia.
    + split_and!; [exact H1|exact H2|exists a; split; [done|congruence]|]. intros l. rewrite H3, !support_cons, Hcov. tauto.
  - rewrite orb_false_iff, Z.eqb_neq, Z.leb_gt in Ht. destruct (IH i) as (H1 & H2 & (a & Ha & Hmina) & H3); [done..|].
    split_and!; [by constructor| |by eexists|].
    + destruct (merge_intervals i rest) as [|b out]; [done|]. cbn in Ha. injection Ha as ->. cbn. split_and!; [lia|lia|done].
    + intros l. rewrite (support_cons prev (merge_intervals i rest)), H3, (support_cons prev (i :: rest)). tauto.
Qed.

#[export] Instance starts_before_total : Total starts_before.
Proof. unfold starts_before. intros a b. lia. Qed.

(** Interval sets mean sets of layers (a maximum of 0 has no end): two of them overlap by the
    code's test exactly when some layer lies in both, and normalizing one keeps its layers while
    the result is sorted, with proper intervals and a gap between neighbours. *)
Lemma interval_sets_are_layer_sets first second :
  Forall proper first -> Forall proper second ->
  (intervalSetsOverlap first second = true <-> exists l, intervalsSupport first l = true /\ intervalsSupport second l = true) /\
  Forall proper (normalizeIntervals first) /\ separated (normalizeIntervals first) /\
  forall l, intervalsSupport (normalizeIntervals first) l = intervalsSupport first l.
Proof.
  intros Hf Hs. split; [by apply overlap_spec|]. unfold normalizeIntervals.
  pose proof (merge_sort_Permutation starts_before first) as Hperm. pose proof (Sorted_merge_sort starts_before first) as Hsort.
  destruct (merge_sort starts_before first) as [|i rest]; [apply Permutation_nil_l in Hperm; by subst|].
  destruct (merge_intervals_spec i rest) as (H1 & H2 & _ & H3); [by rewrite Hperm|done|].
  split_and!; [done..|]. intros l. apply eq_bool_prop_intro. rewrite !Is_true_true, H3. by apply support_perm.
Qed.

Lemma interval_sets_are_layer_sets_witness :
  normalizeIntervals [{| MinLayer := 9; MaxLayer := 0 |}; {| MinLayer := 2; MaxLayer := 4 |}; {| MinLayer := 5; MaxLayer := 6 |}] =
    [{| MinLayer := 2; MaxLayer := 6 |}; {| MinLayer := 9; MaxLayer := 0 |}] /\
  (intervalSetsOverlap [{| MinLayer := 2; MaxLayer := 4 |}] [{| MinLayer := 4; MaxLayer := 0 |}] = true <->
   exists l, intervalsSupport [{| MinLayer := 2; MaxLayer := 4 |}] l = true /\ intervalsSupport [{| MinLayer := 4; MaxLayer := 0 |}] l = true).
Proof.
  split; [by vm_compute|]. apply (interval_sets_are_layer_sets [{| MinLayer := 2; MaxLayer := 4 |}] [{| MinLayer := 4; MaxLayer := 0 |}]);
    repeat constructor; cbn; lia.
Defined.

(** * Differences as patches *)

Lemma filter_same {A} (P Q : A -> Prop) `{!forall x, Decision (P x), !forall x, Decision (Q x)} (l : list A) :
  (forall x, x ∈ l -> P x <-> Q x) -> filter P l = filter Q l.
Proof.
  induction l as [|x l IH]; intros Hpq; [done|]. rewrite !filter_cons. assert (Hx := Hpq x ltac:(by left)). rewrite IH by (intros; apply Hpq; by right).
  destruct (decide (P x)), (decide (Q x)); done || tauto.
Qed.

(** A difference as a patch of a list of declarations: those it removes go, those it declares
    again are replaced where they stand, those it adds follow. *)
Section patches.
Context {A : Type} (this_one : bytes -> A -> bool) (name_of : A -> bytes) (missing : bytes -> layer_error).
Context (key : A -> option bytes) (this_one_spec : forall name x, this_one name x = true <-> key x = Some name).

Definition keeps (removals : list bytes) (x : A) : Prop := match key x with Some k => k ∉ removals | None => True end.
#[local] Instance keeps_dec removals x : Decision (keeps removals x).
Proof. unfold keeps. destruct (key x); apply _. Defined.

Definition redeclared (additions : list A) (x : A) : A :=
  match key x with Some k => default x (snd <$> list_find (fun y => key y = Some k) additions) | None => x end.

Definition fresh (l : list A) (x : A) : Prop := match key x with Some k => k ∉ omap key l | None => True end.
#[local] Instance fresh_dec l x : Decision (fresh l x).
Proof. unfold fresh. destruct (key x); apply _. Defined.

Definition patch (removals : list bytes) (additions l : list A) : list A :=
  let kept := filter (keeps removals) l in map (redeclared additions) kept ++ filter (fresh kept) additions.

Lemma index_Some l name i :
  index this_one l name = Some i -> exists a x b, l = a ++ x :: b /\ length a = i /\ key x = Some name /\ Forall (fun y => key y <> Some name) a.
Proof.
  unfold index. destruct (list_find _ l) as [[j x]|] eqn:E; [|done]. intros [= ->]. apply list_find_Some in E as (Hl & Hx & Hlt).
  exists (take i l), x, (drop (S i) l). split_and!.
  - by rewrite take_drop_middle.
  - apply length_take_le. apply lookup_lt_Some in Hl. lia.
  - by apply this_one_spec, Is_true_true.
  - rewrite Forall_forall. intros y Hy Hk. apply list_elem_of_lookup in Hy as [j Hj]. apply lookup_take_Some in Hj as [Hj Hlt']. eapply Hlt; [done..|].
    by apply Is_true_true, this_one_spec.
Qed.

Lemma index_None l name : index this_one l name = None -> name ∉ omap key l.
Proof.
  unfold index. destruct (list_find _ l) as [[j x]|] eqn:E; [done|]. intros _ Hin. apply list_elem_of_omap in Hin as (x & Hx & Hk).
  apply list_find_None in E. rewrite Forall_forall in E. apply (E x Hx). by apply Is_true_true, this_one_spec.
Qed.

Lemma keys_app_cons a x b name : key x = Some name -> omap key (a ++ x :: b) = omap key a ++ name :: omap key b.
Proof. intros Hx. rewrite omap_app. cbn. by rewrite Hx. Qed.

Lemma other_keys a x b name : key x = Some name -> NoDup (omap key (a ++ x :: b)) -> (name ∉ omap key a) /\ (name ∉ omap key b) /\ NoDup (omap key (a ++ b)).
Proof.
  intros Hx. rewrite (keys_app_cons _ _ _ _ Hx), omap_app. intros Hnd. apply NoDup_app in Hnd as (H1 & H2 & H3). apply NoDup_cons in H3 as [H3 H4].
  split_and!; [|done|apply NoDup_app; set_solver]. intros Hin. apply (H2 name Hin). by left.
Qed.

Lemma keeps_other name names (l : list A) : name ∉ omap key l -> filter (keeps (name :: names)) l = filter (keeps names) l.
Proof.
  intros Hn. apply filter_same. intros x Hx. unfold keeps. destruct (key x) as [k|] eqn:E; [|done]. rewrite not_elem_of_cons.
  split; [tauto|]. split; [|done]. intros ->. apply Hn, list_elem_of_omap. eauto.
Qed.

Lemma remove_names_spec l names l' :
  NoDup (omap key l) -> remove_names this_one missing l names = Ok l' -> l' = filter (keeps names) l.
Proof.
  revert l. induction names as [|name names IH]; intros l Hnd; cbn [remove_names].
  - intros [= <-]. clear Hnd. induction l as [|x l IHl]; [done|]. rewrite filter_cons_True, <- IHl; [done|].
    unfold keeps. destruct (key x); [apply not_elem_of_nil|done].
  - destruct (index this_one l name) as [i|] eqn:E; [|done]. apply index_Some in E as (a & x & b & -> & <- & Hx & Ha).
    rewrite delete_middle. destruct (other_keys a x b name Hx Hnd) as (Hna & Hnb & Hnd'). intros ->%IH; [|done].
    rewrite !filter_app, filter_cons_False; [by rewrite !keeps_other|]. unfold keeps. rewrite Hx. set_solver.
Qed.

Lemma redeclared_other y additions (l : list A) : (forall k, key y = Some k -> k ∉ omap key l) -> map (redeclared (y :: additions)) l = map (redeclared additions) l.
Proof.
  intros Hn. apply map_ext_in. intros x Hx%list_elem_of_In. unfold redeclared. destruct (key x) as [k|] eqn:E; [|done].
  cbn [list_find]. destruct (decide (key y = Some k)) as [Hy|_]; [|by destruct (list_find _ _) as [[? ?]|]].
  destruct (Hn k Hy). apply list_elem_of_omap. eauto.
Qed.

Lemma redeclared_none (additions : list A) x k : key x = Some k -> k ∉ omap key additions -> redeclared additions x = x.
Proof.
  intros Hx Hn. unfold redeclared. rewrite Hx. destruct (list_find _ additions) as [[i y]|] eqn:E; [|done].
  apply list_find_Some in E as (Hy & Hk & _). destruct Hn. apply list_elem_of_omap. exists y. split; [by eapply list_elem_of_lookup_2|done].
Qed.

Lemma merge_all_spec l additions :
  (forall y, y ∈ additions -> key y = Some (name_of y)) -> NoDup (omap key l) -> NoDup (omap key additions) ->
  merge_all this_one name_of l additions = map (redeclared additions) l ++ filter (fresh l) additions.
Proof.
  revert l. induction additions as [|y additions IH]; intros l Hadd Hl Hnd; cbn [merge_all].
  - rewrite app_nil_r, <- (map_id l) at 1. apply map_ext_in. intros x _. unfold redeclared. by destruct (key x).
  - assert (Hy := Hadd y ltac:(by left)). cbn in Hnd. rewrite Hy in Hnd. apply NoDup_cons in Hnd as [Hyn Hnd].
    assert (Hadd' : forall z, z ∈ additions -> key z = Some (name_of z)) by (intros; apply Hadd; by right).
    destruct (index this_one l (name_of y)) as [i|] eqn:E.
    + apply index_Some in E as (a & x & b & -> & <- & Hx & Ha). destruct (other_keys a x b _ Hx Hl) as (Hna & Hnb & _).
      rewrite insert_app_r_alt, Nat.sub_diag by lia; cbn [insert list_insert]; rewrite IH; [|done| |done]; [|by rewrite (keys_app_cons _ _ _ _ Hy), <- (keys_app_cons _ _ _ _ Hx)].
      rewrite !map_app. cbn [map]. rewrite (redeclared_none additions y _ Hy Hyn), !(redeclared_other y additions) by (rewrite Hy; by intros ? [= <-]).
      rewrite filter_cons_False; [|unfold fresh; rewrite Hy, (keys_app_cons _ _ _ _ Hx), elem_of_app, elem_of_cons; tauto].
      rewrite <- !app_assoc. f_equal. cbn [app]. f_equal; [unfold redeclared; rewrite Hx; cbn [list_find]; by rewrite decide_True by done|]. f_equal.
      apply filter_same. intros z _. unfold fresh. by rewrite (keys_app_cons _ _ _ _ Hy), (keys_app_cons _ _ _ _ Hx).
    + apply index_None in E. rewrite IH; [|done| |done].
      * rewrite map_app. cbn [map]. rewrite (redeclared_none additions y _ Hy Hyn), (redeclared_other y additions) by (rewrite Hy; by intros ? [= <-]).
        rewrite filter_cons_True by (unfold fresh; by rewrite Hy). rewrite <- app_assoc. cbn. do 2 f_equal.
        apply filter_same. intros z Hz. unfold fresh. rewrite (Hadd' z Hz), omap_app. cbn. rewrite Hy, elem_of_app, list_elem_of_singleton.
        split; [tauto|]. intros Hnz [Hin|Heq]; [done|]. apply Hyn. rewrite <- Heq. apply list_elem_of_omap. exists z. auto.
      * rewrite omap_app. cbn. rewrite Hy. apply NoDup_app. split_and!; [done|set_solver|apply NoDup_singleton].
Qed.

Lemma keys_filter (P : A -> Prop) `{!forall x, Decision (P x)} (l : list A) : NoDup (omap key l) -> NoDup (omap key (filter P l)).
Proof.
  induction l as [|x l IH]; [done|]. intros Hnd. cbn in Hnd.
  assert (Hl : NoDup (omap key l)) by (destruct (key x); [by apply NoDup_cons in Hnd as [_ Hnd]|done]).
  rewrite filter_cons. destruct (decide (P x)); [|by apply IH]. cbn. destruct (key x) as [k|]; [|by apply IH].
  apply NoDup_cons in Hnd as [Hk _]. apply NoDup_cons. split; [|by apply IH]. intros (y & Hy & Hky)%list_elem_of_omap. apply Hk, list_elem_of_omap.
  apply list_elem_of_filter in Hy as [_ Hy]. eauto.
Qed.

Lemma patch_spec l removals additions l' :
  (forall y, y ∈ additions -> key y = Some (name_of y)) -> NoDup (omap key l) -> NoDup (omap key additions) ->
  remove_names this_one missing l removals = Ok l' -> merge_all this_one name_of l' additions = patch removals additions l.
Proof.
  intros Hadd Hl Hnd ->%remove_names_spec; [|done]. apply merge_all_spec; [done| |done].
  by apply keys_filter.
Qed.
End patches.

(** ** What a valid set of declarations is *)

Definition ckey (c : Constructor) : option bytes := Some (ct_Name c).
Definition fkey (f : FuncDecl) : option bytes := if fn_VariantLayer f =? 0 then Some (fn_Name f) else None.

Lemma is_constructor_spec name c : is_constructor name c = true <-> ckey c = Some name.
Proof. unfold is_constructor, ckey, bytes_eqb. rewrite bool_decide_eq_true. naive_solver. Qed.

Lemma is_function_spec name f : is_function name f = true <-> fkey f = Some name.
Proof. unfold is_function, fkey, bytes_eqb. destruct (fn_VariantLayer f =? 0); rewrite ?andb_true_r, ?andb_false_r, ?bool_decide_eq_true; naive_solver. Qed.

Lemma ensure_Ok b e u : ensure b e = Ok u -> b = true.
Proof. by destruct b. Qed.

Lemma result_bind_Ok {E A B} (m : result E A) (f : A -> result E B) b : (m ≫= f) = Ok b -> exists a, m = Ok a /\ f a = Ok b.
Proof. destruct m; [eauto|done]. Qed.

Ltac res_inv :=
  repeat match goal with
  | H : (_ ≫= _) = Ok _ |- _ => apply result_bind_Ok in H as (? & ? & H)
  | H : ensure _ _ = Ok _ |- _ => apply ensure_Ok in H
  | H : mret _ = Ok _ |- _ => injection H as <-
  end.

Lemma each_Ok {A} (f : A -> LR unit) l u : each f l = Ok u -> forall x, x ∈ l -> f x = Ok tt.
Proof.
  induction l as [|y l IH]; cbn [each]; intros H x Hx; [by apply not_elem_of_nil in Hx|]. res_inv.
  apply elem_of_cons in Hx as [->|Hx]; [by destruct x0|by apply IH].
Qed.

Lemma check_constructors_names names ids cs u : check_constructors names ids cs = Ok u -> NoDup (map ct_Name cs) /\ forall c, c ∈ cs -> ct_Name c ∉ names.
Proof.
  revert names ids. induction cs as [|c cs IH]; intros names ids H; cbn [check_constructors] in H; [split; [constructor|set_solver]|].
  res_inv. apply negb_true_iff, bool_decide_eq_false in H0. apply IH in H as [Hnd Hout]. split.
  - cbn. apply NoDup_cons. split; [|done]. intros (c' & He & Hc')%list_elem_of_fmap. specialize (Hout c' Hc'). set_solver.
  - intros c' [->|Hc']%elem_of_cons; [done|]. specialize (Hout c' Hc'). set_solver.
Qed.

Lemma ckeys cs : omap ckey cs = map ct_Name cs.
Proof. induction cs as [|c cs IH]; cbn; [done|]. by rewrite <- IH. Qed.

Lemma count_canonical variants :
  (length (filter (fun f => fn_VariantLayer f = 0%Z) variants) + length (filter (fun l => l <> 0%Z) (map fn_VariantLayer variants)) = length variants)%nat.
Proof.
  induction variants as [|f variants IH]; [done|]. cbn [map]. rewrite !filter_cons.
  destruct (decide (fn_VariantLayer f = 0)), (decide (fn_VariantLayer f <> 0)); cbn [length]; try lia; done.
Qed.

Lemma check_variants_canonical name variants u : check_variants name variants = Ok u -> (length (filter (fun f => fn_VariantLayer f = 0%Z) variants) <= 1)%nat.
Proof.
  unfold check_variants, len. pose proof (count_canonical variants). destruct (_ =? 1) eqn:E; [apply Z.eqb_eq in E; lia|].
  intros H1. res_inv. apply Z.eqb_eq in H1. lia.
Qed.

Lemma keys_unique fs : (forall name, (length (filter (fun f => fn_VariantLayer f = 0%Z) (named name fs)) <= 1)%nat) -> NoDup (omap fkey fs).
Proof.
  unfold named. induction fs as [|f fs IH]; intros H; cbn; [constructor|].
  assert (Hfs : NoDup (omap fkey fs)).
  { apply IH. intros name. specialize (H name). rewrite filter_cons in H. destruct (decide (fn_Name f = name)); [|done].
    rewrite filter_cons in H. destruct (decide (fn_VariantLayer f = 0)); cbn [length] in H; lia. }
  unfold fkey at 1. destruct (fn_VariantLayer f =? 0) eqn:E; [|done]. apply Z.eqb_eq in E. apply NoDup_cons. split; [|done].
  intros (f' & Hf' & Hk)%list_elem_of_omap. unfold fkey in Hk. destruct (fn_VariantLayer f' =? 0) eqn:E'; [|done]. injection Hk as Hk. apply Z.eqb_eq in E'.
  specialize (H (fn_Name f)). rewrite !filter_cons_True in H by done. cbn [length] in H.
  assert (Hin : f' ∈ filter (fun g => fn_VariantLayer g = 0) (filter (fun g => fn_Name g = fn_Name f) fs)) by (by rewrite !list_elem_of_filter).
  destruct (filter _ (filter _ fs)); [by apply not_elem_of_nil in Hin|cbn [length] in H; lia].
Qed.

Lemma validateDeclarationSet_keys cs fs u : validateDeclarationSet cs fs = Ok u -> NoDup (omap ckey cs) /\ NoDup (omap fkey fs).
Proof.
  unfold validateDeclarationSet. intros H. res_inv. split; [rewrite ckeys; by eapply check_constructors_names|].
  apply keys_unique. intros name. destruct (decide (name ∈ map fn_Name fs)) as [Hin|Hout].
  - eapply check_variants_canonical, (each_Ok _ _ _ H name Hin).
  - unfold named. destruct (filter (fun f => fn_Name f = name) fs) as [|f l] eqn:E; [cbn; lia|].
    assert (Hf : f ∈ filter (fun f => fn_Name f = name) fs) by (rewrite E; by left). apply list_elem_of_filter in Hf as [<- Hf].
    destruct Hout. by apply list_elem_of_fmap_2.
Qed.

(** ** Resolution *)

Definition declared_constructors (d : LayerDifference) : list Constructor := match ld_Schema d with Some s => sc_Constructors s | None => [] end.
Definition declared_functions (d : LayerDifference) : list FuncDecl := match ld_Schema d with Some s => sc_Functions s | None => [] end.

(** The declarations of a layer: the base patched by every difference up to that layer. *)
Definition constructors_at (layer : Z) (ds : list LayerDifference) (base : list Constructor) : list Constructor :=
  foldl (fun cs d => patch ckey (ld_RemoveConstructors d) (declared_constructors d) cs) base (filter (fun d => ld_Layer d <= layer) ds).
Definition functions_at (layer : Z) (ds : list LayerDifference) (base : list FuncDecl) : list FuncDecl :=
  foldl (fun fs d => patch fkey (ld_RemoveFunctions d) (declared_functions d) fs) base (filter (fun d => ld_Layer d <= layer) ds).

(** A difference declares current functions only; historical ones are annotated in a base schema. *)
Definition canonical (d : LayerDifference) : Prop := Forall (fun f => fn_VariantLayer f = 0) (declared_functions d).

#[export] Instance canonical_dec d : Decision (canonical d).
Proof. unfold canonical. apply _. Defined.

Lemma check_differences_above base p ds u : check_differences base (Some p) ds = Ok u -> Forall (fun d => p < ld_Layer d) ds.
Proof.
  revert p. induction ds as [|d ds IH]; intros p H; [constructor|]. cbn [check_differences] in H. res_inv. apply Z.ltb_lt in H2.
  constructor; [done|]. eapply Forall_impl; [by apply IH|]. cbn. lia.
Qed.

Lemma none_below t p ds : Forall (fun d => p < ld_Layer d) ds -> t <= p -> filter (fun d => ld_Layer d <= t) ds = [].
Proof. induction 1 as [|d ds Hd _ IH]; intros; [done|]. rewrite filter_cons_False by lia. auto. Qed.

Lemma validateLayerDifference_keys d u :
  validateLayerDifference d = Ok u -> NoDup (omap ckey (declared_constructors d)) /\ NoDup (omap fkey (declared_functions d)).
Proof. unfold validateLayerDifference, declared_constructors, declared_functions. destruct (ld_Schema d); [|done]. intros H. res_inv. by eapply validateDeclarationSet_keys. Qed.

Lemma apply_difference_spec d cs fs r :
  canonical d -> validateLayerDifference d = Ok tt -> NoDup (omap ckey cs) -> NoDup (omap fkey fs) -> apply_difference d cs fs = Ok r ->
  r = (patch ckey (ld_RemoveConstructors d) (declared_constructors d) cs, patch fkey (ld_RemoveFunctions d) (declared_functions d) fs) /\
  validateDeclarationSet r.1 r.2 = Ok tt.
Proof.
  intros Hcan [Hdc Hdf]%validateLayerDifference_keys Hc Hf H. unfold apply_difference in H.
  apply result_bind_Ok in H as (cs1 & Hrc & H). apply result_bind_Ok in H as (fs1 & Hrf & H). cbv zeta in H. fold (declared_constructors d) (declared_functions d) in H.
  unfold removeConstructors, removeFunctions, mergeConstructors, mergeFunctions in *.
  rewrite (patch_spec _ ct_Name RemoveMissingConstructor ckey is_constructor_spec cs (ld_RemoveConstructors d) _ cs1) in H; [|done..].
  rewrite (patch_spec _ fn_Name RemoveMissingFunction fkey is_function_spec fs (ld_RemoveFunctions d) _ fs1) in H; [| |done..].
  - apply result_bind_Ok in H as ([] & Hv & H). injection H as <-. done.
  - intros f Hin. unfold canonical in Hcan. rewrite Forall_forall in Hcan. unfold fkey. by rewrite (Hcan f Hin).
Qed.

Lemma apply_differences_spec base p t ds cs fs r :
  check_differences base p ds = Ok tt -> Forall canonical ds -> validateDeclarationSet cs fs = Ok tt -> apply_differences t ds cs fs = Ok r ->
  r = (constructors_at t ds cs, functions_at t ds fs) /\ validateDeclarationSet r.1 r.2 = Ok tt.
Proof.
  revert p cs fs. induction ds as [|d ds IH]; intros p cs fs Hck Hcan Hv H; cbn [apply_differences] in H; [by injection H as <-|].
  apply Forall_cons in Hcan as [Hd Hcan]. cbn [check_differences] in Hck. res_inv. unfold constructors_at, functions_at. rewrite !filter_cons.
  destruct (t <? ld_Layer d) eqn:Ht.
  - apply Z.ltb_lt in Ht. injection H as <-. rewrite decide_False by lia. apply check_differences_above in Hck.
    by rewrite (none_below t _ _ Hck ltac:(lia)).
  - apply Z.ltb_ge in Ht. rewrite decide_True by done. apply result_bind_Ok in H as (r1 & Hr1 & H). destruct x2.
    destruct (validateDeclarationSet_keys _ _ _ Hv) as [Hc Hf]. apply apply_difference_spec in Hr1 as [-> Hv1]; [|done..].
    by apply (IH _ _ _ Hck Hcan Hv1) in H.
Qed.

Lemma ResolveLayer_spec base baseLayer targetLayer ds s :
  Forall canonical ds -> ResolveLayer (Some base) baseLayer targetLayer ds = Ok s ->
  sc_Layer s = targetLayer /\
  sc_Constructors s = constructors_at targetLayer ds (sc_Constructors base) /\
  sc_Functions s = functions_at targetLayer ds (sc_Functions base) /\
  validateDeclarationSet (sc_Constructors s) (sc_Functions s) = Ok tt.
Proof.
  intros Hcan H. unfold ResolveLayer in H. res_inv. destruct x3, x5.
  match goal with H : apply_differences _ _ _ _ = Ok _ |- _ => eapply apply_differences_spec in H as [-> Hv]; [|done..] end. done.
Qed.

(** The layers a schema was resolved from. *)
Lemma ResolveLayer_layers base baseLayer targetLayer ds s :
  ResolveLayer (Some base) baseLayer targetLayer ds = Ok s -> 0 < baseLayer /\ check_differences baseLayer None ds = Ok tt.
Proof. intros H. unfold ResolveLayer in H. res_inv. destruct x3. split; [lia|done]. Qed.

(** C33. A resolved layer is the base patched by the differences up to it, in their order: what
    they remove is gone, what they declare again stands where it stood, what they add follows.
    The result has the target's layer and passes the checks on a set of declarations. *)
Theorem resolve_layer_refines base baseLayer targetLayer ds s :
  Forall canonical ds -> ResolveLayer (Some base) baseLayer targetLayer ds = Ok s ->
  sc_Layer s = targetLayer /\
  sc_Constructors s = constructors_at targetLayer ds (sc_Constructors base) /\
  sc_Functions s = functions_at targetLayer ds (sc_Functions base) /\
  validateDeclarationSet (sc_Constructors s) (sc_Functions s) = Ok tt.
Proof. apply ResolveLayer_spec. Qed.

(** A base with two constructors and a function, and two differences on it. *)
Definition text_schema (layer : Z) (text : string) : option Schema :=
  match ParseAt layer (str text) with Ok s => Some s | Err _ => None end.
Definition toy_base : Schema := default (NewSchema 0) $ text_schema 1 "a#1 = T; b#2 = T;
---functions---
f#10 x:int = T;".
Definition toy_differences : list LayerDifference :=
  [ {| ld_Layer := 3; ld_Source := []; ld_Schema := text_schema 3 "a#3 x:int = T; c#4 = T;
---functions---
f#11 = T;";
       ld_RemoveConstructors := [str "b"]; ld_RemoveFunctions := [] |};
    {| ld_Layer := 5; ld_Source := []; ld_Schema := text_schema 5 "d#5 = T;"; ld_RemoveConstructors := []; ld_RemoveFunctions := [str "f"] |} ].

Definition toy_resolved : Schema :=
  match ResolveLayer (Some toy_base) 1 3 toy_differences with Ok s => s | Err _ => NewSchema 0 end.

Lemma resolve_layer_refines_witness :
  ResolveLayer (Some toy_base) 1 3 toy_differences = Ok toy_resolved /\
  (map ct_ID (sc_Constructors toy_resolved) = [3; 4] /\ map fn_ID (sc_Functions toy_resolved) = [17]) /\
  sc_Constructors toy_resolved = constructors_at 3 toy_differences (sc_Constructors toy_base).
Proof.
  split; [by vm_compute|]. split; [by vm_compute|].
  apply (resolve_layer_refines toy_base 1 3 toy_differences toy_resolved); [apply (bool_decide_unpack _)|]; by vm_compute.
Defined.

(** * Grouping by result type *)

Definition family (c : Constructor) : bytes := FullName (ct_ResultType c).

(** A type declaration holds the constructors of its family, in the schema's order. *)
Definition holds_family (cs : list Constructor) (t : TypeDecl) : Prop :=
  td_Constructors t = filter (fun c => family c = td_Name t) cs /\ td_Constructors t <> [] /\ td_IsUnion t = (1 <? len (td_Constructors t)).

Definition grouped (s : Schema) : Prop :=
  NoDup (map td_Name (sc_Types s)) /\ Forall (holds_family (sc_Constructors s)) (sc_Types s) /\
  forall c, c ∈ sc_Constructors s -> family c ∈ map td_Name (sc_Types s).

Lemma group_names c types :
  map td_Name (group_constructor c types) = if decide (family c ∈ map td_Name types) then map td_Name types else map td_Name types ++ [family c].
Proof.
  induction types as [|t types IH]; [done|]. cbn [group_constructor]. unfold bytes_eqb. fold (family c). case_bool_decide as Ht; cbn [map].
  - rewrite decide_True; [done|]. rewrite Ht. by left.
  - rewrite IH. destruct (decide (family c ∈ map td_Name types)).
    + rewrite decide_True; [done|]. by right.
    + rewrite decide_False; [done|]. rewrite elem_of_cons. naive_solver.
Qed.

Lemma holds_family_skip cs c t : family c <> td_Name t -> holds_family cs t -> holds_family (cs ++ [c]) t.
Proof. unfold holds_family. intros Hne. by rewrite filter_app, (filter_cons_False _ c) by done; cbn; rewrite app_nil_r. Qed.

Lemma group_families cs c types :
  NoDup (map td_Name types) -> Forall (holds_family cs) types -> (family c ∉ map td_Name types -> filter (fun d => family d = family c) cs = []) ->
  Forall (holds_family (cs ++ [c])) (group_constructor c types).
Proof.
  induction types as [|t types IH]; intros Hnd Hall Hnew.
  - constructor; [|constructor]. unfold holds_family. cbn [td_Constructors td_Name td_IsUnion]. fold (family c). rewrite filter_app, Hnew by apply not_elem_of_nil. by rewrite filter_cons_True by done.
  - cbn [map] in Hnd. apply NoDup_cons in Hnd as [Ht Hnd]. apply Forall_cons in Hall as [Hft Hall]. cbn [group_constructor]. unfold bytes_eqb. fold (family c).
    case_bool_decide as Heq; constructor.
    + destruct Hft as (H1 & H2 & H3). unfold holds_family. cbn [td_Constructors td_Name td_IsUnion]. rewrite filter_app, filter_cons_True, <- H1 by done. split_and!; [done|by destruct (td_Constructors t)|done].
    + rewrite Forall_forall in *. intros t' Hin. apply holds_family_skip; [|by apply Hall]. intros Hc. apply Ht. rewrite Heq, Hc. by apply list_elem_of_fmap_2.
    + by apply holds_family_skip.
    + apply IH; [done..|]. intros Hnin. apply Hnew. cbn [map]. rewrite elem_of_cons. naive_solver.
Qed.

Lemma group_all_grouped cs :
  NoDup (map td_Name (group_all cs)) /\ Forall (holds_family cs) (group_all cs) /\ forall c, c ∈ cs -> family c ∈ map td_Name (group_all cs).
Proof.
  induction cs as [|c cs IH] using rev_ind; [split_and!; [constructor|constructor|intros c Hc; by apply not_elem_of_nil in Hc]|].
  destruct IH as (Hnd & Hall & Hin). unfold group_all. rewrite foldl_app. cbn [foldl]. fold (group_all cs). split_and!.
  - rewrite group_names. case_decide; [done|]. apply NoDup_app. split_and!; [done|set_solver|apply NoDup_singleton].
  - apply group_families; [done..|]. intros Hnin. destruct (filter _ cs) as [|d l] eqn:E; [done|].
    assert (Hd : d ∈ filter (fun d => family d = family c) cs) by (rewrite E; by left). apply list_elem_of_filter in Hd as [Hd Hd'].
    destruct Hnin. rewrite <- Hd. by apply Hin.
  - intros d Hd. rewrite group_names. apply elem_of_app in Hd as [Hd|Hd%list_elem_of_singleton].
    + specialize (Hin d Hd). case_decide; [done|]. rewrite elem_of_app. by left.
    + subst d. case_decide; [done|]. rewrite elem_of_app, list_elem_of_singleton. by right.
Qed.

(** The types of a schema are the groups of its constructors. *)
Definition types_grouped (s : Schema) : Prop := sc_Types s = group_all (sc_Constructors s).

Lemma types_grouped_grouped s : types_grouped s -> grouped s.
Proof. unfold types_grouped, grouped. intros ->. apply group_all_grouped. Qed.

Lemma add_constructor_grouped c s : types_grouped s -> types_grouped (add_constructor c s).
Proof. unfold types_grouped, add_constructor. cbn. intros ->. unfold group_all. by rewrite foldl_app. Qed.

Lemma parseConstructors_grouped fuel s p s' p' : types_grouped s -> parseConstructors fuel s p = (Ok s', p') -> types_grouped s'.
Proof.
  revert s p. induction fuel as [|fuel IH]; intros s p Hs H; [done|]. cbn [parseConstructors] in H. st_inv.
  destruct (bool_decide _); st_inv; [done|]. destruct (bool_decide _); st_inv; [|by apply add_constructor_grouped].
  eapply IH; [|eassumption]. by apply add_constructor_grouped.
Qed.

Lemma parseFunctions_grouped fuel s p s' p' : types_grouped s -> parseFunctions fuel s p = (Ok s', p') -> types_grouped s'.
Proof.
  revert s p. induction fuel as [|fuel IH]; intros s p Hs H; [done|]. cbn [parseFunctions] in H. st_inv.
  destruct (bool_decide _); st_inv; [done|]. eapply IH; [|eassumption]. done.
Qed.

Lemma parseSections_grouped fuel s p s' p' : types_grouped s -> parseSections fuel s p = (Ok s', p') -> types_grouped s'.
Proof.
  revert s p. induction fuel as [|fuel IH]; intros s p Hs H; [done|]. cbn [parseSections] in H. st_inv.
  destruct (bool_decide (_ = TokenEOF)); st_inv; [done|]. eapply IH; [|eassumption].
  destruct (bool_decide _); [unfold parseTypesSection in *; st_inv; by eapply parseConstructors_grouped|].
  destruct (bool_decide _); [unfold parseFunctionsSection in *; st_inv; by eapply parseFunctions_grouped|]. by eapply parseConstructors_grouped.
Qed.

(** C34. Schemas are well formed however they arise, by parsing, by resolving a layer or by
    selecting one: one type per result name, holding exactly the constructors of that result in
    the schema's order, never empty, marked as a union exactly when it has several. *)
Theorem schemas_are_grouped :
  (forall layer input s, ParseAt layer input = Ok s -> grouped s) /\
  (forall base baseLayer targetLayer ds s, ResolveLayer base baseLayer targetLayer ds = Ok s -> grouped s) /\
  (forall schema targetLayer s, SelectBaselineLayer schema targetLayer = Ok s -> grouped s).
Proof.
  split_and!.
  - intros layer input s H. unfold ParseAt in H. destruct (ParseWithLayer _ _ _) as [r p] eqn:E. cbn in H. subst r.
    unfold ParseWithLayer in E. st_inv. apply types_grouped_grouped. unfold types_grouped. cbn. by eapply (parseSections_grouped _ (NewSchema layer)).
  - intros base baseLayer targetLayer ds s H. unfold ResolveLayer in H. destruct base; [|done]. res_inv. by apply types_grouped_grouped.
  - intros schema targetLayer s H. unfold SelectBaselineLayer in H. destruct schema; [|done]. res_inv. by apply types_grouped_grouped.
Qed.
