(* ===== verification/SchemaValidate.v ===== *)
(** The checks on a parsed schema (internal/parser/validate.go, with the built-in types of
    internal/naming/builtin.go).

    Each check returns the errors it appends to the validator's list; all of them have
    severity error and no position.  Names are bytes: a part of a name that is not ASCII is
    invalid whether or not [range] replaces its malformed sequences. *)

From stdpp Require Import base numbers list gmap strings.
From S2P Require Import Prelude SchemaAst Lexer SchemaParser SchemaLayers.
Open Scope Z_scope.

(** * Built-in types *)

Definition builtinTypes : list bytes :=
  map str ["int"; "long"; "int128"; "int256"; "double"; "string"; "bytes"; "bool"; "true"; "false"; "Bool";
           "Object"; "Function"; "Type"; "#"; "Vector"; "vector"]%string.

Definition IsBuiltinType (name : bytes) : bool := bool_decide (name ∈ builtinTypes).
Definition GetBuiltinTypes `{MapOrder} : list bytes := in_order builtinTypes.

(** * Errors *)

Inductive ValidationError :=
| RepeatedConstructorID (id : Z) (name : bytes)
| RepeatedFunctionID (id : Z) (name : bytes)
| UndefinedType (typeName context : bytes)
| NoFlagsParameter (scope param : bytes)
| InvalidTypeName (name : bytes)
| InvalidConstructorName (name : bytes)
| InvalidFunctionName (name : bytes).

Section validate.
Context `{MapOrder}.

(** * Unique ids *)

(** [idMap[d.ID] = append(idMap[d.ID], d)] for every declaration *)
Definition by_id {D} (id : D -> Z) (ds : list D) : gmap Z (list D) :=
  foldl (fun m d => <[id d := default [] (m !! id d) ++ [d]]> m) ∅ ds.

Fixpoint disjointConstructorVariants (cs : list Constructor) : bool :=
  match cs with
  | [] => true
  | c :: cs => forallb (fun d => negb (declarationIntervalSetsOverlap (ct_Intervals c) (ct_Intervals d))) cs && disjointConstructorVariants cs
  end.

Fixpoint disjointFunctionVariants (fs : list FuncDecl) : bool :=
  match fs with
  | [] => true
  | f :: fs => forallb (fun g => serializerPrefixPair f g || negb (declarationIntervalSetsOverlap (fn_Intervals f) (fn_Intervals g))) fs
               && disjointFunctionVariants fs
  end.

Definition validateUniqueConstructorIDs (s : Schema) : list ValidationError :=
  concat (map (fun '(id, cs) =>
    if (1 <? len cs) && negb (sc_IsLayered s && disjointConstructorVariants cs)
    then map (fun c => RepeatedConstructorID id (ct_Name c)) cs else [])
    (in_order (map_to_list (by_id ct_ID (sc_Constructors s))))).

Definition helper_pair (fs : list FuncDecl) : bool :=
  match fs with
  | [f; g] => (fn_IsHelper f && negb (fn_IsHelper g)) || (negb (fn_IsHelper f) && fn_IsHelper g)
  | _ => false
  end.

Definition validateUniqueFunctionIDs (s : Schema) : list ValidationError :=
  concat (map (fun '(id, fs) =>
    if (1 <? len fs) && negb (sc_IsLayered s && disjointFunctionVariants fs) && negb (helper_pair fs)
    then map (fun f => RepeatedFunctionID id (fn_Name f)) fs else [])
    (in_order (map_to_list (by_id fn_ID (sc_Functions s))))).

(** * Type references *)

Fixpoint checkTypeReference (t : TypeRef) (definedTypes : gset bytes) (context : bytes) : list ValidationError :=
  let typeName := FullName t in
  let undefined := if bool_decide (typeName ∈ definedTypes) || IsBuiltinType typeName then [] else [UndefinedType typeName context] in
  match tr_FlagBit t with
  | Some _ => undefined
  | None =>
      undefined ++ (if tr_IsVector t then
        match tr_Generic t with
        | Some g => checkTypeReference g definedTypes (context ++ str " vector element")
        | None => []
        end else [])
  end.

Definition definedTypes (s : Schema) : gset bytes := list_to_set GetBuiltinTypes ∪ list_to_set (map td_Name (sc_Types s)).
Definition localTypes (s : Schema) (generics : list GenericParam) : gset bytes := definedTypes s ∪ list_to_set (map gp_Name generics).

Definition check_declaration (kind name : bytes) (local : gset bytes) (result : TypeRef) (params : list Parameter_) : list ValidationError :=
  checkTypeReference result local (kind ++ str " " ++ name ++ str " result type") ++
  concat (map (fun p => checkTypeReference (pa_Type p) local (kind ++ str " " ++ name ++ str " parameter " ++ pa_Name p)) params).

Definition validateTypeResolution (s : Schema) : list ValidationError :=
  concat (map (fun c => check_declaration (str "constructor") (ct_Name c) (localTypes s (ct_GenericParams c)) (ct_ResultType c) (ct_Params c)) (sc_Constructors s)) ++
  concat (map (fun f => check_declaration (str "function") (fn_Name f) (localTypes s (fn_GenericParams f)) (fn_ResultType f) (fn_Params f)) (sc_Functions s)).

(** * Flags *)

Definition is_flags (p : Parameter_) : bool := HasPrefix (pa_Name p) (str "flags") && bytes_eqb (tr_Name (pa_Type p)) (str "#").

Definition validateFlagBits (scope : bytes) (params : list Parameter_) : list ValidationError :=
  let hasFlagsParam := existsb is_flags params in
  concat (map (fun p =>
    match pa_FlagBit p with
    | None => []
    | Some _ => if hasFlagsParam then [] else [NoFlagsParameter scope (pa_Name p)]
    end) params).

Definition validateConstructorFlags (c : Constructor) : list ValidationError := validateFlagBits (str "constructor " ++ ct_Name c) (ct_Params c).
Definition validateFunctionFlags (f : FuncDecl) : list ValidationError := validateFlagBits (str "function " ++ fn_Name f) (fn_Params f).

Definition validateFlagConsistency (s : Schema) : list ValidationError :=
  concat (map validateConstructorFlags (sc_Constructors s)) ++ concat (map validateFunctionFlags (sc_Functions s)).

(** * Names *)

Definition ident_start (c : byte) : bool :=
  ((97 <=? Zb c) && (Zb c <=? 122)) || ((65 <=? Zb c) && (Zb c <=? 90)) || (Zb c =? 95).
Definition ident_rest (c : byte) : bool := ident_start c || ((48 <=? Zb c) && (Zb c <=? 57)).

(** The pattern of validateNamespaceValidity. *)
Definition validIdent (part : bytes) : bool :=
  match part with [] => false | c :: part => ident_start c && forallb ident_rest part end.

(** The loop over the name, with the part read so far. *)
Fixpoint split_parts (current : bytes) (name : bytes) : list bytes :=
  match name with
  | [] => match current with [] => [] | _ => [current] end
  | c :: name =>
      if bool_decide (c = x2e) then match current with [] => split_parts [] name | _ => current :: split_parts [] name end
      else split_parts (current ++ [c]) name
  end.
Definition splitNamespace (name : bytes) : list bytes := split_parts [] name.

Definition check_parts (parts : list bytes) (e : ValidationError) : list ValidationError := if forallb validIdent parts then [] else [e].

Definition validateNamespaceValidity (s : Schema) : list ValidationError :=
  concat (map (fun t => match td_Name t with [] => [] | name => check_parts (Split x2e name) (InvalidTypeName name) end) (sc_Types s)) ++
  concat (map (fun c => check_parts (splitNamespace (ct_Name c)) (InvalidConstructorName (ct_Name c))) (sc_Constructors s)) ++
  concat (map (fun f => check_parts (splitNamespace (fn_Name f)) (InvalidFunctionName (fn_Name f))) (sc_Functions s)).

(** The errors of NewValidator(schema).Validate(), nil when there are none. *)
Definition ValidateSchema (s : Schema) : list ValidationError :=
  validateUniqueConstructorIDs s ++ validateUniqueFunctionIDs s ++ validateTypeResolution s ++ validateFlagConsistency s ++ validateNamespaceValidity s.
End validate.

(** * What the checks decide *)

(** A declaration without intervals belongs to every layer from 0 on. *)
Definition in_layer (ivs : list LayerInterval) (l : Z) : bool :=
  intervalsSupport (match ivs with [] => [{| MinLayer := 0; MaxLayer := 0 |}] | _ => ivs end) l.
Definition apart (a b : list LayerInterval) : Prop := forall l, ~ (in_layer a l = true /\ in_layer b l = true).

Definition known_type (s : Schema) (generics : list GenericParam) (name : bytes) : Prop :=
  name ∈ builtinTypes \/ name ∈ map td_Name (sc_Types s) \/ name ∈ map gp_Name generics.

(** Every name of a reference is known: its own and, of a vector, those of its element. *)
Fixpoint resolves (known : bytes -> Prop) (t : TypeRef) : Prop :=
  known (FullName t) /\
  (if tr_IsVector t then match tr_Generic t with Some g => resolves known g | None => True end else True).

(** The same of a reference whose conditional vectors are taken for plain names. *)
Fixpoint resolves_outside (known : bytes -> Prop) (t : TypeRef) : Prop :=
  known (FullName t) /\
  match tr_FlagBit t with
  | Some _ => True
  | None => if tr_IsVector t then match tr_Generic t with Some g => resolves_outside known g | None => True end else True
  end.

(** The elements of the conditional vectors of a reference resolve. *)
Fixpoint conditional_elements_resolve (known : bytes -> Prop) (t : TypeRef) : Prop :=
  if tr_IsVector t then
    match tr_Generic t, tr_FlagBit t with
    | Some g, Some _ => resolves known g
    | Some g, None => conditional_elements_resolve known g
    | None, _ => True
    end
  else True.

Definition with_id {D} (id : D -> Z) (ds : list D) (i : Z) : list D := filter (fun d => id d = i) ds.

(** Every type reference of a schema, with the names its declaration knows. *)
Definition all_references (P : (bytes -> Prop) -> TypeRef -> Prop) (s : Schema) : Prop :=
  (forall c t, c ∈ sc_Constructors s -> t ∈ ct_ResultType c :: map pa_Type (ct_Params c) -> P (known_type s (ct_GenericParams c)) t) /\
  (forall f t, f ∈ sc_Functions s -> t ∈ fn_ResultType f :: map pa_Type (fn_Params f) -> P (known_type s (fn_GenericParams f)) t).

(** What a schema has to satisfy besides that. *)
Record well_declared (s : Schema) : Prop := {
  wf_constructor_ids : forall id, let same := with_id ct_ID (sc_Constructors s) id in
    (length same <= 1)%nat \/ sc_IsLayered s = true /\ ForallOrdPairs (fun c d => apart (ct_Intervals c) (ct_Intervals d)) same;
  wf_function_ids : forall id, let same := with_id fn_ID (sc_Functions s) id in
    (length same <= 1)%nat \/
    sc_IsLayered s = true /\ ForallOrdPairs (fun f g => serializerPrefixPair f g = true \/ apart (fn_Intervals f) (fn_Intervals g)) same \/
    exists f g, same = [f; g] /\ fn_IsHelper f <> fn_IsHelper g;
  wf_flags : forall ps p, ps ∈ map ct_Params (sc_Constructors s) ++ map fn_Params (sc_Functions s) -> p ∈ ps -> pa_FlagBit p <> None ->
    exists q, q ∈ ps /\ is_flags q = true;
  wf_type_names : forall t part, t ∈ sc_Types s -> td_Name t <> [] -> part ∈ Split x2e (td_Name t) -> validIdent part = true;
  wf_names : forall name part, name ∈ map ct_Name (sc_Constructors s) ++ map fn_Name (sc_Functions s) -> part ∈ Split x2e name -> part <> [] -> validIdent part = true
}.

Definition well_formed (s : Schema) : Prop := well_declared s /\ all_references resolves s.

(** ** Lists of errors *)

Lemma concat_map_nil {A B} (f : A -> list B) (l : list A) : concat (map f l) = [] <-> forall x, x ∈ l -> f x = [].
Proof.
  induction l as [|x l IH]; cbn; [split; [by intros _ x ?%elem_of_nil|done]|].
  rewrite app_nil, IH. split; [intros [Hx Hl] y [->|Hy]%elem_of_cons; auto|].
  intros Hall. split; [apply Hall; by left|]. intros y Hy. apply Hall. by right.
Qed.

(** ** Ids *)

Lemma by_id_lookup {D} (id : D -> Z) (ds : list D) i :
  by_id id ds !! i = match with_id id ds i with [] => None | same => Some same end.
Proof.
  induction ds as [|d ds IH] using rev_ind; [done|]. unfold by_id, with_id in *. rewrite foldl_app, filter_app, filter_cons, filter_nil. cbn [foldl]. destruct (decide (id d = i)) as [<-|Hne].
  - rewrite lookup_insert_eq, IH. by destruct (filter _ ds).
  - rewrite lookup_insert_ne, IH by done. by rewrite app_nil_r.
Qed.

Lemma groups_nil `{MapOrder} {D E} (id : D -> Z) (ds : list D) (f : Z * list D -> list E) :
  (forall i, f (i, []) = []) ->
  concat (map f (in_order (map_to_list (by_id id ds)))) = [] <-> forall i, f (i, with_id id ds i) = [].
Proof.
  intros Hnil. rewrite concat_map_nil. split.
  - intros Hall i. destruct (with_id id ds i) as [|d same] eqn:Es; [done|]. apply Hall.
    rewrite in_order_perm, elem_of_map_to_list, by_id_lookup. by rewrite Es.
  - intros Hall [i same] Hi. rewrite in_order_perm, elem_of_map_to_list, by_id_lookup in Hi.
    destruct (with_id id ds i) as [|d same'] eqn:Es; [done|]. simplify_eq. rewrite <- Es. apply Hall.
Qed.

Lemma apart_spec a b :
  Forall inhabited_interval a -> Forall inhabited_interval b -> declarationIntervalSetsOverlap a b = false <-> apart a b.
Proof.
  assert (Hall : Forall inhabited_interval [{| MinLayer := 0; MaxLayer := 0 |}]) by (repeat constructor).
  intros Ha Hb. unfold declarationIntervalSetsOverlap, apart, in_layer. rewrite <- not_true_iff_false, overlap_inhabited; [|by destruct a|by destruct b].
  split; [intros Hn l Hl; apply Hn; by exists l|intros Hn (l & Hl); by apply (Hn l)].
Qed.

Lemma disjointConstructorVariants_spec cs :
  Forall (fun c => Forall inhabited_interval (ct_Intervals c)) cs ->
  disjointConstructorVariants cs = true <-> ForallOrdPairs (fun c d => apart (ct_Intervals c) (ct_Intervals d)) cs.
Proof.
  induction 1 as [|c cs Hc Hcs IH]; cbn; [split; [constructor|done]|]. rewrite andb_true_iff, IH, forallb_forall, <- List.Forall_forall.
  split; [intros [Hh Ht]; constructor; [|done]|intros Hp; inversion Hp; subst; split; [|done]];
    (eapply Forall_impl; [eapply Forall_and; split; [eassumption|exact Hcs]|]); cbn; intros d [Hd Hi];
    [apply apart_spec; [done..|]; by apply negb_true_iff|apply negb_true_iff; by apply apart_spec].
Qed.

Lemma disjointFunctionVariants_spec fs :
  Forall (fun f => Forall inhabited_interval (fn_Intervals f)) fs ->
  disjointFunctionVariants fs = true <-> ForallOrdPairs (fun f g => serializerPrefixPair f g = true \/ apart (fn_Intervals f) (fn_Intervals g)) fs.
Proof.
  induction 1 as [|f fs Hf Hfs IH]; cbn; [split; [constructor|done]|]. rewrite andb_true_iff, IH, forallb_forall, <- List.Forall_forall.
  split; [intros [Hh Ht]; constructor; [|done]|intros Hp; inversion Hp; subst; split; [|done]];
    (eapply Forall_impl; [eapply Forall_and; split; [eassumption|exact Hfs]|]); cbn; intros g [Hg Hi]; revert Hg;
    rewrite orb_true_iff, negb_true_iff, apart_spec by done; tauto.
Qed.

Lemma with_id_Forall {D} (P : D -> Prop) (id : D -> Z) ds i : Forall P ds -> Forall P (with_id id ds i).
Proof. rewrite !Forall_forall. intros Hall d [_ Hd]%list_elem_of_filter. auto. Qed.

Lemma constructor_ids_spec `{MapOrder} s :
  Forall (fun c => Forall inhabited_interval (ct_Intervals c)) (sc_Constructors s) ->
  validateUniqueConstructorIDs s = [] <->
  forall id, let same := with_id ct_ID (sc_Constructors s) id in
    (length same <= 1)%nat \/ sc_IsLayered s = true /\ ForallOrdPairs (fun c d => apart (ct_Intervals c) (ct_Intervals d)) same.
Proof.
  intros Hiv. unfold validateUniqueConstructorIDs. rewrite groups_nil by done. apply forall_proper. intros id. cbn zeta.
  rewrite <- disjointConstructorVariants_spec by (by apply with_id_Forall). unfold len.
  destruct (with_id _ _ _) as [|c [|d same]]; cbn [length]; [split; [left; lia|done]..|].
  rewrite (proj2 (Z.ltb_lt _ _)) by lia. destruct (sc_IsLayered s), (disjointConstructorVariants _); cbn; naive_solver lia.
Qed.

Lemma function_ids_spec `{MapOrder} s :
  Forall (fun f => Forall inhabited_interval (fn_Intervals f)) (sc_Functions s) ->
  validateUniqueFunctionIDs s = [] <->
  forall id, let same := with_id fn_ID (sc_Functions s) id in
    (length same <= 1)%nat \/
    sc_IsLayered s = true /\ ForallOrdPairs (fun f g => serializerPrefixPair f g = true \/ apart (fn_Intervals f) (fn_Intervals g)) same \/
    exists f g, same = [f; g] /\ fn_IsHelper f <> fn_IsHelper g.
Proof.
  intros Hiv. unfold validateUniqueFunctionIDs. rewrite groups_nil by done. apply forall_proper. intros id. cbn zeta.
  rewrite <- disjointFunctionVariants_spec by (by apply with_id_Forall). unfold len.
  assert (Hh : forall fs, helper_pair fs = true <-> exists f g, fs = [f; g] /\ fn_IsHelper f <> fn_IsHelper g).
  { intros [|f [|g [|]]]; cbn; split; try done; try (intros (? & ? & ? & _); done).
    - intros Hb. exists f, g. split; [done|]. by destruct (fn_IsHelper f), (fn_IsHelper g).
    - intros (? & ? & [= <- <-] & Hne). by destruct (fn_IsHelper f), (fn_IsHelper g). }
  rewrite <- Hh. destruct (with_id _ _ _) as [|c [|d same]]; cbn [length]; [split; [left; lia|done]..|].
  rewrite (proj2 (Z.ltb_lt _ _)) by lia. destruct (sc_IsLayered s), (disjointFunctionVariants _), (helper_pair _); cbn; naive_solver lia.
Qed.

(** ** Type references *)

Lemma checkTypeReference_spec t defined context :
  checkTypeReference t defined context = [] <-> resolves_outside (fun name => name ∈ defined \/ name ∈ builtinTypes) t.
Proof.
  revert context. induction t as [t IH] using TypeRef_element_ind. intros context.
  assert (Hhead : forall (e : ValidationError), (if bool_decide (FullName t ∈ defined) || IsBuiltinType (FullName t) then [] else [e]) = [] <->
                  (FullName t ∈ defined \/ FullName t ∈ builtinTypes)).
  { intros e. unfold IsBuiltinType. repeat case_bool_decide; cbn [orb]; naive_solver. }
  destruct t as [n ns isv b g ga o fl bit tv vl].
  cbn [checkTypeReference resolves_outside tr_FlagBit tr_IsVector tr_Generic] in *.
  destruct bit as [bit|]; [rewrite Hhead; tauto|]. rewrite app_nil, Hhead.
  destruct isv; [destruct g as [g|]|]; [|tauto..]. by rewrite IH.
Qed.

Lemma resolves_outside_iff (P Q : bytes -> Prop) t : (forall n, P n <-> Q n) -> resolves_outside P t <-> resolves_outside Q t.
Proof.
  intros Hpq. induction t as [[n ns isv b g ga o fl bit tv vl] IH] using TypeRef_element_ind.
  cbn [resolves_outside tr_FlagBit tr_IsVector tr_Generic] in *. rewrite Hpq.
  destruct bit; [done|]. destruct isv; [|done]. destruct g as [g|]; [|done]. by rewrite IH.
Qed.

(** What the check lets through lacks nothing but the elements of conditional vectors. *)
Lemma resolves_parts known t : resolves known t <-> resolves_outside known t /\ conditional_elements_resolve known t.
Proof.
  induction t as [[n ns isv b g ga o fl bit tv vl] IH] using TypeRef_element_ind.
  cbn [resolves resolves_outside conditional_elements_resolve tr_FlagBit tr_IsVector tr_Generic] in *.
  destruct isv; [|destruct bit; tauto]. destruct g as [g|]; [|destruct bit; tauto]. destruct bit; [tauto|].
  specialize (IH g eq_refl). tauto.
Qed.

Lemma all_references_parts s :
  all_references resolves s <-> all_references resolves_outside s /\ all_references conditional_elements_resolve s.
Proof. unfold all_references. setoid_rewrite resolves_parts. naive_solver. Qed.

Lemma localTypes_spec `{MapOrder} s generics name :
  (name ∈ localTypes s generics \/ name ∈ builtinTypes) <-> known_type s generics name.
Proof. unfold localTypes, definedTypes, GetBuiltinTypes, known_type. rewrite !elem_of_union, !elem_of_list_to_set, in_order_perm. tauto. Qed.

Lemma check_declaration_spec `{MapOrder} kind name s generics result params :
  check_declaration kind name (localTypes s generics) result params = [] <->
  forall t, t ∈ result :: map pa_Type params -> resolves_outside (known_type s generics) t.
Proof.
  unfold check_declaration. rewrite app_nil, concat_map_nil, checkTypeReference_spec. setoid_rewrite checkTypeReference_spec.
  setoid_rewrite (resolves_outside_iff _ _ _ (localTypes_spec s generics)). setoid_rewrite elem_of_cons. setoid_rewrite list_elem_of_fmap.
  split; [|split; [auto|intros p Hp; eauto]]. intros [Hr Hp] t [->|(p & -> & Hin)]; auto.
Qed.

(** ** Flags and names *)

Lemma validateFlagBits_spec scope params :
  validateFlagBits scope params = [] <-> forall p, p ∈ params -> pa_FlagBit p <> None -> exists q, q ∈ params /\ is_flags q = true.
Proof.
  unfold validateFlagBits. rewrite concat_map_nil. apply forall_proper. intros p.
  assert (Hex : existsb is_flags params = true <-> exists q, q ∈ params /\ is_flags q = true).
  { rewrite existsb_exists. by setoid_rewrite list_elem_of_In. }
  rewrite <- Hex. destruct (pa_FlagBit p), (existsb _ _); naive_solver.
Qed.

Lemma split_parts_spec current name :
  split_parts current name = filter (fun p => p <> []) (match Split x2e name with p :: ps => (current ++ p) :: ps | [] => [current] end).
Proof.
  revert current. induction name as [|c name IH]; intros current; cbn -[filter].
  - rewrite app_nil_r. by destruct current.
  - destruct (bool_decide (c = x2e)).
    + rewrite app_nil_r, filter_cons. destruct current; cbn -[filter]; rewrite IH; by destruct (Split x2e name).
    + rewrite IH. destruct (Split x2e name); by rewrite <- ?app_assoc.
Qed.

Lemma splitNamespace_spec name : splitNamespace name = filter (fun p => p <> []) (Split x2e name).
Proof. unfold splitNamespace. rewrite split_parts_spec. destruct (Split x2e name) eqn:E; [|done]. destruct name as [|c name]; cbn in E; [done|]. destruct (bool_decide _); [done|]. by destruct (Split x2e name). Qed.

Lemma check_parts_spec parts e : check_parts parts e = [] <-> forall part, part ∈ parts -> validIdent part = true.
Proof.
  unfold check_parts. transitivity (forallb validIdent parts = true); [by destruct (forallb _ _)|].
  rewrite forallb_forall. by setoid_rewrite list_elem_of_In.
Qed.

(** The intervals of every declaration are ranges of layers. *)
Definition interval_sane (s : Schema) : Prop :=
  Forall (fun c => Forall inhabited_interval (ct_Intervals c)) (sc_Constructors s) /\
  Forall (fun f => Forall inhabited_interval (fn_Intervals f)) (sc_Functions s).

Lemma type_resolution_spec `{MapOrder} s : validateTypeResolution s = [] <-> all_references resolves_outside s.
Proof.
  unfold validateTypeResolution, all_references. rewrite app_nil, !concat_map_nil. setoid_rewrite check_declaration_spec. firstorder.
Qed.

Lemma flag_consistency_spec s :
  validateFlagConsistency s = [] <->
  forall ps p, ps ∈ map ct_Params (sc_Constructors s) ++ map fn_Params (sc_Functions s) -> p ∈ ps -> pa_FlagBit p <> None ->
    exists q, q ∈ ps /\ is_flags q = true.
Proof.
  unfold validateFlagConsistency, validateConstructorFlags, validateFunctionFlags. rewrite app_nil, !concat_map_nil.
  setoid_rewrite validateFlagBits_spec. setoid_rewrite elem_of_app. setoid_rewrite list_elem_of_fmap. split.
  - intros [Hc Hf] ps p [(c & -> & Hin)|(f & -> & Hin)]; [by apply Hc|by apply Hf].
  - intros Hall. split; intros d Hd p; apply Hall; eauto.
Qed.

Lemma namespace_validity_spec s :
  validateNamespaceValidity s = [] <->
  (forall t part, t ∈ sc_Types s -> td_Name t <> [] -> part ∈ Split x2e (td_Name t) -> validIdent part = true) /\
  (forall name part, name ∈ map ct_Name (sc_Constructors s) ++ map fn_Name (sc_Functions s) -> part ∈ Split x2e name -> part <> [] -> validIdent part = true).
Proof.
  unfold validateNamespaceValidity. rewrite !app_nil, !concat_map_nil. setoid_rewrite check_parts_spec.
  setoid_rewrite splitNamespace_spec. setoid_rewrite list_elem_of_filter. setoid_rewrite elem_of_app. setoid_rewrite list_elem_of_fmap.
  assert (Ht : forall t, (match td_Name t with [] => [] | name => check_parts (Split x2e name) (InvalidTypeName name) end = [] <->
                         (td_Name t <> [] -> forall part, part ∈ Split x2e (td_Name t) -> validIdent part = true))).
  { intros t. destruct (td_Name t); [naive_solver|]. rewrite check_parts_spec. naive_solver. }
  setoid_rewrite Ht. split.
  - intros (Htn & Hc & Hf). split; [naive_solver|]. intros name part [(c & -> & Hin)|(f & -> & Hin)] Hp Hne; eauto.
  - intros [Htn Hn]. split_and!; [naive_solver|..]; intros d Hd part [Hne Hp]; eapply Hn; eauto.
Qed.

(** C36. A schema, whose intervals are ranges, is well formed when declarations with one id
    belong to a layered schema and have no layer in common (serializer prefixes and a single
    helper pair apart), every name of every type reference is a built-in, declared or generic
    type, conditional parameters have a flags word and the parts of names (the empty ones of
    constructors and functions apart) are identifiers. Validating it reports nothing exactly
    when it is well formed but for the elements of conditional vectors, [flags.N?Vector<T>],
    which the validator never resolves; together with those elements that is well-formedness. *)
Theorem validation_decides_well_formed `{MapOrder} (s : Schema) :
  interval_sane s ->
  (ValidateSchema s = [] <-> well_declared s /\ all_references resolves_outside s) /\
  (well_formed s <-> ValidateSchema s = [] /\ all_references conditional_elements_resolve s).
Proof.
  intros [Hc Hf].
  assert (Hv : ValidateSchema s = [] <-> well_declared s /\ all_references resolves_outside s).
  { unfold ValidateSchema. rewrite !app_nil, constructor_ids_spec, function_ids_spec by done.
    rewrite type_resolution_spec, flag_consistency_spec, namespace_validity_spec.
    split; [intros (? & ? & ? & ? & [? ?]); split; [by constructor|done]|intros [[] ?]; by split_and!]. }
  split; [exact Hv|]. unfold well_formed. rewrite Hv, all_references_parts. tauto.
Qed.

Definition valid_sample : Schema :=
  default (NewSchema 0) $ text_schema 1 "box#1 flags:# items:flags.0?Vector<int> = ns.Box; nil#2 = ns.Box;
---functions---
get#3 {X:Type} query:!X = ns.Box;".

Lemma sample_references :
  all_references conditional_elements_resolve valid_sample.
Proof.
  unfold valid_sample. split; intros d t Hd Ht; vm_compute in Hd;
    repeat (apply elem_of_cons in Hd as [->|Hd]; [|]); try (by apply elem_of_nil in Hd);
    vm_compute in Ht; repeat (apply elem_of_cons in Ht as [->|Ht]; [|]); try (by apply elem_of_nil in Ht); try exact I.
  cbn. split; [|exact I]. left. apply (bool_decide_unpack _). by vm_compute.
Qed.

Lemma validation_decides_well_formed_witness :
  length (sc_Constructors valid_sample) = 2%nat /\ well_formed valid_sample /\
  ~ well_formed (default (NewSchema 0) $ text_schema 1 "a#1 = T; b#1 = T;").
Proof.
  pose (order := insertion_order). split; [by vm_compute|]. split.
  - apply (validation_decides_well_formed (H := order)); [split; vm_compute; repeat constructor|].
    split; [by vm_compute|exact sample_references].
  - assert (Hs : interval_sane (default (NewSchema 0) $ text_schema 1 "a#1 = T; b#1 = T;")) by (split; vm_compute; repeat constructor).
    rewrite (proj2 (validation_decides_well_formed (H := order) _ Hs)). intros [Hv _]. by vm_compute in Hv.
Defined.

(** A schema that is accepted although a type it refers to is not declared anywhere. *)
Definition conditional_sample : Schema :=
  default (NewSchema 0) $ text_schema 1 "box#1 flags:# items:flags.0?Vector<Missing> = Box;".

Lemma conditional_vector_unchecked :
  ValidateSchema (H := insertion_order) conditional_sample = [] /\ ~ well_formed conditional_sample /\
  ValidateSchema (H := insertion_order) (default (NewSchema 0) $ text_schema 1 "box#1 flags:# items:Vector<Missing> = Box;") <> [].
Proof.
  split; [by vm_compute|]. split; [|by vm_compute]. intros [_ [Hc _]].
  destruct (sc_Constructors conditional_sample) as [|c cs] eqn:Ec; [by vm_compute in Ec|].
  destruct (ct_Params c) as [|p0 [|p ps]] eqn:Ep; [vm_compute in Ec; by simplify_eq..|].
  assert (Hr : resolves (known_type conditional_sample (ct_GenericParams c)) (pa_Type p)).
  { apply Hc; [by left|]. rewrite Ep. cbn [map]. do 2 right. by left. }
  vm_compute in Ec. simplify_eq. cbn in Ep. simplify_eq. destruct Hr as [_ [Hk _]].
  revert Hk. unfold known_type. rewrite <- !elem_of_app. apply (bool_decide_unpack _). by vm_compute.
Qed.

(** A validated schema that is not layered finds every constructor by its id. *)
Lemma validated_lookup s c :
  well_formed s -> sc_IsLayered s = false -> c ∈ sc_Constructors s -> FindConstructor (ct_ID c) s = Some c.
Proof.
  intros Hw Hl Hc. destruct (wf_constructor_ids _ (proj1 Hw) (ct_ID c)) as [Hone|[? _]]; [|congruence].
  assert (Hin : c ∈ with_id ct_ID (sc_Constructors s) (ct_ID c)) by (unfold with_id; by rewrite list_elem_of_filter).
  unfold FindConstructor, first_such. destruct (list_find _ _) as [[i d]|] eqn:El.
  - apply list_find_Some in El as (Hi & Hd & _). apply Is_true_true, Z.eqb_eq in Hd. cbn. f_equal.
    assert (Hind : d ∈ with_id ct_ID (sc_Constructors s) (ct_ID c)) by (unfold with_id; rewrite list_elem_of_filter; split; [done|by eapply list_elem_of_lookup_2]).
    destruct (with_id _ _ _) as [|x [|]]; cbn in *; [by apply elem_of_nil in Hin|set_solver|lia].
  - apply list_find_None in El. rewrite Forall_forall in El. exfalso. apply (El c Hc). apply Is_true_true, Z.eqb_refl.
Qed.
