(* ===== verification/Directives.v ===== *)
(** The directives of schema files (ParseLayerDifference of internal/parser/layers.go,
    ParseBaselineSchema of baseline.go): comments that remove declarations in a difference,
    and comments that mark functions of a base schema as historical.

    Errors are constructors; the source's name in their texts is left out. *)

From stdpp Require Import base numbers list gmap strings sorting.
From S2P Require Import Prelude SchemaAst Lexer SchemaParser SchemaLayers SchemaValidate.
Open Scope Z_scope.

Inductive directive_error :=
| DifferenceLayerNotPositive | InvalidDirective (line : bytes) | SchemaNotParsed (e : parse_error) | DifferenceInvalid (e : layer_error)
| DuplicateVariantDirective | InvalidVariantLayer | DuplicateAcceptDirective
| UnboundedInterval | InvalidMinimum | InvalidMaximum | OverlappingIntervals
| DirectiveNotAdjacent | DirectiveWithoutFunction | InvalidFunctionID | DirectiveAtEnd | OccurrenceNotParsed
| VariantWithoutCanonical (name : bytes) | VariantNotAccepted (name : bytes) | DuplicateVariantLayer (name : bytes) | CanonicalNotUnique (name : bytes).
Abbreviation DR := (result directive_error).
Definition demand (b : bool) (e : directive_error) : DR unit := if b then mret tt else Err e.

(** * Strings *)

(** The UTF-8 encodings of the white space that [strings.TrimSpace] removes. *)
Definition spaces : list bytes :=
  [[x09]; [x0a]; [x0b]; [x0c]; [x0d]; [x20]; [xc2; x85]; [xc2; xa0]; [xe1; x9a; x80]; [xe2; x80; x80]; [xe2; x80; x81]; [xe2; x80; x82];
   [xe2; x80; x83]; [xe2; x80; x84]; [xe2; x80; x85]; [xe2; x80; x86]; [xe2; x80; x87]; [xe2; x80; x88]; [xe2; x80; x89]; [xe2; x80; x8a];
   [xe2; x80; xa8]; [xe2; x80; xa9]; [xe2; x80; xaf]; [xe2; x81; x9f]; [xe3; x80; x80]].

Fixpoint trim_left (fuel : nat) (s : bytes) : bytes :=
  match fuel with
  | O => s
  | S fuel => match list_find (fun e => HasPrefix s e) spaces with Some (_, e) => trim_left fuel (drop (length e) s) | None => s end
  end.
Fixpoint trim_right (fuel : nat) (s : bytes) : bytes :=
  match fuel with
  | O => s
  | S fuel => match list_find (fun e => HasSuffix s e) spaces with Some (_, e) => trim_right fuel (take (length s - length e) s) | None => s end
  end.
Definition TrimSpace (s : bytes) : bytes := let s := trim_left (length s) s in trim_right (length s) s.

(** [line[:strings.Index(line, "//")]], the line when there is no comment *)
Fixpoint cut_comment (line : bytes) : bytes :=
  match line with
  | [] => []
  | c :: rest => if HasPrefix line (str "//") then [] else c :: cut_comment rest
  end.

(** The pattern of a dotted name. *)
Definition dotted_name (name : bytes) : bool := forallb validIdent (Split x2e name).

(** * Differences *)

(** layerDirectivePattern: whether a constructor is removed, and its name *)
Definition layer_directive (line : bytes) : option (bool * bytes) :=
  let constructor_ := str "// @tlrpc remove constructor " in
  let function_ := str "// @tlrpc remove function " in
  if HasPrefix line constructor_ && dotted_name (TrimPrefix line constructor_) then Some (true, TrimPrefix line constructor_)
  else if HasPrefix line function_ && dotted_name (TrimPrefix line function_) then Some (false, TrimPrefix line function_)
  else None.

(** The loop over the lines: the removals of constructors and functions and the lines kept. *)
Fixpoint difference_lines (constructors functions kept : list bytes) (lines : list bytes) : DR (list bytes * list bytes * list bytes) :=
  match lines with
  | [] => mret (constructors, functions, kept)
  | line :: lines =>
      let line := TrimSuffix line [x0d] in
      let trimmed := TrimSpace line in
      let directive := layer_directive trimmed in
      _ ← demand (negb (HasPrefix trimmed (str "// @tlrpc") && match directive with None => true | Some _ => false end)) (InvalidDirective trimmed);
      let constructors := match directive with Some (true, name) => constructors ++ [name] | _ => constructors end in
      let functions := match directive with Some (false, name) => functions ++ [name] | _ => functions end in
      let line := cut_comment line in
      let kept := if bytes_eqb (TrimSpace line) [] then kept else kept ++ [line] in
      difference_lines constructors functions kept lines
  end.

Definition ParseLayerDifference (input : bytes) (layer : Z) (source : bytes) : DR LayerDifference :=
  _ ← demand (0 <? layer) DifferenceLayerNotPositive;
  r ← difference_lines [] [] [] (Split x0a input);
  let '(constructors, functions, kept) := r in
  match ParseAt layer (Join x0a kept) with
  | Err e => Err (SchemaNotParsed e)
  | Ok schema =>
      let difference := {| ld_Layer := layer; ld_Source := source; ld_Schema := Some schema; ld_RemoveConstructors := constructors; ld_RemoveFunctions := functions |} in
      match validateLayerDifference difference with
      | Err e => Err (DifferenceInvalid e)
      | Ok _ => mret difference
      end
  end.

(** * Accepted layers *)

(** [strconv.Atoi] with a sign *)
Definition signed_Atoi (s : bytes) : option Z :=
  match s with
  | c :: rest =>
      if bool_decide (c = x2b) then Atoi rest
      else if bool_decide (c = x2d) then (if len rest =? 0 then None else v ← number 10 rest; if v <=? 2 ^ 63 then Some (- v) else None)
      else Atoi s
  | [] => None
  end.

Definition parse_interval (part : bytes) : DR LayerInterval :=
  match Split x2d (TrimSpace part) with
  | [lo; hi] =>
      match signed_Atoi lo with
      | None => Err InvalidMinimum
      | Some minLayer =>
          _ ← demand (0 <? minLayer) InvalidMinimum;
          match signed_Atoi hi with
          | None => Err InvalidMaximum
          | Some maxLayer => _ ← demand (minLayer <=? maxLayer) InvalidMaximum; mret {| MinLayer := minLayer; MaxLayer := maxLayer |}
          end
      end
  | _ => Err UnboundedInterval
  end.

(** The loop over the sorted intervals: neighbours are merged, overlaps refused. *)
Fixpoint join_intervals (prev : LayerInterval) (rest : list LayerInterval) : DR (list LayerInterval) :=
  match rest with
  | [] => mret [prev]
  | i :: rest =>
      _ ← demand (MaxLayer prev <? MinLayer i) OverlappingIntervals;
      if MinLayer i =? MaxLayer prev + 1 then join_intervals {| MinLayer := MinLayer prev; MaxLayer := MaxLayer i |} rest
      else ivs ← join_intervals i rest; mret (prev :: ivs)
  end.

Definition parseLayerIntervals (value : bytes) : DR (list LayerInterval) :=
  ivs ← mapM parse_interval (Split x2c value);
  match merge_sort starts_before ivs with
  | [] => mret []
  | i :: rest => join_intervals i rest
  end.

(** * Base schemas *)

Record baselineAnnotation := { ba_name : bytes; ba_id : Z; ba_occurrence : nat; ba_variant : Z; ba_acceptance : option (list LayerInterval) }.

(** baselineVariantDirectivePattern and baselineAcceptDirectivePattern *)
Definition variant_directive (line : bytes) : option bytes :=
  let prefix := str "// @tlrpc variant-layer " in
  let number := TrimPrefix line prefix in
  if HasPrefix line prefix then match number with c :: rest => if between 49 57 c && forallb IsDigit rest then Some number else None | [] => None end else None.
Definition accept_directive (line : bytes) : option bytes :=
  let prefix := str "// @tlrpc accept-layers " in
  if HasPrefix line prefix then match TrimPrefix line prefix with [] => None | value => Some value end else None.

(** baselineDeclarationPattern: a dotted name, "#" and a run of hex digits that no other word character follows *)
Definition word_char (c : byte) : bool := ident_rest c.
Definition baseline_declaration (line : bytes) : option (bytes * bytes) :=
  let '(name, rest) := span (fun c => negb (bool_decide (c = x23))) line in
  match rest with
  | _ :: rest =>
      let '(hex, after) := span isHexDigit rest in
      if dotted_name name && negb (bytes_eqb hex []) && negb (match after with c :: _ => word_char c | [] => false end) then Some (name, hex) else None
  | [] => None
  end.

Record BaselineState := {
  bs_annotations : list baselineAnnotation;
  bs_pendingVariant : Z;
  bs_pendingAcceptance : option (list LayerInterval);
  bs_inFunctions : bool;
  bs_occurrences : gmap (bytes * Z) nat;
  bs_lines : list bytes
}.

Definition baseline_start : BaselineState :=
  {| bs_annotations := []; bs_pendingVariant := 0; bs_pendingAcceptance := None; bs_inFunctions := false; bs_occurrences := ∅; bs_lines := [] |}.
Definition no_pending (st : BaselineState) : bool := (bs_pendingVariant st =? 0) && match bs_pendingAcceptance st with None => true | Some _ => false end.

Definition set_pending (variant : Z) (acceptance : option (list LayerInterval)) (st : BaselineState) : BaselineState :=
  {| bs_annotations := bs_annotations st; bs_pendingVariant := variant; bs_pendingAcceptance := acceptance; bs_inFunctions := bs_inFunctions st;
     bs_occurrences := bs_occurrences st; bs_lines := bs_lines st |}.
Definition add_line (line : bytes) (st : BaselineState) : BaselineState :=
  {| bs_annotations := bs_annotations st; bs_pendingVariant := bs_pendingVariant st; bs_pendingAcceptance := bs_pendingAcceptance st;
     bs_inFunctions := bs_inFunctions st; bs_occurrences := bs_occurrences st; bs_lines := bs_lines st ++ [line] |}.

(** The pending directives become an annotation of the declaration on this line. *)
Definition annotate_line (line : bytes) (st : BaselineState) : DR BaselineState :=
  if no_pending st then mret st
  else
    _ ← demand (negb (bytes_eqb line [] || HasPrefix line (str "//") || HasPrefix line (str "---") || negb (bs_inFunctions st))) DirectiveNotAdjacent;
    match baseline_declaration line with
    | None => Err DirectiveWithoutFunction
    | Some (name, hex) =>
        match ParseUint16_32 hex with
        | None => Err InvalidFunctionID
        | Some id =>
            let annotation := {| ba_name := name; ba_id := id; ba_occurrence := default O (bs_occurrences st !! (name, id));
                                 ba_variant := bs_pendingVariant st; ba_acceptance := bs_pendingAcceptance st |} in
            mret {| bs_annotations := bs_annotations st ++ [annotation]; bs_pendingVariant := 0; bs_pendingAcceptance := None;
                    bs_inFunctions := bs_inFunctions st; bs_occurrences := bs_occurrences st; bs_lines := bs_lines st |}
        end
    end.

(** Section markers and the declarations counted in the functions section. *)
Definition count_line (line : bytes) (st : BaselineState) : BaselineState :=
  let inFunctions := if bytes_eqb line (str "---functions---") then true else if bytes_eqb line (str "---types---") then false else bs_inFunctions st in
  let occurrences :=
    if inFunctions then
      match baseline_declaration line with
      | Some (name, hex) => match ParseUint16_32 hex with Some id => <[(name, id) := S (default O (bs_occurrences st !! (name, id)))]> (bs_occurrences st) | None => bs_occurrences st end
      | None => bs_occurrences st
      end
    else bs_occurrences st in
  {| bs_annotations := bs_annotations st; bs_pendingVariant := bs_pendingVariant st; bs_pendingAcceptance := bs_pendingAcceptance st;
     bs_inFunctions := inFunctions; bs_occurrences := occurrences; bs_lines := bs_lines st |}.

Definition baseline_line (layer : Z) (rawLine : bytes) (st : BaselineState) : DR BaselineState :=
  let line := TrimSpace (TrimSuffix rawLine [x0d]) in
  match variant_directive line with
  | Some number =>
      _ ← demand (bs_pendingVariant st =? 0) DuplicateVariantDirective;
      match Atoi number with
      | None => Err InvalidVariantLayer
      | Some value =>
          _ ← demand (negb ((layer <=? 0) || (layer <? value))) InvalidVariantLayer;
          mret (add_line [] (set_pending value (bs_pendingAcceptance st) st))
      end
  | None =>
      match accept_directive line with
      | Some value =>
          _ ← demand (match bs_pendingAcceptance st with None => true | Some _ => false end) DuplicateAcceptDirective;
          intervals ← parseLayerIntervals value;
          mret (add_line [] (set_pending (bs_pendingVariant st) (Some intervals) st))
      | None =>
          _ ← demand (negb (HasPrefix line (str "// @tlrpc"))) (InvalidDirective line);
          st ← annotate_line line st;
          if HasPrefix line (str "//") then mret (add_line [] st)
          else mret (count_line line (add_line (cut_comment rawLine) st))
      end
  end.

Fixpoint baseline_lines (layer : Z) (lines : list bytes) (st : BaselineState) : DR BaselineState :=
  match lines with
  | [] => mret st
  | line :: lines => st ← baseline_line layer line st; baseline_lines layer lines st
  end.

Definition annotated (a : baselineAnnotation) (f : FuncDecl) : bool := bytes_eqb (fn_Name f) (ba_name a) && (fn_ID f =? ba_id a).

Definition set_annotation (a : baselineAnnotation) (f : FuncDecl) : FuncDecl :=
  {| fn_Name := fn_Name f; fn_ID := fn_ID f; fn_GenericParams := fn_GenericParams f; fn_Params := fn_Params f; fn_ResultType := fn_ResultType f;
     fn_IsTemplate := fn_IsTemplate f; fn_IsHelper := fn_IsHelper f; fn_RequestVariantLayer := ba_variant a; fn_VariantLayer := ba_variant a;
     fn_Intervals := fn_Intervals f; fn_RequestIntervals := fn_RequestIntervals f; fn_AcceptIntervals := default [] (ba_acceptance a) |}.

(** The annotation of its occurrence among the functions parsed. *)
Fixpoint apply_annotation (a : baselineAnnotation) (occurrence : nat) (fs : list FuncDecl) : DR (list FuncDecl) :=
  match fs with
  | [] => Err OccurrenceNotParsed
  | f :: fs =>
      if annotated a f then
        if (occurrence =? ba_occurrence a)%nat then mret (set_annotation a f :: fs)
        else fs ← apply_annotation a (S occurrence) fs; mret (f :: fs)
      else fs ← apply_annotation a occurrence fs; mret (f :: fs)
  end.

Fixpoint apply_annotations (annotations : list baselineAnnotation) (fs : list FuncDecl) : DR (list FuncDecl) :=
  match annotations with
  | [] => mret fs
  | a :: annotations => fs ← apply_annotation a O fs; apply_annotations annotations fs
  end.

(** The variants of one name: all but one are historical, with layers they accept. *)
Fixpoint check_historical (name : bytes) (canonical : nat) (layers : list Z) (variants : list FuncDecl) : DR unit :=
  match variants with
  | [] => demand (canonical =? 1)%nat (CanonicalNotUnique name)
  | f :: variants =>
      if fn_VariantLayer f =? 0 then check_historical name (S canonical) layers variants
      else
        _ ← demand (negb (match fn_AcceptIntervals f with [] => true | _ => false end)) (VariantNotAccepted name);
        _ ← demand (negb (bool_decide (fn_VariantLayer f ∈ layers))) (DuplicateVariantLayer name);
        check_historical name canonical (fn_VariantLayer f :: layers) variants
  end.

Definition check_name (name : bytes) (variants : list FuncDecl) : DR unit :=
  match variants with
  | [f] => demand (fn_VariantLayer f =? 0) (VariantWithoutCanonical name)
  | _ => check_historical name O [] variants
  end.

Fixpoint every {A} (f : A -> DR unit) (l : list A) : DR unit := match l with [] => mret tt | x :: l => _ ← f x; every f l end.

Definition validateBaselineFunctionVariants `{MapOrder} (fs : list FuncDecl) : DR unit :=
  every (fun name => check_name name (named name fs)) (in_order (remove_dups (map fn_Name fs))).

Definition ParseBaselineSchema `{MapOrder} (input : bytes) (layer : Z) : DR Schema :=
  st ← baseline_lines layer (Split x0a input) baseline_start;
  _ ← demand (no_pending st) DirectiveAtEnd;
  match ParseAt layer (Join x0a (bs_lines st)) with
  | Err e => Err (SchemaNotParsed e)
  | Ok schema =>
      fs ← apply_annotations (bs_annotations st) (sc_Functions schema);
      _ ← validateBaselineFunctionVariants fs;
      mret (with_Functions fs schema)
  end.

(** * Accepted layers are sets of layers *)

Lemma DR_bind_Ok {A B} (m : DR A) (f : A -> DR B) b : (m ≫= f) = Ok b -> exists a, m = Ok a /\ f a = Ok b.
Proof. apply result_bind_Ok. Qed.

Lemma demand_Ok b e u : demand b e = Ok u -> b = true.
Proof. by destruct b. Qed.

Ltac dr_inv :=
  repeat match goal with
  | H : (_ ≫= _) = Ok _ |- _ => apply DR_bind_Ok in H as (? & ? & H)
  | H : demand _ _ = Ok _ |- _ => apply demand_Ok in H
  | H : mret _ = Ok _ |- _ => injection H as <-
  end.

(** An interval with both bounds. *)
Definition bounded (i : LayerInterval) : Prop := 0 < MinLayer i <= MaxLayer i.

Lemma parse_interval_bounded part i : parse_interval part = Ok i -> bounded i.
Proof.
  unfold parse_interval. destruct (Split _ _) as [|lo [|hi [|]]]; try done. destruct (signed_Atoi lo) as [minLayer|]; [|done]. intros H. dr_inv.
  destruct (signed_Atoi hi) as [maxLayer|]; [|done]. dr_inv. unfold bounded. cbn. lia.
Qed.

Lemma join_intervals_spec prev rest ivs :
  bounded prev -> Forall bounded rest -> join_intervals prev rest = Ok ivs ->
  Forall bounded ivs /\ separated ivs /\ (exists i ivs', ivs = i :: ivs' /\ MinLayer i = MinLayer prev) /\
  forall l, intervalsSupport ivs l = true <-> intervalsSupport (prev :: rest) l = true.
Proof.
  revert prev ivs. induction rest as [|i rest IH]; intros prev ivs Hp Hr H; cbn [join_intervals] in H.
  - dr_inv. split_and!; [by constructor|done|by eexists _, _|done].
  - inversion_clear Hr as [|? ? Hi Hrest]. dr_inv. destruct (Z.eqb_spec (MinLayer i) (MaxLayer prev + 1)) as [Heq|Hne].
    + apply IH in H as (Hb & Hs & (j & ivs' & -> & Hj) & Hsup); [|unfold bounded in *; cbn; lia|done].
      split_and!; [done|done|by eexists _, _|]. intros l. rewrite Hsup, !support_cons. unfold covers, bounded in *. cbn.
      destruct (decide (intervalsSupport rest l = true)); intuition lia.
    + dr_inv. match goal with H : join_intervals _ _ = Ok _ |- _ => apply IH in H as (Hb & Hs & (j & ivs' & -> & Hj) & Hsup); [|done..] end.
      split_and!; [by constructor| |by eexists _, _|].
      * cbn [separated]. unfold bounded in Hp. split_and!; [lia|lia|done].
      * intros l. rewrite support_cons, Hsup, !support_cons. tauto.
Qed.

Lemma mapM_DR {A B} (f : A -> DR B) l k : mapM f l = Ok k -> Forall2 (fun x y => f x = Ok y) l k.
Proof.
  revert k. induction l as [|x l IH]; intros k; cbn; [intros [= <-]; constructor|].
  intros (y & Hy & (k' & Hk & [= <-])%DR_bind_Ok)%DR_bind_Ok. constructor; auto.
Qed.

(** The intervals of a directive: bounded, in order and apart, and they hold exactly the
    layers of the intervals written, which do not overlap. *)
Lemma parseLayerIntervals_spec value ivs :
  parseLayerIntervals value = Ok ivs ->
  ivs <> [] /\ Forall bounded ivs /\ separated ivs /\
  exists written, Forall2 (fun part i => parse_interval part = Ok i) (Split x2c value) written /\
    forall l, intervalsSupport ivs l = true <-> intervalsSupport written l = true.
Proof.
  unfold parseLayerIntervals. intros (written & Hw%mapM_DR & H)%DR_bind_Ok. pose proof (merge_sort_Permutation starts_before written) as Hperm.
  assert (Hb : Forall bounded written).
  { clear - Hw. induction Hw as [|part i parts written Hi _ IH]; constructor; [by eapply parse_interval_bounded|done]. }
  destruct (merge_sort starts_before written) as [|i rest].
  - apply Permutation_nil_l in Hperm. subst. inversion Hw as [Hn|]. exfalso. destruct value as [|c value]; [done|]. cbn in Hn.
    destruct (bool_decide _); [done|]. by destruct (Split x2c value).
  - rewrite <- Hperm in Hb. inversion_clear Hb as [|? ? Hi Hrest]. apply join_intervals_spec in H as (H1 & H2 & (j & ivs' & -> & _) & H3); [|done..].
    split_and!; [done|done|done|]. exists written. split; [done|]. intros l. rewrite H3. by apply support_perm.
Qed.

(** * What parsed schemas hold *)

(** A function as it is parsed: current, without layers. *)
Definition plain_function (f : FuncDecl) : Prop := fn_VariantLayer f = 0 /\ fn_AcceptIntervals f = [].

Lemma parseFunction_plain fuel p f p' : parseFunction fuel p = (Ok f, p') -> plain_function f.
Proof. unfold parseFunction. intros H. st_inv. by split. Qed.

Lemma parseFunctions_plain fuel s p s' p' : Forall plain_function (sc_Functions s) -> parseFunctions fuel s p = (Ok s', p') -> Forall plain_function (sc_Functions s').
Proof.
  revert s p. induction fuel as [|fuel IH]; intros s p Hs H; [done|]. cbn [parseFunctions] in H. st_inv.
  destruct (bool_decide _); st_inv; [done|]. eapply IH; [|eassumption]. cbn. apply Forall_app. split; [done|]. apply Forall_singleton.
  by eapply parseFunction_plain.
Qed.

Lemma parseConstructors_functions fuel s p s' p' : parseConstructors fuel s p = (Ok s', p') -> sc_Functions s' = sc_Functions s.
Proof.
  revert s p. induction fuel as [|fuel IH]; intros s p H; [done|]. cbn [parseConstructors] in H. st_inv.
  destruct (bool_decide _); st_inv; [done|]. destruct (bool_decide _); st_inv; [|done]. by match goal with H : parseConstructors _ _ _ = _ |- _ => apply IH in H end.
Qed.

Lemma parseSections_plain fuel s p s' p' : Forall plain_function (sc_Functions s) -> parseSections fuel s p = (Ok s', p') -> Forall plain_function (sc_Functions s').
Proof.
  revert s p. induction fuel as [|fuel IH]; intros s p Hs H; [done|]. cbn [parseSections] in H. st_inv.
  destruct (bool_decide (_ = TokenEOF)); st_inv; [done|]. eapply IH; [|eassumption].
  destruct (bool_decide _); [unfold parseTypesSection in *; st_inv; by erewrite parseConstructors_functions|].
  destruct (bool_decide _); [unfold parseFunctionsSection in *; st_inv; by eapply parseFunctions_plain|]. by erewrite parseConstructors_functions.
Qed.

Lemma parsed_functions_plain layer input s : ParseAt layer input = Ok s -> Forall plain_function (sc_Functions s).
Proof.
  unfold ParseAt. destruct (ParseWithLayer _ _ _) as [r p] eqn:E. cbn. intros ->. unfold ParseWithLayer in E. st_inv.
  cbn. apply Forall_map. match goal with H : parseSections _ _ _ = _ |- _ => apply parseSections_plain in H; [|constructor] end.
  eapply Forall_impl; [eassumption|]. intros f Hf. cbn. by destruct (is_prefix_helper _ _).
Qed.

(** Differences parsed from text declare current functions only. *)
Lemma parsed_difference_canonical input layer source d :
  ParseLayerDifference input layer source = Ok d -> canonical d /\ ld_Layer d = layer /\ 0 < layer /\ validateLayerDifference d = Ok tt.
Proof.
  unfold ParseLayerDifference. intros H. dr_inv. destruct x0 as [[constructors functions] kept].
  destruct (ParseAt layer _) as [schema|] eqn:Ep; [|done]. destruct (validateLayerDifference _) as [[]|] eqn:Ev; [|done]. dr_inv.
  split_and!; [|done|lia|done]. unfold canonical. cbn. eapply Forall_impl; [by eapply parsed_functions_plain|]. by intros f [Hf _].
Qed.

(** * What annotated base schemas hold *)

Definition acceptance_ok (ivs : list LayerInterval) : Prop := ivs <> [] /\ Forall bounded ivs /\ separated ivs.
Definition annotation_ok (layer variant : Z) (acceptance : option (list LayerInterval)) : Prop :=
  (variant <> 0 -> variant <= layer) /\ forall ivs, acceptance = Some ivs -> acceptance_ok ivs.

Definition baseline_ok (layer : Z) (st : BaselineState) : Prop :=
  annotation_ok layer (bs_pendingVariant st) (bs_pendingAcceptance st) /\
  Forall (fun a => annotation_ok layer (ba_variant a) (ba_acceptance a)) (bs_annotations st).

Lemma annotate_line_ok layer line st st' : baseline_ok layer st -> annotate_line line st = Ok st' -> baseline_ok layer st'.
Proof.
  intros [Hp Ha]. unfold annotate_line. destruct (no_pending st); [intros [= <-]; by split|]. intros H. dr_inv.
  destruct (baseline_declaration line) as [[name hex]|]; [|done]. destruct (ParseUint16_32 hex) as [id|]; [|done]. dr_inv.
  split; cbn; [by split|]. apply Forall_app. split; [done|]. by apply Forall_singleton.
Qed.

Lemma baseline_line_ok layer line st st' : baseline_ok layer st -> baseline_line layer line st = Ok st' -> baseline_ok layer st'.
Proof.
  intros Hok H. unfold baseline_line in H. destruct (variant_directive _) as [number|].
  - dr_inv. destruct (Atoi number) as [value|]; [|done]. dr_inv. destruct Hok as [[_ Hacc] Ha]. split; [split; [cbn; lia|exact Hacc]|exact Ha].
  - destruct (accept_directive _) as [value|].
    + dr_inv. destruct Hok as [[Hv _] Ha]. split; [split; [exact Hv|]|exact Ha]. cbn. intros ivs [= <-].
      match goal with E : parseLayerIntervals _ = Ok _ |- _ => by apply parseLayerIntervals_spec in E as (? & ? & ? & _) end.
    + dr_inv. match goal with E : annotate_line _ _ = Ok _ |- _ => apply (annotate_line_ok layer) in E as [Hp Ha]; [|done] end.
      destruct (HasPrefix _ (str "//")); dr_inv; by split.
Qed.

Lemma baseline_lines_ok layer lines st st' : baseline_ok layer st -> baseline_lines layer lines st = Ok st' -> baseline_ok layer st'.
Proof.
  revert st. induction lines as [|line lines IH]; intros st Hok H; cbn in H; [by injection H as <-|]. dr_inv. eapply IH; [|eassumption]. by eapply baseline_line_ok.
Qed.

Definition function_ok (layer : Z) (f : FuncDecl) : Prop :=
  (fn_VariantLayer f <> 0 -> fn_VariantLayer f <= layer) /\ (fn_AcceptIntervals f <> [] -> acceptance_ok (fn_AcceptIntervals f)).

Lemma apply_annotation_ok layer a n fs fs' :
  annotation_ok layer (ba_variant a) (ba_acceptance a) -> Forall (function_ok layer) fs -> apply_annotation a n fs = Ok fs' -> Forall (function_ok layer) fs'.
Proof.
  intros [Hv Hacc] Hfs. revert n fs'. induction Hfs as [|f fs Hf Hfs IH]; intros n fs' H; cbn in H; [done|]. destruct (annotated a f).
  - destruct (_ =? _)%nat; dr_inv; [|constructor; [done|by eapply IH]]. constructor; [|done]. split; cbn; [done|].
    destruct (ba_acceptance a); [|done]. intros _. by apply Hacc.
  - dr_inv. constructor; [done|by eapply IH].
Qed.

Lemma apply_annotations_ok layer annotations fs fs' :
  Forall (fun a => annotation_ok layer (ba_variant a) (ba_acceptance a)) annotations -> Forall (function_ok layer) fs ->
  apply_annotations annotations fs = Ok fs' -> Forall (function_ok layer) fs'.
Proof.
  intros Ha. revert fs. induction Ha as [|a annotations Hok _ IH]; intros fs Hfs H; cbn in H; [by injection H as <-|]. dr_inv. eapply IH; [|eassumption].
  by eapply apply_annotation_ok.
Qed.

Lemma every_Ok {A} (f : A -> DR unit) l u : every f l = Ok u -> forall x, x ∈ l -> f x = Ok tt.
Proof.
  induction l as [|y l IH]; cbn; intros H x Hx; [by apply elem_of_nil in Hx|]. dr_inv. apply elem_of_cons in Hx as [->|Hx]; [by destruct x0|by apply IH].
Qed.

Definition current (f : FuncDecl) : Prop := fn_VariantLayer f = 0.
#[export] Instance current_dec f : Decision (current f).
Proof. unfold current. apply _. Defined.

(** One current declaration, and historical ones at distinct layers with layers they accept. *)
Definition variants_sound (variants : list FuncDecl) : Prop :=
  length (filter current variants) = 1%nat /\ NoDup (map fn_VariantLayer (filter (fun f => ~ current f) variants)) /\
  Forall (fun f => ~ current f -> fn_AcceptIntervals f <> []) variants.

Lemma check_historical_spec name canonical layers variants u :
  check_historical name canonical layers variants = Ok u ->
  (canonical + length (filter current variants) = 1)%nat /\ NoDup (map fn_VariantLayer (filter (fun f => ~ current f) variants)) /\
  (forall f, f ∈ variants -> ~ current f -> fn_AcceptIntervals f <> [] /\ fn_VariantLayer f ∉ layers).
Proof.
  revert canonical layers. induction variants as [|f variants IH]; intros canonical layers H; cbn [check_historical] in H.
  - dr_inv. apply Nat.eqb_eq in H. split_and!; [cbn; lia|constructor|set_solver].
  - rewrite !filter_cons. destruct (Z.eqb_spec (fn_VariantLayer f) 0) as [Hc|Hh].
    + rewrite decide_True by done. rewrite decide_False by (intros Hn; by apply Hn). apply IH in H as (H1 & H2 & H3). split_and!; [cbn; lia|done|].
      intros g [->|Hg]%elem_of_cons Hn; [by destruct Hn|auto].
    + rewrite decide_False by done. rewrite decide_True by done. apply DR_bind_Ok in H as (? & Hacc%demand_Ok & H). apply DR_bind_Ok in H as (? & Hnew%demand_Ok & H).
      apply negb_true_iff, bool_decide_eq_false in Hnew. apply IH in H as (H1 & H2 & H3). split_and!; [done| |].
      * cbn. apply NoDup_cons. split; [|done]. intros (g & Hg & [Hng Hin]%list_elem_of_filter)%list_elem_of_fmap. destruct (H3 g Hin Hng) as [_ Hout]. apply Hout. rewrite <- Hg. by left.
      * intros g [->|Hg]%elem_of_cons Hn; [|destruct (H3 g Hg Hn) as [? Hout]; split; [done|]; intros Hin; apply Hout; by right].
        split; [by destruct (fn_AcceptIntervals f)|done].
Qed.

Lemma check_name_spec name variants u : variants <> [] -> check_name name variants = Ok u -> variants_sound variants.
Proof.
  intros Hne. assert (Hgen : check_historical name O [] variants = Ok u -> variants_sound variants).
  { intros (H1 & H2 & H3)%check_historical_spec. split_and!; [done|done|]. apply Forall_forall. intros f Hf Hn. by apply (H3 f). }
  unfold check_name. destruct variants as [|f [|g variants]]; [done| |done]. intros Hd%demand_Ok. apply Z.eqb_eq in Hd.
  unfold variants_sound. rewrite !filter_cons, decide_True, decide_False by (done || (intros Hn; by apply Hn)).
  split_and!; [done|constructor|]. apply Forall_singleton. intros Hn. by destruct Hn.
Qed.

(** A base schema that is accepted has one current declaration of every function; the other
    declarations of its name are historical, at distinct layers up to the base's, each with
    accepted layers that are bounded, in order and apart. *)
Lemma baseline_well_annotated `{MapOrder} input layer s :
  ParseBaselineSchema input layer = Ok s ->
  (forall f, f ∈ sc_Functions s -> variants_sound (named (fn_Name f) (sc_Functions s))) /\
  (forall f, f ∈ sc_Functions s -> ~ current f -> fn_VariantLayer f <= layer /\ acceptance_ok (fn_AcceptIntervals f)).
Proof.
  unfold ParseBaselineSchema. intros Hp. dr_inv. destruct (ParseAt layer _) as [schema|] eqn:Ea; [|done]. dr_inv. cbn [sc_Functions with_Functions].
  match goal with E : baseline_lines _ _ _ = Ok _ |- _ => apply baseline_lines_ok in E as [_ Hann]; [|by split] end.
  match goal with E : apply_annotations _ _ = Ok ?fs |- _ => rename fs into functions; apply (apply_annotations_ok layer) in E; [|done|] end.
  2: { eapply Forall_impl; [by eapply parsed_functions_plain|]. intros f [Hv Ha]. split; [done|]. by rewrite Ha. }
  match goal with E : Forall (function_ok layer) _ |- _ => rewrite Forall_forall in E; rename E into Hok end.
  match goal with E : validateBaselineFunctionVariants _ = Ok _ |- _ => rename E into Hval end.
  assert (Hsound : forall f, f ∈ functions -> variants_sound (named (fn_Name f) functions)).
  { intros f Hf. assert (Hin : f ∈ named (fn_Name f) functions) by (by apply list_elem_of_filter).
    apply (check_name_spec (fn_Name f) _ tt); [intros He; rewrite He in Hin; by apply elem_of_nil in Hin|].
    eapply (every_Ok _ _ _ Hval (fn_Name f)). rewrite in_order_perm. apply elem_of_remove_dups, list_elem_of_fmap. eauto. }
  split; [done|]. intros f Hf Hn. destruct (Hsound f Hf) as (_ & _ & Hacc). rewrite Forall_forall in Hacc. destruct (Hok f Hf) as [Hv Ha].
  split; [by apply Hv|]. apply Ha, Hacc; [by apply list_elem_of_filter|done].
Qed.

Definition baseline_text : bytes := str "a#1 = Alpha;
---functions---
get#3 = Alpha; // current
// @tlrpc variant-layer 2
// @tlrpc accept-layers 5-6, 2-4, 9-9
get#3 x:int = Alpha;".
Definition baseline_sample : Schema :=
  match ParseBaselineSchema (H := insertion_order) baseline_text 9 with Ok s => s | Err _ => NewSchema 0 end.

Lemma baseline_well_annotated_witness :
  map (fun f => (fn_VariantLayer f, fn_AcceptIntervals f)) (sc_Functions baseline_sample) =
    [(0, []); (2, [{| MinLayer := 2; MaxLayer := 6 |}; {| MinLayer := 9; MaxLayer := 9 |}])] /\
  forall f, f ∈ sc_Functions baseline_sample -> ~ current f -> fn_VariantLayer f <= 9 /\ acceptance_ok (fn_AcceptIntervals f).
Proof. split; [by vm_compute|]. apply (baseline_well_annotated (H := insertion_order) baseline_text 9 baseline_sample). by vm_compute. Defined.

(** Occurrences are counted by lines: a declaration that shares its line is not counted, and
    the directives mark it instead of the declaration that follows them. *)
Example annotation_of_another_declaration :
  exists s, ParseBaselineSchema (H := insertion_order) (str "a#1 = Alpha;
---functions---
put#4 = Alpha; get#3 = Alpha;
// @tlrpc variant-layer 2
// @tlrpc accept-layers 2-4
get#3 x:int = Alpha;
") 9 = Ok s /\ map (fun f => (len (fn_Params f), fn_VariantLayer f)) (sc_Functions s) = [(0, 0); (0, 2); (1, 0)].
Proof. eexists. split_and!; by vm_compute. Qed.

(** A directive on the first line leaves an empty line, which the parser refuses. *)
Example leading_comment_is_refused :
  match ParseBaselineSchema (H := insertion_order) (str "// comment
a#1 = Alpha;") 9 with Ok _ => false | Err _ => true end = true.
Proof. by vm_compute. Qed.
