(* ===== verification/LayeredSchema.v ===== *)
(** The view of all layers of a schema that code is generated from (internal/parser/
    layered.go, ResolveSelectedLayer of layers.go): the schema of every layer is resolved,
    equal contracts are kept once with the layers they hold at, and bare references carry
    the variant of the layout they denote.

    Contracts are compared by their JSON text in the code and by the document here: the
    texts of two documents are equal exactly when the documents are (names are valid
    UTF-8).  The key of a variant is a pair, as [name@layer] determines both. *)

From stdpp Require Import base numbers list gmap strings countable sorting.
From S2P Require Import Prelude SchemaAst Lexer SchemaParser SchemaLayers SchemaValidate.
Open Scope Z_scope.

(** * Contracts as JSON documents *)

Abbreviation Key := (gen_tree (bytes + Z)).
Definition jstring (s : bytes) : Key := GenLeaf (inl s).
Definition jnumber (z : Z) : Key := GenLeaf (inr z).
Definition jbool (b : bool) : Key := GenNode (if b then 3 else 2) [].
Definition jnull : Key := GenNode 4 [].
Definition jarray (l : list Key) : Key := GenNode 0 l.
Definition jobject (fields : list Key) : Key := GenNode 1 fields.
(** A string that holds the text of a document. *)
Definition jtext (k : Key) : Key := GenNode 5 [k].

Definition jflag (bit : option Z) : Key := match bit with Some b => jnumber b | None => jnull end.
Definition stringValue (s : option bytes) : bytes := default [] s.

Definition semanticGenerics (gs : list GenericParam) : Key := jarray (map (fun g => jobject [jstring (gp_Name g); jstring (gp_Constraint g)]) gs).

Fixpoint semanticReference (t : TypeRef) : Key :=
  jobject [jstring (tr_Name t); jstring (tr_Namespace t); jstring (tr_GenericArg t); jstring (tr_FlagName t);
           jbool (tr_IsVector t); jbool (tr_IsBare t); jbool (tr_Optional t); jbool (tr_IsTypeVar t);
           match tr_Generic t with Some g => semanticReference g | None => jnull end;
           jflag (tr_FlagBit t); jnumber (tr_VariantLayer t)].
Definition contractTypeRef (t : TypeRef) : Key := semanticReference t.

Definition semanticParameters (ps : list Parameter_) : Key :=
  jarray (map (fun p => jobject [jstring (pa_Name p); semanticReference (pa_Type p); jflag (pa_FlagBit p)]) ps).

Definition constructorContractSignature (c : Constructor) : Key :=
  jobject [jstring (ct_Name c); jnumber (ct_ID c); semanticGenerics (ct_GenericParams c); semanticParameters (ct_Params c);
           semanticReference (ct_ResultType c); jbool (ct_IsBare c); jstring (stringValue (ct_VectorCount c))].

Definition functionRequestSignature (f : FuncDecl) : Key :=
  jobject [jstring (fn_Name f); jnumber (fn_ID f); semanticGenerics (fn_GenericParams f); semanticParameters (fn_Params f);
           jbool (fn_IsTemplate f); jbool (fn_IsHelper f)].

(** * Bare references *)

(** A bare reference to a declared family. *)
Definition bare_family (t : TypeRef) : bool := tr_IsBare t && negb (IsBuiltin t) && negb (tr_IsTypeVar t).

Fixpoint bareReferenceNames (t : TypeRef) : list bytes :=
  let here := if bare_family t then [FullName t] else [] in
  if tr_IsVector t then match tr_Generic t with Some g => bareReferenceNames g | None => here end else here.

(** The closure [check] of validateBareLayouts. *)
Definition check_bare (cs : list Constructor) (t : TypeRef) : LR unit :=
  each (fun family => ensure (len (filter (fun c => FullName (ct_ResultType c) = family) cs) =? 1) (BareNeedsOneConstructor family)) (bareReferenceNames t).

Definition bare_graph (cs : list Constructor) : gmap bytes (list bytes) :=
  foldl (fun graph c => foldl (fun graph p =>
    let family := FullName (ct_ResultType c) in <[family := default [] (graph !! family) ++ bareReferenceNames (pa_Type p)]> graph) graph (ct_Params c)) ∅ cs.

(** A search from each family in turn, with the families visited so far. *)
Fixpoint visit_each (visit : gset bytes -> bytes -> LR (gset bytes)) (visited : gset bytes) (families : list bytes) : LR (gset bytes) :=
  match families with
  | [] => mret visited
  | family :: families => visited ← visit visited family; visit_each visit visited families
  end.

(** The families visited, when the search from a family meets none it is visiting. *)
Fixpoint visitFamily (fuel : nat) (graph : gmap bytes (list bytes)) (visiting visited : gset bytes) (family : bytes) : LR (gset bytes) :=
  match fuel with
  | O => Err OutOfFuel
  | S fuel =>
      if bool_decide (family ∈ visiting) then Err RecursiveBareLayout
      else if bool_decide (family ∈ visited) then mret visited
      else
        visited ← visit_each (visitFamily fuel graph ({[family]} ∪ visiting)) visited (default [] (graph !! family));
        mret ({[family]} ∪ visited)
  end.

Definition validateBareLayouts `{MapOrder} (s : Schema) : LR unit :=
  _ ← each (fun c => each (fun p => check_bare (sc_Constructors s) (pa_Type p)) (ct_Params c)) (sc_Constructors s);
  _ ← each (fun f => _ ← each (fun p => check_bare (sc_Constructors s) (pa_Type p)) (fn_Params f);
                     check_bare (sc_Constructors s) (fn_ResultType f)) (sc_Functions s);
  let graph := bare_graph (sc_Constructors s) in
  _ ← visit_each (visitFamily (base.size graph + 2) graph ∅) ∅ (in_order (map fst (map_to_list graph)));
  mret tt.

(** ** Families referred to barely keep the name of their constructor *)

Definition bare_families (ps : list Parameter_) : gset bytes := list_to_set (concat (map (fun p => bareReferenceNames (pa_Type p)) ps)).

Fixpoint check_family_name (family name : bytes) (snapshots : list Schema) : LR unit :=
  match snapshots with
  | [] => mret tt
  | s :: snapshots =>
      match FindType family s with
      | None => check_family_name family name snapshots
      | Some d =>
          match td_Constructors d with
          | [c] =>
              _ ← ensure (bytes_eqb name [] || bytes_eqb name (ct_Name c)) (BareConstructorReplaced family);
              check_family_name family (ct_Name c) snapshots
          | _ => Err (BareFamilyNeedsOneConstructor family)
          end
      end
  end.

Definition validateBareConstructorNames `{MapOrder} (snapshots : list Schema) (historical : list FuncDecl) : LR unit :=
  let families := union_list (map (fun f => bare_families (fn_Params f)) historical) ∪
    union_list (map (fun s => union_list (map (fun c => bare_families (ct_Params c)) (sc_Constructors s)) ∪
                              union_list (map (fun f => bare_families (fn_Params f)) (sc_Functions s))) snapshots) in
  each (fun family => check_family_name family [] snapshots) (in_order (elements families)).

(** ** The contract of a family, with those of the families it refers to barely *)

Fixpoint resolvedSemanticReference (contract : bytes -> LR Key) (t : TypeRef) : LR Key :=
  generic ← match tr_Generic t with Some g => resolvedSemanticReference contract g | None => mret jnull end;
  bare ← if bare_family t then k ← contract (FullName t); mret (jtext k) else mret (jstring []);
  mret (jobject [jstring (tr_Name t); jstring (tr_Namespace t); jstring (tr_GenericArg t); jstring (tr_FlagName t);
                 jbool (tr_IsVector t); jbool (tr_IsBare t); jbool (tr_Optional t); jbool (tr_IsTypeVar t);
                 generic; jflag (tr_FlagBit t); bare]).

Definition resolved_parameter (contract : bytes -> LR Key) (p : Parameter_) : LR Key :=
  reference ← resolvedSemanticReference contract (pa_Type p);
  mret (jobject [jstring (pa_Name p); reference; jflag (pa_FlagBit p)]).

Definition resolved_constructor (contract : bytes -> LR Key) (c : Constructor) : LR Key :=
  params ← mapM (resolved_parameter contract) (ct_Params c);
  mret (jobject [jstring (ct_Name c); jnumber (ct_ID c); semanticGenerics (ct_GenericParams c); jarray params;
                 jstring (FullName (ct_ResultType c)); jbool (ct_IsBare c); jstring (stringValue (ct_VectorCount c))]).

Fixpoint resolvedTypeContractSignature (fuel : nat) (s : Schema) (stack : gset bytes) (name : bytes) : LR Key :=
  match fuel with
  | O => Err OutOfFuel
  | S fuel =>
      if bool_decide (name ∈ stack) then mret (jstring (str "cycle:" ++ name))
      else
        match FindType name s with
        | None => Err (MissingType name)
        | Some d =>
            constructors ← mapM (resolved_constructor (resolvedTypeContractSignature fuel s ({[name]} ∪ stack))) (td_Constructors d);
            mret (jarray constructors)
        end
  end.
Definition type_contract (s : Schema) (name : bytes) : LR Key := resolvedTypeContractSignature (length (sc_Types s) + 1) s ∅ name.

(** ** Annotating bare references with the variants of one layer *)

Definition with_reference (generic : option TypeRef) (variant : Z) (t : TypeRef) : TypeRef :=
  {| tr_Name := tr_Name t; tr_Namespace := tr_Namespace t; tr_IsVector := tr_IsVector t; tr_IsBare := tr_IsBare t; tr_Generic := generic;
     tr_GenericArg := tr_GenericArg t; tr_Optional := tr_Optional t; tr_FlagName := tr_FlagName t; tr_FlagBit := tr_FlagBit t;
     tr_IsTypeVar := tr_IsTypeVar t; tr_VariantLayer := variant |}.

Fixpoint annotateBareTypeRef (versions : gmap bytes Z) (t : TypeRef) : TypeRef :=
  with_reference (match tr_Generic t with Some g => Some (annotateBareTypeRef versions g) | None => None end)
    (if bare_family t then default 0 (versions !! FullName t) else if negb (tr_IsBare t) then 0 else tr_VariantLayer t) t.

Definition annotateBareParameters (versions : gmap bytes Z) (ps : list Parameter_) : list Parameter_ :=
  map (fun p => {| pa_Name := pa_Name p; pa_Type := annotateBareTypeRef versions (pa_Type p); pa_FlagBit := pa_FlagBit p |}) ps.

(** * Variants *)

(** Per name, the contracts met so far with the layer that tells them apart: 0 for the
    first, the layer it appeared at for the others. *)
Abbreviation Variants := (gmap bytes (list (Key * Z))).

Definition find_variant (variants : list (Key * Z)) (signature : Key) : option Z :=
  list_find (fun v => v.1 = signature) variants ≫= fun p => Some p.2.2.

Definition contractVariantLayer (all : Variants) (name : bytes) (signature : Key) (layer : Z) : Variants * Z :=
  let variants := default [] (all !! name) in
  match find_variant variants signature with
  | Some variant => (all, variant)
  | None => let variant := match variants with [] => 0 | _ => layer end in (<[name := variants ++ [(signature, variant)]]> all, variant)
  end.

(** * Declarations with the layers they hold at *)

(** [name@layer], as the pair it determines *)
Definition variant_key (name : bytes) (layer : Z) : bytes * Z := (name, layer).

Class Layered (D : Type) := {
  variantKey : D -> bytes * Z;
  intervals_of : D -> list LayerInterval;
  set_intervals : list LayerInterval -> D -> D;
  variantKey_set ivs d : variantKey (set_intervals ivs d) = variantKey d;
  intervals_set ivs d : intervals_of (set_intervals ivs d) = ivs
}.

#[export] Program Instance layered_constructor : Layered Constructor := {
  variantKey c := variant_key (ct_Name c) (ct_VariantLayer c);
  intervals_of := ct_Intervals;
  set_intervals ivs c :=
    {| ct_Name := ct_Name c; ct_ID := ct_ID c; ct_GenericParams := ct_GenericParams c; ct_Params := ct_Params c; ct_ResultType := ct_ResultType c;
       ct_IsBare := ct_IsBare c; ct_VectorCount := ct_VectorCount c; ct_IsBuiltin := ct_IsBuiltin c; ct_VariantLayer := ct_VariantLayer c; ct_Intervals := ivs |}
}.
Solve Obligations with done.

#[export] Program Instance layered_function : Layered FuncDecl := {
  variantKey f := variant_key (fn_Name f) (fn_VariantLayer f);
  intervals_of := fn_Intervals;
  set_intervals ivs f :=
    {| fn_Name := fn_Name f; fn_ID := fn_ID f; fn_GenericParams := fn_GenericParams f; fn_Params := fn_Params f; fn_ResultType := fn_ResultType f;
       fn_IsTemplate := fn_IsTemplate f; fn_IsHelper := fn_IsHelper f; fn_RequestVariantLayer := fn_RequestVariantLayer f; fn_VariantLayer := fn_VariantLayer f;
       fn_Intervals := ivs; fn_RequestIntervals := fn_RequestIntervals f; fn_AcceptIntervals := fn_AcceptIntervals f |}
}.
Solve Obligations with done.

(** The declarations collected, the index of each variant and the variants now in force. *)
Record Slots (D : Type) := { items : list D; indexes : gmap (bytes * Z) nat; active : gmap (bytes * Z) nat }.
Arguments items {D}. Arguments indexes {D}. Arguments active {D}.
Definition no_slots {D} : Slots D := {| items := []; indexes := ∅; active := ∅ |}.

Section slots.
Context {D : Type} `{Layered D}.

(** A declaration of the snapshot at a layer: its variant opens an interval. *)
Definition place (layer : Z) (d : D) (s : Slots D) : Slots D :=
  let key := variantKey d in
  match indexes s !! key with
  | Some i =>
      {| items := alter (fun d => set_intervals (openInterval (intervals_of d) layer) d) i (items s);
         indexes := indexes s; active := <[key := i]> (active s) |}
  | None =>
      {| items := items s ++ [set_intervals [{| MinLayer := layer; MaxLayer := 0 |}] d];
         indexes := <[key := length (items s)]> (indexes s); active := <[key := length (items s)]> (active s) |}
  end.

Definition closeInactive `{MapOrder} (current : gset (bytes * Z)) (maxLayer : Z) (s : Slots D) : Slots D :=
  foldl (fun s '(key, i) =>
    if bool_decide (key ∈ current) then s
    else {| items := alter (fun d => set_intervals (closeInterval (intervals_of d) maxLayer) d) i (items s);
            indexes := indexes s; active := delete key (active s) |}) s (in_order (map_to_list (active s))).
End slots.

(** * Projecting a snapshot *)

Record Building := {
  bd_constructorVariants : Variants;
  bd_requestVariants : Variants;
  bd_handlerVariants : Variants;
  bd_typeVariants : Variants;
  bd_constructors : Slots Constructor;
  bd_functions : Slots FuncDecl;
  bd_versionsBySnapshot : list (gmap bytes Z)
}.

Definition nothing_built : Building :=
  {| bd_constructorVariants := ∅; bd_requestVariants := ∅; bd_handlerVariants := ∅; bd_typeVariants := ∅;
     bd_constructors := no_slots; bd_functions := no_slots; bd_versionsBySnapshot := [] |}.

(** The variants of the snapshot's types. *)
Fixpoint type_versions (layer : Z) (s : Schema) (all : Variants) (versions : gmap bytes Z) (types : list TypeDecl) : LR (Variants * gmap bytes Z) :=
  match types with
  | [] => mret (all, versions)
  | d :: types =>
      signature ← type_contract s (td_Name d);
      let '(all, variant) := contractVariantLayer all (td_Name d) signature layer in
      type_versions layer s all (<[td_Name d := variant]> versions) types
  end.

Definition annotate_constructor (versions : gmap bytes Z) (c : Constructor) : Constructor :=
  {| ct_Name := ct_Name c; ct_ID := ct_ID c; ct_GenericParams := ct_GenericParams c; ct_Params := annotateBareParameters versions (ct_Params c);
     ct_ResultType := annotateBareTypeRef versions (ct_ResultType c); ct_IsBare := ct_IsBare c; ct_VectorCount := ct_VectorCount c;
     ct_IsBuiltin := ct_IsBuiltin c; ct_VariantLayer := ct_VariantLayer c; ct_Intervals := ct_Intervals c |}.

Definition constructor_variant (variant : Z) (c : Constructor) : Constructor :=
  {| ct_Name := ct_Name c; ct_ID := ct_ID c; ct_GenericParams := ct_GenericParams c; ct_Params := ct_Params c; ct_ResultType := ct_ResultType c;
     ct_IsBare := ct_IsBare c; ct_VectorCount := ct_VectorCount c; ct_IsBuiltin := ct_IsBuiltin c; ct_VariantLayer := variant; ct_Intervals := ct_Intervals c |}.

(** One constructor of the snapshot, with the variant it gets. *)
Definition project_constructor (layer : Z) (versions : gmap bytes Z) (all : Variants) (c : Constructor) : Variants * Constructor :=
  let projected := annotate_constructor versions c in
  let '(all, variant) := contractVariantLayer all (ct_Name projected) (constructorContractSignature projected) layer in
  (all, constructor_variant variant projected).

Definition annotate_function (versions : gmap bytes Z) (f : FuncDecl) : FuncDecl :=
  {| fn_Name := fn_Name f; fn_ID := fn_ID f; fn_GenericParams := fn_GenericParams f; fn_Params := annotateBareParameters versions (fn_Params f);
     fn_ResultType := annotateBareTypeRef versions (fn_ResultType f); fn_IsTemplate := fn_IsTemplate f; fn_IsHelper := fn_IsHelper f;
     fn_RequestVariantLayer := fn_RequestVariantLayer f; fn_VariantLayer := fn_VariantLayer f; fn_Intervals := fn_Intervals f;
     fn_RequestIntervals := fn_RequestIntervals f; fn_AcceptIntervals := fn_AcceptIntervals f |}.

Definition function_variant (request variant : Z) (f : FuncDecl) : FuncDecl :=
  {| fn_Name := fn_Name f; fn_ID := fn_ID f; fn_GenericParams := fn_GenericParams f; fn_Params := fn_Params f; fn_ResultType := fn_ResultType f;
     fn_IsTemplate := fn_IsTemplate f; fn_IsHelper := fn_IsHelper f; fn_RequestVariantLayer := request; fn_VariantLayer := variant;
     fn_Intervals := fn_Intervals f; fn_RequestIntervals := fn_RequestIntervals f; fn_AcceptIntervals := fn_AcceptIntervals f |}.

Definition handlerSignature (request : Z) (f : FuncDecl) : Key := jobject [jnumber request; contractTypeRef (fn_ResultType f)].

Definition project_function (layer : Z) (versions : gmap bytes Z) (all : Variants * Variants) (f : FuncDecl) : (Variants * Variants) * FuncDecl :=
  let projected := annotate_function versions f in
  let '(requests, request) := contractVariantLayer all.1 (fn_Name projected) (functionRequestSignature projected) layer in
  let '(handlers, variant) := contractVariantLayer all.2 (fn_Name projected) (handlerSignature request projected) layer in
  ((requests, handlers), function_variant request variant projected).

(** The declarations of a snapshot, projected one after the other. *)
Fixpoint project_all {V D E} (project : V -> D -> V * E) (all : V) (ds : list D) : V * list E :=
  match ds with
  | [] => (all, [])
  | d :: ds => let '(all, e) := project all d in let '(all, es) := project_all project all ds in (all, e :: es)
  end.

(** The loop over one kind of declarations of a snapshot and the closing of what it lacks. *)
Definition place_all `{MapOrder} {D} `{Layered D} (layer : Z) (ds : list D) (s : Slots D) : Slots D :=
  closeInactive (list_to_set (map variantKey ds)) (layer - 1) (foldl (fun s d => place layer d s) s ds).

Definition is_canonical (f : FuncDecl) : Prop := fn_VariantLayer f = 0.
#[export] Instance is_canonical_dec f : Decision (is_canonical f).
Proof. unfold is_canonical. apply _. Defined.

Definition add_snapshot `{MapOrder} (layer : Z) (s : Schema) (b : Building) : LR Building :=
  r ← type_versions layer s (bd_typeVariants b) ∅ (sc_Types s);
  let '(types, versions) := r in
  let '(cvariants, cs) := project_all (project_constructor layer versions) (bd_constructorVariants b) (sc_Constructors s) in
  let '(fvariants, fs) := project_all (project_function layer versions) (bd_requestVariants b, bd_handlerVariants b) (filter is_canonical (sc_Functions s)) in
  mret {| bd_constructorVariants := cvariants; bd_requestVariants := fvariants.1; bd_handlerVariants := fvariants.2; bd_typeVariants := types;
          bd_constructors := place_all layer cs (bd_constructors b); bd_functions := place_all layer fs (bd_functions b);
          bd_versionsBySnapshot := bd_versionsBySnapshot b ++ [versions] |}.

Fixpoint add_snapshots `{MapOrder} (snapshots : list (Z * Schema)) (b : Building) : LR Building :=
  match snapshots with
  | [] => mret b
  | (layer, s) :: snapshots => b ← add_snapshot layer s b; add_snapshots snapshots b
  end.

(** * Historical functions *)

Definition historical_signature (f : FuncDecl) : Key * Key := (functionRequestSignature f, contractTypeRef (fn_ResultType f)).

(** The families of a historical function exist in the snapshot of a layer it is accepted at. *)
Definition historical_families (s : Schema) (f : FuncDecl) : LR unit :=
  each (fun p => each (fun family => ensure (match FindType family s with Some _ => true | None => false end) (HistoricalFamilyUnavailable (fn_Name f) family))
                   (bareReferenceNames (pa_Type p))) (fn_Params f).

(** [projected.Params, projected.ResultType = candidate.Params, candidate.ResultType] *)
Definition with_types (candidate projected : FuncDecl) : FuncDecl :=
  {| fn_Name := fn_Name projected; fn_ID := fn_ID projected; fn_GenericParams := fn_GenericParams projected; fn_Params := fn_Params candidate;
     fn_ResultType := fn_ResultType candidate; fn_IsTemplate := fn_IsTemplate projected; fn_IsHelper := fn_IsHelper projected;
     fn_RequestVariantLayer := fn_RequestVariantLayer projected; fn_VariantLayer := fn_VariantLayer projected; fn_Intervals := fn_Intervals projected;
     fn_RequestIntervals := fn_RequestIntervals projected; fn_AcceptIntervals := fn_AcceptIntervals projected |}.

(** The loop over the snapshots, each with its first and last layer and its variants. *)
Fixpoint project_historical (f : FuncDecl) (ivs : list LayerInterval) (selected : option (Key * Key)) (projected : FuncDecl)
    (history : list (Z * Z * Schema * gmap bytes Z)) : LR FuncDecl :=
  match history with
  | [] => mret projected
  | (first, last, s, versions) :: history =>
      match intersectIntervals ivs first last with
      | [] => project_historical f ivs selected projected history
      | _ =>
          _ ← historical_families s f;
          let candidate := annotate_function versions f in
          let signature := historical_signature candidate in
          _ ← ensure (match selected with None => true | Some k => bool_decide (k = signature) end) (HistoricalContractChanges (fn_Name f));
          project_historical f ivs (Some signature) (with_types candidate projected) history
      end
  end.

(** The first and last layer of every snapshot. *)
Fixpoint spans (layers : list Z) (maxLayer : Z) : list (Z * Z) :=
  match layers with
  | [] => []
  | [l] => [(l, maxLayer)]
  | l :: (next :: _) as rest => (l, next - 1) :: spans rest maxLayer
  end.

Fixpoint add_historical (baseLayer maxLayer : Z) (history : list (Z * Z * Schema * gmap bytes Z)) (fs : list FuncDecl) (slots : Slots FuncDecl) : LR (Slots FuncDecl) :=
  match fs with
  | [] => mret slots
  | f :: fs =>
      let request := if fn_RequestVariantLayer f =? 0 then fn_VariantLayer f else fn_RequestVariantLayer f in
      let ivs := intersectIntervals (fn_AcceptIntervals f) baseLayer maxLayer in
      match ivs with
      | [] => add_historical baseLayer maxLayer history fs slots
      | _ =>
          projected ← project_historical f ivs None (set_intervals ivs (function_variant request (fn_VariantLayer f) f)) history;
          _ ← ensure (match indexes slots !! variantKey projected with None => true | Some _ => false end) (DuplicateHistoricalContract (fn_Name f));
          add_historical baseLayer maxLayer history fs
            {| items := items slots ++ [projected]; indexes := <[variantKey projected := length (items slots)]> (indexes slots); active := active slots |}
      end
  end.

(** * The combined schema *)

Definition requestKey (f : FuncDecl) : bytes * Z := variant_key (fn_Name f) (fn_RequestVariantLayer f).

Definition set_request_intervals (ivs : list LayerInterval) (f : FuncDecl) : FuncDecl :=
  {| fn_Name := fn_Name f; fn_ID := fn_ID f; fn_GenericParams := fn_GenericParams f; fn_Params := fn_Params f; fn_ResultType := fn_ResultType f;
     fn_IsTemplate := fn_IsTemplate f; fn_IsHelper := fn_IsHelper f; fn_RequestVariantLayer := fn_RequestVariantLayer f; fn_VariantLayer := fn_VariantLayer f;
     fn_Intervals := fn_Intervals f; fn_RequestIntervals := ivs; fn_AcceptIntervals := fn_AcceptIntervals f |}.

(** A request form holds where one of the functions that share it does. *)
Definition request_intervals (fs : list FuncDecl) (key : bytes * Z) : list LayerInterval :=
  concat (map fn_Intervals (filter (fun f => requestKey f = key) fs)).
Definition with_request_intervals (fs : list FuncDecl) : list FuncDecl :=
  map (fun f => set_request_intervals (normalizeIntervals (request_intervals fs (requestKey f))) f) fs.

(** Go's order of strings. *)
Fixpoint bytes_ltb (a b : bytes) : bool :=
  match a, b with
  | _, [] => false
  | [], _ :: _ => true
  | x :: a, y :: b => (Zb x <? Zb y) || ((Zb x =? Zb y) && bytes_ltb a b)
  end.

Definition constructor_before (a b : Constructor) : Prop :=
  negb (if bytes_eqb (ct_Name b) (ct_Name a) then ct_VariantLayer b <? ct_VariantLayer a else bytes_ltb (ct_Name b) (ct_Name a)) = true.
#[export] Instance constructor_before_dec a b : Decision (constructor_before a b).
Proof. unfold constructor_before. apply _. Defined.

Definition layered_families (cs : list Constructor) : list TypeDecl :=
  map (fun t => {| td_Name := td_Name t; td_Constructors := merge_sort constructor_before (td_Constructors t);
                   td_IsUnion := td_IsUnion t; td_VariantLayer := td_VariantLayer t |}) (group_all cs).

Fixpoint contracts_apart {D} `{Layered D} (ds : list D) : bool :=
  match ds with
  | [] => true
  | d :: ds => forallb (fun e => negb (intervalSetsOverlap (intervals_of d) (intervals_of e))) ds && contracts_apart ds
  end.

Definition validateLayeredIntervals `{MapOrder} (s : Schema) : LR unit :=
  _ ← each (fun '(id, cs) => ensure (contracts_apart cs) (ConstructorContractsOverlap id)) (in_order (map_to_list (by_id ct_ID (sc_Constructors s))));
  each (fun '(id, fs) => ensure (contracts_apart fs) (FunctionContractsOverlap id))
    (in_order (map_to_list (by_id fn_ID (filter (fun f => fn_IsHelper f = false) (sc_Functions s))))).

Record LayeredSchema := { ls_BaseLayer : Z; ls_MaxLayer : Z; ls_Layers : list Z; ls_Schema : Schema }.

Definition differenceLayers (ds : list LayerDifference) : list Z := map ld_Layer ds.
Definition max_layer (baseLayer : Z) (ds : list LayerDifference) : Z := default baseLayer (last (differenceLayers ds)).

(** The base without its historical functions. *)
Definition canonical_base (base : Schema) : Schema := with_Functions (filter is_canonical (sc_Functions base)) (cloneSchema base).

Definition resolve_snapshot `{MapOrder} (base : Schema) (baseLayer : Z) (ds : list LayerDifference) (layer : Z) : LR Schema :=
  snapshot ← ResolveLayer (Some base) baseLayer layer ds;
  _ ← validateBareLayouts snapshot;
  mret snapshot.

Definition combine (baseLayer maxLayer : Z) (cs : list Constructor) (fs : list FuncDecl) : Schema :=
  let types := layered_families cs in
  {| sc_Layer := maxLayer; sc_BaseLayer := baseLayer; sc_IsLayered := true; sc_Types := types; sc_Functions := with_request_intervals fs; sc_Constructors := cs;
     sc_UnionTypes := list_to_set (map td_Name (filter (fun t => td_IsUnion t = true) types)) |}.

Definition ResolveLayers `{MapOrder} (base : option Schema) (baseLayer : Z) (ds : list LayerDifference) : LR LayeredSchema :=
  match base with
  | None => Err NilSchema
  | Some base =>
      let maxLayer := max_layer baseLayer ds in
      _ ← validateHistoricalAcceptance base baseLayer maxLayer;
      let snapshotBase := canonical_base base in
      _ ← ResolveLayer (Some snapshotBase) baseLayer maxLayer ds;
      let layers := baseLayer :: filter (fun l => l <> baseLayer) (differenceLayers ds) in
      snapshots ← mapM (resolve_snapshot snapshotBase baseLayer ds) (baseLayer :: differenceLayers ds);
      _ ← validateBareConstructorNames snapshots (sc_Functions base);
      b ← add_snapshots (zip layers snapshots) nothing_built;
      let history := zip (zip (spans layers maxLayer) snapshots) (bd_versionsBySnapshot b) in
      fs ← add_historical baseLayer maxLayer history (filter (fun f => ~ is_canonical f) (sc_Functions base)) (bd_functions b);
      let combined := combine baseLayer maxLayer (items (bd_constructors b)) (items fs) in
      _ ← validateLayeredIntervals combined;
      mret {| ls_BaseLayer := baseLayer; ls_MaxLayer := maxLayer; ls_Layers := layers; ls_Schema := combined |}
  end.

(** ** One layer of a base with historical functions *)

Definition ResolveSelectedLayer `{MapOrder} (base : option Schema) (baseLayer targetLayer : Z) (ds : list LayerDifference) : LR Schema :=
  match base with
  | None => Err NilSchema
  | Some b =>
      _ ← if existsb (fun f => negb (fn_VariantLayer f =? 0)) (sc_Functions b) then _ ← ResolveLayers base baseLayer ds; mret tt else mret tt;
      canonical ← ResolveLayer (Some (canonical_base b)) baseLayer targetLayer ds;
      _ ← validateHistoricalAcceptance b baseLayer (max_layer baseLayer ds);
      let withHistorical := with_Functions (sc_Functions canonical ++ filter (fun f => ~ is_canonical f) (sc_Functions b)) (cloneSchema canonical) in
      selected ← SelectBaselineLayer (Some withHistorical) targetLayer;
      _ ← validateBareLayouts selected;
      mret selected
  end.

(** * Intervals follow the history *)

(** What the intervals of a declaration look like once the snapshot of [layer] is placed:
    all but the last have ended, the last one is open while the declaration is in force. *)
Definition interval_shape (layer : Z) (in_force : bool) (ivs : list LayerInterval) : Prop :=
  exists pre i, ivs = pre ++ [i] /\ Forall (fun j => 0 < MaxLayer j < layer) pre /\ Forall inhabited_interval ivs /\
  if in_force then MaxLayer i = 0 /\ MinLayer i <= layer else 0 < MaxLayer i < layer.

Definition support_set (ivs : list LayerInterval) (P : Z -> Prop) : Prop := forall l, intervalsSupport ivs l = true <-> P l.

Lemma support_app a b l : intervalsSupport (a ++ b) l = true <-> intervalsSupport a l = true \/ intervalsSupport b l = true.
Proof. unfold intervalsSupport. by rewrite existsb_app, orb_true_iff. Qed.

Lemma support_one i l : intervalsSupport [i] l = true <-> covers i l.
Proof. rewrite support_cons. cbn. naive_solver. Qed.

Lemma set_last_app pre i m : set_last (pre ++ [i]) m = pre ++ [{| MinLayer := MinLayer i; MaxLayer := m |}].
Proof. unfold set_last. rewrite last_snoc, length_app. cbn. replace (length pre + 1 - 1)%nat with (length pre) by lia. by rewrite take_app_length. Qed.

Lemma shape_later layer layer' ivs : interval_shape layer false ivs -> layer < layer' -> interval_shape layer' false ivs.
Proof.
  intros (pre & i & -> & Hpre & Hin & Hi) Hl. exists pre, i. split_and!; try done; [|lia..].
  eapply Forall_impl; [done|]. cbn. lia.
Qed.

Lemma shape_new layer : interval_shape layer true [{| MinLayer := layer; MaxLayer := 0 |}].
Proof. exists [], {| MinLayer := layer; MaxLayer := 0 |}. split_and!; try done. repeat constructor. Qed.

Lemma open_shape layer layer' act ivs :
  layer < layer' -> interval_shape layer act ivs ->
  interval_shape layer' true (openInterval ivs layer') /\
  forall l, intervalsSupport (openInterval ivs layer') l = true <-> intervalsSupport ivs l = true \/ layer' <= l.
Proof.
  intros Hl (pre & i & -> & Hpre & Hin & Hi). unfold openInterval. rewrite last_snoc.
  assert (Hpre' : Forall (fun j => 0 < MaxLayer j < layer') pre) by (eapply Forall_impl; [done|]; cbn; lia).
  destruct act.
  - destruct Hi as [Hm Hmin]. rewrite Hm. cbn [Z.eqb orb]. rewrite set_last_app. split.
    + exists pre, {| MinLayer := MinLayer i; MaxLayer := 0 |}. apply Forall_app in Hin as [Hin _].
      split_and!; try done; [|cbn; lia]. apply Forall_app. split; [done|]. apply Forall_singleton. by left.
    + intros l. rewrite !support_app, !support_one. unfold covers. cbn. intuition lia.
  - replace (_ || _) with false by lia. split.
    + exists (pre ++ [i]), {| MinLayer := layer'; MaxLayer := 0 |}. split_and!; try done.
      * apply Forall_app. split; [done|]. apply Forall_singleton. lia.
      * apply Forall_app. split; [done|]. apply Forall_singleton. by left.
    + intros l. rewrite (support_app (pre ++ [i])), support_one. unfold covers. cbn. intuition lia.
Qed.

Lemma close_shape layer layer' ivs :
  0 < layer -> layer < layer' -> interval_shape layer true ivs ->
  interval_shape layer' false (closeInterval ivs (layer' - 1)) /\
  forall l, intervalsSupport (closeInterval ivs (layer' - 1)) l = true <-> intervalsSupport ivs l = true /\ l < layer'.
Proof.
  intros H0 Hl (pre & i & -> & Hpre & Hin & Hm & Hmin). unfold closeInterval. rewrite set_last_app. split.
  - exists pre, {| MinLayer := MinLayer i; MaxLayer := layer' - 1 |}. apply Forall_app in Hin as [Hin _]. split_and!; try done; [| |cbn; lia..].
    + eapply Forall_impl; [exact Hpre|]. cbn. lia.
    + apply Forall_app. split; [done|]. apply Forall_singleton. right. cbn. lia.
  - intros l. rewrite !support_app, !support_one. unfold covers. cbn.
    assert (Hend : intervalsSupport pre l = true -> l < layer').
    { rewrite support_spec. rewrite Forall_forall in Hpre. intros (j & Hj & Hc). specialize (Hpre j Hj). unfold covers in Hc. lia. }
    intuition lia.
Qed.

(** ** Slots follow the snapshots *)

Section slots_follow.
Context {D : Type} `{Layered D}.

(** The declarations in force at a layer, from the snapshots placed, the latest first. *)
Fixpoint in_force_at (history : list (Z * list D)) (l : Z) : list D :=
  match history with
  | [] => []
  | (layer, ds) :: history => if layer <=? l then ds else in_force_at history l
  end.
Definition latest (history : list (Z * list D)) : list D := match history with [] => [] | (_, ds) :: _ => ds end.
Definition latest_layer (history : list (Z * list D)) : Z := match history with [] => 0 | (layer, _) :: _ => layer end.

Definition index_ok (s : Slots D) : Prop :=
  (forall i d, items s !! i = Some d -> indexes s !! variantKey d = Some i) /\
  forall k i, indexes s !! k = Some i -> exists d, items s !! i = Some d /\ variantKey d = k.

(** One declaration, given the history without and the declarations placed since. *)
Definition item_ok (history : list (Z * list D)) (d : D) : Prop :=
  interval_shape (latest_layer history) (bool_decide (variantKey d ∈ map variantKey (latest history))) (intervals_of d) /\
  forall l, intervalsSupport (intervals_of d) l = true <-> variantKey d ∈ map variantKey (in_force_at history l).

Definition slots_ok (history : list (Z * list D)) (s : Slots D) : Prop :=
  index_ok s /\
  (forall k i, active s !! k = Some i <-> indexes s !! k = Some i /\ k ∈ map variantKey (latest history)) /\
  (forall d, d ∈ items s -> item_ok history d) /\
  (forall layer ds d, (layer, ds) ∈ history -> d ∈ ds -> is_Some (indexes s !! variantKey d)).

(** While the declarations [done] of the snapshot of [layer] have been placed. *)
Definition item_placed (history : list (Z * list D)) (layer : Z) (done : list (bytes * Z)) (d : D) : Prop :=
  if bool_decide (variantKey d ∈ done)
  then interval_shape layer true (intervals_of d) /\
       forall l, intervalsSupport (intervals_of d) l = true <-> variantKey d ∈ map variantKey (in_force_at history l) \/ layer <= l
  else item_ok history d.

Definition slots_placed (history : list (Z * list D)) (layer : Z) (done : list (bytes * Z)) (s : Slots D) : Prop :=
  index_ok s /\
  (forall k i, active s !! k = Some i <-> indexes s !! k = Some i /\ (k ∈ map variantKey (latest history) \/ k ∈ done)) /\
  (forall d, d ∈ items s -> item_placed history layer done d) /\
  (forall layer ds d, (layer, ds) ∈ history -> d ∈ ds -> is_Some (indexes s !! variantKey d)) /\
  forall k, k ∈ done -> is_Some (indexes s !! k).

Definition key_fresh (history : list (Z * list D)) (k : bytes * Z) : Prop := forall layer ds, (layer, ds) ∈ history -> k ∉ map variantKey ds.

Lemma in_force_fresh history k l : key_fresh history k -> k ∉ map variantKey (in_force_at history l).
Proof.
  induction history as [|[layer ds] history IH]; intros Hf; cbn; [set_solver|].
  destruct (layer <=? l); [apply (Hf layer); by left|]. apply IH. intros layer' ds' Hin. apply (Hf layer'). by right.
Qed.

Lemma index_ok_append s d :
  index_ok s -> indexes s !! variantKey d = None ->
  index_ok {| items := items s ++ [d]; indexes := <[variantKey d := length (items s)]> (indexes s); active := active s |}.
Proof.
  intros [Hi Hk] Hnone. split; cbn.
  - intros i e Hie. apply lookup_app_Some in Hie as [Hie|[Hlen Hie]].
    + rewrite lookup_insert_ne; [by apply Hi|]. intros Heq. apply Hi in Hie. congruence.
    + apply list_lookup_singleton_Some in Hie as [Hz <-]. rewrite lookup_insert_eq. f_equal. lia.
  - intros k i Hki. apply lookup_insert_Some in Hki as [[<- <-]|[Hne Hki]].
    + exists d. split; [|done]. rewrite lookup_app_r by lia. by rewrite Nat.sub_diag.
    + destruct (Hk k i Hki) as (e & He & Hke). exists e. split; [|done]. by apply lookup_app_l_Some.
Qed.

Lemma index_ok_alter (f : D -> D) i s a :
  (forall d, variantKey (f d) = variantKey d) -> index_ok s -> index_ok {| items := alter f i (items s); indexes := indexes s; active := a |}.
Proof.
  intros Hf [Hi Hk]. split; cbn.
  - intros j d Hj. rewrite list_lookup_alter in Hj. destruct (decide (i = j)) as [->|]; [|by apply Hi].
    apply fmap_Some in Hj as (e & He & ->). rewrite Hf. by apply Hi.
  - intros k j Hkj. destruct (Hk k j Hkj) as (d & Hd & Hkd). rewrite list_lookup_alter. destruct (decide (i = j)) as [->|]; rewrite Hd; [exists (f d); by rewrite Hf|by exists d].
Qed.

(** The items after one of them, found by its key, was changed. *)
Lemma altered_items (f : D -> D) k i s (P Q : D -> Prop) :
  index_ok s -> indexes s !! k = Some i ->
  (forall d, d ∈ items s -> variantKey d <> k -> P d -> Q d) -> (forall d, d ∈ items s -> variantKey d = k -> P d -> Q (f d)) ->
  (forall d, d ∈ items s -> P d) -> forall d, d ∈ alter f i (items s) -> Q d.
Proof.
  intros [Hi Hk] Hki Hother Hsame HP d [j Hj]%list_elem_of_lookup. rewrite list_lookup_alter in Hj. destruct (decide (i = j)) as [->|Hne].
  - apply fmap_Some in Hj as (e & He & ->). destruct (Hk _ _ Hki) as (e' & He' & Hke).
    assert (e ∈ items s) by (by eapply list_elem_of_lookup_2). apply Hsame; [done|congruence|by apply HP].
  - assert (d ∈ items s) by (by eapply list_elem_of_lookup_2). apply Hother; [done| |by apply HP].
    intros Heq. apply Hi in Hj. congruence.
Qed.

(** An item of which the key differs from the one just placed keeps its state. *)
Lemma item_placed_other history layer done k d :
  variantKey d <> k -> item_placed history layer done d -> item_placed history layer (done ++ [k]) d.
Proof.
  unfold item_placed. intros Hne. rewrite (bool_decide_ext (variantKey d ∈ done ++ [k]) (variantKey d ∈ done)); [done|].
  rewrite elem_of_app, list_elem_of_singleton. naive_solver.
Qed.

Lemma place_ok history layer done d s :
  latest_layer history < layer -> variantKey d ∉ done -> slots_placed history layer done s ->
  slots_placed history layer (done ++ [variantKey d]) (place layer d s).
Proof.
  intros Hl Hnew (Hix & Hact & Hit & Hhist & Hdone). unfold place. destruct (indexes s !! variantKey d) as [i|] eqn:Ei.
  - split_and!; cbn; [apply index_ok_alter; [intros; apply variantKey_set|done]| | |done|].
    + intros k j. rewrite lookup_insert_Some, Hact, elem_of_app, list_elem_of_singleton.
      destruct (decide (variantKey d = k)) as [<-|Hne]; [rewrite Ei; intuition congruence|intuition congruence].
    + eapply altered_items; [done|done|..|exact Hit].
      * intros e _ Hne He. by apply item_placed_other.
      * intros e _ Hke He. unfold item_placed in *. rewrite variantKey_set, Hke, intervals_set in *.
        rewrite bool_decide_false in He by done. rewrite bool_decide_true by (rewrite elem_of_app, list_elem_of_singleton; by right).
        destruct He as [Hshape Hsup]. destruct (open_shape _ layer _ _ Hl Hshape) as [Hs' Hsup']. split; [done|].
        intros l. rewrite Hsup', Hsup. by rewrite Hke.
    + intros k [Hk| ->%list_elem_of_singleton]%elem_of_app; eauto.
  - assert (Hfresh : forall e, e ∈ items s -> variantKey e <> variantKey d).
    { intros e [j Hj]%list_elem_of_lookup Heq. apply Hix in Hj. congruence. }
    split_and!; cbn.
    + pose proof (index_ok_append s (set_intervals [{| MinLayer := layer; MaxLayer := 0 |}] d) Hix) as Ha.
      rewrite variantKey_set in Ha. by apply Ha.
    + intros k j. rewrite !lookup_insert_Some, Hact, elem_of_app, list_elem_of_singleton.
      destruct (decide (variantKey d = k)) as [<-|Hne]; intuition congruence.
    + intros e [He| ->%list_elem_of_singleton]%elem_of_app; [by apply item_placed_other; auto|].
      unfold item_placed. rewrite variantKey_set, intervals_set, bool_decide_true by (rewrite elem_of_app, list_elem_of_singleton; by right).
      split; [apply shape_new|]. intros l. rewrite support_one. unfold covers. cbn.
      assert (variantKey d ∉ map variantKey (in_force_at history l)); [|intuition lia].
      apply in_force_fresh. intros layer' ds Hin (e & He & Hine)%list_elem_of_fmap. destruct (Hhist layer' ds e Hin Hine) as [j Hj]. congruence.
    + intros layer' ds e Hin He. rewrite lookup_insert_is_Some. destruct (decide (variantKey d = variantKey e)); eauto.
    + intros k [Hk| ->%list_elem_of_singleton]%elem_of_app; rewrite lookup_insert_is_Some; [|by left].
      destruct (decide (variantKey d = k)); eauto.
Qed.

Lemma place_fold_ok history layer ds done s :
  latest_layer history < layer -> NoDup (done ++ map variantKey ds) -> slots_placed history layer done s ->
  slots_placed history layer (done ++ map variantKey ds) (foldl (fun s d => place layer d s) s ds).
Proof.
  intros Hl. revert done s. induction ds as [|d ds IH]; intros done s Hnd Hs; cbn in *; [by rewrite app_nil_r|].
  rewrite (cons_middle (variantKey d)), app_assoc in *. apply IH; [done|]. apply place_ok; [done| |done].
  apply NoDup_app in Hnd as [Hnd _]. apply NoDup_app in Hnd as (_ & Hd & _). intros Hin. by apply (Hd _ Hin), list_elem_of_singleton.
Qed.

(** What closing does to an item, once its key was met. *)
Definition close_met (current : gset (bytes * Z)) (maxLayer : Z) (met : list (bytes * Z)) (d : D) : D :=
  if decide (variantKey d ∈ met /\ variantKey d ∉ current) then set_intervals (closeInterval (intervals_of d) maxLayer) d else d.

Lemma close_fold_ok (current : gset (bytes * Z)) maxLayer l s :
  index_ok s -> NoDup (l.*1) -> (forall k i, (k, i) ∈ l -> indexes s !! k = Some i) ->
  let s' := foldl (fun s '(key, i) =>
    if bool_decide (key ∈ current) then s
    else {| items := alter (fun d => set_intervals (closeInterval (intervals_of d) maxLayer) d) i (items s);
            indexes := indexes s; active := delete key (active s) |}) s l in
  indexes s' = indexes s /\
  (forall k, active s' !! k = if decide (k ∈ l.*1 /\ k ∉ current) then None else active s !! k) /\
  forall j, items s' !! j = close_met current maxLayer (l.*1) <$> items s !! j.
Proof.
  intros Hix. induction l as [|[key i] l IH] using rev_ind; intros Hnd Hl.
  - cbn. split_and!; [done|intros k; by rewrite decide_False by set_solver|]. intros j. destruct (items s !! j); [|done]. cbn.
    unfold close_met. by rewrite decide_False by set_solver.
  - rewrite fmap_app, NoDup_app in Hnd. destruct Hnd as (Hnd & Hdisj & _).
    destruct IH as (IHi & IHa & IHit); [done|intros k j Hkj; apply Hl; set_solver|].
    rewrite foldl_app. cbn zeta in *. set (s' := foldl _ _ l) in *. cbn [foldl].
    assert (Hmet : forall k, k ∈ (l ++ [(key, i)]).*1 <-> k ∈ l.*1 \/ k = key) by (intros k; rewrite fmap_app; set_solver).
    destruct (bool_decide_reflect (key ∈ current)) as [Hc|Hc].
    + split_and!; [done|intros k; rewrite IHa; apply decide_ext; rewrite Hmet; naive_solver|].
      intros j. rewrite IHit. destruct (items s !! j) as [d|]; [|done]. cbn. unfold close_met. f_equal. apply decide_ext. rewrite Hmet. naive_solver.
    + cbn. split_and!; [done| |].
      * intros k. rewrite lookup_delete, IHa. repeat case_decide; rewrite ?Hmet in *; naive_solver.
      * intros j. rewrite list_lookup_alter, !IHit. assert (Hkey : indexes s !! key = Some i) by (apply Hl; set_solver).
        destruct (decide (i = j)) as [->|Hne].
        -- destruct (proj2 Hix _ _ Hkey) as (d & Hd & Hkd). rewrite Hd. cbn. unfold close_met. rewrite Hkd.
           rewrite decide_False by (intros [Hin _]; apply (Hdisj key Hin); set_solver). rewrite decide_True; [done|]. rewrite Hmet. auto.
        -- destruct (items s !! j) as [d|] eqn:Ed; [|done]. cbn. unfold close_met. f_equal. apply decide_ext. rewrite Hmet.
           assert (variantKey d <> key) by (intros Heq; apply Hix in Ed; congruence). naive_solver.
Qed.

Lemma item_closed history layer ds d met :
  0 < latest_layer history \/ history = [] -> latest_layer history < layer ->
  (variantKey d ∈ met <-> variantKey d ∈ map variantKey (latest history) \/ variantKey d ∈ map variantKey ds) ->
  item_placed history layer (map variantKey ds) d ->
  item_ok ((layer, ds) :: history) (close_met (list_to_set (map variantKey ds)) (layer - 1) met d).
Proof.
  intros H0 Hl Hmet Hp. unfold item_placed, item_ok, close_met in *. cbn [latest latest_layer in_force_at].
  assert (Hlate : forall l, layer <= l -> in_force_at history l = latest history).
  { intros l Hle. destruct history as [|[layer' ds'] history]; [done|]. cbn in *. by replace (layer' <=? l) with true by lia. }
  destruct (bool_decide_reflect (variantKey d ∈ map variantKey ds)) as [Hin|Hout].
  - rewrite decide_False by (rewrite elem_of_list_to_set; tauto). rewrite bool_decide_true by done. destruct Hp as [Hs Hsup]. split; [done|].
    intros l. rewrite Hsup. destruct (Z.leb_spec layer l); intuition lia.
  - destruct Hp as [Hs Hsup]. destruct (bool_decide_reflect (variantKey d ∈ map variantKey (latest history))) as [Hla|Hla].
    + assert (Hpos : 0 < latest_layer history) by (destruct H0 as [?| ->]; [done|by apply elem_of_nil in Hla]).
      rewrite decide_True by (rewrite elem_of_list_to_set; tauto). rewrite variantKey_set, intervals_set, bool_decide_false by done.
      destruct (close_shape _ layer _ Hpos Hl Hs) as [Hs' Hsup']. split; [done|]. intros l. rewrite Hsup', Hsup.
      destruct (Z.leb_spec layer l); intuition lia.
    + rewrite decide_False by (rewrite Hmet; tauto). rewrite bool_decide_false by done. split; [by eapply shape_later|]. intros l. rewrite Hsup.
      destruct (Z.leb_spec layer l) as [Hle|]; [rewrite Hlate by done; tauto|done].
Qed.

Lemma place_all_ok `{MapOrder} history layer ds s :
  0 < latest_layer history \/ history = [] -> latest_layer history < layer -> NoDup (map variantKey ds) ->
  slots_ok history s -> slots_ok ((layer, ds) :: history) (place_all layer ds s).
Proof.
  intros Hpos Hl Hnd (Hix & Hact & Hit & Hhist). unfold place_all.
  assert (Hp : slots_placed history layer ([] ++ map variantKey ds) (foldl (fun s d => place layer d s) s ds)).
  { apply place_fold_ok; [done..|]. split_and!; try done.
    - intros k i. rewrite Hact. set_solver.
    - set_solver. }
  cbn in Hp. set (s1 := foldl _ s ds) in *. destruct Hp as (Hix1 & Hact1 & Hit1 & Hhist1 & Hdone1). unfold closeInactive.
  set (met := in_order (map_to_list (active s1))).
  assert (Hmet : forall k i, (k, i) ∈ met <-> active s1 !! k = Some i) by (intros; unfold met; rewrite in_order_perm; apply elem_of_map_to_list).
  assert (Hkeys : forall k, k ∈ met.*1 <-> is_Some (active s1 !! k)).
  { intros k. rewrite list_elem_of_fmap. split; [intros ([k' i] & -> & Hin%Hmet); by exists i|]. intros [i Hi%Hmet]. by exists (k, i). }
  destruct (close_fold_ok (list_to_set (map variantKey ds)) (layer - 1) met s1 Hix1) as (Ei & Ea & Eit).
  { unfold met. rewrite in_order_perm. apply NoDup_fst_map_to_list. }
  { intros k i Hki%Hmet. apply Hact1 in Hki. tauto. }
  cbn zeta in *. set (s2 := foldl _ s1 met) in *.
  assert (Hactive : forall d, d ∈ items s1 -> variantKey d ∈ met.*1 <-> variantKey d ∈ map variantKey (latest history) \/ variantKey d ∈ map variantKey ds).
  { intros d [i Hi]%list_elem_of_lookup. rewrite Hkeys. apply Hix1 in Hi. split; [intros [j Hj%Hact1]; tauto|]. intros Hor. exists i. by apply Hact1. }
  split_and!.
  - split.
    + intros i d Hi. rewrite Eit in Hi. apply fmap_Some in Hi as (e & He & ->). rewrite Ei. unfold close_met.
      case_decide; rewrite ?variantKey_set; by apply Hix1.
    + intros k i. rewrite Ei, Eit. intros Hki. destruct (proj2 Hix1 _ _ Hki) as (e & He & <-). rewrite He. cbn. eexists. split; [done|].
      unfold close_met. case_decide; by rewrite ?variantKey_set.
  - intros k i. cbn [latest]. rewrite Ea, Ei. case_decide as Hd; rewrite Hkeys, elem_of_list_to_set in Hd.
    + split; [done|]. intros [_ ?]. naive_solver.
    + rewrite Hact1. destruct (decide (k ∈ map variantKey ds)); [tauto|]. split; [|tauto]. intros [Hki Hor].
      exfalso. apply Hd. split; [exists i; by apply Hact1|done].
  - intros d [i Hi]%list_elem_of_lookup. rewrite Eit in Hi. apply fmap_Some in Hi as (e & He & ->). apply list_elem_of_lookup_2 in He.
    apply item_closed; auto.
  - intros layer' ds' d Hin Hd. rewrite Ei. apply elem_of_cons in Hin as [[= -> ->]|Hin]; [|eauto].
    apply Hdone1. apply list_elem_of_fmap. eauto.
Qed.

Definition holds_at (l : Z) (d : D) : Prop := intervalsSupport (intervals_of d) l = true.
#[global] Instance holds_at_dec l d : Decision (holds_at l d).
Proof. unfold holds_at. apply _. Defined.

Lemma index_ok_keys s : index_ok s -> NoDup (map variantKey (items s)).
Proof.
  intros [Hi _]. apply NoDup_alt. intros i j k Hik Hjk. apply list_lookup_fmap_Some in Hik as (d & Hkd & Hd), Hjk as (e & Hke & He).
  apply Hi in Hd, He. congruence.
Qed.

Lemma slots_in_force history s l :
  slots_ok history s -> (forall layer ds, (layer, ds) ∈ history -> NoDup (map variantKey ds)) ->
  map variantKey (filter (holds_at l) (items s)) ≡ₚ map variantKey (in_force_at history l).
Proof.
  intros (Hix & Hact & Hit & Hhist) Hnd.
  assert (Hin : in_force_at history l = [] \/ exists layer, (layer, in_force_at history l) ∈ history).
  { clear. induction history as [|[layer ds] history IH]; cbn; [by left|]. destruct (layer <=? l); [right; exists layer; by left|].
    destruct IH as [->|[layer' IH]]; [by left|]. right. exists layer'. by right. }
  apply NoDup_Permutation.
  - eapply sublist_NoDup; [by apply index_ok_keys|]. apply fmap_sublist, sublist_filter.
  - destruct Hin as [->|[layer Hin]]; [constructor|eauto].
  - intros k. rewrite list_elem_of_fmap. split.
    + intros (d & -> & [Hd Hdi]%list_elem_of_filter). by apply Hit.
    + intros Hk. pose proof Hk as (e & -> & He)%list_elem_of_fmap. destruct Hin as [Hn|[layer Hin]]; [rewrite Hn in He; by apply elem_of_nil in He|].
      destruct (Hhist _ _ _ Hin He) as [i Hi]. destruct (proj2 Hix _ _ Hi) as (d & Hd & Hkd). exists d. split; [done|].
      apply list_elem_of_lookup_2 in Hd. apply list_elem_of_filter. split; [|done]. apply Hit; [done|]. by rewrite Hkd.
Qed.

Lemma slots_inhabited history s d : slots_ok history s -> d ∈ items s -> Forall inhabited_interval (intervals_of d).
Proof. intros (_ & _ & Hit & _) Hd. destruct (Hit d Hd) as [(pre & i & _ & _ & Hin & _) _]. done. Qed.
End slots_follow.

(** A function that is determined by a key on two lists with the same keys. *)
Lemma map_through {A K C} (key : A -> K) (f : A -> C) (a b : list A) :
  map key a ≡ₚ map key b -> (forall x y, x ∈ a -> y ∈ b -> key x = key y -> f x = f y) -> map f a ≡ₚ map f b.
Proof.
  intros Hp Hf. destruct (Permutation_map_inv _ _ Hp) as (b' & Heq & Hb). rewrite Hb.
  assert (Hf' : forall x y, x ∈ a -> y ∈ b' -> key x = key y -> f x = f y) by (intros x y Hx Hy; apply Hf; [done|by rewrite Hb]).
  clear Hp Hf Hb. revert b' Heq Hf'. induction a as [|x a IH]; intros [|y b'] Heq Hf'; try done. cbn in *. injection Heq as Hk Heq.
  rewrite (Hf' x y); [|by left|by left|done]. apply perm_skip, IH; [done|]. intros x' y' Hx Hy. apply Hf'; by right.
Qed.

(** ** Variants tell contracts apart *)

Definition known_variants (all : Variants) (name : bytes) : list (Key * Z) := default [] (all !! name).

Definition variants_ok (layer : Z) (all : Variants) : Prop :=
  forall name, NoDup (known_variants all name).*2 /\ Forall (fun v => v.2 <= layer) (known_variants all name).
Definition variants_below (layer : Z) (all : Variants) (name : bytes) : Prop := Forall (fun v => v.2 < layer) (known_variants all name).

Lemma variants_later layer layer' all name : variants_ok layer all -> layer < layer' -> variants_ok layer' all /\ variants_below layer' all name.
Proof.
  intros Hok Hl. split; [intros n; split; [apply Hok|]|]; (eapply Forall_impl; [apply Hok|]); cbn; lia.
Qed.

Lemma variants_unique layer all name k k' v : variants_ok layer all -> (k, v) ∈ known_variants all name -> (k', v) ∈ known_variants all name -> k = k'.
Proof.
  intros Hok [i Hi]%list_elem_of_lookup [j Hj]%list_elem_of_lookup. destruct (Hok name) as [Hnd _].
  assert (i = j) as ->; [|congruence]. eapply NoDup_lookup; [exact Hnd|..]; rewrite list_lookup_fmap; [by rewrite Hi|by rewrite Hj].
Qed.

Lemma contractVariantLayer_spec layer all name signature all' v :
  0 < layer -> variants_ok layer all -> variants_below layer all name -> contractVariantLayer all name signature layer = (all', v) ->
  variants_ok layer all' /\ (signature, v) ∈ known_variants all' name /\
  (forall n k, k ∈ known_variants all n -> k ∈ known_variants all' n) /\
  forall n, n <> name -> known_variants all' n = known_variants all n.
Proof.
  unfold contractVariantLayer, find_variant. fold (known_variants all name). intros Hpos Hok Hbelow.
  destruct (list_find _ _) as [[i [k u]]|] eqn:Ef; cbn.
  - intros [= <- <-]. apply list_find_Some in Ef as (Hi & Hk & _). cbn in Hk. subst k. split_and!; [done|by eapply list_elem_of_lookup_2|done..].
  - intros [= <- <-]. set (number := match known_variants all name with [] => 0 | _ => layer end).
    assert (Hthis : known_variants (<[name := known_variants all name ++ [(signature, number)]]> all) name = known_variants all name ++ [(signature, number)])
      by (unfold known_variants; by rewrite lookup_insert_eq).
    assert (Hother : forall n, n <> name -> known_variants (<[name := known_variants all name ++ [(signature, number)]]> all) n = known_variants all n)
      by (intros n Hn; unfold known_variants; by rewrite lookup_insert_ne).
    split_and!; [|rewrite Hthis; set_solver| |done].
    + intros n. destruct (decide (n = name)) as [->|Hne]; [|by rewrite Hother]. rewrite Hthis. destruct (Hok name) as [Hnd Hle]. split.
      * rewrite fmap_app. apply NoDup_app. split_and!; [done| |by apply NoDup_singleton].
        intros u ([k u'] & -> & Hu)%list_elem_of_fmap Hn%list_elem_of_singleton. unfold variants_below in Hbelow. rewrite Forall_forall in Hbelow.
        specialize (Hbelow _ Hu). cbn in *. subst u' number. destruct (known_variants all name); [by apply elem_of_nil in Hu|lia].
      * apply Forall_app. split; [done|]. apply Forall_singleton. subst number. cbn. destruct (known_variants all name); lia.
    + intros n k Hk. destruct (decide (n = name)) as [->|Hne]; [rewrite Hthis|by rewrite Hother]. apply elem_of_app. by left.
Qed.

(** ** The combined declarations of one kind *)

Section combined.
Context {V C D S E : Type} `{Layered D}.
(** How a declaration is projected at a layer, and which contract a variant stands for. *)
Context (project : V -> C -> V * D) (name_of : C -> bytes) (sig : D -> S) (contract_of : C -> E) (contract : D -> E).
Context (known : V -> bytes * Z -> S -> Prop) (ok : Z -> V -> Prop) (below : Z -> V -> bytes -> Prop).

Definition projects (layer : Z) : Prop := forall v c v' d,
  ok layer v -> below layer v (name_of c) -> project v c = (v', d) ->
  ok layer v' /\ (forall k s, known v k s -> known v' k s) /\ known v' (variantKey d) (sig d) /\ (variantKey d).1 = name_of c /\
  contract d = contract_of c /\ forall n, n <> name_of c -> below layer v n -> below layer v' n.

Lemma project_all_spec layer v cs v' ds :
  projects layer -> NoDup (map name_of cs) -> ok layer v -> (forall n, n ∈ map name_of cs -> below layer v n) -> project_all project v cs = (v', ds) ->
  ok layer v' /\ (forall k s, known v k s -> known v' k s) /\ (forall d, d ∈ ds -> known v' (variantKey d) (sig d)) /\
  NoDup (map variantKey ds) /\ map contract ds = map contract_of cs.
Proof.
  intros Hp Hnd. enough (Hnames : ok layer v -> (forall n, n ∈ map name_of cs -> below layer v n) -> project_all project v cs = (v', ds) ->
    ok layer v' /\ (forall k s, known v k s -> known v' k s) /\ (forall d, d ∈ ds -> known v' (variantKey d) (sig d)) /\
    map (fun d => (variantKey d).1) ds = map name_of cs /\ map contract ds = map contract_of cs).
  { intros Hok Hb He. destruct (Hnames Hok Hb He) as (? & ? & ? & Hn & ?). split_and!; try done.
    rewrite <- Hn in Hnd. rewrite <- (map_map variantKey fst) in Hnd. by apply NoDup_fmap_1 in Hnd. }
  revert v v' ds. induction cs as [|c cs IH]; intros v v' ds Hok Hb; cbn.
  - intros [= <- <-]. split_and!; try done. set_solver.
  - destruct (project v c) as [v1 d] eqn:E1. destruct (project_all project v1 cs) as [v2 ds'] eqn:E2. intros [= <- <-].
    destruct (Hp _ _ _ _ Hok (Hb _ ltac:(by left)) E1) as (Hok1 & Hm1 & Hk1 & Hn1 & Hc1 & Hb1). cbn in Hnd. apply NoDup_cons in Hnd as [Hc Hnd].
    destruct (IH Hnd v1 v2 ds' Hok1) as (Hok2 & Hm2 & Hk2 & Hn2 & Hc2); [|done|].
    { intros n Hn. apply Hb1; [intros ->; done|]. apply Hb. by right. }
    split_and!; [done|auto| |cbn; by rewrite Hn1, Hn2|cbn; by rewrite Hc1, Hc2].
    intros e [->|He]%elem_of_cons; auto.
Qed.

Definition combined_ok (history : list (Z * list D)) (v : V) (s : Slots D) : Prop :=
  slots_ok history s /\ ok (latest_layer history) v /\
  (forall d, d ∈ items s -> known v (variantKey d) (sig d)) /\
  forall layer ds, (layer, ds) ∈ history -> NoDup (map variantKey ds) /\ forall d, d ∈ ds -> known v (variantKey d) (sig d).

Context (sig_intervals : forall ivs d, sig (set_intervals ivs d) = sig d).
Context (known_unique : forall layer v k s s', ok layer v -> known v k s -> known v k s' -> s = s').
Context (ok_later : forall layer layer' v, ok layer v -> layer < layer' -> ok layer' v /\ forall n, below layer' v n).
Context (sig_contract : forall d e, sig d = sig e -> contract d = contract e).

Lemma place_items layer d s e : e ∈ items (place layer d s) -> exists e', (e' ∈ items s \/ e' = d) /\ variantKey e = variantKey e' /\ sig e = sig e'.
Proof.
  unfold place. destruct (indexes s !! variantKey d) as [i|]; cbn; [intros [j Hj]%list_elem_of_lookup|intros [He| ->%list_elem_of_singleton]%elem_of_app].
  - rewrite list_lookup_alter in Hj. destruct (decide (i = j)) as [->|]; [|exists e; split; [left; by eapply list_elem_of_lookup_2|done]].
    apply fmap_Some in Hj as (e' & He' & ->). exists e'. rewrite variantKey_set, sig_intervals. split; [left; by eapply list_elem_of_lookup_2|done].
  - exists e. auto.
  - exists d. rewrite variantKey_set, sig_intervals. auto.
Qed.

Lemma place_fold_items layer ds s e :
  e ∈ items (foldl (fun s d => place layer d s) s ds) -> exists e', (e' ∈ items s \/ e' ∈ ds) /\ variantKey e = variantKey e' /\ sig e = sig e'.
Proof.
  revert s. induction ds as [|d ds IH]; intros s; cbn; [intros He; exists e; auto|]. intros (e1 & [H1|H1] & Hk1 & Hs1)%IH.
  - destruct (place_items _ _ _ _ H1) as (e2 & [H2| ->] & Hk2 & Hs2); [exists e2|exists d]; (split; [|split; congruence]); [by left|right; by left].
  - exists e1. split; [right; by right|done].
Qed.

Lemma close_items `{MapOrder} current maxLayer s e : e ∈ items (closeInactive current maxLayer s) -> exists e', e' ∈ items s /\ variantKey e = variantKey e' /\ sig e = sig e'.
Proof.
  unfold closeInactive. generalize (in_order (map_to_list (active s))). intros l. revert s. induction l as [|[k i] l IH]; intros s; cbn; [eauto|].
  intros (e1 & H1 & Hk1 & Hs1)%IH. destruct (bool_decide _); [by exists e1|]. cbn in H1. apply list_elem_of_lookup in H1 as [j Hj].
  rewrite list_lookup_alter in Hj. destruct (decide (i = j)) as [->|]; [|exists e1; split; [by eapply list_elem_of_lookup_2|done]].
  apply fmap_Some in Hj as (e2 & H2 & ->). exists e2. rewrite variantKey_set, sig_intervals in *. split; [by eapply list_elem_of_lookup_2|done].
Qed.

Lemma combined_step `{MapOrder} history layer v s cs v' ds :
  combined_ok history v s -> 0 < latest_layer history \/ history = [] -> latest_layer history < layer ->
  projects layer -> NoDup (map name_of cs) -> project_all project v cs = (v', ds) ->
  combined_ok ((layer, ds) :: history) v' (place_all layer ds s) /\ map contract ds = map contract_of cs.
Proof.
  intros (Hs & Hok & Hit & Hh) H0' Hl Hp Hnd He. destruct (ok_later _ layer _ Hok Hl) as [Hok' Hb].
  destruct (project_all_spec _ _ _ _ _ Hp Hnd Hok' (fun n _ => Hb n) He) as (Hok2 & Hm & Hk & Hnk & Hc). split; [|done].
  split_and!; [by apply place_all_ok|done| |].
  - intros d (e1 & H1 & Hk1 & Hs1)%close_items. destruct (place_fold_items _ _ _ _ H1) as (e2 & H2 & Hk2 & Hs2).
    rewrite Hk1, Hk2, Hs1, Hs2. destruct H2 as [H2|H2]; auto.
  - intros layer' ds' [[= -> ->]|Hin]%elem_of_cons; [done|]. destruct (Hh _ _ Hin) as [Hn1 Hk1]. auto.
Qed.

Lemma combined_in_force history v s l :
  combined_ok history v s -> map contract (filter (holds_at l) (items s)) ≡ₚ map contract (in_force_at history l).
Proof.
  intros (Hs & Hok & Hit & Hh). eapply map_through; [apply slots_in_force; [done|]; intros layer ds Hin; by destruct (Hh _ _ Hin)|].
  intros x y Hx Hy Hxy. apply list_elem_of_filter in Hx as [_ Hx]. apply sig_contract, (known_unique _ _ (variantKey y) _ _ Hok); [rewrite <- Hxy; auto|].
  assert (Hin : exists layer ds, (layer, ds) ∈ history /\ y ∈ ds); [|destruct Hin as (layer & ds & Hin & Hyd); by apply (Hh _ _ Hin)].
  clear - Hy. induction history as [|[layer ds] history IH]; cbn in Hy; [by apply elem_of_nil in Hy|].
  destruct (layer <=? l); [exists layer, ds; split; [by left|done]|]. destruct (IH Hy) as (layer' & ds' & ? & ?). exists layer', ds'. split; [by right|done].
Qed.
End combined.

(** ** Contracts as declared: without the variants of bare references *)

Fixpoint forget (t : TypeRef) : TypeRef := with_reference (match tr_Generic t with Some g => Some (forget g) | None => None end) 0 t.
Definition forget_parameters (ps : list Parameter_) : list Parameter_ :=
  map (fun p => {| pa_Name := pa_Name p; pa_Type := forget (pa_Type p); pa_FlagBit := pa_FlagBit p |}) ps.

Definition constructor_contract (c : Constructor) : Key :=
  jobject [jstring (ct_Name c); jnumber (ct_ID c); semanticGenerics (ct_GenericParams c); semanticParameters (forget_parameters (ct_Params c));
           semanticReference (forget (ct_ResultType c)); jbool (ct_IsBare c); jstring (stringValue (ct_VectorCount c))].
Definition function_contract (f : FuncDecl) : Key :=
  jobject [jstring (fn_Name f); jnumber (fn_ID f); semanticGenerics (fn_GenericParams f); semanticParameters (forget_parameters (fn_Params f));
           semanticReference (forget (fn_ResultType f)); jbool (fn_IsTemplate f); jbool (fn_IsHelper f)].

(** The declared contract, computed from the signature. *)
Fixpoint erase_reference (k : Key) : Key :=
  match k with
  | GenNode n [a; b; c; d; e; f; g; h; generic; flag; variant] => GenNode n [a; b; c; d; e; f; g; h; erase_reference generic; flag; jnumber 0]
  | k => k
  end.
Definition erase_parameter (k : Key) : Key := match k with GenNode n [a; r; b] => GenNode n [a; erase_reference r; b] | k => k end.
Definition erase_parameters (k : Key) : Key := match k with GenNode n ps => GenNode n (map erase_parameter ps) | k => k end.
Definition erase_constructor (k : Key) : Key :=
  match k with GenNode n [a; b; c; ps; r; d; e] => GenNode n [a; b; c; erase_parameters ps; erase_reference r; d; e] | k => k end.

Lemma erase_reference_spec t : semanticReference (forget t) = erase_reference (semanticReference t).
Proof.
  induction t as [t IH] using TypeRef_element_ind. destruct t as [n ns isv b [g|] ga o fl bit tv vl]; cbn; [|done].
  by rewrite (IH g).
Qed.

Lemma erase_parameters_spec ps : semanticParameters (forget_parameters ps) = erase_parameters (semanticParameters ps).
Proof.
  unfold semanticParameters, forget_parameters. cbn. f_equal. rewrite !map_map. apply map_ext. intros p. cbn. by rewrite erase_reference_spec.
Qed.

Lemma forget_annotate versions t : forget (annotateBareTypeRef versions t) = forget t.
Proof. induction t as [t IH] using TypeRef_element_ind. destruct t as [n ns isv b [g|] ga o fl bit tv vl]; cbn; [|done]. by rewrite (IH g). Qed.

Lemma forget_annotate_parameters versions ps : forget_parameters (annotateBareParameters versions ps) = forget_parameters ps.
Proof. unfold forget_parameters, annotateBareParameters. rewrite map_map. apply map_ext. intros p. cbn. by rewrite forget_annotate. Qed.

Lemma constructor_sig_contract c d : constructorContractSignature c = constructorContractSignature d -> constructor_contract c = constructor_contract d.
Proof.
  assert (Hs : forall c, constructor_contract c = erase_constructor (constructorContractSignature c)).
  { intros e. unfold constructor_contract. rewrite erase_parameters_spec, erase_reference_spec. done. }
  intros Heq. by rewrite !Hs, Heq.
Qed.

(** The constructors' variants. *)
Definition known_constructor (all : Variants) (k : bytes * Z) (s : Key) : Prop := (s, k.2) ∈ known_variants all k.1.

Lemma constructors_project layer versions :
  0 < layer -> projects (project_constructor layer versions) ct_Name constructorContractSignature constructor_contract constructor_contract
    known_constructor variants_ok variants_below layer.
Proof.
  intros Hpos all c all' d Hok Hb. unfold project_constructor. destruct (contractVariantLayer _ _ _ _) as [all1 v] eqn:E. intros [= <- <-].
  destruct (contractVariantLayer_spec _ _ _ _ _ _ Hpos Hok Hb E) as (Hok' & Hin & Hm & Ho). cbn in *. split_and!; try done.
  - intros k s. apply Hm.
  - unfold constructor_contract. cbn. by rewrite forget_annotate_parameters, forget_annotate.
  - intros n Hn. unfold variants_below. by rewrite Ho.
Qed.

Lemma known_constructor_unique layer all k s s' : variants_ok layer all -> known_constructor all k s -> known_constructor all k s' -> s = s'.
Proof. apply variants_unique. Qed.

(** The functions' variants: a handler's contract names the request's. *)
Definition function_sig (f : FuncDecl) : Key * Key := (functionRequestSignature f, contractTypeRef (fn_ResultType f)).
Definition known_function (all : Variants * Variants) (k : bytes * Z) (s : Key * Key) : Prop :=
  exists request, (s.1, request) ∈ known_variants all.1 k.1 /\ (jobject [jnumber request; s.2], k.2) ∈ known_variants all.2 k.1.
Definition both_ok (layer : Z) (all : Variants * Variants) : Prop := variants_ok layer all.1 /\ variants_ok layer all.2.
Definition both_below (layer : Z) (all : Variants * Variants) (name : bytes) : Prop := variants_below layer all.1 name /\ variants_below layer all.2 name.

Definition erase_request (k : Key) : list Key := match k with GenNode _ [a; b; c; ps; d; e] => [a; b; c; erase_parameters ps; d; e] | _ => [] end.

Lemma function_sig_contract f g : function_sig f = function_sig g -> function_contract f = function_contract g.
Proof.
  assert (Hs : forall f, function_contract f =
    match erase_request (function_sig f).1 with [a; b; c; ps; d; e] => jobject [a; b; c; ps; erase_reference (function_sig f).2; d; e] | _ => jnull end).
  { intros h. unfold function_contract. rewrite erase_parameters_spec, erase_reference_spec. done. }
  intros Heq. by rewrite !Hs, Heq.
Qed.

Lemma functions_project layer versions :
  0 < layer -> projects (project_function layer versions) fn_Name function_sig function_contract function_contract known_function both_ok both_below layer.
Proof.
  intros Hpos [rs hs] f [rs' hs'] d [Hokr Hokh] [Hbr Hbh]. unfold project_function. cbn [fst snd] in *.
  destruct (contractVariantLayer rs _ _ _) as [rs1 r] eqn:Er. destruct (contractVariantLayer hs _ _ _) as [hs1 v] eqn:Eh. intros [= <- <- <-].
  destruct (contractVariantLayer_spec _ _ _ _ _ _ Hpos Hokr Hbr Er) as (Hokr' & Hinr & Hmr & Hor).
  destruct (contractVariantLayer_spec _ _ _ _ _ _ Hpos Hokh Hbh Eh) as (Hokh' & Hinh & Hmh & Hoh). cbn in *. split_and!; try done.
  - intros k s (request & H1 & H2). exists request. split; [by apply Hmr|by apply Hmh].
  - exists r. split; done.
  - unfold function_contract. cbn. by rewrite forget_annotate_parameters, forget_annotate.
  - intros n Hn [H1 H2]. unfold both_below, variants_below. cbn. by rewrite Hor, Hoh.
Qed.

Lemma constructor_sig_intervals ivs (c : Constructor) : constructorContractSignature (set_intervals ivs c) = constructorContractSignature c.
Proof. done. Qed.

Lemma function_sig_intervals ivs (f : FuncDecl) : function_sig (set_intervals ivs f) = function_sig f.
Proof. done. Qed.

Lemma variants_ok_later layer layer' all : variants_ok layer all -> layer < layer' -> variants_ok layer' all /\ forall n, variants_below layer' all n.
Proof. intros Hok Hl. split; [by apply (variants_later layer layer' all [])|]. intros n. by apply (variants_later layer layer'). Qed.

Lemma both_ok_later layer layer' all : both_ok layer all -> layer < layer' -> both_ok layer' all /\ forall n, both_below layer' all n.
Proof. intros [Hr Hh] Hl. destruct (variants_ok_later _ _ _ Hr Hl), (variants_ok_later _ _ _ Hh Hl). split; [by split|]. intros n. split; auto. Qed.

Lemma known_function_unique layer all k s s' : both_ok layer all -> known_function all k s -> known_function all k s' -> s = s'.
Proof.
  intros [Hr Hh] (r & H1 & H2) (r' & H1' & H2'). destruct s as [req res], s' as [req' res']. cbn in *.
  pose proof (variants_unique _ _ _ _ _ _ Hh H2 H2') as Heq. injection Heq as <- <-. f_equal. exact (variants_unique _ _ _ _ _ _ Hr H1 H1').
Qed.

(** ** All snapshots *)

Abbreviation constructors_ok := (combined_ok constructorContractSignature known_constructor variants_ok).
Abbreviation functions_ok := (combined_ok function_sig known_function both_ok).

Definition building_ok (hc : list (Z * list Constructor)) (hf : list (Z * list FuncDecl)) (b : Building) : Prop :=
  constructors_ok hc (bd_constructorVariants b) (bd_constructors b) /\
  functions_ok hf (bd_requestVariants b, bd_handlerVariants b) (bd_functions b) /\ map fst hc = map fst hf.

Definition snapshot_ok (s : Schema) : Prop :=
  NoDup (map ct_Name (sc_Constructors s)) /\ NoDup (map fn_Name (filter is_canonical (sc_Functions s))).

Lemma latest_layer_map {D E} (h : list (Z * list D)) (h' : list (Z * list E)) : map fst h = map fst h' -> latest_layer h = latest_layer h'.
Proof. destruct h as [|[l ds] h], h' as [|[l' ds'] h']; cbn; congruence. Qed.

Lemma nothing_built_ok : building_ok [] [] nothing_built.
Proof.
  assert (Hv : variants_ok 0 ∅).
  { intros n. replace (known_variants ∅ n) with (@nil (Key * Z)) by (unfold known_variants; by rewrite lookup_empty). split; constructor. }
  split_and!; [..|done]; (split_and!; [split_and!|done|intros d Hd; by apply elem_of_nil in Hd|intros l ds Hd; by apply elem_of_nil in Hd]);
    cbn; try (split; [intros i d Hi|intros k i Hi]; done); try set_solver.
Qed.

Lemma add_snapshot_ok `{MapOrder} hc hf layer s b b' :
  building_ok hc hf b -> 0 < latest_layer hc \/ hc = [] -> latest_layer hc < layer -> 0 < layer -> snapshot_ok s ->
  add_snapshot layer s b = Ok b' ->
  exists cs fs, building_ok ((layer, cs) :: hc) ((layer, fs) :: hf) b' /\
    map constructor_contract cs = map constructor_contract (sc_Constructors s) /\
    map function_contract fs = map function_contract (filter is_canonical (sc_Functions s)).
Proof.
  intros (Hc & Hf & Hmap) Hfirst Hl Hpos [Hcn Hfn] Hadd. unfold add_snapshot in Hadd. apply result_bind_Ok in Hadd as ([types versions] & _ & Hadd).
  destruct (project_all (project_constructor layer versions) _ _) as [cv cs] eqn:Ec.
  destruct (project_all (project_function layer versions) _ _) as [fv fs] eqn:Ef. injection Hadd as <-. exists cs, fs.
  assert (Hfirst' : 0 < latest_layer hf \/ hf = []).
  { rewrite <- (latest_layer_map _ _ Hmap). destruct Hfirst as [?| ->]; [by left|right]. by destruct hf. }
  destruct (combined_step _ _ _ _ _ _ _ _ constructor_sig_intervals variants_ok_later _ layer _ _ _ _ _ Hc Hfirst Hl
    (constructors_project layer versions Hpos) Hcn Ec) as [Hc' Ecs].
  rewrite (latest_layer_map _ _ Hmap) in Hl.
  destruct (combined_step _ _ _ _ _ _ _ _ function_sig_intervals both_ok_later _ layer _ _ _ _ _ Hf Hfirst' Hl
    (functions_project layer versions Hpos) Hfn Ef) as [Hf' Efs].
  split_and!; [|done..]. split_and!; [done| |cbn; by rewrite Hmap]. by destruct fv.
Qed.

(** Every entry of the history holds the contracts of one of the snapshots. *)
Definition history_of {C D} (contract_of : C -> Key) (contract : D -> Key) (part : Schema -> list C) (snapshots : list (Z * Schema)) (history : list (Z * list D)) : Prop :=
  forall layer ds, (layer, ds) ∈ history -> exists s, (layer, s) ∈ snapshots /\ map contract ds = map contract_of (part s).

Lemma add_snapshots_ok `{MapOrder} placed hc hf snapshots b b' :
  building_ok hc hf b -> 0 < latest_layer hc \/ hc = [] ->
  StronglySorted Z.lt (latest_layer hc :: map fst snapshots) -> Forall (fun p => snapshot_ok p.2) snapshots -> Forall (Z.lt 0) (map fst snapshots) ->
  history_of constructor_contract constructor_contract sc_Constructors placed hc ->
  history_of function_contract function_contract (fun s => filter is_canonical (sc_Functions s)) placed hf ->
  add_snapshots snapshots b = Ok b' ->
  exists hc' hf', building_ok hc' hf' b' /\ map fst hc' = rev (map fst snapshots) ++ map fst hc /\
    history_of constructor_contract constructor_contract sc_Constructors (placed ++ snapshots) hc' /\
    history_of function_contract function_contract (fun s => filter is_canonical (sc_Functions s)) (placed ++ snapshots) hf'.
Proof.
  revert placed hc hf b. induction snapshots as [|[layer s] snapshots IH]; intros placed hc hf b Hb Hfirst Hsort Hok Hpos Hhc Hhf Hadd; cbn in *.
  - injection Hadd as <-. exists hc, hf. rewrite app_nil_r. done.
  - apply result_bind_Ok in Hadd as (b1 & Hb1 & Hadd). inversion_clear Hsort as [|? ? Hsort' Hall]. inversion_clear Hok as [|? ? Hs Hoks].
    inversion_clear Hpos as [|? ? Hl0 Hpos']. inversion_clear Hall as [|? ? Hl Hall'].
    destruct (add_snapshot_ok _ _ _ _ _ _ Hb Hfirst Hl Hl0 Hs Hb1) as (cs & fs & Hbo & Ecs & Efs).
    rewrite (cons_middle (layer, s)), app_assoc.
    destruct (IH (placed ++ [(layer, s)]) ((layer, cs) :: hc) ((layer, fs) :: hf) b1 Hbo) as (hc' & hf' & H1 & H2 & H3 & H4); try done; [by left|..].
    + intros l ds [[= -> ->]|Hin]%elem_of_cons; [exists s|destruct (Hhc _ _ Hin) as (s' & Hs' & He); exists s']; (split; [set_solver|done]).
    + intros l ds [[= -> ->]|Hin]%elem_of_cons; [exists s|destruct (Hhf _ _ Hin) as (s' & Hs' & He); exists s']; (split; [set_solver|done]).
    + exists hc', hf'. split_and!; try done. rewrite H2. cbn. by rewrite <- app_assoc.
Qed.

(** The entry in force at a layer is the latest one that does not come after it. *)
Lemma in_force_latest {D} (history : list (Z * list D)) l :
  StronglySorted (fun a b => b < a) (map fst history) -> (exists layer, layer ∈ map fst history /\ layer <= l) ->
  exists layer, (layer, in_force_at history l) ∈ history /\ layer <= l /\ forall layer', layer' ∈ map fst history -> layer' <= l -> layer' <= layer.
Proof.
  induction history as [|[layer ds] history IH]; cbn; intros Hs (l0 & Hin & Hl0); [by apply elem_of_nil in Hin|].
  inversion_clear Hs as [|? ? Hs' Hall]. rewrite Forall_forall in Hall. destruct (Z.leb_spec layer l).
  - exists layer. split_and!; [by left|done|]. intros layer' [->|Hin']%elem_of_cons Hle; [lia|]. specialize (Hall _ Hin'). lia.
  - destruct IH as (layer1 & H1 & H2 & H3); [done|apply elem_of_cons in Hin as [->|Hin]; [lia|eauto]|].
    exists layer1. split_and!; [by right|done|]. intros layer' [->|Hin']%elem_of_cons Hle; [lia|auto].
Qed.

(** ** Historical functions *)

(** The layers a historical function of the base accepts, and whether one of them is within the history. *)
Definition accepts (f : FuncDecl) (l : Z) : Prop := exists i, i ∈ fn_AcceptIntervals f /\ MinLayer i <= l <= MaxLayer i.

Definition accepted_within (baseLayer maxLayer : Z) (f : FuncDecl) : Prop :=
  ~ is_canonical f /\ Exists (fun i => Z.max baseLayer (MinLayer i) <= Z.min maxLayer (MaxLayer i)) (fn_AcceptIntervals f).
#[export] Instance accepted_within_dec lo hi f : Decision (accepted_within lo hi f).
Proof. unfold accepted_within. apply _. Defined.

Lemma accepted_within_accepts lo hi f :
  lo <= hi -> accepted_within lo hi f <-> ~ is_canonical f /\ exists l, lo <= l <= hi /\ accepts f l.
Proof.
  intros Hlo. unfold accepted_within, accepts. rewrite Exists_exists. split; (intros [Hc Hrest]; split; [done|]).
  - destruct Hrest as (i & Hi & Hle). exists (Z.max lo (MinLayer i)). split; [lia|]. exists i. split; [done|lia].
  - destruct Hrest as (l & Hl & i & Hi & Hil). exists i. split; [done|lia].
Qed.

(** What the combined schema holds of a historical function: its contract and variant, at the layers of the history it accepts. *)
Definition historical_form (baseLayer maxLayer : Z) (f h : FuncDecl) : Prop :=
  function_contract h = function_contract f /\ fn_VariantLayer h = fn_VariantLayer f /\
  fn_RequestVariantLayer h = (if fn_RequestVariantLayer f =? 0 then fn_VariantLayer f else fn_RequestVariantLayer f) /\
  Forall inhabited_interval (fn_Intervals h) /\ forall l, holds_at l h <-> baseLayer <= l <= maxLayer /\ accepts f l.

Lemma intersect_accepted lo hi f : ~ is_canonical f -> intersectIntervals (fn_AcceptIntervals f) lo hi <> [] <-> accepted_within lo hi f.
Proof.
  intros Hc. unfold accepted_within. rewrite Exists_exists. split.
  - intros Hne. split; [done|]. destruct (intersectIntervals _ _ _) as [|j js] eqn:E; [done|].
    assert (Hj : j ∈ intersectIntervals (fn_AcceptIntervals f) lo hi) by (rewrite E; by left).
    apply list_elem_of_omap in Hj as (i & Hi & He). cbn in He. exists i. split; [done|].
    destruct (Z.ltb_spec (MinLayer i) lo), (Z.ltb_spec hi (MaxLayer i)), (_ <=? _) eqn:El in He; bools; try done; lia.
  - intros (_ & i & Hi & Hle) Hnil.
    assert (Hj : exists j, j ∈ intersectIntervals (fn_AcceptIntervals f) lo hi).
    { eexists. apply list_elem_of_omap. exists i. split; [done|]. cbn. rewrite (proj2 (Z.leb_le _ _)); [done|].
      destruct (Z.ltb_spec (MinLayer i) lo), (Z.ltb_spec hi (MaxLayer i)); lia. }
    destruct Hj as [j Hj]. rewrite Hnil in Hj. by apply elem_of_nil in Hj.
Qed.

Lemma intersect_inhabited ivs lo hi : Forall inhabited_interval (intersectIntervals ivs lo hi).
Proof.
  apply Forall_forall. intros i (j & Hj & He)%list_elem_of_omap. cbn in He. set (min := if _ <? _ then _ else _) in He. set (max := if hi <? _ then _ else _) in He.
  destruct (Z.leb_spec min max); [|done]. injection He as <-. right. done.
Qed.

Lemma intersect_supports ivs lo hi l :
  0 < lo -> intervalsSupport (intersectIntervals ivs lo hi) l = true <-> lo <= l <= hi /\ exists i, i ∈ ivs /\ MinLayer i <= l <= MaxLayer i.
Proof.
  intros Hlo. unfold intervalsSupport. rewrite existsb_exists. split.
  - intros (j & Hj%list_elem_of_In & Hs). apply list_elem_of_omap in Hj as (i & Hi & He). cbn in He.
    destruct (Z.ltb_spec (MinLayer i) lo), (Z.ltb_spec hi (MaxLayer i)), (_ <=? _) eqn:El in He; simplify_eq/=; bools;
      (split; [lia|exists i; split; [done|lia]]).
  - intros (Hl & i & Hi & Hil). eexists. split.
    + apply list_elem_of_In, list_elem_of_omap. exists i. split; [done|]. cbn. rewrite (proj2 (Z.leb_le _ _)); [done|].
      destruct (Z.ltb_spec (MinLayer i) lo), (Z.ltb_spec hi (MaxLayer i)); lia.
    + cbn. apply andb_true_iff. rewrite orb_true_iff, !Z.leb_le, Z.eqb_eq.
      destruct (Z.ltb_spec (MinLayer i) lo), (Z.ltb_spec hi (MaxLayer i)); lia.
Qed.

Lemma with_types_again c c' p : with_types c (with_types c' p) = with_types c p.
Proof. done. Qed.

Lemma project_historical_spec f ivs selected p history p' :
  project_historical f ivs selected p history = Ok p' -> p' = p \/ exists versions, p' = with_types (annotate_function versions f) p.
Proof.
  revert selected p. induction history as [|[[[first last] s] versions] history IH]; intros selected p; cbn; [intros [= <-]; by left|].
  destruct (intersectIntervals ivs first last); [apply IH|]. intros Hp. res_inv. apply IH in Hp as [->|[versions' ->]]; right; [by exists versions|].
  exists versions'. apply with_types_again.
Qed.

(** One form per accepted historical function, in their order. *)
Lemma add_historical_spec baseLayer maxLayer history fs slots slots' :
  0 < baseLayer -> (forall f, f ∈ fs -> ~ is_canonical f) -> add_historical baseLayer maxLayer history fs slots = Ok slots' ->
  exists hs, items slots' = items slots ++ hs /\
    Forall2 (historical_form baseLayer maxLayer) (filter (accepted_within baseLayer maxLayer) fs) hs.
Proof.
  intros Hpos. revert slots. induction fs as [|f fs IH]; intros slots Hcan; cbn [add_historical]; [intros [= <-]; exists []; by rewrite app_nil_r|].
  assert (Hf : ~ is_canonical f) by (apply Hcan; by left).
  assert (Hrest : forall g, g ∈ fs -> ~ is_canonical g) by (intros g Hg; apply Hcan; by right).
  pose proof (intersect_accepted baseLayer maxLayer f Hf) as Hacc. rewrite filter_cons.
  destruct (intersectIntervals _ _ _) as [|i ivs] eqn:Ei.
  - rewrite decide_False by (intros Hw; by apply Hacc in Hw). by apply IH.
  - rewrite decide_True by by apply Hacc. intros Hadd. res_inv. apply IH in Hadd as (hs & Heq & Hall); [|done]. cbn in Heq.
    exists (x :: hs). split; [by rewrite Heq, <- app_assoc|]. constructor; [|done]. rewrite <- Ei in *.
    assert (Hx : function_contract x = function_contract f /\ fn_VariantLayer x = fn_VariantLayer f /\
      fn_RequestVariantLayer x = (if fn_RequestVariantLayer f =? 0 then fn_VariantLayer f else fn_RequestVariantLayer f) /\
      fn_Intervals x = intersectIntervals (fn_AcceptIntervals f) baseLayer maxLayer).
    { match goal with H : project_historical _ _ _ _ _ = Ok _ |- _ => apply project_historical_spec in H as [->|[versions ->]] end; cbn; [done|].
      split_and!; try done. unfold function_contract. cbn. by rewrite forget_annotate_parameters, forget_annotate. }
    destruct Hx as (H1 & H2 & H3 & H4). split_and!; [done..| |].
    + rewrite H4. apply intersect_inhabited.
    + intros l. unfold holds_at. cbn [intervals_of]. change (intervals_of x) with (fn_Intervals x). rewrite H4. by apply intersect_supports.
Qed.

(** ** The theorem *)

Lemma check_differences_sorted base prev ds u :
  check_differences base prev ds = Ok u -> StronglySorted Z.lt (differenceLayers ds) /\ Forall (fun d => base < ld_Layer d) ds.
Proof.
  revert prev. induction ds as [|d ds IH]; intros prev Hck; cbn in *; [split; constructor|]. res_inv.
  pose proof (check_differences_above _ _ _ _ Hck) as Habove. apply IH in Hck as [Hs Hb]. split; constructor; [done| |lia|done].
  unfold differenceLayers. rewrite Forall_map. done.
Qed.

Lemma at_between (ds : list LayerDifference) layer l :
  layer <= l -> (forall d, d ∈ ds -> ld_Layer d <= l -> ld_Layer d <= layer) ->
  filter (fun d => ld_Layer d <= l) ds = filter (fun d => ld_Layer d <= layer) ds.
Proof. intros Hl Hall. apply filter_same. intros d Hd. split; [auto|lia]. Qed.

Lemma fkeys_canonical fs : omap fkey fs = map fn_Name (filter is_canonical fs).
Proof.
  induction fs as [|f fs IH]; [done|]. rewrite filter_cons. cbn [omap list_omap]. unfold fkey at 1.
  destruct (Z.eqb_spec (fn_VariantLayer f) 0); [rewrite decide_True by done; cbn; by rewrite <- IH|by rewrite decide_False].
Qed.

Lemma valid_snapshot cs fs s : validateDeclarationSet cs fs = Ok tt -> sc_Constructors s = cs -> sc_Functions s = fs -> snapshot_ok s.
Proof.
  intros Hv <- <-. destruct (validateDeclarationSet_keys _ _ _ Hv) as [Hc Hf]. rewrite ckeys in Hc. rewrite fkeys_canonical in Hf. done.
Qed.

Lemma mapM_Ok {E A B} (f : A -> result E B) l k : mapM f l = Ok k -> Forall2 (fun x y => f x = Ok y) l k.
Proof.
  revert k. induction l as [|x l IH]; intros k; cbn; [intros [= <-]; constructor|].
  intros (y & Hy & (k' & Hk & [= <-])%result_bind_Ok)%result_bind_Ok. constructor; auto.
Qed.

Lemma zip_snapshots (layers : list Z) (ss : list Schema) (P : Z -> Schema -> Prop) :
  Forall2 P layers ss -> map fst (zip layers ss) = layers /\ Forall (fun p => P p.1 p.2) (zip layers ss).
Proof. induction 1 as [|l s layers ss Hp _ [IH1 IH2]]; cbn; [done|]. split; [by f_equal|by constructor]. Qed.

Lemma patch_Forall {A} (key : A -> option bytes) (P : A -> Prop) removals additions l :
  Forall P additions -> Forall P l -> Forall P (patch key removals additions l).
Proof.
  rewrite !Forall_forall. intros Ha Hl x. unfold patch. rewrite elem_of_app, list_elem_of_fmap, list_elem_of_filter.
  intros [(y & -> & [_ Hy]%list_elem_of_filter)|[_ Hx]]; [|auto]. unfold redeclared. destruct (key y); [|auto].
  destruct (list_find _ _) as [[i z]|] eqn:Ef; cbn; [|auto]. apply list_find_Some in Ef as (Hz & _). apply Ha. by eapply list_elem_of_lookup_2.
Qed.

Lemma functions_at_canonical l ds fs : Forall canonical ds -> Forall is_canonical fs -> filter is_canonical (functions_at l ds fs) = functions_at l ds fs.
Proof.
  intros Hd Hf. assert (Hall : Forall is_canonical (functions_at l ds fs)).
  { unfold functions_at. revert fs Hf. induction Hd as [|d ds Hd _ IH]; intros fs Hf; [done|]. rewrite filter_cons.
    destruct (decide (ld_Layer d <= l)); [|by apply IH]. cbn. apply IH. by apply patch_Forall. }
  induction Hall as [|f gs Hcan _ IH]; [done|]. rewrite filter_cons, decide_True by done. by f_equal.
Qed.

(** The layers of a history: positive and increasing, none of them the base again. *)
Lemma ResolveLayer_history base baseLayer targetLayer ds s :
  ResolveLayer (Some base) baseLayer targetLayer ds = Ok s ->
  0 < baseLayer /\ StronglySorted Z.lt (baseLayer :: differenceLayers ds) /\ filter (fun l => l <> baseLayer) (differenceLayers ds) = differenceLayers ds.
Proof.
  intros [Hpos Hck]%ResolveLayer_layers. destruct (check_differences_sorted _ _ _ _ Hck) as [Hsort Habove]. split_and!; [done| |].
  - constructor; [done|]. unfold differenceLayers. by rewrite Forall_map.
  - clear - Habove. induction Habove as [|d ds Hd _ IH]; [done|]. cbn [differenceLayers map]. rewrite filter_cons, decide_True by lia. by f_equal.
Qed.

(** What a successful resolution has built. *)
Lemma ResolveLayers_parts `{MapOrder} base baseLayer ds ls :
  Forall canonical ds -> ResolveLayers (Some base) baseLayer ds = Ok ls ->
  let fs := filter is_canonical (sc_Functions base) in
  exists b hc hf hs, building_ok hc hf b /\ sc_Constructors (ls_Schema ls) = items (bd_constructors b) /\
    sc_Functions (ls_Schema ls) = with_request_intervals (items (bd_functions b) ++ hs) /\
    Forall2 (historical_form baseLayer (max_layer baseLayer ds)) (filter (accepted_within baseLayer (max_layer baseLayer ds)) (sc_Functions base)) hs /\
    map fst hc = rev (baseLayer :: differenceLayers ds) /\ StronglySorted Z.lt (baseLayer :: differenceLayers ds) /\
    (forall layer cs, (layer, cs) ∈ hc -> map constructor_contract cs = map constructor_contract (constructors_at layer ds (sc_Constructors base))) /\
    (forall layer gs, (layer, gs) ∈ hf -> map function_contract gs = map function_contract (functions_at layer ds fs)) /\
    validateLayeredIntervals (ls_Schema ls) = Ok tt.
Proof.
  intros Hcan Hr. cbn zeta. unfold ResolveLayers in Hr.
  apply result_bind_Ok in Hr as ([] & _ & Hr). apply result_bind_Ok in Hr as (s0 & Hs0 & Hr). apply result_bind_Ok in Hr as (ss & Hss & Hr).
  apply result_bind_Ok in Hr as ([] & _ & Hr). apply result_bind_Ok in Hr as (b & Hb & Hr). apply result_bind_Ok in Hr as (fslots & Hf & Hr).
  apply result_bind_Ok in Hr as ([] & Hval & Hr). injection Hr as <-. cbn [ls_Schema] in *.
  destruct (ResolveLayer_history _ _ _ _ _ Hs0) as (Hpos & Hsorted & Hlayers). rewrite Hlayers in *. apply mapM_Ok in Hss.
  assert (Hres : Forall2 (fun layer s => sc_Constructors s = constructors_at layer ds (sc_Constructors base) /\
    sc_Functions s = functions_at layer ds (filter is_canonical (sc_Functions base)) /\ snapshot_ok s) (baseLayer :: differenceLayers ds) ss).
  { eapply Forall2_impl; [exact Hss|]. intros layer s Hs. unfold resolve_snapshot in Hs. res_inv.
    match goal with H : ResolveLayer _ _ _ _ = Ok _ |- _ => destruct (ResolveLayer_spec _ _ _ _ _ Hcan H) as (_ & Hc & Hfn & Hv) end.
    split_and!; [done..|]. by eapply valid_snapshot. }
  destruct (zip_snapshots _ _ _ Hres) as [Hfst Hall]. rewrite Forall_forall in Hall.
  destruct (add_snapshots_ok [] [] [] (zip (baseLayer :: differenceLayers ds) ss) nothing_built b) as (hc & hf & Hbo & Hmap & Hhc & Hhf); try done.
  - apply nothing_built_ok.
  - by right.
  - rewrite Hfst. constructor; [done|]. cbn. constructor; [done|]. inversion_clear Hsorted as [|? ? _ Hlt]. eapply Forall_impl; [exact Hlt|]. cbn. lia.
  - apply Forall_forall. intros p Hp. by apply Hall.
  - rewrite Hfst. constructor; [done|]. inversion_clear Hsorted as [|? ? _ Hlt]. eapply Forall_impl; [exact Hlt|]. cbn. lia.
  - intros layer x Hx. by apply elem_of_nil in Hx.
  - intros layer x Hx. by apply elem_of_nil in Hx.
  - apply add_historical_spec in Hf as (hs & Hits & Hhs); [|done|intros f Hin; apply list_elem_of_filter in Hin; tauto].
    exists b, hc, hf, hs. cbn [app] in *. rewrite Hfst, app_nil_r in Hmap. split_and!; try done.
    + cbn. by rewrite Hits.
    + rewrite list_filter_filter_l in Hhs; [done|]. by intros f [Hf' _].
    + intros layer cs Hin. destruct (Hhc _ _ Hin) as (s & Hs & ->). destruct (Hall _ Hs) as (Hc & _). cbn in Hc. by rewrite Hc.
    + intros layer gs Hin. destruct (Hhf _ _ Hin) as (s & Hs & ->). destruct (Hall _ Hs) as (_ & Hfn & _). cbn in Hfn. rewrite Hfn.
      rewrite functions_at_canonical; [done..|]. apply Forall_forall. intros f Hin'. apply list_elem_of_filter in Hin'. tauto.
Qed.

Lemma sorted_rev (l : list Z) : StronglySorted Z.lt l -> StronglySorted (fun a b => b < a) (rev l).
Proof.
  induction 1 as [|x l Hs IH Hall]; cbn; [constructor|]. apply StronglySorted_app. split_and!; [|done|repeat constructor].
  intros y z Hy%list_elem_of_In%in_rev%list_elem_of_In ->%list_elem_of_singleton. rewrite Forall_forall in Hall. auto.
Qed.

(** The contracts in force at a layer are those of the schema resolved for it. *)
Lemma in_force_contracts {D C} (contract : D -> Key) (contract_of : C -> Key) (at_layer : Z -> list C) (history : list (Z * list D)) baseLayer ds l :
  map fst history = rev (baseLayer :: differenceLayers ds) -> StronglySorted Z.lt (baseLayer :: differenceLayers ds) -> baseLayer <= l ->
  (forall layer es, (layer, es) ∈ history -> map contract es = map contract_of (at_layer layer)) ->
  (forall layer, filter (fun d => ld_Layer d <= l) ds = filter (fun d => ld_Layer d <= layer) ds -> at_layer layer = at_layer l) ->
  map contract (in_force_at history l) = map contract_of (at_layer l).
Proof.
  intros Hmap Hsort Hl Hh Hat.
  assert (Hmem : forall layer, layer ∈ map fst history <-> layer = baseLayer \/ layer ∈ differenceLayers ds).
  { intros layer. rewrite Hmap, list_elem_of_In, <- in_rev, <- list_elem_of_In. apply elem_of_cons. }
  destruct (in_force_latest history l) as (layer & Hin & Hle & Hmax).
  { rewrite Hmap. by apply sorted_rev. }
  { exists baseLayer. split; [apply Hmem; by left|done]. }
  rewrite (Hh _ _ Hin), Hat; [done|]. apply at_between; [done|]. intros d Hd Hdl. apply Hmax; [|done]. apply Hmem. right.
  apply list_elem_of_fmap. eauto.
Qed.

(** The request intervals change neither contracts nor where a function holds. *)
Lemma request_intervals_keep l (ivs : FuncDecl -> list LayerInterval) fs :
  map function_contract (filter (holds_at l) (map (fun f => set_request_intervals (ivs f) f) fs)) = map function_contract (filter (holds_at l) fs).
Proof.
  induction fs as [|f fs IH]; [done|]. cbn [map]. rewrite !filter_cons.
  destruct (decide (holds_at l f)) as [Hf|Hf]; [rewrite decide_True by exact Hf; cbn [map]; by f_equal|by rewrite decide_False].
Qed.

(** C32. The combined schema holds every layer: at any layer from the base on, the constructors
    in force are exactly those of the schema resolved for that layer, up to the annotation of
    bare references, and so are the current functions; besides them it holds one form of every
    historical function of the base that accepts a layer of the history, and nothing else, in
    their order: the function's contract and variant, in force at exactly the layers of the
    history it accepts. A name and a variant layer identify a constructor. *)
Theorem combined_view_selects_layers `{MapOrder} base baseLayer ds ls :
  Forall canonical ds -> ResolveLayers (Some base) baseLayer ds = Ok ls ->
  NoDup (map variantKey (sc_Constructors (ls_Schema ls))) /\
  (forall l, baseLayer <= l ->
    map constructor_contract (filter (holds_at l) (sc_Constructors (ls_Schema ls))) ≡ₚ map constructor_contract (constructors_at l ds (sc_Constructors base))) /\
  exists current historical, sc_Functions (ls_Schema ls) = current ++ historical /\
    Forall2 (historical_form baseLayer (max_layer baseLayer ds)) (filter (accepted_within baseLayer (max_layer baseLayer ds)) (sc_Functions base)) historical /\
    forall l, baseLayer <= l ->
      map function_contract (filter (holds_at l) current) ≡ₚ map function_contract (functions_at l ds (filter is_canonical (sc_Functions base))).
Proof.
  intros Hcan Hr. destruct (ResolveLayers_parts _ _ _ _ Hcan Hr) as (b & hc & hf & hs & (Hc & Hf & Hfst) & -> & -> & Hhs & Hmap & Hsort & Hhc & Hhf & _).
  split; [apply index_ok_keys, Hc|]. split.
  - intros l Hl. rewrite (combined_in_force _ _ _ _ known_constructor_unique constructor_sig_contract _ _ _ l Hc).
    erewrite (in_force_contracts _ _ (fun l => constructors_at l ds (sc_Constructors base))); try done. intros layer Hfl. unfold constructors_at. by rewrite Hfl.
  - set (ivs f := normalizeIntervals (request_intervals (items (bd_functions b) ++ hs) (requestKey f))).
    exists (map (fun f => set_request_intervals (ivs f) f) (items (bd_functions b))), (map (fun f => set_request_intervals (ivs f) f) hs).
    split; [apply map_app|]. split; [by apply Forall2_fmap_r|]. intros l Hl. rewrite request_intervals_keep.
    rewrite (combined_in_force _ _ _ _ known_function_unique function_sig_contract _ _ _ l Hf). rewrite Hfst in Hmap.
    erewrite (in_force_contracts _ _ (fun l => functions_at l ds (filter is_canonical (sc_Functions base)))); try done.
    intros layer Hfl. unfold functions_at. by rewrite Hfl.
Qed.

(** A sample with a gap, a bare dependency, two forms of a function and a historical one, accepted up to layer 4. *)
Definition sample_difference (layer : Z) (text : string) (removed : list string) : LayerDifference :=
  {| ld_Layer := layer; ld_Source := []; ld_Schema := text_schema layer text; ld_RemoveConstructors := map str removed; ld_RemoveFunctions := [] |}.
Definition sample_holder : TypeRef :=
  {| tr_Name := str "Holder"; tr_Namespace := []; tr_IsVector := false; tr_IsBare := false; tr_Generic := None; tr_GenericArg := [];
     tr_Optional := false; tr_FlagName := []; tr_FlagBit := None; tr_IsTypeVar := false; tr_VariantLayer := 0 |}.
Definition sample_old : FuncDecl :=
  {| fn_Name := str "old"; fn_ID := 4; fn_GenericParams := []; fn_Params := []; fn_ResultType := sample_holder; fn_IsTemplate := false;
     fn_IsHelper := false; fn_RequestVariantLayer := 0; fn_VariantLayer := 1; fn_Intervals := []; fn_RequestIntervals := [];
     fn_AcceptIntervals := [{| MinLayer := 1; MaxLayer := 4 |}] |}.
Definition with_old (s : Schema) : Schema := with_Functions (sc_Functions s ++ [sample_old]) s.
Definition sample_base : Schema := with_old $ default (NewSchema 0) $ text_schema 1 "alpha#1 = Alpha; holder#2 x:!Unit = Holder; unit#9 = Unit;
---functions---
get#3 = Alpha;".
Definition sample_differences : list LayerDifference :=
  [sample_difference 3 "unit#9 k:int = Unit;
---functions---
get#3 = Holder;" ["alpha"%string]; sample_difference 5 "alpha#1 = Alpha;
---functions---
get#3 = Alpha;" []].
Definition sample_layers : LayeredSchema :=
  match ResolveLayers (H := insertion_order) (Some sample_base) 1 sample_differences with
  | Ok ls => ls
  | Err _ => {| ls_BaseLayer := 0; ls_MaxLayer := 0; ls_Layers := []; ls_Schema := NewSchema 0 |}
  end.

Lemma combined_view_selects_layers_witness :
  map (fun c => (ct_VariantLayer c, ct_Intervals c)) (sc_Constructors (ls_Schema sample_layers)) =
    [ (0, [{| MinLayer := 1; MaxLayer := 2 |}; {| MinLayer := 5; MaxLayer := 0 |}]); (0, [{| MinLayer := 1; MaxLayer := 2 |}]);
      (0, [{| MinLayer := 1; MaxLayer := 2 |}]); (3, [{| MinLayer := 3; MaxLayer := 0 |}]); (3, [{| MinLayer := 3; MaxLayer := 0 |}]) ] /\
  map (fun f => (fn_VariantLayer f, fn_Intervals f)) (sc_Functions (ls_Schema sample_layers)) =
    [ (0, [{| MinLayer := 1; MaxLayer := 2 |}; {| MinLayer := 5; MaxLayer := 0 |}]); (3, [{| MinLayer := 3; MaxLayer := 4 |}]);
      (1, [{| MinLayer := 1; MaxLayer := 4 |}]) ] /\
  map constructor_contract (filter (holds_at 4) (sc_Constructors (ls_Schema sample_layers))) ≡ₚ
    map constructor_contract (constructors_at 4 sample_differences (sc_Constructors sample_base)).
Proof.
  split; [by vm_compute|]. split; [by vm_compute|].
  apply (combined_view_selects_layers (H := insertion_order) sample_base 1 sample_differences sample_layers);
    [apply (bool_decide_unpack _); by vm_compute|by vm_compute|lia].
Defined.

(** ** Ids *)

Lemma contracts_apart_filter {D} `{Layered D} (P : D -> Prop) `{!forall x, Decision (P x)} (ds : list D) i j d e :
  (i < j)%nat -> ds !! i = Some d -> ds !! j = Some e -> P d -> P e -> contracts_apart (filter P ds) = true ->
  intervalSetsOverlap (intervals_of d) (intervals_of e) = false.
Proof.
  revert i j. induction ds as [|x ds IH]; intros i j Hij Hi Hj Pd Pe; [done|]. rewrite filter_cons. destruct j as [|j]; [lia|]. cbn in Hj.
  destruct i as [|i]; cbn in Hi.
  - injection Hi as ->. rewrite decide_True by done. cbn. rewrite andb_true_iff, forallb_forall. intros [Hall _].
    apply negb_true_iff, Hall, list_elem_of_In, list_elem_of_filter. split; [done|by eapply list_elem_of_lookup_2].
  - intros Hp. apply (IH i j); try done; [lia|]. destruct (decide (P x)); [|done]. cbn in Hp. by apply andb_true_iff in Hp as [_ ?].
Qed.

(** No two of the declarations share an id and a layer. *)
Lemma ids_apart `{MapOrder} {D} `{Layered D} (id : D -> Z) (error : Z -> layer_error) (ds : list D) u l i j d e :
  each (fun '(id, ds) => ensure (contracts_apart ds) (error id)) (in_order (map_to_list (by_id id ds))) = Ok u ->
  (forall d, d ∈ ds -> Forall inhabited_interval (intervals_of d)) ->
  ds !! i = Some d -> ds !! j = Some e -> id d = id e -> holds_at l d -> holds_at l e -> i = j.
Proof.
  intros Hall Hin Hd He Hid Hld Hle.
  assert (Hgroup : contracts_apart (with_id id ds (id d)) = true).
  { pose proof (each_Ok _ _ _ Hall (id d, with_id id ds (id d))) as Hone. cbn in Hone. eapply ensure_Ok, Hone.
    rewrite in_order_perm, elem_of_map_to_list, by_id_lookup. destruct (with_id id ds (id d)) eqn:Ew; [|done].
    assert (Hmem : d ∈ with_id id ds (id d)) by (apply list_elem_of_filter; split; [done|by eapply list_elem_of_lookup_2]).
    rewrite Ew in Hmem. by apply elem_of_nil in Hmem. }
  assert (Hno : forall a b i j, (i < j)%nat -> ds !! i = Some a -> ds !! j = Some b -> id a = id d -> id b = id d -> holds_at l a -> holds_at l b -> False).
  { intros a b i' j' Hij Ha Hb Hia Hib Hla Hlb. pose proof (contracts_apart_filter (fun x => id x = id d) ds i' j' a b Hij Ha Hb Hia Hib Hgroup) as Hov.
    apply not_true_iff_false in Hov. apply Hov. apply overlap_inhabited; [apply Hin; by eapply list_elem_of_lookup_2..|]. by exists l. }
  destruct (Nat.lt_trichotomy i j) as [Hij|[->|Hij]]; [|done|]; exfalso; [by eapply (Hno d e i j)|by eapply (Hno e d j i)].
Qed.

(** C35. Within the combined schema an id means one thing at every layer: two constructors, or
    two functions other than helpers, with the same id are never in force together. *)
Theorem layer_ids_unambiguous `{MapOrder} base baseLayer ds ls l :
  Forall canonical ds -> ResolveLayers (Some base) baseLayer ds = Ok ls ->
  (forall i j c d, sc_Constructors (ls_Schema ls) !! i = Some c -> sc_Constructors (ls_Schema ls) !! j = Some d ->
     ct_ID c = ct_ID d -> holds_at l c -> holds_at l d -> i = j) /\
  forall i j f g, let fs := filter (fun f => fn_IsHelper f = false) (sc_Functions (ls_Schema ls)) in
     fs !! i = Some f -> fs !! j = Some g -> fn_ID f = fn_ID g -> holds_at l f -> holds_at l g -> i = j.
Proof.
  intros Hcan Hr. destruct (ResolveLayers_parts _ _ _ _ Hcan Hr) as (b & hc & hf & hs & (Hc & Hf & _) & Ecs & Efs & Hhs & _ & _ & _ & _ & Hval).
  unfold validateLayeredIntervals in Hval. apply result_bind_Ok in Hval as (u & Hvc & Hvf). split.
  - intros i j c d Hi Hj Hid Hlc Hld. eapply (ids_apart ct_ID ConstructorContractsOverlap); [exact Hvc| |exact Hi|exact Hj|done..].
    rewrite Ecs. intros e He. by eapply slots_inhabited; [apply Hc|].
  - intros i j f g. cbn zeta. intros Hi Hj Hid Hlf Hlg. eapply (ids_apart fn_ID FunctionContractsOverlap); [exact Hvf| |exact Hi|exact Hj|done..].
    intros e [_ He]%list_elem_of_filter. rewrite Efs in He. unfold with_request_intervals in He. apply list_elem_of_fmap in He as (h & -> & Hh).
    apply elem_of_app in Hh as [Hh|Hh]; [change (Forall inhabited_interval (intervals_of h)); by eapply slots_inhabited; [apply Hf|]|].
    apply list_elem_of_lookup_1 in Hh as [k Hk]. destruct (Forall2_lookup_r _ _ _ _ _ Hhs Hk) as (f' & _ & _ & _ & _ & Hin & _). exact Hin.
Qed.

Lemma layer_ids_unambiguous_witness :
  map ct_ID (sc_Constructors (ls_Schema sample_layers)) = [1; 2; 9; 2; 9] /\
  forall i j c d, sc_Constructors (ls_Schema sample_layers) !! i = Some c -> sc_Constructors (ls_Schema sample_layers) !! j = Some d ->
    ct_ID c = ct_ID d -> holds_at 4 c -> holds_at 4 d -> i = j.
Proof.
  split; [by vm_compute|].
  apply (layer_ids_unambiguous (H := insertion_order) sample_base 1 sample_differences sample_layers 4); [apply (bool_decide_unpack _)|]; by vm_compute.
Defined.
