(* ===== verification/BareLayouts.v ===== *)
(** Bare references of a schema (validateBareLayouts and resolvedTypeContractSignature of
    internal/parser/layered.go): which schemas the check accepts, that the searches end,
    and where the variants given to bare references do not name a constructor. *)

From stdpp Require Import base numbers list gmap strings relations.
From S2P Require Import Prelude SchemaAst Lexer SchemaParser SchemaLayers SchemaValidate LayeredSchema.
Open Scope Z_scope.

(** * Results that do not depend on the fuel *)

Definition ends {A} (r : LR A) : Prop := r <> Err OutOfFuel.

Lemma ends_bind {A B} (m : LR A) (k : A -> LR B) : ends m -> (forall x, m = Ok x -> ends (k x)) -> ends (m ≫= k).
Proof. unfold ends. destruct m as [x|e]; cbn; [auto|congruence]. Qed.

Lemma ends_ensure b e : e <> OutOfFuel -> ends (ensure b e).
Proof. unfold ends. destruct b; cbn; [done|congruence]. Qed.

Lemma ends_each {A} (f : A -> LR unit) l : (forall x, x ∈ l -> ends (f x)) -> ends (each f l).
Proof.
  induction l as [|x l IH]; intros Hf; cbn [each]; [done|]. apply ends_bind; [apply Hf; by left|]. intros _ _. apply IH. intros y Hy. apply Hf. by right.
Qed.

Lemma ends_mapM {A B} (f : A -> LR B) l : (forall x, x ∈ l -> ends (f x)) -> ends (mapM f l).
Proof.
  induction l as [|x l IH]; intros Hf; cbn; [done|]. apply ends_bind; [apply Hf; by left|]. intros y _.
  apply ends_bind; [apply IH; intros z Hz; apply Hf; by right|]. done.
Qed.

Ltac ends := repeat first [done | solve [auto with tlrpc] | apply ends_bind; [|intros ? _] | apply ends_each; intros | apply ends_ensure | case_match].

(** * The search *)

Section search.
Context (graph : gmap bytes (list bytes)).

Definition edge (a b : bytes) : Prop := b ∈ default [] (graph !! a).

(** Expanding a family ends. *)
Abbreviation expands := (Acc (flip edge)).

Lemma expands_no_cycle family : expands family -> ~ tc edge family family.
Proof.
  induction 1 as [a _ IH]. intros Hc. assert (Hstep : exists b, edge a b /\ rtc edge b a).
  { inversion Hc as [? ? He|? b ? He Hr]; subst; [by exists a|exists b]. split; [done|by apply tc_rtc]. }
  destruct Hstep as (b & He & Hr). apply (IH b He). by eapply tc_rtc_l, tc_once.
Qed.

Lemma visit_each_sound (visit : gset bytes -> bytes -> LR (gset bytes)) visited families visited' :
  (forall f seen seen', f ∈ families -> (forall v, v ∈ seen -> expands v) -> visit seen f = Ok seen' -> f ∈ seen' /\ seen ⊆ seen' /\ forall v, v ∈ seen' -> expands v) ->
  (forall v, v ∈ visited -> expands v) -> visit_each visit visited families = Ok visited' ->
  (forall f, f ∈ families -> f ∈ visited') /\ visited ⊆ visited' /\ forall v, v ∈ visited' -> expands v.
Proof.
  revert visited. induction families as [|f families IH]; intros visited Hv Hseen; cbn; [intros [= <-]; set_solver|].
  intros (seen & H1 & H2)%result_bind_Ok. destruct (Hv f visited seen) as (Hf & Hsub & Hacc); [by left|done..|].
  destruct (IH seen) as (Hall & Hsub' & Hacc'); [intros g s s' Hg; apply Hv; by right|done..|]. split_and!; [|set_solver|done].
  intros g [->|Hg]%elem_of_cons; [set_solver|auto].
Qed.

Lemma visitFamily_sound fuel visiting visited family visited' :
  (forall v, v ∈ visited -> expands v) -> visitFamily fuel graph visiting visited family = Ok visited' ->
  family ∈ visited' /\ visited ⊆ visited' /\ forall v, v ∈ visited' -> expands v.
Proof.
  revert visiting visited family visited'. induction fuel as [|fuel IH]; intros visiting visited family visited' Hseen; cbn; [done|].
  case_bool_decide as Hv1; [done|]. case_bool_decide as Hv2; [intros [= <-]; done|].
  intros (seen & Hs & [= <-])%result_bind_Ok. apply visit_each_sound in Hs as (Hall & Hsub & Hacc); [|intros; by eapply IH|done].
  split_and!; [set_solver|set_solver|]. intros v [->%elem_of_singleton|Hv]%elem_of_union; [|auto]. constructor. intros b Hb. apply Hacc, Hall, Hb.
Qed.

Lemma visit_each_Err (visit : gset bytes -> bytes -> LR (gset bytes)) visited families e :
  visit_each visit visited families = Err e -> exists f seen, f ∈ families /\ visit seen f = Err e.
Proof.
  revert visited. induction families as [|f families IH]; intros visited; cbn; [done|].
  destruct (visit visited f) as [seen|e'] eqn:Ev; cbn; [intros (g & s & Hg & Hs)%IH; exists g, s; split; [by right|done]|].
  intros [= ->]. exists f, visited. split; [by left|done].
Qed.

(** The search fails only on a cycle, if the fuel is more than the families that are left. *)
Lemma visitFamily_Err fuel visiting visited family e :
  (forall v, v ∈ visiting -> tc edge v family) -> visiting ⊆ dom graph -> (base.size (dom graph) + 2 <= fuel + base.size visiting)%nat ->
  visitFamily fuel graph visiting visited family = Err e -> e = RecursiveBareLayout /\ exists a, tc edge a a.
Proof.
  revert visiting visited family. induction fuel as [|fuel IH]; intros visiting visited family Hpath Hdom Hfuel; cbn.
  { apply subseteq_size in Hdom. lia. }
  case_bool_decide as Hv1; [intros [= <-]; split; [done|exists family; auto]|]. case_bool_decide as Hv2; [done|].
  destruct (visit_each _ _ _) as [seen|e'] eqn:Ev; cbn; [done|]. intros [= ->]. apply visit_each_Err in Ev as (child & seen & Hchild & Hs).
  assert (Hin : family ∈ dom graph) by (apply elem_of_dom; destruct (graph !! family); [eauto|by apply elem_of_nil in Hchild]).
  eapply IH; [| | |exact Hs].
  - intros v [->%elem_of_singleton|Hv]%elem_of_union; [by apply tc_once|]. eapply tc_r; [by apply Hpath|exact Hchild].
  - set_solver.
  - rewrite size_union, size_singleton by set_solver. lia.
Qed.
End search.

(** * What the check accepts *)

(** The layout of family [a] contains that of [b]. *)
Definition contains (s : Schema) (a b : bytes) : Prop :=
  exists c p, c ∈ sc_Constructors s /\ FullName (ct_ResultType c) = a /\ p ∈ ct_Params c /\ b ∈ bareReferenceNames (pa_Type p).

(** The references whose layout must be known. *)
Definition references (s : Schema) : list TypeRef :=
  concat (map (fun c => map pa_Type (ct_Params c)) (sc_Constructors s)) ++
  concat (map (fun f => map pa_Type (fn_Params f) ++ [fn_ResultType f]) (sc_Functions s)).

Definition one_constructor (s : Schema) (family : bytes) : Prop :=
  exists c, filter (fun c => FullName (ct_ResultType c) = family) (sc_Constructors s) = [c].

Lemma elem_of_concat_map {A B} (f : A -> list B) (l : list A) x : x ∈ concat (map f l) <-> exists y, y ∈ l /\ x ∈ f y.
Proof. rewrite list_elem_of_In, in_concat. setoid_rewrite in_map_iff. setoid_rewrite list_elem_of_In. naive_solver. Qed.

Lemma bare_graph_params (family : bytes) (ps : list Parameter_) (g : gmap bytes (list bytes)) (a : bytes) :
  default [] (foldl (fun graph p => <[family := default [] (graph !! family) ++ bareReferenceNames (pa_Type p)]> graph) g ps !! a) =
  default [] (g !! a) ++ (if decide (family = a) then concat (map (fun p => bareReferenceNames (pa_Type p)) ps) else []).
Proof.
  revert g. induction ps as [|p ps IH]; intros g; cbn; [destruct (decide _); by rewrite app_nil_r|]. rewrite IH.
  destruct (decide (family = a)) as [->|Hne]; [rewrite lookup_insert_eq; cbn; by rewrite <- app_assoc|by rewrite lookup_insert_ne].
Qed.

Lemma bare_graph_spec s a b : edge (bare_graph (sc_Constructors s)) a b <-> contains s a b.
Proof.
  unfold edge, contains, bare_graph. generalize (sc_Constructors s). intros cs.
  assert (Hg : forall g : gmap bytes (list bytes), b ∈ default [] (foldl (fun graph c => foldl (fun graph p => let family := FullName (ct_ResultType c) in
      <[family := default [] (graph !! family) ++ bareReferenceNames (pa_Type p)]> graph) graph (ct_Params c)) g cs !! a) <->
    b ∈ default [] (g !! a) \/ exists c p, c ∈ cs /\ FullName (ct_ResultType c) = a /\ p ∈ ct_Params c /\ b ∈ bareReferenceNames (pa_Type p)).
  { induction cs as [|c cs IH]; intros g; cbn; [split; [by left|intros [?|(c & p & Hc & _)]; [done|by apply elem_of_nil in Hc]]|].
    rewrite IH, bare_graph_params, elem_of_app.
    assert (Hhere : b ∈ (if decide (FullName (ct_ResultType c) = a) then concat (map (fun p => bareReferenceNames (pa_Type p)) (ct_Params c)) else []) <->
      FullName (ct_ResultType c) = a /\ exists p, p ∈ ct_Params c /\ b ∈ bareReferenceNames (pa_Type p)).
    { destruct (decide _) as [He|He]; [|set_solver]. rewrite elem_of_concat_map. tauto. }
    rewrite Hhere. setoid_rewrite elem_of_cons. split; [intros [[?|[He (p & Hp & Hb)]]|(c' & p & Hc & Hr)]|intros [?|(c' & p & [->|Hc] & He & Hp & Hb)]].
    - by left.
    - right. exists c, p. auto.
    - right. exists c', p. auto.
    - by do 2 left.
    - left. right. eauto.
    - right. exists c', p. auto. }
  rewrite Hg, lookup_empty. split; [intros [He|?]; [by apply elem_of_nil in He|done]|by right].
Qed.

Lemma each_iff {A} (f : A -> LR unit) l : each f l = Ok tt <-> forall x, x ∈ l -> f x = Ok tt.
Proof.
  split; [by apply each_Ok|]. induction l as [|x l IH]; intros Hall; [done|]. cbn [each]. rewrite (Hall x) by (by left). cbn. apply IH.
  intros y Hy. apply Hall. by right.
Qed.

Lemma check_bare_spec s t : check_bare (sc_Constructors s) t = Ok tt <-> forall family, family ∈ bareReferenceNames t -> one_constructor s family.
Proof.
  unfold check_bare. rewrite each_iff. apply forall_proper. intros family. unfold one_constructor, ensure, len.
  destruct (filter _ _) as [|c [|d cs]] eqn:Ef; cbn [length].
  - split; intros Hone Hin; specialize (Hone Hin); [done|by destruct Hone].
  - split; [intros _ _; by exists c|done].
  - rewrite (proj2 (Z.eqb_neq _ _)) by lia. split; intros Hone Hin; specialize (Hone Hin); [done|by destruct Hone].
Qed.

Lemma each_all_checked s (ts : list TypeRef) : each (check_bare (sc_Constructors s)) ts = Ok tt <->
  forall t family, t ∈ ts -> family ∈ bareReferenceNames t -> one_constructor s family.
Proof. rewrite each_iff. setoid_rewrite check_bare_spec. firstorder. Qed.

Lemma each_map {A B} (f : B -> LR unit) (g : A -> B) l : each (fun x => f (g x)) l = each f (map g l).
Proof. induction l as [|x l IH]; cbn; [done|]. by rewrite IH. Qed.

Lemma bind_Ok_iff (m : LR unit) (k : LR unit) : (m ≫= fun _ => k) = Ok tt <-> m = Ok tt /\ k = Ok tt.
Proof. destruct m as [[]|]; cbn; naive_solver. Qed.

Lemma references_checked s :
  each (fun c => each (fun p => check_bare (sc_Constructors s) (pa_Type p)) (ct_Params c)) (sc_Constructors s) = Ok tt /\
  each (fun f => _ ← each (fun p => check_bare (sc_Constructors s) (pa_Type p)) (fn_Params f); check_bare (sc_Constructors s) (fn_ResultType f)) (sc_Functions s) = Ok tt <->
  forall t family, t ∈ references s -> family ∈ bareReferenceNames t -> one_constructor s family.
Proof.
  rewrite !each_iff. setoid_rewrite bind_Ok_iff. setoid_rewrite (each_map _ pa_Type). setoid_rewrite each_all_checked. setoid_rewrite check_bare_spec.
  unfold references. setoid_rewrite elem_of_app. setoid_rewrite elem_of_concat_map. setoid_rewrite elem_of_app. setoid_rewrite list_elem_of_singleton.
  split.
  - intros [Hc Hf] t family [(c & Hin & Ht)|(f & Hin & [Ht| ->])]; [by eapply Hc|by eapply (proj1 (Hf f Hin))|by apply (proj2 (Hf f Hin))].
  - intros Hall. split; [intros c Hc t family Ht|intros f Hf; split; [intros t family Ht|intros family]]; apply Hall; eauto.
Qed.

(** C39. The check of bare layouts returns on every schema, and accepts exactly those where
    every bare reference of a parameter or a function's result denotes a family with one
    constructor and no layout contains itself, through any number of references. *)
Theorem bare_layouts_decided `{MapOrder} (s : Schema) :
  validateBareLayouts s <> Err OutOfFuel /\
  (validateBareLayouts s = Ok tt <->
   (forall t family, t ∈ references s -> family ∈ bareReferenceNames t -> one_constructor s family) /\ forall family, ~ tc (contains s) family family).
Proof.
  set (graph := bare_graph (sc_Constructors s)). set (visit := visit_each (visitFamily (base.size graph + 2) graph ∅) ∅ (in_order (map fst (map_to_list graph)))).
  assert (Hedge : forall a, tc (contains s) a a <-> tc (edge graph) a a).
  { intros a. split; apply tc_congruence with (f := id); intros x y; apply bare_graph_spec. }
  assert (Herr : forall e, visit = Err e -> e = RecursiveBareLayout /\ exists a, tc (edge graph) a a).
  { intros e (f & seen & _ & Hf)%visit_each_Err. eapply (visitFamily_Err graph); [| | |exact Hf]; [set_solver..|]. rewrite size_dom, size_empty. lia. }
  assert (Hok : forall seen, visit = Ok seen -> forall a, ~ tc (edge graph) a a).
  { intros seen Hv a Hc. eapply (visit_each_sound graph) in Hv as (Hall & _ & Hacc); [|intros ? ? ? _ Hs; by apply visitFamily_sound|set_solver].
    apply (expands_no_cycle graph a); [|done]. apply Hacc, Hall. rewrite in_order_perm. apply list_elem_of_fmap.
    assert (Hstart : exists b, edge graph a b) by (inversion Hc; eauto). destruct Hstart as [b Hb]. unfold edge in Hb.
    destruct (graph !! a) as [l|] eqn:El; [|by apply elem_of_nil in Hb]. exists (a, l). split; [done|]. by apply elem_of_map_to_list. }
  split.
  - unfold validateBareLayouts. fold graph. fold visit. fold (ends (A := unit)). unfold check_bare. ends.
    intros Hbad. destruct (Herr _ Hbad) as [? _]. done.
  - rewrite <- references_checked. setoid_rewrite Hedge. unfold validateBareLayouts. fold graph. fold visit.
    rewrite !bind_Ok_iff. destruct visit as [seen|e]; cbn.
    + specialize (Hok seen eq_refl). tauto.
    + destruct (Herr e eq_refl) as [_ [a Ha]]. naive_solver.
Qed.

(** * The resolution of all layers returns *)

Lemma resolved_reference_ends contract t : (forall name, ends (contract name)) -> ends (resolvedSemanticReference contract t).
Proof.
  intros Hc. induction t as [t IH] using TypeRef_element_ind. destruct t as [n ns isv b g ga o fl bit tv vl]; cbn in *. apply ends_bind.
  - destruct g as [g|]; [by apply IH|done].
  - intros generic _. apply ends_bind; [|done]. destruct (bare_family _); [|done]. apply ends_bind; [apply Hc|done].
Qed.

Lemma FindType_name s name d : FindType name s = Some d -> name ∈ map td_Name (sc_Types s).
Proof.
  unfold FindType, first_such. destruct (list_find _ _) as [[i t]|] eqn:Ef; [|done]. intros [= <-].
  apply list_find_Some in Ef as (Hi & Hn & _). apply Is_true_true, bool_decide_eq_true in Hn. apply list_elem_of_fmap. exists t.
  split; [done|]. by eapply list_elem_of_lookup_2.
Qed.

Lemma size_names (names : list bytes) : (base.size (list_to_set names : gset bytes) <= length names)%nat.
Proof.
  induction names as [|n names IH]; cbn [list_to_set length]; [rewrite size_empty; lia|]. rewrite size_union_alt, size_singleton.
  pose proof (subseteq_size (list_to_set names ∖ {[n]} : gset bytes) (list_to_set names) ltac:(set_solver)). lia.
Qed.

Lemma type_contract_fuel fuel s stack name :
  stack ⊆ list_to_set (map td_Name (sc_Types s)) -> (length (sc_Types s) < fuel + base.size stack)%nat ->
  ends (resolvedTypeContractSignature fuel s stack name).
Proof.
  revert stack name. induction fuel as [|fuel IH]; intros stack name Hsub Hfuel; cbn [resolvedTypeContractSignature].
  - apply subseteq_size in Hsub. pose proof (size_names (map td_Name (sc_Types s))) as Hle. rewrite length_map in Hle. lia.
  - case_bool_decide as Hin; [done|]. destruct (FindType name s) as [d|] eqn:Ef; [|done]. apply FindType_name in Ef.
    apply ends_bind; [|done]. apply ends_mapM. intros c _. apply ends_bind; [|done]. apply ends_mapM. intros p _. apply ends_bind; [|done].
    apply resolved_reference_ends. intros name'. apply IH.
    + intros x [->%elem_of_singleton|Hx]%elem_of_union; [by apply elem_of_list_to_set|by apply Hsub].
    + rewrite size_union, size_singleton by set_solver. lia.
Qed.

Lemma type_contract_ends s name : ends (type_contract s name).
Proof. apply type_contract_fuel; [set_solver|]. rewrite size_empty. lia. Qed.
#[export] Hint Resolve type_contract_ends : tlrpc.

Lemma check_constructors_ends names ids cs : ends (check_constructors names ids cs).
Proof. revert names ids. induction cs as [|c cs IH]; intros names ids; cbn [check_constructors]; ends. Qed.
#[export] Hint Resolve check_constructors_ends : tlrpc.

Lemma check_function_ids_ends ids fs : ends (check_function_ids ids fs).
Proof. revert ids. induction fs as [|f fs IH]; intros ids; cbn [check_function_ids]; ends. Qed.
#[export] Hint Resolve check_function_ids_ends : tlrpc.

Lemma validateDeclarationSet_ends cs fs : ends (validateDeclarationSet cs fs).
Proof. unfold validateDeclarationSet, check_variants. ends. Qed.
#[export] Hint Resolve validateDeclarationSet_ends : tlrpc.

Lemma check_removals_ends names removals : ends (check_removals names removals).
Proof. revert names. induction removals as [|n removals IH]; intros names; cbn [check_removals]; ends. Qed.
#[export] Hint Resolve check_removals_ends : tlrpc.

Lemma check_differences_ends base prev ds : ends (check_differences base prev ds).
Proof.
  revert prev. induction ds as [|d ds IH]; intros prev; cbn [check_differences]; unfold validateLayerDifference; ends.
Qed.
#[export] Hint Resolve check_differences_ends : tlrpc.

Lemma remove_names_ends {A} (this : bytes -> A -> bool) missing l names : (forall n, missing n <> OutOfFuel) -> ends (remove_names this missing l names).
Proof.
  intros Hm. revert l. induction names as [|n names IH]; intros l; cbn [remove_names]; [done|]. destruct (index _ _ _); [apply IH|].
  unfold ends. intros [= He]. by apply (Hm n).
Qed.

Lemma apply_differences_ends target ds cs fs : ends (apply_differences target ds cs fs).
Proof.
  revert cs fs. induction ds as [|d ds IH]; intros cs fs; cbn [apply_differences]; [done|]. destruct (target <? _); [done|].
  apply ends_bind; [|intros r _; apply IH]. unfold apply_difference.
  apply ends_bind; [by apply remove_names_ends|]. intros ? _. apply ends_bind; [by apply remove_names_ends|]. intros ? _.
  apply ends_bind; [apply validateDeclarationSet_ends|done].
Qed.
#[export] Hint Resolve apply_differences_ends : tlrpc.

Lemma ResolveLayer_ends base baseLayer target ds : ends (ResolveLayer base baseLayer target ds).
Proof.
  destruct base as [base|]; [|done]. unfold ResolveLayer. ends.
Qed.
#[export] Hint Resolve ResolveLayer_ends : tlrpc.

Lemma type_versions_ends layer s all versions types : ends (type_versions layer s all versions types).
Proof.
  revert all versions. induction types as [|d types IH]; intros all versions; cbn [type_versions]; [done|].
  apply ends_bind; [apply type_contract_ends|]. intros k _. destruct (contractVariantLayer _ _ _ _). apply IH.
Qed.
#[export] Hint Resolve type_versions_ends : tlrpc.

Lemma add_snapshots_ends `{MapOrder} snapshots b : ends (add_snapshots snapshots b).
Proof.
  revert b. induction snapshots as [|[layer s] snapshots IH]; intros b; cbn [add_snapshots]; [done|]. apply ends_bind; [|intros b' _; apply IH].
  unfold add_snapshot. apply ends_bind; [apply type_versions_ends|]. intros [types versions] _.
  destruct (project_all _ _ _). by destruct (project_all _ _ _).
Qed.
#[export] Hint Resolve add_snapshots_ends : tlrpc.

Lemma add_historical_ends lo hi history fs slots : ends (add_historical lo hi history fs slots).
Proof.
  revert slots. induction fs as [|f fs IH]; intros slots; cbn [add_historical]; [done|].
  destruct (intersectIntervals _ _ _) as [|i ivs]; [apply IH|]. apply ends_bind; [|intros p _; apply ends_bind; [by apply ends_ensure|intros _ _; apply IH]].
  clear IH. generalize (None : option (Key * Key)) (set_intervals (i :: ivs) (function_variant (if fn_RequestVariantLayer f =? 0 then fn_VariantLayer f else fn_RequestVariantLayer f) (fn_VariantLayer f) f)).
  induction history as [|[[[first last] s] versions] history IHh]; intros sel p; cbn [project_historical]; [done|].
  destruct (intersectIntervals _ _ _); [apply IHh|]. unfold historical_families. ends.
Qed.
#[export] Hint Resolve add_historical_ends : tlrpc.

Lemma check_family_name_ends family name snapshots : ends (check_family_name family name snapshots).
Proof.
  revert name. induction snapshots as [|s snapshots IH]; intros name; cbn [check_family_name]; [done|].
  destruct (FindType family s) as [d|]; [|apply IH]. destruct (td_Constructors d) as [|c [|]]; [done| |done]. ends.
Qed.
#[export] Hint Resolve check_family_name_ends : tlrpc.

Lemma validateBareLayouts_ends `{MapOrder} s : ends (validateBareLayouts s).
Proof.
  unfold validateBareLayouts, check_bare. ends. intros (f & seen & _ & Hf)%visit_each_Err. eapply (visitFamily_Err (bare_graph (sc_Constructors s))) in Hf as [? _];
    [done|set_solver..|]. rewrite size_dom, size_empty. lia.
Qed.
#[export] Hint Resolve validateBareLayouts_ends : tlrpc.

(** Resolving all layers ends on every input: the fuel of its searches is enough. *)
Lemma ResolveLayers_ends `{MapOrder} base baseLayer ds : ends (ResolveLayers base baseLayer ds).
Proof.
  destruct base as [base|]; [|done]. unfold ResolveLayers, validateHistoricalAcceptance, validateBareConstructorNames, validateLayeredIntervals.
  ends. apply ends_mapM. intros layer _. unfold resolve_snapshot. ends.
Qed.

(** * Bare references and the variants of constructors *)

(** The constructors of the family that a reference's variant names (the search of
    referenceConcreteTypeName in internal/generator/typeutil.go). *)
Definition named_constructors (s : Schema) (t : TypeRef) : list Constructor :=
  match FindType (FullName t) s with
  | Some d => filter (fun c => ct_VariantLayer c = tr_VariantLayer t) (td_Constructors d)
  | None => []
  end.

(** A constructor that moves to another family is a later variant of its name, but its new
    family is seen for the first time: the reference keeps variant 0, which no constructor of
    the family has, although every check passes. *)
Example moved_constructor_is_not_named :
  exists ls, ResolveLayers (H := insertion_order) (text_schema 1 "moved#1 = Before;") 1 [sample_difference 2 "moved#1 = After; holder#2 x:!After = Holder;" []] = Ok ls /\
    ValidateSchema (H := insertion_order) (ls_Schema ls) = [] /\
    map ct_VariantLayer (filter (fun c => ct_Name c = str "moved") (sc_Constructors (ls_Schema ls))) = [0; 2] /\
    map (fun c => map (fun p => (tr_VariantLayer (pa_Type p), length (named_constructors (ls_Schema ls) (pa_Type p)))) (ct_Params c))
      (filter (fun c => ct_Name c = str "holder") (sc_Constructors (ls_Schema ls))) = [[(0, 0%nat)]].
Proof. eexists. split; [by vm_compute|]. split_and!; by vm_compute. Qed.

(** When the layout of its family changes in place, the reference follows it. *)
Example changed_layout_is_named :
  map (fun c => map (fun p => (tr_VariantLayer (pa_Type p), length (named_constructors (ls_Schema sample_layers) (pa_Type p)))) (ct_Params c))
    (filter (fun c => ct_Name c = str "holder") (sc_Constructors (ls_Schema sample_layers))) = [[(0, 1%nat)]; [(3, 1%nat)]].
Proof. by vm_compute. Qed.
