(* ===== verification/Naming.v ===== *)
(** The Go names of TL identifiers (internal/naming/names.go, reserved.go).

    Identifiers are ASCII (SchemaValidate refuses other names of declarations), so a rune
    is a byte; the functions of package unicode are written out for them. *)

From stdpp Require Import base numbers list gmap strings.
From S2P Require Import Prelude SchemaAst Lexer SchemaParser SchemaLayers SchemaValidate.
Open Scope Z_scope.

Definition goKeywords : list bytes :=
  map str ["break"; "default"; "func"; "interface"; "select"; "case"; "defer"; "go"; "map"; "struct"; "chan"; "else"; "goto"; "package"; "switch";
           "const"; "fallthrough"; "if"; "range"; "type"; "continue"; "for"; "import"; "return"; "var"]%string.

Definition initialisms : list (bytes * bytes) :=
  map (fun p => (str p.1, str p.2))
    [("api", "API"); ("ascii", "ASCII"); ("cpu", "CPU"); ("css", "CSS"); ("dns", "DNS"); ("eof", "EOF"); ("guid", "GUID"); ("html", "HTML");
     ("http", "HTTP"); ("https", "HTTPS"); ("id", "ID"); ("ip", "IP"); ("json", "JSON"); ("lhs", "LHS"); ("qps", "QPS"); ("ram", "RAM");
     ("rhs", "RHS"); ("rpc", "RPC"); ("sla", "SLA"); ("smtp", "SMTP"); ("sql", "SQL"); ("ssh", "SSH"); ("tcp", "TCP"); ("tls", "TLS");
     ("ttl", "TTL"); ("udp", "UDP"); ("ui", "UI"); ("uid", "UID"); ("uuid", "UUID"); ("uri", "URI"); ("url", "URL"); ("utf8", "UTF8");
     ("vm", "VM"); ("xml", "XML")]%string.

(** * Characters *)

Definition IsUpper (c : byte) : bool := between 65 90 c.
Definition IsLower (c : byte) : bool := between 97 122 c.
Definition ToUpper (c : byte) : byte := if IsLower c then bZ (Zb c - 32) else c.
Definition ToLower (c : byte) : byte := if IsUpper c then bZ (Zb c + 32) else c.
Definition lower (s : bytes) : bytes := map ToLower s.

(** * Words *)

(** [next] is 0 at the end *)
Definition isBoundary (prev curr next : byte) : bool :=
  (IsDigit curr && negb (IsDigit prev)) || (negb (IsDigit curr) && IsDigit prev) || (IsUpper curr && IsLower prev) ||
  (IsUpper curr && negb (bool_decide (next = x00)) && IsLower next && IsUpper prev).

(** The loop of splitCamel, with the word being read and its last character. *)
Fixpoint camel_words (word : bytes) (prev : byte) (rest : bytes) : list bytes :=
  match rest with
  | [] => [word]
  | c :: rest =>
      if isBoundary prev c (match rest with n :: _ => n | [] => x00 end) then word :: camel_words [c] c rest
      else camel_words (word ++ [c]) c rest
  end.
Definition splitCamel (s : bytes) : list bytes := match s with [] => [] | c :: rest => camel_words [c] c rest end.

Definition splitWords (name : bytes) : list bytes :=
  match concat (map splitCamel (Split x5f name)) with [] => [name] | words => words end.

Definition exportWord (word : bytes) : bytes :=
  match word with
  | [] => []
  | _ =>
      match list_find (fun p => p.1 = lower word) initialisms with
      | Some (_, p) => p.2
      | None => match lower word with [] => [] | c :: rest => ToUpper c :: rest end
      end
  end.

(** * Names *)

Record Namer := { nm_reserved : list bytes }.
Definition NewNamer : Namer := {| nm_reserved := goKeywords |}.

Section namer.
Context (n : Namer).

Definition isReserved (name : bytes) : bool := bool_decide (name ∈ nm_reserved n).

Definition exported (name : bytes) : bytes :=
  match name with
  | [] => []
  | _ => let result := concat (map exportWord (splitWords name)) in if isReserved (lower name) then result ++ str "_" else result
  end.

Definition last_part (name : bytes) : bytes := default [] (last (Split x2e name)).

Definition qualify (name : bytes) (joinAll : bool) : bytes :=
  match Split x2e name with
  | [part] => exported part
  | parts =>
      if bytes_eqb (default [] (head parts)) (str "mtproto") then str "mtproto." ++ exported (last_part name)
      else if negb joinAll then exported (last_part name) else concat (map exported parts)
  end.

Definition ConstructorName (name : bytes) : bytes := qualify name true.
Definition TypeName (name : bytes) : bytes := qualify name true.
Definition MethodName (name : bytes) : bytes := exported (last_part name).
Definition RequestName (name : bytes) : bytes := exported (map (fun c => if bool_decide (c = x2e) then x5f else c) name) ++ str "Request".
Definition ServiceName (name : bytes) : bytes := exported (match name with [] => str "root" | _ => name end) ++ str "Server".
Definition FieldName (name : bytes) : bytes := exported name.
Definition PackageName (name : bytes) : bytes :=
  match name with
  | [] => str "gen"
  | _ => let pkg := lower (last_part name) in if isReserved pkg then pkg ++ str "_" else pkg
  end.
End namer.

(** The cases of names_test.go. *)
Example naming_rules :
  let n := NewNamer in
  ConstructorName n (str "userEmpty") = str "UserEmpty" /\ MethodName n (str "auth.sendCode") = str "SendCode" /\
  FieldName n (str "reply_to_msg_id") = str "ReplyToMsgID" /\ TypeName n (str "mtproto.Object") = str "mtproto.Object" /\
  FieldName n (str "type") = str "Type_" /\ ServiceName n (str "auth") = str "AuthServer" /\ PackageName n (str "auth") = str "auth".
Proof. by vm_compute. Qed.

(** * What a name keeps *)

(** A name without case and underscores. *)
Definition folded (name : bytes) : bytes := lower (filter (fun c => c <> x5f) name).
Arguments folded : simpl never.

Lemma folded_app a b : folded (a ++ b) = folded a ++ folded b.
Proof. unfold folded, lower. by rewrite filter_app, map_app. Qed.

Lemma folded_concat l : folded (concat l) = concat (map folded l).
Proof. induction l as [|x l IH]; [done|]. cbn. by rewrite folded_app, IH. Qed.

Lemma lower_fixed c : ToLower (ToLower c) = ToLower c /\ ToLower (ToUpper (ToLower c)) = ToLower c /\
  (ToLower c = x5f <-> c = x5f) /\ (ToUpper (ToLower c) = x5f <-> c = x5f).
Proof. destruct c; vm_compute; repeat split; done. Qed.

Lemma folded_lower s : folded (lower s) = folded s.
Proof.
  induction s as [|c s IH]; [done|]. unfold folded, lower in *. cbn [map]. destruct (lower_fixed c) as (H1 & _ & H3 & _). rewrite !filter_cons.
  destruct (decide (c = x5f)) as [Hc|Hc].
  - rewrite !decide_False by (rewrite ?H3; tauto). done.
  - rewrite !decide_True by (rewrite ?H3; done). cbn. by rewrite H1, IH.
Qed.

Lemma initialisms_folded : Forall (fun p : bytes * bytes => folded p.2 = folded p.1) initialisms.
Proof. unfold initialisms. repeat constructor. Qed.

Lemma exportWord_folded word : folded (exportWord word) = folded word.
Proof.
  unfold exportWord. destruct word as [|c word]; [done|]. destruct (list_find _ _) as [[i p]|] eqn:Ef.
  - apply list_find_Some in Ef as (Hi & Hp & _). pose proof initialisms_folded as Hf. rewrite Forall_forall in Hf.
    rewrite (Hf p) by (by eapply list_elem_of_lookup_2). by rewrite Hp, folded_lower.
  - rewrite <- (folded_lower (c :: word)). unfold folded, lower. cbn [map]. destruct (lower_fixed c) as (H1 & H2 & H3 & H4). rewrite !filter_cons.
    destruct (decide (c = x5f)) as [Hc|Hc]; [by rewrite !decide_False by (rewrite ?H3, ?H4; tauto)|].
    rewrite !decide_True by (rewrite ?H3, ?H4; done). cbn. by rewrite H1, H2.
Qed.

Lemma camel_words_concat word prev rest : concat (camel_words word prev rest) = word ++ rest.
Proof.
  revert word prev. induction rest as [|c rest IH]; intros word prev; cbn; [done|]. destruct (isBoundary _ _ _); cbn; rewrite IH; [done|].
  by rewrite <- app_assoc.
Qed.

Lemma splitCamel_concat s : concat (splitCamel s) = s.
Proof. destruct s; [done|]. apply camel_words_concat. Qed.

Lemma split_folded name : folded (concat (Split x5f name)) = folded name.
Proof.
  induction name as [|c name IH]; [done|]. cbn [Split]. destruct (bool_decide_reflect (c = x5f)) as [->|Hc]; [by cbn|].
  destruct (Split x5f name) as [|p ps] eqn:E; [destruct name; cbn in E; [done|]; destruct (bool_decide _); [done|]; by destruct (Split _ _)|].
  cbn [concat app]. change (c :: p ++ concat ps) with ([c] ++ (p ++ concat ps)). change (c :: name) with ([c] ++ name). rewrite !folded_app.
  f_equal. rewrite <- folded_app. exact IH.
Qed.

Lemma splitWords_folded name : folded (concat (splitWords name)) = folded name.
Proof.
  unfold splitWords. assert (Hc : concat (concat (map splitCamel (Split x5f name))) = concat (Split x5f name)).
  { induction (Split x5f name) as [|p ps IH]; [done|]. cbn. rewrite concat_app, splitCamel_concat. by f_equal. }
  destruct (concat (map splitCamel (Split x5f name))) as [|w ws]; [cbn; by rewrite app_nil_r|]. rewrite Hc. apply split_folded.
Qed.

Lemma exported_folded n name : folded (exported n name) = folded name.
Proof.
  unfold exported. destruct name as [|c name]; [done|]. set (words := splitWords _).
  assert (Hw : folded (concat (map exportWord words)) = folded (c :: name)).
  { rewrite folded_concat, map_map. rewrite (map_ext _ folded) by apply exportWord_folded. rewrite <- folded_concat. apply splitWords_folded. }
  destruct (isReserved _ _); [|done]. rewrite folded_app, Hw. apply app_nil_r.
Qed.

(** Two TL names get the same Go name only if they are the same up to case and underscores. *)
Lemma exported_collisions n a b : exported n a = exported n b -> folded a = folded b.
Proof. intros He. by rewrite <- (exported_folded n a), <- (exported_folded n b), He. Qed.

(** They do collide then: nothing in the namer keeps two fields apart. *)
Example fields_collide : FieldName NewNamer (str "user_id") = FieldName NewNamer (str "userId") /\ str "user_id" <> str "userId".
Proof. split; by vm_compute. Qed.

(** * Exported names are identifiers *)

Definition go_identifier (s : bytes) : Prop := Forall (fun c => ident_rest c = true) s.
Definition starts_upper (s : bytes) : Prop := exists c rest, s = c :: rest /\ IsUpper c = true.

Lemma rest_cases c : ident_rest c = true -> ident_rest (ToLower c) = true /\ ident_rest (ToUpper (ToLower c)) = true.
Proof. destruct c; vm_compute; intros Hc; first [discriminate Hc|by split]. Qed.

Lemma exportWord_identifier word : go_identifier word -> go_identifier (exportWord word).
Proof.
  intros Hw. unfold exportWord. destruct word as [|c word]; [constructor|]. destruct (list_find _ _) as [[i p]|] eqn:Ef.
  - apply list_find_Some in Ef as (Hi & _ & _). assert (Hall : Forall (fun p : bytes * bytes => go_identifier p.2) initialisms) by (unfold initialisms; repeat constructor).
    rewrite Forall_forall in Hall. apply Hall. by eapply list_elem_of_lookup_2.
  - inversion_clear Hw as [|? ? Hc Hrest]. cbn. constructor; [by apply rest_cases|]. apply Forall_map. eapply Forall_impl; [exact Hrest|]. intros d Hd. by apply rest_cases.
Qed.

Lemma identifier_one c : ident_rest c = true -> go_identifier [c].
Proof. intros Hc. constructor; [done|constructor]. Qed.

Lemma words_identifiers name : go_identifier name -> Forall go_identifier (splitWords name).
Proof.
  intros Hn. assert (Hsplit : forall s, go_identifier s -> Forall go_identifier (Split x5f s)).
  { intros s. induction s as [|c s IH]; intros Hs; cbn; [repeat constructor|]. inversion_clear Hs as [|? ? Hc Hrest]. specialize (IH Hrest).
    destruct (bool_decide _); [constructor; [constructor|done]|].
    destruct (Split x5f s) as [|p ps]; [constructor; [by apply identifier_one|constructor]|]. inversion_clear IH. constructor; [by constructor|done]. }
  assert (Hcamel : forall s word prev, go_identifier word -> go_identifier s -> Forall go_identifier (camel_words word prev s)).
  { intros s. induction s as [|c s IH]; intros word prev Hw Hs; cbn; [constructor; [done|constructor]|]. inversion_clear Hs as [|? ? Hc Hrest].
    destruct (isBoundary _ _ _); [constructor; [done|]|]; apply IH; try done; [by apply identifier_one|]. apply Forall_app. split; [done|by apply identifier_one]. }
  unfold splitWords. assert (Hall : Forall go_identifier (concat (map splitCamel (Split x5f name)))).
  { apply Hsplit in Hn. induction Hn as [|p ps Hp _ IH]; [constructor|]. cbn. apply Forall_app. split; [|done].
    destruct p as [|c p]; [constructor|]. inversion_clear Hp. apply Hcamel; [by apply identifier_one|done]. }
  destruct (concat _); [constructor; [done|constructor]|done].
Qed.

Lemma exported_identifier n name : go_identifier name -> go_identifier (exported n name).
Proof.
  intros Hn. unfold exported. destruct name as [|c name]; [constructor|]. apply words_identifiers in Hn.
  assert (Hc : go_identifier (concat (map exportWord (splitWords (c :: name))))).
  { induction Hn as [|w ws Hw _ IH]; [constructor|]. cbn. apply Forall_app. split; [by apply exportWord_identifier|done]. }
  destruct (isReserved _ _); [|done]. apply Forall_app. split; [done|]. repeat constructor.
Qed.

(** A name that begins with a letter is exported: its Go name begins with a capital. *)
Lemma exported_starts_upper n c name : IsUpper c || IsLower c = true -> starts_upper (exported n (c :: name)).
Proof.
  intros Hc. unfold exported.
  assert (Hfirst : exists w ws, splitWords (c :: name) = (c :: w) :: ws).
  { unfold splitWords. cbn [Split]. rewrite bool_decide_false by (intros ->; done).
    assert (Hcamel : forall s word prev, exists w ws, camel_words (c :: word) prev s = (c :: w) :: ws).
    { intros s. induction s as [|d s IH]; intros word prev; cbn; [by eexists _, _|]. destruct (isBoundary _ _ _); [by eexists _, _|]. apply (IH (word ++ [d])). }
    destruct (Split x5f name) as [|p ps]; cbn; [by eexists _, _|]. destruct (Hcamel p [] c) as (w & ws & ->). cbn. by eexists _, _. }
  destruct Hfirst as (w & ws & ->). cbn [map concat].
  assert (Hword : starts_upper (exportWord (c :: w))).
  { unfold exportWord. destruct (list_find _ _) as [[i p]|] eqn:Ef.
    - apply list_find_Some in Ef as (Hi & _ & _). assert (Hall : Forall (fun p : bytes * bytes => starts_upper p.2) initialisms) by (unfold initialisms; repeat (constructor; [by eexists _, _|]); constructor).
      rewrite Forall_forall in Hall. apply Hall. by eapply list_elem_of_lookup_2.
    - cbn. eexists _, _. split; [done|]. by destruct c. }
  destruct Hword as (u & rest & -> & Hu). destruct (isReserved _ _); cbn; by eexists _, _.
Qed.

(** So it is never a keyword, with or without the underscore that reserved words get. *)
Lemma exported_not_keyword n c name : IsUpper c || IsLower c = true -> exported n (c :: name) ∉ goKeywords.
Proof.
  intros Hc Hin. destruct (exported_starts_upper n c name Hc) as (u & rest & Heq & Hu). rewrite Heq in Hin.
  assert (Hall : Forall (fun k : bytes => match k with d :: _ => IsUpper d = false | [] => True end) goKeywords) by (unfold goKeywords; repeat constructor).
  rewrite Forall_forall in Hall. specialize (Hall _ Hin). cbn in Hall. congruence.
Qed.
