(* ===== verification/Metadata.v ===== *)
(** Request metadata (metadata.go of package tlrpc): a map from keys to values, a nil map
    being [None], and the one context value it is kept in.  Keys are ASCII. *)

From stdpp Require Import base numbers list gmap strings.
From S2P Require Import Prelude SchemaAst Naming.
Open Scope Z_scope.

Abbreviation MD := (option (gmap bytes (list bytes))).

Definition NewMD `{MapOrder} (md : gmap bytes bytes) : MD :=
  Some (foldl (fun out '(k, v) => <[lower k := [v]]> out) ∅ (in_order (map_to_list md))).

Definition Get (md : MD) (key : bytes) : list bytes := match md with None => [] | Some m => default [] (m !! lower key) end.
Definition Set_ (md : MD) (key : bytes) (values : list bytes) : MD := match md with None => None | Some m => Some (<[lower key := values]> m) end.
Definition Append (md : MD) (key : bytes) (values : list bytes) : MD :=
  match md with None => None | Some m => let key := lower key in Some (<[key := default [] (m !! key) ++ values]> m) end.
Definition Delete (md : MD) (key : bytes) : MD := match md with None => None | Some m => Some (delete (lower key) m) end.
Definition MD_Len (md : MD) : Z := match md with None => 0 | Some m => Z.of_nat (base.size m) end.
(** The copy of a nil map is an empty one. *)
Definition Copy (md : MD) : MD := Some (default ∅ md).

(** A context, as the value it holds under metadataKey. *)
Abbreviation Context_ := (option MD).
Definition NewIncomingContext (ctx : Context_) (md : MD) : Context_ := Some md.
Definition NewOutgoingContext (ctx : Context_) (md : MD) : Context_ := Some md.
Definition FromIncomingContext (ctx : Context_) : MD * bool := match ctx with Some md => (md, true) | None => (None, false) end.
Definition FromOutgoingContext (ctx : Context_) : MD * bool := match ctx with Some md => (md, true) | None => (None, false) end.

Fixpoint append_pairs (m : gmap bytes (list bytes)) (kv : list bytes) : gmap bytes (list bytes) :=
  match kv with
  | key :: val :: kv => append_pairs (<[key := default [] (m !! key) ++ [val]]> m) kv
  | _ => m
  end.

(** [None] is the panic on an odd number of arguments. *)
Definition AppendToOutgoingContext (ctx : Context_) (kv : list bytes) : option Context_ :=
  if len kv mod 2 =? 1 then None
  else
    let md := match (FromOutgoingContext ctx).1 with None => ∅ | Some m => default ∅ (Copy (Some m)) end in
    Some (NewOutgoingContext ctx (Some (append_pairs md kv))).

(** * Keys are case-insensitive in the map's own operations *)

Lemma Get_Set md key key' values : md <> None -> lower key = lower key' -> Get (Set_ md key values) key' = values.
Proof. intros Hmd Hk. destruct md as [m|]; [|done]. cbn. by rewrite Hk, lookup_insert_eq. Qed.

Lemma Get_Set_other md key key' values : lower key <> lower key' -> Get (Set_ md key values) key' = Get md key'.
Proof. intros Hk. destruct md as [m|]; [|done]. cbn. by rewrite lookup_insert_ne. Qed.

Lemma Get_Append md key key' values : md <> None -> lower key = lower key' -> Get (Append md key values) key' = Get md key' ++ values.
Proof. intros Hmd Hk. destruct md as [m|]; [|done]. cbn. by rewrite Hk, lookup_insert_eq. Qed.

Lemma Get_Delete md key key' : Get (Delete md key) key' = if decide (lower key = lower key') then [] else Get md key'.
Proof. destruct md as [m|]; cbn; [|by case_decide]. case_decide as Hk; [by rewrite Hk, lookup_delete_eq|by rewrite lookup_delete_ne]. Qed.

(** AppendToOutgoingContext keeps the case of its keys, which Get never looks up. *)
Example appended_key_is_lost :
  match AppendToOutgoingContext None [str "Trace"; str "7"] with Some ctx => Get (FromOutgoingContext ctx).1 (str "Trace") | None => [str "panic"] end = [] /\
  Get (Append (Copy None) (str "Trace") [str "7"]) (str "Trace") = [str "7"].
Proof. split; by vm_compute. Qed.

(** Incoming metadata is outgoing metadata: both are kept under one key. *)
Lemma incoming_is_outgoing ctx md : FromOutgoingContext (NewIncomingContext ctx md) = (md, true).
Proof. done. Qed.
