(* ===== verification/WebSocket.v ===== *)
(** The WebSocket transport (transport/websocket.go, ws_stream.go): which browser origins may
    connect, and the stream of bytes over WebSocket messages.

    [url.Parse], the HTTP server and the WebSocket connection are outside: the parser is a
    parameter, the connection is the messages it delivers and those it was given.  Hosts and
    origins are ASCII. *)

From stdpp Require Import base numbers list gmap strings.
From S2P Require Import Prelude SchemaAst Directives Naming.
Open Scope Z_scope.

(** * Origins *)

Record URL := { url_Scheme : bytes; url_User : bool; url_Host : bytes; url_Path : bytes; url_RawQuery : bytes; url_Fragment : bytes }.

Record WebSocketOriginPolicy := { AllowAny : bool; AllowMissing : bool; AllowedOrigins : list bytes }.

(** What the checks read of a request: its Origin header (empty when there is none), whether it came over TLS, its host. *)
Record Request := { rq_Origin : bytes; rq_TLS : bool; rq_Host : bytes }.

Section origins.
Context (Parse : bytes -> option URL).

Definition canonicalOrigin (origin : bytes) : bytes :=
  match origin with
  | [] => []
  | _ =>
      match Parse origin with
      | None => []
      | Some u => if bytes_eqb (url_Scheme u) [] || bytes_eqb (url_Host u) [] then [] else lower (url_Scheme u ++ str "://" ++ url_Host u)
      end
  end.

Definition sameOrigin (origin : bytes) (r : Request) : bool :=
  bytes_eqb origin (lower ((if rq_TLS r then str "https" else str "http") ++ str "://" ++ rq_Host r)).

Definition allowed_origins (policy : WebSocketOriginPolicy) : list bytes :=
  filter (fun o => o <> []) (map canonicalOrigin (AllowedOrigins policy)).

Definition originChecker (policy : WebSocketOriginPolicy) (r : Request) : bool :=
  if AllowAny policy then true
  else
    let allowed := allowed_origins policy in
    let allowMissing := AllowMissing policy || bool_decide (allowed = []) in
    let origin := canonicalOrigin (rq_Origin r) in
    if bytes_eqb origin [] then allowMissing
    else if negb (bool_decide (allowed = [])) then bool_decide (origin ∈ allowed)
    else sameOrigin origin r.

(** The upgrader's own check, if there is one, is asked after the policy. *)
Definition upgradeOriginChecker (policy : WebSocketOriginPolicy) (custom : option (Request -> bool)) (r : Request) : bool :=
  originChecker policy r && match custom with None => true | Some check => check r end.

Definition valid_origin (origin : bytes) : bool :=
  match Parse origin with
  | None => false
  | Some u =>
      (bytes_eqb (url_Scheme u) (str "http") || bytes_eqb (url_Scheme u) (str "https")) && negb (bytes_eqb (url_Host u) []) && negb (url_User u) &&
      (bytes_eqb (url_Path u) [] || bytes_eqb (url_Path u) (str "/")) && bytes_eqb (url_RawQuery u) [] && bytes_eqb (url_Fragment u) []
  end.
Definition validateOriginPolicy (policy : WebSocketOriginPolicy) : bool := forallb valid_origin (AllowedOrigins policy).

(** ** What the policy lets in *)

(** The URL of the empty string has no host. *)
Hypothesis parse_empty : forall u, Parse [] = Some u -> url_Host u = [].

(** A valid policy loses none of its entries. *)
Lemma valid_policy_allows policy o : validateOriginPolicy policy = true -> o ∈ AllowedOrigins policy -> canonicalOrigin o ∈ allowed_origins policy.
Proof.
  unfold validateOriginPolicy. rewrite forallb_forall. intros Hv Ho. specialize (Hv o (proj1 (list_elem_of_In _ _) Ho)). unfold valid_origin in Hv.
  apply list_elem_of_filter. split; [|by apply list_elem_of_fmap_2]. unfold canonicalOrigin.
  destruct (Parse o) as [u|] eqn:Ep; [|done]. destruct o as [|c o].
  - rewrite (parse_empty u Ep), !andb_true_iff in Hv. by destruct Hv as [[[[[_ Hh] _] _] _] _].
  - rewrite !andb_true_iff, orb_true_iff, negb_true_iff in Hv. destruct Hv as [[[[[Hs Hh] _] _] _] _]. unfold bytes_eqb in *.
    rewrite Hh. assert (Hne : url_Scheme u <> []) by (destruct Hs as [Hs|Hs]; apply bool_decide_eq_true in Hs; by rewrite Hs).
    rewrite bool_decide_false by done. cbn. unfold lower. rewrite map_app. by destruct (url_Scheme u).
Qed.

(** A request that names an origin is let in only by the wildcard, by an entry of the list
    with the same scheme and host, or, without a list, when the origin is its own; a custom
    check can only refuse more. *)
Lemma origin_policy_sound policy custom r :
  validateOriginPolicy policy = true -> canonicalOrigin (rq_Origin r) <> [] -> upgradeOriginChecker policy custom r = true ->
  (AllowAny policy = true \/ (exists o, o ∈ AllowedOrigins policy /\ canonicalOrigin o = canonicalOrigin (rq_Origin r)) \/
   AllowedOrigins policy = [] /\ sameOrigin (canonicalOrigin (rq_Origin r)) r = true) /\
  match custom with None => True | Some check => check r = true end.
Proof.
  unfold upgradeOriginChecker, originChecker. intros Hv Ho. rewrite andb_true_iff. intros [Hp Hc]. split; [|by destruct custom].
  destruct (AllowAny policy); [by left|]. right. unfold bytes_eqb in Hp. rewrite bool_decide_false in Hp by done.
  destruct (bool_decide_reflect (allowed_origins policy = [])) as [He|He]; cbn in Hp.
  - right. split; [|done]. destruct (AllowedOrigins policy) as [|o os] eqn:Eo; [done|].
    pose proof (valid_policy_allows policy o Hv ltac:(rewrite Eo; by left)) as Hin. rewrite He in Hin. by apply elem_of_nil in Hin.
  - left. apply bool_decide_eq_true in Hp. unfold allowed_origins in Hp. apply list_elem_of_filter in Hp as [_ Hp].
    apply list_elem_of_fmap in Hp as (o & Heq & Hin). by exists o.
Qed.

(** An Origin that is no URL with a scheme and a host, as the "null" of a sandboxed page,
    counts as missing: the default policy lets it in. *)
Lemma opaque_origin_is_missing r :
  (forall u, Parse (rq_Origin r) = Some u -> url_Scheme u = []) ->
  originChecker {| AllowAny := false; AllowMissing := false; AllowedOrigins := [] |} r = true.
Proof.
  intros Hn. unfold originChecker. cbn [AllowAny AllowMissing]. assert (He : canonicalOrigin (rq_Origin r) = []).
  { unfold canonicalOrigin. destruct (rq_Origin r) as [|c o]; [done|]. destruct (Parse (c :: o)) as [u|]; [|done]. by rewrite (Hn u). }
  by rewrite He.
Qed.
End origins.

(** * Subprotocols *)

Definition hasSubprotocol (headerValue subprotocol : bytes) : bool := existsb (fun item => bytes_eqb (TrimSpace item) subprotocol) (Split x2c headerValue).
Definition ensureSubprotocol (l : list bytes) (value : bytes) : list bytes := if existsb (fun item => bytes_eqb item value) l then l else l ++ [value].

Lemma ensureSubprotocol_has l value : value ∈ ensureSubprotocol l value.
Proof.
  unfold ensureSubprotocol. destruct (existsb _ l) eqn:E; [|apply elem_of_app; right; by left].
  apply existsb_exists in E as (x & Hx & He). apply bool_decide_eq_true in He as ->. by apply list_elem_of_In.
Qed.

(** * The listener *)

Definition defaultWebSocketAcceptQueue : Z := 64.
Definition defaultWebSocketReadTimeout : Z := 5 * 10 ^ 9.
Definition defaultWebSocketIdleTimeout : Z := 30 * 10 ^ 9.
Definition defaultWebSocketMaxHeaderSize : Z := Z.shiftl 8 10.
Definition resolveWebSocketReadTimeout (value : Z) : Z := if 0 <? value then value else defaultWebSocketReadTimeout.
Definition resolveWebSocketIdleTimeout (value : Z) : Z := if 0 <? value then value else defaultWebSocketIdleTimeout.
Definition resolveWebSocketMaxHeaderBytes (value : Z) : Z := if 0 <? value then value else defaultWebSocketMaxHeaderSize.
Definition queueCapacity (AcceptQueueCapacity : Z) : Z := if AcceptQueueCapacity <=? 0 then defaultWebSocketAcceptQueue else AcceptQueueCapacity.

Inductive upgrade_response := MethodNotAllowed | BadRequest | ServiceUnavailable | SlotTaken.

(** Connections are numbered by the requests that made them.  [wl_upgrading] and
    [wl_offering] are the handlers that hold an admission slot: the ones inside Upgrade, and
    those whose connection waits for room in [wl_conns]. *)
Record wsListener := { wl_capacity : Z; wl_upgrading : list Z; wl_offering : list Z; wl_conns : list Z; wl_cancelled : bool }.

Definition wl_admission (l : wsListener) : Z := Z.of_nat (length (wl_upgrading l) + length (wl_offering l)).

Definition with_handlers (upgrading offering conns : list Z) (l : wsListener) : wsListener :=
  {| wl_capacity := wl_capacity l; wl_upgrading := upgrading; wl_offering := offering; wl_conns := conns; wl_cancelled := wl_cancelled l |}.

(** The handler up to Upgrade. *)
Definition serve_request (id : Z) (method protocols : bytes) (l : wsListener) : upgrade_response * wsListener :=
  if negb (bytes_eqb method (str "GET")) then (MethodNotAllowed, l)
  else if negb (hasSubprotocol protocols (str "binary")) then (BadRequest, l)
  else if wl_admission l <? wl_capacity l then (SlotTaken, with_handlers (wl_upgrading l ++ [id]) (wl_offering l) (wl_conns l) l)
  else (ServiceUnavailable, l).

Definition remove_handler (id : Z) (ids : list Z) : list Z := filter (fun i => i <> id) ids.

(** What may happen to a listener: a request, the end of an upgrade (failed or not), a
    handler's send or its withdrawal once the listener is cancelled, Accept taking a
    connection, Close.  The event names what leaves the listener: an accepted
    connection or one that was closed. *)
Inductive listener_event := Quiet | Accepted (id : Z) | Dropped (id : Z).

Inductive listener_step : wsListener -> listener_event -> wsListener -> Prop :=
| StepRequest id method protocols l response l' :
    id ∉ wl_upgrading l -> id ∉ wl_offering l -> serve_request id method protocols l = (response, l') -> listener_step l Quiet l'
| StepUpgradeFails id l : id ∈ wl_upgrading l ->
    listener_step l Quiet (with_handlers (remove_handler id (wl_upgrading l)) (wl_offering l) (wl_conns l) l)
| StepUpgraded id l : id ∈ wl_upgrading l ->
    listener_step l Quiet (with_handlers (remove_handler id (wl_upgrading l)) (wl_offering l ++ [id]) (wl_conns l) l)
| StepSend id l : id ∈ wl_offering l -> Z.of_nat (length (wl_conns l)) < wl_capacity l ->
    listener_step l Quiet (with_handlers (wl_upgrading l) (remove_handler id (wl_offering l)) (wl_conns l ++ [id]) l)
| StepWithdraw id l : id ∈ wl_offering l -> wl_cancelled l = true ->
    listener_step l (Dropped id) (with_handlers (wl_upgrading l) (remove_handler id (wl_offering l)) (wl_conns l) l)
| StepAccept id conns l : wl_conns l = id :: conns ->
    listener_step l (Accepted id) (with_handlers (wl_upgrading l) (wl_offering l) conns l)
| StepClose l :
    listener_step l Quiet {| wl_capacity := wl_capacity l; wl_upgrading := wl_upgrading l; wl_offering := wl_offering l; wl_conns := wl_conns l; wl_cancelled := true |}.

Definition new_listener (AcceptQueueCapacity : Z) : wsListener :=
  {| wl_capacity := queueCapacity AcceptQueueCapacity; wl_upgrading := []; wl_offering := []; wl_conns := []; wl_cancelled := false |}.

(** The handlers and the accepted-but-untaken connections each stay within the capacity. *)
Definition listener_ok (l : wsListener) : Prop := 0 < wl_capacity l /\ wl_admission l <= wl_capacity l /\ Z.of_nat (length (wl_conns l)) <= wl_capacity l.

Lemma new_listener_ok capacity : listener_ok (new_listener capacity).
Proof. unfold listener_ok, new_listener, wl_admission, queueCapacity, defaultWebSocketAcceptQueue. cbn. destruct (Z.leb_spec capacity 0); lia. Qed.

Lemma remove_handler_shorter id ids : id ∈ ids -> (length (remove_handler id ids) < length ids)%nat.
Proof.
  unfold remove_handler. induction ids as [|i ids IH]; intros Hid; [by apply elem_of_nil in Hid|]. rewrite filter_cons.
  destruct (decide (i <> id)) as [Hi|Hi]; cbn [length].
  - apply elem_of_cons in Hid as [->|Hid]; [done|]. specialize (IH Hid). lia.
  - pose proof (length_filter (fun i => i <> id) ids). lia.
Qed.

Lemma listener_step_ok l event l' : listener_step l event l' -> listener_ok l -> listener_ok l'.
Proof.
  unfold listener_ok, wl_admission. intros Hs (H0 & Ha & Hc).
  destruct Hs as [id method protocols l response l' _ _ E|id l Hid|id l Hid|id l Hid Hroom|id l Hid _|id conns l Econns|l];
    try (pose proof (remove_handler_shorter _ _ Hid)); cbn [with_handlers wl_capacity wl_upgrading wl_offering wl_conns wl_cancelled] in *; rewrite ?length_app; cbn [length];
    try (split_and!; lia).
  - unfold serve_request in E. destruct (negb _); [by simplify_eq|]. destruct (negb _); [by simplify_eq|]. unfold wl_admission in E.
    destruct (Z.ltb_spec (Z.of_nat (length (wl_upgrading l) + length (wl_offering l))) (wl_capacity l)); simplify_eq; [|done].
    cbn [with_handlers wl_capacity wl_upgrading wl_offering wl_conns]. rewrite length_app. cbn [length]. split_and!; lia.
  - rewrite Econns in Hc. cbn [length] in Hc. split_and!; lia.
Qed.

(** However requests, upgrades and accepts interleave, at most twice the capacity of
    connections wait between the handshake and Accept. *)
Lemma listener_bounded capacity l :
  rtc (fun a b => exists event, listener_step a event b) (new_listener capacity) l ->
  listener_ok l /\ Z.of_nat (length (wl_offering l) + length (wl_conns l)) <= 2 * wl_capacity l.
Proof.
  intros Hr. assert (Hok : listener_ok l).
  { pattern l. refine (rtc_ind_r _ _ _ _ l Hr); [apply new_listener_ok|]. intros a b _ [event Hs]. by eapply listener_step_ok. }
  split; [done|]. destruct Hok as (_ & Ha & Hc). unfold wl_admission in Ha. lia.
Qed.

(** * The byte stream over messages *)

Inductive stream_error := ConnClosed | NonBinaryMessage | WriteFailed.

(** The messages still to come from the connection (binary or not; it fails only between messages), what is left of the one
    being read, the bytes written since the last flush and the messages sent. *)
Record wsStream := { ws_in : list (bool * bytes); ws_r : option bytes; ws_write : bytes; ws_out : list bytes }.

Definition with_reader (incoming : list (bool * bytes)) (r : option bytes) (s : wsStream) : wsStream :=
  {| ws_in := incoming; ws_r := r; ws_write := ws_write s; ws_out := ws_out s |}.

(** [chunk] is what the message's reader returns of the bytes left: a prefix of at most
    [n] of them, empty only at the end of the message. *)
Definition chunk_of (amount n : nat) (left : bytes) : nat := Nat.min (Nat.max 1 amount) (Nat.min n (length left)).

(** The loop of Read, over the messages left: with no message open the next one is opened;
    at the end of a message the loop goes on. *)
Fixpoint read_messages (amount n : nat) (incoming : list (bool * bytes)) (s : wsStream) : result stream_error bytes * wsStream :=
  match incoming with
  | [] => (Err ConnClosed, with_reader [] None s)
  | (binary, message) :: incoming =>
      if negb binary then (Err NonBinaryMessage, with_reader incoming None s)
      else match message with
           | [] => read_messages amount n incoming s
           | _ => let k := chunk_of amount n message in (Ok (take k message), with_reader incoming (Some (drop k message)) s)
           end
  end.

Definition Stream_Read (amount n : nat) (s : wsStream) : result stream_error bytes * wsStream :=
  match ws_r s with
  | Some ((_ :: _) as left) => let k := chunk_of amount n left in (Ok (take k left), with_reader (ws_in s) (Some (drop k left)) s)
  | _ => read_messages amount n (ws_in s) s
  end.

Definition Stream_Write (p : bytes) (s : wsStream) : wsStream :=
  {| ws_in := ws_in s; ws_r := ws_r s; ws_write := ws_write s ++ p; ws_out := ws_out s |}.

(** NextWriter may fail, and so may writing or closing the message; then the peer is given no
    whole message.  A failed write leaves in the buffer what the writer did not take. *)
Inductive flush_outcome := FlushSent | NextWriterFails | WriteFails (taken : nat) | CloseFails.
Definition Stream_Flush (outcome : flush_outcome) (s : wsStream) : result stream_error unit * wsStream :=
  match ws_write s with
  | [] => (Ok tt, s)
  | p =>
      match outcome with
      | NextWriterFails => (Err WriteFailed, s)
      | WriteFails taken => (Err WriteFailed, {| ws_in := ws_in s; ws_r := ws_r s; ws_write := drop taken p; ws_out := ws_out s |})
      | CloseFails => (Err WriteFailed, {| ws_in := ws_in s; ws_r := ws_r s; ws_write := []; ws_out := ws_out s |})
      | FlushSent => (Ok tt, {| ws_in := ws_in s; ws_r := ws_r s; ws_write := []; ws_out := ws_out s ++ [p] |})
      end
  end.

(** wsMTProtoConn.WriteMessage after negotiation: the codec's packet reaches the stream in
    the pieces that the buffered writer makes of it, then the stream is flushed. *)
Definition write_packet (pieces : list bytes) (outcome : flush_outcome) (s : wsStream) : result stream_error unit * wsStream :=
  Stream_Flush outcome (foldl (fun s p => Stream_Write p s) s pieces).

(** What the connection still holds for the reader, when every message is binary. *)
Definition unread (s : wsStream) : bytes := default [] (ws_r s) ++ concat (map snd (ws_in s)).

Lemma chunk_spec amount n c left rest :
  take (chunk_of amount n (c :: left)) (c :: left) ++ (drop (chunk_of amount n (c :: left)) (c :: left) ++ rest) = (c :: left) ++ rest /\
  (0 < n -> take (chunk_of amount n (c :: left)) (c :: left) <> [])%nat /\ (length (take (chunk_of amount n (c :: left)) (c :: left)) <= n)%nat.
Proof.
  split_and!; [by rewrite (assoc_L (++)), take_drop| |].
  - intros Hn. unfold chunk_of. cbn [length]. destruct (Nat.min _ _) eqn:E; [lia|done].
  - rewrite length_take. unfold chunk_of. lia.
Qed.

Lemma read_messages_spec amount n incoming s data s' :
  read_messages amount n incoming s = (Ok data, s') ->
  data ++ unread s' = concat (map snd incoming) /\ (0 < n -> data <> [])%nat /\ (length data <= n)%nat /\ ws_write s' = ws_write s /\ ws_out s' = ws_out s.
Proof.
  induction incoming as [|[binary message] incoming IH]; cbn [read_messages]; [done|]. destruct binary; cbn [negb]; [|done].
  destruct message as [|c message]; [intros H; by apply IH|]. intros [= <- <-].
  destruct (chunk_spec amount n c message (concat (map snd incoming))) as (H1 & H2 & H3). by split_and!.
Qed.

(** Message boundaries do not show in what is read: each successful read returns the next
    bytes of the concatenated messages, at least one when there is room. *)
Lemma Stream_Read_spec amount n s data s' :
  Stream_Read amount n s = (Ok data, s') ->
  data ++ unread s' = unread s /\ (0 < n -> data <> [])%nat /\ (length data <= n)%nat /\ ws_write s' = ws_write s /\ ws_out s' = ws_out s.
Proof.
  unfold Stream_Read. destruct (ws_r s) as [[|c left]|] eqn:Er.
  - intros (H1 & H2 & H3 & H4 & H5)%read_messages_spec. split_and!; try done. unfold unread at 2. by rewrite Er.
  - intros [= <- <-]. destruct (chunk_spec amount n c left (concat (map snd (ws_in s)))) as (H1 & H2 & H3).
    split; [unfold unread at 2; by rewrite Er|]. by split_and!.
  - intros (H1 & H2 & H3 & H4 & H5)%read_messages_spec. split_and!; try done. unfold unread at 2. by rewrite Er.
Qed.

(** While binary messages with data are left a read succeeds. *)
Lemma Stream_Read_progress amount n s :
  Forall (fun m => m.1 = true) (ws_in s) -> unread s <> [] -> exists data s', Stream_Read amount n s = (Ok data, s').
Proof.
  intros Hb Hu. unfold Stream_Read. assert (Hin : forall incoming, Forall (fun m => m.1 = true) incoming -> concat (map snd incoming) <> [] ->
    exists data s', read_messages amount n incoming s = (Ok data, s')).
  { intros incoming. induction incoming as [|[b message] incoming IH]; intros Hall Hne; [done|]. inversion_clear Hall as [|? ? Hb1 Hall']. cbn in Hb1. subst b. cbn.
    destruct message as [|c message]; [by apply IH|]. by eexists _, _. }
  unfold unread in Hu. destruct (ws_r s) as [[|c left]|]; [by apply Hin|by eexists _, _|by apply Hin].
Qed.

(** Every packet is exactly one message, however the buffered writer cuts it: packets sent
    one after the other arrive as one message each, in order. *)
Lemma packets_are_messages (packets : list (list bytes)) s :
  ws_write s = [] -> Forall (fun pieces => concat pieces <> []) packets ->
  foldl (fun s pieces => (write_packet pieces FlushSent s).2) s packets =
  {| ws_in := ws_in s; ws_r := ws_r s; ws_write := []; ws_out := ws_out s ++ map (@concat byte) packets |}.
Proof.
  intros Hw Hp. revert s Hw. induction Hp as [|pieces packets Hne _ IH]; intros s Hw.
  - cbn. rewrite app_nil_r. destruct s. cbn in *. by subst.
  - cbn [foldl map]. assert (Hpieces : forall ps s, foldl (fun s p => Stream_Write p s) s ps =
      {| ws_in := ws_in s; ws_r := ws_r s; ws_write := ws_write s ++ concat ps; ws_out := ws_out s |}).
    { intros ps. induction ps as [|p ps IHp]; intros s'; cbn; [rewrite app_nil_r; by destruct s'|]. rewrite IHp. cbn. by rewrite <- app_assoc. }
    unfold write_packet at 2. rewrite Hpieces, Hw. cbn [app]. unfold Stream_Flush. cbn [ws_write].
    destruct (concat pieces) as [|c p] eqn:Ec; [done|]. cbn [snd ws_in ws_r ws_out]. rewrite IH by done. cbn. by rewrite <- app_assoc.
Qed.
